(* ===== verification/_CoqProject ===== *)
-Q . S2P
Prelude.v
GoPath.v
IoFS.v
MemFS.v
NodeFS.v
Json.v
Resolve.v
Regex.v
CjsScan.v
EventLoop.v
Agents.v
HostCall.v
Counting.v
HostIO.v
Writer.v
NetConn.v
ChildProc.v
Encoding.v
Bridge.v
Engine.v
Objects.v
NodeRuntime.v
HostArg.v
Cipher.v
Kdf.v
Subtle.v
NodeKeys.v
NodeDH.v
Zlib.v
HttpReq.v
Http.v
NodeWorkers.v
FetchReq.v
ClientReq.v
Tls.v
Client.v
Dgram.v
Fetch.v
Web.v
Pool.v
