(* ===== verification/Prelude.v ===== *)
(** * go-spidermonkey: a verification library

    go-spidermonkey runs the SpiderMonkey JavaScript engine, compiled to
    WebAssembly, inside a Go process. The engine itself is generated code; what
    the repository writes by hand is the host around it: the bridge that carries
    values and calls between guest and host (src/*.go, src/internal), an
    in-memory file system (src/fs), an event loop
    (src/compat/internal/eventloop), and the Node.js, browser and Workers
    surfaces built on them (src/compat/nodejs, src/compat/web,
    src/compat/cfworkers). This library models that host code as Rocq functions
    and step relations and proves what makes it correct.

    ** The parts and how they meet

    An embedder makes an interpreter, whose memory and snapshot are [Engine]'s,
    and drives it with the calls of [Objects] and the Node runtime around them
    ([NodeRuntime]). Each call is a request and a reply on the bridge ([Bridge]).
    A guest's call of a host function comes back through hostenv.go, which decodes
    the arguments, runs the function, releases the argument roots and hands the
    reply back ([HostCall], over the JSON of [Json]); meanwhile the instance's
    lock is free for calls from within ([Engine.Calls]). The functions are those
    of node:fs ([NodeFS]), which program against the io/fs contract ([IoFS]) that
    the in-memory file system implements ([MemFS]); of node:net and its write
    actor ([NetConn], [Writer]) with node:tls over the same sockets ([Tls]); of
    node:http, the servers ([HttpReq], [Http]) and the client ([ClientReq],
    [Client]); of node:dgram ([Dgram]), child_process ([ChildProc]), zlib
    ([Zlib]) and worker_threads ([NodeWorkers]); of standard input, signals and
    file watchers ([HostIO]); of crypto ([Cipher], [Kdf], [Subtle], [NodeKeys],
    [NodeDH], over [Encoding] and [HostArg]); of fetch ([FetchReq], [Fetch]); and
    the module loaders, which find a file ([Resolve], over the paths of [GoPath])
    and make an ES module of a CommonJS file from a scan of its text ([CjsScan],
    over [Regex]). Asynchronous results come back as posts and timers of the event
    loop ([EventLoop]); [Web] is what the loop's owner does between two requests.
    Agents exchange clones of values between engine threads ([Agents]). A Workers
    pool puts instances behind an HTTP handler ([Pool]).

    ** Files, and the code they follow

    - [Prelude]: bytes and Go strings, machine integers with their wrap-around,
      results, tactics. [Counting]: multiplicities, for ownership arguments.
    - [GoPath]: package path and fs.ValidPath, guestPath and pathClean of
      runtime.go, file: URLs of resolve.go. Every path a guest names stays in the
      mounted tree.
    - [IoFS]: fs.go. [WritableFS] is a class with the laws its clients use;
      [MemFS] is its instance, so node:fs and module resolution are proved
      against the class.
    - [MemFS] (Module MemFS): fs/memfs.go. The state is the node map; an
      operation is a function to a result and a new map. The map is a tree after
      any calls but a Rename below itself; Rename, MkdirAll, WriteFile and ReadDir
      do what they say.
    - [NodeFS]: the fs_* operations of runtime.go and fsextra.go with the
      descriptor table. Descriptor reads, writes and closes, positions, the write
      cap, recursive rm and mkdir.
    - [Json]: encoding/json as the sources use it, in both directions.
    - [Resolve]: resolve.go. [range] stands for Go's map iteration order, so a
      theorem that does not restrict it holds for every run.
    - [Regex], [CjsScan]: cjs_exports.go and the loaders of runtime.go and
      nodejs.go.
    - [EventLoop]: eventloop.go. Timers and immediates live in a heap, the guest
      is an environment that answers with the loop calls it makes; [run] is the
      function of the same name. Handles are never used after they are freed,
      a cleared callback is never called, run returns when nothing is left.
    - [Agents] (Module Agents): agents.go as an interleaving of locked sections.
    - [HostCall]: value.go, hostenv.go, module.go and of object.go the handle.
      Objects are a heap and FreeObject calls a log, so ownership of handles is a
      statement about both.
    - [Bridge]: internal/js.go and the protobuf reader and writer of
      internal/spidermonkey.go: what each method sends, and what it makes of any
      reply, panics and endless loops included.
    - [Engine]: internal/newjs.go (Module Instance: mappings, snapshots, opening
      and closing) and js.go's withContext, UnlockForHostCallback and interrupter
      (Module Calls); Modules Quote and Unquote are strconv.Quote.
    - [Objects]: spidermonkey.go, object.go, function.go, bytes.go, result.go: an
      interpreter as a heap of handles with the bridge calls it made.
    - [NodeRuntime] (Module Exit for process.exit): what of runtime.go belongs to
      no other file, Install among it.
    - [Writer] (Module Writer), [NetConn] (Module Net): net.go. Worlds with the
      goroutines, posted callbacks and the loop's pending count; a label is an
      operation, a locked section, a peer's move or a posted callback. [Tls]:
      tls.go, as requests beside that world; a refinement theorem carries over
      what was shown of plain sockets.
    - [ClientReq] (Module Body for the streaming request body), [Client] (Modules
      Client for one round trip and Table for all): the client half of net.go.
    - [Dgram] (Modules Sock and Dgram): dgram.go.
    - [ChildProc] (Modules Proc for one child and Children for the tables):
      childproc.go. [HostIO] (Modules IO and Sys): hostio.go and nodeos.go.
    - [Encoding], [HostArg], [Cipher], [Kdf], [Subtle]: crypto of
      web/subtle.go, web/subtle2.go, nodejs/nodecrypto.go and nodecrypto2.go.
      [Subtle] keeps the key table; a call that needs a usage or an extractable
      key answers with a result only when the key has it. [NodeKeys], [NodeDH]:
      the key objects of nodecrypto2.go, and nodecrypto3.go.
    - [Zlib] (Module Decomp for the streaming decoder and its monitor): zlib.go.
      A stream of chunks decodes to what the one-shot call gives, and every
      caller that waits on the monitor is woken.
    - [HttpReq]: one exchange of http.go, the handler goroutine with its body
      pump and response writer; [Http]: the server table, its callbacks and the
      loop's pending count.
    - [NodeWorkers]: worker.go. The parent's and the children's sides of
      worker_threads; a worker's exit is reported once.
    - [FetchReq]: the pure half of fetch.go, hosts and ports, the dialer, headers,
      the redirect policy within net/http's redirect loop, the init object.
      [Fetch] (Module Fetch): its calls, bodies and the boundary between
      requests, as a world with the handles the guest was given.
    - [Web]: web.go, rejections, and the reset between two requests.
    - [Pool] (Modules Serve and Pool): cfworkers.go. [Serve] runs one request
      through the scripts of the host's handler; [Pool] is the pool of instances,
      their pumps and generations.

    ** What the theorems show

    The development has five layers. Data: paths, JSON, trees, keys, ciphers,
    headers and the bridge's messages have functional specifications, round trips
    and bounds ([Subtle.jwk_roundtrip], [NodeDH.dh_secrets_agree],
    [Bridge.call_meaning]). Ownership: every callback handle the guest passes is
    released once and never used after it, and where the code loses one a
    statement says so ([EventLoop.loop_handles_safe],
    [HostCall.arg_roots_released], [NetConn.net_callbacks_safe],
    [Objects.object_calls_balanced], [HostIO.host_callbacks_safe]); memory of
    instances is mapped and given back once ([Engine.instances_isolated]).
    Streams: what one side sends is what the other gets, in order and with a
    truthful end ([Writer.writer_in_order], [HttpReq.http_response_in_order],
    [Client.client_body_exact], [Fetch.fetch_body_exact],
    [ChildProc.child_output_then_exit], [Pool.serve_delivers]). Liveness of the
    loop: the pending count is what is under way ([NetConn.net_pending_exact]),
    waiting parties are woken ([Zlib.Decomp.callers_are_woken],
    [Writer.writer_settles], [HttpReq.http_request_settles],
    [Engine.with_context_waits]) and run returns when nothing is left. Policy:
    what a guest reaches is what the configuration grants
    ([GoPath.guestPath_contained], [Resolve.pattern_contained],
    [FetchReq.fetch_needs_permission], [ClientReq.outbound_first_approved],
    [Tls.tls_sockets_verified], [ChildProc.children_gated],
    [Subtle.answers_need_the_key]).

    ** What is a parameter

    The engine (a guest environment in [EventLoop], answers to calls in
    [HostCall] and [Objects], scripts in [Pool] and [NodeRuntime], the wasm
    module's exports in [Bridge] and [Engine], where the state between two loop
    heads is abstract), the operating system and the network (labels of
    [NetConn], [Http], [Client], [Dgram], [ChildProc] and [HostIO]; [ParseIP],
    [LookupIP], [connects] and [NewRequest] in [FetchReq] and [ClientReq]; what
    crypto/tls answers to a dial in [Tls]), the encoders of third parties (the
    [Codec] of [Zlib] with [CodecLaws]), and the algorithms of Go's crypto
    packages: [Aes] and [AesLaws], [Crypto] and [EcdsaLaws], [KeyLib] and
    [KeyLibLaws], [RsaLib] and [RsaLibLaws] state what their documentation
    promises, and each has an instance in its file; [Kdfs] has no laws. Clocks,
    random draws, unicode.IsPrint and map iteration orders are arguments.

    ** Fuel

    Recursion that is not structural carries fuel, and a theorem says it is
    enough: MkdirAll and the path loops take the length of the name
    ([MemFS.MkdirAll_total]); strconv's digits take 20, the length of a uint64;
    the JSON scanner takes the length of its text, and nesting the 10000 levels
    encoding/json allows; masking, key scanning and quoting take the length of the
    source; a varint takes its ten bytes and the walk over a reply's fields one
    step more than its length, and a walk that would not end is an outcome of its
    own; [EventLoop.run] takes turns, and [run_returns_when_idle] bounds them;
    removeAll takes the depth of the tree ([NodeFS.rm_recursive_exact]); the
    redirect loop takes 10, and [FetchReq.fetch_redirect_credentials] shows that
    it always answers within them; [Zlib]'s drivers take the steps of the
    caller's schedule. Where the code has no bound of its own the fuel shows it:
    loadAsFileOrDir ([Resolve.load_main_self_diverges]).

    ** Not modelled

    - The rest of src/internal/spidermonkey.go, which is generated for surfaces
      that are not used, and the wasm runtime.
    - config.go, which is a record of permissions: its fields are arguments.
    - The calls that define the globals in web.Install, and the engine set-up
      calls of newWorker and of the pool's instances; opWorkerPost and
      opWorkerTerminate, which only send to an agent.
    - What net/http does behind a ResponseWriter or a Transport: it is told by the
      errors of a Write and by the labels of the peer.
    - The JavaScript under js/, benchmarks, examples and the test262 harness.
*)

From Stdlib Require Export ZArith Lia.
From stdpp Require Export base list gmap sorting strings.

Open Scope Z_scope.

(** ** Bytes and Go strings *)

(** A Go [string] or [[]byte] is a sequence of bytes; a byte is a [Z] in
    [0, 256). *)
Abbreviation bytes := (list Z).

Definition is_byte (c : Z) : Prop := 0 <= c < 256.

(** len(b), an int. *)
Definition zlen (b : bytes) : Z := Z.of_nat (length b).

(** The bytes of a literal. *)
Definition lit (s : string) : bytes :=
  map (fun c => Z.of_N (Ascii.N_of_ascii c)) (String.list_ascii_of_string s).

Definition ch_slash : Z := 47.
Definition ch_dot : Z := 46.
Definition ch_percent : Z := 37.
Definition ch_star : Z := 42.
Definition ch_nl : Z := 10.
Definition ch_space : Z := 32.

(** Byte-range tests, as the Go sources write them ('a' <= c && c <= 'z'). *)
Definition in_range (lo hi c : Z) : bool := (lo <=? c) && (c <=? hi).
Definition is_lower (c : Z) : bool := in_range 97 122 c.
Definition is_upper (c : Z) : bool := in_range 65 90 c.
Definition is_digit (c : Z) : bool := in_range 48 57 c.

(** ** The parts of package strings the sources use *)

Definition has_prefix (s p : bytes) : bool := bool_decide (p `prefix_of` s).
Definition has_suffix (s p : bytes) : bool := bool_decide (p `suffix_of` s).

(** strings.CutPrefix. *)
Definition cut_prefix (s p : bytes) : option bytes :=
  if has_prefix s p then Some (drop (length p) s) else None.

Definition trim_prefix (s p : bytes) : bytes := default s (cut_prefix s p).

(** strings.Split with a one-byte separator: never empty. *)
Fixpoint split (sep : Z) (s : bytes) : list bytes :=
  match s with
  | [] => [[]]
  | c :: s' =>
      if c =? sep then [] :: split sep s'
      else match split sep s' with
           | [] => [[c]]
           | w :: ws => (c :: w) :: ws
           end
  end.

(** strings.Join with a one-byte separator. *)
Fixpoint join (sep : Z) (ws : list bytes) : bytes :=
  match ws with
  | [] => []
  | [w] => w
  | w :: ws' => w ++ sep :: join sep ws'
  end.

(** strings.IndexByte. *)
Fixpoint index_byte (s : bytes) (c : Z) : option nat :=
  match s with
  | [] => None
  | d :: s' => if d =? c then Some O else S <$> index_byte s' c
  end.

(** strings.Contains for one byte. *)
Definition contains_byte (s : bytes) (c : Z) : bool := bool_decide (c ∈ s).

(** strings.Contains. *)
Fixpoint contains (s sub : bytes) : bool :=
  has_prefix s sub || match s with [] => false | _ :: s' => contains s' sub end.

(** strings.TrimLeft with a one-byte cutset. *)
Fixpoint trim_left (c : Z) (s : bytes) : bytes :=
  match s with
  | d :: s' => if d =? c then trim_left c s' else s
  | [] => []
  end.

(** strconv.FormatUint(n, 10): a uint64 has at most 20 digits. *)
Fixpoint format10 (fuel : nat) (n : Z) : bytes :=
  match fuel with
  | O => []
  | S fuel' => (if n <? 10 then [] else format10 fuel' (n / 10)) ++ [48 + n mod 10]
  end.

Definition format_uint (n : Z) : bytes := format10 20 n.

(** ** Machine integers *)

Definition wrapU (w : Z) (z : Z) : Z := z mod 2 ^ w.
Definition wrapS (w : Z) (z : Z) : Z := (z + 2 ^ (w - 1)) mod 2 ^ w - 2 ^ (w - 1).

Definition u64 : Z -> Z := wrapU 64.
Definition u32 : Z -> Z := wrapU 32.
Definition i64 : Z -> Z := wrapS 64.
Definition i32 : Z -> Z := wrapS 32.

(** ** Results of fallible operations *)

Inductive result (E A : Type) : Type :=
| Ok (a : A)
| Err (e : E).
Arguments Ok {E A} a.
Arguments Err {E A} e.

Definition is_ok {E A} (r : result E A) : bool := match r with Ok _ => true | Err _ => false end.

Definition res_bind {E A B} (r : result E A) (f : A -> result E B) : result E B :=
  match r with Ok a => f a | Err e => Err e end.

Notation "'let!' x ':=' r 'in' k" := (res_bind r (fun x => k))
  (at level 10, x binder, r at level 100, k at level 200).

(** ** Automation *)

Ltac deex :=
  repeat match goal with
         | H : ∃ _, _ |- _ => destruct H
         | H : _ ∧ _ |- _ => destruct H
         end.

(** A decidable fact about concrete data. *)
Ltac by_decide :=
  match goal with |- ?P => refine (proj1 (bool_decide_eq_true P) _); vm_compute; reflexivity end.

(** Case analysis on the scrutinee of a match or an if, in the goal or in a
    hypothesis, keeping the equation. *)
Ltac case_any :=
  match goal with
  | |- context [match ?x with _ => _ end] => destruct x eqn:?
  | H : context [match ?x with _ => _ end] |- _ => destruct x eqn:?
  end.

Ltac bool_to_prop :=
  repeat match goal with
         | H : (_ && _)%bool = true |- _ => apply andb_true_iff in H; destruct H
         | H : (_ || _)%bool = false |- _ => apply orb_false_iff in H; destruct H
         | H : negb _ = true |- _ => apply negb_true_iff in H
         | H : negb _ = false |- _ => apply negb_false_iff in H
         | H : (_ =? _) = true |- _ => apply Z.eqb_eq in H
         | H : (_ =? _) = false |- _ => apply Z.eqb_neq in H
         | H : (_ <=? _) = true |- _ => apply Z.leb_le in H
         | H : (_ <=? _) = false |- _ => apply Z.leb_gt in H
         | H : (_ <? _) = true |- _ => apply Z.ltb_lt in H
         | H : (_ <? _) = false |- _ => apply Z.ltb_ge in H
         | H : bool_decide _ = true |- _ => apply bool_decide_eq_true in H
         | H : bool_decide _ = false |- _ => apply bool_decide_eq_false in H
         end.

(** ** Lemmas on strings *)

Lemma split_not_nil sep s : split sep s ≠ [].
Proof. destruct s as [|c s]; simpl; [done|]. destruct (c =? sep), (split sep s); done. Qed.

Lemma join_split sep s : join sep (split sep s) = s.
Proof.
  induction s as [|c s IH]; simpl; [done|].
  pose proof (split_not_nil sep s) as Hn.
  destruct (Z.eqb_spec c sep) as [->|Hc].
  - destruct (split sep s); [done|]. by rewrite <-IH.
  - destruct (split sep s) as [|w [|w' ws]]; simpl in *; by subst.
Qed.

Lemma split_no_sep sep s w : w ∈ split sep s → sep ∉ w.
Proof.
  revert w. induction s as [|c s IH]; simpl; intros w Hw.
  - apply list_elem_of_singleton in Hw as ->. apply not_elem_of_nil.
  - destruct (Z.eqb_spec c sep) as [->|Hc].
    + apply elem_of_cons in Hw as [->|Hw]; [apply not_elem_of_nil|]. by apply IH.
    + destruct (split sep s) as [|v vs] eqn:E.
      * apply list_elem_of_singleton in Hw as ->. intros Hs%list_elem_of_singleton. congruence.
      * apply elem_of_cons in Hw as [->|Hw].
        -- apply not_elem_of_cons; split; [done|]. apply IH. set_solver.
        -- apply IH. set_solver.
Qed.

Lemma split_no_sep_single sep s : sep ∉ s → split sep s = [s].
Proof.
  induction s as [|c s IH]; simpl; intros Hs; [done|].
  apply not_elem_of_cons in Hs as [Hc Hs].
  destruct (Z.eqb_spec c sep); [congruence|]. by rewrite IH.
Qed.

Lemma split_app sep w s : sep ∉ w → split sep (w ++ sep :: s) = w :: split sep s.
Proof.
  induction w as [|c w IH]; simpl; intros Hw.
  - by rewrite Z.eqb_refl.
  - apply not_elem_of_cons in Hw as [Hc Hw].
    destruct (Z.eqb_spec c sep); [congruence|]. by rewrite IH.
Qed.

Lemma split_join sep ws :
  ws ≠ [] → Forall (fun w => sep ∉ w) ws → split sep (join sep ws) = ws.
Proof.
  intros Hn Hf. induction Hf as [|w ws Hw Hf IH]; [done|].
  destruct ws as [|w' ws]; simpl.
  - by apply split_no_sep_single.
  - rewrite split_app by done. f_equal. by apply IH.
Qed.

Lemma join_snoc sep ws w :
  ws ≠ [] → join sep (ws ++ [w]) = join sep ws ++ sep :: w.
Proof.
  intros Hn. induction ws as [|v ws IH]; [done|].
  destruct ws as [|v' ws]; simpl in *; [done|].
  rewrite IH by done. by rewrite <-app_assoc.
Qed.

Lemma split_snoc sep s w : sep ∉ w → split sep (s ++ sep :: w) = split sep s ++ [w].
Proof.
  intros Hw. induction s as [|c s IH]; simpl.
  - by rewrite Z.eqb_refl, split_no_sep_single.
  - destruct (Z.eqb_spec c sep); [by rewrite IH|].
    rewrite IH. pose proof (split_not_nil sep s). by destruct (split sep s).
Qed.

Lemma join_app sep ws vs :
  ws ≠ [] → vs ≠ [] → join sep (ws ++ vs) = join sep ws ++ sep :: join sep vs.
Proof.
  intros Hw Hv. induction ws as [|w ws IH]; [done|].
  destruct ws as [|w' ws].
  - simpl. by destruct vs.
  - change (join sep ((w :: w' :: ws) ++ vs)) with (w ++ sep :: join sep ((w' :: ws) ++ vs)).
    rewrite IH by done. change (join sep (w :: w' :: ws)) with (w ++ sep :: join sep (w' :: ws)).
    by rewrite <-app_assoc.
Qed.

Lemma split_app_segs sep a b : split sep (a ++ sep :: b) = split sep a ++ split sep b.
Proof.
  induction a as [|c a IH]; simpl; [by rewrite Z.eqb_refl|].
  destruct (c =? sep); [by rewrite IH|].
  rewrite IH. pose proof (split_not_nil sep a). by destruct (split sep a).
Qed.

Lemma has_prefix_spec s p : has_prefix s p = true ↔ ∃ r, s = p ++ r.
Proof. unfold has_prefix. rewrite bool_decide_eq_true. done. Qed.

Lemma has_prefix_app p r : has_prefix (p ++ r) p = true.
Proof. apply has_prefix_spec. by exists r. Qed.

Lemma cut_prefix_app p r : cut_prefix (p ++ r) p = Some r.
Proof. unfold cut_prefix. by rewrite has_prefix_app, drop_app_length. Qed.

Lemma cut_prefix_Some s p r : cut_prefix s p = Some r ↔ s = p ++ r.
Proof.
  split.
  - unfold cut_prefix. case_match; [|done]. intros [= <-].
    apply has_prefix_spec in H as [r ->]. by rewrite drop_app_length.
  - intros ->. apply cut_prefix_app.
Qed.

Lemma cut_prefix_None s p : cut_prefix s p = None ↔ has_prefix s p = false.
Proof. unfold cut_prefix. by case_match. Qed.

(** ** Lemmas on machine integers *)

Lemma wrapU_range w z : 0 <= w → 0 <= wrapU w z < 2 ^ w.
Proof. intros. apply Z.mod_pos_bound. by apply Z.pow_pos_nonneg. Qed.

Lemma wrapU_small w z : 0 <= z < 2 ^ w → wrapU w z = z.
Proof. apply Z.mod_small. Qed.

Lemma wrapS_range w z : 0 < w → - 2 ^ (w - 1) <= wrapS w z < 2 ^ (w - 1).
Proof.
  intros. unfold wrapS.
  pose proof (Z.mod_pos_bound (z + 2 ^ (w - 1)) (2 ^ w)) as B.
  assert (2 ^ w = 2 * 2 ^ (w - 1)) by (rewrite <-Z.pow_succ_r by lia; f_equal; lia).
  assert (0 < 2 ^ (w - 1)) by (apply Z.pow_pos_nonneg; lia). lia.
Qed.

Lemma wrapS_small w z : 0 < w → - 2 ^ (w - 1) <= z < 2 ^ (w - 1) → wrapS w z = z.
Proof.
  intros Hw Hz. unfold wrapS.
  assert (2 ^ w = 2 * 2 ^ (w - 1)) by (rewrite <-Z.pow_succ_r by lia; f_equal; lia).
  rewrite Z.mod_small by lia. lia.
Qed.

(** One wrap-around past either end. *)
Lemma wrapS_over w z : 0 < w → 2 ^ (w - 1) <= z < 2 ^ w + 2 ^ (w - 1) → wrapS w z = z - 2 ^ w.
Proof.
  intros Hw Hz. unfold wrapS.
  assert (2 ^ w = 2 * 2 ^ (w - 1)) by (rewrite <-Z.pow_succ_r by lia; f_equal; lia).
  rewrite <-(Z.mod_add _ (-1)) by lia. rewrite Z.mod_small by lia. lia.
Qed.

Lemma wrapS_under w z : 0 < w → - 2 ^ w - 2 ^ (w - 1) <= z < - 2 ^ (w - 1) → wrapS w z = z + 2 ^ w.
Proof.
  intros Hw Hz. unfold wrapS.
  assert (2 ^ w = 2 * 2 ^ (w - 1)) by (rewrite <-Z.pow_succ_r by lia; f_equal; lia).
  rewrite <-(Z.mod_add _ 1) by lia. rewrite Z.mod_small by lia. lia.
Qed.

Create HintDb gsm discriminated.
#[export] Hint Resolve split_not_nil wrapU_range wrapS_range : gsm.
