(* ===== verification/GoPath.v ===== *)
(** Paths: the parts of Go's [path] and [io/fs] packages the sources use, the
    guest-path mapping of compat/nodejs/runtime.go ([guestPath], [pathClean])
    and the file: URL mapping of compat/nodejs/resolve.go. *)

From S2P Require Import Prelude.

(** ** Package path *)

Module Path.

(** One step of path.Clean on the stack of kept elements (top first). *)
Definition clean_step (rooted : bool) (stk : list bytes) (seg : bytes) : list bytes :=
  if bool_decide (seg = [] ∨ seg = lit ".") then stk
  else if bool_decide (seg = lit "..") then
    match stk with
    | [] => if rooted then [] else [seg]
    | top :: stk' => if bool_decide (top = lit "..") then seg :: stk else stk'
    end
  else seg :: stk.

Definition rooted (p : bytes) : bool := has_prefix p (lit "/").

Definition clean_segs (p : bytes) : list bytes :=
  rev (foldl (clean_step (rooted p)) [] (split ch_slash p)).

(** path.Clean. *)
Definition clean (p : bytes) : bytes :=
  if rooted p then ch_slash :: join ch_slash (clean_segs p)
  else match clean_segs p with
       | [] => lit "."
       | ws => join ch_slash ws
       end.

(** path.Split: the directory part keeps its slash. *)
Definition dir_part (p : bytes) : bytes :=
  match rev (split ch_slash p) with
  | _ :: ((_ :: _) as ws) => join ch_slash (rev ws) ++ [ch_slash]
  | _ => []
  end.

Definition base_part (p : bytes) : bytes := default [] (last (split ch_slash p)).

(** path.Dir. *)
Definition dir (p : bytes) : bytes := clean (dir_part p).

Fixpoint trim_right (c : Z) (s : bytes) : bytes :=
  match s with
  | [] => []
  | d :: s' => match trim_right c s' with
               | [] => if d =? c then [] else [d]
               | r => d :: r
               end
  end.

(** path.Base. *)
Definition base (p : bytes) : bytes :=
  if bool_decide (p = []) then lit "."
  else match base_part (trim_right ch_slash p) with
       | [] => lit "/"
       | b => b
       end.

(** path.Join. *)
Definition joins (elems : list bytes) : bytes :=
  match filter (fun e => e ≠ []) elems with
  | [] => []
  | ws => clean (join ch_slash ws)
  end.

Definition join2 (a b : bytes) : bytes := joins [a; b].

(** path.Ext: from the last dot of the last element. *)
Fixpoint ext_scan (acc : bytes) (s : bytes) : bytes :=
  match s with
  | [] => acc
  | c :: s' => if c =? ch_slash then ext_scan [] s'
               else if c =? ch_dot then ext_scan s s'
               else ext_scan acc s'
  end.

Definition ext (p : bytes) : bytes := ext_scan [] p.

End Path.

(** ** UTF-8 and fs.ValidPath *)

Module Utf8.

(** States of the decoder of unicode/utf8: the bytes a started rune still
    expects, the first of them within [lo, hi]. *)
Inductive st := Start | More (k : nat) (lo hi : Z).

#[export] Instance st_eq_dec : EqDecision st.
Proof. solve_decision. Defined.

Definition step (s : st) (c : Z) : option st :=
  match s with
  | Start =>
      if in_range 0 127 c then Some Start
      else if in_range 194 223 c then Some (More 0 128 191)
      else if c =? 224 then Some (More 1 160 191)
      else if in_range 225 236 c || in_range 238 239 c then Some (More 1 128 191)
      else if c =? 237 then Some (More 1 128 159)
      else if c =? 240 then Some (More 2 144 191)
      else if in_range 241 243 c then Some (More 2 128 191)
      else if c =? 244 then Some (More 2 128 143)
      else None
  | More k lo hi =>
      if in_range lo hi c then
        Some (match k with O => Start | S k' => More k' 128 191 end)
      else None
  end.

Fixpoint run (s : st) (bs : bytes) : option st :=
  match bs with
  | [] => Some s
  | c :: bs' => match step s c with Some s' => run s' bs' | None => None end
  end.

(** utf8.ValidString. *)
Definition valid (bs : bytes) : bool := bool_decide (run Start bs = Some Start).

End Utf8.

Definition seg_ok (w : bytes) : bool :=
  negb (bool_decide (w = []) || bool_decide (w = lit ".") || bool_decide (w = lit "..")).

(** fs.ValidPath. *)
Definition ValidPath (name : bytes) : bool :=
  Utf8.valid name &&
  (bool_decide (name = lit ".") || forallb seg_ok (split ch_slash name)).

(** ** compat/nodejs/runtime.go: guestPath *)

(** One iteration of [pathClean]'s loop on the kept segments (last first). *)
Definition pathClean_step (out : list bytes) (seg : bytes) : list bytes :=
  if bool_decide (seg = [] ∨ seg = lit ".") then out
  else if bool_decide (seg = lit "..") then tail out
  else seg :: out.

Definition pathClean (p : bytes) : bytes :=
  join ch_slash (rev (foldl pathClean_step [] (split ch_slash p))).

(** strings.ReplaceAll(s, "//", "/"), left to right without overlaps. *)
Fixpoint collapse2 (s : bytes) : bytes :=
  match s with
  | c :: ((d :: s') as t) =>
      if (c =? ch_slash) && (d =? ch_slash) then ch_slash :: collapse2 s'
      else c :: collapse2 t
  | _ => s
  end.

Definition guestPath (p0 : bytes) : bytes :=
  let p := trim_prefix p0 (lit "/") in
  if bool_decide (p = []) then lit "."
  else
    let cleaned := trim_prefix (collapse2 (ch_slash :: p)) (lit "/") in
    let cleaned := pathClean cleaned in
    if bool_decide (cleaned = []) then lit "." else cleaned.

(** ** compat/nodejs/resolve.go: percent-encoded file: URLs *)

Definition hex_digit (d : Z) : Z := if d <? 10 then 48 + d else 55 + d.

(** The bytes fsPathToFileURLPath writes literally. *)
Definition url_literal (c : Z) : bool :=
  bool_decide (c ∈ lit "/-._~") || is_lower c || is_upper c || is_digit c ||
  bool_decide (c ∈ lit "!$&'()*+,;=:@").

Definition encode_byte (c : Z) : bytes :=
  if url_literal c then [c]
  else [ch_percent; hex_digit (Z.shiftr c 4); hex_digit (Z.land c 15)].

Definition fsPathToFileURLPath (p : bytes) : bytes := concat (map encode_byte p).

Definition unhexDigit (c : Z) : option Z :=
  if is_digit c then Some (c - 48)
  else if in_range 97 102 c then Some (c - 97 + 10)
  else if in_range 65 70 c then Some (c - 65 + 10)
  else None.

(** The loop of percentDecode. *)
Fixpoint pd_loop (s : bytes) : bytes :=
  match s with
  | [] => []
  | c :: s1 =>
      match s1 with
      | h :: ((l :: s2) as _) =>
          if c =? ch_percent then
            match unhexDigit h, unhexDigit l with
            | Some hi, Some lo => Z.lor (Z.shiftl hi 4) lo :: pd_loop s2
            | _, _ => c :: pd_loop s1
            end
          else c :: pd_loop s1
      | _ => c :: pd_loop s1
      end
  end.

Definition percentDecode (s : bytes) : bytes :=
  if contains_byte s ch_percent then pd_loop s else s.

Definition fileURLToFSPath (s : bytes) : bytes :=
  match cut_prefix s (lit "file://") with
  | Some after => ch_slash :: percentDecode (trim_left ch_slash after)
  | None =>
      match cut_prefix s (lit "file:") with
      | Some after => ch_slash :: percentDecode (trim_left ch_slash after)
      | None => s
      end
  end.

(** moduleSchemeRE of runtime.go: ^[A-Za-z][A-Za-z0-9+.\-]*: *)
Definition scheme_tail_byte (c : Z) : bool :=
  is_lower c || is_upper c || is_digit c || bool_decide (c ∈ lit "+.-").

Fixpoint scheme_tail (s : bytes) : bool :=
  match s with
  | [] => false
  | c :: s' => if c =? 58 then true else scheme_tail_byte c && scheme_tail s'
  end.

Definition has_scheme (s : bytes) : bool :=
  match s with
  | c :: s' => (is_lower c || is_upper c) && scheme_tail s'
  | [] => false
  end.

Definition entrySpecifier (specifier : bytes) : bytes :=
  if has_scheme specifier then specifier
  else lit "file://" ++ fsPathToFileURLPath (Path.clean (ch_slash :: specifier)).

(** ** Notions the proofs use *)

(** A decoder state reached on valid input: inside a rune, a continuation
    byte is expected. *)
Definition st_ok (s : Utf8.st) : Prop :=
  match s with Utf8.Start => True | Utf8.More _ lo _ => 128 <= lo end.

(** The segments guestPath keeps. *)
Definition guest_segs (p : bytes) : list bytes :=
  rev (foldl pathClean_step [] (split ch_slash p)).

(** Segments as they occur in a valid name. *)
Definition good_segs (ws : list bytes) : Prop :=
  Forall (fun w => seg_ok w = true ∧ ch_slash ∉ w) ws.

Definition good_segsb (ws : list bytes) : bool :=
  forallb (fun w => seg_ok w && negb (contains_byte w ch_slash)) ws.

(** The name a list of segments denotes in an [fs.FS]. *)
Definition seg_name (ws : list bytes) : bytes :=
  match ws with [] => lit "." | _ => join ch_slash ws end.

(** ** Lemmas *)

Lemma seg_ok_spec w : seg_ok w = true ↔ w ≠ [] ∧ w ≠ lit "." ∧ w ≠ lit "..".
Proof.
  unfold seg_ok. rewrite negb_true_iff, !orb_false_iff, !bool_decide_eq_false. tauto.
Qed.

(** *** UTF-8 validity is compatible with splitting at an ASCII byte. *)

Lemma utf8_step_ok s c s' : st_ok s → Utf8.step s c = Some s' → st_ok s'.
Proof.
  destruct s as [|k lo hi]; simpl; intros Hs H.
  - repeat case_match; simplify_eq/=; lia.
  - repeat case_match; simplify_eq/=; lia.
Qed.

Lemma utf8_run_ok s bs s' : st_ok s → Utf8.run s bs = Some s' → st_ok s'.
Proof.
  revert s. induction bs as [|c bs IH]; simpl; intros s Hs H; [by simplify_eq|].
  destruct (Utf8.step s c) eqn:E; [|done]. eauto using utf8_step_ok.
Qed.

Lemma utf8_run_app s a b :
  Utf8.run s (a ++ b) = Utf8.run s a ≫= fun s' => Utf8.run s' b.
Proof.
  revert s. induction a as [|c a IH]; simpl; intros s; [done|].
  destruct (Utf8.step s c); simpl; [apply IH|done].
Qed.

Lemma utf8_step_ascii s c s' :
  st_ok s → 0 <= c < 128 → Utf8.step s c = Some s' → s = Utf8.Start ∧ s' = Utf8.Start.
Proof.
  destruct s as [|k lo hi]; simpl; unfold in_range; intros Hs Hc H.
  - rewrite (proj2 (Z.leb_le 0 c)), (proj2 (Z.leb_le c 127)) in H by lia.
    by simplify_eq/=.
  - simpl in Hs. rewrite (proj2 (Z.leb_gt lo c)) in H by lia. done.
Qed.

Lemma utf8_valid_cut a c b :
  0 <= c < 128 →
  Utf8.valid (a ++ c :: b) = true ↔ Utf8.valid a = true ∧ Utf8.valid b = true.
Proof.
  intros Hc. unfold Utf8.valid. rewrite !bool_decide_eq_true, utf8_run_app. split.
  - destruct (Utf8.run Utf8.Start a) as [s|] eqn:Ea; simpl; [|done].
    destruct (Utf8.step s c) as [s'|] eqn:Es; [|done]. intros Hb.
    apply utf8_step_ascii in Es as [-> ->]; [|by apply (utf8_run_ok Utf8.Start a)|done].
    done.
  - intros [-> Hb]. simpl. unfold in_range.
    by rewrite (proj2 (Z.leb_le 0 c)), (proj2 (Z.leb_le c 127)) by lia.
Qed.

Lemma utf8_valid_split c s :
  0 <= c < 128 → Utf8.valid s = true ↔ Forall (fun w => Utf8.valid w = true) (split c s).
Proof.
  intros Hc. induction s as [s IH] using (induction_ltof1 _ (@length Z)).
  unfold ltof in IH.
  destruct (decide (c ∈ s)) as [Hin|Hin].
  - apply list_elem_of_split_l in Hin as (a & b & -> & Ha).
    rewrite split_app, utf8_valid_cut, Forall_cons by done.
    rewrite <-IH; [done|]. rewrite length_app; simpl; lia.
  - rewrite split_no_sep_single by done. by rewrite Forall_singleton.
Qed.

(** *** The guest path is the lexical normal form of its argument. *)

Lemma pathClean_fold_nonempty acc ws :
  foldl pathClean_step acc (filter (fun w => w ≠ []) ws) = foldl pathClean_step acc ws.
Proof.
  revert acc. induction ws as [|w ws IH]; intros acc; [done|].
  rewrite filter_cons. case_decide as Hw; simpl; [apply IH|].
  subst w. apply IH.
Qed.

Lemma split_collapse2_app w s :
  ch_slash ∉ w →
  filter (fun w => w ≠ []) (split ch_slash (w ++ collapse2 s)) =
  filter (fun w => w ≠ []) (split ch_slash (w ++ s)).
Proof.
  revert w. induction s as [s IH] using (induction_ltof1 _ (@length Z)).
  unfold ltof in IH. intros w Hw.
  destruct s as [|c s1]; [done|]. destruct s1 as [|d s]; [done|].
  destruct (Z.eqb_spec c ch_slash) as [->|Hc].
  - destruct (Z.eqb_spec d ch_slash) as [->|Hd].
    + change (collapse2 _) with (ch_slash :: collapse2 s).
      rewrite !split_app by done.
      change (split ch_slash (ch_slash :: s)) with ([] :: split ch_slash s).
      rewrite !filter_cons, (decide_False (P := [] ≠ [])) by (by intros []).
      case_decide; [f_equal|]; apply (IH s) with (w := []);
        simpl; try lia; apply not_elem_of_nil.
    + assert (collapse2 (ch_slash :: d :: s) = ch_slash :: collapse2 (d :: s)) as ->.
      { apply Z.eqb_neq in Hd. simpl. by rewrite Hd. }
      rewrite !split_app by done. rewrite !filter_cons.
      case_decide; [f_equal|]; apply (IH (d :: s)) with (w := []);
        simpl; try lia; apply not_elem_of_nil.
  - assert (collapse2 (c :: d :: s) = c :: collapse2 (d :: s)) as ->.
    { apply Z.eqb_neq in Hc. simpl. by rewrite Hc. }
    rewrite !(cons_middle c w). rewrite !app_assoc. apply IH; [simpl; lia|].
    apply not_elem_of_app; split; [done|]. intros Hs%list_elem_of_singleton. congruence.
Qed.

Lemma split_collapse2 s :
  filter (fun w => w ≠ []) (split ch_slash (collapse2 s)) =
  filter (fun w => w ≠ []) (split ch_slash s).
Proof. apply (split_collapse2_app []), not_elem_of_nil. Qed.

Lemma pathClean_collapse2 s : pathClean (collapse2 s) = pathClean s.
Proof.
  unfold pathClean. f_equal. f_equal.
  rewrite <-pathClean_fold_nonempty, split_collapse2. apply pathClean_fold_nonempty.
Qed.

Lemma split_slash_cons p : split ch_slash (ch_slash :: p) = [] :: split ch_slash p.
Proof. done. Qed.

Lemma pathClean_slash p : pathClean (ch_slash :: p) = pathClean p.
Proof. done. Qed.

Lemma pathClean_trim p : pathClean (trim_prefix p (lit "/")) = pathClean p.
Proof.
  unfold trim_prefix. destruct (cut_prefix p (lit "/")) eqn:E; simpl; [|done].
  apply cut_prefix_Some in E as ->. done.
Qed.

Lemma pathClean_fold_ok acc ws :
  Forall (fun w => seg_ok w = true) acc →
  Forall (fun w => seg_ok w = true) (foldl pathClean_step acc ws).
Proof.
  revert acc. induction ws as [|w ws IH]; simpl; intros acc Ha; [done|].
  apply IH. unfold pathClean_step.
  repeat case_bool_decide; [done|by destruct Ha|].
  constructor; [|done]. apply seg_ok_spec. tauto.
Qed.

Lemma pathClean_fold_sub acc ws (P : bytes → Prop) :
  Forall P acc → Forall P ws → Forall P (foldl pathClean_step acc ws).
Proof.
  intros Ha Hw. revert acc Ha. induction Hw as [|w ws Hw Hws IH]; simpl; intros acc Ha; [done|].
  apply IH. unfold pathClean_step. repeat case_bool_decide; [done|by destruct Ha|by constructor].
Qed.

Lemma guest_segs_good p : good_segs (guest_segs p).
Proof.
  unfold good_segs, guest_segs. apply Forall_rev, Forall_and. split.
  - by apply pathClean_fold_ok.
  - apply pathClean_fold_sub; [done|]. apply Forall_forall. apply split_no_sep.
Qed.

Lemma good_segs_split ws :
  ws ≠ [] → good_segs ws → split ch_slash (join ch_slash ws) = ws.
Proof. intros Hn Hg. apply split_join; [done|]. eapply Forall_impl; [exact Hg|]. by intros ? []. Qed.

Lemma good_segs_join_ne ws : ws ≠ [] → good_segs ws → join ch_slash ws ≠ [].
Proof.
  intros Hn Hg He. apply (good_segs_split ws Hn) in Hg as Hs. rewrite He in Hs. simpl in Hs.
  subst ws. apply Forall_singleton in Hg as [Hg _]. by apply seg_ok_spec in Hg as [? _].
Qed.

Lemma good_segs_join_head ws :
  good_segs ws → head (join ch_slash ws) ≠ Some ch_slash.
Proof.
  intros Hg. destruct Hg as [|w ws [Hw Hs] Hg]; [done|].
  apply seg_ok_spec in Hw as [Hw _]. destruct w as [|c w]; [done|].
  destruct ws; simpl; intros [= ->]; set_solver.
Qed.

Lemma pathClean_fold_good acc ws :
  good_segs ws → foldl pathClean_step acc ws = rev ws ++ acc.
Proof.
  intros Hg. revert acc. induction Hg as [|w ws [Hw _] Hg IH]; simpl; intros acc; [done|].
  rewrite IH. apply seg_ok_spec in Hw as (?&?&?). unfold pathClean_step.
  rewrite !bool_decide_false by tauto. by rewrite <-app_assoc.
Qed.

Lemma guest_segs_join ws : good_segs ws → guest_segs (join ch_slash ws) = ws.
Proof.
  intros Hg. destruct (decide (ws = [])) as [->|Hn]; [done|].
  unfold guest_segs. rewrite good_segs_split by done.
  by rewrite pathClean_fold_good, app_nil_r, rev_involutive by done.
Qed.

Lemma guestPath_segs p : guestPath p = seg_name (guest_segs p).
Proof.
  unfold guestPath. case_bool_decide as Hp.
  - assert (guest_segs p = []) as ->; [|done].
    unfold trim_prefix in Hp. destruct (cut_prefix p (lit "/")) eqn:E; simpl in Hp; subst; [|done].
    apply cut_prefix_Some in E as ->. done.
  - rewrite pathClean_trim, pathClean_collapse2, pathClean_slash, pathClean_trim.
    unfold pathClean. change (rev _) with (guest_segs p).
    pose proof (guest_segs_good p) as Hg. destruct (guest_segs p) as [|w ws]; [done|].
    rewrite bool_decide_false; [done|]. by apply good_segs_join_ne.
Qed.

Lemma seg_name_valid ws :
  good_segs ws → Forall (fun w => Utf8.valid w = true) ws → ValidPath (seg_name ws) = true.
Proof.
  intros Hg Hu. unfold ValidPath. destruct (decide (ws = [])) as [->|Hn]; [done|].
  assert (seg_name ws = join ch_slash ws) as -> by by destruct ws.
  apply andb_true_iff. split.
  - apply (utf8_valid_split ch_slash); [done|]. by rewrite good_segs_split.
  - apply orb_true_iff. right. rewrite good_segs_split by done.
    apply forallb_forall. intros w Hw. apply list_elem_of_In in Hw.
    by destruct (proj1 (Forall_forall _ _) Hg w Hw).
Qed.

Lemma ValidPath_segs p :
  ValidPath p = true → ∃ ws, p = seg_name ws ∧ good_segs ws ∧
                             Forall (fun w => Utf8.valid w = true) ws.
Proof.
  unfold ValidPath. intros [Hu Hv]%andb_true_iff. apply orb_true_iff in Hv as [Hv|Hv].
  - apply bool_decide_eq_true in Hv as ->. exists []. split_and!; [done|by apply Forall_nil|by apply Forall_nil].
  - exists (split ch_slash p). split_and!.
    + pose proof (split_not_nil ch_slash p). unfold seg_name. destruct (split ch_slash p) eqn:E; [done|].
      rewrite <-E. by rewrite join_split.
    + apply Forall_forall. intros w Hw. split; [|by eapply split_no_sep].
      eapply forallb_forall in Hv; [exact Hv|]. by apply list_elem_of_In.
    + by apply utf8_valid_split.
Qed.

Lemma seg_name_inj ws vs : good_segs ws → good_segs vs → seg_name ws = seg_name vs → ws = vs.
Proof.
  assert (Hdot : ∀ us, us ≠ [] → good_segs us → lit "." = join ch_slash us → False).
  { intros us Hn Hg He. apply good_segs_split in Hg as Hs; [|done]. rewrite <-He in Hs.
    cbv in Hs. subst us. apply Forall_singleton in Hg as [Hg _].
    by apply seg_ok_spec in Hg as (_&?&_). }
  intros Hw Hv He. destruct ws as [|w ws], vs as [|v vs]; simpl seg_name in He; [done|..].
  - by destruct (Hdot (v :: vs)).
  - by destruct (Hdot (w :: ws)).
  - rewrite <-(good_segs_split (w :: ws)) by done.
    rewrite <-(good_segs_split (v :: vs)) by done. exact (f_equal (split ch_slash) He).
Qed.

Lemma good_segs_app ws vs : good_segs (ws ++ vs) ↔ good_segs ws ∧ good_segs vs.
Proof. apply Forall_app. Qed.

Lemma seg_name_join ws : ws ≠ [] → seg_name ws = join ch_slash ws.
Proof. by destruct ws. Qed.

Lemma seg_name_app ws vs :
  ws ≠ [] → vs ≠ [] → seg_name (ws ++ vs) = seg_name ws ++ ch_slash :: join ch_slash vs.
Proof.
  intros Hw Hv. rewrite !seg_name_join by (done || by destruct ws). by apply join_app.
Qed.

Lemma cut_prefix_segs ds ps rest :
  ds ≠ [] → good_segs ds → good_segs ps →
  cut_prefix (seg_name ps) (seg_name ds ++ [ch_slash]) = Some rest ↔
  ∃ rs, rs ≠ [] ∧ ps = ds ++ rs ∧ rest = join ch_slash rs.
Proof.
  intros Hd Hgd Hgp. rewrite cut_prefix_Some. split.
  - rewrite <-app_assoc. simpl. intros He. destruct (decide (ps = [])) as [->|Hp].
    + exfalso. rewrite (seg_name_join ds) in He by done.
      destruct (join ch_slash ds) as [|c [|? ?]]; discriminate He.
    + rewrite !seg_name_join in He by done.
      exists (split ch_slash rest). split_and!; [apply split_not_nil| |by rewrite join_split].
      rewrite <-(good_segs_split ps), He, split_app_segs, good_segs_split by done. done.
  - intros (rs & Hr & -> & ->). rewrite <-app_assoc. by apply seg_name_app.
Qed.

Lemma good_segsb_good ws : good_segsb ws = true → good_segs ws.
Proof.
  intros H. apply Forall_forall. intros w Hw%list_elem_of_In.
  apply (proj1 (forallb_forall _ _) H) in Hw. unfold contains_byte in Hw. by bool_to_prop.
Qed.

(** *** path.Clean and path.Dir on normal names *)

Lemma clean_fold_rooted acc ws :
  Forall (fun w => w ≠ lit "..") acc →
  foldl (Path.clean_step true) acc ws = foldl pathClean_step acc ws.
Proof.
  revert acc. induction ws as [|w ws IH]; simpl; intros acc Ha; [done|].
  assert (Path.clean_step true acc w = pathClean_step acc w) as ->.
  { unfold Path.clean_step, pathClean_step. repeat case_bool_decide; try done.
    destruct Ha as [|a acc Ha Hacc]; [done|]. by rewrite bool_decide_false. }
  apply IH. unfold pathClean_step. repeat case_bool_decide; [done|by destruct Ha|by constructor].
Qed.

Lemma clean_slash p : Path.clean (ch_slash :: p) = ch_slash :: join ch_slash (guest_segs p).
Proof.
  unfold Path.clean, Path.clean_segs.
  assert (Path.rooted (ch_slash :: p) = true) as -> by (apply has_prefix_spec; by exists p).
  rewrite clean_fold_rooted by apply Forall_nil_2. done.
Qed.

Lemma clean_fold_good r acc ws :
  good_segs ws → foldl (Path.clean_step r) acc ws = rev ws ++ acc.
Proof.
  intros Hg. revert acc. induction Hg as [|w ws [Hw _] Hg IH]; simpl; intros acc; [done|].
  rewrite IH. apply seg_ok_spec in Hw as (?&?&?). unfold Path.clean_step.
  rewrite !bool_decide_false by tauto. by rewrite <-app_assoc.
Qed.

Lemma join_not_rooted ws t :
  ws ≠ [] → good_segs ws → Path.rooted (join ch_slash ws ++ t) = false.
Proof.
  intros Hn Hg. apply not_true_iff_false. intros [r Hr]%has_prefix_spec.
  pose proof (good_segs_join_head _ Hg) as Hh. pose proof (good_segs_join_ne _ Hn Hg).
  destruct (join ch_slash ws); simplify_eq/=.
Qed.

Lemma split_good_slash ws :
  ws ≠ [] → good_segs ws → split ch_slash (join ch_slash ws ++ [ch_slash]) = ws ++ [[]].
Proof.
  intros Hn Hg. rewrite split_snoc by apply not_elem_of_nil. by rewrite good_segs_split.
Qed.

Lemma clean_good_slash ws :
  ws ≠ [] → good_segs ws → Path.clean (join ch_slash ws ++ [ch_slash]) = join ch_slash ws.
Proof.
  intros Hn Hg. unfold Path.clean, Path.clean_segs.
  rewrite join_not_rooted, split_good_slash by done.
  rewrite foldl_app, (clean_fold_good _ _ ws) by done.
  cbn [foldl]. change (Path.clean_step _ ?a []) with a. rewrite app_nil_r, rev_involutive. by destruct ws.
Qed.

Lemma clean_good ws : ws ≠ [] → good_segs ws → Path.clean (join ch_slash ws) = join ch_slash ws.
Proof.
  intros Hn Hg. unfold Path.clean, Path.clean_segs.
  rewrite <-(app_nil_r (join ch_slash ws)) at 1.
  rewrite join_not_rooted, good_segs_split, clean_fold_good by done.
  rewrite app_nil_r, rev_involutive. by destruct ws.
Qed.

Lemma dir_snoc ws w : good_segs (ws ++ [w]) → Path.dir (seg_name (ws ++ [w])) = seg_name ws.
Proof.
  intros Hg. unfold Path.dir, Path.dir_part.
  assert (seg_name (ws ++ [w]) = join ch_slash (ws ++ [w])) as -> by by destruct ws.
  rewrite good_segs_split by (done || by destruct ws).
  rewrite rev_app_distr. simpl. apply Forall_app in Hg as [Hg _].
  destruct (decide (ws = [])) as [->|Hn]; [done|].
  assert (rev ws ≠ []) as Hr. { intros Hr. apply Hn. by rewrite <-(rev_involutive ws), Hr. }
  destruct (rev ws) as [|v vs] eqn:E; [done|]. rewrite <-E, rev_involutive.
  rewrite clean_good_slash by done. by destruct ws.
Qed.

Lemma trim_right_last c s : last s ≠ Some c → Path.trim_right c s = s.
Proof.
  induction s as [|d s IH]; [done|]. intros Hl. simpl. destruct s as [|e s].
  - simpl in *. destruct (Z.eqb_spec d c); [congruence|done].
  - rewrite IH by done. done.
Qed.

Lemma good_segs_join_last ws :
  ws ≠ [] → good_segs ws → last (join ch_slash ws) ≠ Some ch_slash.
Proof.
  intros Hn Hg He. apply last_Some in He as [l Hl].
  apply (f_equal (split ch_slash)) in Hl.
  rewrite good_segs_split, split_snoc in Hl by (done || apply not_elem_of_nil). subst ws.
  apply good_segs_app in Hg as [_ [[Hk%seg_ok_spec _] _]%Forall_cons]. by destruct Hk.
Qed.

Lemma base_snoc ws w : good_segs (ws ++ [w]) → Path.base (seg_name (ws ++ [w])) = w.
Proof.
  intros Hg. assert (Hn : ws ++ [w] ≠ []) by by destruct ws.
  rewrite seg_name_join by done. unfold Path.base.
  rewrite bool_decide_false by by apply good_segs_join_ne.
  rewrite trim_right_last by by apply good_segs_join_last.
  unfold Path.base_part. rewrite good_segs_split, last_snoc by done. simpl.
  apply good_segs_app in Hg as [_ [[Hk%seg_ok_spec _] _]%Forall_cons]. destruct Hk. by destruct w.
Qed.

Lemma seg_name_length ws : good_segs ws → (length ws <= length (seg_name ws))%nat.
Proof.
  destruct ws as [|w ws]; [simpl; lia|]. intros Hg. rewrite seg_name_join by done.
  induction Hg as [|v vs [Hv _] Hg IH]; simpl; [lia|]. apply seg_ok_spec in Hv as [Hv _].
  destruct v as [|c v]; [done|]. destruct vs; simpl in *; [lia|].
  rewrite length_app. simpl. lia.
Qed.

Lemma dir_root : Path.dir (lit ".") = lit ".".
Proof. done. Qed.

(** *** file: URLs *)

Lemma pd_loop_literal c s : c ≠ ch_percent → pd_loop (c :: s) = c :: pd_loop s.
Proof.
  intros Hc. apply Z.eqb_neq in Hc. simpl. destruct s as [|h [|l s]]; [done..|]. by rewrite Hc.
Qed.

Lemma pd_loop_escape c s :
  is_byte c →
  pd_loop (ch_percent :: hex_digit (Z.shiftr c 4) :: hex_digit (Z.land c 15) :: s) = c :: pd_loop s.
Proof.
  intros Hc.
  assert (Hall : forallb (fun c =>
    bool_decide (unhexDigit (hex_digit (Z.shiftr c 4)) = Some (Z.shiftr c 4)) &&
    bool_decide (unhexDigit (hex_digit (Z.land c 15)) = Some (Z.land c 15)) &&
    bool_decide (Z.lor (Z.shiftl (Z.shiftr c 4) 4) (Z.land c 15) = c)) (seqZ 0 256) = true)
    by (vm_compute; reflexivity).
  assert (In c (seqZ 0 256)) as Hin.
  { apply list_elem_of_In, elem_of_seqZ. unfold is_byte in Hc. lia. }
  apply (proj1 (forallb_forall _ _) Hall) in Hin. bool_to_prop. simpl.
  by rewrite H, H1, H0.
Qed.

Lemma url_literal_not_percent c : url_literal c = true → c ≠ ch_percent.
Proof. intros H ->. vm_compute in H. done. Qed.

Lemma pd_loop_encode p :
  Forall is_byte p → pd_loop (fsPathToFileURLPath p) = p.
Proof.
  induction 1 as [|c p Hc Hp IH]; [done|].
  change (fsPathToFileURLPath (c :: p)) with (encode_byte c ++ fsPathToFileURLPath p).
  unfold encode_byte. destruct (url_literal c) eqn:E; simpl app.
  - rewrite pd_loop_literal by by apply url_literal_not_percent. by rewrite IH.
  - rewrite pd_loop_escape by done. by rewrite IH.
Qed.

Lemma pd_loop_no_percent s : ch_percent ∉ s → pd_loop s = s.
Proof.
  induction s as [|c s IH]; intros Hs; [done|]. apply not_elem_of_cons in Hs as [Hc Hs].
  rewrite pd_loop_literal by done. by rewrite IH.
Qed.

Lemma percentDecode_loop s : percentDecode s = pd_loop s.
Proof.
  unfold percentDecode, contains_byte. case_bool_decide; [done|]. by rewrite pd_loop_no_percent.
Qed.

Lemma encode_head_slash p :
  head p ≠ Some ch_slash → head (fsPathToFileURLPath p) ≠ Some ch_slash.
Proof.
  destruct p as [|c p]; [done|]. unfold fsPathToFileURLPath. simpl. unfold encode_byte.
  destruct (url_literal c); simpl; [done|]. by intros _ [=].
Qed.

Lemma trim_left_head c s : head s ≠ Some c → trim_left c s = s.
Proof.
  destruct s as [|d s]; [done|]. simpl. intros H.
  destruct (Z.eqb_spec d c); [congruence|done].
Qed.

Lemma guest_segs_bytes p : Forall is_byte p → Forall (Forall is_byte) (guest_segs p).
Proof.
  intros Hp. apply Forall_rev, pathClean_fold_sub; [done|].
  induction Hp as [|c p Hc Hp IH]; simpl; [by apply Forall_singleton, Forall_nil|].
  destruct (c =? ch_slash).
  - apply Forall_cons; split; [by apply Forall_nil|done].
  - destruct (split ch_slash p).
    + apply Forall_singleton. by apply Forall_singleton.
    + apply Forall_cons in IH as [Hl IH].
      apply Forall_cons; split; [by apply Forall_cons|done].
Qed.

Lemma join_bytes sep ws : is_byte sep → Forall (Forall is_byte) ws → Forall is_byte (join sep ws).
Proof.
  intros Hs. induction 1 as [|w ws Hw Hws IH]; [done|].
  destruct ws; simpl; [done|]. apply Forall_app; split; [done|]. by constructor.
Qed.

(** ** What the path functions guarantee *)

(** C1: Whatever path JavaScript hands a node:fs operation - absolute,
    relative, with any number of ".." and "//" - the guest path it is mapped
    to is a name [fs.ValidPath] accepts (so never one that leaves the mounted
    file system), it is path.Clean of the path taken from the root, and
    mapping it again changes nothing. *)
Theorem guestPath_contained (p : bytes) (Hutf : Utf8.valid p = true) :
  ValidPath (guestPath p) = true ∧
  guestPath p = (match Path.clean (ch_slash :: p) with
                 | [_] | [] => lit "."
                 | _ :: rel => rel
                 end) ∧
  guestPath (guestPath p) = guestPath p.
Proof.
  pose proof (guest_segs_good p) as Hg. split_and!.
  - rewrite guestPath_segs. apply seg_name_valid; [done|].
    apply Forall_rev, pathClean_fold_sub; [by apply Forall_nil|].
    by apply utf8_valid_split.
  - rewrite clean_slash, guestPath_segs. destruct (guest_segs p) as [|w ws] eqn:E; [done|].
    pose proof (good_segs_join_ne (w :: ws)) as Hn. unfold seg_name.
    destruct (join ch_slash (w :: ws)); [by destruct Hn|done].
  - rewrite !guestPath_segs. f_equal.
    destruct (guest_segs p) as [|w ws] eqn:E; [done|]. by apply guest_segs_join.
Qed.

Lemma guestPath_contained_witness :
  Utf8.valid (lit "/a/../../etc//passwd") = true ∧
  ValidPath (guestPath (lit "/a/../../etc//passwd")) = true ∧
  guestPath (lit "/a/../../etc//passwd") = lit "etc/passwd".
Proof.
  split_and!; [vm_compute; reflexivity| |vm_compute; reflexivity].
  apply (guestPath_contained (lit "/a/../../etc//passwd")). vm_compute. reflexivity.
Defined.

(** A program entry given as a plain path survives the trip through its
    file: URL: the specifier RunModule is given percent-encodes it, and
    resolution decodes exactly the cleaned absolute path back, whatever bytes
    it is made of. *)
Theorem entrySpecifier_roundtrip (s : bytes)
    (Hscheme : has_scheme s = false) (Hbytes : Forall is_byte s) :
  fileURLToFSPath (entrySpecifier s) = Path.clean (ch_slash :: s).
Proof.
  unfold entrySpecifier. rewrite Hscheme, clean_slash. unfold fileURLToFSPath.
  rewrite cut_prefix_app.
  change (fsPathToFileURLPath (ch_slash :: ?x)) with (ch_slash :: fsPathToFileURLPath x).
  change (trim_left ch_slash (ch_slash :: ?x)) with (trim_left ch_slash x).
  rewrite trim_left_head by apply encode_head_slash, good_segs_join_head, guest_segs_good.
  rewrite percentDecode_loop, pd_loop_encode; [done|].
  apply join_bytes; [by unfold is_byte, ch_slash|]. by apply guest_segs_bytes.
Qed.

Lemma entrySpecifier_roundtrip_witness :
  has_scheme (lit "app dir/100%.mjs") = false ∧
  fileURLToFSPath (entrySpecifier (lit "app dir/100%.mjs")) = lit "/app dir/100%.mjs".
Proof.
  split; [vm_compute; reflexivity|].
  rewrite (entrySpecifier_roundtrip (lit "app dir/100%.mjs")).
  - vm_compute. reflexivity.
  - vm_compute. reflexivity.
  - repeat constructor; unfold is_byte; vm_compute; intuition congruence.
Defined.
