(* ===== verification/IoFS.v ===== *)
(** Go's io/fs as the sources use it - modes, file information, errors - and
    the interface of fs.go (WritableFS) that host functions program against:
    a class of operations on a file-system state with the laws its clients
    rely on. fs/memfs.go implements it ([MemFS]); compat/nodejs's node:fs and
    module resolution are its clients. *)

From S2P Require Import Prelude GoPath.

(** ** Errors *)

Inductive ErrKind := ErrInvalid | ErrPermission | ErrExist | ErrNotExist.

Record PathError := MkPathError { pe_op : string; pe_path : bytes; pe_err : ErrKind }.

#[export] Instance ErrKind_eq_dec : EqDecision ErrKind.
Proof. solve_decision. Defined.
#[export] Instance PathError_eq_dec : EqDecision PathError.
Proof. solve_decision. Defined.

Definition kind_text (k : ErrKind) : bytes :=
  match k with
  | ErrInvalid => lit "invalid argument"
  | ErrPermission => lit "permission denied"
  | ErrExist => lit "file already exists"
  | ErrNotExist => lit "file does not exist"
  end.

(** A Go error value as the sources look at one: the errno it carries
    (errors.As), the io/fs sentinel it wraps (errors.Is) and its text. *)
Record goerr := MkErr { ge_errno : option bytes; ge_is : option ErrKind; ge_text : bytes }.

#[export] Instance goerr_eq_dec : EqDecision goerr.
Proof. solve_decision. Defined.

Definition path_goerr (e : PathError) : goerr :=
  MkErr None (Some (pe_err e))
    (lit (pe_op e) ++ [ch_space] ++ pe_path e ++ lit ": " ++ kind_text (pe_err e)).

(** errors.New, fmt.Errorf without %w. *)
Definition text_goerr (t : bytes) : goerr := MkErr None None t.

(** errnoError of compat/nodejs/runtime.go. *)
Definition errnoError (code : string) : goerr := MkErr (Some (lit code)) None (lit code).

(** ** Modes and flags *)

(** io/fs.FileMode: the directory bit is bit 31, the symlink bit is bit 27,
    the permission bits are the low nine. *)
Definition ModeDir : Z := 2147483648.
Definition ModeSymlink : Z := 134217728.
Definition ModePerm : Z := 511.
Definition IsDir (mode : Z) : bool := Z.testbit mode 31.
Definition Perm (mode : Z) : Z := Z.land mode ModePerm.

(** The flags of package os (linux). *)
Definition O_WRONLY : Z := 1.
Definition O_RDWR : Z := 2.
Definition O_CREATE : Z := 64.
Definition O_EXCL : Z := 128.
Definition O_TRUNC : Z := 512.
Definition O_APPEND : Z := 1024.

Definition has_flag (flag bit : Z) : bool := negb (Z.land flag bit =? 0).

(** What WriteFile, copyFile and closing a descriptor open a file with. *)
Definition O_REPLACE : Z := Z.lor O_WRONLY (Z.lor O_CREATE O_TRUNC).

(** ** File information *)

(** fs.FileInfo; times in nanoseconds. *)
Record fileInfo := MkInfo { i_name : bytes; i_size : Z; i_mode : Z; i_modTime : Z }.

#[export] Instance fileInfo_eq_dec : EqDecision fileInfo.
Proof. solve_decision. Defined.

(** ** The file-system interface *)

(** fs.Stat, fs.ReadFile and fs.ReadDir on the file system, the methods of
    WritableFS, and the optional Chmod and Chtimes. [fs_write name flag perm p]
    is the sequence OpenFile (for writing), Write, Close. *)
Class WritableFS (F : Type) := {
  fs_stat : F → bytes → result goerr fileInfo;
  fs_read : F → bytes → result goerr bytes;
  fs_readdir : F → bytes → result goerr (list fileInfo);
  fs_write : F → bytes → Z → Z → bytes → result goerr unit * F;
  fs_mkdir : F → bytes → Z → result goerr unit * F;
  fs_remove : F → bytes → result goerr unit * F;
  fs_rename : F → bytes → bytes → result goerr unit * F;
  fs_chmod : option (F → bytes → Z → result goerr unit * F);
  fs_chtimes : option (F → bytes → Z → Z → result goerr unit * F)
}.

(** What a client may rely on: a replaced file reads back, and writing a file
    leaves what other names hold alone. *)
Class WritableFSLaws (F : Type) `{WritableFS F} := {
  write_read_same (f f' : F) name perm p :
    fs_write f name O_REPLACE perm p = (Ok tt, f') → fs_read f' name = Ok p;
  write_read_other (f f' : F) name q flag perm p r :
    fs_write f name flag perm p = (r, f') → q ≠ name → fs_read f' q = fs_read f q
}.

(** Config.FS: nil, an fs.FS that is not a WritableFS, or one that is. *)
Inductive mount (F : Type) :=
| NoFS
| ReadOnlyFS (f : F)
| RWFS (f : F).
Arguments NoFS {F}.
Arguments ReadOnlyFS {F} f.
Arguments RWFS {F} f.

Definition mounted {F} (m : mount F) : option F :=
  match m with NoFS => None | ReadOnlyFS f | RWFS f => Some f end.

Definition remount {F} (m : mount F) (f : F) : mount F :=
  match m with NoFS => NoFS | ReadOnlyFS _ => ReadOnlyFS f | RWFS _ => RWFS f end.
