(* ===== verification/MemFS.v ===== *)
(** fs/memfs.go: the in-memory file system. A node map keyed by io/fs names,
    the operations of WritableFS on it and the three kinds of open file. The
    clock is an argument of the operations that read it. *)

From S2P Require Import Prelude GoPath IoFS.

(** What Read and ReadDir return as an error: io.EOF or a path error. *)
Inductive error := EPath (e : PathError) | EEOF.

Module MemFS.

Record node := MkNode { data : bytes; mode : Z; modTime : Z }.

#[export] Instance node_eq_dec : EqDecision node.
Proof. solve_decision. Defined.

(** fsys.nodes. *)
Abbreviation fsys := (gmap bytes node).

Definition err {A} (op : string) (name : bytes) (e : ErrKind) : result PathError A :=
  Err (MkPathError op name e).

Definition NewMemFS (now : Z) : fsys :=
  {[ lit "." := MkNode [] (Z.lor ModeDir 493) now ]}.

(** *** File information and open files *)

Definition infoOf (name : bytes) (n : node) : fileInfo :=
  MkInfo (Path.base name) (Z.of_nat (length (data n))) (mode n) (modTime n).

Record readHandle := MkRead { rh_info : fileInfo; rh_data : bytes; rh_pos : nat }.
Record dirHandle := MkDir { dh_info : fileInfo; dh_entries : list fileInfo; dh_pos : nat }.
Record writeHandle := MkWrite { wh_name : bytes; wh_flag : Z; wh_pos : nat }.

Inductive file :=
| FRead (h : readHandle)
| FDir (h : dirHandle)
| FWrite (h : writeHandle).

(** Go's string order. *)
Fixpoint bytes_leb (a b : bytes) : bool :=
  match a, b with
  | [], _ => true
  | _ :: _, [] => false
  | c :: a', d :: b' => (c <? d) || ((c =? d) && bytes_leb a' b')
  end.

Definition info_le (a b : fileInfo) : Prop := bytes_leb (i_name a) (i_name b) = true.

#[export] Instance info_le_dec a b : Decision (info_le a b).
Proof. unfold info_le. apply _. Defined.

(** The children of a directory, sorted by name. The names of the children
    of one directory are pairwise different, so every sort gives this list. *)
Definition entriesLocked (m : fsys) (dir : bytes) : list fileInfo :=
  merge_sort info_le
    (map (fun pn => infoOf pn.1 pn.2)
         (filter (fun pn => pn.1 ≠ lit "." ∧ Path.dir pn.1 = dir) (map_to_list m))).

Definition checkParentLocked (m : fsys) (op : string) (name : bytes) : result PathError unit :=
  match m !! Path.dir name with
  | None => err op name ErrNotExist
  | Some p => if IsDir (mode p) then Ok tt else err op name ErrInvalid
  end.

(** *** Operations *)

Definition Open (m : fsys) (name : bytes) : result PathError file :=
  if negb (ValidPath name) then err "open" name ErrInvalid
  else match m !! name with
       | None => err "open" name ErrNotExist
       | Some n =>
           if IsDir (mode n) then Ok (FDir (MkDir (infoOf name n) (entriesLocked m name) 0))
           else Ok (FRead (MkRead (infoOf name n) (data n) 0))
       end.

Definition OpenFile (m : fsys) (name : bytes) (flag perm now : Z)
  : result PathError file * fsys :=
  if Z.land flag (Z.lor O_WRONLY (Z.lor O_RDWR (Z.lor O_APPEND (Z.lor O_CREATE O_TRUNC)))) =? 0
  then (Open m name, m)
  else if negb (ValidPath name) || bool_decide (name = lit ".") then
    (err "open" name ErrInvalid, m)
  else
    let finish (n : node) :=
      let h := MkWrite name flag (if has_flag flag O_APPEND then length (data n) else 0%nat) in
      (Ok (FWrite h), <[ name := MkNode (data n) (mode n) now ]> m) in
    match m !! name with
    | Some n =>
        if IsDir (mode n) then (err "open" name ErrInvalid, m)
        else if has_flag flag O_CREATE && has_flag flag O_EXCL then (err "open" name ErrExist, m)
        else finish (if has_flag flag O_TRUNC then MkNode [] (mode n) (modTime n) else n)
    | None =>
        if Z.land flag O_CREATE =? 0 then (err "open" name ErrNotExist, m)
        else match checkParentLocked m "open" name with
             | Err e => (Err e, m)
             | Ok _ => finish (MkNode [] (Perm perm) 0)
             end
    end.

Definition Mkdir (m : fsys) (name : bytes) (perm now : Z) : result PathError unit * fsys :=
  if negb (ValidPath name) || bool_decide (name = lit ".") then (err "mkdir" name ErrInvalid, m)
  else match m !! name with
       | Some _ => (err "mkdir" name ErrExist, m)
       | None =>
           match checkParentLocked m "mkdir" name with
           | Err e => (Err e, m)
           | Ok _ => (Ok tt, <[ name := MkNode [] (Z.lor ModeDir (Perm perm)) now ]> m)
           end
       end.

(** The end of MkdirAll: Mkdir, whose failure is ignored when the name is
    already a directory. *)
Definition MkdirAll_self (m : fsys) (name : bytes) (perm now : Z) : result PathError unit * fsys :=
  let '(r, m') := Mkdir m name perm now in
  match r with
  | Ok _ => (r, m')
  | Err _ => match m' !! name with
             | Some n => if IsDir (mode n) then (Ok tt, m') else (r, m')
             | None => (r, m')
             end
  end.

(** MkdirAll calls itself on path.Dir: the fuel bounds the depth, [None] is
    running out of it. [now] gives the time of each directory's creation. *)
Fixpoint MkdirAll_fuel (fuel : nat) (m : fsys) (name : bytes) (perm : Z) (now : bytes → Z)
  : option (result PathError unit * fsys) :=
  match fuel with
  | O => None
  | S fuel' =>
      if negb (ValidPath name) then Some (err "mkdir" name ErrInvalid, m)
      else if bool_decide (name = lit ".") then Some (Ok tt, m)
      else
        let parent := Path.dir name in
        if bool_decide (parent = lit ".") then Some (MkdirAll_self m name perm (now name))
        else match MkdirAll_fuel fuel' m parent perm now with
             | None => None
             | Some (Err e, m') => Some (Err e, m')
             | Some (Ok _, m') => Some (MkdirAll_self m' name perm (now name))
             end
  end.

Definition MkdirAll (m : fsys) (name : bytes) (perm : Z) (now : bytes → Z)
  : option (result PathError unit * fsys) :=
  MkdirAll_fuel (S (length name)) m name perm now.

Definition Remove (m : fsys) (name : bytes) : result PathError unit * fsys :=
  if negb (ValidPath name) || bool_decide (name = lit ".") then (err "remove" name ErrInvalid, m)
  else match m !! name with
       | None => (err "remove" name ErrNotExist, m)
       | Some n =>
           if IsDir (mode n) &&
              existsb (fun pn => bool_decide (Path.dir pn.1 = name)) (map_to_list m)
           then (err "remove" name ErrInvalid, m)
           else (Ok tt, delete name m)
       end.

(** The loop that moves a subtree: [order] is the sequence of keys the map
    iteration produces. Go leaves it unspecified whether a key inserted by
    the loop is produced; a key deleted before it is reached is not. *)
Fixpoint rename_loop (prefix newname : bytes) (order : list bytes) (m : fsys) : fsys :=
  match order with
  | [] => m
  | p :: order' =>
      rename_loop prefix newname order'
        (match m !! p with
         | Some child =>
             match cut_prefix p prefix with
             | Some rest => <[ newname ++ ch_slash :: rest := child ]> (delete p m)
             | None => m
             end
         | None => m
         end)
  end.

Definition Rename (m : fsys) (oldname newname : bytes) (order : list bytes)
  : result PathError unit * fsys :=
  if negb (ValidPath oldname) || bool_decide (oldname = lit ".") then
    (err "rename" oldname ErrInvalid, m)
  else if negb (ValidPath newname) || bool_decide (newname = lit ".") then
    (err "rename" newname ErrInvalid, m)
  else match m !! oldname with
       | None => (err "rename" oldname ErrNotExist, m)
       | Some n =>
           if match m !! newname with Some target => IsDir (mode target) | None => false end
           then (err "rename" newname ErrExist, m)
           else match checkParentLocked m "rename" newname with
                | Err e => (Err e, m)
                | Ok _ =>
                    let m1 := <[ newname := n ]> (delete oldname m) in
                    (Ok tt, if IsDir (mode n)
                            then rename_loop (oldname ++ [ch_slash]) newname order m1
                            else m1)
                end
       end.

Definition Chmod (m : fsys) (name : bytes) (mode' : Z) : result PathError unit * fsys :=
  if negb (ValidPath name) then (err "chmod" name ErrInvalid, m)
  else match m !! name with
       | None => (err "chmod" name ErrNotExist, m)
       | Some n =>
           (Ok tt, <[ name := MkNode (data n) (Z.lor (Z.ldiff (mode n) ModePerm) (Perm mode'))
                                     (modTime n) ]> m)
       end.

Definition Chtimes (m : fsys) (name : bytes) (atime mtime : Z) : result PathError unit * fsys :=
  if negb (ValidPath name) then (err "chtimes" name ErrInvalid, m)
  else match m !! name with
       | None => (err "chtimes" name ErrNotExist, m)
       | Some n => (Ok tt, <[ name := MkNode (data n) (mode n) mtime ]> m)
       end.

(** *** Open files *)

(** readHandle.Read into a buffer of [plen] bytes. *)
Definition read_Read (h : readHandle) (plen : nat) : result error bytes * readHandle :=
  if (length (rh_data h) <=? rh_pos h)%nat then (Err EEOF, h)
  else let got := take plen (drop (rh_pos h) (rh_data h)) in
       (Ok got, MkRead (rh_info h) (rh_data h) (rh_pos h + length got)).

Definition dir_Read (h : dirHandle) : result PathError bytes :=
  err "read" (i_name (dh_info h)) ErrInvalid.

Definition dir_ReadDir (h : dirHandle) (count : Z)
  : result error (list fileInfo) * dirHandle :=
  let rest := drop (dh_pos h) (dh_entries h) in
  if count <=? 0 then
    (Ok rest, MkDir (dh_info h) (dh_entries h) (length (dh_entries h)))
  else match rest with
       | [] => (Err EEOF, h)
       | _ => let k := Nat.min (Z.to_nat count) (length rest) in
              (Ok (take k rest), MkDir (dh_info h) (dh_entries h) (dh_pos h + k))
       end.

(** [copy(dst[pos:], p)] on a slice long enough, as the callers ensure. *)
Definition copy_at (dst : bytes) (pos : nat) (p : bytes) : bytes :=
  take pos dst ++ p ++ drop (pos + length p) dst.

(** writeHandle.Write: the node is looked up by name at each call. *)
Definition write_Write (m : fsys) (h : writeHandle) (p : bytes) (now : Z)
  : result PathError nat * fsys * writeHandle :=
  match m !! wh_name h with
  | None => (err "write" (wh_name h) ErrNotExist, m, h)
  | Some n =>
      let pos := if has_flag (wh_flag h) O_APPEND then length (data n) else wh_pos h in
      let grow := (pos + length p - length (data n))%nat in
      let grown := data n ++ replicate grow 0 in
      (Ok (length p),
       <[ wh_name h := MkNode (copy_at grown pos p) (mode n) now ]> m,
       MkWrite (wh_name h) (wh_flag h) (pos + length p))
  end.

Definition write_Read (m : fsys) (h : writeHandle) (plen : nat)
  : result error bytes * writeHandle :=
  if Z.land (wh_flag h) (Z.lor O_WRONLY O_RDWR) =? O_WRONLY then
    (Err (EPath (MkPathError "read" (wh_name h) ErrInvalid)), h)
  else match m !! wh_name h with
       | None => (Err (EPath (MkPathError "write" (wh_name h) ErrNotExist)), h)
       | Some n =>
           if (length (data n) <=? wh_pos h)%nat then (Err EEOF, h)
           else let got := take plen (drop (wh_pos h) (data n)) in
                (Ok got, MkWrite (wh_name h) (wh_flag h) (wh_pos h + length got))
       end.

Definition write_Stat (m : fsys) (h : writeHandle) : result PathError fileInfo :=
  match m !! wh_name h with
  | None => err "write" (wh_name h) ErrNotExist
  | Some n => Ok (infoOf (wh_name h) n)
  end.

(** WriteFile: open for writing, one Write, Close. A file opened for writing
    is always a writeHandle; the other cases have no Write. *)
Definition WriteFile (m : fsys) (name p : bytes) (perm now : Z) : result PathError unit * fsys :=
  match OpenFile m name (Z.lor O_WRONLY (Z.lor O_CREATE O_TRUNC)) perm now with
  | (Err e, m') => (Err e, m')
  | (Ok (FWrite h), m') =>
      let '(r, m'', _) := write_Write m' h p now in
      (match r with Ok _ => Ok tt | Err e => Err e end, m'')
  | (Ok _, m') => (err "write" name ErrInvalid, m')
  end.

(** io.ReadAll on a readHandle, reading [plen] bytes at a time; [None] is
    running out of fuel. *)
Fixpoint ReadAll (fuel plen : nat) (h : readHandle) : option bytes :=
  match fuel with
  | O => None
  | S fuel' =>
      match read_Read h plen with
      | (Err _, _) => Some []
      | (Ok got, h') => app got <$> ReadAll fuel' plen h'
      end
  end.

(** ReadDir in pages of [count] entries until io.EOF. *)
Fixpoint ReadDirPages (fuel : nat) (count : Z) (h : dirHandle) : option (list fileInfo) :=
  match fuel with
  | O => None
  | S fuel' =>
      match dir_ReadDir h count with
      | (Err _, _) => Some []
      | (Ok got, h') => app got <$> ReadDirPages fuel' count h'
      end
  end.

Definition bytes_lt (a b : bytes) : Prop := bytes_leb a b = true ∧ a ≠ b.

(** *** Commands, their sequences and the invariant *)

(** Every call that can change the node map, with what it reads from its
    environment: the clock, and for Rename the order of the map iteration. *)
Inductive cmd :=
| COpenFile (name : bytes) (flag perm now : Z)
| CMkdir (name : bytes) (perm now : Z)
| CMkdirAll (name : bytes) (perm : Z) (now : bytes → Z)
| CRemove (name : bytes)
| CRename (oldname newname : bytes) (order : list bytes)
| CChmod (name : bytes) (mode' : Z)
| CChtimes (name : bytes) (atime mtime : Z)
| CWriteFile (name p : bytes) (perm now : Z)
| CWrite (h : writeHandle) (p : bytes) (now : Z).

Definition exec (m : fsys) (c : cmd) : fsys :=
  match c with
  | COpenFile name flag perm now => (OpenFile m name flag perm now).2
  | CMkdir name perm now => (Mkdir m name perm now).2
  | CMkdirAll name perm now => from_option snd m (MkdirAll m name perm now)
  | CRemove name => (Remove m name).2
  | CRename oldname newname order => (Rename m oldname newname order).2
  | CChmod name mode' => (Chmod m name mode').2
  | CChtimes name atime mtime => (Chtimes m name atime mtime).2
  | CWriteFile name p perm now => (WriteFile m name p perm now).2
  | CWrite h p now => (write_Write m h p now).1.2
  end.

(** Strictly below a directory. *)
Definition under (dir p : bytes) : bool := has_prefix p (dir ++ [ch_slash]).

(** A Rename's environment is admissible when the iteration produces every key
    of the map; the target is outside the moved subtree. *)
Definition cmd_ok (m : fsys) (c : cmd) : Prop :=
  match c with
  | CRename oldname newname order =>
      under oldname newname = false ∧ ∀ p, is_Some (m !! p) → p ∈ order
  | _ => True
  end.

Fixpoint cmds_ok (m : fsys) (cs : list cmd) : Prop :=
  match cs with
  | [] => True
  | c :: cs' => cmd_ok m c ∧ cmds_ok (exec m c) cs'
  end.

Definition is_dir_at (m : fsys) (p : bytes) : Prop := ∃ n, m !! p = Some n ∧ IsDir (mode n) = true.

(** The node map is a tree: the root is a directory, every name is a valid
    one, and its parent is a directory that exists. *)
Record wf (m : fsys) : Prop := {
  wf_root : is_dir_at m (lit ".");
  wf_valid p n : m !! p = Some n → ValidPath p = true;
  wf_parent p n : m !! p = Some n → is_dir_at m (Path.dir p)
}.

(** *** Lemmas: the tree invariant *)

Implicit Types m : fsys.
Implicit Types p q name : bytes.
Implicit Types n d k : node.

Lemma is_dir_at_insert m q p n :
  is_dir_at m p → (p = q → IsDir (mode n) = true) → is_dir_at (<[q := n]> m) p.
Proof.
  intros (d & Hd & Hm) Hq. destruct (decide (p = q)) as [->|].
  - exists n. rewrite lookup_insert_eq. auto.
  - exists d. by rewrite lookup_insert_ne.
Qed.

Lemma wf_insert m name n :
  wf m → ValidPath name = true → is_dir_at m (Path.dir name) →
  (∀ d, m !! name = Some d → IsDir (mode d) = true → IsDir (mode n) = true) →
  wf (<[name := n]> m).
Proof.
  intros [Hr Hv Hp] Hn Hd Hk.
  assert (Hkeep : ∀ p, is_dir_at m p → is_dir_at (<[name := n]> m) p).
  { intros p Hpd. apply is_dir_at_insert; [done|]. intros ->.
    destruct Hpd as (d & ? & ?). eauto. }
  split; [by apply Hkeep|..]; intros p k; rewrite lookup_insert_Some;
    intros [[<- _]|[_ Hl]]; eauto.
Qed.

Lemma wf_update m name n n' :
  wf m → m !! name = Some n → IsDir (mode n') = IsDir (mode n) → wf (<[name := n']> m).
Proof.
  intros Hwf Hn Hm. apply wf_insert; [done|by eapply wf_valid|by eapply wf_parent|].
  intros d ??. simplify_eq. congruence.
Qed.

Lemma wf_delete m name :
  wf m → name ≠ lit "." →
  (∀ p n, m !! p = Some n → p ≠ name → Path.dir p ≠ name) → wf (delete name m).
Proof.
  intros [(d & Hd & Hdm) Hv Hp] Hne Hno.
  split.
  - exists d. by rewrite lookup_delete_ne.
  - intros p n [_ Hl]%lookup_delete_Some. eauto.
  - intros p n [Hpn Hl]%lookup_delete_Some. destruct (Hp _ _ Hl) as (k & ? & ?).
    exists k. rewrite lookup_delete_ne; [done|]. intros He. by apply (Hno p n Hl (not_eq_sym Hpn)).
Qed.

(** The same with the guard of Remove. *)
Lemma no_children m name :
  existsb (fun pn => bool_decide (Path.dir pn.1 = name)) (map_to_list m) = false →
  ∀ p n, m !! p = Some n → Path.dir p ≠ name.
Proof.
  intros He p n Hp Hd. apply not_true_iff_false in He. apply He, existsb_exists.
  exists (p, n). split; [by apply list_elem_of_In, elem_of_map_to_list|]. by apply bool_decide_eq_true.
Qed.

Lemma wf_key_segs m p n : wf m → m !! p = Some n → ∃ ws, p = seg_name ws ∧ good_segs ws.
Proof. intros Hwf Hp. destruct (ValidPath_segs p) as (ws & ? & ? & ?); eauto using wf_valid. Qed.

Lemma wf_ancestor m ds rs n :
  wf m → good_segs (ds ++ rs) → rs ≠ [] → m !! seg_name (ds ++ rs) = Some n →
  is_dir_at m (seg_name ds).
Proof.
  intros Hwf. revert n. induction rs as [|r rs IH] using rev_ind; [done|]. intros n Hg _ Hn.
  rewrite app_assoc in Hg, Hn.
  pose proof (wf_parent _ Hwf _ _ Hn) as Hd. rewrite dir_snoc in Hd by done.
  destruct (decide (rs = [])) as [->|Hr]; [by rewrite app_nil_r in Hd|].
  destruct Hd as (d & Hd & _). eapply IH; [|done|exact Hd].
  by apply good_segs_app in Hg as [? _].
Qed.

(** A file has nothing below it. *)
Lemma wf_file_leaf m ds rs n k :
  wf m → good_segs (ds ++ rs) → m !! seg_name ds = Some n → IsDir (mode n) = false →
  m !! seg_name (ds ++ rs) = Some k → rs = [].
Proof.
  intros Hwf Hg Hn Hf Hk. destruct (decide (rs = [])) as [->|Hr]; [done|].
  destruct (wf_ancestor _ _ _ _ Hwf Hg Hr Hk) as (d & ? & ?). congruence.
Qed.

Lemma checkParent_ok m op name :
  checkParentLocked m op name = Ok tt ↔ is_dir_at m (Path.dir name).
Proof.
  unfold checkParentLocked, is_dir_at, err. split.
  - intros H. repeat case_match; simplify_eq; eauto.
  - intros (n & -> & ->). done.
Qed.

Lemma IsDir_ModeDir perm : IsDir (Z.lor ModeDir (Perm perm)) = true.
Proof. unfold IsDir. by rewrite Z.lor_spec. Qed.

Lemma IsDir_Perm perm : IsDir (Perm perm) = false.
Proof. unfold IsDir, Perm. rewrite Z.land_spec. by rewrite andb_comm. Qed.

Lemma IsDir_chmod (k mode' : Z) : IsDir (Z.lor (Z.ldiff k ModePerm) (Perm mode')) = IsDir k.
Proof.
  unfold IsDir, Perm. rewrite Z.lor_spec, Z.ldiff_spec, Z.land_spec.
  change (Z.testbit ModePerm 31) with false. simpl. by rewrite andb_true_r, andb_false_r, orb_false_r.
Qed.

Lemma NewMemFS_wf now : wf (NewMemFS now).
Proof.
  unfold NewMemFS. split.
  - eexists. by rewrite lookup_singleton_eq.
  - intros p n [<- <-]%lookup_singleton_Some. done.
  - intros p n [<- <-]%lookup_singleton_Some. eexists. by rewrite lookup_singleton_eq.
Qed.

Lemma OpenFile_wf m name flag perm now : wf m → wf (OpenFile m name flag perm now).2.
Proof.
  intros Hwf. unfold OpenFile. case_match; [done|].
  destruct (ValidPath name) eqn:Hv; [|done]. simpl. case_bool_decide; [done|].
  destruct (m !! name) as [n|] eqn:Hn.
  - destruct (IsDir (mode n)) eqn:Hd; [done|]. case_match; [done|]. simpl.
    eapply wf_update; [done|done|]. simpl. by case_match.
  - case_match; [done|]. destruct (checkParentLocked _ _ _) as [[]|] eqn:Hc; [|done]. simpl.
    apply checkParent_ok in Hc. apply wf_insert; [done..|]. intros ??. congruence.
Qed.

Lemma Mkdir_wf m name perm now : wf m → wf (Mkdir m name perm now).2.
Proof.
  intros Hwf. unfold Mkdir. destruct (ValidPath name) eqn:Hv; [|done]. simpl.
  case_bool_decide; [done|]. destruct (m !! name) as [n|] eqn:Hn; [done|].
  destruct (checkParentLocked _ _ _) as [[]|] eqn:Hc; [|done]. simpl.
  apply checkParent_ok in Hc. apply wf_insert; [done..|]. intros ??. congruence.
Qed.

Lemma MkdirAll_self_wf m name perm now : wf m → wf (MkdirAll_self m name perm now).2.
Proof.
  intros Hwf. unfold MkdirAll_self. pose proof (Mkdir_wf m name perm now Hwf) as H.
  destruct (Mkdir m name perm now) as [[] m1]; [done|]. simpl in H. by repeat case_match.
Qed.

Lemma MkdirAll_fuel_wf fuel m name perm now r m' :
  wf m → MkdirAll_fuel fuel m name perm now = Some (r, m') → wf m'.
Proof.
  revert m name r m'. induction fuel as [|fuel IH]; [done|]. intros m name r m' Hwf. simpl.
  assert (Hself : ∀ m r m', wf m → MkdirAll_self m name perm (now name) = (r, m') → wf m').
  { intros m0 r0 m0' Hm0 He. pose proof (MkdirAll_self_wf m0 name perm (now name) Hm0) as H.
    by rewrite He in H. }
  destruct (ValidPath name); simpl; [|by intros [= <- <-]].
  case_bool_decide; [by intros [= <- <-]|].
  case_bool_decide; [intros [= Heq]; by eapply Hself|].
  destruct (MkdirAll_fuel fuel m (Path.dir name) perm now) as [[[?|?] m1]|] eqn:E; [|..|done].
  - intros [= Heq]. eapply Hself; [by eapply IH|done].
  - intros [= <- <-]. by eapply IH.
Qed.

Lemma Remove_wf m name : wf m → wf (Remove m name).2.
Proof.
  intros Hwf. unfold Remove. destruct (ValidPath name) eqn:Hv; [|done]. simpl.
  case_bool_decide as Hdot; [done|]. destruct (m !! name) as [n|] eqn:Hn; [|done].
  destruct (IsDir (mode n)) eqn:Hd; simpl.
  - destruct (existsb _ _) eqn:He; [done|]. simpl. apply wf_delete; [done..|].
    intros ????. by eapply no_children.
  - apply wf_delete; [done..|]. intros p k Hp _ He.
    destruct (wf_parent _ Hwf _ _ Hp) as (d & Hd' & ?). rewrite He in Hd'. congruence.
Qed.

Lemma write_Write_wf m h p now : wf m → wf (write_Write m h p now).1.2.
Proof.
  intros Hwf. unfold write_Write. destruct (m !! wh_name h) eqn:Hn; [|done]. simpl.
  by eapply wf_update.
Qed.

Lemma WriteFile_wf m name p perm now : wf m → wf (WriteFile m name p perm now).2.
Proof.
  intros Hwf. unfold WriteFile.
  pose proof (OpenFile_wf m name (Z.lor O_WRONLY (Z.lor O_CREATE O_TRUNC)) perm now Hwf) as Ho.
  destruct (OpenFile _ _ _ _ _) as [[[| |h]|] m']; [done..| |done].
  pose proof (write_Write_wf m' h p now Ho) as Hw.
  by destruct (write_Write m' h p now) as [[??]?].
Qed.

(** *** Lemmas: Rename moves exactly one subtree, in any iteration order *)

Lemma under_below dir rest : under dir (dir ++ ch_slash :: rest) = true.
Proof. unfold under. rewrite (cons_middle ch_slash), app_assoc. apply has_prefix_app. Qed.

(** What the loop leaves at [q], whatever the order, when every key below
    [old] is produced and no inserted key is below [old]. *)
Lemma rename_loop_lookup old new order m q :
  (∀ rest, under old (new ++ ch_slash :: rest) = false) →
  (∀ p, under old p = true → is_Some (m !! p) → p ∈ order) →
  rename_loop (old ++ [ch_slash]) new order m !! q =
    if under old q then None
    else match cut_prefix q (new ++ [ch_slash]) with
         | Some rest => match m !! (old ++ ch_slash :: rest) with
                        | Some c => Some c
                        | None => m !! q
                        end
         | None => m !! q
         end.
Proof.
  intros Hnew. revert m. induction order as [|p order IH]; simpl; intros m Hord.
  - assert (Hnone : ∀ p, under old p = true → m !! p = None).
    { intros p Hp. destruct (m !! p) eqn:E; [|done].
      destruct (not_elem_of_nil p). apply Hord; [done|]. by eexists. }
    destruct (under old q) eqn:Hq; [by apply Hnone|].
    destruct (cut_prefix q _) as [rest|] eqn:Hc; [|done].
    by rewrite (Hnone (old ++ ch_slash :: rest)) by apply under_below.
  - destruct (m !! p) as [child|] eqn:Hp.
    2:{ apply IH. intros p' Hu Hs. specialize (Hord _ Hu Hs).
        apply elem_of_cons in Hord as [->|]; [|done]. rewrite Hp in Hs. by destruct Hs. }
    destruct (cut_prefix p (old ++ [ch_slash])) as [r|] eqn:Hr.
    2:{ apply IH. intros p' Hu Hs. specialize (Hord _ Hu Hs).
        apply elem_of_cons in Hord as [->|]; [|done].
        apply cut_prefix_None in Hr. unfold under in Hu. congruence. }
    apply cut_prefix_Some in Hr. rewrite <-app_assoc in Hr. simpl in Hr. subst p.
    rewrite IH.
    2:{ intros p' Hu Hs. assert (p' ≠ new ++ ch_slash :: r) as Hne
          by (intros ->; by rewrite Hnew in Hu).
        rewrite lookup_insert_ne in Hs by done.
        destruct Hs as [c [Hdne Hs]%lookup_delete_Some].
        specialize (Hord p' Hu). rewrite Hs in Hord. specialize (Hord (mk_is_Some _ _ eq_refl)).
        apply elem_of_cons in Hord as [->|]; [|done]. by destruct Hdne. }
    destruct (under old q) eqn:Hq; [done|].
    pose proof (under_below old r) as Hold.
    destruct (cut_prefix q (new ++ [ch_slash])) as [rest|] eqn:Hc.
    + apply cut_prefix_Some in Hc. rewrite <-app_assoc in Hc. simpl in Hc. subst q.
      rewrite (lookup_insert_ne _ (new ++ ch_slash :: r) (old ++ ch_slash :: rest)).
      2:{ intros He. pose proof (Hnew r) as Hf. rewrite He, under_below in Hf. done. }
      destruct (decide (rest = r)) as [->|Hrr].
      * by rewrite lookup_delete_eq, lookup_insert_eq, Hp.
      * rewrite lookup_delete_ne by (intros ?; by simplify_list_eq).
        rewrite lookup_insert_ne by (intros ?; by simplify_list_eq).
        rewrite lookup_delete_ne; [done|]. intros He. rewrite He in Hold. congruence.
    + rewrite lookup_insert_ne.
      2:{ intros <-. rewrite (cons_middle ch_slash new), app_assoc, cut_prefix_app in Hc. done. }
      rewrite lookup_delete_ne; [done|]. intros <-. congruence.
Qed.

(** [under] on segments. *)
Lemma under_segs ds ps :
  ds ≠ [] → good_segs ds → good_segs ps →
  under (seg_name ds) (seg_name ps) = true ↔ ∃ rs, rs ≠ [] ∧ ps = ds ++ rs.
Proof.
  intros Hd Hgd Hgp. unfold under. split.
  - intros [rest Hr]%has_prefix_spec. apply cut_prefix_Some, cut_prefix_segs in Hr; [|done..].
    destruct Hr as (rs & ? & ? & _). eauto.
  - intros (rs & Hr & ->). apply has_prefix_spec. exists (join ch_slash rs).
    apply cut_prefix_Some, cut_prefix_segs; eauto.
Qed.

(** The map a successful Rename leaves, on segments: the moved names are
    gone, the target names hold what the moved ones held, the rest is as it
    was. The hypotheses are what the guards leave. *)
Section Rename.
Context (m : fsys) (os ns : list bytes) (n : node) (order : list bytes).
Hypothesis Hwf : wf m.
Hypothesis Hos : os ≠ [].
Hypothesis Hns : ns ≠ [].
Hypothesis Hgo : good_segs os.
Hypothesis Hgn : good_segs ns.
Hypothesis Hn : m !! seg_name os = Some n.
Hypothesis Hnotdir : ∀ t, m !! seg_name ns = Some t → IsDir (mode t) = false.
Hypothesis Hvn : ValidPath (seg_name ns) = true.
Hypothesis Hpar : is_dir_at m (Path.dir (seg_name ns)).
Hypothesis Hout : ¬ os `prefix_of` ns.
Hypothesis Hord : ∀ p, is_Some (m !! p) → p ∈ order.

Definition renamed : fsys :=
  let m1 := <[ seg_name ns := n ]> (delete (seg_name os) m) in
  if IsDir (mode n) then rename_loop (seg_name os ++ [ch_slash]) (seg_name ns) order m1 else m1.

Lemma ns_not_above : ¬ ns `prefix_of` os.
Proof.
  intros [rs ->]. destruct (decide (rs = [])) as [->|Hr]; [by rewrite app_nil_r in Hout|].
  destruct (wf_ancestor _ _ _ _ Hwf Hgo Hr Hn) as (t & Ht & Hd).
  apply Hnotdir in Ht. congruence.
Qed.

(** Names at or below [os] and names at or below [ns] are disjoint. *)
Lemma os_ns_disjoint qs : os `prefix_of` qs → ns `prefix_of` qs → False.
Proof.
  intros Ho Hq. destruct (prefix_weak_total os ns qs Ho Hq); [done|by apply ns_not_above].
Qed.

Lemma seg_names_ne : seg_name ns ≠ seg_name os.
Proof. intros ->%seg_name_inj; [|done..]. by apply Hout. Qed.

(** Nothing is below the target before the move. *)
Lemma target_leaf rs : good_segs (ns ++ rs) → rs ≠ [] → m !! seg_name (ns ++ rs) = None.
Proof.
  intros Hg Hr. destruct (m !! seg_name (ns ++ rs)) eqn:E; [|done].
  destruct (wf_ancestor _ _ _ _ Hwf Hg Hr E) as (t & Ht & Hd). apply Hnotdir in Ht. congruence.
Qed.

Lemma lookup_m1 q : q ≠ seg_name os → q ≠ seg_name ns →
  <[ seg_name ns := n ]> (delete (seg_name os) m) !! q = m !! q.
Proof. intros. by rewrite lookup_insert_ne, lookup_delete_ne. Qed.

Lemma no_target_below_os rest : under (seg_name os) (seg_name ns ++ ch_slash :: rest) = false.
Proof.
  apply not_true_iff_false. intros [r Hr]%has_prefix_spec.
  rewrite <-app_assoc in Hr. simpl in Hr.
  apply (f_equal (split ch_slash)) in Hr.
  rewrite !split_app_segs, !seg_name_join, !good_segs_split in Hr by done.
  apply (os_ns_disjoint (ns ++ split ch_slash rest)); [|by apply prefix_app_r].
  rewrite Hr. by apply prefix_app_r.
Qed.

Lemma renamed_lookup q :
  renamed !! q =
    if bool_decide (q = seg_name ns) then Some n
    else if bool_decide (q = seg_name os) || (IsDir (mode n) && under (seg_name os) q) then None
    else match cut_prefix q (seg_name ns ++ [ch_slash]) with
         | Some rest => if IsDir (mode n) then
                          match m !! (seg_name os ++ ch_slash :: rest) with
                          | Some c => Some c
                          | None => m !! q
                          end
                        else m !! q
         | None => m !! q
         end.
Proof.
  pose proof seg_names_ne as Hne.
  assert (Hnu : under (seg_name os) (seg_name ns) = false).
  { apply not_true_iff_false. rewrite under_segs by done. intros (rs & _ & ->).
    by apply Hout, prefix_app_r. }
  assert (Hself : ∀ d rest : bytes, d ++ ch_slash :: rest ≠ d).
  { intros d rest Hd%(f_equal length). rewrite length_app in Hd. simpl in Hd. lia. }
  unfold renamed. destruct (IsDir (mode n)) eqn:Hd; simpl.
  2:{ rewrite orb_false_r. case_bool_decide as H1; [by rewrite H1, lookup_insert_eq|].
      rewrite lookup_insert_ne by done. case_bool_decide as H2; [by rewrite H2, lookup_delete_eq|].
      rewrite lookup_delete_ne by done. by case_match. }
  rewrite rename_loop_lookup.
  2:{ apply no_target_below_os. }
  2:{ intros p Hu Hs. apply Hord. rewrite lookup_m1 in Hs; [done| |].
      - intros ->. apply has_prefix_spec in Hu as [r Hr]. rewrite <-app_assoc in Hr.
        by apply (Hself (seg_name os) r).
      - intros ->. congruence. }
  case_bool_decide as H1.
  { rewrite H1, Hnu. rewrite lookup_insert_eq. destruct (cut_prefix _ _) as [b|] eqn:Hc; [|done].
    apply cut_prefix_Some in Hc. rewrite <-app_assoc in Hc. by destruct (Hself (seg_name ns) b). }
  case_bool_decide as H2; simpl.
  { rewrite H2. case_match; [done|].
    rewrite lookup_insert_ne, lookup_delete_eq by done. destruct (cut_prefix _ _) as [b|] eqn:Hc; [|done].
    exfalso. apply ns_not_above. apply cut_prefix_segs in Hc as (rs & ? & -> & _); [|done..].
    by apply prefix_app_r. }
  case_match; [done|]. destruct (cut_prefix _ _) as [b|]; [|by apply lookup_m1].
  rewrite !lookup_m1; [done|done|done|apply Hself|].
  intros He. pose proof (under_below (seg_name os) b) as Hb. rewrite He in Hb. congruence.
Qed.

Lemma seg_name_ne qs ps : good_segs qs → good_segs ps → qs ≠ ps → seg_name qs ≠ seg_name ps.
Proof. intros ?? Hne ?%seg_name_inj; done. Qed.

Lemma not_under_segs ds qs :
  ds ≠ [] → good_segs ds → good_segs qs → ¬ ds `prefix_of` qs → under (seg_name ds) (seg_name qs) = false.
Proof.
  intros ??? Hp. apply not_true_iff_false. rewrite under_segs by done.
  intros (rs & _ & ->). by apply Hp, prefix_app_r.
Qed.

Lemma renamed_target rs :
  good_segs (ns ++ rs) → renamed !! seg_name (ns ++ rs) = m !! seg_name (os ++ rs).
Proof.
  intros Hg. pose proof Hg as [_ Hgr]%good_segs_app. rewrite renamed_lookup.
  assert (Hnp : ¬ os `prefix_of` ns ++ rs).
  { intros Hp. apply (os_ns_disjoint _ Hp). by apply prefix_app_r. }
  destruct (decide (rs = [])) as [->|Hr].
  { rewrite !app_nil_r. by rewrite bool_decide_true. }
  assert (Hgor : good_segs (os ++ rs)) by by apply good_segs_app.
  rewrite bool_decide_false.
  2:{ apply seg_name_ne; [done..|]. intros He%(f_equal length).
      rewrite length_app in He. by destruct rs; simpl in *; [|lia]. }
  rewrite bool_decide_false by (apply seg_name_ne; [done..|]; intros He; by rewrite He in Hnp).
  rewrite not_under_segs by done. rewrite andb_false_r. simpl.
  assert (cut_prefix (seg_name (ns ++ rs)) (seg_name ns ++ [ch_slash]) = Some (join ch_slash rs)) as ->.
  { apply cut_prefix_segs; eauto. }
  rewrite (target_leaf rs) by done. rewrite <-seg_name_app by done.
  destruct (IsDir (mode n)) eqn:Hd; [by destruct (m !! seg_name (os ++ rs))|].
  destruct (m !! seg_name (os ++ rs)) eqn:E; [|done].
  by destruct Hr; eapply wf_file_leaf.
Qed.

Lemma renamed_source qs : good_segs qs → os `prefix_of` qs → renamed !! seg_name qs = None.
Proof.
  intros Hg Hp. rewrite renamed_lookup.
  rewrite bool_decide_false.
  2:{ apply seg_name_ne; [done..|]. intros ->. by apply Hout. }
  destruct Hp as [rs ->]. destruct (decide (rs = [])) as [->|Hr].
  { rewrite app_nil_r, bool_decide_true by done. done. }
  destruct (IsDir (mode n)) eqn:Hd; simpl.
  - assert (under (seg_name os) (seg_name (os ++ rs)) = true) as ->
      by (apply under_segs; eauto). by rewrite orb_true_r.
  - rewrite orb_false_r. case_bool_decide; [done|].
    assert (m !! seg_name (os ++ rs) = None) as ->; [|by case_match].
    destruct (m !! seg_name (os ++ rs)) eqn:E; [|done]. by destruct Hr; eapply wf_file_leaf.
Qed.

Lemma renamed_other qs :
  good_segs qs → ¬ os `prefix_of` qs → ¬ ns `prefix_of` qs →
  renamed !! seg_name qs = m !! seg_name qs.
Proof.
  intros Hg Ho Hn'. rewrite renamed_lookup.
  rewrite bool_decide_false by (apply seg_name_ne; [done..|]; intros ->; by apply Hn').
  rewrite bool_decide_false by (apply seg_name_ne; [done..|]; intros ->; by apply Ho).
  rewrite not_under_segs by done. rewrite andb_false_r. simpl.
  destruct (cut_prefix _ _) eqn:Hc; [|done].
  apply cut_prefix_segs in Hc as (rs & _ & -> & _); [|done..].
  by destruct Hn'; apply prefix_app_r.
Qed.

Lemma renamed_key p k : renamed !! p = Some k → ∃ qs, p = seg_name qs ∧ good_segs qs.
Proof.
  rewrite renamed_lookup. intros H. case_bool_decide as Hp; [by exists ns|].
  case_match; [done|].
  destruct (cut_prefix p _) as [rest|] eqn:Hc; [|by eapply wf_key_segs].
  destruct (IsDir (mode n)); [|by eapply wf_key_segs].
  destruct (m !! (seg_name os ++ ch_slash :: rest)) as [c|] eqn:Hm; [|by eapply wf_key_segs].
  apply cut_prefix_Some in Hc. rewrite <-app_assoc in Hc. simpl in Hc.
  destruct (wf_key_segs _ _ _ Hwf Hm) as (qs & Hq & Hgq).
  apply (f_equal (fun s => cut_prefix s (seg_name os ++ [ch_slash]))) in Hq.
  rewrite (cons_middle ch_slash), app_assoc, cut_prefix_app in Hq. symmetry in Hq.
  apply cut_prefix_segs in Hq as (rs & Hr & -> & ->); [|done..].
  exists (ns ++ rs). rewrite seg_name_app by done. split; [done|].
  apply good_segs_app in Hgq as [_ ?]. by apply good_segs_app.
Qed.

Lemma renamed_valid p k : renamed !! p = Some k → ValidPath p = true.
Proof.
  intros Hp. destruct (renamed_key _ _ Hp) as (qs & -> & Hg).
  assert (Hutf : ∀ ps, good_segs ps → ValidPath (seg_name ps) = true →
                   Forall (fun w => Utf8.valid w = true) ps).
  { intros ps Hgp (ps' & He & Hg' & Hu)%ValidPath_segs.
    apply seg_name_inj in He; [|done..]. by subst. }
  apply seg_name_valid; [done|].
  destruct (decide (os `prefix_of` qs)); [by rewrite renamed_source in Hp|].
  destruct (decide (ns `prefix_of` qs)) as [[rs ->]|].
  - rewrite renamed_target in Hp by done.
    apply good_segs_app in Hg as [_ Hgr].
    apply wf_valid, Hutf, Forall_app in Hp as [_ ?]; [|by apply good_segs_app|done].
    apply Forall_app. auto.
  - rewrite renamed_other in Hp by done. apply Hutf; [done|]. by eapply wf_valid.
Qed.

Lemma renamed_dir_other qs :
  good_segs qs → ¬ os `prefix_of` qs → ¬ ns `prefix_of` qs →
  is_dir_at m (seg_name qs) → is_dir_at renamed (seg_name qs).
Proof. intros ??? (d & Hd & ?). exists d. by rewrite renamed_other. Qed.

Lemma renamed_wf : wf renamed.
Proof.
  assert (Hroot : ∀ ws : list bytes, ws ≠ [] → ¬ ws `prefix_of` []).
  { intros ws Hw [k Hk]. by destruct ws. }
  split.
  - apply (renamed_dir_other []); [by apply Forall_nil|by apply Hroot..|by apply wf_root].
  - apply renamed_valid.
  - intros p k Hp. destruct (renamed_key _ _ Hp) as (qs & -> & Hg).
    destruct (decide (os `prefix_of` qs)); [by rewrite renamed_source in Hp|].
    destruct (decide (ns `prefix_of` qs)) as [[rs ->]|Hnq].
    + rewrite renamed_target in Hp by done.
      destruct rs as [|r rs _] using rev_ind.
      * rewrite app_nil_r. destruct (exists_last Hns) as (ns' & x & Ens).
        pose proof Hgn as Hg'. pose proof Hpar as Hp'. rewrite Ens in Hg', Hp' |- *.
        rewrite dir_snoc in Hp' |- * by done. apply good_segs_app in Hg' as [Hg' _].
        apply renamed_dir_other; [done| | |done].
        -- intros [l Hl]. apply Hout. rewrite Ens, Hl, <-app_assoc. by apply prefix_app_r.
        -- rewrite Ens. intros Hl%prefix_length. rewrite length_app in Hl. simpl in Hl. lia.
      * pose proof (wf_parent _ Hwf _ _ Hp) as Hd. rewrite app_assoc in Hg |- *.
        rewrite dir_snoc by done. rewrite app_assoc, dir_snoc in Hd.
        2:{ rewrite <-app_assoc in *. apply good_segs_app in Hg as [_ ?]. by apply good_segs_app. }
        apply good_segs_app in Hg as [Hg _]. destruct Hd as (d & Hd & ?).
        exists d. by rewrite renamed_target.
    + rewrite renamed_other in Hp by done. pose proof (wf_parent _ Hwf _ _ Hp) as Hd.
      destruct qs as [|q qs _] using rev_ind.
      * by apply (renamed_dir_other []).
      * rewrite dir_snoc in Hd |- * by done. apply good_segs_app in Hg as [Hg _].
        apply renamed_dir_other; [done|..|done].
        -- intros [l ->]. rewrite <-app_assoc in *. by apply n0, prefix_app_r.
        -- intros [l ->]. rewrite <-app_assoc in *. by apply Hnq, prefix_app_r.
Qed.
End Rename.

Lemma ValidPath_ne_root_segs p :
  ValidPath p = true → p ≠ lit "." → ∃ ws, p = seg_name ws ∧ ws ≠ [] ∧ good_segs ws.
Proof.
  intros (ws & -> & Hg & _)%ValidPath_segs Hne. exists ws. split_and!; [done| |done].
  intros ->. by apply Hne.
Qed.

(** A successful Rename, seen through the guards it passed. *)
Lemma Rename_ok m old new order m' :
  wf m → Rename m old new order = (Ok tt, m') →
  ∃ os ns n, old = seg_name os ∧ new = seg_name ns ∧ os ≠ [] ∧ ns ≠ [] ∧
    good_segs os ∧ good_segs ns ∧ m !! old = Some n ∧
    (∀ t, m !! new = Some t → IsDir (mode t) = false) ∧
    ValidPath new = true ∧ is_dir_at m (Path.dir new) ∧ m' = renamed m os ns n order.
Proof.
  intros Hwf. unfold Rename.
  destruct (ValidPath old) eqn:Hvo; [|done]. simpl. case_bool_decide as Ho; [done|].
  destruct (ValidPath new) eqn:Hvn; [|done]. simpl. case_bool_decide as Hn; [done|].
  destruct (m !! old) as [n|] eqn:Hold; [|done].
  destruct (match m !! new with Some t => IsDir (mode t) | None => false end) eqn:Ht; [done|].
  destruct (checkParentLocked m "rename" new) as [[]|] eqn:Hc; [|done].
  apply checkParent_ok in Hc. intros [= <-].
  destruct (ValidPath_ne_root_segs _ Hvo Ho) as (os & -> & Hos & Hgo).
  destruct (ValidPath_ne_root_segs _ Hvn Hn) as (ns & -> & Hns & Hgn).
  exists os, ns, n. split_and!; try done. intros t Htt. by rewrite Htt in Ht.
Qed.

Lemma not_prefix_of_under os ns :
  os ≠ [] → good_segs os → good_segs ns → os ≠ ns → under (seg_name os) (seg_name ns) = false →
  ¬ os `prefix_of` ns.
Proof.
  intros Hos Hgo Hgn Hne Hu [rs ->]. apply not_true_iff_false in Hu. apply Hu, under_segs; [done..|].
  exists rs. split; [|done]. intros ->. by rewrite app_nil_r in Hne.
Qed.

Lemma Rename_err_same m old new order r m' e :
  Rename m old new order = (r, m') → r = Err e → m' = m.
Proof.
  unfold Rename, err. intros H ->. repeat case_match; simplify_eq; done.
Qed.

Lemma Rename_wf m old new order :
  wf m → cmd_ok m (CRename old new order) → wf (Rename m old new order).2.
Proof.
  intros Hwf [Hu Hord]. destruct (Rename m old new order) as [[[]|e] m'] eqn:Hr; simpl.
  2:{ erewrite Rename_err_same; eauto. }
  destruct (Rename_ok _ _ _ _ _ Hwf Hr) as (os&ns&n&->&->&Hos&Hns&Hgo&Hgn&Hn&Ht&Hv&Hp&->).
  destruct (decide (os = ns)) as [->|Hne].
  - unfold renamed. rewrite (Ht n Hn), insert_delete_eq, insert_id; done.
  - apply renamed_wf; try done. by apply not_prefix_of_under.
Qed.

Lemma exec_wf m c : wf m → cmd_ok m c → wf (exec m c).
Proof.
  intros Hwf Hok. destruct c; simpl.
  - by apply OpenFile_wf.
  - by apply Mkdir_wf.
  - destruct (MkdirAll m name perm now) as [[r m']|] eqn:E; [|done]. by eapply MkdirAll_fuel_wf.
  - by apply Remove_wf.
  - by apply Rename_wf.
  - unfold Chmod. repeat case_match; try done. simpl. eapply wf_update; [done..|]. apply IsDir_chmod.
  - unfold Chtimes. repeat case_match; try done. simpl. by eapply wf_update.
  - by apply WriteFile_wf.
  - by apply write_Write_wf.
Qed.

Lemma order_covers m (order : list bytes) :
  forallb (fun pn => bool_decide (pn.1 ∈ order)) (map_to_list m) = true →
  ∀ p, is_Some (m !! p) → p ∈ order.
Proof.
  intros Ha p [n Hp]. apply elem_of_map_to_list, list_elem_of_In in Hp.
  apply (proj1 (forallb_forall _ _) Ha) in Hp. by apply bool_decide_eq_true in Hp.
Qed.

(** Below [old], the loop only moves keys to keys below [old] when the target
    itself is below it, and never recreates [old]. *)
Lemma rename_loop_inside old new order m :
  under old new = true →
  m !! old = None → (∃ q, under old q = true ∧ is_Some (m !! q)) →
  let m' := rename_loop (old ++ [ch_slash]) new order m in
  m' !! old = None ∧ ∃ q, under old q = true ∧ is_Some (m' !! q).
Proof.
  intros Hnew. revert m. induction order as [|p order IH]; simpl; intros m Hold Hex; [done|].
  destruct (m !! p) as [child|]; [|by apply IH].
  destruct (cut_prefix p (old ++ [ch_slash])) as [rest|]; [|by apply IH].
  apply has_prefix_spec in Hnew as [r ->].
  assert (Hu : under old (((old ++ [ch_slash]) ++ r) ++ ch_slash :: rest) = true).
  { unfold under. rewrite <-(app_assoc (old ++ [ch_slash])). apply has_prefix_app. }
  apply IH.
  - rewrite lookup_insert_ne.
    + apply lookup_delete_None. auto.
    + intros He%(f_equal length). rewrite !length_app in He. simpl in He. lia.
  - eexists. split; [exact Hu|]. rewrite lookup_insert_eq. by eexists.
Qed.

(** *** Lemmas: reading files and directories *)

Lemma ReadAll_spec fuel plen h :
  (0 < plen)%nat → (length (rh_data h) - rh_pos h < fuel)%nat →
  ReadAll fuel plen h = Some (drop (rh_pos h) (rh_data h)).
Proof.
  intros Hp. revert h. induction fuel as [|fuel IH]; [lia|]. intros h Hf. simpl.
  unfold read_Read. destruct (Nat.leb_spec (length (rh_data h)) (rh_pos h)).
  - by rewrite drop_ge.
  - rewrite IH; simpl; rewrite length_take, length_drop; [|lia].
    f_equal. rewrite <-drop_drop. 
    rewrite <-(take_drop plen (drop (rh_pos h) (rh_data h))) at 3. f_equal.
    destruct (Nat.le_gt_cases plen (length (rh_data h) - rh_pos h)); [by rewrite Nat.min_l|].
    rewrite Nat.min_r by lia. rewrite !drop_ge; [done|..]; rewrite ?length_drop; lia.
Qed.

Lemma ReadDirPages_spec fuel count h :
  0 < count → (length (dh_entries h) - dh_pos h < fuel)%nat →
  ReadDirPages fuel count h = Some (drop (dh_pos h) (dh_entries h)).
Proof.
  intros Hc. revert h. induction fuel as [|fuel IH]; [lia|]. intros h Hf. simpl.
  unfold dir_ReadDir. rewrite (proj2 (Z.leb_gt count 0)) by lia.
  destruct (drop (dh_pos h) (dh_entries h)) as [|i rest] eqn:Hd; [done|]. rewrite <-Hd.
  assert (Hl : (dh_pos h < length (dh_entries h))%nat).
  { apply (f_equal length) in Hd. rewrite length_drop in Hd. simpl in Hd. lia. }
  rewrite IH; simpl; rewrite length_drop; [|lia].
  f_equal. rewrite <-drop_drop.
  set (k := Nat.min _ _). by rewrite (take_drop k).
Qed.

Lemma bytes_leb_total a b : bytes_leb a b = true ∨ bytes_leb b a = true.
Proof.
  revert b. induction a as [|c a IH]; intros [|d b]; simpl; auto.
  destruct (IH b); destruct (Z.ltb_spec c d), (Z.ltb_spec d c), (Z.eqb_spec c d), (Z.eqb_spec d c);
    simpl; auto; lia.
Qed.

Lemma bytes_leb_trans a b c : bytes_leb a b = true → bytes_leb b c = true → bytes_leb a c = true.
Proof.
  revert b c. induction a as [|x a IH]; intros [|y b] [|z c]; simpl; try done.
  rewrite !orb_true_iff, !andb_true_iff, !Z.ltb_lt, !Z.eqb_eq.
  intros [?|[-> ?]] [?|[-> ?]]; [left; lia|left; lia|left; lia|right; eauto].
Qed.

#[local] Instance info_le_total : Total info_le.
Proof. intros a b. apply bytes_leb_total. Qed.
#[local] Instance info_le_trans : Transitive info_le.
Proof. intros a b c. apply bytes_leb_trans. Qed.

(** Two children of one directory have different base names. *)
Lemma child_base_inj m p q n k :
  wf m → m !! p = Some n → m !! q = Some k → p ≠ lit "." → q ≠ lit "." →
  Path.dir p = Path.dir q → Path.base p = Path.base q → p = q.
Proof.
  intros Hwf Hp Hq Hpr Hqr Hd Hb.
  destruct (wf_key_segs _ _ _ Hwf Hp) as (ps & -> & Hgp).
  destruct (wf_key_segs _ _ _ Hwf Hq) as (qs & -> & Hgq).
  destruct ps as [|x ps _] using rev_ind; [done|].
  destruct qs as [|y qs _] using rev_ind; [done|].
  rewrite !dir_snoc in Hd by done. rewrite !base_snoc in Hb by done.
  apply good_segs_app in Hgp as [??], Hgq as [??].
  apply seg_name_inj in Hd; [by subst|done..].
Qed.

Lemma entriesLocked_elem m dir i :
  i ∈ entriesLocked m dir ↔
  ∃ p n, m !! p = Some n ∧ p ≠ lit "." ∧ Path.dir p = dir ∧ i = infoOf p n.
Proof.
  unfold entriesLocked. rewrite merge_sort_Permutation, list_elem_of_fmap. split.
  - intros ([p n] & -> & [[? ?] Hin]%list_elem_of_filter). apply elem_of_map_to_list in Hin. eauto 6.
  - intros (p & n & Hm & ? & ? & ->). exists (p, n). split; [done|].
    apply list_elem_of_filter. split; [done|]. by apply elem_of_map_to_list.
Qed.

Lemma StronglySorted_strict {A B} (R : relation B) (f : A → B) l :
  StronglySorted (fun a b => R (f a) (f b)) l → NoDup (map f l) →
  StronglySorted (fun a b => R (f a) (f b) ∧ f a ≠ f b) l.
Proof.
  induction 1 as [|a l Hs IH Ha]; [constructor|]. simpl. intros [Hn Hd]%NoDup_cons.
  constructor; [by apply IH|]. apply Forall_forall. intros b Hb. split.
  - by apply (proj1 (Forall_forall _ _) Ha).
  - intros He. apply Hn. rewrite He. by apply list_elem_of_fmap_2.
Qed.

Lemma entriesLocked_sorted m dir :
  wf m → StronglySorted (fun a b => bytes_lt (i_name a) (i_name b)) (entriesLocked m dir).
Proof.
  intros Hwf. apply (StronglySorted_strict (fun a b => bytes_leb a b = true)).
  - apply (StronglySorted_merge_sort info_le).
  - unfold entriesLocked. rewrite merge_sort_Permutation, map_map.
    apply NoDup_fmap_2_strong.
    + intros [p n] [q k] [[Hp1 Hp2] Hp]%list_elem_of_filter [[Hq1 Hq2] Hq]%list_elem_of_filter.
      apply elem_of_map_to_list in Hp, Hq. simpl in *. intros Hb.
      assert (p = q) as -> by (eapply child_base_inj; eauto; congruence). congruence.
    + apply NoDup_filter, NoDup_map_to_list.
Qed.

(** *** Lemmas: MkdirAll *)

(** No name from [ds] (exclusive) down to [ds ++ rs] is a file. *)
Definition no_file_above m (ws : list bytes) : Prop :=
  ∀ ds n, ds `prefix_of` ws → m !! seg_name ds = Some n → IsDir (mode n) = true.

Lemma no_file_above_snoc m ws w :
  no_file_above m (ws ++ [w]) ↔
  no_file_above m ws ∧ ∀ n, m !! seg_name (ws ++ [w]) = Some n → IsDir (mode n) = true.
Proof.
  unfold no_file_above. split.
  - intros H. split; [intros ds n Hp|intros n]; apply H; [|done]. by apply prefix_app_r.
  - intros [H1 H2] ds n [k Hk] Hn. destruct k as [|x k _] using rev_ind.
    + rewrite app_nil_r in Hk. subst ds. eauto.
    + rewrite app_assoc in Hk. apply app_inj_tail in Hk as [-> ->].
      eapply H1; [|done]. by apply prefix_app_r.
Qed.

(** The last step of MkdirAll, once the parent is a directory. *)
Lemma MkdirAll_self_spec m name perm now :
  wf m → ValidPath name = true → name ≠ lit "." → is_dir_at m (Path.dir name) →
  ∃ r m', MkdirAll_self m name perm now = (r, m') ∧ m ⊆ m' ∧ wf m' ∧
    (r = Ok tt ↔ ∀ n, m !! name = Some n → IsDir (mode n) = true) ∧
    (r = Ok tt → is_dir_at m' name) ∧ (∀ q, q ≠ name → m' !! q = m !! q).
Proof.
  intros Hwf Hv Hne Hd. pose proof (MkdirAll_self_wf m name perm now Hwf) as Hwf'.
  revert Hwf'. unfold MkdirAll_self, Mkdir. rewrite Hv, (bool_decide_false _ Hne). simpl.
  destruct (m !! name) as [k|] eqn:Hk; simpl.
  - rewrite Hk. destruct (IsDir (mode k)) eqn:Hdk; simpl; intros _.
    + exists (Ok tt), m. split_and!; try done; [|by exists k].
      split; [|done]. intros _ n [= <-]. done.
    + eexists _, m. split_and!; try done. split; [done|]. intros H.
      rewrite (H k) in Hdk; done.
  - apply (checkParent_ok m "mkdir") in Hd. rewrite Hd. simpl. intros Hwf'.
    eexists (Ok tt), _. split_and!; try done.
    + by apply insert_subseteq.
    + intros _. eexists. rewrite lookup_insert_eq. split; [done|]. apply IsDir_ModeDir.
    + intros q Hq. by rewrite lookup_insert_ne.
Qed.

(** One level of MkdirAll below the root. *)
Lemma MkdirAll_fuel_snoc fuel m ws w perm now :
  good_segs (ws ++ [w]) → ValidPath (seg_name (ws ++ [w])) = true → (length ws < fuel)%nat →
  MkdirAll_fuel (S fuel) m (seg_name (ws ++ [w])) perm now =
  match MkdirAll_fuel fuel m (seg_name ws) perm now with
  | None => None
  | Some (Err e, m') => Some (Err e, m')
  | Some (Ok _, m') =>
      Some (MkdirAll_self m' (seg_name (ws ++ [w])) perm (now (seg_name (ws ++ [w]))))
  end.
Proof.
  intros Hg Hv Hf. pose proof Hg as [Hgw _]%good_segs_app.
  simpl. rewrite Hv, dir_snoc by done. simpl.
  rewrite bool_decide_false.
  2:{ intros He. apply (seg_name_inj _ []) in He; [by destruct ws|done|by apply Forall_nil]. }
  case_bool_decide as Hd; [|done]. apply (seg_name_inj _ []) in Hd; [|done|by apply Forall_nil].
  subst ws. destruct fuel; [simpl in *; lia|done].
Qed.

Lemma MkdirAll_spec fuel m ws perm now :
  wf m → good_segs ws → ValidPath (seg_name ws) = true → (length ws < fuel)%nat →
  ∃ r m', MkdirAll_fuel fuel m (seg_name ws) perm now = Some (r, m') ∧ m ⊆ m' ∧ wf m' ∧
    (r = Ok tt ↔ no_file_above m ws) ∧
    (r = Ok tt → ∀ ds, ds `prefix_of` ws → is_dir_at m' (seg_name ds)) ∧
    (∀ qs, good_segs qs → ¬ qs `prefix_of` ws → m' !! seg_name qs = m !! seg_name qs).
Proof.
  revert fuel. induction ws as [|w ws IH] using rev_ind; intros fuel Hwf Hg Hv Hf;
    (destruct fuel as [|fuel]; [lia|]).
  { exists (Ok tt), m. split_and!; try done.
    - split; [|done]. intros _ ds n ->%prefix_nil_inv Hn.
      destruct (wf_root _ Hwf) as (d & Hd & ?). simpl in Hn. congruence.
    - intros _ ds ->%prefix_nil_inv. by apply wf_root. }
  rewrite length_app in Hf. simpl in Hf.
  pose proof Hg as [Hgw _]%good_segs_app.
  assert (Hvw : ValidPath (seg_name ws) = true).
  { destruct (ValidPath_segs _ Hv) as (ps & He & Hgp & Hu).
    apply seg_name_inj in He as <-; [|done..]. apply Forall_app in Hu as [Hu _].
    by apply seg_name_valid. }
  assert (Hnp : ∀ qs, ¬ qs `prefix_of` ws ++ [w] → ¬ qs `prefix_of` ws).
  { intros qs Hq Hp. by apply Hq, prefix_app_r. }
  destruct (IH fuel Hwf Hgw Hvw) as (r & m1 & Hr & Hsub & Hwf1 & Hiff & Hdirs & Hout); [lia|].
  rewrite MkdirAll_fuel_snoc, Hr by (done || lia).
  destruct r as [[]|e].
  2:{ exists (Err e), m1. split_and!; try done; [|by auto].
      rewrite no_file_above_snoc. split; [done|]. intros [H _]. by apply Hiff in H. }
  destruct (MkdirAll_self_spec m1 (seg_name (ws ++ [w])) perm (now (seg_name (ws ++ [w]))))
    as (r2 & m2 & Hr2 & Hsub2 & Hwf2 & Hiff2 & Hdir2 & Hout2); [done..| | |].
  { intros He. apply (seg_name_inj _ []) in He; [by destruct ws|done|by apply Forall_nil]. }
  { rewrite dir_snoc by done. by apply Hdirs. }
  rewrite Hr2. exists r2, m2. split_and!; try done.
  - by etrans.
  - rewrite no_file_above_snoc, Hiff2, Hout; [|done|].
    + split; [|by intros [_ ?]]. intros ?. split; [by apply Hiff|done].
    + intros Hp%prefix_length. rewrite length_app in Hp. simpl in Hp. lia.
  - intros He ds [l Hl]. destruct l as [|x l _] using rev_ind.
    + rewrite app_nil_r in Hl. subst ds. by apply Hdir2.
    + rewrite app_assoc in Hl. apply app_inj_tail in Hl as [-> ->].
      destruct (Hdirs eq_refl ds) as (d & Hd & ?); [by apply prefix_app_r|].
      exists d. split; [|done]. by eapply lookup_weaken.
  - intros qs Hgq Hq. rewrite Hout2; [by auto|]. intros He%seg_name_inj; [|done..]. by subst.
Qed.

(** A successful WriteFile leaves exactly one changed node. *)
Lemma WriteFile_ok m name p perm now m' :
  WriteFile m name p perm now = (Ok tt, m') →
  ∃ k : Z, ValidPath name = true ∧ IsDir k = false ∧ m' = <[ name := MkNode p k now ]> m.
Proof.
  unfold WriteFile, OpenFile.
  destruct (ValidPath name) eqn:Hv; [simpl|done]. case_bool_decide; [done|].
  assert (Hcopy : copy_at (replicate (length p - 0) 0) 0 p = p).
  { unfold copy_at. simpl. rewrite drop_ge; [by rewrite app_nil_r|]. rewrite length_replicate. lia. }
  destruct (m !! name) as [n|] eqn:Hn.
  - destruct (IsDir (mode n)) eqn:Hd; [done|]. simpl.
    unfold write_Write. simpl. rewrite lookup_insert_eq. simpl. rewrite Hcopy. intros [= <-].
    exists (mode n). by rewrite insert_insert_eq.
  - destruct (checkParentLocked _ _ _); [|done]. simpl.
    unfold write_Write. simpl. rewrite lookup_insert_eq. simpl. rewrite Hcopy. intros [= <-].
    exists (Perm perm). rewrite insert_insert_eq. split_and!; [done|apply IsDir_Perm|done].
Qed.

(** C2: Whatever sequence of calls a MemFS receives - opens with any flags,
    mkdir, removal, rename, chmod, chtimes, writes through handles however
    stale - as long as no Rename is asked to move a name below itself, its node
    map stays a tree: the root directory is there, every key is a valid io/fs
    name and the parent of every key is an existing directory. The exception is
    needed: Rename accepts a directory and a name below it, and the tree breaks
    (Rename_into_itself_orphans). *)
Theorem reachable_wf (now : Z) (cs : list cmd) (Hok : cmds_ok (NewMemFS now) cs) :
  wf (foldl exec (NewMemFS now) cs).
Proof.
  pose proof (NewMemFS_wf now) as Hwf. revert Hok Hwf. generalize (NewMemFS now) as m.
  induction cs as [|c cs IH]; simpl; intros m Hok Hwf; [done|].
  destruct Hok. apply IH; [done|]. by apply exec_wf.
Qed.


Lemma reachable_wf_witness :
  cmds_ok (NewMemFS 0)
    [CMkdirAll (lit "a/b") 493 (fun _ => 1); CWriteFile (lit "a/b/f") (lit "x") 420 2;
     CRename (lit "a") (lit "z") [lit "a/b/f"; lit "a"; lit "."; lit "a/b"]] ∧
  wf (foldl exec (NewMemFS 0)
    [CMkdirAll (lit "a/b") 493 (fun _ => 1); CWriteFile (lit "a/b/f") (lit "x") 420 2;
     CRename (lit "a") (lit "z") [lit "a/b/f"; lit "a"; lit "."; lit "a/b"]]).
Proof.
  assert (Hok : cmds_ok (NewMemFS 0)
    [CMkdirAll (lit "a/b") 493 (fun _ => 1); CWriteFile (lit "a/b/f") (lit "x") 420 2;
     CRename (lit "a") (lit "z") [lit "a/b/f"; lit "a"; lit "."; lit "a/b"]]).
  { split; [done|split; [done|split; [|done]]]. split; [vm_compute; reflexivity|].
    apply order_covers. vm_compute. reflexivity. }
  split; [exact Hok|]. by apply (reachable_wf 0).
Defined.

(** C3: A successful Rename of a name to another one that is not below it moves
    exactly one subtree: afterwards the target and everything below it is what
    the source and everything below it was, the source's names are gone, and
    every other name is as before - whatever order the Go map iteration visits
    the keys in, and whether or not it visits keys the loop has just inserted. (A
    target below the source is accepted by the code too, with another outcome:
    Rename_into_itself_orphans.) *)
Theorem Rename_moves_subtree (m : fsys) (old new : bytes) (order : list bytes) (m' : fsys)
    (Hwf : wf m) (Hok : cmd_ok m (CRename old new order)) (Hne : old ≠ new)
    (Hren : Rename m old new order = (Ok tt, m')) (p : bytes) :
  m' !! p =
    if bool_decide (p = new) then m !! old
    else if bool_decide (p = old) || under old p then None
    else match cut_prefix p (new ++ [ch_slash]) with
         | Some rest => m !! (old ++ ch_slash :: rest)
         | None => m !! p
         end.
Proof.
  destruct Hok as [Hu Hord].
  destruct (Rename_ok _ _ _ _ _ Hwf Hren) as (os&ns&n&->&->&Hos&Hns&Hgo&Hgn&Hn&Ht&Hv&Hp&->).
  assert (Hout : ¬ os `prefix_of` ns) by (apply not_prefix_of_under; congruence).
  assert (Hleaf : ∀ ds rest, ds ≠ [] → good_segs ds →
            (∀ t, m !! seg_name ds = Some t → IsDir (mode t) = false) →
            m !! (seg_name ds ++ ch_slash :: rest) = None).
  { intros ds rest Hd Hgd Hf. destruct (m !! (seg_name ds ++ ch_slash :: rest)) eqn:E; [|done].
    destruct (wf_key_segs _ _ _ Hwf E) as (qs & Hq & Hgq).
    assert (cut_prefix (seg_name qs) (seg_name ds ++ [ch_slash]) = Some rest) as Hc.
    { rewrite <-Hq, (cons_middle ch_slash), app_assoc. apply cut_prefix_app. }
    apply cut_prefix_segs in Hc as (rs & Hr & -> & _); [|done..]. rewrite Hq in E.
    destruct (wf_ancestor _ _ _ _ Hwf Hgq Hr E) as (t & Ht' & Hdt). apply Hf in Ht'. congruence. }
  rewrite (renamed_lookup m os ns n order Hwf) by done.
  case_bool_decide; [done|]. case_bool_decide; [done|]. simpl.
  destruct (IsDir (mode n)) eqn:Hd; simpl.
  - case_match; [done|]. destruct (cut_prefix p _) as [rest|] eqn:Hc; [|done].
    destruct (m !! (seg_name os ++ ch_slash :: rest)) eqn:E; [done|].
    apply cut_prefix_Some in Hc. rewrite <-app_assoc in Hc. simpl in Hc. rewrite Hc. by apply Hleaf.
  - assert (Hmatch : ∀ x : option node, match cut_prefix p (seg_name ns ++ [ch_slash]) with
              Some _ => m !! p | None => m !! p end = m !! p) by (intros; by case_match).
    rewrite (Hmatch None). destruct (under (seg_name os) p) eqn:Hup.
    + apply has_prefix_spec in Hup as [rest ->]. rewrite <-app_assoc. apply Hleaf; [done..|].
      intros t ?. simplify_eq. done.
    + destruct (cut_prefix p _) as [rest|] eqn:Hc; [|done].
      apply cut_prefix_Some in Hc. rewrite <-app_assoc in Hc. simpl in Hc. rewrite Hc, !Hleaf; try done.
      intros t ?. simplify_eq. done.
Qed.

Lemma Rename_moves_subtree_witness :
  let m := foldl exec (NewMemFS 0) [CMkdirAll (lit "a/b") 493 (fun _ => 1);
                                    CWriteFile (lit "a/b/f") (lit "x") 420 2] in
  let order := [lit "a/b/f"; lit "z/b/f"; lit "a"; lit "."; lit "a/b"] in
  (Rename m (lit "a") (lit "z") order).1 = Ok tt ∧
  (Rename m (lit "a") (lit "z") order).2 !! lit "z/b/f" = m !! lit "a/b/f".
Proof.
  intros m order. split; [vm_compute; reflexivity|].
  rewrite (Rename_moves_subtree m (lit "a") (lit "z") order).
  - reflexivity.
  - apply exec_wf; [|done]. apply exec_wf; [|done]. apply NewMemFS_wf.
  - split; [vm_compute; reflexivity|]. apply order_covers. vm_compute. reflexivity.
  - vm_compute. congruence.
  - rewrite (surjective_pairing (Rename _ _ _ _)). f_equal.
Defined.

(** Nothing stops Rename from moving a directory below itself: when the
    target's name is free, renaming a directory to a direct child of itself
    succeeds in every iteration order, and the map it leaves is no longer a
    tree - the directory is gone while names below it remain, reachable from
    nowhere. *)
Theorem Rename_into_itself_orphans (m : fsys) (ds : list bytes) (x : bytes) (n : node)
    (order : list bytes) (Hds : ds ≠ []) (Hg : good_segs (ds ++ [x]))
    (Hv : ValidPath (seg_name ds) = true) (Hvx : ValidPath (seg_name (ds ++ [x])) = true)
    (Hn : m !! seg_name ds = Some n) (Hdir : IsDir (mode n) = true)
    (Hfree : m !! seg_name (ds ++ [x]) = None) :
  (Rename m (seg_name ds) (seg_name (ds ++ [x])) order).1 = Ok tt ∧
  ¬ wf (Rename m (seg_name ds) (seg_name (ds ++ [x])) order).2.
Proof.
  pose proof Hg as [Hgd _]%good_segs_app.
  assert (Hnr : ∀ ws, ws ≠ [] → good_segs ws → seg_name ws ≠ lit ".").
  { intros ws Hw Hgw He. by apply (seg_name_inj ws []) in He; [|done|by apply Forall_nil]. }
  assert (Hu : under (seg_name ds) (seg_name (ds ++ [x])) = true)
    by (apply under_segs; [done..|by exists [x]]).
  assert (Hpar : checkParentLocked m "rename" (seg_name (ds ++ [x])) = Ok tt).
  { apply checkParent_ok. rewrite dir_snoc by done. by exists n. }
  unfold Rename. rewrite Hv, Hvx, Hn, Hfree, Hpar. simpl.
  rewrite !bool_decide_false by (apply Hnr; [by destruct ds|done]). rewrite Hdir.
  split; [done|]. cbv iota beta. intros Hwf.
  destruct (rename_loop_inside (seg_name ds) (seg_name (ds ++ [x])) order
              (<[seg_name (ds ++ [x]):=n]> (delete (seg_name ds) m))) as (Hnone & q & Hq & k & Hk).
  - done.
  - rewrite lookup_insert_ne, lookup_delete_eq; [done|].
    intros He%seg_name_inj; [|done..]. apply (f_equal length) in He.
    rewrite length_app in He. simpl in He. lia.
  - exists (seg_name (ds ++ [x])). split; [done|]. rewrite lookup_insert_eq. by eexists.
  - destruct (wf_key_segs _ _ _ Hwf Hk) as (qs & -> & Hgq).
    apply under_segs in Hq as (rs & Hr & ->); [|done..].
    destruct (wf_ancestor _ _ _ _ Hwf Hgq Hr Hk) as (d & Hd & _). simpl in *. congruence.
Qed.

Lemma Rename_into_itself_orphans_witness :
  let m := exec (NewMemFS 0) (CMkdir (lit "a") 493 1) in
  (Rename m (lit "a") (lit "a/b") [lit "."; lit "a"]).1 = Ok tt ∧
  ¬ wf (Rename m (lit "a") (lit "a/b") [lit "."; lit "a"]).2.
Proof.
  intros m.
  apply (Rename_into_itself_orphans m [lit "a"] (lit "b") (MkNode [] (Z.lor ModeDir 493) 1)).
  - done.
  - by apply good_segsb_good.
  - vm_compute. reflexivity.
  - vm_compute. reflexivity.
  - vm_compute. reflexivity.
  - vm_compute. reflexivity.
  - vm_compute. reflexivity.
Defined.


(** MkdirAll always comes to an end (its recursion depth is bounded by
    the length of the name), and it succeeds exactly when no name on the way
    down is a file. It then has made every ancestor and the name itself a
    directory; whatever the outcome, nothing that existed is changed and
    nothing outside the chain of ancestors is created. *)
Theorem MkdirAll_total (m : fsys) (ws : list bytes) (perm : Z) (now : bytes → Z)
    (Hwf : wf m) (Hg : good_segs ws) (Hv : ValidPath (seg_name ws) = true) :
  ∃ r m', MkdirAll m (seg_name ws) perm now = Some (r, m') ∧ m ⊆ m' ∧ wf m' ∧
    (r = Ok tt ↔ no_file_above m ws) ∧
    (r = Ok tt → ∀ ds, ds `prefix_of` ws → is_dir_at m' (seg_name ds)) ∧
    (∀ qs, good_segs qs → ¬ qs `prefix_of` ws → m' !! seg_name qs = m !! seg_name qs).
Proof. apply MkdirAll_spec; try done. pose proof (seg_name_length ws Hg). lia. Qed.

Lemma MkdirAll_total_witness :
  good_segs [lit "x"; lit "y"] ∧
  ∃ r m', MkdirAll (NewMemFS 0) (lit "x/y") 493 (fun _ => 7) = Some (r, m') ∧ NewMemFS 0 ⊆ m'.
Proof.
  split; [by apply good_segsb_good|].
  destruct (MkdirAll_total (NewMemFS 0) [lit "x"; lit "y"] 493 (fun _ => 7)) as (r & m' & H & Hs & _).
  - apply NewMemFS_wf.
  - by apply good_segsb_good.
  - vm_compute. reflexivity.
  - eauto.
Defined.

(** What WriteFile stored is what a reader gets: after a successful
    WriteFile, opening the name yields a read handle that delivers exactly the
    written bytes - whatever buffer size the reader uses - and then io.EOF;
    no other name is affected. *)
Theorem WriteFile_read_back (m : fsys) (name p : bytes) (perm now : Z) (m' : fsys) (plen : nat)
    (Hw : WriteFile m name p perm now = (Ok tt, m')) (Hplen : (0 < plen)%nat) :
  (∃ h, Open m' name = Ok (FRead h) ∧ i_size (rh_info h) = Z.of_nat (length p) ∧
        ReadAll (S (length p)) plen h = Some p) ∧
  (∀ q, q ≠ name → m' !! q = m !! q).
Proof.
  apply WriteFile_ok in Hw as (k & Hv & Hk & ->). split.
  - eexists. unfold Open. rewrite Hv, lookup_insert_eq. cbn [mode negb]. rewrite Hk.
    split_and!; [done|done|]. rewrite ReadAll_spec; cbn; [done|done|lia].
  - intros q Hq. by rewrite lookup_insert_ne.
Qed.

Lemma WriteFile_read_back_witness :
  let m' := (WriteFile (NewMemFS 0) (lit "f") (lit "hello") 420 3).2 in
  (∃ h, Open m' (lit "f") = Ok (FRead h) ∧ i_size (rh_info h) = 5 ∧
        ReadAll 6 2 h = Some (lit "hello")) ∧
  (∀ q, q ≠ lit "f" → m' !! q = NewMemFS 0 !! q).
Proof.
  intros m'. apply (WriteFile_read_back (NewMemFS 0) (lit "f") (lit "hello") 420 3 m' 2); [|lia].
  unfold m'. rewrite (surjective_pairing (WriteFile _ _ _ _ _)). f_equal.
Defined.

(** Opening a directory lists it exactly: one entry per child, none for
    anything else, strictly sorted by name (so no name occurs twice), and
    reading the handle in pages of any positive size yields the same list and
    then io.EOF. *)
Theorem Open_dir_lists_children (m : fsys) (name : bytes) (h : dirHandle) (count : Z)
    (Hwf : wf m) (Hopen : Open m name = Ok (FDir h)) (Hcount : 0 < count) :
  (∀ i, i ∈ dh_entries h ↔
        ∃ p n, m !! p = Some n ∧ p ≠ lit "." ∧ Path.dir p = name ∧ i = infoOf p n) ∧
  StronglySorted (fun a b => bytes_lt (i_name a) (i_name b)) (dh_entries h) ∧
  ReadDirPages (S (length (dh_entries h))) count h = Some (dh_entries h).
Proof.
  revert Hopen. unfold Open. repeat case_match; try done. intros [= <-]. cbn [dh_entries].
  split_and!; [apply entriesLocked_elem|by apply entriesLocked_sorted|].
  rewrite ReadDirPages_spec; [done|done|]. simpl. lia.
Qed.

Lemma Open_dir_lists_children_witness :
  let m := foldl exec (NewMemFS 0) [CMkdir (lit "d") 493 1; CWriteFile (lit "d/b") [] 420 2;
                                    CWriteFile (lit "d/a") [] 420 2; CMkdir (lit "d/c") 493 1;
                                    CMkdir (lit "d/c/x") 493 1] in
  ∃ h, Open m (lit "d") = Ok (FDir h) ∧ map i_name (dh_entries h) = map lit ["a"; "b"; "c"] ∧
       ReadDirPages (S (length (dh_entries h))) 2 h = Some (dh_entries h).
Proof.
  intros m. eexists. split; [vm_compute; reflexivity|]. split; [vm_compute; reflexivity|].
  apply (Open_dir_lists_children m (lit "d")).
  - do 5 (apply exec_wf; [|done]). apply NewMemFS_wf.
  - vm_compute. reflexivity.
  - lia.
Defined.

(** *** The WritableFS interface *)

(** Open for writing with [flag], one Write, Close. *)
Definition write_file (m : fsys) (name : bytes) (flag perm now : Z) (p : bytes)
  : result goerr unit * fsys :=
  match OpenFile m name flag perm now with
  | (Err e, m') => (Err (path_goerr e), m')
  | (Ok (FWrite h), m') =>
      let '(r, m'', _) := write_Write m' h p now in
      (match r with Ok _ => Ok tt | Err e => Err (path_goerr e) end, m'')
  | (Ok _, m') => (Err (text_goerr (lit "not a writer")), m')
  end.

(** fs.ReadFile: Open, then Read until io.EOF. *)
Definition read_file (m : fsys) (name : bytes) : result goerr bytes :=
  match Open m name with
  | Err e => Err (path_goerr e)
  | Ok (FRead h) => Ok (default [] (ReadAll (S (length (rh_data h))) 512 h))
  | Ok (FDir h) => match dir_Read h with Ok b => Ok b | Err e => Err (path_goerr e) end
  | Ok (FWrite _) => Ok []
  end.

Definition stat (m : fsys) (name : bytes) : result goerr fileInfo :=
  match Open m name with
  | Err e => Err (path_goerr e)
  | Ok (FRead h) => Ok (rh_info h)
  | Ok (FDir h) => Ok (dh_info h)
  | Ok (FWrite h) => match write_Stat m h with Ok i => Ok i | Err e => Err (path_goerr e) end
  end.

(** fs.ReadDir: Open, ReadDir(-1); a file handle has no ReadDir. *)
Definition read_dir (m : fsys) (name : bytes) : result goerr (list fileInfo) :=
  match Open m name with
  | Err e => Err (path_goerr e)
  | Ok (FDir h) => match (dir_ReadDir h (-1)).1 with
                   | Ok es => Ok es
                   | Err (EPath e) => Err (path_goerr e)
                   | Err EEOF => Err (text_goerr (lit "EOF"))
                   end
  | Ok _ => Err (text_goerr (lit "readdir " ++ name ++ lit ": not implemented"))
  end.

Definition lift (r : result PathError unit * fsys) : result goerr unit * fsys :=
  (match r.1 with Ok u => Ok u | Err e => Err (path_goerr e) end, r.2).

(** The order of Rename's map iteration does not matter ([Rename] is given
    the keys of the map). *)
#[export] Instance memfs_fs (now : Z) : WritableFS fsys := {
  fs_stat := stat;
  fs_read := read_file;
  fs_readdir := read_dir;
  fs_write m name flag perm p := write_file m name flag perm now p;
  fs_mkdir m name perm := lift (Mkdir m name perm now);
  fs_remove m name := lift (Remove m name);
  fs_rename m old new := lift (Rename m old new (map fst (map_to_list m)));
  fs_chmod := Some (fun m name mode' => lift (Chmod m name mode'));
  fs_chtimes := Some (fun m name atime mtime => lift (Chtimes m name atime mtime))
}.

Lemma write_file_replace m name perm now p m' :
  write_file m name O_REPLACE perm now p = (Ok tt, m') → WriteFile m name p perm now = (Ok tt, m').
Proof.
  unfold write_file, WriteFile. change O_REPLACE with (Z.lor O_WRONLY (Z.lor O_CREATE O_TRUNC)).
  destruct (OpenFile _ _ _ _ _) as [[[| |h]|] m1]; try done.
  destruct (write_Write m1 h p now) as [[[]?]?]; intros; by simplify_eq.
Qed.

(** Only the opened name can change. *)
Lemma OpenFile_other m name flag perm now r m' q :
  OpenFile m name flag perm now = (r, m') → q ≠ name → m' !! q = m !! q.
Proof.
  unfold OpenFile. intros H Hq.
  repeat case_match; simplify_eq; try done; by rewrite lookup_insert_ne.
Qed.

Lemma OpenFile_handle m name flag perm now h m' :
  OpenFile m name flag perm now = (Ok (FWrite h), m') → wh_name h = name.
Proof.
  unfold OpenFile, Open, err. intros H. repeat case_match; simplify_eq; done.
Qed.

Lemma write_file_other m name flag perm now p r m' q :
  write_file m name flag perm now p = (r, m') → q ≠ name → m' !! q = m !! q.
Proof.
  unfold write_file. intros H Hq.
  destruct (OpenFile m name flag perm now) as [[[| |h]|] m1] eqn:Ho; simplify_eq;
    try by eapply OpenFile_other.
  apply OpenFile_handle in Ho as Hn. rewrite <-(OpenFile_other _ _ _ _ _ _ _ _ Ho Hq).
  unfold write_Write in H. destruct (m1 !! wh_name h); simplify_eq; [|done].
  rewrite lookup_insert_ne; congruence.
Qed.

Lemma read_file_lookup m m' q : m !! q = m' !! q → read_file m q = read_file m' q.
Proof.
  unfold read_file, Open. intros ->. destruct (ValidPath q); [|done]. simpl.
  destruct (m' !! q) as [n|]; [|done]. by destruct (IsDir (mode n)).
Qed.

#[export] Instance memfs_laws (now : Z) : @WritableFSLaws fsys (memfs_fs now).
Proof.
  split.
  - intros m m' name perm p Hw. apply write_file_replace, WriteFile_ok in Hw as (k & Hv & Hk & ->).
    unfold fs_read, memfs_fs, read_file, Open. rewrite Hv, lookup_insert_eq. cbn [mode negb]. rewrite Hk.
    rewrite ReadAll_spec; cbn [rh_data rh_pos]; [done|lia..].
  - intros m m' name q flag perm p r Hw Hq. apply read_file_lookup.
    by apply (write_file_other m name flag perm now p r m' q).
Qed.

End MemFS.
