(* ===== verification/NodeFS.v ===== *)
(** compat/nodejs: the host side of node:fs - the path operations of
    runtime.go, the descriptor operations and the tree operations of
    fsextra.go - over any file system that implements the WritableFS
    interface. Arguments arrive decoded (a number as the int64 the code
    converts it to); what an operation answers is an [opval]. *)

From S2P Require Import Prelude GoPath IoFS MemFS.

(** ** State *)

Record openFile := MkOpen {
  of_path : bytes; of_data : bytes; of_pos : Z;
  of_write : bool; of_append : bool; of_dirty : bool
}.

#[export] Instance openFile_eq_dec : EqDecision openFile.
Proof. solve_decision. Defined.

(** The parts of Runtime the fs operations use; Config.FS is fixed for the
    life of an interpreter. *)
Record Runtime (F : Type) := MkRuntime {
  rt_fds : gmap Z openFile;
  rt_nextFD : Z;
  rt_fs : mount F
}.
Arguments MkRuntime {F} _ _ _.
Arguments rt_fds {F} _.
Arguments rt_nextFD {F} _.
Arguments rt_fs {F} _.

Definition NewRuntime {F} (m : mount F) : Runtime F := MkRuntime ∅ 3 m.

Definition set_fds {F} (x : gmap Z openFile) (rt : Runtime F) : Runtime F :=
  MkRuntime x (rt_nextFD rt) (rt_fs rt).
Definition set_fs {F} (f : F) (rt : Runtime F) : Runtime F :=
  MkRuntime (rt_fds rt) (rt_nextFD rt) (remount (rt_fs rt) f).
Definition next_fd {F} (rt : Runtime F) : Runtime F :=
  MkRuntime (rt_fds rt) (rt_nextFD rt + 1) (rt_fs rt).

(** What an operation hands back to JavaScript; [VErr] is the {code, message}
    object of fsErrValue. [PanicV] is a Go panic, which the host-call layer
    turns into a thrown error. *)
Inductive opval :=
| VErr (code message : bytes)
| VOk
| VInt (n : Z)
| VBool (b : bool)
| VStr (s : bytes)
| VBytes (b : bytes)
| VRead (data : bytes) (n : Z)
| VStat (size : Z) (dir : bool) (mode mtimeMs : Z)
| VDir (names : list bytes) (dirs : list bool)
| PanicV.

#[export] Instance opval_eq_dec : EqDecision opval.
Proof. solve_decision. Defined.

(** ** Errors *)

Definition fsErrValue (e : goerr) : opval :=
  let code :=
    match ge_errno e with
    | Some c => c
    | None =>
        if bool_decide (ge_is e = Some ErrNotExist) then lit "ENOENT"
        else if bool_decide (ge_is e = Some ErrExist) then lit "EEXIST"
        else if bool_decide (ge_is e = Some ErrPermission) || contains (ge_text e) (lit "permission denied")
        then lit "EACCES"
        else if bool_decide (ge_is e = Some ErrInvalid) then lit "EINVAL"
        else if contains (ge_text e) (lit "read-only") then lit "EROFS"
        else lit "EIO"
    end in
  VErr code (ge_text e).

Definition errReadOnlyFS : goerr :=
  text_goerr (lit "filesystem is read-only (Config.FS does not implement WritableFS)").

Definition errNoFS : goerr :=
  MkErr None (Some ErrNotExist) (lit "no filesystem configured: file does not exist").

(** fs.ErrNotExist itself. *)
Definition errNotExist : goerr := MkErr None (Some ErrNotExist) (kind_text ErrNotExist).

Definition writableFS {F} (m : mount F) : result goerr F :=
  match m with
  | NoFS => Err errNoFS
  | ReadOnlyFS _ => Err errReadOnlyFS
  | RWFS f => Ok f
  end.

(** ** The operations *)

(** Node's stats.mode. *)
Definition statMode (mode : Z) : Z :=
  Z.lor (Perm mode)
    (if negb (Z.land mode ModeSymlink =? 0) then 40960 (* S_IFLNK *)
     else if IsDir mode then 16384 (* S_IFDIR *)
     else 32768 (* S_IFREG *)).

Definition maxFDFileBytes : Z := 1073741824.

(** The largest allocation the Go runtime attempts; make panics above it. *)
Definition maxAlloc : Z := 281474976710656.

Section Ops.
Context {F : Type} `{WritableFS F}.
Abbreviation RT := (Runtime F).

(** readFile of resolve.go. *)
Definition readFile (m : mount F) (p : bytes) : result goerr bytes :=
  match mounted m with
  | None => Err (text_goerr (lit "no FS configured"))
  | Some f => fs_read f p
  end.

Definition opFSReadFile (rt : RT) (path : bytes) : opval :=
  match readFile (rt_fs rt) (guestPath path) with
  | Err e => fsErrValue e
  | Ok b => VBytes b
  end.

(** The answer of an operation on the writable file system. *)
Definition answer (rt : RT) (r : result goerr unit * F) : opval * RT :=
  (match r.1 with Ok _ => VOk | Err e => fsErrValue e end, set_fs r.2 rt).

Definition with_writable (rt : RT) (k : F → opval * RT) : opval * RT :=
  match writableFS (rt_fs rt) with
  | Err e => (fsErrValue e, rt)
  | Ok f => k f
  end.

Definition opFSWriteFile (rt : RT) (path data : bytes) (append : bool) : opval * RT :=
  with_writable rt (fun f =>
    let flag := if append then Z.lor O_WRONLY (Z.lor O_CREATE O_APPEND) else O_REPLACE in
    answer rt (fs_write f (guestPath path) flag 420 data)).

Definition opFSStat (rt : RT) (path : bytes) : opval :=
  match mounted (rt_fs rt) with
  | None => fsErrValue errNotExist
  | Some f =>
      match fs_stat f (guestPath path) with
      | Err e => fsErrValue e
      | Ok i => VStat (i_size i) (IsDir (i_mode i)) (statMode (i_mode i)) (i_modTime i / 1000000)
      end
  end.

Definition opFSReaddir (rt : RT) (path : bytes) : opval :=
  match mounted (rt_fs rt) with
  | None => fsErrValue errNotExist
  | Some f =>
      match fs_readdir f (guestPath path) with
      | Err e => fsErrValue e
      | Ok es => VDir (map i_name es) (map (fun i => IsDir (i_mode i)) es)
      end
  end.

(** The loop of the recursive mkdir over the prefixes of the path. *)
Fixpoint mkdir_loop (f : F) (dirs : list bytes) : result goerr unit * F :=
  match dirs with
  | [] => (Ok tt, f)
  | dir :: dirs' =>
      if match fs_stat f dir with Ok i => IsDir (i_mode i) | Err _ => false end
      then mkdir_loop f dirs'
      else match fs_mkdir f dir 493 with
           | (Ok _, f') => mkdir_loop f' dirs'
           | (Err e, f') => if bool_decide (ge_is e = Some ErrExist) then mkdir_loop f' dirs'
                            else (Err e, f')
           end
  end.

(** strings.Join(segs[:i+1], "/") for each i. *)
Definition path_prefixes (segs : list bytes) : list bytes :=
  map (fun i => join ch_slash (take (S i) segs)) (seq 0 (length segs)).

Definition opFSMkdir (rt : RT) (path : bytes) (recursive : bool) : opval * RT :=
  let p := guestPath path in
  with_writable rt (fun f =>
    if negb recursive then answer rt (fs_mkdir f p 493)
    else answer rt (mkdir_loop f (path_prefixes (split ch_slash p)))).

Definition opFSRemove (rt : RT) (path : bytes) : opval * RT :=
  with_writable rt (fun f => answer rt (fs_remove f (guestPath path))).

Definition opFSRename (rt : RT) (old new : bytes) : opval * RT :=
  with_writable rt (fun f => answer rt (fs_rename f (guestPath old) (guestPath new))).

Definition opFSExists (rt : RT) (path : bytes) : opval :=
  VBool (match mounted (rt_fs rt) with
         | None => false
         | Some f => is_ok (fs_stat f (guestPath path))
         end).

Definition opFSChmod (rt : RT) (path : bytes) (mode : Z) : opval * RT :=
  match mounted (rt_fs rt) with
  | None => (fsErrValue errNotExist, rt)
  | Some f =>
      let p := guestPath path in
      match fs_stat f p with
      | Err e => (fsErrValue e, rt)
      | Ok _ => match fs_chmod with
                | None => (VOk, rt)
                | Some chmod => answer rt (chmod f p (Perm (u32 mode)))
                end
      end
  end.

(** Times in milliseconds. *)
Definition opFSUtimes (rt : RT) (path : bytes) (atimeMs mtimeMs : Z) : opval * RT :=
  match mounted (rt_fs rt) with
  | None => (fsErrValue errNotExist, rt)
  | Some f =>
      let p := guestPath path in
      match fs_stat f p with
      | Err e => (fsErrValue e, rt)
      | Ok _ => match fs_chtimes with
                | None => (VOk, rt)
                | Some chtimes => answer rt (chtimes f p (atimeMs * 1000000) (mtimeMs * 1000000))
                end
      end
  end.

Definition opFSCopyFile (rt : RT) (src dst : bytes) : opval * RT :=
  with_writable rt (fun f =>
    match readFile (rt_fs rt) (guestPath src) with
    | Err e => (fsErrValue e, rt)
    | Ok data => answer rt (fs_write f (guestPath dst) O_REPLACE 420 data)
    end).

(** The loop of removeAll over the entries of [dir], and the removal of [dir]
    itself after it; [self] is the recursive call. *)
Fixpoint removeAll_entries (self : F → bytes → option (result goerr unit * F)) (dir : bytes)
    (es : list fileInfo) (f : F) : option (result goerr unit * F) :=
  match es with
  | [] => Some (fs_remove f dir)
  | e :: es' =>
      let child := Path.join2 dir (i_name e) in
      match (if IsDir (i_mode e) then self f child else Some (fs_remove f child)) with
      | None => None
      | Some (Err er, f') => Some (Err er, f')
      | Some (Ok _, f') => removeAll_entries self dir es' f'
      end
  end.

(** removeAll: depth first; the fuel bounds the depth, [None] is running out
    of it. The entries are those of the directory when it was opened. *)
Fixpoint removeAll (fuel : nat) (f : F) (dir : bytes) : option (result goerr unit * F) :=
  match fuel with
  | O => None
  | S fuel' =>
      match fs_readdir f dir with
      | Err e => Some (Err e, f)
      | Ok entries => removeAll_entries (removeAll fuel') dir entries f
      end
  end.

Definition opFSRm (fuel : nat) (rt : RT) (path : bytes) (recursive force : bool) : option (opval * RT) :=
  match writableFS (rt_fs rt) with
  | Err e => Some (fsErrValue e, rt)
  | Ok f =>
      let p := guestPath path in
      match fs_stat f p with
      | Err e => Some (if force then VOk else fsErrValue e, rt)
      | Ok info =>
          if IsDir (i_mode info) && recursive then
            answer rt <$> removeAll fuel f p
          else
            let '(r, f') := fs_remove f p in
            Some (match r with
                  | Ok _ => VOk
                  | Err e => if force then VOk else fsErrValue e
                  end, set_fs f' rt)
      end
  end.

(** strconv.FormatInt(n, 36) for n > 0. *)
Fixpoint format36 (fuel : nat) (n : Z) : bytes :=
  match fuel with
  | O => []
  | S fuel' => if n <=? 0 then []
               else format36 fuel' (n / 36) ++
                    [let d := n mod 36 in if d <? 10 then 48 + d else 87 + d]
  end.

Fixpoint mkdtemp_loop (tries : nat) (rt : RT) (f : F) (prefix : bytes) : opval * RT :=
  match tries with
  | O => (fsErrValue (text_goerr (lit "mkdtemp: exhausted attempts")), rt)
  | S tries' =>
      let rt := next_fd rt in
      let candidate := prefix ++ format36 13 (rt_nextFD rt) ++ lit "xxxxx" in
      if is_ok (fs_stat f candidate) then mkdtemp_loop tries' rt f prefix
      else match fs_mkdir f candidate 448 with
           | (Err e, f') => (fsErrValue e, set_fs f' rt)
           | (Ok _, f') => (VStr (ch_slash :: candidate), set_fs f' rt)
           end
  end.

Definition opFSMkdtemp (rt : RT) (prefix : bytes) : opval * RT :=
  with_writable rt (fun f => mkdtemp_loop 1000 rt f (guestPath prefix)).

(** *** Descriptors *)

Definition opFSOpen (rt : RT) (path flags : bytes) : opval * RT :=
  let p := guestPath path in
  let write := negb (bool_decide (flags = lit "r")) in
  let install (data : bytes) (dirty : bool) :=
    let append := bool_decide (flags = lit "a") || bool_decide (flags = lit "a+") in
    let rt' := next_fd rt in
    (VInt (rt_nextFD rt'),
     set_fds (<[ rt_nextFD rt' := MkOpen p data 0 write append dirty ]> (rt_fds rt')) rt') in
  if bool_decide (flags = lit "r") || bool_decide (flags = lit "r+") then
    match readFile (rt_fs rt) p with
    | Err e => (fsErrValue e, rt)
    | Ok b => install b false
    end
  else if bool_decide (flags = lit "a") || bool_decide (flags = lit "a+") then
    install (match readFile (rt_fs rt) p with Ok b => b | Err _ => [] end) false
  else if bool_decide (flags = lit "w") || bool_decide (flags = lit "w+") then
    install [] true
  else (* %q: the flags between double quotes *)
    (fsErrValue (text_goerr (lit "unsupported flags " ++ [34] ++ flags ++ [34])), rt).

Definition with_pos (pos : Z) (f : openFile) : openFile :=
  MkOpen (of_path f) (of_data f) pos (of_write f) (of_append f) (of_dirty f).

(** A slice b[from:to] of bytes, in range. *)
Definition slice (b : bytes) (from to : Z) : bytes := drop (Z.to_nat from) (take (Z.to_nat to) b).

(** opFSReadFD(fd, length, position): [None] for an argument that is absent
    (or, for the position, not a number). *)
Definition read_fd (f : openFile) (length position : option Z) : opval * openFile :=
  let pos := default (of_pos f) position in
  let pos := if pos <? 0 then 0 else pos in
  let avail := zlen (of_data f) - pos in
  let len := match length with Some l => if l <? avail then l else avail | None => avail end in
  if (zlen (of_data f) <=? pos) || (len <=? 0) then (VRead [] 0, f)
  else
    let chunk := slice (of_data f) pos (pos + len) in
    (VRead chunk (zlen chunk),
     match position with Some _ => f | None => with_pos (pos + len) f end).

Definition opFSReadFD (rt : RT) (fd : Z) (length position : option Z) : opval * RT :=
  match rt_fds rt !! fd with
  | None => (fsErrValue (errnoError "EBADF"), rt)
  | Some f =>
      let '(v, f') := read_fd f length position in (v, set_fds (<[ fd := f' ]> (rt_fds rt)) rt)
  end.

(** [copy(dst[at:], src)] when at is within dst. *)
Definition copy_into (dst : bytes) (at_ : Z) (src : bytes) : bytes :=
  let n := Z.to_nat at_ in
  take n dst ++ take (length dst - n) src ++ drop (n + length src) dst.

Definition write_fd (f : openFile) (data : bytes) (position : option Z) : opval * openFile :=
  let writeAt := default (of_pos f) position in
  let upd (d : bytes) (pos : Z) := MkOpen (of_path f) d pos (of_write f) (of_append f) true in
  if of_append f || (negb (bool_decide (is_Some position)) && (zlen (of_data f) <=? of_pos f)) then
    let d := of_data f ++ data in (VInt (zlen data), upd d (zlen d))
  else
    let writeAt := if writeAt <? 0 then 0 else writeAt in
    if maxFDFileBytes <? i64 (writeAt + zlen data) then (fsErrValue (errnoError "EFBIG"), f)
    else
      let grow := i64 (i64 (writeAt + zlen data) - zlen (of_data f)) in
      if maxAlloc <? grow then (PanicV, f) (* makeslice: len out of range *)
      else
      let grown := if 0 <? grow then of_data f ++ replicate (Z.to_nat grow) 0 else of_data f in
      if zlen grown <? writeAt then (PanicV, f) (* slice bounds out of range *)
      else (VInt (zlen data),
            upd (copy_into grown writeAt data)
                (match position with Some _ => of_pos f | None => i64 (writeAt + zlen data) end)).

Definition opFSWriteFD (rt : RT) (fd : Z) (data : bytes) (position : option Z) : opval * RT :=
  match rt_fds rt !! fd with
  | None => (fsErrValue (errnoError "EBADF"), rt)
  | Some f =>
      let '(v, f') := write_fd f data position in (v, set_fds (<[ fd := f' ]> (rt_fds rt)) rt)
  end.

Definition opFSFtruncate (rt : RT) (fd : Z) (length : option Z) : opval * RT :=
  match rt_fds rt !! fd with
  | None => (fsErrValue (errnoError "EBADF"), rt)
  | Some f =>
      if negb (of_write f) then (fsErrValue (errnoError "EBADF"), rt)
      else
        let n := Z.max 0 (default 0 length) in
        if maxFDFileBytes <? n then (fsErrValue (errnoError "EFBIG"), rt)
        else
          let d := if n <=? zlen (of_data f) then take (Z.to_nat n) (of_data f)
                   else of_data f ++ replicate (Z.to_nat (n - zlen (of_data f))) 0 in
          (VOk, set_fds (<[ fd := MkOpen (of_path f) d (of_pos f) (of_write f) (of_append f) true ]>
                           (rt_fds rt)) rt)
  end.

Definition opFSCloseFD (rt : RT) (fd : Z) : opval * RT :=
  let rt' := set_fds (delete fd (rt_fds rt)) rt in
  match rt_fds rt !! fd with
  | None => (VOk, rt')
  | Some f =>
      if negb (of_dirty f) then (VOk, rt')
      else with_writable rt' (fun fs => answer rt' (fs_write fs (of_path f) O_REPLACE 420 (of_data f)))
  end.

Definition opFSFstat (rt : RT) (fd : Z) : opval :=
  match rt_fds rt !! fd with
  | None => fsErrValue (errnoError "EBADF")
  | Some f => VStat (zlen (of_data f)) false 420 0
  end.

(** *** Programs over descriptors *)

(** A loop of reads at the current position, until one returns no bytes. *)
Fixpoint read_loop (fuel : nat) (rt : RT) (fd chunk : Z) : option (bytes * RT) :=
  match fuel with
  | O => None
  | S fuel' =>
      match opFSReadFD rt fd (Some chunk) None with
      | (VRead data n, rt') =>
          if n =? 0 then Some ([], rt')
          else '(rest, rt'') ← read_loop fuel' rt' fd chunk; Some (data ++ rest, rt'')
      | _ => None
      end
  end.

Definition write_all (rt : RT) (fd : Z) (chunks : list bytes) : RT :=
  foldl (fun rt d => (opFSWriteFD rt fd d None).2) rt chunks.

End Ops.

(** ** Lemmas *)

Lemma set_fs_mounted {F} (m : mount F) f : mounted (remount m f) = mounted (remount m f).
Proof. done. Qed.

Section Lemmas.
Context {F : Type} `{WritableFSLaws F}.
Implicit Types rt : Runtime F.

Lemma readFile_fds x rt p : readFile (rt_fs (set_fds x rt)) p = readFile (rt_fs rt) p.
Proof. done. Qed.

(** Writing at the end of a descriptor opened with "w". *)
Lemma write_fd_append f d :
  of_append f = false → of_pos f = zlen (of_data f) →
  write_fd f d None =
    (VInt (zlen d), MkOpen (of_path f) (of_data f ++ d) (zlen (of_data f ++ d)) (of_write f) false true).
Proof.
  intros Ha Hp. unfold write_fd. rewrite Ha, Hp. simpl. by rewrite Z.leb_refl.
Qed.

Lemma write_all_spec rt fd p w chunks d dirty :
  rt_fds rt !! fd = Some (MkOpen p d (zlen d) w false dirty) → chunks ≠ [] ∨ dirty = true →
  let rt' := write_all rt fd chunks in
  rt_fds rt' !! fd = Some (MkOpen p (d ++ concat chunks) (zlen (d ++ concat chunks)) w false true) ∧
  rt_fs rt' = rt_fs rt.
Proof.
  revert rt d dirty. induction chunks as [|c chunks IH]; intros rt d dirty Hf Hd.
  - destruct Hd as [?| ->]; [done|]. simpl. by rewrite app_nil_r.
  - simpl. destruct (opFSWriteFD rt fd c None) as [v rt1] eqn:Hw.
    unfold opFSWriteFD in Hw. rewrite Hf, write_fd_append in Hw by done. simplify_eq/=.
    destruct (IH (set_fds (<[fd:=MkOpen p (d ++ c) (zlen (d ++ c)) w false true]> (rt_fds rt)) rt)
                 (d ++ c) true) as [H1 H2].
    + simpl. by rewrite lookup_insert_eq.
    + auto.
    + rewrite app_assoc. auto.
Qed.

Lemma slice_length b from to :
  0 <= from → from <= to → to <= zlen b → zlen (slice b from to) = to - from.
Proof.
  intros. unfold slice, zlen in *. rewrite length_drop, length_take. lia.
Qed.

Lemma read_loop_spec fuel rt fd f chunk :
  rt_fds rt !! fd = Some f → 0 < chunk → 0 <= of_pos f →
  (Z.to_nat (zlen (of_data f) - of_pos f) < fuel)%nat →
  ∃ rt', read_loop fuel rt fd chunk = Some (drop (Z.to_nat (of_pos f)) (of_data f), rt') ∧
         rt_fs rt' = rt_fs rt ∧
         rt_fds rt' = <[ fd := with_pos (Z.max (of_pos f) (zlen (of_data f))) f ]> (rt_fds rt).
Proof.
  revert rt f. induction fuel as [|fuel IH]; [lia|]. intros rt f Hf Hc Hp Hfuel. simpl.
  unfold opFSReadFD. rewrite Hf. unfold read_fd. simpl.
  rewrite (proj2 (Z.ltb_ge (of_pos f) 0)) by lia.
  destruct (Z.leb_spec (zlen (of_data f)) (of_pos f)) as [Hend|Hlt]; simpl.
  { exists (set_fds (<[fd:=f]> (rt_fds rt)) rt). split; [|split; [done|]].
    - rewrite drop_ge; [done|]. unfold zlen in Hend. lia.
    - simpl. f_equal. rewrite Z.max_l by done. by destruct f. }
  set (len := if chunk <? _ then _ else _).
  assert (Hlen : 0 < len ∧ len <= zlen (of_data f) - of_pos f).
  { unfold len. destruct (Z.ltb_spec chunk (zlen (of_data f) - of_pos f)); lia. }
  rewrite (proj2 (Z.leb_gt len 0)) by lia. simpl.
  assert (Hsl : zlen (slice (of_data f) (of_pos f) (of_pos f + len)) = len).
  { rewrite slice_length; lia. }
  rewrite Hsl, (proj2 (Z.eqb_neq len 0)) by lia.
  destruct (IH (set_fds (<[fd:=with_pos (of_pos f + len) f]> (rt_fds rt)) rt)
              (with_pos (of_pos f + len) f)) as (rt' & -> & Hfs & Hfds).
  - simpl. by rewrite lookup_insert_eq.
  - done.
  - simpl. lia.
  - simpl. lia.
  - exists rt'. split; [|split; [done|]].
    + simpl. f_equal. f_equal. unfold slice.
      rewrite <-(take_drop (Z.to_nat (of_pos f + len)) (of_data f)) at 3.
      rewrite drop_app_le; [done|]. rewrite length_take. unfold zlen in *. lia.
    + rewrite Hfds. simpl. rewrite insert_insert_eq. f_equal. destruct f; simpl in *.
      unfold with_pos. simpl. f_equal. lia.
Qed.

End Lemmas.

(** Positioned writes in range. *)
Lemma write_fd_positional f d at_ :
  of_append f = false → 0 <= at_ → at_ + zlen d <= maxFDFileBytes → zlen (of_data f) <= maxFDFileBytes →
  write_fd f d (Some at_) =
    (VInt (zlen d),
     MkOpen (of_path f)
       (copy_into (of_data f ++ replicate (Z.to_nat (at_ + zlen d - zlen (of_data f))) 0) at_ d)
       (of_pos f) (of_write f) false true).
Proof.
  intros Ha Hat Hcap Hlen. unfold write_fd. rewrite Ha. simpl.
  assert (Hd0 : 0 <= zlen d) by (unfold zlen; lia).
  assert (Hf0 : 0 <= zlen (of_data f)) by (unfold zlen; lia).
  rewrite (proj2 (Z.ltb_ge at_ 0)) by lia.
  unfold i64. rewrite (wrapS_small 64 (at_ + zlen d)) by (unfold maxFDFileBytes in *; lia).
  rewrite (proj2 (Z.ltb_ge maxFDFileBytes _)) by lia.
  rewrite wrapS_small by (unfold maxFDFileBytes in *; lia).
  set (grow := at_ + zlen d - zlen (of_data f)).
  rewrite (proj2 (Z.ltb_ge maxAlloc grow)) by (unfold maxAlloc, maxFDFileBytes in *; lia).
  assert (Hgrown : (if 0 <? grow then of_data f ++ replicate (Z.to_nat grow) 0 else of_data f) =
                   of_data f ++ replicate (Z.to_nat grow) 0).
  { destruct (Z.ltb_spec 0 grow); [done|]. rewrite Z2Nat.nonpos by lia. by rewrite app_nil_r. }
  rewrite Hgrown. rewrite (proj2 (Z.ltb_ge _ at_)); [done|].
  unfold zlen in *. rewrite length_app, length_replicate. lia.
Qed.

Lemma copy_into_lookup dst at_ src i :
  0 <= at_ → (Z.to_nat at_ + length src <= length dst)%nat →
  copy_into dst at_ src !! i =
    if bool_decide (Z.to_nat at_ ≤ i < Z.to_nat at_ + length src)%nat
    then src !! (i - Z.to_nat at_)%nat else dst !! i.
Proof.
  intros Hat Hle. unfold copy_into. rewrite (take_ge src) by lia.
  case_bool_decide as Hi.
  - rewrite lookup_app_r by (rewrite length_take; lia).
    rewrite length_take, Nat.min_l by lia. by rewrite lookup_app_l by lia.
  - destruct (decide (i < Z.to_nat at_)%nat).
    + rewrite lookup_app_l by (rewrite length_take; lia). by apply lookup_take_lt.
    + rewrite lookup_app_r by (rewrite length_take; lia).
      rewrite length_take, Nat.min_l by lia. rewrite lookup_app_r by lia.
      rewrite lookup_drop. f_equal. lia.
Qed.

(** ** Lemmas: removing trees of a MemFS *)

Section MemTree.
Import MemFS.
Context (now : Z).
#[local] Existing Instance memfs_fs.
#[local] Instance the_fs : WritableFS (gmap bytes node) := memfs_fs now.

(** A name or anything below it. *)
Definition at_or_below (d p : bytes) : bool := bool_decide (p = d) || under d p.

Lemma at_or_below_segs ds ps :
  ds ≠ [] → good_segs ds → good_segs ps →
  at_or_below (seg_name ds) (seg_name ps) = true ↔ ds `prefix_of` ps.
Proof.
  intros Hd Hgd Hgp. unfold at_or_below. rewrite orb_true_iff, bool_decide_eq_true, under_segs by done.
  split.
  - intros [->%seg_name_inj|(rs & _ & ->)]; [done..|by apply prefix_app_r].
  - intros [rs ->]. destruct (decide (rs = [])) as [->|]; [left; by rewrite app_nil_r|eauto].
Qed.

(** Keys strictly below a directory: what bounds the recursion. *)
Definition below (m : gmap bytes node) (ds : list bytes) : gmap bytes node :=
  filter (fun kv => under (seg_name ds) kv.1 = true) m.

Lemma child_of_dir m p n ds :
  wf m → good_segs ds → m !! p = Some n → p ≠ lit "." → Path.dir p = seg_name ds →
  p = seg_name (ds ++ [Path.base p]) ∧ good_segs (ds ++ [Path.base p]).
Proof.
  intros Hwf Hg Hp Hne Hd. destruct (wf_key_segs _ _ _ Hwf Hp) as (ps & -> & Hgp).
  destruct ps as [|x ps _] using rev_ind; [done|].
  rewrite dir_snoc in Hd by done. rewrite base_snoc by done.
  pose proof Hgp as [Hgp' _]%good_segs_app. apply seg_name_inj in Hd; [|done..]. by subst.
Qed.

Lemma join2_child ds w :
  ds ≠ [] → good_segs (ds ++ [w]) → Path.join2 (seg_name ds) w = seg_name (ds ++ [w]).
Proof.
  intros Hd Hg. pose proof Hg as [Hgd [[Hw%seg_ok_spec _] _]%Forall_cons]%good_segs_app.
  unfold Path.join2, Path.joins. rewrite seg_name_join by done.
  pose proof (good_segs_join_ne _ Hd Hgd). rewrite !filter_cons, !decide_True by (tauto || done).
  simpl. rewrite seg_name_join by by destruct ds.
  rewrite <-join_snoc by done. apply clean_good; [by destruct ds|done].
Qed.

Lemma remove_file m ds n :
  wf m → ds ≠ [] → good_segs ds → m !! seg_name ds = Some n →
  (∀ qs, good_segs qs → is_Some (m !! seg_name qs) → ds `prefix_of` qs → qs = ds) →
  Remove m (seg_name ds) = (Ok tt, delete (seg_name ds) m).
Proof.
  intros Hwf Hd Hg Hn Hleaf. unfold Remove. rewrite (wf_valid _ Hwf _ _ Hn). simpl.
  rewrite bool_decide_false.
  2:{ intros He. by apply (seg_name_inj _ []) in He; [|done|by apply Forall_nil]. }
  rewrite Hn. destruct (existsb _ _) eqn:He; [|by rewrite andb_false_r].
  exfalso. apply existsb_exists in He as ([p k] & Hin & Hdp).
  apply list_elem_of_In, elem_of_map_to_list in Hin. simpl in Hdp. apply bool_decide_eq_true in Hdp.
  destruct (decide (p = lit ".")) as [->|Hne].
  - rewrite dir_root in Hdp. change (lit ".") with (seg_name []) in Hdp.
    apply seg_name_inj in Hdp; [by subst|by apply Forall_nil|done].
  - destruct (child_of_dir m p k ds Hwf Hg Hin Hne Hdp) as [Hp Hgp].
    rewrite Hp in Hin. apply Hleaf in Hgp; [|by eexists|by apply prefix_app_r].
    apply (f_equal length) in Hgp. rewrite length_app in Hgp. simpl in Hgp. lia.
Qed.

(** What a removal that went well did. *)
Definition removed (m m' : gmap bytes node) (ds : list bytes) : Prop :=
  wf m' ∧ ∀ p, m' !! p = if at_or_below (seg_name ds) p then None else m !! p.

Lemma removed_file m ds n :
  wf m → ds ≠ [] → good_segs ds → m !! seg_name ds = Some n → IsDir (mode n) = false →
  removed m (delete (seg_name ds) m) ds ∧ Remove m (seg_name ds) = (Ok tt, delete (seg_name ds) m).
Proof.
  intros Hwf Hd Hg Hn Hf.
  assert (Hleaf : ∀ qs, good_segs qs → is_Some (m !! seg_name qs) → ds `prefix_of` qs → qs = ds).
  { intros qs Hgq [k Hk] [rs ->]. rewrite (wf_file_leaf m ds rs n k); [by rewrite app_nil_r|done..]. }
  pose proof (remove_file m ds n Hwf Hd Hg Hn Hleaf) as Hrm. split; [|done]. split.
  - pose proof (Remove_wf m (seg_name ds) Hwf) as H. by rewrite Hrm in H.
  - intros p. destruct (at_or_below (seg_name ds) p) eqn:Hb.
    + destruct (decide (p = seg_name ds)) as [->|Hne]; [apply lookup_delete_eq|].
      rewrite lookup_delete_ne by done. destruct (m !! p) eqn:Hp; [|done].
      destruct (wf_key_segs _ _ _ Hwf Hp) as (qs & -> & Hgq). exfalso. apply Hne.
      f_equal. apply Hleaf; [done|by eexists|by apply at_or_below_segs].
    + rewrite lookup_delete_ne; [done|]. intros <-. unfold at_or_below in Hb.
      by rewrite bool_decide_true in Hb.
Qed.

Lemma removed_subseteq m m' ds : removed m m' ds → m' ⊆ m.
Proof.
  intros [_ Hm]. apply map_subseteq_spec. intros p n. rewrite Hm. by case_match.
Qed.

Lemma below_mono m m' ds : m' ⊆ m → below m' ds ⊆ below m ds.
Proof. intros Hs. by apply map_filter_subseteq_mono. Qed.

Lemma below_child m ds w n :
  ds ≠ [] → good_segs (ds ++ [w]) → m !! seg_name (ds ++ [w]) = Some n →
  below m (ds ++ [w]) ⊂ below m ds.
Proof.
  intros Hd Hg Hn. pose proof Hg as [Hgd _]%good_segs_app. split.
  - apply map_subseteq_spec. intros p k. unfold below. rewrite !map_lookup_filter_Some. simpl.
    intros [? Hu]. split; [done|]. apply has_prefix_spec in Hu as [r ->]. apply has_prefix_spec.
    rewrite (seg_name_app ds [w]) by done. simpl. eexists. by rewrite <-!app_assoc.
  - intros Hs. assert (below m ds !! seg_name (ds ++ [w]) = Some n) as Hin.
    { unfold below. rewrite map_lookup_filter_Some. split; [done|]. simpl.
      apply under_segs; [done..|]. by exists [w]. }
    eapply lookup_weaken in Hin; [|exact Hs]. unfold below in Hin.
    apply map_lookup_filter_Some in Hin as [_ Hu]. simpl in Hu. apply under_segs in Hu as (rs & Hr & He);
      [|by destruct ds|done..].
    rewrite <-(app_nil_r (ds ++ [w])) in He at 1. by apply app_inv_head in He as <-.
Qed.

Lemma read_dir_entries m ds :
  wf m → is_dir_at m (seg_name ds) →
  read_dir m (seg_name ds) = Ok (entriesLocked m (seg_name ds)).
Proof.
  intros Hwf (n & Hn & Hd). unfold read_dir, Open.
  by rewrite (wf_valid _ Hwf _ _ Hn), Hn, Hd.
Qed.

(** The entries still to delete, against the map as it is now. *)
Definition entry_ok (m : gmap bytes node) (ds : list bytes) (e : fileInfo) : Prop :=
  good_segs (ds ++ [i_name e]) ∧
  ∃ n, m !! seg_name (ds ++ [i_name e]) = Some n ∧ i_mode e = mode n.

Lemma entries_ok m ds :
  wf m → good_segs ds → Forall (entry_ok m ds) (entriesLocked m (seg_name ds)).
Proof.
  intros Hwf Hg. apply Forall_forall. intros e He. apply entriesLocked_elem in He as (p & n & Hp & Hne & Hd & ->).
  destruct (child_of_dir m p n ds Hwf Hg Hp Hne Hd) as [Heq Hgp]. split; [done|].
  exists n. simpl. by rewrite <-Heq.
Qed.

(** Deleting the children one after the other, then the directory. *)
Lemma removeAll_entries_spec (self : gmap bytes node → bytes → option (result goerr unit * gmap bytes node))
    ds es m :
  ds ≠ [] → good_segs ds → wf m →
  (∀ m0 w n, m0 ⊆ m → wf m0 → good_segs (ds ++ [w]) → m0 !! seg_name (ds ++ [w]) = Some n →
     IsDir (mode n) = true →
     ∃ m1, self m0 (seg_name (ds ++ [w])) = Some (Ok tt, m1) ∧ removed m0 m1 (ds ++ [w])) →
  NoDup (map i_name es) → Forall (entry_ok m ds) es →
  ∃ mc, removeAll_entries self (seg_name ds) es m = Some (lift (Remove mc (seg_name ds))) ∧
        wf mc ∧
        ∀ p, mc !! p = if existsb (fun e => at_or_below (seg_name (ds ++ [i_name e])) p) es
                       then None else m !! p.
Proof.
  intros Hds Hg. revert m. induction es as [|e es IH]; intros m Hwf Hself Hnd Hok; simpl.
  { exists m. done. }
  apply NoDup_cons in Hnd as [Hni Hnd]. apply Forall_cons in Hok as [(Hge & n & Hn & Hm) Hok].
  rewrite join2_child by done.
  assert (Hstep : ∃ m1, (if IsDir (i_mode e) then self m (seg_name (ds ++ [i_name e]))
      else Some (lift (Remove m (seg_name (ds ++ [i_name e]))))) = Some (Ok tt, m1) ∧
      removed m m1 (ds ++ [i_name e])).
  { rewrite Hm. destruct (IsDir (mode n)) eqn:Hd; [by eapply Hself|].
    destruct (removed_file m (ds ++ [i_name e]) n Hwf) as [Hr ->]; [by destruct ds|done..|]. eauto. }
  destruct Hstep as (m1 & -> & Hr). pose proof (removed_subseteq _ _ _ Hr) as Hsub.
  destruct Hr as [Hwf1 Hm1]. destruct (IH m1 Hwf1) as (mc & Hrun & Hwfc & Hmc).
  - intros m0 w k Hs. apply Hself. by etrans.
  - done.
  - apply Forall_forall. intros e' He'. destruct (proj1 (Forall_forall _ _) Hok e' He') as (Hge' & n' & Hn' & Hme').
    split; [done|]. exists n'. split; [|done]. rewrite Hm1.
    destruct (at_or_below _ _) eqn:Hb; [|done]. exfalso.
    apply at_or_below_segs in Hb as [rs Hrs]; [|by destruct ds|done..].
    rewrite <-app_assoc in Hrs. apply app_inv_head in Hrs. injection Hrs as Hname _.
    apply Hni. rewrite <-Hname. by apply list_elem_of_fmap_2.
  - exists mc. split_and!; [done|done|]. intros p. rewrite Hmc, Hm1.
    destruct (at_or_below (seg_name (ds ++ [i_name e])) p); simpl; [by case_match|done].
Qed.

Lemma below_of_child ds w p :
  ds ≠ [] → good_segs (ds ++ [w]) →
  at_or_below (seg_name (ds ++ [w])) p = true → under (seg_name ds) p = true.
Proof.
  intros Hd Hg Hb. rewrite seg_name_app in Hb by done. apply has_prefix_spec.
  apply orb_true_iff in Hb as [->%bool_decide_eq_true|[r ->]%has_prefix_spec].
  - exists w. by rewrite <-app_assoc.
  - eexists. by rewrite <-!app_assoc.
Qed.

(** [m] less all the children of [ds], and what is below them. *)
Definition pruned (m mc : gmap bytes node) (ds : list bytes) : Prop :=
  ∀ p, mc !! p = if existsb (fun e => at_or_below (seg_name (ds ++ [i_name e])) p)
                            (entriesLocked m (seg_name ds))
                 then None else m !! p.

(** Only the directory itself is left of its subtree. *)
Lemma pruned_kids m mc ds p k :
  wf m → wf mc → ds ≠ [] → good_segs ds → pruned m mc ds → mc !! p = Some k →
  p = seg_name ds ∨ at_or_below (seg_name ds) p = false.
Proof.
  intros Hwf Hwfc Hds Hg Hmc Hp. destruct (at_or_below (seg_name ds) p) eqn:Hb; [|auto]. left.
  destruct (wf_key_segs _ _ _ Hwfc Hp) as (ps & -> & Hgp).
  apply at_or_below_segs in Hb; [|done..]. destruct Hb as [[|w rs] ->]; [by rewrite app_nil_r|].
  exfalso. rewrite Hmc in Hp. destruct (existsb _ _) eqn:Hex; [done|].
  apply not_true_iff_false in Hex. apply Hex, existsb_exists.
  rewrite (cons_middle w), app_assoc in Hgp, Hp. rewrite (cons_middle w), app_assoc.
  pose proof Hgp as [Hgw _]%good_segs_app.
  assert (Hw : is_Some (m !! seg_name (ds ++ [w]))).
  { destruct (decide (rs = [])) as [->|Hr]; [rewrite app_nil_r in Hp; by eexists|].
    destruct (wf_ancestor _ _ _ _ Hwf Hgp Hr Hp) as (d & ? & _). by eexists. }
  destruct Hw as [kw Hkw]. exists (infoOf (seg_name (ds ++ [w])) kw). split.
  - apply list_elem_of_In, entriesLocked_elem. exists (seg_name (ds ++ [w])), kw.
    split_and!; [done| |by apply dir_snoc|done].
    intros He. apply (seg_name_inj _ []) in He; [by destruct ds|done|by apply Forall_nil].
  - simpl. rewrite base_snoc by done.
    apply at_or_below_segs; [by destruct ds|done..|by apply prefix_app_r].
Qed.

Lemma pruned_outside m mc ds p :
  wf m → ds ≠ [] → good_segs ds → pruned m mc ds → under (seg_name ds) p = false → mc !! p = m !! p.
Proof.
  intros Hwf Hds Hg Hmc Hu. rewrite Hmc. destruct (existsb _ _) eqn:Hex; [|done]. exfalso.
  apply existsb_exists in Hex as (e & He & Hb). apply list_elem_of_In in He.
  destruct (proj1 (Forall_forall _ _) (entries_ok m ds Hwf Hg) e He) as [Hge _].
  apply below_of_child in Hb; [congruence|done..].
Qed.

(** Removing the emptied directory. *)
Lemma pruned_remove m mc ds n :
  wf m → wf mc → ds ≠ [] → good_segs ds → pruned m mc ds → m !! seg_name ds = Some n →
  Remove mc (seg_name ds) = (Ok tt, delete (seg_name ds) mc) ∧
  removed m (delete (seg_name ds) mc) ds.
Proof.
  intros Hwf Hwfc Hds Hg Hmc Hn.
  assert (Hns : under (seg_name ds) (seg_name ds) = false).
  { apply not_true_iff_false. rewrite under_segs by done. intros (rs & Hr & He).
    rewrite <-(app_nil_r ds) in He at 1. by apply app_inv_head in He as <-. }
  assert (Hself : mc !! seg_name ds = Some n) by by rewrite (pruned_outside m mc ds).
  assert (Hrm : Remove mc (seg_name ds) = (Ok tt, delete (seg_name ds) mc)).
  { eapply remove_file; try done. intros qs Hgq [k Hk] Hpre.
    destruct (pruned_kids m mc ds _ _ Hwf Hwfc Hds Hg Hmc Hk) as [He%seg_name_inj|Hf]; [done..|].
    apply at_or_below_segs in Hpre; [congruence|done..]. }
  split; [done|]. split.
  { pose proof (Remove_wf mc (seg_name ds) Hwfc) as Hw. by rewrite Hrm in Hw. }
  intros p. destruct (decide (p = seg_name ds)) as [->|Hne].
  { rewrite lookup_delete_eq. unfold at_or_below. by rewrite bool_decide_true. }
  rewrite lookup_delete_ne by done. destruct (at_or_below (seg_name ds) p) eqn:Hb.
  - destruct (mc !! p) as [k|] eqn:Hp; [|done].
    destruct (pruned_kids m mc ds _ _ Hwf Hwfc Hds Hg Hmc Hp); [done|congruence].
  - apply (pruned_outside m mc ds); try done. unfold at_or_below in Hb.
    by apply orb_false_iff in Hb as [_ ?].
Qed.

Lemma entries_names_nodup m dir : wf m → NoDup (map i_name (entriesLocked m dir)).
Proof.
  intros Hwf. pose proof (entriesLocked_sorted m dir Hwf) as Hs.
  induction Hs as [|e es Hs IHs He]; simpl; [apply NoDup_nil_2|]. apply NoDup_cons. split; [|done].
  intros Hin. apply list_elem_of_fmap in Hin as (e' & Heq & Hin).
  by apply (proj1 (Forall_forall _ _) He) in Hin as [_ ?].
Qed.

Lemma removeAll_spec fuel m ds :
  wf m → good_segs ds → ds ≠ [] → is_dir_at m (seg_name ds) → (size (below m ds) < fuel)%nat →
  ∃ m', removeAll fuel m (seg_name ds) = Some (Ok tt, m') ∧ removed m m' ds.
Proof.
  revert m ds. induction fuel as [|fuel IH]; [lia|]. intros m ds Hwf Hg Hds Hdir Hfuel.
  cbn [removeAll]. change (fs_readdir m (seg_name ds)) with (read_dir m (seg_name ds)).
  rewrite read_dir_entries by done.
  destruct (removeAll_entries_spec (removeAll fuel) ds (entriesLocked m (seg_name ds)) m Hds Hg Hwf)
    as (mc & -> & Hwfc & Hmc).
  - intros m0 w n Hs Hwf0 Hgw Hn Hd. apply IH; [done|done|by destruct ds|by exists n|].
    assert (size (below m0 (ds ++ [w])) < size (below m0 ds))%nat
      by by eapply map_subset_size, below_child.
    assert (size (below m0 ds) ≤ size (below m ds))%nat by by apply map_subseteq_size, below_mono.
    lia.
  - by apply entries_names_nodup.
  - by apply entries_ok.
  - destruct Hdir as (n & Hn & _).
    destruct (pruned_remove m mc ds n Hwf Hwfc Hds Hg Hmc Hn) as [Hrm Hr].
    exists (delete (seg_name ds) mc). split; [by rewrite Hrm|done].
Qed.

(** *** Recursive mkdir *)

Lemma mkdir_loop_app (f : gmap bytes node) a b :
  mkdir_loop f (a ++ b) =
    match mkdir_loop f a with (Ok _, f') => mkdir_loop f' b | (Err e, f') => (Err e, f') end.
Proof.
  revert f. induction a as [|d a IH]; intros f; [done|]. cbn [mkdir_loop app].
  destruct (match fs_stat f d with Ok i => IsDir (i_mode i) | Err _ => false end); [apply IH|].
  destruct (fs_mkdir f d 493) as [[]f1]; [apply IH|]. case_bool_decide; [apply IH|done].
Qed.

Lemma path_prefixes_snoc ds w : path_prefixes (ds ++ [w]) = path_prefixes ds ++ [join ch_slash (ds ++ [w])].
Proof.
  unfold path_prefixes. rewrite length_app, seq_app, map_app. simpl. f_equal.
  - apply map_ext_in. intros i Hi%list_elem_of_In%elem_of_seq. by rewrite take_app_le by lia.
  - by rewrite take_ge by (rewrite length_app; simpl; lia).
Qed.

(** No name strictly above [ds] is a file. *)
Definition no_file_strict (m : gmap bytes node) (ds : list bytes) : Prop :=
  ∀ es w rs n, ds = es ++ w :: rs → m !! seg_name es = Some n → IsDir (mode n) = true.

Lemma no_file_strict_snoc m ds w :
  no_file_strict m (ds ++ [w]) ↔
  no_file_strict m ds ∧ ∀ n, m !! seg_name ds = Some n → IsDir (mode n) = true.
Proof.
  unfold no_file_strict. split.
  - intros H. split.
    + intros es v rs n -> . eapply (H es v (rs ++ [w])). by rewrite <-app_assoc.
    + intros n. by eapply (H ds w []).
  - intros [H1 H2] es v rs n Heq. destruct rs as [|x rs _] using rev_ind.
    + apply app_inj_tail in Heq as [-> _]. apply H2.
    + rewrite app_comm_cons, app_assoc in Heq. apply app_inj_tail in Heq as [-> _]. by eapply H1.
Qed.

Lemma stat_is_dir m p :
  wf m → (match stat m p with Ok i => IsDir (i_mode i) | Err _ => false end = true ↔ is_dir_at m p).
Proof.
  intros Hwf. unfold stat, Open, is_dir_at. split.
  - destruct (ValidPath p); [simpl|done]. destruct (m !! p) as [n|]; [|done].
    destruct (IsDir (mode n)) eqn:Hd; simpl; rewrite Hd; [eauto|done].
  - intros (n & Hn & Hd). rewrite (wf_valid _ Hwf _ _ Hn), Hn. simpl. rewrite Hd. simpl. by rewrite Hd.
Qed.

(** One more component, its parent chain being settled. *)
Lemma mkdir_last m ds w :
  wf m → good_segs (ds ++ [w]) → ValidPath (seg_name (ds ++ [w])) = true → is_Some (m !! seg_name ds) →
  ∃ r m', mkdir_loop m [seg_name (ds ++ [w])] = (r, m') ∧ m ⊆ m' ∧ wf m' ∧
    (r = Ok tt ↔ is_dir_at m (seg_name ds)) ∧
    (r = Ok tt → ∃ n, m' !! seg_name (ds ++ [w]) = Some n ∧
                      (m !! seg_name (ds ++ [w]) = None → IsDir (mode n) = true)) ∧
    (∀ p, p ≠ seg_name (ds ++ [w]) → m' !! p = m !! p).
Proof.
  intros Hwf Hg Hv [k Hk]. cbn [mkdir_loop].
  change (fs_stat m (seg_name (ds ++ [w]))) with (stat m (seg_name (ds ++ [w]))).
  change (fs_mkdir m (seg_name (ds ++ [w])) 493) with (lift (Mkdir m (seg_name (ds ++ [w])) 493 now)).
  destruct (match stat m (seg_name (ds ++ [w])) with Ok i => IsDir (i_mode i) | Err _ => false end) eqn:Hst.
  { apply stat_is_dir in Hst as (n & Hn & Hd); [|done]. exists (Ok tt), m. split_and!; try done.
    - split; [|done]. intros _. pose proof (wf_parent _ Hwf _ _ Hn) as Hp. by rewrite dir_snoc in Hp.
    - intros _. exists n. split; [done|]. congruence. }
  assert (Hne : seg_name (ds ++ [w]) ≠ lit ".").
  { intros He. apply (seg_name_inj _ []) in He; [by destruct ds|done|by apply Forall_nil]. }
  pose proof (Mkdir_wf m (seg_name (ds ++ [w])) 493 now Hwf) as Hwf'. revert Hwf'.
  unfold Mkdir, checkParentLocked. rewrite Hv, (bool_decide_false _ Hne), dir_snoc, Hk by done. simpl.
  destruct (m !! seg_name (ds ++ [w])) as [n|] eqn:Hn; simpl.
  { intros _. exists (Ok tt), m. split_and!; try done.
    - split; [|done]. intros _. pose proof (wf_parent _ Hwf _ _ Hn) as Hp. by rewrite dir_snoc in Hp.
    - intros _. exists n. split; [done|]. congruence. }
  destruct (IsDir (mode k)) eqn:Hd; simpl; intros Hwf'.
  - eexists (Ok tt), _. split_and!; [done|by apply insert_subseteq|done| | |].
    + split; [|done]. intros _. by exists k.
    + intros _. eexists. rewrite lookup_insert_eq. split; [done|]. intros _. apply IsDir_ModeDir.
    + intros p Hp. by rewrite lookup_insert_ne.
  - eexists _, m. split_and!; try done. split; [done|]. intros (k' & ? & ?). congruence.
Qed.

Lemma mkdir_loop_spec m ds :
  wf m → good_segs ds → ValidPath (seg_name ds) = true →
  ∃ r m', mkdir_loop m (path_prefixes ds) = (r, m') ∧ m ⊆ m' ∧ wf m' ∧
    (r = Ok tt ↔ no_file_strict m ds) ∧
    (r = Ok tt → ∃ n, m' !! seg_name ds = Some n ∧ (m !! seg_name ds = None → IsDir (mode n) = true)) ∧
    (∀ qs, good_segs qs → ¬ qs `prefix_of` ds → m' !! seg_name qs = m !! seg_name qs).
Proof.
  intros Hwf. induction ds as [|w ds IH] using rev_ind; intros Hg Hv.
  { exists (Ok tt), m. split_and!; try done.
    - split; [|done]. intros _ es v rs n He. by destruct es.
    - intros _. destruct (wf_root _ Hwf) as (n & Hn & Hd). by exists n. }
  pose proof Hg as [Hgd _]%good_segs_app.
  assert (Hvd : ValidPath (seg_name ds) = true).
  { destruct (ValidPath_segs _ Hv) as (ps & He & Hgp & Hu).
    apply seg_name_inj in He as <-; [|done..]. apply Forall_app in Hu as [Hu _].
    by apply seg_name_valid. }
  assert (Hnp : ∀ qs, ¬ qs `prefix_of` ds ++ [w] → ¬ qs `prefix_of` ds).
  { intros qs Hq Hp. by apply Hq, prefix_app_r. }
  destruct (IH Hgd Hvd) as (r & m1 & Hr & Hsub & Hwf1 & Hiff & Hex & Hout).
  rewrite path_prefixes_snoc, mkdir_loop_app, Hr.
  destruct r as [[]|e].
  2:{ exists (Err e), m1. split_and!; try done; [|by auto].
      rewrite no_file_strict_snoc. split; [done|]. intros [H _]. by apply Hiff in H. }
  rewrite <-seg_name_join by by destruct ds.
  destruct (Hex eq_refl) as (n & Hn & Hnew).
  destruct (mkdir_last m1 ds w Hwf1 Hg Hv (mk_is_Some _ _ Hn))
    as (r2 & m2 & Hr2 & Hsub2 & Hwf2 & Hiff2 & Hex2 & Hout2).
  assert (Hsame : m1 !! seg_name (ds ++ [w]) = m !! seg_name (ds ++ [w])).
  { apply Hout; [done|]. intros Hp%prefix_length. rewrite length_app in Hp. simpl in Hp. lia. }
  rewrite Hr2. exists r2, m2. split_and!; try done.
  - by etrans.
  - rewrite no_file_strict_snoc, Hiff2. split.
    + intros (n' & Hn' & Hd). split; [by apply Hiff|]. intros k Hk.
      eapply lookup_weaken in Hk; [|exact Hsub]. congruence.
    + intros [_ H]. exists n. split; [done|].
      destruct (m !! seg_name ds) as [k|] eqn:Hk; [|by apply Hnew].
      eapply lookup_weaken in Hk as Hk1; [|exact Hsub].
      assert (k = n) as <- by congruence. by apply H.
  - intros He. rewrite <-Hsame. by apply Hex2.
  - intros qs Hgq Hq. rewrite Hout2; [by auto|]. intros He%seg_name_inj; [|done..]. by subst.
Qed.


End MemTree.

(** ** Descriptors *)

(** What is written through a descriptor is what the file holds: on any
    file system that keeps its contract, opening a path with "w", writing any
    chunks, and closing without an error leaves a file that reads back as the
    concatenation of the chunks; no other file changes, and nothing reaches
    the file system before the close. *)
Theorem fd_write_close_read {F} `{WritableFSLaws F} (rt : Runtime F) (path : bytes)
    (chunks : list bytes) (rt3 : Runtime F)
    (Hclose : opFSCloseFD (write_all (opFSOpen rt path (lit "w")).2 (rt_nextFD rt + 1) chunks)
                          (rt_nextFD rt + 1) = (VOk, rt3)) :
  opFSReadFile rt3 path = VBytes (concat chunks) ∧
  (∀ q, guestPath q ≠ guestPath path → opFSReadFile rt3 q = opFSReadFile rt q) ∧
  rt_fs (write_all (opFSOpen rt path (lit "w")).2 (rt_nextFD rt + 1) chunks) = rt_fs rt ∧
  rt_fds rt3 !! (rt_nextFD rt + 1) = None.
Proof.
  set (fd := rt_nextFD rt + 1) in *. set (rt1 := (opFSOpen rt path (lit "w")).2) in *.
  destruct (write_all_spec rt1 fd (guestPath path) true chunks [] true) as [Hfd Hfs].
  { apply lookup_insert_eq. }
  { auto. }
  set (rt2 := write_all rt1 fd chunks) in *. simpl in Hfd.
  assert (Hfs2 : rt_fs rt2 = rt_fs rt) by (rewrite Hfs; done).
  unfold opFSCloseFD in Hclose. rewrite Hfd in Hclose. simpl in Hclose.
  unfold with_writable, opFSReadFile, readFile in *. simpl in Hclose. rewrite Hfs2 in Hclose.
  destruct (rt_fs rt) as [| |f] eqn:Hm; [done|done|]. simpl in Hclose.
  destruct (fs_write f (guestPath path) O_REPLACE 420 (concat chunks)) as [[[]|e] f'] eqn:Hw;
    unfold answer in Hclose; simpl in Hclose; [|by unfold fsErrValue in Hclose].
  injection Hclose as <-. simpl. rewrite Hfs2. simpl.
  split_and!.
  - by rewrite (write_read_same _ _ _ _ _ Hw).
  - intros q Hq. by rewrite (write_read_other _ _ _ _ _ _ _ _ Hw Hq).
  - done.
  - apply lookup_delete_eq.
Qed.

(** A runtime on a fresh MemFS, for the examples. *)
#[local] Instance demo_fs : WritableFS (gmap bytes MemFS.node) := MemFS.memfs_fs 5.
#[local] Instance demo_laws : WritableFSLaws (gmap bytes MemFS.node) := MemFS.memfs_laws 5.

Definition demo_rt : Runtime (gmap bytes MemFS.node) :=
  NewRuntime (RWFS (MemFS.WriteFile (MemFS.NewMemFS 0) (lit "f") (lit "hello") 420 1).2).

Lemma fd_write_close_read_witness :
  let rt2 := write_all (opFSOpen demo_rt (lit "/out") (lit "w")).2 4 [lit "ab"; lit "cd"] in
  (opFSCloseFD rt2 4).1 = VOk ∧ opFSReadFile (opFSCloseFD rt2 4).2 (lit "out") = VBytes (lit "abcd").
Proof.
  intros rt2. split; [vm_compute; reflexivity|].
  apply (fd_write_close_read demo_rt (lit "/out") [lit "ab"; lit "cd"] (opFSCloseFD rt2 4).2).
  rewrite (surjective_pairing (opFSCloseFD _ _)). f_equal.
Defined.

(** A chunked read loop over a descriptor ends and delivers everything
    from the current position to the end of the buffer, once, whatever the
    chunk size; it changes nothing but the position. *)
Theorem fd_read_loop_total {F} (rt : Runtime F) (fd chunk : Z) (f : openFile) (fuel : nat)
    (Hfd : rt_fds rt !! fd = Some f) (Hchunk : 0 < chunk) (Hpos : 0 <= of_pos f)
    (Hfuel : (length (of_data f) < fuel)%nat) :
  ∃ rt', read_loop fuel rt fd chunk = Some (drop (Z.to_nat (of_pos f)) (of_data f), rt') ∧
         rt_fs rt' = rt_fs rt ∧
         rt_fds rt' = <[ fd := with_pos (Z.max (of_pos f) (zlen (of_data f))) f ]> (rt_fds rt).
Proof. apply read_loop_spec; try done. unfold zlen. lia. Qed.

Lemma fd_read_loop_total_witness :
  let rt := (opFSOpen demo_rt (lit "f") (lit "r")).2 in
  ∃ rt', read_loop 6 rt 4 2 = Some (lit "hello", rt') ∧ rt_fs rt' = rt_fs rt.
Proof.
  intros rt.
  destruct (fd_read_loop_total rt 4 2 (MkOpen (lit "f") (lit "hello") 0 false false false) 6)
    as (rt' & H & Hfs & _).
  - vm_compute. reflexivity.
  - lia.
  - simpl. lia.
  - vm_compute. lia.
  - eauto.
Defined.

(** Positioned I/O: within the size cap, a write at a numeric position
    puts exactly its bytes there, fills a gap beyond the old end with zeros,
    keeps every other byte and the current position, and a positioned read of
    the same range gives the bytes back without moving the position either. *)
Theorem fd_positional_io (f : openFile) (d : bytes) (at_ : Z)
    (Happend : of_append f = false) (Hat : 0 <= at_) (Hd : d ≠ [])
    (Hcap : at_ + zlen d <= maxFDFileBytes) (Hlen : zlen (of_data f) <= maxFDFileBytes) :
  let f' := (write_fd f d (Some at_)).2 in
  (write_fd f d (Some at_)).1 = VInt (zlen d) ∧ of_pos f' = of_pos f ∧ of_dirty f' = true ∧
  (∀ i, of_data f' !! i =
     if bool_decide (Z.to_nat at_ ≤ i < Z.to_nat at_ + length d)%nat then d !! (i - Z.to_nat at_)%nat
     else if bool_decide (i < length (of_data f))%nat then of_data f !! i
     else if bool_decide (i < Z.to_nat at_)%nat then Some 0 else None) ∧
  read_fd f' (Some (zlen d)) (Some at_) = (VRead d (zlen d), f').
Proof.
  rewrite write_fd_positional by done. simpl.
  set (grown := of_data f ++ _).
  assert (Hd0 : (0 < length d)%nat) by (destruct d; [done|simpl; lia]).
  assert (Hgl : length grown = Nat.max (length (of_data f)) (Z.to_nat at_ + length d)).
  { subst grown. rewrite length_app, length_replicate. unfold zlen. lia. }
  assert (Hcl : length (copy_into grown at_ d) = length grown).
  { unfold copy_into. rewrite !length_app, !length_take, length_drop. lia. }
  split_and!; [done..| |].
  - intros i. rewrite copy_into_lookup by lia. case_bool_decide as H1; [done|].
    subst grown. case_bool_decide as H2; [by rewrite lookup_app_l|].
    rewrite lookup_app_r by lia. case_bool_decide as H3.
    + apply lookup_replicate. unfold zlen. split; [done|lia].
    + apply lookup_replicate_None. unfold zlen. lia.
  - unfold read_fd. change (default ?p (Some at_)) with at_. cbn [of_data].
    rewrite (proj2 (Z.ltb_ge at_ 0)) by done.
    assert (Hz : zlen (copy_into grown at_ d) = Z.of_nat (Nat.max (length (of_data f)) (Z.to_nat at_ + length d)))
      by (unfold zlen; lia).
    rewrite Hz. rewrite (proj2 (Z.leb_gt _ at_)) by lia.
    set (len := if _ <? _ then _ else _).
    assert (Hlen' : len = zlen d).
    { unfold len, zlen. destruct (Z.ltb_spec (Z.of_nat (length d))
        (Z.of_nat (Nat.max (length (of_data f)) (Z.to_nat at_ + length d)) - at_)); lia. }
    rewrite Hlen', (proj2 (Z.leb_gt (zlen d) 0)) by (unfold zlen; lia). simpl.
    assert (Hsl : slice (copy_into grown at_ d) at_ (at_ + zlen d) = d); [|by rewrite Hsl].
    unfold slice, copy_into, zlen. rewrite (take_ge d) by lia.
    rewrite app_assoc, take_app_le by (rewrite length_app, length_take; lia).
    rewrite take_ge by (rewrite length_app, length_take; lia).
    rewrite drop_app_ge by (rewrite length_take; lia). rewrite length_take, Nat.min_l by lia.
    by rewrite Nat.sub_diag.
Qed.

Lemma fd_positional_io_witness :
  let f := MkOpen (lit "f") (lit "hello") 2 true false false in
  let f' := (write_fd f (lit "XY") (Some 7)).2 in
  of_data f' = lit "hello" ++ [0; 0] ++ lit "XY" ∧
  read_fd f' (Some 2) (Some 7) = (VRead (lit "XY") 2, f').
Proof.
  intros f f'. split; [vm_compute; reflexivity|].
  destruct (fd_positional_io f (lit "XY") 7) as (_ & _ & _ & _ & H).
  - reflexivity.
  - lia.
  - discriminate.
  - vm_compute. discriminate.
  - vm_compute. discriminate.
  - exact H.
Defined.

(** The host-memory cap: a write at a numeric position on a descriptor
    that is not in append mode never leaves a buffer longer than the cap (or
    than it was), for every int64 position - one whose end overflows panics,
    changing nothing. But an appending write is not capped: it grows a buffer
    that is already at the cap. *)
Theorem fd_write_cap (f : openFile) (d : bytes) (at_ : Z)
    (Hint64 : - 2 ^ 63 <= at_ < 2 ^ 63) (Hd : zlen d <= maxFDFileBytes)
    (Hlen : zlen (of_data f) <= maxFDFileBytes) :
  (of_append f = false → zlen (of_data (write_fd f d (Some at_)).2) <= maxFDFileBytes) ∧
  (of_append f = false → (write_fd f d (Some at_)).1 = PanicV → (write_fd f d (Some at_)).2 = f) ∧
  (of_append f = true → zlen (of_data (write_fd f d (Some at_)).2) = zlen (of_data f) + zlen d).
Proof.
  unfold write_fd. rewrite (bool_decide_true (is_Some (Some at_))) by eauto.
  split_and!; intros Ha; rewrite Ha; cbn [orb andb negb fst snd];
    change (default ?p (Some at_)) with at_.
  - destruct (Z.ltb_spec maxFDFileBytes (i64 ((if at_ <? 0 then 0 else at_) + zlen d))); [done|].
    set (w := if at_ <? 0 then 0 else at_) in *.
    assert (Hw : 0 <= w < 2 ^ 63) by (unfold w; destruct (Z.ltb_spec at_ 0); lia).
    assert (Hd0 : 0 <= zlen d ∧ 0 <= zlen (of_data f)) by (unfold zlen; lia).
    set (grow := i64 _). destruct (Z.ltb_spec maxAlloc grow) as [|Hg]; [done|].
    set (grown := if 0 <? grow then _ else _).
    destruct (Z.ltb_spec (zlen grown) w) as [|Hz]; [done|]. simpl.
    assert (Hcl : zlen (copy_into grown w d) = zlen grown).
    { unfold zlen, copy_into in *. rewrite !length_app, !length_take, length_drop. lia. }
    assert (Hgr : zlen grown = zlen (of_data f) + Z.max 0 grow).
    { unfold grown. destruct (Z.ltb_spec 0 grow); unfold zlen;
        rewrite ?length_app, ?length_replicate; lia. }
    rewrite Hcl, Hgr. unfold maxAlloc, maxFDFileBytes, i64 in *.
    destruct (Z.lt_ge_cases (w + zlen d) (2 ^ 63)).
    + unfold grow in *. rewrite !(wrapS_small 64 (w + zlen d)) in * by lia.
      rewrite wrapS_small in * by lia. lia.
    + unfold grow in *. rewrite (wrapS_over 64 (w + zlen d)) in * by lia.
      destruct (Z.lt_ge_cases (w + zlen d - 2 ^ 64 - zlen (of_data f)) (- 2 ^ 63)).
      * rewrite wrapS_under in * by lia. lia.
      * rewrite wrapS_small in * by lia. lia.
  - repeat case_match; done.
  - unfold zlen. cbn [of_data]. rewrite length_app. lia.
Qed.

Lemma fd_write_cap_witness :
  let f := MkOpen (lit "f") (lit "hello") 0 true false false in
  let g := MkOpen (lit "f") (lit "hello") 0 true true false in
  zlen (of_data (write_fd f (lit "xy") (Some 9223372036854775807)).2) <= maxFDFileBytes ∧
  (write_fd f (lit "xy") (Some 9223372036854775807)).1 = PanicV ∧
  zlen (of_data (write_fd g (lit "xy") (Some 0)).2) = 7.
Proof.
  intros f g. split_and!.
  - destruct (fd_write_cap f (lit "xy") 9223372036854775807) as (H & _);
      [lia|vm_compute; discriminate|vm_compute; discriminate|]. exact (H eq_refl).
  - vm_compute. reflexivity.
  - destruct (fd_write_cap g (lit "xy") 0) as (_ & _ & H);
      [lia|vm_compute; discriminate|vm_compute; discriminate|]. exact (H eq_refl).
Defined.

(** A descriptor opened read-only still accepts writes: writing through
    an "r" descriptor succeeds, and closing it replaces the file with the
    changed contents (fs_ftruncate, in contrast, answers EBADF). *)
Theorem readonly_fd_writes_through {F} `{WritableFSLaws F} (rt : Runtime F) (f0 : F)
    (path b d : bytes) (rt3 : Runtime F)
    (Hmount : rt_fs rt = RWFS f0) (Hread : fs_read f0 (guestPath path) = Ok b)
    (Hd : d ≠ []) (Hlen : zlen d <= zlen b) (Hcap : zlen b <= maxFDFileBytes)
    (Hclose : opFSCloseFD (opFSWriteFD (opFSOpen rt path (lit "r")).2 (rt_nextFD rt + 1) d (Some 0)).2
                          (rt_nextFD rt + 1) = (VOk, rt3)) :
  opFSFtruncate (opFSOpen rt path (lit "r")).2 (rt_nextFD rt + 1) None =
    (fsErrValue (errnoError "EBADF"), (opFSOpen rt path (lit "r")).2) ∧
  (opFSWriteFD (opFSOpen rt path (lit "r")).2 (rt_nextFD rt + 1) d (Some 0)).1 = VInt (zlen d) ∧
  opFSReadFile rt3 path = VBytes (d ++ drop (length d) b).
Proof.
  set (fd := rt_nextFD rt + 1) in *.
  assert (Hopen : (opFSOpen rt path (lit "r")).2 =
    MkRuntime (<[fd := MkOpen (guestPath path) b 0 false false false]> (rt_fds rt)) fd (RWFS f0)).
  { unfold opFSOpen, readFile. rewrite Hmount. simpl. rewrite Hread. simpl.
    unfold set_fds, next_fd. simpl. by rewrite Hmount. }
  rewrite Hopen in *. clear Hopen. set (rt1 := MkRuntime _ _ _) in *.
  assert (Hfd : rt_fds rt1 !! fd = Some (MkOpen (guestPath path) b 0 false false false)) by apply lookup_insert_eq.
  assert (Hw : write_fd (MkOpen (guestPath path) b 0 false false false) d (Some 0) =
    (VInt (zlen d), MkOpen (guestPath path) (d ++ drop (length d) b) 0 false false true)).
  { rewrite write_fd_positional by (simpl; lia || done). simpl. do 2 f_equal.
    replace (Z.to_nat (0 + zlen d - zlen b)) with 0%nat by lia. rewrite app_nil_r.
    unfold copy_into. simpl. rewrite take_ge; [done|]. unfold zlen in Hlen. lia. }
  unfold opFSFtruncate, opFSWriteFD in *. rewrite Hfd in *. rewrite Hw in *. simpl in *.
  split_and!; [done..|].
  unfold opFSCloseFD, opFSReadFile, readFile in *. cbn [rt_fds set_fds] in Hclose.
  rewrite lookup_insert_eq in Hclose. simpl in Hclose. unfold with_writable, answer in Hclose. simpl in Hclose.
  destruct (fs_write f0 (guestPath path) O_REPLACE 420 (d ++ drop (length d) b)) as [[[]|e] f'] eqn:Hfw;
    simpl in Hclose; [|by unfold fsErrValue in Hclose].
  injection Hclose as <-. simpl. by rewrite (write_read_same _ _ _ _ _ Hfw).
Qed.

Lemma readonly_fd_writes_through_witness :
  let rt2 := (opFSWriteFD (opFSOpen demo_rt (lit "f") (lit "r")).2 4 (lit "J") (Some 0)).2 in
  (opFSCloseFD rt2 4).1 = VOk ∧ opFSReadFile (opFSCloseFD rt2 4).2 (lit "f") = VBytes (lit "Jello").
Proof.
  intros rt2. split; [vm_compute; reflexivity|].
  apply (readonly_fd_writes_through demo_rt (MemFS.WriteFile (MemFS.NewMemFS 0) (lit "f") (lit "hello") 420 1).2
           (lit "f") (lit "hello") (lit "J")).
  - reflexivity.
  - vm_compute. reflexivity.
  - done.
  - vm_compute. congruence.
  - vm_compute. congruence.
  - rewrite (surjective_pairing (opFSCloseFD _ _)). f_equal.
Defined.

(** ** Trees *)

(** C5: rm -r is exact below the root: on a MemFS, removing an existing path
    other than the root of the file system recursively always comes to an end
    and succeeds; what is gone afterwards is the path and everything below it,
    and nothing else; the tree invariant holds again. (The root itself cannot be
    removed: rm_root.) *)
Theorem rm_recursive_exact (now : Z) (rt : Runtime (gmap bytes MemFS.node)) (m : gmap bytes MemFS.node)
    (path : bytes) (force : bool) (fuel : nat)
    (Hmount : rt_fs rt = RWFS m) (Hwf : MemFS.wf m)
    (Hroot : guestPath path ≠ lit ".") (Hex : is_Some (m !! guestPath path))
    (Hfuel : (size m < fuel)%nat) :
  ∃ m', opFSRm (H := MemFS.memfs_fs now) fuel rt path true force = Some (VOk, set_fs m' rt) ∧
        MemFS.wf m' ∧
        ∀ p, m' !! p = if at_or_below (guestPath path) p then None else m !! p.
Proof.
  destruct Hex as [n Hn]. unfold opFSRm. rewrite Hmount. simpl.
  rewrite guestPath_segs in *. set (ds := guest_segs path) in *.
  pose proof (guest_segs_good path) as Hg. fold ds in Hg.
  assert (Hds : ds ≠ []) by (intros He; by rewrite He in Hroot).
  unfold MemFS.stat, MemFS.Open. rewrite (MemFS.wf_valid _ Hwf _ _ Hn), Hn. simpl.
  destruct (IsDir (MemFS.mode n)) eqn:Hd; simpl; rewrite Hd; simpl.
  - destruct (removeAll_spec now fuel m ds Hwf Hg Hds) as (m' & Hr & Hwf' & Hm').
    + by exists n.
    + eapply Nat.le_lt_trans; [|exact Hfuel]. apply map_subseteq_size, map_filter_subseteq.
    + change (@removeAll _ (MemFS.memfs_fs now)) with (@removeAll _ (the_fs now)).
      rewrite Hr. exists m'. done.
  - destruct (removed_file m ds n Hwf Hds Hg Hn Hd) as [[Hwf' Hm'] Hr]. rewrite Hr. simpl. eauto.
Qed.

(** rm -r of the root removes what is in it and then answers EINVAL. *)
Example rm_root :
  let m := foldl MemFS.exec (MemFS.NewMemFS 0) [MemFS.CMkdir (lit "a") 493 1; MemFS.CWriteFile (lit "a/f") (lit "x") 420 2] in
  match opFSRm (H := MemFS.memfs_fs 0) 9 (NewRuntime (RWFS m)) (lit "/") true false with
  | Some (VErr e _, rt) => e
  | _ => []
  end = lit "EINVAL".
Proof. vm_compute. reflexivity. Qed.

Lemma rm_recursive_exact_witness :
  let m := foldl MemFS.exec (MemFS.NewMemFS 0)
             [MemFS.CMkdirAll (lit "a/b") 493 (fun _ => 1);
              MemFS.CWriteFile (lit "a/b/f") (lit "x") 420 2; MemFS.CWriteFile (lit "ab") (lit "y") 420 2] in
  ∃ m', opFSRm (H := MemFS.memfs_fs 0) 9 (NewRuntime (RWFS m)) (lit "/a") true false
          = Some (VOk, set_fs m' (NewRuntime (RWFS m))) ∧
        m' !! lit "a/b/f" = None ∧ m' !! lit "ab" = m !! lit "ab".
Proof.
  intros m.
  destruct (rm_recursive_exact 0 (NewRuntime (RWFS m)) m (lit "/a") false 9) as (m' & Hr & _ & Hm').
  - reflexivity.
  - do 3 (apply MemFS.exec_wf; [|done]). apply MemFS.NewMemFS_wf.
  - vm_compute. congruence.
  - vm_compute. by eexists.
  - vm_compute. lia.
  - exists m'. split; [exact Hr|]. split; rewrite Hm'; vm_compute; reflexivity.
Defined.

(** Recursive mkdir on a MemFS succeeds exactly when no name strictly
    above the path is a file, and then something exists at the path - a
    directory, if nothing was there before. In particular it also answers ok,
    changing nothing, when the path itself is an existing regular file, where
    Node answers EEXIST. *)
Theorem mkdir_recursive_spec (now : Z) (rt : Runtime (gmap bytes MemFS.node))
    (m : gmap bytes MemFS.node) (path : bytes)
    (Hmount : rt_fs rt = RWFS m) (Hwf : MemFS.wf m) (Hutf : Utf8.valid path = true)
    (Hroot : guest_segs path ≠ []) :
  let op := opFSMkdir (H := MemFS.memfs_fs now) rt path true in
  (op.1 = VOk ↔ no_file_strict m (guest_segs path)) ∧
  (op.1 = VOk → ∃ m' n, op.2 = set_fs m' rt ∧ MemFS.wf m' ∧ m ⊆ m' ∧
     m' !! guestPath path = Some n ∧ (m !! guestPath path = None → IsDir (MemFS.mode n) = true)).
Proof.
  intros op. pose proof (guest_segs_good path) as Hg.
  assert (Hv : ValidPath (seg_name (guest_segs path)) = true).
  { apply seg_name_valid; [done|]. apply Forall_rev, pathClean_fold_sub; [by apply Forall_nil|].
    by apply utf8_valid_split. }
  destruct (mkdir_loop_spec now m (guest_segs path) Hwf Hg Hv) as (r & m' & Hr & Hsub & Hwf' & Hiff & Hex & _).
  assert (Hop : op = (match r with Ok _ => VOk | Err e => fsErrValue e end, set_fs m' rt)).
  { unfold op, opFSMkdir, with_writable. rewrite Hmount. simpl.
    rewrite guestPath_segs, seg_name_join, good_segs_split by done.
    change (@mkdir_loop _ (MemFS.memfs_fs now)) with (@mkdir_loop _ (the_fs now)).
    by rewrite Hr. }
  rewrite Hop. simpl. rewrite guestPath_segs. split.
  - rewrite <-Hiff. destruct r as [[]|e]; [done|]. by unfold fsErrValue.
  - intros Hok. assert (r = Ok tt) as -> by (destruct r as [[]|e]; [done|by unfold fsErrValue in Hok]).
    destruct (Hex eq_refl) as (n & ? & ?). by exists m', n.
Qed.

Lemma mkdir_recursive_spec_witness :
  (opFSMkdir demo_rt (lit "f") true).1 = VOk ∧
  (opFSMkdir demo_rt (lit "f/x") true).1 = VErr (lit "EINVAL") (lit "mkdir f/x: invalid argument") ∧
  no_file_strict (MemFS.WriteFile (MemFS.NewMemFS 0) (lit "f") (lit "hello") 420 1).2 [lit "f"].
Proof.
  assert (Hok : (opFSMkdir demo_rt (lit "f") true).1 = VOk) by (vm_compute; reflexivity).
  split; [exact Hok|]. split; [vm_compute; reflexivity|].
  apply (mkdir_recursive_spec 5 demo_rt (MemFS.WriteFile (MemFS.NewMemFS 0) (lit "f") (lit "hello") 420 1).2 (lit "f")).
  - reflexivity.
  - apply MemFS.WriteFile_wf, MemFS.NewMemFS_wf.
  - vm_compute. reflexivity.
  - vm_compute. discriminate.
  - exact Hok.
Defined.
