(* ===== verification/Json.v ===== *)
(** encoding/json as the sources use it: a document as an ordered tree, the
    decoder of json.Unmarshal (syntax, string escapes, nesting limit), and the
    decoding of an object into the fields of a struct. compat/nodejs/resolve.go
    reads package.json with it; a json.RawMessage is the tree of its text. *)

From S2P Require Import Prelude GoPath.

(** Object members in source order, duplicates kept. *)
Set Warnings "-register-all,-abstract-large-number".
Inductive json :=
| JNull
| JBool (b : bool)
| JNum (text : bytes)
| JStr (s : bytes)
| JArr (items : list json)
| JObj (members : list (bytes * json)).

(** ** Text *)

Module Json.

Definition is_space (c : Z) : bool := bool_decide (c ∈ [32; 9; 10; 13]).

Fixpoint skip (s : bytes) : bytes :=
  match s with c :: s' => if is_space c then skip s' else s | [] => [] end.

(** UTF-8 encoding of a code point. *)
Definition put_rune (r : Z) : bytes :=
  if r <? 128 then [r]
  else if r <? 2048 then [192 + r / 64; 128 + r mod 64]
  else if r <? 65536 then [224 + r / 4096; 128 + r / 64 mod 64; 128 + r mod 64]
  else [240 + r / 262144; 128 + r / 4096 mod 64; 128 + r / 64 mod 64; 128 + r mod 64].

Definition RuneError : Z := 65533.

(** The length of the valid UTF-8 sequence at the head, if there is one. *)
Fixpoint rune_len (st : Utf8.st) (s : bytes) : option nat :=
  match s with
  | [] => None
  | c :: s' => match Utf8.step st c with
               | None => None
               | Some Utf8.Start => Some 1%nat
               | Some st' => S <$> rune_len st' s'
               end
  end.

(** getu4, after the backslash and the u. *)
Definition hex4 (s : bytes) : option (Z * bytes) :=
  match s with
  | a :: b :: c :: d :: s' =>
      match unhexDigit a, unhexDigit b, unhexDigit c, unhexDigit d with
      | Some a, Some b, Some c, Some d => Some (((a * 16 + b) * 16 + c) * 16 + d, s')
      | _, _, _, _ => None
      end
  | _ => None
  end.

(** What follows an escape "\uXXXX" of value [r]: a pair of surrogates is one
    code point, a lone surrogate the replacement character. *)
Definition unicode_escape (r : Z) (s : bytes) : bytes * bytes :=
  if in_range 55296 57343 r then
    match s with
    | 92 :: 117 :: s' =>
        match hex4 s' with
        | Some (r2, s'') =>
            if (r <? 56320) && in_range 56320 57343 r2 then
              (put_rune ((r - 55296) * 1024 + (r2 - 56320) + 65536), s'')
            else (put_rune RuneError, s)
        | None => (put_rune RuneError, s)
        end
    | _ => (put_rune RuneError, s)
    end
  else (put_rune r, s).

Definition simple_escape (c : Z) : option Z :=
  if bool_decide (c ∈ [34; 92; 47]) then Some c
  else if c =? 98 then Some 8 else if c =? 102 then Some 12 else if c =? 110 then Some 10
  else if c =? 114 then Some 13 else if c =? 116 then Some 9 else None.

(** A string after its opening quote: the decoded bytes and the rest. *)
Fixpoint parse_string (fuel : nat) (s : bytes) : option (bytes * bytes) :=
  match fuel with
  | O => None
  | S fuel' =>
      match s with
      | [] => None
      | c :: s' =>
          if c =? 34 then Some ([], s')
          else if c =? 92 then
            match s' with
            | 117 :: s2 =>
                '(r, s3) ← hex4 s2;
                let '(out, s4) := unicode_escape r s3 in
                '(rest, s5) ← parse_string fuel' s4; Some (out ++ rest, s5)
            | e :: s2 =>
                d ← simple_escape e;
                '(rest, s3) ← parse_string fuel' s2; Some (d :: rest, s3)
            | [] => None
            end
          else if c <? 32 then None
          else match rune_len Utf8.Start s with
               | Some n => '(rest, s2) ← parse_string fuel' (drop n s); Some (take n s ++ rest, s2)
               | None => '(rest, s2) ← parse_string fuel' s'; Some (put_rune RuneError ++ rest, s2)
               end
      end
  end.

Fixpoint digits (s : bytes) : bytes * bytes :=
  match s with
  | c :: s' => if is_digit c then let '(d, r) := digits s' in (c :: d, r) else ([], s)
  | [] => ([], [])
  end.

Definition opt_byte (cs : bytes) (s : bytes) : bytes * bytes :=
  match s with c :: s' => if bool_decide (c ∈ cs) then ([c], s') else ([], s) | [] => ([], []) end.

Definition parse_number (s : bytes) : option (bytes * bytes) :=
  let '(sign, s) := opt_byte (lit "-") s in
  let '(int, s) := digits s in
  if bool_decide (int = []) || (bool_decide (head int = Some 48) && negb (bool_decide (int = [48])))
  then None else
  let '(dot, s) := opt_byte (lit ".") s in
  let '(frac, s) := if bool_decide (dot = []) then ([], s) else digits s in
  if negb (bool_decide (dot = [])) && bool_decide (frac = []) then None else
  let '(e, s) := opt_byte (lit "eE") s in
  if bool_decide (e = []) then Some (sign ++ int ++ dot ++ frac, s) else
  let '(es, s) := opt_byte (lit "+-") s in
  let '(ex, s) := digits s in
  if bool_decide (ex = []) then None
  else Some (sign ++ int ++ dot ++ frac ++ e ++ es ++ ex, s).

(** The decoder refuses more than this many nested objects and arrays. *)
Definition maxNestingDepth : nat := Z.to_nat 10000.

(** The elements of an array or the members of an object, up to the closing
    byte [close]; [item] parses one of them. *)
Fixpoint parse_items {A} (item : bytes → option (A * bytes)) (close : Z) (fuel : nat) (s : bytes)
    : option (list A * bytes) :=
  match fuel with
  | O => None
  | S fuel' =>
      '(x, s1) ← item s;
      match skip s1 with
      | c :: s2 => if c =? 44 then '(xs, s3) ← parse_items item close fuel' (skip s2); Some (x :: xs, s3)
                   else if c =? close then Some ([x], s2) else None
      | [] => None
      end
  end.

Definition parse_group {A} (item : bytes → option (A * bytes)) (close : Z) (s : bytes)
    : option (list A * bytes) :=
  match skip s with
  | c :: s' => if c =? close then Some ([], s') else parse_items item close (S (length s)) (skip s)
  | [] => None
  end.

(** A member of an object: a key, a colon and a value. *)
Definition parse_member (value : bytes → option (json * bytes)) (s : bytes) : option ((bytes * json) * bytes) :=
  match s with
  | 34 :: t =>
      '(k, t1) ← parse_string (S (length t)) t;
      match skip t1 with
      | 58 :: t2 => '(v, t3) ← value (skip t2); Some ((k, v), t3)
      | _ => None
      end
  | _ => None
  end.

(** A value at the head of [s]; the fuel bounds the nesting. *)
Fixpoint parse_value (depth : nat) (s : bytes) : option (json * bytes) :=
  let word (w : string) (v : json) := s' ← cut_prefix s (lit w); Some (v, s') in
  match s with
  | [] => None
  | c :: s1 =>
      if c =? 110 then word "null" JNull
      else if c =? 116 then word "true" (JBool true)
      else if c =? 102 then word "false" (JBool false)
      else if c =? 34 then '(b, s2) ← parse_string (S (length s1)) s1; Some (JStr b, s2)
      else if c =? 91 then
        match depth with
        | O => None
        | S d => '(vs, s2) ← parse_group (parse_value d) 93 s1; Some (JArr vs, s2)
        end
      else if c =? 123 then
        match depth with
        | O => None
        | S d =>
            '(ms, s2) ← parse_group (parse_member (parse_value d)) 125 s1;
            Some (JObj ms, s2)
        end
      else '(n, s2) ← parse_number s; Some (JNum n, s2)
  end.

(** The document of a text; [None] is a syntax error. *)
Definition parse (s : bytes) : option json :=
  '(v, rest) ← parse_value maxNestingDepth (skip s);
  if bool_decide (skip rest = []) then Some v else None.

(** ** Decoding an object into a struct *)

(** foldName on the names in question: ASCII letters, and the two other runes
    that fold to one (U+017F to s, U+212A to k). *)
Fixpoint fold_name (k : bytes) : bytes :=
  match k with
  | 197 :: ((191 :: k') as t) => 115 :: fold_name k'
  | 226 :: ((132 :: ((170 :: k') as t2)) as t) => 107 :: fold_name k'
  | c :: k' => (if is_upper c then c + 32 else c) :: fold_name k'
  | [] => []
  end.

(** The values given to the field tagged [name], in order. *)
Definition values (name : string) (members : list (bytes * json)) : list json :=
  omap (fun '(k, v) => if bool_decide (fold_name k = lit name) then Some v else None) members.

(** The members Unmarshal reads into a struct: null leaves it zero, anything
    but an object is an error. *)
Definition struct_members (j : json) : option (list (bytes * json)) :=
  match j with
  | JObj ms => Some ms
  | JNull => Some []
  | _ => None
  end.

Definition members (raw : bytes) : option (list (bytes * json)) :=
  match parse raw with Some j => struct_members j | None => None end.

(** A field of type any or json.RawMessage: the last value, if there is one. *)
Definition field_any (name : string) (ms : list (bytes * json)) : option json := last (values name ms).

(** A field of type string: null changes nothing, another type is an error. *)
Definition field_string (name : string) (ms : list (bytes * json)) : option bytes :=
  foldl (fun acc v => match acc, v with
                      | Some _, JStr s => Some s
                      | Some s, JNull => Some s
                      | _, _ => None
                      end) (Some []) (values name ms).

(** A field of type map[string]json.RawMessage: objects are merged into it,
    null makes it nil. *)
Definition field_map (name : string) (ms : list (bytes * json)) : option (option (gmap bytes json)) :=
  foldl (fun acc v => match acc, v with
                      | Some m, JObj kvs =>
                          Some (Some (foldl (fun m '(k, v) => <[k := v]> m) (default ∅ m) kvs))
                      | Some _, JNull => Some None
                      | _, _ => None
                      end) (Some None) (values name ms).

(** A field of type uint64. *)
Fixpoint to_uint (acc : Z) (s : bytes) : option Z :=
  match s with
  | [] => Some acc
  | c :: s' => if is_digit c then to_uint (acc * 10 + (c - 48)) s' else None
  end.

Definition uint_of (v : json) : option Z :=
  match v with
  | JNum t => match to_uint 0 t with
              | Some n => if n <? 2 ^ 64 then Some n else None
              | None => None
              end
  | _ => None
  end.

Definition field_uint (name : string) (ms : list (bytes * json)) : option Z :=
  foldl (fun acc v => match acc, v with
                      | Some n, JNull => Some n
                      | Some _, v => uint_of v
                      | None, _ => None
                      end) (Some 0) (values name ms).

(** ** json.Marshal of a string *)

Definition hex_lower (d : Z) : Z := if d <? 10 then 48 + d else 87 + d.

Definition escape_ascii (c : Z) : bytes :=
  if bool_decide (c ∈ [34; 92]) then [92; c]
  else if c =? 8 then lit "\b" else if c =? 12 then lit "\f" else if c =? 10 then lit "\n"
  else if c =? 13 then lit "\r" else if c =? 9 then lit "\t"
  else if (c <? 32) || bool_decide (c ∈ lit "<>&") then
    lit "\u00" ++ [hex_lower (Z.shiftr c 4); hex_lower (Z.land c 15)]
  else [c].

Fixpoint escape (fuel : nat) (s : bytes) : bytes :=
  match fuel with
  | O => []
  | S fuel' =>
      match s with
      | [] => []
      | c :: s' =>
          if c <? 128 then escape_ascii c ++ escape fuel' s'
          else match rune_len Utf8.Start s with
               | None => lit "\ufffd" ++ escape fuel' s'
               | Some n =>
                   (if bool_decide (take n s = [226; 128; 168]) then lit "\u2028"
                    else if bool_decide (take n s = [226; 128; 169]) then lit "\u2029"
                    else take n s) ++ escape fuel' (drop n s)
               end
      end
  end.

(** The literal, between double quotes. *)
Definition marshal_string (s : bytes) : bytes := [34] ++ escape (length s) s ++ [34].

(** json.Marshal of a struct: the texts of its members in order. *)
Definition member (kv : bytes * bytes) : bytes := marshal_string kv.1 ++ 58 :: kv.2.

Definition object_text (ms : list (bytes * bytes)) : bytes := [123] ++ join 44 (map member ms) ++ [125].

End Json.

(** Induction on trees with the members of arrays and objects. *)
Lemma json_nested_ind (P : json → Prop)
    (HNull : P JNull) (HBool : ∀ b, P (JBool b)) (HNum : ∀ n, P (JNum n)) (HStr : ∀ s, P (JStr s))
    (HArr : ∀ l, Forall P l → P (JArr l)) (HObj : ∀ kvs, Forall (fun kv => P kv.2) kvs → P (JObj kvs)) :
  ∀ v, P v.
Proof.
  fix IH 1. intros [|b|n|s|l|kvs]; [done|done|done|done| |].
  - apply HArr. induction l as [|v l IHl]; constructor; [apply IH|done].
  - apply HObj. induction kvs as [|[k v] kvs IHl]; constructor; [apply IH|done].
Qed.

(** *** A marshalled string parses back *)

Lemma rune_len_take st s n r :
  Json.rune_len st s = Some n → Json.rune_len st (take n s ++ r) = Some n ∧ (n <= length s)%nat.
Proof.
  revert st n. induction s as [|c s IH]; simpl; intros st n Hn; [done|].
  destruct (Utf8.step st c) as [st'|] eqn:E; [|done]. destruct st' as [|k lo hi].
  - injection Hn as <-. simpl. rewrite E. split; [done|lia].
  - destruct (Json.rune_len _ s) as [n'|] eqn:E'; simplify_eq/=. rewrite E.
    destruct (IH _ _ E') as [-> ?]. split; [done|lia].
Qed.

Lemma valid_rune st s :
  Utf8.run st s = Some Utf8.Start → s ≠ [] →
  ∃ n, Json.rune_len st s = Some (S n) ∧ Utf8.run Utf8.Start (drop (S n) s) = Some Utf8.Start.
Proof.
  revert st. induction s as [|c s IH]; intros st Hr Hne; [done|]. simpl in *.
  destruct (Utf8.step st c) as [st'|] eqn:E; [|done]. destruct st' as [|k lo hi].
  - exists 0%nat. by rewrite drop_0.
  - destruct s as [|d s]; [done|]. destruct (IH _ Hr) as (n & Hn & Hd); [done|].
    exists (S n). by rewrite Hn.
Qed.

Definition prepend (a : bytes) (o : option (bytes * bytes)) : option (bytes * bytes) :=
  '(b, t) ← o; Some (a ++ b, t).

Lemma parse_escape_ascii c fuel r :
  0 <= c < 128 →
  Json.parse_string (S fuel) (Json.escape_ascii c ++ r) = prepend [c] (Json.parse_string fuel r).
Proof.
  intros Hc. assert (Hin : In c (seqZ 0 128)) by (apply list_elem_of_In, elem_of_seqZ; lia).
  repeat (destruct Hin as [<-|Hin]; [reflexivity|]). destruct Hin.
Qed.

Lemma parse_rune c s n fuel r :
  128 <= c → Json.rune_len Utf8.Start (c :: s) = Some (S n) →
  Json.parse_string (S fuel) (take (S n) (c :: s) ++ r) = prepend (take (S n) (c :: s)) (Json.parse_string fuel r).
Proof.
  intros Hc Hn. destruct (rune_len_take _ _ _ r Hn) as [Hn' Hl].
  change (take (S n) (c :: s) ++ r) with (c :: (take n s ++ r)) in *. cbn [Json.parse_string].
  rewrite (proj2 (Z.eqb_neq c 34)), (proj2 (Z.eqb_neq c 92)), (proj2 (Z.ltb_ge c 32)) by lia.
  rewrite Hn'. change (c :: take n s ++ r) with (take (S n) (c :: s) ++ r).
  rewrite drop_app_length', take_app_length' by (rewrite length_take; lia). done.
Qed.

Lemma parse_marshalled m s fuel r :
  (length s <= m)%nat → Forall is_byte s → Utf8.valid s = true → (length s < fuel)%nat →
  Json.parse_string fuel (Json.escape m s ++ 34 :: r) = Some (s, r).
Proof.
  unfold Utf8.valid. rewrite bool_decide_eq_true. revert s fuel.
  induction m as [|m IH]; intros s fuel Hm Hb Hv Hf; (destruct fuel as [|fuel]; [lia|]).
  { destruct s; [done|simpl in Hm; lia]. }
  destruct s as [|c s]; [done|]. apply Forall_cons in Hb as [Hc Hb]. simpl in Hm, Hf. cbn [Json.escape].
  destruct (valid_rune _ _ Hv) as (n & Hn & Hd); [done|].
  destruct (Z.ltb_spec c 128) as [H128|H128].
  - rewrite <-app_assoc, parse_escape_ascii by (unfold is_byte in Hc; lia).
    assert (n = 0%nat) as ->.
    { simpl in Hn. unfold in_range in Hn. unfold is_byte in Hc.
      rewrite (proj2 (Z.leb_le 0 c)), (proj2 (Z.leb_le c 127)) in Hn by lia. simpl in Hn. by simplify_eq. }
    rewrite (IH s) by (done || lia). done.
  - rewrite Hn. rewrite <-app_assoc.
    assert (Hrest : Json.parse_string fuel (Json.escape m (drop (S n) (c :: s)) ++ 34 :: r)
                    = Some (drop (S n) (c :: s), r)).
    { apply IH; [simpl; rewrite length_drop; lia| |done|simpl; rewrite length_drop; lia].
      by apply Forall_drop, Forall_cons. }
    transitivity (prepend (take (S n) (c :: s)) (Some (drop (S n) (c :: s), r))).
    + rewrite <-Hrest. case_bool_decide as H1; [rewrite H1; reflexivity|].
      case_bool_decide as H2; [rewrite H2; reflexivity|]. by apply parse_rune.
    + cbn [prepend mbind option_bind]. by rewrite take_drop.
Qed.

Lemma length_escape_ascii c : (1 <= length (Json.escape_ascii c))%nat.
Proof. unfold Json.escape_ascii. by repeat case_match; simpl; lia. Qed.

Lemma length_escape m s : (length s <= m)%nat → (length s <= length (Json.escape m s))%nat.
Proof.
  revert s. induction m as [|m IH]; intros [|c s] Hm; cbn [length] in Hm; cbn [length Json.escape]; try lia.
  destruct (c <? 128).
  - rewrite length_app. pose proof (length_escape_ascii c). specialize (IH s ltac:(lia)). lia.
  - destruct (Json.rune_len Utf8.Start (c :: s)) as [n|] eqn:E.
    + destruct (rune_len_take _ _ _ [] E) as [_ Hn]. cbn [length] in Hn.
      assert (Hpos : (0 < n)%nat).
      { cbn [Json.rune_len] in E. destruct (Utf8.step Utf8.Start c) as [[|? ? ?]|]; simplify_eq/=; [lia|].
        destruct (Json.rune_len _ s); simplify_eq/=. lia. }
      specialize (IH (drop n (c :: s))). rewrite length_drop in IH. cbn [length] in IH. cbv beta iota. rewrite length_app.
      specialize (IH ltac:(lia)).
      assert (n <= length (if bool_decide (take n (c :: s) = [226; 128; 168]%Z) then lit "\u2028"
                    else if bool_decide (take n (c :: s) = [226; 128; 169]%Z) then lit "\u2029"
                    else take n (c :: s)))%nat; [|lia].
      assert (Ht : length (take n (c :: s)) = n) by (rewrite length_take; cbn [length]; lia).
      case_bool_decide as H1; [rewrite H1 in Ht; cbn in Ht |- *; lia|].
      case_bool_decide as H2; [rewrite H2 in Ht; cbn in Ht |- *; lia|]. lia.
    + specialize (IH s ltac:(lia)). rewrite length_app. cbn. lia.
Qed.

(** *** The text of an object *)

(** A text that parses to a value wherever it stands in an object. *)
Definition value_text (txt : bytes) (v : json) : Prop :=
  ∀ d rest, Json.skip (txt ++ rest) = txt ++ rest ∧ Json.parse_value (S d) (txt ++ rest) = Some (v, rest).

Lemma marshalled_string s fuel r :
  Forall is_byte s → Utf8.valid s = true → (length (Json.escape (length s) s ++ 34%Z :: r) <= fuel)%nat →
  Json.parse_string (S fuel) (Json.escape (length s) s ++ 34 :: r) = Some (s, r).
Proof.
  intros Hb Hv Hf. apply parse_marshalled; [done..|]. rewrite length_app in Hf.
  pose proof (length_escape (length s) s ltac:(done)). simpl in Hf. lia.
Qed.

Lemma string_text s : Forall is_byte s → Utf8.valid s = true → value_text (Json.marshal_string s) (JStr s).
Proof.
  intros Hb Hv d rest. unfold Json.marshal_string. rewrite <-!app_assoc. split; [done|].
  change ([34] ++ Json.escape (length s) s ++ [34] ++ rest) with (34 :: (Json.escape (length s) s ++ 34 :: rest)).
  cbn [Json.parse_value]. change (34 =? 110) with false. change (34 =? 116) with false. change (34 =? 102) with false.
  change (34 =? 34) with true. cbv iota. by rewrite (marshalled_string s _ rest Hb Hv).
Qed.

Lemma true_text : value_text (lit "true") (JBool true).
Proof. by intros d rest. Qed.

Lemma obj_member_parses kv v d rest :
  Forall is_byte kv.1 → Utf8.valid kv.1 = true → value_text kv.2 v →
  Json.parse_member (Json.parse_value (S d)) (Json.member kv ++ rest) = Some ((kv.1, v), rest).
Proof.
  intros Hb Hu Hv. unfold Json.member, Json.marshal_string. rewrite <-!app_assoc.
  change ([34] ++ Json.escape (length kv.1) kv.1 ++ [34] ++ (58 :: kv.2) ++ rest)
    with (34 :: (Json.escape (length kv.1) kv.1 ++ 34 :: (58 :: kv.2 ++ rest))).
  cbn [Json.parse_member]. rewrite (marshalled_string _ _ _ Hb Hu) by done. cbn [mbind option_bind].
  change (Json.skip (58 :: kv.2 ++ rest)) with (58 :: kv.2 ++ rest). cbv beta iota.
  destruct (Hv d rest) as [-> ->]. reflexivity.
Qed.

Lemma member_skips kv rest : Json.skip (Json.member kv ++ rest) = Json.member kv ++ rest.
Proof. unfold Json.member, Json.marshal_string. by rewrite <-!app_assoc. Qed.

(** A member with the value its text stands for. *)
Definition good_member (kv : bytes * bytes) (v : json) : Prop :=
  Forall is_byte kv.1 ∧ Utf8.valid kv.1 = true ∧ value_text kv.2 v.

Lemma items_parse d ms vs fuel :
  Forall2 good_member ms vs → ms ≠ [] → (length ms <= fuel)%nat →
  Json.parse_items (Json.parse_member (Json.parse_value (S d))) 125 fuel (join 44 (map Json.member ms) ++ [125])
  = Some (zip (map fst ms) vs, []).
Proof.
  intros Hf. revert fuel. induction Hf as [|kv v ms vs (Hb & Hu & Hv) Hf IH]; intros fuel Hne Hle; [done|].
  destruct fuel as [|fuel]; [simpl in Hle; lia|]. cbn [map]. destruct Hf as [|kv' v' ms vs Hg Hf].
  - cbn [join map Json.parse_items]. rewrite (obj_member_parses kv v d _ Hb Hu Hv). reflexivity.
  - change (join 44 (Json.member kv :: map Json.member (kv' :: ms)) ++ [125])
      with ((Json.member kv ++ 44 :: join 44 (map Json.member (kv' :: ms))) ++ [125]).
    rewrite <-app_assoc. cbn [Json.parse_items]. rewrite (obj_member_parses kv v d _ Hb Hu Hv). cbn [mbind option_bind].
    set (more := join 44 (map Json.member (kv' :: ms))) in *.
    change (Json.skip ((44 :: more) ++ [125])) with (44 :: more ++ [125]). cbv beta iota. rewrite Z.eqb_refl.
    assert (Hs : Json.skip (more ++ [125]) = more ++ [125]).
    { unfold more. destruct ms as [|kv2 ms]; [apply member_skips|].
      change (join 44 (map Json.member (kv' :: kv2 :: ms)) ++ [125])
        with ((Json.member kv' ++ 44 :: join 44 (map Json.member (kv2 :: ms))) ++ [125]).
      rewrite <-app_assoc. apply member_skips. }
    rewrite Hs, IH by (done || (simpl in *; lia)). reflexivity.
Qed.

Lemma member_length kv : (1 <= length (Json.member kv))%nat.
Proof. unfold Json.member, Json.marshal_string. rewrite !length_app. simpl. lia. Qed.

Lemma members_length ms : (length ms <= length (join 44 (map Json.member ms)))%nat.
Proof.
  induction ms as [|kv ms IH]; [done|]. pose proof (member_length kv). destruct ms as [|kv' ms]; [simpl in *; lia|].
  change (join 44 (map Json.member (kv :: kv' :: ms)))
    with (Json.member kv ++ 44 :: join 44 (map Json.member (kv' :: ms))).
  rewrite length_app. simpl length in *. lia.
Qed.

(** What json.Marshal of a struct wrote, json.Unmarshal reads. *)
Lemma object_parses ms vs :
  Forall2 good_member ms vs → ms ≠ [] → Json.parse (Json.object_text ms) = Some (JObj (zip (map fst ms) vs)).
Proof.
  intros Hf Hne. unfold Json.parse, Json.object_text.
  assert (Hd : Json.maxNestingDepth = S (S (Z.to_nat 9998))) by (vm_compute; reflexivity). rewrite Hd.
  generalize (Z.to_nat 9998) as d. intros d. set (body := join 44 (map Json.member ms)).
  change (Json.skip ([123] ++ body ++ [125])) with (123 :: (body ++ [125])).
  assert (Hb : ∃ t, body ++ [125] = 34 :: t).
  { unfold body. destruct ms as [|kv ms]; [done|]. destruct ms as [|kv' ms]; by eexists. }
  destruct Hb as [t Ht].
  assert (Hp : Json.parse_value (S (S d)) (123 :: (body ++ [125])) = Some (JObj (zip (map fst ms) vs), [])).
  { rewrite Ht. change (Json.parse_value (S (S d)) (123 :: 34 :: t)) with
      ('(ms, s2) ← Json.parse_items (Json.parse_member (Json.parse_value (S d))) 125 (S (S (length t))) (34 :: t);
       Some (JObj ms, s2)).
    rewrite <-Ht, (items_parse d ms vs) by
      (done || (apply (f_equal length) in Ht; rewrite length_app in Ht; simpl in Ht;
                pose proof (members_length ms); unfold body in Ht; lia)). reflexivity. }
  by rewrite Hp.
Qed.

(** A JSON text written with single quotes. *)
Definition jlit (s : string) : bytes := map (fun c => if c =? 39 then 34 else c) (lit s).

Example parse_sample :
  Json.parse (jlit " {'a':[1,-2.5e3,true], 'b':{'c':null,'c':'x\u00e9\n'}} ") =
  Some (JObj [(lit "a", JArr [JNum (lit "1"); JNum (lit "-2.5e3"); JBool true]);
              (lit "b", JObj [(lit "c", JNull); (lit "c", JStr (lit "x" ++ [195; 169; 10]))])]).
Proof. vm_compute. reflexivity. Qed.

Example parse_errors :
  map Json.parse [lit "{"; lit "01"; jlit "{'a':1,}"; lit "[1] 2"; lit ""] = [None; None; None; None; None].
Proof. vm_compute. reflexivity. Qed.
