(* ===== verification/Resolve.v ===== *)
(** compat/nodejs/resolve.go: Node's module resolution over an fs.FS - core
    modules, relative and file: specifiers, node_modules walk-up,
    package.json "exports" and "imports", and the classification of files.

    The file system is any [WritableFS] (only fs.Stat and fs.ReadFile are
    used). [range m] is the order in which a for-range loop visits the map
    [m]: Go leaves it open, so it is a parameter, and only a permutation of
    the map's entries. loadAsFileOrDir calls itself through package.json
    without a bound of its own: its fuel counts nested calls, and [None] is
    running out of it. *)

From S2P Require Import Prelude GoPath IoFS Json MemFS.

(** ** Data *)

Inductive moduleKind := kindESM | kindCJS | kindJSON.

#[export] Instance moduleKind_eq_dec : EqDecision moduleKind.
Proof. solve_decision. Defined.

Record resolution := MkRes { Core : bytes; RPath : bytes; Kind : moduleKind; KindGuessed : bool }.

#[export] Instance resolution_eq_dec : EqDecision resolution.
Proof. solve_decision. Defined.

(** The errors of the file, one constructor per fmt.Errorf. *)
Inductive rerr :=
| EUnknownBuiltin (specifier : bytes)
| ENoFS (specifier : bytes)
| ECannotResolve (specifier : bytes)
| ECannotResolveFrom (specifier parent : bytes)
| ECannotFindPackage (name parent : bytes)
| EPackageRead (pkgDir : bytes) (e : goerr)
| EBadPackageJSON (pkgDir : bytes)
| EPackage (pkgDir : bytes) (e : rerr)
| ENoImports (specifier parent : bytes)
| ENoImportsEntry (pkgDir specifier : bytes)
| ENoExports (key : bytes)
| ENoEntry (key : bytes)
| EInvalidSubpath (key : bytes)
| ENoCondition (have : list bytes)
| ENoFallback
| EEmptyTarget
| EUnsupportedTarget.

#[export] Instance rerr_eq_dec : EqDecision rerr.
Proof. solve_decision. Defined.

Definition coreModules : list bytes := map lit
  ["assert"; "assert/strict"; "async_hooks"; "buffer"; "child_process"; "cluster"; "console";
   "constants"; "crypto"; "dgram"; "diagnostics_channel"; "dns"; "dns/promises"; "events"; "fs";
   "fs/promises"; "http"; "http2"; "https"; "inspector"; "inspector/promises"; "module"; "net"; "os";
   "path"; "path/posix"; "path/win32"; "perf_hooks"; "process"; "punycode"; "querystring"; "readline";
   "readline/promises"; "stream"; "stream/consumers"; "stream/promises"; "stream/web";
   "string_decoder"; "sys"; "timers"; "timers/promises"; "tls"; "tty"; "url"; "util"; "util/types";
   "v8"; "vm"; "worker_threads"; "zlib"]%string.

Definition isCore (name : bytes) : bool := bool_decide (name ∈ coreModules).

Definition esmConditions : list bytes := map lit
  ["worker"; "workerd"; "browser"; "deno"; "bun"; "import"; "module"; "default"]%string.
Definition cjsConditions : list bytes := map lit ["require"; "node"; "default"]%string.

(** ** Names *)

Definition splitBare (specifier : bytes) : bytes * bytes :=
  let parts := split ch_slash specifier in
  let n := if has_prefix specifier (lit "@") && (1 <? length parts)%nat then 2%nat else 1%nat in
  (join ch_slash (take n parts), join ch_slash (drop n parts)).

(** The loop of ancestorDirs. *)
Fixpoint ancestor_loop (fuel : nat) (dir : bytes) : option (list bytes) :=
  match fuel with
  | O => None
  | S fuel' =>
      if bool_decide (dir = lit "." ∨ dir = lit "/") then Some [dir]
      else cons dir <$> ancestor_loop fuel' (Path.dir dir)
  end.

(** The fuel is the length of the path; [ancestor_loop_total] below proves
    that it never runs out. *)
Definition ancestorDirs (dir : bytes) : list bytes :=
  default [] (ancestor_loop (S (length (Path.clean dir))) (Path.clean dir)).

Definition strField (v : option json) : bytes :=
  match v with Some (JStr s) => s | _ => [] end.

(** A json.RawMessage field: absent, or the tree of its text. *)
Definition hasJSONValue (raw : option json) : bool :=
  match raw with None | Some JNull => false | Some _ => true end.

(** strings.ReplaceAll(target, "*", star). *)
Definition replace_star (target star : bytes) : bytes :=
  mjoin (map (fun c => if c =? ch_star then star else [c]) target).

(** ** Exports and imports *)

Section Maps.
Context (range : gmap bytes json → list (bytes * json)).

Section Conditions.
Context (conds : list bytes) (resolve : json → result rerr bytes).

(** The walk over a conditions object in source order: the first enabled key
    whose target resolves; [have] are the keys seen. *)
Definition first_enabled : list bytes → list (bytes * json) → result rerr bytes :=
  fix go have kvs :=
    match kvs with
    | [] => Err (ENoCondition have)
    | (key, val) :: kvs' =>
        if bool_decide (key ∈ conds) then
          match resolve val with
          | Ok s => Ok s
          | Err _ => go (have ++ [key]) kvs'
          end
        else go (have ++ [key]) kvs'
    end.

(** A fallback array: the first target that resolves. *)
Definition first_resolving : list json → result rerr bytes :=
  fix go items :=
    match items with
    | [] => Err ENoFallback
    | item :: items' => match resolve item with Ok s => Ok s | Err _ => go items' end
    end.

End Conditions.

Fixpoint resolveConditions (conds : list bytes) (v : json) : result rerr bytes :=
  match v with
  | JStr s => Ok s
  | JObj kvs => first_enabled conds (resolveConditions conds) [] kvs
  | JArr items => first_resolving (resolveConditions conds) items
  | _ => Err EUnsupportedTarget
  end.

(** How a pattern key matches: the lengths of its literal prefix and suffix. *)
Definition match_pattern (key pat : bytes) : option (nat * nat) :=
  star ← index_byte pat ch_star;
  let prefix := take star pat in
  let suffix := drop (S star) pat in
  if contains_byte suffix ch_star then None
  else if negb (has_prefix key prefix) || negb (has_suffix key suffix)
          || (length key <=? length prefix + length suffix)%nat then None
  else Some (length prefix, length suffix).

Record best := MkBest { bestPat : bytes; bestStar : bytes; bestPrefixLen : Z; bestSuffixLen : Z }.

(** One iteration of the loop over the keys of the map. *)
Definition best_step (key : bytes) (b : best) (e : bytes * json) : best :=
  match match_pattern key e.1 with
  | None => b
  | Some (pl, sl) =>
      if (bestPrefixLen b <? Z.of_nat pl) ||
         ((Z.of_nat pl =? bestPrefixLen b) && (bestSuffixLen b <? Z.of_nat sl)) then
        MkBest e.1 (drop pl (take (length key - sl) key)) (Z.of_nat pl) (Z.of_nat sl)
      else b
  end.

Definition best_of (key : bytes) (es : list (bytes * json)) : best :=
  foldl (best_step key) (MkBest [] [] (-1) (-1)) es.

(** A captured segment that could leave the package. *)
Definition bad_segment (seg : bytes) : bool :=
  bool_decide (seg = lit ".") || bool_decide (seg = lit "..") || contains_byte seg 92.

Definition resolveSubpathMap (m : gmap bytes json) (key : bytes) (conds : list bytes) : result rerr bytes :=
  match m !! key with
  | Some v => resolveConditions conds v
  | None =>
      let b := best_of key (range m) in
      if bool_decide (bestPat b = []) then Err (ENoEntry key)
      else if existsb bad_segment (split ch_slash (bestStar b)) then Err (EInvalidSubpath key)
      else match m !! bestPat b with
           | None => Err EEmptyTarget
           | Some v => let! target := resolveConditions conds v in Ok (replace_star target (bestStar b))
           end
  end.

Definition isSubpathMap (m : gmap bytes json) : bool :=
  match range m with
  | [] => false
  | (k, _) :: _ => has_prefix k (lit ".")
  end.

(** json.Unmarshal of an object into a map: the last of equal keys wins. *)
Definition rawObject (raw : json) : option (gmap bytes json) :=
  match raw with
  | JObj kvs => Some (foldl (fun m '(k, v) => <[k := v]> m) ∅ kvs)
  | _ => None
  end.

Definition export_key (subpath : bytes) : bytes :=
  if bool_decide (subpath = []) then lit "." else lit "./" ++ subpath.

Definition resolveExports (exports : json) (subpath : bytes) (conds : list bytes) : result rerr bytes :=
  let key := export_key subpath in
  let otherwise := if negb (bool_decide (key = lit ".")) then Err (ENoExports key)
                   else resolveConditions conds exports in
  match rawObject exports with
  | Some m =>
      if isSubpathMap m then
        match resolveSubpathMap m key conds with
        | Ok t => Ok t
        | Err _ => Err (ENoExports key)
        end
      else otherwise
  | None => otherwise
  end.

End Maps.

(** ** Files *)

Section Files.
Context {F : Type} `{WritableFS F}.

Definition isFile (fsys : F) (p : bytes) : bool :=
  if negb (ValidPath p) then false
  else match fs_stat fsys p with Ok info => negb (IsDir (i_mode info)) | Err _ => false end.

Definition word_byte (c : Z) : bool :=
  is_lower c || is_upper c || is_digit c || (c =? 95).

(** A keyword followed by a word boundary. *)
Definition keyword (s : bytes) (w : string) : bool :=
  match cut_prefix s (lit w) with
  | None => false
  | Some [] => true
  | Some (c :: _) => negb (word_byte c)
  end.

Fixpoint skip_ws (s : bytes) : bytes :=
  match s with
  | c :: s' => if bool_decide (c ∈ [9; 10; 12; 13; 32]) then skip_ws s' else s
  | [] => []
  end.

(** esmSyntax, (?m)^\s*(import|export)\b, from a line start on. *)
Fixpoint esm_scan (at_line_start : bool) (s : bytes) : bool :=
  (at_line_start && (keyword (skip_ws s) "import" || keyword (skip_ws s) "export")) ||
  match s with [] => false | c :: s' => esm_scan (c =? ch_nl) s' end.

Definition esmSyntax (src : bytes) : bool := esm_scan true src.

(** The package.json text of a directory. *)
Definition read_pkg (fsys : F) (d : bytes) : result goerr bytes :=
  fs_read fsys (Path.join2 d (lit "package.json")).

(** The loop of classifyJS over the ancestor directories. *)
Fixpoint nearest_type (fsys : F) (dirs : list bytes) : option moduleKind :=
  match dirs with
  | [] => None
  | d :: dirs' =>
      match read_pkg fsys d with
      | Err _ => nearest_type fsys dirs'
      | Ok raw =>
          match (ms ← Json.members raw; Json.field_string "type" ms) with
          | None | Some [] => nearest_type fsys dirs'
          | Some t => Some (if bool_decide (t = lit "module") then kindESM else kindCJS)
          end
      end
  end.

Definition classifyJS (fsys : F) (p : bytes) : moduleKind * bool :=
  match nearest_type fsys (ancestorDirs (Path.dir p)) with
  | Some k => (k, false)
  | None => match fs_read fsys p with
            | Ok src => if esmSyntax src then (kindESM, true) else (kindCJS, true)
            | Err _ => (kindCJS, true)
            end
  end.

Definition finish (fsys : F) (p : bytes) : resolution :=
  let ext := Path.ext p in
  if bool_decide (ext = lit ".json") then MkRes [] p kindJSON false
  else if bool_decide (ext = lit ".mjs") then MkRes [] p kindESM false
  else if bool_decide (ext = lit ".cjs") then MkRes [] p kindCJS false
  else let '(k, g) := classifyJS fsys p in MkRes [] p k g.

(** refineKind: [engine] is the interpreter's SourceIsModule, [None] when
    there is no interpreter; [src] the source if already read. *)
Definition refineKind (engine : option (bytes → result goerr bool)) (fsys : option F)
    (r : resolution) (src : option bytes) : resolution :=
  match engine with
  | None => r
  | Some isModule =>
      if negb (KindGuessed r) then r else
      let text := match src with
                  | Some s => Ok s
                  | None => match fsys with
                            | None => Err (text_goerr (lit "no FS configured"))
                            | Some f => fs_read f (RPath r)
                            end
                  end in
      match text with
      | Err _ => r
      | Ok s => match isModule s with
                | Err _ => r
                | Ok b => MkRes (Core r) (RPath r) (if b then kindESM else kindCJS) false
                end
      end
  end.

Definition file_candidates (p : bytes) : list bytes :=
  [p; p ++ lit ".js"; p ++ lit ".json"; p ++ lit ".mjs"; p ++ lit ".cjs"].

Definition index_candidates (p : bytes) : list bytes :=
  map (Path.join2 p) [lit "index.js"; lit "index.json"; lit "index.mjs"; lit "index.cjs"].

(** The entries loadAsFileOrDir takes from a directory's package.json. *)
Definition dir_entries (fsys : F) (p : bytes) : list bytes :=
  match read_pkg fsys p with
  | Err _ => []
  | Ok raw => match Json.members raw with
              | None => []
              | Some ms => [strField (Json.field_any "module" ms); strField (Json.field_any "main" ms)]
              end
  end.

(** The loops that try package.json entries below [p] with [load]: the
    outer [None] is fuel, the inner one that none resolved. *)
Fixpoint try_entries (load : bytes → option (result rerr resolution)) (p : bytes) (entries : list bytes)
    : option (option resolution) :=
  match entries with
  | [] => Some None
  | entry :: entries' =>
      if bool_decide (entry = []) then try_entries load p entries'
      else match load (Path.join2 p entry) with
           | None => None
           | Some (Ok r) => Some (Some r)
           | Some (Err _) => try_entries load p entries'
           end
  end.

Definition find_file (fsys : F) (cands : list bytes) : option bytes := List.find (isFile fsys) cands.

Fixpoint loadAsFileOrDir (fuel : nat) (fsys : F) (p : bytes) : option (result rerr resolution) :=
  match fuel with
  | O => None
  | S fuel' =>
      match find_file fsys (file_candidates p) with
      | Some cand => Some (Ok (finish fsys cand))
      | None =>
          match fs_stat fsys p with
          | Err _ => Some (Err (ECannotResolve p))
          | Ok info =>
              if negb (IsDir (i_mode info)) then Some (Err (ECannotResolve p))
              else match try_entries (loadAsFileOrDir fuel' fsys) p (dir_entries fsys p) with
                   | None => None
                   | Some (Some r) => Some (Ok r)
                   | Some None =>
                       match find_file fsys (index_candidates p) with
                       | Some cand => Some (Ok (finish fsys cand))
                       | None => Some (Err (ECannotResolve p))
                       end
                   end
          end
      end
  end.

Section Packages.
Context (range : gmap bytes json → list (bytes * json)) (fuel : nat) (fsys : F) (conds : list bytes).

Definition load (p : bytes) : option (result rerr resolution) := loadAsFileOrDir fuel fsys p.

(** The loop of resolveSelfReference; [Some None] is its false result. *)
Fixpoint self_reference_loop (name subpath : bytes) (dirs : list bytes) : option (option resolution) :=
  match dirs with
  | [] => Some None
  | d :: dirs' =>
      match read_pkg fsys d with
      | Err _ => self_reference_loop name subpath dirs'
      | Ok raw =>
          match (ms ← Json.members raw; n ← Json.field_string "name" ms; Some (n, Json.field_any "exports" ms)) with
          | None => Some None
          | Some (n, exports) =>
              if negb (bool_decide (n = name)) || negb (hasJSONValue exports) then Some None
              else match resolveExports range (default JNull exports) subpath conds with
                   | Err _ => Some None
                   | Ok target =>
                       match load (Path.join2 d target) with
                       | None => None
                       | Some (Err _) => Some None
                       | Some (Ok r) => Some (Some r)
                       end
                   end
          end
      end
  end.

Definition resolveSelfReference (specifier parent : bytes) : option (option resolution) :=
  let '(name, subpath) := splitBare specifier in
  self_reference_loop name subpath (ancestorDirs (Path.dir parent)).

Definition resolvePackage (pkgDir subpath : bytes) : option (result rerr resolution) :=
  match read_pkg fsys pkgDir with
  | Err e => Some (Err (EPackageRead pkgDir e))
  | Ok raw =>
      match Json.members raw with
      | None => Some (Err (EBadPackageJSON pkgDir))
      | Some ms =>
          let exports := Json.field_any "exports" ms in
          if hasJSONValue exports then
            match resolveExports range (default JNull exports) subpath conds with
            | Err e => Some (Err (EPackage pkgDir e))
            | Ok target => load (Path.join2 pkgDir target)
            end
          else if negb (bool_decide (subpath = [])) then load (Path.join2 pkgDir subpath)
          else
            match try_entries load pkgDir
                    [strField (Json.field_any "browser" ms); strField (Json.field_any "module" ms);
                     strField (Json.field_any "main" ms)] with
            | None => None
            | Some (Some r) => Some (Ok r)
            | Some None => load pkgDir
            end
      end
  end.

(** The loop of resolveBareSpecifier. *)
Fixpoint bare_loop (name subpath parent : bytes) (dirs : list bytes) : option (result rerr resolution) :=
  match dirs with
  | [] => Some (Err (ECannotFindPackage name parent))
  | dir :: dirs' =>
      let pkgDir := Path.joins [dir; lit "node_modules"; name] in
      match fs_stat fsys pkgDir with
      | Err _ => bare_loop name subpath parent dirs'
      | Ok _ => resolvePackage pkgDir subpath
      end
  end.

Definition resolveBareSpecifier (specifier parent : bytes) : option (result rerr resolution) :=
  let '(name, subpath) := splitBare specifier in
  bare_loop name subpath parent (ancestorDirs (Path.dir parent)).

(** nearestImports. *)
Fixpoint imports_loop (dirs : list bytes) : option (bytes * gmap bytes json) :=
  match dirs with
  | [] => None
  | d :: dirs' =>
      match read_pkg fsys d with
      | Err _ => imports_loop dirs'
      | Ok raw => match (ms ← Json.members raw; Json.field_map "imports" ms) with
                  | Some (Some m) => Some (d, m)
                  | _ => imports_loop dirs'
                  end
      end
  end.

Definition nearestImports (dir : bytes) : option (bytes * gmap bytes json) :=
  imports_loop (ancestorDirs dir).

Definition resolveHashImport (specifier parent : bytes) : option (result rerr resolution) :=
  match nearestImports (Path.dir parent) with
  | None => Some (Err (ENoImports specifier parent))
  | Some (pkgDir, imports) =>
      match resolveSubpathMap range imports specifier conds with
      | Err _ => Some (Err (ENoImportsEntry pkgDir specifier))
      | Ok target =>
          if has_prefix target (lit "./") || has_prefix target (lit "../") then
            load (Path.join2 pkgDir target)
          else resolveBareSpecifier target (Path.join2 pkgDir (lit "package.json"))
      end
  end.

End Packages.

Definition is_relative (spec : bytes) : bool :=
  bool_decide (spec = lit ".") || bool_decide (spec = lit "..") ||
  has_prefix spec (lit "./") || has_prefix spec (lit "../").

Definition resolveModule (range : gmap bytes json → list (bytes * json)) (fuel : nat) (fsys : option F)
    (specifier parent : bytes) (cjs : bool) : option (result rerr resolution) :=
  match cut_prefix specifier (lit "node:") with
  | Some name =>
      Some (if isCore name then Ok (MkRes name [] kindESM false) else Err (EUnknownBuiltin specifier))
  | None =>
      if isCore specifier then Some (Ok (MkRes specifier [] kindESM false)) else
      match fsys with
      | None => Some (Err (ENoFS specifier))
      | Some f =>
          let conds := if cjs then cjsConditions else esmConditions in
          let parent := trim_prefix (fileURLToFSPath parent) (lit "/") in
          if has_prefix specifier (lit "#") then resolveHashImport range fuel f conds specifier parent
          else
            let spec := fileURLToFSPath specifier in
            let '(spec, bare) :=
              if is_relative spec then (Path.join2 (Path.dir parent) spec, false)
              else match cut_prefix spec (lit "/") with
                   | Some rest => (rest, false)
                   | None => (spec, true)
                   end in
            match loadAsFileOrDir fuel f (Path.clean spec) with
            | None => None
            | Some (Ok r) => Some (Ok r)
            | Some (Err _) =>
                if bare then
                  match resolveSelfReference range fuel f conds spec parent with
                  | None => None
                  | Some (Some r) => Some (Ok r)
                  | Some None => resolveBareSpecifier range fuel f conds spec parent
                  end
                else Some (Err (ECannotResolveFrom specifier parent))
            end
      end
  end.

End Files.

(** ** What resolution answers: files *)

Section ResolvedFiles.
Context {F : Type} `{WritableFS F}.
Variable range : gmap bytes json → list (bytes * json).
Variable fsys : F.

(** A resolution that names a file, classified by [finish]. *)
Definition file_res (r : resolution) : Prop :=
  isFile fsys (RPath r) = true ∧ r = finish fsys (RPath r).

Lemma finish_path p : RPath (finish fsys p) = p.
Proof. unfold finish. repeat case_match; done. Qed.

Lemma finish_core p : Core (finish fsys p) = [].
Proof. unfold finish. repeat case_match; done. Qed.

Lemma find_file_res cands c : find_file fsys cands = Some c → file_res (finish fsys c).
Proof.
  intros [_ Hf]%List.find_some. unfold file_res. by rewrite finish_path.
Qed.

Lemma try_entries_res (ld : bytes → option (result rerr resolution)) p es r :
  (∀ q r, ld q = Some (Ok r) → file_res r) →
  try_entries ld p es = Some (Some r) → file_res r.
Proof.
  intros Hl. induction es as [|e es IH]; simpl; [done|]. intros Ht.
  repeat case_match; simplify_eq; eauto.
Qed.

Lemma load_res fuel p r : loadAsFileOrDir fuel fsys p = Some (Ok r) → file_res r.
Proof.
  revert p r. induction fuel as [|fuel IH]; cbn [loadAsFileOrDir]; intros p r Hr; [done|].
  repeat case_match; simplify_eq; eauto using find_file_res, try_entries_res.
Qed.

Lemma self_reference_res fuel conds name sub dirs r :
  self_reference_loop range fuel fsys conds name sub dirs = Some (Some r) → file_res r.
Proof.
  unfold self_reference_loop, load. induction dirs as [|d dirs IH]; simpl; [done|]. intros Hr.
  repeat case_match; simplify_eq; eauto using load_res.
Qed.

Lemma package_res fuel conds dir sub r :
  resolvePackage range fuel fsys conds dir sub = Some (Ok r) → file_res r.
Proof.
  unfold resolvePackage, load. intros Hr. repeat case_match; simplify_eq; eauto using load_res, try_entries_res.
Qed.

Lemma bare_res fuel conds spec parent r :
  resolveBareSpecifier range fuel fsys conds spec parent = Some (Ok r) → file_res r.
Proof.
  unfold resolveBareSpecifier. destruct (splitBare spec) as [name sub].
  induction (ancestorDirs _) as [|d dirs IH]; simpl; [done|]. intros Hr.
  case_match; eauto using package_res.
Qed.

Lemma hash_res fuel conds spec parent r :
  resolveHashImport range fuel fsys conds spec parent = Some (Ok r) → file_res r.
Proof.
  unfold resolveHashImport, load. intros Hr.
  repeat case_match; simplify_eq; eauto using load_res, bare_res.
Qed.

Lemma self_res fuel conds spec parent r :
  resolveSelfReference range fuel fsys conds spec parent = Some (Some r) → file_res r.
Proof. unfold resolveSelfReference. case_match. eauto using self_reference_res. Qed.

(** Everything that is not a core module comes from the file system. *)
Lemma module_res fuel spec parent cjs r :
  cut_prefix spec (lit "node:") = None → isCore spec = false →
  resolveModule range fuel (Some fsys) spec parent cjs = Some (Ok r) → file_res r.
Proof.
  unfold resolveModule. intros -> ->. intros Hr.
  repeat case_match; simplify_eq; eauto using load_res, bare_res, hash_res, self_res.
Qed.

End ResolvedFiles.

(** ** Core modules *)

Section CoreModules.
Context {F : Type} `{WritableFS F}.

Lemma core_plain name :
  name ∈ coreModules → name ≠ [] ∧ cut_prefix name (lit "node:") = None.
Proof.
  intros Hn%list_elem_of_In.
  assert (Hall : forallb (fun n => negb (bool_decide (n = [])) &&
    bool_decide (cut_prefix n (lit "node:") = None)) coreModules = true) by (vm_compute; reflexivity).
  apply (proj1 (forallb_forall _ _) Hall) in Hn. by bool_to_prop.
Qed.

Lemma core_name (range : gmap bytes json → list (bytes * json)) fuel (fsys : option F) spec parent cjs r :
  resolveModule range fuel fsys spec parent cjs = Some (Ok r) →
  (∃ name, cut_prefix spec (lit "node:") = Some name) ∨ isCore spec = true →
  Core r ≠ [] ∧ ∃ name, name ∈ coreModules ∧ (spec = name ∨ spec = lit "node:" ++ name) ∧
                        r = MkRes name [] kindESM false.
Proof.
  unfold resolveModule. destruct (cut_prefix spec (lit "node:")) as [name|] eqn:Ecut.
  - intros Hr _. unfold isCore in Hr. case_bool_decide as Hn; simplify_eq.
    split; [by apply core_plain|]. exists name. split_and!; [done| |done]. right. by apply cut_prefix_Some.
  - intros Hr [[??]|Hc]; [done|]. rewrite Hc in Hr. simplify_eq. apply bool_decide_eq_true in Hc.
    split; [by apply core_plain|]. exists spec. by split_and!; [|left|].
Qed.

(** Core modules are decided by name alone, before any file is looked
    at: a specifier resolves to the core module [name] exactly when it is
    [name] or node:[name] for one of the implemented builtins - whatever the
    file system holds, and with none at all - so no package can shadow one;
    and an unknown node: name is an error, never a file. *)
Theorem core_modules_win (range : gmap bytes json → list (bytes * json)) (fuel : nat)
    (fsys : option F) (spec parent : bytes) (cjs : bool) (r : resolution) :
  (resolveModule range fuel fsys spec parent cjs = Some (Ok r) ∧ Core r ≠ [] ↔
   ∃ name, name ∈ coreModules ∧ (spec = name ∨ spec = lit "node:" ++ name) ∧
           r = MkRes name [] kindESM false) ∧
  (∀ name, spec = lit "node:" ++ name → name ∉ coreModules →
   resolveModule range fuel fsys spec parent cjs = Some (Err (EUnknownBuiltin spec))).
Proof.
  split; [split|].
  - intros [Hr Hc].
    destruct (cut_prefix spec (lit "node:")) as [name|] eqn:Ecut; [|destruct (isCore spec) eqn:Ecore].
    + eapply core_name; [exact Hr|]. left. by exists name.
    + eapply core_name; [exact Hr|]. by right.
    + destruct fsys as [f|]; [|unfold resolveModule in Hr; by rewrite Ecut, Ecore in Hr].
      destruct (module_res _ _ _ _ _ _ _ Ecut Ecore Hr) as [_ Hf]. rewrite Hf, finish_core in Hc. done.
  - intros (name & Hn & Hs & ->). destruct (core_plain name Hn) as [Hne Hcut]. split; [|done].
    unfold resolveModule, isCore. destruct Hs as [-> | ->].
    + by rewrite Hcut, bool_decide_true.
    + by rewrite cut_prefix_app, bool_decide_true.
  - intros name -> Hn. unfold resolveModule, isCore. by rewrite cut_prefix_app, bool_decide_false.
Qed.

End CoreModules.

(** ** Subpath patterns *)

Lemma index_byte_split s c n : index_byte s c = Some n → s = take n s ++ c :: drop (S n) s.
Proof.
  revert n. induction s as [|d s IH]; simpl; intros n Hn; [done|].
  destruct (Z.eqb_spec d c) as [->|]; simplify_eq; [done|].
  destruct (index_byte s c) as [k|] eqn:E; simplify_eq/=. f_equal. by apply IH.
Qed.

Lemma suffix_drop (s p : bytes) : p `suffix_of` s → p = drop (length s - length p) s.
Proof.
  intros [k ->]. rewrite length_app. replace (length k + length p - length p)%nat with (length k) by lia.
  by rewrite drop_app_length.
Qed.

(** A matching pattern is determined by its key and its two lengths. *)
Lemma match_pattern_spec key pat pl sl :
  match_pattern key pat = Some (pl, sl) →
  pat = take pl key ++ ch_star :: drop (length key - sl) key ∧ (pl + sl < length key)%nat.
Proof.
  unfold match_pattern. destruct (index_byte pat ch_star) as [n|] eqn:E; simpl; [|done].
  pose proof (index_byte_split _ _ _ E) as Hs.
  set (pre := take n pat) in *. set (suf := drop (S n) pat) in *.
  destruct (contains_byte suf ch_star); [done|].
  destruct (has_prefix key pre) eqn:Hp; [|done]. destruct (has_suffix key suf) eqn:Hsu; [|done]. simpl.
  destruct (Nat.leb_spec (length key) (length pre + length suf)); [done|]. intros [= <- <-].
  apply bool_decide_eq_true in Hsu. apply suffix_drop in Hsu as Hsu'. rewrite <-Hsu'.
  apply has_prefix_spec in Hp as [r Hr].
  split; [|lia]. rewrite Hr, take_app_length. exact Hs.
Qed.

Lemma match_pattern_inj key p1 p2 l : match_pattern key p1 = Some l → match_pattern key p2 = Some l → p1 = p2.
Proof. destruct l. by intros [-> _]%match_pattern_spec [-> _]%match_pattern_spec. Qed.

Definition captured (key : bytes) (l : nat * nat) : bytes := drop l.1 (take (length key - l.2) key).

Lemma captured_spec key pat pl sl :
  match_pattern key pat = Some (pl, sl) →
  captured key (pl, sl) ≠ [] ∧
  key = take pl key ++ captured key (pl, sl) ++ drop (length key - sl) key.
Proof.
  intros [_ Hl]%match_pattern_spec. unfold captured. simpl. split.
  - intros Hn. apply (f_equal length) in Hn. rewrite length_drop, length_take in Hn. simpl in Hn. lia.
  - rewrite app_assoc. rewrite <-(take_drop (length key - sl) key) at 1. f_equal.
    rewrite <-(take_drop pl (take (length key - sl) key)) at 1. f_equal.
    rewrite take_take. f_equal. lia.
Qed.

(** The order on matches: longer prefix first, then longer suffix. *)
Definition worse (l' l : nat * nat) : Prop := (l'.1 < l.1 ∨ l'.1 = l.1 ∧ l'.2 <= l.2)%nat.

Definition best_inv (key : bytes) (es : list (bytes * json)) (b : best) : Prop :=
  (b = MkBest [] [] (-1) (-1) ∧ ∀ e, e ∈ es → match_pattern key e.1 = None) ∨
  (∃ e l, e ∈ es ∧ match_pattern key e.1 = Some l ∧
     b = MkBest e.1 (captured key l) (Z.of_nat l.1) (Z.of_nat l.2) ∧
     ∀ e' l', e' ∈ es → match_pattern key e'.1 = Some l' → worse l' l).

Lemma best_of_inv key es : best_inv key es (best_of key es).
Proof.
  unfold best_of. induction es as [|e es IH] using rev_ind.
  { left. split; [done|]. intros e He. by apply not_elem_of_nil in He. }
  rewrite foldl_app. simpl. unfold best_step at 1.
  destruct (match_pattern key e.1) as [[pl sl]|] eqn:Em.
  - destruct IH as [[-> Hn]|(e0 & l & He0 & Hm0 & -> & Hb)]; simpl.
    + rewrite (proj2 (Z.ltb_lt _ _)) by lia. simpl. right. exists e, (pl, sl).
      split_and!; [set_solver|done|done|]. intros e' l' [He'|He']%elem_of_app Hl'.
      * by rewrite Hn in Hl'.
      * apply list_elem_of_singleton in He' as ->. rewrite Em in Hl'. simplify_eq. right. simpl. lia.
    + destruct (orb _ _) eqn:Eo.
      * right. exists e, (pl, sl). split_and!; [set_solver|done|done|].
        assert (Hw : worse l (pl, sl)).
        { apply orb_true_iff in Eo as [?|?]; bool_to_prop; unfold worse; simpl; lia. }
        intros e' l' [He'|He']%elem_of_app Hl'.
        -- specialize (Hb _ _ He' Hl'). unfold worse in *. lia.
        -- apply list_elem_of_singleton in He' as ->. rewrite Em in Hl'. simplify_eq. right. simpl. lia.
      * right. exists e0, l. split_and!; [set_solver|done|done|].
        intros e' l' [He'|He']%elem_of_app Hl'; [by eauto|].
        apply list_elem_of_singleton in He' as ->. rewrite Em in Hl'. simplify_eq.
        apply orb_false_iff in Eo as [H1 H2]. unfold worse. simpl. bool_to_prop.
        apply andb_false_iff in H2 as [H2|H2]; bool_to_prop; lia.
  - destruct IH as [[-> Hn]|(e0 & l & He0 & Hm0 & -> & Hb)].
    + left. split; [done|]. intros e' [He'|He']%elem_of_app; [by apply Hn|].
      by apply list_elem_of_singleton in He' as ->.
    + right. exists e0, l. split_and!; [set_solver|done|done|].
      intros e' l' [He'|He']%elem_of_app Hl'; [by eauto|].
      apply list_elem_of_singleton in He' as ->. congruence.
Qed.

(** Which loop result a set of entries allows does not depend on their order. *)
Lemma best_of_unique key es b :
  best_inv key es b → best_of key es = b.
Proof.
  intros Hb. pose proof (best_of_inv key es) as Hb'. revert Hb'. generalize (best_of key es). intros b'.
  destruct Hb as [[-> Hn]|(e & l & He & Hm & -> & Hw)];
    intros [[-> Hn']|(e' & l' & He' & Hm' & -> & Hw')]; [done| | |].
  - by rewrite Hn in Hm'.
  - by rewrite Hn' in Hm.
  - assert (l' = l) as ->.
    { specialize (Hw _ _ He' Hm'). specialize (Hw' _ _ He Hm). destruct l, l'.
      unfold worse in *. simpl in *. f_equal; lia. }
    by rewrite (match_pattern_inj _ _ _ _ Hm' Hm).
Qed.

Lemma best_of_perm key es es' : es ≡ₚ es' → best_of key es = best_of key es'.
Proof.
  intros Hp. apply best_of_unique.
  destruct (best_of_inv key es') as [[-> Hn]|(e & l & He & Hm & -> & Hw)].
  - left. split; [done|]. intros e He. apply Hn. by rewrite <-Hp.
  - right. exists e, l. split_and!; [by rewrite Hp|done|done|]. intros e' l' He'. apply Hw. by rewrite <-Hp.
Qed.

Lemma best_of_exact (range : gmap bytes json → list (bytes * json)) (m : gmap bytes json) key pat v l :
  range m ≡ₚ map_to_list m → m !! pat = Some v → match_pattern key pat = Some l →
  (∀ pat' v' l', m !! pat' = Some v' → match_pattern key pat' = Some l' → worse l' l) →
  best_of key (range m) = MkBest pat (captured key l) (Z.of_nat l.1) (Z.of_nat l.2).
Proof.
  intros Hp Hv Hm Hb. apply best_of_unique. right. exists (pat, v), l. split_and!; [|done|done|].
  - rewrite Hp. by apply elem_of_map_to_list.
  - intros [p' v'] l' He' Hl'. rewrite Hp in He'. apply elem_of_map_to_list in He'. eauto.
Qed.

Lemma match_pattern_ne key pat l : match_pattern key pat = Some l → pat ≠ [].
Proof. destruct l. intros [-> _]%match_pattern_spec. by destruct (take _ _). Qed.

(** C6: Subpath patterns are resolved by Node's rule in whatever order Go
    visits the map: an exact key wins; otherwise, of the patterns that match,
    the one with the longest literal prefix, then the longest suffix, is
    used, with exactly the non-empty middle of the key substituted for the
    star. *)
Theorem subpath_best_pattern (range : gmap bytes json → list (bytes * json))
    (m : gmap bytes json) (key : bytes) (conds : list bytes)
    (Hperm : range m ≡ₚ map_to_list m) :
  (∀ v, m !! key = Some v → resolveSubpathMap range m key conds = resolveConditions conds v) ∧
  (∀ pat v l, m !! key = None → m !! pat = Some v → match_pattern key pat = Some l →
    (∀ pat' v' l', m !! pat' = Some v' → match_pattern key pat' = Some l' → worse l' l) →
    ∃ star, star ≠ [] ∧ key = take l.1 key ++ star ++ drop (length key - l.2) key ∧
      pat = take l.1 key ++ ch_star :: drop (length key - l.2) key ∧
      resolveSubpathMap range m key conds =
        if existsb bad_segment (split ch_slash star) then Err (EInvalidSubpath key)
        else let! target := resolveConditions conds v in Ok (replace_star target star)) ∧
  (m !! key = None → (∀ pat v, m !! pat = Some v → match_pattern key pat = None) →
    resolveSubpathMap range m key conds = Err (ENoEntry key)).
Proof.
  unfold resolveSubpathMap. split_and!.
  - by intros v ->.
  - intros pat v l -> Hv Hm Hb. exists (captured key l). destruct l as [pl sl]. simpl.
    destruct (captured_spec _ _ _ _ Hm) as [Hne Hk]. destruct (match_pattern_spec _ _ _ _ Hm) as [Hpat _].
    split_and!; [done..|].
    rewrite (best_of_exact _ _ _ _ _ _ Hperm Hv Hm Hb). simpl.
    rewrite bool_decide_false by by eapply match_pattern_ne. by rewrite Hv.
  - intros -> Hn. rewrite (best_of_unique _ _ (MkBest [] [] (-1) (-1))); [done|].
    left. split; [done|]. intros [p v] He. rewrite Hperm in He. apply elem_of_map_to_list in He. eauto.
Qed.

Lemma subpath_best_pattern_witness :
  let m := list_to_map [(lit "./*", JStr (lit "./src/*.js")); (lit "./lib/*", JStr (lit "./l/*"));
                        (lit "./lib/*.js", JStr (lit "./js/*"))] : gmap bytes json in
  resolveSubpathMap map_to_list m (lit "./lib/a/b.js") [] = Ok (lit "./js/a/b") ∧
  resolveSubpathMap map_to_list m (lit "./lib/../b") [] = Err (EInvalidSubpath (lit "./lib/../b")).
Proof.
  intros m. split; [|vm_compute; reflexivity].
  destruct (proj1 (proj2 (subpath_best_pattern map_to_list m (lit "./lib/a/b.js") [] (reflexivity _)))
              (lit "./lib/*.js") (JStr (lit "./js/*")) (6, 3)%nat) as (star & _ & Hk & _ & Hr).
  - vm_compute. reflexivity.
  - vm_compute. reflexivity.
  - vm_compute. reflexivity.
  - intros pat' v' l' Hp Hm. unfold m in Hp. simpl in Hp. rewrite !lookup_insert_Some in Hp.
    destruct Hp as [[<- _]|[_ [[<- _]|[_ [[<- _]|[_ Hp]]]]]]; [..|by apply lookup_empty_Some in Hp];
      vm_compute in Hm; injection Hm as <-; unfold worse; simpl; lia.
  - assert (star = lit "a/b") as ->.
    { apply (app_inv_head (lit "./lib/")), (app_inv_tail (lit ".js")). symmetry.
      rewrite <-app_assoc. exact Hk. }
    rewrite Hr. vm_compute. reflexivity.
Defined.

Definition dotted (k : bytes) : bool := has_prefix k (lit ".").

Lemma isSubpathMap_uniform (range : gmap bytes json → list (bytes * json)) (m : gmap bytes json) (b : bool) :
  range m ≡ₚ map_to_list m → m ≠ ∅ → (∀ k v, m !! k = Some v → dotted k = b) → isSubpathMap range m = b.
Proof.
  intros Hp Hne Hu. unfold isSubpathMap. destruct (range m) as [|[k v] es] eqn:E.
  - apply Permutation_nil in Hp. by apply map_to_list_empty_iff in Hp.
  - apply (Hu k v). apply elem_of_map_to_list. rewrite <-Hp. set_solver.
Qed.

(** Resolution of "exports" does not depend on Go's map iteration order
    when every key starts with a dot or none does - as Node requires - so an
    import resolves the same way every time. With mixed keys it does depend
    on it: which reading the object gets is decided by the key the loop
    happens to see first. *)
Theorem exports_order (range1 range2 : gmap bytes json → list (bytes * json))
    (Hp1 : ∀ m, range1 m ≡ₚ map_to_list m) (Hp2 : ∀ m, range2 m ≡ₚ map_to_list m)
    (exports : json) (subpath : bytes) (conds : list bytes) (b : bool)
    (Huniform : ∀ m k v, rawObject exports = Some m → m !! k = Some v → dotted k = b) :
  resolveExports range1 exports subpath conds = resolveExports range2 exports subpath conds.
Proof.
  unfold resolveExports. destruct (rawObject exports) as [m|] eqn:Em; [|done].
  assert (Hs : isSubpathMap range1 m = isSubpathMap range2 m).
  { destruct (decide (m = ∅)) as [->|Hne].
    - unfold isSubpathMap. specialize (Hp1 ∅). specialize (Hp2 ∅).
      rewrite map_to_list_empty in Hp1, Hp2. symmetry in Hp1, Hp2.
      apply Permutation_nil in Hp1, Hp2. by rewrite Hp1, Hp2.
    - rewrite !(isSubpathMap_uniform _ _ b); eauto. }
  rewrite Hs. destruct (isSubpathMap range2 m); [|done].
  unfold resolveSubpathMap. rewrite (best_of_perm _ (range1 m) (range2 m)); [done|].
  by rewrite Hp1, Hp2.
Qed.

Definition mixed_exports : json :=
  JObj [(lit ".", JStr (lit "./a.js")); (lit "import", JStr (lit "./b.js"))].

Lemma exports_order_witness :
  let rev_range (m : gmap bytes json) := rev (map_to_list m) in
  let ok := JObj [(lit ".", JStr (lit "./a.js")); (lit "./*", JStr (lit "./s/*"))] in
  resolveExports map_to_list ok (lit "x") esmConditions = resolveExports rev_range ok (lit "x") esmConditions ∧
  resolveExports map_to_list mixed_exports [] esmConditions
    ≠ resolveExports rev_range mixed_exports [] esmConditions.
Proof.
  intros rev_range ok. split.
  - apply (exports_order _ _) with (b := true).
    + done.
    + intros m. symmetry. apply Permutation_rev.
    + intros m k v Hm Hk. simpl in Hm. injection Hm as <-.
      rewrite !lookup_insert_Some in Hk.
      destruct Hk as [[<- _]|[_ [[<- _]|[_ Hk]]]]; [vm_compute; reflexivity..|by apply lookup_empty_Some in Hk].
  - vm_compute. discriminate.
Defined.

(** ** Conditions *)

(** Node's rule, as relations: what a target resolves to, and when it does
    not resolve. *)
Set Warnings "-register-all".
Inductive Resolves (conds : list bytes) : json → bytes → Prop :=
| R_string s : Resolves conds (JStr s) s
| R_object pre k v post s :
    k ∈ conds → Resolves conds v s → Forall (fun kv => kv.1 ∈ conds → Fails conds kv.2) pre →
    Resolves conds (JObj (pre ++ (k, v) :: post)) s
| R_array pre v post s :
    Resolves conds v s → Forall (Fails conds) pre → Resolves conds (JArr (pre ++ v :: post)) s
with Fails (conds : list bytes) : json → Prop :=
| F_null : Fails conds JNull
| F_bool b : Fails conds (JBool b)
| F_number n : Fails conds (JNum n)
| F_object kvs : Forall (fun kv => kv.1 ∈ conds → Fails conds kv.2) kvs → Fails conds (JObj kvs)
| F_array items : Forall (Fails conds) items → Fails conds (JArr items).

Definition conditions_ok (conds : list bytes) (v : json) : Prop :=
  (∀ s, resolveConditions conds v = Ok s ↔ Resolves conds v s) ∧
  ((∃ e, resolveConditions conds v = Err e) ↔ Fails conds v).

Lemma cons_app_inv {A} (x : A) l pre y post :
  x :: l = pre ++ y :: post →
  (pre = [] ∧ y = x ∧ post = l) ∨ ∃ pre', pre = x :: pre' ∧ l = pre' ++ y :: post.
Proof. destruct pre as [|z pre]; simpl; intros [= -> ->]; [left|right]; eauto. Qed.

Lemma Fails_array conds items : Fails conds (JArr items) ↔ Forall (Fails conds) items.
Proof. split; [by inversion 1|by constructor]. Qed.

Lemma Fails_object conds kvs :
  Fails conds (JObj kvs) ↔ Forall (fun kv => kv.1 ∈ conds → Fails conds kv.2) kvs.
Proof. split; [by inversion 1|by constructor]. Qed.

Lemma conditions_array conds items :
  Forall (conditions_ok conds) items → conditions_ok conds (JArr items).
Proof.
  intros Hf. unfold conditions_ok. cbn [resolveConditions]. split.
  - induction Hf as [|v items [Hok Herr] Hf IH]; intros s.
    { split; [done|]. inversion 1. by destruct pre. }
    simpl. destruct (resolveConditions conds v) as [t|e] eqn:E; [|rewrite (IH s)]; split.
    + intros [= <-]. apply (R_array _ [] v items); [by apply Hok|done].
    + inversion 1 as [| |pre w post ? Hw Hpre Heq]. symmetry in Heq.
      apply cons_app_inv in Heq as [(-> & -> & ->)|(pre' & -> & ->)].
      * apply Hok in Hw. congruence.
      * apply Forall_cons in Hpre as [Hv _]. apply Herr in Hv as [e He]. congruence.
    + inversion 1 as [| |pre w post ? Hw Hpre]; subst. apply (R_array _ (v :: pre)); [done|].
      constructor; [apply Herr; eauto|done].
    + inversion 1 as [| |pre w post ? Hw Hpre Heq]. symmetry in Heq.
      apply cons_app_inv in Heq as [(-> & -> & ->)|(pre' & -> & ->)].
      * apply Hok in Hw. congruence.
      * apply Forall_cons in Hpre as [_ Hpre]. by constructor.
  - rewrite Fails_array. induction Hf as [|v items [Hok Herr] Hf IH]; [by split; eauto|].
    rewrite Forall_cons, <-IH, <-Herr. simpl. destruct (resolveConditions conds v); [|naive_solver].
    split; [by intros [??]|by intros [[??] _]].
Qed.

Lemma conditions_object conds kvs :
  Forall (fun kv => conditions_ok conds kv.2) kvs → conditions_ok conds (JObj kvs).
Proof.
  intros Hf. unfold conditions_ok. cbn [resolveConditions].
  generalize (@nil bytes) as have. intros have. split.
  - revert have. induction Hf as [|[k v] kvs [Hok Herr] Hf IH]; intros have s.
    { split; [done|]. inversion 1. by destruct pre. }
    cbn [snd] in *. simpl. case_bool_decide as Hk;
      [destruct (resolveConditions conds v) as [t|e] eqn:E|]; [|rewrite (IH _ s)..]; split.
    + intros [= <-]. apply (R_object _ [] k v kvs); [done|by apply Hok|done].
    + inversion 1 as [|pre k' w post ? Hk' Hw Hpre Heq|]. symmetry in Heq.
      apply cons_app_inv in Heq as [(-> & [= -> ->] & ->)|(pre' & -> & ->)].
      * apply Hok in Hw. congruence.
      * apply Forall_cons in Hpre as [Hv _]. apply Herr in Hv as [e He]; [congruence|done].
    + inversion 1 as [|pre k' w post ? Hk' Hw Hpre|]; subst. apply (R_object _ ((k, v) :: pre)); [done..|].
      constructor; [intros _; apply Herr; eauto|done].
    + inversion 1 as [|pre k' w post ? Hk' Hw Hpre Heq|]. symmetry in Heq.
      apply cons_app_inv in Heq as [(-> & [= -> ->] & ->)|(pre' & -> & ->)].
      * apply Hok in Hw. congruence.
      * apply Forall_cons in Hpre as [_ Hpre]. by constructor.
    + inversion 1 as [|pre k' w post ? Hk' Hw Hpre|]; subst. apply (R_object _ ((k, v) :: pre)); [done..|].
      by constructor.
    + inversion 1 as [|pre k' w post ? Hk' Hw Hpre Heq|]. symmetry in Heq.
      apply cons_app_inv in Heq as [(-> & [= -> ->] & ->)|(pre' & -> & ->)]; [done|].
      apply Forall_cons in Hpre as [_ Hpre]. by constructor.
  - rewrite Fails_object. revert have.
    induction Hf as [|[k v] kvs [Hok Herr] Hf IH]; intros have; [by split; eauto|].
    rewrite Forall_cons, <-(IH (have ++ [k])). cbn [fst snd] in *. rewrite <-Herr. simpl.
    case_bool_decide; [|naive_solver]. destruct (resolveConditions conds v); [|naive_solver].
    split; [by intros [??]|]. intros [[??] _]; done.
Qed.

(** C7: The target of an "exports" or "imports" entry is Node's: a
    conditions object resolves to [s] exactly when some enabled key of it
    does and every enabled key before it, in package.json order, fails; a
    fallback array to its first element that resolves; and it is an error
    exactly when everything enabled fails, at every depth of nesting. *)
Theorem resolveConditions_spec (conds : list bytes) (v : json) :
  (∀ s, resolveConditions conds v = Ok s ↔ Resolves conds v s) ∧
  ((∃ e, resolveConditions conds v = Err e) ↔ Fails conds v).
Proof.
  induction v as [|b|n|s|l IH|kvs IH] using json_nested_ind.
  - split; [intros s; split; [done|by inversion 1]|split; [constructor|eauto]].
  - split; [intros s; split; [done|by inversion 1]|split; [constructor|eauto]].
  - split; [intros s; split; [done|by inversion 1]|split; [constructor|eauto]].
  - split; [intros t; split; [intros [= <-]; constructor|by inversion 1]|].
    split; [by intros [??]|by inversion 1].
  - by apply conditions_array.
  - by apply conditions_object.
Qed.

(** ** Ancestor directories *)

(** The stacks path.Clean works with: no empty or "." segment, and ".." only
    at the bottom of a path that is not rooted. *)
Fixpoint clean_stack (r : bool) (stk : list bytes) : Prop :=
  match stk with
  | [] => True
  | w :: stk' =>
      w ≠ [] ∧ w ≠ lit "." ∧ (ch_slash ∉ w) ∧
      (w = lit ".." → r = false ∧ Forall (fun v => v = lit "..") stk') ∧ clean_stack r stk'
  end.

(** The cleaned name of the segments in a stack. *)
Definition stack_name (r : bool) (stk : list bytes) : bytes :=
  if r then ch_slash :: join ch_slash (rev stk) else seg_name (rev stk).

(** The stack, then the stack without its top, down to the empty one. *)
Fixpoint tails (stk : list bytes) : list (list bytes) :=
  stk :: match stk with [] => [] | _ :: stk' => tails stk' end.

Lemma clean_step_stack r stk w : (ch_slash ∉ w) → clean_stack r stk → clean_stack r (Path.clean_step r stk w).
Proof.
  unfold Path.clean_step. intros Hw Hs. repeat case_bool_decide; [done| |].
  - subst w. destruct stk as [|t stk]; [by destruct r|]. case_bool_decide as Ht; [|by destruct Hs as (_&_&_&_&?)].
    pose proof Hs as (_ & _ & _ & Hd & _). destruct (Hd Ht) as [Hr Hall].
    split; [done|split; [done|split; [done|split; [|done]]]]. intros _. split; [done|]. by constructor.
  - simpl. split_and!; try done; tauto.
Qed.

Lemma clean_segs_stack p : clean_stack (Path.rooted p) (rev (Path.clean_segs p)).
Proof.
  unfold Path.clean_segs. rewrite rev_involutive. generalize (Path.rooted p) as r. intros r.
  assert (Hf : Forall (fun w => ch_slash ∉ w) (split ch_slash p)) by (apply Forall_forall, split_no_sep).
  assert (Ha : clean_stack r []) by done. revert Ha. generalize (@nil bytes) as acc.
  induction Hf as [|w ws Hw Hf IH]; simpl; intros acc Ha; [done|]. apply IH. by apply clean_step_stack.
Qed.

Lemma clean_name p : Path.clean p = stack_name (Path.rooted p) (rev (Path.clean_segs p)).
Proof.
  unfold Path.clean, stack_name. rewrite rev_involutive. destruct (Path.rooted p); [done|].
  by destruct (Path.clean_segs p).
Qed.

(** A clean stack is a fixed point of the steps of path.Clean. *)
Lemma clean_stack_fold r stk : clean_stack r stk → foldl (Path.clean_step r) [] (rev stk) = stk.
Proof.
  induction stk as [|w stk IH]; simpl; [done|]. intros (Hw & Hd & Hs & Hdd & Hstk).
  rewrite foldl_app, IH by done. simpl. unfold Path.clean_step.
  rewrite bool_decide_false by tauto. case_bool_decide as He; [|done].
  destruct (Hdd He) as [-> Hall]. destruct stk as [|t stk]; [done|].
  apply Forall_cons in Hall as [-> _]. by rewrite bool_decide_true.
Qed.

Lemma clean_stack_slash r stk : clean_stack r stk → Forall (fun w => ch_slash ∉ w) (rev stk).
Proof.
  intros Hs. apply Forall_rev. induction stk as [|w stk IH]; [done|].
  destruct Hs as (_ & _ & ? & _ & ?). constructor; [done|by apply IH].
Qed.

Lemma clean_stack_head r stk : clean_stack r stk → head (join ch_slash (rev stk)) ≠ Some ch_slash.
Proof.
  intros Hs He. pose proof (clean_stack_slash _ _ Hs) as Hf.
  destruct (rev stk) as [|w ws] eqn:E; [done|]. apply Forall_cons in Hf as [Hw _].
  assert (w ≠ []).
  { assert (Hin : w ∈ rev stk) by (rewrite E; set_solver). apply list_elem_of_In, in_rev, list_elem_of_In in Hin.
    clear -Hs Hin. induction stk as [|v stk IH]; [by apply not_elem_of_nil in Hin|].
    destruct Hs as (? & _ & _ & _ & ?). apply elem_of_cons in Hin as [->|?]; auto. }
  destruct w as [|c w]; [done|]. assert (c = ch_slash) as ->; [|set_solver].
  destruct ws; simpl in He; congruence.
Qed.

(** Cleaning the path of a clean stack, with or without a slash at the end. *)
Lemma clean_of_stack r stk t :
  clean_stack r stk → t = [] ∨ t = [ch_slash] ∧ stk ≠ [] →
  Path.clean ((if r then [ch_slash] else []) ++ join ch_slash (rev stk) ++ t) = stack_name r stk.
Proof.
  intros Hs Ht. set (p := (if r then _ else _) ++ _).
  assert (Hr : Path.rooted p = r).
  { unfold p, Path.rooted. destruct r; [apply has_prefix_spec; by eexists|]. simpl.
    apply not_true_iff_false. intros [rest Hp]%has_prefix_spec.
    change (lit "/") with [ch_slash] in Hp. pose proof (clean_stack_head _ _ Hs) as Hh.
    destruct (join ch_slash (rev stk)) as [|c s] eqn:E; simpl in *; [|congruence].
    destruct Ht as [-> |[-> Hne]]; [done|].
    apply (f_equal (split ch_slash)) in E. rewrite split_join in E.
    - destruct stk as [|w stk]; [done|]. simpl in E. destruct (rev stk) as [|u us]; simpl in E; [|injection E as _ E; by destruct us].
      injection E as ->. by destruct Hs as (? & _).
    - intros Hn. apply Hne. by rewrite <-(rev_involutive stk), Hn.
    - by eapply clean_stack_slash. }
  assert (Hfold : foldl (Path.clean_step r) [] (split ch_slash p) = stk).
  { assert (Hbody : foldl (Path.clean_step r) [] (split ch_slash (join ch_slash (rev stk) ++ t)) = stk).
    { destruct (decide (stk = [])) as [->|Hne].
      - destruct Ht as [-> |[_ ?]]; done.
      - assert (rev stk ≠ []) by (intros Hn; apply Hne; by rewrite <-(rev_involutive stk), Hn).
        destruct Ht as [-> |[-> _]].
        + rewrite app_nil_r, split_join by (done || by eapply clean_stack_slash). by apply clean_stack_fold.
        + rewrite split_snoc, foldl_app, split_join
            by (done || (by eapply clean_stack_slash) || apply not_elem_of_nil).
          rewrite clean_stack_fold by done. done. }
    unfold p. destruct r; [|done]. exact Hbody. }
  unfold Path.clean, Path.clean_segs. rewrite Hr, Hfold. unfold stack_name.
  destruct r; [done|]. by destruct (rev stk).
Qed.

Lemma split_stack_name r w stk :
  clean_stack r (w :: stk) →
  split ch_slash (stack_name r (w :: stk)) = (if r then [[]] else []) ++ rev stk ++ [w].
Proof.
  intros Hs. assert (Hj : split ch_slash (join ch_slash (rev (w :: stk))) = rev stk ++ [w]).
  { apply split_join; [simpl; by destruct (rev stk)|exact (clean_stack_slash r (w :: stk) Hs)]. }
  unfold stack_name. destruct r; [by rewrite split_slash_cons, Hj|].
  rewrite seg_name_join by (simpl; by destruct (rev stk)). done.
Qed.

Lemma dir_stack r w stk : clean_stack r (w :: stk) → Path.dir (stack_name r (w :: stk)) = stack_name r stk.
Proof.
  intros Hs. unfold Path.dir, Path.dir_part. rewrite split_stack_name by done.
  rewrite app_assoc, rev_app_distr. cbn [rev app]. rewrite rev_app_distr, rev_involutive.
  destruct Hs as (_ & _ & _ & _ & Hs).
  destruct stk as [|v stk].
  - destruct r; done.
  - cbn [app].
    change (v :: stk ++ rev (if r then [[]] else [])) with ((v :: stk) ++ rev (if r then [[]] else [])).
    rewrite rev_app_distr, rev_involutive.
    assert (Hne : rev (v :: stk) ≠ []) by (simpl; by destruct (rev stk)).
    rewrite <-(clean_of_stack r (v :: stk) [ch_slash]) by (done || by right). f_equal.
    destruct r; [|done]. cbn [app]. destruct (rev (v :: stk)) as [|u us]; done.
Qed.

Lemma stack_name_root r stk :
  clean_stack r stk → stack_name r stk = lit "." ∨ stack_name r stk = lit "/" ↔ stk = [].
Proof.
  intros Hs. split; [|intros ->; destruct r; [by right|by left]].
  destruct stk as [|w stk]; [done|]. intros He. exfalso.
  pose proof (split_stack_name _ _ _ Hs) as Hsp. destruct Hs as (Hw & Hd & _).
  destruct He as [He|He]; rewrite He in Hsp; destruct r; cbn [app] in Hsp.
  - discriminate Hsp.
  - change (split ch_slash (lit ".")) with ([] ++ [lit "."]) in Hsp. apply app_inj_tail in Hsp as [_ Hsp]. congruence.
  - change (split ch_slash (lit "/")) with ([] :: [] ++ [@nil Z]) in Hsp. injection Hsp as Hsp.
    apply (app_inj_tail []) in Hsp as [_ Hsp]. congruence.
  - change (split ch_slash (lit "/")) with ([[]] ++ [@nil Z]) in Hsp. apply app_inj_tail in Hsp as [_ Hsp]. congruence.
Qed.

Lemma ancestor_loop_stack r stk fuel :
  clean_stack r stk → (length stk < fuel)%nat →
  ancestor_loop fuel (stack_name r stk) = Some (map (stack_name r) (tails stk)).
Proof.
  revert fuel. induction stk as [|w stk IH]; intros fuel Hs Hf; (destruct fuel as [|fuel]; [lia|]);
    cbn [ancestor_loop].
  - rewrite bool_decide_true by by apply stack_name_root. done.
  - rewrite bool_decide_false by by rewrite stack_name_root. rewrite dir_stack by done.
    destruct Hs as (_ & _ & _ & _ & Hs). rewrite IH by (done || (simpl in Hf; lia)). done.
Qed.

Lemma stack_name_length r stk : clean_stack r stk → (length stk <= length (stack_name r stk))%nat.
Proof.
  intros Hs. assert (Hj : (length stk <= length (join ch_slash (rev stk)))%nat).
  { induction stk as [|w stk IH]; [simpl; lia|]. destruct Hs as (Hw & _ & _ & _ & Hs). specialize (IH Hs).
    simpl. destruct w as [|c w]; [done|]. destruct (decide (rev stk = [])) as [E|E].
    - rewrite E. simpl. apply (f_equal length) in E. rewrite length_rev in E. simpl in E. lia.
    - rewrite join_snoc, length_app by done. simpl. lia. }
  unfold stack_name. destruct r; [simpl; lia|]. destruct (decide (stk = [])) as [->|Hne]; [simpl; lia|].
  rewrite seg_name_join; [done|]. intros E. apply Hne. by rewrite <-(rev_involutive stk), E.
Qed.

Lemma ancestors_tails dir :
  ancestor_loop (S (length (Path.clean dir))) (Path.clean dir) =
  Some (map (stack_name (Path.rooted dir)) (tails (rev (Path.clean_segs dir)))).
Proof.
  pose proof (clean_segs_stack dir) as Hs. rewrite clean_name.
  pose proof (stack_name_length _ _ Hs) as Hl. by rewrite ancestor_loop_stack by (done || lia).
Qed.

Lemma ancestorDirs_tails dir :
  ancestorDirs dir = map (stack_name (Path.rooted dir)) (tails (rev (Path.clean_segs dir))).
Proof. unfold ancestorDirs. by rewrite ancestors_tails. Qed.

(** For a name inside the file system the ancestors are its prefixes. *)
Lemma ancestorDirs_segs ws :
  good_segs ws → ancestorDirs (seg_name ws) = map (fun stk => seg_name (rev stk)) (tails (rev ws)).
Proof.
  intros Hg. rewrite ancestorDirs_tails.
  assert (Path.rooted (seg_name ws) = false) as ->.
  { destruct (decide (ws = [])) as [->|Hne]; [done|].
    rewrite <-(app_nil_r (seg_name ws)), seg_name_join by done. by apply join_not_rooted. }
  assert (Path.clean_segs (seg_name ws) = ws) as ->; [|done].
  unfold Path.clean_segs. destruct (decide (ws = [])) as [->|Hne]; [done|].
  rewrite seg_name_join, good_segs_split, clean_fold_good by done. by rewrite app_nil_r, rev_involutive.
Qed.

(** ancestorDirs comes to an end for every path whatsoever and lists
    exactly the cleaned directory and each of its ancestors, nearest first,
    down to the root. *)
Theorem ancestorDirs_exact (dir : bytes) :
  ancestor_loop (S (length (Path.clean dir))) (Path.clean dir) = Some (ancestorDirs dir) ∧
  ancestorDirs dir = map (stack_name (Path.rooted dir)) (tails (rev (Path.clean_segs dir))).
Proof. by rewrite ancestors_tails, ancestorDirs_tails. Qed.

(** *** The node_modules walk-up *)

(** A bare import finds the package in the nearest node_modules: if
    [pkg]/node_modules/name exists for the directory [pkg] above (or at) the
    importing module and for no directory between, that package - and only
    that one - answers, for names with and without a scope; if it exists
    nowhere above, the import fails. *)
Theorem bare_nearest `{WritableFS F} (range : gmap bytes json → list (bytes * json)) (fuel : nat)
    (fsys : F) (conds : list bytes) (spec parent : bytes) (pkg between : list bytes)
    (Hgood : good_segs (pkg ++ between)) (Hparent : Path.dir parent = seg_name (pkg ++ between))
    (Hbetween : ∀ us vs, between = us ++ vs → us ≠ [] →
       is_ok (fs_stat fsys (Path.joins [seg_name (pkg ++ us); lit "node_modules"; (splitBare spec).1])) = false) :
  resolveBareSpecifier range fuel fsys conds spec parent =
  let pkgDir := Path.joins [seg_name pkg; lit "node_modules"; (splitBare spec).1] in
  if is_ok (fs_stat fsys pkgDir) then resolvePackage range fuel fsys conds pkgDir (splitBare spec).2
  else bare_loop range fuel fsys conds (splitBare spec).1 (splitBare spec).2 parent
         (map (fun stk => seg_name (rev stk)) (tail (tails (rev pkg)))).
Proof.
  unfold resolveBareSpecifier. rewrite Hparent, ancestorDirs_segs by done.
  destruct (splitBare spec) as [name sub]. cbn [fst snd] in *. clear Hgood Hparent.
  rewrite rev_app_distr.
  assert (Htop : ∀ t s, rev between = s ++ t → t ≠ [] →
    is_ok (fs_stat fsys (Path.joins [seg_name (pkg ++ rev t); lit "node_modules"; name])) = false).
  { intros t s Heq Hne. apply (Hbetween (rev t) (rev s)).
    - by rewrite <-rev_app_distr, <-Heq, rev_involutive.
    - intros Hn. apply Hne. by rewrite <-(rev_involutive t), Hn. }
  clear Hbetween. induction (rev between) as [|w top IH].
  - cbn [app]. destruct (rev pkg) as [|u stk] eqn:E; cbn [tails map bare_loop tail];
      rewrite <-E, rev_involutive; by destruct (fs_stat _ _).
  - cbn [app tails map bare_loop]. pose proof (Htop (w :: top) [] eq_refl ltac:(done)) as Hw.
    assert (rev (w :: top ++ rev pkg) = pkg ++ rev (w :: top)) as ->.
    { cbn [rev]. by rewrite rev_app_distr, rev_involutive, <-app_assoc. }
    destruct (fs_stat fsys (Path.joins [seg_name (pkg ++ rev (w :: top)); _; _])); [done|].
    apply IH. intros t s ->. by apply (Htop t (w :: s)).
Qed.

(** ** Captured segments stay in the package *)

Lemma split_app_mid sep a b :
  ∃ ia la hb tb, split sep a = ia ++ [la] ∧ split sep b = hb :: tb ∧
                 split sep (a ++ b) = ia ++ (la ++ hb) :: tb.
Proof.
  induction a as [|c a (ia & la & hb & tb & Ha & Hb & Hab)]; simpl.
  - pose proof (split_not_nil sep b). destruct (split sep b) as [|hb tb] eqn:E; [done|].
    by exists [], [], hb, tb.
  - destruct (c =? sep).
    + exists ([] :: ia), la, hb, tb. by rewrite Ha, Hab.
    + rewrite Ha, Hab. destruct ia as [|w ia]; simpl.
      * by exists [], (c :: la), hb, tb.
      * by exists ((c :: w) :: ia), la, hb, tb.
Qed.

Definition no_dotdot (ws : list bytes) : Prop := Forall (fun w => w ≠ lit "..") ws.

(** Joining a relative path without ".." segments to a directory goes down. *)
Lemma join2_below ds t :
  good_segs ds → no_dotdot (split ch_slash t) →
  ∃ rs, good_segs rs ∧ Path.join2 (seg_name ds) t = seg_name (ds ++ rs).
Proof.
  intros Hg Hn.
  assert (Hfold : ∀ acc ws, no_dotdot ws →
    foldl (Path.clean_step false) acc ws = rev (List.filter seg_ok ws) ++ acc).
  { intros acc ws Hw. revert acc. induction Hw as [|w ws Hw Hws IH]; intros acc; [done|].
    simpl. rewrite IH. unfold Path.clean_step. case_bool_decide as H1.
    - assert (seg_ok w = false) as ->; [|done]. apply not_true_iff_false. rewrite seg_ok_spec. tauto.
    - assert (seg_ok w = true) as -> by (apply seg_ok_spec; tauto).
      rewrite bool_decide_false by done. simpl. by rewrite <-app_assoc. }
  assert (Hgood : ∀ ws, Forall (fun w => ch_slash ∉ w) ws → good_segs (List.filter seg_ok ws)).
  { intros ws Hw. apply Forall_forall. intros w Hin%list_elem_of_In%List.filter_In. destruct Hin as [Hin Hok].
    split; [done|]. apply (proj1 (Forall_forall _ _) Hw). by apply list_elem_of_In. }
  assert (Hsplit : Forall (fun w => ch_slash ∉ w) (split ch_slash t)) by (apply Forall_forall, split_no_sep).
  assert (Hne : seg_name ds ≠ []).
  { destruct ds; [done|]. by apply good_segs_join_ne. }
  assert (Hroot : ∀ x, Path.rooted (seg_name ds ++ x) = false).
  { intros x. destruct ds as [|d ds]; [done|]. by apply (join_not_rooted (d :: ds)). }
  assert (Hstk : ∀ x, foldl (Path.clean_step false) [] (split ch_slash (seg_name ds) ++ x) =
                      foldl (Path.clean_step false) (rev ds) x).
  { intros x. rewrite foldl_app. f_equal. destruct ds as [|d ds]; [done|].
    rewrite seg_name_join, good_segs_split, clean_fold_good, app_nil_r by done. done. }
  destruct (decide (t = [])) as [->|Ht].
  { exists []. split; [by apply Forall_nil|]. rewrite app_nil_r. unfold Path.join2, Path.joins.
    rewrite filter_cons_True by done. rewrite filter_cons_False by (by intros []). simpl.
    destruct ds as [|d ds]; [done|]. by apply (clean_good (d :: ds)). }
  exists (List.filter seg_ok (split ch_slash t)). split; [by apply Hgood|].
  unfold Path.join2, Path.joins. rewrite !filter_cons_True by done.
  change (Path.clean (seg_name ds ++ ch_slash :: t) =
          seg_name (ds ++ List.filter seg_ok (split ch_slash t))).
  unfold Path.clean, Path.clean_segs. rewrite Hroot, split_app_segs, Hstk, Hfold by done.
  rewrite rev_app_distr, !rev_involutive. by destruct (ds ++ _).
Qed.

(** A target that does not climb by itself: at most one star, and no ".."
    segment around it. *)
Definition level_target (s : bytes) : Prop :=
  ((ch_star ∉ s) ∧ no_dotdot (split ch_slash s)) ∨
  ∃ a b, s = a ++ ch_star :: b ∧ (ch_star ∉ a) ∧ (ch_star ∉ b) ∧
         no_dotdot (split ch_slash a) ∧ no_dotdot (split ch_slash b).

Lemma replace_star_none s star : ch_star ∉ s → replace_star s star = s.
Proof.
  unfold replace_star. induction s as [|c s IH]; intros Hs; [done|].
  apply not_elem_of_cons in Hs as [Hc Hs]. simpl.
  destruct (Z.eqb_spec c ch_star); [congruence|]. simpl. f_equal. by apply IH.
Qed.

Lemma replace_star_app a b star : replace_star (a ++ b) star = replace_star a star ++ replace_star b star.
Proof. unfold replace_star. rewrite map_app. generalize (map (fun c => if c =? ch_star then star else [c]) a). intros l. induction l as [|w l IH]; [done|]. simpl. by rewrite IH, app_assoc. Qed.

(** Two bytes make a ".." in one of three ways. *)
Lemma dotdot_app u v : u ++ v = lit ".." →
  u = lit ".." ∨ v = lit ".." ∨ (u = lit "." ∧ v = lit ".").
Proof.
  change (lit "..") with [46; 46]. change (lit ".") with [46].
  destruct u as [|a [|b [|c u]]]; cbn [app]; intros H.
  - by right; left.
  - injection H as -> ->. by right; right.
  - injection H as -> -> ->. by left.
  - discriminate H.
Qed.

Lemma star_between a s b :
  s ≠ [] → existsb bad_segment (split ch_slash s) = false →
  no_dotdot (split ch_slash a) → no_dotdot (split ch_slash b) →
  no_dotdot (split ch_slash (a ++ s ++ b)).
Proof.
  intros Hne Hbad Ha Hb.
  assert (Hs : Forall (fun w => w ≠ lit "." ∧ w ≠ lit "..") (split ch_slash s)).
  { apply Forall_forall. intros w Hw. apply list_elem_of_In in Hw.
    assert (bad_segment w = false) as Hw'.
    { apply not_true_iff_false. intros Ht. apply not_true_iff_false in Hbad. apply Hbad.
      apply existsb_exists. by exists w. }
    unfold bad_segment in Hw'. by bool_to_prop. }
  unfold no_dotdot in *.
  destruct (split_app_mid ch_slash s b) as (is_ & ls & hb & tb & Es & Eb & Esb).
  destruct (split_app_mid ch_slash a (s ++ b)) as (ia & la & h & t & Ea & Eh & ->).
  rewrite Ea, Es, Eb in *. rewrite Esb in Eh. clear Esb.
  apply Forall_app in Ha as [Hia [Hla _]%Forall_cons]. apply Forall_app in Hs as [His [[Hls1 Hls2] _]%Forall_cons].
  apply Forall_cons in Hb as [Hhb Htb].
  assert (Hlast : is_ ≠ [] → ls ++ hb ≠ lit "..").
  { intros _ [?|[?|[? ?]]]%dotdot_app; done. }
  apply Forall_app. split; [done|].
  destruct is_ as [|i is_]; simpl in Eh; injection Eh as <- <-.
  - constructor; [|done]. assert (ls ≠ []).
    { intros ->. apply Hne. rewrite <-(join_split ch_slash s), Es. done. }
    intros [?|[[?|[?|[? ?]]]%dotdot_app|[-> Hd]]]%dotdot_app; [done|done|done|done|].
    destruct ls as [|c ls]; [done|]. simpl in Hd. injection Hd as -> Hd.
    destruct ls; [by destruct Hls1|discriminate Hd].
  - apply Forall_cons in His as [[Hi1 Hi2] His]. constructor.
    + intros [?|[?|[? ?]]]%dotdot_app; done.
    + apply Forall_app. split; [|constructor; [|done]].
      * eapply Forall_impl; [exact His|]. by intros ? [].
      * intros [?|[?|[? ?]]]%dotdot_app; done.
Qed.

(** No import specifier climbs out of a package: if the targets a
    package.json writes for its patterns do not contain ".." themselves,
    then whatever subpath or #-name is asked for - "..", encoded slashes and
    empty segments included - the path that is loaded lies below the package
    directory. *)
Theorem pattern_contained (range : gmap bytes json → list (bytes * json))
    (m : gmap bytes json) (key : bytes) (conds : list bytes) (pkg : list bytes) (t : bytes)
    (Hperm : range m ≡ₚ map_to_list m) (Hpkg : good_segs pkg)
    (Hlevel : ∀ pat v s, m !! pat = Some v → resolveConditions conds v = Ok s → level_target s)
    (Hres : resolveSubpathMap range m key conds = Ok t) (Hpattern : m !! key = None) :
  ∃ rs, good_segs rs ∧ Path.join2 (seg_name pkg) t = seg_name (pkg ++ rs).
Proof.
  apply join2_below; [done|]. unfold resolveSubpathMap in Hres. rewrite Hpattern in Hres.
  destruct (best_of_inv key (range m)) as [[Hb _]|([pat v] & [pl sl] & He & Hm & Hb & _)]; rewrite Hb in Hres.
  { done. }
  cbn [bestPat bestStar fst snd] in Hres.
  rewrite bool_decide_false in Hres by by eapply match_pattern_ne.
  destruct (existsb bad_segment _) eqn:Ebad; [done|].
  rewrite Hperm in He. apply elem_of_map_to_list in He. rewrite He in Hres.
  destruct (resolveConditions conds v) as [s|] eqn:Ev; simpl in Hres; [|done]. injection Hres as <-.
  destruct (captured_spec _ _ _ _ Hm) as [Hne _].
  destruct (Hlevel _ _ _ He Ev) as [[Hs Hd]|(a & b & -> & Ha & Hb' & Hda & Hdb)].
  - by rewrite replace_star_none.
  - rewrite replace_star_app, replace_star_none by done.
    change (ch_star :: b) with ([ch_star] ++ b). rewrite replace_star_app, (replace_star_none b) by done.
    change (replace_star [ch_star] ?x) with (x ++ []). rewrite app_nil_r. by apply star_between.
Qed.

Lemma pattern_contained_witness :
  let m := {[ lit "./*" := JStr (lit "./src/*.js") ]} : gmap bytes json in
  resolveSubpathMap map_to_list m (lit "./a//b") [] = Ok (lit "./src/a//b.js") ∧
  resolveSubpathMap map_to_list m (lit "./../../etc/passwd") [] = Err (EInvalidSubpath (lit "./../../etc/passwd")) ∧
  ∃ rs, good_segs rs ∧ Path.join2 (seg_name [lit "node_modules"; lit "p"]) (lit "./src/a//b.js")
                       = seg_name ([lit "node_modules"; lit "p"] ++ rs).
Proof.
  intros m. split; [vm_compute; reflexivity|]. split; [vm_compute; reflexivity|].
  apply (pattern_contained map_to_list m (lit "./a//b") []).
  - done.
  - apply good_segsb_good. vm_compute. reflexivity.
  - intros pat v s Hp Hs. apply lookup_singleton_Some in Hp as [<- <-]. injection Hs as <-.
    right. exists (lit "./src/"), (lit ".js"). unfold no_dotdot. split_and!; [reflexivity|by_decide..].
  - vm_compute. reflexivity.
  - vm_compute. reflexivity.
Defined.

(** ** Classification *)

Lemma resolved_file `{WritableFS F} (range : gmap bytes json → list (bytes * json)) (fsys : F)
    fuel spec parent cjs r :
  resolveModule range fuel (Some fsys) spec parent cjs = Some (Ok r) → Core r = [] → file_res fsys r.
Proof.
  intros Hr Hc. destruct (cut_prefix spec (lit "node:")) as [name|] eqn:Ecut;
    [|destruct (isCore spec) eqn:Ecore; [|by eapply module_res]];
    by destruct (core_name _ _ _ _ _ _ _ Hr) as [Hne _]; [naive_solver|].
Qed.

(** What resolution finds is a file that exists, and its kind is a fact
    of the file alone: however it was reached - import or require, any
    specifier, any importer - the same path gets the same kind. An extension
    .json, .mjs or .cjs decides; else the nearest package.json above the file
    with a "type" does, and only when neither says anything is the kind a
    guess from the source text. *)
Theorem resolved_kind `{WritableFS F} (range : gmap bytes json → list (bytes * json)) (fuel : nat)
    (fsys : F) (spec parent : bytes) (cjs : bool) (r : resolution)
    (Hr : resolveModule range fuel (Some fsys) spec parent cjs = Some (Ok r)) (Hfile : Core r = []) :
  isFile fsys (RPath r) = true ∧
  (∀ fuel' spec' parent' cjs' r',
     resolveModule range fuel' (Some fsys) spec' parent' cjs' = Some (Ok r') →
     Core r' = [] → RPath r' = RPath r → r' = r) ∧
  (Path.ext (RPath r) = lit ".json" → Kind r = kindJSON ∧ KindGuessed r = false) ∧
  (Path.ext (RPath r) = lit ".mjs" → Kind r = kindESM ∧ KindGuessed r = false) ∧
  (Path.ext (RPath r) = lit ".cjs" → Kind r = kindCJS ∧ KindGuessed r = false) ∧
  (Path.ext (RPath r) ∉ [lit ".json"; lit ".mjs"; lit ".cjs"] →
     match nearest_type fsys (ancestorDirs (Path.dir (RPath r))) with
     | Some k => Kind r = k ∧ KindGuessed r = false
     | None => Kind r ≠ kindJSON ∧ KindGuessed r = true
     end).
Proof.
  pose proof (resolved_file range fsys) as Hres.
  destruct (Hres _ _ _ _ _ Hr Hfile) as [Hf Heq]. clear Hr Hfile. revert Hf Heq.
  generalize (RPath r) as p. intros p Hf ->. split_and!; [done| |..].
  - intros fuel' spec' parent' cjs' r' Hr' Hc' Hp. destruct (Hres _ _ _ _ _ Hr' Hc') as [_ Heq].
    by rewrite Heq, Hp.
  - intros He. unfold finish. by rewrite He.
  - intros He. unfold finish. by rewrite He.
  - intros He. unfold finish. by rewrite He.
  - intros He. rewrite !not_elem_of_cons in He. destruct He as (H1 & H2 & H3 & _).
    unfold finish. rewrite !bool_decide_false by done.
    unfold classifyJS. destruct (nearest_type _ _); [done|]. by destruct (fs_read _ _) as [src|]; [destruct (esmSyntax src)|].
Qed.

(** ** Termination *)

Section Termination.
Context {F : Type} `{WritableFS F}.
Variable fsys : F.

(** [q] is what loadAsFileOrDir tries below directory [p]: [p] is no file
    under any of the extensions, and package.json of [p] names [q]. *)
Definition entry_step (p q : bytes) : Prop :=
  find_file fsys (file_candidates p) = None ∧
  ∃ e, e ∈ dir_entries fsys p ∧ e ≠ [] ∧ q = Path.join2 p e.

Lemma load_S fuel p :
  loadAsFileOrDir (S fuel) fsys p =
  match find_file fsys (file_candidates p) with
  | Some cand => Some (Ok (finish fsys cand))
  | None =>
      match fs_stat fsys p with
      | Err _ => Some (Err (ECannotResolve p))
      | Ok info =>
          if negb (IsDir (i_mode info)) then Some (Err (ECannotResolve p))
          else match try_entries (loadAsFileOrDir fuel fsys) p (dir_entries fsys p) with
               | None => None
               | Some (Some r) => Some (Ok r)
               | Some None => match find_file fsys (index_candidates p) with
                              | Some cand => Some (Ok (finish fsys cand))
                              | None => Some (Err (ECannotResolve p))
                              end
               end
      end
  end.
Proof. reflexivity. Qed.

Lemma try_entries_ext ld ld' p es :
  (∀ e, e ∈ es → e ≠ [] → is_Some (ld (Path.join2 p e)) ∧ ld (Path.join2 p e) = ld' (Path.join2 p e)) →
  is_Some (try_entries ld p es) ∧ try_entries ld p es = try_entries ld' p es.
Proof.
  induction es as [|e es IH]; intros Hl; [by split; [eexists|]|]. simpl.
  assert (Hrec : is_Some (try_entries ld p es) ∧ try_entries ld p es = try_entries ld' p es)
    by (apply IH; set_solver).
  case_bool_decide as He; [done|].
  destruct (Hl e) as [[res Hs] Heq]; [set_solver|done|]. rewrite <-Heq, Hs.
  destruct res; [by split; [eexists|]|done].
Qed.

Lemma load_ranked (rank : bytes → nat) :
  (∀ p q, entry_step p q → (rank q < rank p)%nat) →
  ∀ fuel p, (rank p < fuel)%nat →
  is_Some (loadAsFileOrDir fuel fsys p) ∧
  ∀ fuel', (fuel <= fuel')%nat → loadAsFileOrDir fuel' fsys p = loadAsFileOrDir fuel fsys p.
Proof.
  intros Hrank fuel. induction fuel as [|fuel IH]; intros p Hp; [lia|].
  assert (Hstep : ∀ fuel', (fuel <= fuel')%nat → find_file fsys (file_candidates p) = None →
    is_Some (try_entries (loadAsFileOrDir fuel fsys) p (dir_entries fsys p)) ∧
    try_entries (loadAsFileOrDir fuel fsys) p (dir_entries fsys p) =
    try_entries (loadAsFileOrDir fuel' fsys) p (dir_entries fsys p)).
  { intros fuel' Hle Hnf. apply try_entries_ext. intros e He Hne.
    assert (Hq : (rank (Path.join2 p e) < rank p)%nat) by (apply Hrank; split; [done|]; eauto).
    destruct (IH (Path.join2 p e)) as [Hs Hmono]; [lia|]. split; [done|]. symmetry. by apply Hmono. }
  split.
  - rewrite load_S. destruct (find_file fsys (file_candidates p)) eqn:Ef; [by eexists|].
    destruct (Hstep fuel) as [[res ->] _]; [lia|done|]. repeat case_match; by eexists.
  - intros [|fuel'] Hle; [lia|]. rewrite !load_S.
    destruct (find_file fsys (file_candidates p)) eqn:Ef; [done|].
    destruct (Hstep fuel') as [_ <-]; [lia|done|]. done.
Qed.

Lemma load_entry_loop p e es :
  find_file fsys (file_candidates p) = None →
  (∃ info, fs_stat fsys p = Ok info ∧ IsDir (i_mode info) = true) →
  dir_entries fsys p = [[]; e] ++ es → e ≠ [] → Path.join2 p e = p →
  ∀ fuel, loadAsFileOrDir fuel fsys p = None.
Proof.
  intros Hf (info & Hst & Hd) Hes He Hj fuel. induction fuel as [|fuel IH]; [done|].
  rewrite load_S, Hf, Hst, Hd. simpl. rewrite Hes. simpl. rewrite bool_decide_false by done.
  by rewrite Hj, IH.
Qed.

(** Loading a path as a file or directory comes to an end, with an
    answer more fuel does not change, as long as following the "module" and
    "main" entries of package.json files cannot go on for ever - whenever
    some rank decreases along them. *)
Theorem load_terminates (rank : bytes → nat) (p : bytes) (fuel : nat)
    (Hrank : ∀ p q, entry_step p q → (rank q < rank p)%nat) (Hfuel : (rank p < fuel)%nat) :
  ∃ res, ∀ fuel', (fuel <= fuel')%nat → loadAsFileOrDir fuel' fsys p = Some res.
Proof.
  destruct (load_ranked rank Hrank fuel p Hfuel) as [[res Hres] Hmono].
  exists res. intros fuel' Hle. by rewrite Hmono.
Qed.

(** But a package.json whose "main" leads back to its own directory - as
    "." or "./" do, with an index.js beside it - is followed without end: no
    amount of fuel gives an answer for importing that directory, the index
    file is never reached, and the recursion of the Go code only stops when
    its stack is exhausted. *)
Theorem load_main_self_diverges (range : gmap bytes json → list (bytes * json))
    (rest main parent : bytes) (cjs : bool)
    (Hnofile : find_file fsys (file_candidates (Path.clean rest)) = None)
    (Hdir : ∃ info, fs_stat fsys (Path.clean rest) = Ok info ∧ IsDir (i_mode info) = true)
    (Hmain : dir_entries fsys (Path.clean rest) = [[]; main]) (Hne : main ≠ [])
    (Hself : Path.join2 (Path.clean rest) main = Path.clean rest) :
  ∀ fuel, resolveModule range fuel (Some fsys) (ch_slash :: rest) parent cjs = None.
Proof.
  intros fuel. unfold resolveModule.
  assert (Hcore : isCore (ch_slash :: rest) = false).
  { apply bool_decide_eq_false. intros Hin%list_elem_of_In.
    assert (Hall : forallb (fun n => negb (bool_decide (head n = Some ch_slash))) coreModules = true)
      by (vm_compute; reflexivity).
    apply (proj1 (forallb_forall _ _) Hall) in Hin. by bool_to_prop. }
  assert (Hpre : ∀ c p, c ≠ ch_slash → has_prefix (ch_slash :: rest) (c :: p) = false).
  { intros c p Hc. apply not_true_iff_false. intros [r Hr]%has_prefix_spec. by simplify_eq/=. }
  assert (Hcut : ∀ c p, c ≠ ch_slash → cut_prefix (ch_slash :: rest) (c :: p) = None).
  { intros c p Hc. unfold cut_prefix. by rewrite Hpre. }
  change (lit "node:") with (110 :: lit "ode:"). rewrite Hcut, Hcore by done.
  change (lit "#") with [35]. rewrite Hpre by done.
  assert (fileURLToFSPath (ch_slash :: rest) = ch_slash :: rest) as ->.
  { unfold fileURLToFSPath.
    change (lit "file://") with (102 :: lit "ile://"). change (lit "file:") with (102 :: lit "ile:").
    by rewrite !Hcut. }
  unfold is_relative.
  rewrite !bool_decide_false by (intros [=]).
  change (lit "./") with [46; 47]. change (lit "../") with [46; 46; 47]. rewrite !Hpre by done. simpl orb. cbn iota.
  change (lit "/") with [ch_slash]. change (ch_slash :: rest) with ([ch_slash] ++ rest) at 1.
  rewrite cut_prefix_app. by rewrite (load_entry_loop _ main []) by done.
Qed.

End Termination.

(** ** A concrete application *)

#[local] Instance demo_fs : WritableFS (gmap bytes MemFS.node) := MemFS.memfs_fs 5.

(** A package p with a pattern export, a package q whose main is its own
    directory, an ES module and a package.json with a type. *)
Definition demo_app : gmap bytes MemFS.node :=
  foldl MemFS.exec (MemFS.NewMemFS 0)
    [MemFS.CMkdirAll (lit "node_modules/p/src") 493 (fun _ => 1);
     MemFS.CMkdirAll (lit "q") 493 (fun _ => 1); MemFS.CMkdirAll (lit "lib/deep") 493 (fun _ => 1);
     MemFS.CWriteFile (lit "package.json") (jlit "{'type':'module'}") 420 2;
     MemFS.CWriteFile (lit "node_modules/p/package.json")
       (jlit "{'name':'p','exports':{'.':{'node':'./n.js','require':'./r.cjs'},'./*':'./src/*.js'}}") 420 2;
     MemFS.CWriteFile (lit "node_modules/p/r.cjs") (lit "exports.x = 1") 420 2;
     MemFS.CWriteFile (lit "node_modules/p/src/a.js") (lit "export {}") 420 2;
     MemFS.CWriteFile (lit "q/package.json") (jlit "{'main':'./'}") 420 2;
     MemFS.CWriteFile (lit "q/index.js") (lit "1") 420 2].

Abbreviation demo_resolve spec parent cjs :=
  (resolveModule map_to_list 9 (Some demo_app) (lit spec) (lit parent) cjs).

Example demo_results :
  demo_resolve "p/a" "file:///lib/deep/m.js" false
    = Some (Ok (MkRes [] (lit "node_modules/p/src/a.js") kindESM false)) ∧
  demo_resolve "p" "file:///lib/deep/m.js" true
    = Some (Err (ECannotResolve (lit "node_modules/p/n.js"))) ∧
  demo_resolve "./deep/../../node_modules/p/r" "file:///lib/m.js" true
    = Some (Ok (MkRes [] (lit "node_modules/p/r.cjs") kindCJS false)) ∧
  demo_resolve "node:fs" "" true = Some (Ok (MkRes (lit "fs") [] kindESM false)).
Proof. vm_compute. done. Qed.

Lemma core_modules_win_witness :
  lit "fs" ∈ coreModules ∧
  resolveModule map_to_list 0 (Some demo_app) (lit "node:fs") [] true = Some (Ok (MkRes (lit "fs") [] kindESM false)) ∧
  resolveModule map_to_list 0 (Some demo_app) (lit "node:p") [] true
    = Some (Err (EUnknownBuiltin (lit "node:p"))).
Proof.
  assert (Hfs : lit "fs" ∈ coreModules) by by_decide.
  split; [exact Hfs|]. split.
  - apply (core_modules_win map_to_list 0 (Some demo_app) (lit "node:fs") [] true).
    exists (lit "fs"). split; [exact Hfs|]. split; [right; reflexivity|reflexivity].
  - apply (core_modules_win map_to_list 0 (Some demo_app) (lit "node:p") [] true (MkRes [] [] kindESM false))
      with (name := lit "p"); [reflexivity|by_decide].
Defined.

Lemma resolved_kind_witness :
  let r := MkRes [] (lit "node_modules/p/src/a.js") kindESM false in
  demo_resolve "p/a" "file:///lib/deep/m.js" false = Some (Ok r) ∧
  isFile demo_app (RPath r) = true ∧
  demo_resolve "../node_modules/p/src/a.js" "file:///lib/m.js" true = Some (Ok r).
Proof.
  intros r. assert (Hr : demo_resolve "p/a" "file:///lib/deep/m.js" false = Some (Ok r)) by (vm_compute; reflexivity).
  split; [exact Hr|].
  destruct (resolved_kind map_to_list 9 demo_app _ _ _ _ Hr eq_refl) as (Hf & Hsame & _).
  split; [exact Hf|].
  assert (Hex : ∃ r', demo_resolve "../node_modules/p/src/a.js" "file:///lib/m.js" true = Some (Ok r') ∧
                      Core r' = [] ∧ RPath r' = RPath r) by (vm_compute; eauto).
  destruct Hex as (r' & Hr' & Hc & Hp). rewrite Hr'. by rewrite (Hsame _ _ _ _ _ Hr' Hc Hp).
Defined.

Lemma bare_nearest_witness :
  resolveBareSpecifier map_to_list 9 demo_app esmConditions (lit "p/a") (lit "lib/deep/m.js") =
  resolvePackage map_to_list 9 demo_app esmConditions (lit "node_modules/p") (lit "a").
Proof.
  rewrite (bare_nearest map_to_list 9 demo_app esmConditions (lit "p/a") (lit "lib/deep/m.js")
             [] [lit "lib"; lit "deep"]).
  - vm_compute. reflexivity.
  - apply good_segsb_good. vm_compute. reflexivity.
  - vm_compute. reflexivity.
  - intros us vs Heq Hne. destruct us as [|u [|u' [|u'' us]]]; [done|..|discriminate Heq].
    + injection Heq as <- _. vm_compute. reflexivity.
    + injection Heq as <- <- _. vm_compute. reflexivity.
Defined.

Lemma load_terminates_witness :
  let fsys := (MemFS.WriteFile (MemFS.NewMemFS 0) (lit "a.js") (lit "1") 420 1).2 in
  ∃ res, ∀ fuel', (1 <= fuel')%nat → loadAsFileOrDir fuel' fsys (lit "a") = Some res.
Proof.
  intros fsys. apply (load_terminates fsys (fun _ => 0%nat) (lit "a") 1); [|lia].
  intros p q (_ & e & He & Hne & _). exfalso. unfold dir_entries, read_pkg in He.
  destruct (fs_read fsys (Path.join2 p (lit "package.json"))) as [raw|] eqn:E; [|by apply not_elem_of_nil in He].
  assert (Hnone : raw = lit "1").
  { assert (Hall : map_Forall (fun _ n => IsDir (MemFS.mode n) = true ∨ MemFS.data n = lit "1") fsys)
      by by_decide.
    change (MemFS.read_file fsys (Path.join2 p (lit "package.json")) = Ok raw) in E.
    unfold MemFS.read_file, MemFS.Open in E. destruct (negb (ValidPath _)); [done|].
    destruct (fsys !! _) as [n|] eqn:En; [|done]. destruct (IsDir (MemFS.mode n)) eqn:Ed; [done|].
    destruct (Hall _ _ En) as [?|Hd]; [congruence|]. rewrite Hd in E. vm_compute in E. by injection E as <-. }
  subst raw. vm_compute in He. by apply not_elem_of_nil in He.
Defined.

Lemma load_main_self_diverges_witness :
  isFile demo_app (lit "q/index.js") = true ∧
  ∀ fuel, resolveModule map_to_list fuel (Some demo_app) (lit "/q") (lit "lib/m.js") true = None.
Proof.
  split; [vm_compute; reflexivity|].
  apply (load_main_self_diverges demo_app map_to_list (lit "q") (lit "./")).
  - vm_compute. reflexivity.
  - eexists. split; vm_compute; reflexivity.
  - vm_compute. reflexivity.
  - discriminate.
  - vm_compute. reflexivity.
Defined.
