(* ===== verification/Regex.v ===== *)
(** The part of Go's regexp package the sources use: byte sets, greedy
    repetition of a set, sequence, alternation, option, captures, line and
    text starts and word boundaries, with the leftmost-first choice of match
    that regexp documents. Patterns are matched byte by byte; the negated
    sets of the sources accept every byte of a multi-byte rune, so captures
    and the ends of matches are those of the rune-wise matcher. *)

From S2P Require Import Prelude.

Inductive re :=
| REmpty
| RSet (p : Z → bool)
| RMany (least : nat) (p : Z → bool)
| RSeq (a b : re)
| RAlt (a b : re)
| ROpt (a : re)
| RCap (n : nat) (a : re)
| RBegin
| RLine
| RWordB.

(** A point in the text: the byte before it, what follows, and what the
    groups have captured (latest first). *)
Record point := MkPoint { prev : option Z; rest : bytes; caps : list (nat * bytes) }.

Definition word (c : Z) : bool := is_lower c || is_upper c || is_digit c || (c =? 95).
Definition space (c : Z) : bool := bool_decide (c ∈ [9; 10; 12; 13; 32]).
Definition byte (c d : Z) : bool := d =? c.
Definition none_of (cs : bytes) (d : Z) : bool := negb (bool_decide (d ∈ cs)).

Definition word_at (o : option Z) : bool := match o with Some c => word c | None => false end.

(** [many k cs least prev s]: as many bytes as possible, then [k], giving
    back one at a time while [k] fails. *)
Fixpoint many {R} (k : point → option R) (p : Z → bool) (cs : list (nat * bytes))
    (least : nat) (before : option Z) (s : bytes) : option R :=
  let stop := match least with O => k (MkPoint before s cs) | S _ => None end in
  match s with
  | c :: s' =>
      if p c then match many k p cs (pred least) (Some c) s' with
                  | Some x => Some x
                  | None => stop
                  end
      else stop
  | [] => stop
  end.

Fixpoint run {R} (r : re) (pt : point) (k : point → option R) : option R :=
  match r with
  | REmpty => k pt
  | RSet p => match rest pt with
              | c :: s => if p c then k (MkPoint (Some c) s (caps pt)) else None
              | [] => None
              end
  | RMany least p => many k p (caps pt) least (prev pt) (rest pt)
  | RSeq a b => run a pt (fun pt' => run b pt' k)
  | RAlt a b => match run a pt k with Some x => Some x | None => run b pt k end
  | ROpt a => match run a pt k with Some x => Some x | None => k pt end
  | RCap n a =>
      run a pt (fun pt' =>
        k (MkPoint (prev pt') (rest pt')
             ((n, take (length (rest pt) - length (rest pt')) (rest pt)) :: caps pt')))
  | RBegin => match prev pt with None => k pt | Some _ => None end
  | RLine => match prev pt with None => k pt | Some c => if c =? ch_nl then k pt else None end
  | RWordB => if eqb (word_at (prev pt)) (word_at (head (rest pt))) then None else k pt
  end.

(** The leftmost match at or after a point: the point where it ends. *)
Fixpoint search (r : re) (before : option Z) (s : bytes) : option point :=
  match run r (MkPoint before s []) Some with
  | Some pt => Some pt
  | None => match s with [] => None | c :: s' => search r (Some c) s' end
  end.

Definition matches (r : re) (s : bytes) : bool := bool_decide (is_Some (search r None s)).

(** FindAll: matches that do not overlap, from left to right; none of the
    patterns matches the empty text. *)
Fixpoint find_all (fuel : nat) (r : re) (before : option Z) (s : bytes) : list point :=
  match fuel with
  | O => []
  | S fuel' => match search r before s with
               | None => []
               | Some pt => pt :: find_all fuel' r (prev pt) (rest pt)
               end
  end.

Definition FindAll (r : re) (s : bytes) : list point := find_all (S (length s)) r None s.

(** The text of a group, empty when it took no part in the match. *)
Definition group (pt : point) (n : nat) : bytes :=
  default [] (snd <$> List.find (fun c => Nat.eqb c.1 n) (caps pt)).

(** ** Building patterns *)

Definition text (s : string) : re := foldr (fun c r => RSeq (RSet (byte c)) r) REmpty (lit s).
Definition ws : re := RMany 0 space.
Definition seqs (rs : list re) : re := foldr RSeq REmpty rs.

Example capture_word :
  let r := seqs [RWordB; text "let"; RMany 1 space; RCap 1 (RMany 1 word)] in
  map (fun pt => group pt 1) (FindAll r (lit "outlet let ab=1;let  c")) = [lit "ab"; lit "c"].
Proof. vm_compute. reflexivity. Qed.
