(* ===== verification/CjsScan.v ===== *)
(** compat/nodejs/cjs_exports.go and the module loaders around it: the static
    analysis of CommonJS sources that finds the names an ES module may
    import, and the loaders of runtime.go (esmLoader) and nodejs.go
    (ESMLoader) that turn a resolution into module source text.

    Generated JavaScript is a list of chunks: plain text and values printed
    with %q or by json.Marshal as string literals. *)

From S2P Require Import Prelude GoPath IoFS Json MemFS Resolve Regex.

(** ** Patterns *)

Definition ident_start (c : Z) : bool := is_lower c || is_upper c || (c =? 95) || (c =? 36).
Definition ident_byte (c : Z) : bool := ident_start c || is_digit c.

(** identRE *)
Definition identRE (n : bytes) : bool :=
  match n with c :: n' => ident_start c && forallb ident_byte n' | [] => false end.

Definition reservedWords : list bytes := map lit
  ["default"; "class"; "function"; "var"; "let"; "const"; "new"; "delete"; "in"; "of"; "if"; "else";
   "return"; "this"; "typeof"; "void"; "with"; "yield"; "await"; "static"; "export"; "import"; "super";
   "extends"; "enum"; "null"; "true"; "false"; "do"; "while"; "for"; "switch"; "case"; "try"; "catch";
   "finally"; "throw"; "break"; "continue"; "debugger"; "instanceof"]%string.

(** The text start, or a byte that cannot end a name or a member access. *)
Definition before_name : re :=
  RAlt RBegin (RSet (fun c => negb (word c) && none_of (lit "$.") c)).
(** An optional module and dot. *)
Definition opt_module : re := ROpt (seqs [text "module"; ws; text "."; ws]).
(** An identifier, captured. *)
Definition ident (n : nat) : re :=
  RCap n (RSeq (RSet ident_start) (RMany 0 (fun c => word c || (c =? 36)))).
(** A string literal without escapes; its text is captured by group [n] or
    [S n], after its quote. *)
Definition quoted (n : nat) : re :=
  RAlt (seqs [RSet (byte 34); RCap n (RMany 1 (none_of [34; 92])); RSet (byte 34)])
       (seqs [RSet (byte 39); RCap (S n) (RMany 1 (none_of [39; 92])); RSet (byte 39)]).

Definition cjsExportsDotRE : re :=
  seqs [before_name; opt_module; text "exports"; ws; text "."; ws; ident 1; ws; text "="].
Definition cjsExportsBracketRE : re :=
  seqs [before_name; opt_module; text "exports"; ws; text "["; ws; quoted 1; ws; text "]"; ws; text "="].
Definition cjsDefinePropRE : re :=
  seqs [text "Object"; ws; text "."; ws; text "defineProperty"; ws; text "("; ws; opt_module;
        text "exports"; ws; text ","; ws; quoted 1].
Definition cjsModuleExportsObjRE : re :=
  seqs [before_name; text "module"; ws; text "."; ws; text "exports"; ws; text "="; ws; text "{"].
Definition cjsModuleExportsRequireRE : re :=
  seqs [before_name; text "module"; ws; text "."; ws; text "exports"; ws; text "="; ws; text "require"; ws;
        text "("; ws; quoted 1; ws; text ")"].
Definition cjsExportStarRE : re :=
  seqs [text "__exportStar"; ws; text "("; ws; text "require"; ws; text "("; ws; quoted 1; ws; text ")"; ws;
        text ","; ws; text "exports"; ws; text ")"].
Definition cjsRequireVarRE : re :=
  seqs [RAlt (text "var") (RAlt (text "let") (text "const")); RMany 1 space; ident 1; ws; text "="; ws;
        text "require"; ws; text "("; ws; quoted 2; ws; text ")"].
Definition cjsKeysForEachRE : re :=
  seqs [text "Object"; ws; text "."; ws; text "keys"; ws; text "("; ws; ident 1; ws; text ")"; ws;
        text "."; ws; text "forEach"].
(** defaultExportRE of nodejs.go *)
Definition defaultExportRE : re :=
  RAlt (seqs [RWordB; text "export"; RMany 1 space; text "default"; RWordB])
 (RAlt (seqs [RWordB; text "export"; ws; text "{"; RMany 0 (none_of (lit "{}")); RWordB; text "default"; ws;
              RSet (fun c => bool_decide (c ∈ lit ",}"))])
       (seqs [RWordB; text "as"; RMany 1 space; text "default"; RWordB])).

Definition hasDefaultExport (src : bytes) : bool := matches defaultExportRE src.

(** ** maskCJSSource *)

Definition isIdentByte (c : Z) : bool :=
  (c =? 95) || (c =? 36) || is_lower c || is_upper c || is_digit c || (128 <=? c).

Definition regexPrecedingKeywords : list bytes := map lit
  ["return"; "typeof"; "instanceof"; "in"; "of"; "new"; "delete"; "void"; "throw"; "case"; "do"; "else";
   "yield"; "await"]%string.

(** The last significant byte is [None] at the start of input. *)
Definition regexCanFollow (lastSig : option Z) (lastWord : bytes) : bool :=
  match lastSig with
  | None => true
  | Some c =>
      if negb (bool_decide (lastWord = [])) && bool_decide (lastWord ∈ regexPrecedingKeywords) then true
      else if bool_decide (c ∈ [41; 93; 34]) then false
      else negb (isIdentByte c)
  end.

(** The scanners below are given the text after the byte that starts the
    token; each returns the bytes it consumed, in source order, and the
    remaining text. *)

(** The flags of a regex literal. *)
Fixpoint take_while (p : Z → bool) (s : bytes) : bytes * bytes :=
  match s with
  | c :: s' => if p c then let '(a, b) := take_while p s' in (c :: a, b) else ([], s)
  | [] => ([], [])
  end.

(** scanRegexLiteral, after the opening slash. *)
Fixpoint scanRegexLiteral (inClass : bool) (s : bytes) : option (bytes * bytes) :=
  match s with
  | [] => None
  | c :: s' =>
      if c =? 92 then
        match s' with
        | d :: s'' => if (d =? 10) || (d =? 13) then None
                      else '(a, b) ← scanRegexLiteral inClass s''; Some (c :: d :: a, b)
        | [] => None
        end
      else if (c =? 10) || (c =? 13) then None
      else if c =? 91 then '(a, b) ← scanRegexLiteral true s'; Some (c :: a, b)
      else if c =? 93 then '(a, b) ← scanRegexLiteral false s'; Some (c :: a, b)
      else if (c =? 47) && negb inClass then
        let '(flags, b) := take_while is_lower s' in Some (c :: flags, b)
      else '(a, b) ← scanRegexLiteral inClass s'; Some (c :: a, b)
  end.

Definition blank (c : Z) : Z := if c =? 10 then 10 else 32.

(** A line comment: up to and including the newline, which is not blanked. *)
Fixpoint mask_line (s : bytes) : bytes * bytes :=
  match s with
  | c :: s' => if c =? 10 then ([c], s') else let '(a, b) := mask_line s' in (32 :: a, b)
  | [] => ([], [])
  end.

(** A block comment from its opening slash on: blanked up to the first "*/". *)
Fixpoint mask_block (s : bytes) : bytes * bytes :=
  match s with
  | c :: ((d :: s'') as s') =>
      if (c =? 42) && (d =? 47) then ([32; 32], s'')
      else let '(a, b) := mask_block s' in (blank c :: a, b)
  | [c] => ([blank c], [])
  | [] => ([], [])
  end.

(** A template literal after its opening backquote. *)
Fixpoint mask_template (s : bytes) : bytes * bytes :=
  match s with
  | [] => ([], [])
  | c :: s' =>
      if c =? 92 then
        match s' with
        | d :: s'' => let '(a, b) := mask_template s'' in (32 :: blank d :: a, b)
        | [] => ([32], [])
        end
      else if c =? 96 then ([32], s')
      else let '(a, b) := mask_template s' in (blank c :: a, b)
  end.

(** A string literal after its opening quote: kept. *)
Fixpoint scan_string (q : Z) (s : bytes) : bytes * bytes :=
  match s with
  | [] => ([], [])
  | c :: s' =>
      if c =? q then ([c], s')
      else if c =? 92 then
        match s' with
        | d :: s'' => let '(a, b) := scan_string q s'' in (c :: d :: a, b)
        | [] => ([c], [])
        end
      else let '(a, b) := scan_string q s' in (c :: a, b)
  end.

(** The loop of maskCJSSource; one iteration consumes at least a byte. *)
Fixpoint mask_loop (fuel : nat) (lastSig : option Z) (lastWord : bytes) (s : bytes) : bytes :=
  match fuel with
  | O => s
  | S fuel' =>
      match s with
      | [] => []
      | c :: s' =>
          if c =? 47 then
            if bool_decide (head s' = Some 47) then
              let '(a, b) := mask_line s in a ++ mask_loop fuel' lastSig lastWord b
            else if bool_decide (head s' = Some 42) then
              let '(a, b) := mask_block s in a ++ mask_loop fuel' lastSig lastWord b
            else
              let division := c :: mask_loop fuel' (Some 47) [] s' in
              if regexCanFollow lastSig lastWord then
                match scanRegexLiteral false s' with
                | Some (a, b) => map (fun _ => 32) (c :: a) ++ mask_loop fuel' (Some 41) [] b
                | None => division
                end
              else division
          else if c =? 96 then
            let '(a, b) := mask_template s' in 32 :: a ++ mask_loop fuel' (Some 34) [] b
          else if (c =? 39) || (c =? 34) then
            let '(a, b) := scan_string c s' in c :: a ++ mask_loop fuel' (Some 34) [] b
          else if bool_decide (c ∈ [32; 9; 10; 13; 11; 12]) then
            c :: mask_loop fuel' lastSig lastWord s'
          else if isIdentByte c then
            let '(a, b) := take_while isIdentByte s in a ++ mask_loop fuel' (last a) a b
          else c :: mask_loop fuel' (Some c) [] s'
      end
  end.

Definition maskCJSSource (src : bytes) : bytes := mask_loop (S (length src)) None [] src.

(** ** objectLiteralKeys *)

(** A string literal after its opening quote: its body and what follows the
    closing quote; [None] when it is not closed. *)
Fixpoint string_body (q : Z) (s : bytes) : option (bytes * bytes) :=
  match s with
  | [] => None
  | c :: s' =>
      if c =? q then Some ([], s')
      else if c =? 92 then
        match s' with
        | d :: s'' => '(a, b) ← string_body q s''; Some (c :: d :: a, b)
        | [] => None
        end
      else '(a, b) ← string_body q s'; Some (c :: a, b)
  end.

Definition skip_blank (s : bytes) : bytes :=
  (take_while (fun c => bool_decide (c ∈ [32; 9; 10; 13])) s).2.

Definition letter (c : Z) : bool := is_lower c || is_upper c.

(** The loop of objectLiteralKeys from a point inside the literal on. *)
Fixpoint keys_loop (fuel : nat) (depth : nat) (expectKey : bool) (keys : list bytes) (s : bytes) : list bytes :=
  match fuel with
  | O => keys
  | S fuel' =>
      match s with
      | [] => keys
      | c :: s' =>
          let at_key := (depth =? 1)%nat && expectKey in
          if (c =? 39) || (c =? 34) then
            match string_body c s' with
            | None => keys
            | Some (key, s2) =>
                if at_key && bool_decide (head (skip_blank s2) = Some 58)
                then keys_loop fuel' depth false (keys ++ [key]) s2
                else keys_loop fuel' depth expectKey keys s2
            end
          else if bool_decide (c ∈ lit "{[(") then
            keys_loop fuel' (S depth) ((c =? 123) && (depth =? 0)%nat) keys s'
          else if bool_decide (c ∈ lit "}])") then
            if (depth <=? 1)%nat then keys else keys_loop fuel' (pred depth) expectKey keys s'
          else if c =? 44 then keys_loop fuel' depth (expectKey || (depth =? 1)%nat) keys s'
          else if at_key && ident_start c then
            let '(w, s2) := take_while ident_byte s in
            let s3 := skip_blank s2 in
            match s3 with
            | [] => keys_loop fuel' depth expectKey keys s2
            | d :: _ =>
                if bool_decide (w ∈ [lit "get"; lit "set"; lit "async"]) &&
                   (ident_start d || (bool_decide (w = lit "async") && (d =? 42)))
                then keys_loop fuel' depth expectKey keys s3
                else if bool_decide (d ∈ lit ":(,}") then keys_loop fuel' depth false (keys ++ [w]) s2
                else keys_loop fuel' depth false keys s2
            end
          else if c =? 46 then keys_loop fuel' depth false keys s'
          else keys_loop fuel' depth expectKey keys s'
      end
  end.

Definition objectLiteralKeys (s : bytes) : list bytes :=
  match s with
  | 123 :: _ => keys_loop (S (length s)) 0 true [] s
  | _ => []
  end.

(** ** cjsExportNames *)

(** The closure [add]. *)
Definition shim_name (n : bytes) : bool :=
  bool_decide (n = lit "__cjs_default__") || bool_decide (n = lit "__cjs_ns__").

Definition exportable (n : bytes) : bool :=
  negb (bool_decide (n = [])) && negb (bool_decide (n = lit "default")) && identRE n &&
  negb (bool_decide (n ∈ reservedWords)) && negb (shim_name n).

Definition add (names : list bytes) (n : bytes) : list bytes :=
  if exportable n && negb (bool_decide (n ∈ names)) then names ++ [n] else names.

Definition addAll (names ns : list bytes) : list bytes := foldl add names ns.

(** Matches whose "=" does not open "==". *)
Definition assignments (r : re) (masked : bytes) : list point :=
  List.filter (fun pt => negb (bool_decide (head (rest pt) = Some 61))) (FindAll r masked).

(** The names one source declares itself. *)
Definition own_names (masked : bytes) : list bytes :=
  let names := addAll [] (map (fun pt => group pt 1) (assignments cjsExportsDotRE masked)) in
  let names := addAll names (map (fun pt => group pt 1 ++ group pt 2) (assignments cjsExportsBracketRE masked)) in
  let names := addAll names (map (fun pt => group pt 1 ++ group pt 2) (FindAll cjsDefinePropRE masked)) in
  foldl (fun names pt => addAll names (objectLiteralKeys (123 :: rest pt))) names
    (FindAll cjsModuleExportsObjRE masked).

(** The specifiers whose exports it re-exports, in order. *)
Definition star_body (body : bytes) : bool :=
  contains body (lit "exports[key]") || contains body (lit "defineProperty(exports, key") ||
  contains body (lit "defineProperty(exports,key").

Definition followed (masked : bytes) : list bytes :=
  let requireVars := rev (map (fun pt => (group pt 1, group pt 2 ++ group pt 3)) (FindAll cjsRequireVarRE masked)) in
  map (fun pt => group pt 1 ++ group pt 2) (FindAll cjsModuleExportsRequireRE masked) ++
  map (fun pt => group pt 1 ++ group pt 2) (FindAll cjsExportStarRE masked) ++
  omap (fun pt =>
    match List.find (fun e => bool_decide (e.1 = group pt 1)) requireVars with
    | Some (_, spec) => if star_body (take 600 (rest pt)) then Some spec else None
    | None => None
    end) (FindAll cjsKeysForEachRE masked).

Section Names.
Context {F : Type} `{WritableFS F}.
Context (range : gmap bytes json → list (bytes * json)) (fuel : nat) (fsys : F).
Context (engine : option (bytes → result goerr bool)) (coreExports : bytes → list bytes).

(** cjsReexportNames, given the analysis of the next depth. *)
Definition cjsReexportNames
    (analyze : bytes → bytes → gset bytes → option (list bytes * gset bytes))
    (spec parent : bytes) (seen : gset bytes) : option (list bytes * gset bytes) :=
  match resolveModule range fuel (Some fsys) spec parent true with
  | None => None
  | Some (Err _) => Some ([], seen)
  | Some (Ok r) =>
      if negb (bool_decide (Core r = [])) then Some (coreExports (Core r), seen)
      else
        let r := refineKind engine (Some fsys) r None in
        if negb (bool_decide (Kind r = kindCJS)) || bool_decide (RPath r ∈ seen) then Some ([], seen)
        else
          let seen := {[ RPath r ]} ∪ seen in
          match fs_read fsys (RPath r) with
          | Err _ => Some ([], seen)
          | Ok src => analyze (RPath r) src seen
          end
  end.

Fixpoint follow_all
    (analyze : bytes → bytes → gset bytes → option (list bytes * gset bytes))
    (p : bytes) (specs : list bytes) (names : list bytes) (seen : gset bytes)
    : option (list bytes * gset bytes) :=
  match specs with
  | [] => Some (names, seen)
  | spec :: specs' =>
      match cjsReexportNames analyze spec p seen with
      | None => None
      | Some (ns, seen') => follow_all analyze p specs' (addAll names ns) seen'
      end
  end.

(** cjsExportNames at depth [9 - levels]: past depth 8 there are no names.
    [None] only when a resolution does not end. *)
Fixpoint cjsExportNames (levels : nat) (p src : bytes) (seen : gset bytes)
    : option (list bytes * gset bytes) :=
  match levels with
  | O => Some ([], seen)
  | S levels' =>
      let masked := maskCJSSource src in
      follow_all (cjsExportNames levels') p (followed masked) (own_names masked) seen
  end.

End Names.

(** ** Generated modules *)

(** Text, a %q string literal, a json.Marshal string literal. *)
Inductive chunk := T (text : bytes) | Q (s : bytes) | J (s : bytes).

#[export] Instance chunk_eq_dec : EqDecision chunk.
Proof. solve_decision. Defined.

Definition line (s : string) : bytes := lit s ++ [ch_nl].

Definition shim_binding (n : bytes) : list chunk :=
  [T (lit "let " ++ n ++ lit "; try { " ++ n ++ lit " = __cjs_ns__["); Q n;
   T (line "]; } catch {}" ++ lit "export { " ++ n ++ line " };")].

Definition cjs_shim_text (p : bytes) (names : list bytes) : list chunk :=
  [T (lit "const __cjs_default__ = globalThis.__node_require_path("); Q p;
   T (line ");" ++ line "export default __cjs_default__;")] ++
  (if bool_decide (names = []) then []
   else T (line "const __cjs_ns__ = (__cjs_default__ === null || __cjs_default__ === undefined) ? {} : Object(__cjs_default__);")
          :: mjoin (map shim_binding names)).

(** coreShim, given the module's collected export names. *)
Definition coreShim (coreExports : bytes → list bytes) (name : bytes) : list chunk :=
  [T (lit "const m = globalThis.__node_core("); Q name; T (line ");" ++ line "export default m;")] ++
  map (fun n => T (lit "export const " ++ n ++ lit " = m." ++ n ++ line ";")) (coreExports name).

(** The names collectCoreExports keeps of Object.keys of a core module. *)
Definition collectCoreExports (keys : list bytes) : list bytes :=
  List.filter (fun n => identRE n && negb (bool_decide (n ∈ reservedWords))) keys.

Definition jsonModuleSource (src : bytes) : list chunk :=
  [T (lit "export default JSON.parse("); J src; T (lit ");")].

(** The shim both loaders generate onto a target module. *)
Definition reexport_shim (target src : bytes) : list chunk :=
  [T (lit "export * from "); Q target; T (line ";")] ++
  (if hasDefaultExport src then [T (lit "export { default } from "); Q target; T (line ";")] else []).

Definition canonicalESMShim (canonical src : bytes) : list chunk := reexport_shim canonical src.

Definition canonical_url (p : bytes) : bytes := lit "file:///" ++ fsPathToFileURLPath p.

Definition esmShimFor (specifier realPath src : bytes) : list chunk :=
  let up := mjoin (map (fun _ => lit "../") (List.filter (fun c => c =? ch_slash) specifier)) in
  reexport_shim (lit "./" ++ up ++ realPath) src.

Definition registeredPath (specifier referrer : bytes) : bytes :=
  Path.clean
    (if has_prefix specifier (lit "./") || has_prefix specifier (lit "../") then
       Path.join2 (Path.dir referrer) specifier
     else trim_prefix specifier (lit "/")).

Inductive loaderr :=
| LResolve (e : rerr)
| LRead (p : bytes) (e : goerr)
| LCoreNeedsInstall (specifier : bytes)
| LCJSNeedsInstall (specifier p : bytes).

Section Loaders.
Context {F : Type} `{WritableFS F}.
Context (range : gmap bytes json → list (bytes * json)) (fuel : nat).

(** readModuleFile *)
Definition readModuleFile (fsys : option F) (p : bytes) : result loaderr bytes :=
  match fsys with
  | None => Err (LRead p (text_goerr (lit "no FS configured")))
  | Some f => match fs_read f p with Ok b => Ok b | Err e => Err (LRead p e) end
  end.

(** Runtime.esmLoader. *)
Definition esmLoader (engine : option (bytes → result goerr bool)) (coreExports : bytes → list bytes)
    (fsys : option F) (specifier referrer : bytes) : option (result loaderr (list chunk)) :=
  match resolveModule range fuel fsys specifier referrer false with
  | None => None
  | Some (Err e) => Some (Err (LResolve e))
  | Some (Ok r) =>
      if negb (bool_decide (Core r = [])) then Some (Ok (coreShim coreExports (Core r)))
      else match readModuleFile fsys (RPath r) with
           | Err e => Some (Err e)
           | Ok src =>
               let r := refineKind engine fsys r (Some src) in
               match Kind r, fsys with
               | kindJSON, _ => Some (Ok (jsonModuleSource src))
               | kindCJS, Some f =>
                   match cjsExportNames range fuel f engine coreExports 9 (RPath r) src {[ RPath r ]} with
                   | None => None
                   | Some (names, _) => Some (Ok (cjs_shim_text (RPath r) names))
                   end
               | _, _ =>
                   let canonical := canonical_url (RPath r) in
                   if bool_decide (specifier = canonical) then Some (Ok [T src])
                   else Some (Ok (canonicalESMShim canonical src))
               end
           end
  end.

(** ESMLoader of nodejs.go. *)
Definition ESMLoader (fsys : option F) (specifier referrer : bytes) : option (result loaderr (list chunk)) :=
  match resolveModule range fuel fsys specifier referrer false with
  | None => None
  | Some (Err e) => Some (Err (LResolve e))
  | Some (Ok r) =>
      if negb (bool_decide (Core r = [])) then Some (Err (LCoreNeedsInstall specifier))
      else match readModuleFile fsys (RPath r) with
           | Err e => Some (Err e)
           | Ok src =>
               match Kind r with
               | kindJSON => Some (Ok (jsonModuleSource src))
               | kindCJS => Some (Err (LCJSNeedsInstall specifier (RPath r)))
               | kindESM =>
                   if bool_decide (registeredPath specifier referrer = RPath r) then Some (Ok [T src])
                   else Some (Ok (esmShimFor specifier (RPath r) src))
               end
           end
  end.

End Loaders.

(** ** What masking does *)

(** Every byte is kept or is a blanked byte that was no newline. *)
Definition blanked : bytes → bytes → Prop := Forall2 (fun x y => y = x ∨ (y = 32 ∧ x ≠ 10)).

(** A scanner's outcome: it consumed [a0], leaving [b], and emits [a]. *)
Definition scanned (s : bytes) (o : bytes * bytes) : Prop :=
  ∃ a0, s = a0 ++ o.2 ∧ blanked a0 o.1.

Lemma blanked_refl s : blanked s s.
Proof. induction s; constructor; auto. Qed.

Lemma blank_ok c : blank c = c ∨ (blank c = 32 ∧ c ≠ 10).
Proof. unfold blank. destruct (Z.eqb_spec c 10) as [->|]; auto. Qed.

Lemma scanned_nil : scanned [] ([], []).
Proof. exists []. split; [done|constructor]. Qed.

Lemma scanned_cons c d s a b :
  d = c ∨ (d = 32 ∧ c ≠ 10) → scanned s (a, b) → scanned (c :: s) (d :: a, b).
Proof. intros Hd (a0 & -> & Ha). exists (c :: a0). split; [done|]. by constructor. Qed.

Lemma scanned_stop c d s : d = c ∨ (d = 32 ∧ c ≠ 10) → scanned (c :: s) ([d], s).
Proof. intros Hd. exists [c]. split; [done|]. constructor; [done|constructor]. Qed.

#[local] Hint Resolve blank_ok scanned_nil scanned_cons scanned_stop : core.

Lemma take_while_scanned p s : scanned s (take_while p s).
Proof.
  induction s as [|c s IH]; simpl; [done|]. destruct (p c); [|by exists []; split; [|constructor]].
  destruct (take_while p s). auto.
Qed.

Lemma mask_line_scanned s : scanned s (mask_line s).
Proof.
  induction s as [|c s IH]; simpl; [done|]. destruct (Z.eqb_spec c 10) as [->|]; [auto|].
  destruct (mask_line s). auto.
Qed.

(** The scanners that look two bytes ahead, by induction on the length. *)
Lemma mask_block_scanned s : scanned s (mask_block s).
Proof.
  induction s as [s IH] using (induction_ltof1 _ (@length Z)). unfold ltof in IH.
  destruct s as [|c [|d s]]; simpl; [done|auto|].
  destruct (Z.eqb_spec c 42) as [->|]; simpl.
  - destruct (Z.eqb_spec d 47) as [->|]; [by exists [42; 47]; split; [|repeat constructor; auto]|].
    specialize (IH (d :: s) ltac:(simpl; lia)). simpl in IH. destruct s as [|e s]; [auto|].
    destruct ((d =? 42) && (e =? 47)); [by auto|]. destruct (mask_block (e :: s)). auto.
  - specialize (IH (d :: s) ltac:(simpl; lia)). simpl in IH. destruct s as [|e s]; [auto|].
    destruct ((d =? 42) && (e =? 47)); [by auto|]. destruct (mask_block (e :: s)). auto.
Qed.

Lemma mask_template_scanned s : scanned s (mask_template s).
Proof.
  induction s as [s IH] using (induction_ltof1 _ (@length Z)). unfold ltof in IH.
  destruct s as [|c s]; simpl; [done|].
  destruct (Z.eqb_spec c 92) as [->|]; [|destruct (Z.eqb_spec c 96) as [->|]; [auto|]].
  - destruct s as [|d s]; [auto|]. specialize (IH s ltac:(simpl; lia)).
    destruct (mask_template s). auto.
  - specialize (IH s ltac:(simpl; lia)). destruct (mask_template s). auto.
Qed.

Lemma scan_string_scanned q s : scanned s (scan_string q s).
Proof.
  induction s as [s IH] using (induction_ltof1 _ (@length Z)). unfold ltof in IH.
  destruct s as [|c s]; simpl; [done|]. destruct (c =? q); [auto|].
  destruct (c =? 92).
  - destruct s as [|d s]; [auto|]. specialize (IH s ltac:(simpl; lia)).
    destruct (scan_string q s). auto.
  - specialize (IH s ltac:(simpl; lia)). destruct (scan_string q s). auto.
Qed.

Lemma scanRegex_split b s o : scanRegexLiteral b s = Some o → s = o.1 ++ o.2 ∧ 10 ∉ o.1.
Proof.
  revert b o. induction s as [s IH] using (induction_ltof1 _ (@length Z)). unfold ltof in IH.
  intros b o Ho. destruct s as [|c s]; simpl in Ho; [done|].
  assert (Hrec : ∀ b' a r, c ≠ 10 → scanRegexLiteral b' s = Some (a, r) → c :: s = (c :: a) ++ r ∧ 10 ∉ c :: a).
  { intros b' a r Hc Hr. apply IH in Hr as [Hs Hn]; [|simpl; lia]. simpl in *. rewrite Hs.
    split; [done|]. by apply not_elem_of_cons. }
  destruct (Z.eqb_spec c 92) as [->|].
  - destruct s as [|d s]; [done|]. destruct (Z.eqb_spec d 10); [done|]. destruct (d =? 13); [done|]. simpl in Ho.
    destruct (scanRegexLiteral b s) as [[a r]|] eqn:E; simplify_eq/=.
    apply IH in E as [-> Hn]; [|simpl; lia]. simpl in *. split; [done|].
    by rewrite !not_elem_of_cons.
  - destruct (Z.eqb_spec c 10); [done|]. destruct (c =? 13); [done|]. simpl in Ho.
    destruct (c =? 91); [|destruct (c =? 93); [|destruct ((c =? 47) && negb b)]].
    + destruct (scanRegexLiteral true s) as [[a r]|] eqn:E; simplify_eq/=. eauto.
    + destruct (scanRegexLiteral false s) as [[a r]|] eqn:E; simplify_eq/=. eauto.
    + destruct (take_while_scanned is_lower s) as (a0 & Hs & Ha).
      assert (Hlow : ∀ t, Forall (fun x => is_lower x = true) (take_while is_lower t).1).
      { clear. induction t as [|x t IHt]; simpl; [done|]. destruct (is_lower x) eqn:E; [|done].
        destruct (take_while is_lower t). by constructor. }
      assert (Happ : ∀ t, (take_while is_lower t).1 ++ (take_while is_lower t).2 = t).
      { clear. induction t as [|x t IHt]; simpl; [done|]. destruct (is_lower x); [|done].
        destruct (take_while is_lower t). simpl in *. by rewrite IHt. }
      specialize (Hlow s). specialize (Happ s). destruct (take_while is_lower s) as [f r].
      simplify_eq/=. rewrite not_elem_of_cons. split_and!; [by rewrite ?Happ|congruence|].
      intros H10. by apply (proj1 (Forall_forall _ _) Hlow) in H10.
    + destruct (scanRegexLiteral b s) as [[a r]|] eqn:E; simplify_eq/=. eauto.
Qed.

Lemma blanked_app a b a' b' : blanked a a' → blanked b b' → blanked (a ++ b) (a' ++ b').
Proof. apply Forall2_app. Qed.

Lemma blanked_all s : 10 ∉ s → blanked s (map (fun _ => 32) s).
Proof.
  induction s as [|c s IH]; intros Hs; [constructor|]. apply not_elem_of_cons in Hs as [Hc Hs].
  constructor; [right; split; [done|congruence]|by apply IH].
Qed.

Lemma scanned_then s o (f : bytes → bytes) :
  scanned s o → (∀ r, blanked r (f r)) → blanked s (o.1 ++ f o.2).
Proof. intros (a0 & -> & Ha) Hf. by apply blanked_app. Qed.

Lemma mask_loop_blanked fuel sig w s : blanked s (mask_loop fuel sig w s).
Proof.
  revert sig w s. induction fuel as [|fuel IH]; intros sig w s; [apply blanked_refl|].
  destruct s as [|c s]; [constructor|]. cbn [mask_loop].
  assert (Hcons : ∀ d t, d = c ∨ (d = 32 ∧ c ≠ 10) → blanked s t → blanked (c :: s) (d :: t))
    by by constructor.
  destruct (Z.eqb_spec c 47) as [->|H47].
  - case_bool_decide.
    { pose proof (scanned_then _ _ (mask_loop fuel sig w) (mask_line_scanned (47 :: s)) (IH _ _)).
      by destruct (mask_line (47 :: s)). }
    case_bool_decide.
    { pose proof (scanned_then _ _ (mask_loop fuel sig w) (mask_block_scanned (47 :: s)) (IH _ _)).
      by destruct (mask_block (47 :: s)). }
    destruct (regexCanFollow sig w); [|by auto].
    destruct (scanRegexLiteral false s) as [[a b]|] eqn:E; [|by auto].
    apply scanRegex_split in E as [-> Hn]. simpl in *. apply Hcons; [auto|].
    apply blanked_app; [by apply blanked_all|apply IH].
  - destruct (Z.eqb_spec c 96) as [->|H96].
    { pose proof (scanned_then _ _ (mask_loop fuel (Some 34) []) (mask_template_scanned s) (IH _ _)).
      destruct (mask_template s). apply Hcons; [by right|done]. }
    destruct ((c =? 39) || (c =? 34)).
    { pose proof (scanned_then _ _ (mask_loop fuel (Some 34) []) (scan_string_scanned c s) (IH _ _)).
      destruct (scan_string c s). apply Hcons; [by left|done]. }
    case_bool_decide; [by auto|]. destruct (isIdentByte c); [|by auto].
    destruct (take_while_scanned isIdentByte (c :: s)) as (a0 & Hs & Ha).
    destruct (take_while isIdentByte (c :: s)) as [a b]. simpl in Hs, Ha. rewrite Hs.
    by apply blanked_app.
Qed.

(** Each scanner leaves less than it was given. *)
Lemma scanned_length s o : scanned s o → (length o.2 <= length s)%nat.
Proof. intros (a0 & -> & _). rewrite length_app. lia. Qed.

Lemma mask_loop_fuel fuel fuel' sig w s :
  (length s < fuel)%nat → (fuel <= fuel')%nat → mask_loop fuel' sig w s = mask_loop fuel sig w s.
Proof.
  revert fuel' sig w s. induction fuel as [|fuel IH]; intros fuel' sig w s Hs Hf; [lia|].
  destruct fuel' as [|fuel']; [lia|]. destruct s as [|c s]; [done|]. cbn [mask_loop]. simpl in Hs.
  assert (Hrec : ∀ sig w r, (length r <= length s)%nat → mask_loop fuel' sig w r = mask_loop fuel sig w r)
    by (intros; apply IH; lia).
  destruct (c =? 47).
  - assert (Hl : (length (mask_line (c :: s)).2 <= length s)%nat).
    { simpl. pose proof (scanned_length _ _ (mask_line_scanned s)).
      destruct (c =? 10); [done|]. by destruct (mask_line s). }
    assert (Hb : (length (mask_block (c :: s)).2 <= length s)%nat).
    { simpl. destruct s as [|d s]; [done|]. destruct (_ && _); [simpl; lia|].
      pose proof (scanned_length _ _ (mask_block_scanned (d :: s))). by destruct (mask_block (d :: s)). }
    case_bool_decide; [destruct (mask_line (c :: s)); by rewrite Hrec|].
    case_bool_decide; [destruct (mask_block (c :: s)); by rewrite Hrec|].
    rewrite !Hrec by done. destruct (regexCanFollow sig w); [|done].
    destruct (scanRegexLiteral false s) as [[a b]|] eqn:E; [|done].
    apply scanRegex_split in E as [-> _]. rewrite Hrec; [done|]. simpl. rewrite length_app. lia.
  - pose proof (scanned_length _ _ (mask_template_scanned s)).
    pose proof (scanned_length _ _ (scan_string_scanned c s)).
    destruct (c =? 96); [destruct (mask_template s); by rewrite Hrec|].
    destruct (_ || _); [destruct (scan_string c s); by rewrite Hrec|].
    case_bool_decide; [by rewrite Hrec|]. destruct (isIdentByte c) eqn:Ei; [|by rewrite Hrec].
    simpl. rewrite Ei. pose proof (scanned_length _ _ (take_while_scanned isIdentByte s)).
    destruct (take_while isIdentByte s). by rewrite Hrec.
Qed.

Lemma mask_slash_star_slash fuel sig w s :
  mask_loop (S fuel) sig w (47 :: 42 :: 47 :: s) = [32; 32; 32] ++ mask_loop fuel sig w s.
Proof. reflexivity. Qed.

(** Masking a CommonJS source always gets through the whole text and
    only blanks: the masked source has the same length, every newline stays
    where it was, and every other byte is unchanged or a space - so positions
    found in it are positions of the source. But "/*/", which opens a comment
    in JavaScript, is taken for a complete one: what follows is scanned as
    code. *)
Theorem mask_shape (src : bytes) :
  length (maskCJSSource src) = length src ∧
  (∀ i c, src !! i = Some c →
     maskCJSSource src !! i = Some c ∨ (maskCJSSource src !! i = Some 32 ∧ c ≠ 10)) ∧
  (∀ fuel, (length src < fuel)%nat → mask_loop fuel None [] src = maskCJSSource src) ∧
  maskCJSSource (lit "/*/" ++ src) = lit "   " ++ maskCJSSource src.
Proof.
  pose proof (mask_loop_blanked (S (length src)) None [] src) as Hb.
  split_and!.
  - symmetry. by eapply Forall2_length.
  - intros i c Hi. destruct (Forall2_lookup_l _ _ _ _ _ Hb Hi) as (d & Hd & [->|[-> Hc]]); [by left|by right].
  - intros fuel Hf. apply mask_loop_fuel; lia.
  - unfold maskCJSSource. change (lit "/*/" ++ src) with (47 :: 42 :: 47 :: src).
    rewrite mask_slash_star_slash. cbn [length]. by rewrite (mask_loop_fuel (S (length src)) (S (S (S (length src))))) by lia.
Qed.

Lemma mask_shape_witness :
  let src := lit "a//b" ++ [10; 96; 10; 96] in
  maskCJSSource src = lit "a   " ++ [10; 32; 10; 32] ∧ maskCJSSource src !! 4%nat = Some 10.
Proof.
  intros src. split; [vm_compute; reflexivity|].
  destruct (proj1 (proj2 (mask_shape src)) 4%nat 10 eq_refl) as [H|[_ H]]; [exact H|by destruct H].
Defined.

Example ghost_export :
  own_names (maskCJSSource (lit "/*/ exports.ghost = 1; */ exports.real = 1")) = [lit "ghost"; lit "real"].
Proof. vm_compute. reflexivity. Qed.

(** ** The names a shim declares *)

Definition names_ok (ns : list bytes) : Prop := NoDup ns ∧ Forall (fun n => exportable n = true) ns.

Lemma add_ok ns n : names_ok ns → names_ok (add ns n).
Proof.
  intros [Hd Hf]. unfold add. destruct (exportable n) eqn:E; [|done]. case_bool_decide as Hn; [done|]. simpl.
  split; [|by apply Forall_app; split; [|constructor]].
  apply NoDup_app. split_and!; [done| |apply NoDup_singleton].
  by intros x Hx ->%list_elem_of_singleton.
Qed.

Lemma addAll_ok l ns : names_ok ns → names_ok (addAll ns l).
Proof. unfold addAll. revert ns. induction l as [|n l IH]; simpl; intros ns Hns; [done|]. by apply IH, add_ok. Qed.

Lemma own_names_ok masked : names_ok (own_names masked).
Proof.
  unfold own_names. generalize (FindAll cjsModuleExportsObjRE masked) as l.
  match goal with |- ∀ l, names_ok (foldl _ ?start l) => assert (Hs : names_ok start) end.
  { do 3 apply addAll_ok. split; [apply NoDup_nil_2|by apply Forall_nil]. }
  intros l. revert Hs. generalize (addAll (addAll (addAll [] (map (fun pt => group pt 1) (assignments cjsExportsDotRE masked)))
    (map (fun pt => group pt 1 ++ group pt 2) (assignments cjsExportsBracketRE masked)))
    (map (fun pt => group pt 1 ++ group pt 2) (FindAll cjsDefinePropRE masked))) as ns.
  induction l as [|pt l IH]; simpl; intros ns Hs; [done|]. by apply IH, addAll_ok.
Qed.

Section NamesFacts.
Context {F : Type} `{WritableFS F}.
Context (range : gmap bytes json → list (bytes * json)) (fuel : nat) (fsys : F).
Context (engine : option (bytes → result goerr bool)) (coreExports : bytes → list bytes).

Lemma follow_all_ok analyze p specs ns seen ns' seen' :
  (∀ p src seen ns seen', analyze p src seen = Some (ns, seen') → seen ⊆ seen') →
  follow_all range fuel fsys engine coreExports analyze p specs ns seen = Some (ns', seen') →
  names_ok ns → names_ok ns' ∧ seen ⊆ seen'.
Proof.
  intros Ha. revert ns seen. induction specs as [|spec specs IH]; simpl; intros ns seen Hf Hns.
  { by simplify_eq. }
  destruct (cjsReexportNames _ _ _ _ _ _ _ _) as [[l s1]|] eqn:E; [|done].
  destruct (IH _ _ Hf) as [Hok Hs]; [by apply addAll_ok|]. split; [done|].
  etransitivity; [|exact Hs]. clear -Ha E. unfold cjsReexportNames in E.
  repeat case_match; simplify_eq; try done; [|apply union_subseteq_r].
  etransitivity; [|by eapply Ha]. apply union_subseteq_r.
Qed.

(** What stops the analysis is a resolution that does not end. *)
Lemma follow_all_none analyze p specs ns seen :
  (∀ p src seen, analyze p src seen = None → ∃ spec parent, resolveModule range fuel (Some fsys) spec parent true = None) →
  follow_all range fuel fsys engine coreExports analyze p specs ns seen = None →
  ∃ spec parent, resolveModule range fuel (Some fsys) spec parent true = None.
Proof.
  intros Ha. revert ns seen. induction specs as [|spec specs IH]; simpl; intros ns seen Hf; [done|].
  destruct (cjsReexportNames _ _ _ _ _ _ _ _) as [[l s1]|] eqn:E; [by eapply IH|].
  unfold cjsReexportNames in E. destruct (resolveModule _ _ _ spec p true) as [r|] eqn:Hr; [|eauto].
  repeat case_match; simplify_eq. by eapply Ha.
Qed.

Lemma cjs_names_none levels p src seen :
  cjsExportNames range fuel fsys engine coreExports levels p src seen = None →
  ∃ spec parent, resolveModule range fuel (Some fsys) spec parent true = None.
Proof.
  revert p src seen. induction levels as [|levels IH]; intros p src seen Hc; [done|]. by eapply follow_all_none.
Qed.

Lemma cjs_names_ok levels p src seen ns seen' :
  cjsExportNames range fuel fsys engine coreExports levels p src seen = Some (ns, seen') → names_ok ns ∧ seen ⊆ seen'.
Proof.
  revert p src seen ns seen'. induction levels as [|levels IH]; intros p src seen ns seen' Hc; simpl in Hc.
  - simplify_eq. split; [split; [apply NoDup_nil_2|by apply Forall_nil]|done].
  - eapply follow_all_ok; [|exact Hc|apply own_names_ok]. intros. by eapply IH.
Qed.

(** C8: The names declared for a CommonJS file are fit to be declared: whatever
    the source says and whatever files it re-exports, chains and cycles
    included, they are distinct, match the pattern of identifiers, are none of
    the words of the package's list of reserved ones, are not "default", and
    are none of the shim's own bindings; the analysis only adds to the files it
    has seen, at the end of its nine levels it finds no names, and it comes to an
    end unless the resolution of some specifier does not. (The list leaves out
    words that only strict code reserves: strict_words_pass.) *)
Theorem cjs_names_wellformed (levels : nat) (p src : bytes) (seen : gset bytes) :
  (∀ names seen', cjsExportNames range fuel fsys engine coreExports levels p src seen = Some (names, seen') →
     NoDup names ∧ seen ⊆ seen' ∧
     (∀ n, n ∈ names → identRE n = true ∧ (n ∉ reservedWords) ∧ n ≠ lit "default" ∧
                       n ≠ lit "__cjs_default__" ∧ n ≠ lit "__cjs_ns__") ∧
     (levels = 0%nat → names = [] ∧ seen' = seen)) ∧
  (cjsExportNames range fuel fsys engine coreExports levels p src seen = None →
     ∃ spec parent, resolveModule range fuel (Some fsys) spec parent true = None).
Proof.
  split; [|by apply cjs_names_none]. intros names seen' Hnames. pose proof (cjs_names_ok _ _ _ _ _ _ Hnames) as [[Hd Hf] Hs].
  split_and!; [done|done| |].
  - intros n Hn. apply (proj1 (Forall_forall _ _) Hf) in Hn. unfold exportable, shim_name in Hn. by bool_to_prop.
  - intros ->. simpl in Hnames. by simplify_eq.
Qed.

End NamesFacts.

(** ** One instance per ES module *)

Lemma utf8_valid_bytes p : Utf8.valid p = true → Forall is_byte p.
Proof.
  unfold Utf8.valid. rewrite bool_decide_eq_true.
  assert (Hst : ∀ p s s', st_ok s → (match s with Utf8.Start => True | Utf8.More _ _ hi => hi <= 191 end) →
    Utf8.run s p = Some s' → Forall is_byte p); [|by apply Hst].
  clear. induction p as [|c p IH]; intros s s' Hok Hhi Hr; [constructor|]. simpl in Hr.
  destruct (Utf8.step s c) as [t|] eqn:E; [|done].
  assert (Hc : is_byte c ∧ match t with Utf8.Start => True | Utf8.More _ _ hi => hi <= 191 end).
  { unfold is_byte. destruct s as [|k lo hi]; simpl in *; unfold in_range in *;
      repeat case_match; simplify_eq/=; bool_to_prop; (split; [|lia || done]); lia. }
  destruct Hc as [Hc Ht]. constructor; [done|]. eapply IH; [by eapply utf8_step_ok|done|done].
Qed.

Lemma clean_valid p : ValidPath p = true → Path.clean p = p.
Proof.
  intros (ws & -> & Hg & _)%ValidPath_segs. destruct (decide (ws = [])) as [->|Hne]; [done|].
  rewrite seg_name_join by done. by apply clean_good.
Qed.

Lemma valid_head p : ValidPath p = true → head p ≠ Some ch_slash.
Proof.
  intros (ws & -> & Hg & _)%ValidPath_segs. destruct (decide (ws = [])) as [->|Hne]; [done|].
  rewrite seg_name_join by done. by apply good_segs_join_head.
Qed.

Lemma canonical_url_path p : ValidPath p = true → fileURLToFSPath (canonical_url p) = ch_slash :: p.
Proof.
  intros Hp. unfold fileURLToFSPath, canonical_url.
  change (lit "file:///" ++ ?x) with (lit "file://" ++ ch_slash :: x). rewrite cut_prefix_app.
  change (trim_left ch_slash (ch_slash :: ?x)) with (trim_left ch_slash x).
  rewrite trim_left_head by by apply encode_head_slash, valid_head.
  rewrite percentDecode_loop, pd_loop_encode; [done|].
  apply utf8_valid_bytes. unfold ValidPath in Hp. by bool_to_prop.
Qed.

Lemma first_candidate `{WritableFS F} (fsys : F) p :
  isFile fsys p = true → find_file fsys (file_candidates p) = Some p.
Proof. intros Hp. unfold find_file, file_candidates. simpl. by rewrite Hp. Qed.

Lemma isFile_valid `{WritableFS F} (fsys : F) p : isFile fsys p = true → ValidPath p = true.
Proof. unfold isFile. by destruct (ValidPath p). Qed.

(** Resolving the canonical URL of a file gives the file. *)
Lemma resolve_canonical `{WritableFS F} (range : gmap bytes json → list (bytes * json)) fuel (fsys : F) p parent cjs :
  isFile fsys p = true →
  resolveModule range (S fuel) (Some fsys) (canonical_url p) parent cjs = Some (Ok (finish fsys p)).
Proof.
  intros Hp. pose proof (isFile_valid _ _ Hp) as Hv. pose proof (canonical_url_path p Hv) as Hurl.
  assert (Hscheme : ∀ x, cut_prefix (lit "file:///" ++ x) (lit "node:") = None ∧
    isCore (lit "file:///" ++ x) = false ∧ has_prefix (lit "file:///" ++ x) (lit "#") = false ∧
    is_relative (ch_slash :: x) = false) by (intros x; split_and!; reflexivity).
  unfold resolveModule. destruct (Hscheme (fsPathToFileURLPath p)) as (Hnode & Hcore & Hhash & _).
  change (lit "file:///" ++ fsPathToFileURLPath p) with (canonical_url p) in *.
  rewrite Hnode, Hcore, Hhash, Hurl. destruct (Hscheme p) as (_ & _ & _ & ->).
  change (cut_prefix (ch_slash :: p) (lit "/")) with (cut_prefix ([ch_slash] ++ p) [ch_slash]).
  rewrite cut_prefix_app, clean_valid by done. cbn [loadAsFileOrDir]. by rewrite first_candidate.
Qed.

(** Every ES module has one instance and a real URL: however a file is
    spelled - bare, relative, without its extension - the loader's answer for
    anything but the file's canonical file: URL is a shim that re-exports
    from exactly that URL, and asking for that URL, from anywhere, gives the
    source of the same file, unchanged. *)
Theorem esm_canonical_instance `{WritableFS F} (range : gmap bytes json → list (bytes * json))
    (engine : option (bytes → result goerr bool)) (coreExports : bytes → list bytes)
    (fsys : F) (fuel fuel' : nat) (spec referrer referrer' : bytes) (r : resolution) (src : bytes)
    (Hr : resolveModule range fuel (Some fsys) spec referrer false = Some (Ok r)) (Hfile : Core r = [])
    (Hsrc : fs_read fsys (RPath r) = Ok src)
    (Hkind : Kind (refineKind engine (Some fsys) r (Some src)) = kindESM) :
  let canonical := canonical_url (RPath r) in
  esmLoader range fuel engine coreExports (Some fsys) spec referrer =
    Some (Ok (if bool_decide (spec = canonical) then [T src] else canonicalESMShim canonical src)) ∧
  esmLoader range (S fuel') engine coreExports (Some fsys) canonical referrer' = Some (Ok [T src]) ∧
  fileURLToFSPath canonical = ch_slash :: RPath r.
Proof.
  intros canonical.
  destruct (resolved_file range fsys fuel spec referrer false r Hr Hfile) as [Hf Heq].
  assert (Hpath : ∀ r, RPath (refineKind engine (Some fsys) r (Some src)) = RPath r)
    by (intros r'; unfold refineKind; by repeat case_match).
  split_and!.
  - unfold esmLoader. rewrite Hr, Hfile. simpl. rewrite Hsrc, Hkind, Hpath. fold canonical. by destruct (bool_decide _).
  - unfold esmLoader, canonical. rewrite resolve_canonical, <-Heq by done. rewrite Hfile. simpl.
    rewrite Hsrc, Hkind, Hpath. by rewrite bool_decide_true.
  - by apply canonical_url_path, isFile_valid with fsys.
Qed.

(** A module is strict code, in which none of these can be declared. *)
Example strict_words_pass :
  forallb exportable (map lit ["implements"; "interface"; "package"; "private"; "protected"; "public"; "eval"; "arguments"]%string) = true.
Proof. vm_compute. reflexivity. Qed.

Lemma cjs_names_wellformed_witness :
  let fsys := foldl MemFS.exec (MemFS.NewMemFS 0)
    [MemFS.CWriteFile (lit "b.js") (lit "module.exports = require('./a.js'); exports.b = exports.class = 1") 420 2] in
  let src := lit "exports.x = exports.y = 1; module.exports = require('./b.js'); // exports.z = 2" in
  cjsExportNames (H := MemFS.memfs_fs 5) map_to_list 9 fsys None (fun _ => []) 9 (lit "a.js") src {[ lit "a.js" ]}
    = Some ([lit "x"; lit "y"; lit "b"], {[ lit "b.js"; lit "a.js" ]}) ∧
  NoDup [lit "x"; lit "y"; lit "b"].
Proof.
  intros fsys src.
  assert (Hn : cjsExportNames (H := MemFS.memfs_fs 5) map_to_list 9 fsys None (fun _ => []) 9 (lit "a.js") src {[ lit "a.js" ]}
    = Some ([lit "x"; lit "y"; lit "b"], {[ lit "b.js"; lit "a.js" ]})) by (vm_compute; reflexivity).
  split; [exact Hn|].
  apply (proj1 (cjs_names_wellformed (H := MemFS.memfs_fs 5) map_to_list 9 fsys None (fun _ => []) 9 _ _ _) _ _ Hn).
Defined.

Lemma esm_canonical_instance_witness :
  let load spec := esmLoader (H := MemFS.memfs_fs 5) map_to_list 9 None (fun _ => []) (Some demo_app)
                     (lit spec) (lit "file:///lib/m.js") in
  load "p/a" = Some (Ok [T (lit "export * from "); Q (lit "file:///node_modules/p/src/a.js"); T (line ";")]) ∧
  load "file:///node_modules/p/src/a.js" = Some (Ok [T (lit "export {}")]).
Proof.
  intros load. unfold load.
  destruct (esm_canonical_instance (H := MemFS.memfs_fs 5) map_to_list None (fun _ => []) demo_app 9 8
              (lit "p/a") (lit "file:///lib/m.js") (lit "file:///lib/m.js")
              (MkRes [] (lit "node_modules/p/src/a.js") kindESM false) (lit "export {}"))
    as (H1 & H2 & _).
  - vm_compute. reflexivity.
  - reflexivity.
  - vm_compute. reflexivity.
  - reflexivity.
  - split; [rewrite H1; vm_compute; reflexivity|]. exact H2.
Defined.
