(* ===== verification/EventLoop.v ===== *)
(** compat/internal/eventloop/eventloop.go: the macro-task loop. Timers and
    immediates are shared objects of a heap (a repeating timer is in the armed
    table and in the batch of the current turn at once); the guest - the
    callbacks, posted completions and microtask drains - is an environment
    that answers each time with the loop calls it makes and an optional
    error. Calls of other goroutines are among those. *)

From S2P Require Import Prelude.

(** ** State *)

(** Guest callback handles ([*spidermonkey.Object]) are named by integers. *)
Record timer := MkTimer {
  t_due : Z; t_interval : Z; t_fn : option Z;
  t_running : bool; t_cleared : bool; t_unref : bool
}.

Record immediate := MkImmediate { im_fn : option Z; im_cleared : bool }.

(** What the loop does, in order: the call of a timer or an immediate through
    its handle, the release of a handle, and a clear request for an id that
    has been issued. *)
Inductive event :=
| EvCallT (id h : Z)
| EvCallI (id h : Z)
| EvFree (h : Z)
| EvClearT (id : Z)
| EvClearI (id : Z).

#[export] Instance event_eq_dec : EqDecision event.
Proof. solve_decision. Defined.

(** [l_theap] and [l_iheap] hold the timer and immediate objects by id;
    [l_timers] is the key set of the map of armed timers. [l_given] and
    [l_log] record, for the specification only, the handles the loop was
    given and what it did with them. *)
Record Loop := MkLoop {
  l_nextID : Z;
  l_theap : gmap Z timer;
  l_timers : gset Z;
  l_dueBatch : list Z;
  l_iheap : gmap Z immediate;
  l_immediates : list Z;
  l_batch : list Z;
  l_posts : list Z;
  l_pending : Z;
  l_unrefPending : Z;
  l_wake : bool;
  l_given : list Z;
  l_log : list event
}.

Definition New : Loop := MkLoop 0 ∅ ∅ [] ∅ [] [] [] 0 0 false [] [].

Definition ms : Z := 1000000.

(** Field updates. *)
Definition set_theap (f : gmap Z timer → gmap Z timer) (l : Loop) : Loop :=
  MkLoop (l_nextID l) (f (l_theap l)) (l_timers l) (l_dueBatch l) (l_iheap l) (l_immediates l)
    (l_batch l) (l_posts l) (l_pending l) (l_unrefPending l) (l_wake l) (l_given l) (l_log l).
Definition set_timers (x : gset Z) (l : Loop) : Loop :=
  MkLoop (l_nextID l) (l_theap l) x (l_dueBatch l) (l_iheap l) (l_immediates l)
    (l_batch l) (l_posts l) (l_pending l) (l_unrefPending l) (l_wake l) (l_given l) (l_log l).
Definition set_dueBatch (x : list Z) (l : Loop) : Loop :=
  MkLoop (l_nextID l) (l_theap l) (l_timers l) x (l_iheap l) (l_immediates l)
    (l_batch l) (l_posts l) (l_pending l) (l_unrefPending l) (l_wake l) (l_given l) (l_log l).
Definition set_iheap (f : gmap Z immediate → gmap Z immediate) (l : Loop) : Loop :=
  MkLoop (l_nextID l) (l_theap l) (l_timers l) (l_dueBatch l) (f (l_iheap l)) (l_immediates l)
    (l_batch l) (l_posts l) (l_pending l) (l_unrefPending l) (l_wake l) (l_given l) (l_log l).
Definition set_immediates (x : list Z) (l : Loop) : Loop :=
  MkLoop (l_nextID l) (l_theap l) (l_timers l) (l_dueBatch l) (l_iheap l) x
    (l_batch l) (l_posts l) (l_pending l) (l_unrefPending l) (l_wake l) (l_given l) (l_log l).
Definition set_batch (x : list Z) (l : Loop) : Loop :=
  MkLoop (l_nextID l) (l_theap l) (l_timers l) (l_dueBatch l) (l_iheap l) (l_immediates l)
    x (l_posts l) (l_pending l) (l_unrefPending l) (l_wake l) (l_given l) (l_log l).
Definition set_posts (x : list Z) (l : Loop) : Loop :=
  MkLoop (l_nextID l) (l_theap l) (l_timers l) (l_dueBatch l) (l_iheap l) (l_immediates l)
    (l_batch l) x (l_pending l) (l_unrefPending l) (l_wake l) (l_given l) (l_log l).
Definition set_pending (x y : Z) (l : Loop) : Loop :=
  MkLoop (l_nextID l) (l_theap l) (l_timers l) (l_dueBatch l) (l_iheap l) (l_immediates l)
    (l_batch l) (l_posts l) x y (l_wake l) (l_given l) (l_log l).
Definition set_wake (x : bool) (l : Loop) : Loop :=
  MkLoop (l_nextID l) (l_theap l) (l_timers l) (l_dueBatch l) (l_iheap l) (l_immediates l)
    (l_batch l) (l_posts l) (l_pending l) (l_unrefPending l) x (l_given l) (l_log l).
Definition set_log (x : list event) (l : Loop) : Loop :=
  MkLoop (l_nextID l) (l_theap l) (l_timers l) (l_dueBatch l) (l_iheap l) (l_immediates l)
    (l_batch l) (l_posts l) (l_pending l) (l_unrefPending l) (l_wake l) (l_given l) x.
(** A handle is handed over with a fresh id. *)
Definition take_handle (h : Z) (l : Loop) : Loop :=
  MkLoop (l_nextID l + 1) (l_theap l) (l_timers l) (l_dueBatch l) (l_iheap l) (l_immediates l)
    (l_batch l) (l_posts l) (l_pending l) (l_unrefPending l) (l_wake l) (l_given l ++ [h]) (l_log l).

Definition emit (e : event) (l : Loop) : Loop := set_log (l_log l ++ [e]) l.

Definition wakeup (l : Loop) : Loop := set_wake true l.

Definition with_fn (f : option Z) (t : timer) : timer :=
  MkTimer (t_due t) (t_interval t) f (t_running t) (t_cleared t) (t_unref t).
Definition with_running (b : bool) (t : timer) : timer :=
  MkTimer (t_due t) (t_interval t) (t_fn t) b (t_cleared t) (t_unref t).
Definition with_cleared (b : bool) (t : timer) : timer :=
  MkTimer (t_due t) (t_interval t) (t_fn t) (t_running t) b (t_unref t).
Definition with_unref (b : bool) (t : timer) : timer :=
  MkTimer (t_due t) (t_interval t) (t_fn t) (t_running t) (t_cleared t) b.
Definition with_due (d : Z) (t : timer) : timer :=
  MkTimer d (t_interval t) (t_fn t) (t_running t) (t_cleared t) (t_unref t).

(** ** Releasing handles *)

(** timer.freeFn. *)
Definition freeTimer (id : Z) (l : Loop) : Loop :=
  match l_theap l !! id with
  | Some t => match t_fn t with
              | Some h => emit (EvFree h) (set_theap (insert id (with_fn None t)) l)
              | None => l
              end
  | None => l
  end.

(** immediate.freeFn. *)
Definition freeImmediate (id : Z) (l : Loop) : Loop :=
  match l_iheap l !! id with
  | Some im => match im_fn im with
               | Some h => emit (EvFree h) (set_iheap (insert id (MkImmediate None (im_cleared im))) l)
               | None => l
               end
  | None => l
  end.

(** ** The calls the guest and other goroutines make *)

Definition clamp_delay (delay : Z) (repeat : bool) : Z :=
  let delay := if delay <? 0 then 0 else delay in
  let delay := if 2147483647 * ms <? delay then ms else delay in
  if repeat && (delay <? ms) then ms else delay.

(** SetTimer; the id is [l_nextID] of the result. *)
Definition SetTimer (fn delay : Z) (repeat : bool) (now : Z) (l : Loop) : Loop :=
  let d := clamp_delay delay repeat in
  let l := take_handle fn l in
  let id := l_nextID l in
  let t := MkTimer (now + d) (if repeat then d else 0) (Some fn) false false false in
  wakeup (set_timers ({[ id ]} ∪ l_timers l) (set_theap (insert id t) l)).

Definition ClearTimer (id : Z) (l : Loop) : Loop :=
  if bool_decide (id ∈ l_timers l) then
    let l1 := set_timers (l_timers l ∖ {[ id ]}) (set_theap (alter (with_cleared true) id) l) in
    if from_option t_running true (l_theap l !! id) then l1 else freeTimer id l1
  else if bool_decide (id ∈ l_dueBatch l) then
    let l1 := set_theap (alter (with_cleared true) id) l in
    if from_option t_running true (l_theap l !! id) then l1 else freeTimer id l1
  else l.

Definition SetTimerRef (id : Z) (ref : bool) (l : Loop) : Loop :=
  wakeup
    (if bool_decide (id ∈ l_timers l) || bool_decide (id ∈ l_dueBatch l)
     then set_theap (alter (with_unref (negb ref)) id) l
     else l).

Definition PostImmediate (fn : Z) (l : Loop) : Loop :=
  let l := take_handle fn l in
  let id := l_nextID l in
  wakeup (set_immediates (l_immediates l ++ [id])
            (set_iheap (insert id (MkImmediate (Some fn) false)) l)).

Definition ClearImmediate (id : Z) (l : Loop) : Loop :=
  if bool_decide (id ∈ l_immediates l) || bool_decide (id ∈ l_batch l)
  then set_iheap (alter (fun im => MkImmediate (im_fn im) true) id) l
  else l.

Definition Post (f : Z) (l : Loop) : Loop := wakeup (set_posts (l_posts l ++ [f]) l).
Definition AddPending (l : Loop) : Loop := set_pending (l_pending l + 1) (l_unrefPending l) l.
Definition DonePending (l : Loop) : Loop :=
  wakeup (set_pending (l_pending l - 1) (l_unrefPending l) l).
Definition Unref (l : Loop) : Loop := wakeup (set_pending (l_pending l) (l_unrefPending l + 1) l).
Definition Ref (l : Loop) : Loop :=
  if 0 <? l_unrefPending l then set_pending (l_pending l) (l_unrefPending l - 1) l else l.

Inductive api :=
| ASetTimer (fn delay : Z) (repeat : bool) (now : Z)
| AClearTimer (id : Z)
| ASetTimerRef (id : Z) (ref : bool)
| APostImmediate (fn : Z)
| AClearImmediate (id : Z)
| APost (f : Z)
| AAddPending | ADonePending | AUnref | ARef.

(** Note a clear request in the log. *)
Definition note_clear (e : event) (id : Z) (l : Loop) : Loop :=
  if id <=? l_nextID l then emit e l else l.

Definition exec (a : api) (l : Loop) : Loop :=
  match a with
  | ASetTimer fn delay repeat now => SetTimer fn delay repeat now l
  | AClearTimer id => note_clear (EvClearT id) id (ClearTimer id l)
  | ASetTimerRef id ref => SetTimerRef id ref l
  | APostImmediate fn => PostImmediate fn l
  | AClearImmediate id => note_clear (EvClearI id) id (ClearImmediate id l)
  | APost f => Post f l
  | AAddPending => AddPending l
  | ADonePending => DonePending l
  | AUnref => Unref l
  | ARef => Ref l
  end.

Definition execs (as_ : list api) (l : Loop) : Loop := foldl (fun l a => exec a l) l as_.

(** ** takeDue *)

Definition due_of (l : Loop) (id : Z) : Z := from_option t_due 0 (l_theap l !! id).

Definition less (l : Loop) (a b : Z) : bool :=
  if due_of l a =? due_of l b then a <? b else due_of l a <? due_of l b.

(** One round of the insertion sort: [a] moves left past the elements it is
    less than. *)
Fixpoint insert_due (l : Loop) (a : Z) (ids : list Z) : list Z :=
  match ids with
  | [] => [a]
  | b :: ids' => if less l a b then a :: b :: ids' else b :: insert_due l a ids'
  end.

Definition sort_due (l : Loop) (ids : list Z) : list Z :=
  foldl (fun acc a => insert_due l a acc) [] ids.

Definition mark_due (now : Z) (l : Loop) (id : Z) : Loop :=
  match l_theap l !! id with
  | Some t =>
      if 0 <? t_interval t then
        set_theap (insert id (with_due (now + t_interval t) (with_running true t))) l
      else set_timers (l_timers l ∖ {[ id ]}) (set_theap (insert id (with_running true t)) l)
  | None => l
  end.

(** [order] is the order in which the iteration over the map of armed timers
    produces the ids. *)
Definition takeDue (now : Z) (order : list Z) (l : Loop) : list Z * Loop :=
  let due := sort_due l (filter (fun id => due_of l id <= now) order) in
  (due, set_dueBatch due (foldl (mark_due now) l due)).

(** ** Reset and ClearTimers (the loop is idle) *)

Definition free_all (l : Loop) (timers due imms batch : list Z) : Loop :=
  let l := foldl (fun l id => freeTimer id l) l timers in
  let l := foldl (fun l id => freeTimer id l) l due in
  let l := foldl (fun l id => freeImmediate id l) l imms in
  foldl (fun l id => freeImmediate id l) l batch.

Definition ClearTimers (l : Loop) : Loop :=
  let l1 := set_batch [] (set_dueBatch [] (set_immediates [] (set_timers ∅ l))) in
  free_all l1 (elements (l_timers l)) (l_dueBatch l) (l_immediates l) (l_batch l).

(** Reset after its drain of leftover engine jobs, whose calls are [drained]. *)
Definition Reset (drained : list api) (l : Loop) : Loop :=
  let l := execs drained l in
  let l1 := set_pending 0 0 (set_posts [] (set_batch [] (set_dueBatch []
              (set_immediates [] (set_timers ∅ l))))) in
  free_all l1 (elements (l_timers l)) (l_dueBatch l) (l_immediates l) (l_batch l).

(** ** run *)

Section Run.
Context {W E : Type}.

(** The guest and the host around the loop: what one call into them does.
    [g_drain] is the installed microtask hook or the engine's job queue,
    [g_sleep] the select at the end of a turn, told the earliest due time and
    whether the wake-up token is there (an error is a context that is done,
    [Ok true] is taking the token); each may make loop calls. *)
Record guest := MkGuest {
  g_ctx : W → option E;
  g_call : Z → W → W * list api * option E;
  g_post : Z → W → W * list api * option E;
  g_drain : W → W * list api * option E;
  g_report : option (W → W * list api * result E bool);
  g_stop : option (W → W * list api * bool);
  g_now : W → W * Z;
  g_order : W → gset Z → list Z;
  g_sleep : option Z → bool → W → W * list api * result E bool
}.
Context (g : guest).

(** The loop either goes on with a value, returns from run (with an error or
    nil), calls through a handle that is already released, or runs out of
    fuel. *)
Inductive outcome (A : Type) :=
| Next (a : A) (w : W) (l : Loop)
| Return (e : option E) (w : W) (l : Loop)
| Panic
| NoFuel.
Arguments Next {A} a w l.
Arguments Return {A} e w l.
Arguments Panic {A}.
Arguments NoFuel {A}.

Definition M (A : Type) : Type := W → Loop → outcome A.

Definition ret {A} (a : A) : M A := fun w l => Next a w l.
Definition bind {A B} (m : M A) (f : A → M B) : M B := fun w l =>
  match m w l with
  | Next a w' l' => f a w' l'
  | Return e w' l' => Return e w' l'
  | Panic => Panic
  | NoFuel => NoFuel
  end.
Notation "x <- m ;; k" := (bind m (fun x => k)) (at level 62, m at next level, right associativity).
Notation "m ;;; k" := (bind m (fun _ => k)) (at level 62, right associativity).

Definition modify (f : Loop → Loop) : M unit := fun w l => Next tt w (f l).
Definition get : M Loop := fun w l => Next l w l.

(** Run a piece of the environment; its error makes run return it. *)
Definition guest_step (f : W → W * list api * option E) : M unit := fun w l =>
  let '(w', as_, e) := f w in
  match e with
  | Some e => Return (Some e) w' (execs as_ l)
  | None => Next tt w' (execs as_ l)
  end.

Definition check_ctx : M unit := fun w l =>
  match g_ctx g w with Some e => Return (Some e) w l | None => Next tt w l end.

Definition check_stop : M unit := fun w l =>
  match g_stop g with
  | None => Next tt w l
  | Some f => let '(w', as_, b) := f w in
              if b then Return None w' (execs as_ l) else Next tt w' (execs as_ l)
  end.

Fixpoint drainMicro (fuel : nat) : M unit :=
  match fuel with
  | O => fun _ _ => NoFuel
  | S fuel' =>
      guest_step (g_drain g) ;;;
      match g_report g with
      | None => ret tt
      | Some r => fun w l =>
          let '(w', as_, res) := r w in
          match res with
          | Err e => Return (Some e) w' (execs as_ l)
          | Ok false => Next tt w' (execs as_ l)
          | Ok true => drainMicro fuel' w' (execs as_ l)
          end
      end
  end.

(** One timer of the batch. The state after the callback is settled before
    its error is looked at. *)
Definition run_timer (fuel : nat) (id : Z) : M unit := fun w l =>
  match l_theap l !! id with
  | None => Panic
  | Some t =>
      if t_cleared t then Next tt w (freeTimer id l)
      else match t_fn t with
           | None => Panic
           | Some h =>
               let '(w1, as_, e) := g_call g h w in
               let l1 := execs as_ (emit (EvCallT id h) l) in
               let l2 := set_theap (alter (with_running false) id) l1 in
               let free := match l_theap l2 !! id with
                           | Some t' => (t_interval t' =? 0) || t_cleared t'
                           | None => false
                           end in
               let l3 := if free then freeTimer id l2 else l2 in
               match e with
               | Some e => Return (Some e) w1 l3
               | None => drainMicro fuel w1 l3
               end
           end
  end.

Fixpoint run_due (fuel : nat) (ids : list Z) : M unit :=
  match ids with
  | [] => ret tt
  | id :: ids' => run_timer fuel id ;;; run_due fuel ids'
  end.

Fixpoint run_posts (fuel : nat) : M unit :=
  match fuel with
  | O => fun _ _ => NoFuel
  | S fuel' => fun w l =>
      match l_posts l with
      | [] => Next tt w l
      | f :: rest =>
          (guest_step (g_post g f) ;;; drainMicro fuel' ;;; run_posts fuel') w (set_posts rest l)
      end
  end.

Definition run_immediate (fuel : nat) (id : Z) : M unit := fun w l =>
  match l_iheap l !! id with
  | None => Panic
  | Some im =>
      if im_cleared im then Next tt w (freeImmediate id l)
      else match im_fn im with
           | None => Panic
           | Some h =>
               let '(w1, as_, e) := g_call g h w in
               let l1 := freeImmediate id (execs as_ (emit (EvCallI id h) l)) in
               match e with
               | Some e => Return (Some e) w1 l1
               | None => drainMicro fuel w1 l1
               end
           end
  end.

Fixpoint run_batch (fuel : nat) (ids : list Z) : M unit :=
  match ids with
  | [] => ret tt
  | id :: ids' => run_immediate fuel id ;;; run_batch fuel ids'
  end.

Definition armed (l : Loop) : list timer := omap (fun id => l_theap l !! id) (elements (l_timers l)).

Definition next_due (l : Loop) : option Z :=
  foldr (fun t acc => match acc with
                      | None => Some (t_due t)
                      | Some n => Some (Z.min (t_due t) n)
                      end) None (armed l).

Definition hasRefTimer (l : Loop) : bool := existsb (fun t => negb (t_unref t)) (armed l).

Definition idle (l : Loop) : bool :=
  negb (hasRefTimer l) && (l_pending l - l_unrefPending l <=? 0) &&
  bool_decide (l_posts l = []) && bool_decide (l_immediates l = []).

Definition sleep : M unit := fun w l =>
  let '(w', as_, res) := g_sleep g (next_due l) (l_wake l) w in
  match res with
  | Err e => Return (Some e) w' (execs as_ l)
  | Ok taken => let l' := execs as_ l in Next tt w' (if taken then set_wake false l' else l')
  end.

Definition timers_phase (fuel : nat) : M unit := fun w l =>
  let '(w1, now) := g_now g w in
  let '(due, l1) := takeDue now (g_order g w1 (l_timers l)) l in
  run_due fuel due w1 l1.

Definition check_phase (fuel : nat) : M unit := fun w l =>
  run_batch fuel (l_immediates l) w (set_batch (l_immediates l) (set_immediates [] l)).

Definition turn (fuel : nat) : M unit :=
  check_ctx ;;;
  check_stop ;;;
  drainMicro fuel ;;;
  check_stop ;;;
  timers_phase fuel ;;;
  modify (set_dueBatch []) ;;;
  check_stop ;;;
  run_posts fuel ;;;
  check_stop ;;;
  check_phase fuel ;;;
  modify (set_batch []) ;;;
  (fun w l => if idle l then Return None w l else Next tt w l) ;;;
  check_stop ;;;
  sleep.

Fixpoint run (fuel turns : nat) : M unit :=
  match turns with
  | O => fun _ _ => NoFuel
  | S turns' => turn fuel ;;; run fuel turns'
  end.
End Run.
Arguments Next {W E A} a w l.
Arguments Return {W E A} e w l.
Arguments Panic {W E A}.
Arguments NoFuel {W E A}.

(** ** Hosts: what drives a loop from the outside *)

Inductive host_op :=
| HCalls (as_ : list api)     (* calls while the loop is not running *)
| HClearTimers
| HReset (drained : list api).

Definition host_exec (o : host_op) (l : Loop) : Loop :=
  match o with
  | HCalls as_ => execs as_ l
  | HClearTimers => ClearTimers l
  | HReset drained => Reset drained l
  end.

(** A host that makes calls, clears and resets the loop and runs it, in any
    order. A tidy host clears or resets the loop after a run that left
    unfinished batches before it runs the loop again. *)
Inductive host_step {W E} (g : guest (W := W) (E := E)) (tidy : Prop) : W * Loop → W * Loop → Prop :=
| hs_op o w l : host_step g tidy (w, l) (w, host_exec o l)
| hs_run fuel turns w l e w' l' :
    (tidy → l_dueBatch l = [] ∧ l_batch l = []) →
    run g fuel turns w l = Return e w' l' →
    host_step g tidy (w, l) (w', l').

(** The map iteration produces every armed timer once. *)
Definition guest_ok {W E} (g : guest (W := W) (E := E)) : Prop :=
  ∀ w s, g_order g w s ≡ₚ elements s.

(** ** The invariant *)

(** The handles the objects of a heap hold. *)
Definition handles {T} (f : T → option Z) (m : gmap Z T) : list Z :=
  omap (fun p => f p.2) (map_to_list m).

Definition live (l : Loop) : list Z := handles t_fn (l_theap l) ++ handles im_fn (l_iheap l).

Definition frees (log : list event) : list Z :=
  omap (fun e => match e with EvFree h => Some h | _ => None end) log.

(** The calls of a log: [inl] a timer, [inr] an immediate. *)
Definition calls (log : list event) : list (Z + Z) :=
  omap (fun e => match e with
                 | EvCallT id _ => Some (inl id)
                 | EvCallI id _ => Some (inr id)
                 | _ => None
                 end) log.

(** Nothing is called after it was cleared. *)
Definition no_call_after_clear (log : list event) : Prop :=
  ∀ pre e post, log = pre ++ e :: post →
    match e with
    | EvCallT id _ => EvClearT id ∉ pre
    | EvCallI id _ => EvClearI id ∉ pre
    | _ => True
    end.

(** Nothing is called through a handle that was released. *)
Definition no_call_after_free (log : list event) : Prop :=
  ∀ pre e post, log = pre ++ e :: post →
    match e with
    | EvCallT _ h | EvCallI _ h => EvFree h ∉ pre
    | _ => True
    end.

Definition timer_live (l : Loop) (id : Z) (t : timer) : Prop :=
  l_theap l !! id = Some t ∧ is_Some (t_fn t).
Definition imm_live (l : Loop) (id : Z) (im : immediate) : Prop :=
  l_iheap l !! id = Some im ∧ is_Some (im_fn im).

(** [R] are the timers of the current batch still to run (the one running
    first), [B] the immediates of the check phase still to run, [S] what an
    aborted earlier turn left behind. *)
Record inv (R B : list Z) (S : gset Z) (l : Loop) : Prop := {
  i_tdom id t : l_theap l !! id = Some t → id <= l_nextID l;
  i_idom id im : l_iheap l !! id = Some im → id <= l_nextID l;
  i_timers id : id ∈ l_timers l → ∃ t, timer_live l id t ∧ t_cleared t = false;
  i_R_nodup : NoDup R;
  i_R id : id ∈ R → ∃ t, timer_live l id t ∧ t_running t = true;
  i_R_due : R ⊆ l_dueBatch l;
  i_interval id t : l_theap l !! id = Some t → 0 <= t_interval t;
  i_repeat id t : timer_live l id t → 0 < t_interval t → t_cleared t = false → id ∈ l_timers l ∨ id ∈ S;
  i_oneshot id t : id ∈ R → l_theap l !! id = Some t → t_interval t = 0 → id ∉ l_timers l;
  i_cover id t : timer_live l id t → id ∈ l_timers l ∨ id ∈ R ∨ id ∈ S;
  i_running id t : timer_live l id t → t_running t = true → id ∈ R ∨ id ∈ S;
  i_imm_nodup : NoDup (B ++ l_immediates l);
  i_imm id : id ∈ B ++ l_immediates l → ∃ im, imm_live l id im;
  i_B_batch : B ⊆ l_batch l;
  i_imm_cover id im : imm_live l id im → id ∈ B ++ l_immediates l ∨ id ∈ S;
  i_account : (live l ++ frees (l_log l)) ≡ₚ l_given l;
  i_cleared_t id : EvClearT id ∈ l_log l →
    (id <= l_nextID l) ∧ (id ∉ l_timers l) ∧ (id ∈ R → ∀ t, l_theap l !! id = Some t → t_cleared t = true);
  i_cleared_i id : EvClearI id ∈ l_log l →
    id <= l_nextID l ∧
    (id ∈ B ++ l_immediates l → ∀ im, l_iheap l !! id = Some im → im_cleared im = true);
  i_log_clear : no_call_after_clear (l_log l);
  i_log_free : NoDup (l_given l) → no_call_after_free (l_log l)
}.

(** Between turns, or after a turn that returned: what is left of a batch is
    still in the batch the loop remembers. *)
Definition inv_host (S : gset Z) (l : Loop) : Prop := ∃ R B, inv R B S l.

(** A guest for the examples: its world is the clock, the callback 7 cancels
    timer 2 and queues an immediate, and the select sleeps until the next
    timer is due. *)
Definition demo_guest : guest (W := Z) (E := unit) :=
  MkGuest (fun _ => None)
    (fun h w => (w, if h =? 7 then [AClearTimer 2; APostImmediate 9] else [], None))
    (fun _ w => (w, [], None)) (fun w => (w, [], None)) None None (fun w => (w, w))
    (fun _ s => elements s)
    (fun next wake w => (from_option (Z.max w) w next, [], Ok wake)).

Definition demo_start : Loop :=
  host_exec (HCalls [ASetTimer 7 (5 * ms) false 0; ASetTimer 8 (5 * ms) false 0]) New.

Definition demo_end : Loop :=
  match run demo_guest 10 10 0 demo_start with Return _ _ l => l | _ => New end.

(** ** Lemmas: handles *)

Section Handles.
Context {T : Type} (f : T → option Z).
Implicit Types m : gmap Z T.

Lemma handles_insert m id t :
  m !! id = None → handles f (<[ id := t ]> m) ≡ₚ option_list (f t) ++ handles f m.
Proof.
  intros Hm. unfold handles. rewrite (map_to_list_insert m id t Hm). simpl. by destruct (f t).
Qed.

Lemma handles_update m id t0 t :
  m !! id = Some t0 →
  option_list (f t0) ++ handles f (<[ id := t ]> m) ≡ₚ option_list (f t) ++ handles f m.
Proof.
  intros Hm. rewrite <-(insert_delete_id m id t0 Hm) at 2. rewrite <-(insert_delete_eq m id t).
  rewrite !handles_insert by apply lookup_delete_eq. solve_Permutation.
Qed.

Lemma handles_elem m id t h : m !! id = Some t → f t = Some h → h ∈ handles f m.
Proof.
  intros Hm Hf. unfold handles. apply list_elem_of_omap. exists (id, t).
  split; [by apply elem_of_map_to_list|done].
Qed.
End Handles.

Lemma frees_app a b : frees (a ++ b) = frees a ++ frees b.
Proof. apply omap_app. Qed.

Lemma frees_elem h log : h ∈ frees log ↔ EvFree h ∈ log.
Proof.
  unfold frees. rewrite list_elem_of_omap. split.
  - intros ([] & ? & ?); simplify_eq; done.
  - intros. by exists (EvFree h).
Qed.

(** A log property of the form "each event is fine after its past" grows by
    its last event. *)
Lemma log_snoc (P : list event → event → Prop) log e :
  (∀ pre x post, log = pre ++ x :: post → P pre x) → P log e →
  ∀ pre x post, log ++ [e] = pre ++ x :: post → P pre x.
Proof.
  intros Hlog He pre x post Heq. destruct post as [|y post _] using rev_ind.
  - apply app_inj_tail in Heq as [-> ->]. done.
  - rewrite app_comm_cons, app_assoc in Heq. apply app_inj_tail in Heq as [-> _]. by eapply Hlog.
Qed.

Lemma no_call_after_clear_snoc log e :
  no_call_after_clear log →
  match e with
  | EvCallT id _ => EvClearT id ∉ log | EvCallI id _ => EvClearI id ∉ log | _ => True end →
  no_call_after_clear (log ++ [e]).
Proof.
  exact (fun H He => log_snoc (fun pre e => match e with
    | EvCallT id _ => EvClearT id ∉ pre | EvCallI id _ => EvClearI id ∉ pre | _ => True end) log e H He).
Qed.

Lemma no_call_after_free_snoc log e :
  no_call_after_free log →
  match e with EvCallT _ h | EvCallI _ h => EvFree h ∉ log | _ => True end →
  no_call_after_free (log ++ [e]).
Proof.
  exact (fun H He => log_snoc (fun pre e => match e with
    | EvCallT _ h | EvCallI _ h => EvFree h ∉ pre | _ => True end) log e H He).
Qed.

(** A live handle has not been released. *)
Lemma live_not_freed R B S l h :
  inv R B S l → NoDup (l_given l) → h ∈ live l → EvFree h ∉ l_log l.
Proof.
  intros Hi Hn Hh Hf. rewrite <-(i_account _ _ _ _ Hi) in Hn. apply NoDup_app in Hn as (_ & Hd & _).
  apply (Hd h Hh), frees_elem, Hf.
Qed.

(** ** Lemmas: one object changes *)

Definition upd_timer (id : Z) (t : timer) (T' : gset Z) (evs : list event) (l : Loop) : Loop :=
  set_log (l_log l ++ evs) (set_timers T' (set_theap (insert id t) l)).

Lemma inv_upd_timer R R' B S l id t0 t T' evs :
  inv R B S l → l_theap l !! id = Some t0 →
  (∀ x, x ≠ id → x ∈ R' ↔ x ∈ R) → NoDup R' → R' ⊆ l_dueBatch l →
  (∀ x, x ≠ id → x ∈ T' ↔ x ∈ l_timers l) →
  t_interval t = t_interval t0 →
  (evs = [] ∧ t_fn t = t_fn t0 ∨ ∃ h, t_fn t0 = Some h ∧ t_fn t = None ∧ evs = [EvFree h]) →
  (id ∈ T' → id ∈ l_timers l ∧ is_Some (t_fn t) ∧ t_cleared t = false) →
  (id ∈ R' → is_Some (t_fn t) ∧ t_running t = true ∧
             (EvClearT id ∈ l_log l → t_cleared t = true)) →
  (is_Some (t_fn t) → 0 < t_interval t → t_cleared t = false → id ∈ T' ∨ id ∈ S) →
  (id ∈ R' → t_interval t = 0 → id ∉ T') →
  (is_Some (t_fn t) → id ∈ T' ∨ id ∈ R' ∨ id ∈ S) →
  (is_Some (t_fn t) → t_running t = true → id ∈ R' ∨ id ∈ S) →
  inv R' B S (upd_timer id t T' evs l).
Proof.
  intros Hi Ht0 HR Hnd Hdue HT Hint Hevs HidT HidR Hrep Hone Hcov Hrun.
  assert (Hlook : ∀ x, x ≠ id → <[ id := t ]> (l_theap l) !! x = l_theap l !! x)
    by (intros; by rewrite lookup_insert_ne).
  assert (Hcase : ∀ x y, <[ id := t ]> (l_theap l) !! x = Some y →
            (x = id ∧ y = t) ∨ (x ≠ id ∧ l_theap l !! x = Some y)).
  { intros x y. intros [[<- <-]|[? ?]]%lookup_insert_Some; auto. }
  destruct Hi. split; unfold upd_timer, timer_live, imm_live in *; cbn [l_theap l_nextID l_iheap
    l_timers l_dueBatch l_immediates l_batch l_log l_given set_log set_timers set_theap] in *; try done.
  - intros x y [[-> ->]|[? ?]]%Hcase; eauto.
  - intros x Hx. destruct (decide (x = id)) as [->|Hne].
    + exists t. rewrite lookup_insert_eq. destruct (HidT Hx) as (? & ? & ?). done.
    + rewrite Hlook by done. by apply i_timers0, HT.
  - intros x Hx. destruct (decide (x = id)) as [->|Hne].
    + exists t. rewrite lookup_insert_eq. destruct (HidR Hx) as (? & ? & ?). done.
    + rewrite Hlook by done. by apply i_R0, HR.
  - intros x y [[-> ->]|[? ?]]%Hcase; [rewrite Hint|]; eauto.
  - intros x y [[[-> ->]|[? ?]]%Hcase ?] ??; [auto|]. rewrite HT by done. eauto.
  - intros x y Hx [[-> ->]|[? ?]]%Hcase ?; [auto|]. rewrite HT by done. apply HR in Hx; eauto.
  - intros x y [[[-> ->]|[Hne ?]]%Hcase ?]; [auto|]. rewrite HT, HR by done. eauto.
  - intros x y [[[-> ->]|[Hne ?]]%Hcase ?] ?; [auto|]. rewrite HR by done. eauto.
  - rewrite frees_app. rewrite <-i_account0. unfold live. cbn.
    pose proof (handles_update t_fn _ _ _ t Ht0) as Hh.
    destruct Hevs as [[-> Hf]|(h & Hf0 & Hf & ->)].
    + rewrite Hf in Hh. apply Permutation_app_inv_l in Hh. rewrite Hh. cbn. by rewrite app_nil_r.
    + rewrite Hf0, Hf in Hh. cbn in *. rewrite <-Hh. solve_Permutation.
  - intros x [Hx|Hx]%elem_of_app.
    2:{ destruct Hevs as [[-> _]|(? & _ & _ & ->)]; [by apply not_elem_of_nil in Hx|].
        by apply list_elem_of_singleton in Hx. }
    destruct (i_cleared_t0 _ Hx) as (? & Hnt & Hr). split_and!; [done| |].
    + destruct (decide (x = id)) as [->|Hne]; [|by rewrite HT]. intros Hin.
      by destruct (HidT Hin) as (? & _).
    + intros Hxr y [[-> ->]|[Hne ?]]%Hcase; [by apply HidR|]. apply Hr; [by apply HR|done].
  - intros x [Hx|Hx]%elem_of_app; [by apply i_cleared_i0|].
    destruct Hevs as [[-> _]|(? & _ & _ & ->)]; [by apply not_elem_of_nil in Hx|].
    by apply list_elem_of_singleton in Hx.
  - destruct Hevs as [[-> _]|(h & _ & _ & ->)]; [by rewrite app_nil_r|by apply no_call_after_clear_snoc].
  - intros Hn. destruct Hevs as [[-> _]|(h & _ & _ & ->)]; [rewrite app_nil_r; auto|].
    apply no_call_after_free_snoc; auto.
Qed.

Definition upd_imm (id : Z) (im : immediate) (I' : list Z) (evs : list event) (l : Loop) : Loop :=
  set_log (l_log l ++ evs) (set_immediates I' (set_iheap (insert id im) l)).

Lemma inv_upd_imm R B B' S l id im0 im evs :
  inv R B S l → l_iheap l !! id = Some im0 →
  (∀ x, x ≠ id → x ∈ B' ++ l_immediates l ↔ x ∈ B ++ l_immediates l) →
  NoDup (B' ++ l_immediates l) → B' ⊆ l_batch l →
  (evs = [] ∧ im_fn im = im_fn im0 ∨
   ∃ h, im_fn im0 = Some h ∧ im_fn im = None ∧ evs = [EvFree h] ∧ id ∉ B' ++ l_immediates l) →
  (id ∈ B' ++ l_immediates l → id ∈ B ++ l_immediates l) →
  (im_cleared im0 = true → im_cleared im = true) →
  (is_Some (im_fn im) → id ∈ B' ++ l_immediates l ∨ id ∈ S) →
  inv R B' S (upd_imm id im (l_immediates l) evs l).
Proof.
  intros Hi Him0 HB Hnd Hbatch Hevs HidB Hcl Hcov.
  assert (Hcase : ∀ x y, <[ id := im ]> (l_iheap l) !! x = Some y →
            (x = id ∧ y = im) ∨ (x ≠ id ∧ l_iheap l !! x = Some y)).
  { intros x y. intros [[<- <-]|[? ?]]%lookup_insert_Some; auto. }
  destruct Hi. split; unfold upd_imm, timer_live, imm_live in *; cbn [l_theap l_nextID l_iheap
    l_timers l_dueBatch l_immediates l_batch l_log l_given set_log set_immediates set_iheap] in *;
    try done.
  - intros x y [[-> ->]|[? ?]]%Hcase; eauto.
  - intros x Hx. destruct (decide (x = id)) as [->|Hne].
    + exists im. rewrite lookup_insert_eq. split; [done|].
      destruct (i_imm0 _ (HidB Hx)) as (im1 & H1 & H2). simplify_eq.
      destruct Hevs as [[_ ->]|(? & _ & _ & _ & ?)]; done.
    + rewrite lookup_insert_ne by done. by apply i_imm0, HB.
  - intros x y [[[-> ->]|[Hne ?]]%Hcase ?]; [auto|]. rewrite HB by done. eauto.
  - rewrite frees_app. rewrite <-i_account0. unfold live. cbn.
    pose proof (handles_update im_fn _ _ _ im Him0) as Hh.
    destruct Hevs as [[-> Hf]|(h & Hf0 & Hf & -> & _)].
    + rewrite Hf in Hh. apply Permutation_app_inv_l in Hh. rewrite Hh. cbn. by rewrite app_nil_r.
    + rewrite Hf0, Hf in Hh. cbn in *. rewrite <-Hh. solve_Permutation.
  - intros x [Hx|Hx]%elem_of_app; [by apply i_cleared_t0|].
    destruct Hevs as [[-> _]|(? & _ & _ & -> & _)]; [by apply not_elem_of_nil in Hx|].
    by apply list_elem_of_singleton in Hx.
  - intros x [Hx|Hx]%elem_of_app.
    2:{ destruct Hevs as [[-> _]|(? & _ & _ & -> & _)]; [by apply not_elem_of_nil in Hx|].
        by apply list_elem_of_singleton in Hx. }
    destruct (i_cleared_i0 _ Hx) as (? & Hr). split; [done|].
    intros Hxr y [[-> ->]|[Hne ?]]%Hcase; [eauto|]. apply Hr; [by apply HB|done].
  - destruct Hevs as [[-> _]|(h & _ & _ & -> & _)]; [by rewrite app_nil_r|by apply no_call_after_clear_snoc].
  - intros Hn. destruct Hevs as [[-> _]|(h & _ & _ & -> & _)]; [rewrite app_nil_r; auto|].
    apply no_call_after_free_snoc; auto.
Qed.

(** ** Lemmas: the invariant under each operation *)

(** Bookkeeping fields do not matter. *)
Lemma inv_set_wake R B S b l : inv R B S l → inv R B S (set_wake b l).
Proof. intros []. by split. Qed.
Lemma inv_set_posts R B S ps l : inv R B S l → inv R B S (set_posts ps l).
Proof. intros []. by split. Qed.
Lemma inv_set_pending R B S x y l : inv R B S l → inv R B S (set_pending x y l).
Proof. intros []. by split. Qed.

#[local] Hint Resolve inv_set_wake inv_set_posts inv_set_pending : gsm.

Lemma freeTimer_upd id l :
  freeTimer id l = l ∨
  ∃ t h, l_theap l !! id = Some t ∧ t_fn t = Some h ∧
         freeTimer id l = upd_timer id (with_fn None t) (l_timers l) [EvFree h] l.
Proof.
  unfold freeTimer. destruct (l_theap l !! id) as [t|] eqn:Ht; [|auto].
  destruct (t_fn t) as [h|] eqn:Hf; [|auto]. right. eauto 6.
Qed.

(** Releasing a timer that is neither armed nor waiting in the batch. *)
Lemma freeTimer_inv R B S id l :
  inv R B S l → id ∉ l_timers l → id ∉ R → inv R B S (freeTimer id l).
Proof.
  intros Hi Hnt Hnr. destruct (freeTimer_upd id l) as [->|(t & h & Ht & Hf & ->)]; [done|].
  eapply inv_upd_timer; try done; simpl; try by intros [].
  - apply (i_R_nodup _ _ _ _ Hi).
  - apply (i_R_due _ _ _ _ Hi).
  - right. eauto.
Qed.

Lemma freeImmediate_upd id l :
  freeImmediate id l = l ∨
  ∃ im h, l_iheap l !! id = Some im ∧ im_fn im = Some h ∧
          freeImmediate id l = upd_imm id (MkImmediate None (im_cleared im)) (l_immediates l) [EvFree h] l.
Proof.
  unfold freeImmediate. destruct (l_iheap l !! id) as [im|] eqn:Hm; [|auto].
  destruct (im_fn im) as [h|] eqn:Hf; [|auto]. right. eauto 6.
Qed.

(** Releasing the immediate the check phase has just finished with. *)
Lemma freeImmediate_inv R B S id l :
  inv R (id :: B) S l → inv R B S (freeImmediate id l).
Proof.
  intros Hi. pose proof (i_imm_nodup _ _ _ _ Hi) as Hnd. simpl in Hnd. apply NoDup_cons in Hnd as [Hn Hnd].
  destruct (i_imm _ _ _ _ Hi id) as (im & Hm & h & Hf); [simpl; left|].
  unfold freeImmediate. rewrite Hm, Hf.
  apply (inv_upd_imm R (id :: B) B S l id im (MkImmediate None (im_cleared im)) [EvFree h]); try done.
  - intros x Hx. simpl. rewrite elem_of_cons. split; [by right|by intros [?|?]].
  - intros x Hx. apply (i_B_batch _ _ _ _ Hi). by right.
  - right. exists h. done.
  - by intros [].
Qed.

Lemma alter_some {T} (f : T → T) (m : gmap Z T) id t :
  m !! id = Some t → alter f id m = <[ id := f t ]> m.
Proof.
  intros Hm. apply map_eq. intros x. destruct (decide (x = id)) as [->|Hne].
  - by rewrite lookup_alter_eq, lookup_insert_eq, Hm.
  - by rewrite lookup_alter_ne, lookup_insert_ne.
Qed.

Lemma alter_none {T} (f : T → T) (m : gmap Z T) id : m !! id = None → alter f id m = m.
Proof.
  intros Hm. apply map_eq. intros x. destruct (decide (x = id)) as [->|Hne].
  - by rewrite lookup_alter_eq, Hm.
  - by rewrite lookup_alter_ne.
Qed.

(** Marking a timer, with or without disarming it, is an update. *)
Lemma alter_timer_upd f id t T' l :
  l_theap l !! id = Some t →
  set_timers T' (set_theap (alter f id) l) = upd_timer id (f t) T' [] l.
Proof.
  intros Ht. unfold upd_timer, set_log, set_timers, set_theap. simpl.
  by rewrite (alter_some f _ id t Ht), app_nil_r.
Qed.

Lemma set_timers_same f l : set_timers (l_timers l) (set_theap f l) = set_theap f l.
Proof. done. Qed.

Lemma SetTimer_inv R B S fn delay repeat now l :
  inv R B S l → inv R B S (SetTimer fn delay repeat now l).
Proof.
  intros Hi. unfold SetTimer. apply inv_set_wake.
  set (t := MkTimer _ _ _ _ _ _). cbn [l_nextID take_handle].
  assert (Hint : 0 <= t_interval t).
  { subst t. simpl. unfold clamp_delay, ms. destruct repeat; [|lia].
    repeat case_match; bool_to_prop; lia. }
  assert (Hfresh : l_theap l !! (l_nextID l + 1) = None).
  { destruct (l_theap l !! (l_nextID l + 1)) eqn:E; [|done]. apply (i_tdom _ _ _ _ Hi) in E. lia. }
  assert (Hneq : ∀ id y, l_theap l !! id = Some y → id ≠ l_nextID l + 1) by (intros ?? ? ->; congruence).
  assert (Hcase : ∀ x y, <[ l_nextID l + 1 := t ]> (l_theap l) !! x = Some y →
            (x = l_nextID l + 1 ∧ y = t) ∨ (x ≠ l_nextID l + 1 ∧ l_theap l !! x = Some y)).
  { intros x y. intros [[<- <-]|[? ?]]%lookup_insert_Some; auto. }
  assert (Hkeep : ∀ id y, timer_live l id y → timer_live (set_theap (insert (l_nextID l + 1) t) l) id y).
  { intros id y [Hl ?]. split; [|done]. simpl. rewrite lookup_insert_ne; [done|].
    intros He. by eapply Hneq. }
  destruct Hi. split; unfold timer_live, imm_live in *; cbn [l_theap l_nextID l_iheap
    l_timers l_dueBatch l_immediates l_batch l_log l_given set_timers set_theap take_handle] in *; try done.
  - intros x y [[-> ->]|[? ?%i_tdom0]]%Hcase; lia.
  - intros x y ?%i_idom0. lia.
  - intros x [->%elem_of_singleton|Hx]%elem_of_union.
    + exists t. rewrite lookup_insert_eq. done.
    + destruct (i_timers0 _ Hx) as (y & Hy & ?). exists y. eauto.
  - intros x Hx. destruct (i_R0 _ Hx) as (y & Hy & ?). eauto.
  - intros x y [[-> ->]|[? ?]]%Hcase; eauto.
  - intros x y [[[-> ->]|[? ?]]%Hcase ?] ??; [set_solver|].
    destruct (i_repeat0 x y) as [?|?]; [done..|left; set_solver|auto].
  - intros x y Hx [[-> ->]|[Hne ?]]%Hcase Hz.
    + destruct (i_R0 _ Hx) as (y & [Hy _] & _). congruence.
    + intros [?%elem_of_singleton|?]%elem_of_union; [done|]. by eapply i_oneshot0.
  - intros x y [[[-> ->]|[? ?]]%Hcase ?]; [set_solver|].
    destruct (i_cover0 x y) as [?|?]; [done|left; set_solver|auto].
  - intros x y [[[-> ->]|[? ?]]%Hcase ?] ?; [done|]. eauto.
  - rewrite <-i_account0. unfold live. cbn. rewrite handles_insert by done. subst t. simpl.
    solve_Permutation.
  - intros x Hx. destruct (i_cleared_t0 _ Hx) as (? & ? & Hr). split_and!; [lia| |].
    + intros [->%elem_of_singleton|?]%elem_of_union; [lia|done].
    + intros ? y [[-> ->]|[? ?]]%Hcase; [lia|]. eauto.
  - intros x Hx. destruct (i_cleared_i0 _ Hx). split; [lia|done].
  - intros Hn. apply NoDup_app in Hn as [? _]. auto.
Qed.

Lemma PostImmediate_inv R B S fn l : inv R B S l → inv R B S (PostImmediate fn l).
Proof.
  intros Hi. unfold PostImmediate. apply inv_set_wake.
  set (t := MkImmediate _ _). cbn [l_nextID l_immediates take_handle].
  assert (Hfresh : l_iheap l !! (l_nextID l + 1) = None).
  { destruct (l_iheap l !! (l_nextID l + 1)) eqn:E; [|done]. apply (i_idom _ _ _ _ Hi) in E. lia. }
  assert (Hneq : ∀ id y, l_iheap l !! id = Some y → id ≠ l_nextID l + 1) by (intros ?? ? ->; congruence).
  assert (Hcase : ∀ x y, <[ l_nextID l + 1 := t ]> (l_iheap l) !! x = Some y →
            (x = l_nextID l + 1 ∧ y = t) ∨ (x ≠ l_nextID l + 1 ∧ l_iheap l !! x = Some y)).
  { intros x y. intros [[<- <-]|[? ?]]%lookup_insert_Some; auto. }
  assert (Hkeep : ∀ id y, imm_live l id y → imm_live (set_iheap (insert (l_nextID l + 1) t) l) id y).
  { intros id y [Hl ?]. split; [|done]. simpl. rewrite lookup_insert_ne; [done|].
    intros He. by eapply Hneq. }
  destruct Hi. split; unfold timer_live, imm_live in *; cbn [l_theap l_nextID l_iheap
    l_timers l_dueBatch l_immediates l_batch l_log l_given set_immediates set_iheap take_handle] in *;
    try done; rewrite ?app_assoc.
  - intros x y ?%i_tdom0. lia.
  - intros x y [[-> ->]|[? ?%i_idom0]]%Hcase; lia.
  - apply NoDup_app. split_and!; [done| |apply NoDup_singleton].
    intros x Hx ->%list_elem_of_singleton. destruct (i_imm0 _ Hx) as (y & Hy & _). by eapply Hneq.
  - intros x [Hx| ->%list_elem_of_singleton]%elem_of_app.
    + destruct (i_imm0 _ Hx) as (y & Hy). eauto.
    + exists t. rewrite lookup_insert_eq. done.
  - intros x y [[[-> ->]|[? ?]]%Hcase ?]; [left; set_solver|].
    destruct (i_imm_cover0 x y) as [?|?]; [done|left; set_solver|auto].
  - rewrite <-i_account0. unfold live. cbn. rewrite handles_insert by done. subst t. simpl.
    solve_Permutation.
  - intros x Hx. destruct (i_cleared_t0 _ Hx) as (? & ? & ?). split_and!; [lia|done|done].
  - intros x Hx. destruct (i_cleared_i0 _ Hx) as [? Hr]. split; [lia|].
    intros Hin y [[-> ->]|[Hne ?]]%Hcase; [lia|].
    apply elem_of_app in Hin as [?|?%list_elem_of_singleton]; [by apply Hr|done].
  - intros Hn. apply NoDup_app in Hn as [? _]. auto.
Qed.

(** A timer that is marked cleared and is not armed any more: it is released
    by the loop when it is running, and here otherwise. *)
Lemma clear_mark_inv R B S id t T' l :
  inv R B S l → l_theap l !! id = Some t → id ∉ T' →
  (∀ x, x ≠ id → x ∈ T' ↔ x ∈ l_timers l) →
  (is_Some (t_fn t) → t_running t = true → id ∈ R ∨ id ∈ S) →
  let l1 := upd_timer id (with_cleared true t) T' [] l in
  inv R B S (if t_running t then l1 else freeTimer id l1).
Proof.
  intros Hi Ht Hni HT Hcov l1. destruct (t_running t) eqn:Hr.
  - eapply inv_upd_timer; try done; simpl; auto; try apply Hi.
    intros (t' & (? & ?) & ?)%(i_R _ _ _ _ Hi). simplify_eq. done.
  - assert (Hnr : id ∉ R). { intros (t' & (? & ?) & ?)%(i_R _ _ _ _ Hi). congruence. }
    unfold l1, freeTimer, upd_timer. simpl. rewrite lookup_insert_eq. simpl.
    destruct (t_fn t) as [h|] eqn:Hf.
    + assert (inv R B S (upd_timer id (with_fn None (with_cleared true t)) T' [EvFree h] l)) as Hu.
      { eapply inv_upd_timer; try done; simpl; try by intros []. 1,2: apply Hi. right. eauto. }
      revert Hu. unfold upd_timer, emit, set_log, set_theap, set_timers. simpl.
      by rewrite insert_insert_eq, app_nil_r.
    + eapply (inv_upd_timer R R B S l id t (with_cleared true t) T' []); try done; simpl; auto.
      1,2: apply Hi. all: rewrite Hf; by intros [].
Qed.

Lemma ClearTimer_inv R B S id l : inv R B S l → inv R B S (ClearTimer id l).
Proof.
  intros Hi. unfold ClearTimer. case_bool_decide as Hin.
  - destruct (i_timers _ _ _ _ Hi _ Hin) as (t & [Ht Hf] & Hc).
    rewrite (alter_timer_upd _ _ t) by done. rewrite Ht. simpl.
    apply clear_mark_inv; [done|done|set_solver..|]. intros _ Hr. by eapply i_running.
  - case_bool_decide as Hdue; [|done].
    destruct (l_theap l !! id) as [t|] eqn:Ht; simpl.
    + rewrite <-set_timers_same. rewrite (alter_timer_upd _ _ t) by done.
      apply clear_mark_inv; [done|done|done|done|]. intros ? Hr. by eapply i_running.
    + unfold set_theap. rewrite (alter_none _ _ _ Ht). by destruct l.
Qed.

Lemma SetTimerRef_inv R B S id ref l : inv R B S l → inv R B S (SetTimerRef id ref l).
Proof.
  intros Hi. unfold SetTimerRef. apply inv_set_wake. case_match; [|done].
  destruct (l_theap l !! id) as [t|] eqn:Ht.
  2:{ unfold set_theap. rewrite (alter_none _ _ _ Ht). by destruct l. }
  rewrite <-set_timers_same. rewrite (alter_timer_upd _ _ t) by done.
  eapply inv_upd_timer; try done; simpl; auto; try apply Hi.
  - intros Hin. destruct (i_timers _ _ _ _ Hi _ Hin) as (t' & [? ?] & ?). simplify_eq. done.
  - intros Hin. destruct (i_R _ _ _ _ Hi _ Hin) as (t' & [? ?] & ?). simplify_eq.
    split_and!; [done..|]. intros Hc. by apply (i_cleared_t _ _ _ _ Hi _ Hc).
  - intros ???. by eapply i_repeat.
  - intros ??. by eapply i_oneshot.
  - intros ?. by eapply i_cover.
  - intros ??. by eapply i_running.
Qed.

Lemma ClearImmediate_inv R B S id l : inv R B S l → inv R B S (ClearImmediate id l).
Proof.
  intros Hi. unfold ClearImmediate. case_match; [|done].
  destruct (l_iheap l !! id) as [im|] eqn:Hm.
  2:{ unfold set_iheap. rewrite (alter_none _ _ _ Hm). by destruct l. }
  assert (set_iheap (alter (λ im, MkImmediate (im_fn im) true) id) l =
          upd_imm id (MkImmediate (im_fn im) true) (l_immediates l) [] l) as ->.
  { unfold upd_imm, set_log, set_immediates, set_iheap. simpl.
    by rewrite (alter_some _ _ id im Hm), app_nil_r. }
  eapply inv_upd_imm; try done; simpl; auto; try apply Hi.
  intros ?. by eapply i_imm_cover.
Qed.

(** A clear request is logged once the clearing has been done. *)
Lemma note_clearT_inv R B S id l :
  inv R B S l → id ∉ l_timers l →
  (id ∈ R → ∀ t, l_theap l !! id = Some t → t_cleared t = true) →
  inv R B S (note_clear (EvClearT id) id l).
Proof.
  intros Hi Hn Hr. unfold note_clear. destruct (Z.leb_spec id (l_nextID l)); [|done].
  destruct Hi. split; unfold live, timer_live, imm_live in *; simpl; try done.
  - by rewrite frees_app, app_nil_r.
  - intros x [Hx|Hx%list_elem_of_singleton]%elem_of_app; [by apply i_cleared_t0|]. by simplify_eq.
  - intros x [Hx|Hx%list_elem_of_singleton]%elem_of_app; [by apply i_cleared_i0|done].
  - by apply no_call_after_clear_snoc.
  - intros. apply no_call_after_free_snoc; auto.
Qed.

Lemma note_clearI_inv R B S id l :
  inv R B S l →
  (id ∈ B ++ l_immediates l → ∀ im, l_iheap l !! id = Some im → im_cleared im = true) →
  inv R B S (note_clear (EvClearI id) id l).
Proof.
  intros Hi Hr. unfold note_clear. destruct (Z.leb_spec id (l_nextID l)); [|done].
  destruct Hi. split; unfold live, timer_live, imm_live in *; simpl; try done.
  - by rewrite frees_app, app_nil_r.
  - intros x [Hx|Hx%list_elem_of_singleton]%elem_of_app; [by apply i_cleared_t0|done].
  - intros x [Hx|Hx%list_elem_of_singleton]%elem_of_app; [by apply i_cleared_i0|]. by simplify_eq.
  - by apply no_call_after_clear_snoc.
  - intros. apply no_call_after_free_snoc; auto.
Qed.

(** What ClearTimer leaves of the timer. *)
Lemma freeTimer_frame id l :
  l_timers (freeTimer id l) = l_timers l ∧
  ∀ t', l_theap (freeTimer id l) !! id = Some t' →
        ∃ t, l_theap l !! id = Some t ∧ t_cleared t' = t_cleared t.
Proof.
  destruct (freeTimer_upd id l) as [->|(t & h & Ht & Hf & ->)]; [split; eauto|].
  split; [done|]. simpl. intros t'. rewrite lookup_insert_eq. intros [= <-]. eauto.
Qed.

Definition marked (id : Z) (l : Loop) : Prop :=
  (id ∉ l_timers l) ∧ ∀ t, l_theap l !! id = Some t → t_cleared t = true.

Lemma freeTimer_marked id l : marked id l → marked id (freeTimer id l).
Proof.
  intros [Hn Hc]. destruct (freeTimer_frame id l) as [Heq Hf].
  split; [by rewrite Heq|]. intros t' Ht'. destruct (Hf _ Ht') as (t & ? & ->). auto.
Qed.

Lemma ClearTimer_marked id l :
  id ∈ l_timers l ∨ id ∈ l_dueBatch l → marked id (ClearTimer id l).
Proof.
  intros Hin. unfold ClearTimer.
  assert (Halt : ∀ T', id ∉ T' →
            marked id (set_timers T' (set_theap (alter (with_cleared true) id) l))).
  { intros T' HT. split; [done|]. intros t. simpl. rewrite lookup_alter_eq.
    destruct (l_theap l !! id); simpl; [|done]. by intros [= <-]. }
  case_bool_decide as Ht.
  - assert (id ∉ l_timers l ∖ {[id]}) as HT%Halt by set_solver.
    case_match; [done|]. by apply freeTimer_marked.
  - case_bool_decide as Hd; [|tauto]. apply Halt in Ht.
    case_match; [done|]. by apply freeTimer_marked.
Qed.

Lemma ClearTimer_cleared id l :
  (id ∉ l_timers (ClearTimer id l)) ∧
  (id ∈ l_timers l ∨ id ∈ l_dueBatch l →
   ∀ t, l_theap (ClearTimer id l) !! id = Some t → t_cleared t = true).
Proof.
  split; [|intros; by eapply ClearTimer_marked].
  destruct (decide (id ∈ l_timers l ∨ id ∈ l_dueBatch l)) as [Hin|Hin].
  - by apply ClearTimer_marked in Hin as [? _].
  - unfold ClearTimer. rewrite !bool_decide_false by tauto. tauto.
Qed.

Lemma ClearImmediate_cleared id l :
  id ∈ l_immediates l ∨ id ∈ l_batch l →
  ∀ im, l_iheap (ClearImmediate id l) !! id = Some im → im_cleared im = true.
Proof.
  intros Hin. unfold ClearImmediate.
  assert (bool_decide (id ∈ l_immediates l) || bool_decide (id ∈ l_batch l) = true) as ->.
  { apply orb_true_iff. by rewrite !bool_decide_eq_true. }
  simpl. intros im. rewrite lookup_alter_eq. destruct (l_iheap l !! id); simpl; [|done]. by intros [= <-].
Qed.

Lemma exec_inv R B S a l : inv R B S l → inv R B S (exec a l).
Proof.
  intros Hi. destruct a; simpl.
  - by apply SetTimer_inv.
  - destruct (ClearTimer_cleared id l) as [Hn Hc].
    apply note_clearT_inv; [by apply ClearTimer_inv|done|]. intros Hr. apply Hc. right.
    by apply (i_R_due _ _ _ _ Hi).
  - by apply SetTimerRef_inv.
  - by apply PostImmediate_inv.
  - apply note_clearI_inv; [by apply ClearImmediate_inv|]. intros Hin. apply ClearImmediate_cleared.
    assert (l_immediates (ClearImmediate id l) = l_immediates l) as Heq
      by (unfold ClearImmediate; by case_match).
    rewrite Heq in Hin. apply elem_of_app in Hin as [Hb|?]; [|by left].
    right. by apply (i_B_batch _ _ _ _ Hi).
  - unfold Post, wakeup. auto with gsm.
  - unfold AddPending. auto with gsm.
  - unfold DonePending, wakeup. auto with gsm.
  - unfold Unref, wakeup. auto with gsm.
  - unfold Ref. case_match; auto with gsm.
Qed.

Lemma execs_inv R B S as_ l : inv R B S l → inv R B S (execs as_ l).
Proof.
  revert l. induction as_ as [|a as_ IH]; intros l Hi; [done|]. by apply IH, exec_inv.
Qed.

Lemma exec_frame a l : l_dueBatch (exec a l) = l_dueBatch l ∧ l_batch (exec a l) = l_batch l.
Proof.
  destruct a; simpl; unfold SetTimerRef, ClearTimer, ClearImmediate, Ref, note_clear, freeTimer;
    split; repeat case_match; simpl; try done; by repeat case_match.
Qed.

Lemma execs_frame as_ l : l_dueBatch (execs as_ l) = l_dueBatch l ∧ l_batch (execs as_ l) = l_batch l.
Proof.
  revert l. induction as_ as [|a as_ IH]; intros l; [done|]. simpl.
  destruct (IH (exec a l)) as [-> ->]. apply exec_frame.
Qed.

(** ** Lemmas: takeDue *)

Lemma insert_due_perm l a ids : insert_due l a ids ≡ₚ a :: ids.
Proof.
  induction ids as [|b ids IH]; simpl; [done|]. case_match; [done|]. rewrite IH. apply Permutation_swap.
Qed.

Lemma sort_due_perm_acc l ids acc :
  foldl (fun acc a => insert_due l a acc) acc ids ≡ₚ ids ++ acc.
Proof.
  revert acc. induction ids as [|a ids IH]; intros acc; simpl; [done|].
  rewrite IH, insert_due_perm. by rewrite Permutation_middle.
Qed.

Lemma sort_due_perm l ids : sort_due l ids ≡ₚ ids.
Proof. unfold sort_due. by rewrite sort_due_perm_acc, app_nil_r. Qed.

(** The order of firing: by due time, then by id. *)
Definition fires_before (l : Loop) (a b : Z) : Prop :=
  due_of l a < due_of l b ∨ due_of l a = due_of l b ∧ a < b.

Lemma less_spec l a b : less l a b = true ↔ fires_before l a b.
Proof.
  unfold less, fires_before. destruct (Z.eqb_spec (due_of l a) (due_of l b)); rewrite Z.ltb_lt; lia.
Qed.

#[local] Instance fires_before_trans l : Transitive (fires_before l).
Proof. intros a b c. unfold fires_before. lia. Qed.

Lemma insert_due_sorted l a ids :
  a ∉ ids → StronglySorted (fires_before l) ids → StronglySorted (fires_before l) (insert_due l a ids).
Proof.
  intros Ha Hs. induction Hs as [|b ids Hs IH Hb]; simpl; [by repeat constructor|].
  apply not_elem_of_cons in Ha as [Hab Ha].
  destruct (less l a b) eqn:Hl.
  - apply less_spec in Hl. constructor; [by constructor|]. constructor; [done|].
    eapply Forall_impl; [exact Hb|]. intros c. by apply fires_before_trans.
  - constructor; [by apply IH|]. rewrite insert_due_perm. constructor; [|done].
    apply not_true_iff_false in Hl. rewrite less_spec in Hl. unfold fires_before in *. lia.
Qed.

Lemma sort_due_sorted l ids : NoDup ids → StronglySorted (fires_before l) (sort_due l ids).
Proof.
  unfold sort_due. intros Hnd.
  assert (Hgen : ∀ acc, NoDup (ids ++ acc) → StronglySorted (fires_before l) acc →
            StronglySorted (fires_before l) (foldl (fun acc a => insert_due l a acc) acc ids)).
  { clear Hnd. induction ids as [|a ids IH]; simpl; intros acc Hnd Hs; [done|].
    apply NoDup_cons in Hnd as [Ha Hnd]. apply IH.
    - rewrite insert_due_perm. rewrite <-Permutation_middle. by constructor.
    - apply insert_due_sorted; [|done]. intros Hin. apply Ha, elem_of_app. by right. }
  apply Hgen; [by rewrite app_nil_r|constructor].
Qed.

Lemma mark_due_frame now l ids :
  let l' := foldl (mark_due now) l ids in
  l_batch l' = l_batch l ∧ l_dueBatch l' = l_dueBatch l ∧ l_immediates l' = l_immediates l ∧
  l_log l' = l_log l ∧ l_given l' = l_given l ∧ l_posts l' = l_posts l.
Proof.
  revert l. induction ids as [|id ids IH]; intros l; [done|]. simpl.
  destruct (IH (mark_due now l id)) as (-> & -> & -> & -> & -> & ->). unfold mark_due.
  by repeat case_match.
Qed.

Lemma mark_due_dueBatch now l ids due :
  set_dueBatch due (foldl (mark_due now) l ids) = foldl (mark_due now) (set_dueBatch due l) ids.
Proof.
  revert l. induction ids as [|id ids IH]; intros l; [done|]. simpl. rewrite IH. f_equal.
  unfold mark_due. simpl. by repeat case_match.
Qed.

(** What marking does to the heap and to the armed timers. *)
Definition marked_timer (now : Z) (t : timer) : timer :=
  if 0 <? t_interval t then with_due (now + t_interval t) (with_running true t)
  else with_running true t.

Lemma marks_lookup now ids l :
  NoDup ids → (∀ id, id ∈ ids → is_Some (l_theap l !! id)) →
  let l' := foldl (mark_due now) l ids in
  (∀ x, x ∉ ids → l_theap l' !! x = l_theap l !! x) ∧
  (∀ x t, x ∈ ids → l_theap l !! x = Some t → l_theap l' !! x = Some (marked_timer now t)) ∧
  (∀ x, x ∈ l_timers l' ↔
        x ∈ l_timers l ∧ (x ∉ ids ∨ ∃ t, l_theap l !! x = Some t ∧ 0 < t_interval t)).
Proof.
  revert l. induction ids as [|id ids IH]; intros l Hnd Hex; simpl.
  { split_and!; [done|by intros ?? ?%not_elem_of_nil|]. intros x. split; [|by intros [? _]].
    intros ?. split; [done|]. left. apply not_elem_of_nil. }
  apply NoDup_cons in Hnd as [Hid Hnd].
  destruct (Hex id) as [t Ht]; [left|].
  assert (Hl : ∀ x, x ≠ id → l_theap (mark_due now l id) !! x = l_theap l !! x).
  { intros x Hx. unfold mark_due. rewrite Ht. case_match; simpl; by rewrite lookup_insert_ne. }
  assert (Hm : l_theap (mark_due now l id) !! id = Some (marked_timer now t)).
  { unfold mark_due, marked_timer. rewrite Ht. case_match; simpl; by rewrite lookup_insert_eq. }
  assert (HT : ∀ x, x ∈ l_timers (mark_due now l id) ↔ x ∈ l_timers l ∧ (x ≠ id ∨ 0 < t_interval t)).
  { intros x. unfold mark_due. rewrite Ht. destruct (Z.ltb_spec 0 (t_interval t)); simpl.
    - split; [by auto|by intros [? _]].
    - rewrite elem_of_difference, elem_of_singleton. split; [tauto|]. intros [? [?|?]]; [done|lia]. }
  destruct (IH (mark_due now l id) Hnd) as (H1 & H2 & H3).
  { intros x Hx. rewrite Hl by congruence. apply Hex. by right. }
  split_and!.
  - intros x [Hx Hxs]%not_elem_of_cons. rewrite H1 by done. by apply Hl.
  - intros x t' [->|Hx]%elem_of_cons Ht'.
    + simplify_eq. by rewrite H1.
    + rewrite (H2 x t'); [done|done|]. rewrite Hl by congruence. done.
  - intros x. rewrite H3, HT, not_elem_of_cons. destruct (decide (x = id)) as [->|Hne].
    + rewrite Ht. split.
      * intros [[? [?|?]] _]; [done|]. eauto.
      * intros [? [[? _]|(t' & [= <-] & ?)]]; [done|]. auto.
    + rewrite Hl by done. tauto.
Qed.

(** Taking one armed timer for the turn. *)
Lemma mark_due_inv R B S now id l :
  inv R B S l → id ∈ l_timers l → id ∉ R → id ∈ l_dueBatch l →
  inv (R ++ [id]) B S (mark_due now l id) ∧
  (∀ x, x ≠ id → x ∈ l_timers (mark_due now l id) ↔ x ∈ l_timers l).
Proof.
  intros Hi Hin Hnr Hd. destruct (i_timers _ _ _ _ Hi _ Hin) as (t & [Ht Hf] & Hc).
  unfold mark_due. rewrite Ht.
  assert (Hnc : EvClearT id ∉ l_log l). { intros (_ & ? & _)%(i_cleared_t _ _ _ _ Hi). done. }
  assert (Hnd : NoDup (R ++ [id])).
  { apply NoDup_app. split_and!; [apply Hi| |apply NoDup_singleton]. intros x ? ->%list_elem_of_singleton. done. }
  assert (HR : ∀ x, x ≠ id → x ∈ R ++ [id] ↔ x ∈ R) by set_solver.
  assert (Hdue : R ++ [id] ⊆ l_dueBatch l).
  { apply list_subseteq_app_iff_l. split; [apply Hi|]. intros x ->%list_elem_of_singleton. done. }
  assert (Hu : ∀ t' T', set_timers T' (set_theap (insert id t') l) = upd_timer id t' T' [] l).
  { intros. unfold upd_timer, set_log, set_timers, set_theap. simpl. by rewrite app_nil_r. }
  pose proof (i_interval _ _ _ _ Hi _ _ Ht) as H0.
  destruct (Z.ltb_spec 0 (t_interval t)).
  - split; [|done]. rewrite <-set_timers_same, Hu.
    eapply inv_upd_timer; try done; simpl; auto; (lia || set_solver).
  - split; [|set_solver]. rewrite Hu.
    eapply inv_upd_timer; try done; simpl; auto; (lia || set_solver).
Qed.

Lemma marks_due_inv R B S now ids l :
  inv R B S l → (∀ id, id ∈ ids → id ∈ l_timers l) → NoDup (R ++ ids) → ids ⊆ l_dueBatch l →
  inv (R ++ ids) B S (foldl (mark_due now) l ids).
Proof.
  revert R l. induction ids as [|id ids IH]; intros R l Hi Hin Hnd Hd; simpl.
  { by rewrite app_nil_r. }
  rewrite (cons_middle id), app_assoc in Hnd |- *.
  pose proof Hnd as (Hnd1 & Hdis & Hnd2)%NoDup_app. apply NoDup_app in Hnd1 as (_ & Hid & _).
  destruct (mark_due_inv R B S now id l) as [Hi' HT]; [done|apply Hin; by left|set_solver|apply Hd; by left|].
  apply IH; [done| |done|].
  - intros x Hx. apply HT; [|apply Hin; by right]. intros ->. apply (Hdis id); [|done].
    apply elem_of_app. right. by left.
  - destruct (mark_due_frame now l [id]) as (_ & Hdb & _). simpl in Hdb. rewrite Hdb.
    intros x Hx. apply Hd. by right.
Qed.

Lemma inv_set_dueBatch R B S d l : inv R B S l → R ⊆ d → inv R B S (set_dueBatch d l).
Proof. intros [] ?. by split. Qed.

Lemma takeDue_inv B S now order l :
  inv [] B S l → order ≡ₚ elements (l_timers l) →
  let due := (takeDue now order l).1 in
  inv due B S (takeDue now order l).2 ∧ l_dueBatch (takeDue now order l).2 = due ∧
  l_batch (takeDue now order l).2 = l_batch l.
Proof.
  intros Hi Ho due. unfold takeDue in *. cbn [fst snd] in *. fold due.
  assert (Hin : ∀ id, id ∈ due → id ∈ l_timers l).
  { intros id. subst due. rewrite sort_due_perm, list_elem_of_filter, Ho, elem_of_elements. tauto. }
  assert (Hnd : NoDup due).
  { subst due. rewrite sort_due_perm. apply NoDup_filter. rewrite Ho. apply NoDup_elements. }
  rewrite mark_due_dueBatch.
  destruct (mark_due_frame now (set_dueBatch due l) due) as (-> & -> & _).
  split_and!; [|done|done]. apply (marks_due_inv []); [|done|done|done].
  apply inv_set_dueBatch; [done|apply list_subseteq_nil].
Qed.

(** A new turn forgets what an aborted one left in its batches. *)
Lemma inv_abandon R B S l :
  inv R B S l → inv [] [] (S ∪ list_to_set R ∪ list_to_set B) l.
Proof.
  intros []. split; try done; simpl.
  - apply NoDup_nil_2.
  - by intros id ?%not_elem_of_nil.
  - intros x ?%not_elem_of_nil. done.
  - intros id t H ??. destruct (i_repeat0 id t H) as [?|?]; [done|done|auto|right; set_solver].
  - by intros id t ?%not_elem_of_nil.
  - intros id t H. destruct (i_cover0 id t H) as [?|[?|?]]; [auto|right; right; set_solver..].
  - intros id t H ?. destruct (i_running0 id t H) as [?|?]; [done|right; set_solver..].
  - by apply NoDup_app in i_imm_nodup0 as (_ & _ & ?).
  - intros id ?. apply i_imm0, elem_of_app. by right.
  - intros x ?%not_elem_of_nil. done.
  - intros id im H. destruct (i_imm_cover0 id im H) as [[?|?]%elem_of_app|?]; [right; set_solver|auto|right; set_solver].
  - intros id H. destruct (i_cleared_t0 id H) as (?&?&?). split_and!; [done..|]. by intros ?%not_elem_of_nil.
  - intros id H. destruct (i_cleared_i0 id H) as (?&Hc). split; [done|]. intros ?. apply Hc, elem_of_app. by right.
Qed.

(** ** Lemmas: run *)

Section RunSpec.
Context {W E : Type} (g : guest (W := W) (E := E)) (S : gset Z) (st : Prop).
Hypothesis Horder : ∀ w s, g_order g w s ≡ₚ elements s.

(** The invariant with the remembered batches pinned. *)
Definition at_ (R B d b : list Z) (l : Loop) : Prop :=
  inv R B S l ∧ l_dueBatch l = d ∧ l_batch l = b.

(** What holds when run returns: nothing is left in the batches if it
    returned without an error (and had started so). *)
Definition returned (e : option E) (l : Loop) : Prop :=
  inv_host S l ∧ (st → e = None → l_dueBatch l = [] ∧ l_batch l = []).

Definition triple {A} (P : Loop → Prop) (m : M (W := W) (E := E) A) (Q : Loop → Prop) : Prop :=
  ∀ w l, P l → match m w l with
               | Next _ _ l' => Q l'
               | Return e _ l' => returned e l'
               | Panic => False
               | NoFuel => True
               end.

Lemma triple_bind {A B} P Q Q' (m : M A) (f : A → M B) :
  triple P m Q → (∀ a, triple Q (f a) Q') → triple P (bind m f) Q'.
Proof.
  intros Hm Hf w l HP. unfold bind. specialize (Hm w l HP).
  destruct (m w l) as [a w' l'|e w' l'| |]; try done. by apply Hf.
Qed.

Lemma triple_ret {A} P (a : A) : triple P (ret a) P.
Proof. by intros w l. Qed.

Lemma at_execs R B d b as_ l : at_ R B d b l → at_ R B d b (execs as_ l).
Proof.
  intros (Hi & Hd & Hb). destruct (execs_frame as_ l) as [Hd' Hb'].
  split_and!; [by apply execs_inv|congruence..].
Qed.

Lemma at_host R B d b l : at_ R B d b l → inv_host S l.
Proof. intros (Hi & _). by exists R, B. Qed.

(** Errors return wherever they occur. *)
Lemma returned_err R B d b e l : at_ R B d b l → returned (Some e) l.
Proof. intros H. split; [by eapply at_host|done]. Qed.

Lemma guest_step_spec R B d b f : triple (at_ R B d b) (guest_step f) (at_ R B d b).
Proof.
  intros w l H. unfold guest_step. destruct (f w) as [[w' as_] [e|]];
    eauto using returned_err, at_execs.
Qed.

Lemma drainMicro_spec R B d b fuel : triple (at_ R B d b) (drainMicro g fuel) (at_ R B d b).
Proof.
  induction fuel as [|fuel IH]; [by intros w l|]. simpl.
  eapply triple_bind; [apply guest_step_spec|]. intros _.
  destruct (g_report g) as [r|]; [|apply triple_ret].
  intros w l H. destruct (r w) as [[w' as_] [[]|e]].
  - by apply IH, at_execs.
  - by apply at_execs.
  - by eapply returned_err, at_execs.
Qed.

Lemma check_ctx_spec R B d b : triple (at_ R B d b) (check_ctx g) (at_ R B d b).
Proof. intros w l H. unfold check_ctx. destruct (g_ctx g w); [by eapply returned_err|done]. Qed.

Lemma check_stop_spec d b :
  (st → d = [] ∧ b = []) → triple (at_ [] [] d b) (check_stop g) (at_ [] [] d b).
Proof.
  intros Hs w l H. unfold check_stop. destruct (g_stop g) as [f|]; [|done].
  destruct (f w) as [[w' as_] []]; [|by apply at_execs].
  apply (at_execs _ _ _ _ as_) in H. split; [by eapply at_host|].
  intros Hst _. destruct H as (_ & -> & ->). auto.
Qed.

Lemma emit_call_inv R B e l :
  inv R B S l →
  match e with
  | EvCallT id h => (EvClearT id ∉ l_log l) ∧ h ∈ live l
  | EvCallI id h => (EvClearI id ∉ l_log l) ∧ h ∈ live l
  | _ => False
  end → inv R B S (emit e l).
Proof.
  intros Hi He.
  assert (Hfree : NoDup (l_given l) → match e with EvCallT _ h | EvCallI _ h => EvFree h ∉ l_log l | _ => True end).
  { intros Hn. destruct e; try done; destruct He; by eapply live_not_freed. }
  destruct Hi. split; unfold live, timer_live, imm_live in *; simpl; try done.
  - rewrite frees_app. destruct e; try done; simpl; by rewrite app_nil_r.
  - intros x [Hx|Hx%list_elem_of_singleton]%elem_of_app; [by apply i_cleared_t0|]. by subst e.
  - intros x [Hx|Hx%list_elem_of_singleton]%elem_of_app; [by apply i_cleared_i0|]. by subst e.
  - apply no_call_after_clear_snoc; [done|]. by destruct e; try done; destruct He.
  - intros Hn. apply no_call_after_free_snoc; [by auto|by apply Hfree].
Qed.

(** Settling the timer whose callback has just returned. *)
Lemma settle_timer_inv id R B l :
  inv (id :: R) B S l →
  let l2 := set_theap (alter (with_running false) id) l in
  let free := match l_theap l2 !! id with
              | Some t' => (t_interval t' =? 0) || t_cleared t'
              | None => false
              end in
  inv R B S (if free then freeTimer id l2 else l2).
Proof.
  intros Hi l2 free. destruct (i_R _ _ _ _ Hi id) as (t & [Ht [h Hf]] & Hr); [left|].
  pose proof (i_R_nodup _ _ _ _ Hi) as [Hnr Hnd]%NoDup_cons.
  pose proof (i_R_due _ _ _ _ Hi) as Hdue.
  pose proof (i_interval _ _ _ _ Hi _ _ Ht) as H0.
  assert (Hl2 : l2 = upd_timer id (with_running false t) (l_timers l) [] l).
  { unfold l2. rewrite <-set_timers_same. by apply alter_timer_upd. }
  assert (Htim : id ∈ l_timers l → t_cleared t = false).
  { intros (t' & [? _] & ?)%(i_timers _ _ _ _ Hi). simplify_eq. done. }
  assert (Hfr : free = (t_interval t =? 0) || t_cleared t).
  { unfold free. rewrite Hl2. simpl. by rewrite lookup_insert_eq. }
  assert (Hout : (t_interval t =? 0) || t_cleared t = true → id ∉ l_timers l).
  { intros [Hz%Z.eqb_eq|Hc]%orb_true_iff; [|intros Hin; rewrite Htim in Hc; done].
    eapply (i_oneshot _ _ _ _ Hi); [left|done..]. }
  rewrite Hfr. clear free Hfr. destruct ((t_interval t =? 0) || t_cleared t) eqn:Hfree.
  - assert (freeTimer id l2 =
      upd_timer id (with_fn None (with_running false t)) (l_timers l) [EvFree h] l) as ->.
    { rewrite Hl2. unfold freeTimer, upd_timer. simpl. rewrite lookup_insert_eq. simpl. rewrite Hf.
      unfold emit, set_log, set_theap, set_timers. simpl. by rewrite insert_insert_eq, app_nil_r. }
    eapply inv_upd_timer; try done; simpl; auto; set_solver.
  - apply orb_false_iff in Hfree as [Hint Hcl]. apply Z.eqb_neq in Hint. rewrite Hl2.
    assert (Hin : id ∈ l_timers l ∨ id ∈ S). { eapply (i_repeat _ _ _ _ Hi); [by split|lia|done]. }
    eapply inv_upd_timer; try done; simpl; auto; try set_solver.
Qed.

(** A timer cancelled by an earlier sibling is released without a call. *)
Lemma skip_timer_inv id R B l t :
  inv (id :: R) B S l → l_theap l !! id = Some t → t_cleared t = true →
  inv R B S (freeTimer id l).
Proof.
  intros Hi Ht Hc. destruct (i_R _ _ _ _ Hi id) as (t' & [Ht' [h Hf]] & Hr); [left|]. simplify_eq.
  pose proof (i_R_nodup _ _ _ _ Hi) as [Hnr Hnd]%NoDup_cons.
  pose proof (i_R_due _ _ _ _ Hi) as Hdue.
  assert (Hni : id ∉ l_timers l).
  { intros (t' & [? _] & ?)%(i_timers _ _ _ _ Hi). congruence. }
  unfold freeTimer. rewrite Ht, Hf.
  change (emit _ _) with (upd_timer id (with_fn None t) (l_timers l) [EvFree h] l).
  eapply inv_upd_timer; try done; simpl; auto; set_solver.
Qed.

Lemma timer_handle_live id t h l : timer_live l id t → t_fn t = Some h → h ∈ live l.
Proof. intros [Ht _] Hf. unfold live. apply elem_of_app. left. by eapply handles_elem. Qed.

Lemma imm_handle_live id im h l : imm_live l id im → im_fn im = Some h → h ∈ live l.
Proof. intros [Ht _] Hf. unfold live. apply elem_of_app. right. by eapply handles_elem. Qed.

Lemma run_timer_spec id R B d b fuel :
  triple (at_ (id :: R) B d b) (run_timer g fuel id) (at_ R B d b).
Proof.
  intros w l (Hi & Hd & Hb). unfold run_timer.
  destruct (i_R _ _ _ _ Hi id) as (t & Hl & Hr); [left|].
  pose proof Hl as [Ht [h Hf]]. rewrite Ht.
  destruct (t_cleared t) eqn:Hc.
  - (* skipped: the timer is disarmed, its handle is released *)
    split; [by eapply skip_timer_inv|]. unfold freeTimer. repeat case_match; done.
  - rewrite Hf.
    assert (Hcall : inv (id :: R) B S (emit (EvCallT id h) l)).
    { apply emit_call_inv; [done|]. split; [|by eapply timer_handle_live].
      intros (_ & _ & Hcl)%(i_cleared_t _ _ _ _ Hi). rewrite Hcl in Hc; [done|left|done]. }
    destruct (g_call g h w) as [[w1 as_] e].
    assert (Hat : at_ (id :: R) B d b (execs as_ (emit (EvCallT id h) l))) by by apply at_execs.
    set (l1 := execs as_ _) in *. destruct Hat as (Hi1 & Hd1 & Hb1).
    pose proof (settle_timer_inv id R B l1 Hi1) as Hs. cbv zeta in Hs.
    set (l3 := if (match l_theap (set_theap (alter (with_running false) id) l1) !! id with Some t' => (t_interval t' =? 0) || t_cleared t' | None => false end) then _ else _) in *.
    assert (at_ R B d b l3) as H3.
    { split; [done|]. subst l3. unfold freeTimer. repeat case_match; simpl; done. }
    destruct e; [by eapply returned_err|]. by apply drainMicro_spec.
Qed.

Lemma run_due_spec B d b fuel ids :
  triple (at_ ids B d b) (run_due g fuel ids) (at_ [] B d b).
Proof.
  induction ids as [|id ids IH]; simpl; [apply triple_ret|].
  eapply triple_bind; [apply run_timer_spec|]. intros _. apply IH.
Qed.

Lemma run_immediate_spec id R B d b fuel :
  triple (at_ R (id :: B) d b) (run_immediate g fuel id) (at_ R B d b).
Proof.
  intros w l (Hi & Hd & Hb). unfold run_immediate.
  destruct (i_imm _ _ _ _ Hi id) as (im & Hl); [left|].
  pose proof Hl as [Ht [h Hf]]. rewrite Ht.
  assert (Hframe : ∀ l, l_dueBatch (freeImmediate id l) = l_dueBatch l ∧ l_batch (freeImmediate id l) = l_batch l).
  { intros l0. unfold freeImmediate. by repeat case_match. }
  destruct (im_cleared im) eqn:Hc.
  - destruct (Hframe l). split; [by apply freeImmediate_inv|]. split; congruence.
  - rewrite Hf.
    assert (Hcall : inv R (id :: B) S (emit (EvCallI id h) l)).
    { apply emit_call_inv; [done|]. split; [|by eapply imm_handle_live].
      intros (_ & Hcl)%(i_cleared_i _ _ _ _ Hi). rewrite Hcl in Hc; [done|left|done]. }
    destruct (g_call g h w) as [[w1 as_] e].
    assert (Hat : at_ R (id :: B) d b (execs as_ (emit (EvCallI id h) l))) by by apply at_execs.
    set (l1 := execs as_ _) in *. destruct Hat as (Hi1 & Hd1 & Hb1).
    assert (at_ R B d b (freeImmediate id l1)) as H3.
    { destruct (Hframe l1). split; [by apply freeImmediate_inv|]. split; congruence. }
    destruct e; [by eapply returned_err|]. by apply drainMicro_spec.
Qed.

Lemma run_batch_spec R d b fuel ids :
  triple (at_ R ids d b) (run_batch g fuel ids) (at_ R [] d b).
Proof.
  induction ids as [|id ids IH]; simpl; [apply triple_ret|].
  eapply triple_bind; [apply run_immediate_spec|]. intros _. apply IH.
Qed.

Lemma run_posts_spec R B d b fuel : triple (at_ R B d b) (run_posts g fuel) (at_ R B d b).
Proof.
  induction fuel as [|fuel IH]; [by intros w l|]. intros w l H. simpl.
  destruct (l_posts l) as [|f rest]; [done|].
  assert (Hp : at_ R B d b (set_posts rest l)).
  { destruct H as (? & ? & ?). split; [by apply inv_set_posts|done]. }
  revert Hp. generalize (set_posts rest l) as l0. clear H l. intros l H.
  revert w l H. apply triple_bind with (at_ R B d b); [apply guest_step_spec|]. intros _.
  eapply triple_bind; [apply drainMicro_spec|]. intros _. apply IH.
Qed.

Lemma inv_start_check l :
  inv [] [] S l → inv [] (l_immediates l) S (set_batch (l_immediates l) (set_immediates [] l)).
Proof.
  intros []. split; unfold timer_live, imm_live in *; simpl in *; rewrite ?app_nil_r; done.
Qed.

Lemma check_phase_spec d b fuel :
  triple (at_ [] [] d b) (check_phase g fuel) (fun l => ∃ b', at_ [] [] d b' l).
Proof.
  intros w l (Hi & Hd & Hb). unfold check_phase.
  pose proof (run_batch_spec [] d (l_immediates l) fuel (l_immediates l) w
    (set_batch (l_immediates l) (set_immediates [] l))) as Hrun.
  case_match; try (apply Hrun; split; [by apply inv_start_check|done]).
  eexists. apply Hrun. split; [by apply inv_start_check|done].
Qed.

Lemma timers_phase_spec d b fuel :
  triple (at_ [] [] d b) (timers_phase g fuel) (fun l => ∃ d', at_ [] [] d' b l).
Proof.
  intros w l (Hi & Hd & Hb). unfold timers_phase.
  destruct (g_now g w) as [w1 now].
  destruct (takeDue_inv [] S now (g_order g w1 (l_timers l)) l Hi (Horder _ _)) as (Hi1 & Hd1 & Hb1).
  destruct (takeDue now (g_order g w1 (l_timers l)) l) as [due l1]. simpl in *.
  pose proof (run_due_spec [] due b fuel due w1 l1) as Hrun.
  case_match; try (apply Hrun; split_and!; congruence).
  eexists. apply Hrun. split_and!; congruence.
Qed.

Definition settled_at (l : Loop) : Prop := at_ [] [] [] [] l.

Lemma inv_set_batch R S' b l : inv R [] S' l → inv R [] S' (set_batch b l).
Proof. intros []. split; try done. simpl. by intros x ?%not_elem_of_nil. Qed.

(** After a whole turn nothing is left in the batches. *)
Lemma turn_spec d b fuel :
  (st → d = [] ∧ b = []) → triple (at_ [] [] d b) (turn g fuel) settled_at.
Proof.
  intros Hs. unfold turn.
  eapply triple_bind; [apply check_ctx_spec|]. intros _.
  eapply triple_bind; [by apply check_stop_spec|]. intros _.
  eapply triple_bind; [apply drainMicro_spec|]. intros _.
  eapply triple_bind; [by apply check_stop_spec|]. intros _.
  eapply triple_bind; [apply timers_phase_spec|]. intros _.
  apply (triple_bind _ (at_ [] [] [] b)).
  { intros w l (d' & Hi & ? & ?). split; [|done]. apply inv_set_dueBatch; [done|apply list_subseteq_nil]. }
  intros _.
  assert (Hs' : st → @nil Z = [] ∧ b = []) by (intros []%Hs; done).
  eapply triple_bind; [by apply check_stop_spec|]. intros _.
  eapply triple_bind; [apply run_posts_spec|]. intros _.
  eapply triple_bind; [by apply check_stop_spec|]. intros _.
  eapply triple_bind; [apply check_phase_spec|]. intros _.
  apply (triple_bind _ settled_at).
  { intros w l (b' & Hi & ? & ?). split; [|done]. by apply inv_set_batch. }
  intros _. apply (triple_bind _ settled_at).
  { intros w l H. destruct (idle l); [|done]. split; [by eapply at_host|].
    intros _ _. by destruct H as (_ & -> & ->). }
  intros _. eapply triple_bind; [by apply check_stop_spec|]. intros _.
  intros w l H. unfold sleep. destruct (g_sleep g _ _ w) as [[w' as_] [[]|e]].
  - apply (at_execs _ _ _ _ as_) in H as (? & ? & ?). split; [by apply inv_set_wake|done].
  - by apply at_execs.
  - by eapply returned_err, at_execs.
Qed.

Lemma run_spec fuel turns d b :
  (st → d = [] ∧ b = []) → triple (at_ [] [] d b) (run g fuel turns) (fun _ => True).
Proof.
  revert d b. induction turns as [|turns IH]; intros d b Hs; simpl; [by intros w l|].
  eapply triple_bind; [by apply turn_spec|]. intros _. by apply IH.
Qed.
End RunSpec.

(** ** Lemmas: hosts *)

Definition dead_timer (id : Z) (l : Loop) : Prop := ∀ t, ¬ timer_live l id t.
Definition dead_imm (id : Z) (l : Loop) : Prop := ∀ im, ¬ imm_live l id im.

Lemma freeTimer_dead id l : dead_timer id (freeTimer id l).
Proof.
  intros t [Ht [h Hf]]. unfold freeTimer in Ht. repeat case_match; simplify_eq/=.
  - rewrite lookup_insert_eq in Ht. by simplify_eq.
Qed.

Lemma freeTimer_keeps id x l :
  (dead_timer x l → dead_timer x (freeTimer id l)) ∧ (dead_imm x l → dead_imm x (freeTimer id l)).
Proof.
  unfold freeTimer, dead_timer, dead_imm, timer_live, imm_live. split; intros H y.
  - repeat case_match; simpl; try apply H. intros [[[<- <-]|[? ?]]%lookup_insert_Some Hs].
    + by destruct Hs.
    + by eapply H.
  - repeat case_match; simpl; apply H.
Qed.

Lemma freeImmediate_dead id l : dead_imm id (freeImmediate id l).
Proof.
  intros t [Ht [h Hf]]. unfold freeImmediate in Ht. repeat case_match; simplify_eq/=.
  - rewrite lookup_insert_eq in Ht. by simplify_eq.
Qed.

Lemma freeImmediate_keeps id x l :
  (dead_timer x l → dead_timer x (freeImmediate id l)) ∧ (dead_imm x l → dead_imm x (freeImmediate id l)).
Proof.
  unfold freeImmediate, dead_timer, dead_imm, timer_live, imm_live. split; intros H y.
  - repeat case_match; simpl; apply H.
  - repeat case_match; simpl; try apply H. intros [[[<- <-]|[? ?]]%lookup_insert_Some Hs].
    + by destruct Hs.
    + by eapply H.
Qed.

(** Releasing an immediate that is nobody's any more. *)
Lemma freeImmediate_inv' R B S id l :
  inv R B S l → id ∉ B ++ l_immediates l → inv R B S (freeImmediate id l).
Proof.
  intros Hi Hn. destruct (freeImmediate_upd id l) as [->|(im & h & Ht & Hf & ->)]; [done|].
  eapply inv_upd_imm; try done; simpl; try apply Hi; [right; eauto|by intros []].
Qed.

Lemma free_timers_spec S ids l :
  inv [] [] S l → l_timers l = ∅ →
  let l' := foldl (fun l id => freeTimer id l) l ids in
  inv [] [] S l' ∧ l_timers l' = ∅ ∧ l_immediates l' = l_immediates l ∧
  (∀ id, id ∈ ids → dead_timer id l') ∧
  (∀ x, (dead_timer x l → dead_timer x l') ∧ (dead_imm x l → dead_imm x l')).
Proof.
  revert l. induction ids as [|id ids IH]; intros l Hi Ht; simpl.
  { split_and!; try done. by intros ? ?%not_elem_of_nil. }
  assert (Hframe : l_timers (freeTimer id l) = l_timers l ∧ l_immediates (freeTimer id l) = l_immediates l).
  { unfold freeTimer. by repeat case_match. }
  destruct Hframe as [Hft Hfi].
  destruct (IH (freeTimer id l)) as (Hi' & Ht' & Him & Hd & Hk).
  - apply freeTimer_inv; [done|rewrite Ht; set_solver|apply not_elem_of_nil].
  - congruence.
  - split_and!; [done|done|congruence| |].
    + intros x [->|Hx]%elem_of_cons; [|auto]. apply Hk, freeTimer_dead.
    + intros x. destruct (Hk x), (freeTimer_keeps id x l). split; auto.
Qed.

Lemma free_imms_spec S ids l :
  inv [] [] S l → l_immediates l = [] →
  let l' := foldl (fun l id => freeImmediate id l) l ids in
  inv [] [] S l' ∧ l_immediates l' = [] ∧
  (∀ id, id ∈ ids → dead_imm id l') ∧
  (∀ x, (dead_timer x l → dead_timer x l') ∧ (dead_imm x l → dead_imm x l')).
Proof.
  revert l. induction ids as [|id ids IH]; intros l Hi Ht; simpl.
  { split_and!; try done. by intros ? ?%not_elem_of_nil. }
  assert (Hfi : l_immediates (freeImmediate id l) = l_immediates l).
  { unfold freeImmediate. by repeat case_match. }
  destruct (IH (freeImmediate id l)) as (Hi' & Him & Hd & Hk).
  - apply freeImmediate_inv'; [done|rewrite Ht; apply not_elem_of_nil].
  - congruence.
  - split_and!; [done|done| |].
    + intros x [->|Hx]%elem_of_cons; [|auto]. apply Hk, freeImmediate_dead.
    + intros x. destruct (Hk x), (freeImmediate_keeps id x l). split; auto.
Qed.

Lemma inv_shrink S S' l :
  inv [] [] S l → (∀ id t, timer_live l id t → id ∈ l_timers l ∨ id ∈ S') →
  (∀ id t, timer_live l id t → t_running t = true → id ∈ S') →
  (∀ id im, imm_live l id im → id ∈ l_immediates l ∨ id ∈ S') → inv [] [] S' l.
Proof.
  intros [] Ht Hr Him. split; try done.
  - intros id t H ??. eauto.
  - intros id t H. destruct (Ht id t H); auto.
  - intros id t H ?. right. eauto.
Qed.

Definition empty_tables (l : Loop) : Loop :=
  set_batch [] (set_dueBatch [] (set_immediates [] (set_timers ∅ l))).

Lemma empty_tables_inv R B S l :
  inv R B S l →
  inv [] [] (S ∪ l_timers l ∪ list_to_set R ∪ list_to_set (B ++ l_immediates l)) (empty_tables l).
Proof.
  intros []. split; unfold timer_live, imm_live in *; simpl; try done.
  - apply NoDup_nil_2.
  - by intros id ?%not_elem_of_nil.
  - intros id t H H1 H2. right. destruct (i_repeat0 id t H H1 H2); set_solver.
  - intros id t H. right. right. destruct (i_cover0 id t H) as [?|[?|?]]; set_solver.
  - intros id t H Hr. right. destruct (i_running0 id t H Hr); set_solver.
  - apply NoDup_nil_2.
  - by intros id ?%not_elem_of_nil.
  - intros id im H. right. destruct (i_imm_cover0 id im H); set_solver.
  - intros id Hc. destruct (i_cleared_t0 id Hc) as (? & ? & ?). split_and!; [done|set_solver|].
    by intros ?%not_elem_of_nil.
  - intros id Hc. destruct (i_cleared_i0 id Hc). split; [done|]. by intros ?%not_elem_of_nil.
Qed.

Lemma free_all_spec S l ts due imms batch :
  inv [] [] S l → l_timers l = ∅ → l_immediates l = [] →
  let l' := free_all l ts due imms batch in
  inv [] [] S l' ∧ l_timers l' = ∅ ∧ l_immediates l' = [] ∧
  (∀ id, id ∈ ts ∨ id ∈ due → dead_timer id l') ∧
  (∀ id, id ∈ imms ∨ id ∈ batch → dead_imm id l') ∧
  (∀ x, (dead_timer x l → dead_timer x l') ∧ (dead_imm x l → dead_imm x l')).
Proof.
  intros Hi HT HI. unfold free_all.
  destruct (free_timers_spec S ts l Hi HT) as (Hi3 & HT3 & HI3 & Hd3 & Hk3).
  set (l3 := foldl _ l _) in *.
  destruct (free_timers_spec S due l3 Hi3 HT3) as (Hi4 & HT4 & HI4 & Hd4 & Hk4).
  set (l4 := foldl _ l3 _) in *.
  destruct (free_imms_spec S imms l4 Hi4) as (Hi5 & HI5 & Hd5 & Hk5); [congruence|].
  set (l5 := foldl _ l4 _) in *.
  destruct (free_imms_spec S batch l5 Hi5 HI5) as (Hi6 & HI6 & Hd6 & Hk6).
  set (l6 := foldl _ l5 _) in *.
  assert (HTi : ∀ ids l0, l_timers (foldl (fun l id => freeImmediate id l) l0 ids) = l_timers l0).
  { induction ids as [|x ids IH]; intros l0; [done|]. simpl. rewrite IH.
    unfold freeImmediate. by repeat case_match. }
  split_and!; [done| |done| | |].
  - unfold l6, l5. by rewrite !HTi.
  - intros id [Hin|Hin]; apply Hk6, Hk5; [apply Hk4|]; auto.
  - intros id [Hin|Hin]; [apply Hk6|]; auto.
  - intros x. destruct (Hk3 x), (Hk4 x), (Hk5 x), (Hk6 x). split; auto.
Qed.

(** Releasing everything in the tables: nothing the loop owned stays live,
    only what had been lost before ([S]). *)
Lemma release_tables_inv R B S l l1 :
  inv R B S l →
  inv [] [] (S ∪ l_timers l ∪ list_to_set R ∪ list_to_set (B ++ l_immediates l)) l1 →
  l_timers l1 = ∅ → l_immediates l1 = [] → l_theap l1 = l_theap l → l_iheap l1 = l_iheap l →
  inv [] [] S (free_all l1 (elements (l_timers l)) (l_dueBatch l) (l_immediates l) (l_batch l)).
Proof.
  intros Hi Hi1 HT HI Hth Hih.
  destruct (free_all_spec _ l1 (elements (l_timers l)) (l_dueBatch l) (l_immediates l) (l_batch l) Hi1 HT HI)
    as (Hi' & HT' & HI' & Hdt & Hdi & Hk).
  set (l' := free_all _ _ _ _ _) in *.
  assert (Hts : ∀ id t, timer_live l' id t → id ∈ S).
  { intros id t Hl. destruct (decide (id ∈ S)) as [|Hn]; [done|]. exfalso.
    assert (Hnd : ¬ (id ∈ l_timers l ∨ id ∈ l_dueBatch l)).
    { intros Hin. apply (Hdt id) with t; [|done]. by rewrite elem_of_elements. }
    apply (proj1 (Hk id)) with t; [|done]. intros t0 [Ht0 Hf0]. rewrite Hth in Ht0.
    destruct (i_cover _ _ _ _ Hi id t0) as [?|[?|?]]; [by split|by auto| |done].
    apply Hnd. right. by apply (i_R_due _ _ _ _ Hi). }
  assert (His : ∀ id im, imm_live l' id im → id ∈ S).
  { intros id im Hl. destruct (decide (id ∈ S)) as [|Hn]; [done|]. exfalso.
    assert (Hnd : ¬ (id ∈ l_immediates l ∨ id ∈ l_batch l)).
    { intros Hin. by apply (Hdi id) with im. }
    apply (proj2 (Hk id)) with im; [|done]. intros t0 [Ht0 Hf0]. rewrite Hih in Ht0.
    destruct (i_imm_cover _ _ _ _ Hi id t0) as [[?|?]%elem_of_app|?]; [by split| |by auto|done].
    apply Hnd. right. by apply (i_B_batch _ _ _ _ Hi). }
  eapply inv_shrink; [exact Hi'|..]; eauto.
Qed.

Lemma ClearTimers_inv R B S l : inv R B S l → inv [] [] S (ClearTimers l).
Proof. intros Hi. eapply release_tables_inv; [done| |done..]. by apply empty_tables_inv. Qed.

Lemma Reset_inv R B S drained l : inv R B S l → inv [] [] S (Reset drained l).
Proof.
  intros Hi. apply (execs_inv _ _ _ drained) in Hi. unfold Reset.
  eapply release_tables_inv; [done| |done..].
  by apply inv_set_pending, inv_set_posts, empty_tables_inv.
Qed.

(** What releasing handles does not touch. *)
Definition same_tables (l l' : Loop) : Prop :=
  l_timers l' = l_timers l ∧ l_immediates l' = l_immediates l ∧
  l_dueBatch l' = l_dueBatch l ∧ l_batch l' = l_batch l ∧ l_posts l' = l_posts l ∧
  l_pending l' = l_pending l ∧ l_unrefPending l' = l_unrefPending l.

#[local] Instance same_tables_trans : Transitive same_tables.
Proof. unfold same_tables. intros l1 l2 l3. intuition congruence. Qed.

Lemma fold_same_tables (f : Loop → Z → Loop) ids l :
  (∀ l id, same_tables l (f l id)) → same_tables l (foldl f l ids).
Proof.
  intros Hf. revert l. induction ids as [|id ids IH]; intros l; [by split_and!|]. simpl.
  etrans; [apply Hf|apply IH].
Qed.

Lemma free_all_same_tables l ts due imms batch : same_tables l (free_all l ts due imms batch).
Proof.
  unfold free_all.
  assert (Ht : ∀ l id, same_tables l (freeTimer id l))
    by (intros ? ?; unfold freeTimer; repeat case_match; done).
  assert (Him : ∀ l id, same_tables l (freeImmediate id l))
    by (intros ? ?; unfold freeImmediate; repeat case_match; done).
  do 3 (etrans; [|apply fold_same_tables; auto]). apply fold_same_tables; auto.
Qed.

Lemma handles_none {T} (f : T → option Z) (m : gmap Z T) :
  (∀ id t, m !! id = Some t → f t = None) → handles f m = [].
Proof.
  intros Hm. destruct (handles f m) as [|h hs] eqn:E; [done|].
  assert (Hin : h ∈ handles f m) by (rewrite E; left).
  unfold handles in Hin. apply list_elem_of_omap in Hin as ([id t] & Hin & Hf).
  apply elem_of_map_to_list, Hm in Hin. simpl in Hf. congruence.
Qed.

Lemma live_nothing l :
  inv [] [] ∅ l → l_timers l = ∅ → l_immediates l = [] → live l = [].
Proof.
  intros Hi HT HI. unfold live. rewrite !handles_none; [done|..]; intros id t Ht.
  - destruct (im_fn t) eqn:Hf; [|done]. exfalso.
    destruct (i_imm_cover _ _ _ _ Hi id t) as [H|H]; [by split|..].
    + rewrite HI in H. by apply not_elem_of_nil in H.
    + set_solver.
  - destruct (t_fn t) eqn:Hf; [|done]. exfalso.
    destruct (i_cover _ _ _ _ Hi id t) as [H|[H|H]]; [by split|..].
    + rewrite HT in H. set_solver.
    + by apply not_elem_of_nil in H.
    + set_solver.
Qed.

Lemma New_inv : inv [] [] ∅ New.
Proof.
  split; unfold timer_live, imm_live; simpl; try done; try apply NoDup_nil_2;
    try (by intros ? ?%not_elem_of_nil); try (by intros ? ? [? _]); try (by intros ? ?%not_elem_of_empty).
  - by intros [].
  - by intros _ [].
Qed.

Section Host.
Context {W E : Type} (g : guest (W := W) (E := E)).
Hypothesis Hg : guest_ok g.

Lemma host_op_inv o S l : inv_host S l → inv_host S (host_exec o l).
Proof.
  intros (R & B & Hi). destruct o; simpl.
  - exists R, B. by apply execs_inv.
  - exists [], []. by eapply ClearTimers_inv.
  - exists [], []. by eapply Reset_inv.
Qed.

Lemma run_from_spec S (st : Prop) fuel turns w l :
  inv [] [] S l → (st → l_dueBatch l = [] ∧ l_batch l = []) →
  match run g fuel turns w l with
  | Next _ _ _ => True
  | Return e _ l' => returned S st e l'
  | Panic => False
  | NoFuel => True
  end.
Proof.
  intros Hi Hs. by apply (run_spec g S st Hg fuel turns (l_dueBatch l) (l_batch l) Hs).
Qed.

Lemma host_step_inv tidy S w l w' l' :
  inv_host S l → (tidy → S = ∅) → host_step g tidy (w, l) (w', l') →
  ∃ S', inv_host S' l' ∧ (tidy → S' = ∅).
Proof.
  intros Hi HS Hstep.
  inversion Hstep as [o ? ?|fuel turns ? ? e ? ? Hst Hrun]; subst.
  { exists S. split; [by apply host_op_inv|done]. }
  destruct Hi as (R & B & Hi).
  assert (Hi' : ∃ S', inv [] [] S' l ∧ (tidy → S' = ∅)).
  { eexists. split; [by apply inv_abandon|]. intros Ht. destruct (Hst Ht) as [Hd Hb].
    pose proof (i_R_due _ _ _ _ Hi) as HR. pose proof (i_B_batch _ _ _ _ Hi) as HB.
    rewrite Hd in HR. rewrite Hb in HB. rewrite HS by done.
    destruct R; [|exfalso; apply (not_elem_of_nil z), HR; left].
    destruct B; [|exfalso; apply (not_elem_of_nil z), HB; left]. set_solver. }
  destruct Hi' as (S' & Hi' & HS').
  pose proof (run_from_spec S' tidy fuel turns w l Hi' Hst) as Hr. rewrite Hrun in Hr.
  exists S'. split; [apply Hr|done].
Qed.

Lemma reachable_inv tidy w0 w l :
  rtc (host_step g tidy) (w0, New) (w, l) → ∃ S, inv_host S l ∧ (tidy → S = ∅).
Proof.
  intros Hrtc. change l with (snd (w, l)). revert Hrtc. generalize (w, l) as s. clear w l.
  apply (rtc_ind_r (fun s => ∃ S, inv_host S s.2 ∧ (tidy → S = ∅))).
  - exists ∅. split; [|done]. exists [], []. apply New_inv.
  - intros [w1 l1] [w2 l2] _ Hstep (S & Hi & HS). by eapply host_step_inv.
Qed.
End Host.

(** ** Lemmas: what is called, and when run returns *)

Lemma exec_calls a l : calls (l_log (exec a l)) = calls (l_log l).
Proof.
  assert (Hs : ∀ e l, match e with EvCallT _ _ | EvCallI _ _ => False | _ => True end →
            calls (l_log (emit e l)) = calls (l_log l)).
  { intros e l0 He. unfold calls. simpl. rewrite omap_app. destruct e; try done; simpl; by rewrite app_nil_r. }
  assert (Hf : ∀ id l, calls (l_log (freeTimer id l)) = calls (l_log l)).
  { intros id l0. unfold freeTimer. repeat case_match; try done. by rewrite Hs. }
  destruct a; simpl; try done; unfold SetTimerRef, ClearImmediate, Ref.
  - assert (calls (l_log (ClearTimer id l)) = calls (l_log l)) as Hc.
    { unfold ClearTimer. repeat case_match; rewrite ?Hf; done. }
    unfold note_clear. case_match; [|done]. rewrite Hs; done.
  - by case_match.
  - unfold note_clear. repeat case_match; rewrite ?Hs; done.
  - by case_match.
Qed.

Lemma execs_calls as_ l : calls (l_log (execs as_ l)) = calls (l_log l).
Proof.
  revert l. induction as_ as [|a as_ IH]; intros l; [done|]. simpl.
  etrans; [apply IH|apply exec_calls].
Qed.

Section Phases.
Context {W E : Type} (g : guest (W := W) (E := E)).

(** [m], when it goes on, adds calls to the log as [P] allows. *)
Definition adds {A} (P : list (Z + Z) → Prop) (m : M (W := W) (E := E) A) : Prop :=
  ∀ w l a w' l', m w l = Next a w' l' → ∃ cs, calls (l_log l') = calls (l_log l) ++ cs ∧ P cs.

Lemma adds_weaken {A} (P Q : list (Z + Z) → Prop) (m : M A) :
  adds P m → (∀ cs, P cs → Q cs) → adds Q m.
Proof. intros Hm HPQ w l a w' l' H. destruct (Hm _ _ _ _ _ H) as (cs & ? & ?). eauto. Qed.

Lemma adds_bind {A B} P Q (m : M A) (f : A → M B) :
  adds P m → (∀ a, adds Q (f a)) → adds (fun cs => ∃ c1 c2, cs = c1 ++ c2 ∧ P c1 ∧ Q c2) (bind m f).
Proof.
  intros Hm Hf w l b w' l'. unfold bind. destruct (m w l) as [a w1 l1| | |] eqn:Hml; try done.
  intros Hfa. destruct (Hm _ _ _ _ _ Hml) as (c1 & H1 & ?).
  destruct (Hf _ _ _ _ _ _ Hfa) as (c2 & H2 & ?). exists (c1 ++ c2).
  split; [by rewrite H2, H1, app_assoc|]. by exists c1, c2.
Qed.

Lemma adds_nil_bind {A B} Q (m : M A) (f : A → M B) :
  adds (fun cs => cs = []) m → (∀ a, adds Q (f a)) → adds Q (bind m f).
Proof.
  intros Hm Hf. eapply adds_weaken; [by apply adds_bind|]. intros cs (c1 & c2 & -> & -> & ?). done.
Qed.

Lemma adds_no {A} (m : M A) :
  (∀ w l a w' l', m w l = Next a w' l' → calls (l_log l') = calls (l_log l)) → adds (fun cs => cs = []) m.
Proof. intros Hm w l a w' l' H. exists []. rewrite app_nil_r. eauto. Qed.

Lemma guest_step_adds f : adds (fun cs => cs = []) (guest_step (E := E) f).
Proof.
  apply adds_no. intros w l a w' l'. unfold guest_step. destruct (f w) as [[w1 as_] [e|]]; [done|].
  intros [= _ <- <-]. apply execs_calls.
Qed.

Lemma check_ctx_adds : adds (fun cs => cs = []) (check_ctx g).
Proof. apply adds_no. intros w l a w' l'. unfold check_ctx. case_match; [done|]. by intros [= _ <- <-]. Qed.

Lemma check_stop_adds : adds (fun cs => cs = []) (check_stop g).
Proof.
  apply adds_no. intros w l a w' l'. unfold check_stop.
  destruct (g_stop g) as [f|]; [|by intros [= _ <- <-]].
  destruct (f w) as [[w1 as_] []]; [done|]. intros [= _ <- <-]. apply execs_calls.
Qed.

Lemma drainMicro_adds fuel : adds (fun cs => cs = []) (drainMicro g fuel).
Proof.
  induction fuel as [|fuel IH]; [by intros ?|]. simpl.
  apply adds_nil_bind; [apply guest_step_adds|]. intros _.
  destruct (g_report g) as [r|]; [|apply adds_no; by intros ????? [= _ <- <-]].
  intros w l a w' l'. destruct (r w) as [[w1 as_] [[]|e]]; [| |done].
  - intros H. destruct (IH _ _ _ _ _ H) as (cs & Hc & ->). exists [].
    by rewrite Hc, execs_calls.
  - intros [= _ <- <-]. exists []. by rewrite execs_calls, app_nil_r.
Qed.

Lemma calls_emit e l : calls (l_log (emit e l)) = calls (l_log l) ++ calls [e].
Proof. unfold calls. simpl. by rewrite omap_app. Qed.

Lemma freeTimer_calls id l : calls (l_log (freeTimer id l)) = calls (l_log l).
Proof. unfold freeTimer. repeat case_match; try done. rewrite calls_emit. apply app_nil_r. Qed.

Lemma freeImmediate_calls id l : calls (l_log (freeImmediate id l)) = calls (l_log l).
Proof. unfold freeImmediate. repeat case_match; try done. rewrite calls_emit. apply app_nil_r. Qed.

Lemma run_timer_adds fuel id : adds (fun cs => cs = [] ∨ cs = [inl id]) (run_timer g fuel id).
Proof.
  intros w l a w' l'. unfold run_timer. destruct (l_theap l !! id) as [t|]; [|done].
  destruct (t_cleared t).
  { intros [= _ <- <-]. exists []. rewrite freeTimer_calls, app_nil_r. auto. }
  destruct (t_fn t) as [h|]; [|done]. destruct (g_call g h w) as [[w1 as_] [e|]]; [done|].
  intros H. destruct (drainMicro_adds _ _ _ _ _ _ H) as (cs & -> & ->). exists [inl id].
  rewrite app_nil_r. split; [|auto].
  set (l1 := execs as_ _). transitivity (calls (l_log l1)).
  - repeat case_match; rewrite ?freeTimer_calls; done.
  - unfold l1. by rewrite execs_calls, calls_emit.
Qed.

Lemma run_immediate_adds fuel id : adds (fun cs => cs = [] ∨ cs = [inr id]) (run_immediate g fuel id).
Proof.
  intros w l a w' l'. unfold run_immediate. destruct (l_iheap l !! id) as [t|]; [|done].
  destruct (im_cleared t).
  { intros [= _ <- <-]. exists []. rewrite freeImmediate_calls, app_nil_r. auto. }
  destruct (im_fn t) as [h|]; [|done]. destruct (g_call g h w) as [[w1 as_] [e|]]; [done|].
  intros H. destruct (drainMicro_adds _ _ _ _ _ _ H) as (cs & -> & ->). exists [inr id].
  rewrite app_nil_r, freeImmediate_calls, execs_calls, calls_emit. auto.
Qed.

Lemma run_due_adds fuel ids :
  adds (fun cs => ∃ ts, cs = map inl ts ∧ ts `sublist_of` ids) (run_due g fuel ids).
Proof.
  induction ids as [|id ids IH]; simpl.
  { intros w l a w' l' [= _ <- <-]. exists []. rewrite app_nil_r. split; [done|]. by exists []. }
  eapply adds_weaken; [apply adds_bind; [apply run_timer_adds|intros _; apply IH]|].
  intros cs (c1 & c2 & -> & [->| ->] & ts & -> & Hsub).
  - exists ts. split; [done|]. by constructor.
  - exists (id :: ts). split; [done|]. by constructor.
Qed.

Lemma run_batch_adds fuel ids :
  adds (fun cs => ∃ ts, cs = map inr ts ∧ ts `sublist_of` ids) (run_batch g fuel ids).
Proof.
  induction ids as [|id ids IH]; simpl.
  { intros w l a w' l' [= _ <- <-]. exists []. rewrite app_nil_r. split; [done|]. by exists []. }
  eapply adds_weaken; [apply adds_bind; [apply run_immediate_adds|intros _; apply IH]|].
  intros cs (c1 & c2 & -> & [->| ->] & ts & -> & Hsub).
  - exists ts. split; [done|]. by constructor.
  - exists (id :: ts). split; [done|]. by constructor.
Qed.

Lemma run_posts_adds fuel : adds (fun cs => cs = []) (run_posts g fuel).
Proof.
  induction fuel as [|fuel IH]; [by intros ?|]. intros w l a w' l'. simpl.
  destruct (l_posts l) as [|f rest]; [intros [= _ <- <-]; exists []; by rewrite app_nil_r|].
  intros H. change (calls (l_log l)) with (calls (l_log (set_posts rest l))).
  revert H. apply adds_nil_bind; [apply guest_step_adds|]. intros _.
  apply adds_nil_bind; [apply drainMicro_adds|]. intros _. apply IH.
Qed.

(** When run can return nil. *)
Definition returns_idle {A} (m : M (W := W) (E := E) A) : Prop :=
  ∀ w l w' l', m w l = Return None w' l' → idle l' = true.

Lemma returns_idle_bind {A B} (m : M A) (f : A → M B) :
  returns_idle m → (∀ a, returns_idle (f a)) → returns_idle (bind m f).
Proof.
  intros Hm Hf w l w' l'. unfold bind. destruct (m w l) as [a w1 l1|e w1 l1| |] eqn:Hml; try done.
  - apply Hf.
  - intros [= -> -> ->]. by eapply Hm.
Qed.

Lemma guest_step_idle f : returns_idle (guest_step (E := E) f).
Proof. intros w l w' l'. unfold guest_step. by destruct (f w) as [[w1 as_] [e|]]. Qed.

Lemma drainMicro_idle fuel : returns_idle (drainMicro g fuel).
Proof.
  induction fuel as [|fuel IH]; [by intros ?|]. simpl.
  apply returns_idle_bind; [apply guest_step_idle|]. intros _.
  destruct (g_report g) as [r|]; [|by intros ?].
  intros w l w' l'. destruct (r w) as [[w1 as_] [[]|e]]; [apply IH|done|done].
Qed.

Lemma run_due_idle fuel ids : returns_idle (run_due g fuel ids).
Proof.
  induction ids as [|id ids IH]; simpl; [by intros ?|]. apply returns_idle_bind; [|auto].
  intros w l w' l'. unfold run_timer. destruct (l_theap l !! id) as [t|]; [|done].
  destruct (t_cleared t); [done|]. destruct (t_fn t) as [h|]; [|done].
  destruct (g_call g h w) as [[w1 as_] [e|]]; [done|]. apply drainMicro_idle.
Qed.

Lemma run_batch_idle fuel ids : returns_idle (run_batch g fuel ids).
Proof.
  induction ids as [|id ids IH]; simpl; [by intros ?|]. apply returns_idle_bind; [|auto].
  intros w l w' l'. unfold run_immediate. destruct (l_iheap l !! id) as [t|]; [|done].
  destruct (im_cleared t); [done|]. destruct (im_fn t) as [h|]; [|done].
  destruct (g_call g h w) as [[w1 as_] [e|]]; [done|]. apply drainMicro_idle.
Qed.

Lemma run_posts_idle fuel : returns_idle (run_posts g fuel).
Proof.
  induction fuel as [|fuel IH]; [by intros ?|]. intros w l. simpl.
  destruct (l_posts l) as [|f rest]; [done|].
  generalize (set_posts rest l) as l0. intros l0. revert w l0. clear l.
  apply returns_idle_bind; [apply guest_step_idle|]. intros _.
  apply returns_idle_bind; [apply drainMicro_idle|]. auto.
Qed.

Lemma turn_idle fuel : g_stop g = None → returns_idle (turn g fuel).
Proof.
  intros Hs. unfold turn.
  assert (Hstop : returns_idle (check_stop g)).
  { intros w l w' l'. unfold check_stop. by rewrite Hs. }
  assert (Hmod : ∀ f, returns_idle (modify (W := W) (E := E) f)) by (by intros f ?).
  repeat (apply returns_idle_bind; [|intros []]); auto using drainMicro_idle, run_posts_idle.
  - intros w l w' l'. unfold check_ctx. by case_match.
  - intros w l w' l'. unfold timers_phase. destruct (g_now g w), (takeDue _ _ l). apply run_due_idle.
  - intros w l w' l'. apply run_batch_idle.
  - intros w l w' l'. destruct (idle l) eqn:Hi; [|done]. by intros [= _ <-].
  - intros w l w' l'. unfold sleep. by destruct (g_sleep g _ _ w) as [[w1 as_] [[]|e]].
Qed.

Lemma run_idle fuel turns : g_stop g = None → returns_idle (run g fuel turns).
Proof.
  intros Hs. induction turns as [|turns IH]; simpl; [by intros ?|].
  apply returns_idle_bind; [by apply turn_idle|auto].
Qed.

Lemma timers_phase_adds fuel : adds (fun cs => ∃ ts, cs = map inl ts) (timers_phase g fuel).
Proof.
  intros w l a w' l'. unfold timers_phase. destruct (g_now g w) as [w1 now].
  destruct (takeDue _ _ l) as [due l1] eqn:Ht. intros H.
  destruct (run_due_adds _ _ _ _ _ _ _ H) as (cs & Hc & ts & -> & _).
  exists (map inl ts). split; [|eauto]. rewrite Hc.
  assert (l_log l1 = l_log l) as ->; [|done].
  unfold takeDue in Ht. simplify_eq. simpl.
  by destruct (mark_due_frame now l (sort_due l (filter (fun id => due_of l id <= now) (g_order g w1 (l_timers l)))))
    as (_ & _ & _ & -> & _).
Qed.

Lemma turn_adds fuel : adds (fun cs => ∃ ts ims, cs = map inl ts ++ map inr ims) (turn g fuel).
Proof.
  unfold turn.
  apply adds_nil_bind; [apply check_ctx_adds|]. intros _.
  apply adds_nil_bind; [apply check_stop_adds|]. intros _.
  apply adds_nil_bind; [apply drainMicro_adds|]. intros _.
  apply adds_nil_bind; [apply check_stop_adds|]. intros _.
  eapply adds_weaken.
  { apply (adds_bind (fun cs => ∃ ts, cs = map inl ts) (fun cs => ∃ ims, cs = map inr ims)); [apply timers_phase_adds|]. intros _.
    apply adds_nil_bind; [apply adds_no; by intros ????? [= _ <- <-]|]. intros _.
    apply adds_nil_bind; [apply check_stop_adds|]. intros _.
    apply adds_nil_bind; [apply run_posts_adds|]. intros _.
    apply adds_nil_bind; [apply check_stop_adds|]. intros _.
    eapply adds_weaken.
    { apply (adds_bind (fun cs => ∃ ims, cs = map inr ims) (fun cs => cs = [])).
      - intros w l a w' l' H. destruct (run_batch_adds _ _ _ _ _ _ _ H) as (cs & Hc & ts & -> & _). eauto.
      - intros _. apply adds_nil_bind; [apply adds_no; by intros ????? [= _ <- <-]|]. intros _.
        apply adds_nil_bind.
        { apply adds_no. intros w l a w' l'. destruct (idle l); [done|]. by intros [= _ <- <-]. }
        intros _. apply adds_nil_bind; [apply check_stop_adds|]. intros _. apply adds_no.
        intros w l a w' l'. unfold sleep. destruct (g_sleep g _ _ w) as [[w1 as_] [[]|e]]; try done;
          intros [= _ <- <-]; simpl; apply execs_calls. }
    intros cs (c1 & c2 & -> & (ims & ->) & ->). exists ims. apply app_nil_r. }
  intros cs (c1 & c2 & -> & (ts & ->) & (ims & ->)). eauto.
Qed.
End Phases.

(** C4: However a loop is driven - guest callbacks, posted completions,
    microtask drains and other goroutines making any loop calls, runs that
    return or abort, clears and resets in any order - and provided it is never
    handed the same callback handle twice: no handle is released twice,
    nothing is called through a handle that has been released, and running the
    loop never meets a released callback. *)
Theorem loop_handles_safe {W E} (g : guest (W := W) (E := E)) (w0 w : W) (l : Loop)
    (Hg : guest_ok g) (Hreach : rtc (host_step g False) (w0, New) (w, l))
    (Hdistinct : NoDup (l_given l)) :
  NoDup (frees (l_log l)) ∧ no_call_after_free (l_log l) ∧
  (∀ h, h ∈ frees (l_log l) → h ∈ l_given l) ∧
  ∀ fuel turns w', run g fuel turns w' l ≠ Panic.
Proof.
  destruct (reachable_inv g Hg _ _ _ _ Hreach) as (S & (R & B & Hi) & _).
  pose proof (i_account _ _ _ _ Hi) as Hacc. split_and!.
  - rewrite <-Hacc in Hdistinct. by apply NoDup_app in Hdistinct as (_ & _ & ?).
  - by apply (i_log_free _ _ _ _ Hi).
  - intros h Hh. rewrite <-Hacc. apply elem_of_app. by right.
  - intros fuel turns w' Hp.
    pose proof (run_from_spec g Hg _ False fuel turns w' l (inv_abandon _ _ _ _ Hi)) as Hr.
    rewrite Hp in Hr. by apply Hr.
Qed.

Lemma loop_handles_safe_witness :
  NoDup (l_given demo_end) ∧ NoDup (frees (l_log demo_end)) ∧ no_call_after_free (l_log demo_end).
Proof.
  assert (Hreach : rtc (host_step demo_guest False) (0, New) (5 * ms, demo_end)).
  { eapply rtc_l; [apply (hs_op _ _ (HCalls [ASetTimer 7 (5 * ms) false 0; ASetTimer 8 (5 * ms) false 0]))|].
    eapply rtc_l; [|apply rtc_refl].
    apply (hs_run _ _ 10 10 0 _ None); [done|vm_compute; reflexivity]. }
  assert (Hd : NoDup (l_given demo_end)) by (vm_compute; repeat constructor; set_solver).
  split; [exact Hd|].
  destruct (loop_handles_safe demo_guest 0 (5 * ms) demo_end) as (H1 & H2 & _).
  - by intros w s.
  - exact Hreach.
  - exact Hd.
  - split; [exact H1|exact H2].
Defined.

(** A cancelled callback never runs: after clearTimeout or clearInterval
    of an issued id, that timer is not called again - not even when it was
    already taken into the batch of the turn that a sibling callback cancels
    it from - and the same for clearImmediate. *)
Theorem cleared_never_called {W E} (g : guest (W := W) (E := E)) (w0 w : W) (l : Loop)
    (Hg : guest_ok g) (Hreach : rtc (host_step g False) (w0, New) (w, l)) :
  no_call_after_clear (l_log l).
Proof.
  destruct (reachable_inv g Hg _ _ _ _ Hreach) as (S & (R & B & Hi) & _).
  apply (i_log_clear _ _ _ _ Hi).
Qed.

Lemma cleared_never_called_witness :
  no_call_after_clear (l_log demo_end) ∧ calls (l_log demo_end) = [inl 1; inr 3].
Proof.
  assert (Hreach : rtc (host_step demo_guest False) (0, New) (5 * ms, demo_end)).
  { eapply rtc_l; [apply (hs_op _ _ (HCalls [ASetTimer 7 (5 * ms) false 0; ASetTimer 8 (5 * ms) false 0]))|].
    eapply rtc_l; [|apply rtc_refl].
    apply (hs_run _ _ 10 10 0 _ None); [done|vm_compute; reflexivity]. }
  split; [|vm_compute; reflexivity].
  apply (cleared_never_called demo_guest 0 (5 * ms) demo_end); [by intros w s|exact Hreach].
Defined.

(** No handle leaks: when the host clears or resets the loop after an
    aborted run before it runs it again, then after a Reset every handle the
    loop was ever given has been released, each exactly once, and the tables,
    queues and counters are empty. *)
Theorem Reset_releases_everything {W E} (g : guest (W := W) (E := E)) (w0 w : W) (l : Loop)
    (drained : list api)
    (Hg : guest_ok g) (Hreach : rtc (host_step g True) (w0, New) (w, l)) :
  let l' := Reset drained l in
  frees (l_log l') ≡ₚ l_given l' ∧
  l_timers l' = ∅ ∧ l_immediates l' = [] ∧ l_dueBatch l' = [] ∧ l_batch l' = [] ∧
  l_posts l' = [] ∧ l_pending l' = 0 ∧ l_unrefPending l' = 0.
Proof.
  destruct (reachable_inv g Hg _ _ _ _ Hreach) as (S & (R & B & Hi) & HS).
  rewrite (HS I) in Hi. clear HS. pose proof (Reset_inv _ _ _ drained _ Hi) as Hr.
  intros l'. fold l' in Hr.
  assert (Htab : same_tables (set_pending 0 0 (set_posts [] (empty_tables (execs drained l)))) l')
    by apply free_all_same_tables.
  destruct Htab as (HT & HI & HD & HB & HP & Hp & Hu). simpl in *.
  split_and!; try done.
  rewrite <-(i_account _ _ _ _ Hr). by rewrite (live_nothing _ Hr).
Qed.

Lemma Reset_releases_everything_witness :
  frees (l_log (Reset [APostImmediate 10] demo_end)) ≡ₚ l_given (Reset [APostImmediate 10] demo_end) ∧
  length (l_given (Reset [APostImmediate 10] demo_end)) = 4%nat.
Proof.
  assert (Hreach : rtc (host_step demo_guest True) (0, New) (5 * ms, demo_end)).
  { eapply rtc_l; [apply (hs_op _ _ (HCalls [ASetTimer 7 (5 * ms) false 0; ASetTimer 8 (5 * ms) false 0]))|].
    eapply rtc_l; [|apply rtc_refl].
    apply (hs_run _ _ 10 10 0 _ None); [done|vm_compute; reflexivity]. }
  split; [|vm_compute; reflexivity].
  apply (Reset_releases_everything demo_guest 0 (5 * ms) demo_end [APostImmediate 10]);
    [by intros w s|exact Hreach].
Defined.

(** The turn's timers: takeDue hands out exactly the armed timers whose
    due time has come, each once, ordered by due time and then by age, whatever
    order the Go map iteration produced them in; the one-shots among them are
    disarmed, the repeating ones stay armed with their next due time, and no
    other timer is touched. *)
Theorem takeDue_exact (now : Z) (order : list Z) (l : Loop) (R B : list Z) (S : gset Z)
    (Hinv : inv R B S l) (Horder : order ≡ₚ elements (l_timers l)) :
  let due := (takeDue now order l).1 in
  let l' := (takeDue now order l).2 in
  (∀ id, id ∈ due ↔ id ∈ l_timers l ∧ due_of l id <= now) ∧
  StronglySorted (fires_before l) due ∧
  due = (takeDue now (elements (l_timers l)) l).1 ∧
  (∀ id, id ∈ l_timers l' ↔
     id ∈ l_timers l ∧ (id ∉ due ∨ ∃ t, l_theap l !! id = Some t ∧ 0 < t_interval t)) ∧
  (∀ id, id ∉ due → l_theap l' !! id = l_theap l !! id) ∧
  (∀ id t, id ∈ due → l_theap l !! id = Some t → l_theap l' !! id = Some (marked_timer now t)).
Proof.
  unfold takeDue. cbn [fst snd]. set (due := sort_due _ _).
  assert (Hin : ∀ id, id ∈ due ↔ id ∈ l_timers l ∧ due_of l id <= now).
  { intros id. subst due. rewrite sort_due_perm, list_elem_of_filter, Horder, elem_of_elements. tauto. }
  assert (Hnd : ∀ ord, ord ≡ₚ elements (l_timers l) → NoDup (filter (fun id => due_of l id <= now) ord)).
  { intros ord Ho. apply NoDup_filter. rewrite Ho. apply NoDup_elements. }
  assert (Hsort : StronglySorted (fires_before l) due) by by apply sort_due_sorted, Hnd.
  destruct (marks_lookup now due l) as (H1 & H2 & H3).
  { subst due. rewrite sort_due_perm. by apply Hnd. }
  { intros id [(t & [-> _] & _)%(i_timers _ _ _ _ Hinv) _]%Hin. by eexists. }
  split_and!; [done|done| |apply H3|apply H1|apply H2].
  apply (StronglySorted_unique_strong (fires_before l)); [|done|by apply sort_due_sorted, Hnd|].
  - intros a b _ _ Hab Hba. unfold fires_before in *. lia.
  - subst due. rewrite !sort_due_perm. by rewrite Horder.
Qed.

Lemma takeDue_exact_witness :
  (takeDue (5 * ms) [2; 1] demo_start).1 = [1; 2] ∧
  (takeDue (5 * ms) [2; 1] demo_start).1 = (takeDue (5 * ms) (elements (l_timers demo_start)) demo_start).1.
Proof.
  split; [vm_compute; reflexivity|].
  apply (takeDue_exact (5 * ms) [2; 1] demo_start [] [] ∅).
  - apply (execs_inv [] [] ∅), New_inv.
  - assert (elements (l_timers demo_start) = [2; 1]) as -> by (vm_compute; reflexivity). done.
Defined.

(** A loop run without a stop condition ends cleanly only when there is
    nothing to wait for: no armed timer keeps it alive, no operation that
    keeps it alive is pending, and nothing is posted or queued. *)
Theorem run_returns_when_idle {W E} (g : guest (W := W) (E := E)) (fuel turns : nat)
    (w w' : W) (l l' : Loop)
    (Hstop : g_stop g = None) (Hrun : run g fuel turns w l = Return None w' l') :
  (∀ id t, id ∈ l_timers l' → l_theap l' !! id = Some t → t_unref t = true) ∧
  l_pending l' <= l_unrefPending l' ∧ l_posts l' = [] ∧ l_immediates l' = [].
Proof.
  pose proof (run_idle g fuel turns Hstop _ _ _ _ Hrun) as Hidle. unfold idle in Hidle.
  bool_to_prop. split_and!; [|lia|done|done].
  intros id t Hin Ht. apply not_false_iff_true. intros Hu. apply not_true_iff_false in H.
  apply H, existsb_exists. exists t. rewrite Hu. split; [|done].
  apply list_elem_of_In, list_elem_of_omap. exists id. by rewrite elem_of_elements.
Qed.

Lemma run_returns_when_idle_witness :
  run demo_guest 10 10 0 demo_start = Return None (5 * ms) demo_end ∧
  l_posts demo_end = [] ∧ l_immediates demo_end = [].
Proof.
  assert (Hrun : run demo_guest 10 10 0 demo_start = Return None (5 * ms) demo_end)
    by (vm_compute; reflexivity).
  split; [exact Hrun|].
  apply (run_returns_when_idle demo_guest 10 10 0 (5 * ms) demo_start demo_end); [reflexivity|exact Hrun].
Defined.

(** Within a turn timers fire before immediates, timers in the order
    takeDue gave them; and the check phase runs, in order, only immediates
    that were queued before it began - one that an immediate queues waits for
    the next turn. *)
Theorem turn_phase_order {W E} (g : guest (W := W) (E := E)) (fuel : nat) (w w' : W) (l l' : Loop)
    (Hturn : turn g fuel w l = Next tt w' l') :
  (∃ ts ims, calls (l_log l') = calls (l_log l) ++ map inl ts ++ map inr ims) ∧
  (∀ w0 l0 w1 l1, timers_phase g fuel w0 l0 = Next tt w1 l1 →
     let (wn, now) := g_now g w0 in
     ∃ ts, ts `sublist_of` (takeDue now (g_order g wn (l_timers l0)) l0).1 ∧
           calls (l_log l1) = calls (l_log l0) ++ map inl ts) ∧
  (∀ w0 l0 w1 l1, check_phase g fuel w0 l0 = Next tt w1 l1 →
     ∃ ims, ims `sublist_of` l_immediates l0 ∧ calls (l_log l1) = calls (l_log l0) ++ map inr ims).
Proof.
  split_and!.
  - destruct (turn_adds g fuel _ _ _ _ _ Hturn) as (cs & -> & ts & ims & ->). eauto.
  - intros w0 l0 w1 l1. unfold timers_phase. destruct (g_now g w0) as [wn now].
    destruct (takeDue _ _ l0) as [due l2] eqn:Ht. intros H.
    destruct (run_due_adds g _ _ _ _ _ _ _ H) as (cs & Hc & ts & -> & Hs).
    exists ts. split; [done|]. rewrite Hc. f_equal.
    unfold takeDue in Ht. simplify_eq. simpl.
    by destruct (mark_due_frame now l0 (sort_due l0 (filter (fun id => due_of l0 id <= now) (g_order g wn (l_timers l0)))))
      as (_ & _ & _ & -> & _).
  - intros w0 l0 w1 l1 H.
    destruct (run_batch_adds g _ _ _ _ _ _ _ H) as (cs & Hc & ims & -> & Hs). eauto.
Qed.

Lemma turn_phase_order_witness :
  let l0 := exec (ASetTimer 11 (50 * ms) false 0) demo_start in
  let l' := match turn demo_guest 10 (5 * ms) l0 with Next _ _ l => l | _ => New end in
  ∃ ts ims, calls (l_log l') = calls (l_log l0) ++ map inl ts ++ map inr ims.
Proof.
  intros l0 l'. apply (turn_phase_order demo_guest 10 (5 * ms) (50 * ms) l0 l').
  vm_compute. reflexivity.
Defined.
