(* ===== verification/Agents.v ===== *)
(** agents.go: the agent cluster. Each method takes effect under the mutex
    [mu], so it is one or two atomic steps; host calls and agent threads
    interleave in any order. [Agents] is the Go struct, with a definition per
    method and handler; [world] adds what lies outside it - which clone
    handles the engine has made and where each one is, which agent threads
    run - and [step] is the interleaving. A handler that waits on the
    condition variable is a step that is not enabled yet. *)

From S2P Require Import Prelude.
From stdpp Require Import gmultiset list.

Open Scope Z_scope.

(** ** The struct and its methods *)

(** Clone handles and agent ids are uint64; 0 is no broadcast. *)
Record Agents := MkAgents {
  closed : bool;
  broadcast : Z;
  inboxes : gmap Z (list Z);
  posts : list (Z * Z);       (** from, clone *)
  orphaned : list Z;
  alive : gset Z;
  exited : gset Z
}.

Definition NewAgents : Agents := MkAgents false 0 ∅ [] [] ∅ ∅.

Definition inbox (a : Agents) (id : Z) : list Z := default [] (inboxes a !! id).

(** The bookkeeping of Spawn after AgentSpawn returned [id]. *)
Definition spawned (a : Agents) (id : Z) : Agents :=
  if bool_decide (id ∈ exited a)
  then MkAgents (closed a) (broadcast a) (inboxes a) (posts a) (orphaned a) (alive a) (exited a ∖ {[ id ]})
  else MkAgents (closed a) (broadcast a) (inboxes a) (posts a) (orphaned a) ({[ id ]} ∪ alive a) (exited a).

(** Send and Broadcast after CloneWrite. *)
Definition Send (a : Agents) (to clone : Z) : Agents :=
  MkAgents (closed a) (broadcast a) (<[ to := inbox a to ++ [clone] ]> (inboxes a)) (posts a) (orphaned a)
    (alive a) (exited a).

Definition Broadcast (a : Agents) (clone : Z) : Agents :=
  MkAgents (closed a) clone (inboxes a) (posts a) (orphaned a) (alive a) (exited a).

(** The pop of Receive; what follows is [EReceived] and [EUnreadable] below. *)
Definition Receive (a : Agents) : option ((Z * Z) * Agents) :=
  match posts a with
  | [] => None
  | msg :: posts' =>
      Some (msg, MkAgents (closed a) (broadcast a) (inboxes a) posts' (orphaned a) (alive a) (exited a))
  end.

Definition Alive (a : Agents) : nat := size (alive a).
Definition IsAlive (a : Agents) (id : Z) : bool := bool_decide (id ∈ alive a).

Definition all_boxes (m : gmap Z (list Z)) : list Z := mjoin (map snd (map_to_list m)).

(** close: the handles to free, and the cluster afterwards. *)
Definition close (a : Agents) : list Z * Agents :=
  (orphaned a ++ (if broadcast a =? 0 then [] else [broadcast a]) ++ all_boxes (inboxes a) ++ map snd (posts a),
   MkAgents true 0 ∅ [] [] (alive a) (exited a)).

(** A handler's reply: R and a decimal handle, R alone, or an error. *)
Inductive reply := Handle (clone : Z) | Empty | ShuttingDown (what : string).

#[export] Instance reply_eq_dec : EqDecision reply.
Proof. solve_decision. Defined.

Definition reply_bytes (r : reply) : bytes :=
  match r with
  | Handle c => lit "R" ++ format_uint c
  | Empty => lit "R"
  | ShuttingDown what => lit "E" ++ lit what ++ lit ": interpreter shutting down"
  end.

(** [None] while the goroutine waits. *)
Definition handleReceive (a : Agents) : option reply :=
  if closed a then Some (ShuttingDown "receive")
  else if broadcast a =? 0 then None else Some (Handle (broadcast a)).

Definition pop_inbox (a : Agents) (id : Z) (box' : list Z) : Agents :=
  MkAgents (closed a) (broadcast a) (<[ id := box' ]> (inboxes a)) (posts a) (orphaned a) (alive a) (exited a).

Definition handleInbox (a : Agents) (id : Z) : option (reply * Agents) :=
  if closed a then Some (ShuttingDown "inbox", a)
  else match inbox a id with
       | [] => None
       | clone :: box' => Some (Handle clone, pop_inbox a id box')
       end.

Definition handleTryInbox (a : Agents) (id : Z) : reply * Agents :=
  if closed a then (ShuttingDown "inbox", a)
  else match inbox a id with
       | [] => (Empty, a)
       | clone :: box' => (Handle clone, pop_inbox a id box')
       end.

Definition handlePost (a : Agents) (id clone : Z) : Agents :=
  MkAgents (closed a) (broadcast a) (inboxes a) (posts a ++ [(id, clone)]) (orphaned a) (alive a) (exited a).

Definition handleExit (a : Agents) (id : Z) : Agents :=
  let orphaned' := orphaned a ++ inbox a id in
  let inboxes' := delete id (inboxes a) in
  if bool_decide (id ∈ alive a)
  then MkAgents (closed a) (broadcast a) inboxes' (posts a) orphaned' (alive a ∖ {[ id ]}) (exited a)
  else MkAgents (closed a) (broadcast a) inboxes' (posts a) orphaned' (alive a) ({[ id ]} ∪ exited a).

(** ** Interleavings *)

Record world := MkWorld {
  cluster : Agents;
  made : list Z;              (** handles CloneWrite returned, latest first *)
  sending : list (Z * Z);     (** Send between CloneWrite and the lock: to, clone *)
  announcing : list Z;        (** Broadcast between CloneWrite and the lock *)
  posting : list (Z * Z);     (** an agent between write and post: id, clone *)
  reading : list (Z * Z);     (** Receive after its pop *)
  held : list Z;              (** popped by an agent, which frees it *)
  freed : list Z;             (** CloneFree was called *)
  lost : list Z;              (** no one refers to it any more *)
  started : gset Z;           (** ids AgentSpawn has started *)
  booked : gset Z;            (** ids whose Spawn has returned *)
  gone : gset Z;              (** ids that exited *)
  sent : gmap Z (list Z);     (** what Send queued for each id, in order *)
  got : gmap Z (list Z)       (** what each agent popped, in order *)
}.

Definition world0 : world := MkWorld NewAgents [] [] [] [] [] [] [] [] ∅ ∅ ∅ ∅ ∅.

Inductive event :=
| EStart (id : Z)             (** the engine starts the thread of agent id *)
| ESpawned (id : Z)           (** Spawn returns id *)
| EWriteSend (to clone : Z)
| ESend (to clone : Z)
| EWriteBroadcast (clone : Z)
| EBroadcast (clone : Z)
| EReceive                    (** Receive pops *)
| EReceived (msg : Z * Z)     (** CloneRead succeeded, CloneFree follows *)
| EUnreadable (msg : Z * Z)   (** CloneRead failed: Receive returns at once *)
| EInbox (id : Z)
| ETryInbox (id : Z)
| EWritePost (id clone : Z)
| EPost (id clone : Z)
| EExit (id : Z)
| EClose.

(** Removing one occurrence. *)
Definition take_out {A} `{EqDecision A} (x : A) (l : list A) : list A :=
  match list_find (eq x) l with Some (i, _) => delete i l | None => l end.

Definition with_cluster (w : world) (a : Agents) : world :=
  MkWorld a (made w) (sending w) (announcing w) (posting w) (reading w) (held w) (freed w) (lost w)
    (started w) (booked w) (gone w) (sent w) (got w).

Definition log (m : gmap Z (list Z)) (id clone : Z) : gmap Z (list Z) :=
  <[ id := default [] (m !! id) ++ [clone] ]> m.

Definition fresh_handle (w : world) (h : Z) : bool := bool_decide (h ∉ made w) && negb (h =? 0).
Definition running (w : world) (id : Z) : bool := bool_decide (id ∈ started w) && negb (bool_decide (id ∈ gone w)).

(** What a pop by agent [id] changes. *)
Definition popped (w : world) (id : Z) (o : reply * Agents) : world :=
  match o.1 with
  | Handle c => MkWorld o.2 (made w) (sending w) (announcing w) (posting w) (reading w) (c :: held w) (freed w)
                  (lost w) (started w) (booked w) (gone w) (sent w) (log (got w) id c)
  | _ => with_cluster w o.2
  end.

Definition step (w : world) (e : event) : option world :=
  let a := cluster w in
  match e with
  | EStart id =>
      if bool_decide (id ∈ started w) then None else
      Some (MkWorld a (made w) (sending w) (announcing w) (posting w) (reading w) (held w) (freed w) (lost w)
              ({[ id ]} ∪ started w) (booked w) (gone w) (sent w) (got w))
  | ESpawned id =>
      if bool_decide (id ∈ started w) && negb (bool_decide (id ∈ booked w)) then
        Some (MkWorld (spawned a id) (made w) (sending w) (announcing w) (posting w) (reading w) (held w) (freed w)
                (lost w) (started w) ({[ id ]} ∪ booked w) (gone w) (sent w) (got w))
      else None
  | EWriteSend to h =>
      if fresh_handle w h then
        Some (MkWorld a (h :: made w) ((to, h) :: sending w) (announcing w) (posting w) (reading w) (held w) (freed w)
                (lost w) (started w) (booked w) (gone w) (sent w) (got w))
      else None
  | ESend to h =>
      if bool_decide ((to, h) ∈ sending w) then
        Some (MkWorld (Send a to h) (made w) (take_out (to, h) (sending w)) (announcing w) (posting w) (reading w)
                (held w) (freed w) (lost w) (started w) (booked w) (gone w) (log (sent w) to h) (got w))
      else None
  | EWriteBroadcast h =>
      if fresh_handle w h then
        Some (MkWorld a (h :: made w) (sending w) (h :: announcing w) (posting w) (reading w) (held w) (freed w)
                (lost w) (started w) (booked w) (gone w) (sent w) (got w))
      else None
  | EBroadcast h =>
      if bool_decide (h ∈ announcing w) then
        Some (MkWorld (Broadcast a h) (made w) (sending w) (take_out h (announcing w)) (posting w) (reading w)
                (held w) (freed w) ((if broadcast a =? 0 then [] else [broadcast a]) ++ lost w)
                (started w) (booked w) (gone w) (sent w) (got w))
      else None
  | EReceive =>
      match Receive a with
      | None => None
      | Some (msg, a') =>
          Some (MkWorld a' (made w) (sending w) (announcing w) (posting w) (msg :: reading w) (held w) (freed w)
                  (lost w) (started w) (booked w) (gone w) (sent w) (got w))
      end
  | EReceived msg =>
      if bool_decide (msg ∈ reading w) then
        Some (MkWorld a (made w) (sending w) (announcing w) (posting w) (take_out msg (reading w)) (held w)
                (msg.2 :: freed w) (lost w) (started w) (booked w) (gone w) (sent w) (got w))
      else None
  | EUnreadable msg =>
      if bool_decide (msg ∈ reading w) then
        Some (MkWorld a (made w) (sending w) (announcing w) (posting w) (take_out msg (reading w)) (held w)
                (freed w) (msg.2 :: lost w) (started w) (booked w) (gone w) (sent w) (got w))
      else None
  | EInbox id => if running w id then popped w id <$> handleInbox a id else None
  | ETryInbox id => if running w id then Some (popped w id (handleTryInbox a id)) else None
  | EWritePost id h =>
      if running w id && fresh_handle w h then
        Some (MkWorld a (h :: made w) (sending w) (announcing w) ((id, h) :: posting w) (reading w) (held w) (freed w)
                (lost w) (started w) (booked w) (gone w) (sent w) (got w))
      else None
  | EPost id h =>
      if bool_decide ((id, h) ∈ posting w) then
        Some (MkWorld (handlePost a id h) (made w) (sending w) (announcing w) (take_out (id, h) (posting w)) (reading w)
                (held w) (freed w) (lost w) (started w) (booked w) (gone w) (sent w) (got w))
      else None
  | EExit id =>
      if running w id then
        Some (MkWorld (handleExit a id) (made w) (sending w) (announcing w) (posting w) (reading w) (held w) (freed w)
                (lost w) (started w) (booked w) ({[ id ]} ∪ gone w) (sent w) (got w))
      else None
  | EClose =>
      let '(free, a') := close a in
      Some (MkWorld a' (made w) (sending w) (announcing w) (posting w) (reading w) (held w) (free ++ freed w)
              (lost w) (started w) (booked w) (gone w) (sent w) (got w))
  end.

Inductive reachable : world → Prop :=
| reach_start : reachable world0
| reach_step w e w' : reachable w → step w e = Some w' → reachable w'.

(** ** Where the handles are *)

Definition bag (l : list Z) : gmultiset Z := list_to_set_disj l.

(** What the cluster owns: exactly what close frees. *)
Definition owned (a : Agents) : gmultiset Z := bag (close a).1.

(** Every place a handle can be. *)
Definition places (w : world) : gmultiset Z :=
  owned (cluster w) ⊎ bag (map snd (sending w)) ⊎ bag (announcing w) ⊎ bag (map snd (posting w)) ⊎
  bag (map snd (reading w)) ⊎ bag (held w) ⊎ bag (freed w) ⊎ bag (lost w).

Lemma bag_app l k : bag (l ++ k) = bag l ⊎ bag k.
Proof. apply list_to_set_disj_app. Qed.

Lemma bag_cons x l : bag (x :: l) = {[+ x +]} ⊎ bag l.
Proof. done. Qed.

Lemma bag_perm l k : l ≡ₚ k → bag l = bag k.
Proof. apply list_to_set_disj_perm. Qed.

Lemma take_out_perm {A} `{EqDecision A} (x : A) l : x ∈ l → l ≡ₚ x :: take_out x l.
Proof.
  intros Hx. unfold take_out. destruct (list_find (eq x) l) as [[i y]|] eqn:E.
  - apply list_find_Some in E as (Hi & <- & _). by apply delete_Permutation.
  - apply list_find_None in E. rewrite list.Forall_forall in E. by destruct (E x Hx).
Qed.

Lemma bag_take_out (x : Z) l : x ∈ l → bag l = {[+ x +]} ⊎ bag (take_out x l).
Proof. intros Hx. by rewrite (bag_perm _ _ (take_out_perm x l Hx)). Qed.

Lemma bag_take_out_snd (p : Z * Z) l :
  p ∈ l → bag (map snd l) = {[+ p.2 +]} ⊎ bag (map snd (take_out p l)).
Proof.
  intros Hp. rewrite <-bag_cons. apply bag_perm. change (p.2 :: map snd ?l) with (map snd (p :: l)).
  apply fmap_Permutation. by apply take_out_perm.
Qed.

Lemma boxes_delete (m : gmap Z (list Z)) id :
  bag (all_boxes m) = bag (default [] (m !! id)) ⊎ bag (all_boxes (delete id m)).
Proof.
  unfold all_boxes. destruct (m !! id) as [l|] eqn:E; simpl.
  - rewrite <-bag_app. apply bag_perm.
    by rewrite <-(map_to_list_delete m id l E).
  - rewrite delete_id by done. multiset_solver.
Qed.

Lemma boxes_insert (m : gmap Z (list Z)) id l :
  bag (all_boxes (<[ id := l ]> m)) = bag l ⊎ bag (all_boxes (delete id m)).
Proof. rewrite (boxes_delete _ id), lookup_insert_eq, delete_insert_eq. done. Qed.

Lemma owned_split a :
  owned a = bag (orphaned a) ⊎ bag (if broadcast a =? 0 then [] else [broadcast a]) ⊎
            bag (all_boxes (inboxes a)) ⊎ bag (map snd (posts a)).
Proof. unfold owned. simpl. rewrite !bag_app. multiset_solver. Qed.

Definition handles_inv (w : world) : Prop :=
  places w = bag (made w) ∧ NoDup (made w) ∧ (0 ∉ made w).

Lemma owned_Send a to h : owned (Send a to h) = {[+ h +]} ⊎ owned a.
Proof.
  rewrite !owned_split. simpl. rewrite boxes_insert, bag_app, (boxes_delete (inboxes a) to), bag_cons.
  change (default [] (inboxes a !! to)) with (inbox a to). change (bag []) with (∅ : gmultiset Z). multiset_solver.
Qed.

Lemma owned_pop a id h box' :
  inbox a id = h :: box' → owned a = {[+ h +]} ⊎ owned (pop_inbox a id box').
Proof.
  intros Hb. rewrite !owned_split. simpl. rewrite boxes_insert, (boxes_delete (inboxes a) id).
  change (default [] (inboxes a !! id)) with (inbox a id). rewrite Hb, bag_cons. multiset_solver.
Qed.

Lemma owned_post a id h : owned (handlePost a id h) = {[+ h +]} ⊎ owned a.
Proof. rewrite !owned_split. simpl. rewrite map_app, bag_app. simpl. rewrite bag_cons. change (bag []) with (∅ : gmultiset Z). multiset_solver. Qed.

Lemma owned_exit a id : owned (handleExit a id) = owned a.
Proof.
  unfold handleExit. case_bool_decide; rewrite !owned_split; simpl; rewrite bag_app, (boxes_delete (inboxes a) id);
    change (default [] (inboxes a !! id)) with (inbox a id); multiset_solver.
Qed.

Lemma owned_spawned a id : owned (spawned a id) = owned a.
Proof. unfold spawned. by case_bool_decide. Qed.

Lemma owned_receive a msg a' : Receive a = Some (msg, a') → owned a = {[+ msg.2 +]} ⊎ owned a'.
Proof.
  unfold Receive. destruct (posts a) as [|m ps] eqn:E; [done|]. intros [= <- <-].
  rewrite !owned_split. simpl. rewrite E. simpl. rewrite bag_cons. multiset_solver.
Qed.

Lemma owned_broadcast a h :
  h ≠ 0 → owned (Broadcast a h) ⊎ bag (if broadcast a =? 0 then [] else [broadcast a]) = {[+ h +]} ⊎ owned a.
Proof.
  intros Hh. rewrite !owned_split. simpl. rewrite (proj2 (Z.eqb_neq h 0)) by done.
  rewrite (bag_cons h []). change (bag []) with (∅ : gmultiset Z). multiset_solver.
Qed.

Lemma fresh_handle_spec w h : fresh_handle w h = true → (h ∉ made w) ∧ h ≠ 0.
Proof. unfold fresh_handle. intros H. by bool_to_prop. Qed.

Lemma places_popped w id o :
  owned (cluster w) = (match o.1 with Handle c => {[+ c +]} ⊎ owned o.2 | _ => owned o.2 end) →
  places (popped w id o) = places w ∧ made (popped w id o) = made w.
Proof.
  destruct o as [[c| |s] a']; simpl; intros Ho; unfold places; simpl; rewrite ?Ho, ?bag_cons; split;
    try done; multiset_solver.
Qed.

Lemma step_handles w e w' : handles_inv w → step w e = Some w' → handles_inv w'.
Proof.
  intros (Hp & Hd & H0) Hs.
  assert (Hkeep : places w' = places w → made w' = made w → handles_inv w').
  { intros Hpl Hm. unfold handles_inv. by rewrite Hpl, Hm. }
  assert (Hnew : ∀ h, fresh_handle w h = true → made w' = h :: made w →
                      places w' = {[+ h +]} ⊎ places w → handles_inv w').
  { intros h [Hf Hh]%fresh_handle_spec Hm Hpl. unfold handles_inv. rewrite Hm, Hpl, Hp, bag_cons. split_and!; [done| |].
    - by constructor.
    - rewrite not_elem_of_cons. by split; [congruence|]. }
  destruct e; simpl in Hs.
  - case_bool_decide; simplify_eq. by apply Hkeep.
  - destruct (_ && _); simplify_eq. apply Hkeep; [|done]. unfold places; simpl. by rewrite owned_spawned.
  - destruct (fresh_handle w clone) eqn:E; simplify_eq. apply (Hnew clone); [done|done|].
    unfold places; simpl. rewrite bag_cons. multiset_solver.
  - case_bool_decide as Hin; simplify_eq. apply Hkeep; [|done]. unfold places; simpl.
    rewrite owned_Send, (bag_take_out_snd _ _ Hin). simpl. multiset_solver.
  - destruct (fresh_handle w clone) eqn:E; simplify_eq. apply (Hnew clone); [done|done|].
    unfold places; simpl. rewrite bag_cons. multiset_solver.
  - case_bool_decide as Hin; simplify_eq. apply Hkeep; [|done]. unfold places; simpl.
    assert (clone ≠ 0).
    { intros ->. apply H0. apply elem_of_list_to_set_disj. change (list_to_set_disj (made w)) with (bag (made w)).
      rewrite <-Hp. unfold places. apply elem_of_list_to_set_disj in Hin. fold (bag (announcing w)) in Hin.
      multiset_solver. }
    rewrite (bag_take_out _ _ Hin), bag_app. pose proof (owned_broadcast (cluster w) clone ltac:(done)) as Hb.
    multiset_solver.
  - destruct (Receive (cluster w)) as [[msg a']|] eqn:E; simplify_eq. apply Hkeep; [|done]. unfold places; simpl.
    rewrite (owned_receive _ _ _ E), bag_cons. multiset_solver.
  - case_bool_decide as Hin; simplify_eq. apply Hkeep; [|done]. unfold places; simpl.
    rewrite (bag_take_out_snd _ _ Hin), bag_cons. multiset_solver.
  - case_bool_decide as Hin; simplify_eq. apply Hkeep; [|done]. unfold places; simpl.
    rewrite (bag_take_out_snd _ _ Hin), bag_cons. multiset_solver.
  - destruct (running w id); [|done]. unfold handleInbox in Hs. destruct (closed (cluster w)) eqn:Ec; simpl in Hs.
    { simplify_eq. by apply Hkeep. }
    destruct (inbox (cluster w) id) as [|c box'] eqn:Eb; simplify_eq/=.
    destruct (places_popped w id (Handle c, pop_inbox (cluster w) id box')); [by apply owned_pop|by apply Hkeep].
  - destruct (running w id); [|done]. simplify_eq. unfold handleTryInbox in *. destruct (closed (cluster w)) eqn:Ec.
    { by apply Hkeep. }
    destruct (inbox (cluster w) id) as [|c box'] eqn:Eb; [by apply Hkeep|].
    destruct (places_popped w id (Handle c, pop_inbox (cluster w) id box')); [by apply owned_pop|by apply Hkeep].
  - destruct (running w id); simpl in Hs; [|done]. destruct (fresh_handle w clone) eqn:E; simplify_eq.
    apply (Hnew clone); [done|done|]. unfold places; simpl. rewrite bag_cons. multiset_solver.
  - case_bool_decide as Hin; simplify_eq. apply Hkeep; [|done]. unfold places; simpl.
    rewrite owned_post, (bag_take_out_snd _ _ Hin). simpl. multiset_solver.
  - destruct (running w id); simplify_eq. apply Hkeep; [|done]. unfold places; simpl. by rewrite owned_exit.
  - simplify_eq. apply Hkeep; [|done]. unfold places. simpl. rewrite !owned_split. simpl.
    rewrite !bag_app. change (bag (all_boxes ∅)) with (∅ : gmultiset Z). change (bag []) with (∅ : gmultiset Z).
    multiset_solver.
Qed.

Lemma reachable_handles w : reachable w → handles_inv w.
Proof.
  induction 1 as [|w e w' _ IH Hs]; [|by eapply step_handles].
  split_and!; [done|by apply NoDup_nil_2|by apply not_elem_of_nil].
Qed.

Definition next (w w' : world) : Prop := ∃ e, step w e = Some w'.

Lemma reachable_rtc w w' : reachable w → rtc next w w' → reachable w'.
Proof. intros Hw Hr. induction Hr as [|w w1 w' [e He] _ IH]; [done|]. apply IH. by eapply reach_step. Qed.

Lemma step_lost w e w' x : step w e = Some w' → x ∈ lost w → x ∈ lost w'.
Proof.
  unfold step, popped. intros Hs Hx.
  destruct e; repeat case_match; simplify_eq/=; rewrite ?elem_of_app, ?elem_of_cons; auto.
  - destruct (handleInbox (cluster w) id) as [[[]]|]; by simplify_eq/=.
Qed.

Lemma rtc_lost w w' x : rtc next w w' → x ∈ lost w → x ∈ lost w'.
Proof. induction 1 as [|w w1 w' [e He] _ IH]; [done|]. intros Hx. by eapply IH, step_lost. Qed.

Lemma elem_of_bag x l : x ∈ bag l ↔ x ∈ l.
Proof. apply elem_of_list_to_set_disj. Qed.

Lemma bag_multiplicity_le l x : NoDup l → (multiplicity x (bag l) <= 1)%nat.
Proof.
  induction l as [|y l IH]; intros Hd; [change (bag []) with (∅ : gmultiset Z); rewrite multiplicity_empty; lia|].
  apply NoDup_cons in Hd as [Hy Hd]. rewrite bag_cons, multiplicity_disj_union, multiplicity_singleton.
  specialize (IH Hd). case_decide as Hxy; [subst x|lia].
  assert (multiplicity y (bag l) = 0%nat); [|lia]. apply not_elem_of_multiplicity. by rewrite elem_of_bag.
Qed.

(** A handle is in one place at a time. *)
Lemma place_once w h : handles_inv w → (multiplicity h (places w) <= 1)%nat.
Proof. intros (-> & Hd & _). by apply bag_multiplicity_le. Qed.

Lemma freed_not_lost w h : handles_inv w → h ∈ lost w → (h ∉ freed w).
Proof.
  intros Hi Hl Hf. pose proof (place_once w h Hi) as Hm.
  rewrite <-elem_of_bag, elem_of_multiplicity in Hl. rewrite <-elem_of_bag, elem_of_multiplicity in Hf.
  unfold places in Hm. rewrite !multiplicity_disj_union in Hm. lia.
Qed.

Lemma freed_NoDup w : handles_inv w → NoDup (freed w).
Proof.
  intros Hi. assert (Hle : ∀ h, (multiplicity h (bag (freed w)) <= 1)%nat).
  { intros h. pose proof (place_once w h Hi) as Hm. unfold places in Hm.
    rewrite !multiplicity_disj_union in Hm. lia. }
  clear Hi. induction (freed w) as [|x l IH]; [by apply NoDup_nil_2|]. apply NoDup_cons. split.
  - intros Hx. rewrite <-elem_of_bag, elem_of_multiplicity in Hx. specialize (Hle x).
    rewrite bag_cons, multiplicity_disj_union, multiplicity_singleton, decide_True in Hle by done. lia.
  - apply IH. intros h. specialize (Hle h). rewrite bag_cons, multiplicity_disj_union in Hle. lia.
Qed.

(** C9: Clone handles are owned by exactly one party, however hosts and
    agents interleave: every handle the engine made is in exactly one place -
    the latch, an inbox, the post queue, the orphans, between two steps of a
    call, with an agent, freed, or forgotten; CloneFree is never called twice
    on one; and close leaves the cluster with nothing and frees all it
    owned. What a second Broadcast supersedes is forgotten, not retained: it
    is never freed, by close or anything else. *)
Theorem clone_ownership (w : world) (Hreach : reachable w) :
  (∀ h, multiplicity h (places w) = if bool_decide (h ∈ made w) then 1%nat else 0%nat) ∧
  NoDup (freed w) ∧
  (∀ w', step w EClose = Some w' →
     owned (cluster w') = ∅ ∧ (∀ h, h ∈ owned (cluster w) → h ∈ freed w') ∧ closed (cluster w') = true) ∧
  (∀ h w' w'', broadcast (cluster w) ≠ 0 → step w (EBroadcast h) = Some w' → rtc next w' w'' →
     broadcast (cluster w) ∉ freed w'').
Proof.
  pose proof (reachable_handles _ Hreach) as Hi. split_and!.
  - intros h. destruct Hi as (Hp & Hd & _). rewrite Hp. case_bool_decide as Hh.
    + rewrite <-elem_of_bag, elem_of_multiplicity in Hh. pose proof (bag_multiplicity_le _ h Hd). lia.
    + apply not_elem_of_multiplicity. by rewrite elem_of_bag.
  - by apply freed_NoDup.
  - intros w' Hs. simpl in Hs. simplify_eq. split_and!; [done| |done].
    intros h Hh%elem_of_bag. simpl. apply elem_of_app. by left.
  - intros h w' w'' Hb Hs Hr.
    assert (Hw' : reachable w') by by eapply reach_step.
    apply freed_not_lost; [by eapply reachable_handles, reachable_rtc|].
    eapply rtc_lost; [exact Hr|]. simpl in Hs. case_bool_decide; simplify_eq. simpl.
    rewrite (proj2 (Z.eqb_neq _ 0)) by done. apply elem_of_app. left. by apply list_elem_of_singleton.
Qed.

(** ** Lifecycle *)

Definition live_inv (w : world) : Prop :=
  alive (cluster w) = booked w ∖ gone w ∧ exited (cluster w) = gone w ∖ booked w ∧ booked w ⊆ started w ∧
  gone w ⊆ started w.

Lemma step_live w e w' : live_inv w → step w e = Some w' → live_inv w'.
Proof.
  intros (Ha & He & Hb & Hg) Hs.
  assert (Hkeep : alive (cluster w') = alive (cluster w) → exited (cluster w') = exited (cluster w) →
    booked w' = booked w → gone w' = gone w → started w ⊆ started w' → live_inv w').
  { unfold live_inv. intros -> -> -> -> ?. split_and!; set_solver. }
  unfold step, popped, running in Hs. destruct e.
  - case_bool_decide; simplify_eq. apply Hkeep; simpl; set_solver.
  - destruct (bool_decide (id ∈ started w)) eqn:Es; [|done]. destruct (bool_decide (id ∈ booked w)) eqn:Eb; [done|].
    bool_to_prop. simplify_eq/=. unfold live_inv, spawned. simpl. rewrite He.
    case_bool_decide; simpl; rewrite Ha, ?He; split_and!; set_solver.
  - case_match; simplify_eq. by apply Hkeep.
  - case_match; simplify_eq. by apply Hkeep.
  - case_match; simplify_eq. by apply Hkeep.
  - case_match; simplify_eq. by apply Hkeep.
  - destruct (Receive (cluster w)) as [[msg a']|] eqn:E; simplify_eq. unfold Receive in E.
    case_match; simplify_eq. by apply Hkeep.
  - case_match; simplify_eq. by apply Hkeep.
  - case_match; simplify_eq. by apply Hkeep.
  - case_match; [|done]. unfold handleInbox in Hs. repeat case_match; simplify_eq/=; by apply Hkeep.
  - case_match; [|done]. unfold handleTryInbox in Hs. repeat case_match; simplify_eq/=; by apply Hkeep.
  - case_match; simplify_eq. by apply Hkeep.
  - case_match; simplify_eq. by apply Hkeep.
  - destruct (bool_decide (id ∈ started w)) eqn:Es; [|done]. destruct (bool_decide (id ∈ gone w)) eqn:Eg; [done|].
    bool_to_prop. simplify_eq/=. unfold live_inv, handleExit. simpl. rewrite Ha.
    case_bool_decide; simpl; rewrite ?Ha, He; split_and!; set_solver.
  - simpl in Hs. simplify_eq. by apply Hkeep.
Qed.

(** The cluster's view of which agents live is exact although an agent
    may exit before Spawn has even returned its id: in every interleaving the
    agents counted alive are those Spawn returned and that have not exited,
    an early exit is remembered just until Spawn reports it, and once every
    started agent has been reported nothing is left over. *)
Theorem alive_exact (w : world) (Hreach : reachable w) :
  (∀ id, IsAlive (cluster w) id = true ↔ id ∈ booked w ∧ (id ∉ gone w)) ∧
  Alive (cluster w) = size (booked w ∖ gone w) ∧
  (∀ id, id ∈ exited (cluster w) ↔ id ∈ gone w ∧ (id ∉ booked w)) ∧
  (booked w = started w → exited (cluster w) = ∅).
Proof.
  assert (Hi : live_inv w).
  { induction Hreach as [|w e w' _ IH Hs]; [|by eapply step_live].
    unfold live_inv. simpl. split_and!; set_solver. }
  destruct Hi as (Ha & He & Hb & Hg). unfold IsAlive, Alive. rewrite Ha, He. split_and!.
  - intros id. rewrite bool_decide_eq_true. set_solver.
  - done.
  - set_solver.
  - intros Hbs. rewrite Hbs. set_solver.
Qed.

(** ** Inboxes *)

Definition fifo_inv (w : world) : Prop :=
  ∀ id, default [] (got w !! id) `prefix_of` default [] (sent w !! id) ∧
        (closed (cluster w) = false → (id ∉ gone w) →
         default [] (sent w !! id) = default [] (got w !! id) ++ inbox (cluster w) id).

Lemma log_lookup m id clone id' :
  default [] (log m id clone !! id') =
  default [] (m !! id') ++ (if bool_decide (id = id') then [clone] else []).
Proof.
  unfold log. case_bool_decide as H; [subst; by rewrite lookup_insert_eq|].
  by rewrite lookup_insert_ne, app_nil_r.
Qed.

Lemma inbox_insert a c b l p o al ex id id' :
  inbox (MkAgents c b (<[ id := l ]> (inboxes a)) p o al ex) id' =
  if bool_decide (id = id') then l else inbox a id'.
Proof.
  unfold inbox. simpl. case_bool_decide as H; [subst; by rewrite lookup_insert_eq|]. by rewrite lookup_insert_ne.
Qed.

Lemma fifo_pop w id c box' :
  fifo_inv w → closed (cluster w) = false → running w id = true → inbox (cluster w) id = c :: box' →
  fifo_inv (popped w id (Handle c, pop_inbox (cluster w) id box')).
Proof.
  intros Hi Hc Hr Hb id'. unfold running in Hr. bool_to_prop. destruct (Hi id') as [Hp Heq].
  simpl. unfold pop_inbox. rewrite log_lookup, inbox_insert. case_bool_decide as Hid; [subst id'|].
  - rewrite (Heq Hc) by done. rewrite Hb. split; [|intros _ _; by rewrite <-app_assoc].
    exists box'. by rewrite <-app_assoc.
  - rewrite app_nil_r. auto.
Qed.

Lemma step_fifo w e w' : fifo_inv w → step w e = Some w' → fifo_inv w'.
Proof.
  intros Hi Hs.
  assert (Hkeep : ∀ w', sent w' = sent w → got w' = got w → (gone w ⊆ gone w') →
    (closed (cluster w') = false → closed (cluster w) = false ∧
       ∀ id, (id ∉ gone w') → inbox (cluster w') id = inbox (cluster w) id) → fifo_inv w').
  { clear -Hi. intros w' Hs Hg Hgo Hc id. destruct (Hi id) as [Hp Heq]. rewrite Hs, Hg. split; [done|].
    intros Hcl Hid. destruct (Hc Hcl) as [Hcl' Hbox]. rewrite Hbox by done. apply Heq; [done|set_solver]. }
  unfold step in Hs. destruct e.
  - case_match; simplify_eq. by apply Hkeep.
  - case_match; simplify_eq. apply Hkeep; [done..|]. simpl. unfold spawned. destruct (bool_decide (id ∈ exited _)); intros Hc; by (split; [exact Hc|]).
  - case_match; simplify_eq. by apply Hkeep.
  - case_bool_decide; simplify_eq. intros id. destruct (Hi id) as [Hp Heq]. simpl. unfold Send. simpl.
    rewrite log_lookup, inbox_insert. split; [by apply prefix_app_r|]. intros Hc Hg.
    rewrite (Heq Hc Hg). case_bool_decide; [subst; by rewrite app_assoc|by rewrite app_nil_r].
  - case_match; simplify_eq. by apply Hkeep.
  - case_match; simplify_eq. by apply Hkeep.
  - destruct (Receive (cluster w)) as [[msg a']|] eqn:E; simplify_eq. unfold Receive in E.
    case_match; simplify_eq. by apply Hkeep.
  - case_match; simplify_eq. by apply Hkeep.
  - case_match; simplify_eq. by apply Hkeep.
  - destruct (running w id) eqn:Er; [|done]. unfold handleInbox in Hs.
    destruct (closed (cluster w)) eqn:Ec; simpl in Hs; [injection Hs as <-; exact Hi|].
    destruct (inbox (cluster w) id) as [|c box'] eqn:Eb; simplify_option_eq; by apply fifo_pop.
  - destruct (running w id) eqn:Er; [|done]. injection Hs as <-. unfold handleTryInbox.
    destruct (closed (cluster w)) eqn:Ec; [exact Hi|].
    destruct (inbox (cluster w) id) as [|c box'] eqn:Eb; [exact Hi|]. by apply fifo_pop.
  - case_match; simplify_eq. by apply Hkeep.
  - case_match; simplify_eq. by apply Hkeep.
  - case_match; simplify_eq. apply Hkeep; [done|done|simpl; set_solver|]. simpl. unfold handleExit.
    destruct (bool_decide (id ∈ alive _)); simpl; intros Hc; (split; [exact Hc|]); intros id' Hid';
      rewrite not_elem_of_union, not_elem_of_singleton in Hid'; unfold inbox; simpl;
      by rewrite lookup_delete_ne by naive_solver.
  - simpl in Hs. simplify_eq. by apply Hkeep.
Qed.

(** Messages to an agent arrive in the order they were sent: what the
    agent has popped - by blocking and polling receives in any mix - is
    always a prefix of what Send queued for it, and until it exits or the
    cluster closes the rest is exactly its inbox, so nothing is lost,
    duplicated or delivered to another agent. *)
Theorem inbox_fifo (w : world) (id : Z) (Hreach : reachable w) :
  default [] (got w !! id) `prefix_of` default [] (sent w !! id) ∧
  (closed (cluster w) = false → (id ∉ gone w) →
     default [] (sent w !! id) = default [] (got w !! id) ++ inbox (cluster w) id).
Proof.
  assert (Hi : fifo_inv w); [|apply Hi].
  induction Hreach as [|w e w' _ IH Hs]; [|by eapply step_fifo].
  intros id'. simpl. rewrite lookup_empty. done.
Qed.

(** ** A concrete run *)

Fixpoint run_events (w : world) (es : list event) : option world :=
  match es with [] => Some w | e :: es' => w' ← step w e; run_events w' es' end.

Lemma run_reachable w es w' : reachable w → run_events w es = Some w' → reachable w'.
Proof.
  revert w. induction es as [|e es IH]; simpl; intros w Hw Hr; [by simplify_eq|].
  destruct (step w e) as [w1|] eqn:E; simpl in Hr; [|done]. eapply IH; [by eapply reach_step|done].
Qed.

Definition demo_events : list event :=
  [EStart 1; EExit 1; ESpawned 1; EStart 2; ESpawned 2; EWriteSend 2 7; EWriteSend 2 8; ESend 2 7; ESend 2 8;
   EInbox 2; EWriteBroadcast 9; EBroadcast 9; EWritePost 2 11; EPost 2 11; EReceive; EReceived (2, 11)].

Definition demo_world : world := default world0 (run_events world0 demo_events).

Lemma demo_reachable : reachable demo_world.
Proof.
  assert (H : run_events world0 demo_events = Some demo_world) by (vm_compute; reflexivity).
  eapply run_reachable; [apply reach_start|exact H].
Qed.

Lemma clone_ownership_witness :
  reachable demo_world ∧ freed demo_world = [11] ∧ broadcast (cluster demo_world) = 9 ∧
  ∀ wa wb w1, step demo_world (EWriteBroadcast 10) = Some wa → step wa (EBroadcast 10) = Some wb →
    step wb EClose = Some w1 → 9 ∉ freed w1.
Proof.
  split; [apply demo_reachable|]. split; [vm_compute; reflexivity|]. split; [vm_compute; reflexivity|].
  intros wa wb w1 Ea Eb Ec.
  assert (Hba : broadcast (cluster wa) = 9) by (vm_compute in Ea; injection Ea as <-; reflexivity).
  destruct (clone_ownership wa (reach_step _ _ _ demo_reachable Ea)) as (_ & _ & _ & H). rewrite Hba in H.
  apply (H 10 wb w1); [discriminate|exact Eb|].
  eapply rtc_l; [exists EClose; exact Ec|apply rtc_refl].
Defined.

Lemma alive_exact_witness :
  IsAlive (cluster demo_world) 1 = false ∧ IsAlive (cluster demo_world) 2 = true ∧
  exited (cluster demo_world) = ∅.
Proof.
  destruct (alive_exact demo_world demo_reachable) as (Ha & _ & _ & He).
  split; [vm_compute; reflexivity|]. split.
  - apply Ha. split; [by_decide|by_decide].
  - apply He. vm_compute. reflexivity.
Defined.

Lemma inbox_fifo_witness :
  default [] (sent demo_world !! 2) = [7; 8] ∧
  default [] (sent demo_world !! 2) = default [] (got demo_world !! 2) ++ inbox (cluster demo_world) 2.
Proof.
  split; [vm_compute; reflexivity|].
  apply (inbox_fifo demo_world 2 demo_reachable); [vm_compute; reflexivity|by_decide].
Defined.
