(* ===== verification/HostCall.v ===== *)
(** The bridge between guest and host: value.go (the value codec), object.go
    (handles and Free), hostenv.go (Go_host_call, dispatch, the release of
    argument roots) and the resolvers of module.go.

    [*Object] values are pointers, so they live in a heap and a value refers
    to one by its index; [released] is the sequence of FreeObject calls the
    engine has seen. A finite float64 is the text strconv.FormatFloat(f, 'g',
    -1, 64) gives it; decoding keeps the number's text. A host Func is what
    it does with handles: the operations it performs on its arguments, then
    its outcome. *)

From S2P Require Import Prelude GoPath IoFS Json Agents.

(** ** Values *)

Inductive num := NaN | Inf (negative : bool) | Fin (text : bytes).

Inductive value :=
| VUndefined
| VNull
| VBool (b : bool)
| VNumber (n : num)
| VString (s : bytes)
| VComposite (data : bytes)   (** Go data, by its json.Marshal text *)
| VObject (ref : nat)
| VOpaque (kind : bytes) (h : Z).

#[export] Instance num_eq_dec : EqDecision num.
Proof. solve_decision. Defined.
#[export] Instance value_eq_dec : EqDecision value.
Proof. solve_decision. Defined.

Record object := MkObject { handle : Z; callable : bool; taken : bool }.

Record heap := MkHeap { objects : list object; released : list Z }.

Definition alloc (H : heap) (o : object) : nat * heap :=
  (length (objects H), MkHeap (objects H ++ [o]) (released H)).

Definition update (H : heap) (r : nat) (f : object → object) : heap :=
  MkHeap (alter f r (objects H)) (released H).

(** Value.Object, Value.Export on an object: the taker owns the handle. *)
Definition take_object (H : heap) (r : nat) : heap :=
  update H r (fun o => MkObject (handle o) (callable o) true).

(** Object.Free. *)
Definition Free (H : heap) (r : nat) : heap :=
  match objects H !! r with
  | None => H
  | Some o =>
      if handle o =? 0 then H
      else MkHeap (alter (fun o => MkObject 0 (callable o) (taken o)) r (objects H)) (released H ++ [handle o])
  end.

(** opaqueValue.free *)
Definition free_opaque (H : heap) (h : Z) : heap :=
  if h =? 0 then H else MkHeap (objects H) (released H ++ [h]).

(** ** The codec *)

Inductive derr :=
| DUndecodable
| DUnknownNumber (s : bytes)
| DUnknownKind (k : bytes)
| DJSError (message : bytes).

Record valueEncoding := MkEncoding { K : bytes; V : option json; Hn : Z }.

(** json.Unmarshal into a valueEncoding. *)
Definition unmarshal_encoding (ms : list (bytes * json)) : option valueEncoding :=
  k ← Json.field_string "k" ms;
  h ← Json.field_uint "h" ms;
  Some (MkEncoding k (Json.field_any "v" ms) h).

(** e.V.(string), e.V.(bool) with the zero value otherwise. *)
Definition any_string (v : option json) : bytes := match v with Some (JStr s) => s | _ => [] end.
Definition any_bool (v : option json) : bool := match v with Some (JBool b) => b | _ => false end.

Definition decode_number (v : option json) : result derr value :=
  match v with
  | Some (JStr s) =>
      if bool_decide (s = lit "NaN") then Ok (VNumber NaN)
      else if bool_decide (s = lit "Infinity") then Ok (VNumber (Inf false))
      else if bool_decide (s = lit "-Infinity") then Ok (VNumber (Inf true))
      else Err (DUnknownNumber s)
  | Some (JNum t) => Ok (VNumber (Fin t))
  | _ => Ok (VNumber (Fin (lit "0")))
  end.

(** decodeValue on the tree of its text. *)
Definition decode_tree (H : heap) (j : json) : result derr value * heap :=
  match (ms ← Json.struct_members j; unmarshal_encoding ms) with
  | None => (Err DUndecodable, H)
  | Some e =>
      let k := K e in
      if bool_decide (k = lit "undefined") then (Ok VUndefined, H)
      else if bool_decide (k = lit "null") then (Ok VNull, H)
      else if bool_decide (k = lit "bool") then (Ok (VBool (any_bool (V e))), H)
      else if bool_decide (k = lit "number") then (decode_number (V e), H)
      else if bool_decide (k = lit "string") then (Ok (VString (any_string (V e))), H)
      else if bool_decide (k = lit "object") || bool_decide (k = lit "function") then
        let '(r, H') := alloc H (MkObject (Hn e) (bool_decide (k = lit "function")) false) in (Ok (VObject r), H')
      else if bool_decide (k = lit "symbol") || bool_decide (k = lit "bigint") then
        (Ok (VOpaque k (Hn e)), H)
      else if bool_decide (k = lit "error") then (Err (DJSError (any_string (V e))), H)
      else (Err (DUnknownKind k), H)
  end.

Definition decodeValue (H : heap) (encoded : bytes) : result derr value * heap :=
  match Json.parse encoded with
  | None => (Err DUndecodable, H)
  | Some j => decode_tree H j
  end.

Definition tagged (k : string) (field : string) (data : bytes) : bytes :=
  jlit "{'k':'" ++ lit k ++ jlit "','" ++ lit field ++ jlit "':" ++ data ++ lit "}".

(** encodeValue; it asks an object for itself with Value.Object, which takes
    it. *)
Definition encodeValue (H : heap) (v : value) : bytes * heap :=
  match v with
  | VUndefined => (jlit "{'k':'undefined'}", H)
  | VNull => (jlit "{'k':'null'}", H)
  | VBool b => (tagged "bool" "v" (lit (if b then "true" else "false")), H)
  | VNumber NaN => (tagged "number" "v" (jlit "'NaN'"), H)
  | VNumber (Inf false) => (tagged "number" "v" (jlit "'Infinity'"), H)
  | VNumber (Inf true) => (tagged "number" "v" (jlit "'-Infinity'"), H)
  | VNumber (Fin t) => (tagged "number" "v" t, H)
  | VString s => (tagged "string" "v" (Json.marshal_string s), H)
  | VComposite data => (tagged "json" "v" data, H)
  | VObject r =>
      (tagged "object" "h" (format_uint (default 0 (handle <$> objects H !! r))), take_object H r)
  | VOpaque k h =>
      (jlit "{'k':'" ++ k ++ jlit "','h':" ++ format_uint h ++ lit "}", H)
  end.

(** ** Host functions *)

Inductive op :=
| OTake (r : nat)       (** args[i].Object() or Export() *)
| OFree (r : nat)       (** Free on an object *)
| OForward (v : value). (** passing a value on in a Call, Set or Send: encodeValue *)

Inductive outcome :=
| OReturn (v : value)
| OThrow (v : value)    (** return nil, Throw(v) *)
| OError (message : bytes)
| OPanic.

Definition Func : Type := list value → list op * outcome.

Definition run_op (H : heap) (o : op) : heap :=
  match o with
  | OTake r => take_object H r
  | OFree r => Free H r
  | OForward v => (encodeValue H v).2
  end.

Definition run_ops (H : heap) (os : list op) : heap := foldl run_op H os.

(** releaseArgRoots. *)
Definition release_arg (ret : value) (H : heap) (a : value) : heap :=
  match a with
  | VObject r =>
      match objects H !! r with
      | Some o => if negb (taken o) && negb (bool_decide (a = ret)) then Free H r else H
      | None => H
      end
  | VOpaque _ h => if negb (bool_decide (a = ret)) then free_opaque H h else H
  | _ => H
  end.

Definition releaseArgRoots (H : heap) (args : list value) (ret : value) : heap :=
  foldl (release_arg ret) H args.

(** ** Dispatch *)

(** A reply: its tag byte and what follows; [Nothing] is a nil slice. *)
Inductive payload :=
| R (b : bytes)
| Throwing (b : bytes)
| E (e : herr)
| Nothing
with herr :=
| HNotRegistered (key : bytes)
| HArgsUndecodable
| HArgUndecodable (e : derr)
| HMessage (m : bytes)
| HAgentArgs (argsJSON : bytes)
| HAgent (text : bytes)
| HPanic (key : bytes).

(** The loop over the arguments. *)
Fixpoint decode_args (H : heap) (raw : list json) : result derr (list value) * heap :=
  match raw with
  | [] => (Ok [], H)
  | j :: raw' =>
      match decode_tree H j with
      | (Err e, H1) => (Err e, H1)
      | (Ok v, H1) => match decode_args H1 raw' with
                      | (Err e, H2) => (Err e, H2)
                      | (Ok vs, H2) => (Ok (v :: vs), H2)
                      end
      end
  end.

(** json.Unmarshal into a slice of json.RawMessage, of uint64, of string. *)
Definition raw_items (argsJSON : bytes) : option (list json) :=
  match Json.parse argsJSON with Some (JArr items) => Some items | Some JNull => Some [] | _ => None end.

Definition parseAgentArgs (argsJSON : bytes) (want : nat) : option (list Z) :=
  items ← raw_items argsJSON;
  ids ← mapM (fun j => match j with JNull => Some 0 | _ => Json.uint_of j end) items;
  if (length ids <? want)%nat then None else Some ids.

Definition raw_strings (argsJSON : bytes) : list bytes :=
  match raw_items argsJSON with
  | Some items => map (fun j => match j with JStr s => s | _ => [] end) items
  | None => []
  end.

(** A ModuleLoader: the source, or the text of an error. *)
Definition ModuleLoader : Type := bytes → bytes → result bytes bytes.

Record prefixResolver := MkResolver { prefix : bytes; load : ModuleLoader }.

Record hostEnv := MkEnv {
  funcs : gmap bytes Func;
  loader : option ModuleLoader;
  resolvers : list prefixResolver;
  agents : Agents;
  store : heap
}.

(** *** module.go *)

(** sort.SliceStable by decreasing prefix length: insertion behind equals. *)
Fixpoint insert_resolver (r : prefixResolver) (rs : list prefixResolver) : list prefixResolver :=
  match rs with
  | [] => [r]
  | r' :: rs' => if (length (prefix r') <? length (prefix r))%nat then r :: rs else r' :: insert_resolver r rs'
  end.

Definition sort_resolvers (rs : list prefixResolver) : list prefixResolver :=
  foldl (fun acc r => insert_resolver r acc) [] rs.

Fixpoint replace_resolver (p : bytes) (l : option ModuleLoader) (rs : list prefixResolver)
    : option (list prefixResolver) :=
  match rs with
  | [] => None
  | r :: rs' =>
      if bool_decide (prefix r = p) then
        Some (match l with None => rs' | Some f => MkResolver p f :: rs' end)
      else cons r <$> replace_resolver p l rs'
  end.

Definition RegisterModuleResolver (e : hostEnv) (p : bytes) (l : option ModuleLoader) : hostEnv :=
  if bool_decide (p = []) then MkEnv (funcs e) l (resolvers e) (agents e) (store e)
  else match replace_resolver p l (resolvers e) with
       | Some rs => MkEnv (funcs e) (loader e) rs (agents e) (store e)
       | None => match l with
                 | None => e
                 | Some f => MkEnv (funcs e) (loader e)
                               (sort_resolvers (resolvers e ++ [MkResolver p f])) (agents e) (store e)
                 end
       end.

Definition SetModuleLoader (e : hostEnv) (l : option ModuleLoader) : hostEnv :=
  MkEnv (funcs e) l (resolvers e) (agents e) (store e).

(** defaultModuleLoader over Config.FS. *)
Definition defaultModuleLoader {F} `{WritableFS F} (fsys : option F) : ModuleLoader := fun specifier _ =>
  match fsys with
  | None => Err (lit "cannot load module: no FS configured")
  | Some f => match fs_read f specifier with Ok b => Ok b | Err g => Err (ge_text g) end
  end.

(** The loader dispatchModuleLoad picks. *)
Definition pick_loader (e : hostEnv) (spec : bytes) : option ModuleLoader :=
  match List.find (fun r => has_prefix spec (prefix r)) (resolvers e) with
  | Some r => Some (load r)
  | None => loader e
  end.

Definition dispatchModuleLoad (e : hostEnv) (argsJSON : bytes) : payload :=
  let a := raw_strings argsJSON in
  let spec := default [] (a !! 0%nat) in
  let ref := default [] (a !! 1%nat) in
  match pick_loader e spec with
  | None => Nothing
  | Some l => match l spec ref with Ok src => R src | Err m => E (HMessage m) end
  end.

(** *** hostenv.go *)

Definition key_of (name : string) : bytes := 0 :: lit name.
Definition ModuleLoaderKey : bytes := key_of "module-load".
Definition AgentReceiveKey : bytes := key_of "agent-receive".
Definition AgentInboxKey : bytes := key_of "agent-inbox".
Definition AgentTryInboxKey : bytes := key_of "agent-try-inbox".
Definition AgentPostKey : bytes := key_of "agent-post".
Definition AgentSleepKey : bytes := key_of "agent-sleep".
Definition AgentNowKey : bytes := key_of "agent-now".
Definition AgentExitKey : bytes := key_of "agent-exit".

Definition with_store (e : hostEnv) (H : heap) : hostEnv := MkEnv (funcs e) (loader e) (resolvers e) (agents e) H.
Definition with_agents (e : hostEnv) (a : Agents) : hostEnv := MkEnv (funcs e) (loader e) (resolvers e) a (store e).

Definition agent_payload (r : reply) : payload :=
  match reply_bytes r with
  | 82 :: b => R b
  | _ :: b => E (HAgent b)
  | [] => Nothing
  end.

(** The result of fn and what becomes of its arguments: on a panic nothing is
    released. *)
Definition call_func (H : heap) (fn : Func) (args : list value) : outcome * heap :=
  let '(os, out) := fn args in
  let H1 := run_ops H os in
  match out with
  | OPanic => (out, H1)
  | OReturn v => (out, releaseArgRoots H1 args v)
  | OThrow _ | OError _ => (out, releaseArgRoots H1 args VUndefined)
  end.

(** A call to a registered function. [nil] returned with an error is no
    argument, so it protects none: [VUndefined] stands for it. *)
Definition dispatch_func (e : hostEnv) (key : bytes) (fn : Func) (argsJSON : bytes) : payload * hostEnv :=
  match raw_items argsJSON with
  | None => (E HArgsUndecodable, e)
  | Some raw =>
      match decode_args (store e) raw with
      | (Err d, H) => (E (HArgUndecodable d), with_store e H)
      | (Ok args, H) =>
          match call_func H fn args with
          | (OReturn v, H1) => let '(enc, H2) := encodeValue H1 v in (R enc, with_store e H2)
          | (OThrow v, H1) => let '(enc, H2) := encodeValue H1 v in (Throwing enc, with_store e H2)
          | (OError m, H1) => (E (HMessage m), with_store e H1)
          | (OPanic, H1) => (E (HPanic key), with_store e H1)
          end
      end
  end.

(** dispatch under safeDispatch; [None] while an agent's goroutine waits.
    [now] is the text of the agents' clock. *)
Definition dispatch (now : bytes) (e : hostEnv) (key argsJSON : bytes) : option (payload * hostEnv) :=
  let agent (want : nat) (k : list Z → option (payload * hostEnv)) : option (payload * hostEnv) :=
    match parseAgentArgs argsJSON want with
    | None => Some (E (HAgentArgs argsJSON), e)
    | Some ids => k ids
    end in
  let arg ids i := default 0 (ids !! i) in
  if bool_decide (key = ModuleLoaderKey) then Some (dispatchModuleLoad e argsJSON, e)
  else if bool_decide (key = AgentReceiveKey) then
    agent 1%nat (fun _ => r ← handleReceive (agents e); Some (agent_payload r, e))
  else if bool_decide (key = AgentInboxKey) then
    agent 1%nat (fun ids => '(r, a) ← handleInbox (agents e) (arg ids 0%nat); Some (agent_payload r, with_agents e a))
  else if bool_decide (key = AgentTryInboxKey) then
    agent 1%nat (fun ids => let '(r, a) := handleTryInbox (agents e) (arg ids 0%nat) in
                            Some (agent_payload r, with_agents e a))
  else if bool_decide (key = AgentPostKey) then
    agent 2%nat (fun ids => Some (R [], with_agents e (handlePost (agents e) (arg ids 0%nat) (arg ids 1%nat))))
  else if bool_decide (key = AgentSleepKey) then agent 2%nat (fun _ => Some (R [], e))
  else if bool_decide (key = AgentNowKey) then Some (R now, e)
  else if bool_decide (key = AgentExitKey) then
    agent 1%nat (fun ids => Some (R [], with_agents e (handleExit (agents e) (arg ids 0%nat))))
  else match funcs e !! key with
       | None => Some (E (HNotRegistered key), e)
       | Some fn => Some (dispatch_func e key fn argsJSON)
       end.

(** *** Guest memory *)

(** copy(mem[at:], p): a slice expression out of range panics. *)
Definition copy_to (mem : bytes) (at_ : Z) (p : bytes) : option bytes :=
  if (at_ <? 0) || (Z.of_nat (length mem) <? at_) then None
  else Some (take (Z.to_nat at_) mem ++
             take (length mem - Z.to_nat at_) p ++ drop (Z.to_nat at_ + length p) mem).

Definition slice (mem : bytes) (ptr len : Z) : bytes := take (Z.to_nat len) (drop (Z.to_nat ptr) mem).

Inductive ended (A : Type) := Returned (a : A) | Panicked | Waiting.
Arguments Returned {A} a.
Arguments Panicked {A}.
Arguments Waiting {A}.

Section Memory.
(** The text of a reply, tag first; error texts are the parameter. *)
Context (text : herr → bytes).

Definition payload_bytes (p : payload) : bytes :=
  match p with
  | R b => lit "R" ++ b
  | Throwing b => lit "T" ++ b
  | E e => lit "E" ++ text e
  | Nothing => []
  end.

Definition bad_range (mem : bytes) (ptr len : Z) : bool :=
  (ptr <? 0) || (len <? 0) || (Z.of_nat (length mem) <? ptr + len).

(** Go_host_call by the thread of module [m]: the length returned, the guest
    memory, the stash and the environment afterwards. *)
Definition Go_host_call (now : bytes) (e : hostEnv) (stash : gmap Z bytes) (m : Z) (mem : bytes)
    (keyPtr keyLen argsPtr argsLen outPtr outCap : Z) : ended (Z * bytes * gmap Z bytes * hostEnv) :=
  if bad_range mem keyPtr keyLen || bad_range mem argsPtr argsLen then Returned (0, mem, stash, e)
  else
    match dispatch now e (slice mem keyPtr keyLen) (slice mem argsPtr argsLen) with
    | None => Waiting
    | Some (p, e') =>
        let b := payload_bytes p in
        let n := i32 (Z.of_nat (length b)) in
        if n <=? outCap then
          match copy_to mem outPtr b with
          | None => Panicked
          | Some mem' => Returned (n, mem', stash, e')
          end
        else Returned (n, mem, <[ m := b ]> stash, e')
    end.

Definition Go_host_result (stash : gmap Z bytes) (m : Z) (mem : bytes) (outPtr : Z)
    : ended (bytes * gmap Z bytes) :=
  match copy_to mem outPtr (default [] (stash !! m)) with
  | None => Panicked
  | Some mem' => Returned (mem', delete m stash)
  end.

End Memory.

(** ** Handles are released once *)

(** The handles objects still hold. *)
Definition live (H : heap) : list Z := List.filter (fun h => negb (h =? 0)) (map handle (objects H)).

Definition opaque_handles (args : list value) : list Z :=
  omap (fun a => match a with VOpaque _ h => if h =? 0 then None else Some h | _ => None end) args.

Lemma opaque_handles_cons k h args :
  opaque_handles (VOpaque k h :: args) = if h =? 0 then opaque_handles args else h :: opaque_handles args.
Proof. unfold opaque_handles. cbn [omap list_omap]. by destruct (h =? 0). Qed.

Lemma alter_split {A} (f : A → A) r (l : list A) o :
  l !! r = Some o → ∃ l1 l2, l = l1 ++ o :: l2 ∧ alter f r l = l1 ++ f o :: l2.
Proof.
  revert r. induction l as [|x l IH]; intros [|r] Hr; simplify_eq/=; [by exists [], l|].
  destruct (IH _ Hr) as (l1 & l2 & -> & Ha). exists (x :: l1), l2. split; [done|].
  change (alter f (S r) (x :: l1 ++ o :: l2)) with (x :: alter f r (l1 ++ o :: l2)). by rewrite Ha.
Qed.

Lemma map_handle_alter f r (l : list object) :
  (∀ o, handle (f o) = handle o) → map handle (alter f r l) = map handle l.
Proof.
  intros Hf. revert r. induction l as [|o l IH]; intros [|r]; simpl; [done|done|by rewrite Hf|].
  f_equal. apply IH.
Qed.

Lemma take_object_live H r : live (take_object H r) = live H.
Proof. unfold live, take_object, update. simpl. by rewrite map_handle_alter. Qed.

Lemma encode_live H v : live (encodeValue H v).2 = live H ∧ released (encodeValue H v).2 = released H.
Proof.
  destruct v as [| | |[| []|]| | | |]; simpl; try done.
  split; [apply take_object_live|done].
Qed.

Lemma Free_live H r : live (Free H r) ++ released (Free H r) ≡ₚ live H ++ released H.
Proof.
  unfold Free. destruct (objects H !! r) as [o|] eqn:E; [|done].
  destruct (Z.eqb_spec (handle o) 0) as [|Hne]; [done|].
  destruct (alter_split (fun o => MkObject 0 (callable o) (taken o)) _ _ _ E) as (l1 & l2 & Ho & Ha).
  unfold live. simpl. rewrite Ha, Ho, !map_app, !map_cons. simpl.
  rewrite !List.filter_app. simpl. rewrite (proj2 (Z.eqb_neq _ _) Hne). simpl.
  rewrite <-!app_assoc. apply Permutation_app_head.
  rewrite app_assoc. symmetry. apply Permutation_cons_append.
Qed.

Definition owned_once (H : heap) (opaques : list Z) : Prop := NoDup (live H ++ released H ++ opaques).

Lemma owned_once_perm H H' ops ops' :
  live H' ++ released H' ++ ops' ≡ₚ live H ++ released H ++ ops → owned_once H ops → owned_once H' ops'.
Proof. intros Hp. unfold owned_once. by rewrite Hp. Qed.

Lemma run_ops_once H os opaques : owned_once H opaques → owned_once (run_ops H os) opaques.
Proof.
  revert H. induction os as [|o os IH]; intros H Ho; [done|]. apply IH.
  apply (owned_once_perm H _ opaques); [|done]. rewrite !app_assoc. apply Permutation_app_tail.
  destruct o as [r|r|v]; simpl.
  - by rewrite take_object_live.
  - apply Free_live.
  - by destruct (encode_live H v) as [-> ->].
Qed.

Lemma release_once ret H args :
  owned_once H (opaque_handles args) → NoDup (released (releaseArgRoots H args ret)).
Proof.
  unfold releaseArgRoots. revert H. induction args as [|a args IH]; cbn [foldl]; intros H Ho.
  - unfold owned_once in Ho. change (opaque_handles []) with (@nil Z) in Ho. rewrite app_nil_r in Ho. by apply NoDup_app in Ho as (_ & _ & ?).
  - apply IH. destruct a; try exact Ho.
    + change (opaque_handles (VObject ref :: args)) with (opaque_handles args) in Ho. simpl.
      destruct (objects H !! ref) as [o|]; [|done].
      destruct (_ && _); [|done]. apply (owned_once_perm H _ (opaque_handles args)); [|done].
      rewrite !app_assoc. apply Permutation_app_tail, Free_live.
    + rewrite opaque_handles_cons in Ho. simpl. unfold free_opaque.
      destruct (h =? 0); [by destruct (negb _)|]. destruct (negb _).
      * apply (owned_once_perm H _ (h :: opaque_handles args)); [|done].
        unfold live. simpl. by rewrite <-app_assoc.
      * unfold owned_once in *. rewrite app_assoc in *. apply NoDup_app in Ho as (? & Hd & Hc).
        apply NoDup_app. split_and!; [done| |by apply NoDup_cons in Hc as [_ ?]]. set_solver.
Qed.

(** What releasing arguments does to objects. *)
Definition kept_or_freed (H H' : heap) : Prop :=
  released H ⊆ released H' ∧
  ∀ r o, objects H !! r = Some o → ∃ o', objects H' !! r = Some o' ∧ taken o' = taken o ∧
    (handle o' = handle o ∨ (handle o' = 0 ∧ handle o ∈ released H')).

Lemma kept_refl H : kept_or_freed H H.
Proof. split; [done|]. intros r o Ho. exists o. auto. Qed.

Lemma kept_trans H1 H2 H3 : kept_or_freed H1 H2 → kept_or_freed H2 H3 → kept_or_freed H1 H3.
Proof.
  intros [Hs1 H12] [Hs2 H23]. split; [by etransitivity|]. intros r o Ho.
  destruct (H12 _ _ Ho) as (o1 & Ho1 & Ht1 & Hh1). destruct (H23 _ _ Ho1) as (o2 & Ho2 & Ht2 & Hh2).
  exists o2. split_and!; [done|congruence|].
  destruct Hh1 as [Hh1|[Hh1 Hr1]].
  - rewrite Hh1 in Hh2. done.
  - right. split; [|set_solver]. rewrite Hh1 in Hh2. by destruct Hh2 as [?|[? _]].
Qed.

Lemma Free_kept H r : kept_or_freed H (Free H r).
Proof.
  unfold Free. destruct (objects H !! r) as [o|] eqn:E; [|apply kept_refl].
  destruct (Z.eqb_spec (handle o) 0) as [|Hne]; [apply kept_refl|]. split; simpl; [set_solver|].
  intros r' o' Ho'. destruct (decide (r' = r)) as [->|Hr].
  - rewrite E in Ho'. injection Ho' as <-. eexists. rewrite list_lookup_alter_eq, E. simpl.
    split_and!; [done|done|]. right. split; [done|set_solver].
  - exists o'. rewrite list_lookup_alter_ne by done. auto.
Qed.

Lemma Free_freed H r o : objects H !! r = Some o → handle o ≠ 0 → handle o ∈ released (Free H r).
Proof. intros Ho Hh. unfold Free. rewrite Ho, (proj2 (Z.eqb_neq _ _) Hh). simpl. set_solver. Qed.

Lemma release_arg_kept ret H a : kept_or_freed H (release_arg ret H a).
Proof.
  destruct a; simpl; try apply kept_refl.
  - destruct (objects H !! ref) as [o|]; [|apply kept_refl]. destruct (_ && _); [apply Free_kept|apply kept_refl].
  - destruct (negb _); [|apply kept_refl]. unfold free_opaque. destruct (h =? 0); [apply kept_refl|].
    split; simpl; [set_solver|]. intros r o Ho. exists o. auto.
Qed.

Lemma release_kept ret H args : kept_or_freed H (releaseArgRoots H args ret).
Proof.
  unfold releaseArgRoots. revert H. induction args as [|a args IH]; intros H; [apply kept_refl|].
  simpl. eapply kept_trans; [apply release_arg_kept|apply IH].
Qed.

Lemma release_frees ret H args r o :
  VObject r ∈ args → objects H !! r = Some o → taken o = false → handle o ≠ 0 → VObject r ≠ ret →
  handle o ∈ released (releaseArgRoots H args ret) ∧
  ∃ o', objects (releaseArgRoots H args ret) !! r = Some o' ∧ handle o' = 0.
Proof.
  intros Hin Ho Ht Hh Hret. unfold releaseArgRoots.
  apply list_elem_of_split in Hin as (l1 & l2 & ->). rewrite foldl_app. simpl.
  destruct (release_kept ret H l1) as [Hs1 Hk1]. destruct (Hk1 _ _ Ho) as (o1 & Ho1 & Ht1 & Hh1).
  unfold releaseArgRoots in Ho1. rewrite Ho1, Ht1, Ht. rewrite bool_decide_false by done. simpl.
  set (H1 := foldl _ H l1) in *.
  destruct (release_kept ret (Free H1 r) l2) as [Hs2 Hk2]. unfold releaseArgRoots in *.
  destruct (Free_kept H1 r) as [Hs Hk]. destruct (Hk _ _ Ho1) as (o2 & Ho2 & _ & Hh2).
  destruct (Hk2 _ _ Ho2) as (o3 & Ho3 & _ & Hh3).
  assert (Hfree : handle o ∈ released (Free H1 r)).
  { destruct Hh1 as [Heq|[_ Hr]]; [|set_solver]. rewrite <-Heq. apply Free_freed; [done|congruence]. }
  assert (Hz : handle o2 = 0).
  { destruct Hh2 as [Heq|[? _]]; [|done]. rewrite Heq. destruct Hh1 as [Heq1|[? _]]; [|done].
    exfalso. unfold Free in Ho2. rewrite Ho1 in Ho2.
    destruct (Z.eqb_spec (handle o1) 0); [congruence|]. simpl in Ho2.
    rewrite list_lookup_alter_eq, Ho1 in Ho2. simplify_eq/=; congruence. }
  split; [set_solver|]. exists o3. split; [done|]. destruct Hh3 as [->|[-> _]]; done.
Qed.

Lemma release_keeps ret H args r o :
  objects H !! r = Some o → taken o = true ∨ VObject r = ret →
  objects (releaseArgRoots H args ret) !! r = Some o.
Proof.
  intros Ho Hkeep. unfold releaseArgRoots. revert H Ho. induction args as [|a args IH]; intros H Ho; [done|].
  apply IH. destruct a; simpl; try done.
  - destruct (objects H !! ref) as [o'|] eqn:E; [|done]. destruct (decide (ref = r)) as [->|Hne].
    + rewrite Ho in E. injection E as <-. destruct Hkeep as [->|Hret]; [done|].
      rewrite (bool_decide_true _ Hret), andb_false_r. done.
    + destruct (_ && _); [|done]. unfold Free. rewrite E. destruct (handle o' =? 0); [done|].
      simpl. by rewrite list_lookup_alter_ne.
  - destruct (negb _); [|done]. unfold free_opaque. by destruct (h =? 0).
Qed.

(** Symbols and bigints are released too, and nothing else is. *)
Lemma release_opaque ret H args k h :
  VOpaque k h ∈ args → h ≠ 0 → VOpaque k h ≠ ret → h ∈ released (releaseArgRoots H args ret).
Proof.
  intros Hin Hh Hret. apply list_elem_of_split in Hin as (l1 & l2 & ->). unfold releaseArgRoots. rewrite foldl_app.
  cbn [foldl release_arg]. rewrite bool_decide_false by done. unfold free_opaque. rewrite (proj2 (Z.eqb_neq _ _) Hh).
  cbn [negb]. eapply (proj1 (release_kept ret _ l2)). simpl. set_solver.
Qed.

(** An argument that releaseArgRoots drops. *)
Definition dropped (H : heap) (ret a : value) (h : Z) : Prop :=
  a ≠ ret ∧ h ≠ 0 ∧
  match a with
  | VObject r => ∃ o, objects H !! r = Some o ∧ taken o = false ∧ handle o = h
  | VOpaque _ h' => h' = h
  | _ => False
  end.

Lemma release_arg_range ret H a h : h ∈ released (release_arg ret H a) → h ∈ released H ∨ dropped H ret a h.
Proof.
  unfold dropped. destruct a; simpl; try (by left).
  - destruct (objects H !! ref) as [o|] eqn:Ho; [|by left]. destruct (taken o) eqn:Ht; [by left|]. simpl.
    case_bool_decide as Hr; [by left|]. simpl. unfold Free. rewrite Ho. destruct (Z.eqb_spec (handle o) 0); [by left|]. simpl.
    intros [Hin|Hin%list_elem_of_singleton]%elem_of_app; [by left|]. right. split_and!; [done|congruence|]. eauto.
  - case_bool_decide as Hr; [by left|]. simpl. unfold free_opaque. destruct (Z.eqb_spec h0 0); [by left|]. simpl.
    intros [Hin|Hin%list_elem_of_singleton]%elem_of_app; [by left|]. right. split_and!; congruence.
Qed.

Lemma release_range ret H args h :
  h ∈ released (releaseArgRoots H args ret) → h ∈ released H ∨ ∃ a, a ∈ args ∧ dropped H ret a h.
Proof.
  unfold releaseArgRoots. revert H. induction args as [|a args IH]; intros H Hin; [by left|]. cbn [foldl] in Hin.
  destruct (IH _ Hin) as [Hr|(b & Hb & Hd)]; [apply release_arg_range in Hr as [?|?]; [by left|right; exists a; set_solver]|].
  right. exists b. split; [set_solver|]. destruct Hd as (Hne & Hh & Hd). split_and!; [done|done|]. destruct b; try done.
  destruct Hd as (o' & Ho' & Ht & Hz). destruct (release_arg_kept ret H a) as [_ Hk].
  destruct (objects H !! ref) as [o|] eqn:Ho.
  - destruct (Hk _ _ Ho) as (o2 & Ho2 & Ht2 & Hh2). assert (o2 = o') as -> by congruence. exists o. split_and!; [done|congruence|].
    destruct Hh2 as [?|[? _]]; congruence.
  - exfalso. apply lookup_ge_None in Ho. apply lookup_lt_Some in Ho'.
    enough (length (objects (release_arg ret H a)) = length (objects H)) by lia.
    destruct a; simpl; try done; repeat case_match; try done; unfold Free, free_opaque; repeat case_match; simpl; try done;
      by rewrite ?length_alter.
Qed.

(** C10: The handles a host call brings are released exactly by the rule of
    releaseArgRoots. Whatever the function does with its arguments, no handle is
    ever released twice. When the call ends without a panic, what has been
    released is what the function released itself, and the handles of the
    arguments it did not return that are symbols, bigints, or objects nobody
    took; an argument that was taken, or is returned, is left as it was. The
    Ownership comment leaves out two cases: passing an argument on (in a Call, a
    Set, a Send) counts as taking it, because encoding asks it for its object;
    and an untaken argument that is thrown back is released first, so that what
    reaches the guest is handle 0. *)
Theorem arg_roots_released (H : heap) (fn : Func) (args : list value)
    (Honce : owned_once H (opaque_handles args)) :
  let out := (fn args).2 in
  let H1 := run_ops H (fn args).1 in
  let H2 := (call_func H fn args).2 in
  (NoDup (released H2)) ∧
  (out ≠ OPanic → ∀ h, h ∈ released H2 ↔
     h ∈ released H1 ∨
     (h ≠ 0 ∧ ∃ r o, VObject r ∈ args ∧ objects H1 !! r = Some o ∧ taken o = false ∧ handle o = h ∧ out ≠ OReturn (VObject r)) ∨
     (h ≠ 0 ∧ ∃ k, VOpaque k h ∈ args ∧ out ≠ OReturn (VOpaque k h))) ∧
  (out ≠ OPanic → ∀ r o, VObject r ∈ args → objects H1 !! r = Some o → taken o = false → handle o ≠ 0 →
     out ≠ OReturn (VObject r) →
     handle o ∈ released H2 ∧ ∃ o', objects H2 !! r = Some o' ∧ handle o' = 0) ∧
  (∀ r o, objects H1 !! r = Some o → taken o = true ∨ out = OReturn (VObject r) → objects H2 !! r = Some o) ∧
  (∀ H' r o, objects H' !! r = Some o →
     objects (run_op H' (OForward (VObject r))) !! r = Some (MkObject (handle o) (callable o) true)) ∧
  (∀ r o, out = OThrow (VObject r) → VObject r ∈ args → objects H1 !! r = Some o → taken o = false →
     (encodeValue H2 (VObject r)).1 = tagged "object" "h" (lit "0")).
Proof.
  intros out H1 H2.
  pose proof (run_ops_once H (fn args).1 _ Honce) as Hone. fold H1 in Hone.
  assert (Hcase : (out = OPanic ∧ H2 = H1) ∨
    ∃ ret, H2 = releaseArgRoots H1 args ret ∧ (∀ r, VObject r = ret ↔ out = OReturn (VObject r)) ∧
      (∀ k h, VOpaque k h = ret ↔ out = OReturn (VOpaque k h))).
  { unfold H2, call_func, out, H1. destruct (fn args) as [os o]. simpl. destruct o; [| | |by left]; right; eexists.
    - split_and!; [done| |]; intros; split; [by intros ->|by intros [= ->]|by intros ->|by intros [= ->]].
    - by split_and!.
    - by split_and!. }
  split_and!.
  - destruct Hcase as [[_ ->]|(ret & -> & _)]; [|by apply release_once].
    unfold owned_once in Hone. apply NoDup_app in Hone as (_ & _ & Hr). by apply NoDup_app in Hr as [? _].
  - intros Hout h. destruct Hcase as [[? _]|(ret & -> & Hiff & Hopq)]; [done|]. split.
    + intros [Hr|(a & Ha & Hne & Hh & Hd)]%release_range; [by left|]. right. destruct a; try done.
      * left. destruct Hd as (o & Ho & Ht & Hz). split; [done|]. exists ref, o. rewrite <- Hiff. done.
      * right. subst. split; [done|]. exists kind. by rewrite <- Hopq.
    + intros [Hr|[(Hh & r & o & Hin & Ho & Ht & <- & Hne)|(Hh & k & Hin & Hne)]].
      * by apply (proj1 (release_kept ret H1 args)).
      * apply (release_frees ret H1 args r o); try done. by rewrite Hiff.
      * apply (release_opaque ret H1 args k); [done|done|by rewrite Hopq].
  - intros Hout r o Hin Ho Ht Hh Hret. destruct Hcase as [[? _]|(ret & -> & Hiff & _)]; [done|].
    apply release_frees; try done. by rewrite Hiff.
  - intros r o Ho Hk. destruct Hcase as [[_ ->]|(ret & -> & Hiff & _)]; [done|].
    apply release_keeps; [done|]. destruct Hk; [by left|right; by apply Hiff].
  - intros H' r o Ho. simpl. by rewrite list_lookup_alter_eq, Ho.
  - intros r o Hout Hin Ho Ht. destruct Hcase as [[? _]|(ret & -> & Hiff & _)]; [congruence|].
    assert (Hz : ∃ o', objects (releaseArgRoots H1 args ret) !! r = Some o' ∧ handle o' = 0).
    { destruct (decide (handle o = 0)) as [Hh|Hh].
      - destruct (release_kept ret H1 args) as [_ Hk]. destruct (Hk _ _ Ho) as (o' & Ho' & _ & Hz).
        exists o'. split; [done|]. destruct Hz as [->|[? _]]; done.
      - apply (release_frees ret H1 args r o); try done. intros Heq%Hiff. congruence. }
    destruct Hz as (o' & Ho' & Hz). simpl. rewrite Ho'. simpl. by rewrite Hz.
Qed.

Lemma arg_roots_released_witness :
  let H := MkHeap [MkObject 5 false false; MkObject 6 true false] [] in
  let fn : Func := fun _ => ([OTake 1], OThrow (VObject 0)) in
  let args := [VObject 0; VObject 1; VOpaque (lit "symbol") 7; VOpaque (lit "bigint") 8] in
  NoDup (released (call_func H fn args).2) ∧
  released (call_func H fn args).2 = [5; 7; 8] ∧
  (encodeValue (call_func H fn args).2 (VObject 0)).1 = tagged "object" "h" (lit "0").
Proof.
  intros H fn args.
  destruct (arg_roots_released H fn args) as (Hd & _ & _ & _ & _ & Ht).
  - unfold owned_once. by_decide.
  - split; [exact Hd|]. split; [vm_compute; reflexivity|].
    apply (Ht 0%nat (MkObject 5 false false)); [reflexivity|set_solver|reflexivity|reflexivity].
Defined.

(** ** The codec *)

(** A JSON number literal, as it stands in an encoding. *)
Definition number_text (t : bytes) : Prop :=
  Json.skip (t ++ [125]) = t ++ [125] ∧ ∀ d, Json.parse_value d (t ++ [125]) = Some (JNum t, [125]).

Lemma nesting : Json.maxNestingDepth = S (S (Z.to_nat 9998)).
Proof. vm_compute. reflexivity. Qed.

Lemma two_items {A} (item : bytes → option (A * bytes)) f s s1 s2 x y :
  item s = Some (x, 44 :: s1) → Json.skip s1 = s1 → item s1 = Some (y, 125 :: s2) →
  Json.parse_items item 125 (S (S f)) s = Some ([x; y], s2).
Proof.
  intros H1 Hs H2. cbn [Json.parse_items]. rewrite H1. cbn [mbind option_bind].
  change (Json.skip (44 :: s1)) with (44 :: s1). cbv beta iota. rewrite Z.eqb_refl, Hs, H2. reflexivity.
Qed.

Lemma object_of_two d s x y :
  Json.parse_items (Json.parse_member (Json.parse_value (S d))) 125 (S (S (length s))) (34 :: s) = Some ([x; y], []) →
  Json.parse_value (S (S d)) (123 :: 34 :: s) = Some (JObj [x; y], []).
Proof.
  intros Hi. change (Json.parse_value (S (S d)) (123 :: 34 :: s)) with
    ('(ms, s2) ← Json.parse_items (Json.parse_member (Json.parse_value (S d))) 125 (S (S (length s))) (34 :: s);
     Some (JObj ms, s2)).
  by rewrite Hi.
Qed.

(** A key and the text of its value, as encodeValue writes them. *)
Definition member_text (field data : bytes) : bytes := [34] ++ field ++ [34; 58] ++ data.

Lemma member_parses value (field data rest : bytes) v :
  field ∈ [lit "k"; lit "v"; lit "h"] →
  Json.skip (data ++ rest) = data ++ rest → value (data ++ rest) = Some (v, rest) →
  Json.parse_member value (member_text field data ++ rest) = Some ((field, v), rest).
Proof.
  intros Hf Hs Hv. unfold member_text. rewrite <-!app_assoc. rewrite !elem_of_cons in Hf.
  assert (Hm : Json.parse_member value ([34] ++ field ++ [34; 58] ++ data ++ rest) =
               '(v, t) ← value (Json.skip (data ++ rest)); Some ((field, v), t)).
  { destruct Hf as [-> |[-> |[-> |Hf%not_elem_of_nil]]]; [reflexivity..|done]. }
  by rewrite Hm, Hs, Hv.
Qed.

Definition kind_text (k : bytes) : bytes := [34] ++ k ++ [34].

Lemma parse_kind d k rest :
  k ∈ [lit "number"; lit "string"; lit "json"; lit "object"; lit "symbol"; lit "bigint"] →
  Json.parse_value (S d) (kind_text k ++ rest) = Some (JStr k, rest).
Proof.
  rewrite !elem_of_cons. unfold kind_text. rewrite <-!app_assoc.
  intros Hk. repeat (destruct Hk as [-> |Hk]; [reflexivity|]). by apply not_elem_of_nil in Hk.
Qed.

Lemma parse_two k field data v :
  k ∈ [lit "number"; lit "string"; lit "json"; lit "object"; lit "symbol"; lit "bigint"] →
  field ∈ [lit "k"; lit "v"; lit "h"] →
  Json.skip (data ++ [125]) = data ++ [125] →
  (∀ d, Json.parse_value (S d) (data ++ [125]) = Some (v, [125])) →
  Json.parse (123 :: member_text (lit "k") (kind_text k) ++ 44 :: member_text field data ++ [125]) =
    Some (JObj [(lit "k", JStr k); (field, v)]).
Proof.
  intros Hk Hf Hs Hp. unfold Json.parse. rewrite nesting. generalize (Z.to_nat 9998) as d. intros d.
  change (Json.skip (123 :: ?s)) with (123 :: s).
  set (rest := 44 :: member_text field data ++ [125]).
  assert (Hfirst : Json.parse_member (Json.parse_value (S d)) (member_text (lit "k") (kind_text k) ++ rest)
                   = Some ((lit "k", JStr k), rest)).
  { apply member_parses; [set_solver|by unfold kind_text; rewrite <-!app_assoc|by apply parse_kind]. }
  assert (Hobj : Json.parse_value (S (S d)) (123 :: member_text (lit "k") (kind_text k) ++ rest) =
    Some (JObj [(lit "k", JStr k); (field, v)], [])).
  - apply (object_of_two d (drop 1 (member_text (lit "k") (kind_text k) ++ rest))).
    change (34 :: drop 1 (member_text (lit "k") (kind_text k) ++ rest))
      with (member_text (lit "k") (kind_text k) ++ rest).
    eapply two_items; [exact Hfirst| |].
    + unfold member_text. done.
    + by apply member_parses.
  - by rewrite Hobj.
Qed.

(** *** Handles as decimal numbers *)

Lemma digit_byte n : 0 <= n < 10 → is_digit (48 + n) = true.
Proof. intros Hn. unfold is_digit, in_range. rewrite (proj2 (Z.leb_le 48 _)), (proj2 (Z.leb_le _ 57)) by lia. done. Qed.

Lemma format10_digits f n : 0 <= n → Forall (fun c => is_digit c = true) (format10 f n).
Proof.
  revert n. induction f as [|f IH]; intros n Hn; simpl; [done|]. apply Forall_app. split.
  - destruct (n <? 10); [done|]. apply IH. apply Z.div_pos; lia.
  - constructor; [|done]. apply digit_byte, Z.mod_pos_bound. lia.
Qed.

Lemma to_uint_app acc a b : Json.to_uint acc (a ++ b) = Json.to_uint acc a ≫= fun n => Json.to_uint n b.
Proof. revert acc. induction a as [|c a IH]; intros acc; simpl; [done|]. destruct (is_digit c); [apply IH|done]. Qed.

Lemma to_uint_format10 f n : 0 <= n < 10 ^ Z.of_nat f → (0 < f)%nat → Json.to_uint 0 (format10 f n) = Some n.
Proof.
  revert n. induction f as [|f IH]; intros n Hn Hf; [lia|]. cbn [format10].
  rewrite Nat2Z.inj_succ, Z.pow_succ_r in Hn by lia. pose proof (Z.mod_pos_bound n 10 ltac:(lia)) as Hm.
  rewrite to_uint_app. destruct (Z.ltb_spec n 10) as [Hs|Hs].
  - cbn [Json.to_uint mbind option_bind]. rewrite digit_byte by lia. f_equal. rewrite Z.mod_small by lia. lia.
  - rewrite IH.
    + cbn [Json.to_uint mbind option_bind]. rewrite digit_byte by lia. f_equal.
      pose proof (Z.div_mod n 10 ltac:(lia)). lia.
    + split; [apply Z.div_pos; lia|]. apply Z.div_lt_upper_bound; lia.
    + destruct f; [simpl in Hn; lia|lia].
Qed.

Lemma format10_head f n : 0 < n < 10 ^ Z.of_nat f → ∃ c t, format10 f n = c :: t ∧ c ≠ 48.
Proof.
  revert n. induction f as [|f IH]; intros n Hn; [simpl in Hn; lia|]. cbn [format10].
  rewrite Nat2Z.inj_succ, Z.pow_succ_r in Hn by lia. destruct (Z.ltb_spec n 10) as [Hs|Hs].
  - eexists _, _. split; [done|]. rewrite Z.mod_small by lia. lia.
  - destruct (IH (n / 10)) as (c & t & -> & Hc).
    + split; [apply Z.div_str_pos; lia|apply Z.div_lt_upper_bound; lia].
    + by eexists _, _.
Qed.

Lemma digits_all t r :
  Forall (fun c => is_digit c = true) t → Json.digits (t ++ 125 :: r) = (t, 125 :: r).
Proof. induction 1 as [|c t Hc Ht IH]; [done|]. simpl. by rewrite Hc, IH. Qed.

Lemma digit_not c d : is_digit c = true → is_digit d = false → (c =? d) = false.
Proof. intros Hc Hd. apply Z.eqb_neq. congruence. Qed.

Lemma number_of_digits t :
  Forall (fun c => is_digit c = true) t → t ≠ [] → (head t = Some 48 → t = [48]) → number_text t.
Proof.
  intros Ht Hne Hz. pose proof (digits_all t [] Ht) as Hd. destruct t as [|c t]; [done|].
  apply Forall_cons in Ht as [Hc Ht].
  assert (Hneq : ∀ d, is_digit d = false → (c =? d) = false) by (intros d; by apply digit_not).
  split.
  - simpl. assert (Json.is_space c = false) as ->; [|done]. unfold Json.is_space. apply bool_decide_eq_false.
    rewrite !elem_of_cons. intros [-> |[-> |[-> |[-> |Hn%not_elem_of_nil]]]]; by vm_compute in Hc.
  - intros d. assert (Hp : Json.parse_number ((c :: t) ++ [125]) = Some (c :: t, [125])).
    { unfold Json.parse_number. change (Json.opt_byte (lit "-") ((c :: t) ++ [125])) with
        (if bool_decide (c ∈ lit "-") then ([c], t ++ [125]) else ([], (c :: t) ++ [125])).
      rewrite bool_decide_false by (intros ->%list_elem_of_singleton; by vm_compute in Hc).
      cbv iota beta. rewrite Hd. rewrite (bool_decide_false (c :: t = [])) by done.
      case_bool_decide as H48; simpl orb; cbv iota; [rewrite bool_decide_true by by apply Hz|];
        simpl; by rewrite app_nil_r. }
    destruct d as [|d]; cbn [Json.parse_value app]; rewrite !Hneq by done; cbn [app] in Hp; by rewrite Hp.
Qed.

Lemma format_uint_text h :
  0 <= h < 2 ^ 64 → number_text (format_uint h) ∧ Json.uint_of (JNum (format_uint h)) = Some h.
Proof.
  intros Hh. assert (H20 : 0 <= h < 10 ^ Z.of_nat 20) by (change (10 ^ Z.of_nat 20) with 100000000000000000000; lia).
  split.
  - apply number_of_digits; [apply format10_digits; lia| |].
    + unfold format_uint. cbn [format10]. intros He. apply app_eq_nil in He as [_ ?]. done.
    + destruct (decide (h = 0)) as [->|Hne]; [done|]. unfold format_uint.
      destruct (format10_head 20 h) as (c & t & -> & Hc); [lia|]. by intros [= ->].
  - unfold Json.uint_of, format_uint. rewrite to_uint_format10 by lia.
    by rewrite (proj2 (Z.ltb_lt h (2 ^ 64))) by lia.
Qed.

(** *** Round trips *)

(** The values a host function can return without loss: byte strings that are
    valid UTF-8, numbers whose text is a JSON literal, symbols and bigints by
    handle. *)
Definition plain (v : value) : Prop :=
  match v with
  | VNumber (Fin t) => number_text t
  | VString s => Forall is_byte s ∧ Utf8.valid s = true
  | VOpaque k h => (k = lit "symbol" ∨ k = lit "bigint") ∧ 0 <= h < 2 ^ 64
  | VComposite _ | VObject _ => False
  | _ => True
  end.

Lemma tagged_members (k field : string) data :
  tagged k field data = 123 :: member_text (lit "k") (kind_text (lit k)) ++ 44 :: member_text (lit field) data ++ [125].
Proof. unfold tagged, member_text, kind_text. rewrite <-!app_assoc. reflexivity. Qed.

Lemma opaque_members k data :
  jlit "{'k':'" ++ k ++ jlit "','h':" ++ data ++ lit "}" =
  123 :: member_text (lit "k") (kind_text k) ++ 44 :: member_text (lit "h") data ++ [125].
Proof. unfold member_text, kind_text. rewrite <-!app_assoc. reflexivity. Qed.

Lemma decode_members H k field data v :
  k ∈ [lit "number"; lit "string"; lit "json"; lit "object"; lit "symbol"; lit "bigint"] →
  field ∈ [lit "k"; lit "v"; lit "h"] →
  Json.skip (data ++ [125]) = data ++ [125] →
  (∀ d, Json.parse_value (S d) (data ++ [125]) = Some (v, [125])) →
  decodeValue H (123 :: member_text (lit "k") (kind_text k) ++ 44 :: member_text field data ++ [125]) =
    decode_tree H (JObj [(lit "k", JStr k); (field, v)]).
Proof. intros. unfold decodeValue. by erewrite parse_two. Qed.

Lemma parse_value_string s r d :
  Forall is_byte s → Utf8.valid s = true →
  Json.parse_value d (Json.marshal_string s ++ 125 :: r) = Some (JStr s, 125 :: r).
Proof.
  intros Hb Hv. unfold Json.marshal_string. rewrite <-!app_assoc. cbn [app].
  assert (Hp : ∀ t, Json.parse_value d (34 :: t) = '(b, s2) ← Json.parse_string (S (length t)) t; Some (JStr b, s2))
    by (intros t; by destruct d).
  rewrite Hp, parse_marshalled; [done|done|done|done|]. rewrite !length_app. simpl.
  pose proof (length_escape (length s) s ltac:(done)). lia.
Qed.

Lemma decode_tree_handle H k t h :
  Json.uint_of (JNum t) = Some h →
  decode_tree H (JObj [(lit "k", JStr k); (lit "h", JNum t)]) =
    (if bool_decide (k = lit "undefined") then (Ok VUndefined, H)
      else if bool_decide (k = lit "null") then (Ok VNull, H)
      else if bool_decide (k = lit "bool") then (Ok (VBool false), H)
      else if bool_decide (k = lit "number") then (decode_number None, H)
      else if bool_decide (k = lit "string") then (Ok (VString []), H)
      else if bool_decide (k = lit "object") || bool_decide (k = lit "function") then
        let '(r, H') := alloc H (MkObject h (bool_decide (k = lit "function")) false) in (Ok (VObject r), H')
      else if bool_decide (k = lit "symbol") || bool_decide (k = lit "bigint") then
        (Ok (VOpaque k h), H)
      else if bool_decide (k = lit "error") then (Err (DJSError []), H)
      else (Err (DUnknownKind k), H)).
Proof.
  intros Hu. unfold decode_tree. assert (He : (ms ← Json.struct_members (JObj [(lit "k", JStr k); (lit "h", JNum t)]);
    unmarshal_encoding ms) = Some (MkEncoding k None h)); [|by rewrite He].
  transitivity (h' ← Json.uint_of (JNum t); Some (MkEncoding k None h')); [reflexivity|by rewrite Hu].
Qed.

(** What a host function returns, the guest's codec reads back:
    decodeValue of encodeValue is the identity, and changes nothing, on
    undefined, null, booleans, every number (NaN and the infinities included),
    strings of valid UTF-8, symbols and bigints. An object comes back as a new
    [*Object] on the same handle that is not known to be callable, even when
    the original was a function, and encoding has marked the original taken.
    The json kind of composite Go data has no decoder. *)
Theorem value_roundtrip (H : heap) :
  (∀ v, plain v → (encodeValue H v).2 = H ∧ decodeValue H (encodeValue H v).1 = (Ok v, H)) ∧
  (∀ r o, objects H !! r = Some o → 0 <= handle o < 2 ^ 64 →
     let '(enc, H1) := encodeValue H (VObject r) in
     decodeValue H1 enc = (Ok (VObject (length (objects H1))),
       MkHeap (objects H1 ++ [MkObject (handle o) false false]) (released H1)) ∧
     objects H1 !! r = Some (MkObject (handle o) (callable o) true)) ∧
  (∀ t, number_text t → decodeValue H (encodeValue H (VComposite t)).1 = (Err (DUnknownKind (lit "json")), H)).
Proof.
  split_and!.
  - intros v Hv. split; [by destruct v as [| | |[| []|]| | | |]|].
    destruct v as [| |[]|[| []|t]|s|t|r|k h]; [vm_compute; reflexivity..| | |done|done|]; cbn [encodeValue fst].
    + destruct Hv as [Hs Hp]. rewrite tagged_members, (decode_members _ (lit "number") (lit "v") t (JNum t));
        [reflexivity|by_decide|by_decide|exact Hs|intros; apply Hp].
    + destruct Hv as [Hb Hv]. rewrite tagged_members, (decode_members _ (lit "string") (lit "v") _ (JStr s));
        [reflexivity|by_decide|by_decide|reflexivity|].
      intros d. by apply parse_value_string.
    + destruct Hv as [Hk Hh]. destruct (format_uint_text h Hh) as [[Hs Hp] Hu].
      rewrite opaque_members, (decode_members _ k (lit "h") _ (JNum (format_uint h)));
        [|destruct Hk as [->| ->]; by_decide|by_decide|exact Hs|intros; apply Hp].
      rewrite (decode_tree_handle _ _ _ h) by done. by destruct Hk as [->| ->].
  - intros r o Ho Hh. cbn [encodeValue]. rewrite Ho. cbn [fmap option_fmap option_map default].
    destruct (format_uint_text _ Hh) as [[Hs Hp] Hu]. split.
    + rewrite tagged_members, (decode_members _ (lit "object") (lit "h") _ (JNum (format_uint (handle o))));
        [|by_decide|by_decide|exact Hs|intros; apply Hp].
      rewrite (decode_tree_handle _ _ _ (handle o)) by done. reflexivity.
    + unfold take_object, update. cbn [objects]. by rewrite list_lookup_alter_eq, Ho.
  - intros t [Hs Hp]. cbn [encodeValue fst].
    rewrite tagged_members, (decode_members _ (lit "json") (lit "v") t (JNum t)); [reflexivity|by_decide|by_decide|exact Hs|intros; apply Hp].
Qed.

Lemma value_roundtrip_witness :
  let v := VString (lit "caf" ++ [195; 169]) in
  let H := MkHeap [MkObject 7 true false] [] in
  decodeValue H (encodeValue H v).1 = (Ok v, H) ∧
  (decodeValue (take_object H 0) (encodeValue H (VObject 0)).1).1 = Ok (VObject 1).
Proof.
  intros v H. destruct (value_roundtrip H) as (Hp & Ho & _). split.
  - refine (proj2 (Hp v _)). split; [by_decide|vm_compute; reflexivity].
  - specialize (Ho 0%nat (MkObject 7 true false) eq_refl ltac:(simpl; lia)).
    cbn [encodeValue] in Ho |- *. cbn [fst]. destruct Ho as [-> _]. reflexivity.
Defined.

(** ** Replies *)

Lemma copy_to_spec mem at_ p :
  0 <= at_ → at_ + Z.of_nat (length p) <= Z.of_nat (length mem) →
  ∃ mem', copy_to mem at_ p = Some mem' ∧ length mem' = length mem ∧
    slice mem' at_ (Z.of_nat (length p)) = p ∧
    (∀ i, (i < Z.to_nat at_)%nat ∨ (Z.to_nat at_ + length p <= i)%nat → mem' !! i = mem !! i).
Proof.
  intros H0 Hl. unfold copy_to.
  rewrite (proj2 (Z.ltb_ge at_ 0)), (proj2 (Z.ltb_ge _ at_)) by lia. simpl orb. cbv iota.
  eexists. split; [done|]. rewrite (take_ge p) by lia.
  assert (Ht : length (take (Z.to_nat at_) mem) = Z.to_nat at_) by (rewrite length_take; lia).
  split_and!.
  - rewrite !length_app, Ht, length_drop. lia.
  - unfold slice. rewrite drop_app_length' by done. by rewrite Nat2Z.id, take_app_length.
  - intros i [Hi|Hi].
    + rewrite lookup_app_l by lia. by rewrite lookup_take_lt.
    + rewrite lookup_app_r, lookup_app_r by lia. rewrite lookup_drop. f_equal. lia.
Qed.

(** A range that does not lie in memory. *)
Definition forged (mem : bytes) (ptr len : Z) : Prop := ptr < 0 ∨ len < 0 ∨ Z.of_nat (length mem) < ptr + len.

Lemma bad_range_forged mem ptr len : bad_range mem ptr len = true ↔ forged mem ptr len.
Proof. unfold bad_range, forged. rewrite !orb_true_iff, !Z.ltb_lt. tauto. Qed.

(** Replies cross guest memory exactly. A forged key or argument range
    gets length 0 and changes nothing at all. Otherwise the reply's length is
    returned, and the reply itself is in the output buffer, with the rest of
    memory as it was, when it fits; when it does not, memory is untouched and
    the next Go_host_result of the same module delivers exactly those bytes
    and forgets them, whatever the other modules have waiting. Unlike the key
    and the arguments, the output pointer is not checked: a reply to a pointer
    outside memory panics where nothing recovers it. *)
Theorem host_call_reply (text : herr → bytes) (now : bytes) (e : hostEnv) (stash : gmap Z bytes) (m : Z) (mem : bytes)
    (kp kl ap al op oc : Z) :
  (forged mem kp kl ∨ forged mem ap al →
     Go_host_call text now e stash m mem kp kl ap al op oc = Returned (0, mem, stash, e)) ∧
  (∀ p e', ~ forged mem kp kl → ~ forged mem ap al →
     dispatch now e (slice mem kp kl) (slice mem ap al) = Some (p, e') →
     let b := payload_bytes text p in
     let n := Z.of_nat (length b) in
     n < 2 ^ 31 →
     (0 <= op → op + n <= Z.of_nat (length mem) →
        (n <= oc → ∃ mem', Go_host_call text now e stash m mem kp kl ap al op oc = Returned (n, mem', stash, e') ∧
           length mem' = length mem ∧ slice mem' op n = b ∧
           ∀ i, (i < Z.to_nat op)%nat ∨ (Z.to_nat op + length b <= i)%nat → mem' !! i = mem !! i) ∧
        (oc < n → ∃ stash1 mem' stash2,
           Go_host_call text now e stash m mem kp kl ap al op oc = Returned (n, mem, stash1, e') ∧
           Go_host_result stash1 m mem op = Returned (mem', stash2) ∧
           slice mem' op n = b ∧ stash2 !! m = None ∧ ∀ m', m' ≠ m → stash2 !! m' = stash !! m')) ∧
     (op < 0 ∨ Z.of_nat (length mem) < op → n <= oc →
        Go_host_call text now e stash m mem kp kl ap al op oc = Panicked)).
Proof.
  split.
  - intros Hb. rewrite <-!bad_range_forged in Hb. unfold Go_host_call. rewrite (proj2 (orb_true_iff _ _) Hb). reflexivity.
  - intros p e' Hk Ha Hd b n Hn.
    rewrite <-bad_range_forged, not_true_iff_false in Hk, Ha.
    assert (Hcall : Go_host_call text now e stash m mem kp kl ap al op oc =
      if n <=? oc then match copy_to mem op b with
                       | None => Panicked
                       | Some mem' => Returned (n, mem', stash, e')
                       end
      else Returned (n, mem, <[ m := b ]> stash, e')).
    { unfold Go_host_call. rewrite Hk, Ha, Hd. cbn [orb]. cbv beta iota zeta. fold b.
      by assert (i32 (Z.of_nat (length b)) = n) as -> by (apply wrapS_small; lia). }
    rewrite Hcall. unfold Go_host_result. split.
    + intros H0 Hl. destruct (copy_to_spec mem op b H0 Hl) as (mem' & Hc & Hlen & Hs & Hout). split; intros Hoc.
      * rewrite (proj2 (Z.leb_le _ _) Hoc), Hc. by exists mem'.
      * rewrite (proj2 (Z.leb_gt _ _) Hoc). exists (<[ m := b ]> stash), mem', (delete m (<[ m := b ]> stash)).
        rewrite lookup_insert_eq. cbn [default from_option id]. rewrite Hc. split_and!; [done|done|done|apply lookup_delete_eq|].
        intros m' Hm. by rewrite lookup_delete_ne, lookup_insert_ne.
    + intros Hop Hoc. rewrite (proj2 (Z.leb_le _ _) Hoc). unfold copy_to.
      assert ((op <? 0) || (Z.of_nat (length mem) <? op) = true) as ->; [|done].
      apply orb_true_iff. rewrite !Z.ltb_lt. lia.
Qed.

Lemma host_call_reply_witness :
  let e := MkEnv {[ lit "f" := fun _ => ([], OReturn (VBool true)) ]} None [] NewAgents (MkHeap [] []) in
  let mem := lit "f[]" ++ replicate 32 0 in
  let reply := lit "R" ++ tagged "bool" "v" (lit "true") in
  (∃ mem', Go_host_call (fun _ => []) [] e ∅ 1 mem 0 1 1 2 4 31 = Returned (22, mem', ∅, e) ∧ slice mem' 4 22 = reply) ∧
  Go_host_call (fun _ => []) [] e ∅ 1 mem 0 1 1 99 4 31 = Returned (0, mem, ∅, e) ∧
  Go_host_call (fun _ => []) [] e ∅ 1 mem 0 1 1 2 99 31 = Panicked.
Proof.
  intros e mem reply. destruct (host_call_reply (fun _ => []) [] e ∅ 1 mem 0 1 1 2 4 31) as [_ H2].
  destruct (H2 (R (tagged "bool" "v" (lit "true"))) e ltac:(unfold forged; vm_compute; intuition discriminate)
    ltac:(unfold forged; vm_compute; intuition discriminate) eq_refl eq_refl) as [Hok _].
  destruct Hok as [Hfit _]; [lia|vm_compute; discriminate|]. split_and!.
  - destruct Hfit as (mem' & Hc & _ & Hs & _); [vm_compute; discriminate|]. exists mem'. split; [exact Hc|exact Hs].
  - apply (host_call_reply (fun _ => []) [] e ∅ 1 mem 0 1 1 99 4 31). right. right. right. reflexivity.
  - destruct (host_call_reply (fun _ => []) [] e ∅ 1 mem 0 1 1 2 99 31) as [_ H3].
    apply (H3 (R (tagged "bool" "v" (lit "true"))) e ltac:(unfold forged; vm_compute; intuition discriminate)
    ltac:(unfold forged; vm_compute; intuition discriminate) eq_refl eq_refl); [right|]; vm_compute; done.
Defined.
