(* ===== verification/Counting.v ===== *)
(** Ownership by counting: how often a handle occurs in the parts of a state.
    Two collections hold the same handles when they hold each equally often,
    so that a step's effect on the parts is an equation between sums, which
    [lia] solves. *)

From S2P Require Import Prelude.

(** How often [h] occurs. *)
Definition occ (h : Z) (l : list Z) : nat := count_occ Z.eq_dec l h.

(** The sum of [f] over the values of a map. *)
Definition map_sum {A} (f : A → nat) (m : gmap Z A) : nat := sum_list_with (fun e => f e.2) (map_to_list m).

Section Sums.
Context {A : Type} (f : A → nat).

Lemma sum_insert l i x y :
  l !! i = Some x → (sum_list_with f (<[i := y]> l) + f x = sum_list_with f l + f y)%nat.
Proof. revert i. induction l as [|z l IH]; intros [|i] Hi; simplify_eq/=; [lia|]. specialize (IH _ Hi). simpl. lia. Qed.

Lemma sum_delete l i x : l !! i = Some x → (sum_list_with f (delete i l) + f x = sum_list_with f l)%nat.
Proof.
  revert i. induction l as [|z l IH]; intros [|i] Hi; simplify_eq/=; [simpl; lia|].
  specialize (IH _ Hi). change (delete (S i) (z :: l)) with (z :: delete i l). simpl. lia.
Qed.

Lemma sum_lookup l i x : l !! i = Some x → (f x <= sum_list_with f l)%nat.
Proof. intros Hi%sum_delete. lia. Qed.

Lemma sum_zero l : sum_list_with f l = 0%nat ↔ ∀ x, x ∈ l → f x = 0%nat.
Proof.
  induction l as [|y l IH]; simpl; [split; [by intros _ x Hx%not_elem_of_nil|done]|].
  split.
  - intros Hz x [->|Hx]%elem_of_cons; [lia|]. apply IH; [lia|done].
  - intros Hz. rewrite (Hz y) by by left. apply IH. intros x Hx. apply Hz. by right.
Qed.

Lemma map_sum_empty : map_sum f ∅ = 0%nat.
Proof. unfold map_sum. by rewrite map_to_list_empty. Qed.

Lemma map_sum_lookup m i x : m !! i = Some x → (map_sum f (delete i m) + f x = map_sum f m)%nat.
Proof. intros Hi. unfold map_sum. rewrite <-(map_to_list_delete m i x Hi). simpl. lia. Qed.

Lemma map_sum_new m i x : m !! i = None → (map_sum f (<[i := x]> m) = map_sum f m + f x)%nat.
Proof. intros Hi. unfold map_sum. rewrite map_to_list_insert by done. simpl. lia. Qed.

Lemma map_sum_insert m i x y :
  m !! i = Some x → (map_sum f (<[i := y]> m) + f x = map_sum f m + f y)%nat.
Proof.
  intros Hi. rewrite <-(map_sum_lookup m i x Hi). rewrite <-insert_delete_eq.
  rewrite map_sum_new by apply lookup_delete_eq. lia.
Qed.

(** Changing an entry in a way [f] does not see. *)
Lemma map_sum_alter m i (g : A → A) :
  (∀ x, m !! i = Some x → f (g x) = f x) → map_sum f (alter g i m) = map_sum f m.
Proof.
  intros Hg. destruct (m !! i) as [x|] eqn:Hi.
  - assert (alter g i m = <[i := g x]> m) as ->.
    { apply map_eq. intros j. destruct (decide (j = i)) as [->|Hj].
      - by rewrite lookup_alter_eq, lookup_insert_eq, Hi.
      - by rewrite lookup_alter_ne, lookup_insert_ne. }
    pose proof (map_sum_insert m i x (g x) Hi) as Hs. rewrite Hg in Hs by done. lia.
  - f_equal. apply map_eq. intros j. destruct (decide (j = i)) as [->|Hj].
    + by rewrite lookup_alter_eq, Hi.
    + by rewrite lookup_alter_ne.
Qed.

(** Changing every entry in a way [f] does not see. *)
Lemma map_sum_imap m (g : Z → A → A) :
  (∀ i x, f (g i x) = f x) → map_sum f (map_imap (fun i x => Some (g i x)) m) = map_sum f m.
Proof.
  intros Hg. induction m as [|i x m Hi IH] using map_ind; [by rewrite map_imap_empty|].
  rewrite (map_imap_insert_Some _ _ _ _ (g i x)) by done. rewrite !map_sum_new; [by rewrite IH, Hg|done|].
  by rewrite map_lookup_imap, Hi.
Qed.

End Sums.

Lemma map_sum_ext {A} (f g : A → nat) (m : gmap Z A) :
  (∀ i x, m !! i = Some x → f x = g x) → map_sum f m = map_sum g m.
Proof.
  intros Hfg. unfold map_sum.
  assert (Hl : ∀ e, e ∈ map_to_list m → f e.2 = g e.2) by (intros [i x] He%elem_of_map_to_list; by eapply Hfg).
  induction (map_to_list m) as [|e l IH]; [done|]. simpl. rewrite (Hl e) by (by left). f_equal. apply IH.
  intros e' He'. apply Hl. by right.
Qed.

Lemma occ_app h l k : occ h (l ++ k) = (occ h l + occ h k)%nat.
Proof. unfold occ. apply count_occ_app. Qed.

Lemma occ_cons h x l : occ h (x :: l) = ((if decide (x = h) then 1 else 0) + occ h l)%nat.
Proof. unfold occ. simpl. destruct (Z.eq_dec x h), (decide (x = h)); congruence || lia. Qed.

Lemma occ_elem h l : h ∈ l ↔ (0 < occ h l)%nat.
Proof. rewrite list_elem_of_In. unfold occ. rewrite (count_occ_In Z.eq_dec). lia. Qed.

Lemma occ_nodup l : NoDup l ↔ ∀ h, (occ h l <= 1)%nat.
Proof. rewrite NoDup_ListNoDup. unfold occ. apply (NoDup_count_occ Z.eq_dec). Qed.

Lemma occ_perm l k : l ≡ₚ k ↔ ∀ h, occ h l = occ h k.
Proof. apply (Permutation_count_occ Z.eq_dec). Qed.

Lemma sum_callbacks {A} (g : A → list Z) h l : sum_list_with (λ x, occ h (g x)) l = occ h (flat_map g l).
Proof. induction l as [|x l IH]; simpl; [done|]. by rewrite occ_app, IH. Qed.
