(* ===== verification/HostIO.v ===== *)
(** Sources of the host that run into the event loop (compat/nodejs/hostio.go:
    process.stdin, OS signals, fs.watch), and the queries about the machine
    (compat/nodejs/nodeos.go).

    Config.Stdin, the kernel and Config.FS answer through step labels, and so does
    the loop. The goroutines' posting and their DonePending right after it are
    one step. *)

From S2P Require Import Prelude Counting.

(** ** Snapshots *)

(** The times of a watched path: of itself, and when it is a directory of what is
    in it, the latter under their bare names. [info]: what fs.Stat gave, the time
    and for a directory what fs.ReadDir gave, with the time of each entry's
    Info. *)
Definition snapshot (p : bytes) (info : option (Z * option (list (bytes * option Z)))) : gmap bytes Z :=
  match info with
  | None => ∅
  | Some (t, entries) =>
      foldl (λ out e, match e.2 with Some t' => <[e.1 := t']> out | None => out end) (<[p := t]> ∅) (default [] entries)
  end.

(** The names that changed; [cur_order] and [prev_order] are the orders in which
    the two maps are iterated. *)
Definition diffSnapshots (prev cur : gmap bytes Z) (cur_order prev_order : list (bytes * Z)) : list bytes :=
  flat_map (λ kv, match prev !! kv.1 with Some pv => if pv =? kv.2 then [] else [kv.1] | None => [kv.1] end) cur_order ++
  flat_map (λ kv, match cur !! kv.1 with Some _ => [] | None => [kv.1] end) prev_order.

(** ** Signals *)

(** Signal numbers of Linux. *)
Definition signalNumbers : list (bytes * Z) :=
  [(lit "SIGINT", 2); (lit "SIGTERM", 15); (lit "SIGHUP", 1); (lit "SIGUSR1", 10); (lit "SIGUSR2", 12); (lit "SIGQUIT", 3)].

(** [String] is Signal.String. *)
Definition signalToName (String : Z → bytes) (s : Z) : bytes :=
  match List.find (λ kv, kv.2 =? s) signalNumbers with Some kv => kv.1 | None => String s end.

(** ** The state *)

Module IO.

(** A function posted to the loop. [Change] and [Unwatch] say which watcher's
    goroutine they are of. *)
Inductive post :=
| Data (h : option Z) (b : bytes)
| End_ (d e : option Z)
| Signal (h : option Z) (name : bytes)
| Change (i : nat) (h : option Z) (name : bytes)
| Unwatch (i : nat) (h : option Z).

Inductive event :=
| CallData (h : Z) (b : bytes) | CallEnd (h : Z) | CallSignal (h : Z) (name : bytes) | CallChange (h : Z) (name : bytes)
| Free (h : Z).

(** What the guest sees of a posted function; [ok]: NewBytes succeeds. *)
Definition effect (ok : bool) (p : post) : list event :=
  match p with
  | Data h b => if ok then map (λ h, CallData h b) (option_list h) else []
  | End_ d e => map CallEnd (option_list e) ++ map Free (option_list d ++ option_list e)
  | Signal h n => map (λ h, CallSignal h n) (option_list h)
  | Change _ h n => map (λ h, CallChange h n) (option_list h)
  | Unwatch _ h => map Free (option_list h)
  end.

(** The goroutine of a watcher: its stop channel, whether it runs, and the
    snapshots it has taken, the last one first. *)
Record pump := MkPump {
  path : bytes;
  onChange : option Z;
  stop : bool;
  running : bool;
  snaps : list (gmap bytes Z)
}.

(** ioState, with the goroutines it started and the loop's part. [reader] holds
    the callbacks of the running reader of stdin, [read_] all it has read;
    [sigCh] and [sigStop] say whether the fields are set, [notified] whether
    signals are still delivered, [buffer] is what lies in the channel, and
    [sigEnded] that its stop channel is closed. [handed] are the callbacks the
    guest has passed, [lost] those that came second to signal_watch;
    [panicked]: a closed channel was closed again. *)
Record world := MkWorld {
  watchers : gmap Z nat;
  nextWatch : Z;
  pumps : list pump;
  stdinOnce : bool;
  reader : option (option Z * option Z);
  read_ : bytes;
  sigOnce : bool;
  sigCh : bool;
  sigStop : bool;
  notified : bool;
  buffer : list Z;
  onSignal : option Z;
  sigRunning : bool;
  sigEnded : bool;
  pending : Z;
  queue : list post;
  posted : list post;
  log : list event;
  handed : list Z;
  lost : list Z;
  panicked : bool
}.

Definition newIOState : world :=
  MkWorld ∅ 0 [] false None [] false false false false [] None false false 0 [] [] [] [] [] false.

Definition with_watch (ws : gmap Z nat) (n : Z) (ps : list pump) (w : world) : world :=
  MkWorld ws n ps (stdinOnce w) (reader w) (read_ w) (sigOnce w) (sigCh w) (sigStop w) (notified w) (buffer w) (onSignal w)
    (sigRunning w) (sigEnded w) (pending w) (queue w) (posted w) (log w) (handed w) (lost w) (panicked w).
Definition with_reader (r : option (option Z * option Z)) (b : bytes) (w : world) : world :=
  MkWorld (watchers w) (nextWatch w) (pumps w) true r b (sigOnce w) (sigCh w) (sigStop w) (notified w) (buffer w) (onSignal w)
    (sigRunning w) (sigEnded w) (pending w) (queue w) (posted w) (log w) (handed w) (lost w) (panicked w).
Definition with_signals (ch st n : bool) (buf : list Z) (cb : option Z) (run ended : bool) (w : world) : world :=
  MkWorld (watchers w) (nextWatch w) (pumps w) (stdinOnce w) (reader w) (read_ w) true ch st n buf cb run ended
    (pending w) (queue w) (posted w) (log w) (handed w) (lost w) (panicked w).
Definition add_pending (n : Z) (w : world) : world :=
  MkWorld (watchers w) (nextWatch w) (pumps w) (stdinOnce w) (reader w) (read_ w) (sigOnce w) (sigCh w) (sigStop w) (notified w)
    (buffer w) (onSignal w) (sigRunning w) (sigEnded w) (pending w + n) (queue w) (posted w) (log w) (handed w) (lost w) (panicked w).
Definition Post (ps : list post) (w : world) : world :=
  MkWorld (watchers w) (nextWatch w) (pumps w) (stdinOnce w) (reader w) (read_ w) (sigOnce w) (sigCh w) (sigStop w) (notified w)
    (buffer w) (onSignal w) (sigRunning w) (sigEnded w) (pending w) (queue w ++ ps) (posted w ++ ps) (log w) (handed w) (lost w) (panicked w).
Definition happens (q : list post) (es : list event) (w : world) : world :=
  MkWorld (watchers w) (nextWatch w) (pumps w) (stdinOnce w) (reader w) (read_ w) (sigOnce w) (sigCh w) (sigStop w) (notified w)
    (buffer w) (onSignal w) (sigRunning w) (sigEnded w) (pending w) q (posted w) (log w ++ es) (handed w) (lost w) (panicked w).
Definition hand (hs ls : list Z) (w : world) : world :=
  MkWorld (watchers w) (nextWatch w) (pumps w) (stdinOnce w) (reader w) (read_ w) (sigOnce w) (sigCh w) (sigStop w) (notified w)
    (buffer w) (onSignal w) (sigRunning w) (sigEnded w) (pending w) (queue w) (posted w) (log w) (handed w ++ hs) (lost w ++ ls) (panicked w).
Definition panic (w : world) : world :=
  MkWorld (watchers w) (nextWatch w) (pumps w) (stdinOnce w) (reader w) (read_ w) (sigOnce w) (sigCh w) (sigStop w) (notified w)
    (buffer w) (onSignal w) (sigRunning w) (sigEnded w) (pending w) (queue w) (posted w) (log w) (handed w) (lost w) true.

(** Handles released by the operation, or by the dispatcher because the operation
    returned before it took them. *)
Definition freeObjects (hs : list Z) (w : world) : world := happens (queue w) (map Free hs) w.

Definition objects (args : list (option Z)) : list Z := flat_map option_list args.

(** ** Operations *)

Section Ops.
(** Config.Stdin and Config.FS are set. *)
Context (hasStdin hasFS : bool) (String : Z → bytes).

(** The answer, and the state; [args] are the callbacks, [None] for an argument
    that is no object. *)
Definition opStdinStart (args : list (option Z)) (w0 : world) : bool * world :=
  let w := hand (objects args) [] w0 in
  match args with
  | onData :: onEnd :: rest =>
      if hasStdin then
        let w := freeObjects (objects rest) w in
        if stdinOnce w then (false, freeObjects (objects [onData; onEnd]) w)
        else (true, add_pending 1 (with_reader (Some (onData, onEnd)) [] w))
      else (false, freeObjects (objects args) w)
  | _ => (false, freeObjects (objects args) w)
  end.

(** Read returns the bytes [b], and an error or not. *)
Definition stdin_read (b : bytes) (err : bool) (w : world) : option world :=
  match reader w with
  | Some (onData, onEnd) =>
      if zlen b <=? 8192 then
        let w := Post (match b with [] => [] | _ => [Data onData b] end) (with_reader (reader w) (read_ w ++ b) w) in
        Some (if err then add_pending (-1) (Post [End_ onData onEnd] (with_reader None (read_ w) w)) else w)
      else None
  | None => None
  end.

Definition opSignalWatch (args : list (option Z)) (w0 : world) : world :=
  match args with
  | [] => w0
  | cb :: rest =>
      let w := freeObjects (objects rest) (hand (objects args) [] w0) in
      if sigOnce w then hand [] (option_list cb) w
      else with_signals true true true [] cb true false w
  end.

(** The kernel delivers a signal to the channel, which has room for four. *)
Definition deliver (s : Z) (w : world) : option world :=
  if notified w && bool_decide (s ∈ map snd signalNumbers) then
    Some (with_signals (sigCh w) (sigStop w) true (if (length (buffer w) <? 4)%nat then buffer w ++ [s] else buffer w)
            (onSignal w) (sigRunning w) (sigEnded w) w)
  else None.

Definition signal_take (w : world) : option world :=
  match buffer w with
  | s :: buf =>
      if sigRunning w then
        Some (Post [Signal (onSignal w) (signalToName String s)]
                (with_signals (sigCh w) (sigStop w) (notified w) buf (onSignal w) true (sigEnded w) w))
      else None
  | [] => None
  end.

Definition signal_end (w : world) : option world :=
  if sigRunning w && sigEnded w then
    Some (with_signals (sigCh w) (sigStop w) (notified w) (buffer w) (onSignal w) false true w)
  else None.

(** [p] is the path after guestPath; [args] are the arguments behind it. *)
Definition opFSWatch (p : bytes) (args : list (option Z)) (w0 : world) : Z * world :=
  let w := hand (objects args) [] w0 in
  match args with
  | cb :: rest =>
      if hasFS then
        let w := freeObjects (objects rest) w in
        let id := nextWatch w + 1 in
        (id, add_pending 1 (with_watch (<[id := length (pumps w)]> (watchers w)) id (pumps w ++ [MkPump p cb false true []]) w))
      else (0, freeObjects (objects args) w)
  | [] => (0, w)
  end.

(** The goroutine of a watcher takes its first snapshot. *)
Definition watch_start (i : nat) (info : option (Z * option (list (bytes * option Z)))) (w : world) : option world :=
  pu ← pumps w !! i;
  match running pu, snaps pu with
  | true, [] => Some (with_watch (watchers w) (nextWatch w)
                        (<[i := MkPump (path pu) (onChange pu) (stop pu) true [snapshot (path pu) info]]> (pumps w)) w)
  | _, _ => None
  end.

(** The ticker fires; [co] and [po] are the orders in which the maps are
    iterated. *)
Definition watch_tick (i : nat) (info : option (Z * option (list (bytes * option Z)))) (co po : list (bytes * Z)) (w : world)
    : option world :=
  pu ← pumps w !! i;
  match running pu, snaps pu with
  | true, prev :: older =>
      let cur := snapshot (path pu) info in
      if bool_decide (co ≡ₚ map_to_list cur) && bool_decide (po ≡ₚ map_to_list prev) then
        Some (Post (map (Change i (onChange pu)) (diffSnapshots prev cur co po))
                (with_watch (watchers w) (nextWatch w)
                   (<[i := MkPump (path pu) (onChange pu) (stop pu) true (cur :: prev :: older)]> (pumps w)) w))
      else None
  | _, _ => None
  end.

(** It finds its stop channel closed. *)
Definition watch_end (i : nat) (w : world) : option world :=
  pu ← pumps w !! i;
  match running pu && stop pu, snaps pu with
  | true, _ :: _ =>
      Some (add_pending (-1) (Post [Unwatch i (onChange pu)]
        (with_watch (watchers w) (nextWatch w) (<[i := MkPump (path pu) (onChange pu) true false (snaps pu)]> (pumps w)) w)))
  | _, _ => None
  end.

(** close(stop): closing a closed channel panics. *)
Definition close_stop (i : nat) (w : world) : world :=
  match pumps w !! i with
  | Some pu =>
      if stop pu then panic w
      else with_watch (watchers w) (nextWatch w) (<[i := MkPump (path pu) (onChange pu) true (running pu) (snaps pu)]> (pumps w)) w
  | None => w
  end.

Definition opFSUnwatch (id : option Z) (w : world) : world :=
  match id with
  | None => w
  | Some id =>
      let w' := with_watch (delete id (watchers w)) (nextWatch w) (pumps w) w in
      match watchers w !! id with Some i => close_stop i w' | None => w' end
  end.

Definition closeIO (w : world) : world :=
  let w1 := foldl (λ w ii, close_stop ii.2 (with_watch (delete ii.1 (watchers w)) (nextWatch w) (pumps w) w)) w (map_to_list (watchers w)) in
  let ended := sigStop w1 && sigEnded w1 in
  let w2 := if sigCh w1 || sigStop w1 then
              with_signals false false (if sigCh w1 then false else notified w1) (buffer w1) (onSignal w1) (sigRunning w1)
                (sigStop w1 || sigEnded w1) w1
            else w1 in
  if ended then panic w2 else w2.

(** The loop runs a posted function. *)
Definition run_post (ok : bool) (w : world) : option world :=
  match queue w with
  | [] => None
  | p :: ps => Some (happens ps (effect ok p) w)
  end.

Inductive label :=
| OpStdinStart (args : list (option Z))
| StdinRead (b : bytes) (err : bool)
| OpSignalWatch (args : list (option Z))
| Deliver (s : Z)
| SignalTake
| SignalEnd
| OpFSWatch (p : bytes) (args : list (option Z))
| WatchStart (i : nat) (info : option (Z * option (list (bytes * option Z))))
| WatchTick (i : nat) (info : option (Z * option (list (bytes * option Z)))) (co po : list (bytes * Z))
| WatchEnd (i : nat)
| OpFSUnwatch (id : option Z)
| CloseIO
| RunPost (ok : bool).

(** The callbacks an operation gets. *)
Definition given (l : label) : list Z :=
  match l with OpStdinStart args | OpSignalWatch args | OpFSWatch _ args => objects args | _ => [] end.

(** Every argument decoded is a root of its own. *)
Definition fresh (l : label) (w : world) : bool :=
  bool_decide (NoDup (given l)) && forallb (λ h, bool_decide (h ∉ handed w)) (given l).

Definition step (l : label) (w : world) : option world :=
  if fresh l w then
    match l with
    | OpStdinStart args => Some (opStdinStart args w).2
    | StdinRead b err => stdin_read b err w
    | OpSignalWatch args => Some (opSignalWatch args w)
    | Deliver s => deliver s w
    | SignalTake => signal_take w
    | SignalEnd => signal_end w
    | OpFSWatch p args => Some (opFSWatch p args w).2
    | WatchStart i info => watch_start i info w
    | WatchTick i info co po => watch_tick i info co po w
    | WatchEnd i => watch_end i w
    | OpFSUnwatch id => Some (opFSUnwatch id w)
    | CloseIO => Some (closeIO w)
    | RunPost ok => run_post ok w
    end
  else None.

Inductive reachable : world → Prop :=
| reachable_new : reachable newIOState
| reachable_step l w w' : reachable w → step l w = Some w' → reachable w'.

Fixpoint steps (ls : list label) (w : world) : option world :=
  match ls with [] => Some w | l :: ls' => w' ← step l w; steps ls' w' end.

End Ops.
End IO.

Import IO.

(** ** Ownership of callbacks *)

Definition freed (es : list event) : list Z := flat_map (λ e, match e with Free h => [h] | _ => [] end) es.

Definition handle (e : event) : Z :=
  match e with CallData h _ | CallEnd h | CallSignal h _ | CallChange h _ | Free h => h end.

(** No event touches a handle that was released before. *)
Fixpoint safe (es : list event) : Prop :=
  match es with
  | [] => True
  | Free h :: es' => (h ∉ map handle es') ∧ safe es'
  | _ :: es' => safe es'
  end.

(** Everything that happened, and all that is posted. *)
Definition trace (w : world) : list event := log w ++ flat_map (effect true) (queue w).

(** The callbacks of the goroutines, that of a signal goroutine that has ended
    among them. *)
Definition kept (w : world) : list Z :=
  match reader w with Some (d, e) => objects [d; e] | None => [] end ++
  flat_map (λ pu, if running pu then option_list (onChange pu) else []) (pumps w) ++
  option_list (onSignal w).

(** Those that running goroutines hold, and the signal callback when its goroutine
    has ended. *)
Definition held (w : world) : list Z :=
  match reader w with Some (d, e) => objects [d; e] | None => [] end ++
  flat_map (λ pu, if running pu then option_list (onChange pu) else []) (pumps w) ++
  (if sigRunning w then option_list (onSignal w) else []).

Definition stranded (w : world) : list Z := if sigRunning w then [] else option_list (onSignal w).

Lemma kept_split w : kept w ≡ₚ held w ++ stranded w.
Proof. unfold kept, held, stranded. destruct (sigRunning w); rewrite ?app_nil_r, <- ?app_assoc; done. Qed.

Lemma freed_app a b : freed (a ++ b) = freed a ++ freed b.
Proof. apply flat_map_app. Qed.
Lemma freed_frees hs : freed (map Free hs) = hs.
Proof. induction hs as [|h hs IH]; [done|]. simpl. by f_equal. Qed.
Lemma handle_frees hs : map handle (map Free hs) = hs.
Proof. induction hs as [|h hs IH]; [done|]. simpl. by f_equal. Qed.
Lemma freed_handle h es : h ∈ freed es → h ∈ map handle es.
Proof.
  unfold freed. rewrite list_elem_of_In, in_flat_map. intros (e & He & Hh). apply list_elem_of_In, in_map_iff. exists e.
  destruct e; try done. destruct Hh as [->|[]]. done.
Qed.

Lemma safe_app a b : safe (a ++ b) ↔ safe a ∧ safe b ∧ ∀ h, h ∈ freed a → h ∉ map handle b.
Proof.
  induction a as [|e a IH]; [simpl; split; [intros H; split_and!; [done|done|by intros h ?%not_elem_of_nil]|tauto]|].
  destruct e; simpl; rewrite IH; try tauto. rewrite map_app, not_elem_of_app. split.
  - intros ((Hh & Hhb) & Ha & Hb & Hab). split_and!; [done|done|done|]. intros h' [->|Hh']%elem_of_cons; [done|by apply Hab].
  - intros ((Hh & Ha) & Hb & Hab). split_and!; [done| |done|done|].
    + apply Hab. by left.
    + intros h' Hh'. apply Hab. by right.
Qed.

Record owned (H : list Z) (T : list event) (hd lo : list Z) : Prop := {
  ow_count h : occ h hd = (occ h H + occ h (freed T) + occ h lo)%nat;
  ow_nodup : NoDup hd;
  ow_safe : safe T;
  ow_known h : h ∈ map handle T → h ∈ hd
}.

Lemma owned_held H T hd lo h : owned H T hd lo → h ∈ H → (h ∉ freed T) ∧ h ∈ hd.
Proof.
  intros [Hc Hn _ _] Hh%occ_elem. rewrite occ_nodup in Hn. specialize (Hc h). specialize (Hn h).
  rewrite !occ_elem. lia.
Qed.

Lemma owned_perm H H' T hd lo : H ≡ₚ H' → owned H T hd lo → owned H' T hd lo.
Proof.
  intros Hp [Hc Hn Hs Hk]. split; try done. intros h. rewrite Hc. f_equal. f_equal. unfold occ.
  by apply (Permutation_count_occ Z.eq_dec).
Qed.

Lemma owned_give hs H T hd lo :
  NoDup hs → (∀ h, h ∈ hs → h ∉ hd) → owned H T hd lo → owned (hs ++ H) T (hd ++ hs) lo.
Proof.
  intros Hd Hf [Hc Hn Hs Hk]. split; [| |done|].
  - intros h. rewrite !occ_app, Hc. lia.
  - apply NoDup_app. split_and!; [done| |done]. intros h Hh Hh'. by apply (Hf h).
  - intros h Hh. apply elem_of_app. left. by apply Hk.
Qed.

Lemma owned_lose hs H T hd lo : owned (hs ++ H) T hd lo → owned H T hd (lo ++ hs).
Proof. intros [Hc Hn Hs Hk]. split; try done. intros h. specialize (Hc h). rewrite !occ_app in *. lia. Qed.

(** Releasing kept handles that nothing posted mentions. *)
Lemma owned_free hs H a b hd lo :
  (∀ h, h ∈ hs → h ∉ map handle b) → owned (hs ++ H) (a ++ b) hd lo → owned H (a ++ map Free hs ++ b) hd lo.
Proof.
  intros Hb Ho. pose proof Ho as [Hc Hn Hs Hk].
  assert (Hhs : ∀ h, h ∈ hs → (h ∉ freed (a ++ b)) ∧ h ∈ hd).
  { intros h Hh. apply (owned_held _ _ _ _ h Ho). apply elem_of_app. by left. }
  split; [|done| |].
  - intros h. specialize (Hc h). rewrite !freed_app, freed_frees, !occ_app in *. lia.
  - rewrite !safe_app in *. destruct Hs as (Ha & Hb' & Hab). split_and!; [done| |done|intros h; rewrite freed_frees; apply Hb|].
    + assert (NoDup hs) as Hnd.
      { apply occ_nodup. intros h. rewrite occ_nodup in Hn. specialize (Hn h). specialize (Hc h). rewrite occ_app in Hc. lia. }
      clear -Hnd. induction Hnd as [|h hs Hh Hnd IH]; [done|]. simpl. split; [by rewrite handle_frees|done].
    + intros h Hh. rewrite map_app, handle_frees, not_elem_of_app. split; [|by apply Hab]. intros Hh'. apply Hhs in Hh' as [Hh' _].
      apply Hh'. rewrite freed_app. apply elem_of_app. by left.
  - intros h. rewrite !map_app, handle_frees, !elem_of_app. intros [Hh|[Hh|Hh]]; [|by apply Hhs|]; apply Hk; rewrite map_app, elem_of_app; tauto.
Qed.

Lemma owned_free_end hs H T hd lo : owned (hs ++ H) T hd lo → owned H (T ++ map Free hs) hd lo.
Proof.
  intros Ho. rewrite <- (app_nil_r (map Free hs)). apply owned_free; [intros h _ Hh; by apply not_elem_of_nil in Hh|by rewrite app_nil_r].
Qed.

Lemma owned_call es H T hd lo : freed es = [] → (∀ h, h ∈ map handle es → h ∈ H) → owned H T hd lo → owned H (T ++ es) hd lo.
Proof.
  intros He Hes Ho. pose proof Ho as [Hc Hn Hs Hk]. split; [|done| |].
  - intros h. by rewrite freed_app, He, app_nil_r.
  - apply safe_app. split_and!; [done| |].
    + clear -He. induction es as [|[] es IH]; simpl in *; try done; by apply IH.
    + intros h Hh Hh'. by apply (owned_held _ _ _ _ h Ho (Hes h Hh')).
  - intros h. rewrite map_app, elem_of_app. intros [Hh|Hh]; [by apply Hk|]. by apply (owned_held _ _ _ _ h Ho), Hes.
Qed.

(** Dropping a call. *)
Lemma owned_drop x H a b hd lo : freed x = [] → owned H (a ++ x ++ b) hd lo → owned H (a ++ b) hd lo.
Proof.
  intros Hx [Hc Hn Hs Hk]. split; [|done| |].
  - intros h. by rewrite Hc, !freed_app, Hx.
  - rewrite !safe_app in *. destruct Hs as (Ha & (_ & Hb & _) & Hab). split_and!; [done|done|]. intros h Hh.
    specialize (Hab h Hh). rewrite map_app, not_elem_of_app in Hab. tauto.
  - intros h Hh. apply Hk. rewrite !map_app, !elem_of_app in *. tauto.
Qed.

(** ** The invariant *)

Definition alive (pu : pump) : nat := if running pu then 1 else 0.

Definition pump_handles (pu : pump) : list Z := if running pu then option_list (onChange pu) else [].

Record io_inv (w : world) : Prop := {
  io_owned : owned (kept w) (trace w) (handed w) (lost w);
  io_pending : pending w = (match reader w with Some _ => 1 | None => 0 end) + Z.of_nat (sum_list_with alive (pumps w));
  io_watch id i : watchers w !! id = Some i → id <= nextWatch w ∧ ∃ pu, pumps w !! i = Some pu ∧ stop pu = false;
  io_inj id id' i : watchers w !! id = Some i → watchers w !! id' = Some i → id = id';
  io_kept i pu : pumps w !! i = Some pu → stop pu = false → ∃ id, watchers w !! id = Some i;
  io_sig : (sigStop w = true → sigEnded w = false) ∧ (sigOnce w = false → onSignal w = None ∧ sigStop w = false);
  io_once : stdinOnce w = false → reader w = None;
  io_fine : panicked w = false
}.

Lemma objects_app a b : objects (a ++ b) = objects a ++ objects b.
Proof. apply flat_map_app. Qed.

Lemma held_pumps w ps n ws : kept (with_watch ws n ps w) =
  match reader w with Some (d, e) => objects [d; e] | None => [] end ++ flat_map pump_handles ps ++ option_list (onSignal w).
Proof. done. Qed.

(** An operation gets [args] and keeps the handles [ks] of them. *)
Lemma owned_args hs ks fs w :
  io_inv w → NoDup hs → (∀ h, h ∈ hs → h ∉ handed w) → hs ≡ₚ ks ++ fs →
  owned (ks ++ kept w) (log w ++ map Free fs ++ flat_map (effect true) (queue w)) (handed w ++ hs) (lost w).
Proof.
  intros Hi Hd Hf Hp. pose proof (io_owned w Hi) as Ho. unfold trace in Ho.
  apply owned_free.
  - intros h Hh Hm. apply (Hf h); [rewrite Hp; set_solver|]. apply (ow_known _ _ _ _ Ho). rewrite map_app. set_solver.
  - eapply owned_perm; [|exact (owned_give hs _ _ _ _ Hd Hf Ho)]. rewrite Hp. solve_Permutation.
Qed.

Lemma trace_post ps w : trace (Post ps w) = trace w ++ flat_map (effect true) ps.
Proof. unfold trace. simpl. by rewrite flat_map_app, app_assoc. Qed.

Lemma trace_free hs w : trace (freeObjects hs w) = log w ++ map Free hs ++ flat_map (effect true) (queue w).
Proof. unfold trace. simpl. by rewrite <- app_assoc. Qed.

Lemma stdin_start_inv b args w : io_inv w → NoDup (objects args) → (∀ h, h ∈ objects args → h ∉ handed w) →
  io_inv (opStdinStart b args w).2.
Proof.
  intros Hi Hd Hf. pose proof Hi as [Ho Hp Hw Hj Hk Hs Hon Hfi].
  assert (Hall : io_inv (freeObjects (objects args) (hand (objects args) [] w))).
  { split; try done. rewrite trace_free. simpl. rewrite app_nil_r.
    exact (owned_args _ [] _ w Hi Hd Hf (reflexivity _)). }
  unfold opStdinStart. destruct args as [|d [|e rest]]; [exact Hall|exact Hall|]. destruct b; [|exact Hall].
  cbn [stdinOnce freeObjects happens hand]. destruct (stdinOnce w) eqn:Hso.
  - cbn [snd]. split; try done; [|cbn; congruence]. rewrite trace_free. simpl. rewrite ?app_nil_r, <- ?app_assoc, (app_assoc (map Free _)), <- map_app.
    refine (owned_args _ [] _ w Hi Hd Hf _). rewrite (objects_app [d; e] rest : objects (d :: e :: rest) = _). solve_Permutation.
  - specialize (Hon eq_refl). rewrite Hon in Hp. split; simpl; try done; [|lia].
    pose proof (owned_args _ (objects [d; e]) (objects rest) w Hi Hd Hf (Permutation_refl' (objects_app [d; e] rest))) as Ha.
    unfold kept, trace in *. rewrite Hon in Ha. simpl in *. by rewrite ?app_nil_r, <- ?app_assoc in *.
Qed.

Lemma signal_watch_inv args w : io_inv w → NoDup (objects args) → (∀ h, h ∈ objects args → h ∉ handed w) →
  io_inv (opSignalWatch args w).
Proof.
  intros Hi Hd Hf. pose proof Hi as [Ho Hp Hw Hj Hk [Hs1 Hs2] Hon Hfi].
  unfold opSignalWatch. destruct args as [|cb rest]; [done|]. cbn [sigOnce freeObjects happens hand].
  assert (objects (cb :: rest) = option_list cb ++ objects rest) as Hobj by done.
  pose proof (owned_args _ (option_list cb) (objects rest) w Hi Hd Hf (reflexivity _)) as Ha.
  destruct (sigOnce w) eqn:Hso.
  - split; try done; [|split; [done|cbn; congruence]].
    apply owned_lose in Ha. unfold trace. simpl. by rewrite <- !app_assoc, ?app_nil_r in *.
  - destruct (Hs2 eq_refl) as [Hn Hss]. split; simpl; try done.
    unfold kept, trace in *. simpl. rewrite Hn in *. rewrite ?app_nil_r, <- ?app_assoc in *.
    eapply owned_perm; [|exact Ha]. solve_Permutation.
Qed.

Lemma fs_watch_inv b p args w : io_inv w → NoDup (objects args) → (∀ h, h ∈ objects args → h ∉ handed w) →
  io_inv (opFSWatch b p args w).2.
Proof.
  intros Hi Hd Hf. pose proof Hi as [Ho Hp Hw Hj Hk Hs Hon Hfi].
  unfold opFSWatch. destruct args as [|cb rest]; [|destruct b].
  - split; try done. unfold trace, kept in *. simpl. by rewrite !app_nil_r.
  - assert (objects (cb :: rest) = option_list cb ++ objects rest) as Hobj by done. cbn [snd].
    pose proof (owned_args _ (option_list cb) (objects rest) w Hi Hd Hf (reflexivity _)) as Ha.
    assert (Hnew : ∀ id, watchers w !! id = Some (length (pumps w)) → False).
    { intros id Hid. apply Hw in Hid as (_ & pu & Hpu & _). apply lookup_lt_Some in Hpu. lia. }
    split; simpl; try done.
    + unfold kept, trace in *. simpl. rewrite flat_map_app, ?app_nil_r, <- ?app_assoc in *. simpl. rewrite app_nil_r.
      eapply owned_perm; [|exact Ha]. solve_Permutation.
    + rewrite sum_list_with_app. simpl. change (alive _) with 1%nat. lia.
    + intros id i. rewrite lookup_insert_Some. intros [[<- <-]|[Hne Hid]].
      * split; [lia|]. exists (MkPump p cb false true []). by rewrite lookup_app_r, Nat.sub_diag.
      * apply Hw in Hid as (Hle & pu & Hpu & Hst). split; [lia|]. exists pu. split; [by apply lookup_app_l_Some|done].
    + intros id id' i. rewrite !lookup_insert_Some. intros [[<- <-]|[Hne Hid]] [[<- Hi']|[Hne' Hid']]; try done.
      * by destruct (Hnew id').
      * subst i. by destruct (Hnew id).
      * by eapply Hj.
    + intros i pu Hpu Hst. apply lookup_snoc_Some in Hpu as [[Hlt Hpu]|[-> <-]]; [|eexists; by rewrite lookup_insert_eq].
      destruct (Hk i pu Hpu Hst) as [id Hid]. exists id. rewrite lookup_insert_ne; [done|]. apply Hw in Hid as [? _]. lia.
  - split; try done. cbn [snd]. rewrite trace_free. simpl. rewrite app_nil_r.
    exact (owned_args _ [] _ w Hi Hd Hf (reflexivity _)).
Qed.

(** A goroutine posts calls of callbacks that are kept. *)
Lemma owned_posts ps w :
  freed (flat_map (effect true) ps) = [] → (∀ h, h ∈ map handle (flat_map (effect true) ps) → h ∈ kept w) →
  owned (kept w) (trace w) (handed w) (lost w) →
  owned (kept w) (trace w ++ flat_map (effect true) ps) (handed w) (lost w).
Proof. intros Hf Hh. by apply owned_call. Qed.

Lemma stdin_read_inv b e w w' : stdin_read b e w = Some w' → io_inv w → io_inv w'.
Proof.
  intros Hst Hi. pose proof Hi as [Ho Hp Hw Hj Hk Hs Hon Hfi]. unfold stdin_read in Hst.
  destruct (reader w) as [[d en]|] eqn:Hr; [|done]. destruct (zlen b <=? 8192); [|done]. injection Hst as <-.
  set (ps := match b with [] => [] | _ :: _ => [Data d b] end).
  assert (Hps : freed (flat_map (effect true) ps) = [] ∧ ∀ h, h ∈ map handle (flat_map (effect true) ps) → h ∈ objects [d; en]).
  { unfold ps. destruct b as [|x b]; simpl; [split; [done|by intros h ?%not_elem_of_nil]|].
    destruct d as [d|]; simpl; [split; [done|]|split; [done|by intros h ?%not_elem_of_nil]]. intros h ->%list_elem_of_singleton. by left. }
  destruct Hps as [Hf Hh].
  assert (H1 : owned (kept w) (trace w ++ flat_map (effect true) ps) (handed w) (lost w)).
  { apply owned_posts; [done| |done]. intros h Hx. unfold kept. rewrite Hr. apply elem_of_app. left. by apply Hh. }
  destruct e.
  - split; simpl; try done; [|lia]. unfold kept, trace in *. simpl. rewrite Hr in H1.
    rewrite !flat_map_app, !app_assoc. simpl. rewrite app_nil_r, app_assoc.
    assert (owned ((option_list d ++ option_list en) ++ flat_map pump_handles (pumps w) ++ option_list (onSignal w))
      ((log w ++ flat_map (effect true) (queue w)) ++ flat_map (effect true) ps) (handed w) (lost w)) as H2.
    { eapply owned_perm; [|exact H1]. unfold objects. cbn [flat_map]. by rewrite app_nil_r. }
    apply owned_free_end. eapply owned_call; [by destruct en| |exact H2]. intros h Hx. destruct en as [en|]; [|by apply not_elem_of_nil in Hx].
    apply list_elem_of_singleton in Hx as ->. rewrite !elem_of_app. left. right. by left.
  - split; simpl; try done. unfold kept, trace in *. simpl. rewrite Hr in *.
    by rewrite flat_map_app, (app_assoc (log w)).
Qed.

(** Steps of the signal goroutine keep its callback. *)
Lemma with_signals_inv ch st n buf run ended w :
  io_inv w → sigOnce w = true → (st = true → ended = false) → io_inv (with_signals ch st n buf (onSignal w) run ended w).
Proof. intros [Ho Hp Hw Hj Hk Hs Hon Hfi] Hso He. by split. Qed.

Lemma post_inv ps w : io_inv w → freed (flat_map (effect true) ps) = [] →
  (∀ h, h ∈ map handle (flat_map (effect true) ps) → h ∈ kept w) → io_inv (Post ps w).
Proof.
  intros [Ho Hp Hw Hj Hk Hs Hon Hfi] Hf Hh. split; try done. rewrite trace_post. by apply (owned_posts ps w).
Qed.

(** Changing the goroutine of a watcher, its callback or run no more. *)
Lemma set_pump_inv i pu pu' w : io_inv w → pumps w !! i = Some pu → onChange pu' = onChange pu → running pu' = running pu →
  stop pu' = stop pu ∨ stop pu' = true ∧ (∀ id, watchers w !! id ≠ Some i) → io_inv (with_watch (watchers w) (nextWatch w) (<[i := pu']> (pumps w)) w).
Proof.
  intros [Ho Hp Hw Hj Hk Hs Hon Hfi] Hi Hc Hr Hst.
  assert (Hph : pump_handles pu' = pump_handles pu) by (unfold pump_handles; by rewrite Hc, Hr).
  assert (Hal : alive pu' = alive pu) by (unfold alive; by rewrite Hr).
  split; simpl; try done.
  - unfold kept. simpl. fold pump_handles. eapply owned_perm; [|exact Ho]. unfold kept. apply Permutation_app_head, Permutation_app_tail.
    apply occ_perm. intros h. pose proof (sum_insert (λ x, occ h (pump_handles x)) (pumps w) i pu pu' Hi) as Hsum.
    rewrite !sum_callbacks, Hph in Hsum. unfold pump_handles in *. lia.
  - pose proof (sum_insert alive (pumps w) i pu pu' Hi). lia.
  - intros id j Hid. apply Hw in Hid as Hid'. destruct Hid' as (Hle & pj & Hpj & Hsj). split; [done|]. destruct (decide (i = j)) as [<-|Hij].
    + exists pu'. split; [apply list_lookup_insert_eq; by eapply lookup_lt_Some|]. destruct Hst as [->|[_ Hno]]; [congruence|by destruct (Hno id)].
    + exists pj. by rewrite list_lookup_insert_ne.
  - intros j pj Hpj Hsj. destruct (decide (i = j)) as [<-|Hij].
    + rewrite list_lookup_insert_eq in Hpj by by eapply lookup_lt_Some. injection Hpj as <-.
      destruct Hst as [Hst|[Hst _]]; [|congruence]. apply (Hk i pu Hi). congruence.
    + rewrite list_lookup_insert_ne in Hpj by done. by eapply Hk.
Qed.

Lemma watch_start_inv i info w w' : watch_start i info w = Some w' → io_inv w → io_inv w'.
Proof.
  unfold watch_start. intros Hs Hi. destruct (pumps w !! i) as [pu|] eqn:Hpu; [|done]. simpl in Hs.
  destruct (running pu) eqn:Hr; [|done]. destruct (snaps pu); [|done]. injection Hs as <-. apply (set_pump_inv i pu); auto.
Qed.

Lemma effect_changes i cb ns :
  freed (flat_map (effect true) (map (Change i cb) ns)) = [] ∧
  ∀ h, h ∈ map handle (flat_map (effect true) (map (Change i cb) ns)) → h ∈ option_list cb.
Proof.
  destruct cb as [c|]; (split; [by induction ns|]); intros h Hh.
  - induction ns as [|n ns IH]; simpl in Hh; [by apply not_elem_of_nil in Hh|]. apply elem_of_cons in Hh as [->|Hh]; [by left|by apply IH].
  - exfalso. induction ns as [|n ns IH]; simpl in Hh; [by apply not_elem_of_nil in Hh|by apply IH].
Qed.

Lemma held_pump i pu w h : pumps w !! i = Some pu → running pu = true → h ∈ option_list (onChange pu) → h ∈ kept w.
Proof.
  intros Hi Hr Hh. unfold kept. rewrite !elem_of_app. right. left. rewrite list_elem_of_In, in_flat_map. exists pu.
  split; [by eapply list_elem_of_In, list_elem_of_lookup_2|]. rewrite Hr. by apply list_elem_of_In.
Qed.

Lemma watch_tick_inv i info co po w w' : watch_tick i info co po w = Some w' → io_inv w → io_inv w'.
Proof.
  unfold watch_tick. intros Hs Hi. destruct (pumps w !! i) as [pu|] eqn:Hpu; [|done]. simpl in Hs.
  destruct (running pu) eqn:Hr; [|done]. destruct (snaps pu) as [|prev older]; [done|]. destruct (_ && _); [|done]. injection Hs as <-.
  destruct (effect_changes i (onChange pu) (diffSnapshots prev (snapshot (path pu) info) co po)) as [Hf Hh].
  apply post_inv; [by apply (set_pump_inv i pu); auto|done|]. intros h Hx%Hh.
  eapply (held_pump i); [apply list_lookup_insert_eq; by eapply lookup_lt_Some|done|done].
Qed.

Lemma watch_end_inv i w w' : watch_end i w = Some w' → io_inv w → io_inv w'.
Proof.
  unfold watch_end. intros Hs Hi. pose proof Hi as [Ho Hp Hw Hj Hk Hsg Hon Hfi].
  destruct (pumps w !! i) as [pu|] eqn:Hpu; [|done]. simpl in Hs.
  destruct (running pu) eqn:Hr; [|done]. destruct (stop pu) eqn:Hst; [|done]. destruct (snaps pu) as [|sn sns]; [done|]. injection Hs as <-.
  set (pu' := MkPump _ _ _ _ _). assert (Hlt : (i < length (pumps w))%nat) by by eapply lookup_lt_Some.
  split; simpl; try done.
  - assert (Hperm : kept w ≡ₚ option_list (onChange pu) ++
      kept (with_watch (watchers w) (nextWatch w) (<[i := pu']> (pumps w)) w)).
    { apply occ_perm. intros h. pose proof (sum_insert (λ x, occ h (pump_handles x)) (pumps w) i pu pu' Hpu) as Hsum.
      rewrite !sum_callbacks in Hsum. unfold pump_handles in Hsum at 2 4. rewrite Hr in Hsum. simpl in Hsum.
      unfold kept. simpl. fold pump_handles. rewrite !occ_app. unfold pump_handles in *. lia. }
    unfold trace. simpl. rewrite flat_map_app, app_assoc. simpl. rewrite app_nil_r. apply owned_free_end.
    by eapply owned_perm; [exact Hperm|].
  - pose proof (sum_insert alive (pumps w) i pu pu' Hpu) as Hsum. unfold alive at 2 4 in Hsum. rewrite Hr in Hsum. simpl in Hsum. lia.
  - intros id j Hid. apply Hw in Hid as Hid'. destruct Hid' as (Hle & pj & Hpj & Hsj). split; [done|].
    exists pj. rewrite list_lookup_insert_ne; [done|]. intros ->. congruence.
  - intros j pj Hpj Hsj. destruct (decide (i = j)) as [<-|Hij].
    + rewrite list_lookup_insert_eq in Hpj by done. by injection Hpj as <-.
    + rewrite list_lookup_insert_ne in Hpj by done. by eapply Hk.
Qed.

Lemma close_inv id i w : io_inv w → watchers w !! id = Some i →
  io_inv (close_stop i (with_watch (delete id (watchers w)) (nextWatch w) (pumps w) w)) ∧
  watchers (close_stop i (with_watch (delete id (watchers w)) (nextWatch w) (pumps w) w)) = delete id (watchers w).
Proof.
  intros Hi Hid. pose proof Hi as [Ho Hp Hw Hj Hk Hsg Hon Hfi].
  destruct (Hw id i Hid) as (_ & pu & Hpu & Hst). unfold close_stop. cbn [pumps with_watch]. rewrite Hpu, Hst. split; [|done].
  assert (Hlt : (i < length (pumps w))%nat) by by eapply lookup_lt_Some.
  set (pu' := MkPump _ _ _ _ _).
  assert (H1 : io_inv (with_watch (watchers w) (nextWatch w) (pumps w) w)) by done.
  split; simpl; try done.
  - eapply owned_perm; [|exact Ho]. apply occ_perm. intros h.
    pose proof (sum_insert (λ x, occ h (pump_handles x)) (pumps w) i pu pu' Hpu) as Hsum.
    rewrite !sum_callbacks in Hsum. unfold pump_handles in Hsum at 2 4. simpl in Hsum.
    unfold kept. simpl. fold pump_handles. rewrite !occ_app. unfold pump_handles in *. lia.
  - pose proof (sum_insert alive (pumps w) i pu pu' Hpu) as Hsum. unfold alive at 2 4 in Hsum. simpl in Hsum. lia.
  - intros id' j [Hne Hid']%lookup_delete_Some. apply Hw in Hid' as Hid2. destruct Hid2 as (Hle & pj & Hpj & Hsj).
    split; [done|]. exists pj. rewrite list_lookup_insert_ne; [done|]. intros ->. by destruct Hne; eapply Hj.
  - intros id1 id2 j [_ H1']%lookup_delete_Some [_ H2']%lookup_delete_Some. by eapply Hj.
  - intros j pj Hpj Hsj. destruct (decide (i = j)) as [<-|Hij].
    + rewrite list_lookup_insert_eq in Hpj by done. by injection Hpj as <-.
    + rewrite list_lookup_insert_ne in Hpj by done. destruct (Hk j pj Hpj Hsj) as [id' Hid']. exists id'.
      rewrite lookup_delete_ne; [done|]. intros ->. congruence.
Qed.

Lemma unwatch_inv id w : io_inv w → io_inv (opFSUnwatch id w).
Proof.
  intros Hi. destruct id as [id|]; [|done]. simpl. destruct (watchers w !! id) as [i|] eqn:Hid; [by apply close_inv|].
  rewrite delete_id by done. by destruct Hi.
Qed.

Definition forget (ii : Z * nat) (w : world) : world :=
  close_stop ii.2 (with_watch (delete ii.1 (watchers w)) (nextWatch w) (pumps w) w).

Lemma forget_signals ii w :
  sigCh (forget ii w) = sigCh w ∧ sigStop (forget ii w) = sigStop w ∧ sigEnded (forget ii w) = sigEnded w ∧
  sigOnce (forget ii w) = sigOnce w ∧ onSignal (forget ii w) = onSignal w.
Proof. unfold forget, close_stop. destruct (pumps _ !! _) as [pu|]; [by destruct (stop pu)|done]. Qed.

Lemma forget_all l w : io_inv w → NoDup l.*1 → (∀ ii, ii ∈ l → watchers w !! ii.1 = Some ii.2) →
  io_inv (foldl (λ w ii, forget ii w) w l) ∧ (∀ id, watchers (foldl (λ w ii, forget ii w) w l) !! id =
    if decide (id ∈ l.*1) then None else watchers w !! id).
Proof.
  revert w. induction l as [|[id i] l IH]; intros w Hi Hnd Hl; [split; [done|intros id; by rewrite decide_False by apply not_elem_of_nil]|].
  apply NoDup_cons in Hnd as [Hnin Hnd]. destruct (close_inv id i w Hi (Hl (id, i) (list_elem_of_here _ _))) as [Hi' Hw'].
  destruct (IH (forget (id, i) w) Hi' Hnd) as [H1 H2].
  - intros [id' i'] Hin. unfold forget. simpl. rewrite Hw', lookup_delete_ne; [by apply (Hl (id', i')); right|].
    intros ->. apply Hnin. by apply (list_elem_of_fmap_2 fst l (id', i')).
  - split; [done|]. intros id'. cbn [foldl]. rewrite H2. unfold forget. simpl fst. simpl snd. rewrite Hw'. destruct (decide (id' = id)) as [->|Hne].
    + rewrite lookup_delete_eq, (decide_True (P := id ∈ ((id, i) :: l).*1)) by by left. by destruct (decide _).
    + rewrite lookup_delete_ne by done. apply decide_ext. rewrite fmap_cons, elem_of_cons. simpl. tauto.
Qed.

Lemma forget_all_signals l w :
  sigCh (foldl (λ w ii, forget ii w) w l) = sigCh w ∧ sigStop (foldl (λ w ii, forget ii w) w l) = sigStop w ∧
  sigEnded (foldl (λ w ii, forget ii w) w l) = sigEnded w ∧ sigOnce (foldl (λ w ii, forget ii w) w l) = sigOnce w.
Proof.
  revert w. induction l as [|ii l IH]; intros w; [done|]. simpl. destruct (IH (forget ii w)) as (-> & -> & -> & ->).
  pose proof (forget_signals ii w). tauto.
Qed.

Lemma close_io_inv w : io_inv w → io_inv (closeIO w) ∧ watchers (closeIO w) = ∅.
Proof.
  intros Hi. unfold closeIO. change (foldl _ w _) with (foldl (λ w ii, forget ii w) w (map_to_list (watchers w))).
  destruct (forget_all (map_to_list (watchers w)) w Hi) as [H1 H2].
  { apply NoDup_fst_map_to_list. }
  { intros [id i] Hin. by apply elem_of_map_to_list in Hin. }
  set (w1 := foldl _ _ _) in *.
  assert (Hem : watchers w1 = ∅).
  { apply map_eq. intros id. rewrite H2, lookup_empty. case_decide as Hd; [done|]. destruct (watchers w !! id) as [i|] eqn:Hid; [|done].
    destruct Hd. apply (list_elem_of_fmap_2 fst _ (id, i)). by apply elem_of_map_to_list. }
  assert (Hend : sigStop w1 && sigEnded w1 = false).
  { destruct (sigStop w1) eqn:Hs; [|done]. by rewrite (proj1 (io_sig w1 H1) Hs). }
  rewrite Hend. destruct (sigCh w1 || sigStop w1) eqn:Hor; [|done]. split; [|done].
  destruct H1 as [Ho Hp Hw Hj Hk Hs Hon Hfi]. by split.
Qed.

Lemma host_run_post_inv ok w w' : run_post ok w = Some w' → io_inv w → io_inv w'.
Proof.
  unfold run_post. intros Hs Hi. destruct (queue w) as [|p ps] eqn:Hq; [done|]. injection Hs as <-.
  destruct Hi as [Ho Hp Hw Hj Hk Hs Hon Hfi]. split; try done. unfold trace in *. rewrite Hq in Ho. simpl in *.
  rewrite <- app_assoc. destruct ok; [done|]. destruct p as [h b|d e|h n|i h n|i h]; try done. simpl.
  apply (owned_drop (effect true (Data h b))); [by destruct h|done].
Qed.

Section Steps.
Context (hasStdin hasFS : bool) (String : Z → bytes).

Lemma step_io_inv l w w' : step hasStdin hasFS String l w = Some w' → io_inv w → io_inv w'.
Proof.
  unfold step. intros Hs Hi. destruct (fresh l w) eqn:Hf; [|done]. unfold fresh in Hf.
  apply andb_true_iff in Hf as [Hnd%bool_decide_eq_true Hfr]. rewrite forallb_forall in Hfr.
  assert (Hfresh : ∀ h, h ∈ given l → h ∉ handed w).
  { intros h Hh%list_elem_of_In%Hfr. by apply bool_decide_eq_true in Hh. }
  destruct l as [args|b e|args|s| | |p args|i info|i info co po|i|id| |ok]; simpl in Hs.
  - injection Hs as <-. by apply stdin_start_inv.
  - by eapply stdin_read_inv.
  - injection Hs as <-. by apply signal_watch_inv.
  - unfold deliver in Hs. destruct (_ && _) eqn:Hn; [|done]. injection Hs as <-. destruct Hi as [Ho Hp Hw Hj Hk [Hs1 Hs2] Hon Hfi]. by split.
  - unfold signal_take in Hs. destruct (buffer w) as [|s buf]; [done|]. destruct (sigRunning w); [|done]. injection Hs as <-.
    apply post_inv; [by destruct Hi as [Ho Hp Hw Hj Hk [Hs1 Hs2] Hon Hfi]; split|simpl; by destruct (onSignal w)|].
    intros h Hh. unfold kept. rewrite !elem_of_app. right. right. simpl in *. destruct (onSignal w); [|by apply not_elem_of_nil in Hh].
    exact Hh.
  - unfold signal_end in Hs. destruct (_ && _) eqn:Hn; [|done]. injection Hs as <-. apply andb_true_iff in Hn as [_ He].
    destruct Hi as [Ho Hp Hw Hj Hk [Hs1 Hs2] Hon Hfi]. split; try done. split; [|done]. cbn. intros Hst. by rewrite Hs1 in He.
  - injection Hs as <-. by apply fs_watch_inv.
  - by eapply watch_start_inv.
  - by eapply watch_tick_inv.
  - by eapply watch_end_inv.
  - injection Hs as <-. by apply unwatch_inv.
  - injection Hs as <-. by apply close_io_inv.
  - by eapply host_run_post_inv.
Qed.

Lemma io_reach_inv w : reachable hasStdin hasFS String w → io_inv w.
Proof.
  induction 1 as [|l w w' _ IH Hs]; [|by eapply step_io_inv]. split; try done.
  split; [done|apply NoDup_nil_2|done|]. by intros h ?%not_elem_of_nil.
Qed.

(** *** The signal goroutine *)

(** Started once, with its stop channel in the state until that is closed, and
    running until then. *)
Definition sig_ok (w : world) : Prop :=
  (sigOnce w = true → (sigStop w = true ∨ sigEnded w = true) ∧ (sigRunning w = true ∨ sigEnded w = true)) ∧
  (sigOnce w = false → sigRunning w = false ∧ onSignal w = None ∧ notified w = false ∧ sigCh w = false ∧ sigStop w = false).

Lemma sig_ok_same w w' :
  sigOnce w' = sigOnce w → sigStop w' = sigStop w → sigEnded w' = sigEnded w → sigRunning w' = sigRunning w →
  onSignal w' = onSignal w → notified w' = notified w → sigCh w' = sigCh w → sig_ok w → sig_ok w'.
Proof. unfold sig_ok. by intros -> -> -> -> -> -> ->. Qed.

Lemma forget_all_sig l w : sig_ok w → sig_ok (foldl (λ w ii, forget ii w) w l).
Proof.
  revert w. induction l as [|ii l IH]; intros w Hw; [done|]. apply IH. unfold forget, close_stop.
  destruct (pumps _ !! _) as [pu|]; [destruct (stop pu)|]; by apply (sig_ok_same w).
Qed.

Lemma close_io_sig w : sig_ok w → sig_ok (closeIO w) ∧ (sigOnce w = true → sigEnded (closeIO w) = true) ∧ sigOnce (closeIO w) = sigOnce w.
Proof.
  intros Hw. unfold closeIO. change (foldl _ w _) with (foldl (λ w ii, forget ii w) w (map_to_list (watchers w))).
  pose proof (forget_all_sig (map_to_list (watchers w)) w Hw) as Hw1.
  assert (Ho : sigOnce (foldl (λ w ii, forget ii w) w (map_to_list (watchers w))) = sigOnce w).
  { clear. generalize (map_to_list (watchers w)) as l. intros l. revert w. induction l as [|ii l IH]; intros w; [done|]. cbn [foldl].
    rewrite IH. apply forget_signals. }
  set (w1 := foldl _ _ _) in *. clearbody w1. rewrite <- Ho. destruct Hw1 as [H1 H2].
  destruct (sigOnce w1) eqn:Hon.
  - destruct (H1 eq_refl) as [Hs Hg]. unfold sig_ok.
    assert (sigEnded w1 = true ∨ sigStop w1 = true) as Hse by tauto.
    destruct (sigCh w1) eqn:?, (sigStop w1) eqn:Hst, (sigEnded w1) eqn:He; simpl in *; rewrite ?Hon, ?Hst, ?He;
      (split; [split; [|intros [=]]; intros _|split; [|done]]); tauto.
  - destruct (H2 eq_refl) as (_ & _ & _ & Hch & Hst). rewrite Hch, Hst. cbn [andb orb].
    split; [by split; rewrite Hon|by split].
Qed.

Lemma step_sig l w w' : step hasStdin hasFS String l w = Some w' → sig_ok w → sig_ok w'.
Proof.
  unfold step. intros Hs Hw. destruct (fresh l w); [|done].
  destruct l as [args|b e|args|s| | |p args|i info|i info co po|i|id| |ok]; simpl in Hs.
  - injection Hs as <-. apply (sig_ok_same w); try done; unfold opStdinStart; by repeat case_match.
  - unfold stdin_read in Hs. destruct (reader w) as [[d en]|]; [|done]. destruct (zlen b <=? 8192); [|done]. injection Hs as <-.
    by destruct e; apply (sig_ok_same w).
  - injection Hs as <-. unfold opSignalWatch. destruct args as [|cb rest]; [done|]. simpl. destruct (sigOnce w) eqn:Ho.
    + by apply (sig_ok_same w).
    + by split; simpl; [intros _; split; left|].
  - unfold deliver in Hs. destruct (notified w) eqn:Hn; [|done]. destruct (bool_decide _); [|done]. injection Hs as <-.
    destruct Hw as [H1 H2]. destruct (sigOnce w); [split; simpl; [intros _; by apply H1|done]|]. destruct (H2 eq_refl) as (_ & _ & ? & _); congruence.
  - unfold signal_take in Hs. destruct (buffer w); [done|]. destruct (sigRunning w) eqn:Hr; [|done]. injection Hs as <-.
    destruct Hw as [H1 H2]. destruct (sigOnce w) eqn:Ho; [|destruct (H2 eq_refl); congruence].
    split; simpl; [|done]. intros _. split; [by apply H1|by left].
  - unfold signal_end in Hs. destruct (sigRunning w) eqn:Hr; [|done]. destruct (sigEnded w) eqn:He; [|done]. injection Hs as <-.
    destruct Hw as [H1 H2]. destruct (sigOnce w) eqn:Ho; [|destruct (H2 eq_refl); congruence]. split; simpl; [|done]. auto.
  - injection Hs as <-. apply (sig_ok_same w); try done; unfold opFSWatch; by destruct args, hasFS.
  - unfold watch_start in Hs. destruct (pumps w !! i) as [pu|]; simplify_eq/=. destruct (running pu), (snaps pu); simplify_eq.
    by apply (sig_ok_same w).
  - unfold watch_tick in Hs. destruct (pumps w !! i) as [pu|]; simplify_eq/=. destruct (running pu), (snaps pu); try done.
    destruct (_ && _); simplify_eq/=. by apply (sig_ok_same w).
  - unfold watch_end in Hs. destruct (pumps w !! i) as [pu|]; simplify_eq/=. destruct (running pu && stop pu), (snaps pu); simplify_eq/=.
    by apply (sig_ok_same w).
  - injection Hs as <-. destruct id as [id|]; [|done]. simpl. destruct (watchers w !! id) as [i|]; [|by apply (sig_ok_same w)].
    unfold close_stop. destruct (pumps _ !! i) as [pu|]; [destruct (stop pu)|]; by apply (sig_ok_same w).
  - injection Hs as <-. by apply close_io_sig.
  - unfold run_post in Hs. destruct (queue w); simplify_eq. by apply (sig_ok_same w).
Qed.

Lemma reach_sig w : reachable hasStdin hasFS String w → sig_ok w.
Proof. induction 1 as [|l w w' _ IH Hs]; [done|by eapply step_sig]. Qed.

(** C38: The host's event sources neither leak a callback unseen nor touch one that is
    gone. In every reachable state no released callback is called or released
    again, by what has happened or by anything posted. Each callback the guest
    ever passed is in one of four places: a running goroutine holds it, or it was
    released, or it came second to signal_watch, or its signal goroutine was
    ended by closeIO; the last two are released by nobody before js.Close. The
    loop's pending count is the reader of stdin and the running watchers: the
    signal goroutine takes none, so that a signal listener keeps no process
    alive. No channel is closed twice, and after closeIO every watcher and the
    signal goroutine have been told to stop. *)
Theorem host_callbacks_safe (w : world) (Hr : reachable hasStdin hasFS String w) :
  safe (trace w) ∧ NoDup (handed w) ∧ handed w ≡ₚ held w ++ freed (trace w) ++ lost w ++ stranded w ∧
  (stranded w ≠ [] → sigOnce w = true ∧ sigEnded w = true) ∧
  pending w = (match reader w with Some _ => 1 | None => 0 end) + Z.of_nat (sum_list_with alive (pumps w)) ∧
  panicked w = false ∧ Forall (λ pu, stop pu = true) (pumps (closeIO w)) ∧ (sigRunning w = true → sigEnded (closeIO w) = true) ∧
  panicked (closeIO w) = false.
Proof.
  pose proof (reach_sig w Hr) as Hsig. destruct (close_io_sig w Hsig) as (_ & Hcs & _). destruct Hsig as [H1 H2].
  apply io_reach_inv in Hr. destruct (close_io_inv w Hr) as [Hc Hem]. destruct Hr as [[Hco Hn Hs _] Hp _ _ _ _ _ Hf].
  split_and!; try done.
  - apply occ_perm. intros h. rewrite Hco, (proj1 (occ_perm _ _) (kept_split w) h), !occ_app. lia.
  - unfold stranded. destruct (sigRunning w) eqn:Hrun; [done|]. intros Hne. destruct (sigOnce w); [|by destruct (H2 eq_refl) as (_ & Hz & _); rewrite Hz in Hne].
    split; [done|]. destruct (H1 eq_refl) as [_ [?|?]]; done.
  - apply Forall_lookup. intros i pu Hpu. destruct (stop pu) eqn:Hst; [done|].
    destruct (io_kept _ Hc i pu Hpu Hst) as [id Hid]. rewrite Hem, lookup_empty in Hid. done.
  - intros Hrun. apply Hcs. destruct (sigOnce w); [done|]. destruct (H2 eq_refl). congruence.
  - apply Hc.
Qed.

End Steps.

(** ** fs.watch *)

Definition count (k : bytes) (l : list bytes) : nat := length (filter (λ x, x = k) l).

Lemma count_app k a b : count k (a ++ b) = (count k a + count k b)%nat.
Proof. unfold count. by rewrite filter_app, length_app. Qed.

Lemma count_perm k a b : a ≡ₚ b → count k a = count k b.
Proof. unfold count. by intros ->. Qed.

Lemma count_nodup k l : NoDup l → count k l = if decide (k ∈ l) then 1%nat else 0%nat.
Proof.
  unfold count. induction 1 as [|x l Hx Hl IH]; [by rewrite decide_False by apply not_elem_of_nil|]. rewrite filter_cons.
  destruct (decide (x = k)) as [->|Hne]; simpl.
  - rewrite (decide_True (P := k ∈ k :: l)) by by left. rewrite IH. by rewrite decide_False.
  - rewrite IH. apply decide_ext. rewrite elem_of_cons. naive_solver.
Qed.

(** Names of the entries that satisfy a test. *)
Lemma names_sub (f : bytes * Z → bool) l :
  flat_map (λ kv, if f kv then [kv.1] else []) l `sublist_of` l.*1 ∧
  ∀ k, k ∈ flat_map (λ kv, if f kv then [kv.1] else []) l ↔ ∃ v, (k, v) ∈ l ∧ f (k, v) = true.
Proof.
  induction l as [|[k v] l [IHs IHk]]; [split; [done|]|].
  - intros k. split; [by intros ?%not_elem_of_nil|]. by intros (v & ?%not_elem_of_nil & _).
  - split.
    + simpl. destruct (f (k, v)); simpl; [by apply sublist_skip|by apply sublist_cons].
    + intros k'. cbn [flat_map]. rewrite elem_of_app, IHk. split.
      * intros [Hk|(v' & Hv & Hf)]; [|exists v'; split; [by right|done]]. destruct (f (k, v)) eqn:Hf; [|by apply not_elem_of_nil in Hk].
        apply list_elem_of_singleton in Hk as ->. exists v. split; [by left|done].
      * intros (v' & [[= -> ->]|Hv]%elem_of_cons & Hf); [left; rewrite Hf; by left|right; eauto].
Qed.

Definition moved (prev : gmap bytes Z) (kv : bytes * Z) : bool :=
  match prev !! kv.1 with Some pv => negb (pv =? kv.2) | None => true end.
Definition gone (cur : gmap bytes Z) (kv : bytes * Z) : bool := match cur !! kv.1 with Some _ => false | None => true end.

Lemma diff_names prev cur co po : diffSnapshots prev cur co po =
  flat_map (λ kv, if moved prev kv then [kv.1] else []) co ++ flat_map (λ kv, if gone cur kv then [kv.1] else []) po.
Proof.
  unfold diffSnapshots. f_equal; apply flat_map_ext; intros kv; unfold moved, gone; [destruct (prev !! _) as [pv|]; [by destruct (pv =? _)|done]|].
  by destruct (cur !! _).
Qed.

(** A name is reported once when its time differs, appeared or went, and not
    otherwise, in any order of iteration. *)
Lemma diff_exact prev cur co po k : co ≡ₚ map_to_list cur → po ≡ₚ map_to_list prev →
  count k (diffSnapshots prev cur co po) = if decide (prev !! k = cur !! k) then 0%nat else 1%nat.
Proof.
  intros Hc Hp.
  destruct (names_sub (moved prev) co) as [Hs1 Hk1]. destruct (names_sub (gone cur) po) as [Hs2 Hk2]. rewrite diff_names.
  assert (Hco : ∀ v, (k, v) ∈ co ↔ cur !! k = Some v) by (intros v; rewrite Hc; apply elem_of_map_to_list).
  assert (Hpo : ∀ v, (k, v) ∈ po ↔ prev !! k = Some v) by (intros v; rewrite Hp; apply elem_of_map_to_list).
  rewrite count_app, !count_nodup.
  - destruct (decide (prev !! k = cur !! k)) as [He|Hne].
    + rewrite !decide_False; [done|..].
      * rewrite Hk2. intros (v & Hv%Hpo & Hg). unfold gone in Hg. simpl in Hg. by rewrite <- He, Hv in Hg.
      * rewrite Hk1. intros (v & Hv%Hco & Hm). unfold moved in Hm. simpl in Hm. by rewrite He, Hv, Z.eqb_refl in Hm.
    + destruct (cur !! k) as [v|] eqn:Hv.
      * rewrite (decide_True (P := k ∈ _)), decide_False; [done| |].
        -- rewrite Hk2. intros (v' & _ & Hg). unfold gone in Hg. simpl in Hg. by rewrite Hv in Hg.
        -- rewrite Hk1. exists v. split; [by apply Hco|]. unfold moved. simpl. destruct (prev !! k) as [pv|]; [|done].
           apply negb_true_iff, Z.eqb_neq. congruence.
      * rewrite decide_False, decide_True; [done| |].
        -- rewrite Hk2. destruct (prev !! k) as [pv|] eqn:Hpv; [|done]. exists pv. split; [by apply Hpo|]. unfold gone. simpl. by rewrite Hv.
        -- rewrite Hk1. intros (v & ?%Hco & _). congruence.
  - eapply sublist_NoDup; [|exact Hs2]. rewrite Hp. apply NoDup_fst_map_to_list.
  - eapply sublist_NoDup; [|exact Hs1]. rewrite Hc. apply NoDup_fst_map_to_list.
Qed.

(** The names reported by a watcher, in order. *)
Definition reported (i : nat) (ps : list post) : list bytes :=
  flat_map (λ p, match p with Change j _ n => if decide (j = i) then [n] else [] | _ => [] end) ps.

(** How often the time of [k] changed from one snapshot to the next. *)
Fixpoint changes (k : bytes) (sn : list (gmap bytes Z)) : nat :=
  match sn with
  | cur :: ((prev :: _) as older) => changes k older + (if decide (prev !! k = cur !! k) then 0 else 1)
  | _ => 0
  end.

Record watch_inv (w : world) : Prop := {
  wi_new i : (length (pumps w) <= i)%nat → reported i (posted w) = [];
  wi_all i pu k : pumps w !! i = Some pu → count k (reported i (posted w)) = changes k (snaps pu);
  wi_to i h n : Change i h n ∈ posted w → ∃ pu, pumps w !! i = Some pu ∧ onChange pu = h
}.

Lemma reported_app i a b : reported i (a ++ b) = reported i a ++ reported i b.
Proof. apply flat_map_app. Qed.

Lemma reported_changes i j h ns : reported i (map (Change j h) ns) = if decide (j = i) then ns else [].
Proof. induction ns as [|n ns IH]; [by case_decide|]. simpl. rewrite IH. by case_decide. Qed.

(** Steps that touch no snapshot and post no change. *)
Definition view (pu : pump) : option Z * list (gmap bytes Z) := (onChange pu, snaps pu).

Lemma watch_inv_same w w' ps : watch_inv w → posted w' = posted w ++ ps → (∀ i, reported i ps = []) →
  view <$> pumps w' = view <$> pumps w → watch_inv w'.
Proof.
  intros [Hn Ha Ht] Hp Hr Hv.
  assert (Hl : length (pumps w') = length (pumps w)) by (apply (f_equal length) in Hv; by rewrite !length_fmap in Hv).
  assert (Hlk : ∀ i, view <$> pumps w' !! i = view <$> pumps w !! i) by (intros i; by rewrite <- !list_lookup_fmap, Hv).
  assert (Hno : ∀ i h n, Change i h n ∉ ps).
  { intros i h n Hin%list_elem_of_In. specialize (Hr i). apply in_split in Hin as (a & b & ->). rewrite reported_app in Hr.
    apply app_nil in Hr as [_ Hr]. simpl in Hr. by rewrite decide_True in Hr. }
  split.
  - intros i Hi. rewrite Hp, reported_app, Hr, Hn by lia. done.
  - intros i pu k Hi. rewrite Hp, reported_app, Hr, app_nil_r. specialize (Hlk i). rewrite Hi in Hlk.
    destruct (pumps w !! i) as [pu0|] eqn:Hi0; [|done]. injection Hlk as _ ->. by apply Ha.
  - intros i h n. rewrite Hp. intros [Hin|Hin]%elem_of_app; [|by destruct (Hno i h n)].
    destruct (Ht i h n Hin) as (pu & Hpu & <-). specialize (Hlk i). rewrite Hpu in Hlk.
    destruct (pumps w' !! i) as [pu'|]; [|done]. injection Hlk as Hc _. by exists pu'.
Qed.

Lemma view_insert (i : nat) pu pu' (ps : list pump) : ps !! i = Some pu → view pu' = view pu → view <$> <[i := pu']> ps = view <$> ps.
Proof. intros Hi Hv. rewrite list_fmap_insert, Hv. apply list_insert_id. by rewrite list_lookup_fmap, Hi. Qed.

Lemma close_stop_view i w : posted (close_stop i w) = posted w ∧ view <$> pumps (close_stop i w) = view <$> pumps w.
Proof.
  unfold close_stop. destruct (pumps w !! i) as [pu|] eqn:Hi; [|done]. destruct (stop pu); [done|]. split; [done|]. by apply (view_insert i pu).
Qed.

Lemma forget_all_view l w : posted (foldl (λ w ii, forget ii w) w l) = posted w ∧
  view <$> pumps (foldl (λ w ii, forget ii w) w l) = view <$> pumps w.
Proof.
  revert w. induction l as [|ii l IH]; intros w; [done|]. cbn [foldl]. destruct (IH (forget ii w)) as [-> ->].
  destruct (close_stop_view ii.2 (with_watch (delete ii.1 (watchers w)) (nextWatch w) (pumps w) w)). done.
Qed.

Lemma close_io_view w : posted (closeIO w) = posted w ∧ view <$> pumps (closeIO w) = view <$> pumps w.
Proof.
  unfold closeIO. change (foldl _ w _) with (foldl (λ w ii, forget ii w) w (map_to_list (watchers w))).
  destruct (forget_all_view (map_to_list (watchers w)) w) as [H1 H2]. set (w1 := foldl _ _ _) in *.
  by destruct (sigStop w1 && sigEnded w1), (sigCh w1 || sigStop w1).
Qed.

(** A snapshot more, and what changed reported. *)
Lemma watch_inv_snap i pu sn ns w : watch_inv w → pumps w !! i = Some pu →
  (∀ k, (count k ns + changes k (snaps pu))%nat = changes k sn) →
  watch_inv (Post (map (Change i (onChange pu)) ns)
    (with_watch (watchers w) (nextWatch w) (<[i := MkPump (path pu) (onChange pu) (stop pu) true sn]> (pumps w)) w)).
Proof.
  intros [Hn Ha Ht] Hi Hk. assert (Hlt : (i < length (pumps w))%nat) by by eapply lookup_lt_Some. split; simpl.
  - intros j. rewrite length_insert. intros Hj. rewrite reported_app, Hn, reported_changes, decide_False by lia. done.
  - intros j pj k Hj. rewrite reported_app, reported_changes, count_app. destruct (decide (i = j)) as [<-|Hne].
    + rewrite list_lookup_insert_eq in Hj by done. injection Hj as <-. simpl. rewrite (Ha i pu k Hi), <- Hk. lia.
    + rewrite list_lookup_insert_ne in Hj by done. rewrite (Ha j pj k Hj). unfold count. simpl. lia.
  - intros j h n [Hin|Hin]%elem_of_app.
    + destruct (Ht j h n Hin) as (pj & Hpj & <-). destruct (decide (i = j)) as [<-|Hne].
      * rewrite list_lookup_insert_eq by done. eexists. split; [done|]. simpl. congruence.
      * rewrite list_lookup_insert_ne by done. eauto.
    + apply list_elem_of_fmap in Hin as (n' & [= -> -> ->] & _). rewrite list_lookup_insert_eq by done. eauto.
Qed.

Section Watch.
Context (hasStdin hasFS : bool) (String : Z → bytes).

Lemma step_watch_inv l w w' : step hasStdin hasFS String l w = Some w' → watch_inv w → watch_inv w'.
Proof.
  unfold step. intros Hs Hi. destruct (fresh l w); [|done].
  destruct l as [args|b e|args|s| | |p args|i info|i info co po|i|id| |ok]; simpl in Hs.
  - injection Hs as <-. apply (watch_inv_same w _ []); [done| |done|]; unfold opStdinStart;
      destruct args as [|d [|e rest]], hasStdin; simpl; try destruct (stdinOnce w); simpl; by rewrite ?app_nil_r.
  - unfold stdin_read in Hs. destruct (reader w) as [[d en]|]; [|done]. destruct (_ <=? _); [|done]. injection Hs as <-.
    destruct b, e; (eapply (watch_inv_same w); [done|simpl; by rewrite <- ?app_assoc|done|done]).
  - injection Hs as <-. apply (watch_inv_same w _ []); [done| |done|]; unfold opSignalWatch; destruct args as [|cb rest];
      simpl; try destruct (sigOnce w); simpl; by rewrite ?app_nil_r.
  - unfold deliver in Hs. destruct (_ && _); [|done]. injection Hs as <-. apply (watch_inv_same w _ []); [done| |done|done]. by rewrite app_nil_r.
  - unfold signal_take in Hs. destruct (buffer w); [done|]. destruct (sigRunning w); [|done]. injection Hs as <-. by eapply (watch_inv_same w).
  - unfold signal_end in Hs. destruct (_ && _); [|done]. injection Hs as <-. apply (watch_inv_same w _ []); [done| |done|done]. by rewrite app_nil_r.
  - injection Hs as <-. unfold opFSWatch. destruct args as [|cb rest]; [|destruct hasFS]; cbn [snd];
      [apply (watch_inv_same w _ []); [done|simpl; by rewrite app_nil_r|done|done]| |
       apply (watch_inv_same w _ []); [done|simpl; by rewrite app_nil_r|done|done]].
    destruct Hi as [Hn Ha Ht]. split; simpl.
    + intros i. rewrite length_app. simpl. intros Hi. apply Hn. lia.
    + intros i pu k Hi. apply lookup_snoc_Some in Hi as [[_ Hi]|[-> <-]]; [by apply Ha|]. by rewrite Hn.
    + intros i h n Hin. destruct (Ht i h n Hin) as (pu & Hpu & Hc). exists pu. split; [by apply lookup_app_l_Some|done].
  - unfold watch_start in Hs. destruct (pumps w !! i) as [pu|] eqn:Hpu; [|done]. simpl in Hs.
    destruct (running pu); [|done]. destruct (snaps pu) eqn:Hsn; [|done]. injection Hs as <-.
    refine (watch_inv_same _ _ [] (watch_inv_snap i pu [snapshot (path pu) info] [] w Hi Hpu _) _ _ _); [by rewrite Hsn| |done|done].
    simpl. by rewrite !app_nil_r.
  - unfold watch_tick in Hs. destruct (pumps w !! i) as [pu|] eqn:Hpu; [|done]. simpl in Hs.
    destruct (running pu); [|done]. destruct (snaps pu) as [|prev older] eqn:Hsn; [done|].
    destruct (_ && _) eqn:Hord; [|done]. injection Hs as <-. apply andb_true_iff in Hord as [Hc%bool_decide_eq_true Hp%bool_decide_eq_true].
    apply watch_inv_snap; [done|done|]. intros k. rewrite Hsn, diff_exact by done. cbn [changes]. lia.
  - unfold watch_end in Hs. destruct (pumps w !! i) as [pu|] eqn:Hpu; [|done]. simpl in Hs.
    destruct (running pu && stop pu); [|done]. destruct (snaps pu) as [|s sns] eqn:Hsn; [done|]. injection Hs as <-.
    eapply (watch_inv_same w); [done|done|done|]. apply (view_insert i pu); [done|]. unfold view. simpl. by rewrite Hsn.
  - injection Hs as <-. destruct id as [id|]; [|done]. simpl. destruct (watchers w !! id) as [i|].
    + destruct (close_stop_view i (with_watch (delete id (watchers w)) (nextWatch w) (pumps w) w)) as [H1 H2].
      apply (watch_inv_same w _ []); [done|by rewrite H1, app_nil_r|done|by rewrite H2].
    + apply (watch_inv_same w _ []); [done| |done|done]. simpl. by rewrite app_nil_r.
  - injection Hs as <-. destruct (close_io_view w) as [H1 H2]. apply (watch_inv_same w _ []); [done|by rewrite H1, app_nil_r|done|done].
  - unfold run_post in Hs. destruct (queue w); [done|]. injection Hs as <-. apply (watch_inv_same w _ []); [done| |done|done]. by rewrite app_nil_r.
Qed.

Lemma changes_some k sn a b : last sn = Some a → head sn = Some b → a !! k ≠ b !! k → (0 < changes k sn)%nat.
Proof.
  revert b. induction sn as [|cur [|prev older] IH]; intros b Hl Hh Hne; simplify_eq/=.
  destruct (decide (prev !! k = b !! k)) as [He|Hd]; [|lia].
  specialize (IH prev Hl eq_refl ltac:(congruence)). lia.
Qed.

(** fs.watch misses no change that a poll can see, and invents none. For every
    watcher ever started and every name, the number of times the name is reported
    to the watcher's callback, and to no other, is the number of times its
    modification time, or its being there, differed between two snapshots
    running; so a name whose time is not what it was at the start was reported,
    and one that never changed was not. *)
Theorem watch_exact (w : world) (i : nat) (pu : pump) (Hr : reachable hasStdin hasFS String w) (Hi : pumps w !! i = Some pu) :
  (∀ k, count k (reported i (posted w)) = changes k (snaps pu)) ∧
  (∀ h n, Change i h n ∈ posted w → h = onChange pu) ∧
  (∀ k a b, last (snaps pu) = Some a → head (snaps pu) = Some b → a !! k ≠ b !! k → k ∈ reported i (posted w)).
Proof.
  assert (Hw : watch_inv w).
  { clear Hi. induction Hr as [|l w w' _ IH Hs]; [|by eapply step_watch_inv].
    split; [done|by intros j pj k ?|by intros j h n ?%not_elem_of_nil]. }
  destruct Hw as [_ Ha Ht]. split_and!.
  - intros k. by apply Ha.
  - intros h n Hin. destruct (Ht i h n Hin) as (pu' & Hpu' & <-). congruence.
  - intros k a b Hl Hh Hne. pose proof (changes_some k _ a b Hl Hh Hne) as Hpos. rewrite <- (Ha i pu k Hi) in Hpos. unfold count in Hpos.
    destruct (filter _ _) as [|x l] eqn:Hf; [simpl in Hpos; lia|].
    assert (x ∈ filter (λ x, x = k) (reported i (posted w))) as Hx by (rewrite Hf; by left).
    by apply list_elem_of_filter in Hx as [-> Hx].
Qed.

End Watch.

(** ** process.stdin *)

Definition of_stdin (p : post) : bool := match p with Data _ _ | End_ _ _ => true | _ => false end.

Definition stdin_posts (ps : list post) : list post := List.filter of_stdin ps.

Lemma stdin_app a b : stdin_posts (a ++ b) = stdin_posts a ++ stdin_posts b.
Proof. apply List.filter_app. Qed.

Lemma stdin_changes i h ns : stdin_posts (map (Change i h) ns) = [].
Proof. by induction ns. Qed.

Lemma forget_all_stdin l w : reader (foldl (λ w ii, forget ii w) w l) = reader w ∧
  read_ (foldl (λ w ii, forget ii w) w l) = read_ w ∧ stdinOnce (foldl (λ w ii, forget ii w) w l) = stdinOnce w.
Proof.
  revert w. induction l as [|ii l IH]; intros w; [done|]. cbn [foldl]. destruct (IH (forget ii w)) as (-> & -> & ->).
  unfold forget, close_stop. destruct (pumps _ !! _) as [pu|]; [by destruct (stop pu)|done].
Qed.

Lemma close_io_stdin w : reader (closeIO w) = reader w ∧ read_ (closeIO w) = read_ w ∧ stdinOnce (closeIO w) = stdinOnce w.
Proof.
  unfold closeIO. change (foldl _ w _) with (foldl (λ w ii, forget ii w) w (map_to_list (watchers w))).
  destruct (forget_all_stdin (map_to_list (watchers w)) w) as (H1 & H2 & H3). set (w1 := foldl _ _ _) in *.
  by destruct (sigStop w1 && sigEnded w1), (sigCh w1 || sigStop w1).
Qed.

Section Stdin.
Context (hasStdin hasFS : bool) (String : Z → bytes).

(** The steps that have nothing to do with stdin. *)
Lemma other_steps l w w' : match l with OpStdinStart _ | StdinRead _ _ => False | _ => True end →
  step hasStdin hasFS String l w = Some w' →
  reader w' = reader w ∧ read_ w' = read_ w ∧ stdinOnce w' = stdinOnce w ∧ stdin_posts (posted w') = stdin_posts (posted w).
Proof.
  unfold step. intros Hl Hs. destruct (fresh l w); [|done].
  destruct l as [args|b e|args|s| | |p args|i info|i info co po|i|id| |ok]; try done; simpl in Hs.
  - injection Hs as <-. unfold opSignalWatch. destruct args; simpl; [done|]. by destruct (sigOnce w).
  - unfold deliver in Hs. destruct (_ && _); by simplify_eq.
  - unfold signal_take in Hs. destruct (buffer w); [done|]. destruct (sigRunning w); simplify_eq/=. by rewrite stdin_app, app_nil_r.
  - unfold signal_end in Hs. destruct (_ && _); by simplify_eq.
  - injection Hs as <-. unfold opFSWatch. by destruct args, hasFS.
  - unfold watch_start in Hs. destruct (pumps w !! i) as [pu|]; simplify_eq/=. destruct (running pu), (snaps pu); by simplify_eq.
  - unfold watch_tick in Hs. destruct (pumps w !! i) as [pu|]; simplify_eq/=. destruct (running pu), (snaps pu); try done.
    destruct (_ && _); simplify_eq/=. by rewrite stdin_app, stdin_changes, app_nil_r.
  - unfold watch_end in Hs. destruct (pumps w !! i) as [pu|]; simplify_eq/=. destruct (running pu && stop pu), (snaps pu); simplify_eq/=.
    by rewrite stdin_app, app_nil_r.
  - injection Hs as <-. destruct id as [id|]; [|done]. simpl. destruct (watchers w !! id) as [i|]; [|done].
    unfold close_stop. destruct (pumps _ !! i) as [pu|]; [by destruct (stop pu)|done].
  - injection Hs as <-. destruct (close_io_stdin w) as (-> & -> & ->). by destruct (close_io_view w) as [-> _].
  - unfold run_post in Hs. destruct (queue w); by simplify_eq.
Qed.

(** What Config.Stdin gives arrives in order, in chunks of one to 8192 bytes, and
    then the end, once, when a read has failed. *)
Lemma stdin_in_order w : reachable hasStdin hasFS String w → ∃ d e chunks,
  stdin_posts (posted w) = map (Data d) chunks ++ (if stdinOnce w && bool_decide (reader w = None) then [End_ d e] else []) ∧
  concat chunks = read_ w ∧ Forall (λ b, 1 <= zlen b <= 8192) chunks ∧ (reader w = None ∨ reader w = Some (d, e)) ∧
  (stdinOnce w = false → reader w = None ∧ chunks = []).
Proof.
  induction 1 as [|l w w' Hr IH Hs]; [exists None, None, []; simpl; split_and!; auto|].
  destruct l as [args|b er| | | | | | | | | | |]; try (
    edestruct other_steps as (H1 & H2 & H3 & H4); [|exact Hs|]; [exact I|]; destruct IH as (d & e & ch & IH); exists d, e, ch; by rewrite H1, H2, H3, H4).
  - unfold step in Hs. destruct (fresh _ w); [|done]. injection Hs as <-. destruct IH as (d & e & ch & IH). unfold opStdinStart.
    destruct args as [|d' [|e' rest]], hasStdin; try (exists d, e, ch; exact IH). cbn [stdinOnce freeObjects happens hand].
    destruct (stdinOnce w) eqn:Hso; [exists d, e, ch; simpl; by rewrite Hso|]. destruct IH as (Hp & Hc & _ & _ & Hno).
    destruct (Hno eq_refl) as [Hrd ->]. exists d', e', []. simpl in *. rewrite Hp. split_and!; first [done | by right | auto].
  - unfold step in Hs. destruct (fresh _ w); [|done]. simpl in Hs. unfold stdin_read in Hs.
    destruct (reader w) as [[d' e']|] eqn:Hrd; [|done]. destruct (Z.leb_spec (zlen b) 8192); [|done]. injection Hs as <-.
    destruct IH as (d & e & ch & Hp & Hc & Hf & Hor & Hno). destruct Hor as [?|[= -> ->]]; [done|].
    rewrite bool_decide_false, andb_false_r, app_nil_r in Hp by done.
    exists d, e, (ch ++ match b with [] => [] | _ => [b] end).
    assert (Hchunk : Forall (λ b, 1 <= zlen b <= 8192) (ch ++ match b with [] => [] | _ => [b] end)).
    { apply Forall_app. split; [done|]. destruct b; [done|]. apply Forall_singleton. unfold zlen in *. simpl in *. lia. }
    assert (Hcat : concat (ch ++ match b with [] => [] | _ => [b] end) = read_ w ++ b).
    { rewrite concat_app, Hc. by destruct b; simpl; rewrite ?app_nil_r. }
    destruct er; simpl; rewrite ?stdin_app, Hp, ?map_app; (split_and!; [by destruct b; simpl; rewrite <- ?app_assoc|done|done|auto|done]).
Qed.

End Stdin.

(** ** Concrete runs *)

Definition demo_stat (t : Z) (es : list (bytes * option Z)) : option (Z * option (list (bytes * option Z))) := Some (t, Some es).
Definition demo_snap (t : Z) (es : list (bytes * option Z)) : gmap bytes Z := snapshot (lit "d") (demo_stat t es).

(** Two watchers, a reader and a signal: a file of the first watcher's directory
    changes, another goes; the first watcher is told to stop, and one more poll
    comes before it sees that. *)
Definition demo_labels : list label :=
  let s0 := demo_snap 1 [(lit "x", Some 5); (lit "y", Some 6)] in
  let s1 := demo_snap 1 [(lit "x", Some 7)] in
  [OpFSWatch (lit "d") [Some 1]; OpFSWatch (lit "e") [Some 2; Some 3]; OpStdinStart [Some 4; Some 5]; OpSignalWatch [Some 6];
   WatchStart 0 (demo_stat 1 [(lit "x", Some 5); (lit "y", Some 6)]); StdinRead (lit "in") false; Deliver 2; SignalTake;
   WatchTick 0 (demo_stat 1 [(lit "x", Some 7)]) (map_to_list s1) (map_to_list s0);
   OpFSUnwatch (Some 1); RunPost true; WatchTick 0 (demo_stat 1 [(lit "x", Some 8)])
     (map_to_list (demo_snap 1 [(lit "x", Some 8)])) (map_to_list s1); WatchEnd 0;
   RunPost true; RunPost false; StdinRead [] true; RunPost true; RunPost true; RunPost true; RunPost true].

Definition demo_world : world := default newIOState (steps true true (λ _, []) demo_labels newIOState).

Lemma steps_reachable a b f ls w w' : reachable a b f w → steps a b f ls w = Some w' → reachable a b f w'.
Proof.
  revert w. induction ls as [|l ls IH]; intros w Hr Hs; simpl in Hs; [by injection Hs as <-|].
  destruct (step a b f l w) as [w1|] eqn:H1; [|done]. apply (IH w1); [by eapply reachable_step|done].
Qed.

Lemma host_demo : reachable true true (λ _, []) demo_world.
Proof.
  apply (steps_reachable _ _ _ demo_labels newIOState); [apply reachable_new|].
  assert (is_Some (steps true true (λ _, []) demo_labels newIOState)) as [w Hw] by (apply is_Some_alt; vm_compute; exact I).
  unfold demo_world. by rewrite Hw.
Qed.

(** The callback of the first one, once its goroutine has ended. *)
Example signal_callback_stranded :
  (λ w, (held w, stranded w, freed (trace w), sigRunning w)) <$>
    steps true true (λ _, []) [OpSignalWatch [Some 1]; CloseIO; SignalEnd] newIOState = Some ([], [1], [], false).
Proof. by vm_compute. Qed.

Lemma host_callbacks_safe_witness : safe (trace demo_world) ∧ freed (trace demo_world) = [3; 1; 4; 5] ∧ pending demo_world = 1.
Proof.
  split; [exact (proj1 (host_callbacks_safe true true (λ _, []) demo_world host_demo))|by vm_compute].
Defined.

Lemma watch_exact_witness : count (lit "x") (reported 0 (posted demo_world)) = 2%nat ∧ count (lit "d") (reported 0 (posted demo_world)) = 0%nat.
Proof.
  destruct (pumps demo_world !! 0%nat) as [pu|] eqn:Hpu; [|by vm_compute in Hpu].
  pose proof (watch_exact true true (λ _, []) demo_world 0 pu host_demo Hpu) as [Hc _]. rewrite !Hc.
  assert (pumps demo_world !! 0%nat = Some pu) as Hpu' by exact Hpu. clear -Hpu'. vm_compute in Hpu'. injection Hpu' as <-. by vm_compute.
Defined.

(** An entry with the name of the watched directory takes the place of the
    directory's own time, so that a change of it goes unseen. *)
Example directory_shadowed : demo_snap 1 [(lit "d", Some 5)] = demo_snap 2 [(lit "d", Some 5)].
Proof. by vm_compute. Qed.

(** The callback of a second signal_watch is released by nobody. *)
Example second_listener_lost :
  lost <$> steps true true (λ _, []) [OpSignalWatch [Some 1]; OpSignalWatch [Some 2]; CloseIO] newIOState = Some [2].
Proof. by vm_compute. Qed.

(** ** node:os and the accounting of process (compat/nodejs/nodeos.go)

    The Go runtime's figures are arguments. Numbers are those given to float64,
    which holds every integer below 2^53. *)

Module Sys.

(** runtime.MemStats, as far as it is used. *)
Record MemStats := MkStats { Sys_ : Z; HeapSys : Z; HeapAlloc : Z; HeapIdle : Z }.

Definition defaultTotalMemBytes : Z := Z.shiftl 256 20.

(** The argument is Config.MaxMemoryBytes. *)
Definition totalMemBytes (maxMemoryBytes : Z) : Z := if 0 <? maxMemoryBytes then u64 maxMemoryBytes else defaultTotalMemBytes.

Record cpu := MkCpu { model : bytes; speed : Z; times : list Z }.

(** [n] is runtime.NumCPU. *)
Definition opOSCPUs (n : Z) : list cpu :=
  let n := if n <? 1 then 1 else n in
  replicate (Z.to_nat n) (MkCpu (lit "wasm virtual CPU") 2400 [0; 0; 0; 0; 0]).

(** total and free *)
Definition opOSMemInfo (maxMemoryBytes : Z) (m : MemStats) : Z * Z :=
  let total := totalMemBytes maxMemoryBytes in
  let free := i64 (i64 total - i64 (Sys_ m)) in
  (total, if free <? 0 then Z.quot (i64 total) 8 else free).

Record memUsage := MkUsage { rss : Z; heapTotal : Z; heapUsed : Z; external : Z; arrayBuffers : Z }.

Definition opProcMemUsage (m : MemStats) : memUsage := MkUsage (Sys_ m) (HeapSys m) (HeapAlloc m) (HeapIdle m) 0.

(** user and system time in quarters of a microsecond; [elapsed] is the time since
    the start. *)
Definition cpuTimesMicros (elapsed : Z) : Z * Z :=
  let elapsed := if elapsed <? 0 then 0 else elapsed in (3 * elapsed, elapsed).

Definition opProcCPUUsage (elapsed : Z) : Z * Z := cpuTimesMicros elapsed.

(** The fields that are not zero: the two times, and maxRSS in kilobytes. *)
Definition opProcResUsage (elapsed : Z) (m : MemStats) : (Z * Z) * Z := (cpuTimesMicros elapsed, Sys_ m / 1024).

(** Free memory is never negative nor more than the total. It can be zero: when
    the runtime has mapped just as much as the total, or the total is below eight
    bytes. *)
Lemma meminfo_bounds maxMemoryBytes m : maxMemoryBytes < 2 ^ 63 → 0 <= Sys_ m < 2 ^ 63 →
  let '(total, free) := opOSMemInfo maxMemoryBytes m in
  0 < total ∧ 0 <= free <= total ∧ (free = 0 ↔ Sys_ m = total ∨ total < Sys_ m ∧ total < 8).
Proof.
  intros Hm Hs. unfold opOSMemInfo.
  assert (Ht : 0 < totalMemBytes maxMemoryBytes < 2 ^ 63).
  { unfold totalMemBytes, defaultTotalMemBytes, u64. destruct (Z.ltb_spec 0 maxMemoryBytes); [rewrite (wrapU_small 64) by lia; lia|]. change (Z.shiftl 256 20) with 268435456. lia. }
  set (t := totalMemBytes maxMemoryBytes) in *. unfold i64.
  rewrite (wrapS_small 64 t), (wrapS_small 64 (Sys_ m)), (wrapS_small 64 (t - Sys_ m)) by (change (2 ^ (64 - 1)) with (2 ^ 63); lia).
  destruct (Z.ltb_spec (t - Sys_ m) 0) as [Hlt|Hge].
  - rewrite Z.quot_div_nonneg by lia. pose proof (Z.div_mod t 8 ltac:(lia)) as Hdm. pose proof (Z.mod_pos_bound t 8 ltac:(lia)).
    split_and!; lia.
  - split_and!; lia.
Qed.

(** Times never run back: what a later reading adds is positive. *)
Lemma cpu_times_grow e e' : 0 <= e < e' → (opProcCPUUsage e).1 < (opProcCPUUsage e').1 ∧ (opProcCPUUsage e).2 < (opProcCPUUsage e').2.
Proof.
  intros He. unfold opProcCPUUsage, cpuTimesMicros. rewrite (proj2 (Z.ltb_ge e 0)), (proj2 (Z.ltb_ge e' 0)) by lia. simpl. lia.
Qed.

Lemma cpus_never_empty n : (1 <= length (opOSCPUs n))%nat ∧ (1 <= n → Z.of_nat (length (opOSCPUs n)) = n).
Proof. unfold opOSCPUs. rewrite length_replicate. destruct (Z.ltb_spec n 1); lia. Qed.

End Sys.
