(* ===== verification/Writer.v ===== *)
(** The write actor of compat/nodejs/net.go: connWriter, the goroutine that
    drains a socket's (or a child's stdin's) writes.

    A [world] is the writer's shared state, the goroutine's place in [run], and
    what it has done: the bytes the connection took, the chunks acknowledged,
    the FIN and the Close. Its steps are the locked sections of the source and
    the calls between them; [Do] with a result is a step of [run]. A caller
    sends its wake-up after unlocking, so the signals on their way are counted
    apart. *)

From S2P Require Import Prelude.

Module Writer.

(** connWrite: a chunk and its onDone, by number. *)
Record connWrite := MkWrite { data : bytes; onDone : option Z }.

Record connWriter := MkWriter {
  conn : bool;               (** attached *)
  queue : list connWrite;
  closeReq : bool;
  halfCloseReq : bool;
  halfCloseDone : bool;
  wake : bool                (** a token waits in the channel *)
}.

Definition newConnWriter : connWriter := MkWriter false [] false false false false.

(** signal: the send is dropped when the channel is full. *)
Definition signal (w : connWriter) : connWriter :=
  MkWriter (conn w) (queue w) (closeReq w) (halfCloseReq w) (halfCloseDone w) true.

Definition set_queue (q : list connWrite) (w : connWriter) : connWriter :=
  MkWriter (conn w) q (closeReq w) (halfCloseReq w) (halfCloseDone w) (wake w).

(** The locked part of enqueue: whether the chunk was accepted. *)
Definition enqueue (w : connWriter) (item : connWrite) : bool * connWriter :=
  if closeReq w then (false, w) else (true, set_queue (queue w ++ [item]) w).

Definition attach (w : connWriter) : connWriter :=
  MkWriter true (queue w) (closeReq w) (halfCloseReq w) (halfCloseDone w) (wake w).

Definition requestClose (w : connWriter) : connWriter :=
  MkWriter (conn w) (queue w) true (halfCloseReq w) (halfCloseDone w) (wake w).

Definition requestHalfClose (w : connWriter) : connWriter :=
  MkWriter (conn w) (queue w) (closeReq w) true (halfCloseDone w) (wake w).

Definition writeSideEnded (w : connWriter) : bool := halfCloseReq w || closeReq w.

(** Where [run] stands; [c] and [closing] are its snapshots of conn and
    closeReq. *)
Inductive pc :=
| Unstarted
| Top
| Batch (c : bool) (q : list connWrite) (closing failed : bool)
| CloseConn
| Leftover
| Drain (q : list connWrite)
| Half (c : bool)
| Fin
| Parked
| Exited.

Record world := MkWorld {
  cw : connWriter;
  at_ : pc;
  signals : nat;             (** wake-ups on their way *)
  sent : bytes;              (** what the connection took *)
  fins : nat;                (** CloseWrite calls *)
  closed : bool;             (** conn.Close() *)
  accepted : list connWrite; (** in the order of the enqueue calls *)
  acked : list connWrite;    (** of those, whose onDone ran *)
  refused : list connWrite;  (** acknowledged at once *)
  cut : bool;                (** some Write failed *)
  early : bool               (** run started before the connection was attached *)
}.

Definition start : world := MkWorld newConnWriter Unstarted 0 [] 0 false [] [] [] false false.

Definition with_cw (w : connWriter) (s : world) : world :=
  MkWorld w (at_ s) (signals s) (sent s) (fins s) (closed s) (accepted s) (acked s) (refused s) (cut s) (early s).
Definition goto (p : pc) (s : world) : world :=
  MkWorld (cw s) p (signals s) (sent s) (fins s) (closed s) (accepted s) (acked s) (refused s) (cut s) (early s).
Definition add_signal (s : world) : world :=
  MkWorld (cw s) (at_ s) (S (signals s)) (sent s) (fins s) (closed s) (accepted s) (acked s) (refused s) (cut s) (early s).
Definition ack (i : connWrite) (s : world) : world :=
  MkWorld (cw s) (at_ s) (signals s) (sent s) (fins s) (closed s) (accepted s) (acked s ++ [i]) (refused s) (cut s) (early s).
(** conn.Write; [Some n] is a failure after n bytes. *)
Definition conn_write (r : option nat) (d : bytes) (s : world) : world :=
  MkWorld (cw s) (at_ s) (signals s) (sent s ++ match r with None => d | Some n => take n d end)
    (fins s) (closed s) (accepted s) (acked s) (refused s) (cut s || bool_decide (is_Some r)) (early s).

(** *** The callers *)

Definition do_enqueue (i : connWrite) (s : world) : bool * world :=
  let '(ok, w) := enqueue (cw s) i in
  if ok then
    (true, add_signal (MkWorld w (at_ s) (signals s) (sent s) (fins s) (closed s) (accepted s ++ [i]) (acked s)
                         (refused s) (cut s) (early s)))
  else (false, MkWorld w (at_ s) (signals s) (sent s) (fins s) (closed s) (accepted s) (acked s)
                 (refused s ++ [i]) (cut s) (early s)).

Definition do_attach (s : world) : world := add_signal (with_cw (attach (cw s)) s).
Definition do_requestClose (s : world) : world := add_signal (with_cw (requestClose (cw s)) s).
Definition do_requestHalfClose (s : world) : world := add_signal (with_cw (requestHalfClose (cw s)) s).

(** go w.run(...) *)
Definition do_go (s : world) : world :=
  match at_ s with
  | Unstarted => MkWorld (cw s) Top (signals s) (sent s) (fins s) (closed s) (accepted s) (acked s) (refused s)
                   (cut s) (negb (conn (cw s)))
  | _ => s
  end.

Definition do_signal (s : world) : option world :=
  match signals s with
  | O => None
  | S n => Some (MkWorld (signal (cw s)) (at_ s) n (sent s) (fins s) (closed s) (accepted s) (acked s) (refused s)
                   (cut s) (early s))
  end.

(** *** run *)

(** The next step of run; [r] answers the Write, if the step makes one. [None]
    when it waits for a wake-up, or has not started, or returned. *)
Definition run_step (r : option nat) (s : world) : option world :=
  let w := cw s in
  match at_ s with
  | Unstarted | Exited => None
  | Top =>
      Some (if conn w then goto (Batch true (queue w) (closeReq w) false) (with_cw (set_queue [] w) s)
            else goto (Batch false [] (closeReq w) false) s)
  | Batch c (i :: q) closing false =>
      Some (goto (Batch c q closing (bool_decide (is_Some r))) (ack i (conn_write r (data i) s)))
  | Batch c (i :: q) closing true => Some (goto (Batch c q closing true) (ack i s))
  | Batch c [] closing _ =>
      Some (goto (if closing then if c then CloseConn else Leftover else Half c) s)
  | CloseConn =>
      Some (goto Leftover (MkWorld w (at_ s) (signals s) (sent s) (fins s) true (accepted s) (acked s) (refused s)
                             (cut s) (early s)))
  | Leftover => Some (goto (Drain (queue w)) (with_cw (set_queue [] w) s))
  | Drain (i :: q) => Some (goto (Drain q) (ack i s))
  | Drain [] => Some (goto Exited s)
  | Half c =>
      Some (if halfCloseReq w && negb (halfCloseDone w) && bool_decide (queue w = []) && c then
              goto Fin (with_cw (MkWriter (conn w) (queue w) (closeReq w) (halfCloseReq w) true (wake w)) s)
            else goto Parked s)
  | Fin =>
      Some (goto Parked (MkWorld w (at_ s) (signals s) (sent s) (S (fins s)) (closed s) (accepted s) (acked s)
                           (refused s) (cut s) (early s)))
  | Parked =>
      if wake w then
        Some (goto Top (with_cw (MkWriter (conn w) (queue w) (closeReq w) (halfCloseReq w) (halfCloseDone w) false) s))
      else None
  end.

Inductive label :=
| Enqueue (i : connWrite)
| Attach
| RequestClose
| RequestHalfClose
| Go
| Signal
| Do (r : option nat).

Definition step (l : label) (s : world) : option world :=
  match l with
  | Enqueue i => Some (do_enqueue i s).2
  | Attach => Some (do_attach s)
  | RequestClose => Some (do_requestClose s)
  | RequestHalfClose => Some (do_requestHalfClose s)
  | Go => Some (do_go s)
  | Signal => do_signal s
  | Do r => run_step r s
  end.

Fixpoint steps (ls : list label) (s : world) : option world :=
  match ls with
  | [] => Some s
  | l :: ls' => s' ← step l s; steps ls' s'
  end.

Definition reachable (s : world) : Prop := ∃ ls, steps ls start = Some s.

(** ** Invariants *)

Definition flight (p : pc) : list connWrite :=
  match p with Batch _ q _ _ => q | Drain q => q | _ => [] end.

Definition payload_of (items : list connWrite) : bytes := flat_map data items.

(** A wake-up is in the channel or on its way. *)
Definition tok (s : world) : Prop := wake (cw s) = true ∨ (0 < signals s)%nat.

(** What may have changed since run looked, a wake-up announces. *)
Definition announced (s : world) : Prop :=
  let w := cw s in
  let news (c closing : bool) : Prop :=
    (conn w = true → c = false → tok s) ∧
    (closeReq w = true → closing = false → tok s) ∧
    (conn w = true → queue w ≠ [] → tok s) in
  match at_ s with
  | Batch c _ closing _ => news c closing
  | Half c => news c false
  | Fin => news true false ∧ halfCloseDone w = true
  | Parked => news true false ∧
              (halfCloseReq w = true → halfCloseDone w = false → conn w = true → tok s)
  | _ => True
  end.

(** What run knows at each place. *)
Definition located (s : world) : Prop :=
  let w := cw s in
  match at_ s with
  | Unstarted => fins s = 0%nat ∧ halfCloseDone w = false ∧ sent s = [] ∧ acked s = [] ∧ early s = false ∧ closed s = false
  | Batch c q closing failed =>
      closed s = false ∧ (failed = true → cut s = true) ∧
      (c = false → q = [] ∧ early s = true) ∧
      (closing = true → closeReq w = true ∧ (c = true → queue w = []))
  | CloseConn => closed s = false ∧ closeReq w = true ∧ queue w = []
  | Leftover => closeReq w = true ∧ (early s = false → closed s = true ∧ queue w = [])
  | Drain q => closeReq w = true ∧ queue w = [] ∧ (early s = false → closed s = true ∧ q = [])
  | Exited => closeReq w = true ∧ queue w = [] ∧ (early s = false → closed s = true)
  | Half c => closed s = false ∧ (c = false → early s = true)
  | Fin => closed s = false ∧ fins s = 0%nat
  | Top | Parked => closed s = false
  end.

Record inv (s : world) : Prop := {
  inv_split : accepted s = acked s ++ flight (at_ s) ++ queue (cw s);
  inv_sent : cut s = false → early s = false → sent s = payload_of (acked s);
  inv_conn : at_ s ≠ Unstarted → early s = false → conn (cw s) = true;
  inv_fins : at_ s ≠ Fin → fins s = if halfCloseDone (cw s) then 1%nat else 0%nat;
  inv_located : located s;
  inv_announced : announced s
}.

Lemma start_inv : inv start.
Proof. by split. Qed.

Lemma payload_of_snoc items i : payload_of (items ++ [i]) = payload_of items ++ data i.
Proof. unfold payload_of. rewrite flat_map_app. simpl. by rewrite app_nil_r. Qed.

End Writer.

Import Writer.

Ltac step_cases := repeat (case_match || simplify_eq/= || destruct_and? ).

Lemma enqueue_inv i s : inv s → inv (do_enqueue i s).2.
Proof.
  intros [Hsp Hse Hco Hfi Hlo Han]. unfold do_enqueue, enqueue. destruct (closeReq (cw s)) eqn:Hc; simpl.
  - split; simpl; [done..| |]; unfold located, announced, tok in *; simpl; done.
  - split; simpl; [by rewrite Hsp, !app_assoc|done..| |].
    + unfold located in *. simpl. destruct (at_ s); intuition congruence.
    + unfold announced, tok in *. simpl. destruct (at_ s); try done; intuition lia.
Qed.

Ltac open_inv :=
  intros [Hsp Hse Hco Hfi Hlo Han]; split; simpl;
  unfold located, announced, tok in *; simpl in *.

Lemma attach_inv s : inv s → inv (do_attach s).
Proof. open_inv; [done..| |]; destruct (at_ s); try done; intuition (lia || congruence). Qed.

Lemma requestClose_inv s : inv s → inv (do_requestClose s).
Proof. open_inv; [done..| |]; destruct (at_ s); try done; intuition (lia || congruence). Qed.

Lemma requestHalfClose_inv s : inv s → inv (do_requestHalfClose s).
Proof. open_inv; [done..| |]; destruct (at_ s); try done; intuition (lia || congruence). Qed.

Lemma signal_inv s s' : do_signal s = Some s' → inv s → inv s'.
Proof.
  unfold do_signal. destruct (signals s) eqn:Hs; intros [= <-].
  open_inv; [done..| |]; destruct (at_ s); try done; intuition.
Qed.

Lemma go_inv s : inv s → inv (do_go s).
Proof.
  unfold do_go. destruct (at_ s) eqn:Ha; try done.
  intros [Hsp Hse Hco Hfi Hlo Han]. unfold located in Hlo. rewrite Ha in *.
  destruct Hlo as (Hf & Hd & Hs & Hk & He & Hcl). split; simpl.
  - by rewrite Hsp.
  - intros _ _. by rewrite Hs, Hk.
  - intros _ Hn. by apply negb_false_iff in Hn.
  - by rewrite Hf, Hd.
  - done.
  - done.
Qed.

Ltac place := unfold located, announced, tok in *; simpl in *; intuition (lia || congruence).

Lemma run_step_inv r s s' : run_step r s = Some s' → inv s → inv s'.
Proof.
  intros Hr [Hsp Hse Hco Hfi Hlo Han]. unfold run_step in Hr. unfold located in Hlo. unfold announced in Han.
  destruct (at_ s) as [| |c [|i q] closing failed| | |[|i q]|c| | |] eqn:Ha; simplify_eq.
  - destruct (conn (cw s)) eqn:Hc; (split; simpl; [by rewrite Hsp, ?app_nil_r|done|intros; by rewrite ?Hc, ?Hco|
      intros _; by apply Hfi| |]). all: destruct (early s) eqn:He; try specialize (Hco ltac:(done) ltac:(done)); try solve [place].
  - destruct closing, c; (split; simpl; [by rewrite Hsp, ?app_nil_r|done|by intros; apply Hco|
      intros _; by apply Hfi| |]). all: try solve [place].
  - destruct failed; simplify_eq; (split; simpl; [by rewrite Hsp, <-app_assoc| |by intros; apply Hco|
      intros _; by apply Hfi| |]). all: try solve [place].
    + rewrite orb_false_iff, bool_decide_eq_false. intros [Hcu Hr] He.
      rewrite payload_of_snoc, Hse by done. destruct r; [by destruct Hr|done].
    + unfold located. simpl. destruct r; simpl; rewrite ?orb_true_r; intuition congruence.
  - split; simpl; [by rewrite Hsp|done|by intros; apply Hco|intros _; by apply Hfi|place|place].
  - split; simpl; [by rewrite Hsp, app_nil_r|done|by intros; apply Hco|intros _; by apply Hfi|place|place].
  - split; simpl; [by rewrite Hsp|done|by intros; apply Hco|intros _; by apply Hfi|place|place].
  - split; simpl; [by rewrite Hsp, <-app_assoc| |by intros; apply Hco|intros _; by apply Hfi|place|place].
    intros Hcu He. destruct Hlo as (_ & _ & Hq). by destruct Hq as [_ [=]].
  - destruct (_ && _ && _ && _) eqn:Hd.
    + apply andb_true_iff in Hd as [[[Hh Hn]%andb_true_iff Hq]%andb_true_iff ->].
      apply negb_true_iff in Hn. apply bool_decide_eq_true in Hq.
      rewrite Hn in Hfi. specialize (Hfi ltac:(done)). split; simpl; [by rewrite Hsp|done|by intros; apply Hco|done|place|place].
    + split; simpl; [by rewrite Hsp|done|by intros; apply Hco|intros _; by apply Hfi|place|].
      unfold announced, tok in *; simpl. destruct Han as (H1 & H2 & H3). split_and!; [done|auto|auto|].
      intros Hh Hn Hc. destruct c; [|by apply H1]. rewrite Hh, Hn in Hd. simpl in Hd. rewrite andb_true_r in Hd.
      apply bool_decide_eq_false in Hd. by apply H3.
  - destruct Han as [Hnews Hd]. split; simpl; [by rewrite Hsp|done|by intros; apply Hco| |place|].
    + intros _. destruct Hlo as [_ ->]. by rewrite Hd.
    + split; [exact Hnews|]. simpl. by rewrite Hd.
  - destruct (wake (cw s)); simplify_eq.
    split; simpl; [by rewrite Hsp|done|by intros; apply Hco|intros _; by apply Hfi|place|done].
Qed.

Lemma step_inv l s s' : step l s = Some s' → inv s → inv s'.
Proof.
  destruct l as [i| | | | | |r]; simpl; intros Hs Hi; simplify_eq.
  - by apply enqueue_inv.
  - by apply attach_inv.
  - by apply requestClose_inv.
  - by apply requestHalfClose_inv.
  - by apply go_inv.
  - by eapply signal_inv.
  - by eapply run_step_inv.
Qed.

Lemma steps_inv ls s s' : steps ls s = Some s' → inv s → inv s'.
Proof.
  revert s. induction ls as [|l ls IH]; simpl; intros s Hs Hi; simplify_eq; [done|].
  destruct (step l s) as [s1|] eqn:E; simplify_eq/=. eapply IH; [done|]. by eapply step_inv.
Qed.

Lemma writer_inv s : reachable s → inv s.
Proof. intros [ls Hs]. eapply steps_inv; [done|apply start_inv]. Qed.

(** ** Order *)

(** C11: Chunks are acknowledged in the order they were accepted, each at most
    once, and a chunk is refused only once the writer is closing. As long as
    no Write fails, the connection has taken exactly the acknowledged chunks,
    whole and in order. The FIN of a half-close is sent at most once, only on
    request, and only when everything accepted so far has been acknowledged;
    the connection is closed only on request, after the last Write. *)
Theorem writer_in_order (s : Writer.world) (Hr : reachable s) :
  (∃ rest, accepted s = acked s ++ rest) ∧
  (cut s = false → early s = false → sent s = payload_of (acked s)) ∧
  (fins s <= 1)%nat ∧
  (∀ r s', run_step r s = Some s' → at_ s' = Fin →
     halfCloseReq (cw s) = true ∧ acked s = accepted s ∧ fins s = 0%nat) ∧
  (∀ i, (do_enqueue i s).1 = false ↔ closeReq (cw s) = true) ∧
  (closed s = true → closeReq (cw s) = true ∧
     ∀ l s', step l s = Some s' → sent s' = sent s ∧ closed s' = true).
Proof.
  destruct (writer_inv s Hr) as [Hsp Hse Hco Hfi Hlo Han]. split_and!.
  - by eexists.
  - done.
  - destruct (at_ s) eqn:Ha; try (rewrite Hfi by done; by destruct (halfCloseDone _); lia).
    unfold located in Hlo. rewrite Ha in Hlo. lia.
  - intros r s' Hs Hf. unfold run_step in Hs. destruct (at_ s) as [| |c [|i q] closing failed| | |[|i q]|c| | |] eqn:Ha;
      simplify_eq; try done; [by destruct (conn (cw s)); simplify_eq/=|by destruct closing, c|by destruct failed; simplify_eq/=|..].
    + destruct (_ && _ && _ && _) eqn:Hd; [|done].
      apply andb_true_iff in Hd as [[[Hh Hn]%andb_true_iff Hq]%andb_true_iff _].
      apply bool_decide_eq_true in Hq. apply negb_true_iff in Hn.
      rewrite Hsp, Hq, Hfi, Hn by done. by rewrite app_nil_r.
    + destruct (wake (cw s)); simplify_eq/=.
  - intros i. unfold do_enqueue, enqueue. by destruct (closeReq (cw s)).
  - intros Hc. unfold located in Hlo. split.
    + destruct (at_ s); intuition congruence.
    + intros l s' Hs. destruct l as [i| | | | | |r]; simpl in Hs; simplify_eq; try done.
      * unfold do_enqueue, enqueue. by destruct (closeReq (cw s)).
      * unfold do_go. destruct (at_ s); try done.
      * unfold do_signal in Hs. destruct (signals s); by simplify_eq.
      * unfold run_step in Hs. destruct (at_ s) as [| |c q closing failed| | |[|i q]|c| | |] eqn:Ha; simplify_eq/=; try done;
          try (exfalso; intuition congruence).
Qed.

(** ** Progress *)

Definition internal (l : label) : bool := match l with Signal | Do _ => true | _ => false end.

Definition stuck (s : world) : Prop := ∀ l, internal l = true → step l s = None.

(** A bound on the steps run and the wake-ups can take without a caller. *)
Definition rank (p : pc) : nat :=
  match p with
  | Top => 8
  | Batch _ q _ _ => 7 + length q
  | CloseConn => 6
  | Leftover => 5
  | Drain q => 4 + length q
  | Half _ => 2
  | Fin => 1
  | Unstarted | Parked | Exited => 0
  end.

Definition weight (s : world) : nat :=
  20 * signals s + (if wake (cw s) then 10 else 0) + 2 * length (queue (cw s)) + rank (at_ s).

Lemma internal_weight l s s' : internal l = true → step l s = Some s' → (weight s' < weight s)%nat.
Proof.
  destruct l as [i| | | | | |r]; simpl; intros Hl Hs; simplify_eq.
  - unfold do_signal in Hs. destruct (signals s) eqn:E; simplify_eq. unfold weight. simpl. rewrite E.
    destruct (wake (cw s)); lia.
  - unfold run_step in Hs. unfold weight.
    destruct (at_ s) as [| |c [|i q] closing failed| | |[|i q]|c| | |] eqn:Ha; simplify_eq.
    + destruct (conn (cw s)); simpl; lia.
    + destruct closing, c; simpl; lia.
    + destruct failed; simplify_eq; simpl; lia.
    + simpl. lia.
    + simpl. lia.
    + simpl. lia.
    + simpl. lia.
    + destruct (_ && _); simpl; lia.
    + simpl. lia.
    + destruct (wake (cw s)) eqn:E; simplify_eq. simpl. lia.
Qed.

Lemma stuck_place s : stuck s → signals s = 0%nat ∧ (at_ s = Unstarted ∨ at_ s = Exited ∨ (at_ s = Parked ∧ wake (cw s) = false)).
Proof.
  intros Hs. pose proof (Hs Signal eq_refl) as H1. pose proof (Hs (Do None) eq_refl) as H2.
  simpl in *. unfold do_signal in H1. destruct (signals s); [|done]. split; [done|].
  unfold run_step in H2. destruct (at_ s) as [| |c [|i q] closing [|]| | |[|i q]|c| | |]; auto; try done.
  destruct (wake (cw s)); auto. done.
Qed.

Lemma started_stays l s s' :
  step l s = Some s' → at_ s ≠ Unstarted → at_ s' ≠ Unstarted ∧ early s' = early s.
Proof.
  destruct l as [i| | | | | |r]; simpl; intros Hs Ha; simplify_eq; try done.
  - unfold do_enqueue, enqueue. by destruct (closeReq (cw s)).
  - unfold do_go. destruct (at_ s) eqn:E; try done; by rewrite E.
  - unfold do_signal in Hs. destruct (signals s); by simplify_eq.
  - unfold run_step in Hs. destruct (at_ s) as [| |c [|i q] closing [|]| | |[|i q]|c| | |]; simplify_eq; try done.
    + by destruct (conn (cw s)).
    + by destruct closing, c.
    + by destruct closing, c.
    + by destruct (_ && _).
    + destruct (wake (cw s)); by simplify_eq.
Qed.

Lemma internal_acks l s s' :
  internal l = true → step l s = Some s' → accepted s' = accepted s ∧ ∃ k, acked s' = acked s ++ k.
Proof.
  destruct l as [i| | | | | |r]; simpl; intros Hl Hs; simplify_eq.
  - unfold do_signal in Hs. destruct (signals s); simplify_eq. split; [done|]. exists []. by rewrite app_nil_r.
  - unfold run_step in Hs. destruct (at_ s) as [| |c [|i q] closing [|]| | |[|i q]|c| | |]; simplify_eq;
      try (split; [done|]; exists []; by rewrite app_nil_r); try (split; [done|]; by exists [i]).
    + destruct (conn (cw s)); (split; [done|]; exists []; by rewrite app_nil_r).
    + destruct (_ && _); (split; [done|]; exists []; by rewrite app_nil_r).
    + destruct (wake (cw s)); simplify_eq. split; [done|]. exists []. by rewrite app_nil_r.
Qed.

(** The callbacks of chunks not yet acknowledged. *)
Definition waiting_cbs (s : world) : list Z := omap onDone (drop (length (acked s)) (accepted s)).

Lemma waiting_same s s' : accepted s' = accepted s → acked s' = acked s → waiting_cbs s' = waiting_cbs s.
Proof. unfold waiting_cbs. by intros -> ->. Qed.

Lemma waiting_enqueue i s : inv s → (do_enqueue i s).1 = true →
  waiting_cbs (do_enqueue i s).2 = waiting_cbs s ++ option_list (onDone i).
Proof.
  intros Hi. unfold do_enqueue, enqueue, waiting_cbs. destruct (closeReq (cw s)); simpl; [done|]. intros _.
  rewrite drop_app_le, omap_app.
  - reflexivity.
  - rewrite (inv_split s Hi), length_app. lia.
Qed.

Lemma waiting_internal l s s' :
  inv s → internal l = true → step l s = Some s' →
  waiting_cbs s = omap onDone (drop (length (acked s)) (acked s')) ++ waiting_cbs s'.
Proof.
  intros Hi Hl Hs. destruct (internal_acks _ _ _ Hl Hs) as [Ha [k Hk]].
  pose proof (inv_split s' (step_inv _ _ _ Hs Hi)) as Hsp.
  unfold waiting_cbs. rewrite <-Ha, Hsp, Hk. rewrite (drop_app_length (acked s ++ k)).
  rewrite <-app_assoc, !drop_app_length. by rewrite omap_app.
Qed.

(** C12: The writer never loses a wake-up and always settles. However run, its
    wake-ups and the answers of Write interleave, the steps they can take
    without a further call are bounded; and when no more is possible, a writer
    that was started with its connection attached has acknowledged every chunk
    it accepted and, if no Write failed, written them all. If it was told to
    close it has closed the connection and returned; otherwise it waits, and a
    requested half-close has sent its FIN. *)
Theorem writer_settles (s : Writer.world) (ls : list Writer.label) (s' : Writer.world)
    (Hr : reachable s) (Hstarted : at_ s ≠ Unstarted) (Hattached : early s = false)
    (Hint : forallb internal ls = true) (Hs : steps ls s = Some s') :
  (length ls <= weight s)%nat ∧
  (stuck s' →
     acked s' = accepted s' ∧ (cut s' = false → sent s' = payload_of (accepted s')) ∧
     if closeReq (cw s') then at_ s' = Exited ∧ closed s' = true
     else at_ s' = Parked ∧ (halfCloseReq (cw s') = true → fins s' = 1%nat)).
Proof.
  assert (Hi' : inv s') by (eapply steps_inv; [done|by apply writer_inv]).
  assert (Hkeep : (length ls + weight s' <= weight s)%nat ∧ at_ s' ≠ Unstarted ∧ early s' = false).
  { clear Hr Hi'. revert s Hstarted Hattached Hs. induction ls as [|l ls IH]; simpl in *; intros s Hst Hat Hs; simplify_eq.
    - split_and!; [lia|done|done].
    - apply andb_true_iff in Hint as [Hl Hint]. destruct (step l s) as [s1|] eqn:E; simplify_eq/=.
      destruct (started_stays _ _ _ E Hst) as [Hst1 He1].
      destruct (IH Hint s1 Hst1 ltac:(congruence) Hs) as (? & ? & ?).
      pose proof (internal_weight _ _ _ Hl E). split_and!; [lia|done|done]. }
  destruct Hkeep as (Hlen & Hst' & He'). split; [lia|]. intros Hstuck.
  destruct (stuck_place _ Hstuck) as [Hsig [?|[Ha|[Ha Hw]]]]; [done| |];
    destruct Hi' as [Hsp Hse Hco Hfi Hlo Han]; specialize (Hco Hst' He');
    unfold located, announced, tok in Hlo, Han; rewrite Ha in Hlo, Han, Hsp; simpl in Hsp.
  - destruct Hlo as (Hc & Hq & Hcl). rewrite Hq, app_nil_r in Hsp. rewrite Hc, Hsp. auto.
  - rewrite Hsig, Hw in Han. destruct Han as ((H1 & H2 & H3) & H4).
    assert (Hno : ¬ (false = true ∨ (0 < 0)%nat)) by (intros [?|?]; [done|lia]).
    destruct (closeReq (cw s')); [by exfalso; apply Hno, H2|].
    assert (Hq : queue (cw s') = []).
    { destruct (queue (cw s')) eqn:E; [done|]. exfalso. by apply Hno, H3. }
    rewrite Hq, app_nil_r in Hsp. rewrite Hsp. split_and!; [done|auto|done|].
    intros Hh. rewrite Hfi by congruence. destruct (halfCloseDone (cw s')); [done|].
    exfalso. by apply Hno, H4.
Qed.

(** Two chunks and a half-close: the FIN follows both. *)
Abbreviation hello := (MkWrite (lit "hello ") (Some 1)).
Abbreviation world_ := (MkWrite (lit "world") (Some 2)).
Abbreviation half_closed :=
  [Enqueue hello; Signal; Attach; Go; Enqueue world_; RequestHalfClose].
Abbreviation settle := [Signal; Signal; Signal; Do None; Do None; Do None; Do None; Do None; Do None; Do None; Do None;
  Do None; Do None].

Lemma writer_in_order_witness :
  let s := default start (steps (half_closed ++ settle) start) in
  at_ s = Parked ∧ fins s = 1%nat ∧ sent s = lit "hello world" ∧ sent s = payload_of (acked s).
Proof.
  intros s. split; [vm_compute; reflexivity|]. split; [vm_compute; reflexivity|]. split; [vm_compute; reflexivity|].
  destruct (writer_in_order s) as (_ & H & _).
  - exists (half_closed ++ settle). vm_compute. reflexivity.
  - apply H; vm_compute; reflexivity.
Defined.

Lemma writer_settles_witness :
  let s := default start (steps half_closed start) in
  let s' := default start (steps settle s) in
  acked s' = accepted s' ∧ sent s' = payload_of (accepted s') ∧ fins s' = 1%nat.
Proof.
  intros s s'. destruct (writer_settles s settle s') as [_ H].
  - exists half_closed. vm_compute. reflexivity.
  - vm_compute. discriminate.
  - vm_compute. reflexivity.
  - vm_compute. reflexivity.
  - vm_compute. reflexivity.
  - destruct H as (Ha & Hs & Hf).
    + intros [| | | | | |r]; try discriminate; intros _; vm_compute; reflexivity.
    + split; [exact Ha|]. split; [apply Hs; vm_compute; reflexivity|].
      change (closeReq (cw s')) with false in Hf. apply Hf. vm_compute. reflexivity.
Defined.
