(* ===== verification/NetConn.v ===== *)
(** TCP sockets and servers of compat/nodejs/net.go: netState, the net_*
    operations, and the goroutines they start (dial, accept, the read pump of
    pumpConn and, from Writer.v, the write actor).

    A [world] is netState with the loop's pending count and posted callbacks,
    the goroutines, the write actors and the read channels, and a log of the
    guest callbacks called and released. A step is an operation called on the
    loop, a locked section of a goroutine with the calls up to the next one,
    or the loop running the oldest posted callback. The peer and the dialer
    answer through the labels. A socket and its connection go by one id. *)

From S2P Require Import Prelude Counting Writer.

Module Net.

(** The callbacks of a socket: handles, [None] where the guest passed no
    function. *)
Record callbacks := MkCallbacks { onData : option Z; onEnd : option Z; onError : option Z }.

Definition handles (c : callbacks) : list Z :=
  option_list (onData c) ++ option_list (onEnd c) ++ option_list (onError c).

(** A goroutine and how far it is. *)
Inductive goroutine :=
| Dialing (id : Z) (c : callbacks) (onConnect : option Z)   (** resolving and dialing *)
| Opened (id : Z) (c : callbacks) (onConnect : option Z)    (** connected and registered *)
| Starting (id : Z) (c : callbacks)                         (** at the top of pumpConn *)
| Waiting (id : Z) (ch : nat) (c : callbacks)               (** <-resume *)
| Reading (id : Z) (ch : nat) (c : callbacks)               (** conn.Read *)
| Accepting (lid : Z) (onConn : option Z).

Definition go_handles (g : goroutine) : list Z :=
  match g with
  | Dialing _ c k | Opened _ c k => handles c ++ option_list k
  | Starting _ c | Waiting _ _ c | Reading _ _ c => handles c
  | Accepting _ k => option_list k
  end.

(** The socket a goroutine reads or will read. *)
Definition reads (g : goroutine) : option Z :=
  match g with
  | Dialing id _ _ | Opened id _ _ | Starting id _ | Waiting id _ _ | Reading id _ _ => Some id
  | Accepting _ _ => None
  end.

(** A function posted to the loop. *)
Inductive post :=
| ConnectFailed (c : callbacks) (onConnect : option Z)
| Abandoned (c : callbacks) (onConnect : option Z)
| Connected (onConnect : Z)
| Data (onData : option Z) (chunk : bytes)
| End_ (live eof : bool) (c : callbacks)
| Accepted (onConn : option Z) (cid : Z)
| AcceptEnded (onConn : option Z)
| Written (cb : Z).

(** The handles it releases, in order. *)
Definition post_frees (p : post) : list Z :=
  match p with
  | ConnectFailed c k | Abandoned c k => handles c ++ option_list k
  | Connected k => [k]
  | End_ _ _ c => handles c
  | AcceptEnded k => option_list k
  | Written k => [k]
  | Data _ _ | Accepted _ _ => []
  end.

(** The callbacks it calls before that. *)
Definition post_calls (p : post) : list Z :=
  match p with
  | ConnectFailed c _ => option_list (onError c)
  | Abandoned _ _ | AcceptEnded _ => []
  | Connected k | Written k => [k]
  | Data k _ | Accepted k _ => option_list k
  | End_ live eof c =>
      if live then (if eof then [] else option_list (onError c)) ++ option_list (onEnd c) else []
  end.

(** DonePending calls it makes. *)
Definition post_done (p : post) : nat :=
  match p with ConnectFailed _ _ | Abandoned _ _ => 1 | _ => 0 end.

Inductive event := Call (h : Z) | Release (h : Z).

Record world := MkWorld {
  nextID : Z;
  conns : gset Z;
  writers : gset Z;                   (** ids with an entry in st.writers *)
  listeners : gset Z;
  readResume : gmap Z nat;
  readEnded : gset Z;
  pending : Z;                        (** the loop's AddPending count *)
  posts : list post;                  (** oldest first *)
  gos : list goroutine;
  actors : gmap Z Writer.world;       (** every connWriter ever made *)
  chans : list bool;                  (** a token in the channel *)
  log : list event
}.

Definition newNetState : world := MkWorld 0 ∅ ∅ ∅ ∅ ∅ 0 [] [] ∅ [] [].

Definition with_tables (cs ws : gset Z) (rr : gmap Z nat) (re : gset Z) (s : world) : world :=
  MkWorld (nextID s) cs ws (listeners s) rr re (pending s) (posts s) (gos s) (actors s) (chans s) (log s).
Definition with_listeners (ls : gset Z) (s : world) : world :=
  MkWorld (nextID s) (conns s) (writers s) ls (readResume s) (readEnded s) (pending s) (posts s) (gos s) (actors s)
    (chans s) (log s).
Definition with_id (n : Z) (s : world) : world :=
  MkWorld n (conns s) (writers s) (listeners s) (readResume s) (readEnded s) (pending s) (posts s) (gos s) (actors s)
    (chans s) (log s).
Definition add_pending (n : Z) (s : world) : world :=
  MkWorld (nextID s) (conns s) (writers s) (listeners s) (readResume s) (readEnded s) (pending s + n) (posts s) (gos s)
    (actors s) (chans s) (log s).
Definition with_posts (ps : list post) (s : world) : world :=
  MkWorld (nextID s) (conns s) (writers s) (listeners s) (readResume s) (readEnded s) (pending s) ps (gos s)
    (actors s) (chans s) (log s).
Definition with_gos (gs : list goroutine) (s : world) : world :=
  MkWorld (nextID s) (conns s) (writers s) (listeners s) (readResume s) (readEnded s) (pending s) (posts s) gs
    (actors s) (chans s) (log s).
Definition with_actors (a : gmap Z Writer.world) (s : world) : world :=
  MkWorld (nextID s) (conns s) (writers s) (listeners s) (readResume s) (readEnded s) (pending s) (posts s) (gos s) a
    (chans s) (log s).
Definition with_chans (c : list bool) (s : world) : world :=
  MkWorld (nextID s) (conns s) (writers s) (listeners s) (readResume s) (readEnded s) (pending s) (posts s) (gos s)
    (actors s) c (log s).
Definition add_log (es : list event) (s : world) : world :=
  MkWorld (nextID s) (conns s) (writers s) (listeners s) (readResume s) (readEnded s) (pending s) (posts s) (gos s)
    (actors s) (chans s) (log s ++ es).

Definition Post (p : post) (s : world) : world := with_posts (posts s ++ [p]) s.
Definition AddPending : world → world := add_pending 1.
Definition DonePending : world → world := add_pending (-1).
Definition freeObjects (hs : list Z) (s : world) : world := add_log (map Release hs) s.
Definition spawn (g : goroutine) (s : world) : world := with_gos (gos s ++ [g]) s.
(** What becomes of goroutine number [i]. *)
Definition become (i : nat) (g : goroutine) (s : world) : world := with_gos (<[i := g]> (gos s)) s.
Definition return_ (i : nat) (s : world) : world := with_gos (delete i (gos s)) s.
Definition on_actor (id : Z) (f : Writer.world → Writer.world) (s : world) : world :=
  with_actors (alter f id (actors s)) s.
Definition new_actor (id : Z) (s : world) : world := with_actors (<[id := Writer.start]> (actors s)) s.

(** armRead: a new channel with a token in it. *)
Definition armRead (id : Z) (s : world) : nat * world :=
  let ch := length (chans s) in
  (ch, with_tables (conns s) (writers s) (<[id := ch]> (readResume s)) (readEnded s)
         (with_chans (chans s ++ [true]) s)).

Definition poke (ch : nat) (s : world) : world := with_chans (<[ch := true]> (chans s)) s.

Definition pokeRead (id : Z) (s : world) : world :=
  match readResume s !! id with Some ch => poke ch s | None => s end.

(** fireNetCallback *)
Definition fireNetCallback (cb : option Z) (s : world) : world :=
  match cb with Some k => Post (Written k) s | None => s end.

(** *** Operations of the guest *)

Definition opNetConnect (c : callbacks) (onConnect : option Z) (s : world) : Z * world :=
  let id := nextID s + 1 in
  let s1 := with_tables (conns s) ({[id]} ∪ writers s) (readResume s) (readEnded s) (new_actor id (with_id id s)) in
  (id, spawn (Dialing id c onConnect) (AddPending s1)).

(** [item] is the chunk, [None] when it is no byte source. *)
Definition opNetWrite (id : Z) (item : option bytes) (cb : option Z) (s : world) : world :=
  if bool_decide (id ∈ writers s) then
    match item with
    | None => fireNetCallback cb s
    | Some d =>
        match actors s !! id with
        | None => s
        | Some w =>
            let '(ok, w') := Writer.do_enqueue (Writer.MkWrite d cb) w in
            let s1 := with_actors (<[id := w']> (actors s)) s in
            if ok then s1 else fireNetCallback cb s1
        end
    end
  else fireNetCallback cb s.

Definition opNetEnd (id : Z) (s : world) : world :=
  if bool_decide (id ∈ writers s) then
    if bool_decide (id ∈ readEnded s) then
      DonePending (on_actor id Writer.do_requestClose
        (with_tables (conns s ∖ {[id]}) (writers s ∖ {[id]}) (readResume s) (readEnded s ∖ {[id]}) s))
    else on_actor id Writer.do_requestHalfClose s
  else s.

Definition opNetClose (id : Z) (s : world) : world :=
  let s1 := with_tables (conns s ∖ {[id]}) (writers s ∖ {[id]}) (readResume s) (readEnded s ∖ {[id]}) s in
  let s2 := if bool_decide (id ∈ writers s) then on_actor id Writer.do_requestClose s1 else s1 in
  let s3 := if bool_decide (id ∈ readEnded s) then DonePending s2 else s2 in
  pokeRead id s3.

(** [ok]: Config.Listen allows it and net.Listen succeeds. *)
Definition opNetListen (ok : bool) (onConn : option Z) (s : world) : world :=
  if ok then
    let id := nextID s + 1 in
    spawn (Accepting id onConn) (AddPending (with_listeners ({[id]} ∪ listeners s) (with_id id s)))
  else freeObjects (option_list onConn) s.

Definition opNetCloseServer (id : Z) (s : world) : world := with_listeners (listeners s ∖ {[id]}) s.

Definition opNetAttach (id : Z) (c : callbacks) (s : world) : world :=
  if bool_decide (id ∈ conns s) then spawn (Starting id c) (AddPending s)
  else freeObjects (handles c) s.

Definition closeNet (s : world) : world :=
  let s1 := add_pending (- Z.of_nat (size (readEnded s)))
              (with_listeners ∅ (with_tables ∅ ∅ ∅ ∅ s)) in
  let s2 := foldr (fun e => poke e.2) s1 (map_to_list (readResume s)) in
  foldr (fun id => on_actor id Writer.do_requestClose) s2 (elements (writers s)).

(** *** Goroutines *)

(** The dial of goroutine [i] has ended. *)
Definition dial_done (i : nat) (ok : bool) (s : world) : option world :=
  match gos s !! i with
  | Some (Dialing id c k) =>
      Some (if ok then
              if bool_decide (id ∈ writers s) then
                become i (Opened id c k) (with_tables ({[id]} ∪ conns s) (writers s) (readResume s) (readEnded s) s)
              else Post (Abandoned c k) (return_ i (on_actor id Writer.do_go s))
            else
              Post (ConnectFailed c k) (return_ i
                (on_actor id (fun w => Writer.do_go (Writer.do_requestClose w))
                   (with_tables (conns s) (writers s ∖ {[id]}) (readResume s) (readEnded s) s))))
  | _ => None
  end.

(** From the registered connection to pumpConn. *)
Definition open_done (i : nat) (s : world) : option world :=
  match gos s !! i with
  | Some (Opened id c k) =>
      let s1 := become i (Starting id c) (on_actor id (fun w => Writer.do_go (Writer.do_attach w)) s) in
      Some (match k with Some k => Post (Connected k) s1 | None => s1 end)
  | _ => None
  end.

Definition pump_arm (i : nat) (s : world) : option world :=
  match gos s !! i with
  | Some (Starting id c) => let '(ch, s1) := armRead id s in Some (become i (Waiting id ch c) s1)
  | _ => None
  end.

Definition pump_resume (i : nat) (s : world) : option world :=
  match gos s !! i with
  | Some (Waiting id ch c) =>
      match chans s !! ch with
      | Some true => Some (become i (Reading id ch c) (with_chans (<[ch := false]> (chans s)) s))
      | _ => None
      end
  | _ => None
  end.

(** The end of a read that failed; [eof] when it is io.EOF. *)
Definition pump_end (i : nat) (id : Z) (c : callbacks) (eof : bool) (s : world) : world :=
  let live := bool_decide (id ∈ conns s) in
  let open := match actors s !! id with
              | Some w => bool_decide (id ∈ writers s) && negb (Writer.writeSideEnded (Writer.cw w))
              | None => false
              end in
  if eof && live && open then
    Post (End_ live eof c) (return_ i
      (with_tables (conns s) (writers s) (delete id (readResume s)) ({[id]} ∪ readEnded s) s))
  else
    let s1 := with_tables (conns s ∖ {[id]}) (writers s ∖ {[id]}) (delete id (readResume s)) (readEnded s ∖ {[id]}) s in
    let s2 := if bool_decide (id ∈ writers s) then on_actor id Writer.do_requestClose s1 else s1 in
    DonePending (Post (End_ live eof c) (return_ i s2)).

(** conn.Read returned [chunk], and an error when [e] is [Some]. *)
Definition pump_read (i : nat) (chunk : bytes) (e : option bool) (s : world) : option world :=
  match gos s !! i with
  | Some (Reading id ch c) =>
      let s1 := if bool_decide (chunk = []) then s else Post (Data (onData c) chunk) s in
      Some (match e with
            | None => become i (Waiting id ch c) s1
            | Some eof => pump_end i id c eof s1
            end)
  | _ => None
  end.

(** Accept returned a connection, or an error. *)
Definition accept_done (i : nat) (ok : bool) (s : world) : option world :=
  match gos s !! i with
  | Some (Accepting lid k) =>
      Some (if ok then
              let cid := nextID s + 1 in
              let s1 := with_tables ({[cid]} ∪ conns s) ({[cid]} ∪ writers s) (readResume s) (readEnded s)
                          (new_actor cid (with_id cid s)) in
              Post (Accepted k cid) (on_actor cid (fun w => Writer.do_go (Writer.do_attach w)) s1)
            else DonePending (Post (AcceptEnded k) (return_ i s)))
  | _ => None
  end.

(** The callbacks of the chunks a step of the actor acknowledged. *)
Definition newly_acked (w w' : Writer.world) : list Z :=
  omap Writer.onDone (drop (length (Writer.acked w)) (Writer.acked w')).

(** A step of the write actor, or a wake-up reaching it. *)
Definition actor_step (id : Z) (l : Writer.label) (s : world) : option world :=
  if Writer.internal l then
    w ← actors s !! id;
    w' ← Writer.step l w;
    Some (with_posts (posts s ++ map Written (newly_acked w w')) (with_actors (<[id := w']> (actors s)) s))
  else None.

(** The loop runs the oldest posted function. *)
Definition run_post (s : world) : option world :=
  match posts s with
  | [] => None
  | p :: ps =>
      Some (add_pending (- Z.of_nat (post_done p))
              (add_log (map Call (post_calls p) ++ map Release (post_frees p)) (with_posts ps s)))
  end.

Inductive label :=
| OpConnect (c : callbacks) (onConnect : option Z)
| OpWrite (id : Z) (item : option bytes) (cb : option Z)
| OpReadResume (id : Z)
| OpEnd (id : Z)
| OpClose (id : Z)
| OpListen (ok : bool) (onConn : option Z)
| OpCloseServer (id : Z)
| OpAttach (id : Z) (c : callbacks)
| CloseNet
| DialDone (i : nat) (ok : bool)
| OpenDone (i : nat)
| PumpArm (i : nat)
| PumpResume (i : nat)
| PumpRead (i : nat) (chunk : bytes) (e : option bool)
| AcceptDone (i : nat) (ok : bool)
| ActorStep (id : Z) (l : Writer.label)
| RunPost.

Definition step (l : label) (s : world) : option world :=
  match l with
  | OpConnect c k => Some (opNetConnect c k s).2
  | OpWrite id item cb => Some (opNetWrite id item cb s)
  | OpReadResume id => Some (pokeRead id s)
  | OpEnd id => Some (opNetEnd id s)
  | OpClose id => Some (opNetClose id s)
  | OpListen ok k => Some (opNetListen ok k s)
  | OpCloseServer id => Some (opNetCloseServer id s)
  | OpAttach id c => Some (opNetAttach id c s)
  | CloseNet => Some (closeNet s)
  | DialDone i ok => dial_done i ok s
  | OpenDone i => open_done i s
  | PumpArm i => pump_arm i s
  | PumpResume i => pump_resume i s
  | PumpRead i chunk e => pump_read i chunk e s
  | AcceptDone i ok => accept_done i ok s
  | ActorStep id l => actor_step id l s
  | RunPost => run_post s
  end.

End Net.

Import Net.

(** ** Histories *)

(** The callback handles an operation is given. *)
Definition takes (l : label) : list Z :=
  match l with
  | OpConnect c k => handles c ++ option_list k
  | OpWrite _ _ cb => option_list cb
  | OpListen _ k => option_list k
  | OpAttach _ c => handles c
  | _ => []
  end.

(** The sockets that have had a read pump asked for. *)
Definition attaches (l : label) (s : world) : gset Z :=
  match l with
  | OpConnect _ _ => {[ nextID s + 1 ]}
  | OpAttach id _ => if bool_decide (id ∈ conns s) then {[ id ]} else ∅
  | _ => ∅
  end.

(** What node:net's JavaScript keeps to: every operation is given fresh
    handles, and net_attach is called once for a socket of a server and never
    for one of a client. *)
Definition disciplined (att : gset Z) (issued : list Z) (l : label) : Prop :=
  NoDup (takes l) ∧ (∀ h, h ∈ takes l → h ∉ issued) ∧
  match l with OpAttach id _ => id ∉ att | _ => True end.

Inductive reach : gset Z → list Z → world → Prop :=
| reach_init : reach ∅ [] newNetState
| reach_step att issued s l s' :
    reach att issued s → disciplined att issued l → step l s = Some s' →
    reach (attaches l s ∪ att) (takes l ++ issued) s'.

(** ** The pending count *)

Definition reading (id : Z) (g : goroutine) : nat := if decide (reads g = Some id) then 1 else 0.
Definition holds (id : Z) (X : gset Z) : nat := if decide (id ∈ X) then 1 else 0.

(** Who keeps the event loop alive: goroutines, half-open sockets, and posted
    functions that will release one. *)
Definition keepers (s : world) : nat :=
  length (gos s) + size (readEnded s) + sum_list_with post_done (posts s).

(** The count is off by [d]: in the middle of a step. *)
Record off (d : Z) (att : gset Z) (s : world) : Prop := {
  a_pending : pending s = Z.of_nat (keepers s) + d;
  a_readers : ∀ id, (sum_list_with (reading id) (gos s) + holds id (readEnded s) <= holds id att)%nat;
  a_half : readEnded s ⊆ conns s ∩ writers s;
  a_actors : writers s ⊆ dom (actors s);
  a_bound : ∀ id, id ∈ att ∪ conns s ∪ dom (actors s) → id <= nextID s;
  a_actor : map_Forall (fun _ w => Writer.inv w) (actors s)
}.

Abbreviation accounted := (off 0).

Lemma init_accounted : accounted ∅ newNetState.
Proof.
  split; simpl; try set_solver. done.
Qed.

Lemma holds_le id X Y : X ⊆ Y → (holds id X <= holds id Y)%nat.
Proof. unfold holds. intros HX. destruct (decide (id ∈ X)), (decide (id ∈ Y)); [lia|set_solver|lia|lia]. Qed.

Lemma holds_1 id X : (holds id X <= 1)%nat.
Proof. unfold holds. destruct (decide _); lia. Qed.

Lemma holds_in id X : id ∈ X → holds id X = 1%nat.
Proof. intros. unfold holds. by rewrite decide_True. Qed.

Lemma holds_not id X : id ∉ X → holds id X = 0%nat.
Proof. intros. unfold holds. by rewrite decide_False. Qed.

Lemma holds_other id j X : j ≠ id → holds j ({[id]} ∪ X) = holds j X.
Proof. intros. unfold holds. apply decide_ext. set_solver. Qed.

Lemma forall_alter (P : Writer.world → Prop) f id (m : gmap Z Writer.world) :
  (∀ w, P w → P (f w)) → map_Forall (fun _ w => P w) m → map_Forall (fun _ w => P w) (alter f id m).
Proof.
  intros Hf Hm j w. destruct (decide (j = id)) as [->|Hj].
  - rewrite lookup_alter_eq. intros (w0 & Hw0 & ->)%fmap_Some. by apply Hf, (Hm id).
  - rewrite lookup_alter_ne by done. apply Hm.
Qed.

Lemma on_actor_accounted d att id f s :
  (∀ w, Writer.inv w → Writer.inv (f w)) → off d att s → off d att (on_actor id f s).
Proof.
  intros Hf [Hp Hr Hh Hd Hb Ha]. split; simpl; try done.
  - by rewrite dom_alter_L.
  - by rewrite dom_alter_L.
  - by apply forall_alter.
Qed.

Lemma post_off d d' att p s : d' = d - Z.of_nat (post_done p) → off d att s → off d' att (Post p s).
Proof.
  intros -> [Hp Hr Hh Hd Hb Ha]. split; simpl; try done.
  rewrite Hp. unfold keepers. simpl. rewrite sum_list_with_app. simpl. lia.
Qed.

Lemma post_accounted d att p s : post_done p = 0%nat → off d att s → off d att (Post p s).
Proof. intros Hz. apply post_off. rewrite Hz. lia. Qed.

Lemma done_off d d' att s : d' = d - 1 → off d att s → off d' att (DonePending s).
Proof. intros -> [Hp Hr Hh Hd Hb Ha]. split; simpl; try done. rewrite Hp. unfold keepers. simpl. lia. Qed.

Lemma fire_accounted att cb s : accounted att s → accounted att (fireNetCallback cb s).
Proof. destruct cb; simpl; [by apply post_accounted|done]. Qed.

Lemma chans_accounted att c s : accounted att s → accounted att (with_chans c s).
Proof. by intros []. Qed.

Lemma poke_accounted att id s : accounted att s → accounted att (pokeRead id s).
Proof. unfold pokeRead. destruct (readResume s !! id); [apply chans_accounted|done]. Qed.

Lemma log_accounted att es s : accounted att s → accounted att (add_log es s).
Proof. by intros []. Qed.

Lemma opNetConnect_accounted att c k s :
  accounted att s → accounted ({[nextID s + 1]} ∪ att) (opNetConnect c k s).2.
Proof.
  intros [Hp Hr Hh Hd Hb Ha].
  assert (Hnew : nextID s + 1 ∉ att) by (intros Hin; specialize (Hb (nextID s + 1) ltac:(set_solver)); lia).
  split; simpl.
  - rewrite Hp. unfold keepers. simpl. rewrite length_app. simpl. lia.
  - intros id. rewrite sum_list_with_app. simpl. unfold reading at 2. simpl. specialize (Hr id).
    destruct (decide (Some (nextID s + 1) = Some id)) as [[= <-]|Hne].
    + rewrite (holds_not _ att) in Hr by done. rewrite (holds_in _ ({[_]} ∪ _)) by set_solver. lia.
    + pose proof (holds_le id att ({[nextID s + 1]} ∪ att) ltac:(set_solver)). lia.
  - set_solver.
  - rewrite dom_insert. set_solver.
  - intros id. rewrite dom_insert. intros Hin. destruct (decide (id = nextID s + 1)) as [->|]; [lia|].
    specialize (Hb id ltac:(set_solver)). lia.
  - apply map_Forall_insert_2; [apply Writer.start_inv|done].
Qed.

Lemma opNetWrite_accounted att id item cb s : accounted att s → accounted att (opNetWrite id item cb s).
Proof.
  intros Hacc. unfold opNetWrite. case_bool_decide; [|by apply fire_accounted].
  destruct item as [d|]; [|by apply fire_accounted].
  destruct (actors s !! id) as [w|] eqn:Hw; [|done].
  destruct (Writer.do_enqueue _ w) as [ok w'] eqn:He.
  assert (accounted att (with_actors (<[id := w']> (actors s)) s)).
  { destruct Hacc as [Hp Hr Hh Hd Hb Ha]. split; simpl; try done.
    - rewrite dom_insert. set_solver.
    - intros i. rewrite dom_insert. intros Hi. apply Hb. apply elem_of_dom_2 in Hw. set_solver.
    - apply map_Forall_insert_2; [|done]. replace w' with (Writer.do_enqueue (Writer.MkWrite d cb) w).2 by by rewrite He.
      apply enqueue_inv. by apply (Ha id). }
  destruct ok; [done|by apply fire_accounted].
Qed.

Lemma size_remove (X : gset Z) id : id ∈ X → size X = S (size (X ∖ {[id]})).
Proof. intros Hin. rewrite (union_difference_singleton_L id X Hin) at 1. rewrite size_union by set_solver. by rewrite size_singleton. Qed.

(** Dropping a socket from the tables. *)
Lemma drop_accounted att id rr s :
  accounted att s →
  let s1 := with_tables (conns s ∖ {[id]}) (writers s ∖ {[id]}) rr (readEnded s ∖ {[id]}) s in
  accounted att (if bool_decide (id ∈ readEnded s) then DonePending s1 else s1).
Proof.
  intros [Hp Hr Hh Hd Hb Ha] s1.
  assert (Hs1 : pending s1 = Z.of_nat (keepers s1) + (if bool_decide (id ∈ readEnded s) then 1 else 0)).
  { simpl. rewrite Hp. unfold keepers. simpl. case_bool_decide as Hin.
    - rewrite (size_remove _ _ Hin). lia.
    - replace (readEnded s ∖ {[id]}) with (readEnded s) by set_solver. lia. }
  assert (Hrest : ∀ n, pending s1 + n = Z.of_nat (keepers s1) → accounted att (add_pending n s1)).
  { intros n Hn. split; simpl in *; try done; try set_solver;
      [rewrite Hn; unfold keepers; simpl; lia|].
    intros i. specialize (Hr i). pose proof (holds_le i (readEnded s ∖ {[id]}) (readEnded s) ltac:(set_solver)). lia. }
  case_bool_decide.
  - apply Hrest. lia.
  - specialize (Hrest 0 ltac:(lia)). destruct Hrest. split; simpl in *; try done; lia.
Qed.

Lemma opNetEnd_accounted att id s : accounted att s → accounted att (opNetEnd id s).
Proof.
  intros Hacc. unfold opNetEnd. case_bool_decide; [|done]. destruct (bool_decide (id ∈ readEnded s)) eqn:Hre.
  - pose proof (drop_accounted att id (readResume s) s Hacc) as Hd. simpl in Hd. rewrite Hre in Hd.
    exact (on_actor_accounted _ att id Writer.do_requestClose _ requestClose_inv Hd).
  - apply on_actor_accounted; [apply requestHalfClose_inv|done].
Qed.

Lemma opNetClose_accounted att id s : accounted att s → accounted att (opNetClose id s).
Proof.
  intros Hacc. unfold opNetClose. apply poke_accounted.
  pose proof (drop_accounted att id (readResume s) s Hacc) as Hd. simpl in Hd.
  destruct (bool_decide (id ∈ writers s)), (bool_decide (id ∈ readEnded s)); try done;
    exact (on_actor_accounted _ att id Writer.do_requestClose _ requestClose_inv Hd).
Qed.

Lemma opNetListen_accounted att ok k s : accounted att s → accounted att (opNetListen ok k s).
Proof.
  intros [Hp Hr Hh Hd Hb Ha]. destruct ok; [|by split].
  split; simpl; try done.
  - rewrite Hp. unfold keepers. simpl. rewrite length_app. simpl. lia.
  - intros id. rewrite sum_list_with_app. simpl. specialize (Hr id). lia.
  - intros id Hin. specialize (Hb id Hin). lia.
Qed.

Lemma opNetAttach_accounted att id c s :
  id ∉ att → accounted att s →
  accounted ((if bool_decide (id ∈ conns s) then {[id]} else ∅) ∪ att) (opNetAttach id c s).
Proof.
  intros Hid Hacc. unfold opNetAttach. case_bool_decide as Hin; [|rewrite union_empty_l_L; by apply log_accounted].
  destruct Hacc as [Hp Hr Hh Hd Hb Ha]. split; simpl; try done.
  - rewrite Hp. unfold keepers. simpl. rewrite length_app. simpl. lia.
  - intros i. rewrite sum_list_with_app. simpl. specialize (Hr i). unfold reading at 2. simpl.
    destruct (decide (Some id = Some i)) as [[= <-]|].
    + rewrite (holds_not _ att) in Hr by done. rewrite (holds_in _ ({[_]} ∪ _)) by set_solver. lia.
    + pose proof (holds_le i att ({[id]} ∪ att) ltac:(set_solver)). lia.
  - intros i Hi. apply Hb. set_solver.
Qed.

Lemma closeNet_accounted att s : accounted att s → accounted att (closeNet s).
Proof.
  intros [Hp Hr Hh Hd Hb Ha]. unfold closeNet.
  generalize (elements (writers s)) as ws. intros ws. induction ws as [|w ws IH]; simpl.
  - generalize (map_to_list (readResume s)) as rr. intros rr. induction rr as [|e rr IH]; simpl; [|by apply chans_accounted].
    split; simpl; try done; try set_solver.
    + rewrite Hp. unfold keepers. cbn [gos readEnded posts with_listeners with_tables add_pending]. rewrite size_empty. lia.
    + intros id. specialize (Hr id). rewrite (holds_not id ∅) by set_solver. lia.
  - apply on_actor_accounted; [apply requestClose_inv|done].
Qed.

(** A goroutine goes on with the same socket. *)
Lemma become_accounted att i g g' s :
  gos s !! i = Some g → reads g' = reads g → accounted att s → accounted att (become i g' s).
Proof.
  intros Hi Hg [Hp Hr Hh Hd Hb Ha]. split; simpl; try done.
  - rewrite Hp. unfold keepers. simpl. by rewrite length_insert.
  - intros id. specialize (Hr id). pose proof (sum_insert (reading id) _ _ _ g' Hi) as Hs.
    unfold reading in Hs at 2 4. rewrite Hg in Hs. lia.
Qed.

Lemma length_delete_some {A} (l : list A) i x : l !! i = Some x → length l = S (length (delete i l)).
Proof. intros Hi. rewrite length_delete by by eexists. apply lookup_lt_Some in Hi. lia. Qed.

(** One returns: one keeper less. *)
Lemma return_off d d' att i g s : d' = d + 1 → gos s !! i = Some g → off d att s → off d' att (return_ i s).
Proof.
  intros -> Hi [Hp Hr Hh Hd Hb Ha]. split; simpl; try done.
  - rewrite Hp. unfold keepers. simpl. pose proof (length_delete_some _ _ _ Hi). lia.
  - intros id. specialize (Hr id). pose proof (sum_delete (reading id) _ _ _ Hi). lia.
Qed.

(** While a socket is read, its peer has not ended it. *)
Lemma reader_not_ended d att s i g id :
  off d att s → gos s !! i = Some g → reads g = Some id → id ∈ att ∧ id ∉ readEnded s.
Proof.
  intros Hs Hi Hg. pose proof (a_readers _ _ _ Hs id) as Hr.
  pose proof (sum_lookup (reading id) _ _ _ Hi) as Hl. unfold reading in Hl at 1. rewrite Hg, decide_True in Hl by done.
  split.
  - destruct (decide (id ∈ att)); [done|]. rewrite (holds_not id att) in Hr by done. lia.
  - intros Hin. rewrite (holds_in id (readEnded s)) in Hr by done. pose proof (holds_1 id att). lia.
Qed.

Lemma dial_done_accounted att i ok s s' : dial_done i ok s = Some s' → accounted att s → accounted att s'.
Proof.
  intros Hs Hacc. unfold dial_done in Hs. destruct (gos s !! i) as [[id c k| | | | |]|] eqn:Hi; simplify_eq.
  destruct ok; [case_bool_decide as Hin|].
  - apply (become_accounted att i (Dialing id c k)); [done|done|]. destruct Hacc as [Hp Hr Hh Hd Hb Ha].
    split; simpl; try done; set_solver.
  - apply (post_off 1); [done|]. apply (return_off 0 _ _ _ (Dialing id c k)); [done|done|].
    apply on_actor_accounted; [apply go_inv|done].
  - apply (post_off 1); [done|]. apply (return_off 0 _ _ _ (Dialing id c k)); [done|done|].
    apply on_actor_accounted; [intros w Hw; by apply go_inv, requestClose_inv|].
    destruct Hacc as [Hp Hr Hh Hd Hb Ha].
    destruct (reader_not_ended _ _ _ _ _ id (Build_off _ _ _ Hp Hr Hh Hd Hb Ha) Hi eq_refl) as [_ Hne].
    split; simpl; try done; set_solver.
Qed.

Lemma open_done_accounted att i s s' : open_done i s = Some s' → accounted att s → accounted att s'.
Proof.
  intros Hs Hacc. unfold open_done in Hs. destruct (gos s !! i) as [[|id c k| | | |]|] eqn:Hi; simplify_eq.
  assert (accounted att (become i (Starting id c) (on_actor id (fun w => Writer.do_go (Writer.do_attach w)) s))).
  { apply (become_accounted att i (Opened id c k)); [done|done|].
    apply on_actor_accounted; [intros w Hw; by apply go_inv, attach_inv|done]. }
  destruct k; [by apply post_accounted|done].
Qed.

Lemma pump_arm_accounted att i s s' : pump_arm i s = Some s' → accounted att s → accounted att s'.
Proof.
  intros Hs Hacc. unfold pump_arm, armRead in Hs. destruct (gos s !! i) as [[| |id c| | |]|] eqn:Hi; simplify_eq.
  apply (become_accounted att i (Starting id c)); [done|done|].
  destruct Hacc as [Hp Hr Hh Hd Hb Ha]. by split.
Qed.

Lemma pump_resume_accounted att i s s' : pump_resume i s = Some s' → accounted att s → accounted att s'.
Proof.
  intros Hs Hacc. unfold pump_resume in Hs. destruct (gos s !! i) as [[| | |id ch c| |]|] eqn:Hi; simplify_eq.
  destruct (chans s !! ch) as [[]|]; simplify_eq.
  apply (become_accounted att i (Waiting id ch c)); [done|done|]. by apply chans_accounted.
Qed.

Lemma pump_end_accounted att i id ch c eof s :
  gos s !! i = Some (Reading id ch c) → accounted att s → accounted att (pump_end i id c eof s).
Proof.
  intros Hi Hacc. destruct (reader_not_ended _ _ _ _ _ id Hacc Hi eq_refl) as [Hatt Hne].
  unfold pump_end. destruct (_ && _ && _) eqn:Hkeep.
  - apply andb_true_iff in Hkeep as [[_ Hlive%bool_decide_eq_true]%andb_true_iff Hopen].
    destruct (actors s !! id) as [w|] eqn:Hw; [|done].
    apply andb_true_iff in Hopen as [Hwr%bool_decide_eq_true _].
    apply (post_off 0); [done|]. destruct Hacc as [Hp Hr Hh Hd Hb Ha]. split; simpl; try done.
    + rewrite Hp. unfold keepers. simpl. rewrite size_union by set_solver. rewrite size_singleton.
      pose proof (length_delete_some _ _ _ Hi). lia.
    + intros j. specialize (Hr j). pose proof (sum_delete (reading j) _ _ _ Hi) as Hs. unfold reading in Hs at 2. simpl in Hs.
      destruct (decide (Some id = Some j)) as [[= <-]|].
      * rewrite (holds_in id ({[_]} ∪ _)) by set_solver. rewrite (holds_not id (readEnded s)) in Hr by done. lia.
      * rewrite holds_other by congruence. lia.
    + set_solver.
  - apply (done_off 1); [done|]. apply (post_off 1); [done|].
    apply (return_off 0 _ _ _ (Reading id ch c)); [done|by destruct (bool_decide (id ∈ writers s))|].
    pose proof (drop_accounted att id (delete id (readResume s)) s Hacc) as Hd. simpl in Hd.
    rewrite bool_decide_eq_false_2 in Hd by done.
    destruct (bool_decide (id ∈ writers s)); [|done]. apply on_actor_accounted; [apply requestClose_inv|done].
Qed.

Lemma pump_read_accounted att i chunk e s s' : pump_read i chunk e s = Some s' → accounted att s → accounted att s'.
Proof.
  intros Hs Hacc. unfold pump_read in Hs. destruct (gos s !! i) as [[| | | |id ch c|]|] eqn:Hi; simplify_eq.
  set (s1 := if bool_decide _ then s else _).
  assert (Hacc1 : accounted att s1) by (unfold s1; case_bool_decide; [done|by apply post_accounted]).
  assert (Hi1 : gos s1 !! i = Some (Reading id ch c)) by (unfold s1; by case_bool_decide).
  destruct e; [by eapply pump_end_accounted|]. by apply (become_accounted att i (Reading id ch c)).
Qed.

Lemma accept_done_accounted att i ok s s' : accept_done i ok s = Some s' → accounted att s → accounted att s'.
Proof.
  intros Hs Hacc. unfold accept_done in Hs. destruct (gos s !! i) as [[| | | | |lid k]|] eqn:Hi; simplify_eq.
  destruct ok.
  - apply (post_off 0); [done|]. apply on_actor_accounted; [intros w Hw; by apply go_inv, attach_inv|].
    destruct Hacc as [Hp Hr Hh Hd Hb Ha]. split; simpl; try done.
    + set_solver.
    + rewrite dom_insert. set_solver.
    + intros id. rewrite dom_insert. intros Hin. destruct (decide (id = nextID s + 1)) as [->|]; [lia|].
      specialize (Hb id ltac:(set_solver)). lia.
    + apply map_Forall_insert_2; [apply Writer.start_inv|done].
  - apply (done_off 1); [done|]. apply (post_off 1); [done|]. by apply (return_off 0 _ _ _ (Accepting lid k)).
Qed.

Lemma actor_step_accounted att id l s s' : actor_step id l s = Some s' → accounted att s → accounted att s'.
Proof.
  intros Hs [Hp Hr Hh Hd Hb Ha]. unfold actor_step in Hs. destruct (Writer.internal l); [|done].
  destruct (actors s !! id) as [w|] eqn:Hw; simplify_eq/=. destruct (Writer.step l w) as [w'|] eqn:Hw'; simplify_eq/=.
  assert (Hz : ∀ ks, sum_list_with post_done (map Written ks) = 0%nat) by (intros ks; by induction ks).
  split; simpl; try done.
  - rewrite Hp. unfold keepers. simpl. rewrite sum_list_with_app, Hz. lia.
  - rewrite dom_insert. set_solver.
  - intros j. rewrite dom_insert. intros Hj. apply Hb. apply elem_of_dom_2 in Hw. set_solver.
  - apply map_Forall_insert_2; [|done]. eapply step_inv; [done|by apply (Ha id)].
Qed.

Lemma run_post_accounted att s s' : run_post s = Some s' → accounted att s → accounted att s'.
Proof.
  intros Hs [Hp Hr Hh Hd Hb Ha]. unfold run_post in Hs. destruct (posts s) as [|p ps] eqn:E; simplify_eq.
  split; simpl; try done. rewrite Hp. unfold keepers. simpl. rewrite E. simpl. lia.
Qed.

Lemma reach_accounted att issued s : reach att issued s → accounted att s.
Proof.
  induction 1 as [|att issued s l s' _ IH (_ & _ & Hd) Hs]; [apply init_accounted|].
  destruct l; simpl in Hs |- *; simplify_eq; rewrite ?union_empty_l_L.
  - by apply opNetConnect_accounted.
  - by apply opNetWrite_accounted.
  - by apply poke_accounted.
  - by apply opNetEnd_accounted.
  - by apply opNetClose_accounted.
  - by apply opNetListen_accounted.
  - by destruct IH.
  - by apply opNetAttach_accounted.
  - by apply closeNet_accounted.
  - by eapply dial_done_accounted.
  - by eapply open_done_accounted.
  - by eapply pump_arm_accounted.
  - by eapply pump_resume_accounted.
  - by eapply pump_read_accounted.
  - by eapply accept_done_accounted.
  - by eapply actor_step_accounted.
  - by eapply run_post_accounted.
Qed.

(** C13: The event loop's pending count is exact in every interleaving of the
    guest's socket operations, dials, accepts, reads, writes and posted
    callbacks: one for every goroutine (dial, read pump or accept loop), one
    for every half-open socket, whose read pump passed its own on, and one for
    every posted function that will still release its. So it never goes below
    zero, and it is zero exactly when nothing is left. A socket never has two
    read pumps, nor one once its peer's end is recorded. *)
Theorem net_pending_exact (att : gset Z) (issued : list Z) (s : Net.world) (Hr : reach att issued s) :
  pending s = Z.of_nat (length (gos s) + size (readEnded s) + sum_list_with post_done (posts s)) ∧
  0 <= pending s ∧
  (pending s = 0 ↔ gos s = [] ∧ readEnded s = ∅ ∧ ∀ p, p ∈ posts s → post_done p = 0%nat) ∧
  (∀ i j g g' id, gos s !! i = Some g → gos s !! j = Some g' → reads g = Some id → reads g' = Some id → i = j) ∧
  (∀ g id, g ∈ gos s → reads g = Some id → id ∉ readEnded s).
Proof.
  pose proof (reach_accounted _ _ _ Hr) as Hacc. pose proof (a_pending _ _ _ Hacc) as Hp. unfold keepers in Hp.
  split_and!; [lia|lia| | |].
  - rewrite Hp. split.
    + intros Hz. split; [apply nil_length_inv; lia|]. split; [apply leibniz_equiv, size_empty_inv; lia|].
      apply sum_zero. lia.
    + intros (-> & -> & Hz%sum_zero). rewrite size_empty. simpl. lia.
  - intros i j g g' id Hi Hj Hg Hg'. destruct (decide (i = j)) as [|Hne]; [done|]. exfalso.
    pose proof (a_readers _ _ _ Hacc id) as Hread. pose proof (holds_1 id att).
    pose proof (sum_delete (reading id) _ _ _ Hi) as Hdel.
    assert (Hj' : g' ∈ delete i (gos s)).
    { destruct (decide (j < i)%nat).
      - apply (list_elem_of_lookup_2 _ j). by rewrite list_lookup_delete_lt.
      - apply (list_elem_of_lookup_2 _ (pred j)). rewrite list_lookup_delete_ge by lia. by replace (S (pred j)) with j by lia. }
    apply (sum_list_with_in _ (reading id)) in Hj'. unfold reading in Hj' at 1, Hdel at 2.
    rewrite Hg', decide_True in Hj' by done. rewrite Hg, decide_True in Hdel by done. lia.
  - intros g id [i Hi]%list_elem_of_lookup Hg. by destruct (reader_not_ended _ _ _ _ _ id Hacc Hi Hg).
Qed.

(** ** The callbacks *)

Definition released (es : list event) : list Z := omap (fun e => match e with Release h => Some h | Call _ => None end) es.

(** How often [h] is in someone's hands, or was released. *)
Definition total (h : Z) (s : world) : nat :=
  occ h (released (log s)) + sum_list_with (fun g => occ h (go_handles g)) (gos s) +
  sum_list_with (fun p => occ h (post_frees p)) (posts s) +
  map_sum (fun w => occ h (waiting_cbs w)) (actors s).

Lemma released_app es es' : released (es ++ es') = released es ++ released es'.
Proof. apply omap_app. Qed.

Lemma released_releases hs : released (map Release hs) = hs.
Proof. induction hs as [|x hs IH]; [done|]. change (released (map Release (x :: hs))) with (x :: released (map Release hs)). by rewrite IH. Qed.

Lemma released_calls hs : released (map Call hs) = [].
Proof. by induction hs as [|x hs IH]. Qed.

Section Totals.
Context (h : Z) (s : world).

Lemma total_tables cs ws rr re : total h (with_tables cs ws rr re s) = total h s.
Proof. done. Qed.

Lemma total_return_tables i cs ws rr re : total h (return_ i (with_tables cs ws rr re s)) = total h (return_ i s).
Proof. done. Qed.

Lemma total_done : total h (DonePending s) = total h s.
Proof. done. Qed.

Lemma total_post p : total h (Post p s) = (total h s + occ h (post_frees p))%nat.
Proof. unfold total. simpl. rewrite sum_list_with_app. simpl. lia. Qed.

Lemma total_spawn g : total h (spawn g s) = (total h s + occ h (go_handles g))%nat.
Proof. unfold total. simpl. rewrite sum_list_with_app. simpl. lia. Qed.

Lemma total_become i g g' :
  gos s !! i = Some g → (total h (become i g' s) + occ h (go_handles g) = total h s + occ h (go_handles g'))%nat.
Proof. intros Hi. pose proof (sum_insert (fun g => occ h (go_handles g)) _ _ _ g' Hi). unfold total. simpl. lia. Qed.

Lemma total_return i g :
  gos s !! i = Some g → (total h (return_ i s) + occ h (go_handles g) = total h s)%nat.
Proof. intros Hi. pose proof (sum_delete (fun g => occ h (go_handles g)) _ _ _ Hi). unfold total. simpl. lia. Qed.

Lemma total_free hs : total h (freeObjects hs s) = (total h s + occ h hs)%nat.
Proof. unfold total. simpl. rewrite released_app, released_releases, occ_app. lia. Qed.

Lemma total_fire cb : total h (fireNetCallback cb s) = (total h s + occ h (option_list cb))%nat.
Proof. destruct cb; simpl; [by rewrite total_post|lia]. Qed.

Lemma total_actor id f : (∀ w, waiting_cbs (f w) = waiting_cbs w) → total h (on_actor id f s) = total h s.
Proof. intros Hf. unfold total. simpl. rewrite map_sum_alter; [done|]. intros w _. by rewrite Hf. Qed.

Lemma total_new_actor id : actors s !! id = None → total h (new_actor id s) = total h s.
Proof. intros Hid. unfold total. simpl. rewrite map_sum_new by done. simpl. lia. Qed.

End Totals.

Lemma waiting_close w : waiting_cbs (Writer.do_requestClose w) = waiting_cbs w.
Proof. by apply waiting_same. Qed.
Lemma waiting_half w : waiting_cbs (Writer.do_requestHalfClose w) = waiting_cbs w.
Proof. by apply waiting_same. Qed.
Lemma waiting_go w : waiting_cbs (Writer.do_go w) = waiting_cbs w.
Proof. apply waiting_same; unfold Writer.do_go; by destruct (Writer.at_ w). Qed.
Lemma waiting_go_attach w : waiting_cbs (Writer.do_go (Writer.do_attach w)) = waiting_cbs w.
Proof. rewrite waiting_go. by apply waiting_same. Qed.
Lemma waiting_go_close w : waiting_cbs (Writer.do_go (Writer.do_requestClose w)) = waiting_cbs w.
Proof. rewrite waiting_go. apply waiting_close. Qed.

Lemma fresh_actor att s : accounted att s → actors s !! (nextID s + 1) = None.
Proof.
  intros Hacc. apply not_elem_of_dom. intros Hin. pose proof (a_bound _ _ _ Hacc (nextID s + 1) ltac:(set_solver)). lia.
Qed.

Lemma total_write h att id item cb s :
  accounted att s → total h (opNetWrite id item cb s) = (total h s + occ h (option_list cb))%nat.
Proof.
  intros Hacc. unfold opNetWrite. case_bool_decide as Hin; [|apply total_fire].
  destruct item as [d|]; [|apply total_fire].
  destruct (actors s !! id) as [w|] eqn:Hw.
  2: { pose proof (a_actors _ _ _ Hacc id Hin) as Hdom. by apply not_elem_of_dom in Hw. }
  pose proof (a_actor _ _ _ Hacc id w Hw) as Hi.
  destruct (Writer.do_enqueue _ w) as [ok w'] eqn:He.
  set (s1 := with_actors _ s).
  assert (Hs1 : (total h s1 + occ h (waiting_cbs w) = total h s + occ h (waiting_cbs w'))%nat).
  { unfold total, s1. simpl. pose proof (map_sum_insert (fun w => occ h (waiting_cbs w)) _ _ _ w' Hw). simpl in *. lia. }
  destruct ok.
  - pose proof (waiting_enqueue (Writer.MkWrite d cb) w Hi) as Hen. rewrite He in Hen. simpl in Hen.
    rewrite Hen, occ_app in Hs1 by done. lia.
  - rewrite total_fire. assert (waiting_cbs w' = waiting_cbs w) as Heq; [|rewrite Heq in Hs1; lia].
    revert He. unfold Writer.do_enqueue, Writer.enqueue. destruct (Writer.closeReq _); intros [= <-]. by apply waiting_same.
Qed.

Lemma sum_written h ks : sum_list_with (fun p => occ h (post_frees p)) (map Written ks) = occ h ks.
Proof.
  induction ks as [|k ks IH]; [done|]. cbn [map sum_list_with]. rewrite IH.
  change (post_frees (Written k)) with [k]. rewrite (occ_cons h k ks), (occ_cons h k []). by rewrite Nat.add_0_r.
Qed.

Lemma total_actor_step h att id l s s' :
  accounted att s → actor_step id l s = Some s' → total h s' = total h s.
Proof.
  intros Hacc Hs. unfold actor_step in Hs. destruct (Writer.internal l) eqn:Hl; [|done].
  destruct (actors s !! id) as [w|] eqn:Hw; simplify_eq/=. destruct (Writer.step l w) as [w'|] eqn:Hw'; simplify_eq/=.
  pose proof (waiting_internal _ _ _ (a_actor _ _ _ Hacc id w Hw) Hl Hw') as Hwait. fold (newly_acked w w') in Hwait.
  pose proof (map_sum_insert (fun w => occ h (waiting_cbs w)) _ _ _ w' Hw) as Hsum. simpl in Hsum.
  rewrite Hwait, occ_app in Hsum. unfold total. simpl. rewrite sum_list_with_app.
  rewrite sum_written.
  lia.
Qed.

Lemma total_closeNet h s : total h (closeNet s) = total h s.
Proof.
  unfold closeNet. generalize (elements (writers s)) as ws. intros ws. induction ws as [|w ws IH]; simpl.
  - generalize (map_to_list (readResume s)) as rr. intros rr. by induction rr.
  - by rewrite (total_actor h _ w _ waiting_close).
Qed.

Lemma total_pokeRead h id s : total h (pokeRead id s) = total h s.
Proof. unfold pokeRead. by destruct (readResume s !! id). Qed.

Lemma total_close h id s : total h (opNetClose id s) = total h s.
Proof.
  unfold opNetClose. rewrite total_pokeRead. set (s1 := with_tables _ _ _ _ s).
  destruct (bool_decide (id ∈ readEnded s)), (bool_decide (id ∈ writers s)); try done;
    exact (total_actor h s1 id _ waiting_close).
Qed.

Lemma total_end h id s : total h (opNetEnd id s) = total h s.
Proof.
  unfold opNetEnd. case_bool_decide; [|done]. case_bool_decide.
  - exact (total_actor h (with_tables _ _ _ _ s) id _ waiting_close).
  - by rewrite (total_actor h s id _ waiting_half).
Qed.

Lemma total_pump_end h i id ch c eof s :
  gos s !! i = Some (Reading id ch c) → total h (pump_end i id c eof s) = total h s.
Proof.
  intros Hi. unfold pump_end. destruct (_ && _ && _).
  - rewrite total_post, total_return_tables. pose proof (total_return h _ _ _ Hi) as Hret. simpl in *. lia.
  - set (s1 := with_tables _ _ _ _ s). set (s2 := if bool_decide (id ∈ writers s) then _ else s1).
    assert (Hs2 : total h s2 = total h s ∧ gos s2 !! i = Some (Reading id ch c)).
    { unfold s2. destruct (bool_decide (id ∈ writers s)); [|done]. by rewrite (total_actor h s1 id _ waiting_close). }
    destruct Hs2 as [Hs2 Hi2]. rewrite total_done, total_post.
    pose proof (total_return h _ _ _ Hi2) as Hret. simpl in *. lia.
Qed.

(** A step hands on exactly the handles it was given. *)
Lemma total_step h att l s s' :
  accounted att s → step l s = Some s' → total h s' = (total h s + occ h (takes l))%nat.
Proof.
  intros Hacc Hs. destruct l; simpl in Hs |- *; simplify_eq; change (occ h []) with 0%nat; rewrite ?Nat.add_0_r.
  - unfold opNetConnect. cbn [snd]. rewrite total_spawn.
    set (w := new_actor _ _). change (total h (AddPending _)) with (total h w). unfold w.
    by rewrite (total_new_actor h (with_id (nextID s + 1) s)) by (by apply (fresh_actor att s)).
  - by apply (total_write _ att).
  - apply total_pokeRead.
  - apply total_end.
  - apply total_close.
  - destruct ok; simpl; [by rewrite total_spawn|apply total_free].
  - done.
  - unfold opNetAttach. case_bool_decide; [by rewrite total_spawn|apply total_free].
  - apply total_closeNet.
  - unfold dial_done in Hs. destruct (gos s !! i) as [[id c k| | | | |]|] eqn:Hi; simplify_eq.
    destruct ok; [case_bool_decide as Hin|].
    + pose proof (total_become h (with_tables ({[id]} ∪ conns s) (writers s) (readResume s) (readEnded s) s) i _ (Opened id c k) Hi) as Hb.
      rewrite total_tables in Hb. simpl in *. lia.
    + rewrite total_post. pose proof (total_return h (on_actor id Writer.do_go s) _ _ Hi) as Hret.
      rewrite (total_actor h s id _ waiting_go) in Hret. simpl in *. lia.
    + rewrite total_post. set (s1 := with_tables _ _ _ _ s).
      pose proof (total_return h (on_actor id (fun w => Writer.do_go (Writer.do_requestClose w)) s1) _ _ Hi) as Hret.
      rewrite (total_actor h s1 id _ waiting_go_close) in Hret. change (total h s1) with (total h s) in Hret. simpl in *. lia.
  - unfold open_done in Hs. destruct (gos s !! i) as [[|id c k| | | |]|] eqn:Hi; simplify_eq.
    set (s1 := on_actor id _ s).
    pose proof (total_become h s1 i _ (Starting id c) Hi) as Hb. unfold s1 in Hb.
    rewrite (total_actor h s id _ waiting_go_attach) in Hb. fold s1 in Hb. simpl in Hb. rewrite occ_app in Hb.
    destruct k as [k|]; simpl in *; [rewrite total_post; simpl; lia|change (occ h []) with 0%nat in Hb; lia].
  - unfold pump_arm, armRead in Hs. destruct (gos s !! i) as [[| |id c| | |]|] eqn:Hi; simplify_eq.
    set (s1 := with_tables _ _ _ _ _). pose proof (total_become h s1 i _ (Waiting id (length (chans s)) c) Hi) as Hb.
    change (total h s1) with (total h s) in Hb. simpl in *. lia.
  - unfold pump_resume in Hs. destruct (gos s !! i) as [[| | |id ch c| |]|] eqn:Hi; simplify_eq.
    destruct (chans s !! ch) as [[]|]; simplify_eq.
    set (s1 := with_chans _ s). pose proof (total_become h s1 i _ (Reading id ch c) Hi) as Hb.
    change (total h s1) with (total h s) in Hb. simpl in *. lia.
  - unfold pump_read in Hs. destruct (gos s !! i) as [[| | | |id ch c|]|] eqn:Hi; simplify_eq.
    set (s1 := if bool_decide _ then s else _).
    assert (Hs1 : total h s1 = total h s ∧ gos s1 !! i = Some (Reading id ch c)).
    { unfold s1. case_bool_decide; [done|]. split; [rewrite total_post; change (occ h (post_frees _)) with 0%nat; lia|done]. }
    destruct Hs1 as [Hs1 Hi1]. destruct e as [eof|].
    + by rewrite (total_pump_end h i id ch).
    + pose proof (total_become h s1 i _ (Waiting id ch c) Hi1) as Hb. simpl in *. lia.
  - unfold accept_done in Hs. destruct (gos s !! i) as [[| | | | |lid k]|] eqn:Hi; simplify_eq. destruct ok.
    + rewrite total_post. change (occ h (post_frees (Accepted _ _))) with 0%nat.
      rewrite (total_actor h _ _ _ waiting_go_attach).
      rewrite total_tables, (total_new_actor h (with_id (nextID s + 1) s)) by (by apply (fresh_actor att s)).
      change (total h (with_id _ s)) with (total h s). lia.
    + rewrite total_done, total_post.
      pose proof (total_return h _ _ _ Hi) as Hret. simpl in *. lia.
  - by apply (total_actor_step _ att id l).
  - unfold run_post in Hs. destruct (posts s) as [|p ps] eqn:E; simplify_eq. unfold total. simpl.
    rewrite !released_app, released_calls, released_releases, occ_app, E. simpl. lia.
Qed.

Lemma reach_total att issued s h : reach att issued s → total h s = occ h issued.
Proof.
  induction 1 as [|att issued s l s' Hr IH _ Hs]; [done|].
  rewrite (total_step _ _ _ _ _ (reach_accounted _ _ _ Hr) Hs), IH, occ_app. lia.
Qed.

Lemma reach_nodup att issued s : reach att issued s → NoDup issued.
Proof.
  induction 1 as [|att issued s l s' _ IH (Hnd & Hfresh & _) _]; [apply NoDup_nil_2|].
  apply NoDup_app. split_and!; [done|done|done].
Qed.

(** A posted function may call a callback it does not own: a later one, or a
    goroutine, still does. *)
Definition holder (s : world) (h : Z) : Prop := ∃ g, g ∈ gos s ∧ h ∈ go_handles g.

Fixpoint lent (G : Z → Prop) (ps : list post) : Prop :=
  match ps with
  | [] => True
  | p :: qs => (∀ h, h ∈ post_calls p → h ∈ post_frees p ∨ G h ∨ h ∈ flat_map post_frees qs) ∧ lent G qs
  end.

Lemma lent_app (G G' : Z → Prop) ps new :
  lent G ps → lent G' new → (∀ h, G h → G' h ∨ h ∈ flat_map post_frees new) → lent G' (ps ++ new).
Proof.
  intros Hps Hnew HG. induction ps as [|p ps IH]; simpl in *; [done|]. destruct Hps as [Hp Hps]. split; [|by apply IH].
  intros h Hh. rewrite flat_map_app, elem_of_app. destruct (Hp h Hh) as [?|[Hg|?]]; [by left| |by auto].
  destruct (HG h Hg); auto.
Qed.

Definition covered (s : world) : Prop := lent (holder s) (posts s).

(** The posts grow by [new], and who held a callback still does, or the new
    posts do. *)
Lemma covered_grow s s' new :
  covered s → posts s' = posts s ++ new → lent (holder s') new →
  (∀ h, holder s h → holder s' h ∨ h ∈ flat_map post_frees new) → covered s'.
Proof. intros Hc Hp Hn Hg. unfold covered. rewrite Hp. by apply (lent_app (holder s)). Qed.

Lemma covered_gos s s' :
  covered s → posts s' = posts s → (∀ g, g ∈ gos s → g ∈ gos s') → covered s'.
Proof.
  intros Hc Hp Hg. apply (covered_grow s s' []); [done|by rewrite app_nil_r|done|].
  intros h (g & Hin & Hh). left. exists g. auto.
Qed.

(** Posts that only call what they own. *)
Definition self_covered (p : post) : Prop := ∀ h, h ∈ post_calls p → h ∈ post_frees p.

Lemma covered_post s s' p :
  covered s → posts s' = posts s ++ [p] → self_covered p →
  (∀ h, holder s h → holder s' h ∨ h ∈ post_frees p) → covered s'.
Proof.
  intros Hc Hp Hs Hg. apply (covered_grow s s' [p]); [done|done| |].
  - split; [|done]. intros h Hh. left. by apply Hs.
  - intros h Hh. simpl. rewrite app_nil_r. by apply Hg.
Qed.

Lemma covered_fire s cb : covered s → covered (fireNetCallback cb s).
Proof.
  intros Hc. destruct cb as [k|]; [|done]. apply (covered_post s _ (Written k)); [done|done| |by intros h ?; left].
  by intros h.
Qed.

Lemma holder_become s i g g' h :
  gos s !! i = Some g → (∀ x, x ∈ go_handles g → x ∈ go_handles g') → holder s h → holder (become i g' s) h.
Proof.
  intros Hi Hsub (g0 & [j Hj]%list_elem_of_lookup & Hh). destruct (decide (j = i)) as [->|Hne].
  - exists g'. split; [|apply Hsub; congruence]. apply (list_elem_of_lookup_2 _ i). simpl.
    apply list_lookup_insert_eq. by apply lookup_lt_Some in Hi.
  - exists g0. split; [|done]. apply (list_elem_of_lookup_2 _ j). simpl. by rewrite list_lookup_insert_ne.
Qed.

Lemma holder_return s i g h : gos s !! i = Some g → holder s h → holder (return_ i s) h ∨ h ∈ go_handles g.
Proof.
  intros Hi (g0 & [j Hj]%list_elem_of_lookup & Hh). destruct (decide (j = i)) as [->|Hne]; [right; congruence|left].
  exists g0. split; [|done]. destruct (decide (j < i)%nat).
  - apply (list_elem_of_lookup_2 _ j). simpl. by rewrite list_lookup_delete_lt.
  - apply (list_elem_of_lookup_2 _ (pred j)). simpl. rewrite list_lookup_delete_ge by lia. by replace (S (pred j)) with j by lia.
Qed.

Lemma covered_become s i g g' :
  gos s !! i = Some g → (∀ x, x ∈ go_handles g → x ∈ go_handles g') → covered s → covered (become i g' s).
Proof.
  intros Hi Hsub Hc. apply (covered_grow s _ []); [done|by rewrite app_nil_r|done|].
  intros h Hh. left. by apply (holder_become s i g).
Qed.

(** A goroutine's last word owns what it held. *)
Lemma covered_return s s' i g p :
  gos s !! i = Some g → gos s' = delete i (gos s) → posts s' = posts s ++ [p] → self_covered p →
  go_handles g ⊆ post_frees p → covered s → covered s'.
Proof.
  intros Hi Hg Hp Hs Hsub Hc. apply (covered_post s s' p); [done|done|done|].
  intros h Hh. destruct (holder_return s i g h Hi Hh) as [(g' & Hin & Hg')|]; [left|right; by apply Hsub].
  exists g'. by rewrite Hg.
Qed.

Lemma self_failed c k : self_covered (ConnectFailed c k).
Proof. intros h. simpl. unfold handles. set_solver. Qed.

Lemma self_end live eof c : self_covered (End_ live eof c).
Proof. intros h. simpl. unfold handles. destruct live, eof; set_solver. Qed.

Lemma covered_pump_end s i id ch c eof : gos s !! i = Some (Reading id ch c) → covered s → covered (pump_end i id c eof s).
Proof.
  intros Hi Hc. unfold pump_end. destruct (_ && _ && _); [|destruct (bool_decide (id ∈ writers s))];
    (eapply (covered_return s _ i _ (End_ _ eof c)); [exact Hi|reflexivity|reflexivity|apply self_end|simpl; set_solver|done]).
Qed.

Lemma covered_step s l s' : step l s = Some s' → covered s → covered s'.
Proof.
  intros Hs Hc. destruct l; simpl in Hs; simplify_eq.
  - apply (covered_gos s); [done|done|]. intros g Hg. simpl. apply elem_of_app. by left.
  - unfold opNetWrite. case_bool_decide; [|by apply covered_fire]. destruct item; [|by apply covered_fire].
    destruct (actors s !! id); [|done]. destruct (Writer.do_enqueue _ _) as [[] w']; [done|by apply covered_fire].
  - unfold pokeRead. by destruct (readResume s !! id).
  - unfold opNetEnd. case_bool_decide; [|done]. by case_bool_decide.
  - unfold opNetClose, pokeRead. simpl. destruct (bool_decide (id ∈ writers s)), (bool_decide (id ∈ readEnded s));
      simpl; by destruct (readResume s !! id).
  - destruct ok; [|done]. apply (covered_gos s); [done|done|]. intros g Hg. simpl. apply elem_of_app. by left.
  - done.
  - unfold opNetAttach. case_bool_decide; [|done]. apply (covered_gos s); [done|done|]. intros g Hg. simpl. apply elem_of_app. by left.
  - unfold closeNet. generalize (elements (writers s)) as ws. intros ws. induction ws as [|w ws IH]; simpl; [|done].
    generalize (map_to_list (readResume s)) as rr. intros rr. by induction rr.
  - unfold dial_done in Hs. destruct (gos s !! i) as [[id c k| | | | |]|] eqn:Hi; simplify_eq.
    destruct ok; [case_bool_decide as Hin|].
    + by apply (covered_become _ i (Dialing id c k)).
    + apply (covered_return s _ i (Dialing id c k) (Abandoned c k)); try done. by intros h ?%not_elem_of_nil.
    + apply (covered_return s _ i (Dialing id c k) (ConnectFailed c k)); try done. apply self_failed.
  - unfold open_done in Hs. destruct (gos s !! i) as [[|id c k| | | |]|] eqn:Hi; simplify_eq.
    destruct k as [k|].
    + apply (covered_post s _ (Connected k)); [done|done|by intros h|].
      intros h Hh. destruct (decide (h = k)) as [->|Hne]; [right; simpl; set_solver|]. left.
      destruct Hh as (g0 & [j Hj]%list_elem_of_lookup & Hh). destruct (decide (j = i)) as [->|Hji].
      * exists (Starting id c). rewrite Hi in Hj. injection Hj as <-. simpl in Hh. split; [|simpl; set_solver].
        apply (list_elem_of_lookup_2 _ i). simpl. apply list_lookup_insert_eq. by apply lookup_lt_Some in Hi.
      * exists g0. split; [|done]. apply (list_elem_of_lookup_2 _ j). simpl. by rewrite list_lookup_insert_ne.
    + apply (covered_become _ i (Opened id c None)); [done|simpl; set_solver|done].
  - unfold pump_arm, armRead in Hs. destruct (gos s !! i) as [[| |id c| | |]|] eqn:Hi; simplify_eq.
    by apply (covered_become _ i (Starting id c)).
  - unfold pump_resume in Hs. destruct (gos s !! i) as [[| | |id ch c| |]|] eqn:Hi; simplify_eq.
    destruct (chans s !! ch) as [[]|]; simplify_eq. by apply (covered_become _ i (Waiting id ch c)).
  - unfold pump_read in Hs. destruct (gos s !! i) as [[| | | |id ch c|]|] eqn:Hi; simplify_eq.
    set (s1 := if bool_decide _ then s else _).
    assert (Hi1 : gos s1 !! i = Some (Reading id ch c)) by (unfold s1; by case_bool_decide).
    assert (Hc1 : covered s1).
    { unfold s1. case_bool_decide; [done|]. apply (covered_grow s _ [Data (onData c) chunk]); [done|done| |by intros h ?; left].
      split; [|done]. simpl. intros h Hh. right. left. exists (Reading id ch c).
      split; [by apply (list_elem_of_lookup_2 _ i)|]. simpl. unfold handles. set_solver. }
    destruct e; [by apply (covered_pump_end s1 i id ch)|]. by apply (covered_become _ i (Reading id ch c)).
  - unfold accept_done in Hs. destruct (gos s !! i) as [[| | | | |lid k]|] eqn:Hi; simplify_eq. destruct ok.
    + apply (covered_grow s _ [Accepted k (nextID s + 1)]); [done|done| |by intros h ?; left].
      split; [|done]. simpl. intros h Hh. right. left. exists (Accepting lid k).
      split; [by apply (list_elem_of_lookup_2 _ i)|done].
    + apply (covered_return s _ i (Accepting lid k) (AcceptEnded k)); try done. by intros h ?%not_elem_of_nil.
  - unfold actor_step in Hs. destruct (Writer.internal _); [|done].
    destruct (actors s !! id) as [w|]; simplify_eq/=. destruct (Writer.step _ w) as [w'|]; simplify_eq/=.
    eapply covered_grow; [done|reflexivity| |by intros h ?; left].
    induction (newly_acked w w') as [|k ks IH]; [done|]. split; [|done]. intros h Hh. by left.
  - unfold run_post in Hs. destruct (posts s) as [|p ps] eqn:E; simplify_eq.
    unfold covered in *. rewrite E in Hc. by destruct Hc.
Qed.

Lemma reach_covered att issued s : reach att issued s → covered s.
Proof. induction 1 as [|att issued s l s' _ IH _ Hs]; [done|]. by eapply covered_step. Qed.

(** No event about a callback that was released. *)
Definition sound (es : list event) : Prop :=
  ∀ l1 e l2 h, es = l1 ++ e :: l2 → e = Call h ∨ e = Release h → h ∉ released l1.

Lemma sound_snoc es e : sound es → (∀ h, e = Call h ∨ e = Release h → h ∉ released es) → sound (es ++ [e]).
Proof.
  intros Hs He l1 e' l2 h Heq Hor. destruct l2 as [|x l2] using rev_ind.
  - apply app_inj_tail in Heq as [-> ->]. by apply He.
  - rewrite app_comm_cons, app_assoc in Heq. apply app_inj_tail in Heq as [Heq _]. by eapply Hs.
Qed.

Lemma sound_calls es hs : sound es → (∀ h, h ∈ hs → h ∉ released es) → sound (es ++ map Call hs).
Proof.
  revert es. induction hs as [|x hs IH]; intros es Hs Hh; simpl; [by rewrite app_nil_r|].
  rewrite cons_middle, app_assoc. apply IH.
  - apply sound_snoc; [done|]. intros h [[= <-]|[=]]. apply Hh. by left.
  - intros h Hin. rewrite released_app. simpl. rewrite app_nil_r. apply Hh. by right.
Qed.

Lemma sound_releases es hs : sound es → NoDup (released es ++ hs) → sound (es ++ map Release hs).
Proof.
  revert es. induction hs as [|x hs IH]; intros es Hs Hnd; simpl; [by rewrite app_nil_r|].
  rewrite cons_middle, app_assoc. apply IH.
  - apply sound_snoc; [done|]. intros h [[=]|[= <-]] Hin. apply NoDup_app in Hnd as (_ & Hd & _). apply (Hd x Hin). by left.
  - rewrite released_app. simpl. by rewrite <-app_assoc.
Qed.

(** What a step adds to the log: nothing, the handles an operation refuses,
    or what the oldest posted function does. *)
Lemma step_log l s s' :
  step l s = Some s' →
  log s' = log s ∨ (∃ hs, log s' = log s ++ map Release hs) ∨
  (∃ p ps, posts s = p :: ps ∧ log s' = (log s ++ map Call (post_calls p)) ++ map Release (post_frees p)).
Proof.
  intros Hs. destruct l; simpl in Hs; simplify_eq; try (by left).
  - left. unfold opNetWrite. case_bool_decide; [|by destruct cb]. destruct item; [|by destruct cb].
    destruct (actors s !! id); [|done]. destruct (Writer.do_enqueue _ _) as [[] w']; [done|by destruct cb].
  - left. unfold pokeRead. by destruct (readResume s !! id).
  - left. unfold opNetEnd. case_bool_decide; [|done]. by case_bool_decide.
  - left. unfold opNetClose, pokeRead. simpl. destruct (bool_decide (id ∈ writers s)), (bool_decide (id ∈ readEnded s));
      simpl; by destruct (readResume s !! id).
  - destruct ok; [by left|]. right. left. by eexists.
  - unfold opNetAttach. case_bool_decide; [by left|]. right. left. by eexists.
  - left. unfold closeNet. generalize (elements (writers s)) as ws. intros ws. induction ws as [|w ws IH]; simpl; [|done].
    generalize (map_to_list (readResume s)) as rr. intros rr. by induction rr.
  - left. unfold dial_done in Hs. destruct (gos s !! i) as [[id c k| | | | |]|]; simplify_eq.
    destruct ok; [by case_bool_decide|done].
  - left. unfold open_done in Hs. destruct (gos s !! i) as [[|id c k| | | |]|]; simplify_eq. by destruct k.
  - left. unfold pump_arm, armRead in Hs. by destruct (gos s !! i) as [[| |id c| | |]|]; simplify_eq.
  - left. unfold pump_resume in Hs. destruct (gos s !! i) as [[| | |id ch c| |]|]; simplify_eq.
    by destruct (chans s !! ch) as [[]|]; simplify_eq.
  - left. unfold pump_read in Hs. destruct (gos s !! i) as [[| | | |id ch c|]|]; simplify_eq.
    set (s1 := if bool_decide _ then s else _).
    assert (Hl1 : log s1 = log s) by (unfold s1; by case_bool_decide).
    destruct e; [|done]. rewrite <-Hl1. unfold pump_end. destruct (_ && _ && _); [done|]. by destruct (bool_decide (id ∈ writers s1)).
  - left. unfold accept_done in Hs. destruct (gos s !! i) as [[| | | | |lid k]|]; simplify_eq. by destruct ok.
  - left. unfold actor_step in Hs. destruct (Writer.internal _); [|done].
    destruct (actors s !! id) as [w|]; simplify_eq/=. by destruct (Writer.step _ w); simplify_eq/=.
  - unfold run_post in Hs. destruct (posts s) as [|p ps] eqn:E; simplify_eq.
    right. right. exists p, ps. split; [done|]. simpl. by rewrite app_assoc.
Qed.

Lemma released_nodup att issued s : reach att issued s → NoDup (released (log s)).
Proof.
  intros Hr. apply occ_nodup. intros h. pose proof (reach_total _ _ _ h Hr) as Ht.
  pose proof (proj1 (occ_nodup issued) (reach_nodup _ _ _ Hr) h). unfold total in Ht. lia.
Qed.

(** A callback still in someone's hands was not released. *)
Lemma held_not_released att issued s h :
  reach att issued s → holder s h ∨ h ∈ flat_map post_frees (posts s) → h ∉ released (log s).
Proof.
  intros Hr Hheld Hin. pose proof (reach_total _ _ _ h Hr) as Ht. unfold total in Ht.
  pose proof (proj1 (occ_nodup issued) (reach_nodup _ _ _ Hr) h). apply occ_elem in Hin.
  destruct Hheld as [(g & Hg & Hh)|Hh].
  - apply (sum_list_with_in _ (fun g => occ h (go_handles g))) in Hg. apply occ_elem in Hh. simpl in Hg. lia.
  - rewrite list_elem_of_In in Hh. apply in_flat_map in Hh as (p & Hp & Hh). apply list_elem_of_In in Hp, Hh.
    apply (sum_list_with_in _ (fun p => occ h (post_frees p))) in Hp. apply occ_elem in Hh. simpl in Hp. lia.
Qed.

Lemma reach_sound att issued s : reach att issued s → sound (log s).
Proof.
  induction 1 as [|att issued s l s' Hr IH Hd Hs]; [intros [|? ?] ? ? ? [=]|].
  pose proof (released_nodup _ _ _ (reach_step _ _ _ _ _ Hr Hd Hs)) as Hnd.
  destruct (step_log _ _ _ Hs) as [->|[[hs Hl]|(p & ps & Hp & Hl)]]; [done| |].
  - rewrite Hl in Hnd |- *. rewrite released_app, released_releases in Hnd. by apply sound_releases.
  - rewrite Hl in Hnd |- *. rewrite !released_app, released_calls, app_nil_r, released_releases in Hnd.
    apply sound_releases; [|by rewrite released_app, released_calls, app_nil_r].
    apply sound_calls; [done|]. intros h Hh.
    pose proof (reach_covered _ _ _ Hr) as Hc. unfold covered in Hc. rewrite Hp in Hc. destruct Hc as [Hc _].
    apply (held_not_released att issued s h Hr). rewrite Hp. simpl.
    destruct (Hc h Hh) as [?|[?|?]]; [right|by left|right]; apply elem_of_app; auto.
Qed.

(** C14: Guest callbacks are never used after they are released, never
    released twice and never lost. In every interleaving, the log has no call
    and no release of a callback after its release; and every handle the guest
    handed over is at any time either released or in exactly one place: a
    goroutine, a posted function, or a write that is not yet acknowledged. *)
Theorem net_callbacks_safe (att : gset Z) (issued : list Z) (s : Net.world) (Hr : reach att issued s) :
  sound (log s) ∧
  released (log s) ++ flat_map go_handles (gos s) ++ flat_map post_frees (posts s) ++
    flat_map (fun e => waiting_cbs e.2) (map_to_list (actors s)) ≡ₚ issued ∧
  NoDup issued.
Proof.
  split; [by eapply reach_sound|]. split; [|by eapply reach_nodup].
  apply occ_perm. intros h. rewrite <-(reach_total _ _ _ h Hr). unfold total, map_sum. rewrite !occ_app.
  assert (Hsum : ∀ {A} (f : A → list Z) l, occ h (flat_map f l) = sum_list_with (fun x => occ h (f x)) l).
  { intros A f l. induction l as [|x l IH]; simpl; [done|]. by rewrite occ_app, IH. }
  rewrite !Hsum. lia.
Qed.

(** ** A destroyed socket can keep the program alive *)

(** Steps that need no call by the guest. *)
Definition own_accord (l : label) : bool :=
  match l with
  | DialDone _ _ | OpenDone _ | PumpArm _ | PumpResume _ | PumpRead _ _ _ | AcceptDone _ _ | ActorStep _ _ | RunPost => true
  | _ => false
  end.

Fixpoint steps (ls : list label) (s : world) : option world :=
  match ls with
  | [] => Some s
  | l :: ls' => s' ← step l s; steps ls' s'
  end.

(** Steps that bring no callback. *)
Definition quiet (l : label) : bool :=
  match l with OpConnect _ _ | OpWrite _ _ _ | OpListen _ _ | OpAttach _ _ => false | _ => true end.

Lemma reach_steps att issued s ls s' :
  reach att issued s → forallb quiet ls = true → steps ls s = Some s' → reach att issued s'.
Proof.
  revert s. induction ls as [|l ls IH]; simpl; intros s Hr Hl Hs; simplify_eq; [done|].
  apply andb_true_iff in Hl as [Hq Hl]. destruct (step l s) as [s1|] eqn:E; simplify_eq/=. apply (IH s1); [|done|done].
  assert (takes l = [] ∧ attaches l s = ∅ ∧ match l with OpAttach id _ => id ∉ att | _ => True end) as (Ht & Ha & Hatt)
    by by destruct l.
  pose proof (reach_step att issued s l s1 Hr) as Hstep. rewrite Ht, Ha, union_empty_l_L in Hstep.
  apply Hstep; [|done]. split_and!; [rewrite Ht; apply NoDup_nil_2|rewrite Ht; by intros h ?%not_elem_of_nil|done].
Qed.

(** Destroying a socket wakes its read pump once, by a token in its
    channel; the pump leaves only when its next Read fails. Here the peer's
    data arrives before the write actor has closed the connection: the pump
    uses the token for one more successful read and then waits for good. The
    socket is in no table any more, its actor has returned and closed the
    connection, all callbacks have run - and the pending count is still one,
    with no step left that the program would take of its own accord, so the
    event loop does not end. *)
Theorem net_close_strands_pump :
  ∃ att issued s, reach att issued s ∧
    conns s = ∅ ∧ writers s = ∅ ∧ posts s = [] ∧
    (∃ w, actors s !! 1 = Some w ∧ Writer.at_ w = Writer.Exited ∧ Writer.closed w = true) ∧
    pending s = 1 ∧ (∀ l, own_accord l = true → step l s = None).
Proof.
  pose (c := MkCallbacks (Some 10) (Some 11) (Some 12)).
  pose (first := (opNetConnect c (Some 13) newNetState).2).
  pose (trace := [DialDone 0 true; OpenDone 0; RunPost; PumpArm 0; PumpResume 0; OpClose 1;
    PumpRead 0 (lit "a") None; PumpResume 0; PumpRead 0 (lit "b") None; RunPost; RunPost;
    ActorStep 1 Writer.Signal; ActorStep 1 Writer.Signal;
    ActorStep 1 (Writer.Do None); ActorStep 1 (Writer.Do None); ActorStep 1 (Writer.Do None);
    ActorStep 1 (Writer.Do None); ActorStep 1 (Writer.Do None)]).
  assert (Hfirst : reach ({[1]} ∪ ∅) [10; 11; 12; 13] first).
  { apply (reach_step ∅ [] newNetState (OpConnect c (Some 13))); [apply reach_init| |done].
    split_and!; [by_decide|by intros h _ ?%not_elem_of_nil|done]. }
  destruct (steps trace first) as [s|] eqn:E; [|by vm_compute in E].
  exists ({[1]} ∪ ∅), [10; 11; 12; 13], s.
  assert (Hs : s = default first (steps trace first)) by by rewrite E.
  split_and!.
  - apply (reach_steps _ _ first trace s Hfirst); [reflexivity|exact E].
  - rewrite Hs. vm_compute. reflexivity.
  - rewrite Hs. vm_compute. reflexivity.
  - rewrite Hs. vm_compute. reflexivity.
  - rewrite Hs. eexists. split; [vm_compute; reflexivity|]. split; reflexivity.
  - rewrite Hs. vm_compute. reflexivity.
  - assert (Hgos : gos s = [Waiting 1 0 c]) by (rewrite Hs; vm_compute; reflexivity).
    assert (Hchans : chans s = [false]) by (rewrite Hs; vm_compute; reflexivity).
    assert (Hposts : posts s = []) by (rewrite Hs; vm_compute; reflexivity).
    assert (Hdom : dom (actors s) = {[1]}) by (rewrite Hs; vm_compute; reflexivity).
    assert (Hw : ∃ w, actors s !! 1 = Some w ∧ Writer.at_ w = Writer.Exited ∧ Writer.signals w = 0%nat)
      by (rewrite Hs; eexists; split; [vm_compute; reflexivity|by split]).
    clear Hs E. intros l Hl.
    destruct l as [| | | | | | | | |i ok|i|i|i|i chunk e|i ok|id l|]; try discriminate; simpl;
      unfold dial_done, open_done, pump_arm, pump_resume, pump_read, accept_done, actor_step, run_post;
      rewrite ?Hgos, ?Hposts; try done; try (by destruct i).
    + destruct i; simpl; [by rewrite Hchans|done].
    + destruct (Writer.internal l) eqn:Hint; [|done]. destruct (decide (id = 1)) as [->|Hne].
      * destruct Hw as (w & -> & Hat & Hsig). destruct l; try discriminate; simpl.
        -- unfold Writer.do_signal. by rewrite Hsig.
        -- unfold Writer.run_step. by rewrite Hat.
      * assert (actors s !! id = None) as ->; [|done]. apply not_elem_of_dom. rewrite Hdom. set_solver.
Qed.

(** A client socket that connects, reads one chunk and the peer's end, and is
    ended by the guest. *)
Abbreviation demo_callbacks := (MkCallbacks (Some 10) (Some 11) (Some 12)).
Abbreviation demo_start := ((opNetConnect demo_callbacks (Some 13) newNetState).2).
Abbreviation demo_trace := [DialDone 0 true; OpenDone 0; PumpArm 0; PumpResume 0; PumpRead 0 (lit "hi") (Some true);
  RunPost; RunPost; RunPost; OpEnd 1].

Lemma demo_reach : reach ({[1]} ∪ ∅) [10; 11; 12; 13] demo_start.
Proof.
  apply (reach_step ∅ [] newNetState (OpConnect demo_callbacks (Some 13))); [apply reach_init| |done].
  split_and!; [by_decide|by intros h _ ?%not_elem_of_nil|done].
Qed.

Lemma net_pending_exact_witness :
  let s := default demo_start (steps demo_trace demo_start) in
  pending s = 0 ∧ gos s = [] ∧ readEnded s = ∅ ∧
  pending s = Z.of_nat (length (gos s) + size (readEnded s) + sum_list_with post_done (posts s)).
Proof.
  intros s. split; [vm_compute; reflexivity|]. split; [vm_compute; reflexivity|]. split; [vm_compute; reflexivity|].
  destruct (net_pending_exact ({[1]} ∪ ∅) [10; 11; 12; 13] s) as [Hp _]; [|exact Hp].
  apply (reach_steps _ _ demo_start demo_trace s demo_reach); [reflexivity|vm_compute; reflexivity].
Defined.

Lemma net_callbacks_safe_witness :
  let s := default demo_start (steps demo_trace demo_start) in
  log s = [Call 13; Release 13; Call 10; Call 11; Release 10; Release 11; Release 12] ∧ sound (log s).
Proof.
  intros s. split; [vm_compute; reflexivity|].
  destruct (net_callbacks_safe ({[1]} ∪ ∅) [10; 11; 12; 13] s) as [Hp _]; [|exact Hp].
  apply (reach_steps _ _ demo_start demo_trace s demo_reach); [reflexivity|vm_compute; reflexivity].
Defined.
