(* ===== verification/ChildProc.v ===== *)
(** node:child_process (compat/nodejs/childproc.go): the permission and the
    environment of a process, exit codes and signals, the goroutines behind a
    spawned child, and the tables and operations over all children.

    os/exec and the kernel answer through step labels: what a process writes,
    when its pipes are shut and how it ends. A child's stdin is a writer of
    Writer.v. *)

From S2P Require Import Prelude Counting Writer.

(** ** Signals and exit codes *)

(** Signal numbers of Linux. *)
Definition signalByName (name : bytes) : Z :=
  if bool_decide (name = lit "SIGKILL") then 9
  else if bool_decide (name = lit "SIGINT") then 2
  else if bool_decide (name = lit "SIGHUP") then 1
  else if bool_decide (name = lit "SIGQUIT") then 3
  else if bool_decide (name = lit "SIGUSR1") then 10
  else if bool_decide (name = lit "SIGUSR2") then 12
  else 15.

(** childSignals: number, syscall.Signal.String(), name. *)
Definition childSignals : list (Z * bytes * bytes) :=
  [(1, lit "hangup", lit "SIGHUP"); (2, lit "interrupt", lit "SIGINT"); (3, lit "quit", lit "SIGQUIT");
   (4, lit "illegal instruction", lit "SIGILL"); (5, lit "trace/breakpoint trap", lit "SIGTRAP"); (6, lit "aborted", lit "SIGABRT");
   (7, lit "bus error", lit "SIGBUS"); (8, lit "floating point exception", lit "SIGFPE"); (9, lit "killed", lit "SIGKILL");
   (11, lit "segmentation fault", lit "SIGSEGV"); (13, lit "broken pipe", lit "SIGPIPE"); (14, lit "alarm clock", lit "SIGALRM");
   (15, lit "terminated", lit "SIGTERM"); (10, lit "user defined signal 1", lit "SIGUSR1"); (12, lit "user defined signal 2", lit "SIGUSR2")].

Definition signalName (state : bytes) : option bytes :=
  snd <$> List.find (λ s, contains state s.1.2) childSignals.

(** What cmd.Wait or cmd.Run answers: nil, an ExitError with ExitCode() and
    String() of its ProcessState, or another error. *)
Inductive waitError := NoError | ExitError (code : Z) (state : bytes) | OtherError (message : bytes).

Definition exitInfo (werr : waitError) : option Z * option bytes :=
  match werr with
  | NoError => (Some 0, None)
  | ExitError c state => if 0 <=? c then (Some c, None) else (None, signalName state)
  | OtherError _ => (None, None)
  end.

(** The code of an error object. *)
Definition childErr (message : bytes) : bytes :=
  if contains message (lit "permission denied") then lit "EACCES"
  else if contains message (lit "disabled") then lit "EPERM"
  else lit "ENOENT".

(** ** Commands *)

(** The options as they are read from the guest's object; [file] is [None] when
    reading it throws. *)
Record options := MkOptions { file : option bytes; args : list bytes; cwd : option bytes; envArray : option (list bytes) }.

Definition cmdArgv (o : options) : option (bytes * list bytes) := f ← file o; Some (f, args o).

Record command := MkCommand { Path : bytes; Argv : list bytes; Dir : bytes; Env : list bytes }.

(** exec.Command and applyCwdEnv; the environment is never the host's. *)
Definition applyCwdEnv (f : bytes) (argv : list bytes) (o : options) (defaultEnv : list bytes) : command :=
  MkCommand f argv (default [] (cwd o)) (default defaultEnv (envArray o)).

Section Exec.
(** Config.Exec. *)
Context (Exec : option (bytes → list bytes → bool)).

Definition execAllowed (path : bytes) (argv : list bytes) : result bytes unit :=
  match Exec with
  | None => Err (lit "child_process is disabled: Config.Exec is not set")
  | Some allow => if allow path argv then Ok tt else Err (lit "spawn " ++ path ++ lit ": permission denied")
  end.

End Exec.

(** The object opChildSpawnSync answers. *)
Record syncResult := MkSync {
  status : option Z; signal : option bytes; pid_ : Z; error_ : option bytes; stdout_ : bytes; stderr_ : bytes
}.

Inductive answer (A : Type) := Fails | Refused (code message : bytes) | Answers (a : A).
Arguments Fails {A}.
Arguments Refused {A} code message.
Arguments Answers {A} a.

(** err.Error() of a Wait error. *)
Definition wait_text (w : waitError) : bytes :=
  match w with NoError => [] | ExitError _ state => state | OtherError m => m end.

(** ** One child *)

Module Proc.

Inductive reader := NoReader | Reading | Ended.

(** A pipe from the child: what lies in it and whether a write end is open;
    [written] is everything that was ever written, [clean] says that the reader
    came to the end of the file. *)
Record pipe := MkPipe { reading : reader; data : bytes; open_ : bool; written : bytes; clean : bool }.

Inductive stream := Out | Err_.

(** The goroutine that waits: for the two readers, for the process; then it takes
    the entries out of the tables, stops the stdin writer, posts the exit and
    gives the pending count back. *)
Inductive waiter := WaitOut | WaitErr | WaitExit | Forget | StopStdin (w : option nat) | Report | Release | Gone.

Inductive post := Chunk (s : stream) (b : bytes) | Exit (code : option Z) (sig : option bytes).

Record callbacks := MkCallbacks { onStdout : option Z; onStderr : option Z; onExit : option Z; onError : option Z }.

Record child := MkChild {
  pid : Z;
  cbs : callbacks;
  out : pipe;
  err : pipe;
  at_ : waiter;
  ended : option waitError;      (** the process has ended *)
  queue : list post;
  ran : list (post * bool)
}.

Definition new_pipe (cb : option Z) : pipe := MkPipe (match cb with Some _ => Reading | None => NoReader end) [] true [] false.

(** opChildSpawn after cmd.Start. *)
Definition spawned (p : Z) (c : callbacks) : child :=
  MkChild p c (new_pipe (onStdout c)) (new_pipe (onStderr c)) WaitOut None [] [].

Definition pipe_of (s : stream) (c : child) : pipe := match s with Out => out c | Err_ => err c end.

Definition with_pipe (s : stream) (p : pipe) (c : child) : child :=
  match s with
  | Out => MkChild (pid c) (cbs c) p (err c) (at_ c) (ended c) (queue c) (ran c)
  | Err_ => MkChild (pid c) (cbs c) (out c) p (at_ c) (ended c) (queue c) (ran c)
  end.
Definition goto (w : waiter) (c : child) : child :=
  MkChild (pid c) (cbs c) (out c) (err c) w (ended c) (queue c) (ran c).
Definition Post (ps : list post) (c : child) : child :=
  MkChild (pid c) (cbs c) (out c) (err c) (at_ c) (ended c) (queue c ++ ps) (ran c).

(** *** The process *)

Definition writes (s : stream) (b : bytes) (c : child) : option child :=
  let p := pipe_of s c in
  if open_ p then Some (with_pipe s (MkPipe (reading p) (data p ++ b) true (written p ++ b) (clean p)) c) else None.

(** The last write end is closed. *)
Definition shuts (s : stream) (c : child) : option child :=
  let p := pipe_of s c in
  if open_ p then Some (with_pipe s (MkPipe (reading p) (data p) false (written p) (clean p)) c) else None.

Definition exits (w : waitError) (c : child) : option child :=
  match ended c with
  | None => Some (MkChild (pid c) (cbs c) (out c) (err c) (at_ c) (Some w) (queue c) (ran c))
  | Some _ => None
  end.

(** *** The goroutines *)

(** r.Read returns [n] bytes, and with [e] an error: whether it is io.EOF. *)
Definition pump_read (s : stream) (n : nat) (e : option bool) (c : child) : option child :=
  let p := pipe_of s c in
  match reading p with
  | Reading =>
      let possible :=
        (Z.of_nat n <=? 32768) && (n <=? length (data p))%nat &&
        match e with
        | None => (0 <? n)%nat
        | Some true => (n =? length (data p))%nat && negb (open_ p)
        | Some false => true
        end in
      if possible then
        let p' := MkPipe (match e with None => Reading | Some _ => Ended end) (drop n (data p)) (open_ p) (written p)
                    (bool_decide (e = Some true)) in
        Some (Post (if (0 <? n)%nat then [Chunk s (take n (data p))] else []) (with_pipe s p' c))
      else None
  | _ => None
  end.

Definition idle (p : pipe) : bool := match reading p with Reading => false | _ => true end.

(** The waiting goroutine, but for what it does to the tables. *)
Definition waiter_step (sw : option nat) (c : child) : option child :=
  match at_ c with
  | WaitOut => if idle (out c) then Some (goto WaitErr c) else None
  | WaitErr => if idle (err c) then Some (goto WaitExit c) else None
  | WaitExit => match ended c with Some _ => Some (goto Forget c) | None => None end
  | Forget => Some (goto (StopStdin sw) c)
  | StopStdin _ => Some (goto Report c)
  | Report =>
      match ended c with
      | Some w => let '(code, sig) := exitInfo w in Some (goto Release (Post [Exit code sig] c))
      | None => None
      end
  | Release => Some (goto Gone c)
  | Gone => None
  end.

(** *** The loop *)

Inductive event := CallData (h : Z) (b : bytes) | CallExit (h : Z) (code : option Z) (sig : option bytes) | Free (h : Z).

Definition handles (c : callbacks) : list Z :=
  option_list (onStdout c) ++ option_list (onStderr c) ++ option_list (onExit c) ++ option_list (onError c).

(** What the guest sees of a posted function; [ok]: NewBytes succeeds. *)
Definition effect (c : callbacks) (p : post) (ok : bool) : list event :=
  match p with
  | Chunk s b => if ok then map (λ h, CallData h b) (option_list (match s with Out => onStdout c | Err_ => onStderr c end)) else []
  | Exit code sig => map (λ h, CallExit h code sig) (option_list (onExit c)) ++ map Free (handles c)
  end.

Definition seen (c : child) : list event := flat_map (λ po, effect (cbs c) po.1 po.2) (ran c).

Definition run_post (ok : bool) (c : child) : option child :=
  match queue c with
  | [] => None
  | p :: ps => Some (MkChild (pid c) (cbs c) (out c) (err c) (at_ c) (ended c) ps (ran c ++ [(p, ok)]))
  end.

Inductive label :=
| Writes (s : stream) (b : bytes)
| Shuts (s : stream)
| Exits (w : waitError)
| PumpRead (s : stream) (n : nat) (e : option bool)
| Waiter (sw : option nat)
| RunPost (ok : bool).

Definition step (l : label) (c : child) : option child :=
  match l with
  | Writes s b => writes s b c
  | Shuts s => shuts s c
  | Exits w => exits w c
  | PumpRead s n e => pump_read s n e c
  | Waiter sw => waiter_step sw c
  | RunPost ok => run_post ok c
  end.

Inductive reach (p : Z) (cb : callbacks) : child → Prop :=
| reach_spawned : reach p cb (spawned p cb)
| reach_step l c c' : reach p cb c → step l c = Some c' → reach p cb c'.

(** The steps that are the host's own. *)
Definition own (l : label) : bool := match l with PumpRead _ _ _ | Waiter _ | RunPost _ => true | _ => false end.

Fixpoint steps (ls : list label) (c : child) : option child :=
  match ls with [] => Some c | l :: ls' => c' ← step l c; steps ls' c' end.

End Proc.

Import Proc.

#[export] Instance stream_eq_dec : EqDecision stream.
Proof. solve_decision. Defined.

(** Everything posted so far, and the bytes of a stream in it. *)
Definition history (c : child) : list post := map fst (ran c) ++ queue c.

Definition shown (s : stream) (ps : list post) : bytes :=
  flat_map (λ p, match p with Chunk s' b => if decide (s' = s) then b else [] | Exit _ _ => [] end) ps.

Definition is_chunk (p : post) : Prop :=
  match p with Chunk _ b => (0 < length b)%nat ∧ Z.of_nat (length b) <= 32768 | Exit _ _ => False end.

(** How far the waiting goroutine is past a point. *)
Definition rank (w : waiter) : nat :=
  match w with
  | WaitOut => 0 | WaitErr => 1 | WaitExit => 2 | Forget => 3 | StopStdin _ => 4 | Report => 5 | Release => 6 | Gone => 7
  end.

Definition pipe_ok (cb : option Z) (s : stream) (ps : list post) (p : pipe) : Prop :=
  written p = shown s ps ++ data p ∧
  (clean p = true → data p = [] ∧ open_ p = false ∧ reading p = Ended) ∧
  (reading p = NoReader ↔ cb = None) ∧ (reading p = NoReader → shown s ps = []).

Record child_inv (n : Z) (cb : callbacks) (c : child) : Prop := {
  ci_pid : pid c = n;
  ci_cbs : cbs c = cb;
  ci_posts : ∃ ps, history c = ps ++ match ended c with
                                    | Some w => if (6 <=? rank (at_ c))%nat then [Exit (exitInfo w).1 (exitInfo w).2] else []
                                    | None => []
                                    end ∧ Forall is_chunk ps;
  ci_out : pipe_ok (onStdout cb) Out (history c) (out c);
  ci_err : pipe_ok (onStderr cb) Err_ (history c) (err c);
  ci_out_idle : (1 <= rank (at_ c))%nat → idle (out c) = true;
  ci_err_idle : (2 <= rank (at_ c))%nat → idle (err c) = true;
  ci_ended : (3 <= rank (at_ c))%nat → is_Some (ended c)
}.

Lemma shown_app s ps qs : shown s (ps ++ qs) = shown s ps ++ shown s qs.
Proof. apply flat_map_app. Qed.

Lemma children_history_post c ps : history (Post ps c) = history c ++ ps.
Proof. unfold history. simpl. by rewrite app_assoc. Qed.

Lemma history_pipe s p c : history (with_pipe s p c) = history c.
Proof. by destruct s. Qed.

Lemma pipe_post cb s ps p q : shown s q = [] → pipe_ok cb s ps p → pipe_ok cb s (ps ++ q) p.
Proof. intros Hq. unfold pipe_ok. by rewrite shown_app, Hq, app_nil_r. Qed.

Lemma with_pipe_same s p c :
  pid (with_pipe s p c) = pid c ∧ cbs (with_pipe s p c) = cbs c ∧ at_ (with_pipe s p c) = at_ c ∧ ended (with_pipe s p c) = ended c ∧
  ran (with_pipe s p c) = ran c ∧ queue (with_pipe s p c) = queue c.
Proof. by destruct s. Qed.

(** The pipe's own changes keep the invariant: what it holds and what was shown of
    it make up what was written, and its reader does not start again. *)
Lemma with_pipe_inv n cb s p c :
  child_inv n cb c →
  pipe_ok (match s with Out => onStdout cb | Err_ => onStderr cb end) s (history c) p →
  (idle (pipe_of s c) = true → idle p = true) →
  child_inv n cb (with_pipe s p c).
Proof.
  intros [] Hp Hi. destruct s; split; simpl in *; try done; auto.
Qed.

Lemma chunk_inv n cb s b p c :
  child_inv n cb c → reading (pipe_of s c) = Reading → is_chunk (Chunk s b) →
  pipe_ok (match s with Out => onStdout cb | Err_ => onStderr cb end) s (history c ++ [Chunk s b]) p →
  child_inv n cb (Post [Chunk s b] (with_pipe s p c)).
Proof.
  intros [] Hr Hb Hp.
  assert (Hrank : (rank (at_ c) < match s with Out => 1 | Err_ => 2 end)%nat).
  { apply Nat.nle_gt. intros Hle. destruct s; simpl in Hr; [specialize (ci_out_idle0 Hle)|specialize (ci_err_idle0 Hle)];
      unfold idle in *; by rewrite Hr in *. }
  assert (rank (at_ c) < 2)%nat as Hrank2 by (destruct s; lia).
  assert (Hposts : ∃ ps, history c ++ [Chunk s b] = ps ++ match ended c with
      | Some w => if (6 <=? rank (at_ c))%nat then [Exit (exitInfo w).1 (exitInfo w).2] else [] | None => [] end ∧ Forall is_chunk ps).
  { destruct ci_posts0 as (ps & Hps & Hch). exists (ps ++ [Chunk s b]). split; [|apply Forall_app; split; [done|by apply Forall_singleton]].
    rewrite (proj2 (Nat.leb_gt 6 _)) in Hps |- * by lia. by destruct (ended c); rewrite app_nil_r in Hps |- *; rewrite Hps. }
  assert (∀ s', s' ≠ s → shown s' [Chunk s b] = []) as Hother by (intros s' ?; simpl; by rewrite decide_False).
  destruct s; split; rewrite ?children_history_post, ?history_pipe; simpl in *; try done; try (intros; lia); auto; by apply pipe_post; [apply Hother|].
Qed.

Lemma shown_chunk s b : shown s [Chunk s b] = b.
Proof. simpl. by rewrite decide_True, app_nil_r. Qed.

Lemma pipe_of_ok n cb s c : child_inv n cb c →
  pipe_ok (match s with Out => onStdout cb | Err_ => onStderr cb end) s (history c) (pipe_of s c).
Proof. intros []. by destruct s. Qed.

Lemma pump_read_inv n cb s k e c c' : pump_read s k e c = Some c' → child_inv n cb c → child_inv n cb c'.
Proof.
  intros Hs Hi. pose proof (pipe_of_ok n cb s c Hi) as (Hw & Hcl & Hno & Hns). unfold pump_read in Hs.
  destruct (reading (pipe_of s c)) eqn:Hr; try done. destruct (_ && _) eqn:Hp; [|done]. injection Hs as <-.
  rewrite !andb_true_iff in Hp. destruct Hp as [[Hk Hlen] He]. apply Nat.leb_le in Hlen.
  set (p' := MkPipe _ _ _ _ _).
  assert (Hp' : ∀ ps, shown s ps = shown s (history c) ++ take k (data (pipe_of s c)) →
    pipe_ok (match s with Out => onStdout cb | Err_ => onStderr cb end) s ps p').
  { intros ps Hps. unfold pipe_ok. rewrite Hps. subst p'. simpl. rewrite <- app_assoc, take_drop. split_and!; [done| | |by destruct e].
    - intros Hc%bool_decide_eq_true. subst e. apply andb_true_iff in He as [Hl Ho]. apply Nat.eqb_eq in Hl. subst k.
      rewrite drop_all. by destruct (open_ (pipe_of s c)).
    - by destruct e; rewrite <- Hno. }
  destruct (Nat.ltb_spec 0 k) as [Hpos|Hz].
  - apply chunk_inv; [done|done| |].
    + unfold is_chunk. rewrite length_take. lia.
    + apply Hp'. rewrite shown_app, shown_chunk. done.
  - assert (k = 0%nat) as -> by lia. assert (Hsame : child_inv n cb (with_pipe s p' c)).
    { apply with_pipe_inv; [done| |].
      - apply Hp'. by rewrite app_nil_r.
      - unfold idle. by rewrite Hr. }
    unfold Post. rewrite app_nil_r. by destruct (with_pipe s p' c).
Qed.

Lemma waiter_inv n cb sw c c' : waiter_step sw c = Some c' → child_inv n cb c → child_inv n cb c'.
Proof.
  intros Hs []. unfold waiter_step in Hs.
  destruct (at_ c) eqn:Hat; simpl in *;
    try (destruct (idle _) eqn:?; [|done]); try (destruct (ended c) as [w|] eqn:Hend; [|done]); simplify_eq.
  1-5, 7: split; unfold history, goto in *; simpl in *; rewrite ?Hend; auto with lia; try (intros; lia); eauto.
  destruct (exitInfo w) as [code sig] eqn:Hx. injection Hs as <-. destruct ci_posts0 as (ps & Hps & Hch). rewrite app_nil_r in Hps.
  split; simpl; rewrite ?Hend, ?Hx; auto with lia.
  - exists ps. split; [|done]. unfold history in *. simpl in *. by rewrite app_assoc, Hps.
  - unfold history in *. simpl in *. rewrite app_assoc. by apply pipe_post.
  - unfold history in *. simpl in *. rewrite app_assoc. by apply pipe_post.
Qed.

Lemma child_step_inv n cb l c c' : step l c = Some c' → child_inv n cb c → child_inv n cb c'.
Proof.
  intros Hs Hi. destruct l as [s b|s|w|s k e|sw|ok]; simpl in Hs.
  - unfold writes in Hs. destruct (open_ (pipe_of s c)) eqn:Ho; [|done]. injection Hs as <-.
    pose proof (pipe_of_ok n cb s c Hi) as (Hw & Hcl & Hno & Hns). apply with_pipe_inv; [done| |done].
    split_and!; simpl; [by rewrite Hw, app_assoc| |done|done]. intros Hc. destruct (Hcl Hc) as (_ & ? & _). congruence.
  - unfold shuts in Hs. destruct (open_ (pipe_of s c)) eqn:Ho; [|done]. injection Hs as <-.
    pose proof (pipe_of_ok n cb s c Hi) as (Hw & Hcl & Hno & Hns). apply with_pipe_inv; [done| |done].
    split_and!; simpl; [done| |done|done]. intros Hc. by destruct (Hcl Hc) as (? & _ & ?).
  - unfold exits in Hs. destruct (ended c) eqn:He; [done|]. injection Hs as <-. destruct Hi.
    assert (rank (at_ c) < 3)%nat as Hr.
    { apply Nat.nle_gt. intros Hle. destruct (ci_ended0 Hle). congruence. }
    split; [done|done| |done|done|done|done|by eexists]. rewrite He in ci_posts0. cbn [ended at_].
    by rewrite (proj2 (Nat.leb_gt 6 _)) by lia.
  - by eapply pump_read_inv.
  - by eapply waiter_inv.
  - unfold run_post in Hs. destruct (queue c) as [|p ps] eqn:Hq; [done|]. injection Hs as <-.
    assert (Hh : history (MkChild (pid c) (cbs c) (out c) (err c) (at_ c) (ended c) ps (ran c ++ [(p, ok)])) = history c).
    { unfold history. simpl. by rewrite map_app, Hq, <- app_assoc. }
    destruct Hi. split; rewrite ?Hh; auto.
Qed.

Lemma child_reach_inv n cb c : reach n cb c → child_inv n cb c.
Proof.
  induction 1 as [|l c c' _ IH Hs]; [|by eapply child_step_inv].
  assert (∀ cb' s, pipe_ok cb' s [] (new_pipe cb')) as Hnew by (intros cb' s; split_and!; [done|done|by destruct cb'|done]).
  split; simpl; try done; try (intros; lia); try apply Hnew. by exists [].
Qed.

(** C33: What a child writes arrives in order and before its exit. The functions
    posted for a child are chunks of one to 32768 bytes and at the very end, at
    most once, the exit; for each of its two streams the chunks in order are a
    prefix of what was written to it, with nothing lost while the reader goes
    on, and when the reader came to the end of the file they are everything that
    will ever be written. The exit is posted only when neither stream is read any
    more and the process has ended, with the code or the signal it ended with. *)
Theorem child_output_then_exit (n : Z) (cb : callbacks) (c : child) (Hr : reach n cb c) :
  ∃ chunks ends, history c = chunks ++ ends ∧ Forall is_chunk chunks ∧
    (∀ s, written (pipe_of s c) = shown s chunks ++ data (pipe_of s c) ∧
       (clean (pipe_of s c) = true → shown s chunks = written (pipe_of s c) ∧ writes s [] c = None)) ∧
    (ends = [] ∨ ∃ w, ends = [Exit (exitInfo w).1 (exitInfo w).2] ∧ ended c = Some w ∧
       ∀ s k e, pump_read s k e c = None).
Proof.
  apply child_reach_inv in Hr. pose proof Hr as [_ _ (ps & Hps & Hch) _ _ Hoi Hei _]. eexists ps, _. split_and!; [exact Hps|done| |].
  - intros s. pose proof (pipe_of_ok n cb s c Hr) as (Hw & Hcl & _ & _).
    assert (shown s (history c) = shown s ps) as Hsh.
    { rewrite Hps, shown_app. destruct (ended c); [|by rewrite app_nil_r]. case_match; by rewrite app_nil_r. }
    rewrite Hsh in Hw. split; [done|]. intros Hc. destruct (Hcl Hc) as (Hd & Ho & _). rewrite Hw, Hd, app_nil_r.
    unfold writes. by rewrite Ho.
  - destruct (ended c) as [w|]; [|by left]. destruct (Nat.leb_spec 6 (rank (at_ c))); [|by left]. right. exists w. split_and!; [done|done|].
    specialize (Hoi ltac:(lia)). specialize (Hei ltac:(lia)). intros s k e. unfold pump_read, idle in *.
    destruct s; simpl; [destruct (reading (out c))|destruct (reading (err c))]; done.
Qed.

(** ** Callbacks *)

(** What the guest sees at the exit: one call, and the release of everything. *)
Definition farewell (cb : callbacks) (w : waitError) : list event :=
  map (λ h, CallExit h (exitInfo w).1 (exitInfo w).2) (option_list (onExit cb)) ++ map Free (handles cb).

Definition is_data (cb : callbacks) (e : event) : Prop :=
  match e with CallData h _ => onStdout cb = Some h ∨ onStderr cb = Some h | _ => False end.

Lemma chunk_events cb p ok : is_chunk p → Forall (is_data cb) (effect cb p ok).
Proof.
  destruct p as [s b|]; [|done]. intros _. simpl. destruct ok; [|constructor].
  destruct s; [destruct (onStdout cb) eqn:E|destruct (onStderr cb) eqn:E]; simpl; try constructor; simpl; auto.
Qed.

Lemma seen_data cb (rs : list (post * bool)) : Forall is_chunk (map fst rs) →
  Forall (is_data cb) (flat_map (λ po, effect cb po.1 po.2) rs).
Proof.
  induction rs as [|[p ok] rs IH]; [constructor|]. simpl. intros [Hp Hrs]%Forall_cons. apply Forall_app.
  split; [by apply chunk_events|auto].
Qed.

(** The exit is the last thing that happens to a child's callbacks. *)
Lemma seen_shape n cb c : reach n cb c →
  ∃ es tail, seen c = es ++ tail ∧ Forall (is_data cb) es ∧
    (tail = [] ∨ ∃ w, ended c = Some w ∧ tail = farewell cb w) ∧
    (queue c = [] → at_ c = Gone → ∃ w, ended c = Some w ∧ tail = farewell cb w).
Proof.
  intros Hr%child_reach_inv. destruct Hr as [_ Hcb (ps & Hps & Hch) _ _ _ _ Hend]. unfold history in Hps. unfold seen. rewrite Hcb.
  assert (Hno : Forall is_chunk (map fst (ran c)) → (queue c = [] → at_ c ≠ Gone) →
    ∃ es tail, flat_map (λ po, effect cb po.1 po.2) (ran c) = es ++ tail ∧ Forall (is_data cb) es ∧
    (tail = [] ∨ ∃ w, ended c = Some w ∧ tail = farewell cb w) ∧
    (queue c = [] → at_ c = Gone → ∃ w, ended c = Some w ∧ tail = farewell cb w)).
  { intros Hran Hq. eexists _, []. rewrite app_nil_r. split_and!; [done|by apply seen_data|by left|]. intros ? ?. by destruct Hq. }
  destruct (ended c) as [w|].
  2: { rewrite app_nil_r in Hps. apply Hno; [rewrite <- Hps in Hch; by apply Forall_app in Hch as [? _]|].
       intros _ Hg. rewrite Hg in Hend. destruct (Hend ltac:(simpl; lia)). done. }
  destruct (Nat.leb_spec 6 (rank (at_ c))) as [Hle|Hlt].
  2: { rewrite app_nil_r in Hps. apply Hno; [rewrite <- Hps in Hch; by apply Forall_app in Hch as [? _]|].
       intros _ Hg. rewrite Hg in Hlt. simpl in Hlt. lia. }
  destruct (queue c) as [|p q _] eqn:Hq using rev_ind.
  - rewrite app_nil_r in Hps. apply map_eq_app in Hps as (rs1 & rs2 & Hran & Hrs1 & Hrs2).
    destruct rs2 as [|[p ok] [|? ?]]; try done. simpl in Hrs2. injection Hrs2 as ->. rewrite Hran, flat_map_app.
    exists (flat_map (λ po, effect cb po.1 po.2) rs1), (farewell cb w). split_and!.
    + simpl. by rewrite app_nil_r.
    + apply seen_data. by rewrite Hrs1.
    + right. eauto.
    + eauto.
  - rewrite app_assoc in Hps. apply app_inj_tail in Hps as [Hps _]. apply Hno.
    + rewrite <- Hps in Hch. by apply Forall_app in Hch as [? _].
    + by destruct q.
Qed.

(** A child's callbacks are used properly: what the guest sees is calls of
    onStdout and onStderr with data, then, at most once and after all of them,
    the call of onExit with the code and the signal the process ended with, and
    the release of each of the four callbacks once; onError is never called, and
    nothing follows a release. *)
Theorem child_callbacks_once (n : Z) (cb : callbacks) (c : child) (Hr : reach n cb c) :
  ∃ data_calls, Forall (is_data cb) data_calls ∧
    (seen c = data_calls ∨
     ∃ w, ended c = Some w ∧
       seen c = data_calls ++ map (λ h, CallExit h (exitInfo w).1 (exitInfo w).2) (option_list (onExit cb)) ++
                  map Free (option_list (onStdout cb) ++ option_list (onStderr cb) ++ option_list (onExit cb) ++ option_list (onError cb))).
Proof.
  destruct (seen_shape n cb c Hr) as (es & tail & Hs & Hes & Ht & _). exists es. split; [done|].
  destruct Ht as [->|(w & Hw & ->)]; [left; by rewrite app_nil_r in Hs|right; eauto].
Qed.

(** ** The end of a child *)

Definition pipe_weight (p : pipe) : nat := match reading p with Reading => 2 * length (data p) + 2 | _ => 0 end.

Definition weight (c : child) : nat :=
  pipe_weight (out c) + pipe_weight (err c) + 2 * (7 - rank (at_ c)) + length (queue c).

Lemma own_weight l c c' : own l = true → step l c = Some c' → (weight c' < weight c)%nat.
Proof.
  intros Ho Hs. destruct l as [s b|s|w|s k e|sw|ok]; try done; simpl in Hs.
  - unfold pump_read in Hs. destruct (reading (pipe_of s c)) eqn:Hr; try done. destruct (_ && _) eqn:Hp; [|done]. injection Hs as <-.
    rewrite !andb_true_iff in Hp. destruct Hp as [[_ Hlen] He]. apply Nat.leb_le in Hlen.
    assert (∀ q, length (queue (Post q c)) = length (queue c) + length q)%nat as Hq by (intros q; simpl; by rewrite length_app).
    assert (length (if (0 <? k)%nat then [Chunk s (take k (data (pipe_of s c)))] else []) ≤ 1)%nat as Hone by (destruct (0 <? k)%nat; simpl; lia).
    assert (e = None → 0 < k)%nat as Hk by (intros ->; by apply Nat.ltb_lt).
    set (q := if (0 <? k)%nat then _ else _) in *.
    unfold weight, pipe_weight. destruct s; simpl in *; rewrite Hr, length_app, length_drop;
      (destruct e as [b|]; simpl; [lia|specialize (Hk eq_refl); lia]).
  - unfold waiter_step in Hs. unfold weight. destruct (at_ c) eqn:Hat;
      try (destruct (idle _); [|done]); try (destruct (ended c) as [w'|]; [|done]); try (destruct (exitInfo w'));
      simplify_eq/=; rewrite ?length_app; simpl; lia.
  - unfold run_post in Hs. destruct (queue c) eqn:Hq; [done|]. injection Hs as <-. unfold weight. simpl. rewrite Hq. simpl. lia.
Qed.

Lemma children_own_keeps l c c' : own l = true → step l c = Some c' →
  ended c' = ended c ∧ ∀ s, open_ (pipe_of s c') = open_ (pipe_of s c).
Proof.
  intros Ho Hs. destruct l as [s b|s|w|s k e|sw|ok]; try done; simpl in Hs.
  - unfold pump_read in Hs. destruct (reading (pipe_of s c)); try done. destruct (_ && _); [|done]. injection Hs as <-.
    split; [by destruct s|]. by intros []; destruct s.
  - unfold waiter_step in Hs. destruct (at_ c) eqn:?; repeat case_match; by simplify_eq.
  - unfold run_post in Hs. destruct (queue c); by simplify_eq.
Qed.

(** A child whose process has ended and whose pipes have no writer left is done
    with: only finitely many steps of the host's own are left, whatever their
    order, and when none is possible any more, the waiting goroutine has gone,
    everything posted has run, and the guest has seen the exit and all four
    callbacks released. *)
Theorem child_settles (n : Z) (cb : callbacks) (c : child) (w : waitError) (ls : list label) (c' : child)
  (Hr : reach n cb c) (He : ended c = Some w) (Ho : ∀ s, open_ (pipe_of s c) = false)
  (Hls : Forall (λ l, own l = true) ls) (Hs : steps ls c = Some c') :
  (length ls + weight c' <= weight c)%nat ∧
  ((∀ l, own l = true → step l c' = None) → at_ c' = Gone ∧ queue c' = [] ∧ ∃ es, seen c' = es ++ farewell cb w).
Proof.
  revert c Hr He Ho Hs. induction Hls as [|l ls Hl _ IH]; intros c Hr He Ho Hs; simpl in Hs.
  - injection Hs as <-. split; [simpl; lia|]. intros Hstuck.
    assert (Hrd : ∀ s, reading (pipe_of s c) ≠ Reading).
    { intros s Hrd. destruct (Z.leb_spec (Z.of_nat (length (data (pipe_of s c)))) 32768) as [Hd|Hd].
      - specialize (Hstuck (PumpRead s (length (data (pipe_of s c))) (Some true)) eq_refl). simpl in Hstuck. unfold pump_read in Hstuck.
        by rewrite Hrd, Ho, (proj2 (Z.leb_le _ _)), Nat.leb_refl, Nat.eqb_refl in Hstuck by lia.
      - specialize (Hstuck (PumpRead s (Z.to_nat 32768) None) eq_refl). cbn [step] in Hstuck. unfold pump_read in Hstuck.
        rewrite Hrd in Hstuck. rewrite Z2Nat.id in Hstuck by lia.
        rewrite (proj2 (Nat.leb_le (Z.to_nat 32768) _)) in Hstuck by lia. rewrite (proj2 (Nat.ltb_lt 0 (Z.to_nat 32768))) in Hstuck by lia.
        done. }
    assert (Hq : queue c = []).
    { specialize (Hstuck (RunPost true) eq_refl). simpl in Hstuck. unfold run_post in Hstuck. by destruct (queue c). }
    assert (Hg : at_ c = Gone).
    { specialize (Hstuck (Waiter None) eq_refl). simpl in Hstuck. unfold waiter_step, idle in Hstuck. rewrite He in Hstuck.
      pose proof (Hrd Out) as H1. pose proof (Hrd Err_) as H2. simpl in H1, H2.
      destruct (exitInfo w). destruct (at_ c), (reading (out c)), (reading (err c)); done. }
    split_and!; [done|done|]. destruct (seen_shape n cb c Hr) as (es & tail & Hseen & _ & _ & Hend).
    destruct (Hend Hq Hg) as (w' & Hw' & ->). assert (w' = w) as -> by congruence. by exists es.
  - destruct (step l c) as [c1|] eqn:Hs1; [|done]. simpl in Hs. pose proof (own_weight l c c1 Hl Hs1).
    destruct (children_own_keeps l c c1 Hl Hs1) as [Hend Hop].
    destruct (IH c1) as [Hw Hst]; [by eapply reach_step|congruence|intros s; by rewrite Hop|done|]. split; [simpl; lia|done].
Qed.

(** ** All children *)

Module Children.

(** procState, with every child that was started and its stdin writer; the tables
    give an index. [started] are the commands of child_spawn that were started and
    [synced] those child_spawnsync ran, with the options they came from;
    [signalled] the signals sent, [freed] the handles released by the operations
    themselves. *)
Record world := MkWorld {
  procs : gmap Z nat;
  stdin : gmap Z nat;
  children : list child;
  writers : list (option Writer.world);
  pending : Z;
  started : list (options * command);
  synced : list (options * command);
  signalled : list (nat * Z);
  freed : list Z
}.

Definition newProcState : world := MkWorld ∅ ∅ [] [] 0 [] [] [] [].

Definition with_tables (p s : gmap Z nat) (w : world) : world :=
  MkWorld p s (children w) (writers w) (pending w) (started w) (synced w) (signalled w) (freed w).
Definition with_children (l : list child) (w : world) : world :=
  MkWorld (procs w) (stdin w) l (writers w) (pending w) (started w) (synced w) (signalled w) (freed w).
Definition on_writer (i : nat) (f : Writer.world → Writer.world) (w : world) : world :=
  MkWorld (procs w) (stdin w) (children w) (alter (fmap f) i (writers w)) (pending w) (started w) (synced w) (signalled w) (freed w).
Definition add_pending (n : Z) (w : world) : world :=
  MkWorld (procs w) (stdin w) (children w) (writers w) (pending w + n) (started w) (synced w) (signalled w) (freed w).
Definition freeObjects (hs : list Z) (w : world) : world :=
  MkWorld (procs w) (stdin w) (children w) (writers w) (pending w) (started w) (synced w) (signalled w) (freed w ++ hs).

(** cmd.Wait has returned: the process id is free again. *)
Definition reaped (c : child) : bool := (3 <=? rank (at_ c))%nat.

(** cmd.Process.Signal: nothing for a process that was waited for. *)
Definition send_signal (i : nat) (sig : Z) (w : world) : world :=
  match children w !! i with
  | Some c =>
      if reaped c then w
      else MkWorld (procs w) (stdin w) (children w) (writers w) (pending w) (started w) (synced w) (signalled w ++ [(i, sig)]) (freed w)
  | None => w
  end.

Section Ops.
Context (Exec : option (bytes → list bytes → bool)) (cfgEnv : list bytes).

(** The writer of a child's stdin, attached and running. *)
Definition stdin_writer : Writer.world := Writer.do_go (Writer.do_attach Writer.start).

(** [start] is cmd.Start: the error's text, or the process id and whether there
    is a stdin pipe. *)
Definition opChildSpawn (o : options) (cb : callbacks) (start : result bytes (Z * bool)) (w : world) : answer Z * world :=
  match cmdArgv o with
  | None => (Fails, freeObjects (handles cb) w)
  | Some (f, argv) =>
      match execAllowed Exec f argv with
      | Err m => (Refused (childErr m) m, freeObjects (handles cb) w)
      | Ok _ =>
          match start with
          | Err m => (Refused (childErr m) m, freeObjects (handles cb) w)
          | Ok (p, pipe) =>
              let i := length (children w) in
              (Answers p,
               add_pending 1
                 (MkWorld (<[p := i]> (procs w)) (if pipe then <[p := i]> (stdin w) else stdin w)
                    (children w ++ [spawned p cb]) (writers w ++ [if pipe then Some stdin_writer else None]) (pending w)
                    (started w ++ [(o, applyCwdEnv f argv o cfgEnv)]) (synced w) (signalled w) (freed w)))
          end
      end
  end.

(** [h] is the handle of the second argument, when it is an object, [input] its
    bytes; [run] is cmd.Run: the process id when it started, how it ended, and its
    output. The engine makes the objects of the answer: when it cannot, the call
    fails after the command has run. *)
Definition opChildSpawnSync (o : options) (h : option Z) (input : option bytes)
    (run : command → bytes → option Z * waitError * bytes * bytes) (w : world) : answer syncResult * world :=
  match cmdArgv o with
  | None => (Fails, freeObjects (option_list h) w)
  | Some (f, argv) =>
      match execAllowed Exec f argv with
      | Err m => (Refused (childErr m) m, freeObjects (option_list h) w)
      | Ok _ =>
          let cmd := applyCwdEnv f argv o cfgEnv in
          let '(p, werr, so, se) := run cmd (default [] input) in
          let '(code, sig) := exitInfo werr in
          (Answers (MkSync code sig (default 0 p)
             match werr, code, sig with
             | NoError, _, _ | _, Some _, _ | _, _, Some _ => None
             | _, None, None => Some (wait_text werr)
             end so se),
           freeObjects (option_list h)
             (MkWorld (procs w) (stdin w) (children w) (writers w) (pending w) (started w) (synced w ++ [(o, cmd)])
                (signalled w) (freed w)))
      end
  end.

(** The second argument of child_stdin: null or undefined, or an object or text
    with its bytes. *)
Inductive input := Finish | Data (handle : option Z) (b : option bytes).

(** The answer; [None] is a Go error. *)
Definition opChildStdin (p : Z) (i : input) (w : world) : option bool * world :=
  match stdin w !! p, i with
  | None, Data h _ => (Some false, freeObjects (option_list h) w)
  | None, Finish => (Some false, w)
  | Some k, Finish => (Some true, with_tables (procs w) (delete p (stdin w)) (on_writer k Writer.do_requestClose w))
  | Some k, Data h None => (None, freeObjects (option_list h) w)
  | Some k, Data h (Some b) =>
      let item := Writer.MkWrite b None in
      let ok := match writers w !! k with Some (Some s) => (Writer.do_enqueue item s).1 | _ => false end in
      (Some ok, freeObjects (option_list h) (on_writer k (λ s, (Writer.do_enqueue item s).2) w))
  end.

(** [name] is the text of the second argument, when it is given. *)
Definition opChildKill (p : Z) (name : option bytes) (w : world) : world :=
  let sig := match name with Some n => signalByName n | None => 15 end in
  match procs w !! p with Some i => send_signal i sig w | None => w end.

Definition closeChild (w : world) : world :=
  foldl (λ w pi, send_signal pi.2 9 w) (with_tables ∅ (stdin w) w) (map_to_list (procs w)).

(** A step of a child's process or goroutines; the waiting goroutine looks the
    stdin writer up where it takes the entries out, closes it, and gives the
    pending count back. *)
Definition child_step (i : nat) (l : label) (w : world) : option world :=
  c ← children w !! i;
  match l with
  | Waiter sw =>
      if bool_decide (sw = stdin w !! pid c) then
        c' ← step l c;
        let w1 := with_children (<[i := c']> (children w)) w in
        Some match at_ c with
             | Forget => with_tables (delete (pid c) (procs w1)) (delete (pid c) (stdin w1)) w1
             | StopStdin (Some k) => on_writer k Writer.do_requestClose w1
             | Release => add_pending (-1) w1
             | _ => w1
             end
      else None
  | _ => c' ← step l c; Some (with_children (<[i := c']> (children w)) w)
  end.

(** A step of a stdin writer's goroutine, or of a wake-up on its way. *)
Definition writer_step (i : nat) (l : Writer.label) (w : world) : option world :=
  match l with
  | Writer.Do _ | Writer.Signal =>
      s ← writers w !! i; s0 ← s; s' ← Writer.step l s0; Some (on_writer i (λ _, s') w)
  | _ => None
  end.

Inductive op :=
| OpSpawn (o : options) (cb : callbacks) (start : result bytes (Z * bool))
| OpSpawnSync (o : options) (h : option Z) (input : option bytes) (run : command → bytes → option Z * waitError * bytes * bytes)
| OpStdin (p : Z) (i : input)
| OpKill (p : Z) (name : option bytes)
| CloseChild
| OfChild (i : nat) (l : label)
| OfWriter (i : nat) (l : Writer.label).

(** The kernel gives no process the id of one that was not waited for. *)
Definition possible (o : op) (w : world) : bool :=
  match o with
  | OpSpawn _ _ (Ok (p, _)) => forallb (λ c, negb (pid c =? p) || reaped c) (children w)
  | _ => true
  end.

Definition world_step (o : op) (w : world) : option world :=
  if possible o w then
    match o with
    | OpSpawn opts cb start => Some (opChildSpawn opts cb start w).2
    | OpSpawnSync opts h b run => Some (opChildSpawnSync opts h b run w).2
    | OpStdin p i => Some (opChildStdin p i w).2
    | OpKill p name => Some (opChildKill p name w)
    | CloseChild => Some (closeChild w)
    | OfChild i l => child_step i l w
    | OfWriter i l => writer_step i l w
    end
  else None.

Inductive reachable : world → Prop :=
| reachable_new : reachable newProcState
| reachable_step o w w' : reachable w → world_step o w = Some w' → reachable w'.

Fixpoint world_steps (os : list op) (w : world) : option world :=
  match os with [] => Some w | o :: os' => w' ← world_step o w; world_steps os' w' end.

End Ops.
End Children.

Import Children.

Section World.
Context (Exec : option (bytes → list bytes → bool)) (cfgEnv : list bytes).

Definition live (c : child) : nat := match at_ c with Gone => 0 | _ => 1 end.

(** A command started by leave of Config.Exec, with an environment of the
    sandbox's. *)
Definition approved (oc : options * command) : Prop :=
  ∃ allow f argv, Exec = Some allow ∧ cmdArgv oc.1 = Some (f, argv) ∧ allow f argv = true ∧
    Path oc.2 = f ∧ Argv oc.2 = argv ∧ Env oc.2 = match envArray oc.1 with Some e => e | None => cfgEnv end.

Record world_inv (w : world) : Prop := {
  wi_pending : pending w = Z.of_nat (sum_list_with live (children w));
  wi_started : Forall approved (started w);
  wi_synced : Forall approved (synced w);
  wi_children : Forall (λ c, reach (pid c) (cbs c) c) (children w);
  wi_length : length (started w) = length (children w)
}.

Lemma step_same l c c' : step l c = Some c' → pid c' = pid c ∧ cbs c' = cbs c.
Proof.
  intros Hs. destruct l as [s b|s|w|s k e|sw|ok]; simpl in Hs.
  - unfold writes in Hs. destruct (open_ _); simplify_eq. by destruct s.
  - unfold shuts in Hs. destruct (open_ _); simplify_eq. by destruct s.
  - unfold exits in Hs. by destruct (ended c); simplify_eq.
  - unfold pump_read in Hs. destruct (reading _); try done. destruct (_ && _); simplify_eq. by destruct s.
  - unfold waiter_step in Hs. destruct (at_ c) eqn:?; repeat case_match; by simplify_eq.
  - unfold run_post in Hs. by destruct (queue c); simplify_eq.
Qed.

(** Where the waiting goroutine goes. *)
Lemma children_step_live l c c' : step l c = Some c' →
  (live c' + match l with Waiter _ => match at_ c with Release => 1 | _ => 0 end | _ => 0 end = live c)%nat.
Proof.
  intros Hs. unfold live. destruct l as [s b|s|w|s k e|sw|ok]; simpl in Hs.
  - unfold writes in Hs. destruct (open_ _); simplify_eq. rewrite Nat.add_0_r. by destruct s.
  - unfold shuts in Hs. destruct (open_ _); simplify_eq. rewrite Nat.add_0_r. by destruct s.
  - unfold exits in Hs. destruct (ended c); simplify_eq. by rewrite Nat.add_0_r.
  - unfold pump_read in Hs. destruct (reading _); try done. destruct (_ && _); simplify_eq. rewrite Nat.add_0_r. by destruct s.
  - unfold waiter_step in Hs. destruct (at_ c) eqn:?; repeat case_match; by simplify_eq.
  - unfold run_post in Hs. destruct (queue c); simplify_eq. by rewrite Nat.add_0_r.
Qed.

(** Operations that change only the tables, the writers and the logs. *)
Lemma inv_same w w' : children w' = children w → pending w' = pending w → started w' = started w → synced w' = synced w → world_inv w → world_inv w'.
Proof. intros Hc Hp Hst Hsy []. split; by rewrite ?Hc, ?Hp, ?Hst, ?Hsy. Qed.

Lemma exec_approved o f argv : cmdArgv o = Some (f, argv) → execAllowed Exec f argv = Ok tt → approved (o, applyCwdEnv f argv o cfgEnv).
Proof.
  intros Ho He. unfold execAllowed in He. destruct Exec as [allow|] eqn:HE; [|done].
  destruct (allow f argv) eqn:Ha; [|done]. exists allow, f, argv. by split_and!.
Qed.

Lemma send_signal_same i sig w :
  children (send_signal i sig w) = children w ∧ pending (send_signal i sig w) = pending w ∧ started (send_signal i sig w) = started w ∧
  synced (send_signal i sig w) = synced w.
Proof. unfold send_signal. destruct (children w !! i) as [c|]; [|done]. by destruct (reaped c). Qed.

Lemma kill_all_same l w :
  let w' := foldl (λ w (pi : Z * nat), send_signal pi.2 9 w) w l in
  children w' = children w ∧ pending w' = pending w ∧ started w' = started w ∧ synced w' = synced w.
Proof.
  revert w. induction l as [|[p i] l IH]; intros w; [done|]. simpl. destruct (IH (send_signal i 9 w)) as (-> & -> & -> & ->).
  apply send_signal_same.
Qed.

Lemma set_child_inv i c c' n w :
  world_inv w → children w !! i = Some c → reach (pid c') (cbs c') c' →
  (live c' + n = live c)%nat → world_inv (add_pending (- Z.of_nat n) (with_children (<[i := c']> (children w)) w)).
Proof.
  intros [Hp Hst Hsy Hch Hl] Hc Hr Hn. split; simpl; [|done|done| |by rewrite length_insert].
  - pose proof (sum_insert live (children w) i c c' Hc). lia.
  - by apply Forall_insert.
Qed.

Lemma child_step_world i l w w' : child_step i l w = Some w' → world_inv w → world_inv w'.
Proof.
  intros Hs Hi. unfold child_step in Hs. destruct (children w !! i) as [c|] eqn:Hc; [|done]. simpl in Hs.
  assert (Hreach : ∀ c', step l c = Some c' → reach (pid c') (cbs c') c').
  { intros c' Hc'. destruct (step_same l c c' Hc') as [-> ->]. destruct Hi as [_ _ _ Hch _]. rewrite Forall_lookup in Hch.
    eapply reach_step; [by eapply Hch|exact Hc']. }
  assert (Hset : ∀ c' n, step l c = Some c' → (live c' + n = live c)%nat →
    world_inv (add_pending (- Z.of_nat n) (with_children (<[i := c']> (children w)) w))).
  { intros c' n Hc' Hn. by eapply set_child_inv; [| |apply Hreach|]. }
  assert (Hz : ∀ c', step l c = Some c' → live c' = live c → world_inv (with_children (<[i := c']> (children w)) w)).
  { intros c' Hc' Hn. specialize (Hset c' 0%nat Hc' ltac:(lia)). simpl in Hset.
    eapply inv_same; [| | | |exact Hset]; simpl; [done|lia|done|done]. }
  destruct l as [| | | |sw|]; cbn [mbind option_bind] in Hs;
    try (case_bool_decide; [|done]); destruct (step _ c) as [c'|] eqn:Hstep; try done; simpl in Hs; injection Hs as <-;
    pose proof (children_step_live _ c c' Hstep) as Hl; simpl in Hl; try (apply Hz; [done|lia]).
  destruct (at_ c) as [| | | |[k|]| | |] eqn:Hat; try (apply Hz; [done|lia]).
  - eapply inv_same; [| | | |apply Hz; [done|lia]]; done.
  - eapply inv_same; [| | | |apply Hz; [done|lia]]; done.
  - exact (Hset c' 1%nat eq_refl Hl).
Qed.

Lemma children_world_reach_inv w : reachable Exec cfgEnv w → world_inv w.
Proof.
  induction 1 as [|o w w' _ IH Hs]; [by split|]. unfold world_step in Hs. destruct (possible o w); [|done].
  destruct o as [o cb st|o h b run|p i|p name| |i l|i l]; simplify_eq/=.
  - unfold opChildSpawn. destruct (cmdArgv o) as [[f argv]|] eqn:Ho; [|by apply (inv_same w)].
    destruct (execAllowed Exec f argv) as [[]|m] eqn:He; [|by apply (inv_same w)].
    destruct st as [[p pipe]|m]; [|by apply (inv_same w)]. destruct IH as [Hp Hst Hsy Hch Hl]. split; simpl.
    + rewrite sum_list_with_app. cbn [sum_list_with]. change (live (spawned p cb)) with 1%nat. lia.
    + apply Forall_app. split; [done|]. apply Forall_singleton. by apply exec_approved.
    + done.
    + apply Forall_app. split; [done|]. apply Forall_singleton. apply reach_spawned.
    + rewrite !length_app, Hl. done.
  - unfold opChildSpawnSync. destruct (cmdArgv o) as [[f argv]|] eqn:Ho; [|by apply (inv_same w)].
    destruct (execAllowed Exec f argv) as [[]|m] eqn:He; [|by apply (inv_same w)].
    destruct (run _ _) as [[[q werr] so] se]. destruct (exitInfo werr) as [code sig]. destruct IH as [Hp Hst Hsy Hch Hl].
    split; simpl; try done. apply Forall_app. split; [done|]. apply Forall_singleton. by apply exec_approved.
  - eapply inv_same; [| | | |exact IH]; unfold opChildStdin; destruct (stdin w !! p), i as [|h [b|]]; done.
  - unfold opChildKill. destruct (procs w !! p) as [i|]; [|done].
    eapply inv_same; [| | | |exact IH]; apply send_signal_same.
  - unfold closeChild. eapply inv_same; [| | | |exact IH]; apply (kill_all_same (map_to_list (procs w)) (with_tables ∅ (stdin w) w)).
  - by eapply child_step_world.
  - assert (∃ f, w' = on_writer i f w) as [f ->]; [|by apply (inv_same w)]. unfold writer_step in Hs.
    destruct l as [| | | | | |r]; try done; destruct (writers w !! i) as [[s|]|]; simplify_eq/=; [|].
    + destruct (Writer.do_signal s); simplify_eq/=; eauto.
    + destruct (Writer.run_step r s); simplify_eq/=; eauto.
Qed.

(** C34: Processes are gated and counted: in every reachable state each process that
    child_spawn started, and each command that child_spawnsync ran, had
    Config.Exec's leave for its file and arguments and got the environment it was
    given, or else Config.Env, never the host's; without Config.Exec there is
    none of either. The loop's pending count is the number of spawned children
    whose waiting goroutine has not ended, each of them a child as the theorems on
    a single one describe it. A spawn that is refused or fails starts and counts
    nothing and releases the four callbacks; the synchronous form starts nothing
    when it does not answer, and releases its input on every branch. *)
Theorem children_gated (w : world) (Hr : reachable Exec cfgEnv w) :
  Forall approved (started w) ∧ Forall approved (synced w) ∧ (Exec = None → children w = [] ∧ synced w = []) ∧
  length (started w) = length (children w) ∧ pending w = Z.of_nat (sum_list_with live (children w)) ∧
  Forall (λ c, reach (pid c) (cbs c) c) (children w) ∧
  (∀ o cb start, (∀ p, (opChildSpawn Exec cfgEnv o cb start w).1 ≠ Answers p) →
     (opChildSpawn Exec cfgEnv o cb start w).2 = freeObjects (handles cb) w) ∧
  (∀ o h input run, let r := opChildSpawnSync Exec cfgEnv o h input run w in
     freed r.2 = freed w ++ option_list h ∧ ((∀ a, r.1 ≠ Answers a) → r.2 = freeObjects (option_list h) w)).
Proof.
  pose proof (children_world_reach_inv w Hr) as [Hp Hst Hsy Hch Hl]. split_and!; try done.
  - intros HE. split.
    + apply nil_length_inv. rewrite <- Hl. destruct (started w) as [|oc l]; [done|].
      apply Forall_cons in Hst as [(allow & f & argv & Ha & _) _]. congruence.
    + destruct (synced w) as [|oc l]; [done|]. apply Forall_cons in Hsy as [(allow & f & argv & Ha & _) _]. congruence.
  - intros o cb st. unfold opChildSpawn. destruct (cmdArgv o) as [[f argv]|]; [|done].
    destruct (execAllowed Exec f argv); [|done]. destruct st as [[p pipe]|m]; [|done]. intros Hno. by destruct (Hno p).
  - intros o h input run. unfold opChildSpawnSync. destruct (cmdArgv o) as [[f argv]|]; [|done].
    destruct (execAllowed Exec f argv); [|done]. destruct (run _ _) as [[[q werr] so] se].
    destruct (exitInfo werr) as [code sig]. split; [done|]. intros Hno. by edestruct Hno.
Qed.

End World.

(** ** Signals *)

(** A death by one of the signals of the table is reported with its name, core
    dump or not, and kill sends the signal of each name it knows. *)
Lemma signal_names (n : Z) (text name : bytes) : (n, text, name) ∈ childSignals →
  exitInfo (ExitError (-1) (lit "signal: " ++ text)) = (None, Some name) ∧
  exitInfo (ExitError (-1) (lit "signal: " ++ text ++ lit " (core dumped)")) = (None, Some name) ∧
  (signalByName name = n ∨ signalByName name = 15).
Proof.
  intros Hin. assert (forallb (λ s : Z * bytes * bytes,
    bool_decide (signalName (lit "signal: " ++ s.1.2) = Some s.2) &&
    bool_decide (signalName (lit "signal: " ++ s.1.2 ++ lit " (core dumped)") = Some s.2) &&
    ((signalByName s.2 =? s.1.1) || (signalByName s.2 =? 15))) childSignals = true) as Hall by (vm_compute; reflexivity).
  rewrite forallb_forall in Hall. apply list_elem_of_In in Hin. specialize (Hall _ Hin). simpl in Hall.
  rewrite !andb_true_iff, orb_true_iff, !bool_decide_eq_true in Hall. destruct Hall as [[H1 H2] H3].
  unfold exitInfo. simpl. rewrite H1, H2. split_and!; [done|done|]. destruct H3 as [?%Z.eqb_eq|?%Z.eqb_eq]; auto.
Qed.

(** ** Concrete runs *)

Definition demo_cbs : callbacks := MkCallbacks (Some 1) (Some 2) (Some 3) (Some 4).

Definition demo_steps : list label :=
  [Writes Out (lit "hello"); PumpRead Out 2 None; Writes Err_ (lit "no"); Exits (ExitError (-1) (lit "signal: killed"));
   Shuts Out; PumpRead Out 3 None; Shuts Err_].

Definition demo_end : list label :=
  [PumpRead Out 0 (Some true); PumpRead Err_ 2 (Some true); Waiter None; Waiter None; Waiter None; Waiter None; Waiter None; Waiter None;
   Waiter None; RunPost true; RunPost true; RunPost true; RunPost true].

Definition demo_child : child := default (spawned 7 demo_cbs) (steps demo_steps (spawned 7 demo_cbs)).
Definition demo_done : child := default demo_child (steps demo_end demo_child).

Lemma reach_run n cb ls : ∀ c c', reach n cb c → steps ls c = Some c' → reach n cb c'.
Proof.
  induction ls as [|l ls IH]; intros c c' Hr Hs; simpl in Hs; [by simplify_eq|].
  destruct (step l c) as [c1|] eqn:Hs1; [|done]. eapply IH; [by eapply reach_step|exact Hs].
Qed.

Lemma children_demo_reach : reach 7 demo_cbs demo_child.
Proof. apply (reach_run 7 demo_cbs demo_steps (spawned 7 demo_cbs)); [constructor|vm_compute; reflexivity]. Qed.

Lemma demo_done_reach : reach 7 demo_cbs demo_done.
Proof. apply (reach_run 7 demo_cbs demo_end demo_child); [apply children_demo_reach|vm_compute; reflexivity]. Qed.

Lemma child_output_then_exit_witness :
  history demo_done = [Chunk Out (lit "he"); Chunk Out (lit "llo"); Chunk Err_ (lit "no"); Exit None (Some (lit "SIGKILL"))] ∧
  ∃ chunks ends, history demo_done = chunks ++ ends ∧ Forall is_chunk chunks.
Proof.
  split; [vm_compute; reflexivity|].
  destruct (child_output_then_exit 7 demo_cbs demo_done demo_done_reach) as (chunks & ends & H1 & H2 & _). by exists chunks, ends.
Defined.

Lemma child_callbacks_once_witness :
  seen demo_done = [CallData 1 (lit "he"); CallData 1 (lit "llo"); CallData 2 (lit "no"); CallExit 3 None (Some (lit "SIGKILL"));
                    Free 1; Free 2; Free 3; Free 4] ∧
  ∃ es, Forall (is_data demo_cbs) es.
Proof.
  split; [vm_compute; reflexivity|].
  destruct (child_callbacks_once 7 demo_cbs demo_done demo_done_reach) as (es & Hes & _). by exists es.
Defined.

Lemma child_settles_witness : (length demo_end + weight demo_done <= weight demo_child)%nat ∧ at_ demo_done = Gone.
Proof.
  split; [|vm_compute; reflexivity].
  refine (proj1 (child_settles 7 demo_cbs demo_child (ExitError (-1) (lit "signal: killed")) demo_end demo_done children_demo_reach _ _ _ _)).
  - vm_compute. reflexivity.
  - intros []; vm_compute; reflexivity.
  - repeat (constructor; [reflexivity|]). constructor.
  - vm_compute. reflexivity.
Defined.

Definition demo_exec : option (bytes → list bytes → bool) := Some (λ f _, bool_decide (f = lit "ls")).
Definition demo_opts (f : string) : options := MkOptions (Some (lit f)) [] None None.

(** Two children get the process id 100 one after the other, the second one
    between the wait for the first and the clearing of its entries. *)
Definition reuse_ops : list op :=
  [OpSpawn (demo_opts "rm") demo_cbs (Ok (99, true)); OpSpawn (demo_opts "ls") demo_cbs (Ok (100, true)); OfChild 0 (Exits NoError);
   OfChild 0 (Shuts Out); OfChild 0 (Shuts Err_);
   OfChild 0 (PumpRead Out 0 (Some true)); OfChild 0 (PumpRead Err_ 0 (Some true)); OfChild 0 (Waiter (Some 0%nat)); OfChild 0 (Waiter (Some 0%nat));
   OfChild 0 (Waiter (Some 0%nat)); OpSpawn (demo_opts "ls") demo_cbs (Ok (100, true)); OfChild 0 (Waiter (Some 1%nat));
   OfChild 0 (Waiter None);
   OpSpawnSync (demo_opts "ls") (Some 9) (Some (lit "in")) (λ _ b, (Some 101, NoError, b, [])); OpKill 100 (Some (lit "SIGKILL")); OpStdin 100 (Data None (Some (lit "x")))].

Definition reuse_world : world := default newProcState (world_steps demo_exec [lit "A=1"] reuse_ops newProcState).

Lemma world_run os : ∀ w w', reachable demo_exec [lit "A=1"] w → world_steps demo_exec [lit "A=1"] os w = Some w' → reachable demo_exec [lit "A=1"] w'.
Proof.
  induction os as [|o os IH]; intros w w' Hr Hs; simpl in Hs; [by simplify_eq|].
  destruct (world_step demo_exec [lit "A=1"] o w) as [w1|] eqn:Hs1; [|done]. eapply IH; [by eapply reachable_step|exact Hs].
Qed.

Lemma reuse_reachable : reachable demo_exec [lit "A=1"] reuse_world.
Proof. apply (world_run reuse_ops newProcState); [constructor|vm_compute; reflexivity]. Qed.

Lemma children_gated_witness :
  (Forall (approved demo_exec [lit "A=1"]) (started reuse_world) ∧ Forall (approved demo_exec [lit "A=1"]) (synced reuse_world)) ∧
  length (started reuse_world) = 2%nat ∧ length (synced reuse_world) = 1%nat ∧ pending reuse_world = 2 ∧
  freed reuse_world = [1; 2; 3; 4; 9].
Proof.
  split; [|split_and!; vm_compute; reflexivity]. split; apply (children_gated demo_exec [lit "A=1"] reuse_world reuse_reachable).
Defined.

(** The goroutine of the first one takes the entries of the second one out and
    closes its stdin: a running child that cannot be killed or written to. *)
Example reused_pid_is_lost :
  (at_ <$> children reuse_world !! 1%nat) = Some WaitOut ∧ procs reuse_world !! 100 = None ∧ signalled reuse_world = [] ∧
  ((λ s, Writer.closeReq (Writer.cw s)) <$> (writers reuse_world !! 1%nat ≫= id)) = Some true.
Proof. vm_compute. auto. Qed.

(** A signal that is not in the table: neither a code nor a signal, and the
    synchronous form takes it for a process that could not be started. *)
Example unnamed_signal_is_an_error :
  (opChildSpawnSync demo_exec [] (demo_opts "ls") None None
     (λ _ _, (Some 5, ExitError (-1) (lit "signal: bad system call"), [], [])) newProcState).1 =
  Answers (MkSync None None 5 (Some (lit "signal: bad system call")) [] []).
Proof. vm_compute. reflexivity. Qed.

(** The code of a failed start is looked for in a message that quotes the file's
    name. *)
Example code_from_file_name :
  childErr (lit "exec: disabled-accounts: executable file not found in $PATH") = lit "EPERM".
Proof. vm_compute. reflexivity. Qed.
