(* ===== verification/Encoding.v ===== *)
(** Encodings the key formats use: big endian integers (math/big's SetBytes,
    Bytes and FillBytes) and encoding/base64's RawURLEncoding. *)

From S2P Require Import Prelude.

(** ** Integers *)

(** The value of big endian bytes. *)
Definition be (l : bytes) : Z := foldl (fun v b => v * 256 + b) 0 l.

(** n.Bytes(): the shortest big endian bytes. *)
Fixpoint to_be (fuel : nat) (n : Z) (acc : bytes) : bytes :=
  match fuel with
  | O => acc
  | S f => if n <=? 0 then acc else to_be f (n / 256) (n mod 256 :: acc)
  end.

Definition big_bytes (n : Z) : bytes := to_be (S (Z.to_nat (Z.log2 n))) n [].

(** n.FillBytes(buf) of [size] bytes; [None] is its panic. *)
Definition fill_bytes (size : nat) (n : Z) : option bytes :=
  let b := big_bytes n in
  if (size <? length b)%nat then None else Some (replicate (size - length b) 0 ++ b).

(** ** base64, URL alphabet, no padding *)

Definition b64_char (v : Z) : Z :=
  if v <? 26 then 65 + v
  else if v <? 52 then 97 + (v - 26)
  else if v <? 62 then 48 + (v - 52)
  else if v =? 62 then 45 else 95.

Definition b64_value (c : Z) : option Z :=
  if is_upper c then Some (c - 65)
  else if is_lower c then Some (c - 97 + 26)
  else if is_digit c then Some (c - 48 + 52)
  else if c =? 45 then Some 62
  else if c =? 95 then Some 63
  else None.

(** EncodeToString. *)
Fixpoint EncodeToString (b : bytes) : bytes :=
  match b with
  | x :: y :: z :: b' =>
      let val := Z.lor (Z.lor (Z.shiftl x 16) (Z.shiftl y 8)) z in
      b64_char (Z.land (Z.shiftr val 18) 63) :: b64_char (Z.land (Z.shiftr val 12) 63)
        :: b64_char (Z.land (Z.shiftr val 6) 63) :: b64_char (Z.land val 63) :: EncodeToString b'
  | [x; y] =>
      let val := Z.lor (Z.shiftl x 16) (Z.shiftl y 8) in
      [b64_char (Z.land (Z.shiftr val 18) 63); b64_char (Z.land (Z.shiftr val 12) 63);
       b64_char (Z.land (Z.shiftr val 6) 63)]
  | [x] =>
      let val := Z.shiftl x 16 in
      [b64_char (Z.land (Z.shiftr val 18) 63); b64_char (Z.land (Z.shiftr val 12) 63)]
  | [] => []
  end.

(** The quanta of DecodeString: the last one may be short, and its unused bits
    are not looked at. *)
Fixpoint decode_quanta (s : bytes) : option bytes :=
  match s with
  | [] => Some []
  | [_] => None
  | [a; b] =>
      va ← b64_value a; vb ← b64_value b;
      let val := Z.lor (Z.shiftl va 18) (Z.shiftl vb 12) in
      Some [wrapU 8 (Z.shiftr val 16)]
  | [a; b; c] =>
      va ← b64_value a; vb ← b64_value b; vc ← b64_value c;
      let val := Z.lor (Z.lor (Z.shiftl va 18) (Z.shiftl vb 12)) (Z.shiftl vc 6) in
      Some [wrapU 8 (Z.shiftr val 16); wrapU 8 (Z.shiftr val 8)]
  | a :: b :: c :: d :: s' =>
      va ← b64_value a; vb ← b64_value b; vc ← b64_value c; vd ← b64_value d;
      rest ← decode_quanta s';
      let val := Z.lor (Z.lor (Z.lor (Z.shiftl va 18) (Z.shiftl vb 12)) (Z.shiftl vc 6)) vd in
      Some (wrapU 8 (Z.shiftr val 16) :: wrapU 8 (Z.shiftr val 8) :: wrapU 8 val :: rest)
  end.

(** DecodeString: line ends are skipped wherever they are. *)
Definition DecodeString (s : bytes) : option bytes :=
  decode_quanta (List.filter (fun c => negb ((c =? 10) || (c =? 13))) s).

(** ** Lemmas on integers *)

Lemma zlen_app a b : zlen (a ++ b) = zlen a + zlen b.
Proof. unfold zlen. rewrite length_app. lia. Qed.

Lemma be_snoc l x : be (l ++ [x]) = be l * 256 + x.
Proof. unfold be. by rewrite foldl_app. Qed.

Lemma be_app l k : be (l ++ k) = be l * 256 ^ Z.of_nat (length k) + be k.
Proof.
  induction k as [|x k IH] using rev_ind.
  - rewrite app_nil_r. change (be []) with 0. simpl length. rewrite Z.pow_0_r. lia.
  - rewrite app_assoc, !be_snoc, IH, length_app. simpl length.
    rewrite Nat2Z.inj_add, Z.pow_add_r by lia. change (256 ^ Z.of_nat 1) with 256. lia.
Qed.

Lemma be_cons x k : be (x :: k) = x * 256 ^ Z.of_nat (length k) + be k.
Proof. exact (be_app [x] k). Qed.

Lemma be_range l : Forall is_byte l → 0 <= be l < 256 ^ Z.of_nat (length l).
Proof.
  induction 1 as [|x l Hx Hl IH]; [done|]. rewrite be_cons. simpl length. rewrite Nat2Z.inj_succ, Z.pow_succ_r by lia.
  unfold is_byte in Hx. nia.
Qed.

Lemma be_inj l k : Forall is_byte l → Forall is_byte k → length l = length k → be l = be k → l = k.
Proof.
  intros Hl. revert k. induction Hl as [|x l Hx Hl IH]; intros [|y k] Hk Hlen Hbe; [done..|].
  apply Forall_cons in Hk as [Hy Hk]. rewrite !be_cons in Hbe. simpl in Hlen.
  pose proof (be_range l Hl) as Bl. pose proof (be_range k Hk) as Bk.
  assert (length l = length k) as El by lia. rewrite El in *. unfold is_byte in *.
  assert (x = y) as -> by nia. f_equal. apply IH; [done|done|]. lia.
Qed.

Lemma to_be_value f n acc :
  0 <= n < 256 ^ Z.of_nat f → be (to_be f n acc) = n * 256 ^ Z.of_nat (length acc) + be acc.
Proof.
  revert n acc. induction f as [|f IH]; intros n acc Hn.
  - simpl in *. assert (n = 0) as -> by lia. lia.
  - cbn [to_be]. destruct (Z.leb_spec n 0); [assert (n = 0) as -> by lia; lia|].
    rewrite Nat2Z.inj_succ, Z.pow_succ_r in Hn by lia. rewrite IH.
    + rewrite be_cons. simpl length. rewrite Nat2Z.inj_succ, Z.pow_succ_r by lia.
      rewrite (Z.div_mod n 256) at 3 by lia. lia.
    + split; [apply Z.div_pos; lia|]. apply Z.div_lt_upper_bound; lia.
Qed.

Lemma to_be_bytes f n acc : Forall is_byte acc → Forall is_byte (to_be f n acc).
Proof.
  revert n acc. induction f as [|f IH]; intros n acc Ha; cbn [to_be]; [done|]. case_match; [done|].
  apply IH. constructor; [|done]. by apply Z.mod_pos_bound.
Qed.

Lemma to_be_length f n acc k :
  n < 256 ^ Z.of_nat k → (length (to_be f n acc) <= k + length acc)%nat.
Proof.
  revert n acc k. induction f as [|f IH]; intros n acc k Hn; cbn [to_be]; [lia|].
  destruct (Z.leb_spec n 0); [lia|]. destruct k as [|k]; [simpl in Hn; lia|].
  rewrite Nat2Z.inj_succ, Z.pow_succ_r in Hn by lia.
  etransitivity; [apply (IH _ _ k); apply Z.div_lt_upper_bound; lia|]. simpl. lia.
Qed.

Lemma log2_fuel n : 0 <= n → n < 256 ^ Z.of_nat (S (Z.to_nat (Z.log2 n))).
Proof.
  intros Hn. rewrite Nat2Z.inj_succ, Z2Nat.id by apply Z.log2_nonneg. destruct (Z.eq_dec n 0) as [->|Hz]; [done|].
  eapply Z.lt_le_trans; [apply Z.log2_spec; lia|].
  apply Z.pow_le_mono_l. lia.
Qed.

Lemma be_big_bytes n : 0 <= n → be (big_bytes n) = n.
Proof.
  intros Hn. unfold big_bytes. rewrite to_be_value by (split; [done|by apply log2_fuel]).
  simpl length. rewrite Z.pow_0_r. change (be []) with 0. lia.
Qed.

Lemma big_bytes_bytes n : Forall is_byte (big_bytes n).
Proof. apply to_be_bytes. constructor. Qed.

Lemma be_zeros k l : be (replicate k 0 ++ l) = be l.
Proof.
  rewrite be_app. assert (be (replicate k 0) = 0) as ->; [|lia].
  induction k as [|k IH]; [done|]. simpl. rewrite be_cons, IH. lia.
Qed.

Lemma fill_bytes_ok size n :
  0 <= n < 256 ^ Z.of_nat size →
  ∃ b, fill_bytes size n = Some b ∧ length b = size ∧ be b = n ∧ Forall is_byte b.
Proof.
  intros Hn. unfold fill_bytes.
  assert (Hl : (length (big_bytes n) <= size)%nat).
  { pose proof (to_be_length (S (Z.to_nat (Z.log2 n))) n [] size ltac:(lia)) as Hle. unfold big_bytes. simpl in *. lia. }
  destruct (Nat.ltb_spec size (length (big_bytes n))); [lia|]. eexists. split; [done|].
  rewrite length_app, length_replicate, be_zeros, be_big_bytes by lia. split; [lia|]. split; [done|].
  apply Forall_app. split; [apply Forall_replicate; by unfold is_byte|apply big_bytes_bytes].
Qed.

(** ** Lemmas on base64 *)

Lemma b64_value_char v : 0 <= v < 64 → b64_value (b64_char v) = Some v.
Proof.
  intros Hv. unfold b64_char, b64_value, is_upper, is_lower, is_digit, in_range.
  repeat case_match; bool_to_prop; try lia; f_equal; lia.
Qed.

Lemma lor_add a b k : 0 <= k → a mod 2 ^ k = 0 → 0 <= b < 2 ^ k → Z.lor a b = a + b.
Proof.
  intros Hk Ha Hb. rewrite <-Z.add_lor_land. enough (Z.land a b = 0) as -> by lia.
  apply Z.bits_inj'. intros i Hi. rewrite Z.land_spec, Z.bits_0.
  destruct (Z.lt_ge_cases i k) as [Hlt|Hge].
  - rewrite <-(Z.mod_pow2_bits_low a k) by lia. by rewrite Ha, Z.bits_0.
  - rewrite <-(Z.mod_small b (2 ^ k)) by done. rewrite (Z.mod_pow2_bits_high b) by lia. apply andb_false_r.
Qed.

Lemma land_63 x : Z.land x 63 = x mod 64.
Proof. exact (Z.land_ones x 6 ltac:(lia)). Qed.

Lemma group_range x : 0 <= Z.land x 63 < 64.
Proof. rewrite land_63. by apply Z.mod_pos_bound. Qed.

(** Three bytes as a number of 24 bits. *)
Lemma pack x y z :
  is_byte x → is_byte y → is_byte z →
  Z.lor (Z.lor (Z.shiftl x 16) (Z.shiftl y 8)) z = x * 65536 + y * 256 + z.
Proof.
  unfold is_byte. intros. rewrite !Z.shiftl_mul_pow2 by lia. change (2 ^ 16) with 65536. change (2 ^ 8) with 256.
  rewrite (lor_add (x * 65536) (y * 256) 16) by (change (2 ^ 16) with 65536; Z.div_mod_to_equations; lia).
  rewrite (lor_add _ z 8) by (change (2 ^ 8) with 256; Z.div_mod_to_equations; lia). done.
Qed.

(** The four groups of such a number make it up again. *)
Lemma regroup v :
  0 <= v < 2 ^ 24 →
  Z.lor (Z.lor (Z.lor (Z.shiftl (Z.land (Z.shiftr v 18) 63) 18) (Z.shiftl (Z.land (Z.shiftr v 12) 63) 12))
               (Z.shiftl (Z.land (Z.shiftr v 6) 63) 6)) (Z.land v 63) = v.
Proof.
  change (2 ^ 24) with 16777216. intros Hv. rewrite !land_63, !Z.shiftl_mul_pow2, !Z.shiftr_div_pow2 by lia.
  change (2 ^ 18) with 262144. change (2 ^ 12) with 4096. change (2 ^ 6) with 64.
  set (a := v / 262144 mod 64). set (b := v / 4096 mod 64). set (c := v / 64 mod 64). set (d := v mod 64).
  assert (Ha : 0 <= a < 64) by by apply Z.mod_pos_bound. assert (Hb : 0 <= b < 64) by by apply Z.mod_pos_bound.
  assert (Hc : 0 <= c < 64) by by apply Z.mod_pos_bound. assert (Hd : 0 <= d < 64) by by apply Z.mod_pos_bound.
  assert (Hsum : a * 262144 + b * 4096 + c * 64 + d = v) by (unfold a, b, c, d; Z.div_mod_to_equations; lia).
  clearbody a b c d.
  rewrite (lor_add (a * 262144) (b * 4096) 18) by (change (2 ^ 18) with 262144; Z.div_mod_to_equations; lia).
  rewrite (lor_add _ (c * 64) 12) by (change (2 ^ 12) with 4096; Z.div_mod_to_equations; lia).
  rewrite (lor_add _ d 6) by (change (2 ^ 6) with 64; Z.div_mod_to_equations; lia). done.
Qed.

Lemma unpack x y z :
  is_byte x → is_byte y → is_byte z → let v := x * 65536 + y * 256 + z in
  0 <= v < 2 ^ 24 ∧ wrapU 8 (Z.shiftr v 16) = x ∧ wrapU 8 (Z.shiftr v 8) = y ∧ wrapU 8 v = z.
Proof.
  unfold is_byte, wrapU. intros Hx Hy Hz. rewrite !Z.shiftr_div_pow2 by lia.
  change (2 ^ 24) with 16777216. change (2 ^ 16) with 65536. change (2 ^ 8) with 256.
  Z.div_mod_to_equations. lia.
Qed.

Lemma zero_group v k j : v mod 2 ^ k = 0 → 0 <= j → j + 6 <= k → Z.land (Z.shiftr v j) 63 = 0.
Proof.
  intros Hk Hj Hjk. rewrite land_63, Z.shiftr_div_pow2 by lia.
  apply Z.bits_inj'. intros i Hi. rewrite Z.bits_0. change 64 with (2 ^ 6).
  destruct (Z.lt_ge_cases i 6); [|by rewrite Z.mod_pow2_bits_high by lia].
  rewrite Z.mod_pow2_bits_low, Z.div_pow2_bits by lia. rewrite <-(Z.mod_pow2_bits_low v k) by lia.
  by rewrite Hk, Z.bits_0.
Qed.

Lemma decode_encode b : Forall is_byte b → decode_quanta (EncodeToString b) = Some b.
Proof.
  assert (H0 : is_byte 0) by by unfold is_byte.
  remember (length b) as n eqn:Hn. revert b Hn. induction (lt_wf n) as [n _ IH]. intros b -> Hb.
  destruct b as [|x [|y [|z b]]]; [done|..].
  - apply Forall_cons in Hb as [Hx _]. cbn [EncodeToString decode_quanta].
    pose proof (pack x 0 0 Hx H0 H0) as Hp. rewrite Z.shiftl_0_l, !Z.lor_0_r in Hp. rewrite Hp.
    destruct (unpack x 0 0 Hx H0 H0) as (Hv & E1 & _ & _). pose proof (regroup _ Hv) as Hr.
    assert (Hk : (x * 65536 + 0 * 256 + 0) mod 2 ^ 16 = 0) by (change (2 ^ 16) with 65536; Z.div_mod_to_equations; lia).
    pose proof (zero_group _ 16 0 Hk ltac:(lia) ltac:(lia)) as H6. rewrite Z.shiftr_0_r in H6.
    rewrite (zero_group _ 16 6 Hk ltac:(lia) ltac:(lia)), H6, Z.shiftl_0_l, !Z.lor_0_r in Hr.
    rewrite !b64_value_char by apply group_range. simpl. by rewrite Hr, E1.
  - apply Forall_cons in Hb as [Hx Hb]. apply Forall_cons in Hb as [Hy _]. cbn [EncodeToString decode_quanta].
    pose proof (pack x y 0 Hx Hy H0) as Hp. rewrite Z.lor_0_r in Hp. rewrite Hp.
    destruct (unpack x y 0 Hx Hy H0) as (Hv & E1 & E2 & _). pose proof (regroup _ Hv) as Hr.
    assert (Hk : (x * 65536 + y * 256 + 0) mod 2 ^ 8 = 0) by (change (2 ^ 8) with 256; Z.div_mod_to_equations; lia).
    pose proof (zero_group _ 8 0 Hk ltac:(lia) ltac:(lia)) as H6. rewrite Z.shiftr_0_r in H6. rewrite H6, Z.lor_0_r in Hr.
    rewrite !b64_value_char by apply group_range. simpl. by rewrite Hr, E1, E2.
  - apply Forall_cons in Hb as [Hx Hb]. apply Forall_cons in Hb as [Hy Hb]. apply Forall_cons in Hb as [Hz Hb].
    cbn [EncodeToString decode_quanta]. rewrite (pack x y z Hx Hy Hz).
    destruct (unpack x y z Hx Hy Hz) as (Hv & E1 & E2 & E3). pose proof (regroup _ Hv) as Hr.
    rewrite !b64_value_char by apply group_range. simpl. rewrite (IH (length b)); [|simpl; lia|done|done].
    simpl. by rewrite Hr, E1, E2, E3.
Qed.

Lemma b64_char_not_eol v : 0 <= v → negb ((b64_char v =? 10) || (b64_char v =? 13)) = true.
Proof.
  intros Hv. apply negb_true_iff, orb_false_iff. rewrite !Z.eqb_neq. unfold b64_char. repeat case_match; bool_to_prop; lia.
Qed.

Lemma encode_chars b : Forall (fun c => ∃ v, 0 <= v < 64 ∧ c = b64_char v) (EncodeToString b).
Proof.
  remember (length b) as n eqn:Hn. revert b Hn. induction (lt_wf n) as [n _ IH]. intros b ->.
  destruct b as [|x [|y [|z b]]]; cbn [EncodeToString]; repeat (constructor; [eexists; split; [apply group_range|done]|]); try constructor.
  apply (IH (length b)); [simpl; lia|done].
Qed.

(** DecodeString after EncodeToString. *)
Lemma b64_roundtrip b : Forall is_byte b → DecodeString (EncodeToString b) = Some b.
Proof.
  intros Hb. unfold DecodeString. etransitivity; [|by apply decode_encode]. f_equal.
  pose proof (encode_chars b) as Hc. induction Hc as [|c l (v & Hv & ->) _ IH]; [done|].
  cbn [List.filter]. by rewrite b64_char_not_eol, IH by lia.
Qed.

(** ** encoding/hex *)

Definition hex_digit (v : Z) : Z := if v <? 10 then 48 + v else 87 + v.

Definition hex_value (c : Z) : option Z :=
  if is_digit c then Some (c - 48)
  else if in_range 97 102 c then Some (c - 87)
  else if in_range 65 70 c then Some (c - 55)
  else None.

(** hex.EncodeToString *)
Definition HexEncode (b : bytes) : bytes := flat_map (λ x, [hex_digit (x / 16); hex_digit (x mod 16)]) b.

(** hex.DecodeString *)
Fixpoint HexDecode (s : bytes) : option bytes :=
  match s with
  | [] => Some []
  | a :: b :: s' => x ← hex_value a; y ← hex_value b; r ← HexDecode s'; Some (x * 16 + y :: r)
  | [_] => None
  end.

Lemma hex_value_digit v : 0 <= v < 16 → hex_value (hex_digit v) = Some v.
Proof.
  intros Hv. assert (v ∈ [0;1;2;3;4;5;6;7;8;9;10;11;12;13;14;15]) as Hin.
  { rewrite !elem_of_cons. lia. }
  repeat (apply elem_of_cons in Hin as [->|Hin]; [reflexivity|]). by apply not_elem_of_nil in Hin.
Qed.

Lemma hex_roundtrip b : Forall is_byte b → HexDecode (HexEncode b) = Some b.
Proof.
  induction 1 as [|x b Hx _ IH]; [done|]. unfold is_byte in Hx.
  change (HexEncode (x :: b)) with (hex_digit (x / 16) :: hex_digit (x mod 16) :: HexEncode b). cbn [HexDecode].
  pose proof (Z.mod_pos_bound x 16 ltac:(lia)) as Hm. pose proof (Z.div_mod x 16 ltac:(lia)) as Hd.
  rewrite !hex_value_digit by lia. rewrite IH. simpl. do 2 f_equal. lia.
Qed.
