(* ===== verification/Bridge.v ===== *)
(** The bridge to the engine (internal/js.go, and of the checked-in
    internal/spidermonkey.go the protobuf reader and writer it uses): what each
    call sends, and what it makes of the reply.

    A call is a [method]; [request] gives the bytes it sends and [answer] reads
    the reply's. The wasm module is a parameter, [invoke]: the response bytes to a
    method and a request, or the error of a trap. A Go panic of the reader and a
    reader that never ends are outcomes of their own, since the reply comes out
    of guest memory. *)

From S2P Require Import Prelude Json Encoding.

(** ** Writing *)

(** pbAppendVarint; a uint64 takes at most ten bytes. *)
Fixpoint append_varint (fuel : nat) (v : Z) : bytes :=
  match fuel with
  | O => []
  | S f => if 128 <=? v then Z.lor (wrapU 8 v) 128 :: append_varint f (Z.shiftr v 7) else [wrapU 8 v]
  end.

Definition pbAppendVarint (v : Z) : bytes := append_varint 10 v.

Definition pbAppendTag (field wireType : Z) : bytes := pbAppendVarint (Z.lor (u32 (Z.shiftl field 3)) wireType).

Definition pbAppendUint64 (field v : Z) : bytes := pbAppendTag field 0 ++ pbAppendVarint v.

Definition pbAppendString (field : Z) (s : bytes) : bytes := pbAppendTag field 2 ++ pbAppendVarint (zlen s) ++ s.

Definition pbAppendBytes (field : Z) (data : bytes) : bytes := pbAppendTag field 2 ++ pbAppendVarint (zlen data) ++ data.

(** ** Reading *)

(** The loop of readVarint over the bytes from the position on: the value and
    how many bytes it took. *)
Fixpoint varint_loop (l : bytes) (shift v n : Z) : Z * Z :=
  match l with
  | [] => (v, n)
  | b :: l' =>
      let v' := Z.lor v (u64 (Z.shiftl (Z.land b 127) shift)) in
      if b <? 128 then (v', n + 1) else varint_loop l' (shift + 7) v' (n + 1)
  end.

(** The value and the position after it; [None] is the panic of a position below
    zero. *)
Definition readVarint (data : bytes) (pos : Z) : option (Z * Z) :=
  if pos <? 0 then None
  else let '(v, n) := varint_loop (drop (Z.to_nat pos) data) 0 0 0 in Some (v, pos + n).

(** readString and readBytes; a length that is negative as an int, or overflows
    with the position, panics in the slice expression or in make. *)
Definition readString (data : bytes) (pos : Z) : option bytes :=
  '(v, p) ← readVarint data pos;
  let hi := i64 (p + i64 v) in
  if zlen data <? hi then Some (drop (Z.to_nat p) data)
  else if hi <? p then None
  else Some (take (Z.to_nat (hi - p)) (drop (Z.to_nat p) data)).

Definition readUint64 (data : bytes) (pos : Z) : option Z := fst <$> readVarint data pos.

Definition readUint32 (data : bytes) (pos : Z) : option Z := (λ vp, u32 vp.1) <$> readVarint data pos.

(** The position after skipping a field; for a wire type without a case it is
    where it was. *)
Definition skip (data : bytes) (wireType pos : Z) : option Z :=
  p ← (if wireType =? 0 then snd <$> readVarint data pos
       else if wireType =? 1 then Some (pos + 8)
       else if wireType =? 2 then ('(v, p) ← readVarint data pos; Some (i64 (p + i64 v)))
       else if wireType =? 5 then Some (pos + 4)
       else Some pos);
  Some (if zlen data <? p then zlen data else p).

(** The walk to a field: where its value starts. *)
Inductive walk := Found (pos : Z) | Missing | Crash | Endless.

(** One round of it. *)
Definition walk_step (data : bytes) (f pos : Z) : walk + Z :=
  if pos <? zlen data then
    match readVarint data pos with
    | None => inl Crash
    | Some (tag, p) =>
        if u32 (Z.shiftr tag 3) =? f then inl (Found p)
        else match skip data (Z.land tag 7) p with None => inl Crash | Some p' => inr p' end
    end
  else inl Missing.

(** A walk that takes more rounds than there are positions comes back to one. *)
Fixpoint find_field (fuel : nat) (data : bytes) (f pos : Z) : walk :=
  match fuel with
  | O => Endless
  | S k => match walk_step data f pos with inl w => w | inr p => find_field k data f p end
  end.

Inductive parsed (A : Type) := Got (a : A) | Panics | Spins.
Arguments Got {A} a.
Arguments Panics {A}.
Arguments Spins {A}.

Definition parsed_bind {A B} (p : parsed A) (k : A → parsed B) : parsed B :=
  match p with Got a => k a | Panics => Panics | Spins => Spins end.

Definition find (resp : bytes) (f : Z) : walk := find_field (S (length resp)) resp f 0.

Definition readScalarAtField {A} (resp : bytes) (f : Z) (read : bytes → Z → option A) (zero : A) : parsed A :=
  match find resp f with
  | Found p => match read resp p with Some a => Got a | None => Panics end
  | Missing => Got zero
  | Crash => Panics
  | Endless => Spins
  end.

(** The text of field 15, when there is one. *)
Definition pbExtractError (resp : bytes) : parsed (option bytes) :=
  match find resp 15 with
  | Found p => match readString resp p with Some s => Got (Some s) | None => Panics end
  | Missing => Got None
  | Crash => Panics
  | Endless => Spins
  end.

(** ** Calls *)

Inductive method :=
| midAgentInterrupt (id : Z)
| midAgentSpawn (glue src : bytes)
| midAgentWake
| midBytesNew (data : bytes)
| midBytesRead (obj : Z)
| midCall (fn this : Z) (args : bytes)
| midCloneFree (clone : Z)
| midCloneRead (clone : Z)
| midCloneWrite (val : bytes)
| midClose
| midConstruct (fn : Z) (args : bytes)
| midDefineConstructor (obj : Z) (name key : bytes) (nargs : Z)
| midDefineFunction (obj : Z) (name key : bytes) (nargs : Z)
| midDetachArrayBuffer (obj : Z)
| midEval (src : bytes)
| midEvalIn (global : Z) (src : bytes)
| midEvalModule (specifier src : bytes)
| midFreeObject (obj : Z)
| midGc
| midGet (obj : Z) (name : bytes)
| midGlobal
| midInterruptAddr
| midInterruptBitsAddr
| midInterruptBitsVal
| midNew (maxHeapBytes nativeStackQuotaBytes : Z)
| midNewFunction (name key : bytes) (nargs : Z)
| midNewHTMLDDA
| midNewPlainObject
| midNewRealm
| midRunJobs
| midSet (obj : Z) (name val : bytes)
| midSourceIsModule (src : bytes)
| midTakeUnhandledRejections.

(** The method's id: its place in the service. *)
Definition mid (m : method) : Z :=
  match m with
  | midAgentInterrupt _ => 0 | midAgentSpawn _ _ => 1 | midAgentWake => 2 | midBytesNew _ => 3 | midBytesRead _ => 4
  | midCall _ _ _ => 5 | midCloneFree _ => 6 | midCloneRead _ => 7 | midCloneWrite _ => 8 | midClose => 9
  | midConstruct _ _ => 10 | midDefineConstructor _ _ _ _ => 11 | midDefineFunction _ _ _ _ => 12
  | midDetachArrayBuffer _ => 13 | midEval _ => 14 | midEvalIn _ _ => 15 | midEvalModule _ _ => 16 | midFreeObject _ => 17
  | midGc => 18 | midGet _ _ => 19 | midGlobal => 20 | midInterruptAddr => 21 | midInterruptBitsAddr => 22
  | midInterruptBitsVal => 23 | midNew _ _ => 24 | midNewFunction _ _ _ => 25 | midNewHTMLDDA => 26 | midNewPlainObject => 27
  | midNewRealm => 28 | midRunJobs => 29 | midSet _ _ _ => 30 | midSourceIsModule _ => 31 | midTakeUnhandledRejections => 32
  end.

(** A text and its length behind it. *)
Definition text_field (f : Z) (s : bytes) : bytes := pbAppendString f s ++ pbAppendUint64 (f + 1) (zlen s).

(** The request of a call on the runtime with handle [h]. *)
Definition request (h : Z) (m : method) : bytes :=
  let js := pbAppendUint64 1 h in
  match m with
  | midAgentInterrupt id => js ++ pbAppendUint64 2 id
  | midAgentSpawn glue src => js ++ text_field 2 glue ++ text_field 4 src
  | midBytesNew data => js ++ pbAppendBytes 2 data ++ pbAppendUint64 3 (zlen data)
  | midBytesRead obj | midDetachArrayBuffer obj => js ++ pbAppendUint64 2 obj
  | midCall fn this args => js ++ pbAppendUint64 2 fn ++ pbAppendUint64 3 this ++ text_field 4 args
  | midCloneFree clone => pbAppendUint64 1 clone
  | midCloneRead clone => js ++ pbAppendUint64 2 clone
  | midCloneWrite val => js ++ text_field 2 val
  | midConstruct fn args => js ++ pbAppendUint64 2 fn ++ text_field 3 args
  | midDefineConstructor obj name key nargs | midDefineFunction obj name key nargs =>
      js ++ pbAppendUint64 2 obj ++ text_field 3 name ++ text_field 5 key ++ pbAppendUint64 7 nargs
  | midEval src | midSourceIsModule src => js ++ text_field 2 src
  | midEvalIn global src => js ++ pbAppendUint64 2 global ++ text_field 3 src
  | midEvalModule specifier src => js ++ text_field 2 specifier ++ text_field 4 src
  | midFreeObject obj => pbAppendUint64 1 obj
  | midGet obj name => js ++ pbAppendUint64 2 obj ++ text_field 3 name
  | midNew maxHeapBytes quota => pbAppendUint64 1 maxHeapBytes ++ pbAppendUint64 2 quota
  | midNewFunction name key nargs => js ++ text_field 2 name ++ text_field 4 key ++ pbAppendUint64 6 nargs
  | midSet obj name val => js ++ pbAppendUint64 2 obj ++ text_field 3 name ++ text_field 5 val
  | midAgentWake | midClose | midGc | midGlobal | midInterruptAddr | midInterruptBitsAddr | midInterruptBitsVal
  | midNewHTMLDDA | midNewPlainObject | midNewRealm | midRunJobs | midTakeUnhandledRejections => js
  end.

(** ** Replies *)

(** Errors: a trap of the module, a text of the engine's or of js.go's own, a tag
    that BytesRead does not know, and an envelope that is no JSON. *)
Inductive err := Trap (e : bytes) | Text (s : bytes) | BadTag (b : Z) | Undecodable.

Inductive reply := RText (s : bytes) | RHandle (h : Z) | RBool (b : bool) | RBytes (b : bytes) | RNum (n : Z) | RUnit.

Record envelope := MkEnvelope { Ok_ : bool; Result : bytes; Error : bytes }.

(** json.Unmarshal into a bool field. *)
Definition field_bool (name : string) (ms : list (bytes * json)) : option bool :=
  foldl (λ acc v, match acc, v with
                  | Some _, JBool b => Some b
                  | Some b, JNull => Some b
                  | _, _ => None
                  end) (Some false) (Json.values name ms).

(** parseEnvelope of result.go *)
Definition parseEnvelope (raw : bytes) : option envelope :=
  ms ← Json.members raw;
  ok ← field_bool "ok" ms; result ← Json.field_string "result" ms; error ← Json.field_string "error" ms;
  Some (MkEnvelope ok result error).

Definition envelopeResult (s : bytes) : result err bytes :=
  match parseEnvelope s with
  | None => Err Undecodable
  | Some e => if Ok_ e then Ok (Result e) else Err (Text (Error e))
  end.

(** Its struct has no result field, so one of another type is no error. *)
Definition envelopeError (resp : bytes) : parsed (option err) :=
  parsed_bind (readScalarAtField resp 1 readString []) (λ s,
  Got (if bool_decide (s = []) then None
       else match (ms ← Json.members s; ok ← field_bool "ok" ms; error ← Json.field_string "error" ms; Some (ok, error)) with
            | None => None
            | Some (ok, error) => if (ok : bool) then None else Some (Text error)
            end)).

Definition text_reply (resp : bytes) : parsed (result err reply) :=
  parsed_bind (readScalarAtField resp 1 readString []) (λ s, Got (Ok (RText s))).

(** A handle, the zero one being a failure. *)
Definition handle_reply (failure : string) (resp : bytes) : parsed (result err reply) :=
  parsed_bind (readScalarAtField resp 1 readUint64 0) (λ h, Got (if h =? 0 then Err (Text (lit failure)) else Ok (RHandle h))).

Definition any_handle (resp : bytes) : parsed (result err reply) :=
  parsed_bind (readScalarAtField resp 1 readUint64 0) (λ h, Got (Ok (RHandle h))).

Definition bytes_reply (resp : bytes) : parsed (result err reply) :=
  parsed_bind (readScalarAtField resp 1 readString []) (λ b,
  Got match b with
      | [] => Err (Text (lit "malformed bytes reply: empty"))
      | t :: b' => if t =? 66 then Ok (RBytes b') else if t =? 69 then Err (Text b') else Err (BadTag t)
      end).

(** What a method makes of its response. *)
Definition answer (m : method) (resp : bytes) : parsed (result err reply) :=
  match m with
  | midAgentInterrupt _ => parsed_bind (readScalarAtField resp 1 readUint32 0) (λ n, Got (Ok (RBool (negb (n =? 0)))))
  | midAgentSpawn _ _ => handle_reply "agent spawn failed" resp
  | midBytesNew _ => handle_reply "byte array creation failed" resp
  | midBytesRead _ => bytes_reply resp
  | midCloneWrite _ => handle_reply "value is not structured-clonable" resp
  | midNewFunction _ _ _ => handle_reply "function creation failed" resp
  | midNewHTMLDDA => handle_reply "IsHTMLDDA creation failed" resp
  | midNewRealm => handle_reply "realm creation failed" resp
  | midGlobal | midNewPlainObject | midNew _ _ => any_handle resp
  | midInterruptAddr | midInterruptBitsAddr | midInterruptBitsVal =>
      parsed_bind (readScalarAtField resp 1 readUint32 0) (λ n, Got (Ok (RNum n)))
  | midSourceIsModule _ =>
      parsed_bind (readScalarAtField resp 1 readString []) (λ s,
      Got match envelopeResult s with Ok r => Ok (RBool (bool_decide (r = lit "1"))) | Err e => Err e end)
  | midTakeUnhandledRejections =>
      parsed_bind (readScalarAtField resp 1 readString []) (λ s,
      Got match envelopeResult s with Ok r => Ok (RText r) | Err e => Err e end)
  | midDefineConstructor _ _ _ _ | midDefineFunction _ _ _ _ =>
      parsed_bind (envelopeError resp) (λ e, Got match e with None => Ok RUnit | Some e => Err e end)
  | midCall _ _ _ | midCloneRead _ | midConstruct _ _ | midDetachArrayBuffer _ | midEval _ | midEvalIn _ _ | midEvalModule _ _
  | midGet _ _ | midRunJobs | midSet _ _ _ => text_reply resp
  | midAgentWake | midClose | midCloneFree _ | midFreeObject _ | midGc => Got (Ok RUnit)
  end.

Section Invoke.
(** The module: what Module.invoke answers to a method's id and a request. *)
Context (invoke : Z → bytes → result bytes bytes).

Definition invokeMethod (id : Z) (req : bytes) : parsed (result err bytes) :=
  match invoke id req with
  | Err e => Got (Err (Trap e))
  | Ok resp =>
      parsed_bind (pbExtractError resp) (λ e, Got match e with Some s => Err (Text s) | None => Ok resp end)
  end.

(** A method of [*JS] whose handle is [h]. *)
Definition call (h : Z) (m : method) : parsed (result err reply) :=
  parsed_bind (invokeMethod (mid m) (request h m)) (λ r,
  match r with Err e => Got (Err e) | Ok resp => answer m resp end).

End Invoke.

(** ** Varints *)

Lemma byte_check (P : Z → bool) : forallb P (seqZ 0 256) = true → ∀ x, 0 <= x < 256 → P x = true.
Proof. intros HP x Hx. rewrite forallb_forall in HP. apply HP. apply list_elem_of_In, elem_of_seqZ. lia. Qed.

Lemma continuation_byte x : 0 <= x < 256 → 128 <= Z.lor x 128 < 256 ∧ Z.land (Z.lor x 128) 127 = x mod 128.
Proof.
  intros Hx. assert (HP := byte_check (λ x, (128 <=? Z.lor x 128) && (Z.lor x 128 <? 256) && (Z.land (Z.lor x 128) 127 =? x mod 128))
    ltac:(vm_compute; reflexivity) x Hx). simpl in HP. rewrite !andb_true_iff in HP. lia.
Qed.

Lemma mod_256_128 v : (v mod 256) mod 128 = v mod 128.
Proof. change 256 with (128 * 2). rewrite Z.rem_mul_r by lia. rewrite Z.mul_comm, Z.mod_add by lia. by apply Z.mod_mod. Qed.

(** The bits of a group are put above those that were read. *)
Lemma group_or acc y sh :
  0 <= sh → 0 <= acc < 2 ^ sh → 0 <= y → y * 2 ^ sh < 2 ^ 64 → Z.lor acc (u64 (Z.shiftl y sh)) = acc + y * 2 ^ sh.
Proof.
  intros Hs Ha Hy Hb. rewrite Z.shiftl_mul_pow2 by done. unfold u64. rewrite wrapU_small by nia.
  rewrite Z.lor_comm. rewrite (lor_add _ _ sh) by (try done; by apply Z.mod_mul, Z.pow_nonzero). lia.
Qed.

Lemma varint_read f r : ∀ v sh acc n,
  0 <= v < 2 ^ (7 * Z.of_nat f) → (0 < f)%nat → 0 <= sh → 0 <= acc < 2 ^ sh → v * 2 ^ sh < 2 ^ 64 →
  varint_loop (append_varint f v ++ r) sh acc n = (acc + v * 2 ^ sh, n + zlen (append_varint f v)).
Proof.
  induction f as [|f IH]; intros v sh acc n Hv Hf Hs Ha Hb; [lia|]. cbn [append_varint].
  pose proof (Z.mod_pos_bound v 128 ltac:(lia)) as Hm. pose proof (Z.div_mod v 128 ltac:(lia)) as Hdm.
  destruct (Z.leb_spec 128 v) as [Hle|Hlt].
  - unfold wrapU. change (2 ^ 8) with 256. pose proof (Z.mod_pos_bound v 256 ltac:(lia)) as Hx.
    apply continuation_byte in Hx as [Hr Hl]. rewrite mod_256_128 in Hl.
    destruct f as [|f]; [change (7 * Z.of_nat 1) with 7 in Hv; lia|].
    rewrite Z.shiftr_div_pow2 by lia. change (2 ^ 7) with 128.
    cbn [app varint_loop]. rewrite (proj2 (Z.ltb_ge _ 128)) by lia. rewrite Hl.
    assert (0 <= v / 128) by (apply Z.div_pos; lia).
    rewrite group_or by (try done; nia). rewrite IH.
    + f_equal; [|unfold zlen; simpl length; lia]. rewrite Z.pow_add_r by lia. change (2 ^ 7) with 128. nia.
    + split; [done|]. replace (7 * Z.of_nat (S (S f))) with (7 * Z.of_nat (S f) + 7) in Hv by lia.
      rewrite Z.pow_add_r in Hv by lia. change (2 ^ 7) with 128 in Hv. lia.
    + lia.
    + lia.
    + rewrite Z.pow_add_r by lia. change (2 ^ 7) with 128. nia.
    + rewrite Z.pow_add_r by lia. change (2 ^ 7) with 128. nia.
  - unfold wrapU. change (2 ^ 8) with 256. rewrite (Z.mod_small v 256) by lia. cbn [app varint_loop].
    rewrite (proj2 (Z.ltb_lt v 128)) by lia. change 127 with (Z.ones 7). rewrite Z.land_ones by lia. change (2 ^ 7) with 128.
    rewrite (Z.mod_small v 128) by lia. rewrite group_or by (try done; nia). done.
Qed.

Definition is_u64 (v : Z) : Prop := 0 <= v < 2 ^ 64.

Lemma pb_varint_read v r : is_u64 v → varint_loop (pbAppendVarint v ++ r) 0 0 0 = (v, zlen (pbAppendVarint v)).
Proof. intros Hv. unfold pbAppendVarint. rewrite varint_read; [f_equal; lia| |lia|lia|lia|unfold is_u64 in Hv; lia]. unfold is_u64 in Hv. lia. Qed.

Lemma append_nonempty f v : 1 <= zlen (append_varint (S f) v).
Proof. cbn [append_varint]. unfold zlen. case_match; cbn [length]; lia. Qed.

Lemma varint_nonempty v : 1 <= zlen (pbAppendVarint v).
Proof. apply append_nonempty. Qed.

(** Varints are a prefix code. *)
Lemma varint_inj v v' r r' : is_u64 v → is_u64 v' → pbAppendVarint v ++ r = pbAppendVarint v' ++ r' → v = v' ∧ r = r'.
Proof.
  intros Hv Hv' Heq. pose proof (pb_varint_read v r Hv) as H1. rewrite Heq, (pb_varint_read v' r' Hv') in H1.
  injection H1 as -> _. split; [done|]. by apply app_inv_head in Heq.
Qed.

(** ** Messages *)

(** The two kinds of field the bridge uses. *)
Inductive field := FVarint (num v : Z) | FBytes (num : Z) (b : bytes).

Definition number (x : field) : Z := match x with FVarint n _ | FBytes n _ => n end.

Definition value_bytes (x : field) : bytes :=
  match x with FVarint _ v => pbAppendVarint v | FBytes _ b => pbAppendVarint (zlen b) ++ b end.

Definition put (x : field) : bytes :=
  match x with FVarint n v => pbAppendUint64 n v | FBytes n b => pbAppendBytes n b end.

Definition message (xs : list field) : bytes := flat_map put xs.

Definition good_field (x : field) : Prop :=
  1 <= number x < 2 ^ 29 ∧ match x with FVarint _ v => is_u64 v | FBytes _ b => zlen b < 2 ^ 62 end.

(** A message a Go slice can hold. *)
Definition good (xs : list field) : Prop := Forall good_field xs ∧ zlen (message xs) < 2 ^ 62.

Definition first (f : Z) (xs : list field) : option field := List.find (λ x, number x =? f) xs.

Definition wire (x : field) : Z := match x with FVarint _ _ => 0 | FBytes _ _ => 2 end.

Lemma put_tag x : put x = pbAppendTag (number x) (wire x) ++ value_bytes x.
Proof. by destruct x. Qed.

Lemma zlen_drop (pre post : bytes) : drop (Z.to_nat (zlen pre)) (pre ++ post) = post.
Proof. unfold zlen. rewrite Nat2Z.id. apply drop_app_length. Qed.

Lemma read_at v pre post : is_u64 v →
  readVarint (pre ++ pbAppendVarint v ++ post) (zlen pre) = Some (v, zlen pre + zlen (pbAppendVarint v)).
Proof.
  intros Hv. unfold readVarint. rewrite (proj2 (Z.ltb_ge (zlen pre) 0)) by (unfold zlen; lia). by rewrite zlen_drop, pb_varint_read.
Qed.

(** The tag of a field number and a wire type. *)
Lemma tag_value n w : 1 <= n < 2 ^ 29 → 0 <= w < 8 →
  is_u64 (Z.lor (u32 (Z.shiftl n 3)) w) ∧ u32 (Z.shiftr (Z.lor (u32 (Z.shiftl n 3)) w) 3) = n ∧
  Z.land (Z.lor (u32 (Z.shiftl n 3)) w) 7 = w.
Proof.
  intros Hn Hw. rewrite Z.shiftl_mul_pow2 by lia. change (2 ^ 3) with 8.
  assert (Z.lor (u32 (n * 8)) w = n * 8 + w) as ->.
  { unfold u32. rewrite wrapU_small by lia. apply (lor_add (n * 8) w 3); [done|by apply Z.mod_mul|done]. }
  change 7 with (Z.ones 3). rewrite Z.shiftr_div_pow2, Z.land_ones by lia. change (2 ^ 3) with 8. unfold is_u64, u32.
  rewrite Z.div_add_l, Z.div_small, Z.add_0_r by lia. rewrite wrapU_small by lia.
  split_and!; [lia|lia|done|]. rewrite Z.add_comm, Z.mod_add by lia. by apply Z.mod_small.
Qed.

Lemma wire_range x : 0 <= wire x < 8.
Proof. destruct x; simpl; lia. Qed.

Lemma read_tag x pre post : good_field x →
  ∃ p, readVarint (pre ++ put x ++ post) (zlen pre) = Some (Z.lor (u32 (Z.shiftl (number x) 3)) (wire x), p) ∧
    p = zlen (pre ++ pbAppendTag (number x) (wire x)).
Proof.
  intros [Hn _]. rewrite put_tag, <- app_assoc. unfold pbAppendTag.
  destruct (tag_value (number x) (wire x) Hn (wire_range x)) as (Hu & _ & _).
  rewrite read_at by done. eexists. split; [done|]. by rewrite zlen_app.
Qed.

Lemma i64_small z : 0 <= z < 2 ^ 63 → i64 z = z.
Proof. intros Hz. unfold i64, wrapS. rewrite Z.mod_small by lia. lia. Qed.

(** The value behind a tag is skipped whole. *)
Lemma skip_value x pre post : good_field x → zlen (pre ++ value_bytes x ++ post) < 2 ^ 63 →
  skip (pre ++ value_bytes x ++ post) (wire x) (zlen pre) = Some (zlen (pre ++ value_bytes x)).
Proof.
  intros [_ Hx] Hl. rewrite !zlen_app in Hl. assert (0 <= zlen pre ∧ 0 <= zlen post) as [Hp Hq] by (unfold zlen; lia).
  assert (∀ z, z <= zlen (pre ++ value_bytes x ++ post) →
    Some (if zlen (pre ++ value_bytes x ++ post) <? z then zlen (pre ++ value_bytes x ++ post) else z) = Some z) as Hclamp.
  { intros z Hz. by rewrite (proj2 (Z.ltb_ge _ _)) by lia. }
  unfold skip. destruct x as [n v|n b]; cbn [wire value_bytes Z.eqb] in *.
  - rewrite read_at by done. simpl. rewrite <- zlen_app. apply Hclamp. rewrite !zlen_app. lia.
  - assert (0 <= zlen b) by (unfold zlen; lia). rewrite zlen_app in Hl. rewrite <- app_assoc.
    assert (is_u64 (zlen b)) by (unfold is_u64; lia). rewrite read_at by done. simpl.
    rewrite (i64_small (zlen b)) by lia. pose proof (varint_nonempty (zlen b)). rewrite i64_small by lia.
    rewrite app_assoc in Hclamp. rewrite <- !app_assoc in Hclamp. rewrite <- zlen_app, <- zlen_app, <- app_assoc.
    apply Hclamp. rewrite !zlen_app. lia.
Qed.

Lemma put_nonempty x : 1 <= zlen (put x).
Proof. rewrite put_tag, zlen_app. pose proof (varint_nonempty (Z.lor (u32 (Z.shiftl (number x) 3)) (wire x))). unfold pbAppendTag, zlen in *. lia. Qed.

(** A round of the walk at a field. *)
Lemma step_at x pre post f : good_field x → zlen (pre ++ put x ++ post) < 2 ^ 63 →
  walk_step (pre ++ put x ++ post) f (zlen pre) =
  if number x =? f then inl (Found (zlen (pre ++ pbAppendTag (number x) (wire x)))) else inr (zlen (pre ++ put x)).
Proof.
  intros Hg Hl. unfold walk_step. pose proof (put_nonempty x) as Hput. rewrite !zlen_app in *.
  rewrite (proj2 (Z.ltb_lt _ _)) by (unfold zlen in *; lia).
  destruct (read_tag x pre post Hg) as (p & -> & ->). destruct (tag_value _ _ (proj1 Hg) (wire_range x)) as (_ & -> & ->).
  rewrite zlen_app. destruct (Z.eqb_spec (number x) f); [done|]. rewrite put_tag, <- app_assoc.
  assert (pre ++ pbAppendTag (number x) (wire x) ++ value_bytes x ++ post =
    (pre ++ pbAppendTag (number x) (wire x)) ++ value_bytes x ++ post) as -> by by rewrite <- !app_assoc.
  rewrite <- zlen_app, skip_value; [|done|].
  - by rewrite !zlen_app, Z.add_assoc.
  - rewrite put_tag in Hl. rewrite !zlen_app in *. lia.
Qed.

Lemma find_message xs f : ∀ pre fuel, Forall good_field xs → zlen (pre ++ message xs) < 2 ^ 63 → (length xs < fuel)%nat →
  match first f xs with
  | None => find_field fuel (pre ++ message xs) f (zlen pre) = Missing
  | Some x => ∃ pre' post, pre ++ message xs = pre' ++ value_bytes x ++ post ∧
      find_field fuel (pre ++ message xs) f (zlen pre) = Found (zlen pre')
  end.
Proof.
  induction xs as [|x xs IH]; intros pre fuel Hg Hl Hf; (destruct fuel as [|fuel]; [simpl in Hf; lia|]).
  - simpl. rewrite app_nil_r. unfold walk_step. by rewrite Z.ltb_irrefl.
  - apply Forall_cons in Hg as [Hx Hg]. change (message (x :: xs)) with (put x ++ message xs) in *. cbn [find_field].
    rewrite step_at by done. unfold first. cbn [List.find]. destruct (Z.eqb_spec (number x) f).
    + exists (pre ++ pbAppendTag (number x) (wire x)), (message xs). split; [|done]. by rewrite put_tag, <- !app_assoc.
    + rewrite app_assoc in Hl |- *. apply IH; [done|done|]. simpl in Hf. lia.
Qed.

Lemma message_length xs : (length xs <= length (message xs))%nat.
Proof. induction xs as [|x xs IH]; [done|]. simpl. rewrite length_app. pose proof (put_nonempty x). unfold zlen, message in *. lia. Qed.

(** Where the walk over a whole message ends. *)
Lemma find_good xs f : good xs →
  match first f xs with
  | None => find (message xs) f = Missing
  | Some x => ∃ pre post, message xs = pre ++ value_bytes x ++ post ∧ find (message xs) f = Found (zlen pre)
  end.
Proof.
  intros [Hg Hl]. unfold find. pose proof (message_length xs).
  apply (find_message xs f [] (S (length (message xs)))); [done|simpl; lia|lia].
Qed.

Lemma read_varint_value pre v post : is_u64 v →
  readUint64 (pre ++ pbAppendVarint v ++ post) (zlen pre) = Some v ∧ readUint32 (pre ++ pbAppendVarint v ++ post) (zlen pre) = Some (u32 v).
Proof. intros Hv. unfold readUint64, readUint32. by rewrite read_at. Qed.

Lemma read_bytes_value pre b post : zlen (pre ++ (pbAppendVarint (zlen b) ++ b) ++ post) < 2 ^ 63 →
  readString (pre ++ (pbAppendVarint (zlen b) ++ b) ++ post) (zlen pre) = Some b.
Proof.
  intros Hl. assert (0 <= zlen pre ∧ 0 <= zlen b ∧ 0 <= zlen post) as (? & ? & ?) by (unfold zlen; lia).
  rewrite !zlen_app in Hl. pose proof (varint_nonempty (zlen b)). unfold readString. rewrite <- app_assoc.
  rewrite read_at by (unfold is_u64; lia). cbn [mbind option_bind].
  rewrite (i64_small (zlen b)), i64_small by lia. rewrite !zlen_app.
  rewrite (proj2 (Z.ltb_ge _ _)) by lia. rewrite (proj2 (Z.ltb_ge _ _)) by lia.
  rewrite <- zlen_app, app_assoc, zlen_drop, Z.add_comm, Z.add_simpl_r. unfold zlen. by rewrite Nat2Z.id, take_app_length.
Qed.

Lemma first_good xs f x : good xs → first f xs = Some x → good_field x.
Proof. intros [Hg _] Hx. apply List.find_some in Hx as [Hin _]. rewrite Forall_forall in Hg. by apply Hg, list_elem_of_In. Qed.

(** The field as a reader sees it. *)
Lemma read_present xs f x : good xs → first f xs = Some x →
  match x with
  | FVarint _ v => readScalarAtField (message xs) f readUint64 0 = Got v ∧ readScalarAtField (message xs) f readUint32 0 = Got (u32 v)
  | FBytes _ b => readScalarAtField (message xs) f readString [] = Got b
  end.
Proof.
  intros Hg Hx. pose proof (first_good xs f x Hg Hx) as [_ Hv]. pose proof (find_good xs f Hg) as Hf. rewrite Hx in Hf.
  destruct Hf as (pre & post & Hm & Hf). unfold readScalarAtField. rewrite Hf. destruct Hg as [_ Hl]. rewrite Hm in Hl |- *.
  destruct x as [n v|n b]; cbn [value_bytes] in *.
  - by destruct (read_varint_value pre v post Hv) as [-> ->].
  - by rewrite read_bytes_value by lia.
Qed.

Lemma read_absent {A} xs f (read : bytes → Z → option A) zero :
  good xs → first f xs = None → readScalarAtField (message xs) f read zero = Got zero.
Proof. intros Hg Hx. pose proof (find_good xs f Hg) as Hf. rewrite Hx in Hf. unfold readScalarAtField. by rewrite Hf. Qed.

(** ** What a reply means *)

(** Whether a method's answer is a text; the others' is a number. *)
Definition is_text (m : method) : bool :=
  match m with
  | midAgentInterrupt _ | midAgentSpawn _ _ | midBytesNew _ | midCloneWrite _ | midNewFunction _ _ _ | midNewHTMLDDA | midNewRealm
  | midGlobal | midNewPlainObject | midNew _ _ | midInterruptAddr | midInterruptBitsAddr | midInterruptBitsVal => false
  | _ => true
  end.

(** Of a text: an envelope for some methods, tagged bytes for one, nothing to be
    looked at for others. *)
Definition by_text (m : method) (s : bytes) : result err reply :=
  match m with
  | midBytesRead _ =>
      match s with
      | [] => Err (Text (lit "malformed bytes reply: empty"))
      | t :: b => if t =? 66 then Ok (RBytes b) else if t =? 69 then Err (Text b) else Err (BadTag t)
      end
  | midSourceIsModule _ => match envelopeResult s with Ok r => Ok (RBool (bool_decide (r = lit "1"))) | Err e => Err e end
  | midTakeUnhandledRejections => match envelopeResult s with Ok r => Ok (RText r) | Err e => Err e end
  | midDefineConstructor _ _ _ _ | midDefineFunction _ _ _ _ =>
      match s with
      | [] => Ok RUnit
      | _ => match (ms ← Json.members s; ok ← field_bool "ok" ms; error ← Json.field_string "error" ms; Some (ok, error)) with
             | Some (false, error) => Err (Text error)
             | _ => Ok RUnit
             end
      end
  | midAgentWake | midClose | midCloneFree _ | midFreeObject _ | midGc => Ok RUnit
  | _ => Ok (RText s)
  end.

(** Of a number: a handle, zero standing for a failure of the methods that make
    something, a flag, or an address of 32 bits. *)
Definition by_number (m : method) (n : Z) : result err reply :=
  let made (failure : string) : result err reply := if n =? 0 then Err (Text (lit failure)) else Ok (RHandle n) in
  match m with
  | midAgentInterrupt _ => Ok (RBool (negb (u32 n =? 0)))
  | midAgentSpawn _ _ => made "agent spawn failed"
  | midBytesNew _ => made "byte array creation failed"
  | midCloneWrite _ => made "value is not structured-clonable"
  | midNewFunction _ _ _ => made "function creation failed"
  | midNewHTMLDDA => made "IsHTMLDDA creation failed"
  | midNewRealm => made "realm creation failed"
  | midInterruptAddr | midInterruptBitsAddr | midInterruptBitsVal => Ok (RNum (u32 n))
  | _ => Ok (RHandle n)
  end.

(** The response of a bridge that keeps to the protocol. *)
Definition speaks (m : method) (xs : list field) : Prop :=
  good xs ∧
  (∀ x, first 1 xs = Some x → match x with FBytes _ _ => is_text m = true | FVarint _ _ => is_text m = false end) ∧
  (∀ x, first 15 xs = Some x → match x with FBytes _ _ => True | FVarint _ _ => False end).

Definition meaning (m : method) (xs : list field) : result err reply :=
  match first 15 xs with
  | Some (FBytes _ e) => Err (Text e)
  | _ =>
      if is_text m then by_text m match first 1 xs with Some (FBytes _ b) => b | _ => [] end
      else by_number m match first 1 xs with Some (FVarint _ n) => n | _ => 0 end
  end.

Lemma answer_meaning m xs : speaks m xs → answer m (message xs) = Got
  (if is_text m then by_text m match first 1 xs with Some (FBytes _ b) => b | _ => [] end
   else by_number m match first 1 xs with Some (FVarint _ n) => n | _ => 0 end).
Proof.
  intros (Hg & H1 & _). destruct (is_text m) eqn:Ht.
  - assert (readScalarAtField (message xs) 1 readString [] = Got match first 1 xs with Some (FBytes _ b) => b | _ => [] end) as Hr.
    { destruct (first 1 xs) as [x|] eqn:Hx; [|by apply read_absent]. specialize (H1 x eq_refl).
      pose proof (read_present xs 1 x Hg Hx). by destruct x. }
    destruct m; try done; cbn [answer by_text]; unfold text_reply, bytes_reply, envelopeError; rewrite ?Hr; cbn [parsed_bind]; try done.
    all: destruct (match first 1 xs with Some (FBytes _ b) => b | _ => [] end) as [|t b]; try done.
    all: rewrite bool_decide_false by done; destruct (_ ≫= _) as [[[] e]|]; done.
  - assert (readScalarAtField (message xs) 1 readUint64 0 = Got match first 1 xs with Some (FVarint _ n) => n | _ => 0 end ∧
      readScalarAtField (message xs) 1 readUint32 0 = Got (u32 match first 1 xs with Some (FVarint _ n) => n | _ => 0 end)) as [Hr Hr'].
    { destruct (first 1 xs) as [x|] eqn:Hx; [|by split; rewrite read_absent]. specialize (H1 x eq_refl).
      pose proof (read_present xs 1 x Hg Hx). by destruct x. }
    destruct m; try done; cbn [answer by_number]; unfold handle_reply, any_handle; by rewrite ?Hr, ?Hr'.
Qed.

(** C32: A call means what the engine said: for every method and every response that
    keeps to the protocol, whatever fields it has besides and in what order,
    the call ends without a panic and without spinning; an error field wins over
    everything and comes out as its text; otherwise the first field 1 decides,
    absent meaning empty or zero, the zero handle is an error but for Global,
    NewPlainObject and New, which pass it on, and a trap of the module is an error too. *)
Theorem call_meaning (invoke : Z → bytes → result bytes bytes) (h : Z) (m : method) :
  (∀ xs, invoke (mid m) (request h m) = Ok (message xs) → speaks m xs → call invoke h m = Got (meaning m xs)) ∧
  (∀ e, invoke (mid m) (request h m) = Err e → call invoke h m = Got (Err (Trap e))).
Proof.
  unfold call, invokeMethod. split; [|by intros e ->]. intros xs -> Hs. pose proof (answer_meaning m xs Hs) as Ha.
  destruct Hs as (Hg & _ & H15). unfold pbExtractError, meaning. pose proof (find_good xs 15 Hg) as Hf.
  destruct (first 15 xs) as [x|] eqn:Hx; [|by rewrite Hf].
  pose proof (read_present xs 15 x Hg Hx) as Hr. unfold readScalarAtField in Hr. specialize (H15 x eq_refl).
  destruct Hf as (pre & post & _ & Hf). rewrite Hf in *. destruct x as [n v|n b]; [done|].
  destruct (readString _ _); [|done]. by injection Hr as ->.
Qed.

(** ** What a request says *)

(** Arguments in the range of their Go types. *)
Definition in_range_args (m : method) : Prop :=
  match m with
  | midAgentInterrupt n | midBytesRead n | midCloneFree n | midCloneRead n | midDetachArrayBuffer n | midFreeObject n => is_u64 n
  | midAgentSpawn s t | midEvalModule s t => zlen s < 2 ^ 62 ∧ zlen t < 2 ^ 62
  | midBytesNew s | midCloneWrite s | midEval s | midSourceIsModule s => zlen s < 2 ^ 62
  | midCall f t s => is_u64 f ∧ is_u64 t ∧ zlen s < 2 ^ 62
  | midConstruct n s | midEvalIn n s | midGet n s => is_u64 n ∧ zlen s < 2 ^ 62
  | midDefineConstructor n s t k | midDefineFunction n s t k => is_u64 n ∧ zlen s < 2 ^ 62 ∧ zlen t < 2 ^ 62 ∧ 0 <= k < 2 ^ 32
  | midNew a b => 0 <= a < 2 ^ 32 ∧ 0 <= b < 2 ^ 32
  | midNewFunction s t k => zlen s < 2 ^ 62 ∧ zlen t < 2 ^ 62 ∧ 0 <= k < 2 ^ 32
  | midSet n s t => is_u64 n ∧ zlen s < 2 ^ 62 ∧ zlen t < 2 ^ 62
  | _ => True
  end.

(** Whether the request carries the handle of the runtime. *)
Definition names_runtime (m : method) : bool :=
  match m with midCloneFree _ | midFreeObject _ | midNew _ _ => false | _ => true end.

Lemma uint64_inj f v v' r r' : is_u64 v → is_u64 v' → pbAppendUint64 f v ++ r = pbAppendUint64 f v' ++ r' → v = v' ∧ r = r'.
Proof. intros Hv Hv'. unfold pbAppendUint64. rewrite <- !app_assoc. intros H%app_inv_head. by apply varint_inj in H. Qed.

Lemma bytes_inj f b b' r r' : zlen b < 2 ^ 62 → zlen b' < 2 ^ 62 → pbAppendBytes f b ++ r = pbAppendBytes f b' ++ r' → b = b' ∧ r = r'.
Proof.
  intros Hb Hb'. unfold pbAppendBytes. rewrite <- !app_assoc. intros H%app_inv_head.
  apply varint_inj in H as [Hl H]; [|unfold is_u64, zlen in *; lia..]. apply app_inj_1 in H; [done|]. unfold zlen in Hl. lia.
Qed.

Lemma text_inj f s s' r r' : zlen s < 2 ^ 62 → zlen s' < 2 ^ 62 → text_field f s ++ r = text_field f s' ++ r' → s = s' ∧ r = r'.
Proof.
  intros Hs Hs'. unfold text_field. rewrite <- !app_assoc. intros H.
  apply (bytes_inj f s s') in H as [-> H]; [|done|done]. by apply app_inv_head in H.
Qed.

Lemma u32_u64 v : 0 <= v < 2 ^ 32 → is_u64 v.
Proof. unfold is_u64. lia. Qed.

(** Peels one field off both sides of an equation of requests. *)
Local Ltac peel H :=
  lazymatch type of H with
  | text_field ?f _ ++ _ = _ => apply (text_inj f) in H as [? H]; [|tauto..]
  | pbAppendBytes ?f _ ++ _ = _ => apply (bytes_inj f) in H as [? H]; [|tauto..]
  | pbAppendUint64 ?f _ ++ _ = _ => apply (uint64_inj f) in H as [? H]; [|solve [tauto | apply u32_u64; tauto]..]
  end.

(** Requests are faithful: two calls with the same method id and the same request
    bytes are the same call, with the same arguments and, where the method is
    one of a runtime, on the same runtime: nothing of a name, a source or a
    binary is lost, cut or moved into the field beside it, whatever bytes it
    holds; and no method has another's id. *)
Theorem request_injective (h h' : Z) (m m' : method) :
  is_u64 h → is_u64 h' → in_range_args m → in_range_args m' →
  mid m = mid m' → request h m = request h' m' → m = m' ∧ (names_runtime m = true → h = h').
Proof.
  intros Hh Hh' Hm Hm' Hid H.
  destruct m, m'; try discriminate Hid; clear Hid; cbn [request in_range_args names_runtime] in *; rewrite <- ?app_assoc in H;
    apply (f_equal (λ l, l ++ [])) in H; rewrite <- ?app_assoc in H; repeat peel H; subst; done.
Qed.

(** ** The walk's bound *)

(** The positions a walk goes through. *)
Fixpoint positions (fuel : nat) (data : bytes) (f pos : Z) : list Z :=
  match fuel with
  | O => []
  | S k => pos :: match walk_step data f pos with inl _ => [] | inr p => positions k data f p end
  end.

Fixpoint after (n : nat) (data : bytes) (f pos : Z) : option Z :=
  match n with O => Some pos | S n => match walk_step data f pos with inl _ => None | inr p => after n data f p end end.

Lemma after_add a b data f pos : after (a + b) data f pos = after a data f pos ≫= after b data f.
Proof. revert pos. induction a as [|a IH]; intros pos; [done|]. simpl. destruct (walk_step data f pos); [done|]. apply IH. Qed.

Lemma endless_after fuel data f pos : find_field fuel data f pos = Endless ↔ is_Some (after fuel data f pos).
Proof.
  revert pos. induction fuel as [|k IH]; intros pos; simpl; [by split; eauto|].
  destruct (walk_step data f pos) as [w|p] eqn:Hw; [|apply IH]. split; [|by intros [? ?]]. intros ->. exfalso.
  revert Hw. unfold walk_step. destruct (pos <? zlen data); [|done]. destruct (readVarint data pos) as [[tag p]|]; [|done].
  destruct (_ =? f); [done|]. by destruct (skip _ _ _).
Qed.

Lemma after_prefix n k data f pos : (n <= k)%nat → is_Some (after k data f pos) → is_Some (after n data f pos).
Proof. intros Hn. replace k with (n + (k - n))%nat by lia. rewrite after_add. destruct (after n data f pos); [eauto|]. by intros [? ?]. Qed.

Lemma after_range n data f pos : 0 <= pos → is_Some (after (S n) data f pos) → ∃ p, after n data f pos = Some p ∧ 0 <= p < zlen data.
Proof.
  intros Hpos Hs. replace (S n) with (n + 1)%nat in Hs by lia. rewrite after_add in Hs.
  destruct (after n data f pos) as [p|] eqn:Hn; [|by destruct Hs]. exists p. split; [done|]. simpl in Hs.
  unfold walk_step in Hs. destruct (Z.ltb_spec p (zlen data)); [|by destruct Hs]. split; [|done].
  destruct (readVarint data p) as [[tag q]|] eqn:Hr; [|by destruct Hs]. unfold readVarint in Hr.
  destruct (Z.ltb_spec p 0); [done|lia].
Qed.

Lemma repeated (l : list Z) : ¬ NoDup l → ∃ i j x, (i < j)%nat ∧ l !! i = Some x ∧ l !! j = Some x.
Proof.
  induction l as [|x l IH]; intros Hl; [by destruct Hl; constructor|]. destruct (decide (x ∈ l)) as [Hx|Hx].
  - apply list_elem_of_lookup in Hx as [j Hj]. exists 0%nat, (S j), x. split; [lia|done].
  - destruct IH as (i & j & y & Hij & Hi & Hj); [intros Hnd; apply Hl; by constructor|].
    exists (S i), (S j), y. split; [lia|done].
Qed.

(** A walk that has not ended after one round more than there are bytes never
    ends: the outcome [Spins] is a loop of the Go code. *)
Lemma endless_for_ever data f : find data f = Endless → ∀ fuel, find_field fuel data f 0 = Endless.
Proof.
  unfold find. rewrite endless_after. intros Hend. set (N := length data) in *.
  assert (∀ n, (n <= N)%nat → ∃ p, after n data f 0 = Some p ∧ 0 <= p < zlen data) as Hpos.
  { intros n Hn. apply after_range; [done|]. by eapply after_prefix; [|exact Hend]; lia. }
  assert (¬ NoDup (map (λ n, default 0 (after n data f 0)) (seq 0 (S N)))) as Hdup.
  { intros Hnd. apply (NoDup_submseteq _ (seqZ 0 (zlen data))) in Hnd.
    - apply submseteq_length in Hnd. rewrite length_map, length_seq, length_seqZ in Hnd. unfold zlen in Hnd. lia.
    - intros p Hp. apply list_elem_of_fmap in Hp as (n & -> & Hn). apply elem_of_seq in Hn.
      destruct (Hpos n ltac:(lia)) as (p & -> & Hr). simpl. apply elem_of_seqZ. lia. }
  assert (∃ i j p, (i < j)%nat ∧ after i data f 0 = Some p ∧ after j data f 0 = Some p) as (i & j & p & Hij & Hi & Hj).
  { apply repeated in Hdup as (i & j & x & Hij & Hi & Hj).
    apply list_lookup_fmap_Some in Hi as (a & Hx & Ha). apply list_lookup_fmap_Some in Hj as (b & Hx' & Hb).
    apply lookup_seq in Ha as [-> Ha], Hb as [-> Hb]. exists i, j, x.
    destruct (Hpos i ltac:(lia)) as (p & Hp & _), (Hpos j ltac:(lia)) as (q & Hq & _). simpl in *.
    rewrite Hp in Hx. rewrite Hq in Hx'. simpl in *. by subst. }
  assert (∀ m, after (i + m * (j - i)) data f 0 = Some p) as Hloop.
  { induction m as [|m IH]; [by rewrite Nat.add_0_r|]. replace (i + S m * (j - i))%nat with (i + m * (j - i) + (j - i))%nat by lia.
    rewrite after_add, IH. simpl. replace j with (i + (j - i))%nat in Hj by lia. rewrite after_add, Hi in Hj. exact Hj. }
  intros fuel. rewrite endless_after. apply (after_prefix _ (i + fuel * (j - i))); [nia|]. rewrite Hloop. eauto.
Qed.

(** ** Concrete calls *)

Lemma request_injective_witness :
  ∃ name, request 7 (midGet 300 (lit "ab")) = [8; 7; 16; 172; 2; 26; 2; 97; 98; 32; 2] ∧
    midGet 300 (lit "ab") = midGet 300 name ∧ (names_runtime (midGet 300 name) = true → 7 = 7).
Proof.
  exists (lit "ab"). split; [vm_compute; reflexivity|].
  apply (request_injective 7 7 (midGet 300 (lit "ab")) (midGet 300 (lit "ab"))); try done; vm_compute; split; try done; split; done.
Defined.

(** A failed allocation, with a field the reader does not know in front. *)
Lemma call_meaning_witness :
  let response := message [FBytes 9 (lit "x"); FVarint 1 0] in
  call (λ _ _, Ok response) 7 (midBytesNew [1; 2]) = Got (Err (Text (lit "byte array creation failed"))).
Proof.
  cbv zeta. refine (proj1 (call_meaning (λ _ _, Ok (message [FBytes 9 (lit "x"); FVarint 1 0])) 7 (midBytesNew [1; 2]))
    [FBytes 9 (lit "x"); FVarint 1 0] eq_refl _).
  split; [|split; intros x; vm_compute; intros Hx; by simplify_eq].
  split; [|vm_compute; done]. repeat (constructor; [vm_compute; repeat split; done|]). constructor.
Defined.

(** A reply out of a guest memory that was tampered with: a length of 2^63 is a
    negative int in the slice expression. *)
Example forged_length_panics :
  call (λ _ _, Ok (pbAppendTag 1 2 ++ pbAppendVarint (2 ^ 63))) 7 (midGet 3 (lit "a")) = Panics.
Proof. vm_compute. reflexivity. Qed.

(** A length of minus eleven takes the reader back to where it began. *)
Example forged_length_spins :
  call (λ _ _, Ok (pbAppendTag 2 2 ++ pbAppendVarint (2 ^ 64 - 11))) 7 (midGet 3 (lit "a")) = Spins.
Proof. vm_compute. reflexivity. Qed.
