(* ===== verification/Engine.v ===== *)
(** Interpreter instances (internal/newjs.go, and of internal/js.go what runs a
    call under a context): how an instance gets its linear memory and gives it
    back, the process-wide cache of snapshots, and the interrupt of a running
    call.

    The wasm runtime (package base of wasm2go) answers through arguments: whether
    a mapping succeeds, what js_new gives. A mapping is a number. *)

From S2P Require Import Prelude GoPath Json Encoding Bridge.

(** ** strconv.Quote, which %q uses *)

Module Quote.

(** The code point of a UTF-8 sequence. *)
Definition rune_value (w : bytes) : Z :=
  match w with
  | [a] => a
  | [a; b] => (a mod 32) * 64 + b mod 64
  | [a; b; c] => (a mod 16) * 4096 + (b mod 64) * 64 + c mod 64
  | [a; b; c; d] => (a mod 8) * 262144 + (b mod 64) * 4096 + (c mod 64) * 64 + d mod 64
  | _ => 0
  end.

Definition hex_byte (b : Z) : bytes := [hex_digit (Z.shiftr b 4); hex_digit (Z.land b 15)].

Section Print.
(** unicode.IsPrint *)
Context (IsPrint : Z → bool).

(** appendEscapedRune of a rune with UTF-8 sequence [w]. *)
Definition escaped (w : bytes) : bytes :=
  let r := rune_value w in
  if (r =? 34) || (r =? 92) then [92; r]
  else if IsPrint r then w
  else if r =? 7 then lit "\a" else if r =? 8 then lit "\b" else if r =? 12 then lit "\f"
  else if r =? 10 then lit "\n" else if r =? 13 then lit "\r" else if r =? 9 then lit "\t" else if r =? 11 then lit "\v"
  else if (r <? 32) || (r =? 127) then lit "\x" ++ hex_byte r
  else if r <? 65536 then lit "\u" ++ hex_byte (r / 256) ++ hex_byte (r mod 256)
  else lit "\U" ++ hex_byte (r / 16777216) ++ hex_byte (r / 65536 mod 256) ++ hex_byte (r / 256 mod 256) ++ hex_byte (r mod 256).

(** What the head of a string becomes, and how many bytes it takes. *)
Definition quote1 (s : bytes) : bytes * nat :=
  match Json.rune_len Utf8.Start s with
  | Some n => (escaped (take n s), n)
  | None => (lit "\x" ++ hex_byte (default 0 (head s)), 1%nat)
  end.

Fixpoint body (fuel : nat) (s : bytes) : bytes :=
  match fuel, s with
  | S f, _ :: _ => let '(o, n) := quote1 s in o ++ body f (drop n s)
  | _, _ => []
  end.

Definition Quote (s : bytes) : bytes := [34] ++ body (length s) s ++ [34].

(** fmt's %q of a slice of strings. *)
Definition quote_list (l : list bytes) : bytes := [91] ++ join 32 (map Quote l) ++ [93].

End Print.
End Quote.

(** *** Reading it back *)

Module Unquote.
Import Quote.

Definition hex2 (s : bytes) : option (Z * bytes) :=
  match s with
  | a :: b :: r => x ← hex_value a; y ← hex_value b; Some (x * 16 + y, r)
  | _ => None
  end.

Definition simple (c : Z) : option Z :=
  if c =? 97 then Some 7 else if c =? 98 then Some 8 else if c =? 102 then Some 12 else if c =? 110 then Some 10
  else if c =? 114 then Some 13 else if c =? 116 then Some 9 else if c =? 118 then Some 11
  else if (c =? 34) || (c =? 92) then Some c else None.

Definition unquote1 (o : bytes) : option (bytes * bytes) :=
  match o with
  | c0 :: c :: r =>
      if c0 =? 92 then
        match simple c with
        | Some b => Some ([b], r)
        | None =>
            if c =? 120 then '(v, r) ← hex2 r; Some ([v], r)
            else if c =? 117 then '(x, r) ← hex2 r; '(y, r) ← hex2 r; Some (Json.put_rune (x * 256 + y), r)
            else if c =? 85 then
              '(w, r) ← hex2 r; '(x, r) ← hex2 r; '(y, r) ← hex2 r; '(z, r) ← hex2 r;
              Some (Json.put_rune (((w * 256 + x) * 256 + y) * 256 + z), r)
            else None
        end
      else n ← Json.rune_len Utf8.Start o; Some (take n o, drop n o)
  | _ => n ← Json.rune_len Utf8.Start o; Some (take n o, drop n o)
  end.

Fixpoint unquote_body (fuel : nat) (o : bytes) : option (bytes * bytes) :=
  match fuel, o with
  | S f, c :: r =>
      if c =? 34 then Some ([], r)
      else '(w, r) ← unquote1 o; '(s, r) ← unquote_body f r; Some (w ++ s, r)
  | _, _ => None
  end.

End Unquote.

Import Quote Unquote.

Lemma rune_more k lo hi s n : Json.rune_len (Utf8.More k lo hi) s = Some n →
  ∃ c s', s = c :: s' ∧ lo <= c <= hi ∧
    match k with O => n = 1%nat | S k' => ∃ m, n = S m ∧ Json.rune_len (Utf8.More k' 128 191) s' = Some m end.
Proof.
  destruct s as [|c s]; [done|]. cbn [Json.rune_len Utf8.step]. unfold in_range. destruct (Z.leb_spec lo c), (Z.leb_spec c hi); try done.
  cbn [andb]. intros Hn. exists c, s. split; [done|]. split; [lia|]. destruct k as [|k]; [by injection Hn as <-|].
  destruct (Json.rune_len _ s) as [m|]; [|done]. injection Hn as <-. by exists m.
Qed.

Ltac div_lia := Z.to_euclidean_division_equations; lia.

Lemma rune_two a x : 194 <= a <= 223 → 128 <= x <= 191 →
  128 <= rune_value [a; x] < 1114112 ∧ Json.put_rune (rune_value [a; x]) = [a; x].
Proof.
  intros Ha Hx. assert (Hv : rune_value [a; x] = (a - 192) * 64 + (x - 128)) by (simpl; div_lia). rewrite Hv. split; [lia|].
  unfold Json.put_rune. rewrite (proj2 (Z.ltb_ge _ 128)), (proj2 (Z.ltb_lt _ 2048)) by lia. repeat f_equal; div_lia.
Qed.

Lemma rune_three a x y : 224 <= a <= 239 → 128 <= x <= 191 → 128 <= y <= 191 → (a = 224 → 160 <= x) →
  128 <= rune_value [a; x; y] < 1114112 ∧ Json.put_rune (rune_value [a; x; y]) = [a; x; y].
Proof.
  intros Ha Hx Hy H0. assert (Hv : rune_value [a; x; y] = (a - 224) * 4096 + (x - 128) * 64 + (y - 128)) by (simpl; div_lia).
  rewrite Hv. assert (2048 <= (a - 224) * 4096 + (x - 128) * 64 + (y - 128) < 65536) as Hr by (destruct (decide (a = 224)); lia).
  split; [lia|]. unfold Json.put_rune. rewrite (proj2 (Z.ltb_ge _ 128)), (proj2 (Z.ltb_ge _ 2048)), (proj2 (Z.ltb_lt _ 65536)) by lia.
  clear Hv. repeat f_equal; div_lia.
Qed.

Lemma rune_four a x y z : 240 <= a <= 244 → 128 <= x <= 191 → 128 <= y <= 191 → 128 <= z <= 191 →
  (a = 240 → 144 <= x) → (a = 244 → x <= 143) →
  128 <= rune_value [a; x; y; z] < 1114112 ∧ Json.put_rune (rune_value [a; x; y; z]) = [a; x; y; z].
Proof.
  intros Ha Hx Hy Hz H0 H4.
  assert (Hv : rune_value [a; x; y; z] = (a - 240) * 262144 + (x - 128) * 4096 + (y - 128) * 64 + (z - 128)) by (simpl; div_lia).
  rewrite Hv. assert (65536 <= (a - 240) * 262144 + (x - 128) * 4096 + (y - 128) * 64 + (z - 128) < 1114112) as Hr
    by (destruct (decide (a = 240)), (decide (a = 244)); lia).
  split; [lia|]. unfold Json.put_rune. rewrite (proj2 (Z.ltb_ge _ 128)), (proj2 (Z.ltb_ge _ 2048)), (proj2 (Z.ltb_ge _ 65536)) by lia.
  clear Hv. repeat f_equal; div_lia.
Qed.

(** A valid sequence is ASCII, or it starts above and its code point gives it
    back. *)
Lemma rune_cases s n : Json.rune_len Utf8.Start s = Some n → ∃ c w s', s = c :: w ++ s' ∧ n = S (length w) ∧
  (w = [] ∧ 0 <= c < 128 ∨ 128 <= c ∧ 128 <= rune_value (c :: w) < 1114112 ∧ Json.put_rune (rune_value (c :: w)) = c :: w).
Proof.
  destruct s as [|c s]; [done|]. cbn [Json.rune_len Utf8.step]. intros Hn. unfold in_range in Hn.
  destruct (decide (0 <= c < 128)) as [Hc|Hc].
  { rewrite (proj2 (Z.leb_le 0 c)), (proj2 (Z.leb_le c 127)) in Hn by lia. injection Hn as <-. exists c, [], s. auto. }
  repeat match type of Hn with
    | context [Z.leb ?a ?b] => destruct (Z.leb_spec a b); cbn [andb orb] in Hn
    | context [Z.eqb ?a ?b] => destruct (Z.eqb_spec a b); cbn [andb orb] in Hn
    end; try (exfalso; lia); try discriminate Hn.
  all: destruct (Json.rune_len _ s) as [m|] eqn:Hm; [|discriminate Hn]; injection Hn as <-.
  all: apply rune_more in Hm as (x & l & -> & Hx & Hm); try (destruct Hm as (m1 & -> & Hm); apply rune_more in Hm as (y & l1 & -> & Hy & Hm));
    try (destruct Hm as (m2 & -> & Hm); apply rune_more in Hm as (z & l2 & -> & Hz & Hm)); subst.
  all: first [ exists c, [x], l; split; [done|] | exists 224, [x; y], l1; split; [done|] | exists 237, [x; y], l1; split; [done|]
             | exists 240, [x; y; z], l2; split; [done|] | exists 244, [x; y; z], l2; split; [done|]
             | exists c, [x; y], l1; split; [done|] | exists c, [x; y; z], l2; split; [done|] ];
    (split; [done|]; right; split; [lia|]).
  all: first [ apply rune_two; lia | apply rune_three; lia | apply rune_four; lia ].
Qed.

Lemma hex2_byte b r : is_byte b → hex2 (hex_byte b ++ r) = Some (b, r).
Proof.
  intros Hb. unfold is_byte in Hb. unfold hex_byte. rewrite Z.shiftr_div_pow2 by lia. change 15 with (Z.ones 4). rewrite Z.land_ones by lia.
  change (2 ^ 4) with 16. cbn [app hex2]. pose proof (Z.mod_pos_bound b 16 ltac:(lia)). pose proof (Z.div_mod b 16 ltac:(lia)).
  rewrite !hex_value_digit by lia. simpl. do 2 f_equal. lia.
Qed.

Lemma unquote_x b rest : is_byte b → unquote1 ((lit "\x" ++ hex_byte b) ++ rest) = Some ([b], rest).
Proof.
  intros Hb. change (unquote1 ((lit "\x" ++ hex_byte b) ++ rest)) with ('(v, r) ← hex2 (hex_byte b ++ rest); Some ([v], r)).
  by rewrite hex2_byte.
Qed.

Lemma unquote_u v rest : 0 <= v < 65536 →
  unquote1 ((lit "\u" ++ hex_byte (v / 256) ++ hex_byte (v mod 256)) ++ rest) = Some (Json.put_rune v, rest).
Proof.
  intros Hv. assert (is_byte (v / 256) ∧ is_byte (v mod 256)) as [H1 H2] by (unfold is_byte; div_lia).
  change (unquote1 _) with ('(x, r) ← hex2 ((hex_byte (v / 256) ++ hex_byte (v mod 256)) ++ rest); '(y, r) ← hex2 r; Some (Json.put_rune (x * 256 + y), r)).
  rewrite <- app_assoc, hex2_byte by done. cbn [mbind option_bind]. rewrite hex2_byte by done. simpl. do 3 f_equal. div_lia.
Qed.

Lemma unquote_U v rest : 0 <= v < 4294967296 →
  unquote1 ((lit "\U" ++ hex_byte (v / 16777216) ++ hex_byte (v / 65536 mod 256) ++ hex_byte (v / 256 mod 256) ++ hex_byte (v mod 256)) ++ rest)
  = Some (Json.put_rune v, rest).
Proof.
  intros Hv. assert (is_byte (v / 16777216) ∧ is_byte (v / 65536 mod 256) ∧ is_byte (v / 256 mod 256) ∧ is_byte (v mod 256)) as (H1 & H2 & H3 & H4)
    by (unfold is_byte; div_lia).
  change (unquote1 _) with (
    '(w, r) ← hex2 ((hex_byte (v / 16777216) ++ hex_byte (v / 65536 mod 256) ++ hex_byte (v / 256 mod 256) ++ hex_byte (v mod 256)) ++ rest);
    '(x, r) ← hex2 r; '(y, r) ← hex2 r; '(z, r) ← hex2 r; Some (Json.put_rune (((w * 256 + x) * 256 + y) * 256 + z), r)).
  rewrite <- !app_assoc. do 4 (rewrite hex2_byte by done; cbn [mbind option_bind]). simpl. do 3 f_equal.
  rewrite (Z.mul_comm _ 256), (Z.mul_comm (v / 16777216 * 256 + _) 256). div_lia.
Qed.

Section Printed.
Context (IsPrint : Z → bool).

(** An escape, which starts with a backslash. *)
Lemma unquote_escape c w rest : let r := rune_value (c :: w) in
  0 <= r < 1114112 → Json.put_rune r = c :: w → IsPrint r = false ∨ r = 34 ∨ r = 92 →
  unquote1 (escaped IsPrint (c :: w) ++ rest) = Some (c :: w, rest) ∧ ∃ t, escaped IsPrint (c :: w) = 92 :: t.
Proof.
  intros r Hr Hput Hp. unfold escaped. fold r. clearbody r.
  assert (Hone : ∀ k e, r = k → 0 <= k < 128 → simple e = Some k → unquote1 ([92; e] ++ rest) = Some (c :: w, rest) ∧ ∃ t, [92; e] = 92 :: t).
  { intros k e Hk Hk' Hs. split; [|eauto]. cbn [app unquote1]. rewrite Z.eqb_refl, Hs. rewrite Hk in Hput. unfold Json.put_rune in Hput.
    rewrite (proj2 (Z.ltb_lt k 128)) in Hput by lia. by rewrite Hput. }
  destruct (Z.eqb_spec r 34) as [->|H34]; [by eapply Hone|]. destruct (Z.eqb_spec r 92) as [->|H92]; [by eapply Hone|]. cbn [orb].
  destruct Hp as [->|[?|?]]; [|done|done].
  repeat match goal with |- context [if r =? ?k then lit ?x else _] =>
    destruct (Z.eqb_spec r k); [let e := eval vm_compute in (nth 1 (lit x) 0) in change (lit x) with [92; e]; apply (Hone k e); [done|lia|done]|] end.
  rewrite <- Hput. destruct (Z.ltb_spec r 32), (Z.eqb_spec r 127); cbn [orb]; cbv iota.
  1-3: rewrite unquote_x by (unfold is_byte; lia); unfold Json.put_rune; rewrite (proj2 (Z.ltb_lt r 128)) by lia; split; [done|by eexists].
  destruct (Z.ltb_spec r 65536); [rewrite unquote_u by lia|rewrite unquote_U by lia]; (split; [done|by eexists]).
Qed.

Lemma unquote_quote1 c s o n rest : is_byte c → quote1 IsPrint (c :: s) = (o, n) →
  unquote1 (o ++ rest) = Some (take n (c :: s), rest) ∧ (1 <= n <= length (c :: s))%nat ∧ ∃ x t, o = x :: t ∧ x ≠ 34.
Proof.
  intros Hc. unfold quote1. destruct (Json.rune_len Utf8.Start (c :: s)) as [m|] eqn:Hm; intros Hq; [injection Hq as <- <-|].
  - pose proof Hm as Hm0. apply rune_cases in Hm as (c' & w & s' & Heq & -> & Hcase). injection Heq as <- ->.
    destruct (rune_len_take _ _ _ rest Hm0) as [Htake _].
    assert (Ht : take (S (length w)) (c :: w ++ s') = c :: w) by (simpl; by rewrite take_app_length). rewrite Ht in *.
    assert (0 <= rune_value (c :: w) < 1114112 ∧ Json.put_rune (rune_value (c :: w)) = c :: w) as [Hr Hput].
    { destruct Hcase as [[-> Hc']|(_ & Hr & Hput)]; [|split; [lia|done]]. simpl. split; [lia|]. unfold Json.put_rune.
      by rewrite (proj2 (Z.ltb_lt c 128)) by lia. }
    assert (Hlen : (1 <= S (length w) <= length (c :: w ++ s'))%nat) by (simpl; rewrite length_app; lia).
    destruct (IsPrint (rune_value (c :: w)) && negb ((rune_value (c :: w) =? 34) || (rune_value (c :: w) =? 92))) eqn:Hp.
    + apply andb_true_iff in Hp as [Hp Hq%negb_true_iff]. assert (He : escaped IsPrint (c :: w) = c :: w) by (unfold escaped; by rewrite Hq, Hp).
      assert (c ≠ 34 ∧ c ≠ 92) as [H34 H92].
      { destruct Hcase as [[-> Hc']|(Hc' & _)]; [|lia]. simpl in Hq. apply orb_false_iff in Hq as [?%Z.eqb_neq ?%Z.eqb_neq]. done. }
      rewrite He. split_and!; [|lia|lia|by exists c, w]. unfold unquote1. cbn [app] in *. rewrite (proj2 (Z.eqb_neq c 92)) by done.
      assert (Hraw : (n ← Json.rune_len Utf8.Start (c :: w ++ rest); Some (take n (c :: w ++ rest), drop n (c :: w ++ rest))) = Some (c :: w, rest)).
      { rewrite Htake. simpl. by rewrite take_app_length, drop_app_length. }
      by destruct (w ++ rest).
    + destruct (unquote_escape c w rest Hr Hput) as [H1 [t Het]].
      { destruct (IsPrint _); [right|by left]. simpl in Hp. apply negb_false_iff, orb_true_iff in Hp as [?%Z.eqb_eq|?%Z.eqb_eq]; auto. }
      split_and!; [done|lia|lia|]. exists 92, t. done.
  - assert (o = lit "\x" ++ hex_byte c ∧ n = 1%nat) as [-> ->] by (by injection Hq as <- <-). rewrite unquote_x by done. split_and!; [done|lia|simpl; lia|by eexists _, _].
Qed.

Lemma unquote_body_ok f s rest g : Forall is_byte s → (length s <= f)%nat → (length s < g)%nat →
  unquote_body g (body IsPrint f s ++ 34 :: rest) = Some (s, rest).
Proof.
  revert s g. induction f as [|f IH]; intros s g Hb Hf Hg.
  - destruct s; [|simpl in Hf; lia]. destruct g; [lia|]. done.
  - destruct s as [|c s]; [destruct g; [lia|done]|]. destruct g as [|g]; [lia|]. cbn [body].
    destruct (quote1 IsPrint (c :: s)) as [o n] eqn:Hq. apply Forall_cons in Hb as Hb'. destruct Hb' as [Hc _].
    rewrite <- app_assoc. destruct (unquote_quote1 c s o n (body IsPrint f (drop n (c :: s)) ++ 34 :: rest) Hc Hq) as (Hu & Hn & x & t & Ho & Hx).
    rewrite Ho in *. cbn [app unquote_body] in *. rewrite (proj2 (Z.eqb_neq x 34)), Hu by done. cbn [mbind option_bind].
    rewrite IH; [cbn [mbind option_bind]; by rewrite take_drop|by apply Forall_drop|rewrite length_drop; simpl in *; lia|rewrite length_drop; simpl in *; lia].
Qed.

Lemma quote_inj a b r r' : Forall is_byte a → Forall is_byte b → Quote IsPrint a ++ r = Quote IsPrint b ++ r' → a = b ∧ r = r'.
Proof.
  intros Ha Hb H. unfold Quote in H. rewrite <- !app_assoc in H. injection H as H. simpl in H.
  set (g := S (length a + length b)).
  pose proof (unquote_body_ok (length a) a r g Ha ltac:(lia) ltac:(lia)) as H1.
  pose proof (unquote_body_ok (length b) b r' g Hb ltac:(lia) ltac:(lia)) as H2. rewrite H in H1. rewrite H2 in H1. by injection H1.
Qed.

Lemma quote_list_inj l k : Forall (Forall is_byte) l → Forall (Forall is_byte) k → quote_list IsPrint l = quote_list IsPrint k → l = k.
Proof.
  intros Hl Hk H. injection H as H. revert k Hk H. induction Hl as [|a l Ha Hl IH]; intros k Hk H.
  - destruct Hk as [|b k Hb Hk]; [done|]. exfalso. by destruct k.
  - destruct Hk as [|b k Hb Hk]; [exfalso; by destruct l|].
    destruct l as [|a' l], k as [|b' k]; cbn [map join] in H.
    + apply quote_inj in H as [-> _]; done.
    + rewrite <- app_assoc in H. apply quote_inj in H as [_ H]; [|done|done]. simpl in H. discriminate H.
    + rewrite <- app_assoc in H. apply quote_inj in H as [_ H]; [|done|done]. simpl in H. discriminate H.
    + rewrite <- !app_assoc in H. apply quote_inj in H as [-> H]; [|done|done]. injection H as H. f_equal. by apply IH.
Qed.

End Printed.

(** ** Instances *)

Module Instance.

Definition wasmPageSize : Z := 65536.
Definition defaultMaxMemoryBytes : Z := Z.shiftl 256 20.
Definition defaultNativeStackQuota : Z := Z.shiftl 4 20.

(** The ceiling of the linear memory for Options.MaxMemory. *)
Definition maxMemBytes (maxMemory : Z) : Z :=
  let maxMem := if maxMemory =? 0 then defaultMaxMemoryBytes else maxMemory in u64 maxMem / wasmPageSize * wasmPageSize.

(** The guest's exports: what Module.invoke answers to a method's id and a
    request. *)
Definition exports : Type := Z → bytes → result bytes bytes.

Definition jsNew (g : exports) : parsed (result err reply) := Bridge.call g 0 (midNew 0 defaultNativeStackQuota).

(** u32 and prepareInterrupter: the three addresses. *)
Definition u32_of (g : exports) (h : Z) (m : method) : parsed (result err Z) :=
  parsed_bind (Bridge.call g h m) (λ r, Got match r with Ok (RNum n) => Ok n | Ok _ => Ok 0 | Err e => Err e end).

Record interrupter := MkInterrupter { flagAddr : Z; bitsAddr : Z; bitsValue : Z }.

Definition prepareInterrupter (g : exports) (h : Z) : parsed (result err interrupter) :=
  parsed_bind (u32_of g h midInterruptAddr) (λ r, match r with Err e => Got (Err e) | Ok a =>
  parsed_bind (u32_of g h midInterruptBitsAddr) (λ r, match r with Err e => Got (Err e) | Ok b =>
  parsed_bind (u32_of g h midInterruptBitsVal) (λ r, match r with Err e => Got (Err e) | Ok v =>
  Got (Ok (MkInterrupter a b v)) end) end) end).

(** How starting an interpreter to snapshot it goes: a panic, which is
    recovered, the code _initialize returns, or the started guest. *)
Inductive start := Panicked | InitReturned (rc : Z) | Started (g : exports).

(** The runtime handle of the snapshot, when there is one. *)
Definition start_handle (st : start) : option Z :=
  match st with
  | Panicked => None
  | InitReturned _ => None
  | Started g =>
      match jsNew g with
      | Got (Ok (RHandle h)) => if h =? 0 then None else Some h
      | _ => None
      end
  end.

(** The snapshot of an environment: [baked] is the one its guest read at startup.
    [imaged]: base.NewSharedSnapshot made an image of the started module;
    [disabled]: the variable GO_SPIDERMONKEY_NO_SHARED_IMAGE is set. *)
Record snapshot := MkSnapshot { baked : list bytes; handle : option Z }.

Definition buildSnapshot (disabled : bool) (environ : list bytes) (st : start) (imaged : bool) : snapshot :=
  if disabled then MkSnapshot environ None
  else match start_handle st with
       | Some h => MkSnapshot environ (if imaged then Some h else None)
       | None => MkSnapshot environ None
       end.

(** An interpreter: its runtime, the mapping that is its memory unless it is an
    allocation of Go's, and its environment, the one asked for and the one the
    guest sees. *)
Record js := MkJS {
  h : Z; mmapped : option nat; intr : interrupter; guest : exports; asked : list bytes; sees : list bytes; ceiling : Z
}.

(** The process: [mapped] are the mappings the kernel has given, [unmapped] those
    given back, [leaked] those of a New that a panic ended; [builds] the
    environments of the snapshots built. *)
Record world := MkWorld {
  snapshots : gmap bytes snapshot;
  instances : list js;
  mapped : list nat;
  unmapped : list nat;
  leaked : list nat;
  builds : list (list bytes)
}.

Definition initial : world := MkWorld ∅ [] [] [] [] [].

Definition map_ (m : nat) (w : world) : world :=
  MkWorld (snapshots w) (instances w) (mapped w ++ [m]) (unmapped w) (leaked w) (builds w).
Definition unmap (m : option nat) (w : world) : world :=
  MkWorld (snapshots w) (instances w) (mapped w) (unmapped w ++ option_list m) (leaked w) (builds w).
Definition lose (m : option nat) (w : world) : world :=
  MkWorld (snapshots w) (instances w) (mapped w) (unmapped w) (leaked w ++ option_list m) (builds w).
Definition with_instances (l : list js) (w : world) : world :=
  MkWorld (snapshots w) l (mapped w) (unmapped w) (leaked w) (builds w).

Inductive outcome := New_ (j : js) | Failed | PanicsOut.

Section New.
Context (IsPrint : Z → bool) (disabled : bool).

Definition snapshotKey (environ : list bytes) : bytes := lit "env=" ++ Quote.quote_list IsPrint environ.

Definition sharedSnapshot (environ : list bytes) (st : start) (imaged : bool) (w : world) : snapshot * world :=
  match snapshots w !! snapshotKey environ with
  | Some s => (s, w)
  | None =>
      let s := buildSnapshot disabled environ st imaged in
      (s, MkWorld (<[snapshotKey environ := s]> (snapshots w)) (instances w) (mapped w) (unmapped w) (leaked w) (builds w ++ [environ]))
  end.

(** finishJS *)
Definition finishJS (j : js) (w : world) : outcome * world :=
  match prepareInterrupter (guest j) (h j) with
  | Got (Ok ip) => let j' := MkJS (h j) (mmapped j) ip (guest j) (asked j) (sees j) (ceiling j) in (New_ j', with_instances (instances w ++ [j']) w)
  | Got (Err _) => (Failed, unmap (mmapped j) w)
  | _ => (PanicsOut, lose (mmapped j) w)
  end.

(** What the machine answers a New: starting an interpreter to snapshot it, its
    image, the two mappings, whether initInstance succeeds, and the guest. *)
Record answers := MkAnswers {
  a_start : start; a_imaged : bool; a_snap : option nat; a_image : option nat; a_init : bool; a_guest : exports
}.

Definition no_interrupter : interrupter := MkInterrupter 0 0 0.

Definition New (environ : list bytes) (maxMemory : Z) (a : answers) (w0 : world) : outcome * world :=
  let '(snap, w) := sharedSnapshot environ (a_start a) (a_imaged a) w0 in
  let top := maxMemBytes maxMemory in
  match handle snap, a_snap a with
  | Some h, Some m => finishJS (MkJS h (Some m) no_interrupter (a_guest a) environ (baked snap) top) (map_ m w)
  | _, _ =>
      let mem := a_image a in
      let w := match mem with Some m => map_ m w | None => w end in
      if a_init a then
        match jsNew (a_guest a) with
        | Got (Ok (RHandle h)) =>
            if h =? 0 then (Failed, unmap mem w)
            else finishJS (MkJS h mem no_interrupter (a_guest a) environ environ top) w
        | Got (Ok _) | Got (Err _) => (Failed, unmap mem w)
        | _ => (PanicsOut, lose mem w)
        end
      else (Failed, unmap mem w)
  end.

(** JS.Close of instance [i]; the call of js_close may trap or panic, and a panic
    leaves the memory mapped. *)
Definition Close (i : nat) (w : world) : option world :=
  j ← instances w !! i;
  match invokeMethod (guest j) (mid midClose) (request (h j) midClose) with
  | Got _ =>
      Some (unmap (mmapped j)
        (with_instances (<[i := MkJS (h j) None (intr j) (guest j) (asked j) (sees j) (ceiling j)]> (instances w)) w))
  | _ => Some w
  end.

Inductive op := OpNew (environ : list bytes) (maxMemory : Z) (a : answers) | OpClose (i : nat).

(** Environment strings are bytes, the kernel gives no mapping twice, and a start
    that never ends, in which [New] would wait for ever, is no step. *)
Definition possible (o : op) (w : world) : bool :=
  match o with
  | OpNew environ _ a =>
      match a_start a with Started g => match jsNew g with Spins => false | _ => true end | _ => true end &&
      forallb (forallb (λ c, (0 <=? c) && (c <? 256))) environ &&
      match a_snap a with Some m => bool_decide (m ∉ mapped w) | None => true end &&
      match a_image a with Some m => bool_decide (m ∉ mapped w) | None => true end
  | OpClose _ => true
  end.

Definition step (o : op) (w : world) : option world :=
  if possible o w then
    match o with
    | OpNew environ maxMemory a => Some (New environ maxMemory a w).2
    | OpClose i => Close i w
    end
  else None.

Inductive reachable : world → Prop :=
| reachable_new : reachable initial
| reachable_step o w w' : reachable w → step o w = Some w' → reachable w'.

Fixpoint steps (os : list op) (w : world) : option world :=
  match os with [] => Some w | o :: os' => w' ← step o w; steps os' w' end.

End New.
End Instance.

Import Instance.

Definition held (w : world) : list nat := flat_map (λ j, option_list (mmapped j)) (instances w).

Section Instances.
Context (IsPrint : Z → bool) (disabled : bool).

Definition good_snapshot (w : world) (k : bytes) (s : snapshot) : Prop :=
  k = snapshotKey IsPrint (baked s) ∧ Forall (Forall is_byte) (baked s) ∧ handle s ≠ Some 0 ∧ baked s ∈ builds w.

Definition good_instance (j : js) : Prop := sees j = asked j ∧ h j ≠ 0 ∧ (wasmPageSize | ceiling j).

(** [extra]: mappings that a New under way holds. *)
Record engine_inv (extra : list nat) (w : world) : Prop := {
  en_owned : mapped w ≡ₚ extra ++ held w ++ unmapped w ++ leaked w;
  en_once : NoDup (mapped w);
  en_instances : Forall good_instance (instances w);
  en_snapshots k s : snapshots w !! k = Some s → good_snapshot w k s;
  en_builds : NoDup (builds w) ∧ ∀ e, e ∈ builds w → is_Some (snapshots w !! snapshotKey IsPrint e)
}.

Lemma key_inj a b : Forall (Forall is_byte) a → Forall (Forall is_byte) b → snapshotKey IsPrint a = snapshotKey IsPrint b → a = b.
Proof. intros Ha Hb H. apply app_inv_head in H. by eapply quote_list_inj. Qed.

Lemma start_handle_nonzero st : start_handle st ≠ Some 0.
Proof.
  destruct st as [| |g]; try done. simpl. destruct (jsNew g) as [[[]|]| |]; try done. case_match eqn:Hz; [done|].
  apply Z.eqb_neq in Hz. congruence.
Qed.

Lemma shared_snapshot_inv environ st imaged w s w' : Forall (Forall is_byte) environ → engine_inv [] w →
  sharedSnapshot IsPrint disabled environ st imaged w = (s, w') →
  engine_inv [] w' ∧ baked s = environ ∧ handle s ≠ Some 0 ∧ mapped w' = mapped w.
Proof.
  intros He [Ho Hn Hi Hs [Hb1 Hb2]] Hsh. unfold sharedSnapshot in Hsh. destruct (snapshots w !! _) as [s0|] eqn:Hk.
  - injection Hsh as <- <-. destruct (Hs _ _ Hk) as (Hkey & Hby & Hh & _). split_and!; [by split| |done|done]. symmetry. by eapply key_inj.
  - injection Hsh as <- <-.
    assert (Hbk : baked (buildSnapshot disabled environ st imaged) = environ ∧ handle (buildSnapshot disabled environ st imaged) ≠ Some 0).
    { unfold buildSnapshot. pose proof (start_handle_nonzero st). by destruct disabled, (start_handle st), imaged. }
    destruct Hbk as [Hbk Hh]. split_and!; [|done|done|done]. split; simpl; try done.
    + intros k s. rewrite lookup_insert_Some. unfold good_snapshot. simpl. intros [[<- <-]|[Hne Hks]].
      * rewrite Hbk. split_and!; try done. set_solver.
      * destruct (Hs k s Hks) as (? & ? & ? & ?). split_and!; try done. set_solver.
    + split.
      * apply NoDup_app. split_and!; [done| |apply NoDup_singleton]. intros e Hin ->%list_elem_of_singleton.
        destruct (Hb2 _ Hin) as [s Hs']. congruence.
      * intros e [Hin| ->%list_elem_of_singleton]%elem_of_app; [|by rewrite lookup_insert_eq].
        destruct (Hb2 _ Hin) as [s Hs']. rewrite lookup_insert_ne; [done|]. congruence.
Qed.

Lemma map_inv m w : engine_inv [] w → m ∉ mapped w → engine_inv [m] (map_ m w).
Proof.
  intros [Ho Hn Hi Hs Hb] Hm. split; try done; simpl.
  - rewrite Ho. unfold held. simpl. solve_Permutation.
  - apply NoDup_app. split_and!; [done| |apply NoDup_singleton]. by intros x Hx ->%list_elem_of_singleton.
Qed.

Lemma unmap_inv m w : engine_inv (option_list m) w → engine_inv [] (unmap m w).
Proof. intros [Ho Hn Hi Hs Hb]. split; try done; simpl. rewrite Ho. unfold held. simpl. solve_Permutation. Qed.

Lemma lose_inv m w : engine_inv (option_list m) w → engine_inv [] (lose m w).
Proof. intros [Ho Hn Hi Hs Hb]. split; try done; simpl. rewrite Ho. unfold held. simpl. solve_Permutation. Qed.

Lemma engine_finish_inv j w : engine_inv (option_list (mmapped j)) w → good_instance j → engine_inv [] (finishJS j w).2.
Proof.
  intros Hi Hj. unfold finishJS. destruct (prepareInterrupter (guest j) (h j)) as [[ip|e]| |]; cbn [snd];
    [|by apply unmap_inv|by apply lose_inv|by apply lose_inv].
  destruct Hi as [Ho Hn Hins Hs Hb]. split; try done; simpl.
  - rewrite Ho. unfold held. simpl. rewrite flat_map_app. simpl. rewrite app_nil_r. solve_Permutation.
  - apply Forall_app. split; [done|]. by apply Forall_singleton.
Qed.

Lemma new_inv environ n a w : possible (OpNew environ n a) w = true → engine_inv [] w → engine_inv [] (New IsPrint disabled environ n a w).2.
Proof.
  intros Hp Hi. unfold possible in Hp. rewrite !andb_true_iff in Hp. destruct Hp as [[[_ Hb] Hsnap] Himg].
  assert (He : Forall (Forall is_byte) environ).
  { rewrite forallb_forall in Hb. apply Forall_forall. intros e Hin%list_elem_of_In%Hb. rewrite forallb_forall in Hin.
    apply Forall_forall. intros c Hc%list_elem_of_In%Hin. apply andb_true_iff in Hc as [?%Z.leb_le ?%Z.ltb_lt]. by split. }
  unfold New. destruct (sharedSnapshot _ _ _ _ _ w) as [s w1] eqn:Hs. apply shared_snapshot_inv in Hs as (Hi1 & Hbk & Hh & Hm); [|done|done].
  assert (Hslow : engine_inv [] (let mem := a_image a in
      let w := match mem with Some m => map_ m w1 | None => w1 end in
      if a_init a then
        match jsNew (a_guest a) with
        | Got (Ok (RHandle h)) =>
            if h =? 0 then (Failed, unmap mem w)
            else finishJS (MkJS h mem no_interrupter (a_guest a) environ environ (maxMemBytes n)) w
        | Got (Ok _) | Got (Err _) => (Failed, unmap mem w)
        | _ => (PanicsOut, lose mem w)
        end
      else (Failed, unmap mem w)).2).
  { assert (Hw : engine_inv (option_list (a_image a)) match a_image a with Some m => map_ m w1 | None => w1 end).
    { destruct (a_image a) as [m|]; [|done]. apply map_inv; [done|]. rewrite Hm. by apply bool_decide_eq_true in Himg. }
    cbv zeta. destruct (a_init a); [|by apply unmap_inv]. destruct (jsNew (a_guest a)) as [[r|e]| |];
      [|by apply unmap_inv|by apply lose_inv|by apply lose_inv]. destruct r as [s0|h0|b|b|k|]; try by apply unmap_inv.
    destruct (Z.eqb_spec h0 0); [by apply unmap_inv|]. apply engine_finish_inv; [done|]. split_and!; [done|done|]. apply Z.divide_factor_r. }
  destruct (handle s) as [h0|] eqn:Hh0; [|exact Hslow]. destruct (a_snap a) as [m|]; [|exact Hslow].
  apply engine_finish_inv; [apply map_inv; [done|]; rewrite Hm; by apply bool_decide_eq_true in Hsnap|].
  split_and!; simpl; [done|congruence|apply Z.divide_factor_r].
Qed.

Lemma close_instance_inv i w w' : Close i w = Some w' → engine_inv [] w → engine_inv [] w'.
Proof.
  unfold Close. intros Hs Hi. destruct (instances w !! i) as [j|] eqn:Hj; [|done]. simpl in Hs.
  destruct (invokeMethod _ _ _); [|by injection Hs as <-|by injection Hs as <-]. injection Hs as <-. apply unmap_inv.
  destruct Hi as [Ho Hn Hins Hsn Hb]. split; try done; simpl.
  - rewrite Ho. unfold held. simpl. rewrite <- (take_drop_middle (instances w) i j Hj) at 1.
    rewrite insert_take_drop by by eapply lookup_lt_Some. rewrite !flat_map_app. simpl. solve_Permutation.
  - apply Forall_insert; [done|]. rewrite Forall_lookup in Hins. destruct (Hins i j Hj) as (? & ? & ?). by split_and!.
Qed.

Lemma engine_reach_inv w : reachable IsPrint disabled w → engine_inv [] w.
Proof.
  induction 1 as [|o w w' _ IH Hs].
  { split; [done|apply NoDup_nil_2|by apply Forall_nil|intros k s; simpl; by rewrite lookup_empty|].
    split; [apply NoDup_nil_2|by intros e ?%not_elem_of_nil]. }
  unfold step in Hs. destruct (possible o w) eqn:Hp; [|done]. destruct o as [environ n a|i].
  - injection Hs as <-. by apply new_inv.
  - by eapply close_instance_inv.
Qed.

(** C35: Interpreters share nothing they should not, and give their memory back.
    Whatever New and Close have been called, with whatever answers of the machine:
    every mapping the kernel gave belongs to one open interpreter or was unmapped
    once, unless a panic out of New lost it; each interpreter's guest sees just
    the environment it was made with, although started guests are shared, and has
    a runtime; its memory ends at a page; and no environment is started twice to
    be shared. *)
Theorem instances_isolated (w : world) (Hr : reachable IsPrint disabled w) :
  NoDup (mapped w) ∧ mapped w ≡ₚ held w ++ unmapped w ++ leaked w ∧
  Forall (λ j, sees j = asked j ∧ h j ≠ 0 ∧ (wasmPageSize | ceiling j)) (instances w) ∧
  NoDup (builds w) ∧ ∀ k s, snapshots w !! k = Some s → k = snapshotKey IsPrint (baked s).
Proof.
  apply engine_reach_inv in Hr as [Ho Hn Hi Hs [Hb _]]. split_and!; try done. intros k s Hk. by apply Hs in Hk as [? _].
Qed.

End Instances.

(** ** Calls under a context *)

Module Calls.

(** What run returned: the raw result and the text of an error. *)
Definition out : Type := bytes * option bytes.

(** The goroutine that runs the bridge call: it waits for the instance's lock,
    runs, is in a host function the guest called, for whose length the lock is
    released (JS.UnlockForHostCallback), has put its result into the channel,
    which was taken. *)
Inductive runner := Waiting | Running | InHost | Sent (o : out) | Taken (o : out).

(** withContext: in the select, behind the interrupt and waiting for the
    channel, returned. *)
Inductive caller := Selecting | Interrupting | Returned (o : out).

(** A call, and whether its context is done. *)
Record call := MkCall { ctx_done : bool; runs : runner; waits : caller }.

Section Engine.
(** The interpreter between two loop heads: where a call begins, interrupter.fire,
    and what the engine does at a loop head, whether the script is stopped.
    [interrupted] is the envelope of a stopped one and [ctx_err] the context's
    error. *)
Context {S : Type} (begin_ fire : S → S) (poll : S → bool * S) (interrupted ctx_err : bytes).

(** The calls of withContext on one interpreter, those made from within a host
    function among them; [lock]: the call that holds the instance's lock; [fired]:
    the calls that have interrupted, in order. A bridge call made without a
    context is one whose context is never done. *)
Record world := MkWorld { calls : list call; lock : option nat; engine : S; fired : list nat }.

Definition set (i : nat) (c : call) (w : world) : world := MkWorld (<[i := c]> (calls w)) (lock w) (engine w) (fired w).

(** A host function is called, and has returned. *)
Definition UnlockForHostCallback (i : nat) (c : call) (w : world) : option world :=
  match runs c with
  | Running => Some (MkWorld (<[i := MkCall (ctx_done c) InHost (waits c)]> (calls w)) None (engine w) (fired w))
  | _ => None
  end.

Definition relock (i : nat) (c : call) (w : world) : option world :=
  match runs c, lock w with
  | InHost, None => Some (MkWorld (<[i := MkCall (ctx_done c) Running (waits c)]> (calls w)) (Some i) (engine w) (fired w))
  | _, _ => None
  end.

Inductive label :=
| Enter            (** withContext is called *)
| Done (i : nat)   (** the context is cancelled or times out *)
| Begin (i : nat)
| LoopHead (i : nat)
| Unlock (i : nat)   (** the guest calls a host function *)
| Relock (i : nat)   (** which has returned *)
| Ends (i : nat) (o : out)
| Receive (i : nat)   (** the select takes the channel *)
| Fire (i : nat)      (** the select takes ctx.Done *)
| Collect (i : nat).

Definition step (l : label) (w : world) : option world :=
  match l with
  | Enter => Some (MkWorld (calls w ++ [MkCall false Waiting Selecting]) (lock w) (engine w) (fired w))
  | Done i => c ← calls w !! i; Some (set i (MkCall true (runs c) (waits c)) w)
  | Begin i =>
      c ← calls w !! i;
      match runs c, lock w with
      | Waiting, None =>
          Some (MkWorld (<[i := MkCall (ctx_done c) Running (waits c)]> (calls w)) (Some i) (begin_ (engine w)) (fired w))
      | _, _ => None
      end
  | LoopHead i =>
      c ← calls w !! i;
      match runs c with
      | Running =>
          let '(stopped, s) := poll (engine w) in
          Some (if stopped
                then MkWorld (<[i := MkCall (ctx_done c) (Sent (interrupted, None)) (waits c)]> (calls w)) None s (fired w)
                else MkWorld (calls w) (lock w) s (fired w))
      | _ => None
      end
  | Unlock i => c ← calls w !! i; UnlockForHostCallback i c w
  | Relock i => c ← calls w !! i; relock i c w
  | Ends i o =>
      c ← calls w !! i;
      match runs c with
      | Running => Some (MkWorld (<[i := MkCall (ctx_done c) (Sent o) (waits c)]> (calls w)) None (engine w) (fired w))
      | _ => None
      end
  | Receive i =>
      c ← calls w !! i;
      match runs c, waits c with
      | Sent o, Selecting => Some (set i (MkCall (ctx_done c) (Taken o) (Returned o)) w)
      | _, _ => None
      end
  | Fire i =>
      c ← calls w !! i;
      match ctx_done c, waits c with
      | true, Selecting =>
          Some (MkWorld (<[i := MkCall true (runs c) Interrupting]> (calls w)) (lock w) (fire (engine w)) (fired w ++ [i]))
      | _, _ => None
      end
  | Collect i =>
      c ← calls w !! i;
      match runs c, waits c with
      | Sent o, Interrupting => Some (set i (MkCall (ctx_done c) (Taken o) (Returned (o.1, Some ctx_err))) w)
      | _, _ => None
      end
  end.

Fixpoint steps (ls : list label) (w : world) : option world :=
  match ls with [] => Some w | l :: ls' => w' ← step l w; steps ls' w' end.

Inductive reachable (s : S) : world → Prop :=
| reachable_new : reachable s (MkWorld [] None s [])
| reachable_step l w w' : reachable s w → step l w = Some w' → reachable s w'.

End Engine.
End Calls.

Import Calls.

Section Context_.
Context {S : Type} (begin_ fire : S → S) (poll : S → bool * S) (interrupted ctx_err : bytes).

Local Abbreviation world := (Calls.world (S:=S)).
Local Abbreviation step := (Calls.step begin_ fire poll interrupted ctx_err).
Local Abbreviation steps := (Calls.steps begin_ fire poll interrupted ctx_err).
Local Abbreviation reachable := (Calls.reachable begin_ fire poll interrupted ctx_err).

(** A call's two goroutines agree, and it has interrupted at most once, after
    its context was done. *)
Definition call_ok (l : option nat) (f : list nat) (i : nat) (c : call) : Prop :=
  (runs c = Running ↔ l = Some i) ∧
  match waits c with
  | Selecting => (i ∉ f) ∧ (∀ o, runs c ≠ Taken o)
  | Interrupting => i ∈ f ∧ ctx_done c = true ∧ (∀ o, runs c ≠ Taken o)
  | Returned o => (i ∉ f) ∧ runs c = Taken o ∨
      i ∈ f ∧ ctx_done c = true ∧ ∃ o', runs c = Taken o' ∧ o = (o'.1, Some ctx_err)
  end.

Record calls_inv (w : world) : Prop := {
  ca_calls i c : calls w !! i = Some c → call_ok (lock w) (fired w) i c;
  ca_lock i : lock w = Some i → is_Some (calls w !! i);
  ca_fired : NoDup (fired w);
  ca_bound i : i ∈ fired w → is_Some (calls w !! i)
}.

(** Changing a call and the lock. *)
Lemma set_call i c c' l s f w :
  calls_inv w → calls w !! i = Some c →
  (l = lock w ∨ (l = Some i ∧ lock w = None) ∨ (l = None ∧ lock w = Some i)) →
  (f = fired w ∨ (f = fired w ++ [i] ∧ i ∉ fired w)) → call_ok l f i c' →
  calls_inv (MkWorld (<[i := c']> (calls w)) l s f).
Proof.
  intros [Hc Hl Hn Hb] Hi Hlock Hf Hok. assert (Hlt : (i < length (calls w))%nat) by by eapply lookup_lt_Some.
  assert (Hmono : ∀ j, j ≠ i → (j ∈ f ↔ j ∈ fired w)) by (intros j Hj; destruct Hf as [->|[-> _]]; set_solver).
  split; simpl.
  - intros j cj Hj. destruct (decide (j = i)) as [->|Hne]; [rewrite list_lookup_insert_eq in Hj by done; by injection Hj as <-|].
    rewrite list_lookup_insert_ne in Hj by done. destruct (Hc j cj Hj) as [Hr Hw]. split.
    + rewrite Hr. destruct Hlock as [->|[[-> Hn']|[-> Hn']]]; [done| |]; rewrite Hn'; split; congruence.
    + destruct (waits cj); rewrite (Hmono j Hne); exact Hw.
  - intros j Hj. destruct (decide (j = i)) as [->|Hne]; [rewrite list_lookup_insert_eq by done; eauto|].
    rewrite list_lookup_insert_ne by done. apply Hl. destruct Hlock as [<-|[[-> _]|[-> _]]]; congruence.
  - destruct Hf as [->|[-> Hni]]; [done|]. apply NoDup_app. split_and!; [done| |apply NoDup_singleton]. by intros j Hj ->%list_elem_of_singleton.
  - intros j Hj. destruct (decide (j = i)) as [->|Hne]; [rewrite list_lookup_insert_eq by done; eauto|].
    rewrite list_lookup_insert_ne by done. apply Hb. by apply Hmono.
Qed.

Lemma calls_step_inv l w w' : step l w = Some w' → calls_inv w → calls_inv w'.
Proof.
  intros Hs Hi. destruct l as [|i|i|i|i|i|i o|i|i|i]; simpl in Hs;
    [|destruct (calls w !! i) as [c|] eqn:Hc; [simpl in Hs; pose proof (ca_calls w Hi i c Hc) as [Hr Hw]|done]..].
  - injection Hs as <-. destruct Hi as [Hc Hl Hn Hb]. split; simpl; [| |done|].
    + intros i c Hci. apply lookup_snoc_Some in Hci as [[_ Hci]|[-> <-]]; [by apply Hc|]. split; simpl.
      * split; [done|]. intros Hlk. apply Hl in Hlk as [c Hlk]. apply lookup_lt_Some in Hlk. lia.
      * split; [|done]. intros Hin. apply Hb in Hin as [c Hlk]. apply lookup_lt_Some in Hlk. lia.
    + intros i Hlk. apply Hl in Hlk as [c Hlk]. exists c. by apply lookup_app_l_Some.
    + intros i Hin. apply Hb in Hin as [c Hlk]. exists c. by apply lookup_app_l_Some.
  - injection Hs as <-. eapply (set_call i c); auto. split; [done|]. simpl. destruct (waits c) as [| |o]; [done|naive_solver|naive_solver].
  - destruct (runs c) eqn:Hrun; try done. destruct (lock w) eqn:Hlk; [done|]. injection Hs as <-.
    eapply (set_call i c); auto. split; [done|]. simpl. destruct (waits c); naive_solver.
  - destruct (runs c) eqn:Hrun; try done. destruct (poll (engine w)) as [stopped s]. injection Hs as <-.
    destruct stopped; [|by destruct Hi; split]. eapply (set_call i c); auto; [right; right; split; [done|by apply Hr]|].
    split; [split; done|]. simpl. destruct (waits c); naive_solver.
  - unfold UnlockForHostCallback in Hs. destruct (runs c) eqn:Hrun; try done. injection Hs as <-. eapply (set_call i c); auto; [right; right; split; [done|by apply Hr]|].
    split; [split; done|]. simpl. destruct (waits c); naive_solver.
  - unfold relock in Hs. destruct (runs c) eqn:Hrun; try done. destruct (lock w) eqn:Hlk; [done|]. injection Hs as <-.
    eapply (set_call i c); auto. split; [done|]. simpl. destruct (waits c); naive_solver.
  - destruct (runs c) eqn:Hrun; try done. injection Hs as <-. eapply (set_call i c); auto; [right; right; split; [done|by apply Hr]|].
    split; [split; done|]. simpl. destruct (waits c); naive_solver.
  - destruct (runs c) eqn:Hrun; try done. destruct (waits c) eqn:Hwait; try done. injection Hs as <-.
    eapply (set_call i c); auto. split; simpl; [split; [done|by intros ?%Hr]|]. left. by destruct Hw.
  - destruct (ctx_done c) eqn:Hd; [|done]. destruct (waits c) eqn:Hwait; try done. injection Hs as <-. destruct Hw as [Hni Hnt].
    eapply (set_call i c); auto. split; [done|]. simpl. split_and!; [set_solver|done|done].
  - destruct (runs c) eqn:Hrun; try done. destruct (waits c) eqn:Hwait; try done. injection Hs as <-. destruct Hw as (Hin & Hd & _).
    eapply (set_call i c); auto. split; simpl; [split; [done|by intros ?%Hr]|]. right. eauto.
Qed.

(** C36: withContext never leaves a call running behind it. In every interleaving of
    calls on one interpreter, with any behaviour of the engine and of the host
    functions the guest calls, which make calls of their own while the lock is
    released: when a call of withContext has returned, its bridge call has ended,
    and what it returned is that call's result, or that result's text with the
    context's error after its context was done and the interrupt was tripped
    once; of the calls begun and not ended, one at most runs in the engine, which
    is the one that holds the lock, and the others are in host functions; and an
    interrupt tripped while the call runs in the engine ends it at the next loop
    head of an engine that heeds it, after which withContext can return. *)
Theorem with_context_waits (s : S) (w : world) (i : nat) (c : call) (Hr : reachable s w) (Hi : calls w !! i = Some c) :
  (∀ o, waits c = Returned o → ∃ o', runs c = Taken o' ∧
     (o = o' ∧ (i ∉ fired w) ∨ o = (o'.1, Some ctx_err) ∧ ctx_done c = true ∧ i ∈ fired w)) ∧
  NoDup (fired w) ∧ (runs c = Running ↔ lock w = Some i) ∧
  ((∀ s, (poll (fire s)).1 = true) → runs c = Running → ctx_done c = true → waits c = Selecting →
     ∃ w', steps [Fire i; LoopHead i; Collect i] w = Some w' ∧
       calls w' !! i = Some (MkCall true (Taken (interrupted, None)) (Returned (interrupted, Some ctx_err)))).
Proof.
  assert (Hw : calls_inv w).
  { clear Hi. induction Hr as [|l w w' _ IH Hs]; [|by eapply calls_step_inv]. split; simpl; try done; [apply NoDup_nil_2|].
    by intros j ?%not_elem_of_nil. }
  pose proof (ca_calls w Hw i c Hi) as [Hrun Hwait]. split_and!.
  - intros o Ho. rewrite Ho in Hwait. destruct Hwait as [[Hn Ht]|(Hin & Hd & o' & Ht & ->)]; eauto 10.
  - apply Hw.
  - exact Hrun.
  - intros Hheed Hc Hd Hs. assert (Hlt : (i < length (calls w))%nat) by by eapply lookup_lt_Some.
    cbn [Calls.steps Calls.step]. rewrite Hi. cbn [mbind option_bind]. rewrite Hd, Hs. cbn [mbind option_bind calls].
    rewrite list_lookup_insert_eq by done. cbn [mbind option_bind runs]. rewrite Hc. cbn [engine]. specialize (Hheed (engine w)).
    destruct (poll (fire (engine w))) as [st s']. simpl in Hheed. subst st. cbn [mbind option_bind calls].
    rewrite list_lookup_insert_eq by by rewrite length_insert. cbn [mbind option_bind runs waits ctx_done]. eexists. split; [done|].
    cbn [set calls]. rewrite list_lookup_insert_eq by by rewrite !length_insert. done.
Qed.

Lemma calls_reachable s ls w w' : reachable s w → steps ls w = Some w' → reachable s w'.
Proof.
  revert w. induction ls as [|l ls IH]; intros w Hr Hs; simpl in Hs; [by injection Hs as <-|].
  destruct (step l w) as [w1|] eqn:H1; [|done]. apply (IH w1); [by eapply Calls.reachable_step|done].
Qed.

(** A host function of a call evaluates a script of its own and returns: the call
    within begins, ends and is answered while the outer one is out of the engine,
    which then goes on. *)
Lemma call_in_a_call (s : S) (r r' : out) : ∃ w,
  steps [Enter; Begin 0; Unlock 0; Enter; Begin 1; Ends 1 r; Receive 1; Relock 0; Ends 0 r'; Receive 0] (MkWorld [] None s []) = Some w ∧
  calls w = [MkCall false (Taken r') (Returned r'); MkCall false (Taken r) (Returned r)] ∧ lock w = None.
Proof. eexists. split_and!; reflexivity. Qed.

(** The lock does not make the calls nest: a call begun by another goroutine while
    the first is in a host function, and itself in one when the first comes back,
    is still on the engine's stack when the first runs on and ends. *)
Lemma calls_do_not_nest (s : S) (r : out) : ∃ w1 w2,
  steps [Enter; Begin 0; Unlock 0; Enter; Begin 1; Unlock 1; Relock 0] (MkWorld [] None s []) = Some w1 ∧
  runs <$> calls w1 = [Running; InHost] ∧
  steps [Ends 0 r; Relock 1] w1 = Some w2 ∧ runs <$> calls w2 = [Sent r; Running].
Proof. eexists _, _. split_and!; reflexivity. Qed.

(** *** What one flag cannot tell *)

(** The interrupt is the interpreter's and not the call's. No engine gets both of
    two schedules right: in the first a call's context is done before it begins,
    in the second the call before it was cancelled just as it ended; the engine
    is in the same state in both, and stops the script of both or of neither. *)
Lemma fire_between_calls (s : S) (r : out) : ∃ w1 w2,
  steps [Enter; Begin 0; Ends 0 r; Receive 0; Enter; Done 1; Fire 1; Begin 1] (MkWorld [] None (begin_ s) []) = Some w1 ∧
  steps [Enter; Begin 0; Ends 0 r; Done 0; Fire 0; Collect 0; Enter; Begin 1] (MkWorld [] None (begin_ s) []) = Some w2 ∧
  calls w1 !! 1%nat = Some (MkCall true Running Interrupting) ∧ calls w2 !! 1%nat = Some (MkCall false Running Selecting) ∧
  engine w1 = engine w2.
Proof. eexists _, _. split_and!; reflexivity. Qed.

(** The interrupt of a call that waits for the lock stops the call that runs,
    whose context is not done. *)
Lemma fire_hits_another (s : S) : (∀ s, (poll (fire s)).1 = true) → ∃ w,
  steps [Enter; Enter; Begin 0; Done 1; Fire 1; LoopHead 0; Receive 0] (MkWorld [] None s []) = Some w ∧
  calls w !! 0%nat = Some (MkCall false (Taken (interrupted, None)) (Returned (interrupted, None))).
Proof.
  intros Hh. simpl. specialize (Hh (begin_ s)). destruct (poll (fire (begin_ s))) as [st s'] eqn:Hp. simpl in Hh. subst st. eexists. split; reflexivity.
Qed.

End Context_.

(** ** The interrupt in memory *)

(** binary.LittleEndian.PutUint32 and Uint32 on mem[at:]; [None] is a panic. *)
Definition put32 (mem : bytes) (at_ v : Z) : option bytes :=
  if (0 <=? at_) && (at_ + 4 <=? zlen mem) then
    Some (take (Z.to_nat at_) mem ++ [v mod 256; v / 256 mod 256; v / 65536 mod 256; v / 16777216 mod 256] ++ drop (Z.to_nat at_ + 4) mem)
  else None.

Definition get32 (mem : bytes) (at_ : Z) : option Z :=
  if (0 <=? at_) && (at_ + 4 <=? zlen mem) then
    match drop (Z.to_nat at_) mem with
    | a :: b :: c :: d :: _ => Some (a + 256 * b + 65536 * c + 16777216 * d)
    | _ => None
    end
  else None.

(** interrupter.fire: the flag first, then the bit. *)
Definition fire (ip : interrupter) (mem : bytes) : option bytes :=
  mem1 ← put32 mem (flagAddr ip) 1;
  if bitsAddr ip =? 0 then Some mem1
  else bits ← get32 mem1 (bitsAddr ip); put32 mem1 (bitsAddr ip) (Z.lor bits (bitsValue ip)).

Lemma put32_get mem at_ v mem' : put32 mem at_ v = Some mem' → 0 <= v < 2 ^ 32 → get32 mem' at_ = Some v ∧ length mem' = length mem.
Proof.
  unfold put32, get32. intros Hp Hv. destruct (Z.leb_spec 0 at_), (Z.leb_spec (at_ + 4) (zlen mem)); try done. apply Some_inj in Hp as <-.
  unfold zlen in *. set (n := Z.to_nat at_).
  match goal with |- context [take n mem ++ ?x ++ _] => set (l := x) end.
  assert (Hl : length (take n mem ++ l ++ drop (n + 4) mem) = length mem).
  { rewrite !length_app, length_take, length_drop. subst l. simpl. lia. }
  rewrite Hl. destruct (Z.leb_spec (at_ + 4) (Z.of_nat (length mem))); [|lia]. split; [|done].
  rewrite drop_app_length' by (rewrite length_take; lia). subst l. cbn [app andb]. f_equal. div_lia.
Qed.

Lemma put32_other mem at_ v mem' a : put32 mem at_ v = Some mem' → at_ + 4 <= a ∨ a + 4 <= at_ → get32 mem' a = get32 mem a.
Proof.
  unfold put32. intros Hp Ha. destruct (Z.leb_spec 0 at_), (Z.leb_spec (at_ + 4) (zlen mem)); try done. apply Some_inj in Hp as <-.
  unfold zlen in *. set (n := Z.to_nat at_).
  match goal with |- context [take n mem ++ ?x ++ _] => set (l := x) end.
  assert (Hl : length (take n mem ++ l ++ drop (n + 4) mem) = length mem).
  { rewrite !length_app, length_take, length_drop. subst l. simpl. lia. }
  unfold get32, zlen. rewrite Hl. destruct (Z.leb_spec 0 a), (Z.leb_spec (a + 4) (Z.of_nat (length mem))); try done. cbn [andb].
  destruct Ha as [Ha|Ha].
  - rewrite app_assoc, drop_app_ge by (rewrite length_app, length_take; subst l; simpl; lia). rewrite drop_drop.
    f_equal. assert (n + 4 + (Z.to_nat a - length (take n mem ++ l)) = Z.to_nat a)%nat as -> by (rewrite length_app, length_take; subst l; simpl; lia).
    done.
  - assert (Hk : ∀ k, (k < n)%nat → (take n mem ++ l ++ drop (n + 4) mem) !! k = mem !! k).
    { intros k Hk. rewrite lookup_app_l by (rewrite length_take; lia). by apply lookup_take_lt. }
    assert (Hd : ∀ (m m' : bytes) (k : nat), (∀ j, (j < 4)%nat → m !! (k + j)%nat = m' !! (k + j)%nat) → (k + 4 <= length m)%nat →
      match drop k m with a :: b :: c :: d :: _ => Some (a + 256 * b + 65536 * c + 16777216 * d) | _ => None end =
      match drop k m' with a :: b :: c :: d :: _ => Some (a + 256 * b + 65536 * c + 16777216 * d) | _ => None end).
    { clear. intros m m' k Hj Hlen. assert (∀ j, (j < 4)%nat → drop k m !! j = drop k m' !! j) as H by (intros j Hj'; rewrite !lookup_drop; by apply Hj).
      assert (4 <= length (drop k m))%nat as Hl by (rewrite length_drop; lia).
      destruct (drop k m) as [|a [|b [|c [|d r]]]]; simpl in Hl; try lia.
      pose proof (H 0%nat ltac:(lia)) as H0. pose proof (H 1%nat ltac:(lia)) as H1. pose proof (H 2%nat ltac:(lia)) as H2. pose proof (H 3%nat ltac:(lia)) as H3.
      simpl in *. destruct (drop k m') as [|a' [|b' [|c' [|d' r']]]]; simplify_eq/=; done. }
    apply Hd; [|rewrite Hl; lia]. intros j Hj. apply Hk. lia.
Qed.

(** What a tripped interrupt leaves in memory: the flag is one, the bit is set
    with the others kept, and every word apart from the two is as it was. *)
Lemma fire_spec ip mem mem' : fire ip mem = Some mem' → 0 <= bitsValue ip < 2 ^ 32 → Forall is_byte mem →
  bitsAddr ip ≠ 0 → flagAddr ip + 4 <= bitsAddr ip ∨ bitsAddr ip + 4 <= flagAddr ip →
  get32 mem' (flagAddr ip) = Some 1 ∧
  (∃ bits, get32 mem (bitsAddr ip) = Some bits ∧ get32 mem' (bitsAddr ip) = Some (Z.lor bits (bitsValue ip))) ∧
  length mem' = length mem ∧
  (∀ a, a + 4 <= flagAddr ip ∨ flagAddr ip + 4 <= a → a + 4 <= bitsAddr ip ∨ bitsAddr ip + 4 <= a → get32 mem' a = get32 mem a).
Proof.
  unfold fire. intros Hf Hv Hb Hnz Hd. destruct (put32 mem (flagAddr ip) 1) as [m1|] eqn:H1; [|done]. cbn [mbind option_bind] in Hf.
  rewrite (proj2 (Z.eqb_neq _ _)) in Hf by done. destruct (get32 m1 (bitsAddr ip)) as [bits|] eqn:Hg; [|done]. cbn [mbind option_bind] in Hf.
  pose proof Hg as Hg0. rewrite (put32_other _ _ _ _ _ H1) in Hg0 by lia.
  assert (Hbits : 0 <= bits < 2 ^ 32).
  { unfold get32 in Hg0. destruct (_ && _); [|done]. assert (Forall is_byte (drop (Z.to_nat (bitsAddr ip)) mem)) as Hbd by by apply Forall_drop.
    destruct (drop _ mem) as [|a [|b [|c [|d r]]]]; try done. injection Hg0 as <-.
    apply Forall_cons in Hbd as [Ha Hbd]. apply Forall_cons in Hbd as [Hb' Hbd]. apply Forall_cons in Hbd as [Hc Hbd]. apply Forall_cons in Hbd as [Hd' _].
    unfold is_byte in *. lia. }
  assert (Hor : 0 <= Z.lor bits (bitsValue ip) < 2 ^ 32).
  { split; [apply Z.lor_nonneg; lia|]. destruct (decide (Z.lor bits (bitsValue ip) = 0)) as [->|]; [lia|]. apply Z.log2_lt_pow2; [|].
    - assert (0 <= Z.lor bits (bitsValue ip)) by (apply Z.lor_nonneg; lia). lia.
    - rewrite Z.log2_lor by lia. assert (∀ v, 0 <= v < 2 ^ 32 → Z.log2 v < 32) as Hlog.
      { intros v Hv'. destruct (decide (v = 0)) as [->|]; [done|]. apply Z.log2_lt_pow2; lia. }
      pose proof (Hlog _ Hbits). pose proof (Hlog _ Hv). lia. }
  destruct (put32_get _ _ _ _ H1 ltac:(lia)) as [Hf1 Hl1]. destruct (put32_get _ _ _ _ Hf Hor) as [Hf2 Hl2].
  split_and!; [by rewrite (put32_other _ _ _ _ _ Hf) by lia|by exists bits|lia|].
  intros a Ha1 Ha2. by rewrite (put32_other _ _ _ _ _ Hf), (put32_other _ _ _ _ _ H1) by lia.
Qed.

(** ** Concrete runs *)

(** A guest whose runtime is 7. *)
Definition demo_guest : exports := λ id _, Ok (message [FVarint 1 (if id =? 24 then 7 else 64)]).

Definition demo_answers (m i : option nat) (ok : bool) : answers := MkAnswers (Started demo_guest) true m i ok demo_guest.

(** Two interpreters of one environment share a start; one of another has its
    own; a start that fails gives its memory back; one is closed twice. *)
Definition demo_ops : list op :=
  [OpNew [lit "A=1"] 0 (demo_answers (Some 1%nat) None true); OpNew [lit "A=1"] 100000 (demo_answers (Some 2%nat) None true);
   OpNew [lit "A"; lit "1"] 0 (demo_answers (Some 3%nat) None true); OpNew [] 0 (demo_answers None (Some 4%nat) false); OpClose 0; OpClose 0].

Definition demo_engine : Instance.world := default initial (Instance.steps (λ _, true) false demo_ops initial).

Lemma instances_reachable p d os w w' : Instance.reachable p d w → Instance.steps p d os w = Some w' → Instance.reachable p d w'.
Proof.
  revert w. induction os as [|o os IH]; intros w Hr Hs; simpl in Hs; [by injection Hs as <-|].
  destruct (Instance.step p d o w) as [w1|] eqn:H1; [|done]. apply (IH w1); [by eapply Instance.reachable_step|done].
Qed.

Lemma demo_engine_reachable : Instance.reachable (λ _, true) false demo_engine.
Proof.
  apply (instances_reachable _ _ demo_ops initial); [apply Instance.reachable_new|].
  assert (is_Some (Instance.steps (λ _, true) false demo_ops initial)) as [w Hw] by (apply is_Some_alt; vm_compute; exact I).
  unfold demo_engine. by rewrite Hw.
Qed.

Lemma instances_isolated_witness : NoDup (mapped demo_engine) ∧ length (instances demo_engine) = 3%nat ∧
  held demo_engine = [2%nat; 3%nat] ∧ unmapped demo_engine = [4%nat; 1%nat] ∧ length (builds demo_engine) = 3%nat.
Proof.
  split; [exact (proj1 (instances_isolated (λ _, true) false demo_engine demo_engine_reachable))|]. by vm_compute.
Defined.

(** A script that never ends, stopped by its deadline. *)
Lemma with_context_waits_witness : ∃ w',
  Calls.steps (λ s, s) (λ _, true) (λ s, (s, false)) (lit "interrupted") (lit "context canceled") [Fire 0; LoopHead 0; Collect 0]
    (Calls.MkWorld [MkCall true Running Selecting] (Some 0%nat) false []) = Some w' ∧
  calls w' !! 0%nat = Some (MkCall true (Taken (lit "interrupted", None)) (Returned (lit "interrupted", Some (lit "context canceled")))).
Proof.
  refine (proj2 (proj2 (proj2 (with_context_waits (λ s, s) (λ _, true) (λ s, (s, false)) (lit "interrupted") (lit "context canceled")
    false (Calls.MkWorld [MkCall true Running Selecting] (Some 0%nat) false []) 0%nat (MkCall true Running Selecting) _ eq_refl))) _ eq_refl eq_refl eq_refl).
  - apply (calls_reachable _ _ _ _ _ _ [Enter; Begin 0; LoopHead 0; Done 0] (Calls.MkWorld [] None false [])); [apply Calls.reachable_new|reflexivity].
  - reflexivity.
Defined.

(** A panic of js_new's reply in New loses the mapping. *)
Example panic_loses_memory :
  leaked <$> Instance.steps (λ _, true) false
    [OpNew [] 0 (MkAnswers Panicked true None (Some 5%nat) true (λ _ _, Ok [122; 255; 255; 255; 255; 255; 255; 255; 255; 255; 1]))] initial = Some [5%nat].
Proof. by vm_compute. Qed.
