(* ===== verification/Objects.v ===== *)
(** What an embedder does with an interpreter (spidermonkey.go, object.go,
    function.go, bytes.go, result.go): running scripts and the job queue, and
    the operations on object handles, each with the handles it takes and gives
    back.

    A call of the engine bridge is answered by a parameter that may look at all
    calls before it and at the handles released; host functions that run during
    a call are those of HostCall.v and leave the store as it is here. *)

From S2P Require Import Prelude GoPath IoFS Json Encoding Bridge Agents HostCall.

(** ** The interpreter *)

Inductive gerr := EBridge (e : Bridge.err) | EDecode (e : derr) | ENotFunction (name : bytes) | EJS (message : bytes) | EEnvelope | EList.

(** [sent] are the bridge calls made, but for FreeObject, which the store
    records, and [received] the handles that the decoded replies carried, of
    objects and of symbols and bigints; neither is in the code. *)
Record vm := MkVM {
  store : heap;
  sent : list method;
  received : list Z;
  global : option nat;
  funcs : gmap bytes Func
}.

Definition with_store (H : heap) (w : vm) : vm := MkVM H (sent w) (received w) (global w) (funcs w).

Definition handle_of (w : vm) (r : nat) : Z := default 0 (handle <$> objects (store w) !! r).

(** *** value.go: primitive.String *)

Definition number_string (n : num) : bytes :=
  match n with NaN => lit "NaN" | Inf false => lit "+Inf" | Inf true => lit "-Inf" | Fin t => t end.

(** String of a value that is no object; composite data is printed by fmt, which
    is the parameter. *)
Definition value_string (Sprint : bytes → bytes) (v : value) : bytes :=
  match v with
  | VUndefined => lit "undefined"
  | VNull => lit "null"
  | VBool b => lit (if b then "true" else "false")
  | VNumber n => number_string n
  | VString s => s
  | VComposite d => Sprint d
  | VObject _ => []
  | VOpaque k _ => k
  end.

Section Guest.
(** The engine, and fmt.Sprint. *)
Context (engine : list method → list Z → method → result Bridge.err Bridge.reply) (Sprint : bytes → bytes).

(** A method of raw. *)
Definition raw (m : method) (w : vm) : result Bridge.err Bridge.reply * vm :=
  (engine (sent w) (released (store w)) m, MkVM (store w) (sent w ++ [m]) (received w) (global w) (funcs w)).

(** The methods that answer a text. *)
Definition raw_text (m : method) (w : vm) : result gerr bytes * vm :=
  let '(r, w1) := raw m w in (match r with Ok (RText s) => Ok s | Ok _ => Ok [] | Err e => Err (EBridge e) end, w1).

Definition raw_handle (m : method) (w : vm) : result gerr Z * vm :=
  let '(r, w1) := raw m w in (match r with Ok (RHandle h) => Ok h | Ok _ => Ok 0 | Err e => Err (EBridge e) end, w1).

(** The handles a value carries, but for the zero that stands for none. *)
Definition nonzero (hs : list Z) : list Z := List.filter (λ h, negb (h =? 0)) hs.

Definition minted (H : heap) (r : result gerr value) : list Z :=
  match r with
  | Ok (VObject k) => nonzero (option_list (handle <$> objects H !! k))
  | Ok (VOpaque _ h) => nonzero [h]
  | _ => []
  end.

Definition receives (hs : list Z) (w : vm) : vm := MkVM (store w) (sent w) (received w ++ hs) (global w) (funcs w).

Definition decode (encoded : bytes) (w : vm) : result gerr value * vm :=
  let '(r, H) := decodeValue (store w) encoded in
  let res := match r with Ok v => Ok v | Err e => Err (EDecode e) end in
  (res, receives (minted H res) (with_store H w)).

(** A call whose answer is a value. *)
Definition raw_value (m : method) (w : vm) : result gerr value * vm :=
  match raw_text m w with
  | (Err e, w1) => (Err e, w1)
  | (Ok s, w1) => decode s w1
  end.

Fixpoint encode_each (H : heap) (args : list value) : list bytes * heap :=
  match args with
  | [] => ([], H)
  | v :: vs => let '(b, H1) := encodeValue H v in let '(bs, H2) := encode_each H1 vs in (b :: bs, H2)
  end.

Definition encodeArgs (args : list value) (w : vm) : bytes * vm :=
  let '(bs, H) := encode_each (store w) args in (lit "[" ++ join 44 bs ++ lit "]", with_store H w).

(** *** object.go *)

Definition new_object (h : Z) (callable : bool) (w : vm) : nat * vm :=
  let '(r, H) := alloc (store w) (MkObject h callable false) in (r, with_store H w).

Definition Get (r : nat) (name : bytes) (w : vm) : result gerr value * vm := raw_value (midGet (handle_of w r) name) w.

(** The reply's value is dropped. *)
Definition Set_ (r : nat) (name : bytes) (v : value) (w : vm) : result gerr () * vm :=
  let '(encoded, H) := encodeValue (store w) v in
  let '(reply, w1) := raw_value (midSet (handle_of w r) name encoded) (with_store H w) in
  (match reply with Ok _ => Ok tt | Err e => Err e end, w1).

Definition call (r : nat) (self : option nat) (args : list value) (w : vm) : result gerr value * vm :=
  let '(encodedArgs, w1) := encodeArgs args w in
  let thisHandle := match self with Some s => handle_of w1 s | None => 0 end in
  raw_value (midCall (handle_of w1 r) thisHandle encodedArgs) w1.

Definition Call (r : nat) (args : list value) (w : vm) : result gerr value * vm := call r None args w.

Definition free (r : nat) (w : vm) : vm := with_store (HostCall.Free (store w) r) w.

Definition CallMethod (r : nat) (name : bytes) (args : list value) (w : vm) : result gerr value * vm :=
  match Get r name w with
  | (Err e, w1) => (Err e, w1)
  | (Ok (VObject f), w1) =>
      let '(res, w2) := call f (Some r) args (with_store (take_object (store w1) f) w1) in (res, free f w2)
  | (Ok _, w1) => (Err (ENotFunction name), w1)
  end.

Definition New (r : nat) (args : list value) (w : vm) : result gerr value * vm :=
  let '(encodedArgs, w1) := encodeArgs args w in raw_value (midConstruct (handle_of w1 r) encodedArgs) w1.

Definition object_object : bytes := lit "[object Object]".

Definition String_ (r : nat) (w : vm) : bytes * vm :=
  match Get r (lit "toString") w with
  | (Ok (VObject f), w1) =>
      let '(res, w2) := call f (Some r) [] (with_store (take_object (store w1) f) w1) in
      (match res with Ok (VObject _) | Err _ => object_object | Ok v => value_string Sprint v end, free f w2)
  | (_, w1) => (object_object, w1)
  end.

Definition NewObject (w : vm) : result gerr nat * vm :=
  match raw_handle midNewPlainObject w with
  | (Err e, w1) => (Err e, w1)
  | (Ok h, w1) => let '(r, w2) := new_object h false w1 in (Ok r, w2)
  end.

Definition Global (w : vm) : nat * vm :=
  match global w with
  | Some r => (r, w)
  | None =>
      match raw_handle midGlobal w with
      | (Err _, w1) => new_object 0 false w1
      | (Ok h, w1) => let '(r, w2) := new_object h false w1 in (r, MkVM (store w2) (sent w2) (received w2) (Some r) (funcs w2))
      end
  end.

(** *** function.go and bytes.go *)

(** funcKeyCounter counts in [n]. *)
Definition nextFnKey (n : Z) : bytes := 0 :: lit "fn:" ++ format_uint n.

Definition with_func (key : bytes) (fn : option Func) (w : vm) : vm :=
  MkVM (store w) (sent w) (received w) (global w) (match fn with Some f => <[key := f]> (funcs w) | None => delete key (funcs w) end).

Definition unit_of (r : result Bridge.err Bridge.reply) : result gerr () := match r with Ok _ => Ok () | Err e => Err (EBridge e) end.

Definition DefineFunc (n : Z) (r : nat) (name : bytes) (fn : Func) (w : vm) : result gerr () * vm :=
  let '(res, w1) := raw (midDefineFunction (handle_of w r) name (nextFnKey n) 0) (with_func (nextFnKey n) (Some fn) w) in (unit_of res, w1).

Definition DefineConstructor (r : nat) (name key : bytes) (fn : Func) (w : vm) : result gerr () * vm :=
  let '(res, w1) := raw (midDefineConstructor (handle_of w r) name key 0) (with_func key (Some fn) w) in (unit_of res, w1).

Definition NewFunction (n : Z) (name : bytes) (fn : Func) (w : vm) : result gerr nat * vm :=
  let key := nextFnKey n in
  match raw_handle (midNewFunction name key 0) (with_func key (Some fn) w) with
  | (Err e, w1) => (Err e, with_func key None w1)
  | (Ok h, w1) => let '(r, w2) := new_object h true w1 in (Ok r, w2)
  end.

Definition NewBytes (data : bytes) (w : vm) : result gerr nat * vm :=
  match raw_handle (midBytesNew data) w with
  | (Err e, w1) => (Err e, w1)
  | (Ok h, w1) => let '(r, w2) := new_object h false w1 in (Ok r, w2)
  end.

Definition Bytes (r : nat) (w : vm) : result gerr bytes * vm :=
  let '(res, w1) := raw (midBytesRead (handle_of w r)) w in
  (match res with Ok (RBytes b) => Ok b | Ok _ => Ok [] | Err e => Err (EBridge e) end, w1).

(** *** result.go *)

Definition jsErr (e : Bridge.envelope) : option bytes := if Bridge.Ok_ e then None else Some (Bridge.Error e).

(** A script's outcome: the completion value, when there is one, and the
    message of a failure. *)
Record Result_ := MkResult { value_ : option value; error_ : option bytes }.

(** The error comes with the result so far. *)
Definition parseResult (s : bytes) (w : vm) : (Result_ * option gerr) * vm :=
  match parseEnvelope s with
  | None => ((MkResult None None, Some EEnvelope), w)
  | Some e =>
      if Bridge.Ok_ e then
        match decode (Bridge.Result e) w with
        | (Ok v, w1) => ((MkResult (Some v) None, None), w1)
        | (Err g, w1) => ((MkResult None None, Some g), w1)
        end
      else ((MkResult None (jsErr e), None), w)
  end.

Definition parseModuleResult (s : bytes) : result gerr (option bytes) :=
  match parseEnvelope s with None => Err EEnvelope | Some e => Ok (jsErr e) end.

(** *** spidermonkey.go *)

(** What EvalContext gave: [ctx] is the context's error, when it was cancelled. *)
Definition Eval (src : bytes) (ctx : bool) (w : vm) : (Result_ * option (option gerr)) * vm :=
  let '(r, w1) := raw_text (midEval src) w in
  let s := match r with Ok s => s | Err _ => [] end in
  let fails := if ctx then Some None else match r with Ok _ => None | Err e => Some (Some e) end in
  match fails with
  | Some f =>
      if bool_decide (s = []) then ((MkResult None None, Some f), w1)
      else let '((res, _), w2) := parseResult s w1 in ((res, Some f), w2)
  | None => let '((res, g), w2) := parseResult s w1 in ((res, Some <$> g), w2)
  end.

Definition EvalModule (specifier src : bytes) (ctx : bool) (w : vm) : result (option gerr) (option bytes) * vm :=
  let '(r, w1) := raw_text (midEvalModule specifier src) w in
  (if ctx then Err None
   else match r with
        | Err e => Err (Some e)
        | Ok s => match parseModuleResult s with Ok x => Ok x | Err g => Err (Some g) end
        end, w1).

(** One round of RunJobs' loop: whether the context is done before it, what the
    pump answers, whether the context is done after an error, and while waiting,
    and whether the consumer wants more. *)
Record round := MkRound { done_before : bool; pump : result gerr bytes; done_after : bool; done_waiting : bool; more : bool }.

(** What is yielded, and whether the iteration ended within the rounds. *)
Fixpoint RunJobs (rs : list round) : list (result gerr (option bytes)) * bool :=
  match rs with
  | [] => ([], false)
  | r :: rs' =>
      if done_before r then ([], true)
      else match pump r with
           | Err e => (if done_after r then [] else [Err e], true)
           | Ok s =>
               match parseEnvelope s with
               | None => ([Err EEnvelope], true)
               | Some e =>
                   if bool_decide (Bridge.Result e = lit "0") then ([], true)
                   else if bool_decide (Bridge.Result e = lit "2") then
                     if done_waiting r then ([], true) else RunJobs rs'
                   else if more r then let '(ys, b) := RunJobs rs' in (Ok (jsErr e) :: ys, b)
                   else ([Ok (jsErr e)], true)
               end
           end
  end.

(** The members of an entry of the list of rejections, decoded in turn; [text]
    prints the error of a reason that has no decoding. *)
Fixpoint decode_rejections (text : gerr → bytes) (es : list (option json * option json)) (w : vm) : result gerr (list (value * value)) * vm :=
  match es with
  | [] => (Ok [], w)
  | (reason, promise) :: es' =>
      let tree j w := match j with
                      | Some j =>
                          let '(r, H) := decode_tree (store w) j in
                          let res := match r with Ok v => Ok v | Err e => Err (EDecode e) end in
                          (res, receives (minted H res) (with_store H w))
                      | None => (Err (EDecode DUndecodable), w)
                      end in
      let '(r1, w1) := tree reason w in
      let v1 := match r1 with Ok v => v | Err e => VString (text e) end in
      match tree promise w1 with
      | (Err e, w2) => (Err e, w2)
      | (Ok v2, w2) =>
          match decode_rejections text es' w2 with
          | (Err e, w3) => (Err e, w3)
          | (Ok l, w3) => (Ok ((v1, v2) :: l), w3)
          end
      end
  end.

(** json.Unmarshal into the list of entries. *)
Definition rejection_entries (s : bytes) : option (list (option json * option json)) :=
  items ← raw_items s;
  mapM (λ j, ms ← Json.struct_members j; Some (Json.field_any "reason" ms, Json.field_any "promise" ms)) items.

Definition TakeUnhandledRejections (text : gerr → bytes) (w : vm) : result gerr (list (value * value)) * vm :=
  match raw_text midTakeUnhandledRejections w with
  | (Err e, w1) => (Err e, w1)
  | (Ok s, w1) => match rejection_entries s with None => (Err EList, w1) | Some es => decode_rejections text es w1 end
  end.

Definition SourceIsModule (src : bytes) (w : vm) : result gerr bool * vm :=
  let '(r, w1) := raw (midSourceIsModule src) w in
  (match r with Ok (RBool b) => Ok b | Ok _ => Ok false | Err e => Err (EBridge e) end, w1).

(** Close, after the agents have been closed: the global's handle goes straight
    to the engine. *)
Definition Close (w : vm) : result gerr () * vm :=
  let w1 := match global w with
            | Some r => MkVM (MkHeap (objects (store w)) (released (store w) ++ [handle_of w r])) (sent w) (received w) None (funcs w)
            | None => w
            end in
  let '(r, w2) := raw midClose w1 in (unit_of r, w2).

End Guest.

(** ** Handles balance *)

(** From [H] to [H'] objects with these handles were made, and nothing was
    released or changed but who took what. *)
Definition grows (H H' : heap) (hs : list Z) : Prop :=
  map handle (objects H') = map handle (objects H) ++ hs ∧ released H' = released H.

Lemma grows_refl H : grows H H [].
Proof. split; [by rewrite app_nil_r|done]. Qed.

Lemma grows_trans H1 H2 H3 a b : grows H1 H2 a → grows H2 H3 b → grows H1 H3 (a ++ b).
Proof. intros [Ho1 Hr1] [Ho2 Hr2]. split; [by rewrite Ho2, Ho1, app_assoc|congruence]. Qed.

(** The handle of the object that a result is. *)
Definition brought (H : heap) (r : result gerr value) : list Z :=
  match r with Ok (VObject k) => option_list (handle <$> objects H !! k) | _ => [] end.

Lemma alloc_brings H h c : grows H (alloc H (MkObject h c false)).2 [h] ∧
  handle <$> objects (alloc H (MkObject h c false)).2 !! length (objects H) = Some h.
Proof.
  unfold grows. simpl. rewrite map_app. split; [done|]. by rewrite lookup_app_r, Nat.sub_diag by lia.
Qed.

Lemma number_no_object v k : decode_number v ≠ Ok (VObject k).
Proof. unfold decode_number. destruct v as [[| |t|s| |]|]; try done. by repeat case_bool_decide. Qed.

Definition lift (r : result derr value) : result gerr value := match r with Ok v => Ok v | Err e => Err (EDecode e) end.

Lemma decode_tree_grows H j : grows H (decode_tree H j).2 (brought (decode_tree H j).2 (lift (decode_tree H j).1)).
Proof.
  pose proof (grows_refl H) as H0. unfold decode_tree. destruct (ms ← _; _) as [e|]; [|done].
  repeat match goal with |- context [if ?b then _ else _] => destruct b; [try exact H0|] end; try exact H0.
  - cbn [fst snd]. destruct (decode_number (V e)) as [v|] eqn:Hv; [|exact H0]. destruct v; try exact H0. by apply number_no_object in Hv.
  - destruct (alloc_brings H (Hn e) (bool_decide (K e = lit "function"))) as [Hg Hl]. cbn [alloc fst snd lift brought] in *. by rewrite Hl.
Qed.

(** A reply that was decoded into [r]: its object is new and its handle is on
    record, and nothing else changed. *)
Definition gains (w w' : vm) (r : result gerr value) : Prop :=
  grows (store w) (store w') (brought (store w') r) ∧ received w' = received w ++ minted (store w') r ∧
  global w' = global w ∧ funcs w' = funcs w.

Lemma gains_nothing w r : brought (store w) r = [] → minted (store w) r = [] → gains w w r.
Proof. intros Hb Hm. unfold gains. rewrite Hb, Hm, app_nil_r. split; [apply grows_refl|done]. Qed.

Lemma decode_grows encoded w : let '(r, w') := decode encoded w in gains w w' r.
Proof.
  unfold decode, decodeValue. destruct (Json.parse encoded) as [j|]; [|split; [apply grows_refl|done]].
  pose proof (decode_tree_grows (store w) j) as Hg. by destruct (decode_tree (store w) j) as [[v|e] H].
Qed.

Lemma encode_grows H v : grows H (encodeValue H v).2 [].
Proof.
  destruct v as [| | |[| []|]| | | |]; try apply grows_refl. split; [|done]. cbn [encodeValue snd]. unfold take_object, update. simpl.
  by rewrite map_handle_alter, app_nil_r.
Qed.

Lemma encode_each_grows H vs : grows H (encode_each H vs).2 [].
Proof.
  revert H. induction vs as [|v vs IH]; intros H; [apply grows_refl|]. simpl. pose proof (encode_grows H v) as H1.
  destruct (encodeValue H v) as [b H1']. specialize (IH H1'). destruct (encode_each H1' vs) as [bs H2]. exact (grows_trans _ _ _ [] [] H1 IH).
Qed.

Lemma grows_handle H H' hs r : grows H H' hs → (r < length (objects H))%nat → handle <$> objects H' !! r = handle <$> objects H !! r.
Proof.
  intros [Ho _] Hr. rewrite <- !list_lookup_fmap. change (fmap handle (objects H')) with (map handle (objects H')). rewrite Ho.
  rewrite lookup_app_l; [done|]. by rewrite length_map.
Qed.

Section Balance.
Context (engine : list method → list Z → method → result Bridge.err Bridge.reply) (Sprint : bytes → bytes).

Lemma raw_value_grows m w : let '(r, w') := raw_value engine m w in gains w w' r.
Proof.
  unfold raw_value, raw_text, raw. destruct (engine _ _ m) as [[]|]; try (split; [apply grows_refl|simpl; by rewrite app_nil_r]).
  all: match goal with |- context [decode ?s ?w1] => pose proof (decode_grows s w1) as Hd; by destruct (decode s w1) end.
Qed.

(** Arguments are encoded before. *)
Lemma gains_after H w w' r : grows (store w) H [] → gains (with_store H w) w' r → gains w w' r.
Proof. intros He (Hg & Hrest). split; [exact (grows_trans _ _ _ [] _ He Hg)|done]. Qed.

Lemma call_grows r self args w : let '(res, w') := call engine r self args w in gains w w' res.
Proof.
  unfold call, encodeArgs. pose proof (encode_each_grows (store w) args) as He. destruct (encode_each (store w) args) as [bs H]. cbv zeta.
  match goal with |- context [raw_value engine ?m ?w1] => pose proof (raw_value_grows m w1) as Hd; destruct (raw_value engine m w1) as [res w'] end.
  by eapply gains_after.
Qed.

(** Freeing an object. *)
Lemma free_live f w h : objects (store w) !! f = Some h → handle h ≠ 0 →
  live (store w) ≡ₚ handle h :: live (store (free f w)) ∧ released (store (free f w)) = released (store w) ++ [handle h].
Proof.
  intros Hf Hh. unfold free, HostCall.Free. rewrite Hf, (proj2 (Z.eqb_neq _ _)) by done. split; [|done]. unfold live. simpl.
  destruct (alter_split (λ o, MkObject 0 (callable o) (taken o)) f (objects (store w)) h Hf) as (l1 & l2 & Hl & ->). rewrite Hl.
  rewrite !map_app, !List.filter_app. simpl. rewrite (proj2 (Z.eqb_neq _ _)) by done. simpl. solve_Permutation.
Qed.

Lemma nonzero_one h : nonzero [h] = if h =? 0 then [] else [h].
Proof. unfold nonzero. simpl. by destruct (h =? 0). Qed.

Lemma grows_live H H' hs : grows H H' hs → live H' = live H ++ nonzero hs.
Proof. intros [Ho _]. unfold live. by rewrite Ho, List.filter_app. Qed.

(** No handle in a result. *)
Definition nothing : result gerr value := Ok VUndefined.

(** What an operation does with the handles it receives from the engine: each is
    that of the result [kept], of a value [lost] that nobody has and nobody
    releases, or among those it released, [freed]; the objects that are pinned
    are those that were and the first two's. *)
Definition balanced (w : vm) (kept lost : result gerr value) (w' : vm) (freed : list Z) : Prop :=
  received w' ≡ₚ received w ++ freed ++ minted (store w') kept ++ minted (store w') lost ∧
  live (store w') ≡ₚ live (store w) ++ nonzero (brought (store w') kept) ++ nonzero (brought (store w') lost) ∧
  released (store w') = released (store w) ++ freed ∧ global w' = global w ∧ funcs w' = funcs w.

Lemma gains_kept w res w' : gains w w' res → balanced w res nothing w' [].
Proof.
  intros (Hg & Hm & Hgl & Hf). unfold balanced. rewrite Hm, (grows_live _ _ _ Hg). destruct Hg as [_ ->]. simpl. by rewrite !app_nil_r.
Qed.

Lemma balanced_lost w res w' freed : balanced w res nothing w' freed → balanced w nothing res w' freed.
Proof. intros (Hm & Hl & Hrest). unfold balanced in *. simpl in *. rewrite ?app_nil_r in *. done. Qed.

(** What a value carries does not depend on another object's release. *)
Lemma brought_free f w res : (match res with Ok (VObject k) => (k ≠ f) | _ => True end) →
  brought (store (free f w)) res = brought (store w) res ∧ minted (store (free f w)) res = minted (store w) res.
Proof.
  intros Hne. destruct res as [[| | | | | |k|]|]; try done. cbn [brought minted].
  assert (objects (store (free f w)) !! k = objects (store w) !! k) as ->; [|done].
  unfold free, HostCall.Free. simpl. destruct (objects (store w) !! f) as [o|]; [|done]. destruct (handle o =? 0); [done|].
  simpl. by rewrite list_lookup_alter_ne by congruence.
Qed.

(** The function a method call looks up is called and released, whatever the
    call gives. *)
Lemma method_balanced f self args w0 w :
  balanced w0 (Ok (VObject f)) nothing w [] → (f < length (objects (store w)))%nat →
  let '(res, w2) := call engine f self args (with_store (take_object (store w) f) w) in
  (match res with Ok (VObject k) => (k ≠ f) | _ => True end) →
  balanced w0 res nothing (free f w2) (minted (store w) (Ok (VObject f))).
Proof.
  intros (Hm & Hl & Hr & Hgl & Hfn) Hlt. set (w1 := with_store _ w).
  assert (Hg1 : grows (store w) (store w1) []).
  { split; [|done]. subst w1. unfold take_object, update. simpl. by rewrite map_handle_alter, app_nil_r. }
  pose proof (call_grows f self args w1) as Hc. destruct (call engine f self args w1) as [res w2]. destruct Hc as (Hg2 & Hm2 & Hgl2 & Hf2).
  intros Hne. destruct (brought_free f w2 res Hne) as [Hb Hmf].
  pose proof (grows_trans _ _ _ _ _ Hg1 Hg2) as Hg. simpl in Hg.
  pose proof (grows_handle _ _ _ f Hg Hlt) as Hhf. destruct (objects (store w) !! f) as [o|] eqn:Ho; [|apply lookup_ge_None in Ho; lia].
  destruct (objects (store w2) !! f) as [o2|] eqn:Ho2; [|done]. injection Hhf as Hhf. pose proof (grows_live _ _ _ Hg) as Hlive.
  change (received w1) with (received w) in Hm2. change (global w1) with (global w) in Hgl2. change (funcs w1) with (funcs w) in Hf2.
  assert (minted (store w) (Ok (VObject f)) = nonzero [handle o]) as Hmo by (simpl; by rewrite Ho).
  assert (nonzero (brought (store w) (Ok (VObject f))) = nonzero [handle o]) as Hbo by (simpl; by rewrite Ho).
  rewrite Hmo in Hm |- *. rewrite Hbo in Hl. rewrite nonzero_one in *.
  unfold balanced. rewrite Hb, Hmf. unfold nothing in *. cbn [minted brought] in *. change (nonzero []) with (@nil Z) in *. rewrite !app_nil_r in *.
  split_and!; [| | |simpl; congruence|simpl; congruence].
  - change (received (free f w2)) with (received w2). rewrite Hm2, Hm. by rewrite <- app_assoc.
  - destruct (Z.eqb_spec (handle o) 0) as [Hz|Hnz].
    + assert (store (free f w2) = store w2) as -> by (unfold free, HostCall.Free; simpl; by rewrite Ho2, Hhf, (proj2 (Z.eqb_eq _ _) Hz)).
      by rewrite Hlive, Hl, !app_nil_r.
    + destruct (free_live f w2 o2 Ho2 ltac:(congruence)) as [Hp _]. rewrite Hlive, Hl, Hhf in Hp.
      apply (Permutation_cons_inv (a := handle o)). rewrite <- Hp. solve_Permutation.
  - destruct Hg as [_ Hrel]. destruct (Z.eqb_spec (handle o) 0) as [Hz|Hnz].
    + assert (store (free f w2) = store w2) as -> by (unfold free, HostCall.Free; simpl; by rewrite Ho2, Hhf, (proj2 (Z.eqb_eq _ _) Hz)).
      by rewrite Hrel, Hr, ?app_nil_r.
    + destruct (free_live f w2 o2 Ho2 ltac:(congruence)) as [_ ->]. by rewrite Hrel, Hr, Hhf.
Qed.

(** A decoded object is a new one. *)
Lemma decode_fresh encoded w k : (decode encoded w).1 = Ok (VObject k) →
  k = length (objects (store w)) ∧ (k < length (objects (store (decode encoded w).2)))%nat.
Proof.
  unfold decode, decodeValue. destruct (Json.parse encoded) as [j|]; [|done]. unfold decode_tree.
  destruct (ms ← _; _) as [e|]; [|done].
  repeat match goal with |- context [if ?b then _ else _] => destruct b; [try done|] end; try done.
  - cbn [fst]. destruct (decode_number (V e)) as [v|] eqn:Hv; [|done]. intros [= ->]. by apply number_no_object in Hv.
  - cbn [alloc fst snd]. intros [= <-]. split; [done|]. simpl. rewrite length_app. simpl. lia.
Qed.

Lemma raw_value_fresh m w k : (raw_value engine m w).1 = Ok (VObject k) →
  k = length (objects (store w)) ∧ (k < length (objects (store (raw_value engine m w).2)))%nat.
Proof.
  unfold raw_value, raw_text, raw. destruct (engine _ _ m) as [[]|]; try done; intros Hk; by apply (decode_fresh _ _ k) in Hk.
Qed.

Lemma call_fresh r self args w k : (call engine r self args w).1 = Ok (VObject k) → k = length (objects (store w)).
Proof.
  unfold call, encodeArgs. pose proof (encode_each_grows (store w) args) as [Ho _]. destruct (encode_each (store w) args) as [bs H]. cbv zeta.
  intros Hk%raw_value_fresh. destruct Hk as [-> _]. simpl in *. apply (f_equal length) in Ho. by rewrite length_app, !length_map, Nat.add_0_r in Ho.
Qed.

(** A method call on what Get gave. *)
Lemma looked_up_balanced r name args w : let '(prop, w1) := Get engine r name w in
  match prop with
  | Ok (VObject f) => let '(res, w2) := call engine f (Some r) args (with_store (take_object (store w1) f) w1) in
      balanced w res nothing (free f w2) (minted (store w1) prop)
  | _ => balanced w nothing prop w1 []
  end.
Proof.
  pose proof (raw_value_grows (midGet (handle_of w r) name) w) as Hg.
  pose proof (raw_value_fresh (midGet (handle_of w r) name) w) as Hfr. unfold Get in *.
  destruct (raw_value _ _ _) as [prop w1]. apply gains_kept in Hg. cbn [fst snd] in Hfr.
  destruct prop as [[| | | | | |f|]|]; try by apply balanced_lost.
  destruct (Hfr f eq_refl) as [Hf Hlt]. pose proof (method_balanced f (Some r) args w w1 Hg Hlt) as Hm.
  pose proof (call_fresh f (Some r) args (with_store (take_object (store w1) f) w1)) as Hcf.
  destruct (call _ _ _ _ _) as [res w2]. apply Hm.
  destruct res as [[]|]; try done. specialize (Hcf _ eq_refl). simpl in Hcf, Hlt. unfold take_object, update in Hcf. simpl in Hcf.
  rewrite length_alter in Hcf. lia.
Qed.

(** C37: Where the handles go that the engine gives to operations on objects, whatever
    it answers. Get, Call and New keep just that of their result, of an object, a
    symbol or a bigint, and release none. CallMethod keeps that of its result and
    releases, once and also when the call fails, that of the looked-up function;
    when the property is no object it refuses, and the handle of a symbol or
    bigint is lost. Set gives no value back, so a handle its reply carries is lost;
    and String releases that of toString and loses the one of a result that has
    any. No other handle is released, and the callbacks registered stay the same;
    NewFunction, when the engine refuses, takes its registration back. *)
Theorem object_calls_balanced (w : vm) (r : nat) (name : bytes) (v : value) (args : list value) :
  (let '(res, w') := Get engine r name w in balanced w res nothing w' []) ∧
  (let '(res, w') := Call engine r args w in balanced w res nothing w' []) ∧
  (let '(res, w') := New engine r args w in balanced w res nothing w' []) ∧
  (let '(prop, w1) := Get engine r name w in let '(res, w') := CallMethod engine r name args w in
     match prop with
     | Ok (VObject f) => balanced w res nothing w' (minted (store w1) prop)
     | _ => (∃ e, res = Err e) ∧ balanced w nothing prop w' []
     end) ∧
  (let '(encoded, H) := encodeValue (store w) v in
   let '(reply, _) := raw_value engine (midSet (handle_of w r) name encoded) (with_store H w) in
   let '(res, w') := Set_ engine r name v w in balanced w nothing reply w' [] ∧ (res = Ok tt ↔ ∃ x, reply = Ok x)) ∧
  (let '(prop, w1) := Get engine r (lit "toString") w in let '(_, w') := String_ engine Sprint r w in
     match prop with
     | Ok (VObject f) => ∃ res, balanced w nothing res w' (minted (store w1) prop)
     | _ => balanced w nothing prop w' []
     end) ∧
  (∀ n fn e w', funcs w !! nextFnKey n = None → NewFunction engine n name fn w = (Err e, w') → funcs w' = funcs w ∧ store w' = store w).
Proof.
  split_and!.
  - pose proof (raw_value_grows (midGet (handle_of w r) name) w) as Hg. unfold Get. destruct (raw_value _ _ _). by apply gains_kept.
  - pose proof (call_grows r None args w) as Hg. unfold Call. destruct (call _ _ _ _ _). by apply gains_kept.
  - unfold New, encodeArgs. pose proof (encode_each_grows (store w) args) as He. destruct (encode_each (store w) args) as [bs H]. cbv zeta.
    match goal with |- context [raw_value engine ?m ?w1] => pose proof (raw_value_grows m w1) as Hg; destruct (raw_value engine m w1) as [res w'] end.
    apply gains_kept. by eapply gains_after.
  - pose proof (looked_up_balanced r name args w) as Hl. unfold CallMethod. destruct (Get engine r name w) as [prop w1].
    destruct prop as [[| | | | | |f|]|]; try by split; [eexists|]. by destruct (call _ _ _ _ _) as [res w2].
  - unfold Set_. pose proof (encode_grows (store w) v) as He. destruct (encodeValue (store w) v) as [b H].
    pose proof (raw_value_grows (midSet (handle_of w r) name b) (with_store H w)) as Hg.
    destruct (raw_value _ _ _) as [reply w']. split; [|destruct reply; naive_solver]. apply balanced_lost, gains_kept. by eapply gains_after.
  - pose proof (looked_up_balanced r (lit "toString") [] w) as Hl. unfold String_. destruct (Get engine r _ w) as [prop w1].
    destruct prop as [[| | | | | |f|]|]; try exact Hl. destruct (call _ _ _ _ _) as [res w2]. exists res. by apply balanced_lost.
  - intros n fn e w' Hno. unfold NewFunction, raw_handle, raw. destruct (engine _ _ _) as [[]|]; try done. intros [= _ <-]. simpl.
    split; [|done]. by apply delete_insert_id.
Qed.

End Balance.

(** Keys of registered functions are never given twice. *)
Lemma keys_fresh n m : 0 <= n < 2 ^ 64 → 0 <= m < 2 ^ 64 → nextFnKey n = nextFnKey m → n = m.
Proof.
  intros Hn Hm H. unfold nextFnKey in H. injection H as H. destruct (format_uint_text n Hn) as [_ Hun]. destruct (format_uint_text m Hm) as [_ Hum].
  rewrite H in Hun. congruence.
Qed.

(** ** The job queue *)

(** The number of rounds that made progress. *)
Definition progress (r : round) : list (result gerr (option bytes)) :=
  match pump r with
  | Ok s => match parseEnvelope s with
            | Some e => if bool_decide (Bridge.Result e = lit "2") then [] else [Ok (jsErr e)]
            | None => []
            end
  | Err _ => []
  end.

(** A round in which the queue goes on: work done or work pending. *)
Definition goes_on (r : round) : Prop :=
  done_before r = false ∧ done_waiting r = false ∧ more r = true ∧
  ∃ s e, pump r = Ok s ∧ parseEnvelope s = Some e ∧ Bridge.Result e ≠ lit "0".

(** RunJobs yields one result for every round that did something, none for one
    that only waits, and ends, without an error, when the queue is idle or the
    context is done, at once. *)
Lemma run_jobs_drains rs r rest : Forall goes_on rs →
  done_before r = true ∨ (∃ s e, pump r = Ok s ∧ parseEnvelope s = Some e ∧ Bridge.Result e = lit "0") ∨
    (∃ e, pump r = Err e ∧ done_after r = true) →
  RunJobs (rs ++ r :: rest) = (flat_map progress rs, true).
Proof.
  intros Hrs Hr. induction Hrs as [|x rs (Hb & Hw & Hm & s & e & Hp & He & Hz) _ IH]; cbn [app RunJobs flat_map].
  - destruct (done_before r); [done|]. destruct Hr as [?|[(s & e & -> & -> & ->)|(e & -> & ->)]]; [done|by rewrite bool_decide_true|done].
  - rewrite Hb, Hp, He, bool_decide_false by done. unfold progress at 1. rewrite Hp, He. rewrite IH, Hw, Hm. by case_bool_decide.
Qed.

(** ** Concrete runs *)

Definition demo_text (s : string) : result Bridge.err Bridge.reply := Ok (RText (jlit s)).

(** An engine where every property is a function, the one on handle 9, and a call
    gives an object. *)
Definition demo_engine : list method → list Z → method → result Bridge.err Bridge.reply := λ _ _ m,
  match m with
  | midGet _ _ => demo_text "{'k':'function','h':9}"
  | midCall _ _ _ => demo_text "{'k':'object','h':12}"
  | _ => Err (Text [])
  end.

Definition demo_vm : vm := MkVM (MkHeap [MkObject 5 false false] []) [] [] None ∅.

(** A method call gives the function back and keeps its result. *)
Example method_call : let '(res, w) := CallMethod demo_engine 0 (lit "f") [VBool true; VObject 0] demo_vm in
  res = Ok (VObject 2) ∧ live (store w) = [5; 12] ∧ released (store w) = [9] ∧
  sent w = [midGet 5 (lit "f"); midCall 9 5 (jlit "[{'k':'bool','v':true},{'k':'object','h':5}]")].
Proof. by vm_compute. Qed.

(** String keeps the object that a toString returned, with no way to free it. *)
Example string_leaks : let '(s, w) := String_ demo_engine (λ b, b) 0 demo_vm in
  s = object_object ∧ live (store w) = [5; 12] ∧ released (store w) = [9].
Proof. by vm_compute. Qed.

(** So does an error in a list of rejections with the reasons before it. *)
Example rejections_leak :
  let '(res, w) := TakeUnhandledRejections (λ _ _ _, demo_text "[{'reason':{'k':'object','h':3},'promise':{'k':'what'}}]") (λ _, []) demo_vm in
  res = Err (EDecode (DUnknownKind (lit "what"))) ∧ live (store w) = [5; 3].
Proof. by vm_compute. Qed.

(** The reply to Set is an object: its handle stays, in nobody's hands. So does
    that of a symbol where a method was looked for. *)
Example set_leaks : let '(res, w) := Set_ (λ _ _ _, demo_text "{'k':'object','h':7}") 0 (lit "x") VNull demo_vm in
  res = Ok tt ∧ received w = [7] ∧ live (store w) = [5; 7] ∧ released (store w) = [].
Proof. by vm_compute. Qed.

Example method_leaks : let '(res, w) := CallMethod (λ _ _ _, demo_text "{'k':'symbol','h':8}") 0 (lit "f") [] demo_vm in
  res = Err (ENotFunction (lit "f")) ∧ received w = [8] ∧ released (store w) = [].
Proof. by vm_compute. Qed.

(** The last conjunct at an engine that refuses, the one about CallMethod at one
    that answers. *)
Lemma object_calls_balanced_witness :
  (let '(_, w) := CallMethod demo_engine 0 (lit "f") [] demo_vm in balanced demo_vm (Ok (VObject 2)) nothing w [9]) ∧
  (let '(res, w) := NewFunction demo_engine 3 (lit "f") (λ _, ([], OReturn VUndefined)) demo_vm in funcs w = ∅).
Proof.
  split.
  - exact (proj1 (proj2 (proj2 (proj2 (object_calls_balanced demo_engine (λ b, b) demo_vm 0 (lit "f") VNull []))))).
  - destruct (object_calls_balanced demo_engine (λ b, b) demo_vm 0 (lit "f") VNull []) as (_ & _ & _ & _ & _ & _ & Hn).
    destruct (NewFunction demo_engine 3 (lit "f") (λ _, ([], OReturn VUndefined)) demo_vm) as [res w] eqn:E.
    destruct res as [k|e]; [discriminate E|]. exact (proj1 (Hn 3 _ e w eq_refl E)).
Defined.
