(* ===== verification/NodeRuntime.v ===== *)
(** The Node runtime around its parts (compat/nodejs/runtime.go): installation,
    running scripts and modules with process.exit, the objects returned to the
    guest, and the operations that belong to no other component.

    Evaluating a script and running the loop execute guest code, which may call
    process.exit: their answers are arguments that say what was called. *)

From S2P Require Import Prelude GoPath IoFS Json Resolve CjsScan NodeFS Bridge HostCall Objects.

(** ** process.exit *)

Module Exit.

(** The fields of Runtime. *)
Record status := MkStatus { exited : bool; exitCode : Z }.

(** [code] is args[0].Int(), when there is an argument. *)
Definition opNodeExit (st : status) (code : option Z) : status := MkStatus true (default (exitCode st) code).

(** js.Eval: the exits the guest called, the result, and the Go error. *)
Record script := MkScript { s_exits : list (option Z); s_result : Result_; s_fails : option bytes }.

(** web.Wait *)
Record drained := MkDrained { d_exits : list (option Z); d_fails : option bytes }.

Definition exits (codes : list (option Z)) (st : status) : status := foldl opNodeExit st codes.

(** [Panics]: a method of a nil Value is called. *)
Inductive outcome (A : Type) := Returns (a : A) | Panics.
Arguments Returns {A} a.
Arguments Panics {A}.

Definition exitFilter (err : option bytes) (st : status) : option bytes := if exited st then None else err.

(** Value.Bool *)
Definition truthy (v : value) : bool := match v with VBool b => b | VObject _ | VOpaque _ _ => true | _ => false end.

(** What runs in Wait: the loop, the 'beforeExit' script, the loop again, the
    'exit' script. *)
Record waiting := MkWaiting { w_loop : drained; w_before : script; w_again : drained; w_exit : script }.

(** The second half, with the error so far. *)
Definition finish_wait (err : option bytes) (ex : script) (st : status) : outcome (option bytes) * status :=
  let err := exitFilter err st in
  (Returns (match err with Some e => Some e | None => s_fails ex end), exits (s_exits ex) st).

Definition Wait (a : waiting) (st : status) : outcome (option bytes) * status :=
  let st1 := exits (d_exits (w_loop a)) st in
  let err := d_fails (w_loop a) in
  if bool_decide (err = None) && negb (exited st1) then
    let st2 := exits (s_exits (w_before a)) st1 in
    match s_fails (w_before a) with
    | Some e => finish_wait (Some e) (w_exit a) st2
    | None =>
        match value_ (s_result (w_before a)) with
        | None => (Panics, st2)
        | Some v =>
            if truthy v then finish_wait (d_fails (w_again a)) (w_exit a) (exits (d_exits (w_again a)) st2)
            else finish_wait None (w_exit a) st2
        end
    end
  else finish_wait err (w_exit a) st1.

(** resetExit; its script only clears a flag of the guest's. *)
Definition resetExit (st : status) : status := MkStatus false 0.

Definition no_error (r : Result_) : Result_ := MkResult (value_ r) None.

(** The outcome: the result and the Go error. *)
Definition RunScript (s : script) (a : waiting) (st : status) : outcome (Result_ * option bytes) * status :=
  let st1 := exits (s_exits s) (resetExit st) in
  match s_fails s with
  | Some e => (Returns (s_result s, Some e), st1)
  | None =>
      match error_ (s_result s) with
      | Some _ => (Returns (if exited st1 then no_error (s_result s) else s_result s, None), st1)
      | None =>
          match Wait a st1 with
          | (Returns err, st2) => (Returns (s_result s, err), st2)
          | (Panics, st2) => (Panics, st2)
          end
      end
  end.



End Exit.

(** ** The environment and the streams *)

(** The key and value of an entry of Config.Env. *)
Definition env_entry (kv : bytes) : option (bytes * bytes) :=
  match index_byte kv 61 with Some (S i) => Some (take (S i) kv, drop (S (S i)) kv) | _ => None end.

Definition opEnv (env : list bytes) : gmap bytes bytes :=
  foldl (λ m kv, match env_entry kv with Some (k, v) => <[k := v]> m | None => m end) ∅ env.

(** The argument is runtime.GOOS. *)
Definition opPlatform (goos : bytes) : bytes := if bool_decide (goos = lit "windows") then lit "win32" else goos.

Inductive stream := Stdout | Stderr.

(** raw_write: [fd] is args[0].Int(), [object] the bytes of an object argument
    when it has some, [text] the argument's String; [set] tells which streams
    Config has. The stream written and the bytes. *)
Definition opRawWrite (set : stream → bool) (fd : Z) (object : option (option bytes)) (text : bytes) : option (stream * bytes) :=
  let out := if fd =? 0 then Stdout else Stderr in
  if set out then Some (out, match object with Some (Some b) => b | _ => text end) else None.

(** ** require's resolution *)

Inductive resolve_answer := RCore (name : bytes) | RFile (path : bytes) (kind : bytes) | RNotFound (e : rerr).

Definition kind_name (k : moduleKind) : bytes := lit match k with kindESM => "esm" | kindCJS => "cjs" | kindJSON => "json" end.

Section Resolution.
Context {F : Type} `{WritableFS F}.
Context (range : gmap bytes json → list (bytes * json)) (fuel : nat) (engine : option (bytes → result goerr bool)).

(** [None] when the fuel does not suffice. *)
Definition opResolve (fsys : option F) (specifier parent : bytes) : option resolve_answer :=
  r ← resolveModule range fuel fsys specifier (guestPath parent) true;
  Some match r with
       | Err e => RNotFound e
       | Ok r =>
           if negb (bool_decide (Core r = [])) then RCore (Core r)
           else let r := refineKind engine fsys r None in RFile (RPath r) (kind_name (Kind r))
       end.

Definition opRead (fsys : option F) (p : bytes) : result loaderr bytes := readModuleFile fsys (guestPath p).
End Resolution.

(** ** Objects returned to the guest *)

(** pendingReturns *)
Definition trackReturn (r : nat) (pending : list nat) : list nat := pending ++ [r].

(** release_pending, and the same in Close. *)
Definition opReleasePending (pending : list nat) (H : heap) : list nat * heap := ([], foldl HostCall.Free H pending).

(** ** Arguments and options *)

Section Options.
Context (engine : list method → list Z → method → result Bridge.err Bridge.reply) (Sprint : bytes → bytes) (Int_ : value → Z).

Definition release (v : value) (w : vm) : vm := match v with VObject k => free k (with_store (take_object (store w) k) w) | _ => w end.

Definition optScalar (o : nat) (name : bytes) (w : vm) : option value * vm :=
  match Get engine o name w with
  | (Err _, w1) | (Ok VUndefined, w1) => (None, w1)
  | (Ok (VObject k), w1) => (None, release (VObject k) w1)
  | (Ok v, w1) => (Some v, w1)
  end.

(** [Int_] is Value.Int of a value that is no object. *)
Definition intArg (v : value) (w : vm) : Z * vm := (match v with VObject _ => 0 | _ => Int_ v end, release v w).

Definition strArg (v : value) (w : vm) : bytes * vm :=
  let '(s, w1) := match v with VObject k => String_ engine Sprint k w | _ => (value_string Sprint v, w) end in (s, release v w1).

Definition optPresent (o : nat) (name : bytes) (w : vm) : bool * vm :=
  match Get engine o name w with
  | (Err _, w1) | (Ok VUndefined, w1) => (false, w1)
  | (Ok v, w1) => (true, release v w1)
  end.

(** ** Install *)

(** The hooks httpDispatch, httpBody, httpAborted and httpClientBody. *)
Definition hooks : list bytes :=
  map lit ["__node_http_dispatch"; "__node_http_body"; "__node_http_aborted"; "__node_http_client_body"]%string.

(** The gets of the hooks: an error, or the refs. *)
Fixpoint get_hooks (g : nat) (names : list bytes) (w : vm) : result gerr (list nat) * vm :=
  match names with
  | [] => (Ok [], w)
  | n :: ns =>
      match Get engine g n w with
      | (Err e, w1) => (Err e, w1)
      | (Ok (VObject k), w1) =>
          let w2 := with_store (take_object (store w1) k) w1 in
          if default false (callable <$> objects (store w2) !! k) then
            match get_hooks g ns w2 with
            | (Ok ks, w3) => (Ok (k :: ks), w3)
            | (Err e, w3) => (Err e, w3)
            end
          else (Err (EJS n), w2)
      | (Ok _, w1) => (Err (EJS n), w1)
      end
  end.

Fixpoint define_ops (n : Z) (ops : nat) (table : list (bytes * Func)) (w : vm) : result gerr () * vm :=
  match table with
  | [] => (Ok tt, w)
  | (name, fn) :: table' =>
      match DefineFunc engine n ops name fn w with
      | (Err e, w1) => (Err e, w1)
      | (Ok _, w1) => define_ops (n + 1) ops table' w1
      end
  end.

(** The built-in scripts: a Go error, or what one threw. *)
Fixpoint eval_builtins (srcs : list bytes) (w : vm) : result gerr () * vm :=
  match srcs with
  | [] => (Ok tt, w)
  | src :: srcs' =>
      match Eval engine src false w with
      | ((_, Some (Some e)), w1) => (Err e, w1)
      | ((_, Some None), w1) => (Err (EJS []), w1)
      | ((r, None), w1) => match error_ r with Some m => (Err (EJS m), w1) | None => eval_builtins srcs' w1 end
      end
  end.

(** Install, after web.Install: up to the gets of the hooks. [n] is the function
    counter. *)
Definition install_ops (n : Z) (table : list (bytes * Func)) (srcs : list bytes) (w : vm) : result gerr (list nat) * vm :=
  match NewObject engine w with
  | (Err e, w1) => (Err e, w1)
  | (Ok ops, w1) =>
      let '(res, w2) :=
        match define_ops n ops table w1 with
        | (Err e, w2) => (Err e, w2)
        | (Ok _, w2) =>
            let '(g, w3) := Global engine w2 in
            match Set_ engine g (lit "__node_ops") (VObject ops) w3 with
            | (Err e, w4) => (Err e, w4)
            | (Ok _, w4) =>
                match eval_builtins srcs w4 with
                | (Err e, w5) => (Err e, w5)
                | (Ok _, w5) => let '(g, w6) := Global engine w5 in get_hooks g hooks w6
                end
            end
        end in
      (res, free ops w2)
  end.

End Options.

Import Exit.

(** *** Exits *)











(** *** The environment *)

(** The variable of a key is what the last entry with that key gives; entries
    without a key or without an equals sign give none. *)
Lemma env_last env k : opEnv env !! k = last (omap (λ kv, e ← env_entry kv; if decide (e.1 = k) then Some e.2 else None) env).
Proof.
  unfold opEnv. induction env as [|kv env IH] using rev_ind; [done|].
  rewrite foldl_app, omap_app. simpl. destruct (env_entry kv) as [[k' v]|]; simpl; [|by rewrite app_nil_r].
  destruct (decide (k' = k)) as [->|Hne]; simpl.
  - by rewrite lookup_insert_eq, last_snoc.
  - by rewrite lookup_insert_ne, app_nil_r.
Qed.

(** *** Objects returned to the guest *)

(** A release gives every object returned since the last one back to the engine,
    each once and in order, and forgets them; a second release does nothing. *)
Lemma released_once pending H :
  NoDup pending → (∀ r, r ∈ pending → ∃ o, objects H !! r = Some o ∧ handle o ≠ 0) →
  let '(p, H') := opReleasePending pending H in
  p = [] ∧ released H' = released H ++ omap (λ r, handle <$> objects H !! r) pending ∧ opReleasePending p H' = ([], H').
Proof.
  intros Hnd Hlive. split; [done|]. split; [|done]. revert H Hlive.
  induction Hnd as [|r pending Hr Hnd IH]; intros H Hlive; [simpl; by rewrite app_nil_r|].
  destruct (Hlive r (list_elem_of_here _ _)) as (o & Ho & Hh). cbn [foldl omap list_omap].
  assert (Hf : HostCall.Free H r = MkHeap (alter (λ o, MkObject 0 (callable o) (taken o)) r (objects H)) (released H ++ [handle o])).
  { unfold HostCall.Free. by rewrite Ho, (proj2 (Z.eqb_neq _ _) Hh). }
  rewrite Ho. simpl fmap. cbv iota. rewrite IH.
  - rewrite Hf. cbn [released objects]. rewrite <- app_assoc. f_equal. simpl. f_equal. clear -Hr.
    induction pending as [|p pending IH]; [done|]. apply not_elem_of_cons in Hr as [Hp Hr]. cbn [omap list_omap].
    rewrite list_lookup_alter_ne by done. by rewrite IH.
  - intros r' Hr'. rewrite Hf. cbn [objects]. rewrite list_lookup_alter_ne by (intros ->; done). apply Hlive. by right.
Qed.

(** *** Options *)

Section OptionLemmas.
Context (engine : list method → list Z → method → result Bridge.err Bridge.reply) (Sprint : bytes → bytes) (Int_ : value → Z).

(** Releasing a value that was just brought. *)
Lemma release_brought w0 w k : balanced w0 (Ok (VObject k)) nothing w [] → (k < length (objects (store w)))%nat →
  live (store (release (VObject k) w)) ≡ₚ live (store w0).
Proof.
  intros (_ & Hl & _) Hk. unfold nothing in Hl. cbn [brought] in Hl. change (nonzero []) with (@nil Z) in Hl. rewrite app_nil_r in Hl. set (w1 := with_store (take_object (store w) k) w).
  change (release (VObject k) w) with (free k w1).
  assert (Hl1 : live (store w1) = live (store w)) by apply take_object_live.
  destruct (objects (store w) !! k) as [o|] eqn:Ho; [|apply lookup_ge_None in Ho; lia].
  assert (Ho1 : objects (store w1) !! k = Some (MkObject (handle o) (callable o) true)).
  { subst w1. simpl. by rewrite list_lookup_alter_eq, Ho. }
  change (option_list (handle <$> Some o)) with [handle o] in Hl. rewrite nonzero_one in Hl.
  destruct (Z.eqb_spec (handle o) 0) as [Hz|Hnz].
  - assert (store (free k w1) = store w1) as -> by (unfold free, HostCall.Free; rewrite Ho1; cbn [handle]; by rewrite (proj2 (Z.eqb_eq _ _) Hz)).
    by rewrite Hl1, Hl, app_nil_r.
  - destruct (free_live k w1 _ Ho1 Hnz) as [Hp _]. rewrite Hl1, Hl in Hp. cbn [handle] in Hp.
    apply (Permutation_cons_inv (a := handle o)). rewrite <- Hp. solve_Permutation.
Qed.

(** Reading an option keeps no object pinned, whatever the guest put there: it is
    released, and counts as absent for optScalar and as present for optPresent. A
    symbol or a bigint is answered as it is, or dropped, with its handle. *)
Lemma options_keep_nothing o name w :
  live (store (optScalar engine o name w).2) ≡ₚ live (store w) ∧
  live (store (optPresent engine o name w).2) ≡ₚ live (store w) ∧
  (∀ k, (optScalar engine o name w).1 ≠ Some (VObject k)).
Proof.
  pose proof (raw_value_grows engine (midGet (handle_of w o) name) w) as Hg.
  pose proof (raw_value_fresh engine (midGet (handle_of w o) name) w) as Hfr. unfold optScalar, optPresent, Get.
  destruct (raw_value _ _ _) as [[v|e] w1]; apply gains_kept in Hg;
    [|destruct Hg as (_ & Hl & _); simpl in Hl; rewrite app_nil_r in Hl; done].
  destruct v as [| | | | | |k|kd h]; try (destruct Hg as (_ & Hl & _); simpl in Hl; rewrite app_nil_r in Hl; split_and!; done).
  destruct (Hfr k eq_refl) as [_ Hlt]. pose proof (release_brought w w1 k Hg Hlt). split_and!; done.
Qed.

End OptionLemmas.

(** ** Concrete runs *)

Definition ok_script (exits : list (option Z)) : script := MkScript exits (MkResult (Some VUndefined) None) None.
Definition thrown (exits : list (option Z)) (m : string) : script := MkScript exits (MkResult None (Some (lit m))) None.


(** A handler of beforeExit that calls process.exit: the sentinel it throws
    leaves no value, and the host panics. *)
Example exit_before_exit_panics :
  (RunScript (ok_script []) (MkWaiting (MkDrained [] None) (thrown [Some 0] "exit sentinel") (MkDrained [] None) (ok_script [])) (MkStatus false 0)).1 = Panics.
Proof. reflexivity. Qed.

Example env_of : map_to_list (opEnv [lit "A=1"; lit "=x"; lit "B"; lit "A=2=3"]) = [(lit "A", lit "2=3")].
Proof. by vm_compute. Qed.

(** Install gives the object of operations back also when a hook is missing, but
    keeps the hooks it had. *)
Definition demo_guest : list method → list Z → method → result Bridge.err Bridge.reply := λ _ _ m,
  match m with
  | midNewPlainObject => Ok (RHandle 20)
  | midGlobal => Ok (RHandle 21)
  | midDefineFunction _ _ _ _ => Ok RUnit
  | midSet _ _ _ => Ok (RText (jlit "{'k':'undefined'}"))
  | midGet _ n => Ok (RText (if bool_decide (n = lit "__node_http_dispatch") then jlit "{'k':'function','h':22}" else jlit "{'k':'undefined'}"))
  | _ => Err (Text [])
  end.

Example install_keeps_a_hook :
  let '(res, w) := install_ops demo_guest 1 [(lit "fs_stat", λ _, ([], OReturn VUndefined))] [] (MkVM (MkHeap [] []) [] [] None ∅) in
  res = Err (EJS (lit "__node_http_body")) ∧ live (store w) = [21; 22] ∧ released (store w) = [20].
Proof. by vm_compute. Qed.
