(* ===== verification/HostArg.v ===== *)
(** Arguments and answers of the crypto host functions (compat/web/subtle.go,
    compat/nodejs/nodecrypto.go): what the accessors read from an argument, and
    the ways a host function ends. *)

From S2P Require Import Prelude.

(** A guest value, by what the accessors of value.go and object.go read from
    it: [str] is String(), [objectBytes] is what Bytes() answers for the value's
    Object() ([None] when the value is none), [num] is Int(), [truth] is Bool(). *)
Record arg := MkArg {
  str : bytes;
  objectBytes : option (option bytes);
  num : Z;
  truth : bool;
  undef : bool
}.

(** Values as the tests of this library write them. *)
Definition text_arg (s : bytes) : arg := MkArg s None 0 false false.
Definition bytes_arg (b : bytes) : arg := MkArg [] (Some (Some b)) 0 true false.
Definition num_arg (n : Z) : arg := MkArg [] None n false false.
Definition bool_arg (b : bool) : arg := MkArg [] None 0 b false.
Definition undef_arg : arg := MkArg (lit "undefined") None 0 false true.

(** argBytes of the web side: a value that is no object is an error, [None]. *)
Definition argBytes (v : arg) : option bytes := match objectBytes v with Some r => r | None => None end.

(** valueBytes of the node side falls back to the string. *)
Definition valueBytes (v : arg) : option bytes := match objectBytes v with Some r => r | None => Some (str v) end.

Definition intArg (v : arg) : Z := num v.

(** [x, _ := argBytes(v)] and [x, _ := valueBytes(v)]: no bytes on an error. *)
Definition argBytesOr (v : arg) : bytes := default [] (argBytes v).
Definition valueBytesOr (v : arg) : bytes := default [] (valueBytes v).

(** [args[i]] when the call has that many arguments, read with [f]. *)
Definition opt_arg {B} (args : list arg) (i : nat) (f : arg → B) (dflt : B) : B :=
  match args !! i with Some v => f v | None => dflt end.

(** The same, an undefined argument counting as absent. *)
Definition opt_defined {B} (args : list arg) (i : nat) (f : arg → B) (dflt : B) : B :=
  match args !! i with Some v => if undef v then dflt else f v | None => dflt end.

(** How a host function ends: with a value, with one of the error objects
    (subtleErr, cryptoErr) carrying a message of its own, one that names an
    argument, or the library's; with a Go error, which the guest sees thrown; or
    with a Go panic. *)
Inductive outcome (V : Type) :=
| Answer (v : V)
| Refused (m : string)
| RefusedName (m : string) (q : bytes)
| LibRefused
| Failed
| Panic.
Arguments Answer {V} v.
Arguments Refused {V} m.
Arguments RefusedName {V} m q.
Arguments LibRefused {V}.
Arguments Failed {V}.
Arguments Panic {V}.

(** [x, err := f(); if err != nil { return subtleErr(err.Error()) }] *)
Definition or_lib {A V} (r : option A) (k : A → outcome V) : outcome V :=
  match r with Some a => k a | None => LibRefused end.

Definition or_fail {A V} (r : option A) (k : A → outcome V) : outcome V :=
  match r with Some a => k a | None => Failed end.
