(* ===== verification/Cipher.v ===== *)
(** Symmetric encryption: aesRun and AES key wrap of compat/web/subtle2.go and
    opCipher of compat/nodejs/nodecrypto2.go.

    Go's crypto/aes is a parameter, [Aes]: a block cipher and its GCM mode,
    with what the Go documentation promises as [AesLaws]. The CBC and CTR modes of
    crypto/cipher are defined over it. A function takes its arguments as the
    accessors deliver them: [String()], [argBytes] (an error is [None]), [intArg]
    and so on. [Panic] is a Go panic: the standard library's modes panic on an IV
    of the wrong size or a text that is not whole blocks. *)

From S2P Require Import Prelude HostArg Encoding.

(** ** The block cipher *)

Record Aes := MkAes {
  cipher : Type;
  NewCipher : bytes → option cipher;
  Encrypt : cipher → bytes → bytes;
  Decrypt : cipher → bytes → bytes;
  gcmSeal : cipher → Z → bytes → bytes → bytes → bytes;       (** tag size, nonce, data, aad *)
  gcmOpen : cipher → Z → bytes → bytes → bytes → option bytes
}.

Definition BlockSize : Z := 16.

Definition is_block (b : bytes) : Prop := length b = 16%nat ∧ Forall is_byte b.

Class AesLaws (A : Aes) : Prop := {
  new_ok : ∀ k, is_Some (NewCipher A k) ↔ length k ∈ [16%nat; 24%nat; 32%nat];
  encrypt_block : ∀ c b, is_block b → is_block (Encrypt A c b);
  decrypt_encrypt : ∀ c b, is_block b → Decrypt A c (Encrypt A c b) = b;
  seal_length : ∀ c t n d a, length (gcmSeal A c t n d a) = (length d + Z.to_nat t)%nat;
  open_seal : ∀ c t n d a, gcmOpen A c t n (gcmSeal A c t n d a) a = Some d
}.

(** ** Padding and modes *)

Definition xor_bytes (a b : bytes) : bytes := zip_with Z.lxor a b.

(** pad7, pkcs7Pad *)
Definition pad7 (data : bytes) (bs : Z) : bytes :=
  let n := bs - zlen data mod bs in
  data ++ replicate (Z.to_nat n) (wrapU 8 n).

(** unpad7, pkcs7Unpad *)
Definition unpad7 (data : bytes) (bs : Z) : option bytes :=
  match last data with
  | None => None
  | Some n =>
      if (n =? 0) || (bs <? n) || (zlen data <? n) then None
      else if forallb (fun b => b =? n) (drop (Z.to_nat (zlen data - n)) data)
           then Some (take (Z.to_nat (zlen data - n)) data)
           else None
  end.

(** The blocks of a text; the last one may be short. *)
Fixpoint blocks (fuel : nat) (data : bytes) : list bytes :=
  match fuel with
  | O => []
  | S f => match data with [] => [] | _ => take 16 data :: blocks f (drop 16 data) end
  end.

Definition blocks_of (data : bytes) : list bytes := blocks (length data) data.

(** incrCounterBits: the loop from bit [bit], [n] bits left. *)
Fixpoint incr_loop (n : nat) (bit : nat) (ctr : bytes) : bytes :=
  match n with
  | O => ctr
  | S n' =>
      let idx := (length ctr - 1 - bit / 8)%nat in
      let mask := Z.shiftl 1 (Z.of_nat (bit mod 8)) in
      let b := Z.lxor (default 0 (ctr !! idx)) mask in
      let ctr' := <[idx := b]> ctr in
      if Z.land b mask =? 0 then incr_loop n' (S bit) ctr' else ctr'
  end.

Definition incrCounterBits (ctr : bytes) (bits : nat) : bytes := incr_loop bits 0 ctr.

(** aesKWXorT: the counter, big endian, into the eight bytes of A. *)
Definition aesKWXorT (a : bytes) (t : Z) : bytes :=
  imap (fun k x => Z.lxor x (wrapU 8 (Z.shiftr t (8 * (7 - Z.of_nat k))))) a.

Definition aesKWIV : bytes := replicate 8 166.

(** cipher.NewGCMWithNonceSize and NewGCMWithTagSize: an AEAD is its nonce and
    tag sizes. *)
Record gcm := MkGcm { nonceSize : Z; tagSize : Z }.

Definition NewGCMWithNonceSize (n : Z) : option gcm := if n =? 0 then None else Some (MkGcm n 16).

Definition NewGCMWithTagSize (t : Z) : option gcm :=
  if (t <? 12) || (16 <? t) then None else Some (MkGcm 12 t).

(** The longest text GCM takes. *)
Definition gcmMax : Z := (2 ^ 32 - 2) * 16.

Section Modes.
Context (A : Aes) (c : cipher A).

(** cipher.NewCBCEncrypter(block, iv).CryptBlocks *)
Fixpoint cbc_encrypt (iv : bytes) (bs : list bytes) : list bytes :=
  match bs with
  | [] => []
  | b :: bs' => let e := Encrypt A c (xor_bytes b iv) in e :: cbc_encrypt e bs'
  end.

Fixpoint cbc_decrypt (iv : bytes) (bs : list bytes) : list bytes :=
  match bs with
  | [] => []
  | b :: bs' => xor_bytes (Decrypt A c b) iv :: cbc_decrypt b bs'
  end.

(** The loop of aesCTR, with [bits] of the block counting. *)
Fixpoint ctr_loop (bits : nat) (ctr : bytes) (bs : list bytes) : list bytes :=
  match bs with
  | [] => []
  | b :: bs' => xor_bytes b (Encrypt A c ctr) :: ctr_loop bits (incrCounterBits ctr bits) bs'
  end.

(** One step of the loops of aesKWWrap and aesKWUnwrap: round [j], block [i]
    of [n]. *)
Definition kw_wrap_step (n : nat) (st : bytes * bytes) (ji : nat * nat) : bytes * bytes :=
  let '(a, r) := st in
  let '(j, i) := ji in
  let buf := Encrypt A c (a ++ take 8 (drop (i * 8) r)) in
  (aesKWXorT (take 8 buf) (wrapU 64 (Z.of_nat (n * j + i + 1))),
   take (i * 8) r ++ drop 8 buf ++ drop (i * 8 + 8) r).

Definition kw_unwrap_step (n : nat) (ji : nat * nat) (st : bytes * bytes) : bytes * bytes :=
  let '(a, r) := st in
  let '(j, i) := ji in
  let a := aesKWXorT a (wrapU 64 (Z.of_nat (n * j + i + 1))) in
  let buf := Decrypt A c (a ++ take 8 (drop (i * 8) r)) in
  (take 8 buf, take (i * 8) r ++ drop 8 buf ++ drop (i * 8 + 8) r).

(** The order of the rounds. *)
Definition kw_rounds (n : nat) : list (nat * nat) :=
  flat_map (fun j => map (fun i => (j, i)) (seq 0 n)) (seq 0 6).

Definition aesKWWrap (plain : bytes) : option bytes :=
  if (zlen plain <? 16) || negb (zlen plain mod 8 =? 0) then None
  else
    let n := (length plain / 8)%nat in
    let '(a, r) := foldl (kw_wrap_step n) (aesKWIV, plain) (kw_rounds n) in
    Some (a ++ r).

Definition aesKWUnwrap (ct : bytes) : option bytes :=
  if (zlen ct <? 24) || negb (zlen ct mod 8 =? 0) then None
  else
    let n := (length ct / 8 - 1)%nat in
    let '(a, r) := foldr (kw_unwrap_step n) (take 8 ct, drop 8 ct) (kw_rounds n) in
    if bool_decide (a = aesKWIV) then Some r else None.

(** gcm.Seal, gcm.Open: a panic on a nonce of another size. *)
Definition Seal {V} (g : gcm) (nonce data aad : bytes) (k : bytes → outcome V) : outcome V :=
  if negb (zlen nonce =? nonceSize g) || (gcmMax <? zlen data) then Panic
  else k (gcmSeal A c (tagSize g) nonce data aad).

Definition Open {V} (g : gcm) (nonce ct aad : bytes) (k : option bytes → outcome V) : outcome V :=
  if negb (zlen nonce =? nonceSize g) then Panic else k (gcmOpen A c (tagSize g) nonce ct aad).

(** NewCBCEncrypter(block, iv).CryptBlocks(out, data) and its inverse. *)
Definition whole_blocks (data : bytes) : bool := zlen data mod BlockSize =? 0.

Definition CBCEncrypt {V} (iv data : bytes) (k : bytes → outcome V) : outcome V :=
  if negb (zlen iv =? BlockSize) || negb (whole_blocks data) then Panic
  else k (mjoin (cbc_encrypt iv (blocks_of data))).

Definition CBCDecrypt {V} (iv data : bytes) (k : bytes → outcome V) : outcome V :=
  if negb (zlen iv =? BlockSize) || negb (whole_blocks data) then Panic
  else k (mjoin (cbc_decrypt iv (blocks_of data))).

(** cipher.NewCTR(block, iv).XORKeyStream(out, data) *)
Definition ctr_stream (bits : nat) (counter data : bytes) : bytes :=
  mjoin (ctr_loop bits counter (blocks_of data)).

Definition CTR {V} (iv data : bytes) (k : bytes → outcome V) : outcome V :=
  if negb (zlen iv =? BlockSize) then Panic else k (ctr_stream 128 iv data).

(** aesCTR: the library's counter takes the whole block. *)
Definition aesCTR {V} (counter : bytes) (ctrBits : Z) (data : bytes) (k : bytes → outcome V) : outcome V :=
  if 128 <=? ctrBits then CTR counter data k
  else k (ctr_stream (Z.to_nat ctrBits) (resize 16 0 counter) data).

End Modes.

(** ** crypto.subtle *)

Section Ops.
Context (A : Aes).

Definition aes_gcm (c : cipher A) (iv data aad : bytes) (tagBytes : Z) (encrypt : bool) : outcome bytes :=
  if zlen iv =? 0 then Refused "OperationError: AES-GCM IV must not be empty"
  else if negb (tagBytes =? 16) && negb (zlen iv =? 12) then
    Refused "OperationError: AES-GCM with a non-default tag length requires a 12-byte IV"
  else
    or_lib (if tagBytes =? 16 then NewGCMWithNonceSize (zlen iv) else NewGCMWithTagSize tagBytes) (fun g =>
      if encrypt then Seal A c g iv data aad Answer
      else Open A c g iv data aad (fun pt =>
             match pt with
             | Some pt => Answer pt
             | None => Refused "OperationError: decryption failed"
             end)).

Definition aes_cbc (c : cipher A) (iv data : bytes) (encrypt : bool) : outcome bytes :=
  if negb (zlen iv =? BlockSize) then Refused "OperationError: AES-CBC IV must be 16 bytes"
  else if encrypt then CBCEncrypt A c iv (pad7 data BlockSize) Answer
  else if (zlen data =? 0) || negb (whole_blocks data) then Refused "OperationError: bad block size"
  else CBCDecrypt A c iv data (fun out => or_lib (unpad7 out BlockSize) Answer).

Definition aes_ctr (c : cipher A) (iv data : bytes) (ctrBits : Z) : outcome bytes :=
  if negb (zlen iv =? BlockSize) then Refused "OperationError: AES-CTR counter block must be 16 bytes"
  else if (ctrBits <=? 0) || (128 <? ctrBits) then Refused "OperationError: AES-CTR length must be in 1..128"
  else aesCTR A c iv ctrBits data Answer.

(** (mode, key, iv, data, aad?, tagBits?, counterBits?) *)
Definition aesRun (args : list arg) (encrypt : bool) : outcome bytes :=
  match args with
  | mode :: key :: iv :: data :: _ =>
      or_fail (argBytes key) (fun key =>
      or_fail (argBytes iv) (fun iv =>
      or_fail (argBytes data) (fun data =>
        let aad := opt_arg args 4 argBytesOr [] in
        let tagBytes := opt_defined args 5 (fun v => Z.quot (intArg v) 8) 16 in
        or_lib (NewCipher A key) (fun c =>
          if bool_decide (str mode = lit "AES-GCM") then aes_gcm c iv data aad tagBytes encrypt
          else if bool_decide (str mode = lit "AES-CBC") then aes_cbc c iv data encrypt
          else if bool_decide (str mode = lit "AES-CTR") then aes_ctr c iv data (opt_defined args 6 intArg 128)
          else RefusedName "unsupported AES mode" (str mode)))))
  | _ => Failed
  end.

Definition opAESEncrypt (args : list arg) : outcome bytes := aesRun args true.
Definition opAESDecrypt (args : list arg) : outcome bytes := aesRun args false.

(** (encrypt, kek, data) *)
Definition opAESKW (args : list arg) : outcome bytes :=
  match args with
  | enc :: kek :: data :: _ =>
      or_fail (argBytes kek) (fun kek =>
      or_fail (argBytes data) (fun data =>
      or_lib (NewCipher A kek) (fun c =>
      or_lib (if truth enc then aesKWWrap A c data else aesKWUnwrap A c data) Answer)))
  | _ => Failed
  end.

(** ** node:crypto *)

Definition aesKeyLen (algo : bytes) : option Z :=
  if has_prefix algo (lit "aes-128-") then Some 16
  else if has_prefix algo (lit "aes-192-") then Some 24
  else if has_prefix algo (lit "aes-256-") then Some 32
  else None.

Definition node_gcm (c : cipher A) (iv data aad tag : bytes) (encrypt : bool) : outcome (bytes * bytes) :=
  if zlen iv =? 0 then Refused "Invalid IV length"
  else
    or_lib (NewGCMWithNonceSize (zlen iv)) (fun g =>
      if encrypt then
        Seal A c g iv data aad (fun sealed =>
          let n := zlen sealed - tagSize g in
          if n <? 0 then Panic else Answer (take (Z.to_nat n) sealed, drop (Z.to_nat n) sealed))
      else
        Open A c g iv (data ++ tag) aad (fun pt =>
          match pt with
          | Some pt => Answer (pt, [])
          | None => Refused "Unsupported state or unable to authenticate data"
          end)).

Definition node_ctr (c : cipher A) (iv data : bytes) : outcome (bytes * bytes) :=
  if negb (zlen iv =? BlockSize) then Refused "Invalid IV length"
  else CTR A c iv data (fun out => Answer (out, [])).

Definition node_cbc (c : cipher A) (iv data : bytes) (encrypt autoPad : bool) : outcome (bytes * bytes) :=
  if negb (zlen iv =? BlockSize) then Refused "Invalid IV length"
  else if encrypt then
    if negb autoPad then
      if negb (whole_blocks data) then Refused "data not multiple of block length"
      else CBCEncrypt A c iv data (fun out => Answer (out, []))
    else CBCEncrypt A c iv (pad7 data BlockSize) (fun out => Answer (out, []))
  else if negb autoPad && (zlen data =? 0) then Answer ([], [])
  else if (zlen data =? 0) || negb (whole_blocks data) then Refused "bad decrypt: input not block-aligned"
  else
    CBCDecrypt A c iv data (fun out =>
      if negb autoPad then Answer (out, [])
      else or_lib (unpad7 out BlockSize) (fun p => Answer (p, []))).

(** (algorithm, key, iv, encrypt, data, aad?, tag?, autoPadding?), answering
    the data and the tag. *)
Definition opCipher (args : list arg) : outcome (bytes * bytes) :=
  match args with
  | algo :: key :: iv :: enc :: data :: _ =>
      let algo := str algo in
      let key := valueBytesOr key in
      let iv := valueBytesOr iv in
      let encrypt := truth enc in
      let data := valueBytesOr data in
      let aad := opt_arg args 5 valueBytesOr [] in
      let tag := opt_arg args 6 valueBytesOr [] in
      let autoPad := opt_defined args 7 truth true in
      if match aesKeyLen algo with Some want => negb (zlen key =? want) | None => false end then
        Refused "Invalid key length"
      else
        or_lib (NewCipher A key) (fun c =>
          if has_suffix algo (lit "-gcm") then node_gcm c iv data aad tag encrypt
          else if has_suffix algo (lit "-ctr") then node_ctr c iv data
          else if has_suffix algo (lit "-cbc") then node_cbc c iv data encrypt autoPad
          else RefusedName "unsupported cipher" algo)
  | _ => Failed
  end.

End Ops.

(** ** Bytes, blocks and padding *)

Lemma zlen_replicate n x : 0 <= n → zlen (replicate (Z.to_nat n) x) = n.
Proof. intros. unfold zlen. rewrite length_replicate. lia. Qed.

Lemma lxor_byte a b : is_byte a → is_byte b → is_byte (Z.lxor a b).
Proof.
  unfold is_byte. intros Ha Hb. assert (Hn : 0 <= Z.lxor a b) by (apply Z.lxor_nonneg; lia).
  split; [done|]. destruct (Z.eq_dec (Z.lxor a b) 0) as [->|Hz]; [lia|].
  apply (Z.log2_lt_pow2 _ 8); [lia|].
  assert (Hlog : ∀ x, 0 <= x < 256 → Z.log2 x < 8).
  { intros x Hx. destruct (Z.eq_dec x 0) as [->|]; [done|]. apply Z.log2_lt_pow2; lia. }
  pose proof (Z.log2_lxor a b ltac:(lia) ltac:(lia)). pose proof (Hlog a Ha). pose proof (Hlog b Hb). lia.
Qed.

Lemma xor_bytes_self a b : (length a <= length b)%nat → xor_bytes (xor_bytes a b) b = a.
Proof.
  revert b. induction a as [|x a IH]; intros [|y b] Hl; simpl in *; [done..|lia|].
  unfold xor_bytes in *. simpl. rewrite IH by lia. f_equal. rewrite Z.lxor_assoc, Z.lxor_nilpotent. apply Z.lxor_0_r.
Qed.

Lemma xor_bytes_length a b : length (xor_bytes a b) = min (length a) (length b).
Proof. apply length_zip_with. Qed.

Lemma xor_block a b : is_block a → is_block b → is_block (xor_bytes a b).
Proof.
  intros [La Fa] [Lb Fb]. split; [rewrite xor_bytes_length; lia|]. clear La Lb.
  revert b Fb. induction Fa as [|x a Hx Fa IH]; intros b Fb; [constructor|].
  destruct Fb as [|y b Hy Fb]; [constructor|]. constructor; [by apply lxor_byte|]. by apply IH.
Qed.

Lemma pad7_length data bs :
  0 < bs → zlen (pad7 data bs) mod bs = 0 ∧ zlen data < zlen (pad7 data bs) <= zlen data + bs.
Proof.
  intros Hbs. unfold pad7. pose proof (Z.mod_pos_bound (zlen data) bs Hbs).
  rewrite zlen_app, zlen_replicate by lia. split; [|lia]. rewrite (Z.div_mod (zlen data) bs) at 1 by lia.
  replace (bs * (zlen data / bs) + zlen data mod bs + (bs - zlen data mod bs))
    with ((zlen data / bs + 1) * bs) by lia.
  apply Z_mod_mult.
Qed.

Lemma pad7_bytes data bs : 0 < bs → Forall is_byte data → Forall is_byte (pad7 data bs).
Proof.
  intros Hbs Hd. unfold pad7. apply Forall_app. split; [done|]. apply Forall_replicate.
  apply (wrapU_range 8). lia.
Qed.

Lemma last_replicate_S n (x : Z) : last (replicate (S n) x) = Some x.
Proof. by rewrite replicate_S_end, last_snoc. Qed.

Lemma forallb_replicate n (x : Z) : forallb (fun b => b =? x) (replicate n x) = true.
Proof. induction n; simpl; [done|]. by rewrite Z.eqb_refl. Qed.

(** unpad7 on a text that ends in [n] bytes [n]. *)
Lemma unpad7_app data n bs :
  0 < n <= bs → unpad7 (data ++ replicate (Z.to_nat n) n) bs = Some data.
Proof.
  intros Hn. unfold unpad7. rewrite last_app.
  destruct (Z.to_nat n) as [|k] eqn:Hk; [lia|]. rewrite last_replicate_S.
  assert (Hz : zlen (data ++ replicate (S k) n) = zlen data + n).
  { rewrite <-Hk, zlen_app, zlen_replicate by lia. done. }
  rewrite Hz. replace (zlen data + n - n) with (zlen data) by lia.
  assert (Hg : ((n =? 0) || (bs <? n) || (zlen data + n <? n)) = false).
  { rewrite !orb_false_iff, Z.eqb_neq, !Z.ltb_ge. unfold zlen. lia. }
  rewrite Hg.
  unfold zlen at 1 2. rewrite Nat2Z.id, drop_app_length, take_app_length, forallb_replicate. done.
Qed.

Lemma unpad_pad data bs : 0 < bs < 256 → unpad7 (pad7 data bs) bs = Some data.
Proof.
  intros Hbs. unfold pad7. pose proof (Z.mod_pos_bound (zlen data) bs ltac:(lia)).
  rewrite wrapU_small by lia. apply unpad7_app. lia.
Qed.

Lemma blocks_join fuel data : (length data <= fuel)%nat → mjoin (blocks fuel data) = data.
Proof.
  revert data. induction fuel as [|f IH]; intros [|x data] Hl; simpl in *; [done|lia|done|].
  rewrite IH; [by rewrite take_drop|]. rewrite length_drop. simpl. lia.
Qed.

(** The blocks of blocks. *)
Lemma blocks_of_blocks fuel bs :
  Forall is_block bs → (length (mjoin bs) <= fuel)%nat → blocks fuel (mjoin bs) = bs.
Proof.
  revert bs. induction fuel as [|f IH]; intros bs Hb Hl.
  - destruct Hb as [|b bs [Lb _] Hb]; [done|]. simpl in Hl. rewrite length_app in Hl. lia.
  - destruct Hb as [|b bs [Lb Fb] Hb]; [done|]. simpl in Hl. rewrite length_app in Hl.
    change (mjoin (b :: bs)) with (b ++ mjoin bs).
    assert (Hc : ∀ l : bytes, l ≠ [] → blocks (S f) l = take 16 l :: blocks f (drop 16 l)) by (intros [|] ?; [congruence|done]).
    rewrite Hc by (intros E; apply (f_equal length) in E; rewrite length_app in E; simpl in E; lia).
    rewrite take_app_length', drop_app_length' by lia. f_equal. apply IH; [done|lia].
Qed.

Lemma blocks_blocks fuel data :
  Forall is_byte data → (16 | Z.of_nat (length data)) → (length data <= fuel)%nat → Forall is_block (blocks fuel data).
Proof.
  revert data. induction fuel as [|f IH]; intros data Hb [k Hk] Hl; [constructor|].
  destruct data as [|x data]; [constructor|]. cbn [blocks].
  assert (Hge : (16 <= length (x :: data))%nat).
  { simpl length in *. assert (1 <= k) by lia. lia. }
  constructor.
  - split; [rewrite length_take; lia|]. by apply Forall_take.
  - apply IH; [by apply Forall_drop| |rewrite length_drop; simpl in *; lia].
    exists (k - 1). rewrite length_drop. lia.
Qed.

Lemma whole_blocks_of data :
  Forall is_byte data → whole_blocks data = true → Forall is_block (blocks_of data).
Proof.
  intros Hb Hw%Z.eqb_eq. apply blocks_blocks; [done| |done]. apply Z.mod_divide in Hw; [done|]. by unfold BlockSize.
Qed.

Lemma blocks_of_join data : mjoin (blocks_of data) = data.
Proof. by apply blocks_join. Qed.

Lemma join_length bs : Forall is_block bs → length (mjoin bs) = (16 * length bs)%nat.
Proof.
  induction 1 as [|b bs [Lb _] Hb IH]; [done|]. change (mjoin (b :: bs)) with (b ++ mjoin bs).
  rewrite length_app. simpl length. lia.
Qed.

Lemma join_whole bs : Forall is_block bs → whole_blocks (mjoin bs) = true ∧ Forall is_byte (mjoin bs).
Proof.
  intros Hb. split.
  - apply Z.eqb_eq, Z.mod_divide; [by unfold BlockSize|]. exists (Z.of_nat (length bs)).
    unfold zlen, BlockSize. rewrite join_length by done. lia.
  - induction Hb as [|b bs [_ Fb] Hb IH]; [constructor|]. change (mjoin (b :: bs)) with (b ++ mjoin bs).
    by apply Forall_app.
Qed.

(** ** CBC *)

Section Cbc.
Context (A : Aes) `{AesLaws A} (c : cipher A).

Lemma cbc_encrypt_blocks iv bs : is_block iv → Forall is_block bs → Forall is_block (cbc_encrypt A c iv bs).
Proof.
  intros Hi Hb. revert iv Hi. induction Hb as [|b bs Hb Hbs IH]; intros iv Hi; [constructor|].
  simpl. assert (is_block (Encrypt A c (xor_bytes b iv))) by by apply encrypt_block, xor_block.
  constructor; [done|]. by apply IH.
Qed.

Lemma cbc_encrypt_length iv bs : length (cbc_encrypt A c iv bs) = length bs.
Proof. revert iv. induction bs as [|b bs IH]; intros iv; simpl; [done|]. by rewrite IH. Qed.

Lemma cbc_decrypt_encrypt iv bs :
  is_block iv → Forall is_block bs → cbc_decrypt A c iv (cbc_encrypt A c iv bs) = bs.
Proof.
  intros Hi Hb. revert iv Hi. induction Hb as [|b bs Hb Hbs IH]; intros iv Hi; [done|].
  simpl. rewrite decrypt_encrypt by by apply xor_block. rewrite xor_bytes_self by (destruct Hb, Hi; lia).
  f_equal. apply IH. by apply encrypt_block, xor_block.
Qed.

(** Decrypting what an encryption of whole blocks gave. *)
Lemma cbc_text iv data :
  is_block iv → Forall is_byte data → whole_blocks data = true →
  let ct := mjoin (cbc_encrypt A c iv (blocks_of data)) in
  whole_blocks ct = true ∧ Forall is_byte ct ∧ length ct = length data
  ∧ mjoin (cbc_decrypt A c iv (blocks_of ct)) = data.
Proof.
  intros Hi Hd Hw ct. pose proof (whole_blocks_of _ Hd Hw) as Hb.
  pose proof (cbc_encrypt_blocks iv _ Hi Hb) as He. destruct (join_whole _ He) as [Hw' Hd'].
  split; [done|]. split; [done|]. split.
  - unfold ct. rewrite join_length, cbc_encrypt_length, <-join_length, blocks_of_join by done. done.
  - unfold ct, blocks_of. rewrite blocks_of_blocks by done. rewrite cbc_decrypt_encrypt by done. apply blocks_of_join.
Qed.

End Cbc.

(** ** CTR *)

Section Ctr.
Context (A : Aes) `{AesLaws A} (c : cipher A).

Lemma incr_loop_length n bit ctr : length (incr_loop n bit ctr) = length ctr.
Proof.
  revert bit ctr. induction n as [|n IH]; intros bit ctr; simpl; [done|].
  case_match; [rewrite IH|]; apply length_insert.
Qed.

Lemma incr_loop_bytes n bit ctr : Forall is_byte ctr → Forall is_byte (incr_loop n bit ctr).
Proof.
  revert bit ctr. induction n as [|n IH]; intros bit ctr Hc; simpl; [done|].
  set (idx := (length ctr - 1 - bit / 8)%nat). set (mask := Z.shiftl 1 (Z.of_nat (bit mod 8))).
  assert (Hm : is_byte mask).
  { unfold mask, is_byte. rewrite Z.shiftl_1_l. pose proof (Nat.mod_upper_bound bit 8 ltac:(lia)).
    split; [apply Z.pow_nonneg; lia|]. apply (Z.pow_lt_mono_r 2 _ 8); lia. }
  assert (Hb : is_byte (Z.lxor (default 0 (ctr !! idx)) mask)).
  { apply lxor_byte; [|done]. destruct (ctr !! idx) as [x|] eqn:Hx; simpl; [|by unfold is_byte].
    by eapply Forall_lookup_1. }
  assert (Forall is_byte (<[idx:=Z.lxor (default 0 (ctr !! idx)) mask]> ctr)) by by apply Forall_insert.
  case_match; [by apply IH|done].
Qed.

Lemma incr_block ctr bits : is_block ctr → is_block (incrCounterBits ctr bits).
Proof. intros [L F]. split; [by rewrite <-L; apply incr_loop_length|by apply incr_loop_bytes]. Qed.

(** The counter of block [k]. *)
Definition counter_at (bits : nat) (ctr : bytes) (k : nat) : bytes :=
  Nat.iter k (fun x => incrCounterBits x bits) ctr.

Lemma counter_at_block bits ctr k : is_block ctr → is_block (counter_at bits ctr k).
Proof. intros Hc. induction k as [|k IH]; simpl; [done|]. by apply incr_block. Qed.

Lemma counter_at_next bits ctr k : counter_at bits (incrCounterBits ctr bits) k = counter_at bits ctr (S k).
Proof. symmetry. apply (Nat.iter_succ_r k (fun x => incrCounterBits x bits)). Qed.

Lemma ctr_loop_lookup bits ctr bs k :
  ctr_loop A c bits ctr bs !! k = (fun b => xor_bytes b (Encrypt A c (counter_at bits ctr k))) <$> bs !! k.
Proof.
  revert ctr k. induction bs as [|b bs IH]; intros ctr [|k]; simpl; [done..|].
  rewrite IH. by rewrite counter_at_next.
Qed.

Lemma ctr_cons bits ctr f data :
  data ≠ [] →
  mjoin (ctr_loop A c bits ctr (blocks (S f) data))
  = xor_bytes (take 16 data) (Encrypt A c ctr)
    ++ mjoin (ctr_loop A c bits (incrCounterBits ctr bits) (blocks f (drop 16 data))).
Proof. by destruct data. Qed.

Lemma ctr_length bits ctr f data :
  is_block ctr → (length data <= f)%nat → length (mjoin (ctr_loop A c bits ctr (blocks f data))) = length data.
Proof.
  revert ctr data. induction f as [|f IH]; intros ctr data Hc Hl.
  - destruct data; simpl in *; [done|lia].
  - destruct (decide (data = [])) as [->|Hd]; [done|]. rewrite ctr_cons by done.
    rewrite length_app, xor_bytes_length, length_take, IH, length_drop.
    + destruct (encrypt_block c ctr Hc) as [-> _]. lia.
    + by apply incr_block.
    + rewrite length_drop. destruct data; simpl in *; [done|lia].
Qed.

(** A second pass takes the keystream off again; the last block may be short. *)
Lemma ctr_involutive bits ctr f data :
  is_block ctr → (length data <= f)%nat →
  mjoin (ctr_loop A c bits ctr (blocks f (mjoin (ctr_loop A c bits ctr (blocks f data))))) = data.
Proof.
  revert ctr data. induction f as [|f IH]; intros ctr data Hc Hl.
  - destruct data; simpl in *; [done|lia].
  - destruct (decide (data = [])) as [->|Hd]; [done|]. rewrite (ctr_cons _ _ _ data) by done.
    set (first := xor_bytes (take 16 data) (Encrypt A c ctr)).
    set (rest := mjoin (ctr_loop A c bits (incrCounterBits ctr bits) (blocks f (drop 16 data)))).
    assert (Hfl : length first = min 16 (length data)).
    { unfold first. rewrite xor_bytes_length, length_take. destruct (encrypt_block c ctr Hc) as [-> _]. lia. }
    assert (Hdl : (length (drop 16 data) <= f)%nat).
    { rewrite length_drop. destruct data; simpl in *; [done|lia]. }
    assert (Hrl : length rest = (length data - 16)%nat).
    { unfold rest. rewrite ctr_length, length_drop; [done|by apply incr_block|done]. }
    assert (Ht : take 16 (first ++ rest) = first ∧ drop 16 (first ++ rest) = rest).
    { destruct (decide (16 <= length data)%nat).
      - rewrite take_app_length', drop_app_length' by lia. done.
      - assert (rest = []) as Er by (apply length_zero_iff_nil; lia). rewrite Er, app_nil_r.
        rewrite take_ge, drop_ge by lia. done. }
    destruct Ht as [Ht1 Ht2]. rewrite ctr_cons.
    2:{ intros E. apply (f_equal length) in E. rewrite length_app in E. destruct data; simpl in *; [done|lia]. }
    rewrite Ht1, Ht2. unfold rest. rewrite IH by (done || by apply incr_block).
    unfold first. rewrite xor_bytes_self; [apply take_drop|].
    rewrite length_take. destruct (encrypt_block c ctr Hc) as [-> _]. lia.
Qed.

Lemma ctr_stream_involutive bits ctr data :
  is_block ctr → ctr_stream A c bits ctr (ctr_stream A c bits ctr data) = data.
Proof.
  intros Hc. unfold ctr_stream, blocks_of. rewrite ctr_length by done. by apply ctr_involutive.
Qed.

End Ctr.

(** *** The counter as a number *)

(** Bit [8 * length q + e] of the number is bit [e] of the byte before [q]. *)
Lemma be_bit p b q e :
  is_byte b → Forall is_byte q → 0 <= e < 8 →
  Z.testbit (be (p ++ b :: q)) (8 * Z.of_nat (length q) + e) = Z.testbit b e.
Proof.
  intros Hb Hq He. rewrite be_app, be_cons. simpl length. pose proof (be_range q Hq) as Bq.
  rewrite (Z.add_comm (8 * _)), <-Z.div_pow2_bits by lia.
  rewrite Nat2Z.inj_succ, Z.pow_succ_r by lia. change 256 with (2 ^ 8) in *.
  rewrite <-Z.pow_mul_r in * by lia. set (W := 2 ^ (8 * Z.of_nat (length q))) in *.
  assert (HW : 0 < W) by (apply Z.pow_pos_nonneg; lia).
  replace (be p * (2 ^ 8 * W) + (b * W + be q)) with ((be p * 2 ^ 8 + b) * W + be q) by lia.
  rewrite Z.div_add_l, (Z.div_small (be q)), Z.add_0_r by lia.
  rewrite <-(Z.mod_pow2_bits_low _ 8) by lia.
  rewrite Z.add_comm, Z_mod_plus_full, Z.mod_small; [done|]. exact Hb.
Qed.

(** Adding at a bit that is clear carries nowhere. *)
Lemma carry_free x bit n :
  0 <= bit → 0 < n → Z.testbit x bit = false → (x + 2 ^ bit) / 2 ^ (bit + n) = x / 2 ^ (bit + n).
Proof.
  intros Hbit Hn Hx. pose proof (Z.testbit_spec' x bit Hbit) as Hs. rewrite Hx in Hs. simpl Z.b2z in Hs.
  assert (0 < 2 ^ bit) by (apply Z.pow_pos_nonneg; lia).
  replace (bit + n) with (bit + (1 + (n - 1))) by lia. rewrite Z.pow_add_r, Z.pow_add_r by lia.
  rewrite <-!(Z.div_div _ (2 ^ bit)) by (try apply Z.mul_pos_pos; try apply Z.pow_pos_nonneg; lia).
  rewrite <-!(Z.div_div _ (2 ^ 1)) by (try apply Z.pow_pos_nonneg; lia).
  replace (x + 2 ^ bit) with (x + 1 * 2 ^ bit) by lia. rewrite Z.div_add by lia.
  set (q := x / 2 ^ bit) in *. change (2 ^ 1) with 2. assert ((q + 1) / 2 = q / 2) as ->; [|done].
  clearbody q. Z.div_mod_to_equations. lia.
Qed.

Lemma land_pow2 x e : 0 <= e → (Z.land x (2 ^ e) =? 0) = negb (Z.testbit x e).
Proof.
  intros He. destruct (Z.testbit x e) eqn:Hx; simpl.
  - apply Z.eqb_neq. intros Hz. apply (f_equal (fun y => Z.testbit y e)) in Hz.
    rewrite Z.land_spec, Hx, Z.pow2_bits_true, Z.bits_0 in Hz by done. done.
  - apply Z.eqb_eq. apply Z.bits_inj'. intros k Hk. rewrite Z.land_spec, Z.bits_0, Z.pow2_bits_eqb by done.
    destruct (Z.eqb_spec e k) as [<-|]; [by rewrite Hx|by rewrite andb_false_r].
Qed.

Lemma lxor_pow2 x e :
  0 <= e → Z.lxor x (2 ^ e) = if Z.testbit x e then x - 2 ^ e else x + 2 ^ e.
Proof.
  intros He. assert (Hadd : ∀ y, Z.testbit y e = false → y + 2 ^ e = Z.lxor y (2 ^ e)).
  { intros y Hy. apply Z.add_nocarry_lxor. apply Z.eqb_eq. by rewrite land_pow2, Hy. }
  destruct (Z.testbit x e) eqn:Hx; [|by rewrite Hadd].
  enough (Z.lxor x (2 ^ e) + 2 ^ e = x) by lia. rewrite Hadd.
  - by rewrite Z.lxor_assoc, Z.lxor_nilpotent, Z.lxor_0_r.
  - by rewrite Z.lxor_spec, Hx, Z.pow2_bits_true.
Qed.

Lemma pow2_byte (e : nat) : (e < 8)%nat → is_byte (2 ^ Z.of_nat e).
Proof. intros. split; [apply Z.pow_nonneg; lia|]. apply (Z.pow_lt_mono_r 2 _ 8); lia. Qed.

Lemma is_byte_change b e : is_byte b → (e < 8)%nat → is_byte (Z.lxor b (2 ^ Z.of_nat e)).
Proof. intros. apply lxor_byte; [done|by apply pow2_byte]. Qed.

(** A counter around the byte that holds [bit]. *)
Lemma byte_at (ctr : bytes) bit :
  (bit / 8 < length ctr)%nat →
  ∃ p b q, ctr = p ++ b :: q ∧ length q = (bit / 8)%nat
  ∧ ctr !! (length ctr - 1 - bit / 8)%nat = Some b
  ∧ ∀ b', <[(length ctr - 1 - bit / 8)%nat := b']> ctr = p ++ b' :: q.
Proof.
  intros Hlt. set (idx := (length ctr - 1 - bit / 8)%nat).
  destruct (lookup_lt_is_Some_2 ctr idx) as [b Hb]; [lia|].
  exists (take idx ctr), b, (drop (S idx) ctr). rewrite length_drop.
  split; [by rewrite take_drop_middle|]. split; [lia|]. split; [done|].
  intros b'. apply insert_take_drop. lia.
Qed.

(** What one turn of the loop does to the number, and what its test reads. *)
Lemma flip_bit (ctr : bytes) bit :
  Forall is_byte ctr → (bit / 8 < length ctr)%nat →
  let idx := (length ctr - 1 - bit / 8)%nat in
  let mask := Z.shiftl 1 (Z.of_nat (bit mod 8)) in
  let b' := Z.lxor (default 0 (ctr !! idx)) mask in
  let ctr' := <[idx := b']> ctr in
  let t := Z.testbit (be ctr) (Z.of_nat bit) in
  Forall is_byte ctr' ∧ (Z.land b' mask =? 0) = t
  ∧ Z.testbit (be ctr') (Z.of_nat bit) = negb t
  ∧ be ctr' = be ctr + (if t then - 2 ^ Z.of_nat bit else 2 ^ Z.of_nat bit).
Proof.
  intros Hc Hm idx mask b' ctr' t. destruct (byte_at ctr bit Hm) as (p & b & q & Ec & Lq & Hb & Hins).
  unfold ctr'. fold idx in Hb, Hins. rewrite Hins.
  assert (Hall : Forall is_byte p ∧ is_byte b ∧ Forall is_byte q).
  { rewrite Ec in Hc. apply Forall_app in Hc as [? Hc]. by apply Forall_cons in Hc as [? ?]. }
  destruct Hall as (Hp & Hbb & Hq). pose proof (Nat.mod_upper_bound bit 8 ltac:(lia)) as He.
  unfold b', mask. rewrite Hb, Z.shiftl_1_l. change (default 0 (Some b)) with b.
  set (e := (bit mod 8)%nat) in *. pose proof (is_byte_change b e Hbb He) as Hb'.
  assert (Ebit : Z.of_nat bit = 8 * Z.of_nat (length q) + Z.of_nat e).
  { rewrite Lq. unfold e. pose proof (Nat.div_mod bit 8 ltac:(lia)). lia. }
  assert (Et : t = Z.testbit b (Z.of_nat e)) by (unfold t; rewrite Ec, Ebit; apply be_bit; done || lia).
  assert (Htest : Z.testbit (Z.lxor b (2 ^ Z.of_nat e)) (Z.of_nat e) = negb t).
  { rewrite Z.lxor_spec, Z.pow2_bits_true, <-Et by lia. apply xorb_true_r. }
  split; [by apply Forall_app; split; [|apply Forall_cons]|].
  split; [by rewrite land_pow2, Htest, negb_involutive by lia|].
  split; [rewrite Ebit, be_bit by (done || lia); done|].
  rewrite lxor_pow2, <-Et, Ec, !be_app, !be_cons by lia. simpl length.
  change 256 with (2 ^ 8). rewrite <-!Z.pow_mul_r by lia.
  rewrite Ebit, (Z.add_comm _ (Z.of_nat e)), Z.pow_add_r by lia. destruct t; lia.
Qed.

(** The loop adds 2 ^ bit within the bits it may touch. *)
Lemma incr_loop_value n bit ctr :
  Forall is_byte ctr → (bit + n <= 8 * length ctr)%nat →
  let M := 2 ^ (Z.of_nat bit + Z.of_nat n) in
  be (incr_loop n bit ctr) = M * (be ctr / M) + (be ctr + 2 ^ Z.of_nat bit) mod M.
Proof.
  revert bit ctr. induction n as [|n IH]; intros bit ctr Hc Hle M.
  - unfold M. rewrite Z.add_0_r. simpl. set (W := 2 ^ Z.of_nat bit).
    assert (0 < W) by (apply Z.pow_pos_nonneg; lia).
    rewrite <-(Z.mul_1_l W) at 3. rewrite Z_mod_plus_full. by apply Z.div_mod; lia.
  - assert (Hm : (bit / 8 < length ctr)%nat) by (apply Nat.Div0.div_lt_upper_bound; lia).
    pose proof (flip_bit ctr bit Hc Hm) as Hflip. cbv zeta in Hflip. cbn [incr_loop].
    set (ctr' := <[_ := _]> ctr) in *. destruct Hflip as (Hc' & -> & Hbit & Hv).
    assert (Hlen : length ctr' = length ctr) by apply length_insert.
    set (B := Z.of_nat bit) in *. assert (Hn : 0 < Z.of_nat (S n)) by lia.
    destruct (Z.testbit (be ctr) B) eqn:Ht.
    + rewrite IH by (done || lia).
      replace (Z.of_nat (S bit) + Z.of_nat n) with (B + Z.of_nat (S n)) by lia. fold M.
      replace (2 ^ Z.of_nat (S bit)) with (2 * 2 ^ B) by (rewrite Nat2Z.inj_succ, Z.pow_succ_r by lia; done).
      pose proof (carry_free (be ctr') B (Z.of_nat (S n)) ltac:(lia) Hn Hbit) as Hcf. fold M in Hcf.
      rewrite <-Hcf. replace (be ctr' + 2 * 2 ^ B) with (be ctr + 2 ^ B) by lia.
      by replace (be ctr' + 2 ^ B) with (be ctr) by lia.
    + rewrite Hv. assert (HM0 : 0 < M) by (apply Z.pow_pos_nonneg; lia).
      pose proof (carry_free (be ctr) B (Z.of_nat (S n)) ltac:(lia) Hn Ht) as Hcf. fold M in Hcf.
      rewrite <-Hcf. apply Z.div_mod. lia.
Qed.

(** [k] increments add [k] to the low [bits] bits and keep the others. *)
Lemma counter_value bits ctr k :
  is_block ctr → (bits <= 128)%nat →
  let M := 2 ^ Z.of_nat bits in
  be (counter_at bits ctr k) = M * (be ctr / M) + (be ctr + Z.of_nat k) mod M.
Proof.
  intros Hc Hbits M. assert (HM : 0 < M) by (apply Z.pow_pos_nonneg; lia).
  induction k as [|k IH].
  - rewrite Z.add_0_r. change (counter_at bits ctr 0) with ctr. apply Z.div_mod. lia.
  - change (counter_at bits ctr (S k)) with (incrCounterBits (counter_at bits ctr k) bits).
    destruct (counter_at_block bits ctr k Hc) as [L F]. unfold incrCounterBits.
    rewrite incr_loop_value by (done || lia). cbv zeta. rewrite Z.add_0_l. fold M. change (2 ^ Z.of_nat 0) with 1.
    assert (Hr : 0 <= (be ctr + Z.of_nat k) mod M < M) by by apply Z.mod_pos_bound.
    rewrite IH. apply f_equal2.
    + f_equal. rewrite (Z.mul_comm M (be ctr / M)), Z.div_add_l, (Z.div_small (_ mod _)) by lia. lia.
    + replace (M * (be ctr / M) + (be ctr + Z.of_nat k) mod M + 1)
        with ((be ctr + Z.of_nat k) mod M + 1 + (be ctr / M) * M) by lia.
      rewrite Z_mod_plus_full, Zplus_mod_idemp_l. f_equal. lia.
Qed.

(** ** AES key wrap *)

Section KeyWrap.
Context (A : Aes) `{AesLaws A} (c : cipher A).

Lemma xorT_length a t : length (aesKWXorT a t) = length a.
Proof. apply length_imap. Qed.

Lemma xorT_xorT a t : aesKWXorT (aesKWXorT a t) t = a.
Proof.
  apply list_eq. intros k. unfold aesKWXorT. rewrite !list_lookup_imap. destruct (a !! k) as [x|]; simpl; [|done].
  by rewrite Z.lxor_assoc, Z.lxor_nilpotent, Z.lxor_0_r.
Qed.

Lemma xorT_bytes a t : Forall is_byte a → Forall is_byte (aesKWXorT a t).
Proof.
  intros Ha. apply Forall_lookup. intros k x. unfold aesKWXorT. rewrite list_lookup_imap, fmap_Some.
  intros (y & Hy & ->). apply lxor_byte; [by eapply Forall_lookup_1|]. by apply (wrapU_range 8).
Qed.

(** The register: eight bytes, and the [n] blocks of eight. *)
Definition kw_ok (n : nat) (st : bytes * bytes) : Prop :=
  length st.1 = 8%nat ∧ Forall is_byte st.1 ∧ length st.2 = (n * 8)%nat ∧ Forall is_byte st.2.

Lemma kw_buf n a r i :
  kw_ok n (a, r) → (i < n)%nat → is_block (a ++ take 8 (drop (i * 8) r)).
Proof.
  intros (La & Fa & Lr & Fr) Hi. simpl in *. split.
  - rewrite length_app, length_take, length_drop. lia.
  - apply Forall_app. split; [done|]. by apply Forall_take, Forall_drop.
Qed.

Lemma kw_step n st ji :
  kw_ok n st → (ji.2 < n)%nat →
  kw_ok n (kw_wrap_step A c n st ji) ∧ kw_unwrap_step A c n ji (kw_wrap_step A c n st ji) = st.
Proof.
  destruct st as [a r], ji as [j i]. intros Hok Hi. simpl in Hi. pose proof (kw_buf n a r i Hok Hi) as Hb.
  destruct Hok as (La & Fa & Lr & Fr). simpl in La, Fa, Lr, Fr. cbn [kw_wrap_step kw_unwrap_step].
  set (t := wrapU 64 _). set (buf := Encrypt A c (a ++ take 8 (drop (i * 8) r))).
  destruct (encrypt_block c _ Hb) as [Lbuf Fbuf]. fold buf in Lbuf, Fbuf.
  assert (L8 : length (drop 8 buf) = 8%nat) by (rewrite length_drop; lia).
  assert (Li : length (take (i * 8) r) = (i * 8)%nat) by (rewrite length_take; lia).
  split.
  - unfold kw_ok. cbn [fst snd]. split; [rewrite xorT_length, length_take; lia|].
    split; [by apply xorT_bytes, Forall_take|]. split; [rewrite !length_app, L8, Li, length_drop; lia|].
    apply Forall_app; split; [by apply Forall_take|]. apply Forall_app; split; by apply Forall_drop.
  - set (r' := take (i * 8) r ++ drop 8 buf ++ drop (i * 8 + 8) r).
    assert (Hchunk : take 8 (drop (i * 8) r') = drop 8 buf).
    { unfold r'. rewrite drop_app_length' by lia. by apply take_app_length'. }
    assert (Hhead : take (i * 8) r' = take (i * 8) r) by (apply take_app_length'; lia).
    assert (Htail : drop (i * 8 + 8) r' = drop (i * 8 + 8) r).
    { unfold r'. rewrite app_assoc, drop_app_length'; [done|]. rewrite length_app. lia. }
    rewrite xorT_xorT, Hchunk, Hhead, Htail, take_drop. unfold buf. rewrite decrypt_encrypt by done.
    rewrite take_app_length', drop_app_length' by lia. f_equal. by rewrite <-drop_drop, !take_drop.
Qed.

Lemma kw_rounds_lt n ji : ji ∈ kw_rounds n → (ji.2 < n)%nat.
Proof.
  rewrite list_elem_of_In. unfold kw_rounds. intros (j & _ & Hi)%in_flat_map. apply in_map_iff in Hi as (i & <- & Hi).
  apply in_seq in Hi. simpl. lia.
Qed.

(** Undoing the rounds in the other order. *)
Lemma kw_undo n l st :
  kw_ok n st → (∀ ji, ji ∈ l → (ji.2 < n)%nat) →
  kw_ok n (foldl (kw_wrap_step A c n) st l)
  ∧ foldr (kw_unwrap_step A c n) (foldl (kw_wrap_step A c n) st l) l = st.
Proof.
  revert st. induction l as [|ji l IH]; intros st Hok Hl; [done|]. simpl.
  destruct (kw_step n st ji Hok) as [Hok' Hinv]; [apply Hl; by left|].
  destruct (IH (kw_wrap_step A c n st ji) Hok') as [Hok'' Hu]; [intros x Hx; apply Hl; by right|].
  split; [done|]. by rewrite Hu.
Qed.

Lemma unwrap_wrap plain ct :
  Forall is_byte plain → aesKWWrap A c plain = Some ct →
  aesKWUnwrap A c ct = Some plain ∧ length ct = (length plain + 8)%nat.
Proof.
  intros Hp. unfold aesKWWrap. destruct (_ || _) eqn:Hg; [done|].
  apply orb_false_iff in Hg as [H16%Z.ltb_ge H8%negb_false_iff%Z.eqb_eq]. unfold zlen in *.
  set (n := (length plain / 8)%nat).
  assert (Hn : length plain = (n * 8)%nat).
  { apply Nat2Z.inj. unfold n. rewrite Nat2Z.inj_mul, Nat2Z.inj_div. Z.div_mod_to_equations. lia. }
  assert (Hok : kw_ok n (aesKWIV, plain)).
  { split; [done|]. split; [apply Forall_replicate; by unfold is_byte|done]. }
  pose proof (kw_undo n (kw_rounds n) _ Hok (fun ji => kw_rounds_lt n ji)) as [Hok' Hu].
  destruct (foldl _ _ _) as [a r]. intros [= <-]. destruct Hok' as (La & _ & Lr & _). simpl in La, Lr.
  unfold aesKWUnwrap. assert (Hlen : length (a ++ r) = (n * 8 + 8)%nat) by (rewrite length_app; lia).
  split; [|lia]. unfold zlen. rewrite Hlen.
  assert (((Z.of_nat (n * 8 + 8) <? 24) || negb (Z.of_nat (n * 8 + 8) mod 8 =? 0)) = false) as ->.
  { apply orb_false_iff. split; [apply Z.ltb_ge; lia|]. apply negb_false_iff, Z.eqb_eq. Z.div_mod_to_equations. lia. }
  assert (((n * 8 + 8) / 8 - 1)%nat = n) as ->.
  { replace (n * 8 + 8)%nat with ((n + 1) * 8)%nat by lia. rewrite Nat.div_mul by lia. lia. }
  rewrite take_app_length', drop_app_length', Hu by lia. by rewrite bool_decide_true.
Qed.

End KeyWrap.

(** ** The properties *)

Section Properties.
Context (A : Aes) `{AesLaws A}.

Definition panics {V} (o : outcome V) : Prop := match o with Panic => True | _ => False end.

Lemma iv_block iv : Forall is_byte iv → zlen iv = BlockSize → is_block iv.
Proof. intros Hb Hz. split; [|done]. unfold zlen, BlockSize in Hz. lia. Qed.

Lemma pad_whole data : whole_blocks (pad7 data BlockSize) = true.
Proof. unfold whole_blocks. by rewrite (proj1 (pad7_length data BlockSize ltac:(done))). Qed.

Lemma pad_nonempty data : (zlen (pad7 data BlockSize) =? 0) = false.
Proof. pose proof (pad7_length data BlockSize ltac:(done)). unfold zlen, BlockSize in *. lia. Qed.

Lemma resize_block iv : zlen iv = BlockSize → resize 16 0 iv = iv.
Proof. intros Hz. apply resize_all_alt. unfold zlen, BlockSize in Hz. lia. Qed.

Lemma aes_gcm_roundtrip c iv data aad tag ct :
  aes_gcm A c iv data aad tag true = Answer ct → aes_gcm A c iv ct aad tag false = Answer data.
Proof.
  unfold aes_gcm. destruct (zlen iv =? 0); [done|]. destruct (_ && _); [done|].
  destruct (if tag =? 16 then _ else _) as [g|]; [|done]. simpl. unfold Seal, Open.
  destruct (zlen iv =? nonceSize g); [|done]. simpl. destruct (gcmMax <? zlen data); [done|].
  intros [= <-]. by rewrite open_seal.
Qed.

Lemma aes_cbc_roundtrip c iv data ct :
  Forall is_byte iv → Forall is_byte data →
  aes_cbc A c iv data true = Answer ct → aes_cbc A c iv ct false = Answer data.
Proof.
  intros Hi Hd. unfold aes_cbc, CBCEncrypt, CBCDecrypt.
  destruct (zlen iv =? BlockSize) eqn:Hz; [|done]. apply Z.eqb_eq in Hz. simpl. rewrite pad_whole.
  pose proof (cbc_text A c iv (pad7 data BlockSize) (iv_block iv Hi Hz)
                (pad7_bytes data BlockSize ltac:(done) Hd) (pad_whole data)) as (Hw & _ & Hl & Hdec).
  simpl. intros [= <-]. apply (f_equal Z.of_nat) in Hl. fold (zlen (pad7 data BlockSize)) in Hl.
  unfold zlen at 1. rewrite Hl, Hw, Hdec, pad_nonempty. simpl. by rewrite unpad_pad.
Qed.

Lemma aes_ctr_roundtrip c iv data n ct :
  Forall is_byte iv →
  aes_ctr A c iv data n = Answer ct → aes_ctr A c iv ct n = Answer data.
Proof.
  intros Hi. unfold aes_ctr, aesCTR, CTR. destruct (zlen iv =? BlockSize) eqn:Hz; [|done]. apply Z.eqb_eq in Hz.
  simpl. destruct (_ || _); [done|]. pose proof (iv_block iv Hi Hz).
  destruct (128 <=? n); intros [= <-]; rewrite ?resize_block by done; by rewrite ctr_stream_involutive.
Qed.

(** C18: What crypto.subtle's encrypt answers, its decrypt turns back into
    the data under the same mode, key, IV and further parameters (additional
    data, tag length, counter length), in every mode the operation has. *)
Theorem aes_decrypts (mode key iv data : arg) (rest : list arg) (ct plain : bytes) :
  Forall is_byte (argBytesOr iv) → argBytes data = Some plain → Forall is_byte plain →
  opAESEncrypt A (mode :: key :: iv :: data :: rest) = Answer ct →
  opAESDecrypt A (mode :: key :: iv :: bytes_arg ct :: rest) = Answer plain.
Proof.
  intros Hi Hp Hb. unfold opAESEncrypt, opAESDecrypt, aesRun, argBytesOr, opt_defined, opt_arg in *. rewrite Hp.
  destruct (argBytes key) as [k|]; [|done]. destruct (argBytes iv) as [v|]; [|done]. simpl in Hi |- *.
  destruct (NewCipher A k) as [c|]; [|done]. simpl.
  repeat case_bool_decide; [apply aes_gcm_roundtrip|by apply aes_cbc_roundtrip|by apply aes_ctr_roundtrip|done].
Qed.

(** AES key wrap: what wrapping answers is eight bytes longer, and
    unwrapping it with the same key gives the wrapped bytes back. *)
Theorem aes_kw_roundtrip (kek data : arg) (plain ct : bytes) :
  argBytes data = Some plain → Forall is_byte plain →
  opAESKW A [bool_arg true; kek; data] = Answer ct →
  zlen ct = zlen plain + 8 ∧ opAESKW A [bool_arg false; kek; bytes_arg ct] = Answer plain.
Proof.
  intros Hp Hb. unfold opAESKW. rewrite Hp. destruct (argBytes kek) as [k|]; [|done]. simpl.
  destruct (NewCipher A k) as [c|]; [|done]. simpl.
  destruct (aesKWWrap A c plain) as [w|] eqn:Hw; [|done]. simpl. intros [= ->].
  destruct (unwrap_wrap A c plain ct Hb Hw) as [-> Hl]. split; [|done]. unfold zlen. lia.
Qed.

Lemma NewGCM_nonce iv tag g :
  (if tag =? 16 then NewGCMWithNonceSize (zlen iv) else NewGCMWithTagSize tag) = Some g →
  negb (tag =? 16) && negb (zlen iv =? 12) = false → zlen iv = nonceSize g.
Proof.
  unfold NewGCMWithNonceSize, NewGCMWithTagSize. destruct (tag =? 16); simpl.
  - destruct (zlen iv =? 0); [done|]. by intros [= <-].
  - destruct (_ || _); [done|]. intros [= <-] Hz%negb_false_iff%Z.eqb_eq. done.
Qed.

Lemma seal_calm {V} c g iv data aad (k : bytes → outcome V) :
  zlen iv = nonceSize g → zlen data <= gcmMax → ¬ panics (k (gcmSeal A c (tagSize g) iv data aad)) →
  ¬ panics (Seal A c g iv data aad k).
Proof. intros Hn Hd Hk. unfold Seal. rewrite Hn, Z.eqb_refl, (proj2 (Z.ltb_ge _ _)) by done. done. Qed.

Lemma open_calm {V} c g iv ct aad (k : option bytes → outcome V) :
  zlen iv = nonceSize g → ¬ panics (k (gcmOpen A c (tagSize g) iv ct aad)) → ¬ panics (Open A c g iv ct aad k).
Proof. intros Hn Hk. unfold Open. by rewrite Hn, Z.eqb_refl. Qed.

Lemma aes_gcm_calm c iv data aad tag enc : zlen data <= gcmMax → ¬ panics (aes_gcm A c iv data aad tag enc).
Proof.
  intros Hd. unfold aes_gcm. destruct (zlen iv =? 0); [by intros []|]. destruct (_ && _) eqn:Hg; [by intros []|].
  destruct (if tag =? 16 then _ else _) as [g|] eqn:Hnew; [|by intros []]. pose proof (NewGCM_nonce _ _ _ Hnew Hg) as Hn.
  simpl. destruct enc; [apply seal_calm; [done|done|by intros []]|]. apply open_calm; [done|]. destruct (gcmOpen _ _ _ _ _ _); by intros [].
Qed.

Lemma node_gcm_calm c iv data aad tag enc : zlen data <= gcmMax → ¬ panics (node_gcm A c iv data aad tag enc).
Proof.
  intros Hd. unfold node_gcm. destruct (zlen iv =? 0) eqn:Hz; [by intros []|].
  unfold NewGCMWithNonceSize. rewrite Hz. simpl. destruct enc.
  - apply seal_calm; [done..|]. simpl.
    assert ((zlen (gcmSeal A c 16 iv data aad) - 16 <? 0) = false) as ->; [|by intros []].
    apply Z.ltb_ge. unfold zlen. rewrite seal_length. lia.
  - apply open_calm; [done|]. destruct (gcmOpen _ _ _ _ _ _); by intros [].
Qed.

Lemma cbc_decrypt_calm {V} c iv data (k : bytes → outcome V) :
  (zlen iv =? BlockSize) = true → whole_blocks data = true → (∀ out, ¬ panics (k out)) →
  ¬ panics (CBCDecrypt A c iv data k).
Proof. intros Hi Hw Hk. unfold CBCDecrypt. rewrite Hi, Hw. apply Hk. Qed.

Lemma cbc_encrypt_calm {V} c iv data (k : bytes → outcome V) :
  (zlen iv =? BlockSize) = true → whole_blocks data = true → (∀ out, ¬ panics (k out)) →
  ¬ panics (CBCEncrypt A c iv data k).
Proof. intros Hi Hw Hk. unfold CBCEncrypt. rewrite Hi, Hw. apply Hk. Qed.

Lemma aes_cbc_calm c iv data enc : ¬ panics (aes_cbc A c iv data enc).
Proof.
  unfold aes_cbc. destruct (zlen iv =? BlockSize) eqn:Hz; [|by intros []]. cbn [negb].
  destruct enc; [apply cbc_encrypt_calm; [done|apply pad_whole|by intros ? []]|].
  destruct (zlen data =? 0); [by intros []|]. destruct (whole_blocks data) eqn:Hw; [|by intros []].
  apply cbc_decrypt_calm; [done..|]. intros out. destruct (unpad7 out BlockSize); by intros [].
Qed.

Lemma node_cbc_calm c iv data enc pad : ¬ panics (node_cbc A c iv data enc pad).
Proof.
  unfold node_cbc. destruct (zlen iv =? BlockSize) eqn:Hz; [|by intros []]. cbn [negb].
  destruct enc.
  - destruct pad; [apply cbc_encrypt_calm; [done|apply pad_whole|by intros ? []]|]. cbn [negb].
    destruct (whole_blocks data) eqn:Hw; [|by intros []]. by apply cbc_encrypt_calm; [..|intros ? []].
  - destruct (_ && _); [by intros []|].
    destruct (zlen data =? 0); [by intros []|]. destruct (whole_blocks data) eqn:Hw; [|by intros []].
    apply cbc_decrypt_calm; [done..|]. intros out. destruct pad; [|by intros []].
    simpl. destruct (unpad7 out BlockSize); by intros [].
Qed.

Lemma aes_ctr_calm c iv data n : ¬ panics (aes_ctr A c iv data n).
Proof.
  unfold aes_ctr, aesCTR, CTR. destruct (zlen iv =? BlockSize); [|by intros []]. simpl.
  destruct (_ || _); [by intros []|]. destruct (128 <=? n); by intros [].
Qed.

Lemma or_lib_calm {B V} (r : option B) (k : B → outcome V) : (∀ b, r = Some b → ¬ panics (k b)) → ¬ panics (or_lib r k).
Proof. intros Hk. destruct r as [b|]; [by apply Hk|by intros []]. Qed.

Lemma or_fail_calm {B V} (r : option B) (k : B → outcome V) : (∀ b, r = Some b → ¬ panics (k b)) → ¬ panics (or_fail r k).
Proof. intros Hk. destruct r as [b|]; [by apply Hk|by intros []]. Qed.

(** No argument list makes a symmetric operation panic in the
    library: IVs, nonces, tag lengths and texts that are not whole blocks are
    refused before they reach it. (A text over GCM's 64 GiB is out of reach of
    the guest's 32-bit memory.) *)
Theorem ciphers_never_panic (args : list arg) (encrypt : bool) :
  (∀ v, v ∈ args → zlen (valueBytesOr v) <= gcmMax) →
  ¬ panics (aesRun A args encrypt) ∧ ¬ panics (opAESKW A args) ∧ ¬ panics (opCipher A args).
Proof.
  intros Hmax. split; [|split].
  - destruct args as [|mode [|key [|iv [|data rest]]]]; [by intros []..|]. cbn [aesRun].
    apply or_fail_calm; intros k _. apply or_fail_calm; intros v _. apply or_fail_calm; intros d Hd.
    apply or_lib_calm; intros c _. case_bool_decide; [apply aes_gcm_calm|].
    + specialize (Hmax data). unfold valueBytesOr, valueBytes, argBytes in *.
      destruct (objectBytes data); [|done]. rewrite Hd in Hmax. apply Hmax. set_solver.
    + case_bool_decide; [apply aes_cbc_calm|]. case_bool_decide; [apply aes_ctr_calm|by intros []].
  - destruct args as [|enc [|kek [|data rest]]]; [by intros []..|]. cbn [opAESKW].
    apply or_fail_calm; intros k _. apply or_fail_calm; intros d _. apply or_lib_calm; intros c _.
    apply or_lib_calm; by intros ? ? [].
  - destruct args as [|algo [|key [|iv [|enc [|data rest]]]]]; [by intros []..|]. cbn [opCipher].
    destruct (match aesKeyLen (str algo) with Some _ => _ | None => _ end); [by intros []|]. apply or_lib_calm; intros c _.
    destruct (has_suffix _ (lit "-gcm")); [apply node_gcm_calm, Hmax; set_solver|].
    destruct (has_suffix _ (lit "-ctr")).
    + unfold node_ctr, CTR. destruct (_ =? _); by intros [].
    + destruct (has_suffix _ (lit "-cbc")); [apply node_cbc_calm|by intros []].
Qed.

Lemma node_gcm_roundtrip c iv data aad tag ct t :
  node_gcm A c iv data aad tag true = Answer (ct, t) → node_gcm A c iv ct aad t false = Answer (data, []).
Proof.
  unfold node_gcm, Seal, Open. destruct (zlen iv =? 0) eqn:Hz; [done|]. unfold NewGCMWithNonceSize. rewrite Hz.
  simpl. rewrite Z.eqb_refl. simpl. destruct (gcmMax <? zlen data); [done|].
  destruct (_ <? 0); [done|]. intros [= <- <-]. by rewrite take_drop, open_seal.
Qed.

Lemma node_ctr_roundtrip c iv data ct t :
  Forall is_byte iv → node_ctr A c iv data = Answer (ct, t) → node_ctr A c iv ct = Answer (data, []).
Proof.
  intros Hi. unfold node_ctr, CTR. destruct (zlen iv =? BlockSize) eqn:Hz; [|done]. apply Z.eqb_eq in Hz. simpl.
  intros [= <- <-]. pose proof (iv_block iv Hi Hz). by rewrite ctr_stream_involutive.
Qed.

Lemma node_cbc_roundtrip c iv data pad ct t :
  Forall is_byte iv → Forall is_byte data →
  node_cbc A c iv data true pad = Answer (ct, t) → node_cbc A c iv ct false pad = Answer (data, []).
Proof.
  intros Hi Hd. unfold node_cbc, CBCEncrypt, CBCDecrypt.
  destruct (zlen iv =? BlockSize) eqn:Hz; [|done]. apply Z.eqb_eq in Hz. pose proof (iv_block iv Hi Hz) as Hb.
  cbn [negb orb andb]. destruct pad; cbn [negb andb].
  - rewrite pad_whole. cbn [negb].
    pose proof (cbc_text A c iv _ Hb (pad7_bytes data BlockSize ltac:(done) Hd) (pad_whole data)) as (Hw & _ & Hl & Hdec).
    intros [= <- <-]. apply (f_equal Z.of_nat) in Hl. fold (zlen (pad7 data BlockSize)) in Hl.
    unfold zlen at 1. rewrite Hl, Hw, Hdec, pad_nonempty. simpl. by rewrite unpad_pad.
  - destruct (whole_blocks data) eqn:Hwd; [|done]. cbn [negb].
    pose proof (cbc_text A c iv _ Hb Hd Hwd) as (Hw & _ & Hl & Hdec). intros [= <- <-].
    apply (f_equal Z.of_nat) in Hl. unfold zlen at 1 2. rewrite Hl. fold (zlen data).
    destruct (zlen data =? 0) eqn:Hzd; cbn [orb].
    + destruct data; [done|]. unfold zlen in Hzd. simpl in Hzd. lia.
    + by rewrite Hw, Hdec.
Qed.

(** What Cipheriv's final answers, Decipheriv under the same
    algorithm, key, IV, additional data and padding flag, given the tag, turns
    back into the data; and a name that says its key size was given a key of
    that size. *)
Theorem cipher_roundtrip (algo key iv data aad tag pad : arg) (ct t : bytes) :
  Forall is_byte (valueBytesOr iv) → Forall is_byte (valueBytesOr data) →
  opCipher A [algo; key; iv; bool_arg true; data; aad; tag; pad] = Answer (ct, t) →
  opCipher A [algo; key; iv; bool_arg false; bytes_arg ct; aad; bytes_arg t; pad] = Answer (valueBytesOr data, [])
  ∧ ∀ n, aesKeyLen (str algo) = Some n → zlen (valueBytesOr key) = n.
Proof.
  intros Hi Hd. unfold opCipher. cbn [truth bool_arg]. unfold opt_arg, opt_defined. simpl lookup. cbv iota beta.
  change (valueBytesOr (bytes_arg ct)) with ct. change (valueBytesOr (bytes_arg t)) with t.
  set (padding := if undef pad then true else truth pad).
  destruct (match aesKeyLen (str algo) with Some _ => _ | None => _ end) eqn:Hk; [done|].
  destruct (NewCipher A _) as [c|]; [|done]. cbn [or_lib]. intros Ha. split.
  - revert Ha. destruct (has_suffix _ (lit "-gcm")); [apply node_gcm_roundtrip|].
    destruct (has_suffix _ (lit "-ctr")); [by apply node_ctr_roundtrip|].
    destruct (has_suffix _ (lit "-cbc")); [by apply node_cbc_roundtrip|done].
  - intros n Hn. rewrite Hn in Hk. by apply negb_false_iff, Z.eqb_eq in Hk.
Qed.

(** AES-CTR with a counter of [bits] bits: block [k] of the answer is
    block [k] of the data under the encryption of counter [k], which keeps the
    nonce bits and counts modulo 2 ^ [bits] in the others; two counters are the
    same exactly when their distance is a multiple of 2 ^ [bits], so that the
    keystream starts over after 2 ^ [bits] blocks. *)
Theorem ctr_keystream c (bits : nat) (counter data : bytes) :
  is_block counter → (bits <= 128)%nat →
  let M := 2 ^ Z.of_nat bits in
  (∀ k, ctr_loop A c bits counter (blocks_of data) !! k
        = (fun b => xor_bytes b (Encrypt A c (counter_at bits counter k))) <$> blocks_of data !! k)
  ∧ (∀ k, be (counter_at bits counter k) = M * (be counter / M) + (be counter + Z.of_nat k) mod M)
  ∧ (∀ j k, counter_at bits counter j = counter_at bits counter k ↔ Z.of_nat j mod M = Z.of_nat k mod M).
Proof.
  intros Hc Hb M. assert (HM : 0 < M) by (apply Z.pow_pos_nonneg; lia).
  split; [intros k; apply ctr_loop_lookup|]. split; [intros k; by apply counter_value|].
  intros j k. pose proof (counter_value bits counter j Hc Hb) as Hj. pose proof (counter_value bits counter k Hc Hb) as Hk.
  cbv zeta in Hj, Hk. fold M in Hj, Hk. split.
  - intros E. rewrite E, Hk in Hj.
    assert (Hm : (be counter + Z.of_nat k) mod M = (be counter + Z.of_nat j) mod M) by lia.
    apply (f_equal (fun x => (x - be counter) mod M)) in Hm. rewrite !Zminus_mod_idemp_l in Hm.
    rewrite !Z.add_simpl_l in Hm. done.
  - intros E. destruct (counter_at_block bits counter j Hc) as [Lj Fj], (counter_at_block bits counter k Hc) as [Lk Fk].
    apply be_inj; [done..|by rewrite Lj, Lk|]. rewrite Hj, Hk. f_equal.
    by rewrite Zplus_mod, E, <-Zplus_mod.
Qed.

(** A name that says no AES key size is served with the AES the key's length
    says, whatever cipher it names. *)
Lemma other_names_are_aes (name : bytes) (args : list arg) :
  aesKeyLen name = None → has_suffix name (lit "-gcm") = false → has_suffix name (lit "-ctr") = false →
  has_suffix name (lit "-cbc") = true →
  ∀ key, zlen (valueBytesOr key) = 32 →
  opCipher A (text_arg name :: key :: args) = opCipher A (text_arg (lit "aes-256-cbc") :: key :: args).
Proof.
  intros Hn Hg Ht Hcb key Hk. destruct args as [|iv [|enc [|data rest]]]; [done..|]. cbn [opCipher str text_arg].
  rewrite Hn, Hg, Ht, Hcb. by rewrite Hk.
Qed.

End Properties.

(** ** A toy cipher that satisfies the laws *)

Definition toy : Aes :=
  MkAes unit (fun k => if bool_decide (length k ∈ [16%nat; 24%nat; 32%nat]) then Some tt else None)
        (fun _ b => reverse b) (fun _ b => reverse b)
        (fun _ t _ d _ => d ++ replicate (Z.to_nat t) 7)
        (fun _ t _ ct _ => Some (take (length ct - Z.to_nat t) ct)).

#[export] Instance toy_laws : AesLaws toy.
Proof.
  split; simpl.
  - intros k. case_bool_decide; split; intros Hk; [done|by eexists|by destruct Hk|done].
  - intros _ b [L F]. split; [by rewrite length_reverse|]. by apply Forall_reverse.
  - intros _ b _. apply reverse_involutive.
  - intros _ t _ d _. by rewrite length_app, length_replicate.
  - intros _ t _ d _. rewrite length_app, length_replicate. f_equal.
    replace (length d + Z.to_nat t - Z.to_nat t)%nat with (length d) by lia. by rewrite take_app_length.
Qed.

Definition key16 : bytes := replicate 16 1.
Definition iv16 : bytes := lit "0123456789abcdef".
Definition hello : bytes := lit "hello, world: more than a block".

Lemma aes_decrypts_witness :
  ∃ ct, opAESEncrypt toy [text_arg (lit "AES-CBC"); bytes_arg key16; bytes_arg iv16; bytes_arg hello] = Answer ct
  ∧ opAESDecrypt toy [text_arg (lit "AES-CBC"); bytes_arg key16; bytes_arg iv16; bytes_arg ct] = Answer hello.
Proof.
  eexists. split; [vm_compute; reflexivity|].
  apply (aes_decrypts toy (text_arg (lit "AES-CBC")) (bytes_arg key16) (bytes_arg iv16) (bytes_arg hello) []).
  - by_decide.
  - reflexivity.
  - by_decide.
  - vm_compute. reflexivity.
Defined.

Lemma aes_kw_roundtrip_witness :
  ∃ ct, opAESKW toy [bool_arg true; bytes_arg key16; bytes_arg iv16] = Answer ct
  ∧ zlen ct = zlen iv16 + 8 ∧ opAESKW toy [bool_arg false; bytes_arg key16; bytes_arg ct] = Answer iv16.
Proof.
  eexists. split; [vm_compute; reflexivity|].
  apply (aes_kw_roundtrip toy (bytes_arg key16) (bytes_arg iv16)).
  - reflexivity.
  - by_decide.
  - vm_compute. reflexivity.
Defined.

Lemma ciphers_never_panic_witness :
  ¬ panics (aesRun toy [text_arg (lit "AES-GCM"); bytes_arg key16; bytes_arg []; bytes_arg hello] true)
  ∧ ¬ panics (opAESKW toy [text_arg (lit "AES-GCM"); bytes_arg key16; bytes_arg []; bytes_arg hello])
  ∧ ¬ panics (opCipher toy [text_arg (lit "AES-GCM"); bytes_arg key16; bytes_arg []; bytes_arg hello]).
Proof.
  apply (ciphers_never_panic toy).
  apply Forall_forall. by_decide.
Defined.

Definition node_args (encrypt : bool) (data tag : bytes) : list arg :=
  [text_arg (lit "aes-128-gcm"); bytes_arg key16; bytes_arg (lit "twelve bytes"); bool_arg encrypt; bytes_arg data;
   bytes_arg (lit "aad"); bytes_arg tag; undef_arg].

Lemma cipher_roundtrip_witness :
  ∃ ct t, opCipher toy (node_args true hello []) = Answer (ct, t)
  ∧ opCipher toy (node_args false ct t) = Answer (hello, [])
  ∧ ∀ n, aesKeyLen (lit "aes-128-gcm") = Some n → zlen key16 = n.
Proof.
  eexists _, _. split; [vm_compute; reflexivity|].
  apply (cipher_roundtrip toy (text_arg (lit "aes-128-gcm")) (bytes_arg key16) (bytes_arg (lit "twelve bytes"))
           (bytes_arg hello) (bytes_arg (lit "aad")) (bytes_arg []) undef_arg).
  - by_decide.
  - by_decide.
  - vm_compute. reflexivity.
Defined.

Lemma ctr_keystream_witness :
  counter_at 2 iv16 1 = counter_at 2 iv16 5 ∧ counter_at 2 iv16 1 ≠ counter_at 2 iv16 3.
Proof.
  assert (Hb : is_block iv16) by (split; [reflexivity|by_decide]).
  destruct (ctr_keystream toy tt 2 iv16 hello Hb ltac:(lia)) as (_ & _ & Hc). split.
  - apply Hc. reflexivity.
  - intros E. apply Hc in E. vm_compute in E. discriminate E.
Defined.
