(* ===== verification/Kdf.v ===== *)
(** Digests and key derivation: opCryptoHash, opCryptoHMAC of
    compat/nodejs/nodecrypto.go, opPBKDF2, opScrypt and opHKDF of
    nodecrypto2.go, and deriveBits of compat/web/subtle2.go.

    The derivations run in the host, where the guest's interrupt does not reach
    them: what is proved is the bound on their cost. The hash functions and the
    derivations are parameters, [Kdfs]. *)

From S2P Require Import Prelude HostArg.

(** crypto.Hash *)
Inductive hash := MD5 | SHA1 | SHA224 | SHA256 | SHA384 | SHA512 | SHA512_224 | SHA512_256.

#[export] Instance hash_eq : EqDecision hash.
Proof. solve_decision. Defined.

(** nodeHashByName *)
Definition nodeHashByName (name : bytes) : option hash :=
  if bool_decide (name = lit "md5") then Some MD5
  else if bool_decide (name = lit "sha1") then Some SHA1
  else if bool_decide (name = lit "sha224") then Some SHA224
  else if bool_decide (name = lit "sha256") then Some SHA256
  else if bool_decide (name = lit "sha384") then Some SHA384
  else if bool_decide (name = lit "sha512") then Some SHA512
  else if bool_decide (name ∈ [lit "sha512-224"; lit "sha512_224"]) then Some SHA512_224
  else if bool_decide (name ∈ [lit "sha512-256"; lit "sha512_256"]) then Some SHA512_256
  else None.

(** hashByName *)
Definition hashByName (name : bytes) : option hash :=
  if bool_decide (name = lit "SHA-1") then Some SHA1
  else if bool_decide (name = lit "SHA-256") then Some SHA256
  else if bool_decide (name = lit "SHA-384") then Some SHA384
  else if bool_decide (name = lit "SHA-512") then Some SHA512
  else None.

Record Kdfs := MkKdfs {
  sum : hash → bytes → bytes;
  hmac : hash → bytes → bytes → bytes;                       (** key, data *)
  pbkdf2 : bytes → bytes → Z → Z → hash → bytes;             (** password, salt, iterations, length *)
  hkdf : hash → bytes → bytes → bytes → Z → option bytes;    (** secret, salt, info, length read *)
  scrypt : bytes → bytes → Z → Z → Z → Z → option bytes      (** password, salt, N, r, p, length *)
}.

Definition maxKDFBytes : Z := 2 ^ 24.
Definition maxScryptMem : Z := 32 * 2 ^ 20.
Definition maxPBKDF2Iter : Z := 100000000.
Definition maxScryptOps : Z := 2 ^ 26.
Definition maxSubtleKDFBytes : Z := 2 ^ 24.
Definition maxSubtlePBKDF2Iter : Z := 100000000.

Section Ops.
Context (L : Kdfs).

(** ** node:crypto *)

Definition opCryptoHash (args : list arg) : outcome bytes :=
  match args with
  | algo :: data :: _ =>
      or_fail (nodeHashByName (str algo)) (fun h =>
      or_fail (valueBytes data) (fun data => Answer (sum L h data)))
  | _ => Failed
  end.

Definition opCryptoHMAC (args : list arg) : outcome bytes :=
  match args with
  | algo :: key :: data :: _ =>
      or_fail (nodeHashByName (str algo)) (fun h =>
      or_fail (valueBytes key) (fun key =>
      or_fail (valueBytes data) (fun data => Answer (hmac L h key data))))
  | _ => Failed
  end.

(** (password, salt, iterations, keylen, digest) *)
Definition opPBKDF2 (args : list arg) : outcome bytes :=
  match args with
  | pw :: salt :: iter :: keylen :: digest :: _ =>
      let iter := intArg iter in
      let keylen := intArg keylen in
      if (iter <? 1) || (maxPBKDF2Iter <? iter) then Refused "iterations out of range"
      else if (keylen <? 0) || (maxKDFBytes <? keylen) then Refused "invalid key length"
      else or_lib (nodeHashByName (str digest)) (fun h =>
             Answer (pbkdf2 L (valueBytesOr pw) (valueBytesOr salt) iter keylen h))
  | _ => Failed
  end.

(** The option object of scrypt, by what optScalar reads from a property. *)
Definition options : Type := string → option Z.

Definition getInt (o : option options) (names : list string) (dflt : Z) : Z :=
  match o with
  | Some get => default dflt (foldr (fun n acc => match get n with Some v => Some v | None => acc end) None names)
  | None => dflt
  end.

(** (password, salt, keylen, params); the arguments are int64. *)
Definition opScrypt (args : list arg) (params : option options) : outcome bytes :=
  match args with
  | pw :: salt :: keylen :: _ :: _ =>
      let keylen := intArg keylen in
      let N := getInt params ["cost"; "N"] 16384 in
      let r := getInt params ["blockSize"; "r"] 8 in
      let p := getInt params ["parallelization"; "p"] 1 in
      if (keylen <? 0) || (maxKDFBytes <? keylen) then Refused "invalid key length"
      else if (N <=? 1) || negb (Z.land N (N - 1) =? 0) || (r <=? 0) || (p <=? 0) then
        Refused "invalid scrypt parameters"
      else if (maxScryptMem <? i64 (i64 (128 * N) * r)) || (maxScryptMem <? i64 (i64 (128 * r) * p)) then
        Refused "scrypt parameters exceed the memory limit"
      else if maxScryptOps <? i64 (i64 (N * r) * p) then Refused "scrypt parameters exceed the cost limit"
      else or_lib (scrypt L (valueBytesOr pw) (valueBytesOr salt) N r p keylen) Answer
  | _ => Failed
  end.

(** (digest, ikm, salt, info, keylen) *)
Definition opHKDF (args : list arg) : outcome bytes :=
  match args with
  | digest :: ikm :: salt :: info :: keylen :: _ =>
      or_lib (nodeHashByName (str digest)) (fun h =>
        let keylen := intArg keylen in
        if (keylen <? 0) || (maxKDFBytes <? keylen) then Refused "invalid key length"
        else or_lib (hkdf L h (valueBytesOr ikm) (valueBytesOr salt) (valueBytesOr info) keylen) Answer)
  | _ => Failed
  end.

(** ** crypto.subtle *)

Definition opDigest (args : list arg) : outcome bytes :=
  match args with
  | name :: data :: _ =>
      or_fail (hashByName (str name)) (fun h => or_fail (argBytes data) (fun data => Answer (sum L h data)))
  | _ => Failed
  end.

(** (hash, ikm, salt, info, bits) *)
Definition opHKDFDerive (args : list arg) : outcome bytes :=
  match args with
  | name :: ikm :: salt :: info :: bits :: _ =>
      or_lib (hashByName (str name)) (fun h =>
        let length := Z.quot (intArg bits) 8 in
        if (length <? 0) || (maxSubtleKDFBytes <? length) then Refused "OperationError: invalid derived-bits length"
        else or_lib (hkdf L h (argBytesOr ikm) (argBytesOr salt) (argBytesOr info) length) Answer)
  | _ => Failed
  end.

(** (hash, password, salt, iterations, bits) *)
Definition opPBKDF2Derive (args : list arg) : outcome bytes :=
  match args with
  | name :: pw :: salt :: iter :: bits :: _ =>
      or_lib (hashByName (str name)) (fun h =>
        let iter := intArg iter in
        if (iter <? 1) || (maxSubtlePBKDF2Iter <? iter) then Refused "OperationError: PBKDF2 iterations out of range"
        else
          let length := Z.quot (intArg bits) 8 in
          if (length <? 0) || (maxSubtleKDFBytes <? length) then Refused "OperationError: invalid derived-bits length"
          else Answer (pbkdf2 L (argBytesOr pw) (argBytesOr salt) iter length h))
  | _ => Failed
  end.

End Ops.

(** ** The bounds *)

(** A call of the library, and the parameters the guards admit: those of the
    caps, and for scrypt those whose memory wraps around in int64. *)
Inductive call :=
| CPbkdf2 (pw salt : bytes) (iter n : Z) (h : hash)
| CHkdf (h : hash) (ikm salt info : bytes) (n : Z)
| CScrypt (pw salt : bytes) (N r p n : Z).

Definition run (L : Kdfs) (c : call) : outcome bytes :=
  match c with
  | CPbkdf2 pw salt iter n h => Answer (pbkdf2 L pw salt iter n h)
  | CHkdf h ikm salt info n => or_lib (hkdf L h ikm salt info n) Answer
  | CScrypt pw salt N r p n => or_lib (scrypt L pw salt N r p n) Answer
  end.

Definition bounded (c : call) : Prop :=
  match c with
  | CPbkdf2 _ _ iter n _ => 1 <= iter <= maxPBKDF2Iter ∧ 0 <= n <= maxKDFBytes
  | CHkdf _ _ _ _ n => 0 <= n <= maxKDFBytes
  | CScrypt _ _ N r p n =>
      1 < N ∧ 0 < r ∧ 0 < p ∧ 0 <= n <= maxKDFBytes ∧
      (128 * N * r <= maxScryptMem ∧ 128 * r * p <= maxScryptMem ∧ N * r * p <= maxScryptOps
       ∨ 2 ^ 63 <= 128 * N * r ∨ 2 ^ 63 <= 128 * r * p)
  end.

Definition int64 (z : Z) : Prop := - 2 ^ 63 <= z < 2 ^ 63.

Lemma scrypt_guard N r p :
  int64 N → int64 r → int64 p → 1 < N → 0 < r → 0 < p →
  i64 (i64 (128 * N) * r) <= maxScryptMem → i64 (i64 (128 * r) * p) <= maxScryptMem →
  i64 (i64 (N * r) * p) <= maxScryptOps →
  128 * N * r < 2 ^ 63 → 128 * r * p < 2 ^ 63 →
  128 * N * r <= maxScryptMem ∧ 128 * r * p <= maxScryptMem ∧ N * r * p <= maxScryptOps.
Proof.
  unfold int64, maxScryptMem, maxScryptOps. intros HN Hr Hp HN1 Hr1 Hp1 H1 H2 H3 Hb1 Hb2.
  change (2 ^ 63) with 9223372036854775808 in *.
  assert (128 * N <= 128 * N * r) by nia. unfold i64 in *.
  rewrite (wrapS_small 64 (128 * N)) in H1 by (change (2 ^ (64 - 1)) with 9223372036854775808; lia).
  rewrite (wrapS_small 64 (128 * N * r)) in H1 by (change (2 ^ (64 - 1)) with 9223372036854775808; nia).
  assert (r <= r * p) by nia.
  rewrite (wrapS_small 64 (128 * r)) in H2 by (change (2 ^ (64 - 1)) with 9223372036854775808; lia).
  rewrite (wrapS_small 64 (128 * r * p)) in H2 by (change (2 ^ (64 - 1)) with 9223372036854775808; lia).
  change (32 * 2 ^ 20) with 33554432 in *. change (2 ^ 26) with 67108864 in *.
  assert (0 <= N * r <= 262144) by nia.
  assert (p <= r * p) by nia. assert (p <= 262144) by lia.
  assert (0 <= N * r * p <= 262144 * 262144) by nia.
  rewrite (wrapS_small 64 (N * r)) in H3 by (change (2 ^ (64 - 1)) with 9223372036854775808; lia).
  rewrite (wrapS_small 64 (N * r * p)) in H3 by (change (2 ^ (64 - 1)) with 9223372036854775808; lia).
  lia.
Qed.

(** An operation that makes one call the guards admit, or answers without the
    library. *)
Definition capped (op : Kdfs → outcome bytes) : Prop :=
  (∃ c, bounded c ∧ ∀ L, op L = run L c) ∨ (∃ o, o ≠ Panic ∧ ∀ L, op L = o).

Lemma capped_no (o : outcome bytes) (op : Kdfs → outcome bytes) :
  o ≠ Panic → (∀ L, op L = o) → capped op.
Proof. intros Ho Hop. right. by exists o. Qed.

Lemma capped_call (c : call) (op : Kdfs → outcome bytes) :
  bounded c → (∀ L, op L = run L c) → capped op.
Proof. intros Hc Hop. left. by exists c. Qed.

Lemma opPBKDF2_capped args : capped (fun L => opPBKDF2 L args).
Proof.
  destruct args as [|pw [|salt [|iter [|n [|digest rest]]]]]; try by apply (capped_no Failed). unfold opPBKDF2.
  destruct (_ || _) eqn:H1; [by apply (capped_no (Refused "iterations out of range"))|].
  destruct (_ || _) eqn:H2 in |- *; [by apply (capped_no (Refused "invalid key length"))|].
  destruct (nodeHashByName (str digest)) as [h|]; [|by apply (capped_no LibRefused)]. bool_to_prop.
  by apply (capped_call (CPbkdf2 (valueBytesOr pw) (valueBytesOr salt) (intArg iter) (intArg n) h)).
Qed.

Lemma opPBKDF2Derive_capped args : capped (fun L => opPBKDF2Derive L args).
Proof.
  destruct args as [|name [|pw [|salt [|iter [|n rest]]]]]; try by apply (capped_no Failed). unfold opPBKDF2Derive.
  destruct (hashByName (str name)) as [h|]; [|by apply (capped_no LibRefused)]. cbn [or_lib].
  destruct (_ || _) eqn:H1; [by apply (capped_no (Refused "OperationError: PBKDF2 iterations out of range"))|].
  destruct (_ || _) eqn:H2 in |- *; [by apply (capped_no (Refused "OperationError: invalid derived-bits length"))|].
  bool_to_prop.
  by apply (capped_call (CPbkdf2 (argBytesOr pw) (argBytesOr salt) (intArg iter) (Z.quot (intArg n) 8) h)).
Qed.

Lemma opHKDF_capped args : capped (fun L => opHKDF L args).
Proof.
  destruct args as [|name [|ikm [|salt [|info [|n rest]]]]]; try by apply (capped_no Failed). unfold opHKDF.
  destruct (nodeHashByName (str name)) as [h|]; [|by apply (capped_no LibRefused)]. cbn [or_lib].
  destruct (_ || _) eqn:H1; [by apply (capped_no (Refused "invalid key length"))|]. bool_to_prop.
  by apply (capped_call (CHkdf h (valueBytesOr ikm) (valueBytesOr salt) (valueBytesOr info) (intArg n))).
Qed.

Lemma opHKDFDerive_capped args : capped (fun L => opHKDFDerive L args).
Proof.
  destruct args as [|name [|ikm [|salt [|info [|n rest]]]]]; try by apply (capped_no Failed). unfold opHKDFDerive.
  destruct (hashByName (str name)) as [h|]; [|by apply (capped_no LibRefused)]. cbn [or_lib].
  destruct (_ || _) eqn:H1; [by apply (capped_no (Refused "OperationError: invalid derived-bits length"))|].
  bool_to_prop.
  by apply (capped_call (CHkdf h (argBytesOr ikm) (argBytesOr salt) (argBytesOr info) (Z.quot (intArg n) 8))).
Qed.

(** The parameters scrypt's options give. *)
Lemma getInt_int64 params names dflt :
  (∀ get n v, params = Some get → get n = Some v → int64 v) → int64 dflt → int64 (getInt params names dflt).
Proof.
  intros Hp Hd. unfold getInt. destruct params as [get|]; [|done].
  induction names as [|n names IH]; [done|]. simpl. destruct (get n) as [v|] eqn:Hv; [|done]. simpl. by eapply Hp.
Qed.

Lemma opScrypt_capped args params :
  (∀ get n v, params = Some get → get n = Some v → int64 v) → capped (fun L => opScrypt L args params).
Proof.
  intros Hp. destruct args as [|pw [|salt [|n [|o rest]]]]; try by apply (capped_no Failed). unfold opScrypt.
  pose proof (getInt_int64 params ["cost"; "N"] 16384 Hp ltac:(done)) as HN.
  pose proof (getInt_int64 params ["blockSize"; "r"] 8 Hp ltac:(done)) as Hr.
  pose proof (getInt_int64 params ["parallelization"; "p"] 1 Hp ltac:(done)) as Hq.
  set (N := getInt params ["cost"; "N"] 16384) in *. set (r := getInt params ["blockSize"; "r"] 8) in *.
  set (p := getInt params ["parallelization"; "p"] 1) in *.
  destruct (_ || _) eqn:H1; [by apply (capped_no (Refused "invalid key length"))|].
  destruct (_ || _) eqn:H2 in |- *; [by apply (capped_no (Refused "invalid scrypt parameters"))|].
  destruct (_ || _) eqn:H3 in |- *; [by apply (capped_no (Refused "scrypt parameters exceed the memory limit"))|].
  destruct (maxScryptOps <? _) eqn:H4; [by apply (capped_no (Refused "scrypt parameters exceed the cost limit"))|].
  bool_to_prop.
  apply (capped_call (CScrypt (valueBytesOr pw) (valueBytesOr salt) N r p (intArg n))); [|done]. cbn [bounded]. split_and!; try lia.
  destruct (decide (128 * N * r < 2 ^ 63 ∧ 128 * r * p < 2 ^ 63)) as [[Hb1 Hb2]|Hbig]; [left; by apply scrypt_guard|right; lia].
Qed.

(** C19: A derivation the guest asks for (pbkdf2, scrypt and hkdf of
    node:crypto; HKDF and PBKDF2 of crypto.subtle) makes at most one call of the
    library, and otherwise answers without it, never with a panic. The
    parameters of that call are within the caps, at most 10^8 rounds and 16 MiB
    of output; for scrypt they are a cost, block size and parallelism that either
    keep both buffers to 32 MiB and the work to 2^26 block operations, as exact
    products, or make the size of a buffer pass 2^63, so that the guard's int64
    product has wrapped around. Nothing else gets past the guards; the wrapped
    parameters do, and it is up to the library to refuse them. *)
Theorem derivations_capped (args : list arg) (params : option options) :
  (∀ get n v, params = Some get → get n = Some v → int64 v) →
  capped (fun L => opPBKDF2 L args) ∧ capped (fun L => opScrypt L args params) ∧ capped (fun L => opHKDF L args)
  ∧ capped (fun L => opHKDFDerive L args) ∧ capped (fun L => opPBKDF2Derive L args).
Proof.
  intros Hp. split; [apply opPBKDF2_capped|]. split; [by apply opScrypt_capped|].
  split; [apply opHKDF_capped|]. split; [apply opHKDFDerive_capped|apply opPBKDF2Derive_capped].
Qed.

(** A library that refuses what overflows, and parameters whose products wrap to 0
    in int64 and so pass all the caps of opScrypt. *)
Definition toy_kdfs : Kdfs :=
  MkKdfs (fun _ d => d) (fun _ k d => k ++ d) (fun _ _ _ n _ => replicate (Z.to_nat n) 7)
         (fun _ _ _ _ n => if n <? 0 then None else Some (replicate (Z.to_nat n) 7))
         (fun _ _ N r p n => if (2 ^ 63 <=? 128 * N * r) || (2 ^ 30 <=? r * p) || (n <? 0) then None
                             else Some (replicate (Z.to_nat n) 7)).

Definition wrapping : options := fun n =>
  if String.eqb n "N" then Some (2 ^ 57) else if String.eqb n "r" then Some 128 else None.

Definition scrypt_args : list arg := [bytes_arg (lit "pw"); bytes_arg (lit "salt"); num_arg 64; undef_arg].

Example wrapping_passes_the_caps :
  i64 (i64 (128 * 2 ^ 57) * 128) = 0 ∧ opScrypt toy_kdfs scrypt_args (Some wrapping) = LibRefused.
Proof. split; vm_compute; reflexivity. Qed.

Lemma derivations_capped_witness :
  capped (fun L => opScrypt L scrypt_args (Some wrapping))
  ∧ opScrypt toy_kdfs scrypt_args None = Answer (replicate 64 7).
Proof.
  split; [|vm_compute; reflexivity].
  refine (proj1 (proj2 (derivations_capped scrypt_args (Some wrapping) _))).
  intros get n v [= <-]. unfold wrapping. destruct (String.eqb n "N"); [intros [= <-]; by unfold int64|].
  destruct (String.eqb n "r"); [intros [= <-]; by unfold int64|done].
Defined.
