(* ===== verification/Subtle.v ===== *)
(** crypto.subtle's key table and the operations on it (compat/web/subtle.go and
    RSA-OAEP of subtle2.go): handles, the least recently used eviction,
    and what each operation demands of the key behind a handle.

    math/big integers are [Z], encoding/json and base64 are those of Json.v and
    Encoding.v. The algorithms of Go's crypto packages are a parameter,
    [Crypto]; a random source is an argument of the operation that draws from
    it. *)

From S2P Require Import Prelude GoPath HostArg Encoding Json Kdf.

(** ** Keys *)

(** The curves of crypto/elliptic: DER files may bring keys of P-224 too. *)
Inductive curve := P224 | P256 | P384 | P521.

#[export] Instance curve_eq : EqDecision curve.
Proof. solve_decision. Defined.

Definition BitSize (c : curve) : Z := match c with P224 => 224 | P256 => 256 | P384 => 384 | P521 => 521 end.

(** curveByName, curveName *)
Definition curveByName (name : bytes) : option curve :=
  if bool_decide (name = lit "P-256") then Some P256
  else if bool_decide (name = lit "P-384") then Some P384
  else if bool_decide (name = lit "P-521") then Some P521
  else None.

Definition curveName (c : curve) : bytes :=
  match c with P256 => lit "P-256" | P384 => lit "P-384" | P521 => lit "P-521" | P224 => [] end.

(** (pub.Curve.Params().BitSize + 7) / 8 *)
Definition curve_size (c : curve) : nat := Z.to_nat ((BitSize c + 7) / 8).

Record ecPublic := MkEcPublic { Curve : curve; X : Z; Y : Z }.
Record ecPrivate := MkEcPrivate { ecPublicKey : ecPublic; ecD : Z }.
Record rsaPublic := MkRsaPublic { N : Z; E : Z }.
Record rsaPrivate := MkRsaPrivate { rsaPublicKey : rsaPublic; rsaD : Z; Primes : list Z; Dp : Z; Dq : Z; Qinv : Z }.

(** What an x509 container holds. *)
Inductive anyPrivate := PrivEc (k : ecPrivate) | PrivRsa (k : rsaPrivate) | PrivEd (k : bytes) | PrivOther.
Inductive anyPublic := PubEc (k : ecPublic) | PubRsa (k : rsaPublic) | PubEd (k : bytes) | PubOther.

(** type subtleKey: a nil field is [None]. *)
Record subtleKey := MkKey {
  hmacKey : option bytes;
  rsaPriv : option rsaPrivate;
  rsaPub : option rsaPublic;
  ecPriv : option ecPrivate;
  ecPub : option ecPublic;
  edPriv : option bytes;
  edPub : option bytes
}.

Definition key_hmac k := MkKey (Some k) None None None None None None.
Definition key_rsaPriv k := MkKey None (Some k) None None None None None.
Definition key_rsaPub k := MkKey None None (Some k) None None None None.
Definition key_ecPriv k := MkKey None None None (Some k) None None None.
Definition key_ecPub k := MkKey None None None None (Some k) None None.
Definition key_edPriv k := MkKey None None None None None (Some k) None.
Definition key_edPub k := MkKey None None None None None None (Some k).

(** ** Go's crypto packages *)

Record Crypto := MkCrypto {
  kdfs :> Kdfs;
  IsOnCurve : curve → Z → Z → bool;
  ecGenerateKey : bytes → curve → option ecPrivate;
  ecdsaSign : bytes → ecPrivate → bytes → option (Z * Z);
  ecdsaVerify : ecPublic → bytes → Z → Z → bool;
  rsaGenerateKey : bytes → Z → option rsaPrivate;
  Precompute : rsaPrivate → rsaPrivate;
  Validate : rsaPrivate → bool;
  SignPKCS1v15 : rsaPrivate → hash → bytes → option bytes;
  VerifyPKCS1v15 : rsaPublic → hash → bytes → bytes → bool;
  SignPSS : bytes → rsaPrivate → hash → bytes → Z → option bytes;
  VerifyPSS : rsaPublic → hash → bytes → bytes → Z → bool;
  EncryptOAEP : bytes → hash → rsaPublic → bytes → bytes → option bytes;
  DecryptOAEP : hash → rsaPrivate → bytes → bytes → option bytes;
  edGenerateKey : bytes → option (bytes * bytes);      (** public, private *)
  NewKeyFromSeed : bytes → bytes;
  edSign : bytes → bytes → bytes;
  edVerify : bytes → bytes → bytes → bool;
  ParsePKCS8 : bytes → option anyPrivate;
  ParsePKIX : bytes → option anyPublic;
  MarshalPKCS8 : anyPrivate → option bytes;
  MarshalPKIX : anyPublic → option bytes
}.

(** ** The table *)

Definition maxSubtleKeys : nat := 1024.

(** [elems] maps an id to its node of the list; a node is known by the id it
    holds. [lru] is the list, most recently used first. *)
Record subtleAPI := MkApi { keys : gmap Z subtleKey; elems : gset Z; lru : list Z }.

Definition newSubtleAPI : subtleAPI := MkApi ∅ ∅ [].

(** The list without the node of [id]. *)
Definition list_remove_id (id : Z) (l : list Z) : list Z := filter (fun x => x ≠ id) l.

(** One turn of put's loop: [None] when the id drawn is 0 or taken. *)
Definition put_id (random : Z) (k : subtleKey) (s : subtleAPI) : option (Z * subtleAPI) :=
  let id := Z.land random (2 ^ 52 - 1) in
  if (id =? 0) || bool_decide (is_Some (keys s !! id)) then None
  else
    let s1 := MkApi (<[id := k]> (keys s)) ({[id]} ∪ elems s) (id :: lru s) in
    Some (id,
      if (maxSubtleKeys <? size (keys s1))%nat then
        match last (lru s1) with
        | Some old => MkApi (delete old (keys s1)) (elems s1 ∖ {[old]}) (removelast (lru s1))
        | None => s1
        end
      else s1).

(** put, with what randUint64 answers in turn; [None]: still drawing. *)
Fixpoint put (draws : list Z) (k : subtleKey) (s : subtleAPI) : option (Z * subtleAPI) :=
  match draws with
  | [] => None
  | r :: draws' => match put_id r k s with Some res => Some res | None => put draws' k s end
  end.

(** int64(v.Float()) is [num]. *)
Definition get (v : arg) (s : subtleAPI) : option subtleKey * subtleAPI :=
  let id := num v in
  match keys s !! id with
  | None => (None, s)
  | Some k =>
      (Some k, if bool_decide (id ∈ elems s) then MkApi (keys s) (elems s) (id :: list_remove_id id (lru s)) else s)
  end.

Definition reset (s : subtleAPI) : subtleAPI := MkApi ∅ ∅ [].

(** ** Operations: a table, and how they end *)

(** [None] while put is still drawing. *)
Definition M (A : Type) : Type := subtleAPI → option (outcome A * subtleAPI).

Definition stop {A} (o : outcome A) : M A := fun s => Some (o, s).

#[export] Instance M_ret : MRet M := fun A a s => Some (Answer a, s).

#[export] Instance M_bind : MBind M := fun A B f m s =>
  match m s with
  | None => None
  | Some (Answer a, s') => f a s'
  | Some (Refused t, s') => Some (Refused t, s')
  | Some (RefusedName t q, s') => Some (RefusedName t q, s')
  | Some (LibRefused, s') => Some (LibRefused, s')
  | Some (Failed, s') => Some (Failed, s')
  | Some (Panic, s') => Some (Panic, s')
  end.

(** [x, err := f(); if err != nil { return nil, err }] *)
Definition need {A} (o : option A) : M A := match o with Some a => mret a | None => stop Failed end.

(** [if err != nil { return subtleErr(err.Error()), nil }] *)
Definition need_lib {A} (o : option A) : M A := match o with Some a => mret a | None => stop LibRefused end.

(** args[i]: a panic when there is none. *)
Definition arg_at (args : list arg) (i : nat) : M arg := match args !! i with Some v => mret v | None => stop Panic end.

(** [if len(args) < n { return nil, err }] *)
Definition at_least (n : nat) (args : list arg) : M unit := if (length args <? n)%nat then stop Failed else mret tt.

Definition put_key (draws : list Z) (k : subtleKey) : M Z := fun s =>
  match put draws k s with Some (id, s') => Some (Answer id, s') | None => None end.

Definition get_key (v : arg) : M subtleKey := fun s =>
  let '(k, s') := get v s in match k with Some k => Some (Answer k, s') | None => Some (Failed, s') end.

(** The same, the miss being an error object. *)
Definition get_key_lib (v : arg) : M subtleKey := fun s =>
  let '(k, s') := get v s in match k with Some k => Some (Answer k, s') | None => Some (LibRefused, s') end.

(** What an operation answers. *)
Inductive extra := NoExtra | Crv (name : bytes) | Bits (n : Z).

Inductive answer :=
| ABytes (b : bytes)
| AText (s : bytes)
| ABool (b : bool)
| AId (id : Z)
| APair (priv pub : Z)
| AKey (id : Z) (private : bool) (x : extra).

(** ** JWK documents *)

Record jwkDoc := MkJwk {
  jKty : bytes; jCrv : bytes; jX : bytes; jY : bytes; jD : bytes; jN : bytes; jE : bytes;
  jP : bytes; jQ : bytes; jDp : bytes; jDq : bytes; jQi : bytes; jK : bytes; jExt : bool
}.

(** A field of type bool. *)
Definition field_bool (name : string) (ms : list (bytes * json)) : option bool :=
  foldl (fun acc v => match acc, v with
                      | Some _, JBool b => Some b
                      | Some b, JNull => Some b
                      | _, _ => None
                      end) (Some false) (Json.values name ms).

(** json.Unmarshal([]byte(s), &j) *)
Definition unmarshal_jwk (s : bytes) : option jwkDoc :=
  ms ← Json.members s;
  kty ← Json.field_string "kty" ms; crv ← Json.field_string "crv" ms;
  x ← Json.field_string "x" ms; y ← Json.field_string "y" ms; d ← Json.field_string "d" ms;
  n ← Json.field_string "n" ms; e ← Json.field_string "e" ms;
  p ← Json.field_string "p" ms; q ← Json.field_string "q" ms;
  dp ← Json.field_string "dp" ms; dq ← Json.field_string "dq" ms; qi ← Json.field_string "qi" ms;
  k ← Json.field_string "k" ms; ext ← field_bool "ext" ms;
  Some (MkJwk kty crv x y d n e p q dp dq qi k ext).

(** A field of json.Marshal(j); [omit] is its omitempty. *)
Definition text_field (omit : bool) (name : string) (s : bytes) : list (bytes * bytes) :=
  if omit && bool_decide (s = []) then [] else [(lit name, Json.marshal_string s)].

Definition jwk_fields (j : jwkDoc) : list (bytes * bytes) :=
  text_field false "kty" (jKty j) ++ text_field true "crv" (jCrv j) ++ text_field true "x" (jX j)
  ++ text_field true "y" (jY j) ++ text_field true "d" (jD j) ++ text_field true "n" (jN j)
  ++ text_field true "e" (jE j) ++ text_field true "p" (jP j) ++ text_field true "q" (jQ j)
  ++ text_field true "dp" (jDp j) ++ text_field true "dq" (jDq j) ++ text_field true "qi" (jQi j)
  ++ text_field true "k" (jK j) ++ (if jExt j then [(lit "ext", lit "true")] else []).

Definition marshal_jwk (j : jwkDoc) : bytes := Json.object_text (jwk_fields j).

(** b64uBig *)
Definition b64uBig (s : bytes) : option Z :=
  if bool_decide (s = []) then None else be <$> DecodeString s.

(** bigB64u *)
Definition bigB64u (n : Z) (size : nat) : bytes :=
  let b := big_bytes n in
  EncodeToString (if (length b <? size)%nat then replicate (size - length b) 0 ++ b else b).

(** big.Int.BitLen *)
Definition BitLen (n : Z) : Z := if n =? 0 then 0 else Z.log2 n + 1.

Definition maxRSAModulusBits : Z := 8192.

(** checkRSAModulus, of a modulus that is there. *)
Definition checkRSAModulus (n : Z) : bool := BitLen n <=? maxRSAModulusBits.

Section Ops.
Context (C : Crypto).

Definition hashSum (h : hash) (data : bytes) : bytes := sum C h data.

(** ** HMAC *)

Definition opHMACImport (draws : list Z) (args : list arg) : M answer :=
  at_least 1 args ≫= fun _ =>
  v ← arg_at args 0; raw ← need (argBytes v);
  id ← put_key draws (key_hmac raw);
  mret (AId id).

Definition opHMACExport (args : list arg) : M answer :=
  v ← arg_at args 0; k ← get_key v;
  raw ← need (hmacKey k);
  mret (ABytes raw).

Definition hmacSum (hashName : bytes) (keyV dataV : arg) : M bytes :=
  h ← need (hashByName hashName);
  k ← get_key keyV;
  key ← need (hmacKey k);
  data ← need (argBytes dataV);
  mret (hmac C h key data).

Definition opHMACSign (args : list arg) : M answer :=
  at_least 3 args ≫= fun _ =>
  name ← arg_at args 0; key ← arg_at args 1; data ← arg_at args 2;
  mac ← hmacSum (str name) key data;
  mret (ABytes mac).

Definition opHMACVerify (args : list arg) : M answer :=
  at_least 4 args ≫= fun _ =>
  name ← arg_at args 0; key ← arg_at args 1; sig ← arg_at args 2; data ← arg_at args 3;
  sig ← need (argBytes sig);
  mac ← hmacSum (str name) key data;
  mret (ABool (bool_decide (sig = mac))).

(** ** ECDSA *)

Definition opECGenerate (rnd : bytes) (draws draws' : list Z) (args : list arg) : M answer :=
  at_least 1 args ≫= fun _ =>
  name ← arg_at args 0;
  c ← need (curveByName (str name));
  priv ← need (ecGenerateKey C rnd c);
  a ← put_key draws (key_ecPriv priv);
  b ← put_key draws' (key_ecPub (ecPublicKey priv));
  mret (APair a b).

Definition opECImportJWK (draws : list Z) (args : list arg) : M answer :=
  at_least 1 args ≫= fun _ =>
  doc ← arg_at args 0;
  j ← need (unmarshal_jwk (str doc));
  if bool_decide (jKty j ≠ lit "EC") then stop Failed
  else
    c ← need (curveByName (jCrv j));
    x ← need (b64uBig (jX j)); y ← need (b64uBig (jY j));
    let pub := MkEcPublic c x y in
    if negb (IsOnCurve C c x y) then stop Failed
    else if bool_decide (jD j = []) then
      id ← put_key draws (key_ecPub pub); mret (AKey id false (Crv (jCrv j)))
    else
      d ← need (b64uBig (jD j));
      id ← put_key draws (key_ecPriv (MkEcPrivate pub d));
      mret (AKey id true (Crv (jCrv j))).

Definition opECImportDER (draws : list Z) (args : list arg) : M answer :=
  at_least 2 args ≫= fun _ =>
  format ← arg_at args 0; v ← arg_at args 1;
  der ← need (argBytes v);
  if bool_decide (str format = lit "pkcs8") then
    match ParsePKCS8 C der with
    | Some (PrivEc priv) =>
        id ← put_key draws (key_ecPriv priv); mret (AKey id true (Crv (curveName (Curve (ecPublicKey priv)))))
    | _ => stop Failed
    end
  else if bool_decide (str format = lit "spki") then
    match ParsePKIX C der with
    | Some (PubEc pub) => id ← put_key draws (key_ecPub pub); mret (AKey id false (Crv (curveName (Curve pub))))
    | _ => stop Failed
    end
  else stop Failed.

(** A public key, or the public half of a private one. *)
Definition ec_public (k : subtleKey) : option ecPublic :=
  match ecPub k with Some pub => Some pub | None => ecPublicKey <$> ecPriv k end.

Definition ec_jwk (pub : ecPublic) (d : bytes) : jwkDoc :=
  let size := curve_size (Curve pub) in
  MkJwk (lit "EC") (curveName (Curve pub)) (bigB64u (X pub) size) (bigB64u (Y pub) size) d [] [] [] [] [] [] [] [] true.

Definition opECExportJWK (args : list arg) : M answer :=
  v ← arg_at args 0; k ← get_key v;
  match ecPriv k, ecPub k with
  | Some priv, _ =>
      let pub := ecPublicKey priv in
      mret (AText (marshal_jwk (ec_jwk pub (bigB64u (ecD priv) (curve_size (Curve pub))))))
  | None, Some pub => mret (AText (marshal_jwk (ec_jwk pub [])))
  | None, None => stop Failed
  end.

Definition opECExportDER (args : list arg) : M answer :=
  at_least 2 args ≫= fun _ =>
  format ← arg_at args 0; v ← arg_at args 1; k ← get_key v;
  if bool_decide (str format = lit "pkcs8") then
    priv ← need (ecPriv k); der ← need (MarshalPKCS8 C (PrivEc priv)); mret (ABytes der)
  else if bool_decide (str format = lit "spki") then
    pub ← need (ec_public k); der ← need (MarshalPKIX C (PubEc pub)); mret (ABytes der)
  else stop Failed.

(** [r.FillBytes(sig[:size]); sv.FillBytes(sig[size:])] *)
Definition opECSign (rnd : bytes) (args : list arg) : M answer :=
  at_least 3 args ≫= fun _ =>
  name ← arg_at args 0; v ← arg_at args 1; d ← arg_at args 2;
  h ← need (hashByName (str name));
  k ← get_key v;
  priv ← need (ecPriv k);
  data ← need (argBytes d);
  rs ← need (ecdsaSign C rnd priv (hashSum h data));
  let size := curve_size (Curve (ecPublicKey priv)) in
  match fill_bytes size rs.1, fill_bytes size rs.2 with
  | Some r, Some sv => mret (ABytes (r ++ sv))
  | _, _ => stop Panic
  end.

Definition opECVerify (args : list arg) : M answer :=
  at_least 4 args ≫= fun _ =>
  name ← arg_at args 0; v ← arg_at args 1; sg ← arg_at args 2; d ← arg_at args 3;
  h ← need (hashByName (str name));
  k ← get_key v;
  pub ← need (ec_public k);
  sig ← need (argBytes sg);
  data ← need (argBytes d);
  let size := curve_size (Curve pub) in
  if negb (zlen sig =? 2 * Z.of_nat size) then mret (ABool false)
  else mret (ABool (ecdsaVerify C pub (hashSum h data) (be (take size sig)) (be (drop size sig)))).

(** ** RSA *)

Definition opRSAGenerate (rnd : bytes) (draws draws' : list Z) (args : list arg) : M answer :=
  at_least 1 args ≫= fun _ =>
  v ← arg_at args 0;
  let bits := intArg v in
  if (bits <? 1024) || (8192 <? bits) then stop Failed
  else
    priv ← need (rsaGenerateKey C rnd bits);
    a ← put_key draws (key_rsaPriv priv);
    b ← put_key draws' (key_rsaPub (rsaPublicKey priv));
    mret (APair a b).

Definition opRSAImportJWK (draws : list Z) (args : list arg) : M answer :=
  at_least 1 args ≫= fun _ =>
  doc ← arg_at args 0;
  j ← need (unmarshal_jwk (str doc));
  if bool_decide (jKty j ≠ lit "RSA") then stop Failed
  else
    n ← need (b64uBig (jN j)); e ← need (b64uBig (jE j));
    if negb (checkRSAModulus n) then stop Failed
    else if negb (e <? 2 ^ 63) || (e <? 3) || (32 <? BitLen e) then stop Failed
    else
      let pub := MkRsaPublic n e in
      if bool_decide (jD j = []) then
        id ← put_key draws (key_rsaPub pub); mret (AKey id false (Bits (BitLen n)))
      else
        d ← need (b64uBig (jD j)); p ← need (b64uBig (jP j)); q ← need (b64uBig (jQ j));
        if existsb (fun v => maxRSAModulusBits <? BitLen v) [d; p; q] then stop Failed
        else
          let priv := Precompute C (MkRsaPrivate pub d [p; q] 0 0 0) in
          if negb (Validate C priv) then stop Failed
          else id ← put_key draws (key_rsaPriv priv); mret (AKey id true (Bits (BitLen n))).

Definition opRSAImportDER (draws : list Z) (args : list arg) : M answer :=
  at_least 2 args ≫= fun _ =>
  format ← arg_at args 0; v ← arg_at args 1;
  der ← need (argBytes v);
  if bool_decide (str format = lit "pkcs8") then
    match ParsePKCS8 C der with
    | Some (PrivRsa priv) =>
        if negb (checkRSAModulus (N (rsaPublicKey priv))) then stop Failed
        else id ← put_key draws (key_rsaPriv priv); mret (AKey id true (Bits (BitLen (N (rsaPublicKey priv)))))
    | _ => stop Failed
    end
  else if bool_decide (str format = lit "spki") then
    match ParsePKIX C der with
    | Some (PubRsa pub) =>
        if negb (checkRSAModulus (N pub)) then stop Failed
        else id ← put_key draws (key_rsaPub pub); mret (AKey id false (Bits (BitLen (N pub))))
    | _ => stop Failed
    end
  else stop Failed.

Definition rsa_public (k : subtleKey) : option rsaPublic :=
  match rsaPub k with Some pub => Some pub | None => rsaPublicKey <$> rsaPriv k end.

Definition rsa_jwk (pub : rsaPublic) (d p q dp dq qi : bytes) : jwkDoc :=
  MkJwk (lit "RSA") [] [] [] d (bigB64u (N pub) 0) (bigB64u (E pub) 0) p q dp dq qi [] true.

Definition opRSAExportJWK (args : list arg) : M answer :=
  v ← arg_at args 0; k ← get_key v;
  match rsaPriv k, rsaPub k with
  | Some priv, _ =>
      match Primes priv with
      | p :: q :: _ =>
          mret (AText (marshal_jwk (rsa_jwk (rsaPublicKey priv) (bigB64u (rsaD priv) 0) (bigB64u p 0) (bigB64u q 0)
                                      (bigB64u (Dp priv) 0) (bigB64u (Dq priv) 0) (bigB64u (Qinv priv) 0))))
      | _ => stop Panic
      end
  | None, Some pub => mret (AText (marshal_jwk (rsa_jwk pub [] [] [] [] [] [])))
  | None, None => stop Failed
  end.

Definition opRSAExportDER (args : list arg) : M answer :=
  at_least 2 args ≫= fun _ =>
  format ← arg_at args 0; v ← arg_at args 1; k ← get_key v;
  if bool_decide (str format = lit "pkcs8") then
    priv ← need (rsaPriv k); der ← need (MarshalPKCS8 C (PrivRsa priv)); mret (ABytes der)
  else if bool_decide (str format = lit "spki") then
    pub ← need (rsa_public k); der ← need (MarshalPKIX C (PubRsa pub)); mret (ABytes der)
  else stop Failed.

(** rsaPSSOptions: the salt length, -1 for that of the hash. *)
Definition rsaPSSOptions (saltLen : Z) : option Z :=
  if saltLen =? 0 then None else Some (if 0 <? saltLen then saltLen else -1).

Definition pss_refusal : string :=
  "OperationError: RSA-PSS saltLength 0 is not supported (Go crypto/rsa cannot express a zero-length PSS salt); use a positive saltLength or the default".

Definition opRSASign (rnd : bytes) (args : list arg) : M answer :=
  at_least 5 args ≫= fun _ =>
  scheme ← arg_at args 0; name ← arg_at args 1; salt ← arg_at args 2; v ← arg_at args 3; d ← arg_at args 4;
  h ← need (hashByName (str name));
  k ← get_key v;
  priv ← need (rsaPriv k);
  data ← need (argBytes d);
  let digest := hashSum h data in
  if bool_decide (str scheme = lit "pkcs1") then
    sig ← need (SignPKCS1v15 C priv h digest); mret (ABytes sig)
  else if bool_decide (str scheme = lit "pss") then
    match rsaPSSOptions (intArg salt) with
    | None => stop (Refused pss_refusal)
    | Some opts => sig ← need (SignPSS C rnd priv h digest opts); mret (ABytes sig)
    end
  else stop Failed.

Definition opRSAVerify (args : list arg) : M answer :=
  at_least 6 args ≫= fun _ =>
  scheme ← arg_at args 0; name ← arg_at args 1; salt ← arg_at args 2; v ← arg_at args 3; sg ← arg_at args 4;
  d ← arg_at args 5;
  h ← need (hashByName (str name));
  k ← get_key v;
  pub ← need (rsa_public k);
  sig ← need (argBytes sg);
  data ← need (argBytes d);
  let digest := hashSum h data in
  if bool_decide (str scheme = lit "pkcs1") then mret (ABool (VerifyPKCS1v15 C pub h digest sig))
  else if bool_decide (str scheme = lit "pss") then
    match rsaPSSOptions (intArg salt) with
    | None => stop (Refused pss_refusal)
    | Some opts => mret (ABool (VerifyPSS C pub h digest sig opts))
    end
  else stop Failed.

(** (encrypt, key, hash, data, label?) *)
Definition opRSAOAEP (rnd : bytes) (args : list arg) : M answer :=
  at_least 4 args ≫= fun _ =>
  enc ← arg_at args 0; v ← arg_at args 1; name ← arg_at args 2; d ← arg_at args 3;
  k ← get_key_lib v;
  h ← need_lib (hashByName (str name));
  data ← need (argBytes d);
  let label := opt_arg args 4 argBytesOr [] in
  if truth enc then
    match rsa_public k with
    | None => stop (Refused "not an RSA key")
    | Some pub => ct ← need_lib (EncryptOAEP C rnd h pub data label); mret (ABytes ct)
    end
  else
    match rsaPriv k with
    | None => stop (Refused "decrypt needs an RSA private key")
    | Some priv =>
        match DecryptOAEP C h priv data label with
        | None => stop (Refused "OperationError: decryption failed")
        | Some pt => mret (ABytes pt)
        end
    end.

(** ** Ed25519 *)

Definition PublicKeySize : Z := 32.
Definition SeedSize : Z := 32.

(** priv.Seed() and priv.Public(): the two halves of a private key. *)
Definition ed_seed (priv : bytes) : bytes := take 32 priv.
Definition ed_of_private (priv : bytes) : bytes := drop 32 priv.

Definition ed_public (k : subtleKey) : option bytes :=
  match edPub k with Some pub => Some pub | None => ed_of_private <$> edPriv k end.

Definition opEdGenerate (rnd : bytes) (draws draws' : list Z) : M answer :=
  pp ← need (edGenerateKey C rnd);
  a ← put_key draws (key_edPriv pp.2);
  b ← put_key draws' (key_edPub pp.1);
  mret (APair a b).

Definition opEdImport (draws : list Z) (args : list arg) : M answer :=
  at_least 2 args ≫= fun _ =>
  format ← arg_at args 0; v ← arg_at args 1;
  if bool_decide (str format = lit "jwk") then
    j ← need (unmarshal_jwk (str v));
    if bool_decide (jKty j ≠ lit "OKP") || bool_decide (jCrv j ≠ lit "Ed25519") then stop Failed
    else
      x ← need (DecodeString (jX j));
      if negb (zlen x =? PublicKeySize) then stop Failed
      else if bool_decide (jD j = []) then id ← put_key draws (key_edPub x); mret (AKey id false NoExtra)
      else
        seed ← need (DecodeString (jD j));
        if negb (zlen seed =? SeedSize) then stop Failed
        else id ← put_key draws (key_edPriv (NewKeyFromSeed C seed)); mret (AKey id true NoExtra)
  else if bool_decide (str format = lit "raw") then
    x ← need (argBytes v);
    if negb (zlen x =? PublicKeySize) then stop Failed
    else id ← put_key draws (key_edPub x); mret (AKey id false NoExtra)
  else if bool_decide (str format = lit "pkcs8") then
    der ← need (argBytes v);
    match ParsePKCS8 C der with
    | Some (PrivEd priv) => id ← put_key draws (key_edPriv priv); mret (AKey id true NoExtra)
    | _ => stop Failed
    end
  else if bool_decide (str format = lit "spki") then
    der ← need (argBytes v);
    match ParsePKIX C der with
    | Some (PubEd pub) => id ← put_key draws (key_edPub pub); mret (AKey id false NoExtra)
    | _ => stop Failed
    end
  else stop Failed.

Definition ed_jwk (pub d : bytes) : jwkDoc :=
  MkJwk (lit "OKP") (lit "Ed25519") (EncodeToString pub) [] d [] [] [] [] [] [] [] [] true.

Definition opEdExport (args : list arg) : M answer :=
  at_least 2 args ≫= fun _ =>
  format ← arg_at args 0; v ← arg_at args 1; k ← get_key v;
  pub ← need (ed_public k);
  if bool_decide (str format = lit "jwk") then
    let d := match edPriv k with Some priv => EncodeToString (ed_seed priv) | None => [] end in
    mret (AText (marshal_jwk (ed_jwk pub d)))
  else if bool_decide (str format = lit "raw") then mret (ABytes pub)
  else if bool_decide (str format = lit "pkcs8") then
    priv ← need (edPriv k); der ← need (MarshalPKCS8 C (PrivEd priv)); mret (ABytes der)
  else if bool_decide (str format = lit "spki") then
    der ← need (MarshalPKIX C (PubEd pub)); mret (ABytes der)
  else stop Failed.

Definition opEdSign (args : list arg) : M answer :=
  at_least 2 args ≫= fun _ =>
  v ← arg_at args 0; d ← arg_at args 1; k ← get_key v;
  priv ← need (edPriv k);
  data ← need (argBytes d);
  mret (ABytes (edSign C priv data)).

Definition opEdVerify (args : list arg) : M answer :=
  at_least 3 args ≫= fun _ =>
  v ← arg_at args 0; sg ← arg_at args 1; d ← arg_at args 2; k ← get_key v;
  pub ← need (ed_public k);
  sig ← need (argBytes sg);
  data ← need (argBytes d);
  mret (ABool (edVerify C pub data sig)).

(** ** The operations a guest can call, with what they draw *)

Inductive call :=
| HMACImport | HMACExport | HMACSign | HMACVerify
| ECGenerate | ECImportJWK | ECImportDER | ECExportJWK | ECExportDER | ECSign | ECVerify
| RSAGenerate | RSAImportJWK | RSAImportDER | RSAExportJWK | RSAExportDER | RSASign | RSAVerify | RSAOAEP
| EdGenerate | EdImport | EdExport | EdSign | EdVerify.

Definition ops (c : call) (rnd : bytes) (draws draws' : list Z) (args : list arg) : M answer :=
  match c with
  | HMACImport => opHMACImport draws args
  | HMACExport => opHMACExport args
  | HMACSign => opHMACSign args
  | HMACVerify => opHMACVerify args
  | ECGenerate => opECGenerate rnd draws draws' args
  | ECImportJWK => opECImportJWK draws args
  | ECImportDER => opECImportDER draws args
  | ECExportJWK => opECExportJWK args
  | ECExportDER => opECExportDER args
  | ECSign => opECSign rnd args
  | ECVerify => opECVerify args
  | RSAGenerate => opRSAGenerate rnd draws draws' args
  | RSAImportJWK => opRSAImportJWK draws args
  | RSAImportDER => opRSAImportDER draws args
  | RSAExportJWK => opRSAExportJWK args
  | RSAExportDER => opRSAExportDER args
  | RSASign => opRSASign rnd args
  | RSAVerify => opRSAVerify args
  | RSAOAEP => opRSAOAEP rnd args
  | EdGenerate => opEdGenerate rnd draws draws'
  | EdImport => opEdImport draws args
  | EdExport => opEdExport args
  | EdSign => opEdSign args
  | EdVerify => opEdVerify args
  end.

End Ops.

(** ** The shape of the table *)

(** Of the seven fields exactly one is set. *)
Definition one_kind (k : subtleKey) : Prop :=
  let set {A} (o : option A) := match o with Some _ => 1%nat | None => 0%nat end in
  (set (hmacKey k) + set (rsaPriv k) + set (rsaPub k) + set (ecPriv k) + set (ecPub k) + set (edPriv k)
   + set (edPub k))%nat = 1%nat.

Record wf_upto (n : nat) (s : subtleAPI) : Prop := {
  wf_nodup : NoDup (lru s);
  wf_lru : ∀ id, id ∈ lru s ↔ is_Some (keys s !! id);
  wf_elems : ∀ id, id ∈ elems s ↔ is_Some (keys s !! id);
  wf_size : (length (lru s) <= n)%nat;
  wf_key : ∀ id k, keys s !! id = Some k → 0 < id < 2 ^ 52 ∧ one_kind k
}.

Definition wf : subtleAPI → Prop := wf_upto maxSubtleKeys.

Lemma wf_new : wf newSubtleAPI.
Proof.
  split; simpl.
  - constructor.
  - intros id. rewrite lookup_empty. split; [by intros ?%not_elem_of_nil|by intros [? ?]].
  - intros id. rewrite lookup_empty. split; [set_solver|by intros [? ?]].
  - lia.
  - intros id k. by rewrite lookup_empty.
Qed.

Lemma lru_size s : NoDup (lru s) → (∀ id, id ∈ lru s ↔ is_Some (keys s !! id)) → size (keys s) = length (lru s).
Proof.
  intros Hn Hl. rewrite <-(size_dom (D := gset Z)), <-(size_list_to_set (C := gset Z) (lru s)) by done. f_equal.
  apply set_eq. intros id. by rewrite elem_of_dom, elem_of_list_to_set, Hl.
Qed.

Lemma elem_remove_id x id l : x ∈ list_remove_id id l ↔ x ≠ id ∧ x ∈ l.
Proof. unfold list_remove_id. rewrite list_elem_of_filter; done. Qed.

Lemma remove_id_absent id l : id ∉ l → list_remove_id id l = l.
Proof.
  intros Hid. unfold list_remove_id. induction l as [|x l IH]; [done|]. apply not_elem_of_cons in Hid as [Hx Hl].
  rewrite filter_cons_True by done. by rewrite IH.
Qed.

Lemma remove_id_length id l : NoDup l → id ∈ l → S (length (list_remove_id id l)) = length l.
Proof.
  intros Hn Hid. induction Hn as [|x l Hx Hn IH]; [by apply not_elem_of_nil in Hid|].
  unfold list_remove_id in *. destruct (decide (x = id)) as [->|Hne].
  - rewrite filter_cons_False by (intros H; by apply H). fold (list_remove_id id l). by rewrite remove_id_absent.
  - rewrite filter_cons_True by done. simpl. rewrite IH; [done|]. apply elem_of_cons in Hid as [->|?]; done.
Qed.

Lemma wf_get v s : wf s → wf (get v s).2.
Proof.
  intros H. unfold get. destruct (keys s !! num v) as [k|] eqn:Hk; [|done]. simpl.
  case_bool_decide as He; [|done]. destruct H as [Hn Hl Hel Hs Hkey].
  assert (Hin : num v ∈ lru s) by (apply Hl; by eexists). split; simpl.
  - constructor; [rewrite elem_remove_id; naive_solver|]. by apply NoDup_filter.
  - intros id. rewrite elem_of_cons, elem_remove_id, <-Hl. destruct (decide (id = num v)) as [->|]; naive_solver.
  - done.
  - by rewrite remove_id_length.
  - done.
Qed.

Lemma last_split {A} (l : list A) x : last l = Some x → l = removelast l ++ [x].
Proof.
  intros Hl. apply last_Some in Hl as [l' ->]. by rewrite removelast_last.
Qed.

(** A new entry at the front. *)
Definition push (id : Z) (k : subtleKey) (s : subtleAPI) : subtleAPI :=
  MkApi (<[id := k]> (keys s)) ({[id]} ∪ elems s) (id :: lru s).

(** The oldest one dropped. *)
Definition evict (old : Z) (s : subtleAPI) : subtleAPI :=
  MkApi (delete old (keys s)) (elems s ∖ {[old]}) (removelast (lru s)).

Lemma put_id_eq r k s id s' :
  wf s → put_id r k s = Some (id, s') →
  id = Z.land r (2 ^ 52 - 1) ∧ id ≠ 0 ∧ keys s !! id = None
  ∧ s' = if (maxSubtleKeys <? length (lru (push id k s)))%nat then
           match last (lru (push id k s)) with Some old => evict old (push id k s) | None => push id k s end
         else push id k s.
Proof.
  intros [Hn Hl _ _ _]. unfold put_id. set (i := Z.land r (2 ^ 52 - 1)). destruct (_ || _) eqn:Hg; [done|].
  bool_to_prop. assert (Hfresh : keys s !! i = None) by by apply eq_None_not_Some.
  assert (Hsz : size (<[i := k]> (keys s)) = length (lru (push i k s))).
  { rewrite map_size_insert_None by done. simpl. by rewrite lru_size. }
  simpl keys. rewrite Hsz. fold (push i k s). by intros [= <- <-].
Qed.

Lemma wf_push n id k s :
  wf_upto n s → one_kind k → 0 < id < 2 ^ 52 → keys s !! id = None → wf_upto (S n) (push id k s).
Proof.
  intros [Hn Hl Hel Hsz Hkey] Hk Hid Hfresh. split; simpl.
  - constructor; [rewrite Hl, Hfresh; by intros [? ?]|done].
  - intros x. rewrite elem_of_cons, lookup_insert_is_Some, Hl. destruct (decide (x = id)); naive_solver.
  - intros x. rewrite elem_of_union, elem_of_singleton, lookup_insert_is_Some, Hel.
    destruct (decide (x = id)); naive_solver.
  - lia.
  - intros x y. rewrite lookup_insert_Some. intros [[<- <-]|[_ Hx]]; [done|by apply Hkey].
Qed.

Lemma wf_evict n old s : wf_upto (S n) s → last (lru s) = Some old → wf_upto n (evict old s).
Proof.
  intros [Hn Hl Hel Hsz Hkey] Hlast. apply last_split in Hlast. rewrite Hlast in Hn.
  apply NoDup_app in Hn as (Hnr & Hdis & _).
  assert (Hold : old ∉ removelast (lru s)) by (intros Ho; apply (Hdis _ Ho); by apply list_elem_of_singleton).
  assert (Hmem : ∀ x, x ∈ lru s ↔ x ∈ removelast (lru s) ∨ x = old).
  { intros x. rewrite Hlast at 1. by rewrite elem_of_app, list_elem_of_singleton. }
  split; simpl.
  - done.
  - intros x. rewrite lookup_delete_is_Some, <-Hl, Hmem.
    split; [intros Hx; split; [by intros <-|by left]|]. intros [Hne [Hx|Hx]]; [done|by subst].
  - intros x. rewrite lookup_delete_is_Some, elem_of_difference, elem_of_singleton, Hel. naive_solver.
  - apply (f_equal length) in Hlast. rewrite length_app in Hlast. simpl in Hlast. lia.
  - intros x y. rewrite lookup_delete_Some. intros [_ Hx]. by apply Hkey.
Qed.

Lemma land_52 r : 0 <= Z.land r (2 ^ 52 - 1) < 2 ^ 52.
Proof. change (2 ^ 52 - 1) with (Z.ones 52). rewrite Z.land_ones by lia. by apply Z.mod_pos_bound. Qed.

Lemma wf_put_id r k s id s' : wf s → one_kind k → put_id r k s = Some (id, s') → wf s'.
Proof.
  intros H Hk Hp. destruct (put_id_eq _ _ _ _ _ H Hp) as (-> & Hid & Hf & ->). pose proof (land_52 r).
  pose proof (wf_push _ (Z.land r (2 ^ 52 - 1)) k s H Hk ltac:(lia) Hf) as Hw.
  set (s1 := push _ k s) in *. destruct (Nat.ltb_spec maxSubtleKeys (length (lru s1))).
  - destruct (last (lru s1)) as [old|] eqn:Hl; [by apply wf_evict|]. by apply last_None in Hl.
  - destruct Hw. by split.
Qed.

Lemma wf_put draws k s id s' : wf s → one_kind k → put draws k s = Some (id, s') → wf s'.
Proof.
  intros H Hk. induction draws as [|r draws IH]; simpl; [done|]. destruct (put_id r k s) as [[i s1]|] eqn:Hp; [|done].
  intros [= -> ->]. by eapply wf_put_id.
Qed.

(** ** Every operation keeps it *)

Definition keeps {A} (m : M A) : Prop := ∀ s o s', wf s → m s = Some (o, s') → wf s'.

Lemma keeps_ret {A} (a : A) : keeps (mret a).
Proof. by intros s o s' H [= <- <-]. Qed.

Lemma keeps_stop {A} (o : outcome A) : keeps (stop o).
Proof. by intros s o' s' H [= <- <-]. Qed.

Lemma keeps_bind {A B} (m : M A) (f : A → M B) : keeps m → (∀ a, keeps (f a)) → keeps (m ≫= f).
Proof.
  intros Hm Hf s o s' H. unfold mbind, M_bind. destruct (m s) as [[o1 s1]|] eqn:E; [|done].
  pose proof (Hm _ _ _ H E) as H1. destruct o1; try by intros [= <- <-]. intros E'. by eapply Hf.
Qed.

Lemma keeps_need {A} (o : option A) : keeps (need o).
Proof. destruct o; [apply keeps_ret|apply keeps_stop]. Qed.

Lemma keeps_need_lib {A} (o : option A) : keeps (need_lib o).
Proof. destruct o; [apply keeps_ret|apply keeps_stop]. Qed.

Lemma keeps_arg_at args i : keeps (arg_at args i).
Proof. unfold arg_at. destruct (args !! i); [apply keeps_ret|apply keeps_stop]. Qed.

Lemma keeps_at_least n args : keeps (at_least n args).
Proof. unfold at_least. destruct (_ <? _)%nat; [apply keeps_stop|apply keeps_ret]. Qed.

Lemma keeps_get v : keeps (get_key v).
Proof.
  intros s o s' H. unfold get_key. pose proof (wf_get v s H) as Hg. destruct (get v s) as [[k|] s1]; by intros [= <- <-].
Qed.

Lemma keeps_get_lib v : keeps (get_key_lib v).
Proof.
  intros s o s' H. unfold get_key_lib. pose proof (wf_get v s H) as Hg.
  destruct (get v s) as [[k|] s1]; by intros [= <- <-].
Qed.

Lemma keeps_put draws k : one_kind k → keeps (put_key draws k).
Proof.
  intros Hk s o s' H. unfold put_key. destruct (put draws k s) as [[id s1]|] eqn:E; [|done].
  intros [= <- <-]. by eapply wf_put.
Qed.

Create HintDb subtle discriminated.
#[export] Hint Resolve keeps_ret keeps_stop keeps_need keeps_need_lib keeps_arg_at keeps_at_least keeps_get
  keeps_get_lib : subtle.

(** An operation is a tree of these. *)
Ltac keeps_tree :=
  repeat first
    [ apply keeps_put; reflexivity
    | solve [eauto 2 with subtle]
    | apply keeps_bind; [|intros ?]
    | match goal with |- keeps (match ?x with _ => _ end) => destruct x end ].

Lemma keeps_ops C c rnd draws draws' args : keeps (ops C c rnd draws draws' args).
Proof.
  destruct c; cbv beta iota zeta delta [ops opHMACImport opHMACExport hmacSum opHMACSign opHMACVerify opECGenerate
    opECImportJWK opECImportDER opECExportJWK opECExportDER opECSign opECVerify opRSAGenerate opRSAImportJWK
    opRSAImportDER opRSAExportJWK opRSAExportDER opRSASign opRSAVerify opRSAOAEP opEdGenerate opEdImport opEdExport
    opEdSign opEdVerify]; keeps_tree.
Qed.

(** The tables operations and resets lead to. *)
Inductive reachable (C : Crypto) : subtleAPI → Prop :=
| reach_new : reachable C newSubtleAPI
| reach_op s c rnd draws draws' args o s' :
    reachable C s → ops C c rnd draws draws' args s = Some (o, s') → reachable C s'
| reach_reset s : reachable C s → reachable C (reset s).

Lemma table_wf C s : reachable C s → wf s.
Proof. induction 1; [apply wf_new|by eapply keeps_ops|apply wf_new]. Qed.

(** ** Operations that answer *)

Lemma bind_answer {A B} (m : M A) (f : A → M B) s b s' :
  (m ≫= f) s = Some (Answer b, s') → ∃ a s1, m s = Some (Answer a, s1) ∧ f a s1 = Some (Answer b, s').
Proof. unfold mbind, M_bind. destruct (m s) as [[[] s1]|]; try done. intros H. by eexists _, _. Qed.

Lemma need_answer {A} (o : option A) s a s' : need o s = Some (Answer a, s') → o = Some a ∧ s' = s.
Proof. destruct o; [by intros [= -> ->]|done]. Qed.

Lemma need_lib_answer {A} (o : option A) s a s' : need_lib o s = Some (Answer a, s') → o = Some a ∧ s' = s.
Proof. destruct o; [by intros [= -> ->]|done]. Qed.

Lemma arg_at_answer args i s v s' : arg_at args i s = Some (Answer v, s') → args !! i = Some v ∧ s' = s.
Proof. unfold arg_at. destruct (args !! i); [by intros [= -> ->]|done]. Qed.

Lemma at_least_answer n args s u s' : at_least n args s = Some (Answer u, s') → s' = s.
Proof. unfold at_least. case_match; [done|]. by intros [= _ ->]. Qed.

Lemma get_answer v s k s' :
  get_key v s = Some (Answer k, s') → keys s !! num v = Some k ∧ s' = (get v s).2.
Proof. unfold get_key, get. destruct (keys s !! num v); [|done]. by intros [= -> <-]. Qed.

Lemma get_lib_answer v s k s' :
  get_key_lib v s = Some (Answer k, s') → keys s !! num v = Some k ∧ s' = (get v s).2.
Proof. unfold get_key_lib, get. destruct (keys s !! num v); [|done]. by intros [= -> <-]. Qed.

Lemma ret_answer {A} (a b : A) s s' : mret (M := M) a s = Some (Answer b, s') → b = a ∧ s' = s.
Proof. by intros [= -> ->]. Qed.

(** Takes an operation that answered apart. *)
Ltac inv_m :=
  repeat match goal with
  | H : (_ ≫= _) _ = Some (Answer _, _) |- _ => apply bind_answer in H as (? & ? & ? & H)
  | H : need _ _ = Some (Answer _, _) |- _ => apply need_answer in H as [? ->]
  | H : need_lib _ _ = Some (Answer _, _) |- _ => apply need_lib_answer in H as [? ->]
  | H : arg_at _ _ _ = Some (Answer _, _) |- _ => apply arg_at_answer in H as [? ->]
  | H : at_least _ _ _ = Some (Answer _, _) |- _ => apply at_least_answer in H as ->
  | H : get_key _ _ = Some (Answer _, _) |- _ => apply get_answer in H as [? ->]
  | H : get_key_lib _ _ = Some (Answer _, _) |- _ => apply get_lib_answer in H as [? ->]
  | H : mret _ _ = Some (Answer _, _) |- _ => apply ret_answer in H as [? ->]
  | H : stop _ _ = Some (Answer _, _) |- _ => discriminate H
  | H : (match ?x with _ => _ end) _ = Some (Answer _, _) |- _ => destruct x eqn:?
  end.

(** Where an operation expects a handle. *)
Definition handle_at (c : call) : option nat :=
  match c with
  | HMACExport | ECExportJWK | RSAExportJWK | EdSign | EdVerify => Some 0%nat
  | HMACSign | HMACVerify | ECExportDER | ECSign | ECVerify | RSAExportDER | RSAOAEP | EdExport => Some 1%nat
  | RSASign | RSAVerify => Some 3%nat
  | _ => None
  end.

Definition has {A} (o : option A) : Prop := is_Some o.

(** The material an operation needs: signing, decrypting and the private
    container formats need the private half, the rest any half of the family. *)
Definition suits (c : call) (args : list arg) (k : subtleKey) : Prop :=
  let pkcs8 := str <$> args !! 0%nat = Some (lit "pkcs8") in
  match c with
  | HMACExport | HMACSign | HMACVerify => has (hmacKey k)
  | ECSign => has (ecPriv k)
  | ECExportJWK | ECVerify => has (ecPriv k) ∨ has (ecPub k)
  | ECExportDER => (pkcs8 → has (ecPriv k)) ∧ (has (ecPriv k) ∨ has (ecPub k))
  | RSASign => has (rsaPriv k)
  | RSAExportJWK | RSAVerify => has (rsaPriv k) ∨ has (rsaPub k)
  | RSAExportDER => (pkcs8 → has (rsaPriv k)) ∧ (has (rsaPriv k) ∨ has (rsaPub k))
  | RSAOAEP => (truth <$> args !! 0%nat = Some false → has (rsaPriv k)) ∧ (has (rsaPriv k) ∨ has (rsaPub k))
  | EdSign => has (edPriv k)
  | EdVerify => has (edPriv k) ∨ has (edPub k)
  | EdExport => (pkcs8 → has (edPriv k)) ∧ (has (edPriv k) ∨ has (edPub k))
  | _ => True
  end.

Lemma ec_public_half k pub : ec_public k = Some pub → has (ecPriv k) ∨ has (ecPub k).
Proof. unfold ec_public, has. destruct (ecPub k), (ecPriv k); simpl; eauto; done. Qed.

Lemma rsa_public_half k pub : rsa_public k = Some pub → has (rsaPriv k) ∨ has (rsaPub k).
Proof. unfold rsa_public, has. destruct (rsaPub k), (rsaPriv k); simpl; eauto; done. Qed.

Lemma ed_public_half k pub : ed_public k = Some pub → has (edPriv k) ∨ has (edPub k).
Proof. unfold ed_public, has. destruct (edPub k), (edPriv k); simpl; eauto; done. Qed.

Lemma has_some {A} (o : option A) a : o = Some a → has o.
Proof. intros ->. by eexists. Qed.

#[export] Hint Resolve ec_public_half rsa_public_half ed_public_half has_some : subtle.
#[export] Hint Extern 2 (_ ∨ _) => left : subtle.
#[export] Hint Extern 2 (_ ∨ _) => right : subtle.

(** C16: An operation of crypto.subtle that answers found a live key behind
    its handle and the material it needs in it: nothing is signed, decrypted or
    exported as PKCS#8 through the handle of a public key, and a handle of
    another family, a forged one or one from before a reset gets no answer. The
    table is unchanged but for that handle being the most recently used. *)
Theorem answers_need_the_key (C : Crypto) (s : subtleAPI) c rnd draws draws' args (i : nat) a s' :
  handle_at c = Some i → ops C c rnd draws draws' args s = Some (Answer a, s') →
  ∃ v k, args !! i = Some v ∧ keys s !! num v = Some k ∧ suits c args k ∧ s' = (get v s).2 ∧ keys s' = keys s.
Proof.
  assert (Hkeys : ∀ v, keys (get v s).2 = keys s).
  { intros v. unfold get. destruct (keys s !! num v); [|done]. simpl. by case_bool_decide. }
  destruct c; try done; cbv beta iota zeta delta [ops opHMACExport hmacSum opHMACSign opHMACVerify
    opECExportJWK opECExportDER opECSign opECVerify opRSAExportJWK opRSAExportDER opRSASign opRSAVerify opRSAOAEP
    opEdExport opEdSign opEdVerify]; intros [= <-] Ho; inv_m;
    match goal with Hk : keys s !! num ?v = Some ?k |- _ => exists v, k end;
    (split; [done|split; [done|split; [|split; [done|apply Hkeys]]]]); cbn [suits]; bool_to_prop;
    try (split; [intros Hf|]); eauto 4 with subtle; simplify_option_eq; try congruence;
    match goal with H : str ?x = _, H' : str ?x = _ |- _ => rewrite H in H'; discriminate H' end.
Qed.

(** ** What the eviction keeps *)

(** A step of the table touches an id: get finds it, or put stores under it. *)
Inductive tstep (s : subtleAPI) : Z → subtleAPI → Prop :=
| step_get v : is_Some (keys s !! num v) → tstep s (num v) (get v s).2
| step_put r k id s' : one_kind k → put_id r k s = Some (id, s') → tstep s id s'.

Inductive tsteps : subtleAPI → list Z → subtleAPI → Prop :=
| steps_nil s : tsteps s [] s
| steps_cons s id s1 l s' : tstep s id s1 → tsteps s1 l s' → tsteps s (id :: l) s'.

Lemma tsteps_app s l s1 l' s' : tsteps s l s1 → tsteps s1 l' s' → tsteps s (l ++ l') s'.
Proof. induction 1; [done|]. intros. simpl. econstructor; [done|]. by apply IHtsteps. Qed.

Lemma wf_tstep s id s' : wf s → tstep s id s' → wf s'.
Proof. intros H [v _|r k i s1 Hk Hp]; [by apply wf_get|by eapply wf_put_id]. Qed.

(** Where [id] stands: behind ids that are all among [T]. *)
Definition behind (T : list Z) (id : Z) (s : subtleAPI) : Prop :=
  ∃ pre post, lru s = pre ++ id :: post ∧ pre ⊆ T.

Lemma behind_get v T id s :
  wf s → behind T id s → num v ∈ T → num v ≠ id → is_Some (keys s !! num v) →
  behind T id (get v s).2 ∧ keys (get v s).2 = keys s.
Proof.
  intros H (pre & post & Hl & Hpre) Hin Hne [k Hk]. unfold get. rewrite Hk. simpl.
  case_bool_decide as He; simpl; [|split; [|done]; by exists pre, post].
  split; [|done]. exists (num v :: list_remove_id (num v) pre), (list_remove_id (num v) post). simpl. split.
  - rewrite Hl. unfold list_remove_id. by rewrite filter_app, filter_cons_True.
  - intros x [->|Hx]%elem_of_cons; [done|]. apply elem_remove_id in Hx as [_ Hx]. by apply Hpre.
Qed.

Lemma nodup_count (pre T : list Z) : NoDup pre → pre ⊆ T → (length pre <= length (remove_dups T))%nat.
Proof.
  intros Hn Hs. apply submseteq_length, NoDup_submseteq; [done|]. intros x Hx. rewrite elem_of_remove_dups. by apply Hs.
Qed.

(** A table step on another id moves [id] back by at most that one; it falls off
    only behind 1024 others. *)
Lemma behind_step T id s x s' :
  wf s → (length (remove_dups T) < maxSubtleKeys)%nat → behind T id s → x ∈ T → x ≠ id → tstep s x s' →
  behind T id s' ∧ keys s' !! id = keys s !! id.
Proof.
  intros H Hlt Hb Hx Hne Hstep. inversion Hstep as [v Hv Ex|r k i s1 Hk Hp]; subst.
  - destruct (behind_get v T id s H Hb Hx Hne Hv) as [Hb' ->]. done.
  - pose proof (wf_tstep _ _ _ H Hstep) as H'. destruct (put_id_eq _ _ _ _ _ H Hp) as (_ & _ & Hf & Es).
    destruct Hb as (pre & post & Hl & Hpre).
    assert (Hkeep : (keys (push x k s)) !! id = keys s !! id) by (simpl; by rewrite lookup_insert_ne).
    assert (Hpush : lru (push x k s) = (x :: pre) ++ id :: post) by (simpl; by rewrite Hl).
    assert (Hsub : x :: pre ⊆ T) by (intros y [->|Hy]%elem_of_cons; [done|by apply Hpre]).
    destruct (Nat.ltb_spec maxSubtleKeys (length (lru (push x k s)))) as [Hgt|Hle]; subst s'.
    2:{ split; [|done]. by exists (x :: pre), post. }
    assert (Hpost : post ≠ []).
    { intros ->. rewrite Hpush, length_app in Hgt. simpl in Hgt.
      pose proof (wf_nodup _ _ H) as Hn. rewrite Hl in Hn. apply NoDup_app in Hn as (Hn & _ & _).
      assert (Hxp : x ∉ pre).
      { intros Hxp. assert (x ∈ lru s) as Hin by (rewrite Hl; apply elem_of_app; by left).
        apply (wf_lru _ _ H) in Hin. rewrite Hf in Hin. by destruct Hin. }
      pose proof (nodup_count (x :: pre) T ltac:(by constructor) Hsub) as Hc. simpl in Hc. lia. }
    destruct (last (lru (push x k s))) as [old|] eqn:Hlast; [|by apply last_None in Hlast].
    destruct (exists_last Hpost) as (post' & y & ->).
    assert (Hsnoc : lru (push x k s) = ((x :: pre) ++ id :: post') ++ [y]) by (rewrite Hpush, <-app_assoc; done).
    assert (old = y) as -> by (rewrite Hsnoc, last_snoc in Hlast; congruence).
    assert (Hy : y ≠ id).
    { intros ->. pose proof (wf_nodup _ _ H) as Hn. rewrite Hl in Hn. apply NoDup_app in Hn as (_ & _ & Hn).
      apply NoDup_cons in Hn as [Hn _]. apply Hn. apply elem_of_app. right. by apply list_elem_of_singleton. }
    split.
    + exists (x :: pre), post'. split; [|done]. unfold evict. cbn [lru]. by rewrite Hsnoc, removelast_last.
    + unfold evict. cbn [keys]. by rewrite lookup_delete_ne.
Qed.

Lemma behind_self id s x s' :
  wf s → is_Some (keys s !! id) → x = id → tstep s x s' → lru s' = id :: list_remove_id id (lru s) ∧ keys s' = keys s.
Proof.
  intros H Hid -> Hstep. inversion Hstep as [v [k Hv] Ex|r k i s1 Hk Hp]; subst.
  - unfold get. rewrite Hv. rewrite bool_decide_true; [done|]. apply (wf_elems _ _ H). by eexists.
  - destruct (put_id_eq _ _ _ _ _ H Hp) as (_ & _ & Hf & _). rewrite Hf in Hid. by destruct Hid.
Qed.

Lemma behind_steps T id s l s' :
  tsteps s l s' → wf s → is_Some (keys s !! id) → (length (remove_dups T) < maxSubtleKeys)%nat → behind T id s →
  (∀ x, x ∈ l → x ≠ id → x ∈ T) → behind T id s' ∧ keys s' !! id = keys s !! id ∧ wf s'.
Proof.
  induction 1 as [s|s x s1 l s' Hstep Hrest IH]; intros H Hid Hlt Hb Hl; [done|].
  pose proof (wf_tstep _ _ _ H Hstep) as H1.
  assert (Hone : behind T id s1 ∧ keys s1 !! id = keys s !! id).
  { destruct (decide (x = id)) as [Ex|Hne].
    - destruct (behind_self id s x s1 H Hid Ex Hstep) as [El ->]. split; [|done].
      exists [], (list_remove_id id (lru s)). split; [done|]. by intros ? ?%not_elem_of_nil.
    - apply (behind_step T id s x s1); try done. apply Hl; [by left|done]. }
  destruct Hone as [Hb1 Hk1]. rewrite <-Hk1 in Hid |- *. apply IH; try done. intros y Hy. apply Hl. by right.
Qed.

(** *** The ids an operation touches *)

(** The ids an answer brings. *)
Definition new_ids (a : answer) : list Z :=
  match a with AId id => [id] | APair a b => [a; b] | AKey id _ _ => [id] | _ => [] end.

Definition handles (c : call) (args : list arg) : list Z :=
  match handle_at c with Some i => match args !! i with Some v => [num v] | None => [] end | None => [] end.

Definition touched (c : call) (args : list arg) (o : outcome answer) : list Z :=
  handles c args ++ match o with Answer a => new_ids a | _ => [] end.

(** An operation's part touches only the ids in [Hs] and those of its answer. *)
Definition within {A} (Hs : list Z) (ids : A → list Z) (m : M A) : Prop :=
  ∀ s o s', m s = Some (o, s') →
    ∃ l, tsteps s l s' ∧ ∀ x, x ∈ l → x ∈ Hs ∨ ∃ a, o = Answer a ∧ x ∈ ids a.

Definition none {A} (_ : A) : list Z := [].

Lemma within_ret {A} Hs ids (a : A) : within Hs ids (mret a).
Proof. intros s o s' [= <- <-]. exists []. split; [constructor|by intros ? ?%not_elem_of_nil]. Qed.

Lemma within_stop {A} Hs ids (o : outcome A) : within Hs ids (stop o).
Proof. intros s o' s' [= <- <-]. exists []. split; [constructor|by intros ? ?%not_elem_of_nil]. Qed.

Lemma within_bind {A B} Hs ids (m : M A) (f : A → M B) :
  within Hs none m → (∀ a, within Hs ids (f a)) → within Hs ids (m ≫= f).
Proof.
  intros Hm Hf s o s'. unfold mbind, M_bind. destruct (m s) as [[o1 s1]|] eqn:E; [|done].
  destruct (Hm _ _ _ E) as (l & Hl & Hin).
  assert (Hin' : ∀ x, x ∈ l → x ∈ Hs).
  { intros x [?|(a & _ & Ha)]%Hin; [done|]. by apply not_elem_of_nil in Ha. }
  destruct o1; try by (intros [= <- <-]; exists l; split; [done|]; intros x Hx; left; by apply Hin').
  intros E'. destruct (Hf _ _ _ _ E') as (l' & Hl' & Hin2). exists (l ++ l').
  split; [by eapply tsteps_app|]. intros x [Hx|Hx]%elem_of_app; [left; by apply Hin'|by apply Hin2].
Qed.

Lemma within_need {A} Hs ids (o : option A) : within Hs ids (need o).
Proof. destruct o; [apply within_ret|apply within_stop]. Qed.

Lemma within_need_lib {A} Hs ids (o : option A) : within Hs ids (need_lib o).
Proof. destruct o; [apply within_ret|apply within_stop]. Qed.

Lemma within_at_least Hs ids n args : within Hs ids (at_least n args).
Proof. unfold at_least. destruct (_ <? _)%nat; [apply within_stop|apply within_ret]. Qed.

Lemma within_arg Hs ids args i : within Hs ids (arg_at args i).
Proof. unfold arg_at. destruct (args !! i); [apply within_ret|apply within_stop]. Qed.

Lemma get_steps v s : ∃ l, tsteps s l (get v s).2 ∧ ∀ x, x ∈ l → x = num v.
Proof.
  destruct (keys s !! num v) as [k|] eqn:Hk.
  - exists [num v]. split; [|by intros x ->%list_elem_of_singleton].
    econstructor; [|constructor]. apply step_get. by eexists.
  - exists []. unfold get. rewrite Hk. split; [constructor|by intros ? ?%not_elem_of_nil].
Qed.

Lemma within_get Hs v : num v ∈ Hs → within Hs none (get_key v).
Proof.
  intros Hv s o s'. unfold get_key. destruct (get_steps v s) as (l & Hl & Hin). destruct (get v s) as [[k|] s1];
    intros [= <- <-]; (exists l; split; [done|]; intros x ->%Hin; by left).
Qed.

Lemma within_get_lib Hs v : num v ∈ Hs → within Hs none (get_key_lib v).
Proof.
  intros Hv s o s'. unfold get_key_lib. destruct (get_steps v s) as (l & Hl & Hin). destruct (get v s) as [[k|] s1];
    intros [= <- <-]; (exists l; split; [done|]; intros x ->%Hin; by left).
Qed.

Lemma put_steps draws k s id s' : one_kind k → put draws k s = Some (id, s') → tsteps s [id] s'.
Proof.
  intros Hk. induction draws as [|r draws IH]; simpl; [done|]. destruct (put_id r k s) as [[i s1]|] eqn:Hp; [|done].
  intros [= -> ->]. econstructor; [by eapply step_put|constructor].
Qed.

(** The ends of the operations that store. *)
Lemma within_put Hs draws k (g : Z → answer) :
  one_kind k → (∀ id, new_ids (g id) = [id]) →
  within Hs new_ids (put_key draws k ≫= fun id => mret (g id)).
Proof.
  intros Hk Hg s o s'. unfold mbind, M_bind, put_key. destruct (put draws k s) as [[id s1]|] eqn:E; [|done].
  intros [= <- <-]. exists [id]. split; [by eapply put_steps|]. intros x Hx. right. eexists. split; [done|]. by rewrite Hg.
Qed.

Lemma within_put2 Hs draws draws' k k' :
  one_kind k → one_kind k' →
  within Hs new_ids (put_key draws k ≫= fun a => put_key draws' k' ≫= fun b => mret (APair a b)).
Proof.
  intros Hk Hk' s o s'. unfold mbind, M_bind, put_key. destruct (put draws k s) as [[a s1]|] eqn:E; [|done].
  destruct (put draws' k' s1) as [[b s2]|] eqn:E'; [|done]. intros [= <- <-]. exists ([a] ++ [b]).
  split; [eapply tsteps_app; [exact (put_steps _ _ _ _ _ Hk E)|exact (put_steps _ _ _ _ _ Hk' E')]|].
  intros x Hx. right. by eexists.
Qed.

Lemma within_arg_bind {B} Hs ids args i (f : arg → M B) :
  (∀ v, args !! i = Some v → within Hs ids (f v)) → within Hs ids (arg_at args i ≫= f).
Proof.
  intros Hf s o s'. unfold mbind, M_bind, arg_at. destruct (args !! i) as [v|] eqn:Hv; [by apply Hf|].
  intros [= <- <-]. exists []. split; [constructor|by intros ? ?%not_elem_of_nil].
Qed.

Create HintDb subtle_ids discriminated.
#[export] Hint Resolve within_ret within_stop within_need within_need_lib within_at_least : subtle_ids.

Ltac handle_in := match goal with H : _ !! _ = Some ?v |- num ?v ∈ _ => unfold handles, handle_at; rewrite H; left end.

Ltac within_tree :=
  repeat first
    [ apply within_put; [reflexivity|intros ?; reflexivity]
    | apply within_put2; reflexivity
    | apply within_arg_bind; intros ? ?
    | apply within_get; handle_in
    | apply within_get_lib; handle_in
    | solve [eauto 2 with subtle_ids]
    | apply within_bind; [|intros ?]
    | match goal with |- within _ _ (match ?x with _ => _ end) => destruct x end ].

Lemma within_ops C c rnd draws draws' args : within (handles c args) new_ids (ops C c rnd draws draws' args).
Proof.
  destruct c; cbv beta iota zeta delta [ops opHMACImport opHMACExport hmacSum opHMACSign opHMACVerify opECGenerate
    opECImportJWK opECImportDER opECExportJWK opECExportDER opECSign opECVerify opRSAGenerate opRSAImportJWK
    opRSAImportDER opRSAExportJWK opRSAExportDER opRSASign opRSAVerify opRSAOAEP opEdGenerate opEdImport opEdExport
    opEdSign opEdVerify]; within_tree.
Qed.

(** A run of operations, with the ids they touch. *)
Inductive runs (C : Crypto) : subtleAPI → list Z → subtleAPI → Prop :=
| runs_nil s : runs C s [] s
| runs_op s c rnd draws draws' args o s1 l s' :
    ops C c rnd draws draws' args s = Some (o, s1) → runs C s1 l s' → runs C s (touched c args o ++ l) s'.

Lemma runs_steps C s l s' : runs C s l s' → ∃ l', tsteps s l' s' ∧ l' ⊆ l.
Proof.
  induction 1 as [s|s c rnd draws draws' args o s1 l s' Ho _ (l2 & Hl2 & Hin2)]; [exists []; split; [constructor|done]|].
  destruct (within_ops C c rnd draws draws' args s o s1 Ho) as (l1 & Hl1 & Hin1).
  exists (l1 ++ l2). split; [by eapply tsteps_app|]. intros x [Hx|Hx]%elem_of_app; apply elem_of_app.
  - left. apply elem_of_app. destruct (Hin1 x Hx) as [|(a & -> & Ha)]; [by left|by right].
  - right. by apply Hin2.
Qed.

(** The eviction spares the keys in use: a key that was just stored or
    used is there, and the same, after any run of operations that touches fewer
    than 1024 other handles, however often it touches them. *)
Theorem key_survives (C : Crypto) (s : subtleAPI) (id : Z) (k : subtleKey) (l : list Z) (s' : subtleAPI) :
  reachable C s → head (lru s) = Some id → keys s !! id = Some k → runs C s l s' →
  (length (remove_dups (filter (fun x => x ≠ id) l)) < maxSubtleKeys)%nat →
  keys s' !! id = Some k.
Proof.
  intros Hr Hh Hk Hrun Hlt. destruct (runs_steps _ _ _ _ Hrun) as (l' & Hl' & Hsub).
  destruct (behind_steps (filter (fun x => x ≠ id) l) id s l' s') as (_ & Hk' & _); try done.
  - by eapply table_wf.
  - destruct (lru s) as [|y post] eqn:El; [done|]. injection Hh as ->. exists [], post. split; [by rewrite El|].
    by intros ? ?%not_elem_of_nil.
  - intros x Hx Hne. apply list_elem_of_filter. split; [done|by apply Hsub].
  - by rewrite Hk', Hk.
Qed.

(** ** JWK documents back and forth *)

Definition pair_field (omit : bool) (name : string) (s : bytes) : list (bytes * json) :=
  if omit && bool_decide (s = []) then [] else [(lit name, JStr s)].

(** The members of a marshalled document. *)
Definition jwk_pairs (j : jwkDoc) : list (bytes * json) :=
  pair_field false "kty" (jKty j) ++ pair_field true "crv" (jCrv j) ++ pair_field true "x" (jX j)
  ++ pair_field true "y" (jY j) ++ pair_field true "d" (jD j) ++ pair_field true "n" (jN j)
  ++ pair_field true "e" (jE j) ++ pair_field true "p" (jP j) ++ pair_field true "q" (jQ j)
  ++ pair_field true "dp" (jDp j) ++ pair_field true "dq" (jDq j) ++ pair_field true "qi" (jQi j)
  ++ pair_field true "k" (jK j) ++ (if jExt j then [(lit "ext", JBool true)] else []).

(** A string that json.Marshal keeps as it is. *)
Definition plain (s : bytes) : Prop := Forall is_byte s ∧ Utf8.valid s = true.

Definition plain_jwk (j : jwkDoc) : Prop :=
  Forall plain [jKty j; jCrv j; jX j; jY j; jD j; jN j; jE j; jP j; jQ j; jDp j; jDq j; jQi j; jK j].

(** A member's text and the member it parses to. *)
Definition stands_for (kv : bytes * bytes) (p : bytes * json) : Prop := kv.1 = p.1 ∧ good_member kv p.2.

Lemma text_pair omit name s :
  plain (lit name) → plain s → Forall2 stands_for (text_field omit name s) (pair_field omit name s).
Proof.
  intros [Hb Hu] [Hsb Hsu]. unfold text_field, pair_field. destruct (_ && _); constructor; [|constructor].
  split; [done|]. split; [done|]. split; [done|]. by apply string_text.
Qed.

Lemma jwk_stands j : plain_jwk j → Forall2 stands_for (jwk_fields j) (jwk_pairs j).
Proof.
  intros Hj. unfold plain_jwk in Hj. rewrite !Forall_cons in Hj.
  destruct Hj as (H1 & H2 & H3 & H4 & H5 & H6 & H7 & H8 & H9 & H10 & H11 & H12 & H13 & _).
  unfold jwk_fields, jwk_pairs.
  repeat (apply Forall2_app; [apply text_pair; [split; [by_decide|reflexivity]|done]|]).
  destruct (jExt j); constructor; [|constructor].
  split; [done|]. split; [by_decide|]. split; [reflexivity|apply true_text].
Qed.

Lemma jwk_members j : plain_jwk j → Json.members (marshal_jwk j) = Some (jwk_pairs j).
Proof.
  intros Hj. pose proof (jwk_stands j Hj) as Hs. unfold Json.members, marshal_jwk.
  assert (Hg : Forall2 good_member (jwk_fields j) (map snd (jwk_pairs j))).
  { apply Forall2_fmap_r. eapply Forall2_impl; [exact Hs|]. by intros ? ? [_ ?]. }
  assert (Hk : map fst (jwk_fields j) = map fst (jwk_pairs j)).
  { clear Hg. induction Hs as [|kv p l k [E _] _ IH]; [done|]. simpl. by rewrite E, IH. }
  rewrite (object_parses _ _ Hg).
  - rewrite Hk. cbn [Json.struct_members]. f_equal.
    generalize (jwk_pairs j). intros l. induction l as [|[a b] l IH]; [done|]. simpl. by rewrite IH.
  - unfold jwk_fields, text_field. done.
Qed.

Lemma values_app name a b : Json.values name (a ++ b) = Json.values name a ++ Json.values name b.
Proof. unfold Json.values. apply omap_app. Qed.

Lemma values_pair name name' omit s :
  Json.values name (pair_field omit name' s)
  = if bool_decide (Json.fold_name (lit name') = lit name) then
      if omit && bool_decide (s = []) then [] else [JStr s]
    else [].
Proof. unfold pair_field, Json.values. destruct (omit && _); simpl; [by case_bool_decide|]. by case_bool_decide. Qed.

Lemma values_ext name (e : bool) :
  Json.values name (if e then [(lit "ext", JBool true)] else [])
  = if bool_decide (lit "ext" = lit name) then if e then [JBool true] else [] else [].
Proof.
  destruct e; [|by case_bool_decide]. unfold Json.values. cbn [omap list_omap].
  change (Json.fold_name (lit "ext")) with (lit "ext"). by case_bool_decide.
Qed.

Lemma one_string (omit : bool) s :
  foldl (fun acc v => match acc, v with
                      | Some _, JStr s => Some s
                      | Some s, JNull => Some s
                      | _, _ => None
                      end) (Some []) (if omit && bool_decide (s = []) then [] else [JStr s]) = Some s.
Proof. destruct omit; simpl; [|done]. case_bool_decide; by subst. Qed.

(** Closed comparisons of names. *)
Ltac names :=
  repeat match goal with
  | |- context [bool_decide (?a = lit ?b)] =>
      let v := eval vm_compute in (bool_decide (a = lit b)) in change (bool_decide (a = lit b)) with v
  end; cbv iota; rewrite ?app_nil_r; cbn [app].

Ltac one_field :=
  unfold Json.field_string, jwk_pairs; rewrite !values_app, !values_pair, values_ext; names; apply one_string.

Lemma unmarshal_marshal j : plain_jwk j → unmarshal_jwk (marshal_jwk j) = Some j.
Proof.
  intros Hj. unfold unmarshal_jwk. rewrite jwk_members by done. cbn [mbind option_bind].
  assert (E1 : Json.field_string "kty" (jwk_pairs j) = Some (jKty j)) by one_field.
  assert (E2 : Json.field_string "crv" (jwk_pairs j) = Some (jCrv j)) by one_field.
  assert (E3 : Json.field_string "x" (jwk_pairs j) = Some (jX j)) by one_field.
  assert (E4 : Json.field_string "y" (jwk_pairs j) = Some (jY j)) by one_field.
  assert (E5 : Json.field_string "d" (jwk_pairs j) = Some (jD j)) by one_field.
  assert (E6 : Json.field_string "n" (jwk_pairs j) = Some (jN j)) by one_field.
  assert (E7 : Json.field_string "e" (jwk_pairs j) = Some (jE j)) by one_field.
  assert (E8 : Json.field_string "p" (jwk_pairs j) = Some (jP j)) by one_field.
  assert (E9 : Json.field_string "q" (jwk_pairs j) = Some (jQ j)) by one_field.
  assert (E10 : Json.field_string "dp" (jwk_pairs j) = Some (jDp j)) by one_field.
  assert (E11 : Json.field_string "dq" (jwk_pairs j) = Some (jDq j)) by one_field.
  assert (E12 : Json.field_string "qi" (jwk_pairs j) = Some (jQi j)) by one_field.
  assert (E13 : Json.field_string "k" (jwk_pairs j) = Some (jK j)) by one_field.
  assert (E14 : field_bool "ext" (jwk_pairs j) = Some (jExt j)).
  { unfold field_bool, jwk_pairs. rewrite !values_app, !values_pair, values_ext. names. by destruct (jExt j). }
  rewrite E1, E2, E3, E4, E5, E6, E7, E8, E9, E10, E11, E12, E13, E14. cbn [mbind option_bind]. by destruct j.
Qed.

Lemma ascii_plain s : Forall (fun c => 0 <= c < 128) s → plain s.
Proof.
  intros Hs. split.
  - eapply Forall_impl; [exact Hs|]. unfold is_byte. intros c Hc. simpl in Hc. lia.
  - unfold Utf8.valid. apply bool_decide_eq_true. induction Hs as [|c s Hc _ IH]; [done|]. cbn [Utf8.run Utf8.step].
    assert (in_range 0 127 c = true) as ->; [|done]. unfold in_range. lia.
Qed.

Lemma encode_plain b : plain (EncodeToString b).
Proof.
  apply ascii_plain. eapply Forall_impl; [apply encode_chars|]. intros c (v & Hv & ->). simpl in Hv.
  unfold b64_char. repeat case_match; bool_to_prop; lia.
Qed.

Lemma plain_nil : plain [].
Proof. by apply ascii_plain. Qed.

Lemma encode_nonempty b : b ≠ [] → EncodeToString b ≠ [].
Proof. by destruct b as [|x [|y [|z b]]]. Qed.

Lemma encode_nil b : EncodeToString b = [] → b = [].
Proof. intros H. destruct (decide (b = [])) as [|Hb]; [done|]. by apply encode_nonempty in Hb. Qed.

(** The bytes bigB64u writes. *)
Definition padded (n : Z) (size : nat) : bytes :=
  if (length (big_bytes n) <? size)%nat then replicate (size - length (big_bytes n)) 0 ++ big_bytes n
  else big_bytes n.

Lemma padded_ok n size : 0 <= n → Forall is_byte (padded n size) ∧ be (padded n size) = n.
Proof.
  intros Hn. unfold padded. pose proof (big_bytes_bytes n). case_match; [|by rewrite be_big_bytes].
  rewrite be_zeros, be_big_bytes by done. split; [|done]. apply Forall_app. split; [|done].
  apply Forall_replicate. by unfold is_byte.
Qed.

Lemma padded_nonempty n size : 0 <= n → (0 < size)%nat ∨ 0 < n → padded n size ≠ [].
Proof.
  intros Hn Hs Hnil. destruct Hs as [Hs|Hs].
  - unfold padded in Hnil. destruct (Nat.ltb_spec (length (big_bytes n)) size) as [Hlt|Hge].
    + apply (f_equal length) in Hnil. rewrite length_app, length_replicate in Hnil. simpl in Hnil. lia.
    + rewrite Hnil in Hge. simpl in Hge. lia.
  - destruct (padded_ok n size Hn) as [_ Hb]. rewrite Hnil in Hb. change (be []) with 0 in Hb. lia.
Qed.

Lemma b64uBig_bigB64u n size : 0 <= n → (0 < size)%nat ∨ 0 < n → b64uBig (bigB64u n size) = Some n ∧ bigB64u n size ≠ [].
Proof.
  intros Hn Hs. unfold bigB64u. fold (padded n size). pose proof (padded_nonempty n size Hn Hs) as Hne.
  destruct (padded_ok n size Hn) as [Hb Hv]. pose proof (encode_nonempty _ Hne) as He.
  split; [|done]. unfold b64uBig. rewrite bool_decide_false by done. rewrite b64_roundtrip by done.
  cbn [fmap option_fmap option_map]. by rewrite Hv.
Qed.

Lemma bigB64u_plain n size : plain (bigB64u n size).
Proof. apply encode_plain. Qed.

Lemma curve_size_pos c : (0 < curve_size c)%nat.
Proof. destruct c; vm_compute; lia. Qed.

Lemma curve_back c : c ≠ P224 → curveByName (curveName c) = Some c.
Proof. by destruct c. Qed.

Lemma curve_plain c : plain (curveName c).
Proof. destruct c; apply ascii_plain; by_decide. Qed.

#[export] Hint Resolve encode_plain plain_nil bigB64u_plain curve_plain : subtle.

(** What a document holds of a key, for a key made of numbers in range. *)
Definition exportable (C : Crypto) (k : subtleKey) : Prop :=
  (∃ c x y, c ≠ P224 ∧ 0 <= x ∧ 0 <= y ∧ IsOnCurve C c x y = true ∧
     (k = key_ecPub (MkEcPublic c x y) ∨ ∃ d, 0 <= d ∧ k = key_ecPriv (MkEcPrivate (MkEcPublic c x y) d)))
  ∨ (∃ n e, 0 < n ∧ checkRSAModulus n = true ∧ 3 <= e < 2 ^ 32 ∧
     (k = key_rsaPub (MkRsaPublic n e) ∨
      ∃ priv d p q, k = key_rsaPriv priv ∧ Forall (fun v => 0 < v < 2 ^ 8192) [d; p; q]
        ∧ rsaPublicKey priv = MkRsaPublic n e ∧ rsaD priv = d ∧ Primes priv = [p; q]
        ∧ Precompute C (MkRsaPrivate (MkRsaPublic n e) d [p; q] 0 0 0) = priv ∧ Validate C priv = true))
  ∨ (∃ pub, Forall is_byte pub ∧ zlen pub = 32 ∧
     (k = key_edPub pub ∨ ∃ seed, Forall is_byte seed ∧ zlen seed = 32 ∧ NewKeyFromSeed C seed = seed ++ pub
                                  ∧ k = key_edPriv (seed ++ pub))).

(** Export and import as "jwk" of the families. *)
Inductive family := FEc | FRsa | FEd.

Definition family_of (k : subtleKey) : family :=
  match rsaPriv k, rsaPub k, edPriv k, edPub k with
  | None, None, None, None => FEc
  | None, None, _, _ => FEd
  | _, _, _, _ => FRsa
  end.

Definition export_jwk (C : Crypto) (f : family) (v : arg) : M answer :=
  match f with
  | FEc => opECExportJWK [v]
  | FRsa => opRSAExportJWK [v]
  | FEd => opEdExport C [text_arg (lit "jwk"); v]
  end.

Definition import_jwk (C : Crypto) (f : family) (draws : list Z) (t : bytes) : M answer :=
  match f with
  | FEc => opECImportJWK C draws [text_arg t]
  | FRsa => opRSAImportJWK C draws [text_arg t]
  | FEd => opEdImport C draws [text_arg (lit "jwk"); text_arg t]
  end.

Definition is_private (k : subtleKey) : bool :=
  bool_decide (is_Some (ecPriv k)) || bool_decide (is_Some (rsaPriv k)) || bool_decide (is_Some (edPriv k)).

Lemma need_some {A B} (a : A) (f : A → M B) : (need (Some a) ≫= f) = f a.
Proof. reflexivity. Qed.

Lemma put_key_then {B} draws k s id s' (f : Z → M B) :
  put draws k s = Some (id, s') → (put_key draws k ≫= f) s = f id s'.
Proof. intros Hp. unfold mbind, M_bind, put_key. by rewrite Hp. Qed.

Lemma get_key_then {B} v s k (f : subtleKey → M B) :
  keys s !! num v = Some k → (get_key v ≫= f) s = f k (get v s).2.
Proof. intros Hk. unfold mbind, M_bind, get_key, get. by rewrite Hk. Qed.

Lemma at_least_ok {B} n args (f : unit → M B) : (length args <? n)%nat = false → (at_least n args ≫= f) = f tt.
Proof. intros H. unfold at_least. by rewrite H. Qed.

Lemma arg_at_some {B} args i v (f : arg → M B) : args !! i = Some v → (arg_at args i ≫= f) = f v.
Proof. intros H. unfold arg_at. by rewrite H. Qed.

(** Reads the arguments of an operation on a given list. *)
Ltac read_args :=
  repeat first [ rewrite at_least_ok by reflexivity
               | match goal with |- context [arg_at (?x :: _) 0 ≫= _] => rewrite (arg_at_some (x :: _) 0 x) by reflexivity end
               | match goal with |- context [arg_at (?y :: ?x :: _) 1 ≫= _] =>
                   rewrite (arg_at_some (y :: x :: _) 1 x) by reflexivity end ].

Lemma ec_jwk_plain pub d : plain d → plain_jwk (ec_jwk pub d).
Proof.
  intros Hd. unfold plain_jwk, ec_jwk. cbn [jKty jCrv jX jY jD jN jE jP jQ jDp jDq jQi jK].
  repeat (constructor; [first [by auto with subtle|by apply ascii_plain; by_decide]|]). constructor.
Qed.

Lemma ec_import C c x y d draws s :
  c ≠ P224 → 0 <= x → 0 <= y → IsOnCurve C c x y = true → plain d →
  opECImportJWK C draws [text_arg (marshal_jwk (ec_jwk (MkEcPublic c x y) d))] s
  = (if bool_decide (d = []) then
       put_key draws (key_ecPub (MkEcPublic c x y)) ≫= fun id => mret (AKey id false (Crv (curveName c)))
     else
       need (b64uBig d) ≫= fun d => put_key draws (key_ecPriv (MkEcPrivate (MkEcPublic c x y) d)) ≫= fun id =>
       mret (AKey id true (Crv (curveName c)))) s.
Proof.
  intros Hc Hx Hy Hon Hd. pose proof (curve_size_pos c) as Hsz.
  destruct (b64uBig_bigB64u x (curve_size c) Hx ltac:(by left)) as [Ex _].
  destruct (b64uBig_bigB64u y (curve_size c) Hy ltac:(by left)) as [Ey _].
  unfold opECImportJWK. read_args. cbn [str text_arg]. rewrite (unmarshal_marshal _ (ec_jwk_plain _ d Hd)), need_some.
  unfold ec_jwk. cbn [jKty jCrv jX jY jD Curve X Y]. rewrite bool_decide_false by (intros H; by apply H).
  by rewrite curve_back, need_some, Ex, need_some, Ey, need_some, Hon.
Qed.

Lemma rsa_jwk_plain pub d p q dp dq qi :
  plain d → plain p → plain q → plain dp → plain dq → plain qi → plain_jwk (rsa_jwk pub d p q dp dq qi).
Proof.
  intros. unfold plain_jwk, rsa_jwk. cbn [jKty jCrv jX jY jD jN jE jP jQ jDp jDq jQi jK].
  repeat (constructor; [first [by auto with subtle|by apply ascii_plain; by_decide]|]). constructor.
Qed.

Lemma BitLen_lt n k : 0 <= n < 2 ^ k → 0 <= k → BitLen n <= k.
Proof.
  intros Hn Hk. unfold BitLen. destruct (Z.eqb_spec n 0); [done|].
  pose proof (proj1 (Z.log2_lt_pow2 n k ltac:(lia)) ltac:(lia)). lia.
Qed.

Lemma rsa_import C n e d p q dp dq qi draws s :
  0 < n → checkRSAModulus n = true → 3 <= e < 2 ^ 32 →
  plain d → plain p → plain q → plain dp → plain dq → plain qi →
  opRSAImportJWK C draws [text_arg (marshal_jwk (rsa_jwk (MkRsaPublic n e) d p q dp dq qi))] s
  = (if bool_decide (d = []) then
       put_key draws (key_rsaPub (MkRsaPublic n e)) ≫= fun id => mret (AKey id false (Bits (BitLen n)))
     else
       need (b64uBig d) ≫= fun d => need (b64uBig p) ≫= fun p => need (b64uBig q) ≫= fun q =>
       if existsb (fun v => maxRSAModulusBits <? BitLen v) [d; p; q] then stop Failed
       else
         let priv := Precompute C (MkRsaPrivate (MkRsaPublic n e) d [p; q] 0 0 0) in
         if negb (Validate C priv) then stop Failed
         else put_key draws (key_rsaPriv priv) ≫= fun id => mret (AKey id true (Bits (BitLen n)))) s.
Proof.
  intros Hn Hck He Hd Hp Hq Hdp Hdq Hqi.
  destruct (b64uBig_bigB64u n 0 ltac:(lia) ltac:(by right)) as [En _].
  destruct (b64uBig_bigB64u e 0 ltac:(lia) ltac:(right; lia)) as [Ee _].
  unfold opRSAImportJWK. read_args. cbn [str text_arg].
  rewrite (unmarshal_marshal _ (rsa_jwk_plain _ d p q dp dq qi Hd Hp Hq Hdp Hdq Hqi)), need_some.
  unfold rsa_jwk. cbn [jKty jCrv jX jY jD jN jE jP jQ N E]. rewrite bool_decide_false by (intros H; by apply H).
  rewrite En, need_some, Ee, need_some, Hck. cbn [negb].
  pose proof (BitLen_lt e 32 ltac:(lia) ltac:(lia)) as Hb.
  assert ((negb (e <? 2 ^ 63) || (e <? 3) || (32 <? BitLen e)) = false) as ->; [|done].
  apply orb_false_iff. split; [apply orb_false_iff; split|]; [apply negb_false_iff, Z.ltb_lt|apply Z.ltb_ge|apply Z.ltb_ge];
    lia.
Qed.

Lemma ed_jwk_plain pub d : plain d → plain_jwk (ed_jwk pub d).
Proof.
  intros Hd. unfold plain_jwk, ed_jwk. cbn [jKty jCrv jX jY jD jN jE jP jQ jDp jDq jQi jK].
  repeat (constructor; [first [by auto with subtle|by apply ascii_plain; by_decide]|]). constructor.
Qed.

Lemma ed_import C pub d draws s :
  Forall is_byte pub → zlen pub = 32 → plain d →
  opEdImport C draws [text_arg (lit "jwk"); text_arg (marshal_jwk (ed_jwk pub d))] s
  = (if bool_decide (d = []) then
       put_key draws (key_edPub pub) ≫= fun id => mret (AKey id false NoExtra)
     else
       need (DecodeString d) ≫= fun seed =>
       if negb (zlen seed =? SeedSize) then stop Failed
       else put_key draws (key_edPriv (NewKeyFromSeed C seed)) ≫= fun id => mret (AKey id true NoExtra)) s.
Proof.
  intros Hb Hl Hd. unfold opEdImport. read_args. cbn [str text_arg].
  change (bool_decide (lit "jwk" = lit "jwk")) with true. cbv iota.
  rewrite (unmarshal_marshal _ (ed_jwk_plain pub d Hd)), need_some. unfold ed_jwk. cbn [jKty jCrv jX jD].
  change (bool_decide (lit "OKP" ≠ lit "OKP") || bool_decide (lit "Ed25519" ≠ lit "Ed25519")) with false. cbv iota.
  rewrite b64_roundtrip by done. by rewrite need_some, Hl.
Qed.

(** Importing a text stores the key [k] and says which half it is. *)
Definition imports (C : Crypto) (k : subtleKey) (t : bytes) : Prop :=
  ∀ draws s id s', put draws k s = Some (id, s') →
    ∃ x, import_jwk C (family_of k) draws t s = Some (Answer (AKey id (is_private k) x), s').

Definition exports (C : Crypto) (k : subtleKey) (t : bytes) : Prop :=
  ∀ v s, keys s !! num v = Some k → export_jwk C (family_of k) v s = Some (Answer (AText t), (get v s).2).

Lemma ec_jwk_back C c x y k :
  c ≠ P224 → 0 <= x → 0 <= y → IsOnCurve C c x y = true →
  (k = key_ecPub (MkEcPublic c x y) ∨ ∃ d, 0 <= d ∧ k = key_ecPriv (MkEcPrivate (MkEcPublic c x y) d)) →
  ∃ t, exports C k t ∧ imports C k t.
Proof.
  intros Hc Hx Hy Hon [->|(d & Hd & ->)].
  - exists (marshal_jwk (ec_jwk (MkEcPublic c x y) [])). split.
    + intros v s Hk. change (family_of _) with FEc. cbn [export_jwk]. unfold opECExportJWK. read_args.
      by rewrite (get_key_then v s _ _ Hk).
    + intros draws s id s' Hp. exists (Crv (curveName c)). change (family_of _) with FEc. cbn [import_jwk].
      rewrite (ec_import C c x y []) by (done || apply plain_nil). rewrite bool_decide_true by done.
      by rewrite (put_key_then _ _ _ _ _ _ Hp).
  - exists (marshal_jwk (ec_jwk (MkEcPublic c x y) (bigB64u d (curve_size c)))). split.
    + intros v s Hk. change (family_of _) with FEc. cbn [export_jwk]. unfold opECExportJWK. read_args.
      by rewrite (get_key_then v s _ _ Hk).
    + intros draws s id s' Hp. exists (Crv (curveName c)). change (family_of _) with FEc. cbn [import_jwk].
      destruct (b64uBig_bigB64u d (curve_size c) Hd ltac:(left; apply curve_size_pos)) as [Ed Hne].
      rewrite (ec_import C c x y) by (done || apply bigB64u_plain). rewrite bool_decide_false by done.
      by rewrite Ed, need_some, (put_key_then _ _ _ _ _ _ Hp).
Qed.

Lemma modulus_cap v : 0 < v < 2 ^ 8192 → (maxRSAModulusBits <? BitLen v) = false.
Proof. intros [H1 H2]. apply Z.ltb_ge, BitLen_lt; [split; [by apply Z.lt_le_incl|exact H2]|done]. Qed.

Lemma rsa_jwk_back C n e k :
  0 < n → checkRSAModulus n = true → 3 <= e < 2 ^ 32 →
  (k = key_rsaPub (MkRsaPublic n e) ∨
   ∃ priv d p q, k = key_rsaPriv priv ∧ Forall (fun v => 0 < v < 2 ^ 8192) [d; p; q]
     ∧ rsaPublicKey priv = MkRsaPublic n e ∧ rsaD priv = d ∧ Primes priv = [p; q]
     ∧ Precompute C (MkRsaPrivate (MkRsaPublic n e) d [p; q] 0 0 0) = priv ∧ Validate C priv = true) →
  ∃ t, exports C k t ∧ imports C k t.
Proof.
  intros Hn Hck He [->|(priv & d & p & q & -> & Hf & Epub & Ed & Eps & Epre & Eval)].
  - exists (marshal_jwk (rsa_jwk (MkRsaPublic n e) [] [] [] [] [] [])). split.
    + intros v s Hk. change (family_of _) with FRsa. cbn [export_jwk]. unfold opRSAExportJWK. read_args.
      by rewrite (get_key_then v s _ _ Hk).
    + intros draws s id s' Hp. exists (Bits (BitLen n)). change (family_of _) with FRsa. cbn [import_jwk].
      rewrite (rsa_import C n e) by (done || apply plain_nil). rewrite bool_decide_true by done.
      by rewrite (put_key_then _ _ _ _ _ _ Hp).
  - rewrite !Forall_cons in Hf. destruct Hf as (Hd & Hp & Hq & _).
    exists (marshal_jwk (rsa_jwk (MkRsaPublic n e) (bigB64u d 0) (bigB64u p 0) (bigB64u q 0)
                           (bigB64u (Dp priv) 0) (bigB64u (Dq priv) 0) (bigB64u (Qinv priv) 0))). split.
    + intros v s Hk. change (family_of _) with FRsa. cbn [export_jwk]. unfold opRSAExportJWK. read_args.
      rewrite (get_key_then v s _ _ Hk). cbn [rsaPriv key_rsaPriv]. by rewrite Eps, Epub, Ed.
    + intros draws s id s' Hput. exists (Bits (BitLen n)). change (family_of _) with FRsa. cbn [import_jwk].
      destruct (b64uBig_bigB64u d 0 ltac:(lia) ltac:(right; lia)) as [E1 Hne].
      destruct (b64uBig_bigB64u p 0 ltac:(lia) ltac:(right; lia)) as [E2 _].
      destruct (b64uBig_bigB64u q 0 ltac:(lia) ltac:(right; lia)) as [E3 _].
      rewrite (rsa_import C n e) by (done || apply bigB64u_plain). rewrite bool_decide_false by done.
      rewrite E1, need_some, E2, need_some, E3, need_some. cbn [existsb]. rewrite !modulus_cap by done. cbn [orb].
      cbv zeta. rewrite Epre, Eval. cbn [negb]. by rewrite (put_key_then _ _ _ _ _ _ Hput).
Qed.

Lemma ed_jwk_back C pub k :
  Forall is_byte pub → zlen pub = 32 →
  (k = key_edPub pub ∨ ∃ seed, Forall is_byte seed ∧ zlen seed = 32 ∧ NewKeyFromSeed C seed = seed ++ pub
                               ∧ k = key_edPriv (seed ++ pub)) →
  ∃ t, exports C k t ∧ imports C k t.
Proof.
  intros Hb Hl [->|(seed & Hsb & Hsl & Enew & ->)].
  - exists (marshal_jwk (ed_jwk pub [])). split.
    + intros v s Hk. change (family_of _) with FEd. cbn [export_jwk]. unfold opEdExport. read_args.
      by rewrite (get_key_then v s _ _ Hk).
    + intros draws s id s' Hp. exists NoExtra. change (family_of _) with FEd. cbn [import_jwk].
      rewrite (ed_import C pub []) by (done || apply plain_nil). rewrite bool_decide_true by done.
      by rewrite (put_key_then _ _ _ _ _ _ Hp).
  - assert (Hlen : length seed = 32%nat) by (unfold zlen in Hsl; lia).
    exists (marshal_jwk (ed_jwk pub (EncodeToString seed))). split.
    + intros v s Hk. change (family_of _) with FEd. cbn [export_jwk]. unfold opEdExport. read_args.
      rewrite (get_key_then v s _ _ Hk). unfold ed_public, ed_of_private, ed_seed. cbn [edPub edPriv key_edPriv].
      cbn [fmap option_fmap option_map]. rewrite need_some. rewrite drop_app_length', take_app_length' by done. done.
    + intros draws s id s' Hp. exists NoExtra. change (family_of _) with FEd. cbn [import_jwk].
      rewrite (ed_import C pub) by (done || apply encode_plain). rewrite bool_decide_false.
      2:{ intros E%encode_nil. subst seed. by vm_compute in Hsl. }
      rewrite b64_roundtrip by done. rewrite need_some, Hsl. change (negb (32 =? SeedSize)) with false. cbv iota. rewrite Enew.
      by rewrite (put_key_then _ _ _ _ _ _ Hp).
Qed.

(** A key of P-224, which only a DER file brings, is exported without a curve. *)
Lemma p224_jwk_refused C pub d draws s : Curve pub = P224 → plain d →
  opECImportJWK C draws [text_arg (marshal_jwk (ec_jwk pub d))] s = Some (Failed, s).
Proof.
  intros Hc Hd. unfold opECImportJWK. read_args. cbn [str text_arg]. rewrite (unmarshal_marshal _ (ec_jwk_plain _ d Hd)), need_some.
  unfold ec_jwk. cbn [jKty jCrv]. by rewrite bool_decide_false, Hc by (intros H; by apply H).
Qed.

(** C17: A key that can be carried by a JWK survives it: exported and imported
    again, on whatever table, it is the key it was; its numbers and bytes survive
    the padding, base64url and JSON, and the private half is there exactly when
    it was before. Those keys are the EC keys of P-256, P-384 and P-521, the
    RSA keys of at most two primes with a modulus within the cap and an exponent
    from 3 to 2^32 - 1, and the Ed25519 keys. An EC key of P-224, which a DER
    file can bring, is exported too, but without a curve's name, and the import
    refuses that. *)
Theorem jwk_roundtrip (C : Crypto) (k : subtleKey) :
  (exportable C k → ∃ t, exports C k t ∧ imports C k t) ∧
  (∀ x y, k = key_ecPub (MkEcPublic P224 x y) ∨ (∃ d, 0 <= d ∧ k = key_ecPriv (MkEcPrivate (MkEcPublic P224 x y) d)) →
     ∃ t, exports C k t ∧ ∀ draws s, import_jwk C (family_of k) draws t s = Some (Failed, s)).
Proof.
  split.
  - intros [(c & x & y & Hc & Hx & Hy & Hon & Hk)|[(n & e & Hn & Hck & He & Hk)|(pub & Hb & Hl & Hk)]];
      [exact (ec_jwk_back C c x y k Hc Hx Hy Hon Hk)|exact (rsa_jwk_back C n e k Hn Hck He Hk)|exact (ed_jwk_back C pub k Hb Hl Hk)].
  - intros x y [->|(d & Hd & ->)]; eexists; (split; [intros v s Hk; change (family_of _) with FEc; cbn [export_jwk]; unfold opECExportJWK;
      read_args; by rewrite (get_key_then v s _ _ Hk)|intros draws s; by apply p224_jwk_refused; auto with subtle]).
Qed.

(** ** Signatures *)

(** What crypto/ecdsa promises: a signature's numbers fit the curve, and verify
    under the public half. *)
Class EcdsaLaws (C : Crypto) : Prop := {
  ecdsa_sign_range : ∀ rnd priv d r sv, ecdsaSign C rnd priv d = Some (r, sv) →
    0 <= r < 256 ^ Z.of_nat (curve_size (Curve (ecPublicKey priv)))
    ∧ 0 <= sv < 256 ^ Z.of_nat (curve_size (Curve (ecPublicKey priv)));
  ecdsa_verifies : ∀ rnd priv d r sv, ecdsaSign C rnd priv d = Some (r, sv) →
    ecdsaVerify C (ecPublicKey priv) d r sv = true
}.

(** A signature opECSign answers is twice the curve's size, never a
    panic of FillBytes, and opECVerify accepts it for the same hash and data,
    under the private key's handle and under that of its public half. *)
Theorem ecdsa_sign_verifies (C : Crypto) `{EcdsaLaws C} rnd (name v data : arg) (s : subtleAPI) priv d h :
  keys s !! num v = Some (key_ecPriv priv) → argBytes data = Some d → hashByName (str name) = Some h →
  ecdsaSign C rnd priv (hashSum C h d) = None ∨
  ∃ sig, opECSign C rnd [name; v; data] s = Some (Answer (ABytes sig), (get v s).2)
    ∧ length sig = (2 * curve_size (Curve (ecPublicKey priv)))%nat
    ∧ ∀ s2 v2 k, keys s2 !! num v2 = Some k → (k = key_ecPriv priv ∨ k = key_ecPub (ecPublicKey priv)) →
        opECVerify C [name; v2; bytes_arg sig; data] s2 = Some (Answer (ABool true), (get v2 s2).2).
Proof.
  intros Hk Hd Hh. destruct (ecdsaSign C rnd priv (hashSum C h d)) as [[r sv]|] eqn:Hs; [right|by left].
  destruct (ecdsa_sign_range _ _ _ _ _ Hs) as [Hr Hsv]. pose proof (ecdsa_verifies _ _ _ _ _ Hs) as Hv.
  set (size := curve_size _) in *. destruct (fill_bytes_ok size r Hr) as (br & Fr & Lr & Br & _).
  destruct (fill_bytes_ok size sv Hsv) as (bs & Fs & Ls & Bs & _). exists (br ++ bs).
  split; [|split; [rewrite length_app; lia|]].
  - unfold opECSign. rewrite at_least_ok by reflexivity. rewrite (arg_at_some _ 0 name), (arg_at_some _ 1 v),
      (arg_at_some _ 2 data) by reflexivity. rewrite Hh, need_some, (get_key_then v s _ _ Hk).
    cbn [ecPriv key_ecPriv]. rewrite need_some, Hd, need_some, Hs, need_some. cbv zeta. fold size. cbn [fst snd].
    by rewrite Fr, Fs.
  - intros s2 v2 k Hk2 Hkk. unfold opECVerify. rewrite at_least_ok by reflexivity.
    rewrite (arg_at_some _ 0 name), (arg_at_some _ 1 v2), (arg_at_some _ 2 (bytes_arg (br ++ bs))),
      (arg_at_some _ 3 data) by reflexivity.
    rewrite Hh, need_some, (get_key_then v2 s2 _ _ Hk2).
    assert (ec_public k = Some (ecPublicKey priv)) as -> by (destruct Hkk as [-> | ->]; done).
    rewrite need_some. change (argBytes (bytes_arg (br ++ bs))) with (Some (br ++ bs)). rewrite need_some, Hd, need_some.
    cbv zeta. fold size. assert ((zlen (br ++ bs) =? 2 * Z.of_nat size) = true) as ->.
    { apply Z.eqb_eq. unfold zlen. rewrite length_app. lia. }
    cbn [negb]. rewrite take_app_length', drop_app_length' by done. by rewrite Br, Bs, Hv.
Qed.

(** C15: Every entry of the key table is typed: whatever the guest calls,
    an entry of a reachable table holds exactly one kind of material (HMAC, or
    one half of an RSA, EC or Ed25519 pair) under a handle that is a positive
    integer below 2^52, exact as a float64; the recency list names each entry
    once; and there are at most 1024. *)
Theorem key_table_typed (C : Crypto) (s : subtleAPI) :
  reachable C s →
  (∀ id k, keys s !! id = Some k → 0 < id < 2 ^ 52 ∧ one_kind k)
  ∧ NoDup (lru s) ∧ (∀ id, id ∈ lru s ↔ is_Some (keys s !! id)) ∧ (∀ id, id ∈ elems s ↔ is_Some (keys s !! id))
  ∧ (size (keys s) <= maxSubtleKeys)%nat.
Proof.
  intros Hr%table_wf. destruct Hr as [Hn Hl He Hs Hk]. repeat (split; [done|]). by rewrite lru_size.
Qed.

(** ** Toy algorithms, to run the operations *)

Definition toy_ec (c : curve) : ecPrivate := MkEcPrivate (MkEcPublic c 3 4) 5.

Definition toy_crypto : Crypto :=
  MkCrypto toy_kdfs (fun _ _ _ => true) (fun _ c => Some (toy_ec c)) (fun _ _ _ => Some (1, 2))
    (fun _ _ r s => (r =? 1) && (s =? 2)) (fun _ _ => None) (fun k => k) (fun _ => true) (fun _ _ _ => None)
    (fun _ _ _ _ => false) (fun _ _ _ _ _ => None) (fun _ _ _ _ _ => false) (fun _ _ _ _ _ => None)
    (fun _ _ _ _ => None) (fun _ => None) (fun seed => seed ++ seed) (fun _ d => d) (fun _ _ _ => true)
    (fun _ => None) (fun _ => None) (fun _ => None) (fun _ => None).

#[export] Instance toy_ecdsa : EcdsaLaws toy_crypto.
Proof.
  split.
  - intros rnd priv d r sv [= <- <-].
    assert (H2 : 2 < 256 ^ Z.of_nat (curve_size (Curve (ecPublicKey priv)))); [|lia].
    destruct (Curve (ecPublicKey priv)); vm_compute; reflexivity.
  - by intros rnd priv d r sv [= <- <-].
Qed.

(** An EC pair under the handles 7 (private) and 9 (public). *)
Definition toy_table : subtleAPI := MkApi {[7 := key_ecPriv (toy_ec P256); 9 := key_ecPub (MkEcPublic P256 3 4)]} {[7; 9]} [9; 7].

Lemma toy_table_made : ops toy_crypto ECGenerate [] [0; 7] [7; 9] [text_arg (lit "P-256")] newSubtleAPI
                       = Some (Answer (APair 7 9), toy_table).
Proof. vm_compute. reflexivity. Qed.

Lemma toy_table_reachable : reachable toy_crypto toy_table.
Proof. eapply reach_op; [apply reach_new|apply toy_table_made]. Qed.

Lemma key_table_typed_witness :
  (∀ id k, keys toy_table !! id = Some k → 0 < id < 2 ^ 52 ∧ one_kind k)
  ∧ NoDup (lru toy_table) ∧ (∀ id, id ∈ lru toy_table ↔ is_Some (keys toy_table !! id))
  ∧ (∀ id, id ∈ elems toy_table ↔ is_Some (keys toy_table !! id))
  ∧ (size (keys toy_table) <= maxSubtleKeys)%nat.
Proof. exact (key_table_typed toy_crypto toy_table toy_table_reachable). Defined.

Lemma answers_need_the_key_witness :
  ∃ v k, [text_arg (lit "SHA-256"); num_arg 7; bytes_arg [1]] !! 1%nat = Some v ∧ keys toy_table !! num v = Some k
  ∧ suits ECSign [text_arg (lit "SHA-256"); num_arg 7; bytes_arg [1]] k
  ∧ MkApi (keys toy_table) (elems toy_table) [7; 9] = (get v toy_table).2
  ∧ keys (MkApi (keys toy_table) (elems toy_table) [7; 9]) = keys toy_table.
Proof.
  apply (answers_need_the_key toy_crypto toy_table ECSign [] [] [] [text_arg (lit "SHA-256"); num_arg 7; bytes_arg [1]] 1
           (ABytes (replicate 31 0 ++ [1] ++ replicate 31 0 ++ [2]))).
  - reflexivity.
  - vm_compute. reflexivity.
Defined.

Lemma key_survives_witness :
  keys (MkApi (keys toy_table) (elems toy_table) [7; 9]) !! 9 = Some (key_ecPub (MkEcPublic P256 3 4)).
Proof.
  apply (key_survives toy_crypto toy_table 9 (key_ecPub (MkEcPublic P256 3 4)) ([7] ++ [])).
  - exact toy_table_reachable.
  - reflexivity.
  - vm_compute. reflexivity.
  - eapply (runs_op toy_crypto toy_table ECSign [] [] [] [text_arg (lit "SHA-256"); num_arg 7; bytes_arg [1]]
              (Answer (ABytes (replicate 31 0 ++ [1] ++ replicate 31 0 ++ [2])))); [vm_compute; reflexivity|].
    apply runs_nil.
  - vm_compute. lia.
Defined.

Lemma jwk_roundtrip_witness :
  ∃ t, exports toy_crypto (key_ecPriv (toy_ec P256)) t ∧ imports toy_crypto (key_ecPriv (toy_ec P256)) t.
Proof.
  apply (proj1 (jwk_roundtrip toy_crypto (key_ecPriv (toy_ec P256)))).
  left. exists P256, 3, 4. split; [done|]. split; [lia|]. split; [lia|]. split; [reflexivity|]. right. exists 5. split; [lia|reflexivity].
Defined.

Lemma ecdsa_sign_verifies_witness :
  ∃ sig, opECSign toy_crypto [] [text_arg (lit "SHA-256"); num_arg 7; bytes_arg [1]] toy_table
           = Some (Answer (ABytes sig), (get (num_arg 7) toy_table).2).
Proof.
  destruct (ecdsa_sign_verifies toy_crypto [] (text_arg (lit "SHA-256")) (num_arg 7) (bytes_arg [1]) toy_table
              (toy_ec P256) [1] SHA256) as [H|(sig & H & _)].
  - vm_compute. reflexivity.
  - reflexivity.
  - reflexivity.
  - discriminate H.
  - exists sig. exact H.
Defined.
