(* ===== verification/NodeKeys.v ===== *)
(** Asymmetric keys of node:crypto (compat/nodejs/nodecrypto2.go): reading and
    writing key files, KeyObject export, key pairs, JWK, sign and verify, and
    ECDH. A key lives in the guest as PEM text; every operation parses it again.

    encoding/pem, crypto/x509 and the algorithms are a parameter, [KeyLib], with
    what their documentation promises as [KeyLibLaws]: containers give back what
    they were made of and are not mistaken for one another, and signatures
    verify. A function takes its arguments as HostArg.v describes. *)

From S2P Require Import Prelude HostArg Encoding Kdf Subtle.

(** ** Keys *)

(** The curves of crypto/elliptic; P-224 has no name in node:crypto here. *)
Definition ecCurve : Type := curve.

Record ecdsaPublic := MkEcdsaPublic { ecCurveOf : ecCurve; ecX : Z; ecY : Z }.
Record ecdsaPrivate := MkEcdsaPrivate { ecdsaPublicKey : ecdsaPublic; ecdsaD : Z }.

(** The dynamic types of the keys x509 answers with. An Ed25519 private key is
    seed and public key, 64 bytes; an X25519 key its 32 bytes. *)
Inductive privKey := RSAPriv (k : rsaPrivate) | ECPriv (k : ecdsaPrivate) | EdPriv (k : bytes) | XPriv (k : bytes).
Inductive pubKey := RSAPub (k : rsaPublic) | ECPub (k : ecdsaPublic) | EdPub (k : bytes) | XPub (k : bytes) | DSAPub.

Inductive anyKey := Priv (k : privKey) | Pub (k : pubKey).

(** ** Go's packages *)

Record KeyLib := MkKeyLib {
  hashes :> Kdfs;
  pemDecode : bytes → option bytes;                   (** the first block's bytes *)
  pemEncode : bytes → bytes → bytes;                  (** label, bytes *)
  ParsePKCS8PrivateKey : bytes → option privKey;
  ParsePKCS1PrivateKey : bytes → option rsaPrivate;
  ParseECPrivateKey : bytes → option ecdsaPrivate;
  ParsePKIXPublicKey : bytes → option pubKey;
  ParsePKCS1PublicKey : bytes → option rsaPublic;
  MarshalPKCS8PrivateKey : privKey → option bytes;
  MarshalPKCS1PrivateKey : rsaPrivate → bytes;
  MarshalECPrivateKey : ecdsaPrivate → option bytes;
  MarshalPKIXPublicKey : pubKey → option bytes;
  MarshalPKCS1PublicKey : rsaPublic → bytes;
  X25519Public : bytes → bytes;
  GenerateRSA : bytes → Z → option rsaPrivate;
  GenerateEC : bytes → curve → option ecdsaPrivate;
  GenerateEd : bytes → option bytes;
  GenerateX25519 : bytes → option bytes;
  rsaPrecompute : rsaPrivate → rsaPrivate;
  rsaSignPKCS1v15 : rsaPrivate → hash → bytes → option bytes;
  rsaVerifyPKCS1v15 : rsaPublic → hash → bytes → bytes → bool;
  rsaSignPSS : bytes → rsaPrivate → hash → bytes → Z → option bytes;
  rsaVerifyPSS : rsaPublic → hash → bytes → bytes → Z → bool;
  SignASN1 : bytes → ecdsaPrivate → bytes → option bytes;
  VerifyASN1 : ecdsaPublic → bytes → bytes → bool;
  ed25519Sign : bytes → bytes → bytes;
  ed25519Verify : bytes → bytes → bytes → bool;
  ecdhGenerate : bytes → curve → option (bytes * bytes);          (** private, public *)
  ecdhPrivate : curve → bytes → option bytes;
  ecdhPublic : curve → bytes → option bytes;
  ecdhShared : curve → bytes → bytes → option bytes;
  x25519Shared : bytes → bytes → option bytes
}.

(** ** Names *)

(** hashForSign *)
Definition hashForSign (name : bytes) : option hash :=
  if bool_decide (name ∈ [lit "sha256"; lit "RSA-SHA256"; lit "ecdsa-with-SHA256"]) then nodeHashByName (lit "sha256")
  else if bool_decide (name = lit "sha384") then nodeHashByName (lit "sha384")
  else if bool_decide (name = lit "sha512") then nodeHashByName (lit "sha512")
  else if bool_decide (name = lit "sha1") then nodeHashByName (lit "sha1")
  else nodeHashByName name.

Definition noDigestAlgo (s : bytes) : bool :=
  bool_decide (s ∈ [[]; lit "null"; lit "undefined"; lit "ed25519"]).

(** rsa.PSSSaltLengthEqualsHash is -1 and PSSSaltLengthAuto is 0. *)
Definition pssSaltLength (n : Z) : Z := if n =? -1 then -1 else if n <? 0 then 0 else n.

(** ecCurveByName and ecdhCurveNode *)
Definition ecCurveByName (name : bytes) : option curve :=
  if bool_decide (name ∈ [lit "P-256"; lit "prime256v1"; lit "secp256r1"]) then Some P256
  else if bool_decide (name ∈ [lit "P-384"; lit "secp384r1"]) then Some P384
  else if bool_decide (name ∈ [lit "P-521"; lit "secp521r1"]) then Some P521
  else None.

Definition asymmetricKeyTypeOf (key : anyKey) : bytes :=
  match key with
  | Priv (RSAPriv _) | Pub (RSAPub _) => lit "rsa"
  | Priv (ECPriv _) | Pub (ECPub _) => lit "ec"
  | Priv (EdPriv _) | Pub (EdPub _) => lit "ed25519"
  | Priv (XPriv _) | Pub (XPub _) => lit "x25519"
  | Pub DSAPub => []
  end.

Definition optOr {A} (o : option A) (k : option A) : option A := match o with Some a => Some a | None => k end.

Section Keys.
Context (L : KeyLib).

(** ** Reading keys *)

Definition parsePrivateKey (pem : bytes) : option privKey :=
  block ← pemDecode L pem;
  optOr (ParsePKCS8PrivateKey L block)
    (optOr (RSAPriv <$> ParsePKCS1PrivateKey L block) (ECPriv <$> ParseECPrivateKey L block)).

Definition parsePublicKey (pem : bytes) : option pubKey :=
  block ← pemDecode L pem;
  optOr (ParsePKIXPublicKey L block) (RSAPub <$> ParsePKCS1PublicKey L block).

(** What the interface holds when parsePublicKey fails: nil without a PEM block,
    and a nil [*rsa.PublicKey] when x509 refuses the block. *)
Inductive failedKey := NilKey | NilRSA.

Definition failed_public (pem : bytes) : failedKey := match pemDecode L pem with None => NilKey | Some _ => NilRSA end.

Definition parseAnyKey (pem : bytes) : option anyKey :=
  match parsePrivateKey pem with
  | Some k => Some (Priv k)
  | None => Pub <$> parsePublicKey pem
  end.

Definition publicKeyOf (k : privKey) : pubKey :=
  match k with
  | RSAPriv k => RSAPub (rsaPublicKey k)
  | ECPriv k => ECPub (ecdsaPublicKey k)
  | EdPriv k => EdPub (drop 32 k)
  | XPriv k => XPub (X25519Public L k)
  end.

(** ** Writing keys *)

(** The DER bytes and the PEM label. *)
Definition marshalPrivateKeyDER (key : privKey) (typ : bytes) : option (bytes * bytes) :=
  if bool_decide (typ ∈ [lit "pkcs8"; []]) then (λ der, (der, lit "PRIVATE KEY")) <$> MarshalPKCS8PrivateKey L key
  else if bool_decide (typ = lit "pkcs1") then
    match key with RSAPriv k => Some (MarshalPKCS1PrivateKey L k, lit "RSA PRIVATE KEY") | _ => None end
  else if bool_decide (typ = lit "sec1") then
    match key with ECPriv k => (λ der, (der, lit "EC PRIVATE KEY")) <$> MarshalECPrivateKey L k | _ => None end
  else None.

Definition marshalPublicKeyDER (key : pubKey) (typ : bytes) : option (bytes * bytes) :=
  if bool_decide (typ ∈ [lit "spki"; []]) then (λ der, (der, lit "PUBLIC KEY")) <$> MarshalPKIXPublicKey L key
  else if bool_decide (typ = lit "pkcs1") then
    match key with RSAPub k => Some (MarshalPKCS1PublicKey L k, lit "RSA PUBLIC KEY") | _ => None end
  else None.

(** ** JWK *)

Definition jwkB64 (b : bytes) : bytes := EncodeToString b.

Definition jwkBigFixed (n : Z) (size : nat) : bytes :=
  let b := big_bytes n in jwkB64 (if (length b <? size)%nat then replicate (size - length b) 0 ++ b else b).

Definition jwkCurveName (c : ecCurve) : option bytes := match c with P224 => None | c => Some (curveName c) end.

(** (k.Curve.Params().BitSize + 7) / 8 *)
Definition coordinateSize (c : ecCurve) : nat := curve_size c.

Definition jwk : Type := list (bytes * bytes).

Definition ec_members (k : ecdsaPublic) : option jwk :=
  crv ← jwkCurveName (ecCurveOf k);
  let size := coordinateSize (ecCurveOf k) in
  Some [(lit "kty", lit "EC"); (lit "crv", crv); (lit "x", jwkBigFixed (ecX k) size); (lit "y", jwkBigFixed (ecY k) size)].

Definition rsa_members (k : rsaPublic) : jwk :=
  [(lit "kty", lit "RSA"); (lit "n", jwkB64 (big_bytes (N k))); (lit "e", jwkB64 (big_bytes (E k)))].

Definition okp_members (crv x : bytes) : jwk := [(lit "kty", lit "OKP"); (lit "crv", crv); (lit "x", jwkB64 x)].

Definition keyToJWK (key : anyKey) (includePrivate : bool) : option jwk :=
  match key with
  | Pub (RSAPub k) => Some (rsa_members k)
  | Priv (RSAPriv k0) =>
      let k := if includePrivate then rsaPrecompute L k0 else k0 in
      let prime i := big_bytes (default 0 (Primes k !! i)) in
      Some (rsa_members (rsaPublicKey k) ++
        if includePrivate then
          [(lit "d", jwkB64 (big_bytes (rsaD k))); (lit "p", jwkB64 (prime 0%nat)); (lit "q", jwkB64 (prime 1%nat));
           (lit "dp", jwkB64 (big_bytes (Dp k))); (lit "dq", jwkB64 (big_bytes (Dq k))); (lit "qi", jwkB64 (big_bytes (Qinv k)))]
        else [])
  | Pub (ECPub k) => ec_members k
  | Priv (ECPriv k) =>
      m ← ec_members (ecdsaPublicKey k);
      Some (m ++ if includePrivate then [(lit "d", jwkBigFixed (ecdsaD k) (coordinateSize (ecCurveOf (ecdsaPublicKey k))))] else [])
  | Pub (EdPub k) => Some (okp_members (lit "Ed25519") k)
  | Priv (EdPriv k) =>
      Some (okp_members (lit "Ed25519") (drop 32 k) ++ if includePrivate then [(lit "d", jwkB64 (take 32 k))] else [])
  | Pub (XPub k) => Some (okp_members (lit "X25519") k)
  | Priv (XPriv k) =>
      Some (okp_members (lit "X25519") (X25519Public L k) ++ if includePrivate then [(lit "d", jwkB64 k)] else [])
  | Pub DSAPub => None
  end.

(** ** Operations *)

(** What they answer. *)
Inductive keyAnswer :=
| Bytes (b : bytes)
| Text (s : bytes)
| Truth (b : bool)
| Jwk (m : jwk)
| Parsed (keyType : bytes) (asymmetricKeyType : bytes) (privatePem : option bytes) (publicPem : bytes).

(** The public half of a parsed key. *)
Definition public_of (k : anyKey) : pubKey := match k with Priv k => publicKeyOf k | Pub k => k end.

Definition opKeyParse (args : list arg) : outcome keyAnswer :=
  match args with
  | v :: _ =>
      or_fail (valueBytes v) (λ raw,
      or_lib (parseAnyKey raw) (λ key,
      let finish (kind : bytes) (priv : option bytes) :=
        or_lib (marshalPublicKeyDER (public_of key) (lit "spki")) (λ '(der, _),
        Answer (Parsed kind (asymmetricKeyTypeOf key) priv (pemEncode L (lit "PUBLIC KEY") der))) in
      match key with
      | Priv k =>
          or_lib (marshalPrivateKeyDER k (lit "pkcs8")) (λ '(der, _),
          finish (lit "private") (Some (pemEncode L (lit "PRIVATE KEY") der)))
      | Pub _ => finish (lit "public") None
      end))
  | _ => Failed
  end.

Definition opKeyExport (args : list arg) : outcome keyAnswer :=
  match args with
  | v :: want :: fmt :: typ :: _ =>
      or_fail (valueBytes v) (λ raw,
      let wantPrivate := truth want in
      let format := str fmt in
      or_lib (parseAnyKey raw) (λ key,
      if bool_decide (format = lit "jwk") then
        let target := match key with
                      | Priv k => if wantPrivate then key else Pub (publicKeyOf k)
                      | Pub _ => key
                      end in
        or_lib (keyToJWK target wantPrivate) (λ m, Answer (Jwk m))
      else
        let write '(der, label) :=
          Answer (if bool_decide (format = lit "der") then Bytes der else Text (pemEncode L label der)) in
        if wantPrivate then
          match key with
          | Pub _ => Refused "cannot export a private key from public key material"
          | Priv k => or_lib (marshalPrivateKeyDER k (str typ)) write
          end
        else or_lib (marshalPublicKeyDER (public_of key) (str typ)) write))
  | _ => Failed
  end.

(** *** Signatures *)

Definition opSign (rnd : bytes) (args : list arg) : outcome keyAnswer :=
  match args with
  | algoV :: keyV :: dataV :: _ =>
      let algo := str algoV in
      or_fail (valueBytes keyV) (λ keyPEM,
      or_fail (valueBytes dataV) (λ data,
      or_lib (parsePrivateKey keyPEM) (λ key,
      match key with
      | EdPriv k =>
          if noDigestAlgo algo then Answer (Bytes (ed25519Sign L k data))
          else Refused "ed25519 does not support a digest algorithm"
      | _ =>
          if noDigestAlgo algo then Refused "a digest algorithm is required for this key type"
          else
            or_lib (hashForSign algo) (λ h,
            let digest := sum L h data in
            let padding := opt_defined args 3 intArg 1 in
            let saltLen := opt_defined args 4 intArg (-2) in
            match key with
            | RSAPriv k =>
                if negb (checkRSAModulus (N (rsaPublicKey k))) then LibRefused
                else if padding =? 6 then
                  or_lib (rsaSignPSS L rnd k h digest (pssSaltLength saltLen)) (λ sig, Answer (Bytes sig))
                else if negb (padding =? 1) then Refused "unsupported RSA padding"
                else or_lib (rsaSignPKCS1v15 L k h digest) (λ sig, Answer (Bytes sig))
            | ECPriv k => or_lib (SignASN1 L rnd k digest) (λ sig, Answer (Bytes sig))
            | _ => Refused "unsupported private key type"
            end)
      end)))
  | _ => Failed
  end.

(** The key opVerify works with: a public one, that of a private one, or what is
    left in the variable after a failure. *)
Definition verifyKey (keyPEM : bytes) : option (pubKey + failedKey) :=
  match parsePublicKey keyPEM with
  | Some k => Some (inl k)
  | None =>
      match parsePrivateKey keyPEM with
      | Some (RSAPriv k) => Some (inl (RSAPub (rsaPublicKey k)))
      | Some (ECPriv k) => Some (inl (ECPub (ecdsaPublicKey k)))
      | Some (EdPriv k) => Some (inl (EdPub (drop 32 k)))
      | Some (XPriv _) => Some (inr (failed_public keyPEM))
      | None => None
      end
  end.

Definition opVerify (args : list arg) : outcome keyAnswer :=
  match args with
  | algoV :: keyV :: dataV :: sigV :: _ =>
      let algo := str algoV in
      or_fail (valueBytes keyV) (λ keyPEM,
      or_fail (valueBytes dataV) (λ data,
      or_fail (valueBytes sigV) (λ sig,
      match verifyKey keyPEM with
      | None => Answer (Truth false)
      | Some key =>
          match key with
          | inl (EdPub k) =>
              if noDigestAlgo algo then Answer (Truth (ed25519Verify L k data sig))
              else Refused "ed25519 does not support a digest algorithm"
          | _ =>
              if noDigestAlgo algo then Refused "a digest algorithm is required for this key type"
              else
                or_lib (hashForSign algo) (λ h,
                let digest := sum L h data in
                let padding := opt_defined args 4 intArg 1 in
                let saltLen := opt_defined args 5 intArg (-2) in
                match key with
                | inl (RSAPub k) =>
                    if negb (checkRSAModulus (N k)) then Answer (Truth false)
                    else if padding =? 6 then Answer (Truth (rsaVerifyPSS L k h digest sig (pssSaltLength saltLen)))
                    else if negb (padding =? 1) then Refused "unsupported RSA padding"
                    else Answer (Truth (rsaVerifyPKCS1v15 L k h digest sig))
                | inr NilRSA => Panic
                | inl (ECPub k) => Answer (Truth (VerifyASN1 L k digest sig))
                | _ => Answer (Truth false)
                end)
          end
      end)))
  | _ => Failed
  end.

(** *** Key pairs *)

(** publicKeyEncoding or privateKeyEncoding: what keyEncodingOpts reads of it,
    and whether it has a cipher or a passphrase. *)
Record keyEncoding := MkEncoding { encType : bytes; encFormat : bytes; hasCipher : bool; hasPassphrase : bool }.

Record keyPairOptions := MkPairOptions {
  modulusLength : option Z;
  namedCurve : option bytes;
  publicKeyEncoding : option keyEncoding;
  privateKeyEncoding : option keyEncoding
}.

(** keyEncodingOpts: whether the encoding is there, its type and its format. *)
Definition keyEncodingOpts (e : option keyEncoding) : bool * bytes * bytes :=
  match e with Some e => (true, encType e, encFormat e) | None => (false, [], []) end.

(** base64.StdEncoding.EncodeToString *)
Definition StdEncodeToString (b : bytes) : bytes :=
  let e := map (λ c, if c =? 45 then 43 else if c =? 95 then 47 else c) (EncodeToString b) in
  e ++ replicate (Z.to_nat ((- zlen e) mod 4)) 61.

Inductive keyText := PemText (s : bytes) | DerBase64 (s : bytes).

Record keyPair := MkPair {
  keyType : bytes;
  publicKey : keyText;
  privateKey : keyText;
  hasPublicEncoding : bool;
  hasPrivateEncoding : bool
}.

(** The generated private key of a type. *)
Definition generate (rnd typ : bytes) (modulus : Z) (crv : bytes) : outcome privKey :=
  if bool_decide (typ = lit "rsa") then
    if (modulus <? 1024) || (8192 <? modulus) then Refused "unsupported RSA modulus length"
    else or_lib (GenerateRSA L rnd modulus) (λ k, Answer (RSAPriv k))
  else if bool_decide (typ = lit "ec") then
    or_lib (ecCurveByName crv) (λ c, or_lib (GenerateEC L rnd c) (λ k, Answer (ECPriv k)))
  else if bool_decide (typ = lit "ed25519") then or_lib (GenerateEd L rnd) (λ k, Answer (EdPriv k))
  else if bool_decide (typ = lit "x25519") then or_lib (GenerateX25519 L rnd) (λ k, Answer (XPriv k))
  else RefusedName "unsupported key type" typ.

Definition opGenerateKeyPair (rnd : bytes) (args : list arg) (opts : option keyPairOptions) : outcome keyPair :=
  match args with
  | typV :: _ :: _ =>
      let typ := str typV in
      let modulus := default 2048 (opts ≫= modulusLength) in
      let crv := default (lit "P-256") (opts ≫= namedCurve) in
      let '(hasPubEnc, pubType, pubFormat) := keyEncodingOpts (opts ≫= publicKeyEncoding) in
      let '(hasPrivEnc, privType, privFormat) := keyEncodingOpts (opts ≫= privateKeyEncoding) in
      if match opts ≫= privateKeyEncoding with Some e => hasCipher e || hasPassphrase e | None => false end then
        Refused "encrypted private key output (cipher/passphrase) is not supported"
      else
        match generate rnd typ modulus crv with
        | Answer priv =>
            or_lib (marshalPublicKeyDER (publicKeyOf priv) pubType) (λ '(pubDER, pubLabel),
            or_lib (marshalPrivateKeyDER priv privType) (λ '(privDER, privLabel),
            let text (isDer : bool) der label :=
              if isDer then DerBase64 (StdEncodeToString der) else PemText (pemEncode L label der) in
            Answer (MkPair typ
              (text (hasPubEnc && bool_decide (pubFormat = lit "der")) pubDER pubLabel)
              (text (hasPrivEnc && bool_decide (privFormat = lit "der")) privDER privLabel)
              hasPubEnc hasPrivEnc)))
        | Refused m => Refused m
        | RefusedName m q => RefusedName m q
        | LibRefused => LibRefused
        | Failed => Failed
        | Panic => Panic
        end
  | _ => Failed
  end.

(** *** ECDH *)

(** The pair, in hex. *)
Definition opECDHGenerate (rnd : bytes) (args : list arg) : outcome (bytes * bytes) :=
  match args with
  | v :: _ =>
      or_lib (ecCurveByName (str v)) (λ c,
      or_lib (ecdhGenerate L rnd c) (λ '(priv, pub), Answer (HexEncode priv, HexEncode pub)))
  | _ => Failed
  end.

Definition opECDHCompute (args : list arg) : outcome bytes :=
  match args with
  | cv :: privV :: pubV :: _ =>
      or_lib (ecCurveByName (str cv)) (λ c,
      match HexDecode (str privV) with
      | None => Refused "bad private key hex"
      | Some privRaw =>
          match HexDecode (str pubV) with
          | None => Refused "bad public key hex"
          | Some pubRaw =>
              or_lib (ecdhPrivate L c privRaw) (λ priv,
              or_lib (ecdhPublic L c pubRaw) (λ pub,
              or_lib (ecdhShared L c priv pub) (λ secret, Answer (HexEncode secret))))
          end
      end)
  | _ => Failed
  end.

Definition opDHKeyObject (args : list arg) : outcome bytes :=
  match args with
  | privV :: pubV :: _ =>
      or_fail (valueBytes privV) (λ privPEM,
      or_fail (valueBytes pubV) (λ pubPEM,
      or_lib (parsePrivateKey privPEM) (λ pk,
      match pk with
      | XPriv xpriv =>
          or_lib (parsePublicKey pubPEM) (λ pub,
          match pub with
          | XPub xpub => or_lib (x25519Shared L xpriv xpub) Answer
          | _ => Refused "public key is not an X25519/ECDH key"
          end)
      | _ => Refused "private key is not an X25519/ECDH key"
      end)))
  | _ => Failed
  end.

End Keys.

(** ** What Go's packages promise *)

(** A key one of the private containers was parsed to. *)
Definition ParsedPrivate (L : KeyLib) (k : privKey) : Prop :=
  ∃ d, ParsePKCS8PrivateKey L d = Some k ∨ RSAPriv <$> ParsePKCS1PrivateKey L d = Some k ∨
       ECPriv <$> ParseECPrivateKey L d = Some k.

Definition ParsedPublic (L : KeyLib) (k : pubKey) : Prop :=
  ∃ d, ParsePKIXPublicKey L d = Some k ∨ RSAPub <$> ParsePKCS1PublicKey L d = Some k.

(** A key a container can be made of: parsed, or the public half of a parsed
    one. *)
Definition known (L : KeyLib) (k : anyKey) : Prop :=
  match k with
  | Priv k => ParsedPrivate L k
  | Pub k => ParsedPublic L k ∨ ∃ p, ParsedPrivate L p ∧ k = publicKeyOf L p
  end.

Class KeyLibLaws (L : KeyLib) : Prop := {
  pem_roundtrip label der : pemDecode L (pemEncode L label der) = Some der;
  pkcs8_roundtrip k der : ParsedPrivate L k → MarshalPKCS8PrivateKey L k = Some der → ParsePKCS8PrivateKey L der = Some k;
  pkcs1_roundtrip k : ParsedPrivate L (RSAPriv k) →
    ParsePKCS8PrivateKey L (MarshalPKCS1PrivateKey L k) = None ∧ ParsePKCS1PrivateKey L (MarshalPKCS1PrivateKey L k) = Some k;
  sec1_roundtrip k der : ParsedPrivate L (ECPriv k) → MarshalECPrivateKey L k = Some der →
    ParsePKCS8PrivateKey L der = None ∧ ParsePKCS1PrivateKey L der = None ∧ ParseECPrivateKey L der = Some k;
  pkix_roundtrip k der : known L (Pub k) → MarshalPKIXPublicKey L k = Some der → ParsePKIXPublicKey L der = Some k;
  pkix_not_private k der : MarshalPKIXPublicKey L k = Some der →
    ParsePKCS8PrivateKey L der = None ∧ ParsePKCS1PrivateKey L der = None ∧ ParseECPrivateKey L der = None;
  pkcs1_public_roundtrip k : known L (Pub (RSAPub k)) →
    ParsePKIXPublicKey L (MarshalPKCS1PublicKey L k) = None ∧ ParsePKCS1PublicKey L (MarshalPKCS1PublicKey L k) = Some k;
  pkcs1_public_not_private k :
    ParsePKCS8PrivateKey L (MarshalPKCS1PublicKey L k) = None ∧ ParsePKCS1PrivateKey L (MarshalPKCS1PublicKey L k) = None ∧
    ParseECPrivateKey L (MarshalPKCS1PublicKey L k) = None;
  ed25519_verifies k data : ParsedPrivate L (EdPriv k) → ed25519Verify L (drop 32 k) data (ed25519Sign L k data) = true;
  pkcs1v15_verifies k h d sig : rsaSignPKCS1v15 L k h d = Some sig → rsaVerifyPKCS1v15 L (rsaPublicKey k) h d sig = true;
  pss_verifies rnd k h d s sig : rsaSignPSS L rnd k h d s = Some sig → rsaVerifyPSS L (rsaPublicKey k) h d sig s = true;
  ecdsa_verifies rnd k d sig : SignASN1 L rnd k d = Some sig → VerifyASN1 L (ecdsaPublicKey k) d sig = true;
  x25519_agrees a b : x25519Shared L a (X25519Public L b) = x25519Shared L b (X25519Public L a)
}.

Section Laws.
Context (L : KeyLib) `{HL : !KeyLibLaws L}.

(** A block read as a key file. *)
Definition block_key (block : bytes) : option anyKey :=
  match optOr (ParsePKCS8PrivateKey L block) (optOr (RSAPriv <$> ParsePKCS1PrivateKey L block) (ECPriv <$> ParseECPrivateKey L block)) with
  | Some k => Some (Priv k)
  | None => Pub <$> optOr (ParsePKIXPublicKey L block) (RSAPub <$> ParsePKCS1PublicKey L block)
  end.

Lemma parseAnyKey_block pem block : pemDecode L pem = Some block → parseAnyKey L pem = block_key block.
Proof. intros Hp. unfold parseAnyKey, parsePrivateKey, parsePublicKey. by rewrite Hp. Qed.

Lemma parseAnyKey_pem label der : parseAnyKey L (pemEncode L label der) = block_key der.
Proof. apply parseAnyKey_block, pem_roundtrip. Qed.

Lemma parsePrivate_parsed pem k : parsePrivateKey L pem = Some k → ParsedPrivate L k.
Proof.
  unfold parsePrivateKey. destruct (pemDecode L pem) as [d|]; [|done]. simpl. intros Hk. exists d.
  destruct (ParsePKCS8PrivateKey L d); [by left|]. destruct (ParsePKCS1PrivateKey L d); [by right; left|]. by right; right.
Qed.

Lemma parseAny_known pem k : parseAnyKey L pem = Some k → known L k.
Proof.
  unfold parseAnyKey. destruct (parsePrivateKey L pem) as [p|] eqn:Hp; [intros [= <-]; by eapply parsePrivate_parsed|].
  unfold parsePublicKey. destruct (pemDecode L pem) as [d|]; [|done]. simpl. intros Hk.
  destruct (optOr _ _) as [q|] eqn:Hq; simplify_eq/=. left. exists d. destruct (ParsePKIXPublicKey L d); [by left|by right].
Qed.

Lemma known_public k : known L k → known L (Pub (public_of L k)).
Proof. destruct k; [|done]. intros Hk. right. eauto. Qed.

(** What a key is written to reads as that key. *)
Lemma private_block k typ der label :
  ParsedPrivate L k → marshalPrivateKeyDER L k typ = Some (der, label) → block_key der = Some (Priv k).
Proof.
  intros Hk. unfold marshalPrivateKeyDER, block_key. case_bool_decide.
  { destruct (MarshalPKCS8PrivateKey L k) eqn:Hm; [|done]. intros [= <- <-]. by rewrite (pkcs8_roundtrip _ _ Hk Hm). }
  case_bool_decide.
  { destruct k as [k| | |]; [|done..]. intros [= <- <-]. by destruct (pkcs1_roundtrip k Hk) as [-> ->]. }
  case_bool_decide; [|done]. destruct k as [|k| |]; try done.
  destruct (MarshalECPrivateKey L k) eqn:Hm; [|done]. intros [= <- <-].
  by destruct (sec1_roundtrip _ _ Hk Hm) as (-> & -> & ->).
Qed.

Lemma public_block k typ der label :
  known L (Pub k) → marshalPublicKeyDER L k typ = Some (der, label) → block_key der = Some (Pub k).
Proof.
  intros Hk. unfold marshalPublicKeyDER, block_key. case_bool_decide.
  { destruct (MarshalPKIXPublicKey L k) eqn:Hm; [|done]. intros [= <- <-].
    destruct (pkix_not_private _ _ Hm) as (-> & -> & ->). simpl. by rewrite (pkix_roundtrip _ _ Hk Hm). }
  case_bool_decide; [|done]. destruct k as [k| | | |]; try done. intros [= <- <-].
  destruct (pkcs1_public_not_private k) as (-> & -> & ->). simpl. by destruct (pkcs1_public_roundtrip k Hk) as [-> ->].
Qed.

(** Key files round trip. What KeyObject.export writes, in PEM or in DER and in
    every structure it supports, reads back as the key it was made of: the
    private key when that was asked for, and otherwise the public key or the
    public half of a private one. A key the host has read is handed to the guest
    as files that read back the same. *)
Theorem key_files_roundtrip (v want fmt typ : arg) (raw : bytes) (key : anyKey) :
  valueBytes v = Some raw → parseAnyKey L raw = Some key →
  (∀ t, opKeyExport L [v; want; fmt; typ] = Answer (Text t) →
     parseAnyKey L t = Some (if truth want then key else Pub (public_of L key))) ∧
  (∀ d label, opKeyExport L [v; want; fmt; typ] = Answer (Bytes d) →
     parseAnyKey L (pemEncode L label d) = Some (if truth want then key else Pub (public_of L key))) ∧
  (∀ kind t priv pub, opKeyParse L [v] = Answer (Parsed kind t priv pub) →
     t = asymmetricKeyTypeOf key ∧ parseAnyKey L pub = Some (Pub (public_of L key)) ∧
     match key with Priv _ => ∃ p, priv = Some p ∧ parseAnyKey L p = Some key | Pub _ => priv = None end).
Proof.
  intros Hv Hk. pose proof (parseAny_known raw key Hk) as Hkn. pose proof (known_public key Hkn) as Hpub.
  assert (Hexp : ∀ a, opKeyExport L [v; want; fmt; typ] = Answer a → (∃ m, a = Jwk m) ∨
    ∃ der label, a = (if bool_decide (str fmt = lit "der") then Bytes der else Text (pemEncode L label der)) ∧
      block_key der = Some (if truth want then key else Pub (public_of L key))).
  { intros a. unfold opKeyExport. rewrite Hv. simpl. rewrite Hk. simpl. case_bool_decide.
    { destruct (keyToJWK L _ _); simpl; [|done]. intros [= <-]. left. by eexists. }
    destruct (truth want) eqn:Hw.
    - destruct key as [k|k]; [|done]. destruct (marshalPrivateKeyDER L k (str typ)) as [[der label]|] eqn:Hm; simpl; [|done].
      intros [= <-]. right. exists der, label. split; [done|]. by eapply private_block.
    - destruct (marshalPublicKeyDER L _ (str typ)) as [[der label]|] eqn:Hm; simpl; [|done].
      intros [= <-]. right. exists der, label. split; [done|]. by eapply public_block. }
  split_and!.
  - intros t Ht. apply Hexp in Ht as [[m Hm]|(der & label & Ha & Hb)]; [done|]. case_bool_decide; [done|].
    injection Ha as ->. by rewrite parseAnyKey_pem.
  - intros d label Ht. apply Hexp in Ht as [[m Hm]|(der & label' & Ha & Hb)]; [done|]. case_bool_decide; [|done].
    injection Ha as ->. by rewrite parseAnyKey_pem.
  - intros kind t priv pub. unfold opKeyParse. rewrite Hv. simpl. rewrite Hk. simpl. destruct key as [k|k].
    + destruct (marshalPrivateKeyDER L k _) as [[der l]|] eqn:Hm; simpl; [|done].
      destruct (marshalPublicKeyDER L _ _) as [[der' l']|] eqn:Hm'; simpl; [|done]. intros [= <- <- <- <-].
      split_and!; [done| |eexists; split; [done|]]; rewrite parseAnyKey_pem; [by eapply public_block|by eapply private_block].
    + destruct (marshalPublicKeyDER L _ _) as [[der' l']|] eqn:Hm'; simpl; [|done]. intros [= <- <- <- <-].
      split_and!; [done| |done]. rewrite parseAnyKey_pem. by eapply public_block.
Qed.

(** What a public key is asked for says nothing of the private one: an export
    without the private key, in any format and structure and as a JWK, is the
    same for a private key and for a file that holds only its public half; the
    private key is written only on demand and only from private material; and
    generateKeyPair never answers a request for encrypted output with a key. *)
Theorem public_export_is_public (v v' want fmt typ : arg) (raw raw' : bytes) (k : privKey) :
  valueBytes v = Some raw → parseAnyKey L raw = Some (Priv k) →
  valueBytes v' = Some raw' → parseAnyKey L raw' = Some (Pub (publicKeyOf L k)) →
  (truth want = false → opKeyExport L [v; want; fmt; typ] = opKeyExport L [v'; want; fmt; typ]) ∧
  (truth want = true → str fmt ≠ lit "jwk" →
     opKeyExport L [v'; want; fmt; typ] = Refused "cannot export a private key from public key material") ∧
  (∀ rnd args opts e, opts ≫= privateKeyEncoding = Some e → hasCipher e || hasPassphrase e = true →
     ∀ p, opGenerateKeyPair L rnd args opts ≠ Answer p).
Proof.
  intros Hv Hk Hv' Hk'. split_and!.
  - intros Hw. unfold opKeyExport. rewrite Hv, Hv'. simpl. rewrite Hk, Hk'. simpl. by rewrite Hw.
  - intros Hw Hf. unfold opKeyExport. rewrite Hv'. simpl. rewrite Hk'. simpl. by rewrite bool_decide_false, Hw.
  - intros rnd args opts e He Hc p. unfold opGenerateKeyPair. destruct args as [|tv [|a args]]; [done..|].
    rewrite He. simpl. destruct (keyEncodingOpts _) as [[? ?] ?]. by rewrite Hc.
Qed.

(** Signatures verify: what opSign answers for a key is true for opVerify with
    the same algorithm, padding and salt length and a key file whose public key
    is that of the signer, a private file included. *)
Theorem signatures_verify (rnd : bytes) (algo keyV keyV' dataV : arg) (rest : list arg) (pem pem' sig : bytes) (k : privKey) :
  valueBytes keyV = Some pem → parsePrivateKey L pem = Some k →
  valueBytes keyV' = Some pem' → verifyKey L pem' = Some (inl (publicKeyOf L k)) →
  opSign L rnd (algo :: keyV :: dataV :: rest) = Answer (Bytes sig) →
  opVerify L (algo :: keyV' :: dataV :: bytes_arg sig :: rest) = Answer (Truth true).
Proof.
  intros Hv Hk Hv' Hk' Hs. pose proof (parsePrivate_parsed pem k Hk) as Hp.
  unfold opSign in Hs. unfold opVerify. rewrite Hv in Hs. rewrite Hv'. simpl in Hs |- *.
  destruct (valueBytes dataV) as [data|]; [|done]. simpl in Hs |- *. rewrite Hk in Hs. rewrite Hk'. simpl in Hs |- *.
  destruct k as [k|k|k|k]; simpl in Hs |- *.
  - destruct (noDigestAlgo _); [done|]. destruct (hashForSign _) as [h|]; simpl in Hs |- *; [|done].
    destruct (checkRSAModulus _); [|done]. simpl in Hs |- *.
    change (opt_defined (algo :: keyV' :: dataV :: bytes_arg sig :: rest) 4 intArg 1) with (opt_defined (algo :: keyV :: dataV :: rest) 3 intArg 1).
    change (opt_defined (algo :: keyV' :: dataV :: bytes_arg sig :: rest) 5 intArg (-2)) with (opt_defined (algo :: keyV :: dataV :: rest) 4 intArg (-2)).
    destruct (_ =? 6).
    + destruct (rsaSignPSS L _ _ _ _ _) eqn:E; simplify_eq/=. by rewrite (pss_verifies _ _ _ _ _ _ E).
    + destruct (negb _); [done|]. destruct (rsaSignPKCS1v15 L _ _ _) eqn:E; simplify_eq/=. by rewrite (pkcs1v15_verifies _ _ _ _ E).
  - destruct (noDigestAlgo _); [done|]. destruct (hashForSign _) as [h|]; simpl in Hs |- *; [|done].
    destruct (SignASN1 L _ _ _) eqn:E; simplify_eq/=. by rewrite (ecdsa_verifies _ _ _ _ E).
  - destruct (noDigestAlgo _); [|done]. simplify_eq. by rewrite (ed25519_verifies k data Hp).
  - destruct (noDigestAlgo _); [done|]. by destruct (hashForSign _).
Qed.

(** The signer's own file, and the file KeyObject writes for its public half. *)
Lemma verify_own_file pem k der label :
  ParsedPrivate L k → marshalPublicKeyDER L (publicKeyOf L k) (lit "spki") = Some (der, label) →
  pem = pemEncode L label der → verifyKey L pem = Some (inl (publicKeyOf L k)).
Proof.
  intros Hp Hm ->. assert (Hkn : known L (Pub (publicKeyOf L k))) by (right; eauto).
  pose proof (public_block _ _ _ _ Hkn Hm) as Hb. unfold marshalPublicKeyDER in Hm. simpl in Hm.
  destruct (MarshalPKIXPublicKey L _) as [d|] eqn:E; simplify_eq/=.
  unfold verifyKey, parsePublicKey. rewrite pem_roundtrip. simpl. by rewrite (pkix_roundtrip _ _ Hkn E).
Qed.

(** crypto.diffieHellman: both sides of an exchange of X25519 keys get the same
    secret. *)
Lemma dh_keyobjects_agree a b apub bpub ka kb pa pb pa' pb' :
  valueBytes a = Some pa → parsePrivateKey L pa = Some (XPriv ka) →
  valueBytes b = Some pb → parsePrivateKey L pb = Some (XPriv kb) →
  valueBytes apub = Some pa' → parsePublicKey L pa' = Some (XPub (X25519Public L ka)) →
  valueBytes bpub = Some pb' → parsePublicKey L pb' = Some (XPub (X25519Public L kb)) →
  opDHKeyObject L [a; bpub] = opDHKeyObject L [b; apub].
Proof.
  intros Ha Hka Hb Hkb Hap Hkap Hbp Hkbp. unfold opDHKeyObject. rewrite Ha, Hb, Hap, Hbp. simpl.
  rewrite Hka, Hkb. simpl. rewrite Hkap, Hkbp. simpl. by rewrite x25519_agrees.
Qed.

End Laws.

(** ** A toy library, to run the operations *)

Definition toy_rsa_fields (k : rsaPrivate) : bytes :=
  [N (rsaPublicKey k); E (rsaPublicKey k); rsaD k; Dp k; Dq k; Qinv k] ++ Primes k.

Definition toy_rsa_of (b : bytes) : option rsaPrivate :=
  match b with
  | n :: e :: d :: dp :: dq :: qi :: ps => Some (MkRsaPrivate (MkRsaPublic n e) d ps dp dq qi)
  | _ => None
  end.

(** A container is a tag, for some a second one for the kind of key, and the
    key's numbers; there are no EC keys. *)
Definition toy_keys : KeyLib := {|
  hashes := toy_kdfs;
  pemDecode b := match b with n :: r => Some (drop (Z.to_nat n) r) | [] => None end;
  pemEncode label der := zlen label :: label ++ der;
  ParsePKCS8PrivateKey b :=
    match b with
    | 1 :: 1 :: k => Some (EdPriv k)
    | 1 :: 2 :: k => Some (XPriv k)
    | 1 :: 3 :: k => RSAPriv <$> toy_rsa_of k
    | _ => None
    end;
  ParsePKCS1PrivateKey b := match b with 2 :: k => toy_rsa_of k | _ => None end;
  ParseECPrivateKey _ := None;
  ParsePKIXPublicKey b :=
    match b with
    | 3 :: 1 :: k => Some (EdPub k)
    | 3 :: 2 :: k => Some (XPub k)
    | [3; 3; n; e] => Some (RSAPub (MkRsaPublic n e))
    | _ => None
    end;
  ParsePKCS1PublicKey b := match b with [4; n; e] => Some (MkRsaPublic n e) | _ => None end;
  MarshalPKCS8PrivateKey k :=
    match k with
    | EdPriv k => Some (1 :: 1 :: k)
    | XPriv k => Some (1 :: 2 :: k)
    | RSAPriv k => Some (1 :: 3 :: toy_rsa_fields k)
    | ECPriv _ => None
    end;
  MarshalPKCS1PrivateKey k := 2 :: toy_rsa_fields k;
  MarshalECPrivateKey _ := None;
  MarshalPKIXPublicKey k :=
    match k with
    | EdPub k => Some (3 :: 1 :: k)
    | XPub k => Some (3 :: 2 :: k)
    | RSAPub k => Some [3; 3; N k; E k]
    | _ => None
    end;
  MarshalPKCS1PublicKey k := [4; N k; E k];
  X25519Public k := k;
  GenerateRSA _ n := Some (MkRsaPrivate (MkRsaPublic n 3) 0 [] 0 0 0);
  GenerateEC _ _ := None;
  GenerateEd rnd := Some rnd;
  GenerateX25519 rnd := Some rnd;
  rsaPrecompute k := k;
  rsaSignPKCS1v15 _ _ d := Some d;
  rsaVerifyPKCS1v15 _ _ d sig := bool_decide (d = sig);
  rsaSignPSS _ _ _ d s := Some (s :: d);
  rsaVerifyPSS _ _ d sig s := bool_decide (sig = s :: d);
  SignASN1 _ _ _ := None;
  VerifyASN1 _ _ _ := false;
  ed25519Sign _ d := d;
  ed25519Verify _ d sig := bool_decide (d = sig);
  ecdhGenerate _ _ := None;
  ecdhPrivate _ _ := None;
  ecdhPublic _ _ := None;
  ecdhShared _ _ _ := None;
  x25519Shared a b := Some (zip_with Z.add a b)
|}.

#[export] Instance toy_keys_laws : KeyLibLaws toy_keys.
Proof.
  assert (Hz : ∀ (a b : bytes), zip_with Z.add a b = zip_with Z.add b a).
  { induction a as [|x a IH]; intros [|y b]; simpl; [done..|]. by rewrite IH, Z.add_comm. }
  split; simpl; try done.
  - intros label der. unfold zlen. by rewrite Nat2Z.id, drop_app_length.
  - intros [k|k|k|k] der _; simpl; intros [= <-]; try done. by destruct k as [[]].
  - intros k _. by destruct k as [[]].
  - intros [k|k|k|k|] der _; simpl; intros [= <-]; try done. by destruct k.
  - intros [k|k|k|k|] der; simpl; intros [= <-]; done.
  - by intros [n e] _.
  - intros k data _. by case_bool_decide.
  - intros k h d sig [= <-]. by case_bool_decide.
  - intros rnd k h d s sig [= <-]. by case_bool_decide.
  - intros a b. by rewrite Hz.
Qed.

Definition toy_pem (der : bytes) : bytes := pemEncode toy_keys (lit "X") der.

(** An RSA key in PKCS#1, exported as PKCS#8. *)
Lemma key_files_roundtrip_witness :
  ∃ t, opKeyExport toy_keys [bytes_arg (toy_pem [2; 35; 5; 29; 1; 2; 3; 5; 7]); bool_arg true; text_arg (lit "pem"); text_arg (lit "pkcs8")] =
         Answer (Text t) ∧
    parseAnyKey toy_keys t = Some (Priv (RSAPriv (MkRsaPrivate (MkRsaPublic 35 5) 29 [5; 7] 1 2 3))).
Proof.
  eexists. split; [vm_compute; reflexivity|].
  apply (key_files_roundtrip toy_keys (bytes_arg (toy_pem [2; 35; 5; 29; 1; 2; 3; 5; 7])) (bool_arg true) (text_arg (lit "pem"))
           (text_arg (lit "pkcs8")) (toy_pem [2; 35; 5; 29; 1; 2; 3; 5; 7])
           (Priv (RSAPriv (MkRsaPrivate (MkRsaPublic 35 5) 29 [5; 7] 1 2 3)))); vm_compute; reflexivity.
Defined.

Lemma public_export_is_public_witness :
  let v := bytes_arg (toy_pem (1 :: 1 :: replicate 32 1 ++ replicate 32 2)) in
  let v' := bytes_arg (toy_pem (3 :: 1 :: replicate 32 2)) in
  opKeyExport toy_keys [v; bool_arg false; text_arg (lit "jwk"); text_arg []] =
  opKeyExport toy_keys [v'; bool_arg false; text_arg (lit "jwk"); text_arg []].
Proof.
  apply (public_export_is_public toy_keys (bytes_arg (toy_pem (1 :: 1 :: replicate 32 1 ++ replicate 32 2)))
    (bytes_arg (toy_pem (3 :: 1 :: replicate 32 2))) (bool_arg false) (text_arg (lit "jwk")) (text_arg [])
    (toy_pem (1 :: 1 :: replicate 32 1 ++ replicate 32 2)) (toy_pem (3 :: 1 :: replicate 32 2))
    (EdPriv (replicate 32 1 ++ replicate 32 2))); vm_compute; reflexivity.
Defined.

Lemma signatures_verify_witness :
  opVerify toy_keys [text_arg (lit "sha256"); bytes_arg (toy_pem [3; 3; 35; 5]); bytes_arg [9]; bytes_arg (pssSaltLength (-2) :: sum toy_keys SHA256 [9]);
                     num_arg 6] = Answer (Truth true).
Proof.
  apply (signatures_verify toy_keys [] (text_arg (lit "sha256")) (bytes_arg (toy_pem [2; 35; 5; 29; 1; 2; 3; 5; 7]))
    (bytes_arg (toy_pem [3; 3; 35; 5])) (bytes_arg [9]) [num_arg 6] (toy_pem [2; 35; 5; 29; 1; 2; 3; 5; 7]) (toy_pem [3; 3; 35; 5])
    (pssSaltLength (-2) :: sum toy_keys SHA256 [9]) (RSAPriv (MkRsaPrivate (MkRsaPublic 35 5) 29 [5; 7] 1 2 3))); vm_compute; reflexivity.
Defined.

(** crypto.verify given an X25519 private key and a digest: parsePublicKey's
    answer, a nil [*rsa.PublicKey] in an interface, is still in the variable, and
    its modulus is looked at. *)
Example verify_panics :
  opVerify toy_keys [text_arg (lit "sha256"); bytes_arg (toy_pem [1; 2; 7; 8]); bytes_arg [9]; bytes_arg [9]] = Panic.
Proof. reflexivity. Qed.

(** Salt length 0 is passed on as rsa.PSSSaltLengthAuto: any salt length. *)
Example salt_length_zero : pssSaltLength 0 = pssSaltLength (-2).
Proof. reflexivity. Qed.

(** The JWK of a public key is answered where the private one was asked for. *)
Example jwk_without_the_private_key :
  opKeyExport toy_keys [bytes_arg (toy_pem (3 :: 1 :: replicate 32 2)); bool_arg true; text_arg (lit "jwk"); text_arg []] =
  Answer (Jwk (okp_members (lit "Ed25519") (replicate 32 2))).
Proof. vm_compute. reflexivity. Qed.
