(* ===== verification/NodeDH.v ===== *)
(** The rest of node:crypto (compat/nodejs/nodecrypto3.go): RSA encryption and its
    inverse use, Diffie-Hellman over a prime, ChaCha20-Poly1305, and the fields of
    a certificate.

    math/big integers are [Z]. The algorithms that are not spelled out are a
    parameter, [RsaLib], which extends the one of NodeKeys.v; [RsaLibLaws] states
    what is documented of them. What rand.Int and rand.Prime draw are
    arguments. *)

From Stdlib Require Import Zpow_facts.
From S2P Require Import Prelude HostArg Encoding Kdf Subtle NodeKeys.

(** What x509.ParseCertificate answers with: names and times as they print. *)
Record certificate := MkCert {
  Raw : bytes; Subject : bytes; Issuer : bytes; NotBefore : bytes; NotAfter : bytes;
  SerialNumber : Z; CertKey : pubKey; IsCA : bool
}.

Record RsaLib := MkRsaLib {
  keyLib :> KeyLib;
  rsaEncryptOAEP : bytes → hash → rsaPublic → bytes → option bytes;
  rsaDecryptOAEP : hash → rsaPrivate → bytes → option bytes;
  rsaEncryptPKCS1v15 : bytes → rsaPublic → bytes → option bytes;
  rsaDecryptPKCS1v15 : rsaPrivate → bytes → option bytes;
  signUnhashed : rsaPrivate → bytes → option bytes;            (** rsa.SignPKCS1v15 with crypto.Hash(0) *)
  chachaNew : bytes → bool;                                    (** chacha20poly1305.New succeeds *)
  chachaSeal : bytes → bytes → bytes → bytes → bytes;          (** key, nonce, data, aad *)
  chachaOpen : bytes → bytes → bytes → bytes → option bytes;
  ParseCertificate : bytes → option certificate;
  ProbablyPrime : Z → bool;
  ModInverse : Z → Z → option Z
}.

(** ** RSA *)

Definition oaepHash (name : bytes) : option hash :=
  if bool_decide (name ∈ [lit "sha1"; []]) then Some SHA1
  else if bool_decide (name = lit "sha256") then Some SHA256
  else None.

Definition oaepHashArg (args : list arg) (idx : nat) : option hash :=
  oaepHash (opt_defined args idx str (lit "sha1")).

(** (n.BitLen() + 7) / 8 *)
Definition modulusSize (n : Z) : nat := Z.to_nat ((BitLen n + 7) / 8).

(** The bytes 0xFF in front. *)
Fixpoint count_ff (b : bytes) : nat := match b with c :: b' => if c =? 255 then S (count_ff b') else 0 | [] => 0 end.

(** The end of opRSAPublicDecrypt: type 1 padding comes off. *)
Definition strip_type1 (em : bytes) : option bytes :=
  if (length em <? 11)%nat || negb (bool_decide (take 2 em = [0; 1])) then None
  else
    let i := (2 + count_ff (drop 2 em))%nat in
    if (i <? 10)%nat || (length em <=? i)%nat || negb (bool_decide (em !! i = Some 0)) then None
    else Some (drop (S i) em).

Section Ops.
Context (L : RsaLib).

(** new(big.Int).Exp(x, y, m) for m ≠ 0; [None] is nil. *)
Definition Exp (x y m : Z) : option Z :=
  if 0 <=? y then Some (x ^ y mod Z.abs m)
  else i ← ModInverse L x (Z.abs m); Some (i ^ (- y) mod Z.abs m).

Definition parseAnyRSAPublicUncapped (pem : bytes) : option rsaPublic :=
  block ← pemDecode L pem;
  optOr (k ← ParsePKIXPublicKey L block; match k with RSAPub k => Some k | _ => None end)
    (optOr (ParsePKCS1PublicKey L block)
      (optOr (k ← ParsePKCS8PrivateKey L block; match k with RSAPriv k => Some (rsaPublicKey k) | _ => None end)
        (rsaPublicKey <$> ParsePKCS1PrivateKey L block))).

Definition parseAnyRSAPublic (pem : bytes) : option rsaPublic :=
  k ← parseAnyRSAPublicUncapped pem;
  if checkRSAModulus (N k) then Some k else None.

(** The private key of a file, when it is an RSA key of a size that is allowed. *)
Definition rsa_private {V} (pem : bytes) (k : rsaPrivate → outcome V) : outcome V :=
  or_lib (parsePrivateKey L pem) (λ key,
  match key with
  | RSAPriv priv => if checkRSAModulus (N (rsaPublicKey priv)) then k priv else LibRefused
  | _ => Refused "not an RSA private key"
  end).

Definition opRSAPublicEncrypt (rnd : bytes) (args : list arg) : outcome bytes :=
  match args with
  | keyV :: dataV :: padV :: _ =>
      or_lib (parseAnyRSAPublic (valueBytesOr keyV)) (λ pub,
      let data := valueBytesOr dataV in
      if bool_decide (str padV = lit "oaep") then
        or_lib (oaepHashArg args 3) (λ h, or_lib (rsaEncryptOAEP L rnd h pub data) Answer)
      else if bool_decide (str padV = lit "pkcs1") then or_lib (rsaEncryptPKCS1v15 L rnd pub data) Answer
      else Refused "unsupported padding")
  | _ => Failed
  end.

Definition opRSAPrivateDecrypt (args : list arg) : outcome bytes :=
  match args with
  | keyV :: dataV :: padV :: _ =>
      rsa_private (valueBytesOr keyV) (λ priv,
      let data := valueBytesOr dataV in
      if bool_decide (str padV = lit "oaep") then
        or_lib (oaepHashArg args 3) (λ h, or_lib (rsaDecryptOAEP L h priv data) Answer)
      else if bool_decide (str padV = lit "pkcs1") then or_lib (rsaDecryptPKCS1v15 L priv data) Answer
      else Refused "unsupported padding")
  | _ => Failed
  end.

Definition opRSAPrivateEncrypt (args : list arg) : outcome bytes :=
  match args with
  | keyV :: dataV :: _ =>
      rsa_private (valueBytesOr keyV) (λ priv, or_lib (signUnhashed L priv (valueBytesOr dataV)) Answer)
  | _ => Failed
  end.

Definition opRSAPublicDecrypt (args : list arg) : outcome bytes :=
  match args with
  | keyV :: dataV :: _ =>
      or_lib (parseAnyRSAPublic (valueBytesOr keyV)) (λ pub,
      let c := be (valueBytesOr dataV) in
      if N pub <=? c then Refused "decryption error"
      else
        match Exp c (E pub) (N pub) ≫= fill_bytes (modulusSize (N pub)) with
        | None => Panic
        | Some em => match strip_type1 em with None => Refused "decryption error" | Some m => Answer m end
        end)
  | _ => Failed
  end.

(** ** Diffie-Hellman *)

(** new(big.Int).SetString(s, 16) *)
Fixpoint hex_int (acc : Z) (s : bytes) : option Z :=
  match s with
  | [] => Some acc
  | c :: s' => v ← hex_value c; hex_int (acc * 16 + v) s'
  end.

Definition SetString16 (s : bytes) : option Z :=
  let '(neg, ds) :=
    match s with c :: s' => if c =? 45 then (true, s') else if c =? 43 then (false, s') else (false, s) | [] => (false, s) end in
  match ds with
  | [] => None
  | _ => (λ n, if (neg : bool) then - n else n) <$> hex_int 0 ds
  end.

(** n.Bytes() of the absolute value, in hex. *)
Definition evenHex (n : Z) : bytes := HexEncode (big_bytes (Z.abs n)).

(** n.BitLen(), of the absolute value. *)
Definition bitLen (n : Z) : Z := BitLen (Z.abs n).

Definition maxDHModulusBits : Z := 8192.

(** generateSafePrime, with what rand.Prime draws in turn; [None]: still
    drawing. *)
Fixpoint generateSafePrime (bits : Z) (draws : list Z) : option Z :=
  match draws with
  | [] => None
  | q :: draws' =>
      let p := Z.shiftl q 1 + 1 in
      if (bitLen p =? bits) && ProbablyPrime L p then Some p else generateSafePrime bits draws'
  end.

Record dhKey := MkDH { dhPrime : bytes; dhGenerator : bytes; dhPriv : bytes; dhPub : bytes }.

(** The modulus of opDHGenerate. *)
Definition dh_prime (draws : list Z) (v : arg) : option (outcome Z) :=
  if bool_decide (is_Some (objectBytes v)) || (12 <? zlen (str v)) then
    Some match SetString16 (str v) with
         | None => Refused "bad prime hex"
         | Some p => if (bitLen p <? 512) || (maxDHModulusBits <? bitLen p) then Refused "unsupported DH modulus" else Answer p
         end
  else
    let bits := intArg v in
    if (bits <? 512) || (4096 <? bits) then Some (Refused "unsupported DH modulus")
    else Answer <$> generateSafePrime bits draws.

(** [draw] is what rand.Int gives for its bound, [None] an error of the random
    source; it panics when the bound is not positive. *)
Definition opDHGenerate (draws : list Z) (draw : Z → option Z) (args : list arg) : option (outcome dhKey) :=
  match args with
  | v :: _ =>
      o ← dh_prime draws v;
      Some
        match o with
        | Answer prime =>
            let g := default 2 (SetString16 (opt_defined args 1 str [])) in
            if prime - 2 <=? 0 then Panic
            else
              or_lib (draw (prime - 2)) (λ r,
              let priv := r + 1 in
              match Exp g priv prime with
              | None => Panic
              | Some pub => Answer (MkDH (evenHex prime) (evenHex g) (evenHex priv) (evenHex pub))
              end)
        | Refused m => Refused m
        | RefusedName m q => RefusedName m q
        | LibRefused => LibRefused
        | Failed => Failed
        | Panic => Panic
        end
  | [] => Some Failed
  end.

Definition opDHCompute (args : list arg) : outcome bytes :=
  match args with
  | primeV :: privV :: pubV :: _ =>
      match SetString16 (str primeV), SetString16 (str privV), SetString16 (str pubV) with
      | Some prime, Some priv, Some otherPub =>
          if (bitLen prime <? 512) || (maxDHModulusBits <? bitLen prime) then Refused "unsupported DH modulus"
          else if (otherPub <=? 1) || (prime - 1 <=? otherPub) then Refused "invalid DH public key"
          else match Exp otherPub priv prime with None => Panic | Some secret => Answer (evenHex secret) end
      | _, _, _ => Refused "bad DH hex value"
      end
  | _ => Failed
  end.

(** ** ChaCha20-Poly1305 *)

(** Data and tag; the tag is empty for a decryption. *)
Definition opChaCha (args : list arg) : outcome (bytes * bytes) :=
  match args with
  | enc :: keyV :: nonceV :: dataV :: _ =>
      let key := valueBytesOr keyV in
      let nonce := valueBytesOr nonceV in
      let data := valueBytesOr dataV in
      let aad := opt_arg args 4 valueBytesOr [] in
      let tag := opt_arg args 5 valueBytesOr [] in
      if negb (zlen nonce =? 12) then Refused "Invalid IV length"
      else if negb (chachaNew L key) then LibRefused
      else if truth enc then
        let sealed := chachaSeal L key nonce data aad in
        let n := (length sealed - 16)%nat in
        Answer (take n sealed, drop n sealed)
      else
        match chachaOpen L key nonce (data ++ tag) aad with
        | None => Refused "unable to authenticate data"
        | Some pt => Answer (pt, [])
        end
  | _ => Failed
  end.

(** ** Certificates *)

(** fmt's %02X *)
Definition upper_hex (x : Z) : bytes := map (λ c, if in_range 97 102 c then c - 32 else c) [hex_digit (x / 16); hex_digit (x mod 16)].

(** The fingerprint's text: bytes in hex with colons between them. *)
Definition fingerprint (fp : bytes) : bytes := join 58 (map upper_hex fp).

(** n.Text(16) *)
Fixpoint format16 (fuel : nat) (n : Z) : bytes :=
  match fuel with
  | O => []
  | S f => (if n <? 16 then [] else format16 f (n / 16)) ++ [hex_digit (n mod 16)]
  end.

Definition Text16 (n : Z) : bytes :=
  (if n <? 0 then [45] else []) ++ format16 (S (Z.to_nat (Z.log2 (Z.abs n)))) (Z.abs n).

Record x509Info := MkX509 {
  subject : bytes; issuer : bytes; validFrom : bytes; validTo : bytes; serialNumber : bytes;
  fingerprint256 : bytes; x509PublicKey : bytes; ca : bool
}.

Definition opX509Parse (args : list arg) : outcome x509Info :=
  match args with
  | v :: _ =>
      let raw := valueBytesOr v in
      let der := default raw (pemDecode L raw) in
      or_lib (ParseCertificate L der) (λ cert,
      let pubDER := default [] (MarshalPKIXPublicKey L (CertKey cert)) in
      Answer (MkX509 (Subject cert) (Issuer cert) (NotBefore cert) (NotAfter cert) (Text16 (SerialNumber cert))
        (fingerprint (sum L SHA256 (Raw cert))) (pemEncode L (lit "PUBLIC KEY") pubDER) (IsCA cert)))
  | _ => Failed
  end.

End Ops.

(** ** What the library promises *)

(** The block of PKCS#1 that is signed: [00 01 FF … FF 00 M], as long as the
    modulus. *)
Definition type1 (k : nat) (m : bytes) : bytes := 0 :: 1 :: replicate (k - 3 - length m) 255 ++ 0 :: m.

Class RsaLibLaws (L : RsaLib) : Prop := {
  sign_block priv m s : signUnhashed L priv m = Some s →
    let n := N (rsaPublicKey priv) in
    (length m + 11 <= modulusSize n)%nat ∧ 0 <= be s < n ∧ 0 <= E (rsaPublicKey priv) ∧
    be s ^ E (rsaPublicKey priv) mod n = be (type1 (modulusSize n) m);
  seal_length key nonce data aad : length (chachaSeal L key nonce data aad) = (length data + 16)%nat;
  open_seal key nonce data aad : chachaOpen L key nonce (chachaSeal L key nonce data aad) aad = Some data;
  oaep_decrypts rnd h priv m c : rsaEncryptOAEP L rnd h (rsaPublicKey priv) m = Some c → rsaDecryptOAEP L h priv c = Some m;
  pkcs1_decrypts rnd priv m c : rsaEncryptPKCS1v15 L rnd (rsaPublicKey priv) m = Some c → rsaDecryptPKCS1v15 L priv c = Some m
}.

(** ** Type 1 blocks *)

Lemma count_ff_run j c r : c ≠ 255 → count_ff (replicate j 255 ++ c :: r) = j.
Proof. intros Hc. induction j as [|j IH]; simpl; [by rewrite (proj2 (Z.eqb_neq _ _) Hc)|]. by rewrite IH. Qed.

Lemma type1_length k m : (length m + 11 <= k)%nat → length (type1 k m) = k.
Proof. intros Hk. unfold type1. simpl. rewrite length_app, length_replicate. simpl. lia. Qed.

Lemma strip_block k m : (length m + 11 <= k)%nat → strip_type1 (type1 k m) = Some m.
Proof.
  intros Hk. unfold strip_type1. rewrite type1_length by done. unfold type1.
  set (j := (k - 3 - length m)%nat). assert (8 <= j)%nat as Hj by lia.
  change (drop 2 _) with (replicate j 255 ++ 0 :: m). rewrite count_ff_run by done.
  change (bool_decide (take 2 _ = _)) with true. rewrite (proj2 (Nat.ltb_ge k 11)) by lia. cbn [orb negb].
  rewrite (proj2 (Nat.ltb_ge (2 + j) 10)), (proj2 (Nat.leb_gt k (2 + j))) by lia. cbn [orb].
  assert (∀ t : bytes, (0 :: 1 :: replicate j 255 ++ t) = (0 :: 1 :: replicate j 255) ++ t) as Happ by done.
  rewrite Happ, list_lookup_middle by (simpl; by rewrite length_replicate). rewrite bool_decide_true by done. cbn [negb].
  f_equal. change (0 :: m) with ([0] ++ m). rewrite app_assoc. apply drop_app_length'.
  rewrite length_app. simpl. rewrite length_replicate. lia.
Qed.

Lemma modulus_bytes n : 0 < n → n < 256 ^ Z.of_nat (modulusSize n).
Proof.
  intros Hn. unfold modulusSize, BitLen. destruct (Z.eqb_spec n 0); [lia|].
  pose proof (Z.log2_nonneg n). pose proof (Z.div_mod (Z.log2 n + 1 + 7) 8 ltac:(lia)).
  pose proof (Z.mod_pos_bound (Z.log2 n + 1 + 7) 8 ltac:(lia)).
  rewrite Z2Nat.id by lia. change 256 with (2 ^ 8). rewrite <- Z.pow_mul_r by lia.
  eapply Z.lt_le_trans; [apply (Z.log2_spec n); lia|]. apply Z.pow_le_mono_r; lia.
Qed.

(** ** Hexadecimal integers *)

Lemma hex_int_encode acc b : Forall is_byte b → hex_int acc (HexEncode b) = Some (acc * 256 ^ Z.of_nat (length b) + be b).
Proof.
  intros Hb. revert acc. induction Hb as [|x b Hx _ IH]; intros acc.
  { simpl. f_equal. change (be []) with 0. lia. }
  unfold is_byte in Hx. pose proof (Z.mod_pos_bound x 16 ltac:(lia)). pose proof (Z.div_mod x 16 ltac:(lia)).
  change (HexEncode (x :: b)) with (hex_digit (x / 16) :: hex_digit (x mod 16) :: HexEncode b).
  cbn [hex_int]. rewrite !hex_value_digit by lia. simpl. rewrite IH, be_cons. f_equal. cbn [length].
  rewrite Nat2Z.inj_succ, Z.pow_succ_r by lia. nia.
Qed.

Lemma hex_digit_sign v : 0 <= v < 16 → (hex_digit v =? 45) = false ∧ (hex_digit v =? 43) = false.
Proof. intros Hv. unfold hex_digit. case_match; lia. Qed.

Lemma SetString16_evenHex n : 0 < n → SetString16 (evenHex n) = Some n.
Proof.
  intros Hn. unfold SetString16, evenHex. rewrite Z.abs_eq by lia.
  pose proof (big_bytes_bytes n) as Hb. pose proof (be_big_bytes n ltac:(lia)) as Hv.
  destruct (big_bytes n) as [|x b]; [change (be []) with 0 in Hv; lia|]. pose proof Hb as [Hx _]%Forall_cons. unfold is_byte in Hx.
  change (HexEncode (x :: b)) with (hex_digit (x / 16) :: hex_digit (x mod 16) :: HexEncode b).
  assert (0 <= x / 16 < 16) as Hd by (split; [apply Z.div_pos|apply Z.div_lt_upper_bound]; lia). destruct (hex_digit_sign _ Hd) as [-> ->].
  change (hex_digit (x / 16) :: hex_digit (x mod 16) :: HexEncode b) with (HexEncode (x :: b)).
  rewrite hex_int_encode, Hv by done. by rewrite Z.mul_0_l.
Qed.

Lemma evenHex_length n : zlen (evenHex n) = 2 * zlen (big_bytes (Z.abs n)).
Proof.
  unfold evenHex, zlen. assert (∀ b, length (HexEncode b) = 2 * length b)%nat as ->; [|lia].
  induction b as [|x b IH]; [done|].
  change (HexEncode (x :: b)) with (hex_digit (x / 16) :: hex_digit (x mod 16) :: HexEncode b). simpl length. lia.
Qed.

Lemma long_hex n : 512 <= bitLen n → 12 < zlen (evenHex n).
Proof.
  intros Hn. rewrite evenHex_length. assert (6 < zlen (big_bytes (Z.abs n))); [|lia]. apply Z.nle_gt. intros Hl.
  pose proof (be_range _ (big_bytes_bytes (Z.abs n))) as Hr. rewrite be_big_bytes in Hr by lia. unfold bitLen, BitLen in Hn.
  destruct (Z.eqb_spec (Z.abs n) 0); [lia|]. assert (Z.abs n < 2 ^ 64) as Hb.
  { eapply Z.lt_le_trans; [apply Hr|]. change (2 ^ 64) with (256 ^ 8). apply Z.pow_le_mono_r; [lia|]. unfold zlen in Hl. lia. }
  apply Z.log2_lt_pow2 in Hb; lia.
Qed.

(** ** Properties *)

Section Laws.
Context (L : RsaLib) `{HL : !RsaLibLaws L}.

(** rand.Int: an integer from 0 up to the bound. *)
Definition fair (draw : Z → option Z) : Prop := ∀ n r, draw n = Some r → 0 <= r < n.

(** A key that opDHGenerate answers. *)
Lemma dh_generated draws draw v rest k :
  fair draw → opDHGenerate L draws draw (v :: rest) = Some (Answer k) →
  ∃ prime r, dh_prime L draws v = Some (Answer prime) ∧ 0 <= r < prime - 2 ∧
    let g := default 2 (SetString16 (opt_defined (v :: rest) 1 str [])) in
    k = MkDH (evenHex prime) (evenHex g) (evenHex (r + 1)) (evenHex (g ^ (r + 1) mod prime)).
Proof.
  intros Hf. unfold opDHGenerate. destruct (dh_prime L draws v) as [o|]; [|done]. simpl mbind.
  destruct o as [prime| | | | |]; try done. destruct (Z.leb_spec (prime - 2) 0); [done|].
  destruct (draw (prime - 2)) as [r|] eqn:Hr; [|done]. apply Hf in Hr as Hb. cbn [or_lib].
  unfold Exp. rewrite (proj2 (Z.leb_le 0 (r + 1))), Z.abs_eq by lia. intros [= <-]. exists prime, r. done.
Qed.

(** The modulus is as long as it was asked for, or as long as the text given,
    and within the bounds. *)
Lemma safe_prime_bits bits draws p : generateSafePrime L bits draws = Some p → bitLen p = bits ∧ ProbablyPrime L p = true.
Proof.
  induction draws as [|q draws IH]; [done|]. cbn [generateSafePrime].
  destruct (_ && _) eqn:Hb; [|done]. apply andb_true_iff in Hb as [Hb Hp]. intros [= <-]. split; [lia|done].
Qed.

Lemma dh_prime_bits draws v p : dh_prime L draws v = Some (Answer p) → 512 <= bitLen p <= maxDHModulusBits.
Proof.
  unfold dh_prime, maxDHModulusBits. destruct (_ || _).
  - destruct (SetString16 _) as [q|]; [|done]. destruct (Z.ltb_spec (bitLen q) 512), (Z.ltb_spec 8192 (bitLen q)); simpl; intros; simplify_eq; lia.
  - destruct (Z.ltb_spec (intArg v) 512), (Z.ltb_spec 4096 (intArg v)); simpl; [done..|].
    destruct (generateSafePrime L _ _) as [q|] eqn:Hq; [|done]. apply safe_prime_bits in Hq as [Hq _]. simpl. intros. simplify_eq. lia.
Qed.

(** A public key the peer's text may carry: between 1 and p - 1. *)
Definition acceptable (prime pub : bytes) : Prop :=
  ∃ p x, SetString16 prime = Some p ∧ SetString16 pub = Some x ∧ 1 < x < p - 1.

(** What one side computes from the other's public key. *)
Lemma dh_compute p r x :
  512 <= bitLen p <= maxDHModulusBits → 0 < p → 0 <= r → 1 < x < p - 1 →
  opDHCompute L [text_arg (evenHex p); text_arg (evenHex (r + 1)); text_arg (evenHex x)] = Answer (evenHex (x ^ (r + 1) mod p)).
Proof.
  intros Hb Hp Hr Hx. unfold opDHCompute. simpl str. rewrite !SetString16_evenHex by lia.
  rewrite (proj2 (Z.ltb_ge _ _)) by lia. rewrite (proj2 (Z.ltb_ge _ _)) by lia.
  rewrite (proj2 (Z.leb_gt x 1)), (proj2 (Z.leb_gt (p - 1) x)) by lia. cbn [orb]. unfold Exp.
  by rewrite (proj2 (Z.leb_le 0 (r + 1))), Z.abs_eq by lia.
Qed.

Lemma acceptable_range p x : 0 < p → acceptable (evenHex p) (evenHex (x mod p)) → 1 < x mod p < p - 1.
Proof.
  intros Hp (p' & x' & Hp' & Hx' & Hr). rewrite SetString16_evenHex in Hp' by done. simplify_eq.
  pose proof (Z.mod_pos_bound x p' Hp) as Hm. destruct (Z.eq_dec (x mod p') 0) as [Hz|Hz].
  { rewrite Hz in Hx'. by vm_compute in Hx'. }
  rewrite SetString16_evenHex in Hx' by lia. by simplify_eq.
Qed.

(** C31: Diffie-Hellman agrees: when a second party makes its keys from the prime and
    the generator the first one publishes, which is above 0 (a negative one is
    published without its sign), and each gets a public key of the other that is
    not one of the degenerate ones, both compute the same secret, for every
    choice of the random source. Whatever is computed at all, is
    computed for a modulus of 512 to 8192 bits and a peer's key strictly
    between 1 and p - 1. *)
Theorem dh_secrets_agree (drawsA drawsB : list Z) (drawA drawB : Z → option Z) (v : arg) (rest : list arg) (ka kb : dhKey) :
  fair drawA → fair drawB →
  opDHGenerate L drawsA drawA (v :: rest) = Some (Answer ka) →
  0 < default 2 (SetString16 (opt_defined (v :: rest) 1 str [])) →
  opDHGenerate L drawsB drawB [text_arg (dhPrime ka); text_arg (dhGenerator ka)] = Some (Answer kb) →
  acceptable (dhPrime ka) (dhPub ka) → acceptable (dhPrime ka) (dhPub kb) →
  dhPrime kb = dhPrime ka ∧
  (∃ secret,
     opDHCompute L [text_arg (dhPrime ka); text_arg (dhPriv ka); text_arg (dhPub kb)] = Answer secret ∧
     opDHCompute L [text_arg (dhPrime kb); text_arg (dhPriv kb); text_arg (dhPub ka)] = Answer secret) ∧
  (∀ pV xV yV s, opDHCompute L [pV; xV; yV] = Answer s →
     acceptable (str pV) (str yV) ∧ ∃ p, SetString16 (str pV) = Some p ∧ 512 <= bitLen p <= maxDHModulusBits).
Proof.
  intros HfA HfB HA Hg HB HpA HpB.
  apply dh_generated in HA as (p & a & Hp & Ha & ->); [|done]. cbn [dhPrime dhGenerator dhPriv dhPub] in *. set (g := default 2 _) in *.
  pose proof (dh_prime_bits _ _ _ Hp) as Hbits.
  apply dh_generated in HB as (p' & b & Hp' & Hb & ->); [|done].
  cbn [dhPrime dhGenerator dhPriv dhPub] in *.
  assert (p' = p) as ->.
  { revert Hp'. unfold dh_prime. simpl str. rewrite (proj2 (Z.ltb_lt 12 _)) by (apply long_hex; lia). rewrite orb_true_r.
    rewrite SetString16_evenHex by lia. destruct (_ || _); intros; by simplify_eq. }
  change (opt_defined [text_arg (evenHex p); text_arg (evenHex g)] 1 str []) with (evenHex g) in *.
  rewrite SetString16_evenHex in HpB |- * by done. cbn [default from_option] in *.
  apply acceptable_range in HpA; [|lia]. apply acceptable_range in HpB; [|lia]. split_and!; [done| |].
  - rewrite !dh_compute by lia. eexists. split; [done|]. do 2 f_equal.
    rewrite <- !Zpower_mod, <- !Z.pow_mul_r by lia. by rewrite Z.mul_comm.
  - intros pV xV yV s. unfold opDHCompute. destruct (SetString16 (str pV)) as [q|] eqn:Eq; [|done].
    destruct (SetString16 (str xV)); [|done]. destruct (SetString16 (str yV)) as [y|] eqn:Ey; [|done].
    destruct (Z.ltb_spec (bitLen q) 512); [done|]. destruct (Z.ltb_spec maxDHModulusBits (bitLen q)); [done|]. cbn [orb].
    destruct (Z.leb_spec y 1); [done|]. destruct (Z.leb_spec (q - 1) y); [done|]. intros _. split; [exists q, y; split_and!; done|].
    exists q. done.
Qed.

(** publicDecrypt undoes privateEncrypt: what the private key signs directly
    comes out of the public key's operation and the stripping of the padding as
    the same bytes, for a private key file and any file that holds its public
    key; and every RSA operation refuses a modulus of more than 8192 bits. *)
Theorem public_decrypts (keyV keyV' dataV : arg) (rest rest' : list arg) (priv : rsaPrivate) (c : bytes) :
  parsePrivateKey L (valueBytesOr keyV) = Some (RSAPriv priv) →
  parseAnyRSAPublicUncapped L (valueBytesOr keyV') = Some (rsaPublicKey priv) →
  Forall is_byte (valueBytesOr dataV) →
  (opRSAPrivateEncrypt L (keyV :: dataV :: rest) = Answer c →
   opRSAPublicDecrypt L (keyV' :: bytes_arg c :: rest') = Answer (valueBytesOr dataV)) ∧
  (maxRSAModulusBits < BitLen (N (rsaPublicKey priv)) → ∀ rnd r,
     opRSAPrivateEncrypt L (keyV :: r) ∈ [LibRefused; Failed] ∧ opRSAPublicDecrypt L (keyV' :: r) ∈ [LibRefused; Failed] ∧
     opRSAPublicEncrypt L rnd (keyV' :: r) ∈ [LibRefused; Failed] ∧ opRSAPrivateDecrypt L (keyV :: r) ∈ [LibRefused; Failed]).
Proof.
  intros Hk Hk' Hd. split.
  - unfold opRSAPrivateEncrypt, rsa_private, opRSAPublicDecrypt, parseAnyRSAPublic. rewrite Hk, Hk'. simpl.
    destruct (checkRSAModulus _); [|done]. destruct (signUnhashed L priv _) as [s|] eqn:Hs; [|done]. intros [= ->]. simpl.
    apply sign_block in Hs as (Hl & Hb & He & Hv). set (n := N (rsaPublicKey priv)) in *. change (valueBytesOr (bytes_arg c)) with c.
    rewrite (proj2 (Z.leb_gt n (be c))) by lia. unfold Exp. rewrite (proj2 (Z.leb_le _ _)) by lia. simpl. rewrite Z.abs_eq by lia.
    destruct (fill_bytes_ok (modulusSize n) (be c ^ E (rsaPublicKey priv) mod n)) as (em & -> & Hlen & Hem & Hbytes).
    { pose proof (Z.mod_pos_bound (be c ^ E (rsaPublicKey priv)) n). pose proof (modulus_bytes n). lia. }
    rewrite Hv in Hem. assert (em = type1 (modulusSize n) (valueBytesOr dataV)) as ->.
    { apply be_inj; [done| |by rewrite type1_length|done]. unfold type1. repeat (constructor; [done|]).
      apply Forall_app. split; [by apply Forall_replicate|]. by constructor. }
    by rewrite strip_block.
  - intros Hbig rnd r. assert (checkRSAModulus (N (rsaPublicKey priv)) = false) as Hc by (apply Z.leb_gt; done).
    unfold opRSAPrivateEncrypt, opRSAPublicDecrypt, opRSAPublicEncrypt, opRSAPrivateDecrypt, rsa_private, parseAnyRSAPublic.
    rewrite Hk, Hk'. simpl. rewrite Hc. simpl. destruct r as [|? [|? ?]]; simpl; split_and!; rewrite !elem_of_cons; auto.
Qed.

(** ChaCha20-Poly1305: what was sealed opens with the same key, nonce and
    additional data; the tag is 16 bytes. *)
Lemma chacha_roundtrip key nonce data aad ct tag :
  opChaCha L [bool_arg true; key; nonce; data; aad] = Answer (ct, tag) →
  length tag = 16%nat ∧ length ct = length (valueBytesOr data) ∧
  opChaCha L [bool_arg false; key; nonce; bytes_arg ct; aad; bytes_arg tag] = Answer (valueBytesOr data, []).
Proof.
  unfold opChaCha. simpl. destruct (negb (_ =? 12)); [done|]. destruct (negb (chachaNew L _)); [done|]. intros [= <- <-].
  pose proof (seal_length (valueBytesOr key) (valueBytesOr nonce) (valueBytesOr data) (valueBytesOr aad)) as Hl.
  change (opt_arg [bool_arg true; key; nonce; data; aad] 4 valueBytesOr []) with (valueBytesOr aad).
  cbn [opt_arg lookup list_lookup]. set (sealed := chachaSeal _ _ _ _ _) in *.
  change (opt_arg _ 4 _ _) with (valueBytesOr aad). change (opt_arg _ 5 _ _) with (drop (length sealed - 16) sealed).
  change (valueBytesOr (bytes_arg ?b)) with b. rewrite length_drop, length_take, Hl. split_and!; [lia..|]. rewrite take_drop. unfold sealed. by rewrite open_seal.
Qed.

End Laws.

(** ** A toy library, to run the operations *)

(** b ^ e mod n by repeated squaring. *)
Fixpoint pow_mod (b : Z) (e : positive) (n : Z) : Z :=
  match e with
  | xH => b mod n
  | xO e => let r := pow_mod b e n in r * r mod n
  | xI e => let r := pow_mod b e n in b * (r * r mod n) mod n
  end.

(** Signing the way RSA does, with the check of the result that guards against
    a bad key; the other algorithms do nothing. *)
Definition toy_sign (priv : rsaPrivate) (m : bytes) : option bytes :=
  let n := N (rsaPublicKey priv) in
  let block := be (type1 (modulusSize n) m) in
  match rsaD priv with
  | Zpos d =>
      let s := pow_mod block d n in
      s' ← fill_bytes (modulusSize n) s;
      if (length m + 11 <=? modulusSize n)%nat && (0 <=? E (rsaPublicKey priv)) && (0 <=? be s') && (be s' <? n) &&
         (be s' ^ E (rsaPublicKey priv) mod n =? block)
      then Some s' else None
  | _ => None
  end.

Definition toy_rsa : RsaLib := {|
  keyLib := toy_keys;
  rsaEncryptOAEP _ _ _ m := Some m;
  rsaDecryptOAEP _ _ c := Some c;
  rsaEncryptPKCS1v15 _ _ m := Some m;
  rsaDecryptPKCS1v15 _ c := Some c;
  signUnhashed := toy_sign;
  chachaNew key := (length key =? 32)%nat;
  chachaSeal _ _ data _ := data ++ replicate 16 0;
  chachaOpen _ _ data _ := Some (take (length data - 16) data);
  ParseCertificate _ := None;
  ProbablyPrime _ := true;
  ModInverse _ _ := None
|}.

#[export] Instance toy_rsa_laws : RsaLibLaws toy_rsa.
Proof.
  split; simpl; try done.
  - intros priv m s. unfold toy_sign. destruct (rsaD priv) as [|d|d]; [done| |done].
    destruct (fill_bytes _ _) as [s'|]; [|done]. simpl. destruct (_ && _) eqn:Hc; [|done]. intros [= <-].
    rewrite !andb_true_iff in Hc. destruct Hc as [[[[H1 H2] H3] H4] H5]. apply Nat.leb_le in H1. split_and!; lia.
  - intros _ _ data _. rewrite length_app. simpl. lia.
  - intros _ _ data _. f_equal. rewrite length_app. simpl length. rewrite Nat.add_sub.
    by rewrite take_app_length.
Qed.

Definition toy_priv : rsaPrivate := MkRsaPrivate (MkRsaPublic 79228162514229434696431832827 3) 52818775009485914497652274427 [] 0 0 0.

(** One byte under a key of 96 bits: the block is twelve bytes long. *)
Lemma public_decrypts_witness :
  ∃ c, opRSAPrivateEncrypt toy_rsa [bytes_arg (toy_pem (2 :: toy_rsa_fields toy_priv)); bytes_arg [77]] = Answer c ∧
    length c = 12%nat ∧
    opRSAPublicDecrypt toy_rsa [bytes_arg (toy_pem [4; 79228162514229434696431832827; 3]); bytes_arg c] = Answer [77].
Proof.
  eexists. split; [vm_compute; reflexivity|]. split; [reflexivity|].
  eapply (public_decrypts toy_rsa (bytes_arg (toy_pem (2 :: toy_rsa_fields toy_priv)))
    (bytes_arg (toy_pem [4; 79228162514229434696431832827; 3])) (bytes_arg [77]) [] [] toy_priv); [reflexivity|reflexivity| |vm_compute; reflexivity].
  by repeat constructor.
Defined.

(** A modulus of 512 bits. *)
Definition some_prime : bytes := evenHex (2 ^ 511 + 111).

Definition alice : dhKey := MkDH some_prime (lit "02") (lit "05") (lit "20").
Definition bob : dhKey := MkDH some_prime (lit "02") (lit "08") (lit "0100").

Lemma dh_secrets_agree_witness :
  ∃ secret,
    opDHCompute toy_rsa [text_arg (dhPrime alice); text_arg (dhPriv alice); text_arg (dhPub bob)] = Answer secret ∧
    opDHCompute toy_rsa [text_arg (dhPrime bob); text_arg (dhPriv bob); text_arg (dhPub alice)] = Answer secret.
Proof.
  assert (∀ r, 0 <= r < 8 → fair (λ n, if r <? n then Some r else None)) as Hfair.
  { intros r Hr n r'. destruct (Z.ltb_spec r n); [|done]. intros [= <-]. lia. }
  assert (∀ pub x, SetString16 pub = Some x → 1 < x < 1000 → acceptable some_prime pub) as Hacc.
  { intros pub x Hx Hr. exists (2 ^ 511 + 111), x. split_and!; [vm_compute; reflexivity|done|lia|lia]. }
  apply (dh_secrets_agree toy_rsa [] [] (λ n, if 4 <? n then Some 4 else None) (λ n, if 7 <? n then Some 7 else None)
    (text_arg some_prime) [] alice bob); [by apply Hfair|by apply Hfair|vm_compute; reflexivity|done|vm_compute; reflexivity| |].
  - by apply (Hacc _ 32).
  - by apply (Hacc _ 256).
Defined.

(** createDiffieHellman with a prime that has a sign in front: its length is
    looked at, not its sign, and rand.Int panics. *)
Example negative_prime_panics :
  opDHGenerate toy_rsa [] (λ _, Some 0) [text_arg (45 :: some_prime)] = Some Panic.
Proof. vm_compute. reflexivity. Qed.
