(* ===== verification/Zlib.v ===== *)
(** compat/nodejs/zlib.go: one-shot transforms (zlibRun), the incremental streams
    behind createGunzip() and its kin, and the monitor [zlibDecomp] that turns
    Go's pull-style decoders into a push-style one.

    A decoder of compress/* or brotli is a parameter, [Codec]: a machine that asks
    for the next byte of its input, gives output, or stops. Behind it sits the
    buffer those readers keep (bufio), so how the input is cut is not its affair
    but the program's. A compressor is a parameter too, [Comp]. *)

From S2P Require Import Prelude HostArg Encoding.

(** ** The decoders *)

Inductive zerr :=
| CodecErr (m : bytes)        (** an error of the library *)
| IoEOF
| IoUnexpectedEOF
| TooLong                     (** "decompressed output exceeds ..." *)
| Destroyed                   (** errZlibStreamDestroyed *)
| BadMethod.

#[export] Instance zerr_eq : EqDecision zerr.
Proof. solve_decision. Defined.

(** What a decoder does next: ask for a byte (or the end of the input, or an
    error of its source), give output, or end with output and an error; [None]
    is io.EOF, the clean end. *)
Inductive act (St : Type) :=
| NeedByte (k : Z → St) (at_eof : St) (at_err : zerr → St)
| Give (b : bytes) (k : St)
| Stop (b : bytes) (e : option zerr).
Arguments NeedByte {St}.
Arguments Give {St}.
Arguments Stop {St}.

Inductive dmethod := Gunzip | Inflate | InflateRaw | BrotliDecompress.

Record Codec := MkCodec {
  St : Type;
  NewReader : dmethod → St;
  next : St → act St;
  rank : St → nat
}.

(** A decoder does not give for ever without reading, nor go on for ever once
    its source has ended. *)
Class CodecLaws (C : Codec) : Prop := {
  give_rank : ∀ s b k, next C s = Give b k → (rank C k < rank C s)%nat;
  eof_rank : ∀ s k e f, next C s = NeedByte k e f → (rank C e < rank C s)%nat;
  err_rank : ∀ s k e f x, next C s = NeedByte k e f → (rank C (f x) < rank C s)%nat
}.

Definition maxZlibOutput : Z := 256 * 2 ^ 20.

(** How far a decoder comes. *)
Inductive progress (St : Type) :=
| Blocked (s : St) (total : Z)      (** it wants a byte *)
| Ended (e : option zerr).
Arguments Blocked {St}.
Arguments Ended {St}.

Section Decode.
Context (C : Codec).

(** The loop of run over input that is all there; [eof] says that nothing
    follows it. [None] is fuel that ran out. *)
Fixpoint decode (fuel : nat) (eof : bool) (s : St C) (total : Z) (input : bytes) : option (bytes * progress (St C)) :=
  match fuel with
  | O => None
  | S f =>
      match next C s with
      | NeedByte k at_eof _ =>
          match input with
          | c :: input' => decode f eof (k c) total input'
          | [] => if eof then decode f eof at_eof total [] else Some ([], Blocked s total)
          end
      | Give b s' =>
          let total' := total + zlen b in
          if maxZlibOutput <? total' then Some ([], Ended (Some TooLong))
          else '(o, p) ← decode f eof s' total' input; Some (b ++ o, p)
      | Stop b e =>
          if maxZlibOutput <? total + zlen b then Some ([], Ended (Some TooLong)) else Some (b, Ended e)
      end
  end.

(** [decode] with enough fuel, as a relation. *)
Definition decodes (eof : bool) (s : St C) (total : Z) (input : bytes) (o : bytes) (p : progress (St C)) : Prop :=
  ∃ fuel, decode fuel eof s total input = Some (o, p).

(** io.ReadAll over a LimitReader of maxZlibOutput + 1 bytes, then readCapped's
    test: the output, or an error. *)
Definition readCapped (fuel : nat) (s : St C) (data : bytes) : option (result zerr bytes) :=
  '(o, p) ← decode fuel true s 0 data;
  match p with
  | Ended None => Some (Ok o)
  | Ended (Some e) => Some (Err e)
  | Blocked _ _ => None
  end.

(** *** What decode answers *)

Lemma decode_more fuel fuel' eof s total p r :
  decode fuel eof s total p = Some r → (fuel <= fuel')%nat → decode fuel' eof s total p = Some r.
Proof.
  revert fuel' s total p r. induction fuel as [|f IH]; intros [|f'] s total p r; simpl; try done; [lia|].
  intros H Hle. apply le_S_n in Hle. destruct (next C s) as [k e h|b s'|b e]; [| |done].
  - destruct p as [|c p]; [destruct eof; [by apply IH|done]|by apply IH].
  - destruct (_ <? _); [done|]. destruct (decode f eof s' _ p) as [[o pr]|] eqn:E; [|done].
    by rewrite (IH f' _ _ _ _ E).
Qed.

Lemma decodes_det eof s total p o o' pr pr' :
  decodes eof s total p o pr → decodes eof s total p o' pr' → o' = o ∧ pr' = pr.
Proof.
  intros [f H] [f' H']. apply (decode_more _ (f + f')) in H; [|lia]. apply (decode_more _ (f + f')) in H'; [|lia].
  rewrite H in H'. by injection H' as <- <-.
Qed.

(** Input that comes later finds the decoder where the input before left it. *)
Lemma decode_app fuel fuel' eof s total p q o1 s' total' o2 pr :
  decode fuel false s total p = Some (o1, Blocked s' total') →
  decode fuel' eof s' total' q = Some (o2, pr) →
  decode (fuel + fuel') eof s total (p ++ q) = Some (o1 ++ o2, pr).
Proof.
  intros H H'. revert s total p o1 H. induction fuel as [|f IH]; intros s total p o1; simpl; [done|].
  destruct (next C s) as [k e h|b t|b e] eqn:En.
  - destruct p as [|c p]; [|by apply IH]. intros [= <- <- <-]. simpl.
    apply (decode_more _ (S (f + fuel'))) in H'; [|lia]. simpl in H'. by rewrite En in H'.
  - destruct (_ <? _); [done|]. destruct (decode f false t _ p) as [[o1' pr']|] eqn:E; [|done].
    simpl. intros [= <- ->]. rewrite (IH _ _ _ _ E). simpl. by rewrite <-app_assoc.
  - by destruct (_ <? _).
Qed.

(** Once it has ended, what follows is ignored. *)
Lemma decode_ended fuel eof s total p q o e :
  decode fuel false s total p = Some (o, Ended e) → decode fuel eof s total (p ++ q) = Some (o, Ended e).
Proof.
  revert s total p o. induction fuel as [|f IH]; intros s total p o; simpl; [done|].
  destruct (next C s) as [k a h|b t|b a]; [| |done].
  - destruct p as [|c p]; [done|]. by apply IH.
  - destruct (_ <? _); [done|]. destruct (decode f false t _ p) as [[o1 pr]|] eqn:E; [|done].
    simpl. intros [= <- ->]. by rewrite (IH _ _ _ _ E).
Qed.

(** The output cap. *)
Lemma decode_capped fuel eof s total p o pr :
  total <= maxZlibOutput → decode fuel eof s total p = Some (o, pr) → total + zlen o <= maxZlibOutput.
Proof.
  revert s total p o pr. induction fuel as [|f IH]; intros s total p o pr Ht; simpl; [done|].
  destruct (next C s) as [k a h|b t|b a].
  - destruct p as [|c p]; [destruct eof; [by apply IH|intros [= <- _]; unfold zlen; simpl; lia]|by apply IH].
  - destruct (Z.ltb_spec maxZlibOutput (total + zlen b)); [intros [= <- _]; unfold zlen; simpl; lia|].
    destruct (decode f eof t _ p) as [[o1 pr1]|] eqn:E; [|done]. simpl. intros [= <- _].
    apply IH in E; [|done]. unfold zlen in *. rewrite length_app. lia.
  - destruct (Z.ltb_spec maxZlibOutput (total + zlen b)); intros [= <- _]; unfold zlen in *; simpl; lia.
Qed.

(** It comes to an end, and to no [Blocked] once all the input is there. *)
Lemma decode_total `{CodecLaws C} eof s total p : ∃ o pr, decodes eof s total p o pr.
Proof.
  unfold decodes. revert s total. induction p as [|c p IHp]; intros s.
  all: remember (rank C s) as n eqn:En; revert s En; induction n as [n IHn] using lt_wf_ind; intros s -> total.
  all: destruct (next C s) as [k e h|b t|b e] eqn:E.
  1: destruct eof; [|by eexists _, _, 1%nat; simpl; rewrite E].
  1: destruct (IHn _ (eof_rank s k e h E) e eq_refl total) as (o & pr & f & Hf).
  1: by exists o, pr, (S f); simpl; rewrite E.
  3: destruct (IHp (k c) total) as (o & pr & f & Hf); by exists o, pr, (S f); simpl; rewrite E.
  all: destruct (maxZlibOutput <? total + zlen b) eqn:El.
  all: try by eexists _, _, 1%nat; simpl; rewrite E, El.
  all: destruct (IHn _ (give_rank s b t E) t eq_refl (total + zlen b)) as (o & pr & f & Hf).
  all: by exists (b ++ o), pr, (S f); simpl; rewrite E, El, Hf.
Qed.

Lemma decode_eof_ends fuel s total p o s' t' : decode fuel true s total p ≠ Some (o, Blocked s' t').
Proof.
  revert s total p o. induction fuel as [|f IH]; intros s total p o; simpl; [done|].
  destruct (next C s) as [k e h|b t|b e].
  - destruct p; apply IH.
  - destruct (_ <? _); [done|]. destruct (decode f true t _ p) as [[o1 pr]|] eqn:E; simpl; [|done].
    intros [= _ ->]. by apply IH in E.
  - by destruct (_ <? _).
Qed.

End Decode.

(** ** One-shot transforms *)

Inductive cmethod := Gzip | Deflate | DeflateRaw | BrotliCompress.

(** A compressing writer over a buffer: a call says whether it failed, what it
    appended to the buffer, and the writer after it. *)
Record Comp := MkComp {
  CSt : Type;
  NewWriter : cmethod → CSt;
  CWrite : CSt → bytes → option zerr * bytes * CSt;
  CFlush : CSt → option zerr * bytes * CSt;
  CClose : CSt → option zerr * bytes * CSt
}.

Inductive zmethod := Compress (m : cmethod) | Decompress (m : dmethod) | Unzip.

Definition method_of (name : bytes) : option zmethod :=
  if bool_decide (name = lit "gzip") then Some (Compress Gzip)
  else if bool_decide (name = lit "gunzip") then Some (Decompress Gunzip)
  else if bool_decide (name = lit "unzip") then Some Unzip
  else if bool_decide (name = lit "deflate") then Some (Compress Deflate)
  else if bool_decide (name = lit "inflate") then Some (Decompress Inflate)
  else if bool_decide (name = lit "deflateRaw") then Some (Compress DeflateRaw)
  else if bool_decide (name = lit "inflateRaw") then Some (Decompress InflateRaw)
  else if bool_decide (name = lit "brotliCompress") then Some (Compress BrotliCompress)
  else if bool_decide (name = lit "brotliDecompress") then Some (Decompress BrotliDecompress)
  else None.

(** The wrapper of an "unzip" input: gzip's magic, or a zlib stream. *)
Definition sniffed (data : bytes) : dmethod :=
  match data with
  | a :: b :: _ => if (a =? 31) && (b =? 139) then Gunzip else Inflate
  | _ => Inflate
  end.

Section OneShot.
Context (C : Codec) (W : Comp).

Definition zlibRun (fuel : nat) (name data : bytes) : option (result zerr bytes) :=
  match method_of name with
  | Some (Compress m) =>
      Some (match CWrite W (NewWriter W m) data with
            | (Some e, _, _) => Err e
            | (None, b, w) =>
                match CClose W w with
                | (Some e, _, _) => Err e
                | (None, b', _) => Ok (b ++ b')
                end
            end)
  | Some (Decompress m) => readCapped C fuel (NewReader C m) data
  | Some Unzip => readCapped C fuel (NewReader C (sniffed data)) data
  | None => Some (Err BadMethod)
  end.

(** An error value carries its code. *)
Inductive zvalue := ZBytes (b : bytes) | ZId (id : Z) | ZErr (code : string) | ZUndef | ZFailed.

Definition opZlibTransform (fuel : nat) (args : list arg) : option zvalue :=
  match args with
  | name :: data :: _ =>
      match valueBytes data with
      | None => Some ZFailed
      | Some data =>
          r ← zlibRun fuel (str name) data;
          Some (match r with Ok out => ZBytes out | Err _ => ZErr "Z_DATA_ERROR" end)
      end
  | _ => Some ZFailed
  end.

End OneShot.

(** ** The monitor: zlibDecomp *)

Module Decomp.
Section Decomp.
Context (C : Codec).

(** type zlibDecomp; [aborted] is abortErr, [done] the closed channel. *)
Record zlibDecomp := MkDecomp {
  buf : bytes; closed : bool; aborted : bool; drained : bool; finished : bool;
  out : bytes; err : option zerr; done : bool
}.

(** Where the decoder goroutine is. [pend] is what its reader has buffered; asleep
    in cond.Wait, or woken and about to take the lock again, it has nothing
    buffered. *)
Inductive dpc :=
| DRun (s : St C) (pend : bytes) (total : Z)
| DSleep (s : St C) (total : Z)
| DWoken (s : St C) (total : Z)
| DExit (e : option zerr)      (** out of the loop, [terminal = e] *)
| DClosing                     (** about to close [done] *)
| DGone.

(** Where the loop goroutine is: idle, in feed's cond.Wait, woken there, back from
    feed, waiting for [done] in end, back from end. *)
Inductive mpc :=
| MIdle | MSleep | MWoken | MFed (r : option zerr) | MEnding | MEnded (r : result zerr bytes).

Record world := MkWorld { mon : zlibDecomp; dec : dpc; main : mpc }.

Definition set_mon (w : world) (d : zlibDecomp) : world := MkWorld d (dec w) (main w).
Definition set_dec (w : world) (p : dpc) : world := MkWorld (mon w) p (main w).
Definition set_main (w : world) (p : mpc) : world := MkWorld (mon w) (dec w) p.

(** newZlibDecomp *)
Definition newZlibDecomp (m : dmethod) : world :=
  MkWorld (MkDecomp [] false false false false [] None false) (DRun (NewReader C m) [] 0) MIdle.

(** cond.Broadcast *)
Definition wake_dec (p : dpc) : dpc := match p with DSleep s t => DWoken s t | p => p end.
Definition wake (p : mpc) : mpc := match p with MSleep => MWoken | p => p end.
Definition Broadcast (w : world) : world := MkWorld (mon w) (wake_dec (dec w)) (wake (main w)).

(** One turn of Read's loop, in a locked section; the reader's buffer holds
    [size] bytes. *)
Definition Read (size : nat) (s : St C) (total : Z) (w : world) : world :=
  let d := mon w in
  match next C s with
  | NeedByte _ at_eof at_err =>
      if aborted d then set_dec w (DRun (at_err Destroyed) [] total)
      else if bool_decide (buf d ≠ []) then
        set_dec (set_mon w (MkDecomp (drop size (buf d)) (closed d) (aborted d) (drained d) (finished d) (out d) (err d) (done d)))
          (DRun s (take size (buf d)) total)
      else if closed d then set_dec w (DRun at_eof [] total)
      else
        set_dec (Broadcast (set_mon w (MkDecomp (buf d) (closed d) (aborted d) true (finished d) (out d) (err d) (done d))))
          (DSleep s total)
  | _ => w
  end.

(** d.out = append(d.out, b...) *)
Definition append_out (b : bytes) (w : world) : world :=
  let d := mon w in
  set_mon w (MkDecomp (buf d) (closed d) (aborted d) (drained d) (finished d) (out d ++ b) (err d) (done d)).

(** A step of the decoder goroutine; [None]: it sleeps, or is gone. *)
Definition dec_step (size : nat) (w : world) : option world :=
  match dec w with
  | DRun s pend total =>
      match next C s with
      | NeedByte k _ _ =>
          match pend with
          | c :: pend' => Some (set_dec w (DRun (k c) pend' total))
          | [] => Some (Read size s total w)
          end
      | Give b s' =>
          let total' := total + zlen b in
          if maxZlibOutput <? total' then Some (set_dec w (DExit (Some TooLong)))
          else Some (set_dec (append_out b w) (DRun s' pend total'))
      | Stop b e =>
          if maxZlibOutput <? total + zlen b then Some (set_dec w (DExit (Some TooLong)))
          else Some (set_dec (append_out b w) (DExit e))
      end
  | DWoken s total => Some (Read size s total w)
  | DSleep _ _ => None
  | DExit e =>
      let d := mon w in
      let e' := match e with Some x => if bool_decide (x = Destroyed) then None else Some x | None => None end in
      Some (set_dec (Broadcast (set_mon w
             (MkDecomp (buf d) (closed d) (aborted d) (drained d) true (out d) (match e' with Some x => Some x | None => err d end) (done d))))
             DClosing)
  | DClosing =>
      let d := mon w in
      Some (set_dec (set_mon w (MkDecomp (buf d) (closed d) (aborted d) (drained d) (finished d) (out d) (err d) true)) DGone)
  | DGone => None
  end.

(** The condition of feed's loop. *)
Definition feed_check (w : world) : world :=
  let d := mon w in
  if negb (drained d) && negb (finished d) && negb (aborted d) then set_main w MSleep else set_main w (MFed (err d)).

Definition feed (p : bytes) (w : world) : world :=
  let d := mon w in
  match err d with
  | Some e => set_main w (MFed (Some e))
  | None =>
      if finished d || closed d || aborted d then set_main w (MFed None)
      else feed_check (Broadcast (set_mon w
             (MkDecomp (buf d ++ p) (closed d) (aborted d) false (finished d) (out d) (err d) (done d))))
  end.

Definition take_out (w : world) : bytes * world :=
  let d := mon w in
  (out d, set_mon w (MkDecomp (buf d) (closed d) (aborted d) (drained d) (finished d) [] (err d) (done d))).

(** end: up to the wait for [done], and the rest. *)
Definition end_ (w : world) : world :=
  let d := mon w in
  set_main (Broadcast (set_mon w
    (MkDecomp (buf d) true (aborted d) (drained d) (finished d) (out d) (err d) (done d)))) MEnding.

Definition end_return (w : world) : world :=
  let '(o, w') := take_out w in
  set_main w' (MEnded (match err (mon w) with Some e => Err e | None => Ok o end)).

(** abort, by whichever goroutine; its wait for [done] changes nothing. *)
Definition abort (w : world) : world :=
  let d := mon w in
  Broadcast (set_mon w (MkDecomp (buf d) (closed d) true (drained d) (finished d) (out d) (err d) (done d))).

(** The loop goroutine calls; [MFed] and [MEnded] hand their result over. *)
Inductive step (size : nat) : world → world → Prop :=
| step_dec w w' : dec_step size w = Some w' → step size w w'
| step_feed w p : main w = MIdle → step size w (feed p w)
| step_woken w : main w = MWoken → step size w (feed_check w)
| step_fed w r : main w = MFed r → step size w (set_main (take_out w).2 MIdle)
| step_end w : main w = MIdle → step size w (end_ w)
| step_ended w : main w = MEnding → done (mon w) = true → step size w (end_return w)
| step_abort w : step size w (abort w).

Inductive reachable (size : nat) (m : dmethod) : world → Prop :=
| reach_new : reachable size m (newZlibDecomp m)
| reach_step w w' : reachable size m w → step size w w' → reachable size m w'.

(** *** No wake-up is lost *)

Record inv (w : world) : Prop := {
  (** the decoder sleeps only while there is nothing for it *)
  inv_sleep : ∀ s t, dec w = DSleep s t →
    (∃ k e f, next C s = NeedByte k e f) ∧ buf (mon w) = [] ∧ closed (mon w) = false ∧ aborted (mon w) = false
    ∧ drained (mon w) = true;
  inv_woken : ∀ s t, dec w = DWoken s t → ∃ k e f, next C s = NeedByte k e f;
  (** the caller sleeps only while the decoder is at work *)
  inv_main : main w = MSleep → drained (mon w) = false ∧ finished (mon w) = false ∧ aborted (mon w) = false;
  inv_finished : finished (mon w) = true ↔ dec w = DClosing ∨ dec w = DGone;
  inv_done : done (mon w) = true ↔ dec w = DGone;
  inv_ending : main w = MEnding → closed (mon w) = true
}.

Lemma inv_new m : inv (newZlibDecomp m).
Proof. split; simpl; try done; (split; [done|]); try (by intros [?|?]). Qed.

Ltac split_world w := destruct w as [[b c a d f o e dn] p m].

(** A change of the monitor that everyone is told of. *)
Lemma inv_broadcast w d' :
  inv w → finished d' = finished (mon w) → done d' = done (mon w) →
  (closed (mon w) = true → closed d' = true) →
  inv (Broadcast (set_mon w d')).
Proof.
  intros [Hs Hw Hm Hf Hd He] E1 E2 E3. split; simpl.
  - intros s t. by destruct (dec w).
  - intros s t. destruct (dec w) eqn:E; try done; intros [= <- <-]; [by destruct (Hs _ _ eq_refl)|by eapply Hw].
  - by destruct (main w).
  - rewrite E1, Hf. by destruct (dec w); split; intros [?|?]; auto.
  - rewrite E2, Hd. by destruct (dec w).
  - intros Hme. apply E3, He. by destruct (main w).
Qed.

Lemma inv_set_main w p : inv w → p ≠ MSleep → (p = MEnding → closed (mon w) = true) → inv (set_main w p).
Proof. intros [Hs Hw Hm Hf Hd He] Hp He'. by split. Qed.

Lemma inv_feed_check w : inv w → inv (feed_check w).
Proof.
  intros H. unfold feed_check. destruct (negb _ && _ && _) eqn:E.
  - bool_to_prop. destruct H as [Hs Hw Hm Hf Hd He]. by split.
  - by apply inv_set_main.
Qed.

Lemma inv_feed p w : inv w → inv (feed p w).
Proof.
  intros H. unfold feed. destruct (err (mon w)); [by apply inv_set_main|].
  destruct (_ || _); [by apply inv_set_main|]. apply inv_feed_check. by apply inv_broadcast.
Qed.

Lemma inv_take w : inv w → inv (take_out w).2.
Proof. intros [Hs Hw Hm Hf Hd He]. by split. Qed.

(** The decoder goes on, the flags as they were. *)
Definition at_work (p : dpc) : bool := match p with DRun _ _ _ | DExit _ => true | _ => false end.

Definition same_flags (d d' : zlibDecomp) : Prop :=
  closed d' = closed d ∧ aborted d' = aborted d ∧ drained d' = drained d ∧ finished d' = finished d ∧ done d' = done d.

Lemma not_finished w : inv w → dec w ≠ DClosing → dec w ≠ DGone → finished (mon w) = false ∧ done (mon w) = false.
Proof.
  intros H H1 H2. split; apply not_true_is_false.
  - rewrite (inv_finished _ H). by intros [?|?].
  - by rewrite (inv_done _ H).
Qed.

Lemma inv_go w d' p' :
  inv w → dec w ≠ DClosing → dec w ≠ DGone → at_work p' = true → same_flags (mon w) d' →
  inv (MkWorld d' p' (main w)).
Proof.
  intros H H1 H2 Hp (E1 & E2 & E3 & E4 & E5). destruct (not_finished w H H1 H2) as [Hfin Hdone].
  split; simpl; rewrite ?E1, ?E2, ?E3, ?E4, ?E5, ?Hfin, ?Hdone.
  - intros s t ->. done.
  - intros s t ->. done.
  - intros Hm. destruct (inv_main _ H Hm) as (? & _ & ?). done.
  - split; [done|by intros [-> | ->]].
  - split; [done|by intros ->].
  - apply (inv_ending _ H).
Qed.

Ltac go_on w := apply (inv_go w); [done..|unfold same_flags; simpl; repeat split; congruence].

Lemma inv_Read size s total w :
  inv w → dec w = DRun s [] total ∨ dec w = DWoken s total → (∃ k e f, next C s = NeedByte k e f) →
  inv (Read size s total w).
Proof.
  intros H Hdec (k & e & f & Hn). unfold Read. rewrite Hn.
  assert (H1 : dec w ≠ DClosing) by (by destruct Hdec as [-> | ->]).
  assert (H2 : dec w ≠ DGone) by (by destruct Hdec as [-> | ->]).
  destruct (aborted (mon w)) eqn:Ha; [go_on w|].
  case_bool_decide as Hb; [go_on w|]. destruct (closed (mon w)) eqn:Hc; [go_on w|].
  destruct (not_finished w H H1 H2) as [Hfin Hdone]. split; simpl.
  - intros s' t' [= <- <-]. split; [by eexists _, _, _|]. split; [|done].
    destruct (decide (buf (mon w) = [])); [done|by destruct Hb].
  - done.
  - by destruct (main w).
  - rewrite Hfin. split; [done|by intros [?|?]].
  - by rewrite Hdone.
  - intros Hme. rewrite <-Hc. apply (inv_ending _ H). by destruct (main w).
Qed.

Lemma inv_dec size w w' : inv w → dec_step size w = Some w' → inv w'.
Proof.
  intros H. unfold dec_step. destruct (dec w) as [s pend total|s total|s total|e| |] eqn:Hdec; try done.
  - assert (H1 : dec w ≠ DClosing) by by rewrite Hdec. assert (H2 : dec w ≠ DGone) by by rewrite Hdec.
    destruct (next C s) as [k e f|b s'|b e] eqn:Hn.
    + destruct pend as [|c pend]; intros [= <-]; [|go_on w].
      apply inv_Read; [done|by left|by eexists _, _, _].
    + destruct (_ <? _); intros [= <-]; go_on w.
    + destruct (_ <? _); intros [= <-]; go_on w.
  - intros [= <-]. apply inv_Read; [done|by right|by eapply (inv_woken _ H)].
  - intros [= <-]. assert (Hdone : done (mon w) = false) by (apply not_finished; [done|by rewrite Hdec..]).
    split; simpl; try done.
    + by destruct (main w).
    + split; [by left|done].
    + by rewrite Hdone.
    + intros Hme. apply (inv_ending _ H). by destruct (main w).
  - intros [= <-]. split; simpl; try done.
    + intros Hm. by apply (inv_main _ H).
    + split; [by right|]. intros _. apply (inv_finished _ H). by left.
    + intros Hme. by apply (inv_ending _ H).
Qed.

Lemma inv_step size w w' : inv w → step size w w' → inv w'.
Proof.
  intros H Hst. destruct Hst as [w w' Hw|w p _|w _|w r _|w _|w _ _|w].
  - by eapply inv_dec.
  - by apply inv_feed.
  - by apply inv_feed_check.
  - apply inv_set_main; [by apply inv_take|done|done].
  - unfold end_. apply inv_set_main; [by apply inv_broadcast|done|done].
  - unfold end_return. simpl. apply inv_set_main; [|done|done]. apply (inv_take w H).
  - unfold abort. by apply inv_broadcast.
Qed.

Lemma decomp_inv size m w : reachable size m w → inv w.
Proof. induction 1; [apply inv_new|by eapply inv_step]. Qed.

(** *** Every caller is woken *)

(** The decoder goroutine alone, as far as it goes. *)
Fixpoint dec_run (fuel size : nat) (w : world) : world :=
  match fuel with
  | O => w
  | S f => match dec_step size w with Some w' => dec_run f size w' | None => w end
  end.

(** What the decoder has left: bytes to look at, then what it can do without
    more of them, then bytes to fetch. *)
Definition load (w : world) : nat :=
  length (buf (mon w)) + match dec w with DRun _ pend _ => length pend | _ => 0 end.

Definition phase (w : world) : nat :=
  match dec w with
  | DRun s _ _ | DWoken s _ => 3 + rank C s
  | DExit _ => 2
  | DClosing => 1
  | DSleep _ _ | DGone => 0
  end.

Definition lighter (w' w : world) : Prop :=
  (load w' < load w)%nat ∨ load w' = load w ∧
  ((phase w' < phase w)%nat ∨ phase w' = phase w ∧ (length (buf (mon w')) < length (buf (mon w)))%nat).

Lemma lighter_ind (P : world → Prop) : (∀ w, (∀ w', lighter w' w → P w') → P w) → ∀ w, P w.
Proof.
  intros H w. remember (load w) as a eqn:Ea. revert w Ea. induction a as [a IHa] using lt_wf_ind. intros w.
  remember (phase w) as b eqn:Eb. revert w Eb. induction b as [b IHb] using lt_wf_ind. intros w.
  remember (length (buf (mon w))) as c eqn:Ec. revert w Ec. induction c as [c IHc] using lt_wf_ind.
  intros w -> -> ->. apply H. intros w' [Hl|[El [Hl|[Ep Hl]]]]; [by eapply IHa|by eapply IHb|by eapply IHc].
Qed.

Section Laws.
Context {HC : CodecLaws C} (size : nat) (Hsize : (0 < size)%nat).

Lemma Read_lighter s total w :
  dec w = DRun s [] total ∨ dec w = DWoken s total → (∃ k e f, next C s = NeedByte k e f) →
  lighter (Read size s total w) w.
Proof.
  intros Hdec (k & e & f & Hn).
  assert (Hload : load w = length (buf (mon w))) by (unfold load; destruct Hdec as [-> | ->]; simpl; lia).
  assert (Hphase : phase w = (3 + rank C s)%nat) by (unfold phase; by destruct Hdec as [-> | ->]).
  pose proof (eof_rank s k e f Hn) as He. unfold Read. rewrite Hn. unfold lighter. rewrite Hload, Hphase.
  destruct (aborted (mon w)); [right; unfold load, phase; simpl; pose proof (err_rank s k e f Destroyed Hn); lia|].
  case_bool_decide as Hb.
  - right. unfold load, phase; simpl. split; [rewrite length_drop, length_take; lia|]. right.
    split; [done|]. rewrite length_drop. destruct (buf (mon w)); [done|simpl; lia].
  - destruct (closed (mon w)); right; unfold load, phase; simpl; lia.
Qed.

Lemma dec_step_lighter w w' : inv w → dec_step size w = Some w' → lighter w' w.
Proof.
  intros H. unfold dec_step. destruct (dec w) as [s pend total|s total|s total|e| |] eqn:Hdec; try done.
  - destruct (next C s) as [k e f|b s'|b e] eqn:Hn.
    + destruct pend as [|c pend]; intros [= <-].
      * apply Read_lighter; [by left|by eexists _, _, _].
      * left. unfold load. rewrite Hdec. simpl. lia.
    + pose proof (give_rank s b s' Hn).
      destruct (_ <? _); intros [= <-]; unfold lighter, load, phase; rewrite Hdec; simpl; lia.
    + destruct (_ <? _); intros [= <-]; unfold lighter, load, phase; rewrite Hdec; simpl; lia.
  - intros [= <-]. apply Read_lighter; [by right|by eapply (inv_woken _ H)].
  - intros [= <-]. right. unfold load, phase; rewrite Hdec; simpl; lia.
  - intros [= <-]. right. unfold load, phase; rewrite Hdec; simpl; lia.
Qed.

Lemma wake_cases m : wake m = m ∨ m = MSleep ∧ wake m = MWoken.
Proof. destruct m; auto. Qed.

(** What a step of the decoder leaves alone. *)
Lemma dec_step_keeps w w' :
  dec_step size w = Some w' →
  closed (mon w') = closed (mon w) ∧ aborted (mon w') = aborted (mon w)
  ∧ (main w' = main w ∨ main w = MSleep ∧ main w' = MWoken).
Proof.
  pose proof (wake_cases (main w)) as Hwake.
  assert (Hread : ∀ s t, let w' := Read size s t w in
    closed (mon w') = closed (mon w) ∧ aborted (mon w') = aborted (mon w)
    ∧ (main w' = main w ∨ main w = MSleep ∧ main w' = MWoken)).
  { intros s t. simpl. unfold Read. destruct (next C s); [|auto..].
    destruct (aborted (mon w)) eqn:?; [simpl; auto|]. case_bool_decide; [simpl; auto|].
    destruct (closed (mon w)) eqn:?; simpl; auto. }
  unfold dec_step. destruct (dec w) as [s pend total|s total|s total|e| |]; try done.
  - destruct (next C s); [destruct pend|destruct (_ <? _)..]; intros [= <-]; auto.
  - by intros [= <-].
  - intros [= <-]. simpl. auto.
  - intros [= <-]. simpl. auto.
Qed.

Lemma dec_settles w : inv w →
  ∃ n, let w' := dec_run n size w in
    dec_step size w' = None ∧ inv w' ∧ closed (mon w') = closed (mon w) ∧ aborted (mon w') = aborted (mon w)
    ∧ (main w' = main w ∨ main w = MSleep ∧ main w' = MWoken).
Proof.
  induction w as [w IH] using lighter_ind. intros H. destruct (dec_step size w) as [v|] eqn:E.
  - destruct (IH v) as (n & H1 & H2 & H3 & H4 & H5); [by apply dec_step_lighter|by eapply inv_dec|].
    exists (S n). simpl. rewrite E. destruct (dec_step_keeps w v E) as (K1 & K2 & K3).
    split_and!; [done..|congruence|congruence|]. destruct K3 as [<-|[? K3]]; [done|]. right. split; [done|].
    rewrite K3 in H5. by destruct H5 as [?|[??]].
  - exists 0%nat. simpl. split_and!; auto.
Qed.

(** C20: neither feed, nor end, nor abort waits for ever. Whatever the goroutines
    did before, the decoder goroutine left to itself comes to rest; feed's wait
    is over by then, and so are those of end and of abort. *)
Theorem callers_are_woken m w : reachable size m w →
  ∃ n, let w' := dec_run n size w in
    dec_step size w' = None
    ∧ (main w = MSleep → main w' = MWoken)
    ∧ (main w = MEnding ∨ aborted (mon w) = true → done (mon w') = true).
Proof.
  intros H%decomp_inv. destruct (dec_settles w H) as (n & Hn & Hi & Hc & Ha & Hm). exists n. simpl.
  assert (Hrest : (∃ s t, dec (dec_run n size w) = DSleep s t) ∨ dec (dec_run n size w) = DGone).
  { revert Hn. unfold dec_step. destruct (dec _) as [s pend ?| | | | |]; try done; eauto.
    destruct (next C s); [destruct pend|destruct (_ <? _)..]; done. }
  split; [done|]. split.
  - intros Hs. destruct Hm as [Hm|[_ Hm]]; [|done]. rewrite Hs in Hm.
    destruct (inv_main _ Hi Hm) as (H1 & H2 & _). destruct Hrest as [(s & t & Hd)|Hd].
    + destruct (inv_sleep _ Hi _ _ Hd) as (_ & _ & _ & _ & H3). congruence.
    + assert (finished (mon (dec_run n size w)) = true) by (apply (inv_finished _ Hi); by right). congruence.
  - intros Hwait. apply (inv_done _ Hi). destruct Hrest as [(s & t & Hd)|Hd]; [|done]. exfalso.
    destruct (inv_sleep _ Hi _ _ Hd) as (_ & _ & H1 & H2 & _). destruct Hwait as [Hw|Hw]; [|congruence].
    pose proof (inv_ending _ H Hw). congruence.
Qed.

End Laws.

(** *** The calls, run to their end *)

(** The loop goroutine goes first whenever it can; while it waits, the decoder
    runs. *)
Fixpoint drive (fuel size : nat) (w : world) : option world :=
  match fuel with
  | O => None
  | S f =>
      match main w with
      | MIdle | MFed _ | MEnded _ => Some w
      | MWoken => drive f size (feed_check w)
      | MSleep => w' ← dec_step size w; drive f size w'
      | MEnding => if done (mon w) then drive f size (end_return w) else w' ← dec_step size w; drive f size w'
      end
  end.

Definition feedRun (fuel size : nat) (p : bytes) (w : world) : option (option zerr * world) :=
  w' ← drive fuel size (feed p w);
  match main w' with MFed r => Some (r, set_main w' MIdle) | _ => None end.

Definition endRun (fuel size : nat) (w : world) : option (result zerr bytes * world) :=
  w' ← drive fuel size (end_ w);
  match main w' with MEnded r => Some (r, set_main w' MIdle) | _ => None end.

Definition abortRun (fuel size : nat) (w : world) : option world :=
  let w' := dec_run fuel size (abort w) in if done (mon w') then Some w' else None.

(** What run reports of how the decoder ended. *)
Definition shown (e : option zerr) : option zerr :=
  match e with Some x => if bool_decide (x = Destroyed) then None else Some x | None => None end.

Lemma drive_more n n' size w w' : drive n size w = Some w' → (n <= n')%nat → drive n' size w = Some w'.
Proof.
  revert n' w. induction n as [|n IH]; intros [|n'] w; simpl; try done; [lia|].
  intros H Hle. apply le_S_n in Hle. destruct (main w); try done.
  - destruct (dec_step size w); [by apply IH|done].
  - by apply IH.
  - destruct (done (mon w)); [by apply IH|]. destruct (dec_step size w); [by apply IH|done].
Qed.

Lemma feedRun_more n n' size p w r : feedRun n size p w = Some r → (n <= n')%nat → feedRun n' size p w = Some r.
Proof.
  unfold feedRun. intros H Hle. destruct (drive n _ _) as [w'|] eqn:E; [|done]. by rewrite (drive_more _ _ _ _ _ E Hle).
Qed.

Lemma endRun_more n n' size w r : endRun n size w = Some r → (n <= n')%nat → endRun n' size w = Some r.
Proof.
  unfold endRun. intros H Hle. destruct (drive n _ _) as [w'|] eqn:E; [|done]. by rewrite (drive_more _ _ _ _ _ E Hle).
Qed.

(** *** The monitor refines the decoder

    A world whose caller is idle stands for a decoder and the output not taken:
    [pr] is where the decoder is over the input so far. *)
Definition shows (w : world) (pr : progress (St C)) (o : bytes) : Prop :=
  main w = MIdle ∧ aborted (mon w) = false ∧ out (mon w) = o ∧
  match pr with
  | Blocked s t =>
      closed (mon w) = false ∧ buf (mon w) = [] ∧ err (mon w) = None ∧ finished (mon w) = false ∧ done (mon w) = false ∧
      (dec w = DRun s [] t ∨ dec w = DSleep s t ∧ ∃ k e f, next C s = NeedByte k e f)
  | Ended e =>
      finished (mon w) = true ∧ err (mon w) = shown e ∧
      (dec w = DClosing ∧ done (mon w) = false ∨ dec w = DGone ∧ done (mon w) = true)
  end.

Lemma shows_new m : shows (newZlibDecomp m) (Blocked (NewReader C m) 0) [].
Proof. unfold shows; simpl. auto 10. Qed.

(** Steps of the decoder while the caller waits. *)
Definition waits (w : world) : Prop := main w = MSleep ∨ main w = MEnding ∧ done (mon w) = false.
Definition alone (size : nat) : world → world → Prop := rtc (λ w w', waits w ∧ dec_step size w = Some w').

Lemma drive_alone size w w' n x :
  alone size w w' → drive n size w' = Some x → ∃ n', drive n' size w = Some x.
Proof.
  intros H. revert n x. induction H as [w|w v w' [Hw Hs] _ IH]; intros n x Hx; [by exists n|].
  destruct (IH n x Hx) as [n' Hn']. exists (S n'). simpl.
  destruct Hw as [->|[-> ->]]; rewrite Hs; exact Hn'.
Qed.

(** Where the decoder stops: asleep, or out of its loop, the caller woken. *)
Definition settled (w : world) (pr : progress (St C)) (o : bytes) (w' : world) : Prop :=
  main w' = wake (main w) ∧ closed (mon w') = closed (mon w) ∧ aborted (mon w') = false
  ∧ out (mon w') = out (mon w) ++ o ∧ done (mon w') = false
  ∧ match pr with
    | Blocked s t =>
        buf (mon w') = [] ∧ err (mon w') = None ∧ finished (mon w') = false ∧ drained (mon w') = true ∧
        dec w' = DSleep s t ∧ ∃ k e f, next C s = NeedByte k e f
    | Ended e => finished (mon w') = true ∧ err (mon w') = shown e ∧ dec w' = DClosing
    end.

Definition running (w : world) : Prop :=
  waits w ∧ aborted (mon w) = false ∧ done (mon w) = false ∧ finished (mon w) = false ∧ err (mon w) = None.

Lemma settled_from w w1 pr o o' w' :
  main w1 = main w → closed (mon w1) = closed (mon w) → out (mon w1) = out (mon w) ++ o →
  settled w1 pr o' w' → settled w pr (o ++ o') w'.
Proof.
  intros E1 E2 E3. unfold settled. rewrite E1, E2, E3, <-app_assoc. done.
Qed.

Lemma alone_exit size w e :
  running w → dec w = DExit e → ∃ w', alone size w w' ∧ settled w (Ended e) [] w'.
Proof.
  intros (Hw & Ha & Hd & Hf & He) Hdec. eexists. split.
  - eapply rtc_l; [split; [done|]|apply rtc_refl]. unfold dec_step. by rewrite Hdec.
  - unfold settled. simpl. rewrite app_nil_r, He. split_and!; try done.
    destruct e as [x|]; simpl; [|done]. by case_bool_decide.
Qed.

Lemma alone_on size w w1 pr o1 o2 :
  waits w → dec_step size w = Some w1 →
  main w1 = main w → closed (mon w1) = closed (mon w) → out (mon w1) = out (mon w) ++ o1 →
  (∃ w', alone size w1 w' ∧ settled w1 pr o2 w') → ∃ w', alone size w w' ∧ settled w pr (o1 ++ o2) w'.
Proof.
  intros Hw Hs E1 E2 E3 (w' & Ha & Hset). exists w'. split.
  - by eapply rtc_l.
  - by eapply settled_from.
Qed.

Lemma running_same w d p :
  running w → aborted d = aborted (mon w) → done d = done (mon w) → finished d = finished (mon w) →
  err d = err (mon w) → running (MkWorld d p (main w)).
Proof.
  intros (Hw & Ha & Hd & Hf & He) E1 E2 E3 E4. unfold running, waits in *. simpl. by rewrite E1, E2, E3, E4.
Qed.

(** The decoder is about to look at its input. *)
Definition looks (w : world) (s : St C) (pend : bytes) (total : Z) : Prop :=
  dec w = DRun s pend total ∨ pend = [] ∧ dec w = DWoken s total ∧ ∃ k e f, next C s = NeedByte k e f.

Lemma looks_step size w s pend total :
  looks w s pend total →
  dec_step size w = dec_step size (set_dec w (DRun s pend total)).
Proof.
  intros [H|(-> & H & k & e & f & Hn)]; [destruct w; simpl in *; by subst|].
  unfold dec_step. rewrite H. simpl. rewrite Hn. unfold Read. rewrite Hn. simpl. by destruct (aborted (mon w)), (bool_decide (buf (mon w) ≠ [])), (closed (mon w)).
Qed.

Lemma alone_decodes size fuel w s pend total o pr :
  (0 < size)%nat → running w → looks w s pend total →
  decode C fuel (closed (mon w)) s total (pend ++ buf (mon w)) = Some (o, pr) →
  ∃ w', alone size w w' ∧ settled w pr o w'.
Proof.
  intros Hsize. revert w s pend total o pr. induction fuel as [|fuel IH]; intros w s pend total o pr Hr Hdec Hd; [done|].
  simpl in Hd. apply (looks_step size) in Hdec. pose proof Hr as (Hw & Ha & Hdone & Hfin & Herr).
  assert (Hstep : ∀ w1, dec_step size w = Some w1 → main w1 = main w → closed (mon w1) = closed (mon w) →
    out (mon w1) = out (mon w) → (∃ w', alone size w1 w' ∧ settled w1 pr o w') →
    ∃ w', alone size w w' ∧ settled w pr o w').
  { intros w1 H1 H2 H3 H4. eapply (alone_on size w w1 pr [] o); rewrite ?app_nil_r; done. }
  destruct (next C s) as [k e f|b s'|b e] eqn:Hn.
  - destruct pend as [|c pend]; simpl in Hd.
    + assert (HR : dec_step size w = Some (Read size s total (set_dec w (DRun s [] total))))
        by (rewrite Hdec; unfold dec_step; simpl; by rewrite Hn).
      unfold Read in HR. simpl in HR. rewrite Hn, Ha in HR. destruct (buf (mon w)) as [|c b] eqn:Hb.
      * rewrite bool_decide_eq_false_2 in HR by auto. destruct (closed (mon w)) eqn:Hc.
        -- apply (Hstep _ HR); [done..|]. eapply IH; [by apply running_same|by left|]. simpl. by rewrite Hc, Hb.
        -- injection Hd as <- <-. eexists. split; [eapply rtc_l; [by split|apply rtc_refl]|].
           unfold settled; simpl. rewrite app_nil_r. split_and!; eauto.
      * rewrite bool_decide_eq_true_2 in HR by done. destruct size as [|n]; [lia|]. simpl in HR.
        apply (Hstep _ HR); [done..|]. set (w1 := set_dec _ _).
        eapply (alone_on _ w1 (set_dec w1 (DRun (k c) (take n b) total)) pr [] o); [exact Hw| |done..| |].
        -- unfold dec_step. simpl. by rewrite Hn.
        -- simpl. by rewrite app_nil_r.
        -- eapply IH; [by apply running_same|by left|]. simpl. by rewrite take_drop.
    + apply (Hstep (set_dec w (DRun (k c) pend total))); [rewrite Hdec; unfold dec_step; simpl; by rewrite Hn|done..|].
      eapply IH; [by apply running_same|by left|done].
  - destruct (maxZlibOutput <? total + zlen b) eqn:Hcap.
    + injection Hd as <- <-. apply (Hstep (set_dec w (DExit (Some TooLong)))); [|done..|].
      * rewrite Hdec. unfold dec_step. simpl. by rewrite Hn, Hcap.
      * apply alone_exit; [by apply running_same|done].
    + destruct (decode C fuel _ s' _ _) as [[o1 pr1]|] eqn:E; [|done]. injection Hd as <- <-.
      eapply (alone_on size w (set_dec (append_out b w) (DRun s' pend (total + zlen b)))); [done| |done..|].
      * rewrite Hdec. unfold dec_step. simpl. by rewrite Hn, Hcap.
      * eapply IH; [by apply running_same|by left|done].
  - destruct (maxZlibOutput <? total + zlen b) eqn:Hcap; injection Hd as <- <-.
    + apply (Hstep (set_dec w (DExit (Some TooLong)))); [|done..|].
      * rewrite Hdec. unfold dec_step. simpl. by rewrite Hn, Hcap.
      * apply alone_exit; [by apply running_same|done].
    + rewrite <-(app_nil_r b).
      eapply (alone_on size w (set_dec (append_out b w) (DExit e))); [done| |done..|].
      * rewrite Hdec. unfold dec_step. simpl. by rewrite Hn, Hcap.
      * apply alone_exit; [by apply running_same|done].
Qed.

Lemma alone_then_drive size w w' x :
  alone size w w' → drive 3 size w' = Some x → ∃ n, drive n size w = Some x.
Proof. intros. by eapply drive_alone. Qed.

Definition failure (pr : progress (St C)) : option zerr := match pr with Blocked _ _ => None | Ended e => shown e end.

Lemma feed_sleeps p w s t o :
  shows w (Blocked s t) o →
  feed p w = MkWorld (MkDecomp p false false false false (out (mon w)) None false) (wake_dec (dec w)) MSleep.
Proof.
  intros (Hm & Ha & _ & Hc & Hb & He & Hf & Hd & _). unfold feed, feed_check. rewrite He, Hf, Hc, Ha. simpl.
  unfold set_main. simpl. by rewrite Hb, Hd.
Qed.

Lemma feed_decodes size w s t o p o' pr :
  (0 < size)%nat → shows w (Blocked s t) o → decodes C false s t p o' pr →
  ∃ fuel w', feedRun fuel size p w = Some (failure pr, w') ∧ shows w' pr (o ++ o').
Proof.
  intros Hsize H [fuel Hdc]. pose proof (feed_sleeps p w s t o H) as E.
  destruct H as (_ & _ & Ho & _ & _ & _ & _ & _ & Hdec).
  destruct (alone_decodes size fuel (feed p w) s [] t o' pr) as (w' & Hal & S1 & S2 & S3 & S4 & S5 & S6); rewrite ?E; [done| | |done|].
  - unfold running, waits. simpl. auto 10.
  - unfold looks. simpl. destruct Hdec as [-> |(-> & k & e & f & Hn)]; [by left|right]. eauto 10.
  - rewrite E in S1, S2, S4. simpl in S1, S2, S4.
    assert (Hw' : drive 3 size w' = Some (set_main w' (MFed (failure pr)))).
    { simpl. rewrite S1. unfold feed_check. destruct pr as [s' t'|e].
      - by destruct S6 as (_ & -> & _ & -> & _).
      - destruct S6 as (-> & -> & _). by rewrite andb_false_r. }
    destruct (alone_then_drive _ _ _ _ Hal Hw') as [n Hn]. exists n, (set_main w' MIdle).
    unfold feedRun. rewrite Hn. split; [done|]. unfold shows. simpl. rewrite S4, Ho. split_and!; [done..|].
    destruct pr as [s' t'|e].
    + destruct S6 as (S6 & S7 & S8 & _ & S9 & S10). rewrite S2. split_and!; auto.
    + destruct S6 as (S6 & S7 & S8). auto.
Qed.

(** What is fed after the end is dropped. *)
Lemma feed_ended size w e o p :
  shows w (Ended e) o → feedRun 1 size p w = Some (shown e, set_main w MIdle) ∧ shows (set_main w MIdle) (Ended e) o.
Proof.
  intros (Hm & Ha & Ho & Hf & He & Hdec). split.
  - unfold feedRun, feed. rewrite He, Hf. by destruct (shown e).
  - unfold shows. simpl. auto 10.
Qed.

Lemma take_shows w pr o : shows w pr o → (take_out w).1 = o ∧ shows (take_out w).2 pr [].
Proof. intros (Hm & Ha & Ho & H). split; [done|]. unfold shows. simpl. by split_and!. Qed.

(** What end answers. *)
Definition answer (e : option zerr) (o : bytes) : result zerr bytes :=
  match shown e with Some x => Err x | None => Ok o end.

Lemma end_ended size w e o :
  main w = MEnding → finished (mon w) = true → err (mon w) = shown e → out (mon w) = o →
  (dec w = DClosing ∧ done (mon w) = false ∨ dec w = DGone ∧ done (mon w) = true) →
  ∃ w', drive 3 size w = Some w' ∧ main w' = MEnded (answer e o).
Proof.
  intros Hm Hf He Ho [[Hp Hd]|[Hp Hd]]; eexists; split.
  - simpl. rewrite Hm, Hd. unfold dec_step. rewrite Hp. simpl. rewrite Hm. simpl. reflexivity.
  - simpl. unfold answer. by rewrite He, Ho.
  - simpl. rewrite Hm, Hd. reflexivity.
  - simpl. unfold answer. by rewrite He, Ho.
Qed.

Lemma endRun_of fuel size w w' r :
  drive fuel size (end_ w) = Some w' → main w' = MEnded r → endRun fuel size w = Some (r, set_main w' MIdle).
Proof. unfold endRun. intros -> Hm. simpl. by rewrite Hm. Qed.

Lemma end_decodes size w pr o o' e :
  (0 < size)%nat → shows w pr o →
  match pr with Blocked s t => decodes C true s t [] o' (Ended e) | Ended e' => e' = e ∧ o' = [] end →
  ∃ fuel w', endRun fuel size w = Some (answer e (o ++ o'), w').
Proof.
  intros Hsize (Hm & Ha & Ho & H) Hdc. destruct pr as [s t|e'].
  - destruct H as (Hc & Hb & He & Hf & Hd & Hdec). destruct Hdc as [fuel Hdc].
    destruct (alone_decodes size fuel (end_ w) s [] t o' (Ended e)) as (w' & Hal & S1 & S2 & S3 & S4 & S5 & S6 & S7 & S8);
      [done| | | |].
    + unfold running, waits. simpl. auto 10.
    + unfold looks. simpl. destruct Hdec as [-> |(-> & k & x & f & Hn)]; [by left|right]. eauto 10.
    + simpl. by rewrite Hb.
    + destruct (end_ended size w' e (o ++ o')) as (w2 & H2 & Hm2); auto.
      * rewrite S4. simpl. by rewrite Ho.
      * destruct (alone_then_drive _ _ _ _ Hal H2) as [n Hn]. exists n, (set_main w2 MIdle). by apply endRun_of.
  - destruct H as (Hf & He & Hdec). destruct Hdc as [-> ->]. rewrite app_nil_r.
    destruct (end_ended size (end_ w) e o) as (w2 & H2 & Hm2); auto.
    + simpl. destruct Hdec as [[-> ?]|[-> ?]]; auto.
    + exists 3%nat, (set_main w2 MIdle). by apply endRun_of.
Qed.

End Decomp.
End Decomp.

(** ** The stream operations *)

Section Streams.
Context (C : Codec) (W : Comp).

(** type zlibStream; [comp] is set for a compressor, [dec] for a decompressor
    that has been started. *)
Record zlibStream := MkStream {
  method : bytes;
  comp : option (CSt W);
  cbuf : bytes;
  dec : option (Decomp.world C);
  sniff : bytes
}.

(** The streams of a Runtime. *)
Record zrt := MkZrt { zstreams : gmap Z zlibStream; nextZStream : Z }.

Definition set_stream (id : Z) (z : zlibStream) (rt : zrt) : zrt := MkZrt (<[id := z]> (zstreams rt)) (nextZStream rt).
Definition drop_stream (id : Z) (rt : zrt) : zrt := MkZrt (delete id (zstreams rt)) (nextZStream rt).

Definition newZlibCompressor (name : bytes) : option (CSt W) :=
  match method_of name with Some (Compress m) => Some (NewWriter W m) | _ => None end.

(** The decoder of a stream that starts it at once; "unzip" starts it later. *)
Definition decoder_of (name : bytes) : option (option (Decomp.world C)) :=
  match method_of name with
  | Some (Decompress m) => Some (Some (Decomp.newZlibDecomp C m))
  | Some Unzip => Some None
  | _ => None
  end.

Definition isZlibDecompressMethod (name : bytes) : bool :=
  match method_of name with Some (Decompress _) | Some Unzip => true | _ => false end.

Definition decompressor (z : zlibStream) : option (Decomp.world C * bytes) * zlibStream :=
  match dec z with
  | Some d => (Some (d, []), z)
  | None =>
      if zlen (sniff z) <? 2 then (None, z)
      else
        let d := Decomp.newZlibDecomp C (sniffed (sniff z)) in
        (Some (d, sniff z), MkStream (method z) (comp z) (cbuf z) (Some d) [])
  end.

Definition zlibStreamByID (v : arg) (rt : zrt) : option zlibStream := zstreams rt !! num v.

Definition opZlibStreamNew (args : list arg) (rt : zrt) : zvalue * zrt :=
  match args with
  | [] => (ZFailed, rt)
  | name :: _ =>
      let id := i64 (nextZStream rt + 1) in
      let add z := (ZId id, MkZrt (<[id := z]> (zstreams rt)) id) in
      match decoder_of (str name) with
      | Some d => add (MkStream (str name) None [] d [])
      | None =>
          match newZlibCompressor (str name) with
          | Some w => add (MkStream (str name) (Some w) [] None [])
          | None => (ZErr "Z_DATA_ERROR", rt)
          end
      end
  end.

(** A compressor's turn: on success the buffer goes to the guest. *)
Definition comp_turn (id : Z) (z : zlibStream) (r : option zerr * bytes * CSt W) (rt : zrt) : zvalue * zrt :=
  match r with
  | (Some _, b, w) => (ZErr "Z_DATA_ERROR", set_stream id (MkStream (method z) (Some w) (cbuf z ++ b) (dec z) (sniff z)) rt)
  | (None, b, w) => (ZBytes (cbuf z ++ b), set_stream id (MkStream (method z) (Some w) [] (dec z) (sniff z)) rt)
  end.

Definition with_dec (z : zlibStream) (d : Decomp.world C) : zlibStream :=
  MkStream (method z) (comp z) (cbuf z) (Some d) (sniff z).

Definition opZlibStreamWrite (fuel size : nat) (args : list arg) (rt : zrt) : option (zvalue * zrt) :=
  match args with
  | v :: data :: _ =>
      match zlibStreamByID v rt with
      | None => Some (ZErr "Z_STREAM_ERROR", rt)
      | Some z =>
          match valueBytes data with
          | None => Some (ZFailed, rt)
          | Some data =>
              match comp z with
              | Some w => Some (comp_turn (num v) z (CWrite W w data) rt)
              | None =>
                  let '(z, data) := match dec z with
                                    | None => (MkStream (method z) (comp z) (cbuf z) None (sniff z ++ data), [])
                                    | Some _ => (z, data)
                                    end in
                  match decompressor z with
                  | (None, z) => Some (ZBytes [], set_stream (num v) z rt)
                  | (Some (d, pending), z) =>
                      let data := if 0 <? zlen pending then pending else data in
                      '(e, d') ← Decomp.feedRun C fuel size data d;
                      match e with
                      | Some _ => Some (ZErr "Z_DATA_ERROR", set_stream (num v) (with_dec z d') rt)
                      | None =>
                          let '(o, d'') := Decomp.take_out C d' in
                          Some (ZBytes o, set_stream (num v) (with_dec z d'') rt)
                      end
                  end
              end
          end
      end
  | _ => Some (ZFailed, rt)
  end.

Definition opZlibStreamFlush (args : list arg) (rt : zrt) : zvalue * zrt :=
  match args with
  | v :: _ =>
      match zlibStreamByID v rt with
      | None => (ZErr "Z_STREAM_ERROR", rt)
      | Some z =>
          match comp z with
          | Some w => comp_turn (num v) z (CFlush W w) rt
          | None =>
              match dec z with
              | None => (ZBytes [], rt)
              | Some d => let '(o, d') := Decomp.take_out C d in (ZBytes o, set_stream (num v) (with_dec z d') rt)
              end
          end
      end
  | _ => (ZFailed, rt)
  end.

Definition end_code (e : zerr) : string :=
  match e with IoEOF | IoUnexpectedEOF => "Z_BUF_ERROR" | _ => "Z_DATA_ERROR" end.

Definition opZlibStreamEnd (fuel size : nat) (args : list arg) (rt : zrt) : option (zvalue * zrt) :=
  match args with
  | v :: _ =>
      match zlibStreamByID v rt with
      | None => Some (ZErr "Z_STREAM_ERROR", rt)
      | Some z =>
          let rt := drop_stream (num v) rt in
          match comp z with
          | Some w =>
              match CClose W w with
              | (Some _, _, _) => Some (ZErr "Z_DATA_ERROR", rt)
              | (None, b, _) => Some (ZBytes (cbuf z ++ b), rt)
              end
          | None =>
              match dec z with
              | None => Some (ZErr "Z_BUF_ERROR", rt)
              | Some d =>
                  '(r, _) ← Decomp.endRun C fuel size d;
                  Some (match r with Err e => ZErr (end_code e) | Ok o => ZBytes o end, rt)
              end
          end
      end
  | _ => Some (ZFailed, rt)
  end.

(** Free and closeZlib give back the decoders they stopped as well. *)
Definition opZlibStreamFree (fuel size : nat) (args : list arg) (rt : zrt)
    : option (zvalue * zrt * list (Decomp.world C)) :=
  match args with
  | v :: _ =>
      match zstreams rt !! num v ≫= dec with
      | None => Some (ZUndef, drop_stream (num v) rt, [])
      | Some d => d' ← Decomp.abortRun C fuel size d; Some (ZUndef, drop_stream (num v) rt, [d'])
      end
  | _ => Some (ZFailed, rt, [])
  end.

Definition closeZlib (fuel size : nat) (rt : zrt) : option (zrt * list (Decomp.world C)) :=
  ds ← mapM (Decomp.abortRun C fuel size) (omap dec (map_to_list (zstreams rt)).*2);
  Some (MkZrt ∅ (nextZStream rt), ds).

(** *** A stream does what the one-shot transform does *)

#[local] Arguments opZlibStreamWrite : simpl never.
#[local] Arguments opZlibStreamEnd : simpl never.

(** A guest that writes the chunks and ends the stream, giving up at the first
    error; [None] is that error. *)
Fixpoint session (fuel size : nat) (id : Z) (chunks : list bytes) (rt : zrt) : option (option bytes * zrt) :=
  match chunks with
  | [] =>
      '(v, rt') ← opZlibStreamEnd fuel size [num_arg id] rt;
      Some (match v with ZBytes b => Some b | _ => None end, rt')
  | c :: cs =>
      '(v, rt1) ← opZlibStreamWrite fuel size [num_arg id; bytes_arg c] rt;
      match v with
      | ZBytes b => '(r, rt2) ← session fuel size id cs rt1; Some (option_map (app b) r, rt2)
      | _ => Some (None, rt1)
      end
  end.

Definition stream (fuel size : nat) (name : bytes) (chunks : list bytes) (rt : zrt) : option (option bytes * zrt) :=
  match opZlibStreamNew [text_arg name] rt with
  | (ZId id, rt') => session fuel size id chunks rt'
  | (_, rt') => Some (None, rt')
  end.

Lemma Write_more n n' size args rt r :
  opZlibStreamWrite n size args rt = Some r → (n <= n')%nat → opZlibStreamWrite n' size args rt = Some r.
Proof.
  intros H Hle. revert H. unfold opZlibStreamWrite. repeat case_match; try done; simplify_eq.
  all: destruct (Decomp.feedRun C n _ _ _) as [[e d']|] eqn:E; [|done].
  all: by rewrite (Decomp.feedRun_more _ _ _ _ _ _ _ E Hle).
Qed.

Lemma End_more n n' size args rt r :
  opZlibStreamEnd n size args rt = Some r → (n <= n')%nat → opZlibStreamEnd n' size args rt = Some r.
Proof.
  intros H Hle. revert H. unfold opZlibStreamEnd. repeat case_match; try done; simplify_eq.
  destruct (Decomp.endRun C n _ _) as [[e d']|] eqn:E; [|done].
  by rewrite (Decomp.endRun_more _ _ _ _ _ _ E Hle).
Qed.

Lemma session_more n n' size id cs rt r :
  session n size id cs rt = Some r → (n <= n')%nat → session n' size id cs rt = Some r.
Proof.
  intros H Hle. revert rt r H. induction cs as [|c cs IH]; simpl; intros rt r H.
  - destruct (opZlibStreamEnd n _ _ _) as [[v rt']|] eqn:E; [|done]. by rewrite (End_more _ _ _ _ _ _ E Hle).
  - destruct (opZlibStreamWrite n _ _ _) as [[v rt']|] eqn:E; [|done]. rewrite (Write_more _ _ _ _ _ _ E Hle). simpl in *.
    destruct v; try done. destruct (session n _ _ _ _) as [[r' rt'']|] eqn:Es; [|done]. by rewrite (IH _ _ Es).
Qed.

(** One write, then the rest. *)
Lemma session_cons f1 f2 size id c cs rt b rt1 r rt2 :
  opZlibStreamWrite f1 size [num_arg id; bytes_arg c] rt = Some (ZBytes b, rt1) →
  session f2 size id cs rt1 = Some (r, rt2) →
  ∃ fuel, session fuel size id (c :: cs) rt = Some (option_map (app b) r, rt2).
Proof.
  intros H1 H2. exists (f1 + f2)%nat. simpl. rewrite (Write_more _ (f1 + f2) _ _ _ _ H1) by lia. simpl.
  by rewrite (session_more _ (f1 + f2) _ _ _ _ _ H2) by lia.
Qed.

(** A stream of the table that decodes with [d]. *)
Definition decoding (id : Z) (rt : zrt) (z : zlibStream) (d : Decomp.world C) : Prop :=
  zstreams rt !! id = Some z ∧ comp z = None ∧ dec z = Some d.

Lemma decoding_set id rt z d : comp z = None → decoding id (set_stream id (with_dec z d) rt) (with_dec z d) d.
Proof. intros Hc. split; [apply lookup_insert_eq|done]. Qed.

Lemma Write_decoding fuel size id c rt z d :
  decoding id rt z d →
  opZlibStreamWrite fuel size [num_arg id; bytes_arg c] rt =
    '(e, d') ← Decomp.feedRun C fuel size c d;
    match e with
    | Some _ => Some (ZErr "Z_DATA_ERROR", set_stream id (with_dec z d') rt)
    | None => Some (ZBytes (Decomp.take_out C d').1, set_stream id (with_dec z (Decomp.take_out C d').2) rt)
    end.
Proof.
  intros (Hz & Hc & Hd). unfold opZlibStreamWrite, zlibStreamByID. simpl. rewrite Hz. simpl. rewrite Hc, Hd.
  unfold decompressor. rewrite Hd. done.
Qed.

Lemma End_decoding fuel size id rt z d :
  decoding id rt z d →
  opZlibStreamEnd fuel size [num_arg id] rt =
    '(r, _) ← Decomp.endRun C fuel size d;
    Some (match r with Err e => ZErr (end_code e) | Ok o => ZBytes o end, drop_stream id rt).
Proof.
  intros (Hz & Hc & Hd). unfold opZlibStreamEnd, zlibStreamByID. simpl. rewrite Hz. simpl. by rewrite Hc, Hd.
Qed.

(** After a clean end the rest of the input is ignored. *)
Lemma session_ended size id cs rt z d e :
  (0 < size)%nat → decoding id rt z d → Decomp.shows C d (Ended e) [] → Decomp.shown e = None →
  ∃ fuel rt', session fuel size id cs rt = Some (Some [], rt').
Proof.
  intros Hsize Hdec Hs He. revert rt z d Hdec Hs. induction cs as [|c cs IH]; intros rt z d Hdec Hs.
  - destruct (Decomp.end_decodes C size d (Ended e) [] [] e) as (fuel & d' & H); [done..|].
    exists fuel. eexists. simpl. rewrite (End_decoding _ _ _ _ _ _ Hdec), H. simpl. unfold Decomp.answer. by rewrite He.
  - destruct (Decomp.feed_ended C size d e [] c Hs) as [H1 H2]. rewrite He in H1.
    destruct (Decomp.take_shows C _ _ _ H2) as [Ho Ht].
    destruct (IH (set_stream id (with_dec z (Decomp.take_out C (Decomp.set_main C d (Decomp.MIdle))).2) rt)
      _ _ (decoding_set _ _ _ _ (proj1 (proj2 Hdec))) Ht) as (f & rt' & H).
    edestruct (session_cons 1 f size id c cs rt []) as [fuel Hfuel]; [|exact H|by exists fuel, rt'].
    rewrite (Write_decoding _ _ _ _ _ _ _ Hdec), H1. simpl in *. by rewrite Ho.
Qed.

Lemma session_decodes `{CodecLaws C} size id cs rt z d s t o e :
  (0 < size)%nat → decoding id rt z d → Decomp.shows C d (Blocked s t) [] →
  decodes C true s t (concat cs) o (Ended e) →
  ∃ fuel rt', session fuel size id cs rt = Some (match Decomp.shown e with Some _ => None | None => Some o end, rt').
Proof.
  intros Hsize. revert rt z d s t o. induction cs as [|c cs IH]; intros rt z d s t o Hdec Hs Ho.
  - destruct (Decomp.end_decodes C size d _ [] o e Hsize Hs Ho) as (fuel & d' & He). exists fuel. eexists. simpl.
    rewrite (End_decoding _ _ _ _ _ _ Hdec), He. simpl. unfold Decomp.answer. by destruct (Decomp.shown e).
  - simpl in Ho. destruct (decode_total C false s t c) as (o1 & pr & H1).
    destruct (Decomp.feed_decodes C size d s t [] c o1 pr Hsize Hs H1) as (f1 & d1 & Hf & Hs1).
    destruct (Decomp.take_shows C _ _ _ Hs1) as [Ht Hs2].
    pose proof (Write_decoding f1 size id c rt z d Hdec) as HW. rewrite Hf in HW. simpl in HW.
    pose proof (decoding_set id rt z (Decomp.take_out C d1).2 (proj1 (proj2 Hdec))) as Hdec2.
    destruct H1 as [f H1]. destruct pr as [s1 t1|e1].
    + destruct (decode_total C true s1 t1 (concat cs)) as (o2 & pr2 & f2 & H2).
      assert (Ha : decodes C true s t (c ++ concat cs) (o1 ++ o2) pr2) by (eexists; by eapply decode_app).
      destruct (decodes_det _ _ _ _ _ _ _ _ _ Ha Ho) as [-> <-].
      destruct (IH _ _ _ _ _ o2 Hdec2 Hs2) as (f3 & rt' & H3); [by exists f2|].
      simpl in HW, Ht. rewrite Ht in HW.
      destruct (session_cons _ _ _ _ _ _ _ _ _ _ _ HW H3) as [fuel Hfuel]. exists fuel, rt'. rewrite Hfuel.
      by destruct (Decomp.shown e).
    + assert (Ha : decodes C true s t (c ++ concat cs) o1 (Ended e1)) by (eexists; by apply decode_ended).
      destruct (decodes_det _ _ _ _ _ _ _ _ _ Ha Ho) as [-> [= ->]]. simpl in HW, Ht. destruct (Decomp.shown e1) eqn:He.
      * exists f1. eexists. simpl. by rewrite HW.
      * rewrite Ht in HW. destruct (session_ended size id cs _ _ _ e1 Hsize Hdec2 Hs2 He) as (f3 & rt' & H3).
        destruct (session_cons _ _ _ _ _ _ _ _ _ _ _ HW H3) as [fuel Hfuel]. exists fuel, rt'. rewrite Hfuel. simpl.
        by rewrite app_nil_r.
Qed.

(** While "unzip" has no two bytes, a write only stores them; then it is the first
    write of a stream whose decoder it chooses. *)
Definition sniffing (id : Z) (rt : zrt) (z : zlibStream) : Prop :=
  zstreams rt !! id = Some z ∧ comp z = None ∧ dec z = None.

Definition sniffed_more (z : zlibStream) (c : bytes) : zlibStream :=
  MkStream (method z) None (cbuf z) None (sniff z ++ c).

Definition chosen (z : zlibStream) (c : bytes) : zlibStream :=
  MkStream (method z) None (cbuf z) (Some (Decomp.newZlibDecomp C (sniffed (sniff z ++ c)))) [].

Lemma Write_sniffing fuel size id c rt z :
  sniffing id rt z →
  opZlibStreamWrite fuel size [num_arg id; bytes_arg c] rt =
    if zlen (sniff z ++ c) <? 2 then Some (ZBytes [], set_stream id (sniffed_more z c) rt)
    else opZlibStreamWrite fuel size [num_arg id; bytes_arg (sniff z ++ c)] (set_stream id (chosen z c) rt).
Proof.
  intros (Hz & Hc & Hd).
  assert (Hdec : decoding id (set_stream id (chosen z c) rt) (chosen z c) (Decomp.newZlibDecomp C (sniffed (sniff z ++ c))))
    by (split; [apply lookup_insert_eq|done]).
  rewrite (Write_decoding _ _ _ _ _ _ _ Hdec). unfold opZlibStreamWrite, zlibStreamByID. simpl. rewrite Hz. simpl.
  rewrite Hc, Hd. unfold decompressor. simpl. destruct (Z.ltb_spec (zlen (sniff z ++ c)) 2) as [Hl|Hl]; [done|].
  assert ((0 <? zlen (sniff z ++ c)) = true) as -> by (apply Z.ltb_lt; lia).
  destruct (Decomp.feedRun C fuel size _ _) as [[[x|] d']|]; simpl; [..|done]; unfold set_stream; simpl.
  all: by rewrite insert_insert_eq.
Qed.

Lemma sniffed_app p q : 2 <= zlen p → sniffed (p ++ q) = sniffed p.
Proof. destruct p as [|a [|b p]]; unfold zlen; simpl; lia || done. Qed.

Lemma session_sniffing `{CodecLaws C} size id cs rt z o e :
  (0 < size)%nat → sniffing id rt z → zlen (sniff z) < 2 → 2 <= zlen (sniff z ++ concat cs) →
  decodes C true (NewReader C (sniffed (sniff z ++ concat cs))) 0 (sniff z ++ concat cs) o (Ended e) →
  ∃ fuel rt', session fuel size id cs rt = Some (match Decomp.shown e with Some _ => None | None => Some o end, rt').
Proof.
  intros Hsize. revert rt z. induction cs as [|c cs IH]; intros rt z Hz Hl Hlen Ho.
  - rewrite app_nil_r in Hlen. lia.
  - simpl in Hlen, Ho. rewrite app_assoc in Hlen, Ho. destruct (Z.ltb_spec (zlen (sniff z ++ c)) 2) as [Hs|Hs].
    + destruct (IH (set_stream id (sniffed_more z c) rt) (sniffed_more z c)) as (f & rt' & H1); [|done..|].
      * split; [apply lookup_insert_eq|done].
      * edestruct (session_cons 0 f size id c cs rt) as [fuel Hfuel]; [|exact H1|].
        -- rewrite (Write_sniffing _ _ _ _ _ _ Hz), (proj2 (Z.ltb_lt _ _) Hs). reflexivity.
        -- exists fuel, rt'. rewrite Hfuel. by destruct (Decomp.shown e).
    + rewrite sniffed_app in Ho by done.
      edestruct (session_decodes size id ((sniff z ++ c) :: cs) (set_stream id (chosen z c) rt) (chosen z c))
        as (f & rt' & Hf); [done|split; [apply lookup_insert_eq|done]|apply Decomp.shows_new|exact Ho|].
      exists f, rt'. simpl in Hf |- *. rewrite (Write_sniffing _ _ _ _ _ _ Hz), (proj2 (Z.ltb_ge _ _) Hs). exact Hf.
Qed.

(** What the one-shot transform says of a decoder's run. *)
Lemma readCapped_decodes fuel m data r :
  readCapped C fuel (NewReader C m) data = Some r →
  ∃ o e, decodes C true (NewReader C m) 0 data o (Ended e) ∧
    r = match e with Some x => Err x | None => Ok o end.
Proof.
  unfold readCapped. destruct (decode C fuel true _ 0 data) as [[o pr]|] eqn:E; [|done]. simpl.
  destruct pr as [s t|[x|]]; intros [= <-]; [by eexists o, (Some x); split; [exists fuel|]|by eexists o, None; split; [exists fuel|]].
Qed.

(** C21: however the input is cut into chunks, and whatever the sizes of the
    decoder's own reads, a decompression stream hands out what zlibRun gives for
    the whole input, and fails when and only when zlibRun fails. *)
Theorem stream_is_oneshot `{CodecLaws C} size name chunks rt fuel r :
  (0 < size)%nat →
  isZlibDecompressMethod name = true →
  (name = lit "unzip" → 2 <= zlen (concat chunks)) →
  zlibRun C W fuel name (concat chunks) = Some r → r ≠ Err Destroyed →
  ∃ fuel' rt', stream fuel' size name chunks rt = Some (match r with Ok out => Some out | Err _ => None end, rt').
Proof.
  intros Hsize Hname Hunzip Hrun Hr.
  assert (Hshown : ∀ o e, r = match e with Some x => Err x | None => Ok o end →
    match r with Ok out => Some out | Err _ => None end = match Decomp.shown e with Some _ => None | None => Some o end).
  { intros o [x|] ->; simpl; [|done]. rewrite bool_decide_eq_false_2; [done|]. by intros ->. }
  unfold isZlibDecompressMethod in Hname. unfold zlibRun in Hrun. unfold stream, opZlibStreamNew, decoder_of. simpl.
  destruct (method_of name) as [[m|m|]|] eqn:Em; [done| | |done].
  - destruct (readCapped_decodes _ _ _ _ Hrun) as (o & e & Ho & E). rewrite (Hshown o e E).
    eapply session_decodes; [done|split; [apply lookup_insert_eq|done]|apply Decomp.shows_new|done].
  - destruct (readCapped_decodes _ _ _ _ Hrun) as (o & e & Ho & E). rewrite (Hshown o e E).
    eapply session_sniffing; [done|split; [apply lookup_insert_eq|done]|done| |exact Ho].
    apply Hunzip. revert Em. unfold method_of. by repeat case_bool_decide.
Qed.

End Streams.

(** ** A small codec

    The length and the bytes of a text, behind two bytes of header. *)

Inductive toy := THead (k : nat) | TCopy (n : nat) | TGive (c : Z) (n : nat) | TEnd (e : option zerr).

Definition toy_codec : Codec :=
  MkCodec toy (λ _, THead 2)
    (λ s, match s with
          | THead 0 => NeedByte (λ n, TCopy (Z.to_nat n)) (TEnd (Some IoEOF)) (λ x, TEnd (Some x))
          | THead (S k) => NeedByte (λ _, THead k) (TEnd (Some IoEOF)) (λ x, TEnd (Some x))
          | TCopy 0 => Stop [] None
          | TCopy (S n) => NeedByte (λ c, TGive c n) (TEnd (Some IoUnexpectedEOF)) (λ x, TEnd (Some x))
          | TGive c n => Give [c] (TCopy n)
          | TEnd e => Stop [] e
          end)
    (λ s, match s with TEnd _ => 0 | TGive _ _ => 2 | _ => 1 end)%nat.

#[export] Instance toy_laws : CodecLaws toy_codec.
Proof.
  split.
  - intros [[]|[]|c n|e0] b k; simpl; try done. intros [= <- <-]. lia.
  - intros [[]|[]|c n|e0] k e f; simpl; try done; intros [= _ <- _]; simpl; lia.
  - intros [[]|[]|c n|e0] k e f x; simpl; try done; intros [= _ _ <-]; simpl; lia.
Qed.

(** Stored blocks: what goes in comes out. *)
Definition toy_comp : Comp :=
  MkComp unit (λ _, tt) (λ _ b, (None, b, tt)) (λ _, (None, [], tt)) (λ _, (None, [], tt)).

Lemma callers_are_woken_witness :
  let w := Decomp.feed toy_codec [31; 139; 2; 65] (Decomp.newZlibDecomp toy_codec Gunzip) in
  ∃ n, let w' := Decomp.dec_run toy_codec n 4096 w in
    Decomp.dec_step toy_codec 4096 w' = None
    ∧ (Decomp.main _ w = Decomp.MSleep → Decomp.main _ w' = Decomp.MWoken)
    ∧ (Decomp.main _ w = Decomp.MEnding ∨ Decomp.aborted (Decomp.mon _ w) = true → Decomp.done (Decomp.mon _ w') = true).
Proof.
  apply (Decomp.callers_are_woken toy_codec 4096 ltac:(lia) Gunzip).
  eapply Decomp.reach_step; [apply Decomp.reach_new|]. by apply Decomp.step_feed.
Defined.

Lemma stream_is_oneshot_witness :
  ∃ fuel rt, stream toy_codec toy_comp fuel 4096 (lit "unzip") [[31]; [139; 2]; []; [65]; [66; 9]] (MkZrt _ _ ∅ 0)
    = Some (Some [65; 66], rt).
Proof.
  apply (stream_is_oneshot toy_codec toy_comp 4096 (lit "unzip") _ _ 20 (Ok [65; 66]));
    [lia|vm_compute; reflexivity|intros _; vm_compute; done|vm_compute; reflexivity|done].
Defined.

(** Input cut off in the middle is an error of the end. *)
Example cut_off :
  fst <$> stream toy_codec toy_comp 50 2 (lit "gunzip") [[31; 139; 2]; [65]] (MkZrt _ _ ∅ 0) = Some None.
Proof. vm_compute. reflexivity. Qed.
