(* ===== verification/HttpReq.v ===== *)
(** One exchange of compat/nodejs/http.go: httpPending, the serving goroutine
    (ServeHTTP and serve), and the pump that carries the request's body to the
    guest.

    A [world] is the pending response, the places of the two goroutines, the
    calls made on the ResponseWriter, the functions posted to the loop, and what
    became of the commands. A step is a locked section or a channel operation of
    the source with the calls up to the next one. A caller sends its wake-up
    after unlocking, so signals on their way are counted apart. *)

From S2P Require Import Prelude.

Module Resp.

Abbreviation headers := (list (bytes * bytes)).

(** httpCmd, by its kind. *)
Inductive httpCmd :=
| CmdHead (status : Z) (hs : headers)
| CmdWrite (data : bytes) (onWritten : option Z)
| CmdEnd.

(** type httpPending; [wake] and [resume] say whether the channel holds a token,
    [resume] is [None] when the request has no body, [done] is the closed
    channel. *)
Record httpPending := MkPending {
  queue : list httpCmd;
  ended : bool;
  closed : bool;
  wake : bool;
  done : bool;
  wroteHeader : bool;
  resume : option bool
}.

(** What is called on the ResponseWriter. *)
Inductive wcall := AddHeader (kv : bytes * bytes) | WriteHeader (status : Z) | WriteBody (b : bytes) | Flush.

(** A function posted to the loop. *)
Inductive post :=
| Dispatch (hasBody : bool)
| Written (cb : Z)
| Aborted
| Chunk (b : bytes)
| BodyEnd (aborted : bool).

(** The serving goroutine: up to the dispatch, up to the pump's start, then
    serve's loop, shutdown, and the wait for the pump. *)
Inductive spc :=
| Registered
| Dispatched
| Top
| Cmds (q : list httpCmd)
| Waiting
| Leaving (cause : bool)
| Leftover (q : list httpCmd) (note : bool)
| Joining (deadline : bool)
| Returned.

Inductive ppc := NoPump | PumpWaiting | PumpReading | PumpGone.

Record world := MkWorld {
  pend : httpPending;
  serving : spc;
  pump : ppc;
  signals : nat;                  (** wake-ups on their way *)
  ctx : bool;                     (** the request's context is done *)
  hasBody : bool;
  calls : list wcall;
  posted : list post;
  accepted : list httpCmd;        (** in the order of the enqueue calls *)
  performed : list httpCmd;
  dropped : list httpCmd;         (** by shutdown *)
  reads : nat;                    (** Read calls on the body *)
  asked : nat                     (** http_body_resume calls *)
}.

(** ServeHTTP's registration; the resume channel is primed. *)
Definition start (hasBody : bool) : world :=
  MkWorld (MkPending [] false false false false false (if hasBody then Some true else None))
    Registered NoPump 0 false hasBody [] [] [] [] [] 0 0.

Definition with_pend (p : httpPending) (w : world) : world :=
  MkWorld p (serving w) (pump w) (signals w) (ctx w) (hasBody w) (calls w) (posted w) (accepted w) (performed w)
    (dropped w) (reads w) (asked w).
Definition goto (s : spc) (w : world) : world :=
  MkWorld (pend w) s (pump w) (signals w) (ctx w) (hasBody w) (calls w) (posted w) (accepted w) (performed w)
    (dropped w) (reads w) (asked w).
Definition set_pump (p : ppc) (w : world) : world :=
  MkWorld (pend w) (serving w) p (signals w) (ctx w) (hasBody w) (calls w) (posted w) (accepted w) (performed w)
    (dropped w) (reads w) (asked w).
Definition Post (ps : list post) (w : world) : world :=
  MkWorld (pend w) (serving w) (pump w) (signals w) (ctx w) (hasBody w) (calls w) (posted w ++ ps) (accepted w)
    (performed w) (dropped w) (reads w) (asked w).

Definition set_queue (q : list httpCmd) (p : httpPending) : httpPending :=
  MkPending q (ended p) (closed p) (wake p) (done p) (wroteHeader p) (resume p).
Definition set_wake (b : bool) (p : httpPending) : httpPending :=
  MkPending (queue p) (ended p) (closed p) b (done p) (wroteHeader p) (resume p).
Definition set_wrote (p : httpPending) : httpPending :=
  MkPending (queue p) (ended p) (closed p) (wake p) (done p) true (resume p).
Definition set_resume (b : bool) (p : httpPending) : httpPending :=
  MkPending (queue p) (ended p) (closed p) (wake p) (done p) (wroteHeader p) (Some b).

Definition is_end (c : httpCmd) : bool := match c with CmdEnd => true | _ => false end.
Definition callback (c : httpCmd) : option Z := match c with CmdWrite _ cb => cb | _ => None end.
Definition postCallback (cb : option Z) : list post := map Written (option_list cb).

(** *** The callers *)

(** The locked part of enqueue: whether the command was taken. *)
Definition enqueue (c : httpCmd) (p : httpPending) : bool * httpPending :=
  if closed p || ended p then (false, p)
  else (true, MkPending (queue p ++ [c]) (is_end c || ended p) (closed p) (wake p) (done p) (wroteHeader p) (resume p)).

Definition do_enqueue (c : httpCmd) (w : world) : bool * world :=
  let '(ok, p) := enqueue c (pend w) in
  (ok, if ok then
         MkWorld p (serving w) (pump w) (S (signals w)) (ctx w) (hasBody w) (calls w) (posted w) (accepted w ++ [c])
           (performed w) (dropped w) (reads w) (asked w)
       else w).

Definition do_signal (w : world) : option world :=
  match signals w with
  | O => None
  | S n => Some (MkWorld (set_wake true (pend w)) (serving w) (pump w) n (ctx w) (hasBody w) (calls w) (posted w)
                   (accepted w) (performed w) (dropped w) (reads w) (asked w))
  end.

(** What http_body_resume does to the request it names. *)
Definition do_resume (w : world) : world :=
  match resume (pend w) with
  | Some _ =>
      MkWorld (set_resume true (pend w)) (serving w) (pump w) (signals w) (ctx w) (hasBody w) (calls w) (posted w)
        (accepted w) (performed w) (dropped w) (reads w) (S (asked w))
  | None => w
  end.

(** finish, as closeHTTP calls it. *)
Definition set_done (p : httpPending) : httpPending :=
  MkPending (queue p) (ended p) (closed p) (wake p) true (wroteHeader p) (resume p).
Definition finish (w : world) : world := with_pend (set_done (pend w)) w.

Definition client_gone (w : world) : world :=
  MkWorld (pend w) (serving w) (pump w) (signals w) true (hasBody w) (calls w) (posted w) (accepted w) (performed w)
    (dropped w) (reads w) (asked w).

(** *** The serving goroutine *)

Section Serve.
(** Whether the ResponseWriter is a Flusher, and the guest has set an abort
    hook. *)
Context (flusher hook : bool).

(** The calls of one command; every command leaves [wroteHeader] set. *)
Definition cmd_calls (wrote : bool) (c : httpCmd) : list wcall :=
  match c with
  | CmdHead status hs => if wrote then [] else map AddHeader hs ++ [WriteHeader status]
  | CmdWrite d _ =>
      (if wrote then [] else [WriteHeader 200]) ++
      (if bool_decide (d = []) then [] else WriteBody d :: if flusher then [Flush] else [])
  | CmdEnd => if wrote then [] else [WriteHeader 200]
  end.

Definition perform (c : httpCmd) (next : spc) (w : world) : world :=
  MkWorld (set_wrote (pend w)) next (pump w) (signals w) (ctx w) (hasBody w)
    (calls w ++ cmd_calls (wroteHeader (pend w)) c) (posted w ++ postCallback (callback c)) (accepted w)
    (performed w ++ [c]) (dropped w) (reads w) (asked w).

Definition drop_cmd (c : httpCmd) (next : spc) (w : world) : world :=
  MkWorld (pend w) next (pump w) (signals w) (ctx w) (hasBody w) (calls w) (posted w ++ postCallback (callback c))
    (accepted w) (performed w) (dropped w ++ [c]) (reads w) (asked w).

(** The locked part of shutdown. *)
Definition shutdown (cause : bool) (w : world) : world :=
  let p := pend w in
  goto (Leftover (queue p) (cause && negb (closed p) && hook))
    (with_pend (MkPending [] (ended p) true (wake p) (done p) (wroteHeader p) (resume p)) w).

(** The next step of the serving goroutine, where no channel decides. *)
Definition serve_step (w : world) : option world :=
  let p := pend w in
  match serving w with
  | Registered => Some (Post [Dispatch (hasBody w)] (goto Dispatched w))
  | Dispatched =>
      Some (if hasBody w then set_pump PumpWaiting (goto Top w) else Post [BodyEnd false] (goto Top w))
  | Top => Some (goto (Cmds (queue p)) (with_pend (set_queue [] p) w))
  | Cmds [] => Some (goto Waiting w)
  | Cmds (c :: q) => Some (perform c (if is_end c then Leaving false else Cmds q) w)
  | Waiting => None
  | Leaving cause => Some (shutdown cause w)
  | Leftover (c :: q) note => Some (drop_cmd c (Leftover q note) w)
  | Leftover [] note => Some (Post (if note then [Aborted] else []) (goto (Joining false) (finish w)))
  | Joining deadline =>
      match pump w with
      | NoPump | PumpGone => Some (goto Returned w)
      | _ => if deadline then None else Some (goto (Joining true) w)
      end
  | Returned => None
  end.

(** The two arms of serve's select. *)
Definition serve_wake (w : world) : option world :=
  match serving w with
  | Waiting => if wake (pend w) then Some (goto Top (with_pend (set_wake false (pend w)) w)) else None
  | _ => None
  end.

Definition serve_ctx (w : world) : option world :=
  match serving w with
  | Waiting => if ctx w then Some (goto (Leaving true) w) else None
  | _ => None
  end.

(** *** The body pump *)

Definition pump_resume (w : world) : option world :=
  match pump w, resume (pend w) with
  | PumpWaiting, Some true =>
      Some (MkWorld (set_resume false (pend w)) (serving w) PumpReading (signals w) (ctx w) (hasBody w) (calls w)
              (posted w) (accepted w) (performed w) (dropped w) (S (reads w)) (asked w))
  | _, _ => None
  end.

Definition pump_leave (w : world) : option world :=
  match pump w with
  | PumpWaiting => if done (pend w) || ctx w then Some (set_pump PumpGone w) else None
  | _ => None
  end.

(** r.Body.Read returned [chunk], and an error when [e] is [Some]: whether it is
    io.EOF. *)
Definition pump_read (chunk : bytes) (e : option bool) (w : world) : option world :=
  match pump w with
  | PumpReading =>
      let w1 := Post (if bool_decide (chunk = []) then [] else [Chunk chunk]) w in
      Some (match e with
            | None => set_pump PumpWaiting w1
            | Some eof => Post [BodyEnd (negb eof)] (set_pump PumpGone w1)
            end)
  | _ => None
  end.

Inductive label :=
| Enqueue (c : httpCmd)
| Signal
| Resume
| Finish
| ClientGone
| Serve
| Wake
| CtxDone
| PumpResume
| PumpLeave
| PumpRead (chunk : bytes) (e : option bool).

Definition step (l : label) (w : world) : option world :=
  match l with
  | Enqueue c => Some (do_enqueue c w).2
  | Signal => do_signal w
  | Resume => Some (do_resume w)
  | Finish => Some (finish w)
  | ClientGone => Some (client_gone w)
  | Serve => serve_step w
  | Wake => serve_wake w
  | CtxDone => serve_ctx w
  | PumpResume => pump_resume w
  | PumpLeave => pump_leave w
  | PumpRead chunk e => pump_read chunk e w
  end.

Fixpoint steps (ls : list label) (w : world) : option world :=
  match ls with
  | [] => Some w
  | l :: ls' => w' ← step l w; steps ls' w'
  end.

Definition reachable (w : world) : Prop := ∃ b ls, steps ls (start b) = Some w.

(** What a run of commands does to the ResponseWriter: the first one settles the
    header. *)
Definition render (cs : list httpCmd) : list wcall :=
  match cs with [] => [] | c :: cs' => cmd_calls false c ++ flat_map (cmd_calls true) cs' end.

End Serve.
End Resp.

Import Resp.

(** ** Invariants *)

Definition written (ps : list post) : list Z := omap (λ p, match p with Written cb => Some cb | _ => None end) ps.

Definition flight (s : spc) : list httpCmd := match s with Cmds q | Leftover q _ => q | _ => [] end.

(** Everything accepted was performed, the end included. *)
Definition whole (w : Resp.world) : Prop := performed w = accepted w ∧ ended (pend w) = true.

(** What the serving goroutine knows at each place. *)
Definition located (w : Resp.world) : Prop :=
  let p := pend w in
  match serving w with
  | Registered | Dispatched => closed p = false ∧ dropped w = [] ∧ performed w = []
  | Top | Cmds _ | Waiting => closed p = false ∧ dropped w = [] ∧ CmdEnd ∉ performed w
  | Leaving cause => closed p = false ∧ dropped w = [] ∧ if cause then ctx w = true else whole w
  | Leftover _ note => closed p = true ∧ queue p = [] ∧ (note = true → ctx w = true) ∧ (ctx w = true ∨ whole w)
  | Joining _ | Returned => closed p = true ∧ queue p = [] ∧ done p = true ∧ (ctx w = true ∨ whole w)
  end.

Definition leaving (s : spc) : bool := match s with Leftover _ _ | Joining _ | Returned => true | _ => false end.

(** A wake-up is in the channel or on its way. *)
Definition tok (w : Resp.world) : Prop := wake (pend w) = true ∨ (0 < signals w)%nat.

Section Inv.
Context (flusher hook : bool).

Record inv (w : Resp.world) : Prop := {
  i_split : accepted w = performed w ++ dropped w ++ flight (serving w) ++ queue (pend w);
  i_calls : calls w = render flusher (performed w);
  i_wrote : wroteHeader (pend w) = true ↔ performed w ≠ [];
  i_written : written (posted w) = omap callback (performed w ++ dropped w);
  i_end : ∃ pre, (CmdEnd ∉ pre) ∧ accepted w = pre ++ (if ended (pend w) then [CmdEnd] else []);
  i_located : located w;
  i_tok : match serving w with Cmds _ | Waiting => queue (pend w) ≠ [] → tok w | _ => True end
}.

Lemma req_start_inv b : inv (start b).
Proof. split; simpl; try done. exists []. split; [apply not_elem_of_nil|done]. Qed.

Lemma written_app ps qs : written (ps ++ qs) = written ps ++ written qs.
Proof. apply omap_app. Qed.

Lemma written_callback cb : written (postCallback cb) = option_list cb.
Proof. by destruct cb. Qed.

Lemma omap_callback_snoc cs c : omap callback (cs ++ [c]) = omap callback cs ++ option_list (callback c).
Proof. rewrite omap_app. simpl. by destruct (callback c). Qed.

Lemma render_snoc cs c : render flusher (cs ++ [c]) = render flusher cs ++ cmd_calls flusher (bool_decide (cs ≠ [])) c.
Proof.
  destruct cs as [|d cs]; simpl; [by rewrite app_nil_r|].
  rewrite flat_map_app. simpl. by rewrite app_nil_r, <-app_assoc.
Qed.

Lemma end_is_last pre (b : bool) xs q :
  CmdEnd ∉ pre → xs ++ CmdEnd :: q = pre ++ (if b then [CmdEnd] else []) → b = true ∧ q = [].
Proof.
  intros Hn. revert pre Hn. induction xs as [|x xs IH]; intros [|y pre] Hn; simpl; intros E.
  - by destruct b, q; simplify_eq.
  - injection E as <- _. by destruct Hn; left.
  - destruct b; [|done]. injection E as _ E. by destruct xs.
  - injection E as _ E. apply (IH pre); [|done]. intros ?. apply Hn. by right.
Qed.

Lemma req_enqueue_inv c w : inv w → inv (do_enqueue c w).2.
Proof.
  intros [Hs Hc Hw Hp He Hl Ht]. unfold do_enqueue, enqueue.
  destruct (closed (pend w) || ended (pend w)) eqn:Hb; simpl; [by split|].
  apply orb_false_iff in Hb as [Hcl Hen]. destruct He as (pre & Hpre & He). rewrite Hen, app_nil_r in He.
  split; simpl; [by rewrite Hs, !app_assoc|done..| | |].
  - destruct c as [st hs|d cb|]; simpl; rewrite ?Hen, He; [exists (pre ++ [CmdHead st hs])|exists (pre ++ [CmdWrite d cb])|by exists pre].
    all: split; [|by rewrite app_nil_r]; rewrite elem_of_app, list_elem_of_singleton; by intros [?|?].
  - unfold located, whole in *; simpl. destruct (serving w) as [| | | | |[]| | |]; intuition congruence.
  - unfold tok in *. simpl. destruct (serving w); try done; intros _; right; lia.
Qed.

Ltac open_inv := intros [Hs Hc Hw Hp He Hl Ht]; split; simpl; try done;
  unfold located, tok, whole in *; simpl in *; try (destruct (serving _) as [| | | | |[]| | |]; intuition (congruence || lia)).

Lemma req_signal_inv w w' : do_signal w = Some w' → inv w → inv w'.
Proof. unfold do_signal. destruct (signals w) eqn:E; intros [= <-]. open_inv. Qed.

Lemma resume_inv w : inv w → inv (do_resume w).
Proof. unfold do_resume. destruct (resume (pend w)); [|done]. open_inv. Qed.

Lemma finish_inv w : inv w → inv (finish w).
Proof. open_inv. Qed.

Lemma gone_inv w : inv w → inv (client_gone w).
Proof. open_inv. Qed.

Lemma pump_inv w p ps rs :
  written ps = [] → inv w →
  inv (MkWorld (pend w) (serving w) p (signals w) (ctx w) (hasBody w) (calls w) (posted w ++ ps) (accepted w)
         (performed w) (dropped w) rs (asked w)).
Proof. intros Hps. open_inv. by rewrite written_app, Hps, app_nil_r. Qed.

(** A place change that touches nothing else. *)
Lemma move_inv s p ps w :
  inv w → flight s ++ queue p = flight (serving w) ++ queue (pend w) →
  wroteHeader p = wroteHeader (pend w) → ended p = ended (pend w) → written ps = [] →
  located (Post ps (goto s (with_pend p w))) →
  (match s with Cmds _ | Waiting => queue p ≠ [] → tok (Post ps (goto s (with_pend p w))) | _ => True end) →
  inv (Post ps (goto s (with_pend p w))).
Proof.
  intros [Hs Hc Hw Hp He Hl Ht] Hf Hwr Hen Hps Hloc Htok. split; simpl; try done.
  - by rewrite Hf.
  - by rewrite Hwr.
  - by rewrite written_app, Hps, app_nil_r.
  - by rewrite Hen.
Qed.

Lemma post_nil w : Post [] w = w.
Proof. destruct w. unfold Post. simpl. by rewrite app_nil_r. Qed.

Lemma move_same s ps w :
  inv w → flight s = flight (serving w) → written ps = [] → located (Post ps (goto s w)) →
  (match s with Cmds _ | Waiting => queue (pend w) ≠ [] → tok w | _ => True end) →
  inv (Post ps (goto s w)).
Proof. destruct w as [p]. intros H Hf Hps Hl Ht. apply (move_inv s p ps _ H); simpl in *; congruence || done. Qed.

Lemma move_to s w :
  inv w → flight s = flight (serving w) → located (goto s w) →
  (match s with Cmds _ | Waiting => queue (pend w) ≠ [] → tok w | _ => True end) →
  inv (goto s w).
Proof. intros. rewrite <-(post_nil (goto s w)). apply move_same; rewrite ?post_nil; done. Qed.

Lemma perform_inv c q w :
  serving w = Cmds (c :: q) → inv w → inv (perform flusher c (if is_end c then Leaving false else Cmds q) w).
Proof.
  intros Hpc [Hs Hc Hw Hp He Hl Ht]. unfold located in Hl. rewrite Hpc in Hs, Hl, Ht. destruct Hl as (Hcl & Hd & Hne).
  rewrite Hd in Hs, Hp. simpl in Hs. rewrite app_nil_r in Hp.
  assert (Hlast : c = CmdEnd → ended (pend w) = true ∧ q = [] ∧ queue (pend w) = []).
  { intros ->. destruct He as (pre & Hpre & He). rewrite Hs in He.
    destruct (end_is_last _ _ _ _ Hpre He) as [? Hq]. by apply app_eq_nil in Hq as [-> ->]. }
  assert (Hsplit : accepted w = (performed w ++ [c]) ++ [] ++ q ++ queue (pend w)) by by rewrite Hs, <-app_assoc.
  assert (Hwr : wroteHeader (pend w) = bool_decide (performed w ≠ [])).
  { apply eq_true_iff_eq. by rewrite bool_decide_eq_true. }
  split; simpl.
  - rewrite Hd, Hsplit. destruct c; try done. destruct (Hlast eq_refl) as (_ & -> & _). done.
  - by rewrite Hc, Hwr, render_snoc.
  - split; [by destruct (performed w)|done].
  - by rewrite written_app, written_callback, Hp, Hd, app_nil_r, omap_callback_snoc.
  - done.
  - unfold located, whole. simpl. destruct c; simpl; [split_and!; [done..|]|split_and!; [done..|]|].
    1, 2: rewrite elem_of_app, list_elem_of_singleton; by intros [?|?].
    destruct (Hlast eq_refl) as (-> & -> & Hq). rewrite Hsplit, Hq. by rewrite !app_nil_r.
  - destruct c; simpl; done.
Qed.

Lemma drop_inv c q note w :
  serving w = Leftover (c :: q) note → inv w → inv (drop_cmd c (Leftover q note) w).
Proof.
  intros Hpc [Hs Hc Hw Hp He Hl Ht]. unfold located in Hl. rewrite Hpc in Hs, Hl. split; simpl; try done.
  - by rewrite Hs, <-!app_assoc.
  - by rewrite written_app, written_callback, Hp, app_assoc, omap_callback_snoc.
Qed.

Lemma serve_inv w w' : serve_step flusher hook w = Some w' → inv w → inv w'.
Proof.
  unfold serve_step. intros Hstep H. pose proof (i_located w H) as Hl. pose proof (i_tok w H) as Ht. unfold located in Hl.
  destruct (serving w) as [| | |[|c q]| |cause|[|c q] note|d|] eqn:Hpc; try done.
  - injection Hstep as <-. by apply move_same; rewrite ?Hpc.
  - destruct Hl as (Hl1 & Hl2 & Hl3).
    assert (CmdEnd ∉ performed w) by (rewrite Hl3; apply not_elem_of_nil).
    injection Hstep as <-. destruct (hasBody w).
    + pose proof (pump_inv (goto Top w) PumpWaiting [] (reads w)) as Hp. simpl in Hp. rewrite app_nil_r in Hp.
      apply Hp; [done|]. by apply move_to; rewrite ?Hpc.
    + by apply move_same; rewrite ?Hpc.
  - injection Hstep as <-. rewrite <-(post_nil (goto _ _)). apply move_inv; rewrite ?Hpc; simpl; try done. by rewrite app_nil_r.
  - injection Hstep as <-. by apply move_to; rewrite ?Hpc.
  - injection Hstep as <-. by apply perform_inv.
  - injection Hstep as <-. unfold shutdown. rewrite <-(post_nil (goto _ _)).
    apply move_inv; rewrite ?Hpc; simpl; try done; [by rewrite app_nil_r|].
    unfold located, whole in *. simpl. destruct Hl as (Hcl & _ & Hl). split_and!; [done|done| |].
    + by destruct cause.
    + destruct cause; [by left|by right].
  - injection Hstep as <-. apply move_inv; rewrite ?Hpc; simpl; try done; [by destruct note|].
    unfold located, whole in *. simpl. by destruct Hl as (? & ? & _ & ?).
  - injection Hstep as <-. by apply drop_inv.
  - assert (Hgo : ∀ s, (s = Joining true ∨ s = Returned) → inv (goto s w)).
    { intros s Hs. by apply move_to; rewrite ?Hpc; destruct Hs as [-> | ->]. }
    destruct (pump w), d; simplify_eq; apply Hgo; auto.
Qed.

Lemma req_step_inv l w w' : step flusher hook l w = Some w' → inv w → inv w'.
Proof.
  destruct l as [c| | | | | | | | | |ch e]; simpl; intros Hs Hi; simplify_eq.
  - by apply req_enqueue_inv.
  - by eapply req_signal_inv.
  - by apply resume_inv.
  - by apply finish_inv.
  - by apply gone_inv.
  - by eapply serve_inv.
  - unfold serve_wake in Hs. destruct (serving w) eqn:E; try done. destruct (wake (pend w)); simplify_eq.
    rewrite <-(post_nil (goto _ _)). apply move_inv; rewrite ?E; try done.
    pose proof (i_located w Hi) as Hl. unfold located in *. by rewrite E in Hl.
  - unfold serve_ctx in Hs. destruct (serving w) eqn:E; try done. destruct (ctx w) eqn:Hc; simplify_eq.
    apply move_to; rewrite ?E; try done.
    pose proof (i_located w Hi) as Hl. unfold located in *. rewrite E in Hl. simpl. rewrite Hc. by destruct Hl as (? & ? & _).
  - unfold pump_resume in Hs. destruct (pump w) eqn:E; try done. destruct (resume (pend w)) as [[]|] eqn:Er; simplify_eq.
    pose proof (pump_inv (with_pend (set_resume false (pend w)) w) PumpReading [] (S (reads w))) as Hp.
    simpl in Hp. rewrite app_nil_r in Hp. apply Hp; [done|].
    destruct Hi as [Hsp Hc Hw Hpo He Hl Ht]; split; done.
  - unfold pump_leave in Hs. destruct (pump w); try done. destruct (_ || _); simplify_eq.
    pose proof (pump_inv w PumpGone [] (reads w) eq_refl Hi) as Hp. by rewrite app_nil_r in Hp.
  - unfold pump_read in Hs. destruct (pump w); try done. simplify_eq.
    destruct e as [eof|]; unfold Post, set_pump; simpl; rewrite <-?app_assoc; apply pump_inv; try done; by destruct ch.
Qed.

Lemma req_steps_inv ls w w' : steps flusher hook ls w = Some w' → inv w → inv w'.
Proof.
  revert w. induction ls as [|l ls IH]; simpl; intros w Hs Hi; simplify_eq; [done|].
  destruct (step flusher hook l w) as [w1|] eqn:E; simplify_eq/=. eapply IH; [done|]. by eapply req_step_inv.
Qed.

Lemma request_inv w : reachable flusher hook w → inv w.
Proof. intros (b & ls & Hs). eapply req_steps_inv; [done|apply req_start_inv]. Qed.

(** ** The response *)

(** C22: A response is what the guest asked for, in its order. The calls made on
    the ResponseWriter are those of a prefix of the accepted commands; the
    callback of every chunk is posted once, in the order of the chunks, the
    dropped ones included, and all of them by the time the goroutine leaves. An
    end is the last command that is accepted: what comes after it, or after the
    client left, is refused. When the goroutine has returned and the client is
    still there, every accepted command has been carried out. *)
Theorem http_response_in_order w (Hr : reachable flusher hook w) :
  (∃ rest, accepted w = performed w ++ rest) ∧
  calls w = render flusher (performed w) ∧
  (∃ rest, omap callback (accepted w) = written (posted w) ++ rest) ∧
  (∀ c, (do_enqueue c w).1 = false ↔ closed (pend w) = true ∨ CmdEnd ∈ accepted w) ∧
  (∃ pre rest, accepted w = pre ++ rest ∧ (CmdEnd ∉ pre) ∧ (rest = [] ∨ rest = [CmdEnd])) ∧
  (serving w = Returned →
     omap callback (accepted w) = written (posted w) ∧
     (ctx w = false → performed w = accepted w ∧ CmdEnd ∈ accepted w)).
Proof.
  destruct (request_inv w Hr) as [Hs Hc Hw Hp (pre & Hpre & He) Hl Ht].
  assert (Hend : CmdEnd ∈ accepted w ↔ ended (pend w) = true).
  { rewrite He, elem_of_app. destruct (ended (pend w)).
    - split; [done|]. right. by apply list_elem_of_singleton.
    - split; [|done]. intros [?|H]; [done|by apply not_elem_of_nil in H]. }
  split_and!.
  - by eexists.
  - done.
  - rewrite Hs, app_assoc, omap_app, Hp. by eexists.
  - intros c. rewrite Hend. unfold do_enqueue, enqueue. destruct (closed (pend w)), (ended (pend w)); simpl; intuition congruence.
  - eexists pre, _. split; [done|]. split; [done|]. destruct (ended (pend w)); auto.
  - intros Hret. unfold located in Hl. rewrite Hret in Hs, Hl. destruct Hl as (_ & Hq & _ & Hl).
    rewrite Hq, app_nil_r in Hs. split; [by rewrite Hs, Hp|]. rewrite Hend. intros Hctx. destruct Hl as [?|[? ?]]; [congruence|done].
Qed.

(** ** Progress *)

(** Steps that need neither a call, nor the client, nor a Read to return. *)
Definition internal (l : label) : bool :=
  match l with Signal | Serve | Wake | CtxDone | PumpResume | PumpLeave => true | _ => false end.

Definition stuck (w : Resp.world) : Prop := ∀ l, internal l = true → step flusher hook l w = None.

(** A bound on the steps that follow by themselves. *)
Definition place_rank (s : spc) : nat :=
  match s with
  | Registered => 12
  | Dispatched => 11
  | Top => 7
  | Cmds q => 6 + length q
  | Waiting => 5
  | Leaving _ => 4
  | Leftover q _ => 3 + length q
  | Joining deadline => if deadline then 1 else 2
  | Returned => 0
  end.

Definition pump_rank (p : ppc) : nat := match p with PumpWaiting => 2 | PumpReading => 1 | _ => 0 end.

Definition weight (w : Resp.world) : nat :=
  4 * signals w + (if wake (pend w) then 3 else 0) + 2 * length (queue (pend w)) + place_rank (serving w) + pump_rank (pump w).

Lemma serve_weight w w' :
  (serving w = Dispatched → pump w = NoPump) → serve_step flusher hook w = Some w' → (weight w' < weight w)%nat.
Proof.
  unfold serve_step, weight. intros Hp.
  destruct (serving w) as [| | |[|c q]| |cause|[|c q] note|d|] eqn:Hpc; intros Hs; simplify_eq; simpl; try lia.
  - rewrite Hp by done. destruct (hasBody w); simpl; rewrite ?Hp by done; simpl; lia.
  - destruct (is_end c); simpl; lia.
  - destruct (pump w) eqn:E, d; simplify_eq; simpl; rewrite ?E; simpl; lia.
Qed.

Lemma req_internal_weight l w w' :
  (serving w = Dispatched → pump w = NoPump) → internal l = true → step flusher hook l w = Some w' →
  (weight w' < weight w)%nat.
Proof.
  intros Hp. destruct l as [c| | | | | | | | | |ch e]; simpl; intros Hl Hs; simplify_eq; try done.
  - unfold do_signal in Hs. destruct (signals w) eqn:E; simplify_eq. unfold weight. simpl. rewrite E.
    destruct (wake (pend w)); lia.
  - by apply serve_weight.
  - unfold serve_wake in Hs. destruct (serving w) eqn:E; try done. destruct (wake (pend w)) eqn:Ew; simplify_eq.
    unfold weight. simpl. rewrite E, Ew. simpl. lia.
  - unfold serve_ctx in Hs. destruct (serving w) eqn:E; try done. destruct (ctx w); simplify_eq.
    unfold weight. simpl. rewrite E. simpl. lia.
  - unfold pump_resume in Hs. destruct (pump w) eqn:E; try done. destruct (resume (pend w)) as [[]|]; simplify_eq.
    unfold weight. simpl. rewrite E. simpl. lia.
  - unfold pump_leave in Hs. destruct (pump w) eqn:E; try done. destruct (_ || _); simplify_eq.
    unfold weight. simpl. rewrite E. simpl. lia.
Qed.

(** When the pump is there. *)
Definition pumping (w : Resp.world) : Prop :=
  match serving w with
  | Registered | Dispatched => pump w = NoPump
  | Returned => pump w = NoPump ∨ pump w = PumpGone
  | _ => True
  end.

Lemma pumping_step l w w' : step flusher hook l w = Some w' → pumping w → pumping w'.
Proof.
  unfold pumping. destruct l as [c| | | | | | | | | |ch e]; simpl; intros Hs Hp; simplify_eq; try done.
  - unfold do_enqueue, enqueue. by destruct (_ || _).
  - unfold do_signal in Hs. by destruct (signals w); simplify_eq.
  - unfold do_resume. by destruct (resume (pend w)).
  - unfold serve_step in Hs. destruct (serving w) as [| | |[|c q]| |cause|[|c q] note|d|] eqn:Hpc; simplify_eq; try done.
    + by destruct (hasBody w).
    + simpl. by destruct (is_end c).
    + destruct (pump w) eqn:E, d; simplify_eq; simpl; auto.
  - unfold serve_wake in Hs. destruct (serving w); try done. by destruct (wake (pend w)); simplify_eq.
  - unfold serve_ctx in Hs. destruct (serving w); try done. by destruct (ctx w); simplify_eq.
  - unfold pump_resume in Hs. destruct (pump w) eqn:E; try done. destruct (resume (pend w)) as [[]|]; simplify_eq.
    simpl. destruct (serving w); try done. by destruct Hp.
  - unfold pump_leave in Hs. destruct (pump w) eqn:E; try done. destruct (_ || _); simplify_eq.
    simpl. destruct (serving w); auto; done.
  - unfold pump_read in Hs. destruct (pump w) eqn:E; try done. simplify_eq.
    destruct e; simpl; destruct (serving w); try done; by destruct Hp.
Qed.

Lemma pumping_steps ls w w' : steps flusher hook ls w = Some w' → pumping w → pumping w'.
Proof.
  revert w. induction ls as [|l ls IH]; simpl; intros w Hs Hi; simplify_eq; [done|].
  destruct (step flusher hook l w) as [w1|] eqn:E; simplify_eq/=. eapply IH; [done|]. by eapply pumping_step.
Qed.

Lemma request_pumping w : reachable flusher hook w → pumping w.
Proof. intros (b & ls & Hs). by eapply pumping_steps. Qed.

Lemma internal_bounded ls w w' :
  pumping w → forallb internal ls = true → steps flusher hook ls w = Some w' → (length ls + weight w' <= weight w)%nat.
Proof.
  revert w. induction ls as [|l ls IH]; simpl; intros w Hp Hl Hs; simplify_eq; [lia|].
  apply andb_true_iff in Hl as [Hl Hls]. destruct (step flusher hook l w) as [w1|] eqn:E; simplify_eq/=.
  pose proof (IH w1 (pumping_step _ _ _ E Hp) Hls Hs).
  assert (serving w = Dispatched → pump w = NoPump) by (unfold pumping in Hp; intros Hd; by rewrite Hd in Hp).
  pose proof (req_internal_weight _ _ _ ltac:(done) Hl E). lia.
Qed.

Lemma req_stuck_place w : stuck w →
  signals w = 0%nat ∧
  (serving w = Waiting ∧ wake (pend w) = false ∧ ctx w = false
   ∨ serving w = Returned
   ∨ serving w = Joining true ∧ (pump w = PumpReading ∨ pump w = PumpWaiting ∧ done (pend w) = false)).
Proof.
  intros H. pose proof (H Signal eq_refl) as H1. pose proof (H Serve eq_refl) as H2. pose proof (H Wake eq_refl) as H3.
  pose proof (H CtxDone eq_refl) as H4. pose proof (H PumpLeave eq_refl) as H5. simpl in *.
  unfold do_signal in H1. destruct (signals w); [|done]. split; [done|]. unfold serve_step in H2.
  destruct (serving w) as [| | |[|c q]| |cause|[|c q] note|d|] eqn:E; try done; [left|right; right|right; by left].
  - unfold serve_wake, serve_ctx in *. rewrite E in *. by destruct (wake (pend w)), (ctx w).
  - unfold pump_leave in H5. destruct (pump w), d; try done; split; auto.
    right. by destruct (done (pend w)).
Qed.

(** An exchange always settles. However the goroutines, the wake-ups and the
    client interleave, the steps that follow without a call are bounded. When no
    more is possible and the guest has ended the response, or the client has
    left, the serving goroutine has returned - or waits for nothing but the body
    pump's Read, which it has given a deadline in the past, and returns as soon
    as that Read fails. Otherwise every command so far has been carried out. *)
Theorem http_request_settles w ls w'
    (Hr : reachable flusher hook w) (Hint : forallb internal ls = true) (Hs : steps flusher hook ls w = Some w') :
  (length ls <= weight w)%nat ∧
  (stuck w' →
     if ended (pend w') || ctx w' then
       serving w' = Returned ∨
       serving w' = Joining true ∧ pump w' = PumpReading ∧
       (∀ chunk eof, ∃ w'', steps flusher hook [PumpRead chunk (Some eof); Serve] w' = Some w'' ∧ serving w'' = Returned)
     else serving w' = Waiting ∧ performed w' = accepted w').
Proof.
  pose proof (internal_bounded ls w w' (request_pumping w Hr) Hint Hs) as Hb. split; [lia|]. intros Hstuck.
  assert (Hi : inv w') by (eapply req_steps_inv; [done|by apply request_inv]).
  destruct (req_stuck_place w' Hstuck) as [Hsig [(Hp & Hwk & Hctx)|[Hp|[Hp Hpump]]]];
    destruct Hi as [Hsp Hc Hw Hpo (pre & Hpre & He) Hl Ht]; unfold located in Hl; rewrite Hp in *; simpl in *.
  - assert (Hq : queue (pend w') = []).
    { destruct (queue (pend w')); [done|]. exfalso. destruct Ht as [?|?]; [done|congruence|lia]. }
    destruct Hl as (_ & Hd & Hne). rewrite Hq, Hd, !app_nil_r in Hsp. rewrite Hctx, orb_false_r.
    destruct (ended (pend w')); [|by rewrite Hsp]. destruct Hne. rewrite <-Hsp, He. apply elem_of_app. right. by left.
  - destruct Hl as (_ & _ & _ & [-> |[_ ->]]); rewrite ?orb_true_r; by left.
  - destruct Hl as (_ & _ & Hdone & Hl). assert (Hpr : pump w' = PumpReading) by (destruct Hpump as [?|[_ ?]]; congruence).
    assert (ended (pend w') || ctx w' = true) as -> by (destruct Hl as [-> |[_ ->]]; by rewrite ?orb_true_r).
    right. split; [done|]. split; [done|]. intros chunk eof. eexists. simpl. unfold pump_read. rewrite Hpr. simpl.
    unfold serve_step. simpl. rewrite Hp. done.
Qed.

(** ** The request's body *)

Definition body_part (p : post) : bool := match p with Chunk _ | BodyEnd _ => true | _ => false end.

(** What a Read hands to the guest. *)
Definition read_posts (l : label) : list post :=
  match l with
  | PumpRead chunk e =>
      (if bool_decide (chunk = []) then [] else [Chunk chunk]) ++
      match e with Some eof => [BodyEnd (negb eof)] | None => [] end
  | _ => []
  end.

Definition token (w : Resp.world) : nat := match resume (pend w) with Some true => 1 | _ => 0 end.

Definition is_last (p : post) : bool := match p with BodyEnd _ => true | _ => false end.

(** Chunks, then at most one end. *)
Definition well_shaped (ps : list post) (over : bool) : Prop :=
  ∃ cs fin, ps = map Chunk cs ++ fin ∧ (fin = [] ∨ over = true ∧ ∃ a, fin = [BodyEnd a]).

(** The pump reads no more. *)
Definition over (w : Resp.world) : bool :=
  match pump w with PumpGone => true | NoPump => negb (hasBody w) | _ => false end.

Record body_inv (b : bool) (ls : list label) (w : Resp.world) : Prop := {
  b_has : hasBody w = b;
  b_resume : b = false → resume (pend w) = None;
  b_pump : b = false → pump w = NoPump;
  b_posts : filter body_part (posted w) =
    if b then flat_map read_posts ls
    else match serving w with Registered | Dispatched => [] | _ => [BodyEnd false] end;
  b_shape : well_shaped (filter body_part (posted w)) (over w);
  b_flow : (reads w + token w <= 1 + asked w)%nat
}.

Lemma filter_callbacks cb : filter body_part (postCallback cb) = [].
Proof. by destruct cb. Qed.

(** A step that posts no part of the body and leaves the pump alone. *)
Lemma body_keeps b ls l w w' ps :
  body_inv b ls w → read_posts l = [] → posted w' = posted w ++ ps → filter body_part ps = [] →
  hasBody w' = hasBody w → resume (pend w') = resume (pend w) → pump w' = pump w → reads w' = reads w → asked w' = asked w →
  (match serving w' with Registered | Dispatched => true | _ => false end) =
  (match serving w with Registered | Dispatched => true | _ => false end) →
  body_inv b (ls ++ [l]) w'.
Proof.
  intros [H1 H2 H3 H4 H5 H6] Hl Hps Hf E1 E2 E3 E4 E5 E6.
  assert (Hfil : filter body_part (posted w') = filter body_part (posted w)) by by rewrite Hps, filter_app, Hf, app_nil_r.
  split; rewrite ?Hfil; unfold token, over in *; rewrite ?E1, ?E2, ?E3, ?E4, ?E5; try done.
  rewrite H4. destruct b; [by rewrite flat_map_app; simpl; rewrite Hl, !app_nil_r|].
  by destruct (serving w), (serving w').
Qed.

Lemma shape_chunk ps c o : well_shaped ps false → well_shaped (ps ++ [Chunk c]) o.
Proof.
  intros (cs & fin & -> & [-> |[? _]]); [|done]. exists (cs ++ [c]), []. rewrite map_app, !app_nil_r. auto.
Qed.

Lemma shape_end ps a : well_shaped ps false → well_shaped (ps ++ [BodyEnd a]) true.
Proof. intros (cs & fin & -> & [-> |[? _]]); [|done]. exists cs, [BodyEnd a]. rewrite app_nil_r. eauto. Qed.

Lemma shape_over ps o : well_shaped ps false → well_shaped ps o.
Proof. intros (cs & fin & -> & [-> |[? _]]); [|done]. exists cs, []. auto. Qed.

Lemma body_read b ls w w' chunk e :
  pump_read chunk e w = Some w' → body_inv b ls w → body_inv b (ls ++ [PumpRead chunk e]) w'.
Proof.
  unfold pump_read. destruct (pump w) eqn:E; try done. intros Hs [H1 H2 H3 H4 H5 H6].
  destruct b; [|by rewrite H3 in E]. unfold over in H5. rewrite E in H5.
  assert (Hp : filter body_part (posted w') = filter body_part (posted w) ++ read_posts (PumpRead chunk e)).
  { injection Hs as <-. destruct e; simpl; rewrite !filter_app, <-?app_assoc; f_equal; by case_bool_decide. }
  split; rewrite ?Hp.
  - injection Hs as <-. by destruct e.
  - done.
  - done.
  - rewrite H4, flat_map_app. simpl. by rewrite app_nil_r.
  - unfold over. simpl. destruct e as [eof|]; injection Hs as <-; simpl; case_bool_decide; simpl; rewrite ?app_nil_r.
    + by apply shape_end.
    + rewrite (app_assoc _ [Chunk chunk] [BodyEnd (negb eof)]). by apply shape_end, shape_chunk.
    + done.
    + by apply shape_chunk.
  - injection Hs as <-. by destruct e.
Qed.

Ltac keeps ps := eapply (body_keeps _ _ _ _ _ ps); [eassumption|done|..].

Lemma body_serve b ls w w' :
  pumping w → serve_step flusher hook w = Some w' → body_inv b ls w → body_inv b (ls ++ [Serve]) w'.
Proof.
  unfold pumping, serve_step. intros Hpump Hs H.
  destruct (serving w) as [| | |[|c q]| |cause|[|c q] note|d|] eqn:Hpc; simplify_eq.
  - keeps [Dispatch (hasBody w)]; simpl; by rewrite ?Hpc.
  - destruct H as [H1 H2 H3 H4 H5 H6]. unfold over in H5. rewrite Hpump in H5. rewrite H1 in *. destruct b; simpl in *.
    + split; simpl; try done. by rewrite flat_map_app, !app_nil_r.
    + rewrite Hpc in H4. split; simpl; rewrite ?filter_app, ?H4; try done.
      exists [], [BodyEnd false]. split; [done|]. unfold over. simpl. rewrite Hpump, H1. eauto.
  - keeps (@nil post); simpl; by rewrite ?Hpc, ?app_nil_r.
  - keeps (@nil post); simpl; by rewrite ?Hpc, ?app_nil_r.
  - keeps (postCallback (callback c)); simpl; rewrite ?Hpc; try done; [apply filter_callbacks|by destruct (is_end c)].
  - keeps (@nil post); simpl; by rewrite ?Hpc, ?app_nil_r.
  - keeps (if note then [Aborted] else []); simpl; rewrite ?Hpc; try done. by destruct note.
  - keeps (postCallback (callback c)); simpl; rewrite ?Hpc; try done. apply filter_callbacks.
  - destruct (pump w) eqn:E, d; simplify_eq; keeps (@nil post); simpl; by rewrite ?Hpc, ?app_nil_r.
Qed.

Lemma body_step b ls l w w' :
  pumping w → step flusher hook l w = Some w' → body_inv b ls w → body_inv b (ls ++ [l]) w'.
Proof.
  intros Hpump Hs H. destruct l as [c| | | | | | | | | |ch e]; simpl in Hs; simplify_eq.
  - unfold do_enqueue, enqueue. destruct (closed (pend w) || ended (pend w)); keeps (@nil post); simpl; by rewrite ?app_nil_r.
  - unfold do_signal in Hs. destruct (signals w); simplify_eq. keeps (@nil post); simpl; by rewrite ?app_nil_r.
  - unfold do_resume. destruct (resume (pend w)) eqn:E; [|keeps (@nil post); by rewrite ?app_nil_r].
    destruct H as [H1 H2 H3 H4 H5 H6]. unfold token in H6. destruct b; [|by rewrite H2 in E].
    split; simpl; try done; [by rewrite flat_map_app, !app_nil_r|]. unfold token. simpl. lia.
  - keeps (@nil post); simpl; by rewrite ?app_nil_r.
  - keeps (@nil post); simpl; by rewrite ?app_nil_r.
  - by eapply body_serve.
  - unfold serve_wake in Hs. destruct (serving w) eqn:Hpc; try done. destruct (wake (pend w)); simplify_eq.
    keeps (@nil post); simpl; by rewrite ?Hpc, ?app_nil_r.
  - unfold serve_ctx in Hs. destruct (serving w) eqn:Hpc; try done. destruct (ctx w); simplify_eq.
    keeps (@nil post); simpl; by rewrite ?Hpc, ?app_nil_r.
  - unfold pump_resume in Hs. destruct (pump w) eqn:Ep; try done. destruct (resume (pend w)) as [[]|] eqn:E; simplify_eq.
    destruct H as [H1 H2 H3 H4 H5 H6]. destruct b; [|by rewrite H2 in E]. unfold token in H6. rewrite E in H6.
    unfold over in H5. rewrite Ep in H5. split; simpl; try done; [by rewrite flat_map_app, !app_nil_r|]. unfold token. simpl. lia.
  - unfold pump_leave in Hs. destruct (pump w) eqn:Ep; try done. destruct (_ || _); simplify_eq.
    destruct H as [H1 H2 H3 H4 H5 H6]. destruct b; [|by rewrite H3 in Ep].
    unfold over in H5. rewrite Ep in H5. split; simpl; try done; [by rewrite flat_map_app, !app_nil_r|by apply shape_over].
  - by eapply body_read.
Qed.

Lemma steps_snoc ls l w w' :
  steps flusher hook (ls ++ [l]) w = Some w' ↔ ∃ w1, steps flusher hook ls w = Some w1 ∧ step flusher hook l w1 = Some w'.
Proof.
  revert w. induction ls as [|k ls IH]; simpl; intros w.
  - split; [|by intros (w1 & [= <-] & ->)]. intros H. exists w. split; [done|].
    destruct (step flusher hook l w); by simplify_eq/=.
  - destruct (step flusher hook k w); simpl; [apply IH|split; [done|by intros (? & ? & ?)]].
Qed.

Lemma body_steps b ls w : steps flusher hook ls (start b) = Some w → body_inv b ls w.
Proof.
  revert w. induction ls as [|l ls IH] using rev_ind; intros w Hs.
  - injection Hs as <-. split; simpl; try done; try (by destruct b); [by exists [], []; auto|]. unfold token. destruct b; simpl; lia.
  - apply steps_snoc in Hs as (w1 & H1 & Hs). eapply body_step; [|done|by apply IH].
    apply request_pumping. by eexists b, ls.
Qed.

(** The guest receives the request's body as it was read: the chunks of the
    Reads that returned bytes, in their order, then at most one end, which says
    whether the body was cut off; a request without a body gets its end at once.
    There are never more Reads than the guest asked for, and one; and when the
    exchange is over, no Read of the body is under way and none can start. *)
Theorem http_body_in_order b ls w (Hs : steps flusher hook ls (start b) = Some w) :
  (b = true → filter body_part (posted w) = flat_map read_posts ls) ∧
  (b = false → filter body_part (posted w) = [] ∨ filter body_part (posted w) = [BodyEnd false]) ∧
  (∃ cs fin, filter body_part (posted w) = map Chunk cs ++ fin ∧ (fin = [] ∨ ∃ a, fin = [BodyEnd a])) ∧
  (reads w <= 1 + asked w)%nat ∧
  (serving w = Returned → ∀ ls' w', steps flusher hook ls' w = Some w' → reads w' = reads w ∧ flat_map read_posts ls' = []).
Proof.
  pose proof (body_steps b ls w Hs) as [H1 H2 H3 H4 (cs & fin & Hcs & Hfin) H6]. split_and!.
  - intros ->. done.
  - intros ->. rewrite H4. destruct (serving w); auto.
  - exists cs, fin. split; [done|]. destruct Hfin as [?|[_ ?]]; auto.
  - lia.
  - intros Hret. assert (Hpump : pumping w) by (apply request_pumping; by eexists b, ls). clear -Hret Hpump.
    assert (Hidle : pump w = NoPump ∨ pump w = PumpGone) by (unfold pumping in Hpump; by rewrite Hret in Hpump). clear Hpump.
    intros ls'. revert w Hret Hidle. induction ls' as [|l ls' IH]; simpl; intros w Hret Hidle w' Hs; [by simplify_eq|].
    destruct (step flusher hook l w) as [w1|] eqn:E; simplify_eq/=.
    assert (Hw1 : serving w1 = Returned ∧ pump w1 = pump w ∧ reads w1 = reads w ∧ read_posts l = []).
    { destruct l as [c| | | | | | | | | |ch e]; simpl in E; simplify_eq; try done.
      - unfold do_enqueue, enqueue. by destruct (_ || _).
      - unfold do_signal in E. by destruct (signals w); simplify_eq.
      - unfold do_resume. by destruct (resume (pend w)).
      - unfold serve_step in E. by rewrite Hret in E.
      - unfold serve_wake in E. by rewrite Hret in E.
      - unfold serve_ctx in E. by rewrite Hret in E.
      - unfold pump_resume in E. by destruct Hidle as [Hi|Hi]; rewrite Hi in E.
      - unfold pump_leave in E. by destruct Hidle as [Hi|Hi]; rewrite Hi in E.
      - unfold pump_read in E. by destruct Hidle as [Hi|Hi]; rewrite Hi in E. }
    destruct Hw1 as (R1 & R2 & R3 & ->). destruct (IH w1 R1 ltac:(by rewrite R2) w' Hs) as [-> ->]. done.
Qed.

End Inv.

(** ** An exchange with a body of two reads *)

Abbreviation upload :=
  [Serve; Serve; PumpResume; PumpRead (lit "ab") None; Resume; PumpResume; PumpRead (lit "c") (Some true);
   Enqueue (CmdHead 201 [(lit "X", lit "y")]); Signal; Serve; Serve; Serve;
   Enqueue (CmdWrite (lit "ok") (Some 7)); Signal; Enqueue CmdEnd; Signal].
Abbreviation settling := [Wake; Serve; Serve; Serve; Serve; Serve; Serve].
Abbreviation exchange ls := (default (start true) (steps true true ls (start true))).

Lemma http_response_in_order_witness :
  let w := exchange (upload ++ settling) in
  serving w = Returned ∧
  calls w = [AddHeader (lit "X", lit "y"); WriteHeader 201; WriteBody (lit "ok"); Flush] ∧
  written (posted w) = [7] ∧ calls w = render true (performed w) ∧ performed w = accepted w.
Proof.
  intros w. destruct (http_response_in_order true true w) as (_ & H2 & _ & _ & _ & H6).
  - exists true, (upload ++ settling). vm_compute. reflexivity.
  - split; [vm_compute; reflexivity|]. split; [vm_compute; reflexivity|]. split; [vm_compute; reflexivity|].
    split; [exact H2|]. apply H6; vm_compute; reflexivity.
Defined.

Lemma http_request_settles_witness :
  let w := exchange upload in let w' := exchange (upload ++ settling) in
  (length settling <= weight w)%nat ∧ (serving w' = Returned ∨ serving w' = Joining true).
Proof.
  intros w w'. destruct (http_request_settles true true w settling w') as [H1 H2].
  - exists true, upload. vm_compute. reflexivity.
  - reflexivity.
  - vm_compute. reflexivity.
  - split; [exact H1|]. left. vm_compute. reflexivity.
Defined.

Lemma http_body_in_order_witness :
  let w := exchange upload in
  filter body_part (posted w) = [Chunk (lit "ab"); Chunk (lit "c"); BodyEnd false] ∧
  filter body_part (posted w) = flat_map read_posts upload ∧ (reads w <= 1 + asked w)%nat.
Proof.
  intros w. split; [vm_compute; reflexivity|].
  destruct (http_body_in_order true true true upload w) as (H1 & _ & _ & H4 & _); [vm_compute; reflexivity|].
  split; [by apply H1|exact H4].
Defined.

(** The runtime is torn down while an exchange waits: [Finish] closes the channel
    only the pump looks at. As long as its client stays, no step moves it. *)
Lemma finish_leaves_waiting :
  let w := exchange [Serve; Serve; Serve; Serve; Finish] in
  serving w = Waiting ∧ ∀ ls w', forallb internal ls = true → steps true true ls w = Some w' → serving w' = Waiting.
Proof.
  intros w. split; [vm_compute; reflexivity|].
  assert (Hgen : ∀ ls v v', (serving v = Waiting ∧ wake (pend v) = false ∧ ctx v = false ∧ signals v = 0%nat) →
    forallb internal ls = true → steps true true ls v = Some v' → serving v' = Waiting).
  { induction ls as [|l ls IH]; simpl; intros v v' (Hp & Hw & Hc & Hn) Hl Hs; [by simplify_eq|].
    apply andb_true_iff in Hl as [Hl Hls]. destruct (step true true l v) as [v1|] eqn:E; simplify_eq/=.
    eapply (IH v1); [|done|done]. destruct l as [c| | | | | | | | | |ch e]; simpl in *; try done.
    - unfold do_signal in E. by rewrite Hn in E.
    - unfold serve_step in E. by rewrite Hp in E.
    - unfold serve_wake in E. by rewrite Hp, Hw in E.
    - unfold serve_ctx in E. by rewrite Hp, Hc in E.
    - unfold pump_resume in E. destruct (pump v); try done. destruct (resume (pend v)) as [[]|]; by simplify_eq.
    - unfold pump_leave in E. destruct (pump v); try done. by destruct (_ || _); simplify_eq. }
  intros ls w'. apply Hgen. vm_compute. auto.
Qed.
