(* ===== verification/Http.v ===== *)
(** The HTTP servers of compat/nodejs/http.go: httpState, the http_* operations,
    and the goroutines behind them, over the exchanges of HttpReq.v.

    A [world] is httpState with the loop's pending count and posted functions,
    every exchange that was ever begun, the Shutdown calls under way, and a log
    of the guest callbacks called and released. net/http's accept loop, a
    finished Shutdown and the client are labels. *)

From S2P Require Import Prelude Counting HttpReq.

Module Http.

(** A function posted to the loop: by an exchange, by a server that has shut
    down, or to fire a callback. *)
Inductive post :=
| OfRequest (id : Z) (p : Resp.post)
| ServerClosed (cb : option Z)
| Fire (cb : Z).

Inductive event := Call (h : Z) | Release (h : Z).

Record world := MkWorld {
  nextID : Z;
  servers : gset Z;
  reqs : gset Z;                       (** ids with an entry in st.reqs *)
  exchanges : gmap Z Resp.world;       (** every httpPending ever made *)
  pending : Z;                         (** the loop's AddPending count *)
  shutting : list (option Z);          (** srv.Shutdown calls, with the close callback *)
  posts : list post;                   (** oldest first *)
  log : list event;
  dataFreed : list Z                   (** chunk handles released *)
}.

Definition newHTTPState : world := MkWorld 0 ∅ ∅ ∅ 0 [] [] [] [].

Definition Post (ps : list post) (s : world) : world :=
  MkWorld (nextID s) (servers s) (reqs s) (exchanges s) (pending s) (shutting s) (posts s ++ ps) (log s) (dataFreed s).
Definition add_pending (n : Z) (s : world) : world :=
  MkWorld (nextID s) (servers s) (reqs s) (exchanges s) (pending s + n) (shutting s) (posts s) (log s) (dataFreed s).
Definition with_reqs (r : gset Z) (s : world) : world :=
  MkWorld (nextID s) (servers s) r (exchanges s) (pending s) (shutting s) (posts s) (log s) (dataFreed s).
Definition with_servers (v : gset Z) (s : world) : world :=
  MkWorld (nextID s) v (reqs s) (exchanges s) (pending s) (shutting s) (posts s) (log s) (dataFreed s).
Definition with_exchanges (m : gmap Z Resp.world) (s : world) : world :=
  MkWorld (nextID s) (servers s) (reqs s) m (pending s) (shutting s) (posts s) (log s) (dataFreed s).
Definition with_shutting (l : list (option Z)) (s : world) : world :=
  MkWorld (nextID s) (servers s) (reqs s) (exchanges s) (pending s) l (posts s) (log s) (dataFreed s).
Definition with_id (n : Z) (s : world) : world :=
  MkWorld n (servers s) (reqs s) (exchanges s) (pending s) (shutting s) (posts s) (log s) (dataFreed s).
Definition with_posts (ps : list post) (s : world) : world :=
  MkWorld (nextID s) (servers s) (reqs s) (exchanges s) (pending s) (shutting s) ps (log s) (dataFreed s).
Definition free_data (hs : list Z) (s : world) : world :=
  MkWorld (nextID s) (servers s) (reqs s) (exchanges s) (pending s) (shutting s) (posts s) (log s) (dataFreed s ++ hs).
(** cb.Call(); cb.Free() *)
Definition fire (cb : option Z) (s : world) : world :=
  MkWorld (nextID s) (servers s) (reqs s) (exchanges s) (pending s) (shutting s) (posts s)
    (log s ++ flat_map (λ h, [Call h; Release h]) (option_list cb)) (dataFreed s).

Definition fireWriteCallback (cb : option Z) (s : world) : world := Post (map Fire (option_list cb)) s.

(** *** Operations of the guest *)

Inductive listened := Refused (code : string) | Listening (id : Z).

(** [allowed] is Config.Listen's answer, [bound] whether net.Listen succeeds. *)
Definition opHTTPListen (allowed bound : bool) (s : world) : listened * world :=
  if allowed then
    if bound then
      let id := nextID s + 1 in
      (Listening id, add_pending 1 (with_servers ({[id]} ∪ servers s) (with_id id s)))
    else (Refused "EADDRINUSE", s)
  else (Refused "EACCES", s).

(** The one server that is running. *)
Definition HTTPHandler (s : world) : option Z :=
  match elements (servers s) with [id] => Some id | _ => None end.

Definition opHTTPClose (id : Z) (cb : option Z) (s : world) : world :=
  if bool_decide (id ∈ servers s) then
    with_shutting (shutting s ++ [cb]) (with_servers (servers s ∖ {[id]}) s)
  else Post (map Fire (option_list cb)) s.

(** A command for an exchange, and whether it was taken. *)
Definition enqueue (id : Z) (c : Resp.httpCmd) (s : world) : bool * world :=
  match exchanges s !! id with
  | None => (false, s)
  | Some w => let '(ok, w') := Resp.do_enqueue c w in (ok, with_exchanges (<[id := w']> (exchanges s)) s)
  end.

(** [hs] is what json.Unmarshal makes of the third argument. *)
Definition opHTTPRespond (id status : Z) (hs : option Resp.headers) (s : world) : option unit * world :=
  if bool_decide (id ∈ reqs s) then
    match hs with
    | None => (None, s)
    | Some hs =>
        let status := if (status <? 100) || (999 <? status) then 500 else status in
        (Some tt, (enqueue id (Resp.CmdHead status hs) s).2)
    end
  else (Some tt, s).

(** The chunk argument: an object with what Bytes() gives, or a string. *)
Inductive chunk := ByHandle (h : Z) (b : option bytes) | ByText (b : bytes).

Definition chunk_handle (c : chunk) : list Z := match c with ByHandle h _ => [h] | ByText _ => [] end.
Definition chunk_bytes (c : chunk) : option bytes := match c with ByHandle _ b => b | ByText b => Some b end.

Definition opHTTPWrite (id : Z) (c : chunk) (onWritten : option Z) (s : world) : option unit * world :=
  let s := free_data (chunk_handle c) s in
  if bool_decide (id ∈ reqs s) then
    match chunk_bytes c with
    | None => (None, fireWriteCallback onWritten s)
    | Some d =>
        let '(ok, s') := enqueue id (Resp.CmdWrite d onWritten) s in
        (Some tt, if ok then s' else fireWriteCallback onWritten s')
    end
  else (Some tt, fireWriteCallback onWritten s).

Definition opHTTPEnd (id : Z) (s : world) : world :=
  if bool_decide (id ∈ reqs s) then (enqueue id Resp.CmdEnd s).2 else s.

Definition opHTTPBodyResume (id : Z) (s : world) : world :=
  if bool_decide (id ∈ reqs s) then with_exchanges (alter Resp.do_resume id (exchanges s)) s else s.

Definition closeHTTP (s : world) : world :=
  let s1 := with_servers ∅ (with_reqs ∅ s) in
  let s2 := with_exchanges (map_imap (λ id w, Some (if bool_decide (id ∈ reqs s) then Resp.finish w else w)) (exchanges s)) s1 in
  add_pending (- Z.of_nat (size (servers s))) s2.

(** *** Goroutines *)

(** ServeHTTP registers the exchange. *)
Definition arrive (hasBody : bool) (s : world) : world :=
  let id := nextID s + 1 in
  with_reqs ({[id]} ∪ reqs s) (with_exchanges (<[id := Resp.start hasBody]> (exchanges s)) (with_id id s)).

(** The steps of an exchange that are no calls of the loop. *)
Definition own (l : Resp.label) : bool :=
  match l with Resp.Enqueue _ | Resp.Resume | Resp.Finish => false | _ => true end.

Section Run.
Context (flusher hook : bool).

(** A step of an exchange's goroutines; with the last one the entry goes. *)
Definition request_step (id : Z) (l : Resp.label) (s : world) : option world :=
  if own l then
    w ← exchanges s !! id;
    w' ← Resp.step flusher hook l w;
    let s1 := Post (map (OfRequest id) (drop (length (Resp.posted w)) (Resp.posted w')))
                (with_exchanges (<[id := w']> (exchanges s)) s) in
    Some (match Resp.serving w' with Resp.Returned => with_reqs (reqs s1 ∖ {[id]}) s1 | _ => s1 end)
  else None.

(** srv.Shutdown has returned. *)
Definition shutdown_done (i : nat) (s : world) : option world :=
  cb ← shutting s !! i;
  Some (Post [ServerClosed cb] (with_shutting (delete i (shutting s)) s)).

(** fail, when the dispatch itself fails. *)
Definition fail (id : Z) (s : world) : world :=
  let s := (enqueue id (Resp.CmdHead 500 []) s).2 in
  let s := (enqueue id (Resp.CmdWrite (lit "internal error") None) s).2 in
  (enqueue id Resp.CmdEnd s).2.

(** The loop runs the oldest posted function; [cerr]: the guest's dispatch
    failed. *)
Definition run_post (cerr : bool) (s : world) : option world :=
  match posts s with
  | [] => None
  | p :: ps =>
      let s := with_posts ps s in
      Some (match p with
            | OfRequest id (Resp.Dispatch _) => if cerr then fail id s else s
            | OfRequest _ (Resp.Written cb) | Fire cb => fire (Some cb) s
            | OfRequest _ _ => s
            | ServerClosed cb => fire cb (add_pending (-1) s)
            end)
  end.

Inductive label :=
| OpListen (allowed bound : bool)
| OpClose (id : Z) (cb : option Z)
| OpRespond (id status : Z) (hs : option Resp.headers)
| OpWrite (id : Z) (c : chunk) (onWritten : option Z)
| OpEnd (id : Z)
| OpBodyResume (id : Z)
| CloseHTTP
| Arrive (hasBody : bool)
| RequestStep (id : Z) (l : Resp.label)
| ShutdownDone (i : nat)
| RunPost (cerr : bool).

Definition step (l : label) (s : world) : option world :=
  match l with
  | OpListen allowed bound => Some (opHTTPListen allowed bound s).2
  | OpClose id cb => Some (opHTTPClose id cb s)
  | OpRespond id status hs => Some (opHTTPRespond id status hs s).2
  | OpWrite id c cb => Some (opHTTPWrite id c cb s).2
  | OpEnd id => Some (opHTTPEnd id s)
  | OpBodyResume id => Some (opHTTPBodyResume id s)
  | CloseHTTP => Some (closeHTTP s)
  | Arrive hasBody => Some (arrive hasBody s)
  | RequestStep id l => request_step id l s
  | ShutdownDone i => shutdown_done i s
  | RunPost cerr => run_post cerr s
  end.

(** The callback handles an operation is given. *)
Definition takes (l : label) : list Z :=
  match l with OpClose _ cb | OpWrite _ _ cb => option_list cb | _ => [] end.

(** Every operation is given fresh callback handles. *)
Inductive reach : list Z → world → Prop :=
| reach_init : reach [] newHTTPState
| reach_step issued s l s' :
    reach issued s → (∀ h, h ∈ takes l → h ∉ issued) → step l s = Some s' → reach (takes l ++ issued) s'.

End Run.
End Http.

Import Http.

(** ** What keeps the loop alive *)

Definition closing (p : post) : nat := match p with ServerClosed _ => 1 | _ => 0 end.

(** Servers that listen, Shutdown calls under way, and those whose end the loop
    has not seen. *)
Definition keepers (s : Http.world) : nat :=
  size (servers s) + length (shutting s) + sum_list_with closing (posts s).

(** The callbacks of chunks not yet carried out. *)
Definition waiting (w : Resp.world) : list Z := omap Resp.callback (flight (Resp.serving w) ++ Resp.queue (Resp.pend w)).

(** The callbacks a posted function fires. *)
Definition handles (p : post) : list Z :=
  match p with
  | OfRequest _ (Resp.Written cb) | Fire cb => [cb]
  | OfRequest _ _ => []
  | ServerClosed cb => option_list cb
  end.

Definition fired (es : list event) : list Z := omap (λ e, match e with Release h => Some h | Call _ => None end) es.
Definition pairs (hs : list Z) : list event := flat_map (λ h, [Call h; Release h]) hs.

(** How often a handle is held or was released. *)
Definition total (h : Z) (s : Http.world) : nat :=
  occ h (fired (log s)) + sum_list_with (λ p, occ h (handles p)) (posts s) +
  sum_list_with (λ cb, occ h (option_list cb)) (shutting s) + map_sum (λ w, occ h (waiting w)) (exchanges s).

Section Inv.
Context (flusher hook : bool).

Record sane (s : Http.world) : Prop := {
  s_pending : pending s = Z.of_nat (keepers s);
  s_bound : ∀ id, id ∈ servers s ∪ reqs s ∪ dom (exchanges s) → id <= nextID s;
  s_reqs : reqs s ⊆ dom (exchanges s);
  s_inv : map_Forall (λ _ w, inv flusher w) (exchanges s);
  s_log : log s = pairs (fired (log s))
}.

Lemma fired_pairs es cb : fired (es ++ pairs cb) = fired es ++ cb.
Proof. unfold fired, pairs. rewrite omap_app. f_equal. induction cb as [|h cb IH]; [done|]. simpl. by f_equal. Qed.

Lemma pairs_app hs ks : pairs (hs ++ ks) = pairs hs ++ pairs ks.
Proof. apply flat_map_app. Qed.

Lemma closing_fires cb : sum_list_with closing (map Fire cb) = 0%nat.
Proof. by induction cb. Qed.

Lemma closing_requests id ps : sum_list_with closing (map (OfRequest id) ps) = 0%nat.
Proof. by induction ps. Qed.

Lemma handles_fires cb : flat_map handles (map Fire cb) = cb.
Proof. induction cb; simpl; congruence. Qed.

Lemma handles_requests id ps : flat_map handles (map (OfRequest id) ps) = written ps.
Proof. unfold written. induction ps as [|p ps IH]; [done|]. simpl. rewrite IH. by destruct p. Qed.

(** *** One exchange *)

Lemma waiting_split w : inv flusher w → omap Resp.callback (Resp.accepted w) = written (Resp.posted w) ++ waiting w.
Proof. intros [Hs _ _ Hp _ _ _]. unfold waiting. by rewrite Hs, app_assoc, omap_app, Hp. Qed.

Lemma own_keeps l w w' :
  own l = true → Resp.step flusher hook l w = Some w' →
  Resp.accepted w' = Resp.accepted w ∧ ∃ ps, Resp.posted w' = Resp.posted w ++ ps.
Proof.
  assert (Hsame : ∀ v, Resp.accepted v = Resp.accepted w → Resp.posted v = Resp.posted w →
    Resp.accepted v = Resp.accepted w ∧ ∃ ps, Resp.posted v = Resp.posted w ++ ps).
  { intros v -> ->. split; [done|]. exists []. by rewrite app_nil_r. }
  destruct l as [c| | | | | | | | | |ch e]; simpl; intros Hl Hs; simplify_eq; try by apply Hsame.
  - unfold Resp.do_signal in Hs. destruct (Resp.signals w); simplify_eq. by apply Hsame.
  - unfold Resp.serve_step in Hs. destruct (Resp.serving w) as [| | |[|c q]| |cause|[|c q] note|d|]; simplify_eq;
      try (by apply Hsame); simpl; eauto.
    + destruct (Resp.hasBody w); [by apply Hsame|]. simpl. eauto.
    + destruct (Resp.pump w), d; simplify_eq; by apply Hsame.
  - unfold Resp.serve_wake in Hs. destruct (Resp.serving w); try done. destruct (Resp.wake _); simplify_eq. by apply Hsame.
  - unfold Resp.serve_ctx in Hs. destruct (Resp.serving w); try done. destruct (Resp.ctx _); simplify_eq. by apply Hsame.
  - unfold Resp.pump_resume in Hs. destruct (Resp.pump w); try done. destruct (Resp.resume _) as [[]|]; simplify_eq. by apply Hsame.
  - unfold Resp.pump_leave in Hs. destruct (Resp.pump w); try done. destruct (_ || _); simplify_eq. by apply Hsame.
  - unfold Resp.pump_read in Hs. destruct (Resp.pump w); try done. simplify_eq.
    split; [by destruct e|]. destruct e; simpl; rewrite <-?app_assoc; eauto.
Qed.

Lemma waiting_own l w w' :
  inv flusher w → own l = true → Resp.step flusher hook l w = Some w' →
  waiting w = written (drop (length (Resp.posted w)) (Resp.posted w')) ++ waiting w'.
Proof.
  intros Hi Hl Hs. destruct (own_keeps l w w' Hl Hs) as [Ha [ps Hps]].
  pose proof (waiting_split w Hi) as H1. pose proof (waiting_split w' (req_step_inv _ _ _ _ _ Hs Hi)) as H2.
  rewrite Ha, H1, Hps, written_app, <-app_assoc in H2. apply app_inv_head in H2. rewrite H2, Hps. by rewrite drop_app_length.
Qed.

Lemma http_waiting_enqueue c w :
  waiting (Resp.do_enqueue c w).2 =
    waiting w ++ (if (Resp.do_enqueue c w).1 then option_list (Resp.callback c) else []).
Proof.
  unfold waiting, Resp.do_enqueue, Resp.enqueue. destruct (_ || _); simpl; [by rewrite app_nil_r|].
  rewrite app_assoc, (omap_app _ _ [c]). simpl. by destruct (Resp.callback c).
Qed.

(** *** The invariant *)

Lemma init_sane : sane newHTTPState.
Proof. split; simpl; try done; set_solver. Qed.

(** Replacing the exchanges by others of the same ids. *)
Lemma exchanges_sane m s :
  sane s → dom m = dom (exchanges s) → map_Forall (λ _ w, inv flusher w) m → sane (with_exchanges m s).
Proof. intros [H1 H2 H3 H4 H5] Hd Hm. by split; simpl; rewrite ?Hd. Qed.

Lemma insert_sane id w w' s :
  sane s → exchanges s !! id = Some w → inv flusher w' → sane (with_exchanges (<[id := w']> (exchanges s)) s).
Proof.
  intros H Hw Hi. apply exchanges_sane; [done| |].
  - rewrite dom_insert_L. apply elem_of_dom_2 in Hw. set_solver.
  - apply map_Forall_insert_2; [done|apply (s_inv _ H)].
Qed.

Lemma post_sane ps s : sane s → sum_list_with closing ps = 0%nat → sane (Post ps s).
Proof.
  intros [H1 H2 H3 H4 H5] Hp. split; simpl; try done. unfold keepers in *. simpl. rewrite sum_list_with_app. lia.
Qed.

Lemma enqueue_sane id c s : sane s → sane (enqueue id c s).2.
Proof.
  intros H. unfold enqueue. destruct (exchanges s !! id) as [w|] eqn:E; [|done].
  destruct (Resp.do_enqueue c w) as [ok w'] eqn:Ew. eapply insert_sane; [done|done|].
  replace w' with (Resp.do_enqueue c w).2 by by rewrite Ew. apply req_enqueue_inv. by apply (s_inv _ H id).
Qed.

Lemma fire_sane cb s : sane s → sane (fire cb s).
Proof.
  intros [H1 H2 H3 H4 H5]. split; simpl; try done. change (flat_map _ _) with (pairs (option_list cb)).
  by rewrite fired_pairs, pairs_app, <-H5.
Qed.

Lemma free_sane hs s : sane s → sane (free_data hs s).
Proof. intros [H1 H2 H3 H4 H5]. by split. Qed.

Lemma fires_sane cb s : sane s → sane (fireWriteCallback cb s).
Proof. intros H. apply post_sane; [done|apply closing_fires]. Qed.

Lemma request_sane id l s s' : request_step flusher hook id l s = Some s' → sane s → sane s'.
Proof.
  unfold request_step. intros Hs H. destruct (own l) eqn:Hl; [|done].
  destruct (exchanges s !! id) as [w|] eqn:E; [|done]. simpl in Hs.
  destruct (Resp.step flusher hook l w) as [w'|] eqn:Ew; [|done]. simpl in Hs.
  set (s1 := Post (map (OfRequest id) (drop (length (Resp.posted w)) (Resp.posted w')))
    (with_exchanges (<[id := w']> (exchanges s)) s)) in *.
  assert (H1 : sane s1).
  { apply post_sane; [|apply closing_requests]. eapply insert_sane; [done|done|].
    eapply req_step_inv; [done|]. by apply (s_inv _ H id). }
  assert (Hreqs : reqs s1 = reqs s) by done. clearbody s1. destruct H1 as [G1 G2 G3 G4 G5].
  destruct (Resp.serving w'); simplify_eq; try by split. split; simpl; try done.
  - intros i Hi. apply G2. set_solver.
  - set_solver.
Qed.

Lemma close_sane s : sane s → sane (closeHTTP s).
Proof.
  intros [H1 H2 H3 H4 H5].
  assert (Hdom : dom (exchanges (closeHTTP s)) = dom (exchanges s)).
  { simpl. apply set_eq. intros i. rewrite !elem_of_dom, map_lookup_imap. by destruct (exchanges s !! i). }
  split; rewrite ?Hdom; try done.
  - unfold keepers in *. change (servers (closeHTTP s)) with (∅ : gset Z). rewrite size_empty. simpl. lia.
  - intros i Hi. apply H2. simpl in Hi. set_solver.
  - intros i w. simpl. rewrite map_lookup_imap. destruct (exchanges s !! i) as [v|] eqn:E; simpl; [|done]. intros [= <-].
    specialize (H4 i v E). case_bool_decide; [by apply finish_inv|done].
Qed.

Lemma run_sane cerr s s' : run_post cerr s = Some s' → sane s → sane s'.
Proof.
  unfold run_post. destruct (posts s) as [|p ps] eqn:E; [done|]. intros Hs [H1 H2 H3 H4 H5]. injection Hs as <-.
  assert (Hk : pending s = Z.of_nat (keepers (with_posts ps s) + closing p)).
  { rewrite H1. unfold keepers. simpl. rewrite E. simpl. f_equal. lia. }
  assert (Hsane : closing p = 0%nat → sane (with_posts ps s)).
  { intros Hc. split; simpl; try done. rewrite Hk. lia. }
  destruct p as [id [b|cb| |c|a]|cb|cb]; simpl in *; try by apply Hsane.
  - destruct cerr; [|by apply Hsane]. unfold fail. by apply enqueue_sane, enqueue_sane, enqueue_sane, Hsane.
  - by apply fire_sane, Hsane.
  - apply fire_sane. split; simpl; try done. unfold keepers in *. simpl in *. lia.
  - by apply fire_sane, Hsane.
Qed.

Lemma sane_step l s s' : step flusher hook l s = Some s' → sane s → sane s'.
Proof.
  intros Hs H. destruct l as [al bo|id cb|id st hs|id c cb|id|id| |b|id l|i|cerr]; simpl in Hs; simplify_eq.
  - unfold opHTTPListen. destruct al, bo; try done. destruct H as [H1 H2 H3 H4 H5]. split; simpl; try done.
    + unfold keepers in *. simpl. rewrite size_union, size_singleton; [lia|].
      intros i ->%elem_of_singleton Hi. specialize (H2 (nextID s + 1)). ospecialize (H2 _); [set_solver|lia].
    + intros i Hi. destruct (decide (i = nextID s + 1)) as [->|Hn]; [lia|]. assert (i <= nextID s); [apply H2; set_solver|lia].
  - unfold opHTTPClose. case_bool_decide as Hid; [|by apply fires_sane]. destruct H as [H1 H2 H3 H4 H5].
    split; simpl; try done; [|intros i Hi; apply H2; set_solver].
    unfold keepers in *. simpl. rewrite length_app, size_difference, size_singleton by set_solver. simpl.
    assert (size (servers s) ≠ 0%nat); [|lia]. apply size_non_empty_iff. set_solver.
  - unfold opHTTPRespond. case_bool_decide; [|done]. destruct hs; [|done]. by apply enqueue_sane.
  - unfold opHTTPWrite. pose proof (free_sane (chunk_handle c) s H) as Hf. case_bool_decide; [|by apply fires_sane].
    destruct (chunk_bytes c); [|by apply fires_sane]. simpl.
    destruct (enqueue id _ _) as [ok s1] eqn:E. simpl.
    assert (sane s1) by (change s1 with (ok, s1).2; rewrite <-E; by apply enqueue_sane).
    destruct ok; [done|by apply fires_sane].
  - unfold opHTTPEnd. case_bool_decide; [by apply enqueue_sane|done].
  - unfold opHTTPBodyResume. case_bool_decide; [|done]. apply exchanges_sane; [done|apply dom_alter_L|].
    intros i w. destruct (decide (i = id)) as [->|Hi].
    + rewrite lookup_alter_eq. destruct (exchanges s !! id) as [v|] eqn:E; [|done]. intros [= <-].
      apply resume_inv. by apply (s_inv _ H id).
    + rewrite lookup_alter_ne by done. apply (s_inv _ H).
  - by apply close_sane.
  - destruct H as [H1 H2 H3 H4 H5]. split; simpl; try done.
    + intros i Hi. rewrite dom_insert_L in Hi. destruct (decide (i = nextID s + 1)) as [->|Hn]; [lia|].
      assert (i <= nextID s); [apply H2; set_solver|lia].
    + rewrite dom_insert_L. set_solver.
    + apply map_Forall_insert_2; [apply req_start_inv|done].
  - by eapply request_sane.
  - unfold shutdown_done in Hs. destruct (shutting s !! i) as [cb|] eqn:E; simplify_eq/=. destruct H as [H1 H2 H3 H4 H5].
    split; simpl; try done. unfold keepers in *. simpl. rewrite sum_list_with_app, length_delete by by eexists. simpl.
    apply lookup_lt_Some in E. lia.
  - by eapply run_sane.
Qed.

Lemma reach_sane issued s : reach flusher hook issued s → sane s.
Proof. induction 1; [apply init_sane|by eapply sane_step]. Qed.

(** The pending count of the event loop is exact: one for each server that
    listens, each Shutdown under way and each whose end the loop has not yet
    seen, in every interleaving, teardown included. *)
Theorem http_pending_exact issued s (Hr : reach flusher hook issued s) :
  pending s = Z.of_nat (size (servers s) + length (shutting s) + sum_list_with closing (posts s)).
Proof. apply (s_pending _ (reach_sane _ _ Hr)). Qed.

(** ** The callbacks *)

Section Total.
Context (h : Z).

Lemma http_total_post ps s : total h (Post ps s) = (total h s + occ h (flat_map handles ps))%nat.
Proof. unfold total. simpl. rewrite sum_list_with_app, (sum_callbacks handles h ps). lia. Qed.

Lemma total_fires cb s : total h (fireWriteCallback cb s) = (total h s + occ h (option_list cb))%nat.
Proof. unfold fireWriteCallback. by rewrite http_total_post, handles_fires. Qed.

Lemma http_total_fire cb s : total h (fire cb s) = (total h s + occ h (option_list cb))%nat.
Proof. unfold total. simpl. change (flat_map _ _) with (pairs (option_list cb)). rewrite fired_pairs, occ_app. lia. Qed.

Lemma total_exchange id w w' s :
  exchanges s !! id = Some w →
  (total h (with_exchanges (<[id := w']> (exchanges s)) s) + occ h (waiting w) = total h s + occ h (waiting w'))%nat.
Proof.
  intros Hw. unfold total. simpl. pose proof (map_sum_insert (λ w, occ h (waiting w)) _ _ _ w' Hw). simpl in *. lia.
Qed.

Lemma total_enqueue id c s :
  total h (enqueue id c s).2 =
    (total h s + if (enqueue id c s).1 then occ h (option_list (Resp.callback c)) else 0)%nat.
Proof.
  unfold enqueue. destruct (exchanges s !! id) as [w|] eqn:E; [|simpl; lia].
  pose proof (http_waiting_enqueue c w) as Hw. destruct (Resp.do_enqueue c w) as [ok w']. simpl in *.
  pose proof (total_exchange id w w' s E) as Ht. rewrite Hw, occ_app in Ht. destruct ok; simpl in *; lia.
Qed.

(** An exchange that waits for the same callbacks as before. *)
Lemma total_same f id s :
  (∀ w, waiting (f w) = waiting w) → total h (with_exchanges (alter f id (exchanges s)) s) = total h s.
Proof. intros Hf. unfold total. simpl. rewrite map_sum_alter; [done|]. intros w _. by rewrite Hf. Qed.

Lemma http_total_close s : total h (closeHTTP s) = total h s.
Proof.
  unfold total. simpl. f_equal. apply (map_sum_imap (λ w, occ h (waiting w)) (exchanges s)
    (λ id w, if bool_decide (id ∈ reqs s) then Resp.finish w else w)). intros i w. by case_bool_decide.
Qed.

Lemma total_request id l s s' : sane s → request_step flusher hook id l s = Some s' → total h s' = total h s.
Proof.
  unfold request_step. intros H Hs. destruct (own l) eqn:Hl; [|done].
  destruct (exchanges s !! id) as [w|] eqn:E; [|done]. simpl in Hs.
  destruct (Resp.step flusher hook l w) as [w'|] eqn:Ew; [|done]. simpl in Hs.
  set (s1 := Post (map (OfRequest id) (drop (length (Resp.posted w)) (Resp.posted w')))
    (with_exchanges (<[id := w']> (exchanges s)) s)) in *.
  assert (Ht : total h s1 = total h s).
  { unfold s1. rewrite http_total_post, handles_requests. pose proof (total_exchange id w w' s E) as Ht.
    rewrite (waiting_own l w w'), occ_app in Ht; [lia|by apply (s_inv _ H id)|done|done]. }
  rewrite <-Ht. clearbody s1. by destruct (Resp.serving w'); simplify_eq.
Qed.

Lemma total_run cerr s s' : run_post cerr s = Some s' → total h s' = total h s.
Proof.
  unfold run_post. destruct (posts s) as [|p ps] eqn:E; [done|]. intros Hs. injection Hs as <-.
  assert (Ht : total h s = (total h (with_posts ps s) + occ h (handles p))%nat).
  { unfold total. simpl. rewrite E. simpl. lia. }
  rewrite Ht. destruct p as [id [b|cb| |c|a]|cb|cb]; simpl handles; try (simpl; lia).
  - destruct cerr; [|simpl; lia]. unfold fail. rewrite !total_enqueue. simpl. repeat case_match; simpl; lia.
  - apply (http_total_fire (Some cb)).
  - rewrite http_total_fire. done.
  - apply (http_total_fire (Some cb)).
Qed.

Lemma http_total_step l s s' : sane s → step flusher hook l s = Some s' → total h s' = (total h s + occ h (takes l))%nat.
Proof.
  intros H Hs. destruct l as [al bo|id cb|id st hs|id c cb|id|id| |b|id l|i|cerr]; simpl in Hs; simplify_eq; simpl takes.
  - unfold opHTTPListen. destruct al, bo; simpl; unfold total; simpl; lia.
  - unfold opHTTPClose. case_bool_decide.
    + unfold total. simpl. rewrite sum_list_with_app. simpl. lia.
    + by rewrite http_total_post, handles_fires.
  - unfold opHTTPRespond. case_bool_decide; [|simpl; lia]. destruct hs; [|simpl; lia]. simpl.
    rewrite total_enqueue. simpl. case_match; simpl; lia.
  - unfold opHTTPWrite. assert (Hd : ∀ hs, total h (free_data hs s) = total h s) by done.
    case_bool_decide; [|simpl; by rewrite total_fires, Hd]. destruct (chunk_bytes c) as [d|]; [|simpl; by rewrite total_fires, Hd].
    pose proof (total_enqueue id (Resp.CmdWrite d cb) (free_data (chunk_handle c) s)) as Ht.
    destruct (enqueue id _ _) as [ok s1]. simpl in *. destruct ok; rewrite ?total_fires, Ht, Hd; lia.
  - unfold opHTTPEnd. case_bool_decide; [|simpl; lia]. rewrite total_enqueue. simpl. case_match; simpl; lia.
  - unfold opHTTPBodyResume. case_bool_decide; [|simpl; lia]. rewrite total_same; [simpl; lia|].
    intros w. unfold Resp.do_resume. by destruct (Resp.resume _).
  - rewrite http_total_close. simpl. lia.
  - unfold total. simpl. rewrite map_sum_new; [simpl; lia|]. apply eq_None_not_Some. intros [w Hw].
    apply elem_of_dom_2 in Hw. pose proof (s_bound _ H (nextID s + 1)) as Hb. ospecialize (Hb _); [set_solver|lia].
  - simpl. rewrite (total_request id l s s' H Hs). lia.
  - unfold shutdown_done in Hs. destruct (shutting s !! i) as [cb|] eqn:E; simplify_eq/=. unfold total. simpl.
    rewrite sum_list_with_app. simpl. pose proof (sum_delete (λ cb, occ h (option_list cb)) _ _ _ E). simpl in *. lia.
  - simpl. rewrite (total_run cerr s s' Hs). lia.
Qed.

Lemma http_reach_total issued s : reach flusher hook issued s → total h s = occ h issued.
Proof.
  induction 1 as [|issued s l s' Hr IH Hf Hs]; [done|].
  rewrite (http_total_step l s s' (reach_sane _ _ Hr) Hs), occ_app, IH. lia.
Qed.

End Total.

Lemma http_reach_nodup issued s : reach flusher hook issued s → NoDup issued.
Proof.
  induction 1 as [|issued s l s' Hr IH Hf Hs]; [apply NoDup_nil_2|].
  apply NoDup_app. split_and!; [|done|done]. destruct l; simpl; try apply NoDup_nil_2.
  all: destruct (_ : option Z); [apply NoDup_singleton|apply NoDup_nil_2].
Qed.

(** Each callback a guest passes to http_write or http_close is called once
    and released once, in that order and with nothing in between, or is still
    held by exactly one of a posted function, a Shutdown under way and a chunk of
    an exchange. *)
Theorem http_callbacks_once issued s (Hr : reach flusher hook issued s) :
  ∃ hs, log s = pairs hs ∧ NoDup hs ∧
    hs ++ flat_map handles (posts s) ++ flat_map option_list (shutting s) ++
      flat_map (λ e, waiting e.2) (map_to_list (exchanges s)) ≡ₚ issued.
Proof.
  exists (fired (log s)). pose proof (s_log _ (reach_sane _ _ Hr)) as Hl.
  assert (Hp : fired (log s) ++ flat_map handles (posts s) ++ flat_map option_list (shutting s) ++
      flat_map (λ e, waiting e.2) (map_to_list (exchanges s)) ≡ₚ issued).
  { apply occ_perm. intros h. rewrite <-(http_reach_total h _ _ Hr). unfold total, map_sum. rewrite !occ_app, !sum_callbacks.
    lia. }
  split; [done|]. split; [|done]. pose proof (http_reach_nodup _ _ Hr) as Hn. rewrite <-Hp in Hn. by apply NoDup_app in Hn as [? _].
Qed.

End Inv.

(** ** A server, one exchange, and a graceful close *)

Fixpoint run (ls : list label) (s : Http.world) : option Http.world :=
  match ls with [] => Some s | l :: ls' => s' ← step true true l s; run ls' s' end.

Lemma run_reach ls issued s s' :
  reach true true issued s → NoDup (flat_map takes ls ++ issued) → run ls s = Some s' →
  ∃ issued', issued' ≡ₚ flat_map takes ls ++ issued ∧ reach true true issued' s'.
Proof.
  revert issued s. induction ls as [|l ls IH]; simpl; intros issued s Hr Hn Hs; [simplify_eq; by exists issued|].
  destruct (step true true l s) as [s1|] eqn:E; simplify_eq/=.
  destruct (IH (takes l ++ issued) s1) as (issued' & Hp & H').
  - eapply reach_step; [done| |done]. intros k Hk Hk'. rewrite <-app_assoc in Hn. apply NoDup_app in Hn as (_ & Hn & _).
    apply (Hn k Hk). apply elem_of_app. by right.
  - rewrite app_assoc, (Permutation_app_comm (flat_map takes ls)). done.
  - done.
  - exists issued'. split; [|done]. rewrite Hp, !app_assoc, (Permutation_app_comm (flat_map takes ls)). done.
Qed.

Abbreviation serving_one :=
  [OpListen true true; Arrive false; RequestStep 2 Resp.Serve; RequestStep 2 Resp.Serve; RunPost false; RunPost false;
   OpRespond 2 204 (Some []); OpWrite 2 (ByText (lit "hi")) (Some 5); OpEnd 2; OpClose 1 (Some 6); OpWrite 2 (ByHandle 9 None) (Some 7)].
Abbreviation finishing :=
  [RequestStep 2 Resp.Serve; RequestStep 2 Resp.Serve; RequestStep 2 Resp.Serve; RequestStep 2 Resp.Serve;
   RequestStep 2 Resp.Serve; RequestStep 2 Resp.Serve; RequestStep 2 Resp.Serve; ShutdownDone 0; RunPost false; RunPost false; RunPost false].
Abbreviation demo ls := (default newHTTPState (run ls newHTTPState)).

Lemma http_demo_reach ls :
  NoDup (flat_map takes ls ++ []) → run ls newHTTPState = Some (demo ls) →
  ∃ issued, issued ≡ₚ flat_map takes ls ++ [] ∧ reach true true issued (demo ls).
Proof. intros Hn Hs. eapply run_reach; [apply reach_init|done|done]. Qed.

Lemma http_pending_exact_witness :
  let s := demo serving_one in pending s = 1 ∧ servers s = ∅ ∧
  pending s = Z.of_nat (size (servers s) + length (shutting s) + sum_list_with closing (posts s)).
Proof.
  intros s. split; [vm_compute; reflexivity|]. split; [vm_compute; reflexivity|].
  destruct (http_demo_reach serving_one) as (issued & _ & Hr); [by_decide|vm_compute; reflexivity|].
  apply (http_pending_exact true true issued s Hr).
Defined.

Lemma http_callbacks_once_witness :
  let s := demo (serving_one ++ finishing) in
  log s = pairs [7; 5; 6] ∧ pending s = 0 ∧ reqs s = ∅ ∧ ∃ hs, log s = pairs hs ∧ NoDup hs.
Proof.
  intros s. split; [vm_compute; reflexivity|]. split; [vm_compute; reflexivity|]. split; [vm_compute; reflexivity|].
  destruct (http_demo_reach (serving_one ++ finishing)) as (issued & _ & Hr); [by_decide|vm_compute; reflexivity|].
  destruct (http_callbacks_once true true issued s Hr) as (hs & H1 & H2 & _). exists hs. split; [exact H1|exact H2].
Defined.
