(* ===== verification/NodeWorkers.v ===== *)
(** node:worker_threads, compat/nodejs/worker.go: the worker manager.

    A [world] is the manager's tables, the loop's pending count and posted
    functions, the places of the loop goroutine (inside opWorkerSpawn or not) and
    of the pump goroutine, the messages on their way from the agents, and a log
    of the events emitted on Worker instances and of the instances released.
    What agents do is a label: post a message, or end. *)

From S2P Require Import Prelude.

(** ** The source a worker runs *)

Definition trim_blank : bytes → bytes :=
  fix trim s := match s with
                | c :: s' => if (c =? 32) || (c =? 9) || (c =? 13) || (c =? 10) then trim s' else s
                | [] => []
                end.

Definition double_quoted : bytes := [34] ++ lit "use strict" ++ [34].
Definition single_quoted : bytes := lit "'use strict'".

Definition hasUseStrictPrologue (src : bytes) : bool :=
  let s := trim_blank src in has_prefix s double_quoted || has_prefix s single_quoted.

Definition strip_shebang (src : bytes) : bytes :=
  if has_prefix src (lit "#!") then
    match index_byte src ch_nl with Some i => drop (S i) src | None => [] end
  else src.

Definition wrapWorkerSource (source : bytes) : bytes :=
  let src := strip_shebang source in
  let prefix := if hasUseStrictPrologue src then double_quoted ++ lit "; " else [] in
  prefix ++ lit "try {" ++ src ++ [ch_nl] ++ lit "} catch (__wt_e) { __wt_reportError(__wt_e); }" ++ [ch_nl] ++
    lit ";globalThis.__wt_idleCheck && globalThis.__wt_idleCheck();".

Module Workers.

(** A message of a worker, by what dispatch finds in it; an exit code that is an
    object is [None]. *)
Inductive msg :=
| Console (stderr : bool) (text : bytes)
| Exiting (code : option Z)
| Failed (m : Z)
| Data (m : Z)
| Other (m : Z).

Inductive event := Online | Message (m : Z) | Error (m : Z) | Exit (code : Z).

(** What happens to a Worker instance. *)
Inductive entry := Emit (inst : Z) (e : event) | Release (inst : Z).

#[export] Instance event_eq : EqDecision event.
Proof. solve_decision. Defined.
#[export] Instance entry_eq : EqDecision entry.
Proof. solve_decision. Defined.

(** A function posted to the loop. *)
Inductive post :=
| PostOnline (inst : Z)
| PostDispatch (id inst : Z) (m : msg)
| PostReap (id : Z).

(** The loop goroutine, in the course of opWorkerSpawn. *)
Inductive lpc := Free_ | Spawned (id inst : Z) | Registered (id inst : Z) | Sent (id inst : Z).

(** The pump: not started, at the top, with a message, with its instance, before
    reapDead, posting what reapDead found, gone. *)
Inductive ppc :=
| Unstarted
| Top
| Got (id : Z) (m : msg)
| Found (id inst : Z) (m : msg)
| Scanning
| Posting (ids : list Z)
| Gone.

Record world := MkWorld {
  nextTID : Z;
  insts : gmap Z Z;                (** agent id → instance *)
  deadSeen : gmap Z nat;
  reaping : gset Z;
  stop : bool;
  loop : lpc;
  pump : ppc;
  nextAgent : Z;
  alive : gset Z;                  (** agents that have not ended *)
  started : gset Z;                (** agents that have received their init *)
  inbox : list (Z * msg);          (** worker to main, oldest first *)
  posts : list post;
  pending : Z;
  log : list entry;
  console : list (bool * bytes)
}.

Definition newWorkerManager : world :=
  MkWorld 1 ∅ ∅ ∅ false Free_ Unstarted 0 ∅ ∅ [] [] 0 [] [].

Definition tables (i : gmap Z Z) (d : gmap Z nat) (r : gset Z) (w : world) : world :=
  MkWorld (nextTID w) i d r (stop w) (loop w) (pump w) (nextAgent w) (alive w) (started w) (inbox w) (posts w)
    (pending w) (log w) (console w).
Definition set_loop (l : lpc) (w : world) : world :=
  MkWorld (nextTID w) (insts w) (deadSeen w) (reaping w) (stop w) l (pump w) (nextAgent w) (alive w) (started w)
    (inbox w) (posts w) (pending w) (log w) (console w).
Definition set_pump (p : ppc) (w : world) : world :=
  MkWorld (nextTID w) (insts w) (deadSeen w) (reaping w) (stop w) (loop w) p (nextAgent w) (alive w) (started w)
    (inbox w) (posts w) (pending w) (log w) (console w).
Definition agents (a s : gset Z) (w : world) : world :=
  MkWorld (nextTID w) (insts w) (deadSeen w) (reaping w) (stop w) (loop w) (pump w) (nextAgent w) a s (inbox w)
    (posts w) (pending w) (log w) (console w).
Definition set_inbox (q : list (Z * msg)) (w : world) : world :=
  MkWorld (nextTID w) (insts w) (deadSeen w) (reaping w) (stop w) (loop w) (pump w) (nextAgent w) (alive w) (started w)
    q (posts w) (pending w) (log w) (console w).
Definition set_posts (ps : list post) (w : world) : world :=
  MkWorld (nextTID w) (insts w) (deadSeen w) (reaping w) (stop w) (loop w) (pump w) (nextAgent w) (alive w) (started w)
    (inbox w) ps (pending w) (log w) (console w).
Definition Post (p : post) (w : world) : world := set_posts (posts w ++ [p]) w.
Definition add_pending (n : Z) (w : world) : world :=
  MkWorld (nextTID w) (insts w) (deadSeen w) (reaping w) (stop w) (loop w) (pump w) (nextAgent w) (alive w) (started w)
    (inbox w) (posts w) (pending w + n) (log w) (console w).
Definition add_log (es : list entry) (w : world) : world :=
  MkWorld (nextTID w) (insts w) (deadSeen w) (reaping w) (stop w) (loop w) (pump w) (nextAgent w) (alive w) (started w)
    (inbox w) (posts w) (pending w) (log w ++ es) (console w).
Definition print (err : bool) (text : bytes) (w : world) : world :=
  MkWorld (nextTID w) (insts w) (deadSeen w) (reaping w) (stop w) (loop w) (pump w) (nextAgent w) (alive w) (started w)
    (inbox w) (posts w) (pending w) (log w) (console w ++ [(err, text)]).

(** *** opWorkerSpawn, in its sections *)

(** The first spawn starts the pump. *)
Definition start_pump (p : ppc) : ppc := match p with Unstarted => Top | _ => p end.

(** agents.Spawn, which fails when [ok] is false. *)
Definition spawn_agent (inst : Z) (ok : bool) (w : world) : option world :=
  match loop w with
  | Free_ =>
      let id := nextAgent w + 1 in
      let w1 := MkWorld (nextTID w + 1) (insts w) (deadSeen w) (reaping w) (stop w) (loop w) (pump w)
                  (if ok then id else nextAgent w) (if ok then {[id]} ∪ alive w else alive w) (started w) (inbox w)
                  (posts w) (pending w) (log w) (console w) in
      Some (if ok then set_loop (Spawned id inst) w1 else add_log [Release inst] w1)
  | _ => None
  end.

Definition spawn_begin (inst : Z) (ok : bool) (w : world) : option world :=
  spawn_agent inst ok (set_pump (start_pump (pump w)) w).

(** NewObject, then the registration. *)
Definition spawn_register (ok : bool) (w : world) : option world :=
  match loop w with
  | Spawned id inst =>
      Some (if ok then set_loop (Registered id inst) (tables (<[id := inst]> (insts w)) (deadSeen w) (reaping w) w)
            else add_log [Release inst] (set_loop Free_ w))
  | _ => None
  end.

(** The handshake; on an error the registration is taken back. *)
Definition spawn_send (ok : bool) (w : world) : option world :=
  match loop w with
  | Registered id inst =>
      Some (if ok then set_loop (Sent id inst) (agents (alive w) ({[id]} ∪ started w) w)
            else add_log [Release inst] (set_loop Free_ (tables (delete id (insts w)) (deadSeen w) (reaping w) w)))
  | _ => None
  end.

Definition spawn_end (w : world) : option world :=
  match loop w with
  | Sent id inst => Some (Post (PostOnline inst) (add_pending 1 (set_loop Free_ w)))
  | _ => None
  end.

(** *** The pump *)

(** agents.Receive; [ok] is false when the message cannot be read. *)
Definition pump_receive (ok : bool) (w : world) : option world :=
  match pump w with
  | Top =>
      if stop w then Some (set_pump Gone w)
      else
        match inbox w with
        | (id, m) :: q => Some (set_pump (if ok then Got id m else Scanning) (set_inbox q w))
        | [] => Some (set_pump Scanning w)
        end
  | _ => None
  end.

Definition pump_lookup (w : world) : option world :=
  match pump w with
  | Got id m => Some (set_pump (match insts w !! id with Some inst => Found id inst m | None => Top end) w)
  | _ => None
  end.

Definition pump_post (w : world) : option world :=
  match pump w with
  | Found id inst m => Some (Post (PostDispatch id inst m) (set_pump Top w))
  | _ => None
  end.

(** One id of the loop of reapDead. *)
Definition scan_one (w : world) (id : Z) (acc : gmap Z nat * gset Z * list Z) : gmap Z nat * gset Z * list Z :=
  let '(d, r, l) := acc in
  if bool_decide (id ∈ alive w) then (delete id d, r, l)
  else
    let n := S (default 0%nat (d !! id)) in
    if (2 <=? n)%nat && negb (bool_decide (id ∈ r)) then (<[id := n]> d, {[id]} ∪ r, l ++ [id])
    else (<[id := n]> d, r, l).

(** reapDead's locked section; [order] is the map's iteration order. *)
Definition pump_scan (order : list Z) (w : world) : option world :=
  match pump w with
  | Scanning =>
      if bool_decide (order ≡ₚ (map_to_list (insts w)).*1) then
        let '(d, r, l) := fold_left (λ acc id, scan_one w id acc) order (deadSeen w, reaping w, []) in
        Some (set_pump (Posting l) (tables (insts w) d r w))
      else None
  | _ => None
  end.

(** Posting the crash exits, then the sleep. *)
Definition pump_reap (w : world) : option world :=
  match pump w with
  | Posting (id :: ids) => Some (Post (PostReap id) (set_pump (Posting ids) w))
  | Posting [] => Some (set_pump (if stop w then Gone else Top) w)
  | _ => None
  end.

(** *** The loop *)

Definition forget (id : Z) (w : world) : world :=
  tables (delete id (insts w)) (delete id (deadSeen w)) (reaping w ∖ {[id]}) w.

(** 'exit', the release of the instance, and of the loop. *)
Definition goodbye (inst code : Z) (w : world) : world := add_pending (-1) (add_log [Emit inst (Exit code); Release inst] w).

Definition dispatch (id inst : Z) (m : msg) (w : world) : world :=
  match m with
  | Console err text => print err text w
  | Exiting code =>
      let still := bool_decide (insts w !! id = Some inst) in
      let w1 := forget id w in
      if still then goodbye inst (default 0 code) w1 else w1
  | Failed v => add_log [Emit inst (Error v)] w
  | Data v | Other v => add_log [Emit inst (Message v)] w
  end.

Definition run_post (w : world) : option world :=
  match loop w, posts w with
  | Free_, p :: ps =>
      let w := set_posts ps w in
      Some (match p with
            | PostOnline inst => add_log [Emit inst Online] w
            | PostDispatch id inst m => dispatch id inst m w
            | PostReap id =>
                match insts w !! id with
                | Some inst => goodbye inst 1 (forget id w)
                | None => forget id w
                end
            end)
  | _, _ => None
  end.

(** close: the stop channel, then (the pump joined, or two seconds later) the
    instances that are left. *)
Definition close_stop (w : world) : option world :=
  match loop w with
  | Free_ => Some (MkWorld (nextTID w) (insts w) (deadSeen w) (reaping w) true (loop w) (pump w) (nextAgent w) (alive w)
                     (started w) (inbox w) (posts w) (pending w) (log w) (console w))
  | _ => None
  end.

Definition close_free (w : world) : option world :=
  match loop w with
  | Free_ => if stop w then Some (add_log (map Release (map_to_list (insts w)).*2) (tables ∅ (deadSeen w) (reaping w) w)) else None
  | _ => None
  end.

(** *** Agents *)

Definition agent_post (id : Z) (m : msg) (w : world) : option world :=
  if bool_decide (id ∈ alive w ∧ id ∈ started w) then Some (set_inbox (inbox w ++ [(id, m)]) w) else None.

Definition agent_ends (id : Z) (w : world) : option world := Some (agents (alive w ∖ {[id]}) (started w) w).

Inductive label :=
| SpawnBegin (inst : Z) (ok : bool)
| SpawnRegister (ok : bool)
| SpawnSend (ok : bool)
| SpawnEnd
| Receive (ok : bool)
| Lookup
| PumpPost
| Scan (order : list Z)
| Reap
| RunPost
| CloseStop
| CloseFree
| AgentPost (id : Z) (m : msg)
| AgentEnds (id : Z).

Definition step (l : label) (w : world) : option world :=
  match l with
  | SpawnBegin inst ok => spawn_begin inst ok w
  | SpawnRegister ok => spawn_register ok w
  | SpawnSend ok => spawn_send ok w
  | SpawnEnd => spawn_end w
  | Receive ok => pump_receive ok w
  | Lookup => pump_lookup w
  | PumpPost => pump_post w
  | Scan order => pump_scan order w
  | Reap => pump_reap w
  | RunPost => run_post w
  | CloseStop => close_stop w
  | CloseFree => close_free w
  | AgentPost id m => agent_post id m w
  | AgentEnds id => agent_ends id w
  end.

Fixpoint steps (ls : list label) (w : world) : option world :=
  match ls with [] => Some w | l :: ls' => w' ← step l w; steps ls' w' end.

End Workers.

Import Workers.

(** ** Histories

    What js/worker.js and the engine keep to: every spawn is given an instance of
    its own, an agent posts nothing after its farewell, and received messages can
    be read. [said] holds the farewells posted, [owner] the instance of every
    agent registered so far, [used] the instances given to a spawn. The manager
    has not been closed. *)
Definition disciplined (said : gmap Z Z) (used : gset Z) (l : label) : Prop :=
  match l with
  | SpawnBegin inst _ => inst ∉ used
  | Receive ok => ok = true
  | AgentPost id _ => said !! id = None
  | CloseFree => False
  | _ => True
  end.

Definition says (l : label) (said : gmap Z Z) : gmap Z Z :=
  match l with AgentPost id (Exiting code) => <[id := default 0 code]> said | _ => said end.

Definition owns (l : label) (w : Workers.world) (owner : gmap Z Z) : gmap Z Z :=
  match l, loop w with SpawnRegister true, Spawned id inst => <[id := inst]> owner | _, _ => owner end.

Definition uses (l : label) (used : gset Z) : gset Z :=
  match l with SpawnBegin inst _ => {[inst]} ∪ used | _ => used end.

Inductive reach : gmap Z Z → gmap Z Z → gset Z → Workers.world → Prop :=
| reach_init : reach ∅ ∅ ∅ newWorkerManager
| reach_step said owner used w l w' :
    reach said owner used w → disciplined said used l → step l w = Some w' →
    reach (says l said) (owns l w owner) (uses l used) w'.

(** ** The messages on their way *)

Definition of_post (id : Z) (p : post) : list msg :=
  match p with PostDispatch i _ m => if decide (i = id) then [m] else [] | _ => [] end.
Definition in_hand (id : Z) (p : ppc) : list msg :=
  match p with Got i m | Found i _ m => if decide (i = id) then [m] else [] | _ => [] end.
Definition in_box (id : Z) (e : Z * msg) : list msg := if decide (e.1 = id) then [e.2] else [].

Definition coming (w : Workers.world) (id : Z) : list msg := in_hand id (pump w) ++ flat_map (in_box id) (inbox w).

(** In the order in which the loop will see them. *)
Definition pipe (w : Workers.world) (id : Z) : list msg := flat_map (of_post id) (posts w) ++ coming w id.

Definition is_exit (m : msg) : bool := match m with Exiting _ => true | _ => false end.

Definition freed (es : list entry) : list Z := omap (λ e, match e with Release i => Some i | _ => None end) es.

(** The instance of a spawn that is not registered yet. *)
Definition held (l : lpc) : list Z := match l with Spawned _ inst => [inst] | _ => [] end.
(** Registered, and not yet counted by the loop. *)
Definition uncounted (l : lpc) : nat := match l with Registered _ _ | Sent _ _ => 1 | _ => 0 end.

Record inv (said owner : gmap Z Z) (used : gset Z) (w : Workers.world) : Prop := {
  i_ids : ∀ id, id ∈ dom owner ∪ alive w ∪ started w ∪ dom (deadSeen w) ∪ dom said → id <= nextAgent w;
  i_loop : match loop w with
           | Free_ => True
           | Spawned id inst => id = nextAgent w ∧ (id ∉ dom owner) ∧ (id ∉ started w) ∧ inst ∈ used
           | Registered id inst => insts w !! id = Some inst ∧ id ∉ started w
           | Sent id inst => insts w !! id = Some inst
           end;
  i_owner : insts w ⊆ owner;
  i_inj : ∀ i j inst, owner !! i = Some inst → owner !! j = Some inst → i = j;
  i_used : ∀ id inst, owner !! id = Some inst → inst ∈ used ∧ inst ∉ held (loop w);
  i_freed : NoDup (freed (log w)) ∧ ∀ inst, inst ∈ freed (log w) →
    inst ∈ used ∧ (inst ∉ held (loop w)) ∧ ∀ id, insts w !! id ≠ Some inst;
  i_started : ∀ id, id ∈ started w → id ∈ alive w → said !! id = None → id ∈ dom (insts w);
  i_gone : ∀ id, insts w !! id = None ∨ (id ∉ started w) → pipe w id = [];
  i_said : ∀ id, match said !! id with
                 | None => Forall (λ m, is_exit m = false) (pipe w id)
                 | Some c => id ∈ dom (insts w) → ∃ pre code, pipe w id = pre ++ [Exiting code] ∧ default 0 code = c ∧
                               Forall (λ m, is_exit m = false) pre
                 end;
  i_route : ∀ id inst m, (PostDispatch id inst m ∈ posts w ∨ pump w = Found id inst m) → owner !! id = Some inst;
  i_dead : ∀ id n, deadSeen w !! id = Some n → (id ∉ alive w) ∧ (pump w = Scanning → coming w id = []);
  i_reap : ∀ id, ((∃ l, pump w = Posting l ∧ id ∈ l) ∨ PostReap id ∈ posts w → id <= nextAgent w ∧ (id ∉ alive w) ∧ coming w id = []) ∧
             ∀ xs ys, posts w = xs ++ PostReap id :: ys → flat_map (of_post id) ys = [];
  i_dom : dom said ⊆ started w;
  i_pending : pending w + Z.of_nat (uncounted (loop w)) = Z.of_nat (size (insts w))
}.

Lemma workers_init : inv ∅ ∅ ∅ newWorkerManager.
Proof.
  split; simpl; try done; try set_solver.
  - split; [apply NoDup_nil_2|by intros ? ?%not_elem_of_nil].
  - intros id. rewrite lookup_empty. by apply Forall_nil.
  - intros id. split; [intros [(l & ? & _)|Hin]; [done|by apply not_elem_of_nil in Hin]|by intros []].
Qed.

#[local] Arguments Nat.leb : simpl never.

Section Steps.
Context (said owner : gmap Z Z) (used : gset Z) (w : Workers.world) (H : inv said owner used w).

Lemma fresh_agent : nextAgent w + 1 ∉ dom owner ∪ alive w ∪ started w ∪ dom (deadSeen w) ∪ dom said.
Proof. intros Hi. apply (i_ids _ _ _ _ H) in Hi. lia. Qed.

Lemma inst_owner id inst : insts w !! id = Some inst → owner !! id = Some inst.
Proof. intros Hi. by eapply lookup_weaken; [|apply (i_owner _ _ _ _ H)]. Qed.

Lemma freed_snoc es inst : freed (es ++ [Release inst]) = freed es ++ [inst].
Proof. unfold freed. by rewrite omap_app. Qed.

Lemma nodup_snoc (l : list Z) x : NoDup l → x ∉ l → NoDup (l ++ [x]).
Proof. intros Hl Hx. apply NoDup_app. split_and!; [done| |apply NoDup_singleton]. by intros y Hy ->%list_elem_of_singleton. Qed.

Lemma spawn_agent_inv inst ok w' :
  inst ∉ used → spawn_agent inst ok w = Some w' → inv said owner ({[inst]} ∪ used) w'.
Proof.
  intros Hu. pose proof fresh_agent as Hf. unfold spawn_agent. destruct (loop w) eqn:El; try done. intros [= <-].
  destruct H as [H1 H2 H3 H4 H5 [H6 H6'] H7 H8 H9 H10 H11 H12 HD H13]. rewrite El in *. simpl in *.
  assert (Hin : ∀ id i, owner !! id = Some i → i ∈ {[inst]} ∪ used ∧ i ≠ inst).
  { intros id i Hi. destruct (H5 _ _ Hi) as [? _]. set_solver. }
  destruct ok; split; simpl; rewrite ?El; try done.
  - intros id Hid. destruct (decide (id = nextAgent w + 1)) as [->|Hn]; [lia|].
    assert (id <= nextAgent w); [apply H1; set_solver|lia].
  - set_solver.
  - intros id i Hi. destruct (Hin _ _ Hi). split; [done|]. by intros ->%list_elem_of_singleton.
  - split; [done|]. intros i Hi. destruct (H6' i Hi) as (? & _ & ?). split_and!; [set_solver| |done].
    intros ->%list_elem_of_singleton. done.
  - intros id Hs Ha Hsaid. apply H7; [done| |done]. set_solver.
  - intros id n Hd. destruct (H11 id n Hd) as [Ha Hc]. split; [|done]. apply elem_of_dom_2 in Hd. set_solver.
  - intros id. destruct (H12 id) as [Ha Hc]. split; [|done]. intros Hr. destruct (Ha Hr) as (Hle & Hal & Hco). split_and!; [lia| |done]. intros [->%elem_of_singleton|?]%elem_of_union; [lia|done].
  - intros id i Hi. destruct (Hin _ _ Hi). split; [done|]. apply not_elem_of_nil.
  - rewrite freed_snoc. split; [apply nodup_snoc; [done|]; intros ?%H6'; by destruct_and?|].
    intros i Hi. apply elem_of_app in Hi as [Hi|Hi]; [|apply list_elem_of_singleton in Hi as ->].
    + destruct (H6' i Hi) as (? & _ & ?). split_and!; [set_solver|apply not_elem_of_nil|done].
    + split_and!; [set_solver|apply not_elem_of_nil|]. intros id Hi%inst_owner. by destruct (Hin _ _ Hi).
Qed.

Lemma start_pump_inv : inv said owner used (set_pump (start_pump (pump w)) w).
Proof.
  destruct (pump w) eqn:Ep; try (destruct w; simpl in *; by subst).
  pose proof H as [H1 H2 H3 H4 H5 H6 H7 H8 H9 H10 H11 H12 HD H13]. unfold pipe, coming in *. rewrite Ep in *. simpl in *.
  split; unfold pipe, coming; simpl; try done.
  - intros id inst m [Hin|?]; [by eapply H10; left|done].
  - intros id n Hd. by destruct (H11 id n Hd).
  - intros id. destruct (H12 id) as [Ha Hb]. split; [|done]. intros [(l & ? & _)|Hin]; [done|]. by apply Ha; right.
Qed.

(** An instance given back by a spawn that fails. *)
Lemma give_back inst w' :
  inst ∈ used → (inst ∉ freed (log w)) → (∀ id, insts w' !! id ≠ Some inst) → insts w' ⊆ insts w →
  log w' = log w ++ [Release inst] → held (loop w') = [] →
  NoDup (freed (log w')) ∧ ∀ i, i ∈ freed (log w') → i ∈ used ∧ (i ∉ held (loop w')) ∧ ∀ id, insts w' !! id ≠ Some i.
Proof.
  intros Hu Hf Hi Hsub -> ->. destruct (i_freed _ _ _ _ H) as [H6 H6']. rewrite freed_snoc. split; [by apply nodup_snoc|].
  intros i Hin. apply elem_of_app in Hin as [Hin|Hin]; [|apply list_elem_of_singleton in Hin as ->].
  - destruct (H6' i Hin) as (? & _ & Hn). split_and!; [done|apply not_elem_of_nil|]. intros id Hid.
    apply (Hn id). by eapply lookup_weaken.
  - split_and!; [done|apply not_elem_of_nil|done].
Qed.

Lemma register_inv ok w' :
  spawn_register ok w = Some w' → inv said (owns (SpawnRegister ok) w owner) used w'.
Proof.
  unfold spawn_register, owns. destruct (loop w) as [|id inst| |] eqn:El; try done. intros [= <-].
  pose proof H as [H1 H2 H3 H4 H5 [H6 H6'] H7 H8 H9 H10 H11 H12 HD H13]. rewrite El in *. simpl in *.
  destruct H2 as (-> & Ho & Hst & Hu).
  assert (Hnew : insts w !! nextAgent w = None).
  { apply not_elem_of_dom. intros Hd. apply Ho. apply (subseteq_dom _ _ H3). done. }
  assert (Hni : ∀ id, insts w !! id ≠ Some inst).
  { intros id Hi. apply inst_owner in Hi. destruct (H5 _ _ Hi) as [_ Hh]. apply Hh. by left. }
  assert (Hnf : inst ∉ freed (log w)) by (intros Hi; destruct (H6' _ Hi) as (_ & Hh & _); apply Hh; by left).
  destruct ok; split; simpl; try done.
  - intros id Hid. rewrite dom_insert_L in Hid. destruct (decide (id = nextAgent w)) as [->|]; [lia|]. apply H1. set_solver.
  - split; [apply lookup_insert_eq|done].
  - by apply insert_mono.
  - assert (Hne : ∀ i k, owner !! i = Some k → k ≠ inst).
    { intros i k Hk ->. destruct (H5 _ _ Hk) as [_ Hh]. apply Hh. by left. }
    intros i j k Hi Hj. apply lookup_insert_Some in Hi as [[? ?]|[? Hi]]; apply lookup_insert_Some in Hj as [[? ?]|[? Hj]]; subst; try done.
    + by destruct (Hne _ _ Hj).
    + by destruct (Hne _ _ Hi).
    + by eapply H4.
  - intros i k Hk. split; [|apply not_elem_of_nil]. apply lookup_insert_Some in Hk as [[? ?]|[? Hk]]; [by subst|by eapply H5].
  - split; [done|]. intros k Hk. destruct (H6' k Hk) as (Hku & _ & Hki). split_and!; [done|apply not_elem_of_nil|].
    intros i Hi. apply lookup_insert_Some in Hi as [[? ?]|[? Hi]]; [by subst|by apply (Hki i)].
  - intros i Hs Ha Hn. rewrite dom_insert_L. apply elem_of_union_r. by apply H7.
  - intros i [Hi|Hi]; apply H8; [left|by right]. by apply lookup_insert_None in Hi as [Hi _].
  - intros i. specialize (H9 i). destruct (said !! i) as [c|] eqn:Es; [|done].
    intros Hd. apply H9. rewrite dom_insert_L in Hd. apply elem_of_union in Hd as [Hd|Hd]; [|done].
    apply elem_of_singleton in Hd as ->. apply elem_of_dom_2 in Es. by destruct Hst; apply HD.
  - intros i k m Hr. apply H10 in Hr. rewrite lookup_insert_ne; [done|]. intros <-. apply Ho. by apply elem_of_dom_2 in Hr.
  - rewrite map_size_insert_None by done. lia.
  - intros i k Hk. split; [by eapply H5|apply not_elem_of_nil].
  - by apply (give_back inst (add_log [Release inst] (set_loop Free_ w))).
Qed.

Lemma send_inv ok w' : spawn_send ok w = Some w' → inv said owner used w'.
Proof.
  unfold spawn_send. destruct (loop w) as [| |id inst|] eqn:El; try done. intros [= <-].
  pose proof H as [H1 H2 H3 H4 H5 [H6 H6'] H7 H8 H9 H10 H11 H12 HD H13]. rewrite El in *. simpl in *.
  destruct H2 as [Hi Hst]. pose proof (inst_owner _ _ Hi) as Ho.
  assert (Hsaid : said !! id = None) by (apply not_elem_of_dom; set_solver).
  destruct ok; split; simpl; try done.
  - intros i Hin. apply H1. apply elem_of_dom_2 in Ho. set_solver.
  - intros i Hs Ha Hn. destruct (decide (i = id)) as [->|]; [by apply elem_of_dom_2 in Hi|]. apply H7; [set_solver|done..].
  - intros i [Hn|Hn]; apply H8; [by left|right; set_solver].
  - set_solver.
  - etrans; [apply delete_subseteq|done].
  - generalize (give_back inst (add_log [Release inst] (set_loop Free_ (tables (delete id (insts w)) (deadSeen w) (reaping w) w)))).
    simpl. intros Hg. apply Hg.
    + by eapply H5.
    + intros Hin. destruct (H6' _ Hin) as (_ & _ & Hn). by apply (Hn id).
    + simpl. intros i. rewrite lookup_delete_Some. intros [Hne Hk]. apply inst_owner in Hk. by destruct Hne; eapply H4.
    + apply delete_subseteq.
    + done.
    + done.
  - intros i Hs Ha Hn. rewrite dom_delete_L. specialize (H7 i Hs Ha Hn). set_solver.
  - intros i [Hn|Hn]; [|by apply H8; right]. apply lookup_delete_None in Hn as [<-|Hn]; apply H8; [by right|by left].
  - intros i. specialize (H9 i). destruct (said !! i) as [c|] eqn:Es; [|done]. intros Hd. apply H9. rewrite dom_delete_L in Hd. set_solver.
  - rewrite map_size_delete_Some by by eexists. assert (size (insts w) ≠ 0%nat); [|lia].
    intros Hz%map_size_empty_inv. by rewrite Hz, lookup_empty in Hi.
Qed.

Lemma end_inv w' : spawn_end w = Some w' → inv said owner used w'.
Proof.
  unfold spawn_end. destruct (loop w) as [| | |id inst] eqn:El; try done. intros [= <-].
  pose proof H as [H1 H2 H3 H4 H5 [H6 H6'] H7 H8 H9 H10 H11 H12 HD H13]. rewrite El in *. simpl in *.
  assert (Hp : ∀ i, flat_map (of_post i) (posts w ++ [PostOnline inst]) = flat_map (of_post i) (posts w))
    by (intros i; by rewrite flat_map_app, app_nil_r).
  split; unfold pipe, coming in *; simpl; try setoid_rewrite Hp; try done.
  - intros i. rewrite Hp. apply H9.
  - intros i k m [Hin|Hin]; apply (H10 i k m); [left|by right]. apply elem_of_app in Hin as [Hin|Hin]; [done|].
    by apply list_elem_of_singleton in Hin.
  - intros i. destruct (H12 i) as [Ha Hb]. split.
    + intros [Hl|Hin]; apply Ha; [by left|right]. apply elem_of_app in Hin as [Hin|Hin]; [done|].
      by apply list_elem_of_singleton in Hin.
    + intros xs ys Hxy. destruct ys as [|y ys _] using rev_ind; [done|]. 
      rewrite app_comm_cons, app_assoc in Hxy. apply app_inj_tail in Hxy as [Hxy <-].
      rewrite flat_map_app. simpl. rewrite app_nil_r. by eapply Hb.
  - lia.
Qed.

Lemma receive_inv w' : pump_receive true w = Some w' → inv said owner used w'.
Proof.
  unfold pump_receive. destruct (pump w) eqn:Ep; try done.
  pose proof H as [H1 H2 H3 H4 H5 H6 H7 H8 H9 H10 H11 H12 HD H13]. unfold pipe, coming in *. rewrite Ep in *. simpl in *.
  assert (Hr : ∀ id inst m, PostDispatch id inst m ∈ posts w ∨ Top = Found id inst m → owner !! id = Some inst) by done.
  destruct (stop w); [|destruct (inbox w) as [|[i m] q] eqn:Eb]; intros [= <-].
  - split; unfold pipe, coming; simpl; try done.
    + intros id inst m [?|?]; [by eapply Hr; left|done].
    + intros id n Hd. by destruct (H11 id n Hd).
    + intros id. destruct (H12 id) as [Ha Hb]. split; [|done]. intros [(l & ? & _)|Hin]; [done|]. by apply Ha; right.
  - split; unfold pipe, coming; simpl; rewrite ?Eb; try done.
    + intros id inst m [?|?]; [by eapply Hr; left|done].
    + intros id n Hd. by destruct (H11 id n Hd).
    + intros id. destruct (H12 id) as [Ha Hb]. split; [|done]. intros [(l & ? & _)|Hin]; [done|]. by apply Ha; right.
  - simpl in *. split; unfold pipe, coming; simpl; try done.
    + intros id inst m' [?|?]; [by eapply Hr; left|done].
    + intros id n Hd. by destruct (H11 id n Hd).
    + intros id. destruct (H12 id) as [Ha Hb]. split; [|done]. intros [(l & ? & _)|Hin]; [done|]. by apply Ha; right.
Qed.

Lemma pipe_hand id i m : pump w = Got i m ∨ (∃ k, pump w = Found i k m) → id = i → m ∈ coming w id.
Proof.
  intros Hp ->. unfold coming. apply elem_of_app. left.
  destruct Hp as [-> |[k ->]]; simpl; rewrite decide_True by done; by left.
Qed.

Lemma coming_pipe id m : m ∈ coming w id → m ∈ pipe w id.
Proof. intros Hm. unfold pipe. apply elem_of_app. by right. Qed.

(** An agent with a message on its way is registered. *)
Lemma on_the_way id m : m ∈ pipe w id → ∃ inst, insts w !! id = Some inst.
Proof.
  intros Hm. destruct (insts w !! id) as [inst|] eqn:E; [by exists inst|].
  rewrite (i_gone _ _ _ _ H id) in Hm by by left. by apply not_elem_of_nil in Hm.
Qed.

Lemma lookup_inv w' : pump_lookup w = Some w' → inv said owner used w'.
Proof.
  unfold pump_lookup. destruct (pump w) as [| |i m| | | |] eqn:Ep; try done.
  pose proof (pipe_hand i i m ltac:(by left) eq_refl) as Hm. destruct (on_the_way i m (coming_pipe _ _ Hm)) as [inst Hi].
  rewrite Hi. intros [= <-]. pose proof H as [H1 H2 H3 H4 H5 H6 H7 H8 H9 H10 H11 H12 HD H13].
  unfold pipe, coming in *. rewrite Ep in *. simpl in *. split; unfold pipe, coming; simpl; try done.
  - intros id k m' [Hin|Hin]; [by eapply H10; left|]. simplify_eq. by apply inst_owner.
  - intros id n Hd. by destruct (H11 id n Hd).
  - intros id. destruct (H12 id) as [Ha Hb]. split; [|done]. intros [(l & ? & _)|Hin]; [done|]. by apply Ha; right.
Qed.

(** A further posted function that brings nothing to an agent whose reap is
    already posted. *)
Lemma reap_snoc ps p id :
  (∀ xs ys, ps = xs ++ PostReap id :: ys → flat_map (of_post id) ys = []) →
  of_post id p = [] ∨ (PostReap id ∉ ps) →
  ∀ xs ys, ps ++ [p] = xs ++ PostReap id :: ys → flat_map (of_post id) ys = [].
Proof.
  intros Hps Hp xs ys Hxy. destruct ys as [|y ys _] using rev_ind; [done|].
  rewrite app_comm_cons, app_assoc in Hxy. apply app_inj_tail in Hxy as [Hxy <-].
  rewrite flat_map_app. simpl. rewrite (Hps _ _ Hxy). destruct Hp as [-> |Hn]; [done|].
  destruct Hn. rewrite Hxy. apply elem_of_app. right. by left.
Qed.

Lemma pump_post_inv w' : pump_post w = Some w' → inv said owner used w'.
Proof.
  unfold pump_post. destruct (pump w) as [| | |i inst m| | |] eqn:Ep; try done. intros [= <-].
  pose proof H as [H1 H2 H3 H4 H5 H6 H7 H8 H9 H10 H11 H12 HD H13].
  assert (Hp : ∀ id, pipe (Post (PostDispatch i inst m) (set_pump Top w)) id = pipe w id).
  { intros id. unfold pipe, coming. simpl. rewrite Ep, flat_map_app. simpl. by rewrite app_nil_r, <-app_assoc. }
  split; simpl; try done.
  - intros id. rewrite Hp. apply H8.
  - intros id. rewrite Hp. apply H9.
  - intros id k m' [Hin|?]; [|done]. apply elem_of_app in Hin as [Hin|Hin]; [by eapply H10; left|].
    apply list_elem_of_singleton in Hin. simplify_eq. eapply H10. by right.
  - intros id n Hd. by destruct (H11 id n Hd).
  - intros id. destruct (H12 id) as [Ha Hb]. split.
    + intros [(l & ? & _)|Hin]; [done|]. apply elem_of_app in Hin as [Hin|Hin]; [|by apply list_elem_of_singleton in Hin].
      destruct (Ha ltac:(by right)) as (? & ? & Hc). unfold coming in *. simpl. apply app_eq_nil in Hc as [_ ->]. done.
    + apply reap_snoc; [done|]. simpl. destruct (decide (i = id)) as [->|]; [right|by left]. intros Hin.
      destruct (Ha ltac:(by right)) as (_ & _ & Hc).
      pose proof (pipe_hand id id m ltac:(right; by eexists) eq_refl) as Hm. rewrite Hc in Hm. by apply not_elem_of_nil in Hm.
Qed.

(** What a scan finds: agents that are dead, and those it reaps were seen dead
    before. *)
Lemma scan_spec order (d0 d : gmap Z nat) (r : gset Z) l :
  NoDup order → (∀ id, id ∈ order → d !! id = d0 !! id) →
  (∀ id, id ∈ l → (id ∉ alive w) ∧ is_Some (d0 !! id)) → (∀ id, is_Some (d !! id) → id ∉ alive w) →
  let '(d', _, l') := fold_left (λ acc id, scan_one w id acc) order (d, r, l) in
  (∀ id, id ∈ l' → (id ∉ alive w) ∧ is_Some (d0 !! id)) ∧ (∀ id, is_Some (d' !! id) → id ∉ alive w) ∧
  (∀ id, is_Some (d' !! id) → is_Some (d !! id) ∨ id ∈ order).
Proof.
  revert d r l. induction order as [|i order IH]; simpl; intros d r l Hnd Hd0 Hl Hd; [by auto|].
  apply NoDup_cons in Hnd as [Hi Hnd].
  assert (Hne : ∀ id, id ∈ order → id ≠ i) by (intros id Hid ->; done).
  case_bool_decide as Ha; [|destruct ((2 <=? S (default 0%nat (d !! i)))%nat && negb (bool_decide (i ∈ r))) eqn:Hn].
  - specialize (IH (delete i d) r l Hnd). destruct (fold_left _ _ _) as [[d' r'] l'].
    destruct IH as (I1 & I2 & I3); [|done| |].
    + intros id Hid. rewrite lookup_delete_ne by (symmetry; by apply Hne). apply Hd0. by right.
    + intros id [n Hs]. apply lookup_delete_Some in Hs as [_ Hs]. apply Hd. by exists n.
    + split_and!; [done|done|]. intros id Hs. destruct (I3 id Hs) as [[n Hs']|]; [left|by right; right].
      apply lookup_delete_Some in Hs' as [_ Hs']. by exists n.
  - set (n := S (default 0%nat (d !! i))) in *. apply andb_true_iff in Hn as [Hn _]. apply Nat.leb_le in Hn.
    specialize (IH (<[i:=n]> d) ({[i]} ∪ r) (l ++ [i]) Hnd). destruct (fold_left _ _ _) as [[d' r'] l'].
    destruct IH as (I1 & I2 & I3).
    + intros id Hid. rewrite lookup_insert_ne by (symmetry; by apply Hne). apply Hd0. by right.
    + intros id Hin. apply elem_of_app in Hin as [Hin|Hin]; [by apply Hl|]. apply list_elem_of_singleton in Hin as ->.
      split; [done|]. rewrite <-Hd0 by by left. unfold n in Hn. destruct (d !! i); [done|simpl in Hn; lia].
    + intros id [k Hs]. apply lookup_insert_Some in Hs as [[<- _]|[_ Hs]]; [done|]. apply Hd. by exists k.
    + split_and!; [done|done|]. intros id Hs. destruct (I3 id Hs) as [[k Hs']|]; [|by right; right].
      apply lookup_insert_Some in Hs' as [[<- _]|[_ Hs']]; [right; by left|left; by exists k].
  - set (n := S (default 0%nat (d !! i))) in *.
    specialize (IH (<[i:=n]> d) r l Hnd). destruct (fold_left _ _ _) as [[d' r'] l'].
    destruct IH as (I1 & I2 & I3); [|done| |].
    + intros id Hid. rewrite lookup_insert_ne by (symmetry; by apply Hne). apply Hd0. by right.
    + intros id [k Hs]. apply lookup_insert_Some in Hs as [[<- _]|[_ Hs]]; [done|]. apply Hd. by exists k.
    + split_and!; [done|done|]. intros id Hs. destruct (I3 id Hs) as [[k Hs']|]; [|by right; right].
      apply lookup_insert_Some in Hs' as [[<- _]|[_ Hs']]; [right; by left|left; by exists k].
Qed.

Lemma scan_inv order w' : pump_scan order w = Some w' → inv said owner used w'.
Proof.
  unfold pump_scan. destruct (pump w) eqn:Ep; try done. case_bool_decide as Hperm; [|done].
  pose proof H as [H1 H2 H3 H4 H5 H6 H7 H8 H9 H10 H11 H12 HD H13].
  assert (Hnd : NoDup order) by (rewrite Hperm; apply NoDup_fst_map_to_list).
  assert (Hd : ∀ id, is_Some (deadSeen w !! id) → id ∉ alive w) by (intros id [n Hn]; by destruct (H11 id n Hn)).
  pose proof (scan_spec order (deadSeen w) (deadSeen w) (reaping w) [] Hnd ltac:(done)
    ltac:(by intros ? ?%not_elem_of_nil) Hd) as Hs.
  destruct (fold_left _ _ _) as [[d r] l]. destruct Hs as (S1 & S2 & S3). intros [= <-].
  assert (Hp : ∀ id, pipe (set_pump (Posting l) (tables (insts w) d r w)) id = pipe w id).
  { intros id. unfold pipe, coming. simpl. by rewrite Ep. }
  assert (Hdom : ∀ id, is_Some (d !! id) → id <= nextAgent w).
  { intros id Hs. apply H1. destruct (S3 id Hs) as [Hx|Hx]; [apply elem_of_dom in Hx; set_solver|].
    rewrite Hperm in Hx. apply list_elem_of_fmap in Hx as ([i k] & -> & Hik). apply elem_of_map_to_list in Hik.
    apply inst_owner, elem_of_dom_2 in Hik. simpl. set_solver. }
  split; simpl; try done.
  - intros id Hid. destruct (decide (id ∈ dom d)) as [Hd'|Hd']; [apply Hdom; by apply elem_of_dom|]. apply H1. set_solver.
  - intros id. rewrite Hp. apply H8.
  - intros id. rewrite Hp. apply H9.
  - intros id k m [Hin|?]; [|done]. eapply H10. by left.
  - intros id n Hn. split; [|done]. apply S2. by exists n.
  - intros id. destruct (H12 id) as [Ha Hb]. split; [|done]. unfold coming. simpl.
    intros [(l' & [= <-] & Hin)|Hin].
    + destruct (S1 id Hin) as [Hal [n Hn]]. destruct (H11 id n Hn) as [_ Hc]. specialize (Hc Ep).
      unfold coming in Hc. rewrite Ep in Hc. split_and!; [|done|done]. apply H1. apply elem_of_dom_2 in Hn. set_solver.
    + destruct (Ha ltac:(by right)) as (? & ? & Hc). unfold coming in Hc. by rewrite Ep in Hc.
Qed.

Lemma reap_inv w' : pump_reap w = Some w' → inv said owner used w'.
Proof.
  unfold pump_reap. destruct (pump w) as [| | | | |[|i ids]|] eqn:Ep; try done; intros [= <-].
  all: pose proof H as [H1 H2 H3 H4 H5 H6 H7 H8 H9 H10 H11 H12 HD H13].
  - assert (Hp : ∀ id, pipe (set_pump (if stop w then Gone else Top) w) id = pipe w id).
    { intros id. unfold pipe, coming. simpl. rewrite Ep. by destruct (stop w). }
    split; simpl; try done.
    + intros id. rewrite Hp. apply H8.
    + intros id. rewrite Hp. apply H9.
    + intros id k m [Hin|?]; [by eapply H10; left|by destruct (stop w)].
    + intros id n Hd. destruct (H11 id n Hd). split; [done|]. by destruct (stop w).
    + intros id. destruct (H12 id) as [Ha Hb]. split; [|done]. intros [(l & ? & _)|Hin]; [by destruct (stop w)|].
      destruct (Ha ltac:(by right)) as (? & ? & Hc). split_and!; [done|done|]. unfold coming in *. simpl. rewrite Ep in Hc.
      by destruct (stop w).
  - assert (Hp : ∀ id, pipe (Post (PostReap i) (set_pump (Posting ids) w)) id = pipe w id).
    { intros id. unfold pipe, coming. simpl. rewrite Ep, flat_map_app. simpl. by rewrite app_nil_r. }
    assert (Hc : ∀ id, coming (Post (PostReap i) (set_pump (Posting ids) w)) id = coming w id)
      by (intros id; unfold coming; simpl; by rewrite Ep).
    split; simpl; try done.
    + intros id. rewrite Hp. apply H8.
    + intros id. rewrite Hp. apply H9.
    + intros id k m [Hin|?]; [|done]. apply elem_of_app in Hin as [Hin|Hin]; [by eapply H10; left|].
      by apply list_elem_of_singleton in Hin.
    + intros id n Hd. by destruct (H11 id n Hd).
    + intros id. destruct (H12 id) as [Ha Hb]. rewrite Hc. split.
      * intros [(l & [= <-] & Hl)|Hin]; apply Ha; [left; eexists; split; [done|by right]|].
        apply elem_of_app in Hin as [Hin|Hin]; [by right|]. apply list_elem_of_singleton in Hin as [= ->].
        left. eexists. split; [done|]. by left.
      * apply reap_snoc; [done|by left].
Qed.

Lemma agent_ends_inv id w' : agent_ends id w = Some w' → inv said owner used w'.
Proof.
  intros [= <-]. pose proof H as [H1 H2 H3 H4 H5 H6 H7 H8 H9 H10 H11 H12 HD H13].
  split; simpl; try done.
  - intros i Hi. apply H1. set_solver.
  - intros i Hs Ha. apply H7; [done|set_solver].
  - intros i n Hd. destruct (H11 i n Hd) as [Ha Hc]. split; [set_solver|done].
  - intros i. destruct (H12 i) as [Ha Hb]. split; [|done]. intros Hr. destruct (Ha Hr) as (? & ? & ?). split_and!; [done|set_solver|done].
Qed.

Lemma close_stop_inv w' : close_stop w = Some w' → inv said owner used w'.
Proof.
  unfold close_stop. destruct (loop w) eqn:El; try done. intros [= <-].
  pose proof H as [H1 H2 H3 H4 H5 H6 H7 H8 H9 H10 H11 H12 HD H13]. by split; simpl; rewrite ?El in *.
Qed.

(** An agent's next message joins the end of its pipe. *)
Lemma agent_post_inv id m w' :
  said !! id = None → agent_post id m w = Some w' → inv (says (AgentPost id m) said) owner used w'.
Proof.
  intros Hn. unfold agent_post. case_bool_decide as Ha; [|done]. destruct Ha as [Ha Hst]. intros [= <-].
  pose proof H as [H1 H2 H3 H4 H5 H6 H7 H8 H9 H10 H11 H12 HD H13].
  set (said' := says (AgentPost id m) said).
  assert (Hother : ∀ i, i ≠ id → said' !! i = said !! i).
  { intros i Hi. unfold said', says. destruct m; try done. by rewrite lookup_insert_ne. }
  assert (Hmono : ∀ i, said' !! i = None → said !! i = None).
  { intros i Hi. destruct (decide (i = id)) as [->|]; [done|]. by rewrite <-Hother. }
  assert (Hcs : ∀ i, coming (set_inbox (inbox w ++ [(id, m)]) w) i = coming w i ++ (if decide (id = i) then [m] else [])).
  { intros i. unfold coming. simpl. rewrite flat_map_app, app_assoc. simpl. unfold in_box at 2. simpl. by rewrite app_nil_r. }
  assert (Hp : ∀ i, pipe (set_inbox (inbox w ++ [(id, m)]) w) i = pipe w i ++ (if decide (id = i) then [m] else [])).
  { intros i. unfold pipe. rewrite Hcs. simpl. by rewrite app_assoc. }
  assert (Hdead : ∀ i, i ∉ alive w → coming (set_inbox (inbox w ++ [(id, m)]) w) i = coming w i).
  { intros i Hi. rewrite Hcs, decide_False, app_nil_r; [done|]. by intros ->. }
  assert (Hdom : ∀ i, i ∈ dom said' → i ∈ dom said ∨ i = id).
  { intros i. unfold said', says. destruct m; auto. rewrite dom_insert_L. set_solver. }
  split; try done.
  - intros i Hi. simpl. destruct (decide (i ∈ dom said')) as [Hd|Hd]; [destruct (Hdom i Hd) as [?| ->]|]; apply H1; set_solver.
  - intros i Hs Hal Hi. simpl in *. apply H7; [done|done|by apply Hmono].
  - intros i Hi. rewrite Hp. pose proof (H8 i Hi) as ->. rewrite decide_False; [done|]. intros <-. simpl in Hi.
    destruct Hi as [Hi|Hi]; [|done]. pose proof (H7 id Hst Ha Hn) as Hd. apply elem_of_dom in Hd as [k Hk]. congruence.
  - intros i. rewrite Hp. simpl. destruct (decide (id = i)) as [<-|Hi].
    + specialize (H9 id). rewrite Hn in H9. unfold said', says. destruct m as [e t|code|v|v|v].
      2: { rewrite lookup_insert_eq. intros _. by exists (pipe w id), code. }
      all: rewrite Hn; apply Forall_app; split; [done|]; by apply Forall_singleton.
    + rewrite Hother, app_nil_r by done. apply H9.
  - intros i n Hd. destruct (H11 i n Hd) as [Hal Hc]. split; [done|]. by rewrite Hdead.
  - intros i. destruct (H12 i) as [Hr Hb]. split; [|done]. intros Hx. destruct (Hr Hx) as (? & ? & ?).
    split_and!; [done|done|]. by rewrite Hdead.
  - intros i Hi. destruct (Hdom i Hi) as [?| ->]; [by apply HD|done].
Qed.

(** *** The loop runs a posted function *)

Lemma pop_reap p ps id :
  posts w = p :: ps → ∀ xs ys, ps = xs ++ PostReap id :: ys → flat_map (of_post id) ys = [].
Proof.
  intros E xs ys Hxy. destruct (i_reap _ _ _ _ H id) as [_ Hb]. apply (Hb (p :: xs) ys). by rewrite E, Hxy.
Qed.

Lemma pop_pipe p ps id : posts w = p :: ps → pipe w id = of_post id p ++ pipe (set_posts ps w) id.
Proof. intros E. unfold pipe. rewrite E. simpl. by rewrite <-app_assoc. Qed.

(** A function that is no farewell. *)
Lemma pop_inv p ps :
  posts w = p :: ps → (∀ id m, m ∈ of_post id p → is_exit m = false) → inv said owner used (set_posts ps w).
Proof.
  intros E Hp. pose proof H as [H1 H2 H3 H4 H5 H6 H7 H8 H9 H10 H11 H12 HD H13].
  split; try done.
  - intros id Hid. pose proof (H8 id Hid) as Hn. rewrite (pop_pipe _ _ _ E) in Hn. by apply app_eq_nil in Hn as [_ ->].
  - intros id. specialize (H9 id). rewrite (pop_pipe _ _ _ E) in H9. simpl. specialize (Hp id).
    destruct (said !! id) as [c|]; [|by apply Forall_app in H9 as [_ H9]].
    intros Hd. destruct (H9 Hd) as (pre & code & Hpre & Hc & Hf).
    assert (Hone : of_post id p = [] ∨ ∃ m, of_post id p = [m]).
    { unfold of_post. destruct p; auto. destruct (decide _); eauto. }
    destruct Hone as [Hz|[m Hm]]; [rewrite Hz in Hpre; by exists pre, code|]. rewrite Hm in Hpre, Hp.
    destruct pre as [|x pre]; simpl in Hpre; simplify_eq.
    + by specialize (Hp (Exiting code) ltac:(by left)).
    + exists pre, code. by apply Forall_cons in Hf as [_ Hf].
  - intros id inst m [Hin|Hin]; eapply H10; [left; rewrite E; by right|by right].
  - intros id. destruct (H12 id) as [Ha _]. split; [|by apply (pop_reap p)].
    intros [Hl|Hin]; apply Ha; [by left|right; rewrite E; by right].
Qed.

(** Dropping an instance for good. *)
Lemma farewell_inv p ps id inst code :
  posts w = p :: ps → loop w = Free_ → insts w !! id = Some inst → pipe (set_posts ps w) id = [] →
  (∀ i, i ≠ id → of_post i p = []) → (is_Some (said !! id) ∨ id ∉ alive w) →
  inv said owner used (goodbye inst code (forget id (set_posts ps w))).
Proof.
  intros E El Hi Hpipe Hp Hend. pose proof H as [H1 H2 H3 H4 H5 [H6 H6'] H7 H8 H9 H10 H11 H12 HD H13].
  assert (Hpo : ∀ i, i ≠ id → pipe (goodbye inst code (forget id (set_posts ps w))) i = pipe w i).
  { intros i Hn. rewrite (pop_pipe _ _ _ E), Hp by done. done. }
  assert (Hpi : pipe (goodbye inst code (forget id (set_posts ps w))) id = []) by done.
  assert (Hfr : freed (log w ++ [Emit inst (Exit code); Release inst]) = freed (log w) ++ [inst]).
  { unfold freed. by rewrite omap_app. }
  split; try done.
  - intros i Hin. apply H1. simpl in Hin. rewrite dom_delete_L in Hin. set_solver.
  - simpl. by rewrite El.
  - simpl. etrans; [apply delete_subseteq|done].
  - simpl. rewrite Hfr. split.
    + apply nodup_snoc; [done|]. intros Hin. destruct (H6' _ Hin) as (_ & _ & Hn). by apply (Hn id).
    + intros k Hin. rewrite El in *. simpl in *. apply elem_of_app in Hin as [Hin|Hin].
      * destruct (H6' k Hin) as (? & ? & Hn). split_and!; [done|done|]. intros i. rewrite lookup_delete_Some. intros [_ Hk]. by apply (Hn i).
      * apply list_elem_of_singleton in Hin as ->. pose proof (inst_owner _ _ Hi) as Ho.
        split_and!; [by eapply H5|apply not_elem_of_nil|]. intros i. rewrite lookup_delete_Some. intros [Hne Hk].
        destruct Hne. eapply H4; [done|]. by apply inst_owner.
  - intros i Hs Ha Hn. simpl in *. rewrite dom_delete_L. destruct (decide (i = id)) as [->|Hne].
    + exfalso. destruct Hend as [[c Hc]|Hc]; [congruence|done].
    + specialize (H7 i Hs Ha Hn). set_solver.
  - intros i [Hn|Hn].
    + simpl in Hn. destruct (decide (i = id)) as [->|Hne]; [done|]. rewrite Hpo by done. apply H8. left.
      by rewrite lookup_delete_ne in Hn by done.
    + destruct (decide (i = id)) as [->|Hne]; [done|]. rewrite Hpo by done. apply H8. by right.
  - intros i. destruct (decide (i = id)) as [->|Hne].
    + rewrite Hpi. destruct (said !! id); [|by apply Forall_nil]. simpl. rewrite dom_delete_L. set_solver.
    + rewrite Hpo by done. specialize (H9 i). destruct (said !! i); [|done]. simpl. rewrite dom_delete_L.
      intros Hd. apply H9. set_solver.
  - intros i k m [Hin|Hin]; eapply H10; [left; rewrite E; by right|by right].
  - intros i n Hd. simpl in Hd. apply lookup_delete_Some in Hd as [_ Hd]. by destruct (H11 i n Hd).
  - intros i. destruct (H12 i) as [Ha _]. split; [|by apply (pop_reap p)].
    intros [Hl|Hin]; apply Ha; [by left|right; rewrite E; by right].
  - simpl. rewrite El in *. simpl in *. rewrite map_size_delete_Some by by eexists. assert (size (insts w) ≠ 0%nat); [|lia].
    intros Hz%map_size_empty_inv. by rewrite Hz, lookup_empty in Hi.
Qed.

Lemma log_inv es : freed es = [] → inv said owner used (add_log es w).
Proof.
  intros He. pose proof H as [H1 H2 H3 H4 H5 H6 H7 H8 H9 H10 H11 H12 HD H13].
  split; try done. simpl. unfold freed in *. rewrite omap_app, He, app_nil_r. done.
Qed.

Lemma forget_inv id : insts w !! id = None → inv said owner used (forget id w).
Proof.
  intros Hi. pose proof H as [H1 H2 H3 H4 H5 H6 H7 H8 H9 H10 H11 H12 HD H13].
  assert (Hsame : delete id (insts w) = insts w) by by apply delete_id.
  split; simpl; rewrite ?Hsame; try done.
  - intros i Hin. apply H1. rewrite dom_delete_L in Hin. set_solver.
  - intros i n Hd. apply lookup_delete_Some in Hd as [_ Hd]. by destruct (H11 i n Hd).
Qed.

End Steps.

Section Run.
Context (said owner : gmap Z Z) (used : gset Z) (w : Workers.world) (H : inv said owner used w).

(** What a step may add to the log: nothing is emitted on an instance that was
    released but 'online', and an 'exit' is that of its agent. *)
Inductive lawful : list entry → Prop :=
| law_none : lawful []
| law_online inst : lawful [Emit inst Online]
| law_emit inst e : inst ∉ freed (log w) → (∀ code, e ≠ Exit code) → lawful [Emit inst e]
| law_release inst : lawful [Release inst]
| law_exit id inst code :
    inst ∉ freed (log w) → owner !! id = Some inst →
    match said !! id with Some c => code = c | None => code = 1 ∧ id ∉ alive w end →
    lawful [Emit inst (Exit code); Release inst].

Lemma current_not_freed id inst : insts w !! id = Some inst → inst ∉ freed (log w).
Proof. intros Hi Hf. destruct (i_freed _ _ _ _ H) as [_ H6]. destruct (H6 _ Hf) as (_ & _ & Hn). by apply (Hn id). Qed.

(** A message at the head of the posts is for a registered instance. *)
Lemma dispatched id inst m ps :
  posts w = PostDispatch id inst m :: ps → insts w !! id = Some inst.
Proof.
  intros E. assert (Hm : m ∈ pipe w id).
  { rewrite (pop_pipe w _ _ _ E). simpl. rewrite decide_True by done. by left. }
  destruct (on_the_way _ _ _ _ H id m Hm) as [k Hk]. rewrite Hk. f_equal. pose proof (inst_owner _ _ _ _ H _ _ Hk) as Ho.
  assert (owner !! id = Some inst); [|congruence]. eapply (i_route _ _ _ _ H). left. rewrite E. by left.
Qed.

Lemma dispatch_exit id inst code ps :
  posts w = PostDispatch id inst (Exiting code) :: ps →
  said !! id = Some (default 0 code) ∧ pipe (set_posts ps w) id = [].
Proof.
  intros E. pose proof (dispatched _ _ _ _ E) as Hi. pose proof (i_said _ _ _ _ H id) as Hs.
  rewrite (pop_pipe w _ _ _ E) in Hs. simpl in Hs. rewrite decide_True in Hs by done.
  destruct (said !! id) as [c|]; [|by apply Forall_cons in Hs as [? _]].
  destruct Hs as (pre & code' & Hpre & Hc & Hf); [by apply elem_of_dom_2 in Hi|].
  destruct pre as [|x pre]; simpl in Hpre; simplify_eq; [done|]. by apply Forall_cons in Hf as [? _].
Qed.

Lemma run_post_inv w' :
  run_post w = Some w' → inv said owner used w' ∧ ∃ es, log w' = log w ++ es ∧ lawful es.
Proof.
  unfold run_post. destruct (loop w) eqn:El; try done. destruct (posts w) as [|p ps] eqn:E; [done|].
  assert (Hnil : ∃ es, log w = log w ++ es ∧ lawful es) by (exists []; rewrite app_nil_r; split; [done|constructor]).
  intros [= <-]. destruct p as [inst|id inst m|id].
  - split; [|eexists; split; [done|constructor]]. apply log_inv; [|done]. apply (pop_inv _ _ _ _ H _ _ E). by intros ? ? ?%not_elem_of_nil.
  - pose proof (dispatched _ _ _ _ E) as Hi. pose proof (current_not_freed _ _ Hi) as Hnf.
    assert (Hpop : is_exit m = false → inv said owner used (set_posts ps w)).
    { intros Hm. apply (pop_inv _ _ _ _ H _ _ E). intros i m'. simpl. destruct (decide _); [|by intros ?%not_elem_of_nil].
      by intros ->%list_elem_of_singleton. }
    destruct m as [e t|code|v|v|v]; simpl.
    + split; [|done]. by destruct (Hpop eq_refl).
    + rewrite bool_decide_eq_true_2 by done. destruct (dispatch_exit _ _ _ _ E) as [Hs Hp]. split.
      * eapply farewell_inv; [done..| |left; by eexists]. intros i Hn. simpl. by rewrite decide_False.
      * eexists. split; [done|]. econstructor; [done|by apply (inst_owner _ _ _ _ H)|]. by rewrite Hs.
    + split; [by apply log_inv; [apply Hpop|]|]. eexists. split; [done|]. by constructor.
    + split; [by apply log_inv; [apply Hpop|]|]. eexists. split; [done|]. by constructor.
    + split; [by apply log_inv; [apply Hpop|]|]. eexists. split; [done|]. by constructor.
  - destruct (i_reap _ _ _ _ H id) as [Ha Hb]. destruct Ha as (_ & Hal & Hc); [right; rewrite E; by left|].
    assert (Hp : pipe (set_posts ps w) id = []).
    { unfold pipe. simpl. rewrite (Hb [] ps E). exact Hc. }
    simpl. destruct (insts w !! id) as [inst|] eqn:Hi.
    + split; [by eapply farewell_inv; auto|]. eexists. split; [done|].
      econstructor; [by eapply current_not_freed|by apply (inst_owner _ _ _ _ H)|].
      pose proof (i_said _ _ _ _ H id) as Hs. destruct (said !! id) as [c|]; [exfalso|done].
      destruct Hs as (pre & code & Hpre & _); [by apply elem_of_dom_2 in Hi|].
      rewrite (pop_pipe w _ _ _ E), Hp in Hpre. simpl in Hpre. by destruct pre.
    + split; [|done]. apply forget_inv; [|done]. apply (pop_inv _ _ _ _ H _ _ E). by intros ? ? ?%not_elem_of_nil.
Qed.

End Run.

Lemma worker_step said owner used w l w' :
  inv said owner used w → disciplined said used l → step l w = Some w' →
  inv (says l said) (owns l w owner) (uses l used) w' ∧ ∃ es, log w' = log w ++ es ∧ lawful said owner w es.
Proof.
  intros H Hd Hs.
  assert (Hnone : log w' = log w → ∃ es, log w' = log w ++ es ∧ lawful said owner w es)
    by (intros ->; exists []; rewrite app_nil_r; split; [done|constructor]).
  assert (Hrel : ∀ inst, log w' = log w ++ [Release inst] → ∃ es, log w' = log w ++ es ∧ lawful said owner w es)
    by (intros inst ->; eexists; split; [done|constructor]).
  destruct l as [inst ok|ok|ok| |ok| | |order| | | | |id m|id]; simpl in Hs, Hd.
  - split; [eapply spawn_agent_inv; [by apply start_pump_inv|done|exact Hs]|]. unfold spawn_begin, spawn_agent in Hs. simpl in Hs. destruct (loop w); simplify_eq. destruct ok; [by apply Hnone|by eapply Hrel].
  - split; [by eapply register_inv|]. unfold spawn_register in Hs. destruct (loop w); simplify_eq. destruct ok; [by apply Hnone|by eapply Hrel].
  - split; [by eapply send_inv|]. unfold spawn_send in Hs. destruct (loop w); simplify_eq. destruct ok; [by apply Hnone|by eapply Hrel].
  - split; [by eapply end_inv|]. apply Hnone. unfold spawn_end in Hs. by destruct (loop w); simplify_eq.
  - subst ok. split; [by eapply receive_inv|]. apply Hnone. unfold pump_receive in Hs. destruct (pump w); simplify_eq.
    destruct (stop w); [by simplify_eq|]. by destruct (inbox w) as [|[]]; simplify_eq.
  - split; [by eapply lookup_inv|]. apply Hnone. unfold pump_lookup in Hs. by destruct (pump w); simplify_eq.
  - split; [by eapply pump_post_inv|]. apply Hnone. unfold pump_post in Hs. by destruct (pump w); simplify_eq.
  - split; [by eapply scan_inv|]. apply Hnone. unfold pump_scan in Hs. destruct (pump w); simplify_eq.
    case_bool_decide; [|done]. destruct (fold_left _ _ _) as [[d r] l]. by simplify_eq.
  - split; [by eapply reap_inv|]. apply Hnone. unfold pump_reap in Hs. by destruct (pump w) as [| | | | |[]|]; simplify_eq.
  - by eapply run_post_inv.
  - split; [by eapply close_stop_inv|]. apply Hnone. unfold close_stop in Hs. by destruct (loop w); simplify_eq.
  - done.
  - split; [by eapply agent_post_inv|]. apply Hnone. unfold agent_post in Hs. case_bool_decide; by simplify_eq.
  - split; [by eapply agent_ends_inv|]. apply Hnone. unfold agent_ends in Hs. by simplify_eq.
Qed.

Lemma workers_inv said owner used w : reach said owner used w → inv said owner used w.
Proof. induction 1; [apply workers_init|by eapply worker_step]. Qed.

(** ** Exits *)

(** Nothing but 'online' is emitted on an instance after its release. *)
Definition sound (es : list entry) : Prop :=
  ∀ l1 inst l2 e, es = l1 ++ Release inst :: l2 → Emit inst e ∈ l2 → e = Online.

Definition exits (es : list entry) : list Z := omap (λ e, match e with Emit i (Exit _) => Some i | _ => None end) es.

Lemma freed_elem inst es : Release inst ∈ es → inst ∈ freed es.
Proof. intros Hin. unfold freed. apply list_elem_of_omap. by exists (Release inst). Qed.

Lemma sound_add said owner w es : sound (log w) → lawful said owner w es → sound (log w ++ es).
Proof.
  intros Hs Hl l1 inst l2 e Heq Hin.
  assert (Hcross : ∀ l, log w = l1 ++ Release inst :: l → Emit inst e ∈ es → e = Online).
  { intros l Hw He. assert (Hf : inst ∈ freed (log w)) by (apply freed_elem; rewrite Hw; apply elem_of_app; right; by left).
    destruct Hl as [|i|i e' Hn _|i|id i code Hn _ _].
    - by apply not_elem_of_nil in He.
    - apply list_elem_of_singleton in He. by simplify_eq.
    - apply list_elem_of_singleton in He. by simplify_eq.
    - by apply list_elem_of_singleton in He.
    - apply elem_of_cons in He as [He|He]; [by simplify_eq|]. by apply list_elem_of_singleton in He. }
  apply app_eq_inv in Heq as [(k & Hw & Hk)|(k & -> & Hk)].
  - destruct k as [|x k]; simpl in Hk.
    + destruct Hl as [|i|i e' _ _|i|id i code _ _ _]; simplify_eq/=; by apply not_elem_of_nil in Hin.
    + injection Hk as <- ->. apply elem_of_app in Hin as [Hin|Hin]; [by eapply Hs|by eapply Hcross].
  - destruct Hl as [|i|i e' _ _|i|id i code _ _ _]; destruct k as [|x [|y k]]; simplify_eq/=; try by apply not_elem_of_nil in Hin.
    all: by destruct k.
Qed.

(** ** Any history

    What holds whatever the agents post, whether or not their messages can be
    read, and also once the manager is closed: all that is assumed is that every
    spawn is given an instance of its own. *)
Inductive history_of : gset Z → Workers.world → Prop :=
| history_init : history_of ∅ newWorkerManager
| history_step used w l w' :
    history_of used w → match l with SpawnBegin inst _ => inst ∉ used | _ => True end → step l w = Some w' →
    history_of (uses l used) w'.

Lemma reach_history said owner used w : reach said owner used w → history_of used w.
Proof. induction 1 as [|said owner used w l w' _ IH Hd Hs]; [apply history_init|]. eapply history_step; [done| |done]. by destruct l. Qed.

(** An exit is followed by the release of its instance. *)
Definition exits_release (es : list entry) : Prop :=
  ∀ l1 inst code l2, es = l1 ++ Emit inst (Exit code) :: l2 → head l2 = Some (Release inst).

(** The instances that are registered, or held by the spawn that is under way,
    are each their own and not released. *)
Record tame (used : gset Z) (w : Workers.world) : Prop := {
  t_inj : ∀ i j inst, insts w !! i = Some inst → insts w !! j = Some inst → i = j;
  t_insts : ∀ i inst, insts w !! i = Some inst → inst ∈ used ∧ (inst ∉ freed (log w)) ∧ inst ∉ held (loop w);
  t_held : ∀ inst, inst ∈ held (loop w) → inst ∈ used ∧ inst ∉ freed (log w);
  t_registered : ∀ id inst, loop w = Registered id inst → insts w !! id = Some inst;
  t_freed : NoDup (freed (log w)) ∧ ∀ inst, inst ∈ freed (log w) → inst ∈ used;
  t_exits : exits (log w) `sublist_of` freed (log w);
  t_release : exits_release (log w)
}.

(** Steps that leave the tables, the loop and the log alone. *)
Lemma tame_same used w w' :
  tame used w → insts w' = insts w → loop w' = loop w → log w' = log w → tame used w'.
Proof. intros [] Hi Hl Hg. split; rewrite ?Hi, ?Hl, ?Hg; done. Qed.

Lemma exits_release_app es es' :
  exits_release es → (∀ l1 inst code l2, es' = l1 ++ Emit inst (Exit code) :: l2 → head l2 = Some (Release inst)) → exits_release (es ++ es').
Proof.
  intros He He' l1 inst code l2 Heq. apply app_eq_inv in Heq as [(k & -> & Hk)|(k & -> & Hk)]; [|by eapply He'].
  destruct k as [|x k]; simpl in Hk; [by apply (He' [] inst code)|]. injection Hk as <- ->. specialize (He l1 inst code k eq_refl). by destruct k.
Qed.

(** Entries that are no exits and no releases. *)
Definition quiet_entry (e : entry) : bool := match e with Emit _ (Exit _) | Release _ => false | _ => true end.

Lemma log_tame used w e : quiet_entry e = true → tame used w → tame used (add_log [e] w).
Proof.
  intros He [Hj Hi Hh Hr Hf Hx Hrel]. assert (Hfr : freed (log w ++ [e]) = freed (log w)).
  { unfold freed. rewrite omap_app. destruct e as [? []|]; try done; apply app_nil_r. }
  assert (Hex : exits (log w ++ [e]) = exits (log w)). { unfold exits. rewrite omap_app. destruct e as [? []|]; try done; apply app_nil_r. }
  split; simpl; rewrite ?Hfr, ?Hex; try done. apply exits_release_app; [done|]. by intros [|? []] inst code l2 [=]; simplify_eq.
Qed.

(** A registered instance is taken out, perhaps told of its exit, and released. *)
Lemma part_tame used w es id inst w' :
  tame used w → insts w !! id = Some inst → held (loop w') = [] → (∀ i k, loop w' ≠ Registered i k) →
  (es = [Release inst] ∨ ∃ code, es = [Emit inst (Exit code); Release inst]) → log w' = log w ++ es → insts w' = delete id (insts w) →
  tame used w'.
Proof.
  intros [Hj Hi Hh Hr [Hf Hfu] Hx Hrel] Hid Hl Hreg Hes Hlog Hins. destruct (Hi id inst Hid) as (Hu & Hnf & _).
  assert (Hfr : freed (log w') = freed (log w) ++ [inst]).
  { rewrite Hlog. unfold freed. rewrite omap_app. by destruct Hes as [->|[code ->]]. }
  split; rewrite ?Hl, ?Hfr; try done.
  - intros i j k. rewrite Hins, !lookup_delete_Some. intros [_ ?] [_ ?]. by eapply Hj.
  - intros i k. rewrite Hins, lookup_delete_Some. intros [Hne Hk]. destruct (Hi i k Hk) as (? & ? & _). split_and!; [done| |apply not_elem_of_nil].
    intros [?| ->%list_elem_of_singleton]%elem_of_app; [done|]. by apply Hne, (Hj _ _ inst).
  - intros k Hk. by apply not_elem_of_nil in Hk.
  - intros i k Hk. by destruct (Hreg i k).
  - split; [by apply nodup_snoc|]. intros k [?| ->%list_elem_of_singleton]%elem_of_app; [by apply Hfu|done].
  - rewrite Hlog. unfold exits. rewrite omap_app. apply sublist_app; [done|].
    destruct Hes as [->|[code ->]]; [apply sublist_nil_l|done].
  - rewrite Hlog. apply exits_release_app; [done|]. destruct Hes as [->|[code ->]].
    + intros [|? []] k c l2 [=].
    + intros [|? [|? []]] k c l2 [=]; by simplify_eq.
Qed.

(** A spawn that fails before it has registered gives its instance back. *)
Lemma back_tame used w inst w' :
  tame used w → inst ∈ used → inst ∉ freed (log w) → (∀ i, insts w !! i ≠ Some inst) →
  held (loop w') = [] → (∀ i k, loop w' ≠ Registered i k) → log w' = log w ++ [Release inst] → insts w' = insts w → tame used w'.
Proof.
  intros [Hj Hi Hh Hr [Hf Hfu] Hx Hrel] Hu Hnf Hni Hl Hreg Hlog Hins.
  assert (Hfr : freed (log w') = freed (log w) ++ [inst]) by (rewrite Hlog; apply freed_snoc).
  split; rewrite ?Hl, ?Hfr, ?Hins; try done.
  - intros i k Hk. destruct (Hi i k Hk) as (? & ? & _). split_and!; [done| |apply not_elem_of_nil].
    intros [?| ->%list_elem_of_singleton]%elem_of_app; [done|by eapply Hni].
  - intros k Hk. by apply not_elem_of_nil in Hk.
  - intros i k Hk. by destruct (Hreg i k).
  - split; [by apply nodup_snoc|]. intros k [?| ->%list_elem_of_singleton]%elem_of_app; [by apply Hfu|done].
  - rewrite Hlog. unfold exits. rewrite omap_app, app_nil_r. by apply sublist_inserts_r.
  - rewrite Hlog. apply exits_release_app; [done|]. intros [|? []] k c l2 [=].
Qed.

Lemma spawn_tame used inst ok w w' :
  tame used w → inst ∉ used → spawn_begin inst ok w = Some w' → tame ({[inst]} ∪ used) w'.
Proof.
  intros Ht Hu Hs. unfold spawn_begin, spawn_agent in Hs. simpl in Hs. destruct (loop w) eqn:El; try done. injection Hs as <-.
  assert (Ht' : tame ({[inst]} ∪ used) w).
  { destruct Ht as [Hj Hi Hh Hr [Hf Hfu] Hx Hrel]. split; try done.
    - intros i k Hk. destruct (Hi i k Hk) as (? & ? & ?). split_and!; [set_solver|done|done].
    - intros k Hk. destruct (Hh k Hk). split; [set_solver|done].
    - split; [done|]. intros k Hk%Hfu. set_solver. }
  assert (Hnf : inst ∉ freed (log w)) by (intros Hin; apply Hu, (t_freed _ _ Ht), Hin).
  assert (Hni : ∀ i, insts w !! i ≠ Some inst) by (intros i Hk; apply Hu; by apply (t_insts _ _ Ht i)).
  destruct ok.
  - destruct Ht' as [Hj Hi Hh Hr Hf Hx Hrel]. split; simpl; try done.
    + intros i k Hk. destruct (Hi i k Hk) as (? & ? & _). split_and!; [done|done|]. intros ->%list_elem_of_singleton. by apply (Hni i).
    + intros k ->%list_elem_of_singleton. split; [set_solver|done].
  - apply (back_tame _ w inst); try done. set_solver.
Qed.

Lemma register_tame used ok w w' : tame used w → spawn_register ok w = Some w' → tame used w'.
Proof.
  intros Ht Hs. unfold spawn_register in Hs. destruct (loop w) as [|id inst| |] eqn:El; try done. injection Hs as <-.
  destruct (t_held _ _ Ht inst) as [Hu Hnf]; [rewrite El; by left|].
  assert (Hni : ∀ i, insts w !! i ≠ Some inst). { intros i Hk. destruct (t_insts _ _ Ht i inst Hk) as (_ & _ & Hn). apply Hn. rewrite El. by left. }
  destruct ok; [|by apply (back_tame _ w inst)].
  destruct Ht as [Hj Hi Hh Hr Hf Hx Hrel]. split; simpl; try done.
  - intros i j k [[<- <-]|[_ Hk]]%lookup_insert_Some [[<- Hk']|[_ Hk']]%lookup_insert_Some; try done; [by destruct (Hni j)|by destruct (Hni i); subst|by eapply Hj].
  - intros i k [[<- <-]|[_ Hk]]%lookup_insert_Some; [split_and!; [done|done|apply not_elem_of_nil]|].
    destruct (Hi i k Hk) as (? & ? & _). split_and!; [done|done|apply not_elem_of_nil].
  - intros k Hk. by apply not_elem_of_nil in Hk.
  - intros i k [= <- <-]. apply lookup_insert_eq.
Qed.

Lemma send_tame used ok w w' : tame used w → spawn_send ok w = Some w' → tame used w'.
Proof.
  intros Ht Hs. unfold spawn_send in Hs. destruct (loop w) as [| |id inst|] eqn:El; try done. injection Hs as <-.
  pose proof (t_registered _ _ Ht id inst El) as Hid. destruct ok.
  - destruct Ht as [Hj Hi Hh Hr Hf Hx Hrel]. split; simpl; try done; [|by intros k Hk; apply not_elem_of_nil in Hk].
    intros i k Hk. destruct (Hi i k Hk) as (? & ? & _). split_and!; [done|done|apply not_elem_of_nil].
  - apply (part_tame used w [Release inst] id inst); try done. by left.
Qed.

Lemma run_tame used w w' : tame used w → run_post w = Some w' → tame used w'.
Proof.
  intros Ht Hs. unfold run_post in Hs. destruct (loop w) eqn:El; try done. destruct (posts w) as [|p ps]; [done|]. injection Hs as <-.
  set (w0 := set_posts ps w). assert (Ht0 : tame used w0) by by apply (tame_same used w).
  assert (Hforget : ∀ id, tame used (forget id w0)).
  { intros id. destruct Ht0 as [Hj Hi Hh Hr Hf Hx Hrel]. split; simpl; try done; [| |by rewrite El].
    - intros i j k [_ ?]%lookup_delete_Some [_ ?]%lookup_delete_Some. by eapply Hj.
    - intros i k [_ Hk]%lookup_delete_Some. by apply (Hi i). }
  assert (Hbye : ∀ id inst code, insts w0 !! id = Some inst → tame used (goodbye inst code (forget id w0))).
  { intros id inst code Hid. apply (part_tame used w0 [Emit inst (Exit code); Release inst] id inst); try done; simpl; rewrite ?El; try done. right. by exists code. }
  destruct p as [inst|id inst m|id]; [by apply log_tame| |].
  - destruct m as [err text|code|v|v|v]; simpl; try by apply log_tame.
    + by apply (tame_same used w0).
    + case_bool_decide as Hst; [by apply Hbye|apply Hforget].
  - destruct (insts w !! id) as [k|] eqn:Hk; [by apply Hbye|apply Hforget].
Qed.

(** The teardown releases what is registered. *)
Lemma close_tame used w w' : tame used w → close_free w = Some w' → tame used w'.
Proof.
  intros Ht Hs. unfold close_free in Hs. destruct (loop w) eqn:El; try done. destruct (stop w); [|done]. injection Hs as <-.
  destruct Ht as [Hj Hi Hh Hr [Hf Hfu] Hx Hrel].
  assert (Hall : ∀ l : list Z, freed (map Release l) = l ∧ exits (map Release l) = []).
  { induction l as [|x l [IH1 IH2]]; [done|]. split; [by apply (f_equal (cons x)) in IH1|exact IH2]. }
  assert (Hin : ∀ inst, inst ∈ (map_to_list (insts w)).*2 → ∃ id, insts w !! id = Some inst).
  { intros inst ([id k] & -> & Hk)%list_elem_of_fmap. exists id. by apply elem_of_map_to_list in Hk. }
  assert (Hnd : NoDup (map_to_list (insts w)).*2).
  { apply NoDup_fmap_2_strong; [|apply NoDup_map_to_list]. intros [i k] [j k'] Hik Hjk Heq. simpl in Heq. subst k'.
    apply elem_of_map_to_list in Hik, Hjk. by rewrite (Hj i j k). }
  split; simpl; rewrite ?El; try done.
  - by intros k Hk%not_elem_of_nil.
  - unfold freed. rewrite omap_app. fold (freed (log w)). fold (freed (map Release (map_to_list (insts w)).*2)). rewrite (proj1 (Hall _)).
    split; [|intros k [Hk|[id Hid]%Hin]%elem_of_app; [by apply Hfu|by apply (Hi id)]].
    apply NoDup_app. split; [done|]. split; [|done]. intros k Hk [id Hid]%Hin. by destruct (Hi id k Hid) as (_ & ? & _).
  - unfold freed, exits. rewrite !omap_app. apply sublist_app; [done|].
    fold (exits (map Release (map_to_list (insts w)).*2)). rewrite (proj2 (Hall _)). apply sublist_nil_l.
  - apply exits_release_app; [done|]. intros l1 inst code l2 Heq. exfalso.
    assert (Emit inst (Exit code) ∈ map Release (map_to_list (insts w)).*2) as He by (rewrite Heq; set_solver).
    by apply list_elem_of_fmap in He as (? & ? & _).
Qed.

Lemma history_tame used w : history_of used w → tame used w.
Proof.
  induction 1 as [|used w l w' _ IH Hd Hs].
  { split; simpl; try done; [|split; [apply NoDup_nil_2|]|by intros []]; by intros ? ?%not_elem_of_nil. }
  assert (Hsame : insts w' = insts w → loop w' = loop w → log w' = log w → tame used w') by by apply tame_same.
  destruct l; simpl in Hs |- *.
  - by eapply spawn_tame.
  - by eapply register_tame.
  - by eapply send_tame.
  - unfold spawn_end in Hs. destruct (loop w) eqn:El; try done. injection Hs as <-. destruct IH as [Hj Hi Hh Hr Hf Hx Hrel]. split; simpl; try done.
    + intros i k Hk. destruct (Hi i k Hk) as (? & ? & _). split_and!; [done|done|apply not_elem_of_nil].
    + intros k Hk. by apply not_elem_of_nil in Hk.
  - apply Hsame; unfold pump_receive in Hs; repeat case_match; by simplify_eq.
  - apply Hsame; unfold pump_lookup in Hs; repeat case_match; by simplify_eq.
  - apply Hsame; unfold pump_post in Hs; repeat case_match; by simplify_eq.
  - apply Hsame; unfold pump_scan in Hs; repeat case_match; by simplify_eq.
  - apply Hsame; unfold pump_reap in Hs; repeat case_match; by simplify_eq.
  - by eapply run_tame.
  - apply Hsame; unfold close_stop in Hs; repeat case_match; by simplify_eq.
  - by eapply close_tame.
  - apply Hsame; unfold agent_post in Hs; repeat case_match; by simplify_eq.
  - apply Hsame; unfold agent_ends in Hs; by simplify_eq.
Qed.


(** C23: Each Worker instance gets at most one 'exit', followed at once by its
    release, and is released at most once; whatever the agents post and whether
    or not it can be read, in every interleaving of the spawns, the pump, the
    reaper, the loop and the teardown, given that each spawn is handed an instance
    of its own. As long as the manager is not closed, messages can be read and no
    agent posts anything after its farewell (js/worker.js does not prevent it: a
    worker can catch what process.exit throws), no event but 'online' is sent to an
    instance after its release. *)
Theorem workers_exit_once used w (Hr : history_of used w) :
  NoDup (freed (log w)) ∧ NoDup (exits (log w)) ∧ exits (log w) `sublist_of` freed (log w) ∧
  (∀ l1 inst code l2, log w = l1 ++ Emit inst (Exit code) :: l2 → head l2 = Some (Release inst)) ∧
  ∀ said owner, reach said owner used w → sound (log w).
Proof.
  destruct (history_tame _ _ Hr) as [_ _ _ _ [Hn _] Hx Hrel]. split_and!; [done|by eapply sublist_NoDup|done|exact Hrel|].
  clear Hr Hn Hx Hrel. intros said owner Hr. induction Hr as [|said owner used w l w' Hr IH Hd Hs].
  - intros l1 inst l2 e Heq. by destruct l1.
  - destruct (worker_step _ _ _ _ _ _ (workers_inv _ _ _ _ Hr) Hd Hs) as [_ (es & -> & Hl)]. by eapply sound_add.
Qed.

(** The reaper never turns a clean exit into a crash. An agent that posted a
    farewell before it ended is reported with the code of its farewell, whatever
    the pump, the reaper's two looks and the loop do in between; only an agent
    that ended without one is reported with code 1. *)
Theorem clean_exit_reported said owner used w (Hr : reach said owner used w) inst code :
  Emit inst (Exit code) ∈ log w →
  ∃ id, owner !! id = Some inst ∧
    match said !! id with Some c => code = c | None => code = 1 ∧ id ∉ alive w end.
Proof.
  revert inst code. induction Hr as [|said owner used w l w' Hr IH Hd Hs]; intros inst code; [by intros ?%not_elem_of_nil|].
  pose proof (workers_inv _ _ _ _ Hr) as H. destruct (worker_step _ _ _ _ _ _ H Hd Hs) as [H' (es & Hlog & Hl)].
  rewrite Hlog. intros Hin.
  assert (Hold : ∃ id, owner !! id = Some inst ∧ match said !! id with Some c => code = c | None => code = 1 ∧ id ∉ alive w end).
  { apply elem_of_app in Hin as [Hin|Hin]; [by apply IH|].
    destruct Hl as [|i|i e' _ Hn|i|id i c _ Ho Hc].
    - by apply not_elem_of_nil in Hin.
    - by apply list_elem_of_singleton in Hin.
    - apply list_elem_of_singleton in Hin. simplify_eq. by destruct (Hn code).
    - by apply list_elem_of_singleton in Hin.
    - apply elem_of_cons in Hin as [Hin|Hin]; [|by apply list_elem_of_singleton in Hin]. simplify_eq. by exists id. }
  destruct Hold as (id & Ho & Hc). exists id. split.
  - unfold owns. destruct l; try done. destruct ok; [|done]. destruct (loop w) eqn:El; try done.
    pose proof (i_loop _ _ _ _ H) as Hlp. rewrite El in Hlp. destruct Hlp as (_ & Hn & _). rewrite lookup_insert_ne; [done|].
    intros ->. apply Hn. by apply elem_of_dom_2 in Ho.
  - destruct (said !! id) as [c|] eqn:Es.
    + assert (says l said !! id = Some c) as ->; [|done]. unfold says. destruct l; try done. destruct m; try done.
      rewrite lookup_insert_ne; [done|]. intros ->. simpl in Hd. congruence.
    + destruct Hc as [-> Hal]. assert (says l said !! id = None) as ->.
      { unfold says. destruct l; try done. destruct m; try done. rewrite lookup_insert_ne; [done|].
        intros ->. simpl in Hs. unfold agent_post in Hs. case_bool_decide as Hb; [by destruct Hb|done]. }
      split; [done|].
      assert (Hle : id <= nextAgent w) by (apply (i_ids _ _ _ _ H); apply elem_of_dom_2 in Ho; set_solver).
      destruct l as [i ok|ok|ok| |ok| | |order| | | | |i m|i]; simpl in Hs.
      * unfold spawn_begin, spawn_agent in Hs. simpl in Hs. destruct (loop w); simplify_eq. destruct ok; simpl; [|done]. intros [->%elem_of_singleton|?]%elem_of_union; [lia|done].
      * unfold spawn_register in Hs. destruct (loop w); simplify_eq. by destruct ok.
      * unfold spawn_send in Hs. destruct (loop w); simplify_eq. by destruct ok.
      * unfold spawn_end in Hs. by destruct (loop w); simplify_eq.
      * unfold pump_receive in Hs. destruct (pump w); simplify_eq. destruct (stop w); [by simplify_eq|]. by destruct (inbox w) as [|[]]; simplify_eq.
      * unfold pump_lookup in Hs. by destruct (pump w); simplify_eq.
      * unfold pump_post in Hs. by destruct (pump w); simplify_eq.
      * unfold pump_scan in Hs. destruct (pump w); simplify_eq. case_bool_decide; [|done]. destruct (fold_left _ _ _) as [[d r] l]. by simplify_eq.
      * unfold pump_reap in Hs. by destruct (pump w) as [| | | | |[]|]; simplify_eq.
      * unfold run_post in Hs. destruct (loop w), (posts w) as [|p ps]; simplify_eq. destruct p as [|? ? []|]; simpl; try done.
        -- by case_bool_decide.
        -- by destruct (insts w !! _).
      * unfold close_stop in Hs. by destruct (loop w); simplify_eq.
      * done.
      * unfold agent_post in Hs. case_bool_decide; by simplify_eq.
      * unfold agent_ends in Hs. simplify_eq. simpl. set_solver.
Qed.

(** The loop's pending count: one for each registered instance, but for one whose
    spawn has not come to it yet. *)
Lemma workers_pending said owner used w :
  reach said owner used w → pending w + Z.of_nat (uncounted (loop w)) = Z.of_nat (size (insts w)).
Proof. intros Hr. apply (i_pending _ _ _ _ (workers_inv _ _ _ _ Hr)). Qed.

(** ** Examples *)

#[export] Instance disciplined_dec said used l : Decision (disciplined said used l).
Proof. destruct l; simpl; apply _. Defined.

Fixpoint history (ls : list label) (said owner : gmap Z Z) (used : gset Z) (w : Workers.world) :
    option (gmap Z Z * gmap Z Z * gset Z * Workers.world) :=
  match ls with
  | [] => Some (said, owner, used, w)
  | l :: ls' =>
      if decide (disciplined said used l) then
        w' ← step l w; history ls' (says l said) (owns l w owner) (uses l used) w'
      else None
  end.

Lemma history_reach ls said owner used w said' owner' used' w' :
  reach said owner used w → history ls said owner used w = Some (said', owner', used', w') → reach said' owner' used' w'.
Proof.
  revert said owner used w. induction ls as [|l ls IH]; simpl; intros said owner used w Hr Hs; [by simplify_eq|].
  destruct (decide _) as [Hd|]; [|done]. destruct (step l w) as [w1|] eqn:E; [|done]. simpl in Hs.
  eapply IH; [|done]. by eapply reach_step.
Qed.

Abbreviation spawning := [SpawnBegin 7 true; SpawnRegister true; SpawnSend true; SpawnEnd; RunPost].
Abbreviation leaving := [AgentPost 1 (Data 5); AgentPost 1 (Exiting (Some 3)); AgentEnds 1].
Abbreviation draining := [Receive true; Lookup; PumpPost; Receive true; Lookup; PumpPost].
Abbreviation reaping_ := [Receive true; Scan [1]; Reap; Receive true; Scan [1]; Reap; Reap].
Abbreviation story := (spawning ++ leaving ++ draining ++ reaping_ ++ [RunPost; RunPost; RunPost]).
Abbreviation told := (default (∅, ∅, ∅, newWorkerManager) (history story ∅ ∅ ∅ newWorkerManager)).

Lemma told_reach : reach told.1.1.1 told.1.1.2 told.1.2 told.2.
Proof. apply (history_reach story ∅ ∅ ∅ newWorkerManager); [apply reach_init|vm_compute; reflexivity]. Qed.

Lemma workers_exit_once_witness :
  log told.2 = [Emit 7 Online; Emit 7 (Message 5); Emit 7 (Exit 3); Release 7] ∧
  NoDup (freed (log told.2)) ∧ NoDup (exits (log told.2)).
Proof.
  split; [vm_compute; reflexivity|].
  destruct (workers_exit_once _ _ (reach_history _ _ _ _ told_reach)) as (H1 & H2 & _). split; [exact H1|exact H2].
Defined.

Lemma clean_exit_reported_witness :
  ∃ id, told.1.1.2 !! id = Some 7 ∧ match told.1.1.1 !! id with Some c => 3 = c | None => 3 = 1 ∧ (id ∉ alive told.2) end.
Proof.
  apply (clean_exit_reported _ _ _ _ told_reach 7 3). by_decide.
Defined.

(** A worker that is quick enough says goodbye before the loop goroutine has
    posted its 'online': the event is then emitted on the released instance,
    after 'exit'. *)
Lemma online_after_exit :
  ∃ said owner used w, reach said owner used w ∧ log w = [Emit 7 (Exit 0); Release 7; Emit 7 Online].
Proof.
  pose (ls := [SpawnBegin 7 true; SpawnRegister true; SpawnSend true; AgentPost 1 (Exiting (Some 0)); Receive true; Lookup;
    PumpPost; SpawnEnd; RunPost; RunPost]).
  destruct (history ls ∅ ∅ ∅ newWorkerManager) as [[[[said owner] used] w]|] eqn:E; [|by vm_compute in E].
  exists said, owner, used, w. split; [eapply history_reach; [apply reach_init|exact E]|].
  vm_compute in E. by injection E as _ _ _ <-.
Qed.

(** A message that cannot be read makes the pump look for the dead although the
    queue holds a farewell: the clean exit is then reported as a crash. *)
Lemma unreadable_message_crashes :
  ∃ w, steps (spawning ++ [Receive true; AgentPost 1 (Data 5); AgentPost 1 (Exiting (Some 0)); AgentEnds 1; Scan [1]; Reap;
                Receive false; Scan [1]; Reap; Reap; RunPost]) newWorkerManager = Some w ∧
    inbox w = [(1, Exiting (Some 0))] ∧ log w = [Emit 7 Online; Emit 7 (Exit 1); Release 7].
Proof. eexists. vm_compute. split; [reflexivity|done]. Qed.

(** *** The wrapper *)

Lemma no_newline_quoted : ch_nl ∉ double_quoted ++ lit "; " ++ lit "try {".
Proof. by_decide. Qed.

(** The wrapper puts nothing but text of the first line in front of the source:
    line numbers stay. *)
Lemma wrap_keeps_lines source :
  has_prefix source (lit "#!") = false →
  ∃ pre post, wrapWorkerSource source = pre ++ source ++ post ∧ (ch_nl ∉ pre).
Proof.
  intros Hs. unfold wrapWorkerSource, strip_shebang. rewrite Hs. pose proof no_newline_quoted as Hn.
  destruct (hasUseStrictPrologue source).
  - eexists (double_quoted ++ lit "; " ++ lit "try {"), _. split; [by rewrite <-!app_assoc|done].
  - eexists (lit "try {"), _. split; [done|]. by_decide.
Qed.

(** But with a shebang the whole first line goes, its newline too: every line is
    reported one too low. *)
Lemma wrap_shifts_lines line source :
  (ch_nl ∉ line) →
  ∃ pre post, wrapWorkerSource (lit "#!" ++ line ++ ch_nl :: source) = pre ++ source ++ post ∧ (ch_nl ∉ pre).
Proof.
  intros Hl. assert (Hi : index_byte (lit "#!" ++ line ++ ch_nl :: source) ch_nl = Some (2 + length line)%nat).
  { change (lit "#!") with [35; 33]. simpl. assert (Hx : index_byte (line ++ ch_nl :: source) ch_nl = Some (length line)).
    { induction line as [|c line IH]; simpl; [done|]. apply not_elem_of_cons in Hl as [Hc Hl].
      destruct (Z.eqb_spec c ch_nl); [congruence|]. by rewrite IH. }
    by rewrite Hx. }
  unfold wrapWorkerSource, strip_shebang. rewrite has_prefix_app, Hi.
  assert (Hd : drop (S (2 + length line)) (lit "#!" ++ line ++ ch_nl :: source) = source).
  { change (lit "#!") with [35; 33]. simpl. clear Hi. induction line as [|c line IH]; simpl; [done|].
    apply not_elem_of_cons in Hl as [_ Hl]. by apply IH. }
  rewrite Hd. pose proof no_newline_quoted as Hn. destruct (hasUseStrictPrologue source).
  - eexists (double_quoted ++ lit "; " ++ lit "try {"), _. split; [by rewrite <-!app_assoc|done].
  - eexists (lit "try {"), _. split; [done|]. by_decide.
Qed.
