(* ===== verification/FetchReq.v ===== *)
(** What compat/web/fetch.go decides about a request before and while net/http
    carries it out: the init object of fetch, the permission checks, the dialer
    of newHTTPClient, and the redirect policies inside the redirect loop of
    net/http.

    [ParseIP] (the text of the parsed address), the resolver and the network are
    arguments, and so is [NewRequest], which answers with the parts of the URL
    that the checks read. *)

From S2P Require Import Prelude.

(** ** Hosts and ports *)

(** u.Scheme, u.Hostname(), u.Port() of a [*url.URL]. *)
Record URL := MkURL { Scheme : bytes; Hostname : bytes; Port : bytes }.

(** Config.Resolve(host) and Config.Dial(network, host, ip, port); a nil hook is
    [None]. *)
Record Config := MkConfig {
  cfgResolve : option (bytes → bool);
  cfgDial : option (bytes → bytes → bytes → Z → bool)
}.

(** [cfg.Resolve == nil || !cfg.Resolve(host)] denies. *)
Definition mayResolve (cfg : Config) (host : bytes) : bool :=
  match cfgResolve cfg with Some f => f host | None => false end.
Definition mayDial (cfg : Config) (network host ip : bytes) (port : Z) : bool :=
  match cfgDial cfg with Some f => f network host ip port | None => false end.

(** [n, _ := strconv.Atoi(s)]: 0 when it is no number, the nearest int when it is
    out of range. *)
Definition Atoi (s : bytes) : Z :=
  let '(neg, ds) :=
    match s with
    | c :: t => if c =? 45 then (true, t) else if c =? 43 then (false, t) else (false, s)
    | [] => (false, s)
    end in
  if bool_decide (ds = []) || negb (forallb is_digit ds) then 0
  else
    let n := foldl (λ n c, n * 10 + (c - 48)) 0 ds in
    if (neg : bool) then Z.max (- 2 ^ 63) (- n) else Z.min (2 ^ 63 - 1) n.

(** The part before and after the last [c]. *)
Fixpoint cut_last (c : Z) (s : bytes) : option (bytes * bytes) :=
  match s with
  | [] => None
  | d :: t =>
      match cut_last c t with
      | Some (a, b) => Some (d :: a, b)
      | None => if d =? c then Some ([], t) else None
      end
  end.

(** net.SplitHostPort. *)
Definition SplitHostPort (hostport : bytes) : option (bytes * bytes) :=
  match cut_last 58 hostport with
  | None => None
  | Some (before, port) =>
      let bracket := match hostport with c :: _ => c =? 91 | [] => false end in
      let parts :=
        if bracket then
          match index_byte hostport 93 with
          | None => None
          | Some e =>
              if bool_decide (S e = length before)
              then Some (take (e - 1) (drop 1 hostport), drop 1 hostport, drop (S e) hostport)
              else None
          end
        else if contains_byte before 58 then None else Some (before, hostport, hostport) in
      match parts with
      | Some (host, j, k) => if contains_byte j 91 || contains_byte k 93 then None else Some (host, port)
      | None => None
      end
  end.

(** net.JoinHostPort. *)
Definition JoinHostPort (host port : bytes) : bytes :=
  if contains_byte host 58 || contains_byte host 37 then 91 :: host ++ 93 :: 58 :: port
  else host ++ 58 :: port.

(** ** Connections *)

Inductive dialErr :=
| BadAddr
| DialDenied (addr : bytes)
| ResolveDenied (host : bytes)
| LookupFailed
| ConnectFailed (addr : bytes)
| NoAddresses.

Section Dial.
(** The text of the address a string spells, the resolver's answer, and whether
    a connection to an address comes about. *)
Context (ParseIP : bytes → option bytes) (LookupIP : bytes → option (list bytes)) (connects : bytes → bool).

(** dialer.DialContext *)
Definition DialContext (addr : bytes) : result dialErr bytes :=
  if connects addr then Ok addr else Err (ConnectFailed addr).

(** The loop over the resolved addresses: the addresses connected to, in order,
    and the result. *)
Fixpoint dial_ips (cfg : Config) (network host portStr : bytes) (port : Z) (ips : list bytes)
    (lastErr : dialErr) : list bytes * result dialErr bytes :=
  match ips with
  | [] => ([], Err lastErr)
  | ip :: ips' =>
      if negb (mayDial cfg network host ip port) then
        dial_ips cfg network host portStr port ips' (DialDenied ip)
      else
        let addr := JoinHostPort ip portStr in
        match DialContext addr with
        | Ok c => ([addr], Ok c)
        | Err e =>
            let '(tried, r) := dial_ips cfg network host portStr port ips' e in (addr :: tried, r)
        end
  end.

(** The DialContext of newHTTPClient's transport. *)
Definition dial (cfg : Config) (network addr : bytes) : list bytes * result dialErr bytes :=
  match SplitHostPort addr with
  | None => ([], Err BadAddr)
  | Some (host, portStr) =>
      let port := Atoi portStr in
      match ParseIP host with
      | Some ip =>
          if mayDial cfg network [] ip port then ([addr], DialContext addr) else ([], Err (DialDenied addr))
      | None =>
          if mayResolve cfg host then
            match LookupIP host with
            | None => ([], Err LookupFailed)
            | Some ips => dial_ips cfg network host portStr port ips NoAddresses
            end
          else ([], Err (ResolveDenied host))
      end
  end.

Definition checkRequestPermission (cfg : Config) (u : URL) : option dialErr :=
  let host := Hostname u in
  match ParseIP host with
  | Some ip =>
      let port := Atoi (Port u) in
      let port := if port =? 0 then if bool_decide (Scheme u = lit "https") then 443 else 80 else port in
      if mayDial cfg (lit "tcp") [] ip port then None else Some (DialDenied host)
  | None => if mayResolve cfg host then None else Some (ResolveDenied host)
  end.

End Dial.

(** ** Headers *)

(** http.Header, keyed by canonical names. *)
Abbreviation Header := (gmap bytes (list bytes)).

(** A byte that may occur in a field name (httpguts.IsTokenRune). *)
Definition is_token (c : Z) : bool :=
  is_lower c || is_upper c || is_digit c || bool_decide (c ∈ lit "!#$%&'*+-.^_`|~").

Definition upper (c : Z) : Z := if is_lower c then c - 32 else c.
Definition lower (c : Z) : Z := if is_upper c then c + 32 else c.

Fixpoint canonical_from (up : bool) (s : bytes) : bytes :=
  match s with
  | [] => []
  | c :: t => (if up then upper c else lower c) :: canonical_from (c =? 45) t
  end.

(** http.CanonicalHeaderKey. *)
Definition CanonicalHeaderKey (s : bytes) : bytes :=
  if forallb is_token s then canonical_from true s else s.

Definition hSet (h : Header) (k v : bytes) : Header := <[CanonicalHeaderKey k := [v]]> h.
Definition hDel (h : Header) (k : bytes) : Header := delete (CanonicalHeaderKey k) h.

(** [for k, v := range headers { req.Header.Set(k, v) }], [kvs] in the order of
    the iteration. *)
Definition set_headers (kvs : list (bytes * bytes)) : Header := foldl (λ h kv, hSet h kv.1 kv.2) ∅ kvs.

(** ** Redirects *)

Definition originPort (u : URL) : bytes :=
  if bool_decide (Port u ≠ []) then Port u
  else if bool_decide (Scheme u = lit "https") then lit "443" else lit "80".

Definition sameOrigin (a b : URL) : bool :=
  bool_decide (Scheme a = Scheme b) && bool_decide (Hostname a = Hostname b) && bool_decide (originPort a = originPort b).

Record request := MkReq { rq_url : URL; rq_header : Header }.

(** The redirect policies of fetchFunc. *)
Inductive redirectMode := Follow | Manual | ErrorOnRedirect.

Definition mode_of (s : bytes) : redirectMode :=
  if bool_decide (s = lit "manual") then Manual
  else if bool_decide (s = lit "error") then ErrorOnRedirect else Follow.

Inductive fetchErr := errFetchRedirect | errTooManyRedirects | errTransport.

Inductive verdict :=
| ErrUseLastResponse
| Refuse (e : fetchErr)
| Proceed (req : request).

(** reqClient.CheckRedirect with the hop count it leaves. *)
Definition CheckRedirect (m : redirectMode) (req : request) (via : list request) (hops : nat) : verdict * nat :=
  match m with
  | Manual => (ErrUseLastResponse, hops)
  | ErrorOnRedirect => (Refuse errFetchRedirect, hops)
  | Follow =>
      let hops := length via in
      if (10 <=? hops)%nat then (Refuse errTooManyRedirects, hops)
      else
        (Proceed
           match last via with
           | Some prev =>
               if sameOrigin (rq_url prev) (rq_url req) then req
               else MkReq (rq_url req) (hDel (hDel (rq_header req) (lit "Authorization")) (lit "Cookie"))
           | None => req
           end, hops)
  end.

(** *** The loop of net/http's Client.Do around it *)

(** isDomainOrSubdomain: [sub] is [parent], or ends in a dot and [parent]. *)
Definition isDomainOrSubdomain (sub parent : bytes) : bool :=
  bool_decide (sub = parent) ||
  (negb (contains_byte sub 58 || contains_byte sub 37) && has_suffix sub (46 :: parent)).

Definition sensitive : list bytes :=
  map lit ["Authorization"; "Www-Authenticate"; "Cookie"; "Cookie2"; "Proxy-Authorization"; "Proxy-Authenticate"]%string.

(** makeHeadersCopier: a redirected request starts from the headers of the first
    request. *)
Definition copyHeaders (h : Header) (strip : bool) : Header :=
  if strip then foldr delete h sensitive else h.

(** What the server makes of the requests it was sent, the last one being the
    one it answers. *)
Inductive reply := Final (status : Z) | Redirect (status : Z) (location : URL) | Broken.

Inductive outcome := Responded (status : Z) | Failed (e : fetchErr).

Fixpoint chase (fuel : nat) (server : list request → reply) (m : redirectMode) (ireq : request)
    (via : list request) (req : request) (strip : bool) (hops : nat) : option (list request * outcome * nat) :=
  match fuel with
  | O => None
  | S fuel' =>
      let via := via ++ [req] in
      match server via with
      | Broken => Some (via, Failed errTransport, hops)
      | Final status => Some (via, Responded status, hops)
      | Redirect status u =>
          let strip := strip || negb (isDomainOrSubdomain (Hostname u) (Hostname (rq_url ireq))) in
          match CheckRedirect m (MkReq u (copyHeaders (rq_header ireq) strip)) via hops with
          | (ErrUseLastResponse, hops) => Some (via, Responded status, hops)
          | (Refuse e, hops) => Some (via, Failed e, hops)
          | (Proceed req, hops) => chase fuel' server m ireq via req strip hops
          end
      end
  end.

(** reqClient.Do: the requests sent, how it ends, and [hops]. *)
Definition Do (fuel : nat) (server : list request → reply) (m : redirectMode) (req : request) :=
  chase fuel server m req [] req false 0.

(** ** The arguments of fetch *)

(** A field of the init object: missing (or undefined, or the Get failed), a
    primitive with its String() and whether its Export() is nil, or an object
    with its handle, its Bytes(), and what JSON.stringify and json.Unmarshal
    make of it. *)
Inductive field :=
| Missing
| Prim (text : bytes) (isNil : bool)
| Obj (h : Z) (data : option bytes) (pairs : option (list (bytes * bytes))).

Record init := MkInit {
  i_handle : Z;
  i_method : field;
  i_redirect : field;
  i_abortId : field;
  i_body : field;
  i_headers : field
}.

Inductive hevent := Got (h : Z) | Freed (h : Z).

(** The closure [scalar]. *)
Definition scalar (f : field) : list hevent * option bytes :=
  match f with
  | Missing => ([], None)
  | Prim t _ => ([], Some t)
  | Obj h _ _ => ([Got h; Freed h], None)
  end.

(** The request body; [None]: Bytes() failed. *)
Definition read_body (f : field) : list hevent * option (option bytes) :=
  match f with
  | Missing => ([], Some None)
  | Prim t isNil => ([], Some (if isNil then None else Some t))
  | Obj h data _ => ([Got h; Freed h], match data with Some d => Some (Some d) | None => None end)
  end.

(** The headers; [None]: stringify threw, or the text is no map of strings. *)
Definition read_headers (f : field) : list hevent * option (list (bytes * bytes)) :=
  match f with
  | Missing | Prim _ _ => ([], Some [])
  | Obj h _ pairs => ([Got h; Freed h], pairs)
  end.

(** strings.ToUpper, of ASCII text. *)
Definition ToUpper (s : bytes) : bytes := map upper s.

Record options := MkOptions {
  o_method : bytes;
  o_redirect : bytes;
  o_abortID : bytes;
  o_body : option bytes;
  o_headers : list (bytes * bytes)
}.

(** fetchFunc up to http.NewRequest, for an init object; [None] is a thrown
    error. The deferred Free of the object comes last. *)
Definition read_init (i : init) : list hevent * option options :=
  let '(e1, method) := scalar (i_method i) in
  let '(e2, redirect) := scalar (i_redirect i) in
  let '(e3, abortID) := scalar (i_abortId i) in
  let '(e4, body) := read_body (i_body i) in
  let before := [Got (i_handle i)] ++ e1 ++ e2 ++ e3 ++ e4 in
  match body with
  | None => (before ++ [Freed (i_handle i)], None)
  | Some b =>
      let '(e5, hs) := read_headers (i_headers i) in
      (before ++ e5 ++ [Freed (i_handle i)],
       match hs with
       | None => None
       | Some hs =>
           Some (MkOptions (from_option ToUpper (lit "GET") method) (default (lit "follow") redirect)
                   (default [] abortID) b hs)
       end)
  end.

Inductive started :=
| Throws
| Rejects (e : option dialErr)
| Starts (req : request) (m : redirectMode) (o : options).

Section Fetch.
Context (ParseIP : bytes → option bytes) (NewRequest : bytes → bytes → option URL).

(** fetchFunc, up to the round trip it starts. [args0] is the URL argument,
    [i] the init object when there is one. *)
Definition fetchFunc (cfg : Config) (args0 : option bytes) (i : option init) : list hevent * started :=
  match args0 with
  | None => ([], Throws)
  | Some url =>
      let '(es, o) :=
        match i with
        | Some i => read_init i
        | None => ([], Some (MkOptions (lit "GET") (lit "follow") [] None []))
        end in
      (es,
       match o with
       | None => Throws
       | Some o =>
           match NewRequest (o_method o) url with
           | None => Rejects None
           | Some u =>
               match checkRequestPermission ParseIP cfg u with
               | Some e => Rejects (Some e)
               | None => Starts (MkReq u (set_headers (o_headers o))) (mode_of (o_redirect o)) o
               end
           end
       end)
  end.

End Fetch.

(** ** The Response object *)

(** The data fields newResponse sets. *)
Record fields := MkFields {
  f_status : Z;
  f_ok : bool;
  f_redirected : bool;
  f_bodyUsed : bool;
  f_headerEntries : list (bytes * bytes)
}.

(** [header] is resp.Header in the order of the iteration; [hops] is what the
    redirect policy left. *)
Definition responseFields (status : Z) (hops : nat) (header : list (bytes * list bytes)) : fields :=
  MkFields status ((200 <=? status) && (status <=? 299)) (0 <? Z.of_nat hops) false
    (flat_map (λ nv, map (λ v, (nv.1, v)) nv.2) header).

(** ** The settled-from-outside promise *)

(** o.Get of a name: an error, a value that is no object, or an object. *)
Inductive got := GetFails | GetNone | GetObj (h : Z).

(** newDeferred; [call] is what the factory answers. *)
Definition newDeferred (call : got) (promise resolve reject : got) : list hevent * option (Z * Z * Z) :=
  match call with
  | GetFails | GetNone => ([], None)
  | GetObj o =>
      let '(es, r) :=
        match promise with
        | GetFails | GetNone => ([], None)
        | GetObj p =>
            match resolve with
            | GetFails | GetNone => ([Got p; Freed p], None)
            | GetObj f =>
                match reject with
                | GetFails | GetNone => ([Got p; Got f; Freed p; Freed f], None)
                | GetObj g => ([Got p; Got f; Got g], Some (p, f, g))
                end
            end
        end in
      ([Got o] ++ es ++ [Freed o], r)
  end.

(** What is not handed on is released. *)
Lemma newDeferred_frees call promise resolve reject :
  let '(es, r) := newDeferred call promise resolve reject in
  omap (λ e, match e with Got h => Some h | Freed _ => None end) es ≡ₚ
  omap (λ e, match e with Freed h => Some h | Got _ => None end) es ++
    match r with Some (p, f, g) => [p; f; g] | None => [] end.
Proof. destruct call, promise, resolve, reject; simpl; solve_Permutation. Qed.

(** ** The network is only reached with permission *)

Section DialSpec.
Context (LookupIP : bytes → option (list bytes)) (connects : bytes → bool).

(** The addresses of [ips] that Dial allows, as they are dialed. *)
Definition allowed (cfg : Config) (network host portStr : bytes) (port : Z) (ips : list bytes) : list bytes :=
  map (λ ip, JoinHostPort ip portStr) (filter (λ ip, mayDial cfg network host ip port) ips).

(** The addresses up to the first that answers. *)
Fixpoint attempts (addrs : list bytes) : list bytes :=
  match addrs with
  | [] => []
  | a :: rest => a :: if connects a then [] else attempts rest
  end.

Definition first_up (addrs : list bytes) : option bytes := List.find connects addrs.

Lemma dial_ips_spec cfg network host portStr port ips e :
  let addrs := allowed cfg network host portStr port ips in
  (dial_ips connects cfg network host portStr port ips e).1 = attempts addrs ∧
  match (dial_ips connects cfg network host portStr port ips e).2 with
  | Ok a => first_up addrs = Some a
  | Err _ => first_up addrs = None
  end.
Proof.
  unfold allowed. revert e. induction ips as [|ip ips IH]; intros e; [done|]. simpl.
  destruct (mayDial cfg network host ip port) eqn:Hd; simpl.
  - rewrite filter_cons_True by (rewrite Hd; exact I). simpl. unfold first_up, DialContext. simpl.
    destruct (connects (JoinHostPort ip portStr)) eqn:Hc; [done|].
    specialize (IH (ConnectFailed (JoinHostPort ip portStr))).
    destruct (dial_ips connects cfg network host portStr port ips _) as [tried r]. simpl in IH |- *.
    by destruct IH as [-> IH].
  - rewrite filter_cons_False by (rewrite Hd; exact id). apply IH.
Qed.

Lemma attempts_subset addrs a : a ∈ attempts addrs → a ∈ addrs.
Proof.
  induction addrs as [|x addrs IH]; [done|]. simpl. rewrite !elem_of_cons. destruct (connects x).
  - intros [->|[]%not_elem_of_nil]. by left.
  - intros [->|Ha]; [by left|right; auto].
Qed.

Lemma allowed_elem cfg network host portStr port ips a :
  a ∈ allowed cfg network host portStr port ips ↔
  ∃ ip, ip ∈ ips ∧ mayDial cfg network host ip port = true ∧ a = JoinHostPort ip portStr.
Proof.
  unfold allowed. rewrite list_elem_of_fmap. split.
  - intros (ip & -> & [Hd Hin]%list_elem_of_filter). exists ip. split_and!; [done| |done]. by apply Is_true_true.
  - intros (ip & Hin & Hd & ->). exists ip. split; [done|]. apply list_elem_of_filter. split; [by apply Is_true_true|done].
Qed.

Context (ParseIP : bytes → option bytes).

(** What the hooks granted: a connection to [a] when [addr] was asked for. *)
Definition granted (cfg : Config) (network addr a : bytes) : Prop :=
  ∃ host portStr, SplitHostPort addr = Some (host, portStr) ∧
    ((∃ ip, ParseIP host = Some ip ∧ a = addr ∧ mayDial cfg network [] ip (Atoi portStr) = true) ∨
     (∃ ips ip, ParseIP host = None ∧ mayResolve cfg host = true ∧ LookupIP host = Some ips ∧ ip ∈ ips ∧
        mayDial cfg network host ip (Atoi portStr) = true ∧ a = JoinHostPort ip portStr)).

(** All of them, in the order of the resolver's answer. *)
Definition candidates (cfg : Config) (network addr : bytes) : list bytes :=
  match SplitHostPort addr with
  | None => []
  | Some (host, portStr) =>
      match ParseIP host with
      | Some ip => if mayDial cfg network [] ip (Atoi portStr) then [addr] else []
      | None =>
          if mayResolve cfg host
          then allowed cfg network host portStr (Atoi portStr) (default [] (LookupIP host)) else []
      end
  end.

Lemma candidates_granted cfg network addr a : a ∈ candidates cfg network addr ↔ granted cfg network addr a.
Proof.
  unfold candidates, granted. destruct (SplitHostPort addr) as [[host portStr]|] eqn:Hs.
  2: { split; [by intros ?%not_elem_of_nil|]. by intros (? & ? & ? & _). }
  destruct (ParseIP host) as [ip|] eqn:Hp.
  - destruct (mayDial cfg network [] ip (Atoi portStr)) eqn:Hd.
    + rewrite list_elem_of_singleton. split; [intros ->; naive_solver|]. naive_solver.
    + split; [by intros ?%not_elem_of_nil|]. naive_solver congruence.
  - destruct (mayResolve cfg host) eqn:Hr.
    + rewrite allowed_elem. destruct (LookupIP host) as [ips|] eqn:Hl; simpl.
      * naive_solver.
      * split; [intros (ip & Hin & _); by apply not_elem_of_nil in Hin|]. naive_solver congruence.
    + split; [by intros ?%not_elem_of_nil|]. naive_solver congruence.
Qed.

Lemma dial_spec cfg network addr :
  let r := dial ParseIP LookupIP connects cfg network addr in
  r.1 = attempts (candidates cfg network addr) ∧
  match r.2 with
  | Ok a => first_up (candidates cfg network addr) = Some a
  | Err _ => first_up (candidates cfg network addr) = None
  end.
Proof.
  unfold dial, candidates. destruct (SplitHostPort addr) as [[host portStr]|]; [|done].
  destruct (ParseIP host) as [ip|].
  - destruct (mayDial _ _ _ _ _); [|done]. unfold first_up, DialContext. simpl. by destruct (connects addr).
  - destruct (mayResolve cfg host); [|done]. destruct (LookupIP host) as [ips|]; [|done]. apply dial_ips_spec.
Qed.

End DialSpec.

Lemma checkRequestPermission_spec ParseIP cfg u :
  checkRequestPermission ParseIP cfg u = None →
  match ParseIP (Hostname u) with
  | Some ip => ∃ port, mayDial cfg (lit "tcp") [] ip port = true
  | None => mayResolve cfg (Hostname u) = true
  end.
Proof. unfold checkRequestPermission. intros H. repeat case_any; simplify_eq; eauto. Qed.

(** C24: No connection of fetch is opened without permission. The dialer tries
    only addresses for which Config.Dial said yes, with the name and the address
    the connection is for; a literal address is asked for with an empty name, and
    a name is looked up only when Config.Resolve allows it. The allowed addresses
    are tried in the resolver's order until one answers, and that connection is
    the result; a nil hook denies everything. A request itself is only started
    when its host passes the same hooks. *)
Theorem fetch_needs_permission (ParseIP : bytes → option bytes) (LookupIP : bytes → option (list bytes))
    (connects : bytes → bool) (NewRequest : bytes → bytes → option URL) (cfg : Config) :
  (∀ network addr,
     let r := dial ParseIP LookupIP connects cfg network addr in
     (∀ a, a ∈ r.1 → granted LookupIP ParseIP cfg network addr a) ∧
     r.1 = attempts connects (candidates LookupIP ParseIP cfg network addr) ∧
     (∀ a, r.2 = Ok a ↔ first_up connects (candidates LookupIP ParseIP cfg network addr) = Some a)) ∧
  (∀ url i es req m o, fetchFunc ParseIP NewRequest cfg url i = (es, Starts req m o) →
     match ParseIP (Hostname (rq_url req)) with
     | Some ip => ∃ port, mayDial cfg (lit "tcp") [] ip port = true
     | None => mayResolve cfg (Hostname (rq_url req)) = true
     end).
Proof.
  split.
  - intros network addr r. destruct (dial_spec LookupIP connects ParseIP cfg network addr) as [H1 H2].
    fold r in H1, H2. split_and!; [|done|].
    + intros a. rewrite H1. intros Ha%attempts_subset. by apply candidates_granted.
    + intros a. destruct (r.2); rewrite H2; naive_solver.
  - intros url i es req m o Hf. apply checkRequestPermission_spec.
    unfold fetchFunc in Hf. repeat case_any; simplify_eq/=; done.
Qed.

(** Every object handle that fetch gets from its init object is released, on
    every path. *)
Lemma fetch_frees_handles (ParseIP : bytes → option bytes) (NewRequest : bytes → bytes → option URL) cfg url i :
  let es := (fetchFunc ParseIP NewRequest cfg url i).1 in
  omap (λ e, match e with Got h => Some h | Freed _ => None end) es ≡ₚ
  omap (λ e, match e with Freed h => Some h | Got _ => None end) es.
Proof.
  destruct url as [url|]; [|done]. destruct i as [[h m r a b hs]|]; [|done]. simpl. unfold read_init. simpl.
  destruct m, r, a, b as [| |? [|] ?]; simpl; try destruct hs; simpl; solve_Permutation.
Qed.

(** ** Redirects and credentials *)

Lemma sensitive_stripped h k : k ∈ sensitive → copyHeaders h true !! k = None.
Proof.
  unfold copyHeaders. intros Hk. induction sensitive as [|x l IH]; [by apply not_elem_of_nil in Hk|]. simpl.
  destruct (decide (x = k)) as [->|Hne]; [by rewrite lookup_delete_eq|].
  rewrite lookup_delete_ne by done. apply IH. apply elem_of_cons in Hk. destruct Hk; [by subst|done].
Qed.

Definition credential (k : bytes) : Prop := k = lit "Authorization" ∨ k = lit "Cookie".

Lemma credential_sensitive k : credential k → k ∈ sensitive.
Proof. intros [-> | ->]; by_decide. Qed.

(** Whether every request after the first stayed in the first one's domain. *)
Definition stayed (ireq : request) (rs : list request) : bool :=
  forallb (λ r, isDomainOrSubdomain (Hostname (rq_url r)) (Hostname (rq_url ireq))) rs.

(** The credentials of the last of a chain of requests. *)
Definition carries (ireq prev r : request) (later : list request) (k : bytes) : option (list bytes) :=
  if sameOrigin (rq_url prev) (rq_url r) && stayed ireq later then rq_header ireq !! k else None.


Definition good (ireq : request) (l : list request) : Prop :=
  ∀ i p r k, l !! i = Some p → l !! S i = Some r → credential k →
    rq_header r !! k = carries ireq p r (take (S i) (tail l)) k.

Lemma good_snoc ireq l p r :
  good ireq l → last l = Some p →
  (∀ k, credential k → rq_header r !! k = carries ireq p r (tail l ++ [r]) k) → good ireq (l ++ [r]).
Proof.
  intros Hg Hp Hr i p' r' k Hi HSi Hk. destruct l as [|x l]; [done|]. simpl.
  destruct (decide (S i < length (x :: l))%nat) as [Hlt|Hge].
  - rewrite lookup_app_l in Hi, HSi by (simpl in *; lia). simpl in Hlt.
    rewrite take_app_le by lia. by apply Hg.
  - assert (length (x :: l) = S i) as Hlen by (apply lookup_lt_Some in HSi; rewrite length_app in HSi; simpl in *; lia).
    rewrite lookup_app_r in HSi by lia. rewrite Hlen, Nat.sub_diag in HSi. simplify_eq/=.
    rewrite last_lookup in Hp. change (x :: l ++ [r']) with ((x :: l) ++ [r']) in Hi.
    rewrite lookup_app_l in Hi by (simpl; lia). simpl in Hp.
    rewrite Hi in Hp. simplify_eq. rewrite take_ge by (rewrite length_app; simpl; lia). by apply Hr.
Qed.

Lemma stayed_snoc ireq l r : stayed ireq (l ++ [r]) =
  stayed ireq l && isDomainOrSubdomain (Hostname (rq_url r)) (Hostname (rq_url ireq)).
Proof. unfold stayed. rewrite forallb_app. simpl. by rewrite andb_true_r. Qed.

(** The header a followed redirect carries. *)
Lemma redirected_credential ireq p u strip l req hops hops' k :
  strip = negb (stayed ireq (l ++ [MkReq u ∅])) → credential k → (hops < 10)%nat →
  ∀ via, last via = Some p → length via = hops →
  CheckRedirect Follow (MkReq u (copyHeaders (rq_header ireq) strip)) via hops' = (Proceed req, hops) →
  rq_header req !! k = carries ireq p req (l ++ [req]) k ∧ rq_url req = u.
Proof.
  intros Hstrip Hk Hlt via Hlast Hlen Hc. unfold CheckRedirect in Hc. rewrite Hlen, Hlast in Hc.
  destruct (Nat.leb_spec 10 hops); [lia|]. simplify_eq/=. unfold carries.
  rewrite !stayed_snoc. simpl.
  destruct (sameOrigin (rq_url p) u) eqn:Hs; simpl.
  - rewrite Hs. simpl. split; [|done].
    destruct (stayed ireq l && isDomainOrSubdomain (Hostname u) (Hostname (rq_url ireq))) eqn:Hst; simpl; [done|].
    by apply sensitive_stripped, credential_sensitive.
  - rewrite Hs. simpl. split; [|done]. unfold hDel.
    destruct Hk as [-> | ->]; [|by rewrite lookup_delete_eq].
    rewrite lookup_delete_ne by by_decide. apply lookup_delete_eq.
Qed.

Lemma chase_spec server m ireq fuel via req strip hops sent out hops' :
  (∃ rest, via ++ [req] = ireq :: rest) → good ireq (via ++ [req]) → (length via < 10)%nat →
  strip = negb (stayed ireq (tail (via ++ [req]))) →
  chase fuel server m ireq via req strip hops = Some (sent, out, hops') →
  (∃ rest, sent = ireq :: rest) ∧ good ireq sent ∧ (length sent <= 10)%nat.
Proof.
  revert via req strip hops. induction fuel as [|fuel IH]; intros via req strip hops Hh Hg Hlen Hst Hc; [done|].
  simpl in Hc. destruct (server (via ++ [req])) as [status|status u|].
  1, 3: simplify_eq; split_and!; [done|done|rewrite length_app; simpl; lia].
  destruct (CheckRedirect _ _ _ _) as [v h] eqn:Hcr.
  destruct v as [|e|req'].
  1, 2: simplify_eq; split_and!; [done|done|rewrite length_app; simpl; lia].
  destruct m; try discriminate Hcr.
  assert (h = length (via ++ [req]) ∧ (length (via ++ [req]) < 10)%nat) as [-> Hlt].
  { unfold CheckRedirect in Hcr. destruct (Nat.leb_spec 10 (length (via ++ [req]))); [done|]. by simplify_eq. }
  destruct Hh as [rest Hh].
  assert (strip || negb (isDomainOrSubdomain (Hostname u) (Hostname (rq_url ireq))) =
          negb (stayed ireq (tail (via ++ [req]) ++ [MkReq u ∅]))) as Hstrip.
  { rewrite stayed_snoc, Hst. simpl. by rewrite negb_andb. }
  assert (Hlast : last (via ++ [req]) = Some req) by apply last_snoc.
  assert (Hcred : ∀ k, credential k →
    rq_header req' !! k = carries ireq req req' (tail (via ++ [req]) ++ [req']) k ∧ rq_url req' = u).
  { intros k Hk. by eapply redirected_credential. }
  eapply (IH (via ++ [req]) req'); [| | | |exact Hc].
  - rewrite Hh. eexists. done.
  - eapply good_snoc; [done|done|]. intros k Hk. by apply Hcred.
  - done.
  - destruct (Hcred (lit "Cookie")) as [_ Hu]; [by right|].
    rewrite Hstrip. f_equal. rewrite Hh. simpl. rewrite !stayed_snoc. simpl. by rewrite Hu.
Qed.

Lemma chase_total server m ireq fuel via req strip hops :
  (10 <= fuel + length via)%nat → (length via < 10)%nat → is_Some (chase fuel server m ireq via req strip hops).
Proof.
  revert via req strip hops. induction fuel as [|fuel IH]; intros via req strip hops Hf Hv; [lia|]. simpl.
  destruct (server _) as [|status u|]; try by eexists.
  unfold CheckRedirect. destruct m; try by eexists.
  destruct (Nat.leb_spec 10 (length (via ++ [req]))) as [Hl|Hl]; [by eexists|].
  apply IH; rewrite ?length_app in *; simpl in *; lia.
Qed.

(** C25: A redirected fetch ends, whatever the server answers: at most ten
    requests are sent. The first is the request itself, and of the redirected
    ones each carries the Authorization and Cookie headers exactly when it goes
    to the origin of the request before it and no request left the domain of the
    first. So a hop to another origin never carries them; the hop after it does,
    when it stays where the chain was led to on the same host. *)
Theorem fetch_redirect_credentials (server : list request → reply) (m : redirectMode) (req : request) :
  ∃ sent out hops, Do 10 server m req = Some (sent, out, hops) ∧
    (∃ rest, sent = req :: rest) ∧ (length sent <= 10)%nat ∧
    (∀ i p r k, sent !! i = Some p → sent !! S i = Some r → credential k →
       rq_header r !! k = carries req p r (take (S i) (tail sent)) k).
Proof.
  destruct (chase_total server m req 10 [] req false 0) as [[[sent out] hops] Hc]; [simpl; lia..|].
  exists sent, out, hops. split; [done|].
  eapply chase_spec in Hc as (Hh & Hg & Hl); [done|by exists []| |simpl; lia|done].
  intros i p r k Hi HSi. by destruct i.
Qed.

(** *** On one host *)

(** https://a.test answers with a redirect to port 8080 of the same host, which
    redirects to itself. *)
Definition port_hop : list request → reply := λ sent,
  match sent with
  | [_] | [_; _] => Redirect 302 (MkURL (lit "http") (lit "a.test") (lit "8080"))
  | _ => Final 200
  end.

Definition bearer : request :=
  MkReq (MkURL (lit "https") (lit "a.test") []) (set_headers [(lit "authorization", lit "Bearer t")]).

(** The second request, to another origin, is sent without the token; the third,
    to that same other origin, with it. *)
Example port_hop_leaks :
  match Do 10 port_hop Follow bearer with
  | Some (sent, _, _) => map (λ r, rq_header r !! lit "Authorization") sent
  | None => []
  end = [Some [lit "Bearer t"]; None; Some [lit "Bearer t"]].
Proof. vm_compute. reflexivity. Qed.

Definition toy_ip (s : bytes) : option bytes := if bool_decide (s = lit "10.0.0.1") then Some s else None.
Definition toy_lookup (s : bytes) : option (list bytes) :=
  if bool_decide (s = lit "a.test") then Some [lit "10.0.0.1"; lit "10.0.0.2"; lit "10.0.0.3"] else None.

(** Resolve allows a.test, Dial everything but 10.0.0.1. *)
Definition toy_config : Config :=
  MkConfig (Some (λ h, bool_decide (h = lit "a.test"))) (Some (λ _ _ ip _, negb (bool_decide (ip = lit "10.0.0.1")))).

Lemma fetch_needs_permission_witness :
  (dial toy_ip toy_lookup (λ _, true) toy_config (lit "tcp") (lit "a.test:443")).2 = Ok (lit "10.0.0.2:443") ∧
  granted toy_lookup toy_ip toy_config (lit "tcp") (lit "a.test:443") (lit "10.0.0.2:443").
Proof.
  split; [vm_compute; reflexivity|].
  apply (proj1 (fetch_needs_permission toy_ip toy_lookup (λ _, true) (λ _ _, None) toy_config) (lit "tcp") (lit "a.test:443")).
  vm_compute. left.
Defined.
