(* ===== verification/ClientReq.v ===== *)
(** What compat/nodejs/net.go decides about an outbound connection or request of
    node:net, node:http and node:dgram before it is under way: the address a name
    is resolved to, the headers of a client request, the pool of an agent, and
    the body of a streaming request, a queue between the guest and the transport's
    goroutine. *)

From S2P Require Import Prelude Json FetchReq.

(** strconv.Itoa *)
Definition Itoa (n : Z) : bytes := if n <? 0 then 45 :: format_uint (- n) else format_uint n.

(** ** Addresses *)

(** The errors of resolveDialAddr, with what their texts show. *)
Inductive resolveErr :=
| DialRefused (host : bytes) (port : Z)
| ResolveRefused (host : bytes)
| NoDialPolicy (host : bytes) (port : Z)
| LookupRefused (host cause : bytes).

Section Resolve.
(** The text of the address a string spells, the resolver's answer or its error,
    and the %q of fmt. *)
Context (ParseIP : bytes → option bytes) (LookupIP : bytes → result bytes (list bytes)) (quoted : bytes → bytes).

Definition resolveDialAddr (cfg : Config) (network host : bytes) (port : Z) : result resolveErr bytes :=
  let portStr := Itoa port in
  match ParseIP host with
  | Some ip =>
      if mayDial cfg network [] ip port then Ok (JoinHostPort ip portStr) else Err (DialRefused host port)
  | None =>
      if negb (mayResolve cfg host) then Err (ResolveRefused host)
      else
        match cfgDial cfg with
        | None => Err (NoDialPolicy host port)
        | Some allow =>
            match LookupIP host with
            | Err cause => Err (LookupRefused host cause)
            | Ok ips =>
                match List.find (λ ip, allow network host ip port) ips with
                | Some ip => Ok (JoinHostPort ip portStr)
                | None => Err (DialRefused host port)
                end
            end
        end
  end.

(** err.Error() *)
Definition Error (e : resolveErr) : bytes :=
  match e with
  | DialRefused host port => lit "dial " ++ host ++ lit ":" ++ Itoa port ++ lit ": permission denied"
  | ResolveRefused host => lit "resolve " ++ quoted host ++ lit ": permission denied"
  | NoDialPolicy host port => lit "dial " ++ host ++ lit ":" ++ Itoa port ++ lit ": permission denied (no Dial policy)"
  | LookupRefused host cause => lit "resolve " ++ quoted host ++ lit ": " ++ cause
  end.

(** The DialContext of gatedTransport, up to the dial itself. *)
Definition gatedDial (cfg : Config) (network addr : bytes) : option (result resolveErr bytes) :=
  '(host, portStr) ← SplitHostPort addr;
  Some (resolveDialAddr cfg network host (Atoi portStr)).

End Resolve.

(** The code of the object a guest's error callback gets. *)
Definition netErr (message : bytes) : bytes :=
  if contains message (lit "permission denied") then lit "EACCES" else lit "ECONNREFUSED".

(** ** Headers *)

(** req.Header.Add *)
Definition hAdd (h : Header) (k v : bytes) : Header :=
  <[CanonicalHeaderKey k := default [] (h !! CanonicalHeaderKey k) ++ [v]]> h.

Section Headers.
(** strconv.FormatFloat of the float64 a JSON number stands for, [None] when it
    is out of range; the order in which a for-range loop visits a map. *)
Context (FormatFloat : bytes → option bytes) (range : gmap bytes json → list (bytes * json)).

Definition headerScalar (v : json) : bytes :=
  match v with
  | JStr s => s
  | JNum t => default [] (FormatFloat t)
  | JBool b => if b then lit "true" else lit "false"
  | JNull => []
  | JArr _ | JObj _ => lit "[object Object]"
  end.

(** Whether every number of a document is a float64: Unmarshal reports the first
    that is not. *)
Fixpoint numbers_fit (v : json) : bool :=
  match v with
  | JNum t => match FormatFloat t with Some _ => true | None => false end
  | JArr items => forallb numbers_fit items
  | JObj ms => forallb (λ kv, numbers_fit kv.2) ms
  | _ => true
  end.

(** json.Unmarshal into a map[string]any. *)
Definition unmarshal_map (raw : bytes) : option (gmap bytes json) :=
  match Json.parse raw with
  | Some (JObj ms) => if forallb (λ kv, numbers_fit kv.2) ms then Some (foldl (λ m kv, <[kv.1 := kv.2]> m) ∅ ms) else None
  | Some JNull => Some ∅
  | _ => None
  end.

Definition applyHeader (h : Header) (kv : bytes * json) : Header :=
  match kv.2 with
  | JStr s => hSet h kv.1 s
  | JArr items => foldl (λ h e, hAdd h kv.1 (headerScalar e)) h items
  | v => hSet h kv.1 (headerScalar v)
  end.

Definition applyClientHeaders (h : Header) (headersJSON : bytes) : Header :=
  match unmarshal_map headersJSON with
  | None => h
  | Some m => foldl applyHeader h (range m)
  end.

End Headers.

(** ** Agents *)

(** type agentConfig *)
Record agentConfig := MkAgent { ID : Z; KeepAlive : bool; MaxSockets : Z; MaxFreeSockets : Z }.

(** strconv.ParseInt(t, 10, 64) of a JSON number. *)
Definition int_of (v : json) : option Z :=
  match v with
  | JNum t =>
      let '(neg, ds) := match t with c :: t' => if c =? 45 then (true, t') else (false, t) | [] => (false, t) end in
      match Json.to_uint 0 ds with
      | Some n =>
          let n := if (neg : bool) then - n else n in
          if (- 2 ^ 63 <=? n) && (n <? 2 ^ 63) then Some n else None
      | None => None
      end
  | _ => None
  end.

Definition bool_of (v : json) : option bool := match v with JBool b => Some b | _ => None end.

(** A field whose ill-typed values are passed over, the error being ignored. *)
Definition field_or {A} (get : json → option A) (zero : A) (name : string) (ms : list (bytes * json)) : A :=
  foldl (λ acc v, default acc (get v)) zero (Json.values name ms).

Definition agent_of (agentJSON : bytes) : agentConfig :=
  let ms := default [] (Json.members agentJSON) in
  MkAgent (field_or int_of 0 "id" ms) (field_or bool_of false "keepalive" ms)
    (field_or int_of 0 "maxsockets" ms) (field_or int_of 0 "maxfreesockets" ms).

(** What gatedTransport's result is configured with, and its identity. *)
Record transport := MkTransport { serial : Z; MaxConnsPerHost : Z; MaxIdleConnsPerHost : Z }.

(** st.transports, the transports made so far, and those whose idle connections
    were closed. *)
Record pools := MkPools { transports : gmap Z transport; made : Z; idleClosed : list Z }.

Definition noPools : pools := MkPools ∅ 0 [].

(** The client's transport, and whether the cleanup closes its idle
    connections. *)
Definition clientForAgent (a : agentConfig) (s : pools) : transport * bool * pools :=
  let fresh := MkTransport (made s + 1) 0 0 in
  if negb (KeepAlive a) || (ID a =? 0) then (fresh, true, MkPools (transports s) (made s + 1) (idleClosed s))
  else
    match transports s !! ID a with
    | Some tr => (tr, false, s)
    | None =>
        let tr := MkTransport (made s + 1) (if 0 <? MaxSockets a then MaxSockets a else 0)
                    (if 0 <? MaxFreeSockets a then MaxFreeSockets a else 0) in
        (tr, false, MkPools (<[ID a := tr]> (transports s)) (made s + 1) (idleClosed s))
    end.

Definition closeIdle (tr : transport) (s : pools) : pools :=
  MkPools (transports s) (made s) (idleClosed s ++ [serial tr]).

Definition opHTTPAgentClose (agentId : Z) (s : pools) : pools :=
  match transports s !! agentId with
  | Some tr => closeIdle tr (MkPools (delete agentId (transports s)) (made s) (idleClosed s))
  | None => s
  end.

(** ** The body of a streaming request *)

Module Body.

(** Where the transport's call of Read is. *)
Inductive reader := Away | Looking (n : nat) | Parked (n : nat).

(** type clientReqStream. [notify] says whether the channel holds a token,
    [aborted] is the closed channel done; [signals] are wake-ups on their way,
    sent after the lock is released. The last three fields are not in the code:
    the bytes the guest wrote, those Read has given, and whether Read answered
    the end. *)
Record clientReqStream := MkStream {
  chunks : list bytes;
  cur : bytes;
  closed : bool;
  notify : bool;
  aborted : bool;
  at_ : reader;
  signals : nat;
  written : bytes;
  given : bytes;
  ended : bool
}.

Definition newStream : clientReqStream := MkStream [] [] false false false Away 0 [] [] false.

(** The locked part of write; the signal follows. *)
Definition write (b : bytes) (s : clientReqStream) : clientReqStream :=
  if closed s then MkStream (chunks s) (cur s) (closed s) (notify s) (aborted s) (at_ s) (S (signals s)) (written s) (given s) (ended s)
  else MkStream (chunks s ++ [b]) (cur s) (closed s) (notify s) (aborted s) (at_ s) (S (signals s)) (written s ++ b) (given s) (ended s).

Definition close (s : clientReqStream) : clientReqStream :=
  MkStream (chunks s) (cur s) true (notify s) (aborted s) (at_ s) (S (signals s)) (written s) (given s) (ended s).

Definition abort (s : clientReqStream) : clientReqStream :=
  MkStream (chunks s) (cur s) (closed s) (notify s) true (at_ s) (signals s) (written s) (given s) (ended s).

Definition signal (s : clientReqStream) : option clientReqStream :=
  match signals s with
  | O => None
  | S k => Some (MkStream (chunks s) (cur s) (closed s) true (aborted s) (at_ s) k (written s) (given s) (ended s))
  end.

Definition with_reader (r : reader) (s : clientReqStream) : clientReqStream :=
  MkStream (chunks s) (cur s) (closed s) (notify s) (aborted s) r (signals s) (written s) (given s) (ended s).
Definition answers_end (s : clientReqStream) : clientReqStream :=
  MkStream (chunks s) (cur s) (closed s) (notify s) (aborted s) Away (signals s) (written s) (given s) true.

(** The transport calls Read with a buffer of [n] bytes. *)
Definition read (n : nat) (s : clientReqStream) : option clientReqStream :=
  match at_ s with Away => if (0 <? n)%nat then Some (with_reader (Looking n) s) else None | _ => None end.

(** The locked section of Read: the next chunk becomes the current one, which is
    copied from; without one the end is answered or the channels are waited on. *)
Definition look (s : clientReqStream) : option clientReqStream :=
  match at_ s with
  | Looking n =>
      let '(cur', chunks') :=
        match cur s, chunks s with [], c :: cs => (c, cs) | x, cs => (x, cs) end in
      Some
        (if bool_decide (cur' = []) then
           let s' := MkStream chunks' cur' (closed s) (notify s) (aborted s) (at_ s) (signals s) (written s) (given s) (ended s) in
           if closed s then answers_end s' else with_reader (Parked n) s'
         else
           MkStream chunks' (drop n cur') (closed s) (notify s) (aborted s) Away (signals s) (written s)
             (given s ++ take n cur') (ended s))
  | _ => None
  end.

(** The two arms of its select. *)
Definition wake (s : clientReqStream) : option clientReqStream :=
  match at_ s with
  | Parked n =>
      if notify s
      then Some (MkStream (chunks s) (cur s) (closed s) false (aborted s) (Looking n) (signals s) (written s) (given s) (ended s))
      else None
  | _ => None
  end.

Definition leave (s : clientReqStream) : option clientReqStream :=
  match at_ s with Parked _ => if aborted s then Some (answers_end s) else None | _ => None end.

Inductive label := Write (b : bytes) | Close | Abort | Signal | Read (n : nat) | Look | Wake | GiveUp.

Definition step (l : label) (s : clientReqStream) : option clientReqStream :=
  match l with
  | Write b => Some (write b s)
  | Close => Some (close s)
  | Abort => Some (abort s)
  | Signal => signal s
  | Read n => read n s
  | Look => look s
  | Wake => wake s
  | GiveUp => leave s
  end.

(** A guest's write is never empty (opHTTPClientWrite). *)
Definition polite (l : label) : Prop := match l with Write b => b ≠ [] | _ => True end.

Inductive reach : clientReqStream → Prop :=
| reach_new : reach newStream
| reach_step l s s' : reach s → polite l → step l s = Some s' → reach s'.

End Body.

(** ** The address a connection goes to *)

Lemma contains_mid s sub t : contains (s ++ sub ++ t) sub = true.
Proof.
  induction s as [|c s IH]; simpl app.
  - destruct sub as [|x sub]; [by destruct t|]. pose proof (has_prefix_app (x :: sub) t) as Hp. cbn [contains app] in *. by rewrite Hp.
  - cbn [contains]. by rewrite IH, orb_true_r.
Qed.

Section Spec.
Context (ParseIP : bytes → option bytes) (LookupIP : bytes → result bytes (list bytes)) (quoted : bytes → bytes).

Lemma find_first {A} (p : A → bool) l x :
  List.find p l = Some x ↔ ∃ pre suf, l = pre ++ x :: suf ∧ p x = true ∧ Forall (λ y, p y = false) pre.
Proof.
  induction l as [|y l IH]; simpl.
  - split; [done|]. by intros ([|? ?] & ? & ? & _).
  - destruct (p y) eqn:Hy.
    + split.
      * intros [= <-]. by exists [], l.
      * intros ([|z pre] & suf & [= <- ->] & _ & Hf); [done|]. apply Forall_inv in Hf. congruence.
    + rewrite IH. split.
      * intros (pre & suf & -> & Hx & Hf). exists (y :: pre), suf. split_and!; [done|done|by constructor].
      * intros ([|z pre] & suf & [= <- ->] & Hx & Hf); [congruence|]. apply Forall_cons in Hf as [_ Hf]. by exists pre, suf.
Qed.

Lemma find_nothing {A} (p : A → bool) l : List.find p l = None ↔ Forall (λ y, p y = false) l.
Proof.
  induction l as [|y l IH]; simpl; [by split|]. rewrite Forall_cons. destruct (p y) eqn:Hy; [by split; [|intros [? _]]|].
  rewrite IH. naive_solver.
Qed.

Lemma refusal_text e :
  match e with LookupRefused _ _ => True | _ => ∃ a b, Error quoted e = a ++ lit "permission denied" ++ b end.
Proof.
  destruct e as [host port|host|host port|]; [| | |done]; simpl Error.
  - exists (lit "dial " ++ host ++ lit ":" ++ Itoa port ++ lit ": "), []. rewrite <-!app_assoc. reflexivity.
  - exists (lit "resolve " ++ quoted host ++ lit ": "), []. rewrite <-!app_assoc. reflexivity.
  - exists (lit "dial " ++ host ++ lit ":" ++ Itoa port ++ lit ": "), (lit " (no Dial policy)"). rewrite <-!app_assoc. reflexivity.
Qed.

Lemma refusal_code e : netErr (Error quoted e) = lit "EACCES" ∨ ∃ host cause, e = LookupRefused host cause.
Proof.
  pose proof (refusal_text e) as Ht. destruct e; [left|left|left|right; by eexists _, _].
  all: destruct Ht as (a & b & ->); unfold netErr; by rewrite contains_mid.
Qed.

(** The one address Config.Dial lets a connection to [host] and [port] use. *)
Definition approved (cfg : Config) (network host : bytes) (port : Z) (ip : bytes) : Prop :=
  (ParseIP host = Some ip ∧ mayDial cfg network [] ip port = true) ∨
  (ParseIP host = None ∧ mayResolve cfg host = true ∧ ∃ pre suf, LookupIP host = Ok (pre ++ ip :: suf) ∧
     mayDial cfg network host ip port = true ∧ Forall (λ x, mayDial cfg network host x port = false) pre).

Lemma dial_approved cfg network host port a :
  resolveDialAddr ParseIP LookupIP cfg network host port = Ok a ↔
  ∃ ip, a = JoinHostPort ip (Itoa port) ∧ approved cfg network host port ip.
Proof.
  unfold resolveDialAddr, approved. destruct (ParseIP host) as [ip|].
  - destruct (mayDial cfg network [] ip port) eqn:Hd.
    + split; [intros [= <-]; eauto|]. by intros (ip' & -> & [[[= ->] _]|[? _]]).
    + split; [done|]. intros (ip' & -> & [[[= ->] ?]|[? _]]); congruence.
  - destruct (mayResolve cfg host); simpl; [|split; [done|by intros (? & _ & [[? _]|(_ & ? & _)])]].
    unfold mayDial. destruct (cfgDial cfg) as [allow|].
    2: { split; [done|]. by intros (? & _ & [[? _]|(_ & _ & ? & ? & _ & ? & _)]). }
    destruct (LookupIP host) as [ips|cause].
    2: { split; [done|]. by intros (? & _ & [[? _]|(_ & _ & ? & ? & ? & _)]). }
    destruct (List.find _ ips) as [ip|] eqn:Hf.
    + apply find_first in Hf as (pre & suf & -> & Hip & Hpre).
      split; [intros [= <-]; exists ip; split; [done|right]; split_and!; try done; by exists pre, suf|].
      intros (ip' & -> & [[? _]|(_ & _ & pre' & suf' & [= Hl] & Hip' & Hpre')]); [done|]. do 2 f_equal.
      cut (Some ip = Some ip'); [by intros [= ->]|].
      rewrite <-(proj2 (find_first (λ ip, allow network host ip port) (pre ++ ip :: suf) ip)) by (by exists pre, suf).
      apply find_first. by exists pre', suf'.
    + apply find_nothing in Hf. split; [done|].
      intros (ip' & -> & [[? _]|(_ & _ & pre' & suf' & [= ->] & Hip' & _)]); [done|].
      rewrite Forall_app, Forall_cons in Hf. destruct Hf as (_ & ? & _). congruence.
Qed.

Lemma resolve_refused cfg network host port e :
  resolveDialAddr ParseIP LookupIP cfg network host port = Err e →
  netErr (Error quoted e) = lit "EACCES" ∨
  ∃ cause, e = LookupRefused host cause ∧ LookupIP host = Err cause ∧ mayResolve cfg host = true.
Proof.
  intros He. destruct (refusal_code e) as [Hc|(h & cause & ->)]; [by left|right].
  exists cause. unfold resolveDialAddr in He. destruct (ParseIP host); [by destruct (mayDial _ _ _ _ _)|].
  destruct (mayResolve cfg host); [|done]. simpl in He. destruct (cfgDial cfg); [|done].
  destruct (LookupIP host); [by destruct (List.find _ _)|]. by simplify_eq.
Qed.

(** C29: A connection of node:net, node:tls, node:dgram (resolveDialAddr) or of the
    client transport of node:http (gatedDial, by the host and port of its address)
    goes to an address only when Config.Dial allowed that very address and port: a
    literal address as it is spelled, or, when Config.Resolve allows the lookup of
    the name, the first address of the single lookup that Dial allows for the name.
    A refusal by Config.Dial or Config.Resolve, or by the lack of Config.Dial, reads
    EACCES for the guest; the only other one is a lookup's failure. An address
    that does not split into a host and a port is not dialed. *)
Theorem outbound_first_approved (cfg : Config) (network : bytes) :
  (∀ host port a, resolveDialAddr ParseIP LookupIP cfg network host port = Ok a ↔
    ∃ ip, a = JoinHostPort ip (Itoa port) ∧ approved cfg network host port ip) ∧
  (∀ addr a, gatedDial ParseIP LookupIP cfg network addr = Some (Ok a) ↔
    ∃ host portStr ip, SplitHostPort addr = Some (host, portStr) ∧ a = JoinHostPort ip (Itoa (Atoi portStr)) ∧
      approved cfg network host (Atoi portStr) ip) ∧
  (∀ addr, gatedDial ParseIP LookupIP cfg network addr = None ↔ SplitHostPort addr = None) ∧
  (∀ host port e, resolveDialAddr ParseIP LookupIP cfg network host port = Err e →
    netErr (Error quoted e) = lit "EACCES" ∨
    ∃ cause, e = LookupRefused host cause ∧ LookupIP host = Err cause ∧ mayResolve cfg host = true).
Proof.
  split_and!; [intros host port a; apply dial_approved| |  |intros host port e; apply resolve_refused].
  - intros addr a. unfold gatedDial. destruct (SplitHostPort addr) as [[host portStr]|]; simpl; [|naive_solver].
    split.
    + intros [= Hr]. apply dial_approved in Hr as (ip & -> & Hip). by exists host, portStr, ip.
    + intros (h & p & ip & [= <- <-] & -> & Hip). f_equal. apply dial_approved. eauto.
  - intros addr. unfold gatedDial. by destruct (SplitHostPort addr) as [[host portStr]|].
Qed.
End Spec.

(** ** The headers of a request *)

Section HeaderSpec.
Context (FormatFloat : bytes → option bytes).

Abbreviation apply := (applyHeader FormatFloat).

(** The values a member sets, [None] when it sets none. *)
Definition header_values (v : json) : option (list bytes) :=
  match v with
  | JArr [] => None
  | JArr items => Some (map (headerScalar FormatFloat) items)
  | v => Some [headerScalar FormatFloat v]
  end.

Lemma hAdd_all k items h :
  foldl (λ h e, hAdd h k (headerScalar FormatFloat e)) h items =
    match items with
    | [] => h
    | _ => <[CanonicalHeaderKey k := default [] (h !! CanonicalHeaderKey k) ++ map (headerScalar FormatFloat) items]> h
    end.
Proof.
  revert h. induction items as [|e items IH]; intros h; [done|]. simpl foldl. rewrite IH. unfold hAdd.
  destruct items as [|e' items]; [done|]. rewrite lookup_insert_eq, insert_insert_eq. simpl. by rewrite <-app_assoc.
Qed.

Lemma apply_ne h kv c : c ≠ CanonicalHeaderKey kv.1 → apply h kv !! c = h !! c.
Proof.
  intros Hc. unfold applyHeader. destruct kv.2 as [| | | |items|]; try by apply lookup_insert_ne.
  rewrite hAdd_all. destruct items; [done|]. by apply lookup_insert_ne.
Qed.

Lemma apply_eq h kv :
  h !! CanonicalHeaderKey kv.1 = None → apply h kv !! CanonicalHeaderKey kv.1 = header_values kv.2.
Proof.
  intros Hn. unfold applyHeader, header_values. destruct kv.2 as [| | | |items|]; try by apply lookup_insert_eq.
  rewrite hAdd_all. destruct items; [done|]. by rewrite lookup_insert_eq, Hn.
Qed.

Lemma apply_all_ne h kvs c : Forall (λ kv, c ≠ CanonicalHeaderKey kv.1) kvs → foldl apply h kvs !! c = h !! c.
Proof.
  revert h. induction kvs as [|kv kvs IH]; intros h Hf; [done|]. apply Forall_cons in Hf as [Hc Hf].
  simpl. rewrite IH by done. by apply apply_ne.
Qed.

(** The headers of a client request are, in any iteration order, those the
    guest's object names: no two of its names being the same header, each has
    exactly the values of its member. *)
Lemma client_headers_spec (range : gmap bytes json → list (bytes * json)) (headersJSON : bytes) (m : gmap bytes json) k v :
  range m ≡ₚ map_to_list m →
  unmarshal_map FormatFloat headersJSON = Some m →
  NoDup (map (λ kv, CanonicalHeaderKey kv.1) (map_to_list m)) →
  m !! k = Some v →
  applyClientHeaders FormatFloat range ∅ headersJSON !! CanonicalHeaderKey k = header_values v.
Proof.
  intros Hr Hm Hn Hk. unfold applyClientHeaders. rewrite Hm. rewrite <-Hr in Hn.
  assert (Hin : (k, v) ∈ range m) by (rewrite Hr; by apply elem_of_map_to_list).
  apply list_elem_of_split in Hin as (pre & suf & Heq). rewrite Heq in *.
  rewrite map_app in Hn. simpl in Hn. apply NoDup_app in Hn as (_ & Hpre & Hsuf). apply NoDup_cons in Hsuf as [Hsuf _].
  rewrite foldl_app. simpl. rewrite apply_all_ne.
  - apply (apply_eq _ (k, v)). rewrite apply_all_ne; [apply lookup_empty|].
    apply Forall_forall. intros kv Hkv. simpl. intros Hc. apply (Hpre (CanonicalHeaderKey kv.1)).
    + rewrite <-Hc. rewrite list_elem_of_fmap. by exists kv.
    + rewrite <-Hc. by left.
  - apply Forall_forall. intros kv Hkv Hc. apply Hsuf. rewrite Hc. rewrite list_elem_of_fmap. by exists kv.
Qed.

End HeaderSpec.

(** Two names of one header: the order decides which value is sent. *)
Example header_order_matters :
  let m := [(lit "Cookie", JStr (lit "a")); (lit "cookie", JStr (lit "b"))] in
  foldl (applyHeader Some) ∅ m !! lit "Cookie" = Some [lit "b"] ∧
  foldl (applyHeader Some) ∅ (reverse m) !! lit "Cookie" = Some [lit "a"].
Proof. split; vm_compute; reflexivity. Qed.

(** ** Pools *)

(** A keep-alive agent keeps its transport, whatever its later descriptors say,
    until it is closed. *)
Lemma agent_keeps_transport a a' s tr b s1 s2 :
  KeepAlive a = true → ID a ≠ 0 → KeepAlive a' = true → ID a' = ID a →
  clientForAgent a s = (tr, b, s1) → transports s2 !! ID a = transports s1 !! ID a →
  b = false ∧ clientForAgent a' s2 = (tr, false, s2).
Proof.
  intros Hk Hid Hk' Hid' Hc Hs. unfold clientForAgent in *. rewrite Hk, Hk', Hid' in *.
  rewrite (proj2 (Z.eqb_neq (ID a) 0) Hid) in *. simpl in *.
  destruct (transports s !! ID a) as [t|] eqn:E; simplify_eq; split; try done.
  - by rewrite Hs, E.
  - rewrite Hs. simpl. by rewrite lookup_insert_eq.
Qed.

(** ** The body reaches the transport whole *)

Import Body.

(** What the guest wrote and Read has not given. *)
Definition unread (s : clientReqStream) : bytes := cur s ++ concat (chunks s).

Record body_inv (s : clientReqStream) : Prop := {
  b_split : written s = given s ++ unread s;
  b_chunks : Forall (λ c, c ≠ []) (chunks s);
  b_reader : match at_ s with
             | Away => True
             | Looking n => (0 < n)%nat
             | Parked n => (0 < n)%nat ∧ cur s = [] ∧ (chunks s ≠ [] ∨ closed s = true → notify s = true ∨ (0 < signals s)%nat)
             end;
  b_ended : ended s = true → aborted s = true ∨ (closed s = true ∧ unread s = [])
}.

Lemma take_step (n : nat) (g c r : bytes) : g ++ c ++ r = (g ++ take n c) ++ drop n c ++ r.
Proof. rewrite <-(take_drop n c) at 1. by rewrite <-!app_assoc. Qed.

Lemma look_inv s s' : look s = Some s' → body_inv s → body_inv s'.
Proof.
  intros Hs [H1 H2 H3 H4]. unfold look in Hs. destruct (at_ s) as [|n|n] eqn:Hat; [done| |done].
  unfold unread in *.
  destruct (cur s) as [|x cs] eqn:Hc; [destruct (chunks s) as [|c ch] eqn:Hch|].
  - rewrite bool_decide_true in Hs by done. destruct (closed s) eqn:Hcl; simplify_eq; split; simpl; try done; auto.
    split_and!; [done|done|]. intros [|]; done.
  - apply Forall_cons in H2 as [Hne H2]. rewrite bool_decide_false in Hs by done. simplify_eq. split; simpl; try done.
    + rewrite H1. apply (take_step n _ c).
    + intros He. destruct (H4 He) as [|[? Hu]]; [by left|]. simpl in Hu. apply app_eq_nil in Hu as [-> _]. done.
  - rewrite bool_decide_false in Hs by done. simplify_eq. split; simpl; try done.
    + rewrite H1. apply take_step.
    + intros He. destruct (H4 He) as [|[? Hu]]; [by left|done].
Qed.

Lemma body_step_inv l s s' : polite l → step l s = Some s' → body_inv s → body_inv s'.
Proof.
  intros Hl Hs Hi. destruct l as [b| | | |n| | |]; simpl in Hs; simplify_eq; [| | | | |by eapply look_inv| |].
  all: destruct Hi as [H1 H2 H3 H4]; unfold unread in *.
  - unfold write. destruct (closed s) eqn:Hc; split; simpl; try done; unfold unread in *; simpl.
    + destruct (at_ s); try done. destruct H3 as (? & ? & ?). split_and!; auto with lia.
    + by rewrite H1, concat_app, <-!app_assoc; simpl; rewrite app_nil_r.
    + apply Forall_app. split; [done|]. by constructor.
    + destruct (at_ s); try done. destruct H3 as (? & ? & ?). split_and!; auto with lia.
    + intros He. destruct (H4 He) as [|[? ?]]; [by left|done].
  - split; simpl; try done.
    + destruct (at_ s); try done. destruct H3 as (? & ? & ?). split_and!; auto with lia.
    + intros He. destruct (H4 He) as [|[? ?]]; auto.
  - split; simpl; try done. intros _. by left.
  - unfold signal in Hs. destruct (signals s); simplify_eq/=. split; simpl; try done.
    destruct (at_ s); try done. destruct H3 as (? & ? & ?). split_and!; auto.
  - unfold read in Hs. destruct (at_ s); try done. destruct (0 <? n)%nat eqn:Hn; simplify_eq/=.
    split; simpl; try done. by apply Nat.ltb_lt.
  - unfold wake in Hs. destruct (at_ s); try done. destruct (notify s); simplify_eq/=. split; simpl; try done. apply H3.
  - unfold leave in Hs. destruct (at_ s); try done. destruct (aborted s) eqn:Ha; simplify_eq/=. split; simpl; try done. by left.
Qed.

Lemma reach_body_inv s : reach s → body_inv s.
Proof. induction 1 as [|l s s' _ IH Hl Hs]; [by split|by eapply body_step_inv]. Qed.

(** The body of a streaming request: Read gives the transport what the guest
    wrote before it ended the request, in order and unchanged; it answers the end
    only once everything was given, or after an abort. No wake-up is lost: while
    there is something to give or the end to tell, a waiting Read can be resumed,
    and a resumed Read with something to give gives at least one byte. *)
Theorem client_request_in_order (s : clientReqStream) (Hr : reach s) :
  written s = given s ++ unread s ∧
  (ended s = true → aborted s = true ∨ (closed s = true ∧ given s = written s)) ∧
  (∀ n, at_ s = Parked n → given s ≠ written s ∨ closed s = true →
     is_Some (wake s) ∨ ∃ s', signal s = Some s' ∧ is_Some (wake s')) ∧
  (∀ n, at_ s = Parked n → aborted s = true → is_Some (leave s)) ∧
  (∀ n, at_ s = Looking n → given s ≠ written s →
     ∃ s' b, look s = Some s' ∧ at_ s' = Away ∧ b ≠ [] ∧ given s' = given s ++ b).
Proof.
  apply reach_body_inv in Hr as [H1 H2 H3 H4].
  assert (Hun : given s ≠ written s → unread s ≠ []) by (intros Hne Hu; rewrite H1, Hu, app_nil_r in Hne; done).
  split_and!; [done| | | |].
  - intros He. destruct (H4 He) as [|[? Hu]]; [by left|right]. by rewrite H1, Hu, app_nil_r.
  - intros n Hat Hw. rewrite Hat in H3. destruct H3 as (_ & Hc & Hn). unfold wake, signal. rewrite Hat.
    destruct (notify s) eqn:Hno; [left; by eexists|right].
    destruct Hn as [|Hn]; [|done|].
    + destruct Hw as [Hw|]; [left|by right]. intros Hch. apply (Hun Hw). unfold unread. by rewrite Hc, Hch.
    + destruct (signals s) as [|k]; [lia|]. eexists. split; [done|]. by eexists.
  - intros n Hat Ha. unfold leave. rewrite Hat, Ha. by eexists.
  - intros n Hat Hw. specialize (Hun Hw). unfold look. rewrite Hat in *. unfold unread in Hun.
    destruct n as [|n]; [lia|].
    destruct (cur s) as [|x cs]; [destruct (chunks s) as [|[|x c] ch]|]; [done| | |].
    + by apply Forall_inv in H2.
    + eexists _, (take (S n) (x :: c)). split_and!; done.
    + eexists _, (take (S n) (x :: cs)). split_and!; done.
Qed.

(** An aborted request's body ends like a finished one: the transport is told
    io.EOF, with bytes the guest never wrote missing. *)
Example aborted_body_ends :
  let s := foldl (λ o l, o ≫= step l) (Some newStream) [Write (lit "par"); Read 9; Look; Read 9; Look; Abort; GiveUp] in
  (λ s, (given s, ended s, closed s)) <$> s = Some (lit "par", true, false).
Proof. reflexivity. Qed.

Lemma steps_reach ls s s' :
  Forall polite ls → reach s → foldl (λ o l, o ≫= step l) (Some s) ls = Some s' → reach s'.
Proof.
  intros Hls. revert s. induction Hls as [|l ls Hl _ IH]; intros s Hr Hs; [by simplify_eq/=|]. simpl in Hs.
  destruct (step l s) as [s1|] eqn:E.
  - eapply IH; [|exact Hs]. by eapply reach_step.
  - assert (foldl (λ o l, o ≫= step l) (@None clientReqStream) ls = None) as Hn by (clear; by induction ls). congruence.
Qed.

Lemma client_request_in_order_witness :
  ∃ s, reach s ∧ at_ s = Parked 4 ∧ notify s = false ∧ written s = given s ++ unread s ∧ is_Some (leave s).
Proof.
  exists (MkStream [lit "lo"] [] false false true (Parked 4) 1 (lit "hello") (lit "hel") false).
  assert (Hr : reach (MkStream [lit "lo"] [] false false true (Parked 4) 1 (lit "hello") (lit "hel") false)).
  { apply (steps_reach [Write (lit "hel"); Signal; Read 4; Look; Read 4; Look; Wake; Look; Write (lit "lo"); Abort] newStream).
    - repeat constructor; done.
    - constructor.
    - reflexivity. }
  destruct (client_request_in_order _ Hr) as (H1 & _ & _ & H2 & _).
  split; [exact Hr|]. split; [reflexivity|]. split; [reflexivity|]. split; [exact H1|]. by apply (H2 4%nat).
Defined.
