(* ===== verification/Tls.v ===== *)
(** node:tls of compat/nodejs/tls.go: the client's dial and what is checked of
    its peer, the TLS listeners, the certificate a test server makes for itself,
    and what a guest is told of a certificate and of a failure.

    The sockets themselves are those of NetConn.v, with a request beside the id of
    every socket a TLS dial is under way for or was made for. crypto/tls and
    crypto/x509 are parameters: what DialWithDialer answers for an address and a
    configuration, the parsing of a certificate bundle, the fields of a parsed
    certificate. *)

From S2P Require Import Prelude Json Encoding Counting FetchReq ClientReq HostArg Cipher Kdf NodeKeys NodeDH Writer NetConn Http.

(** ** What a guest is told *)

(** The errors of errors.As that tlsDialErr looks for in the chain of a failure. *)
Inductive layer := HostnameError | UnknownAuthorityError | CertificateInvalidError | CertificateVerificationError.

#[export] Instance layer_eq_dec : EqDecision layer.
Proof. solve_decision. Defined.

(** A failure: the layers of its chain and its text. *)
Record failure := MkFailure { chain : list layer; text : bytes }.

Record guestErr := MkErr { code : bytes; message : bytes; verify : bool }.

Definition as_ (f : failure) (l : layer) : bool := bool_decide (l ∈ chain f).

Definition tlsDialErr (f : failure) : guestErr :=
  if as_ f HostnameError then MkErr (lit "ERR_TLS_CERT_ALTNAME_INVALID") (text f) true
  else if as_ f UnknownAuthorityError then MkErr (lit "UNABLE_TO_VERIFY_LEAF_SIGNATURE") (text f) true
  else if as_ f CertificateInvalidError then MkErr (lit "DEPTH_ZERO_SELF_SIGNED_CERT") (text f) true
  else if as_ f CertificateVerificationError then MkErr (lit "ERR_TLS_CERT_VERIFICATION") (text f) true
  else MkErr (netErr (text f)) (text f) false.

(** An X.509 name, and the certificate fields that peerCertInfo reads; the dates
    are the texts Format makes of them, as are the addresses and URIs. *)
Record name := MkName {
  CommonName : bytes; Organization : list bytes; OrganizationalUnit : list bytes;
  Country : list bytes; Locality : list bytes; Province : list bytes
}.

Record certificate := MkCert {
  CertRaw : bytes; CertSubject : name; CertIssuer : name; NotBeforeText : bytes; NotAfterText : bytes; Serial : Z;
  DNSNames : list bytes; IPAddresses : list bytes; EmailAddresses : list bytes; URIs : list bytes
}.

Definition pkixName (n : name) : list (bytes * bytes) :=
  (if bool_decide (CommonName n = []) then [] else [(lit "CN", CommonName n)]) ++
  flat_map (λ '(k, vs), match vs with v :: _ => [(lit k, v)] | [] => [] end)
    [("O"%string, Organization n); ("OU"%string, OrganizationalUnit n); ("C"%string, Country n); ("L"%string, Locality n); ("ST"%string, Province n)].

(** The loop of colonHex from its [i]th byte on. *)
Definition HEX (v : Z) : Z := if v <? 10 then 48 + v else 55 + v.

Fixpoint colonHex_from (i : nat) (b : bytes) : bytes :=
  match b with
  | [] => []
  | v :: b' => (if (0 <? i)%nat then [58] else []) ++ [HEX (Z.shiftr v 4); HEX (Z.land v 15)] ++ colonHex_from (S i) b'
  end.

Definition colonHex (b : bytes) : bytes := colonHex_from 0 b.

(** strings.Join(parts, ", ") *)
Fixpoint join_comma (parts : list bytes) : bytes :=
  match parts with [] => [] | [p] => p | p :: ps => p ++ lit ", " ++ join_comma ps end.

Definition subjectAltName (c : certificate) : bytes :=
  join_comma (map (app (lit "DNS:")) (DNSNames c) ++ map (app (lit "IP Address:")) (IPAddresses c) ++
              map (app (lit "email:")) (EmailAddresses c) ++ map (app (lit "URI:")) (URIs c)).

(** strings.ToUpper on hexadecimal text. *)
Definition ToUpper (s : bytes) : bytes := map (λ c, if in_range 97 122 c then c - 32 else c) s.

Record peerInfo := MkPeer {
  p_subject : list (bytes * bytes); p_issuer : list (bytes * bytes); valid_from : bytes; valid_to : bytes;
  p_serial : bytes; p_fingerprint : bytes; p_fingerprint256 : bytes; p_raw : bytes; subjectaltname : option bytes
}.

Section Tls.
(** A certificate pool; sha1.Sum and sha256.Sum256; net.ParseIP, the resolver and
    %q; x509.NewCertPool with AppendCertsFromPEM, [None] when it parses nothing. *)
Context {Pool : Type} (sha1 sha256 : bytes → bytes)
  (ParseIP : bytes → option bytes) (LookupIP : bytes → result bytes (list bytes)) (quoted : bytes → bytes)
  (AppendCertsFromPEM : bytes → option Pool).

(** [certs]: PeerCertificates of the connection's state. *)
Definition peerCertInfo (certs : list certificate) : option peerInfo :=
  match certs with
  | [] => None
  | c :: _ =>
      let san := subjectAltName c in
      Some (MkPeer (pkixName (CertSubject c)) (pkixName (CertIssuer c)) (NotBeforeText c) (NotAfterText c)
        (ToUpper (Text16 (Serial c))) (colonHex (sha1 (CertRaw c))) (colonHex (sha256 (CertRaw c)))
        (StdEncodeToString (CertRaw c)) (if bool_decide (san = []) then None else Some san))
  end.

(** ** Dialing *)

(** The tls.Config of a dial. *)
Record tlsConfig := MkTls { ServerName : bytes; InsecureSkipVerify : bool; RootCAs : option Pool }.

(** What opTLSConnect's goroutine dials with. *)
Record request := MkRequest { rq_host : bytes; rq_port : Z; rq_config : tlsConfig }.

(** The arguments before the callbacks: host, port, rejectUnauthorized, ca and
    servername. *)
Definition connect_request (host : bytes) (port : Z) (reject : bool) (caPEM servername : bytes) : option request :=
  let verifyName := if bool_decide (servername = []) then host else servername in
  let with_roots r := MkRequest host port (MkTls verifyName (negb reject) r) in
  if bool_decide (caPEM = []) then Some (with_roots None)
  else match AppendCertsFromPEM caPEM with Some p => Some (with_roots (Some p)) | None => None end.

(** Resolving and dialing; [DialWithDialer]: what the dial of an address came to,
    the peer's certificates or a failure. *)
Definition dialTLS (cfg : Config) (DialWithDialer : bytes → tlsConfig → result failure (list certificate)) (rq : request) :
  result failure (list certificate) :=
  match resolveDialAddr ParseIP LookupIP cfg (lit "tcp") (rq_host rq) (rq_port rq) with
  | Err e => Err (MkFailure [] (Error quoted e))
  | Ok addr => DialWithDialer addr (rq_config rq)
  end.

(** ** Sockets *)

(** The socket tables with, by id, the request of every TLS socket, what the
    peers of the connected ones showed, and what the guest was told of the others. *)
Record world := MkWorld {
  net : Net.world; requests : gmap Z request; peers : gmap Z (option peerInfo); refused : gmap Z guestErr
}.

Definition with_net (n : Net.world) (w : world) : world := MkWorld n (requests w) (peers w) (refused w).

Definition bad_ca : guestErr :=
  MkErr (lit "ERR_TLS_CERT_ALTNAME_INVALID") (lit "tls: failed to parse the provided ca certificate(s)") false.

Definition opTLSConnect (host : bytes) (port : Z) (reject : bool) (caPEM servername : bytes) (c : Net.callbacks) (k : option Z)
  (w : world) : result guestErr Z * world :=
  match connect_request host port reject caPEM servername with
  | None => (Err bad_ca, with_net (Net.freeObjects (Net.handles c ++ option_list k) (net w)) w)
  | Some rq =>
      let '(id, n) := Net.opNetConnect c k (net w) in
      (Ok id, MkWorld n (<[id := rq]> (requests w)) (peers w) (refused w))
  end.

(** The goroutine of a TLS socket has its dial's result. *)
Definition tls_dial_done (cfg : Config) (Dial : bytes → tlsConfig → result failure (list certificate)) (i : nat) (w : world) : option world :=
  match Net.gos (net w) !! i with
  | Some (Net.Dialing id _ _) =>
      rq ← requests w !! id;
      match dialTLS cfg Dial rq with
      | Ok certs => n ← Net.dial_done i true (net w); Some (MkWorld n (requests w) (<[id := peerCertInfo certs]> (peers w)) (refused w))
      | Err f => n ← Net.dial_done i false (net w); Some (MkWorld n (requests w) (peers w) (<[id := tlsDialErr f]> (refused w)))
      end
  | _ => None
  end.

(** *** Servers *)

(** tls.X509KeyPair makes a configuration of the texts of a certificate and its
    key, or does not. *)
Definition serverTLSConfig (X509KeyPair : bytes → bytes → bool) (certV keyV : arg) : bool :=
  match valueBytes certV, valueBytes keyV with Some c, Some k => X509KeyPair c k | _, _ => false end.

Inductive listened := Listening | Denied (code : bytes).

(** How far a listen gets; [bound]: tls.Listen's answer. The error of a bad
    certificate goes through netErr. *)
Definition listen (allow : option (bytes → bytes → bool)) (keyPair : bool) (cause : bytes) (bound : bool) (host : bytes) (port : Z) : listened :=
  if keyPair then
    if match allow with Some f => f (lit "tcp") (JoinHostPort host (Itoa port)) | None => false end then
      if bound then Listening else Denied (lit "EADDRINUSE")
    else Denied (lit "EACCES")
  else Denied (netErr cause).

Definition is_listening (l : listened) : bool := match l with Listening => true | Denied _ => false end.

Definition opTLSListen (l : listened) (onConnection : option Z) (w : world) : world :=
  with_net (Net.opNetListen (is_listening l) onConnection (net w)) w.

Definition opHTTPSListen (l : listened) (s : Http.world) : option Z * Http.world :=
  match l with
  | Listening =>
      let id := Http.nextID s + 1 in
      (Some id, Http.add_pending 1 (Http.with_servers ({[id]} ∪ Http.servers s) (Http.with_id id s)))
  | Denied _ => (None, s)
  end.

(** *** The certificate of a server that has none *)

Inductive usage := KeyUsageDigitalSignature | KeyUsageKeyEncipherment | ExtKeyUsageServerAuth.

Record template := MkTemplate {
  t_serial : Z; t_CommonName : bytes; t_validity : Z * Z; t_usages : list usage; t_DNSNames : list bytes; t_IPAddresses : list bytes
}.

(** Times in seconds from now; addresses by their texts. *)
Definition self_signed (host : option bytes) : template :=
  let host := default (lit "localhost") host in
  MkTemplate 1 host (-3600, 24 * 365 * 3600) [KeyUsageDigitalSignature; KeyUsageKeyEncipherment; ExtKeyUsageServerAuth]
    [host] [lit "127.0.0.1"; lit "::1"].

(** The two PEM texts; [GenerateKey] may fail, and CreateCertificate, pem and
    MarshalPKCS8PrivateKey are the library's. *)
Definition opTLSSelfSigned {K : Type} (GenerateKey : option K) (CreateCertificate : template → K → option bytes)
  (MarshalPKCS8PrivateKey : K → bytes) (EncodeToMemory : bytes → bytes → bytes) (host : option bytes) : option (bytes * bytes) :=
  priv ← GenerateKey;
  der ← CreateCertificate (self_signed host) priv;
  Some (EncodeToMemory (lit "CERTIFICATE") der, EncodeToMemory (lit "PRIVATE KEY") (MarshalPKCS8PrivateKey priv)).

(** ** Histories *)

Section Steps.
Context (cfg : Config) (Dial : bytes → tlsConfig → result failure (list certificate)).

Inductive label :=
| Connect (host : bytes) (port : Z) (reject : bool) (caPEM servername : bytes) (c : Net.callbacks) (k : option Z)
| DialDone (i : nat)
| Listen (l : listened) (onConnection : option Z)
| NetStep (l : Net.label).   (** any step of the sockets, but for the dials of TLS ones *)

(** The dial of a TLS socket. *)
Definition tls_dial (l : Net.label) (w : world) : bool :=
  match l with
  | Net.DialDone i _ => match Net.gos (net w) !! i with Some (Net.Dialing id _ _) => bool_decide (is_Some (requests w !! id)) | _ => false end
  | _ => false
  end.

Definition step (l : label) (w : world) : option world :=
  match l with
  | Connect host port reject caPEM servername c k => Some (opTLSConnect host port reject caPEM servername c k w).2
  | DialDone i => tls_dial_done cfg Dial i w
  | Listen l k => Some (opTLSListen l k w)
  | NetStep l => if tls_dial l w then None else n ← Net.step l (net w); Some (with_net n w)
  end.

(** The net_* step a TLS step would be, for the discipline of callbacks. *)
Definition as_net (l : label) : Net.label :=
  match l with
  | Connect _ _ _ _ _ c k => Net.OpConnect c k
  | DialDone i => Net.DialDone i true
  | Listen _ k => Net.OpListen true k
  | NetStep l => l
  end.

Definition attached (l : label) (w : world) : gset Z :=
  match l with
  | Connect host port reject caPEM servername _ _ =>
      match connect_request host port reject caPEM servername with Some _ => {[Net.nextID (net w) + 1]} | None => ∅ end
  | l => attaches (as_net l) (net w)
  end.

Inductive reach : gset Z → list Z → world → Prop :=
| reach_init : reach ∅ [] (MkWorld Net.newNetState ∅ ∅ ∅)
| reach_step att issued w l w' :
    reach att issued w → disciplined att issued (as_net l) → step l w = Some w' →
    reach (attached l w ∪ att) (takes (as_net l) ++ issued) w'.

Fixpoint steps (ls : list label) (w : world) : option world :=
  match ls with [] => Some w | l :: ls' => w' ← step l w; steps ls' w' end.

End Steps.
End Tls.

(** ** TLS sockets are sockets *)

Section Refinement.
Context {Pool : Type} (sha1 sha256 : bytes → bytes)
  (ParseIP : bytes → option bytes) (LookupIP : bytes → result bytes (list bytes)) (quoted : bytes → bytes)
  (AppendCertsFromPEM : bytes → option Pool) (cfg : Config) (Dial : bytes → tlsConfig (Pool:=Pool) → result failure (list certificate)).

Local Abbreviation world := (world (Pool:=Pool)).
Local Abbreviation step := (step sha1 sha256 ParseIP LookupIP quoted AppendCertsFromPEM cfg Dial).
Local Abbreviation reach := (reach sha1 sha256 ParseIP LookupIP quoted AppendCertsFromPEM cfg Dial).
Local Abbreviation dialTLS := (dialTLS ParseIP LookupIP quoted cfg Dial).

Lemma net_reach_step att issued s l s' att' issued' :
  NetConn.reach att issued s → disciplined att issued l → Net.step l s = Some s' →
  att' = attaches l s ∪ att → issued' = takes l ++ issued → NetConn.reach att' issued' s'.
Proof. intros. subst. by eapply NetConn.reach_step. Qed.

(** Callbacks that are released at once: two refused operations of node:net. *)
Lemma free_reach att issued s c k :
  NetConn.reach att issued s → NoDup (Net.handles c ++ option_list k) → (∀ h, h ∈ Net.handles c ++ option_list k → h ∉ issued) →
  NetConn.reach att (option_list k ++ Net.handles c ++ issued) (Net.freeObjects (Net.handles c ++ option_list k) s).
Proof.
  intros Hr Hnd Hf. apply NoDup_app in Hnd as (Hc & Hd & Hk). pose proof (a_bound _ _ _ (reach_accounted _ _ _ Hr)) as Hb.
  assert (Hno : ∀ X, X ⊆ att ∪ Net.conns s ∪ dom (Net.actors s) → Net.nextID s + 1 ∉ X).
  { intros X HX Hin. apply HX, Hb in Hin. lia. }
  assert (Ha : NetConn.reach att (Net.handles c ++ issued) (Net.freeObjects (Net.handles c) s)).
  { eapply (net_reach_step att issued s (Net.OpAttach (Net.nextID s + 1) c)); [done| | | |done].
    - split_and!; [done|intros h Hh; apply Hf; set_solver|apply Hno; set_solver].
    - simpl. unfold Net.opNetAttach. by rewrite bool_decide_false by (apply Hno; set_solver).
    - simpl. rewrite bool_decide_false by (apply Hno; set_solver). set_solver. }
  eapply (net_reach_step _ _ _ (Net.OpListen false k)); [exact Ha| | |set_solver|done].
  - split_and!; [done| |done]. intros h Hh Hin. simpl in Hh. apply elem_of_app in Hin as [Hin|Hin]; [by eapply Hd|].
    eapply Hf; [|exact Hin]. set_solver.
  - simpl. unfold Net.freeObjects, Net.add_log. simpl. by rewrite map_app, app_assoc.
Qed.

(** Which steps of the sockets register a connection, and under which id. *)
Lemma close_conns s : Net.conns (Net.closeNet s) = ∅ ∧ Net.nextID (Net.closeNet s) = Net.nextID s.
Proof.
  unfold Net.closeNet. generalize (elements (Net.writers s)) as ws. generalize (map_to_list (Net.readResume s)) as rr. intros rr ws.
  induction ws as [|id ws IH]; simpl; [|exact IH]. induction rr as [|e rr IH]; simpl; [done|exact IH].
Qed.

Lemma pump_end_conns i id c eof s :
  Net.nextID (Net.pump_end i id c eof s) = Net.nextID s ∧ Net.conns (Net.pump_end i id c eof s) ⊆ Net.conns s.
Proof. unfold Net.pump_end. repeat case_match; simpl; set_solver. Qed.

Lemma conns_step l s s' : Net.step l s = Some s' →
  Net.nextID s <= Net.nextID s' ∧ ∀ id, id ∈ Net.conns s' →
  id ∈ Net.conns s ∨ id = Net.nextID s + 1 ∨ ∃ i c k, l = Net.DialDone i true ∧ Net.gos s !! i = Some (Net.Dialing id c k).
Proof.
  intros Hs. destruct l; simpl in Hs;
    try unfold Net.opNetConnect, Net.opNetCloseServer in Hs;
    try unfold Net.opNetWrite, Net.opNetEnd, Net.opNetClose, Net.opNetListen, Net.opNetAttach, Net.pokeRead, Net.fireNetCallback in Hs;
    try unfold Net.dial_done, Net.open_done, Net.pump_arm, Net.pump_resume, Net.pump_read, Net.accept_done, Net.actor_step, Net.run_post in Hs;
    try (injection Hs as <-; destruct (close_conns s) as [-> ->]; set_solver);
    repeat (case_match; simplify_option_eq); simplify_option_eq; try done; try (split; [simpl; lia|simpl; set_solver]).
  all: match goal with |- context [Net.pump_end ?i ?id ?c ?b ?s1] => destruct (pump_end_conns i id c b s1) as [-> Hc] end.
  all: split; [simpl; lia|]; intros j Hj%Hc; by left.
Qed.

(** ** Who a TLS socket talks to *)

(** The address that the configuration's hooks allow for a host. *)
Local Abbreviation allowed host ip port := (approved ParseIP LookupIP cfg (lit "tcp") host port ip).

(** A request that was asked for, with the dial's answer to it. *)
Definition asked (rq : request) : Prop := ∃ host port reject ca sn, connect_request AppendCertsFromPEM host port reject ca sn = Some rq.

Record tls_inv (w : world) : Prop := {
  t_ids : ∀ id rq, requests w !! id = Some rq → id <= Net.nextID (net w) ∧ asked rq;
  t_conns : ∀ id, id ∈ Net.conns (net w) → is_Some (requests w !! id) → is_Some (peers w !! id);
  t_peers : ∀ id p, peers w !! id = Some p →
    ∃ rq certs, requests w !! id = Some rq ∧ dialTLS rq = Ok certs ∧ p = peerCertInfo sha1 sha256 certs;
  t_refused : ∀ id e, refused w !! id = Some e → ∃ rq f, requests w !! id = Some rq ∧ dialTLS rq = Err f ∧ e = tlsDialErr f
}.

(** A step of the sockets that is no TLS dial. *)
Lemma net_step_inv l w n : tls_inv w → Net.step l (net w) = Some n →
  (∀ i id c k, l = Net.DialDone i true → Net.gos (net w) !! i = Some (Net.Dialing id c k) → requests w !! id = None) →
  tls_inv (with_net n w).
Proof.
  intros [Hi Hc Hp Hf] Hs Hno. destruct (conns_step _ _ _ Hs) as [Hle Hin]. split; simpl; try done.
  - intros id rq Hrq. destruct (Hi id rq Hrq). split; [lia|done].
  - intros id Hid Hrq. destruct (Hin id Hid) as [?|[->|(i & c & k & -> & Hg)]]; [by apply Hc| |].
    + destruct Hrq as [rq Hrq]. apply Hi in Hrq as [? _]. lia.
    + rewrite (Hno i id c k) in Hrq by done. by destruct Hrq.
Qed.

Lemma dial_inv i id c k rq w w' :
  Net.gos (net w) !! i = Some (Net.Dialing id c k) → requests w !! id = Some rq →
  tls_dial_done sha1 sha256 ParseIP LookupIP quoted cfg Dial i w = Some w' → tls_inv w → tls_inv w'.
Proof.
  intros Hg Hrq Hs [Hi Hc Hp Hf]. unfold tls_dial_done in Hs. rewrite Hg, Hrq in Hs. cbn [mbind option_bind] in Hs.
  destruct (dialTLS rq) as [certs|f] eqn:Hd.
  - destruct (Net.dial_done i true (net w)) as [n|] eqn:Hn; [|done]. injection Hs as <-.
    destruct (conns_step (Net.DialDone i true) _ _ Hn) as [Hle Hin]. split; simpl; [| | |done].
    + intros j r Hr. destruct (Hi j r Hr). split; [lia|done].
    + intros j Hj [r Hr]. destruct (Hin j Hj) as [?|[->|(i' & c' & k' & [= <-] & Hg')]].
      * destruct (decide (j = id)) as [->|]; [rewrite lookup_insert_eq; eauto|]. rewrite lookup_insert_ne by done. apply Hc; eauto.
      * apply Hi in Hr as [? _]. lia.
      * assert (j = id) as -> by congruence. rewrite lookup_insert_eq. eauto.
    + intros j p. rewrite lookup_insert_Some. intros [[<- <-]|[_ Hpe]]; [eauto 10|by apply Hp].
  - destruct (Net.dial_done i false (net w)) as [n|] eqn:Hn; [|done]. injection Hs as <-.
    destruct (conns_step (Net.DialDone i false) _ _ Hn) as [Hle Hin]. split; simpl; [| |done|].
    + intros j r Hr. destruct (Hi j r Hr). split; [lia|done].
    + intros j Hj [r Hr]. destruct (Hin j Hj) as [?|[->|(i' & c' & k' & [=] & _)]]; [apply Hc; eauto|]. apply Hi in Hr as [? _]. lia.
    + intros j e. rewrite lookup_insert_Some. intros [[<- <-]|[_ He]]; [eauto 10|by apply Hf].
Qed.

Lemma step_tls_inv l w w' : step l w = Some w' → (∀ id, id ∈ Net.conns (net w) → id <= Net.nextID (net w)) → tls_inv w → tls_inv w'.
Proof.
  intros Hs Hb Hw. destruct l as [host port rej ca sn c k|i|l k|l]; simpl in Hs.
  - injection Hs as <-. unfold opTLSConnect. destruct (connect_request _ _ _ _ _ _) as [rq|] eqn:Hrq; [|by destruct Hw].
    destruct Hw as [Hi Hc Hp Hf]. assert (Hkeep : ∀ id r, requests w !! id = Some r → <[Net.nextID (net w) + 1 := rq]> (requests w) !! id = Some r).
    { intros id r Hr. rewrite lookup_insert_ne; [done|]. intros <-. apply Hi in Hr as [? _]. lia. }
    split; simpl.
    + intros id r. rewrite lookup_insert_Some. intros [[<- <-]|[_ Hr]]; [split; [lia|]; unfold asked; eauto 10|].
      apply Hi in Hr as [? ?]. split; [lia|done].
    + intros id Hid [r Hr]. apply lookup_insert_Some in Hr as [[<- _]|[_ Hr]]; [|by apply Hc].
      apply Hb in Hid. lia.
    + intros id p Hpe. destruct (Hp id p Hpe) as (r & certs & Hr & ?). eauto 10.
    + intros id e He. destruct (Hf id e He) as (r & f & Hr & ?). eauto 10.
  - unfold tls_dial_done in Hs. destruct (Net.gos (net w) !! i) as [[]|] eqn:Hg; try done.
    destruct (requests w !! id) as [rq|] eqn:Hrq; [|done]. cbn [mbind option_bind] in Hs.
    eapply dial_inv; [exact Hg|exact Hrq| |exact Hw]. unfold tls_dial_done. by rewrite Hg, Hrq.
  - injection Hs as <-. eapply (net_step_inv (Net.OpListen (is_listening l) k)); done.
  - destruct (tls_dial l w) eqn:Hd; [done|]. destruct (Net.step l (net w)) as [n|] eqn:Hn; [|done]. injection Hs as <-.
    eapply net_step_inv; [done|done|]. intros i id c k -> Hg. simpl in Hd. rewrite Hg in Hd. apply bool_decide_eq_false in Hd.
    by apply eq_None_not_Some.
Qed.

Lemma disciplined_perm att issued issued' l : issued' ≡ₚ issued → disciplined att issued l → disciplined att issued' l.
Proof. intros Hp (Hn & Hf & Ha). split_and!; [done| |done]. intros h Hh. rewrite Hp. by apply Hf. Qed.

Lemma tls_refines att issued w : reach att issued w → ∃ issued', issued' ≡ₚ issued ∧ NetConn.reach att issued' (net w).
Proof.
  induction 1 as [|att issued w l w' _ (issued' & Hperm & IH) Hd Hs]; [exists []; split; [done|apply NetConn.reach_init]|].
  apply (disciplined_perm _ _ issued') in Hd; [|done].
  assert (Hone : ∀ nl, disciplined att issued' nl → takes nl = takes (as_net l) → attaches nl (net w) = attached AppendCertsFromPEM l w →
    Net.step nl (net w) = Some (net w') →
    ∃ i, i ≡ₚ takes (as_net l) ++ issued ∧ NetConn.reach (attached AppendCertsFromPEM l w ∪ att) i (net w')).
  { intros nl Hnd Ht Ha Hn. exists (takes (as_net l) ++ issued'). split; [by rewrite Hperm|].
    eapply net_reach_step; [exact IH|exact Hnd|exact Hn|by rewrite Ha|by rewrite Ht]. }
  destruct l as [host port rej ca sn c k|i|l k|l]; simpl in Hs, Hd.
  - injection Hs as <-. destruct (connect_request AppendCertsFromPEM host port rej ca sn) as [rq|] eqn:Hrq.
    + apply (Hone (Net.OpConnect c k)); simpl; [done|done|by rewrite Hrq|]. unfold opTLSConnect. by rewrite Hrq.
    + destruct Hd as (Hnd & Hf & _). exists (option_list k ++ Net.handles c ++ issued').
      split; [rewrite Hperm, app_assoc; apply Permutation_app_tail, Permutation_app_comm|].
      unfold opTLSConnect. simpl. rewrite Hrq, (left_id_L ∅ (∪)). by apply free_reach.
  - unfold tls_dial_done in Hs. destruct (Net.gos (net w) !! i) as [[]|] eqn:Hg; try done.
    destruct (requests w !! id) as [rq|]; [|done]. cbn [mbind option_bind] in Hs.
    destruct (dialTLS rq); (destruct (Net.dial_done i _ (net w)) as [n|] eqn:Hn; [|done]); injection Hs as <-;
      [by apply (Hone (Net.DialDone i true))|by apply (Hone (Net.DialDone i false))].
  - injection Hs as <-. by apply (Hone (Net.OpListen (is_listening l) k)).
  - destruct (tls_dial l w); [done|]. destruct (Net.step l (net w)) as [n|] eqn:Hn; [|done]. injection Hs as <-. by apply (Hone l).
Qed.

Lemma reach_tls_inv att issued w : reach att issued w → tls_inv w.
Proof.
  induction 1 as [|att issued w l w' Hr IH Hd Hs]; [split; simpl; try done; by intros id ?; rewrite lookup_empty|].
  eapply step_tls_inv; [done| |done]. intros id Hid. destruct (tls_refines _ _ _ Hr) as (issued' & _ & Hn).
  apply (a_bound _ _ _ (reach_accounted _ _ _ Hn)). set_solver.
Qed.

Lemma tlsDialErr_spec f :
  (verify (tlsDialErr f) = true ↔ chain f ≠ []) ∧ message (tlsDialErr f) = text f ∧
  (verify (tlsDialErr f) = true → code (tlsDialErr f) ≠ lit "ECONNREFUSED" ∧ code (tlsDialErr f) ≠ lit "EACCES").
Proof.
  unfold tlsDialErr, as_.
  assert (Hlayer : ∀ l c m, l ∈ chain f → c ≠ lit "ECONNREFUSED" → c ≠ lit "EACCES" → m = text f →
    let e := MkErr c m true in
    (verify e = true ↔ chain f ≠ []) ∧ message e = text f ∧ (verify e = true → code e ≠ lit "ECONNREFUSED" ∧ code e ≠ lit "EACCES")).
  { intros l c m Hl H1 H2 ->. simpl. split; [|done]. split; [|done]. intros _ Hn. rewrite Hn in Hl. by apply not_elem_of_nil in Hl. }
  repeat (case_bool_decide; [eapply Hlayer; [done|by_decide..|done]|]).
  simpl. split; [|split; [done|discriminate]]. split; [discriminate|]. destruct (chain f) as [|[] ?]; [done| | | |]; exfalso; set_solver.
Qed.

(** crypto/tls: unless it is told not to, a dial answers only for a peer whose
    chain the pool trusts, the system's when none is given, and whose certificate
    is for the server's name. *)
Context (trusts : option Pool → list certificate → Prop) (names : certificate → bytes → Prop).

Definition dial_verifies : Prop := ∀ addr c certs, Dial addr c = Ok certs → InsecureSkipVerify c = false →
  ∃ leaf rest, certs = leaf :: rest ∧ trusts (RootCAs c) certs ∧ names leaf (ServerName c).

(** C39: A socket of tls.connect is a plain socket to the peer it was asked for. In
    every interleaving of the guest's operations and the goroutines: the socket
    tables are in a state plain sockets reach with the same callbacks, so that
    what NetConn.v shows of pending counts, callbacks and writes holds of TLS
    sockets and servers; a TLS socket has a connection, which alone can be read
    from or written to, only after its handshake; that was the answer of crypto/tls
    to a dial of the very address and port that the configuration allows for the
    host asked for, with the guest's roots (the system's without a bundle), the
    servername or else the host to verify, and verification switched off only when
    rejectUnauthorized was false, so that otherwise those roots vouch for the peer
    under that name; and of any other dial, refused by the configuration or failed
    at that address, the guest was told the failure, marked as one of verification
    exactly when it is one, and then under no network error's code. *)
Theorem tls_sockets_verified (att : gset Z) (issued : list Z) (w : world) (Hv : dial_verifies) (Hr : reach att issued w) :
  (∃ issued', issued' ≡ₚ issued ∧ NetConn.reach att issued' (net w)) ∧
  (∀ id, id ∈ Net.conns (net w) → is_Some (requests w !! id) → is_Some (peers w !! id)) ∧
  (∀ id p, peers w !! id = Some p → ∃ host port reject ca sn ip certs rq,
    requests w !! id = Some rq ∧ connect_request AppendCertsFromPEM host port reject ca sn = Some rq ∧
    allowed host ip port ∧ Dial (JoinHostPort ip (Itoa port)) (rq_config rq) = Ok certs ∧ p = peerCertInfo sha1 sha256 certs ∧
    InsecureSkipVerify (rq_config rq) = negb reject ∧
    (reject = true → ∃ leaf rest, certs = leaf :: rest ∧
       trusts (if bool_decide (ca = []) then None else AppendCertsFromPEM ca) certs ∧
       names leaf (if bool_decide (sn = []) then host else sn))) ∧
  (∀ id e, refused w !! id = Some e → ∃ rq f, requests w !! id = Some rq ∧
    ((∃ e', resolveDialAddr ParseIP LookupIP cfg (lit "tcp") (rq_host rq) (rq_port rq) = Err e' ∧ f = MkFailure [] (Error quoted e')) ∨
     (∃ ip, allowed (rq_host rq) ip (rq_port rq) ∧ Dial (JoinHostPort ip (Itoa (rq_port rq))) (rq_config rq) = Err f)) ∧
    message e = text f ∧ (verify e = true ↔ chain f ≠ []) ∧
    (verify e = true → code e ≠ lit "ECONNREFUSED" ∧ code e ≠ lit "EACCES")).
Proof.
  split; [by apply tls_refines|]. apply reach_tls_inv in Hr as [Hi Hc Hp Hf]. split_and!; [done| |].
  - intros id p Hpe. destruct (Hp id p Hpe) as (rq & certs & Hrq & Hd & ->). destruct (Hi id rq Hrq) as [_ (host & port & rej & ca & sn & Ha)].
    unfold Tls.dialTLS in Hd. destruct (resolveDialAddr _ _ _ _ _ _) as [addr|] eqn:Hres; [|done].
    apply dial_approved in Hres as (ip & -> & Hal). pose proof Ha as Ha'. unfold connect_request in Ha.
    exists host, port, rej, ca, sn, ip, certs, rq.
    case_bool_decide as Hca; [|destruct (AppendCertsFromPEM ca) as [pool|]; [|done]]; injection Ha as <-; simpl in *;
      (split_and!; [done|done|done|done|done|done|]); intros ->; by apply (Hv _ _ _ Hd).
  - intros id e He. destruct (Hf id e He) as (rq & f & Hrq & Hd & ->). destruct (tlsDialErr_spec f) as (? & ? & ?).
    exists rq, f. split_and!; try done; [|naive_solver..]. unfold Tls.dialTLS in Hd.
    destruct (resolveDialAddr _ _ _ _ _ _) as [addr|e'] eqn:Hres; [right|left; exists e'; by injection Hd as <-].
    apply dial_approved in Hres as (ip & -> & Hal). eauto.
Qed.

End Refinement.

(** ** The rest of the file *)

(** An HTTPS server is an HTTP server. *)
Lemma https_is_http l s :
  opHTTPSListen l s =
    (match Http.opHTTPListen true (is_listening l) s with (Http.Listening id, s') => (Some id, s') | (Http.Refused _, s') => (None, s') end).
Proof. by destruct l. Qed.

(** A server listens only where Config.Listen allows it, with a key that fits. *)
Lemma listens_allowed allow kp cause bound host port :
  listen allow kp cause bound host port = Listening ↔
  kp = true ∧ (∃ f, allow = Some f ∧ f (lit "tcp") (JoinHostPort host (Itoa port)) = true) ∧ bound = true.
Proof.
  unfold listen. split; [|by intros (-> & (f & -> & ->) & ->)].
  destruct kp; [|done]. destruct allow as [f|]; [|done]. destruct (f _ _) eqn:Hf; [|done]. destruct bound; [|done]. eauto 10.
Qed.

(** The two texts this library makes of a fingerprint are one. *)
Lemma HEX_upper v : 0 <= v < 16 → HEX v = (if in_range 97 102 (hex_digit v) then hex_digit v - 32 else hex_digit v).
Proof.
  intros Hv. assert (Hall : Forall (λ v, HEX v = if in_range 97 102 (hex_digit v) then hex_digit v - 32 else hex_digit v) (seqZ 0 16))
    by (repeat constructor).
  rewrite Forall_forall in Hall. apply Hall, elem_of_seqZ. lia.
Qed.

Lemma HEX_pair v : 0 <= v < 256 → [HEX (Z.shiftr v 4); HEX (Z.land v 15)] = upper_hex v.
Proof.
  intros Hv. rewrite Z.shiftr_div_pow2 by lia. change 15 with (Z.ones 4). rewrite Z.land_ones by lia. change (2 ^ 4) with 16.
  assert (0 <= v / 16 < 16) by (split; [apply Z.div_pos; lia|apply Z.div_lt_upper_bound; lia]).
  assert (0 <= v mod 16 < 16) by (apply Z.mod_pos_bound; lia). by rewrite !HEX_upper.
Qed.

Lemma colonHex_later i b : Forall (λ v, 0 <= v < 256) b → b ≠ [] → colonHex_from (S i) b = 58 :: fingerprint b.
Proof.
  intros Hb. revert i. induction Hb as [|v b Hv Hb IH]; intros i Hne; [done|]. unfold fingerprint in *. cbn [colonHex_from map].
  change ((0 <? S i)%nat) with true. rewrite HEX_pair by done. destruct b as [|v' b']; [done|]. by rewrite IH.
Qed.

Lemma colonHex_fingerprint (b : bytes) : Forall (λ v, 0 <= v < 256) b → colonHex b = fingerprint b.
Proof.
  intros Hb. destruct Hb as [|v b Hv Hb]; [done|]. unfold colonHex. cbn [colonHex_from]. rewrite HEX_pair by done.
  destruct b as [|v' b']; [done|]. by rewrite colonHex_later.
Qed.

(** ** A run *)

(** A peer that shows a certificate for the host, and one that a dial does not
    trust; the system trusts nobody. *)
Definition demo_cert : certificate :=
  MkCert (lit "raw") (MkName (lit "db") [] [] [] [] []) (MkName (lit "ca") [lit "Acme"] [] [] [] []) (lit "then") (lit "later") 171
    [lit "db.example"] [] [] [].

Definition demo_cfg : Config := MkConfig (Some (λ h, bool_decide (h = lit "db.example"))) (Some (λ _ _ ip _, bool_decide (ip = lit "10.0.0.7"))).

Definition demo_dial (addr : bytes) (c : tlsConfig (Pool:=bytes)) : result failure (list certificate) :=
  if InsecureSkipVerify c || bool_decide (RootCAs c = Some (lit "acme") ∧ ServerName c = lit "db.example") then Ok [demo_cert]
  else Err (MkFailure [CertificateVerificationError; UnknownAuthorityError] (lit "tls: failed to verify certificate")).

Definition demo_roots (pem : bytes) : option bytes := if bool_decide (pem = lit "acme") then Some pem else None.
Definition demo_ParseIP (h : bytes) : option bytes := None.
Definition demo_LookupIP (h : bytes) : result bytes (list bytes) := Ok [lit "192.168.1.1"; lit "10.0.0.7"].

Definition demo_callbacks (n : Z) : Net.callbacks := Net.MkCallbacks (Some n) (Some (n + 1)) (Some (n + 2)).

(** One socket with the bundle, one without it, and one with a bundle that is
    none. *)
Definition demo_labels : list label :=
  [Connect (lit "db.example") 5432 true (lit "acme") [] (demo_callbacks 10) (Some 13);
   Connect (lit "db.example") 5432 true [] [] (demo_callbacks 20) (Some 23);
   Connect (lit "db.example") 5432 true (lit "junk") [] (demo_callbacks 30) (Some 33);
   DialDone 0; DialDone 1; NetStep (Net.OpenDone 0); NetStep Net.RunPost; NetStep Net.RunPost].

Definition demo_start : world (Pool:=bytes) := MkWorld Net.newNetState ∅ ∅ ∅.
Local Abbreviation demo_reach := (reach (λ _, []) (λ _, []) demo_ParseIP demo_LookupIP id demo_roots demo_cfg demo_dial).
Local Abbreviation demo_step := (step (λ _, []) (λ _, []) demo_ParseIP demo_LookupIP id demo_roots demo_cfg demo_dial).

(** Steps that keep to the discipline, with the sockets attached and the
    callbacks given. *)
Fixpoint disciplined_run (ls : list label) (r : gset Z * list Z * world) : option (gset Z * list Z * world) :=
  match ls with
  | [] => Some r
  | l :: ls' =>
      let '(att, issued, w) := r in
      let ts := takes (as_net l) in
      if bool_decide (NoDup ts) && bool_decide (Forall (λ h, h ∉ issued) ts) &&
         match as_net l with Net.OpAttach id _ => bool_decide (id ∉ att) | _ => true end
      then w' ← demo_step l w; disciplined_run ls' (attached demo_roots l w ∪ att, ts ++ issued, w') else None
  end.

Lemma disciplined_run_reach ls att issued w r :
  demo_reach att issued w → disciplined_run ls (att, issued, w) = Some r → demo_reach r.1.1 r.1.2 r.2.
Proof.
  revert att issued w. induction ls as [|l ls IH]; intros att issued w Hr Hs; [by injection Hs as <-|]. cbn [disciplined_run] in Hs.
  destruct (_ && _) eqn:Hd; [|done]. destruct (step _ _ _ _ _ _ _ _ l w) as [w1|] eqn:H1; [|done].
  apply andb_true_iff in Hd as [[Hn%bool_decide_eq_true Hf%bool_decide_eq_true]%andb_true_iff Ha]. rewrite Forall_forall in Hf.
  refine (IH _ _ _ _ Hs). eapply reach_step; [exact Hr|split_and!; [done|done|]|exact H1].
  destruct (as_net l); try done. by apply bool_decide_eq_true in Ha.
Qed.

Definition run_world (ls : list label) : gset Z * list Z * world :=
  default (∅, [], demo_start) (disciplined_run ls (∅, [], demo_start)).

Lemma run_world_reach ls :
  bool_decide (is_Some (disciplined_run ls (∅, [], demo_start))) = true →
  demo_reach (run_world ls).1.1 (run_world ls).1.2 (run_world ls).2.
Proof.
  intros Hs%bool_decide_eq_true. unfold run_world. destruct (disciplined_run ls _) as [r|] eqn:Hr; [|by destruct Hs]. simpl.
  exact (disciplined_run_reach ls ∅ [] demo_start r (reach_init _ _ _ _ _ _ _ _) Hr).
Qed.

Definition demo_world : world := (run_world demo_labels).2.

Lemma demo_reached : demo_reach (run_world demo_labels).1.1 (run_world demo_labels).1.2 demo_world.
Proof. apply run_world_reach. vm_compute. reflexivity. Qed.

Example demo_told : code <$> refused demo_world !! 2 = Some (lit "UNABLE_TO_VERIFY_LEAF_SIGNATURE").
Proof. vm_compute. reflexivity. Qed.
Example demo_log :
  Net.log (net demo_world) =
    map Net.Release [30; 31; 32; 33] ++ Net.Call 22 :: map Net.Release [20; 21; 22; 23] ++ [Net.Call 13; Net.Release 13].
Proof. vm_compute. reflexivity. Qed.

Definition demo_trusts (roots : option bytes) (certs : list certificate) : Prop := roots = Some (lit "acme").
Definition demo_names (c : certificate) (n : bytes) : Prop := n ∈ DNSNames c.

Lemma demo_verifies : dial_verifies demo_dial demo_trusts demo_names.
Proof.
  intros addr c certs Hd Hi. unfold demo_dial in Hd. rewrite Hi in Hd. simpl in Hd. case_bool_decide as Hc; [|done]. destruct Hc as [Hr Hn].
  injection Hd as <-. exists demo_cert, []. split_and!; [done|done|]. unfold demo_names. rewrite Hn. by_decide.
Qed.

Lemma tls_sockets_verified_witness :
  code <$> refused demo_world !! 2 = Some (lit "UNABLE_TO_VERIFY_LEAF_SIGNATURE") ∧
  ∃ host port reject ca sn ip certs rq,
    requests demo_world !! 1 = Some rq ∧ connect_request demo_roots host port reject ca sn = Some rq ∧
    approved demo_ParseIP demo_LookupIP demo_cfg (lit "tcp") host port ip ∧
    demo_dial (JoinHostPort ip (Itoa port)) (rq_config rq) = Ok certs ∧
    (reject = true → ∃ leaf rest, certs = leaf :: rest ∧
       demo_trusts (if bool_decide (ca = []) then None else demo_roots ca) certs ∧ demo_names leaf (if bool_decide (sn = []) then host else sn)).
Proof.
  split; [vm_compute; reflexivity|].
  destruct (tls_sockets_verified _ _ _ _ _ _ _ _ demo_trusts demo_names _ _ demo_world demo_verifies demo_reached) as (_ & _ & Hp & _).
  edestruct (Hp 1) as (host & port & rej & ca & sn & ip & certs & rq & H1 & H2 & H3 & H4 & _ & _ & H5); [vm_compute; reflexivity|].
  by exists host, port, rej, ca, sn, ip, certs, rq.
Defined.
