(* ===== verification/Client.v ===== *)
(** The HTTP client of compat/nodejs/net.go: startClientRoundTrip and the
    operations on the exchanges it registers.

    A [trip] is one round trip: its goroutine, the functions it posted, the
    request's context, and the body the peer sends. The functions posted by one
    round trip run in their order; how the loop interleaves those of several is
    left open, and so is when the guest acts, when the transport reads the request
    body (Body of ClientReq.v) and how the network cuts the response. *)

From S2P Require Import Prelude Counting ClientReq.

Module Client.

(** The goroutine: in client.Do, at the select of its pump, in resp.Body.Read,
    and in the deferred calls: cleanup, the release of onError, DonePending. *)
Inductive phase := Doing | Waiting | Reading | Cleaning | Releasing | Finishing | Gone.

(** A function posted to the loop. *)
Inductive post := DoFailed | Respond (status : Z) | BodyChunk (b : bytes) | BodyEnd (clean : bool) | FreeOnError.

#[export] Instance post_eq_dec : EqDecision post.
Proof. solve_decision. Defined.

#[export] Instance phase_eq_dec : EqDecision phase.
Proof. solve_decision. Defined.

(** What the guest sees: calls of its two callbacks and of the body hook, and
    their release. *)
Inductive event := Call (h : Z) | Free (h : Z) | Hook (b : bytes) | HookEnd (clean : bool).

(** [resume] says whether the channel holds a token, [finished] is the closed
    channel done, [cancelled] the request's context; [peer] is what the response
    has yet to deliver and [breaks] whether it fails after that. [held] is what
    this round trip adds to the loop's pending count. [ran] are the posted
    functions that ran and whether the engine's calls in them succeeded; [got]
    are the bytes read, [reads] the reads begun and [asked] the guest's calls of
    http_client_body_resume: none of these three is in the code. *)
Record trip := MkTrip {
  at_ : phase;
  resume : bool;
  finished : bool;
  cancelled : bool;
  total : Z;
  queue : list post;
  ran : list (post * bool);
  held : Z;
  onResponse : option Z;
  onError : option Z;
  stream : option Body.clientReqStream;
  peer : bytes;
  breaks : bool;
  got : bytes;
  reads : nat;
  asked : nat
}.

(** startClientRoundTrip, up to the goroutine. *)
Definition start (onResponse onError : option Z) (stream : option Body.clientReqStream) : trip :=
  MkTrip Doing true false false 0 [] [] 1 onResponse onError stream [] false [] 0 0.

Definition goto (p : phase) (t : trip) : trip :=
  MkTrip p (resume t) (finished t) (cancelled t) (total t) (queue t) (ran t) (held t) (onResponse t) (onError t)
    (stream t) (peer t) (breaks t) (got t) (reads t) (asked t).
Definition Post (ps : list post) (t : trip) : trip :=
  MkTrip (at_ t) (resume t) (finished t) (cancelled t) (total t) (queue t ++ ps) (ran t) (held t) (onResponse t) (onError t)
    (stream t) (peer t) (breaks t) (got t) (reads t) (asked t).
Definition DonePending (t : trip) : trip :=
  MkTrip (at_ t) (resume t) (finished t) (cancelled t) (total t) (queue t) (ran t) (held t - 1) (onResponse t) (onError t)
    (stream t) (peer t) (breaks t) (got t) (reads t) (asked t).
Definition cancel (t : trip) : trip :=
  MkTrip (at_ t) (resume t) (finished t) true (total t) (queue t) (ran t) (held t) (onResponse t) (onError t)
    (stream t) (peer t) (breaks t) (got t) (reads t) (asked t).
Definition with_stream (s : option Body.clientReqStream) (t : trip) : trip :=
  MkTrip (at_ t) (resume t) (finished t) (cancelled t) (total t) (queue t) (ran t) (held t) (onResponse t) (onError t)
    s (peer t) (breaks t) (got t) (reads t) (asked t).
Definition set_resume (b : bool) (a r : nat) (t : trip) : trip :=
  MkTrip (at_ t) b (finished t) (cancelled t) (total t) (queue t) (ran t) (held t) (onResponse t) (onError t)
    (stream t) (peer t) (breaks t) (got t) (reads t + r) (asked t + a).
Definition answered (body : bytes) (brk : bool) (t : trip) : trip :=
  MkTrip Waiting (resume t) (finished t) (cancelled t) (total t) (queue t) (ran t) (held t) (onResponse t) (onError t)
    (stream t) body brk (got t) (reads t) (asked t).
Definition takes_bytes (n : nat) (t : trip) : trip :=
  MkTrip (at_ t) (resume t) (finished t) (cancelled t) (total t + Z.of_nat n) (queue t) (ran t) (held t) (onResponse t)
    (onError t) (stream t) (drop n (peer t)) (breaks t) (got t ++ take n (peer t)) (reads t) (asked t).
Definition did (p : post) (ok : bool) (ps : list post) (t : trip) : trip :=
  MkTrip (at_ t) (resume t) (finished t) (cancelled t) (total t) ps (ran t ++ [(p, ok)]) (held t) (onResponse t)
    (onError t) (stream t) (peer t) (breaks t) (got t) (reads t) (asked t).

(** cb.finish: the context is cancelled and done closed. *)
Definition finish (t : trip) : trip :=
  MkTrip (at_ t) (resume t) true true (total t) (queue t) (ran t) (held t) (onResponse t) (onError t)
    (stream t) (peer t) (breaks t) (got t) (reads t) (asked t).

Definition abort_stream (t : trip) : trip := with_stream (Body.abort <$> stream t) t.

(** *** The goroutine *)

(** client.Do fails; the goroutine ends, its pending count to be given back by
    the posted function. *)
Definition do_fails (t : trip) : option trip :=
  match at_ t with Doing => Some (cancel (Post [DoFailed] (goto Gone t))) | _ => None end.

(** It answers, with the headers of a response whose body is [body]. *)
Definition do_answers (status : Z) (body : bytes) (brk : bool) (t : trip) : option trip :=
  match at_ t with Doing => Some (Post [Respond status] (answered body brk t)) | _ => None end.

(** The arms of the pump's select. *)
Definition pump_resume (t : trip) : option trip :=
  match at_ t with
  | Waiting => if resume t then Some (goto Reading (set_resume false 0 1 t)) else None
  | _ => None
  end.

Definition pump_done (t : trip) : option trip :=
  match at_ t with Waiting => if finished t then Some (goto Cleaning t) else None | _ => None end.

Definition maxClientBody : Z := Z.shiftl 100 20.

(** resp.Body.Read returns [n] bytes, and an error when [e] is [Some]: whether it
    is io.EOF. *)
Definition body_read (n : nat) (e : option bool) (t : trip) : option trip :=
  match at_ t with
  | Reading =>
      let possible :=
        (Z.of_nat n <=? 32768) && (n <=? length (peer t))%nat &&
        match e with
        | None => true
        | Some true => (n =? length (peer t))%nat && negb (breaks t)
        | Some false => breaks t || cancelled t
        end in
      if possible then
        let t1 := takes_bytes n t in
        Some
          (if (0 <? n)%nat && (maxClientBody <? total t1) then Post [BodyEnd false] (goto Cleaning t1)
           else
             let t2 := Post (if (0 <? n)%nat then [BodyChunk (take n (peer t))] else []) t1 in
             match e with
             | None => goto Waiting t2
             | Some eof => Post [BodyEnd eof] (goto Cleaning t2)
             end)
      else None
  | _ => None
  end.

(** The deferred calls, one after the other: cleanup (the table's part is the
    caller's), the release of onError, DonePending and the cancellation. *)
Definition unwind (t : trip) : option trip :=
  match at_ t with
  | Cleaning => Some (goto Releasing (abort_stream t))
  | Releasing => Some (Post (match onError t with Some _ => [FreeOnError] | None => [] end) (goto Finishing t))
  | Finishing => Some (goto Gone (cancel (DonePending t)))
  | _ => None
  end.

(** *** The loop *)

Section Effect.
(** Whether the guest has set the body hook. *)
Context (hook : bool).

(** What the guest sees of a posted function; [ok]: the engine's own calls in it
    succeed. *)
Definition effect (t : trip) (p : post) (ok : bool) : list event :=
  match p with
  | DoFailed => map Call (option_list (onError t)) ++ map Free (option_list (onResponse t)) ++ map Free (option_list (onError t))
  | Respond _ =>
      (if ok then map Call (option_list (onResponse t)) else map Call (option_list (onError t))) ++
      map Free (option_list (onResponse t))
  | BodyChunk b => if hook && ok then [Hook b] else []
  | BodyEnd clean => if hook then [HookEnd clean] else []
  | FreeOnError => map Free (option_list (onError t))
  end.

Definition seen (t : trip) : list event := flat_map (λ po, effect t po.1 po.2) (ran t).

End Effect.

(** The oldest function this round trip posted runs. *)
Definition run_post (ok : bool) (t : trip) : option trip :=
  match queue t with
  | [] => None
  | p :: ps =>
      let t1 := did p ok ps t in
      Some (match p with DoFailed => DonePending (abort_stream t1) | _ => t1 end)
  end.

(** *** The guest and the transport *)

Definition body_resume (t : trip) : trip := set_resume true 1 0 t.

Definition body_cancel (t : trip) : trip := abort_stream (finish t).

Definition stream_step (l : Body.label) (t : trip) : option trip :=
  s ← stream t; s' ← Body.step l s; Some (with_stream (Some s') t).

Inductive label :=
| DoFails
| DoAnswers (status : Z) (body : bytes) (brk : bool)
| PumpResume
| PumpDone
| BodyRead (n : nat) (e : option bool)
| Unwind
| RunPost (ok : bool)
| Resume
| Cancel
| Stream (l : Body.label).

Definition step (l : label) (t : trip) : option trip :=
  match l with
  | DoFails => do_fails t
  | DoAnswers status body brk => do_answers status body brk t
  | PumpResume => pump_resume t
  | PumpDone => pump_done t
  | BodyRead n e => body_read n e t
  | Unwind => unwind t
  | RunPost ok => run_post ok t
  | Resume => Some (body_resume t)
  | Cancel => Some (body_cancel t)
  | Stream l => stream_step l t
  end.

Inductive reach (r e : option Z) (s : option Body.clientReqStream) : trip → Prop :=
| reach_start : reach r e s (start r e s)
| reach_step l t t' : reach r e s t → step l t = Some t' → reach r e s t'.

(** The steps that are not the guest's. *)
Definition own (l : label) : bool := match l with Resume | Cancel | Stream (Body.Write _) | Stream Body.Close => false | _ => true end.

Fixpoint steps (ls : list label) (t : trip) : option trip :=
  match ls with [] => Some t | l :: ls' => t' ← step l t; steps ls' t' end.

End Client.

Import Client.

(** ** One round trip *)

(** Everything posted so far. *)
Definition history (t : trip) : list post := map fst (ran t) ++ queue t.

(** How a pump's posts end: with nothing when the guest or the teardown stopped
    it, or with the one that says how the body ended. *)
Definition ends_well (t : trip) (cs : list bytes) (ends : list post) : Prop :=
  (ends = [] ∧ finished t = true) ∨
  (ends = [BodyEnd true] ∧ concat cs = got t ∧ peer t = [] ∧ breaks t = false) ∨
  (ends = [BodyEnd false] ∧ (maxClientBody < total t ∨ breaks t = true ∨ cancelled t = true)).

Definition frees_error (t : trip) : list post := match onError t with Some _ => [FreeOnError] | None => [] end.

(** The pump has stopped, [tail] following what it posted. *)
Definition stopped (t : trip) (tail : list post) : Prop :=
  ∃ st cs ends, history t = Respond st :: map BodyChunk cs ++ ends ++ tail ∧ ends_well t cs ends ∧
    concat cs `prefix_of` got t ∧ zlen (concat cs) <= maxClientBody ∧ (length cs <= reads t)%nat.

(** What was posted, at each place. *)
Definition told (t : trip) : Prop :=
  match at_ t with
  | Doing => history t = [] ∧ got t = []
  | Waiting => ∃ st cs, history t = Respond st :: map BodyChunk cs ∧ concat cs = got t ∧ total t <= maxClientBody ∧
      (length cs <= reads t)%nat
  | Reading => ∃ st cs, history t = Respond st :: map BodyChunk cs ∧ concat cs = got t ∧ total t <= maxClientBody ∧
      (length cs < reads t)%nat
  | Cleaning | Releasing => stopped t []
  | Finishing => stopped t (frees_error t)
  | Gone => history t = [DoFailed] ∨ stopped t (frees_error t)
  end.

(** Nothing of it is left to happen but posts that only talk to the guest. *)
Definition over (t : trip) : bool :=
  match at_ t, queue t with Gone, DoFailed :: _ => false | Gone, _ => true | _, _ => false end.

Record inv (r e : option Z) (t : trip) : Prop := {
  i_handles : onResponse t = r ∧ onError t = e;
  i_told : told t;
  i_total : total t = zlen (got t);
  i_held : held t = if over t then 0 else 1;
  i_reads : (reads t + (if resume t then 1 else 0) <= 1 + asked t)%nat;
  i_finished : finished t = true → cancelled t = true
}.

Lemma history_did p ok ps t : queue t = p :: ps → history (did p ok ps t) = history t.
Proof. intros Hq. unfold history. simpl. by rewrite map_app, <-app_assoc, Hq. Qed.

Lemma history_post ps t : history (Post ps t) = history t ++ ps.
Proof. unfold history. simpl. by rewrite app_assoc. Qed.

(** What [told] depends on. *)
Lemma told_same t t' :
  at_ t' = at_ t → history t' = history t → got t' = got t → total t' = total t → reads t' = reads t →
  peer t' = peer t → breaks t' = breaks t → onError t' = onError t →
  (finished t = true → finished t' = true) → (cancelled t = true → cancelled t' = true) →
  told t → told t'.
Proof.
  intros H1 H2 H3 H4 H5 H6 H7 H8 H9 H10.
  assert (∀ tail, stopped t tail → stopped t' tail) as Hst.
  { intros tail (st & cs & ends & Hh & He & Hr). exists st, cs, ends. rewrite H2, H3, H5. split_and!; try apply Hr; [done|].
    unfold ends_well in *. rewrite H3, H4, H6, H7. naive_solver. }
  unfold told, frees_error. rewrite H1, H8. destruct (at_ t); rewrite ?H2, ?H3, ?H4, ?H5; auto.
  intros [|]; auto.
Qed.

Lemma trip_start_inv r e s : inv r e (start r e s).
Proof. split; simpl; try done; lia. Qed.

(** A step of the guest or the transport changes none of it. *)
Lemma quiet_inv r e t t' :
  at_ t' = at_ t → queue t' = queue t → ran t' = ran t → got t' = got t → total t' = total t → reads t' = reads t →
  peer t' = peer t → breaks t' = breaks t → onError t' = onError t → onResponse t' = onResponse t → held t' = held t →
  (finished t = true → finished t' = true) → (finished t' = true → cancelled t' = true) →
  (cancelled t = true → cancelled t' = true) →
  (reads t' + (if resume t' then 1 else 0) <= 1 + asked t')%nat →
  inv r e t → inv r e t'.
Proof.
  intros H1 H2 H3 H4 H5 H6 H7 H8 H9 H10 H11 H12 H13 H14 H15 [I1 I2 I3 I4 I5 I6].
  assert (history t' = history t) by (unfold history; by rewrite H2, H3).
  split; [by rewrite H9, H10|by eapply told_same|by rewrite H4, H5| |done|done].
  rewrite H11, I4. unfold over. by rewrite H1, H2.
Qed.

Lemma stopped_no_failure t tail : stopped t tail → (DoFailed ∉ tail) → DoFailed ∉ history t.
Proof.
  intros (st & cs & ends & -> & He & _) Ht. rewrite elem_of_cons, !elem_of_app, list_elem_of_fmap.
  intros [|[(? & ? & _)|[Hin|Hin]]]; [done|done| |done].
  destruct He as [[-> _]|[[-> _]|[-> _]]]; set_solver.
Qed.

(** A failed round trip posts nothing else. *)
Lemma failed_alone t : told t → DoFailed ∈ history t → at_ t = Gone ∧ history t = [DoFailed].
Proof.
  intros Ht Hin. unfold told in Ht.
  assert (DoFailed ∉ frees_error t) as Hf by (unfold frees_error; destruct (onError t); set_solver).
  destruct (at_ t); try (exfalso; eapply stopped_no_failure; [exact Ht| |exact Hin]; done || apply not_elem_of_nil).
  - destruct Ht as [Ht _]. rewrite Ht in Hin. by apply not_elem_of_nil in Hin.
  - destruct Ht as (st & cs & Hh & _). rewrite Hh, elem_of_cons, list_elem_of_fmap in Hin. naive_solver.
  - destruct Ht as (st & cs & Hh & _). rewrite Hh, elem_of_cons, list_elem_of_fmap in Hin. naive_solver.
  - destruct Ht as [Ht|Ht]; [done|]. exfalso. by eapply stopped_no_failure.
Qed.

Lemma run_inv r e ok t t' : run_post ok t = Some t' → inv r e t → inv r e t'.
Proof.
  unfold run_post. destruct (queue t) as [|p ps] eqn:Hq; [done|]. intros Hs [I1 I2 I3 I4 I5 I6].
  pose proof (history_did p ok ps t Hq) as Hh.
  assert (Htold : told (did p ok ps t)) by (by apply (told_same t)).
  assert (Hhist : history t = map fst (ran t) ++ p :: ps) by (unfold history; by rewrite Hq).
  destruct (decide (p = DoFailed)) as [->|Hp].
  - injection Hs as <-. destruct (failed_alone t I2) as [Hat Hal]; [rewrite Hhist; set_solver|].
    assert (ps = []) as ->.
    { rewrite Hal in Hhist. destruct (map fst (ran t)) as [|x [|y l]]; by simplify_eq/=. }
    split; simpl; try done. rewrite I4. unfold over. simpl. by rewrite Hat, Hq.
  - assert (t' = did p ok ps t) as -> by (by destruct p; simplify_eq). split; simpl; try done.
    rewrite I4. unfold over. simpl. rewrite Hq. destruct (at_ t) eqn:Hat; try done.
    destruct ps as [|[] ps]; try by destruct p.
    destruct (failed_alone t I2) as [_ Hal]; [rewrite Hhist; set_solver|].
    rewrite Hal in Hhist. destruct (map fst (ran t)) as [|x [|y l]]; by simplify_eq/=.
Qed.

Lemma read_inv r e n er t t' : body_read n er t = Some t' → inv r e t → inv r e t'.
Proof.
  unfold body_read. intros Hs [I1 I2 I3 I4 I5 I6]. destruct (at_ t) eqn:Hat; try done.
  destruct ((Z.of_nat n <=? 32768) && (n <=? length (peer t))%nat) eqn:Hn; simpl in Hs; [|done].
  apply andb_true_iff in Hn as [_ Hn%Nat.leb_le].
  destruct (match er with None => _ | Some _ => _ end) eqn:Her in Hs; [|done]. injection Hs as <-.
  unfold told in I2. rewrite Hat in I2. destruct I2 as (st & cs & Hh & Hcs & Hmax & Hlen).
  assert (Hover : over t = false) by (unfold over; by rewrite Hat).
  assert (Htot : total t + Z.of_nat n = zlen (got t ++ take n (peer t))).
  { rewrite I3. unfold zlen. rewrite length_app, length_take. lia. }
  assert (Hpre : concat cs `prefix_of` got t ++ take n (peer t)) by (rewrite Hcs; by eexists).
  assert (Hzl : zlen (concat cs) <= maxClientBody) by (rewrite Hcs, <-I3; done).
  cbn [takes_bytes total] in *.
  destruct ((0 <? n)%nat && (maxClientBody <? total t + Z.of_nat n)) eqn:Hbig.
  { apply andb_true_iff in Hbig as [_ Hbig%Z.ltb_lt]. split; try done.
    - exists st, cs, [BodyEnd false]. rewrite history_post. change (history (goto _ _)) with (history t). rewrite Hh.
      split_and!; [done| |done|done|simpl; lia]. right; right. split; [done|left; done].
    - simpl. rewrite I4, Hover. done. }
  set (new := if (0 <? n)%nat then [take n (peer t)] else []).
  assert (Hnew : (if (0 <? n)%nat then [BodyChunk (take n (peer t))] else []) = map BodyChunk new) by (unfold new; by destruct (0 <? n)%nat).
  assert (Hgot : concat (cs ++ new) = got t ++ take n (peer t)).
  { rewrite concat_app, Hcs. f_equal. unfold new. destruct (Nat.ltb_spec 0 n); simpl; [apply app_nil_r|].
    by replace n with 0%nat by lia. }
  assert (Hmax' : total t + Z.of_nat n <= maxClientBody).
  { destruct (Nat.ltb_spec 0 n); simpl in Hbig; [|lia]. apply Z.ltb_ge in Hbig. done. }
  assert (Hlen' : (length (cs ++ new) <= reads t)%nat).
  { rewrite length_app. unfold new. destruct (0 <? n)%nat; simpl; lia. }
  rewrite Hnew. clearbody new. clear Hnew Hbig.
  destruct er as [eof|].
  - split; try done.
    + exists st, (cs ++ new), [BodyEnd eof]. rewrite !history_post. change (history (goto _ (Post _ _))) with (history (Post (map BodyChunk new) (takes_bytes n t))).
      rewrite history_post. change (history (takes_bytes n t)) with (history t). rewrite Hh, map_app. simpl.
      split_and!; [by rewrite <-!app_assoc| |by rewrite Hgot|rewrite Hgot, <-Htot; done|done].
      destruct eof.
      * apply andb_true_iff in Her as [Hlast%Nat.eqb_eq Hbrk%negb_true_iff]. right; left.
        split_and!; [done|done| |done]. simpl. rewrite Hlast. apply drop_all.
      * apply orb_true_iff in Her as [Her|Her]; right; right; split; auto.
    + simpl. rewrite I4, Hover. done.
  - split; try done.
    + exists st, (cs ++ new). change (history (goto _ ?x)) with (history x). rewrite history_post.
      change (history (takes_bytes n t)) with (history t). rewrite Hh, map_app. split_and!; done.
    + simpl. rewrite I4, Hover. done.
Qed.

Lemma trip_step_inv r e l t t' : step l t = Some t' → inv r e t → inv r e t'.
Proof.
  intros Hs Hi. destruct l as [|st body brk| | |n er| |ok| | |sl]; simpl in Hs; [| | | |by eapply read_inv| |by eapply run_inv| | |].
  - unfold do_fails in Hs. destruct Hi as [I1 I2 I3 I4 I5 I6]. destruct (at_ t) eqn:Hat; simplify_eq.
    unfold told in I2. rewrite Hat in I2. destruct I2 as [Hh Hg]. split; try done.
    + left. change (history (cancel ?x)) with (history x). rewrite history_post. change (history (goto _ _)) with (history t).
      by rewrite Hh.
    + simpl. rewrite I4. unfold over. rewrite Hat. simpl. unfold history in Hh. by apply app_eq_nil in Hh as [_ ->].
  - unfold do_answers in Hs. destruct Hi as [I1 I2 I3 I4 I5 I6]. destruct (at_ t) eqn:Hat; simplify_eq.
    unfold told in I2. rewrite Hat in I2. destruct I2 as [Hh Hg]. split; try done.
    + exists st, []. rewrite history_post. change (history (answered _ _ _)) with (history t). rewrite Hh.
      simpl. split_and!; [done|by rewrite Hg|by rewrite I3, Hg|lia].
    + simpl. rewrite I4. unfold over. by rewrite Hat.
  - unfold pump_resume in Hs. destruct Hi as [I1 I2 I3 I4 I5 I6]. destruct (at_ t) eqn:Hat; try done.
    destruct (resume t) eqn:Hr; simplify_eq. unfold told in I2. rewrite Hat in I2. split; try done.
    + destruct I2 as (st & cs & Hh & Hcs & Hm & Hl). exists st, cs. split_and!; try done. simpl. lia.
    + simpl. rewrite I4. unfold over. by rewrite Hat.
    + simpl in *. lia.
  - unfold pump_done in Hs. destruct Hi as [I1 I2 I3 I4 I5 I6]. destruct (at_ t) eqn:Hat; try done.
    destruct (finished t) eqn:Hf; simplify_eq. unfold told in I2. rewrite Hat in I2. split; try done.
    + destruct I2 as (st & cs & Hh & Hcs & Hm & Hl). exists st, cs, []. rewrite !app_nil_r. change (history (goto _ _)) with (history t).
      split_and!; [done|by left|by rewrite Hcs|by rewrite Hcs, <-I3|done].
    + simpl. rewrite I4. unfold over. by rewrite Hat.
    + intros _. by apply I6.
  - unfold unwind in Hs. destruct Hi as [I1 I2 I3 I4 I5 I6]. unfold told in I2. unfold over in I4.
    destruct (at_ t) eqn:Hat; simplify_eq; try (split; done).
    + split; try done. destruct I2 as (st & cs & ends & Hh & Hr). exists st, cs, ends.
      rewrite history_post. change (history (goto _ _)) with (history t). rewrite Hh, app_nil_r. split; [|done].
      cbn [app]. unfold frees_error. simpl. by rewrite <-app_assoc.
    + split; try done.
      * right. destruct I2 as (st & cs & ends & Hh & He & Hr). exists st, cs, ends. split_and!; try done; try apply Hr.
        unfold ends_well in *. simpl. naive_solver.
      * simpl. rewrite I4. unfold over. simpl.
        destruct (queue t) as [|[] q] eqn:Hq; try done. exfalso. eapply (stopped_no_failure t (frees_error t)); [done| |].
        -- unfold frees_error. destruct (onError t); set_solver.
        -- unfold history. rewrite Hq. set_solver.
  - simplify_eq. eapply quiet_inv; [..|exact Hi]; try done; simpl; destruct Hi as [I1 I2 I3 I4 I5 I6]; try done. destruct (resume t); lia.
  - simplify_eq. eapply quiet_inv; [..|exact Hi]; try done; destruct Hi as [I1 I2 I3 I4 I5 I6]; try done.
  - unfold stream_step in Hs. destruct (stream t); [|done]. simpl in Hs. destruct (Body.step _ _); simplify_eq/=.
    eapply quiet_inv; [..|exact Hi]; try done; destruct Hi as [I1 I2 I3 I4 I5 I6]; try done.
Qed.

Lemma reach_inv r e s t : reach r e s t → inv r e t.
Proof. induction 1 as [|l t t' _ IH Hs]; [apply trip_start_inv|by eapply trip_step_inv]. Qed.

(** ** What the guest sees *)

Definition callbacks (es : list event) : list event :=
  List.filter (λ ev, match ev with Call _ | Free _ => true | _ => false end) es.
Definition hooks (es : list event) : list event :=
  List.filter (λ ev, match ev with Call _ | Free _ => false | _ => true end) es.

Definition chunks_of (rs : list (post * bool)) : list (bytes * bool) :=
  omap (λ po, match po.1 with BodyChunk b => Some (b, po.2) | _ => None end) rs.
Definition ends_of (ps : list post) : list bool := omap (λ p, match p with BodyEnd c => Some c | _ => None end) ps.

(** The chunks for which the engine made the bytes object: the others are dropped
    without a word. *)
Definition handed (cs : list (bytes * bool)) : list bytes := omap (λ c : bytes * bool, if c.2 then Some c.1 else None) cs.

Lemma handed_all cs : Forall (λ c, c.2 = true) cs → handed cs = map fst cs.
Proof. induction 1 as [|[b ok] cs Hok _ IH]; [done|]. simpl in *. subst ok. by f_equal. Qed.

Section Guest.
Context (t : trip).

Abbreviation cb rs := (callbacks (flat_map (λ po, effect true t po.1 po.2) rs)).
Abbreviation hk rs := (hooks (flat_map (λ po, effect true t po.1 po.2) rs)).

Lemma cb_cons po rs : cb (po :: rs) = callbacks (effect true t po.1 po.2) ++ cb rs.
Proof. unfold callbacks. simpl. apply List.filter_app. Qed.

Lemma hk_cons po rs : hk (po :: rs) = hooks (effect true t po.1 po.2) ++ hk rs.
Proof. unfold hooks. simpl. apply List.filter_app. Qed.

Lemma filter_calls (f : Z → event) hs :
  (∀ h, f h = Call h) ∨ (∀ h, f h = Free h) → callbacks (map f hs) = map f hs ∧ hooks (map f hs) = [].
Proof. intros Hf. unfold callbacks, hooks. induction hs as [|h hs [IH1 IH2]]; simpl; [done|]. destruct Hf as [Hf|Hf]; rewrite Hf; by rewrite IH1, IH2. Qed.

Lemma effect_split p ok :
  callbacks (effect true t p ok) = (match p with BodyChunk _ | BodyEnd _ => [] | _ => effect true t p ok end) ∧
  hooks (effect true t p ok) = (match p with BodyChunk _ | BodyEnd _ => effect true t p ok | _ => [] end).
Proof.
  pose proof (λ hs, filter_calls Call hs ltac:(by left)) as Hc. pose proof (λ hs, filter_calls Free hs ltac:(by right)) as Hf.
  unfold callbacks, hooks in *. destruct p as [|st|b|c|]; simpl.
  - rewrite !List.filter_app. rewrite !(proj1 (Hc _)), !(proj2 (Hc _)), !(proj1 (Hf _)), !(proj2 (Hf _)). done.
  - destruct ok; rewrite !List.filter_app, !(proj1 (Hc _)), !(proj2 (Hc _)), !(proj1 (Hf _)), !(proj2 (Hf _)); done.
  - by destruct ok.
  - done.
  - rewrite (proj1 (Hf _)), (proj2 (Hf _)). done.
Qed.

(** The pump's posts, those that follow [cs] being its end and the release. *)
Lemma run_split rs q cs ends fr :
  map fst rs ++ q = map BodyChunk cs ++ map BodyEnd ends ++ replicate fr FreeOnError →
  hk rs = map Hook (handed (chunks_of rs)) ++ map HookEnd (ends_of (map fst rs)) ∧
  map fst (chunks_of rs) `prefix_of` cs ∧ ends_of (map fst rs) `prefix_of` ends ∧
  (ends_of (map fst rs) ≠ [] → map fst (chunks_of rs) = cs) ∧
  ∃ k, cb rs = concat (replicate k (map Free (option_list (onError t)))) ∧ (k <= fr)%nat ∧ (q = [] → k = fr).
Proof.
  revert cs ends fr. induction rs as [|[p ok] rs IH]; intros cs ends fr Hr.
  - split_and!; [done|apply prefix_nil|apply prefix_nil|done|]. exists 0%nat. split_and!; [done|lia|].
    intros ->. simpl in Hr. symmetry in Hr. apply app_eq_nil in Hr as [_ Hr]. apply app_eq_nil in Hr as [_ Hr]. by destruct fr.
  - rewrite hk_cons, cb_cons. destruct (effect_split p ok) as [E1 E2]. cbn [fst snd]. rewrite E1, E2.
    destruct cs as [|c cs]; [destruct ends as [|e ends]; [destruct fr as [|fr]|]|]; simplify_eq/=.
    + destruct (IH [] [] fr) as (H1 & H2 & H3 & H4 & k & H5 & H6 & H7); [done|]. rewrite H1, H5.
      split_and!; [done|done|done|done|]. exists (S k). split_and!; [done|lia|]. intros Hq. by rewrite H7.
    + destruct (IH [] ends fr) as (H1 & H2 & H3 & H4 & k & H5 & H6); [done|]. rewrite H1, H5.
      apply prefix_nil_inv in H2. apply fmap_nil_inv in H2. rewrite H2.
      split_and!; [done|done|by apply prefix_cons|done|by exists k].
    + destruct (IH cs ends fr) as (H1 & H2 & H3 & H4 & k & H5 & H6); [done|]. rewrite H1, H5.
      split_and!; [by destruct ok|by apply prefix_cons|done| |by exists k]. intros Hne. simpl. f_equal. by apply H4.
Qed.

(** All of it, the response first. *)
Lemma seen_split st cs ends fr :
  history t = Respond st :: map BodyChunk cs ++ map BodyEnd ends ++ replicate fr FreeOnError →
  ∃ es, hooks (seen true t) = map Hook (handed (chunks_of (ran t))) ++ map HookEnd es ∧
    map fst (chunks_of (ran t)) `prefix_of` cs ∧ es `prefix_of` ends ∧ (es ≠ [] → map fst (chunks_of (ran t)) = cs) ∧
    (callbacks (seen true t) = [] ∧ queue t ≠ [] ∨
     ∃ who k, (who = onResponse t ∨ who = onError t) ∧ (k <= fr)%nat ∧ (queue t = [] → k = fr) ∧
       callbacks (seen true t) = map Call (option_list who) ++ map Free (option_list (onResponse t)) ++
         concat (replicate k (map Free (option_list (onError t))))).
Proof.
  unfold history, seen. intros Hh. destruct (ran t) as [|[p ok] rs].
  - exists []. split_and!; [done|apply prefix_nil|apply prefix_nil|done|]. left. split; [done|]. simpl in Hh. by rewrite Hh.
  - simpl in Hh. injection Hh as -> Hh.
    destruct (run_split rs (queue t) cs ends fr Hh) as (H1 & H2 & H3 & H4 & k & H5 & H6 & H7).
    exists (ends_of (map fst rs)). rewrite hk_cons, cb_cons. destruct (effect_split (Respond st) ok) as [E1 E2].
    cbn [fst snd]. rewrite E1, E2. split_and!; [done|done|done|done|]. right.
    exists (if ok then onResponse t else onError t), k. split_and!; [by destruct ok; auto|done|done|].
    rewrite H5. simpl. destruct ok; by rewrite <-app_assoc.
Qed.
End Guest.

(** What was posted, in one form for all places. *)
Lemma told_shape t :
  told t → total t = zlen (got t) → history t ∈ [[]; [DoFailed]] ∧ (at_ t = Gone → history t = [DoFailed]) ∨
  ∃ st cs ends fr, history t = Respond st :: map BodyChunk cs ++ map BodyEnd ends ++ replicate fr FreeOnError ∧
    concat cs `prefix_of` got t ∧ zlen (concat cs) <= maxClientBody ∧ (length cs <= reads t)%nat ∧
    (ends = [] ∨ ends = [true] ∧ concat cs = got t ∧ peer t = [] ∧ breaks t = false ∨
     ends = [false] ∧ (maxClientBody < total t ∨ breaks t = true ∨ cancelled t = true)) ∧
    (fr <= length (option_list (onError t)))%nat ∧ (at_ t = Gone → fr = length (option_list (onError t))).
Proof.
  intros Ht Htot.
  assert (∀ n tail, stopped t tail → tail = replicate n FreeOnError → (n <= length (option_list (onError t)))%nat →
    (at_ t = Gone → n = length (option_list (onError t))) →
    ∃ st cs ends fr, history t = Respond st :: map BodyChunk cs ++ map BodyEnd ends ++ replicate fr FreeOnError ∧
    concat cs `prefix_of` got t ∧ zlen (concat cs) <= maxClientBody ∧ (length cs <= reads t)%nat ∧
    (ends = [] ∨ ends = [true] ∧ concat cs = got t ∧ peer t = [] ∧ breaks t = false ∨
     ends = [false] ∧ (maxClientBody < total t ∨ breaks t = true ∨ cancelled t = true)) ∧
    (fr <= length (option_list (onError t)))%nat ∧ (at_ t = Gone → fr = length (option_list (onError t)))) as Hst.
  { intros n tail (st & cs & ends & Hh & He & H1 & H2 & H3) -> Hn Hg.
    destruct He as [[-> _]|[[-> He]|[-> He]]].
    - exists st, cs, [], n. auto 10.
    - exists st, cs, [true], n. split_and!; auto.
    - exists st, cs, [false], n. split_and!; auto. }
  assert (frees_error t = replicate (length (option_list (onError t))) FreeOnError) as Hfe
    by (unfold frees_error; by destruct (onError t)).
  unfold told in Ht. destruct (at_ t) eqn:Hat.
  - left. destruct Ht as [-> _]. split; [by left|done].
  - right. destruct Ht as (st & cs & Hh & Hcs & Hm & Hl). exists st, cs, [], 0%nat. rewrite Hcs, <-Htot.
    simpl. rewrite app_nil_r. split_and!; auto; try lia; try done.
  - right. destruct Ht as (st & cs & Hh & Hcs & Hm & Hl). exists st, cs, [], 0%nat. rewrite Hcs, <-Htot.
    simpl. rewrite app_nil_r. split_and!; auto; try lia; try done.
  - right. apply (Hst 0%nat []); auto; try lia; congruence.
  - right. apply (Hst 0%nat []); auto; try lia; congruence.
  - right. eapply (Hst _ _ Ht Hfe); done.
  - destruct Ht as [Ht|Ht]; [left; split; [rewrite Ht; right; by left|done]|right]. eapply (Hst _ _ Ht Hfe); done.
Qed.

(** A round trip that has not been answered, or failed. *)
Lemma seen_unanswered t :
  history t ∈ [[]; [DoFailed]] →
  hooks (seen true t) = [] ∧ (callbacks (seen true t) = [] ∧ (queue t ≠ [] ∨ history t = []) ∨
    callbacks (seen true t) = map Call (option_list (onError t)) ++ map Free (option_list (onResponse t)) ++ map Free (option_list (onError t))).
Proof.
  unfold history, seen. intros Hh. destruct (ran t) as [|[p ok] rs]; simpl in *.
  - split; [done|left]. split; [done|]. rewrite elem_of_cons, list_elem_of_singleton in Hh.
    destruct Hh as [->| ->]; [by right|by left].
  - rewrite elem_of_cons, list_elem_of_singleton in Hh. destruct Hh as [?|Hh]; [done|].
    injection Hh as -> Hh. apply app_eq_nil in Hh as [Hh _]. apply map_eq_nil in Hh as ->.
    destruct (effect_split t DoFailed ok) as [E1 E2]. cbn [flat_map]. rewrite app_nil_r. auto.
Qed.

Lemma unanswered_chunks t : history t ∈ [[]; [DoFailed]] → chunks_of (ran t) = [] ∧ hooks (seen true t) = [].
Proof.
  intros Hh. split; [|apply (seen_unanswered t Hh)]. unfold history in Hh. rewrite elem_of_cons, list_elem_of_singleton in Hh.
  destruct (ran t) as [|[p ok] rs]; [done|]. simpl in Hh. destruct Hh as [?|[= -> Hh]]; [done|].
  apply app_eq_nil in Hh as [Hh _]. by apply map_eq_nil in Hh as ->.
Qed.

(** C30: What the guest reads of a response is what the peer sent. The chunks whose
    functions have run make up, in order, a beginning of the body, at most 100 MiB
    and at most one chunk more than the guest asked for; the hook gets exactly
    those of them for which the engine made the bytes object, then at most one
    end. The clean end is told only when all of the body went before it and the
    peer did not break off, so the hook has had the whole body unless the engine
    failed to make one of the chunks, which is dropped without a word; the other
    end only for a body that is too large, broken off or cancelled. *)
Theorem client_body_exact (r e : option Z) (s : option Body.clientReqStream) (t : trip) (Hr : reach r e s t) :
  let cs := chunks_of (ran t) in
  ∃ es, hooks (seen true t) = map Hook (handed cs) ++ map HookEnd es ∧
    concat (map fst cs) `prefix_of` got t ++ peer t ∧ zlen (concat (map fst cs)) <= maxClientBody ∧
    (length cs <= 1 + asked t)%nat ∧
    (es = [] ∨
     es = [true] ∧ concat (map fst cs) = got t ++ peer t ∧ breaks t = false ∧
       (Forall (λ c, c.2 = true) cs → concat (handed cs) = got t ++ peer t) ∨
     es = [false] ∧ (maxClientBody < total t ∨ breaks t = true ∨ cancelled t = true)).
Proof.
  intros cs0. apply reach_inv in Hr as [_ I2 I3 _ I5 _].
  destruct (told_shape t I2 I3) as [[Hh _]|(st & cs & ends & fr & Hh & Hpre & Hlen & Hrd & Hends & _)].
  - destruct (unanswered_chunks t Hh) as [Hc Hs]. exists []. unfold cs0. rewrite Hc, Hs.
    split_and!; [done|apply prefix_nil|by vm_compute|simpl; lia|by left].
  - destruct (seen_split t st cs ends fr Hh) as (es & H1 & [cs2 H2] & H3 & H4 & _). fold cs0 in H1, H2, H4.
    exists es. rewrite H2, concat_app in Hpre, Hlen. rewrite H2, length_app, length_map in Hrd.
    assert (Hz : zlen (concat (map fst cs0)) <= maxClientBody).
    { unfold zlen in *. rewrite length_app in Hlen. lia. }
    split_and!; [done| |done|lia|].
    + destruct Hpre as [k ->]. rewrite <-!app_assoc. by eexists.
    + destruct Hends as [->|[(-> & Hc & Hp & Hb)|[-> Hb]]].
      * left. by apply prefix_nil_inv in H3.
      * destruct H3 as [es' H3]. destruct es as [|x es]; [by left|right; left]. injection H3 as <- H3.
        destruct es; [|done].
        assert (Hall : concat (map fst cs0) = got t ++ peer t) by (by rewrite (H4 ltac:(done)), Hc, Hp, app_nil_r).
        split_and!; [done|done|done|]. intros Hok. by rewrite handed_all.
      * destruct H3 as [es' H3]. destruct es as [|x es]; [by left|right; right]. injection H3 as <- H3. by destruct es.
Qed.

(** The callbacks of a request: exactly one of them is called, once, for the
    response or for the error, and only then are they released, each once; when
    the goroutine is gone and its posts have run, all of this has happened. *)
Theorem client_callbacks_once (r e : option Z) (s : option Body.clientReqStream) (t : trip) (Hr : reach r e s t) :
  ∃ who, (who = r ∨ who = e) ∧
    callbacks (seen true t) `prefix_of` map Call (option_list who) ++ map Free (option_list r) ++ map Free (option_list e) ∧
    (at_ t = Gone → queue t = [] →
     callbacks (seen true t) = map Call (option_list who) ++ map Free (option_list r) ++ map Free (option_list e)).
Proof.
  apply reach_inv in Hr as [[<- <-] I2 I3 _ _ _].
  destruct (told_shape t I2 I3) as [[Hh Hg]|(st & cs & ends & fr & Hh & _ & _ & _ & _ & Hfr & Hgone)].
  - exists (onError t). destruct (seen_unanswered t Hh) as [_ [[Hc Hq]|Hc]]; rewrite Hc; split_and!; auto; [apply prefix_nil|].
    intros Hat Hq'. destruct Hq as [Hq|Hq]; [done|]. rewrite (Hg Hat) in Hq. done.
  - destruct (seen_split t st cs ends fr Hh) as (_ & _ & _ & _ & _ & [[Hc Hq]|(who & k & Hw & Hk & Hqk & Hc)]); rewrite Hc.
    + exists (onError t). split_and!; [by right|apply prefix_nil|done].
    + exists who. split_and!; [done| |].
      * do 2 apply prefix_app. destruct (onError t); simpl in Hfr |- *.
        -- destruct k as [|[|k]]; [apply prefix_nil|done|lia].
        -- assert (k = 0%nat) as -> by lia. done.
      * intros Hat Hq. rewrite (Hqk Hq), (Hgone Hat). do 2 f_equal. by destruct (onError t).
Qed.

(** ** Winding down *)

Lemma steps_app ls ls' t : steps (ls ++ ls') t = steps ls t ≫= steps ls'.
Proof. revert t. induction ls as [|l ls IH]; intros t; [done|]. simpl. destruct (step l t); [apply IH|done]. Qed.

Local Ltac step_unwind H :=
  match type of H with at_ ?t = _ =>
    let E := fresh in
    assert (E : ∃ t', step Unwind t = Some t' ∧ t' = default t (unwind t)) by (simpl; unfold unwind; rewrite H; eexists; split; reflexivity);
    destruct E as (? & E & ->); cbn [steps]; rewrite E; cbn [mbind option_bind]; unfold unwind at 1; rewrite H; reflexivity
  end.

Lemma unwinds t :
  at_ t ∈ [Cleaning; Releasing; Finishing] →
  ∃ ls t', (length ls <= 3)%nat ∧ forallb own ls = true ∧ steps ls t = Some t' ∧ at_ t' = Gone ∧ held t' = held t - 1.
Proof.
  intros Hat. rewrite !elem_of_cons in Hat. destruct Hat as [Hat|[Hat|[Hat|Hat]]]; [| | |by apply not_elem_of_nil in Hat].
  - exists [Unwind; Unwind; Unwind]. eexists. split_and!; [done|done|step_unwind Hat|done|done].
  - exists [Unwind; Unwind]. eexists. split_and!; [simpl; lia|done|step_unwind Hat|done|done].
  - exists [Unwind]. eexists. split_and!; [simpl; lia|done|step_unwind Hat|done|done].
Qed.

(** A round trip that was told to stop, or has got past its pump, gives its count
    back within four steps of its own goroutine, the network's refusal to go on
    for a cancelled request, and the loop. *)
Lemma winds_down r e t :
  inv r e t → finished t = true ∨ at_ t ∈ [Cleaning; Releasing; Finishing; Gone] →
  ∃ ls t', (length ls <= 4)%nat ∧ forallb own ls = true ∧ steps ls t = Some t' ∧ at_ t' = Gone ∧ held t' = 0.
Proof.
  intros [I1 I2 I3 I4 I5 I6] Hf.
  assert (Hcl : at_ t ∈ [Cleaning; Releasing; Finishing] →
    ∃ ls t', (length ls <= 4)%nat ∧ forallb own ls = true ∧ steps ls t = Some t' ∧ at_ t' = Gone ∧ held t' = 0).
  { intros Hin. destruct (unwinds t Hin) as (ls & t' & H1 & H2 & H3 & H4 & H5). exists ls, t'.
    split_and!; [lia|done|done|done|]. rewrite H5, I4. unfold over.
    destruct (at_ t); try done. exfalso. clear -Hin. set_solver. }
  assert (Hvia : ∀ l t1, own l = true → step l t = Some t1 → at_ t1 = Cleaning → held t1 = 1 →
    ∃ ls t', (length ls <= 4)%nat ∧ forallb own ls = true ∧ steps ls t = Some t' ∧ at_ t' = Gone ∧ held t' = 0).
  { intros l t1 Ho Hs Hat Hh. destruct (unwinds t1) as (ls & t' & H1 & H2 & H3 & H4 & H5); [rewrite Hat; by left|].
    exists (l :: ls), t'. simpl. rewrite Ho, Hs. split_and!; [lia|done|done|done|lia]. }
  unfold told in I2. unfold over in I4. destruct (at_ t) eqn:Hat.
  - destruct I2 as [Hh _]. unfold history in Hh. apply app_eq_nil in Hh as [_ Hq].
    eexists [DoFails; RunPost true], _. split_and!;
      [simpl; lia|done|simpl; unfold do_fails; rewrite Hat; simpl; unfold run_post; simpl; rewrite Hq; reflexivity
      |done|simpl; by rewrite I4].
  - destruct Hf as [Hf|Hf]; [|set_solver]. eapply (Hvia PumpDone); [done|simpl; unfold pump_done; by rewrite Hat, Hf|done|done].
  - destruct Hf as [Hf|Hf]; [|set_solver]. eapply (Hvia (BodyRead 0 (Some false)));
      [done|simpl; unfold body_read; rewrite Hat, (I6 Hf), orb_true_r; reflexivity|done|done].
  - apply Hcl. by left.
  - apply Hcl. right; by left.
  - apply Hcl. do 2 right; by left.
  - destruct (queue t) as [|[] q] eqn:Hq; try (exists [], t; split_and!; [simpl; lia|done|done|done|done]).
    eexists [RunPost true], _. split_and!;
      [simpl; lia|done|simpl; unfold run_post; rewrite Hq; reflexivity|simpl; done|simpl; by rewrite I4].
Qed.

(** *** A response the host cannot hand over *)

(** NewObject fails for a response: the guest's error callback is told, and the
    pump, of which the code says that it is abandoned, waits for a
    http_client_body_resume that cannot come, the count still held. *)
Example abandoned_pump_waits :
  match steps [DoAnswers 200 (lit "body") false; PumpResume; BodyRead 4 None; RunPost false; RunPost true] (start (Some 1) (Some 2) None) with
  | Some t => at_ t = Waiting ∧ held t = 1 ∧ queue t = [] ∧ pump_resume t = None ∧ pump_done t = None ∧ seen true t = [Call 2; Free 1; Hook (lit "body")]
  | None => False
  end.
Proof. vm_compute. split_and!; reflexivity. Qed.

(** ** The table of exchanges *)

Module Table.

(** The part of netState the HTTP client uses, with every round trip that was
    begun and the transport its cleanup is for. [rejected] are the error callbacks
    of requests that could not be made, to be called; [log] is what became of
    their callbacks and of the chunks handed to http_client_write. *)
Record world := MkWorld {
  nextID : Z;
  clientBodies : gset Z;
  clientReqs : gset Z;
  trips : gmap Z trip;
  cleanups : gmap Z transport;
  agents : pools;
  rejected : list Z;
  log : list event
}.

Definition newNetState : world := MkWorld 0 ∅ ∅ ∅ ∅ noPools [] [].

Definition with_trips (m : gmap Z trip) (w : world) : world :=
  MkWorld (nextID w) (clientBodies w) (clientReqs w) m (cleanups w) (agents w) (rejected w) (log w).
Definition with_tables (b r : gset Z) (w : world) : world :=
  MkWorld (nextID w) b r (trips w) (cleanups w) (agents w) (rejected w) (log w).
Definition with_agents (p : pools) (w : world) : world :=
  MkWorld (nextID w) (clientBodies w) (clientReqs w) (trips w) (cleanups w) p (rejected w) (log w).
Definition emit (es : list event) (w : world) : world :=
  MkWorld (nextID w) (clientBodies w) (clientReqs w) (trips w) (cleanups w) (agents w) (rejected w) (log w ++ es).
Definition on_trip (id : Z) (f : trip → trip) (w : world) : world := with_trips (alter f id (trips w)) w.

(** What the loop's pending count owes to the client. *)
Definition pending (w : world) : Z := Z.of_nat (map_sum (λ t, Z.to_nat (held t)) (trips w)).

Definition deliverClientReqError (onResponse onError : option Z) (w : world) : world :=
  let w := emit (map Free (option_list onResponse)) w in
  MkWorld (nextID w) (clientBodies w) (clientReqs w) (trips w) (cleanups w) (agents w) (rejected w ++ option_list onError) (log w).

(** The function it posted. *)
Definition run_rejected (w : world) : option world :=
  match rejected w with
  | [] => None
  | h :: hs =>
      Some (MkWorld (nextID w) (clientBodies w) (clientReqs w) (trips w) (cleanups w) (agents w) hs (log w ++ [Call h; Free h]))
  end.

(** startClientRoundTrip with the client it is given: the id, and the world. *)
Definition startClientRoundTrip (onResponse onError : option Z) (tr : transport) (throwaway : bool)
    (stream : option Body.clientReqStream) (w : world) : Z * world :=
  let id := nextID w + 1 in
  (id, MkWorld id ({[id]} ∪ clientBodies w) (match stream with Some _ => {[id]} ∪ clientReqs w | None => clientReqs w end)
         (<[id := start onResponse onError stream]> (trips w))
         (if throwaway then <[id := tr]> (cleanups w) else cleanups w) (agents w) (rejected w) (log w)).

(** opHTTPClientReq and opHTTPClientReqStream, [valid] saying whether
    http.NewRequest makes a request of the arguments: the id, or undefined. *)
Definition request (stream : option Body.clientReqStream) (valid : bool) (agentJSON : bytes) (onResponse onError : option Z)
    (w : world) : option Z * world :=
  if valid then
    let '(tr, throwaway, p) := clientForAgent (agent_of agentJSON) (agents w) in
    let '(id, w') := startClientRoundTrip onResponse onError tr throwaway stream (with_agents p w) in
    (Some id, w')
  else (None, deliverClientReqError onResponse onError w).

Definition opHTTPClientReq := request None.
Definition opHTTPClientReqStream := request (Some Body.newStream).

(** The chunk: its handle when it is an object, and its bytes. *)
Definition opHTTPClientWrite (id : Z) (handle : option Z) (b : option bytes) (w : world) : world :=
  let w' := emit (map Free (option_list handle)) w in
  if bool_decide (id ∈ clientReqs w) then
    match b with
    | Some (x :: c) => on_trip id (λ t, with_stream (Body.write (x :: c) <$> stream t) t) w'
    | _ => w'
    end
  else w'.

Definition opHTTPClientEnd (id : Z) (w : world) : world :=
  if bool_decide (id ∈ clientReqs w) then on_trip id (λ t, with_stream (Body.close <$> stream t) t) w else w.

Definition opHTTPClientBodyResume (id : Z) (w : world) : world :=
  if bool_decide (id ∈ clientBodies w) then on_trip id body_resume w else w.

Definition opHTTPClientBodyCancel (id : Z) (w : world) : world :=
  let w1 := if bool_decide (id ∈ clientBodies w) then on_trip id finish w else w in
  if bool_decide (id ∈ clientReqs w) then on_trip id abort_stream w1 else w1.

Definition opAgentClose (agentId : Z) (w : world) : world := with_agents (opHTTPAgentClose agentId (agents w)) w.

(** The client's part of closeNet. *)
Definition closeNet (w : world) : world :=
  let stop (id : Z) (t : trip) :=
    let t1 := if bool_decide (id ∈ clientBodies w) then finish t else t in
    if bool_decide (id ∈ clientReqs w) then abort_stream t1 else t1 in
  let closed := map snd (map_to_list (transports (agents w))) in
  with_agents (MkPools ∅ (made (agents w)) (idleClosed (agents w) ++ map serial closed))
    (with_tables ∅ ∅ (with_trips (map_imap (λ id t, Some (stop id t)) (trips w)) w)).

(** A step of a round trip's goroutine, its transport or the loop. Where it runs
    cleanup the entries go; where the goroutine ends, clientCleanup runs. *)
Definition trip_step (id : Z) (l : label) (w : world) : option world :=
  if own l then
    t ← trips w !! id;
    t' ← step l t;
    let w1 := with_trips (<[id := t']> (trips w)) w in
    let cleans := match l with
                  | Unwind => bool_decide (at_ t = Cleaning)
                  | RunPost _ => bool_decide (head (queue t) = Some DoFailed)
                  | _ => false
                  end in
    let w2 := if cleans then with_tables (clientBodies w1 ∖ {[id]})
                               (match stream t with Some _ => clientReqs w1 ∖ {[id]} | None => clientReqs w1 end) w1
              else w1 in
    let ends := bool_decide (at_ t' = Gone) && negb (bool_decide (at_ t = Gone)) in
    Some (match cleanups w !! id with
          | Some tr => if ends then with_agents (closeIdle tr (agents w2)) w2 else w2
          | None => w2
          end)
  else None.

Inductive op :=
| OpRequest (valid : bool) (agentJSON : bytes) (onResponse onError : option Z)
| OpStreaming (valid : bool) (agentJSON : bytes) (onResponse onError : option Z)
| OpWrite (id : Z) (handle : option Z) (b : option bytes)
| OpEnd (id : Z)
| OpResume (id : Z)
| OpCancel (id : Z)
| OpAgentClose (id : Z)
| CloseNet
| Rejected
| OfTrip (id : Z) (l : label).

Definition world_step (o : op) (w : world) : option world :=
  match o with
  | OpRequest v a r e => Some (opHTTPClientReq v a r e w).2
  | OpStreaming v a r e => Some (opHTTPClientReqStream v a r e w).2
  | OpWrite id h b => Some (opHTTPClientWrite id h b w)
  | OpEnd id => Some (opHTTPClientEnd id w)
  | OpResume id => Some (opHTTPClientBodyResume id w)
  | OpCancel id => Some (opHTTPClientBodyCancel id w)
  | OpAgentClose id => Some (opAgentClose id w)
  | CloseNet => Some (closeNet w)
  | Rejected => run_rejected w
  | OfTrip id l => trip_step id l w
  end.

Inductive reachable : world → Prop :=
| reachable_new : reachable newNetState
| reachable_step o w w' : reachable w → world_step o w = Some w' → reachable w'.

End Table.

Import Table.

(** What is known of the round trip under an id. *)
Record entry_ok (w : world) (id : Z) (t : trip) : Prop := {
  e_inv : inv (onResponse t) (onError t) t;
  e_bound : id <= nextID w;
  e_found : id ∈ clientBodies w ∨ finished t = true ∨ at_ t ∈ [Cleaning; Releasing; Finishing; Gone]
}.

Definition table_ok (w : world) : Prop := map_Forall (entry_ok w) (trips w).

Lemma trip_step_handles l t t' : step l t = Some t' → onResponse t' = onResponse t ∧ onError t' = onError t.
Proof.
  intros Hs. destruct l; simpl in Hs; unfold do_fails, do_answers, pump_resume, pump_done, body_read, unwind, run_post, stream_step in Hs.
  all: repeat (case_match || simplify_option_eq); done.
Qed.

(** Steps keep what lets a round trip wind down. *)
Lemma step_found l t t' :
  step l t = Some t' → finished t = true ∨ at_ t ∈ [Cleaning; Releasing; Finishing; Gone] →
  finished t' = true ∨ at_ t' ∈ [Cleaning; Releasing; Finishing; Gone].
Proof.
  intros Hs Hf. destruct l; simpl in Hs; unfold do_fails, do_answers, pump_resume, pump_done, body_read, unwind, run_post, stream_step in Hs.
  all: repeat (case_match || simplify_option_eq); auto; set_solver.
Qed.

(** A change to a round trip that the goroutine does not see. *)
Record quiet (f : trip → trip) : Prop := {
  k_inv r e t : inv r e t → inv r e (f t);
  k_handles t : onResponse (f t) = onResponse t ∧ onError (f t) = onError t;
  k_at t : at_ (f t) = at_ t;
  k_finished t : finished t = true → finished (f t) = true
}.

Lemma quiet_stream g : quiet (λ t, with_stream (g <$> stream t) t).
Proof. split; try done. intros r e t Hi. eapply quiet_inv; [..|exact Hi]; try done; apply Hi. Qed.

Lemma quiet_resume : quiet body_resume.
Proof. split; try done. intros r e t Hi. by apply (trip_step_inv r e Resume t). Qed.

Lemma quiet_finish : quiet finish.
Proof. split; try done. intros r e t Hi. eapply quiet_inv; [..|exact Hi]; try done; apply Hi. Qed.

Lemma quiet_abort : quiet abort_stream.
Proof. exact (quiet_stream Body.abort). Qed.

Lemma entry_quiet f w w' id t :
  quiet f → nextID w' = nextID w → (id ∈ clientBodies w → id ∈ clientBodies w' ∨ finished (f t) = true) →
  entry_ok w id t → entry_ok w' id (f t).
Proof.
  intros Hq Hn Hb [H1 H2 H3]. destruct (k_handles f Hq t) as [E1 E2]. split.
  - rewrite E1, E2. by apply Hq.
  - by rewrite Hn.
  - rewrite (k_at f Hq). destruct H3 as [H|[H|H]]; [|right; left; by apply Hq|by right; right].
    destruct (Hb H); auto.
Qed.

Lemma on_trip_ok f id w : quiet f → table_ok w → table_ok (on_trip id f w).
Proof.
  intros Hq Ht i t Hi. simpl in Hi. destruct (decide (i = id)) as [->|Hne].
  - rewrite lookup_alter_eq in Hi. destruct (trips w !! id) as [t0|] eqn:E; simplify_eq/=.
    apply (entry_quiet f w); try done; [by left|by apply Ht].
  - rewrite lookup_alter_ne in Hi by done. destruct (Ht i t Hi) as [? ? ?]. by split.
Qed.

Lemma table_same w w' :
  nextID w <= nextID w' → clientBodies w ⊆ clientBodies w' → trips w' = trips w → table_ok w → table_ok w'.
Proof. intros H1 H2 H3 Ht i t Hi. rewrite H3 in Hi. destruct (Ht i t Hi) as [E1 E2 E3]. split; [done|lia|set_solver]. Qed.

Lemma request_ok stream v a r e w : table_ok w → table_ok (request stream v a r e w).2.
Proof.
  intros Ht. unfold request. destruct v; [|by eapply table_same; [..|exact Ht]; done].
  destruct (clientForAgent _ _) as [[tr thr] p]. simpl. intros i t Hi. simpl in Hi.
  destruct (decide (i = nextID w + 1)) as [->|Hne].
  - rewrite lookup_insert_eq in Hi. simplify_eq. split; [apply trip_start_inv|simpl; lia|left; simpl; set_solver].
  - rewrite lookup_insert_ne in Hi by done. destruct (Ht i t Hi) as [E1 E2 E3]. split; [done|simpl; lia|simpl; set_solver].
Qed.

Lemma close_entry w id t :
  entry_ok w id t →
  entry_ok (closeNet w) id
    (let t1 := if bool_decide (id ∈ clientBodies w) then finish t else t in
     if bool_decide (id ∈ clientReqs w) then abort_stream t1 else t1).
Proof.
  intros He. set (f := λ t, if bool_decide (id ∈ clientReqs w) then abort_stream t else t).
  assert (quiet f) as Hf by (unfold f; case_bool_decide; [apply quiet_abort|by split]).
  change (entry_ok (closeNet w) id (f (if bool_decide (id ∈ clientBodies w) then finish t else t))).
  case_bool_decide as Hb.
  - assert (quiet (λ t, f (finish t))) as Hff.
    { pose proof quiet_finish as [a b c d]. destruct Hf as [a' b' c' d']. split; auto.
      - intros t0. destruct (b' (finish t0)) as [-> ->]. apply b.
      - intros t0. by rewrite c', c. }
    apply (entry_quiet (λ t, f (finish t)) w); try done. intros _. right. by apply Hf.
  - apply (entry_quiet f w); try done.
Qed.

Lemma trip_step_trips id l w w' :
  trip_step id l w = Some w' →
  ∃ t t', trips w !! id = Some t ∧ own l = true ∧ step l t = Some t' ∧ trips w' = <[id := t']> (trips w) ∧ nextID w' = nextID w ∧
    (clientBodies w' = clientBodies w ∨ clientBodies w' = clientBodies w ∖ {[id]} ∧
      match l with Unwind => at_ t = Cleaning | RunPost _ => head (queue t) = Some DoFailed | _ => False end).
Proof.
  unfold trip_step. destruct (own l) eqn:Hl; [|done]. intros Hs.
  destruct (trips w !! id) as [t|] eqn:E; [|done]. simpl in Hs. destruct (step l t) as [t'|] eqn:Es; [|done]. simpl in Hs.
  exists t, t'. injection Hs as <-.
  set (cleans := match l with Unwind => _ | RunPost _ => _ | _ => _ end).
  assert (Hc : cleans = true → match l with Unwind => at_ t = Cleaning | RunPost _ => head (queue t) = Some DoFailed | _ => False end)
    by (unfold cleans; destruct l; try done; apply bool_decide_eq_true).
  split_and!; try done.
  - destruct (cleanups w !! id); repeat case_match; by destruct cleans.
  - destruct (cleanups w !! id); repeat case_match; by destruct cleans.
  - destruct cleans; [right|left]; destruct (cleanups w !! id); repeat case_match; auto.
Qed.

Lemma trip_step_ok id l w w' : trip_step id l w = Some w' → table_ok w → table_ok w'.
Proof.
  intros Hs Ht. destruct (trip_step_trips id l w w' Hs) as (t & t' & Hid & Ho & Hst & Htr & Hn & Hcb).
  intros i u Hi. rewrite Htr in Hi. destruct (decide (i = id)) as [->|Hne].
  - rewrite lookup_insert_eq in Hi. simplify_eq. destruct (Ht id t Hid) as [E1 E2 E3].
    destruct (trip_step_handles l t u Hst) as [Hr He].
    pose proof (trip_step_inv _ _ l t u Hst E1) as Hi. split; [by rewrite Hr, He|lia|].
    destruct E3 as [E3|E3]; [|right; by eapply step_found].
    destruct Hcb as [->|[-> Hw]]; [by left|right; right].
    destruct l; try done; simpl in Hst.
    + unfold unwind in Hst. rewrite Hw in Hst. simplify_eq/=. right; by left.
    + unfold run_post in Hst. destruct (queue t) as [|p ps] eqn:Hq; [done|]. simplify_eq/=.
      destruct (failed_alone t (i_told _ _ _ E1)) as [-> _]; [unfold history; rewrite Hq; set_solver|]. set_solver.
  - rewrite lookup_insert_ne in Hi by done. destruct (Ht i u Hi) as [E1 E2 E3]. split; [done|lia|].
    destruct Hcb as [->|[-> _]]; [done|]. set_solver.
Qed.

Lemma reachable_ok w : reachable w → table_ok w.
Proof.
  induction 1 as [|o w w' _ IH Hs]; [apply map_Forall_empty|].
  destruct o as [v a r e|v a r e|id h b|id|id|id|id| | |id l]; simpl in Hs; simplify_eq.
  - by apply request_ok.
  - by apply request_ok.
  - unfold opHTTPClientWrite. case_bool_decide; [destruct b as [[|x c]|]|].
    2: apply (on_trip_ok _ id (emit _ w) (quiet_stream _)).
    all: by eapply table_same; [..|exact IH].
  - unfold opHTTPClientEnd. case_bool_decide; [|done]. by apply (on_trip_ok _ id w (quiet_stream _)).
  - unfold opHTTPClientBodyResume. case_bool_decide; [|done]. by apply (on_trip_ok _ id w quiet_resume).
  - unfold opHTTPClientBodyCancel.
    assert (table_ok (if bool_decide (id ∈ clientBodies w) then on_trip id finish w else w))
      by (case_bool_decide; [by apply (on_trip_ok _ id w quiet_finish)|done]).
    destruct (bool_decide (id ∈ clientReqs w)); [|done]. by apply (on_trip_ok _ id _ quiet_abort).
  - by eapply table_same; [..|exact IH].
  - intros i t Hi. simpl in Hi. rewrite map_lookup_imap in Hi. destruct (trips w !! i) as [t0|] eqn:E; simplify_eq/=.
    apply close_entry. by apply IH.
  - unfold run_rejected in Hs. destruct (rejected w); simplify_eq. by eapply table_same; [..|exact IH].
  - by eapply trip_step_ok.
Qed.

(** *** Teardown *)

Fixpoint world_steps (os : list op) (w : world) : option world :=
  match os with [] => Some w | o :: os' => w' ← world_step o w; world_steps os' w' end.

Lemma world_steps_app os os' w : world_steps (os ++ os') w = world_steps os w ≫= world_steps os'.
Proof. revert w. induction os as [|o os IH]; intros w; [done|]. simpl. destruct (world_step o w); [apply IH|done]. Qed.

Lemma trip_steps id ls w t t' :
  trips w !! id = Some t → forallb own ls = true → steps ls t = Some t' →
  ∃ w', world_steps (map (OfTrip id) ls) w = Some w' ∧ trips w' = <[id := t']> (trips w).
Proof.
  revert w t. induction ls as [|l ls IH]; intros w t Hid Ho Hs; simpl in *.
  - simplify_eq. exists w. split; [done|]. by rewrite insert_id.
  - apply andb_true_iff in Ho as [Hl Ho]. destruct (step l t) as [t1|] eqn:E; [|done]. simpl in Hs.
    destruct (trip_step id l w) as [w1|] eqn:Ew.
    2: { exfalso. unfold trip_step in Ew. rewrite Hl, Hid in Ew. simpl in Ew. rewrite E in Ew. done. }
    destruct (trip_step_trips id l w w1 Ew) as (u & u' & Hu & _ & Hst & Htr & _). simplify_eq.
    destruct (IH w1 t1) as (w' & H1 & H2); [by rewrite Htr, lookup_insert_eq|done|done|].
    exists w'. split; [done|]. by rewrite H2, Htr, insert_insert_eq.
Qed.

(** Round trips that can all wind down. *)
Definition leaving (w : world) : Prop :=
  map_Forall (λ _ t, inv (onResponse t) (onError t) t ∧ (finished t = true ∨ at_ t ∈ [Cleaning; Releasing; Finishing; Gone])) (trips w).

Lemma leaving_settles w :
  leaving w → ∃ os w', Forall (λ o, match o with OfTrip _ l => own l = true | _ => False end) os ∧
    world_steps os w = Some w' ∧ pending w' = 0 ∧ Z.of_nat (length os) <= 4 * pending w.
Proof.
  unfold pending. remember (map_sum (λ t, Z.to_nat (held t)) (trips w)) as n eqn:Hn.
  revert w Hn. induction (lt_wf n) as [n _ IH]. intros w Hn Hl. destruct (decide (n = 0%nat)) as [->|Hnz].
  { exists [], w. rewrite <-Hn. split_and!; [constructor|done|done|simpl; lia]. }
  assert (∃ id t, trips w !! id = Some t ∧ held t ≠ 0) as (id & t & Hid & Hh).
  { destruct (decide (map_Forall (λ _ t, held t = 0) (trips w))) as [Ha|Ha].
    - exfalso. apply Hnz. rewrite Hn. unfold map_sum. apply sum_zero. intros [i t] Hit%elem_of_map_to_list.
      simpl. by rewrite (Ha i t Hit).
    - apply map_not_Forall in Ha; [|apply _]. naive_solver. }
  destruct (Hl id t Hid) as [Hi Hf]. destruct (winds_down _ _ t Hi Hf) as (ls & t' & H1 & H2 & H3 & H4 & H5).
  destruct (trip_steps id ls w t t' Hid H2 H3) as (w1 & Hw1 & Htr).
  assert (Hsum : (map_sum (λ t, Z.to_nat (held t)) (trips w1) + Z.to_nat (held t) = n)%nat).
  { rewrite Htr, Hn. pose proof (map_sum_insert (λ t, Z.to_nat (held t)) _ _ _ t' Hid) as Hm. simpl in Hm. rewrite H5 in Hm. lia. }
  assert (held t = 1) as Hone by (rewrite (i_held _ _ _ Hi) in *; by destruct (over t)).
  rewrite Hone in Hsum. change (Z.to_nat 1) with 1%nat in Hsum.
  destruct (IH (map_sum (λ t, Z.to_nat (held t)) (trips w1)) ltac:(lia) w1 eq_refl) as (os & w' & G1 & G2 & G3 & G4).
  { intros i u Hu. rewrite Htr in Hu. destruct (decide (i = id)) as [->|Hne].
    - rewrite lookup_insert_eq in Hu. simplify_eq. split; [|right; rewrite H4; set_solver].
      clear -Hi H3. revert t Hi H3. induction ls as [|l ls IH]; intros t Hi Hs; simpl in Hs; [by simplify_eq|].
      destruct (step l t) as [t1|] eqn:E; [|done]. apply (IH t1); [|done].
      destruct (trip_step_handles l t t1 E) as [-> ->]. by eapply trip_step_inv.
    - rewrite lookup_insert_ne in Hu by done. exact (Hl i u Hu). }
  exists (map (OfTrip id) ls ++ os), w'. split_and!.
  - apply Forall_app. split; [|done]. apply Forall_fmap, Forall_forall. intros l Hl'.
    rewrite forallb_forall in H2. apply H2. by apply list_elem_of_In.
  - by rewrite world_steps_app, Hw1.
  - done.
  - rewrite length_app, length_map. lia.
Qed.

(** The loop's pending count is that of the round trips under way, and no
    round trip outlives the runtime: from any state of the client, once closeNet
    has stopped the body pumps, steps of the goroutines and the loop alone, four
    at most for each, bring the count to zero. *)
Theorem client_teardown_settles (w : world) (Hr : reachable w) :
  pending w = Z.of_nat (map_sum (λ t, if over t then 0 else 1)%nat (trips w)) ∧
  ∃ os w', Forall (λ o, match o with OfTrip _ l => own l = true | _ => False end) os ∧
    world_steps os (closeNet w) = Some w' ∧ pending w' = 0 ∧ Z.of_nat (length os) <= 4 * pending (closeNet w).
Proof.
  apply reachable_ok in Hr. split.
  - unfold pending. f_equal. apply map_sum_ext. intros i t Hit.
    rewrite (i_held _ _ _ (e_inv _ _ _ (Hr i t Hit))). by destruct (over t).
  - apply leaving_settles. intros i t Hi. simpl in Hi. rewrite map_lookup_imap in Hi.
    destruct (trips w !! i) as [t0|] eqn:E; simplify_eq/=. destruct (close_entry w i t0 (Hr i t0 E)) as [H1 _ H3].
    split; [exact H1|]. destruct H3 as [H3|H3]; [|exact H3]. simpl in H3. set_solver.
Qed.

(** ** A request, its response, and a teardown in the middle of another *)

Definition client_ops : list op :=
  [OpRequest true [] (Some 1) (Some 2); OpStreaming true (lit "{}") (Some 3) None; OpRequest false [] (Some 4) (Some 5);
   OpWrite 2 None (Some (lit "par")); OfTrip 2 (Stream Body.Signal); OfTrip 2 (Stream (Body.Read 8)); OfTrip 2 (Stream Body.Look);
   OfTrip 1 (DoAnswers 200 (lit "hello") false); OfTrip 1 (RunPost true); OfTrip 1 PumpResume; OfTrip 1 (BodyRead 3 None);
   OpResume 1; OfTrip 1 PumpResume; OfTrip 1 (BodyRead 2 (Some true)); OfTrip 1 Unwind; OfTrip 1 Unwind; OfTrip 1 Unwind;
   OfTrip 1 (RunPost true); OfTrip 1 (RunPost true); OfTrip 1 (RunPost true); OfTrip 1 (RunPost true); Rejected].

Definition client_world : world := default newNetState (world_steps client_ops newNetState).

Lemma reachable_world_steps os w w' : reachable w → world_steps os w = Some w' → reachable w'.
Proof.
  revert w. induction os as [|o os IH]; intros w Hr Hs; simpl in Hs; [by simplify_eq|].
  destruct (world_step o w) as [w1|] eqn:E; [|done]. eapply IH; [|exact Hs]. by eapply reachable_step.
Qed.

Lemma client_teardown_settles_witness :
  reachable client_world ∧ pending client_world = 1 ∧ ∃ os w', world_steps os (closeNet client_world) = Some w' ∧ pending w' = 0.
Proof.
  assert (Hr : reachable client_world) by (apply (reachable_world_steps client_ops newNetState); [constructor|vm_compute; reflexivity]).
  split; [exact Hr|]. split; [vm_compute; reflexivity|].
  destruct (client_teardown_settles client_world Hr) as (_ & os & w' & _ & H1 & H2 & _). exists os, w'. split; [exact H1|exact H2].
Defined.

(** The first of them by itself. *)
Definition trip_labels : list label :=
  [DoAnswers 200 (lit "hello") false; RunPost true; PumpResume; BodyRead 3 None; Resume; PumpResume; BodyRead 2 (Some true);
   Unwind; Unwind; Unwind; RunPost true; RunPost true; RunPost true; RunPost true].

Definition trip_end : trip := default (start None None None) (steps trip_labels (start (Some 1) (Some 2) None)).

Lemma reach_trip_steps r e s ls t t' : reach r e s t → steps ls t = Some t' → reach r e s t'.
Proof.
  revert t. induction ls as [|l ls IH]; intros t Hr Hs; simpl in Hs; [by simplify_eq|].
  destruct (step l t) as [t1|] eqn:E; [|done]. eapply IH; [|exact Hs]. by eapply reach_step.
Qed.

Lemma trip_end_reach : reach (Some 1) (Some 2) None trip_end.
Proof. apply (reach_trip_steps _ _ _ trip_labels (start (Some 1) (Some 2) None)); [constructor|vm_compute; reflexivity]. Qed.

Lemma client_body_exact_witness :
  seen true trip_end = [Call 1; Free 1; Hook (lit "hel"); Hook (lit "lo"); HookEnd true; Free 2] ∧
  ∃ es, hooks (seen true trip_end) = map Hook (handed (chunks_of (ran trip_end))) ++ map HookEnd es.
Proof.
  split; [vm_compute; reflexivity|]. destruct (client_body_exact (Some 1) (Some 2) None trip_end trip_end_reach) as (es & H & _).
  exists es. exact H.
Defined.

(** A chunk the engine could not make a bytes object of: the body that reaches
    the hook lacks it, and its end is clean all the same. *)
Example clean_end_after_a_drop :
  seen true <$> steps
    [DoAnswers 200 (lit "hello") false; RunPost true; PumpResume; BodyRead 3 None; Resume; PumpResume; BodyRead 2 (Some true);
     RunPost true; RunPost false; RunPost true] (start (Some 1) None None) =
  Some [Call 1; Free 1; Hook (lit "hel"); HookEnd true].
Proof. vm_compute. reflexivity. Qed.

Lemma client_callbacks_once_witness :
  at_ trip_end = Gone ∧ queue trip_end = [] ∧ ∃ who, (who = Some 1 ∨ who = Some 2) ∧
    callbacks (seen true trip_end) = map Call (option_list who) ++ [Free 1; Free 2].
Proof.
  split; [vm_compute; reflexivity|]. split; [vm_compute; reflexivity|].
  destruct (client_callbacks_once (Some 1) (Some 2) None trip_end trip_end_reach) as (who & Hw & _ & H).
  exists who. split; [exact Hw|]. rewrite H; [reflexivity|vm_compute; reflexivity..].
Defined.
