(* ===== verification/Dgram.v ===== *)
(** compat/nodejs/dgram.go: UDP sockets. Module Sock is one bound socket with its
    pump and the functions the pump posts; Module Dgram is the table of sockets
    with the datagrams on their way out. As in Client.v the functions posted by
    one goroutine run in their order, and how the loop interleaves those of
    several is left open. *)

From S2P Require Import Prelude Counting FetchReq ClientReq.

Module Sock.

Inductive post := Message (d : bytes) | FreeOnMessage.

(** What the guest sees of its callback. *)
Inductive event := Call (h : Z) (d : bytes) | Free (h : Z).

(** [running]: the pump's goroutine; [shut]: conn.Close was called; [credit]: the
    tokens in the channel of that name. [ran] are the posted functions that ran
    and whether a bytes object could be made, [arrived] the datagrams read from
    the socket: neither is in the code. *)
Record sock := MkSock {
  onMessage : option Z;
  running : bool;
  shut : bool;
  credit : nat;
  queue : list post;
  ran : list (post * bool);
  arrived : list bytes
}.

Definition open (onMessage : option Z) : sock := MkSock onMessage true false 0 [] [] [].

Definition maxUDPInFlight : nat := Z.to_nat 1024.

(** conn.ReadFromUDP answers with [d], and with an error when [failed]. *)
Definition pump_read (d : bytes) (failed : bool) (s : sock) : option sock :=
  if running s && (zlen d <=? Z.shiftl 64 10) then
    let takes := negb (bool_decide (d = [])) && (credit s <? maxUDPInFlight)%nat in
    Some (MkSock (onMessage s) (negb failed) (shut s) (if takes then S (credit s) else credit s)
            (queue s ++ (if takes then [Message d] else []) ++
              (if failed then match onMessage s with Some _ => [FreeOnMessage] | None => [] end else []))
            (ran s) (arrived s ++ [d]))
  else None.

Definition run_post (ok : bool) (s : sock) : option sock :=
  match queue s with
  | [] => None
  | p :: ps =>
      Some (MkSock (onMessage s) (running s) (shut s) (match p with Message _ => (credit s - 1)%nat | FreeOnMessage => credit s end)
              ps (ran s ++ [(p, ok)]) (arrived s))
  end.

Definition close (s : sock) : sock := MkSock (onMessage s) (running s) true (credit s) (queue s) (ran s) (arrived s).

Definition effect (s : sock) (p : post) (ok : bool) : list event :=
  match p with
  | Message d => if ok then map (λ h, Call h d) (option_list (onMessage s)) else []
  | FreeOnMessage => map Free (option_list (onMessage s))
  end.

Definition seen (s : sock) : list event := flat_map (λ po, effect s po.1 po.2) (ran s).

Inductive label := Read (d : bytes) (failed : bool) | RunPost (ok : bool) | Close.

Definition step (l : label) (s : sock) : option sock :=
  match l with
  | Read d failed => pump_read d failed s
  | RunPost ok => run_post ok s
  | Close => Some (close s)
  end.

Inductive reach (h : option Z) : sock → Prop :=
| reach_open : reach h (open h)
| reach_step l s s' : reach h s → step l s = Some s' → reach h s'.

Fixpoint steps (ls : list label) (s : sock) : option sock :=
  match ls with [] => Some s | l :: ls' => s' ← step l s; steps ls' s' end.

End Sock.

Module Dgram.

(** What a goroutine of udp_send does: fire an error for a socket that is not in
    the table, or resolve and write. *)
Record send := MkSend { conn : option Z; data : bytes; port : Z; host : bytes; cb : option Z }.

(** [wire] are the datagrams written, with their addresses. *)
Record world := MkWorld {
  nextID : Z;
  udp : gset Z;
  socks : gmap Z Sock.sock;
  sending : list send;
  fired : list (option Z * option bytes);     (** posted: a callback, and the error *)
  pending : Z;
  wire : list (bytes * bytes);
  log : list (Z * option bytes);              (** callbacks called and then released *)
  freed : list Z                              (** callbacks released without a call *)
}.

Definition newNetState : world := MkWorld 0 ∅ ∅ [] [] 0 [] [] [].

Definition with_socks (m : gmap Z Sock.sock) (w : world) : world :=
  MkWorld (nextID w) (udp w) m (sending w) (fired w) (pending w) (wire w) (log w) (freed w).
Definition with_udp (u : gset Z) (w : world) : world :=
  MkWorld (nextID w) u (socks w) (sending w) (fired w) (pending w) (wire w) (log w) (freed w).
Definition add_pending (n : Z) (w : world) : world :=
  MkWorld (nextID w) (udp w) (socks w) (sending w) (fired w) (pending w + n) (wire w) (log w) (freed w).
Definition freeObjects (hs : list Z) (w : world) : world :=
  MkWorld (nextID w) (udp w) (socks w) (sending w) (fired w) (pending w) (wire w) (log w) (freed w ++ hs).
Definition with_sending (l : list send) (w : world) : world :=
  MkWorld (nextID w) (udp w) (socks w) l (fired w) (pending w) (wire w) (log w) (freed w).
Definition fire (c : option Z) (e : option bytes) (w : world) : world :=
  MkWorld (nextID w) (udp w) (socks w) (sending w) (fired w ++ [(c, e)]) (pending w) (wire w) (log w) (freed w).
Definition writes (d a : bytes) (w : world) : world :=
  MkWorld (nextID w) (udp w) (socks w) (sending w) (fired w) (pending w) (wire w ++ [(d, a)]) (log w) (freed w).

Inductive bound := Refused (code : bytes) | Bound (id : Z).

(** [unresolved] is the error of net.ResolveUDPAddr, and [listens] says whether
    net.ListenUDP succeeds. *)
Definition opUDPBind (allowed : bool) (unresolved : option bytes) (listens : bool) (onMessage : option Z) (w : world) : bound * world :=
  if negb allowed then (Refused (lit "EACCES"), freeObjects (option_list onMessage) w)
  else
    match unresolved with
    | Some message => (Refused (netErr message), freeObjects (option_list onMessage) w)
    | None =>
    if negb listens then (Refused (lit "EADDRINUSE"), freeObjects (option_list onMessage) w)
    else
    let id := nextID w + 1 in
    (Bound id, add_pending 1
      (MkWorld id ({[id]} ∪ udp w) (<[id := Sock.open onMessage]> (socks w)) (sending w) (fired w) (pending w) (wire w) (log w) (freed w)))
    end.

(** [b]: the bytes of the second argument, [None] when it has none; the callback
    is then not looked at. *)
Definition opUDPSend (id : Z) (b : option bytes) (port : Z) (host : bytes) (cb : option Z) (w : world) : option unit * world :=
  match b with
  | None => (None, w)
  | Some d =>
      let c := if bool_decide (id ∈ udp w) then Some id else None in
      (Some tt, add_pending 1 (with_sending (sending w ++ [MkSend c d port host cb]) w))
  end.

Definition opUDPClose (id : Z) (w : world) : world :=
  if bool_decide (id ∈ udp w) then with_socks (alter Sock.close id (socks w)) w else w.

(** The UDP part of closeNet. *)
Definition closeNet (w : world) : world :=
  with_udp ∅ (with_socks (map_imap (λ id s, Some (if bool_decide (id ∈ udp w) then Sock.close s else s)) (socks w)) w).

Section Run.
Context (ParseIP : bytes → option bytes) (LookupIP : bytes → result bytes (list bytes)) (quoted : bytes → bytes) (cfg : Config).

(** A goroutine of udp_send; [failed] is the error of the address's syntax or of
    the write, which fails on a closed socket. *)
Definition send_done (i : nat) (failed : option bytes) (w : world) : option world :=
  s ← sending w !! i;
  let w1 := add_pending (-1) (with_sending (delete i (sending w)) w) in
  match conn s with
  | None => Some (fire (cb s) (Some (lit "socket closed")) w1)
  | Some id =>
      match resolveDialAddr ParseIP LookupIP cfg (lit "udp") (host s) (port s) with
      | Err e => Some (fire (cb s) (Some (Error quoted e)) w1)
      | Ok a =>
          match failed with
          | Some e => Some (fire (cb s) (Some e) w1)
          | None =>
              if default true (Sock.shut <$> socks w !! id) then None
              else Some (fire (cb s) None (writes (data s) a w1))
          end
      end
  end.

(** The function it posted. *)
Definition run_fired (w : world) : option world :=
  match fired w with
  | [] => None
  | (c, e) :: fs =>
      Some (MkWorld (nextID w) (udp w) (socks w) (sending w) fs (pending w) (wire w)
              (log w ++ map (λ h, (h, e)) (option_list c)) (freed w))
  end.

(** A step of a socket's pump or its posts; with the pump's last the entry
    goes. *)
Definition sock_step (id : Z) (l : Sock.label) (w : world) : option world :=
  match l with
  | Sock.Close => None
  | _ =>
      s ← socks w !! id;
      s' ← Sock.step l s;
      let w1 := with_socks (<[id := s']> (socks w)) w in
      Some (if Sock.running s && negb (Sock.running s') then add_pending (-1) (with_udp (udp w1 ∖ {[id]}) w1) else w1)
  end.

Inductive op :=
| OpBind (allowed : bool) (unresolved : option bytes) (listens : bool) (onMessage : option Z)
| OpSend (id : Z) (b : option bytes) (port : Z) (host : bytes) (cb : option Z)
| OpClose (id : Z)
| CloseNet
| SendDone (i : nat) (failed : option bytes)
| RunFired
| OfSock (id : Z) (l : Sock.label).

Definition world_step (o : op) (w : world) : option world :=
  match o with
  | OpBind a r l h => Some (opUDPBind a r l h w).2
  | OpSend id b port host cb => Some (opUDPSend id b port host cb w).2
  | OpClose id => Some (opUDPClose id w)
  | CloseNet => Some (closeNet w)
  | SendDone i failed => send_done i failed w
  | RunFired => run_fired w
  | OfSock id l => sock_step id l w
  end.

(** The callbacks an operation takes over; that of a udp_send that fails at once
    stays with the caller. *)
Definition takes (o : op) : list Z :=
  match o with OpSend _ (Some _) _ _ cb => option_list cb | _ => [] end.

Inductive reachable : list Z → world → Prop :=
| reachable_new : reachable [] newNetState
| reachable_step issued o w w' :
    reachable issued w → (∀ h, h ∈ takes o → h ∉ issued) → world_step o w = Some w' → reachable (takes o ++ issued) w'.

End Run.
End Dgram.

(** ** One socket *)

Section Socket.
Import Sock.

Definition messages (ps : list post) : list bytes := omap (λ p, match p with Message d => Some d | _ => None end) ps.

Definition frees (s : sock) : list post := match onMessage s with Some _ => [FreeOnMessage] | None => [] end.

Record sock_inv (h : option Z) (s : sock) : Prop := {
  s_handle : onMessage s = h;
  s_posts : ∃ kept, map fst (ran s) ++ queue s = map Message kept ++ (if running s then [] else frees s) ∧
              kept `sublist_of` filter (λ d, d ≠ []) (arrived s);
  s_credit : credit s = length (messages (queue s));
  s_cap : (credit s <= maxUDPInFlight)%nat
}.

Lemma messages_app a b : messages (a ++ b) = messages a ++ messages b.
Proof. apply omap_app. Qed.

Lemma sock_step_inv h l s s' : step l s = Some s' → sock_inv h s → sock_inv h s'.
Proof.
  intros Hs [H1 (kept & H2 & H3) H4 H5]. destruct l as [d failed|ok|]; simpl in Hs.
  - unfold pump_read in Hs. destruct (running s) eqn:Hrun; [|done]. destruct (zlen d <=? _); [|done]. simpl in Hs.
    injection Hs as <-. set (takes := negb (bool_decide (d = [])) && (credit s <? maxUDPInFlight)%nat).
    assert (Htk : takes = true → d ≠ [] ∧ (credit s < maxUDPInFlight)%nat).
    { unfold takes. rewrite andb_true_iff, negb_true_iff, bool_decide_eq_false. intros [? ?%Nat.ltb_lt]. done. }
    clearbody takes. rewrite app_nil_r in H2. split; try done.
    + exists (kept ++ if takes then [d] else []). split.
      * simpl. rewrite app_assoc, H2, map_app, <-!app_assoc. f_equal. destruct takes, failed; simpl; try done.
      * simpl. rewrite filter_app. apply sublist_app; [done|]. destruct takes; [|apply sublist_nil_l].
        rewrite filter_cons_True by (by apply Htk). done.
    + simpl. rewrite !messages_app, !length_app. destruct takes, failed; try destruct (onMessage s); simpl; lia.
    + simpl. destruct takes; [|done]. destruct Htk as [_ ?]; [done|]. lia.
  - unfold run_post in Hs. destruct (queue s) as [|p ps] eqn:Hq; simplify_eq. split; try done.
    + exists kept. split; [|done]. simpl. by rewrite map_app, <-app_assoc.
    + simpl. rewrite H4. destruct p; simpl; lia.
    + simpl. destruct p; lia.
  - simplify_eq. split; try done. by exists kept.
Qed.

Lemma sock_reach_inv h s : reach h s → sock_inv h s.
Proof.
  induction 1 as [|l s s' _ IH Hs]; [|by eapply sock_step_inv].
  split; simpl; try done; [|lia]. by exists [].
Qed.

Lemma seen_posts s rs q kept (b : bool) :
  map fst rs ++ q = map Message kept ++ (if b then [] else frees s) →
  ∃ ds (freed : bool), flat_map (λ po, effect s po.1 po.2) rs =
      flat_map (λ h, map (Call h) ds ++ if freed then [Free h] else []) (option_list (onMessage s)) ∧
    ds `sublist_of` kept ∧ (freed = true → b = false) ∧ (b = false → q = [] → freed = true ∨ onMessage s = None).
Proof.
  revert kept. induction rs as [|[p ok] rs IH]; intros kept Hr; simpl in *.
  - exists [], false. split_and!; [by destruct (onMessage s)|apply sublist_nil_l|done|].
    intros -> ->. symmetry in Hr. apply app_eq_nil in Hr as [_ Hr]. unfold frees in Hr. destruct (onMessage s); [done|by right].
  - destruct kept as [|d kept]; simpl in Hr.
    + destruct b; [done|]. unfold frees in Hr. destruct (onMessage s) as [h|] eqn:Eh; [|done].
      injection Hr as -> Hr. apply app_eq_nil in Hr as [Hr ->]. apply map_eq_nil in Hr as ->.
      exists [], true. simpl. rewrite Eh. split_and!; auto.
    + injection Hr as -> Hr. destruct (IH kept Hr) as (ds & fr & E & Hsub & Hf & Hfin). rewrite E.
      exists (if ok then d :: ds else ds), fr. split_and!; [|destruct ok; by constructor|done|done].
      simpl. destruct ok; [|done]. destruct (onMessage s); [|done]. simpl. by rewrite !app_nil_r.
Qed.

(** A bound socket. The guest's message callback is called with datagrams
    that arrived, each unchanged, in the order of arrival and once; it is released
    once, after the last call, when the pump has ended. The datagrams between the
    socket and the guest are never more than 1024, and one that is not empty is
    only dropped when there are that many. *)
Theorem datagrams_in_order (h : option Z) (s : sock) (Hr : reach h s) :
  (∃ ds (freed : bool), seen s = flat_map (λ h, map (Call h) ds ++ if freed then [Free h] else []) (option_list h) ∧
     ds `sublist_of` filter (λ d, d ≠ []) (arrived s) ∧ (freed = true → running s = false) ∧
     (running s = false → queue s = [] → freed = true ∨ h = None)) ∧
  (length (messages (queue s)) <= maxUDPInFlight)%nat ∧
  (∀ d, running s = true → d ≠ [] → zlen d <= 65536 → (length (messages (queue s)) < maxUDPInFlight)%nat →
     ∃ s', pump_read d false s = Some s' ∧ queue s' = queue s ++ [Message d]).
Proof.
  apply sock_reach_inv in Hr as [<- (kept & H2 & H3) H4 H5]. split_and!.
  - destruct (seen_posts s (ran s) (queue s) kept (running s) H2) as (ds & fr & E & Hsub & Hf & Hfin).
    exists ds, fr. split_and!; [done|by etrans|done|done].
  - by rewrite <-H4.
  - intros d Hrun Hd Hl Hc. rewrite <-H4 in Hc. unfold pump_read. rewrite Hrun.
    rewrite (proj2 (Z.leb_le _ _)) by done. rewrite bool_decide_false by done.
    rewrite (proj2 (Nat.ltb_lt _ _) Hc). eexists. by split.
Qed.

End Socket.

(** A datagram without bytes is read and forgotten: node:dgram delivers it as an
    empty message. *)
Example empty_datagram_lost :
  Sock.seen <$> Sock.steps [Sock.Read [] false; Sock.Read [7] false; Sock.RunPost true] (Sock.open (Some 1)) = Some [Sock.Call 1 [7]].
Proof. vm_compute. reflexivity. Qed.

(** ** The table, and datagrams on their way out *)

Import Dgram.

Section World.
Context (ParseIP : bytes → option bytes) (LookupIP : bytes → result bytes (list bytes)) (quoted : bytes → bytes) (cfg : Config).

Abbreviation stepw := (world_step ParseIP LookupIP quoted cfg).
Abbreviation reachw := (reachable ParseIP LookupIP quoted cfg).

Definition pumping (s : Sock.sock) : nat := if Sock.running s then 1 else 0.

(** Config allowed a datagram to [a]. *)
Definition approved (a : bytes) : Prop :=
  ∃ host port ip, a = JoinHostPort ip (Itoa port) ∧
    ((ParseIP host = Some ip ∧ mayDial cfg (lit "udp") [] ip port = true) ∨
     (ParseIP host = None ∧ mayResolve cfg host = true ∧ mayDial cfg (lit "udp") host ip port = true)).

Lemma resolve_approved host port a :
  resolveDialAddr ParseIP LookupIP cfg (lit "udp") host port = Ok a → approved a.
Proof.
  unfold resolveDialAddr. destruct (ParseIP host) as [ip|] eqn:Hp.
  - destruct (mayDial _ _ _ _ _) eqn:Hd; [|done]. intros [= <-]. exists host, port, ip. auto.
  - destruct (mayResolve cfg host) eqn:Hr; [|done]. simpl. destruct (cfgDial cfg) as [allow|] eqn:Hc; [|done].
    destruct (LookupIP host) as [ips|]; [|done]. destruct (List.find _ ips) as [ip|] eqn:Hf; [|done].
    apply List.find_some in Hf as [_ Hf]. intros [= <-]. exists host, port, ip. split; [done|]. right.
    split_and!; [done|done|]. unfold mayDial. by rewrite Hc.
Qed.

Record world_inv (issued : list Z) (w : world) : Prop := {
  w_pending : pending w = Z.of_nat (map_sum pumping (socks w) + length (sending w));
  w_bound : ∀ id, is_Some (socks w !! id) → id <= nextID w;
  w_found : map_Forall (λ id s, Sock.running s = true → id ∈ udp w ∨ Sock.shut s = true) (socks w);
  w_wire : Forall (λ da, approved da.2) (wire w);
  w_callbacks : ∀ h, (occ h (map fst (log w)) + sum_list_with (λ f, occ h (option_list f.1)) (fired w) +
                      sum_list_with (λ s, occ h (option_list (cb s))) (sending w) = occ h issued)%nat
}.

Lemma close_table w s id :
  (Sock.running s = true → id ∈ udp w ∨ Sock.shut s = true) →
  Sock.running (if bool_decide (id ∈ udp w) then Sock.close s else s) = true →
  Sock.shut (if bool_decide (id ∈ udp w) then Sock.close s else s) = true.
Proof. intros Hf. case_bool_decide; [done|]. intros Hr. by destruct (Hf Hr). Qed.

Lemma send_done_inv issued i failed w w' :
  send_done ParseIP LookupIP quoted cfg i failed w = Some w' → world_inv issued w → world_inv issued w'.
Proof.
  unfold send_done. intros Hs [H1 H2 H3 H4 H5]. destruct (sending w !! i) as [s|] eqn:Hi; [|done]. simpl in Hs.
  set (w1 := add_pending (-1) (with_sending (delete i (sending w)) w)) in *.
  assert (Hf : ∀ e ws, Forall (λ da, approved da.2) ws →
    world_inv issued (MkWorld (nextID w1) (udp w1) (socks w1) (sending w1) (fired w1 ++ [(cb s, e)]) (pending w1) ws (log w1) (freed w1))).
  { intros e ws Hws. split; simpl; try done.
    - rewrite H1, length_delete by (by eexists). apply lookup_lt_Some in Hi. lia.
    - intros h. rewrite sum_list_with_app. simpl. rewrite <-(H5 h).
      pose proof (sum_delete (λ s, occ h (option_list (cb s))) _ _ _ Hi). simpl in *. lia. }
  assert (Hw : Forall (λ da, approved da.2) (wire w1)) by exact H4. clearbody w1.
  assert (Hfire : ∀ e, world_inv issued (fire (cb s) e w1)) by (intros e; by apply (Hf e (wire w1))).
  destruct (conn s) as [id|]; [|by simplify_eq].
  destruct (resolveDialAddr _ _ _ _ _ _) as [a|e] eqn:Hres; [|by simplify_eq].
  destruct failed; [by simplify_eq|]. destruct (default true _); simplify_eq. apply (Hf None (wire w1 ++ [(data s, a)])).
  apply Forall_app. split; [done|]. constructor; [by eapply resolve_approved|done].
Qed.

Lemma sock_step_world_inv issued id l w w' : sock_step id l w = Some w' → world_inv issued w → world_inv issued w'.
Proof.
  unfold sock_step. intros Hs [H1 H2 H3 H4 H5].
  assert (∃ s s', l ≠ Sock.Close ∧ socks w !! id = Some s ∧ Sock.step l s = Some s' ∧
    w' = (if Sock.running s && negb (Sock.running s')
          then add_pending (-1) (with_udp (udp w ∖ {[id]}) (with_socks (<[id := s']> (socks w)) w))
          else with_socks (<[id := s']> (socks w)) w)) as (s & s' & Hl & Hid & Hst & ->).
  { destruct l; [| |done]; destruct (socks w !! id) as [s|] eqn:E; try done; simpl in Hs.
    - destruct (Sock.pump_read d failed s) as [s'|] eqn:Es; [|done]. simpl in Hs. exists s, s'. by simplify_eq.
    - destruct (Sock.run_post ok s) as [s'|] eqn:Es; [|done]. simpl in Hs. exists s, s'. by simplify_eq. }
  assert (Hrun : Sock.running s' = true → Sock.running s = true ∧ Sock.shut s' = Sock.shut s).
  { destruct l; simpl in Hst; [| |done].
    - unfold Sock.pump_read in Hst. destruct (Sock.running s); [|done]. by destruct (_ <=? _); simplify_eq/=.
    - unfold Sock.run_post in Hst. by destruct (Sock.queue s); simplify_eq/=. }
  pose proof (map_sum_insert pumping (socks w) id s s' Hid) as Hsum. unfold pumping at 2 4 in Hsum.
  destruct (Sock.running s) eqn:Er, (Sock.running s') eqn:Er'; simpl in *; try (destruct (Hrun eq_refl); done).
  all: split; simpl; try done; try lia.
  all: try (intros i [x Hx]; destruct (decide (i = id)) as [->|Hne];
            [by apply H2; eexists|rewrite lookup_insert_ne in Hx by done; apply H2; by eexists]).
  all: intros i x Hx Hr; destruct (decide (i = id)) as [->|Hne];
    [rewrite lookup_insert_eq in Hx; simplify_eq|rewrite lookup_insert_ne in Hx by done].
  all: try (destruct (H3 _ _ Hx Hr); [set_solver|by right]).
  all: try congruence.
  destruct (Hrun eq_refl) as [_ Hsh]. rewrite Hsh. by apply (H3 _ _ Hid).
Qed.

Lemma world_step_inv issued o w w' :
  stepw o w = Some w' → world_inv issued w → world_inv (takes o ++ issued) w'.
Proof.
  intros Hs Hi. destruct o as [al un li h|id b p host cb|id| |i failed| |id l]; simpl in Hs; simplify_eq; simpl takes;
    [| | | |by eapply send_done_inv| |by eapply sock_step_world_inv].
  all: destruct Hi as [H1 H2 H3 H4 H5].
  - unfold opUDPBind. destruct al; [|by split]. destruct un; [by split|]. destruct li; [|by split].
    assert (Hnew : socks w !! (nextID w + 1) = None).
    { apply eq_None_not_Some. intros Hx. apply H2 in Hx. lia. }
    split; simpl; try done.
    + rewrite map_sum_new by done. unfold pumping at 2. simpl. lia.
    + intros id [x Hx]. destruct (decide (id = nextID w + 1)) as [->|Hne]; [lia|].
      rewrite lookup_insert_ne in Hx by done. assert (id <= nextID w); [apply H2; by eexists|lia].
    + apply map_Forall_insert_2; [set_solver|]. intros id x Hx Hr. destruct (H3 id x Hx Hr); [set_solver|by right].
  - destruct b as [d|]; [|by split]. split; simpl; try done.
    + rewrite length_app. simpl. lia.
    + intros h. rewrite sum_list_with_app, occ_app. simpl. rewrite <-(H5 h). lia.
  - unfold opUDPClose. case_bool_decide as Hu; [|by split]. split; simpl; try done.
    + rewrite map_sum_alter; [done|]. intros x _. done.
    + intros i Hi. rewrite lookup_alter_is_Some in Hi. by apply H2.
    + intros i x Hx Hr. destruct (decide (i = id)) as [->|Hne]; [by left|]. rewrite lookup_alter_ne in Hx by done. by apply (H3 i x).
  - split; simpl; try done.
    + rewrite (map_sum_imap pumping (socks w) (λ id s, if bool_decide (id ∈ udp w) then Sock.close s else s)); [done|].
      intros i x. by case_bool_decide.
    + intros i [x Hx]. rewrite map_lookup_imap in Hx. apply H2. destruct (socks w !! i); [by eexists|done].
    + intros i x Hx Hr. rewrite map_lookup_imap in Hx. destruct (socks w !! i) as [y|] eqn:E; simplify_eq/=. right.
      apply close_table; [by apply (H3 i y)|done].
  - unfold run_fired in Hs. destruct (fired w) as [|[c e] fs] eqn:Ef; simplify_eq. split; simpl; try done.
    intros h. rewrite <-(H5 h), map_app, occ_app, map_map. simpl.
    assert (map (λ x : Z, x) (option_list c) = option_list c) as -> by apply map_id. lia.
Qed.

Lemma world_reach_inv issued w : reachw issued w → world_inv issued w.
Proof.
  induction 1 as [|issued o w w' _ IH _ Hs]; [|by eapply world_step_inv].
  split; simpl; try done. intros id [x Hx]. by rewrite lookup_empty in Hx.
Qed.

Lemma issued_nodup issued w : reachw issued w → NoDup issued.
Proof.
  induction 1 as [|issued o w w' _ IH Hf _]; [constructor|]. apply NoDup_app. split_and!; [|done|done].
  destruct o as [| ? [|] ? ? [|]| | | | |]; simpl; try apply NoDup_nil_2; apply NoDup_singleton.
Qed.

(** Datagrams on their way out, and the loop's count. Whatever the guest, the
    network and the loop do, a datagram is written only to an address
    Config.Dial allowed for its destination; every callback of udp_send is still
    with a goroutine, posted, or has been called once and released; and the loop
    waits for exactly the pumps and the sends under way, a pump being stopped
    through the table or already told to. *)
Theorem udp_sends_settle (issued : list Z) (w : world) (Hr : reachw issued w) :
  Forall (λ da, approved da.2) (wire w) ∧
  NoDup (map fst (log w)) ∧
  map fst (log w) ++ flat_map (λ f, option_list f.1) (fired w) ++ flat_map (λ s, option_list (cb s)) (sending w) ≡ₚ issued ∧
  pending w = Z.of_nat (map_sum pumping (socks w) + length (sending w)) ∧
  (∀ id s, socks w !! id = Some s → Sock.running s = true → id ∈ udp w ∨ Sock.shut s = true).
Proof.
  pose proof (issued_nodup _ _ Hr) as Hn. apply world_reach_inv in Hr as [H1 H2 H3 H4 H5].
  assert (Hp : map fst (log w) ++ flat_map (λ f, option_list f.1) (fired w) ++ flat_map (λ s, option_list (cb s)) (sending w) ≡ₚ issued).
  { apply occ_perm. intros h. rewrite <-(H5 h), !occ_app, !sum_callbacks. lia. }
  split_and!; [done| |done|done|done]. rewrite <-Hp in Hn. by apply NoDup_app in Hn as [? _].
Qed.

End World.

(** ** A socket that takes three datagrams, and three sends *)

Lemma sock_steps_reach h ls s s' : Sock.reach h s → Sock.steps ls s = Some s' → Sock.reach h s'.
Proof.
  revert s. induction ls as [|l ls IH]; intros s Hr Hs; simpl in Hs; [by simplify_eq|].
  destruct (Sock.step l s) as [s1|] eqn:E; [|done]. eapply IH; [|exact Hs]. by eapply Sock.reach_step.
Qed.

Definition sock_demo : Sock.sock :=
  default (Sock.open None)
    (Sock.steps [Sock.Read [1] false; Sock.Read [] false; Sock.Read [2; 3] false; Sock.RunPost true; Sock.Close; Sock.Read [] true]
       (Sock.open (Some 5))).

Lemma datagrams_in_order_witness :
  Sock.seen sock_demo = [Sock.Call 5 [1]] ∧ Sock.queue sock_demo = [Sock.Message [2; 3]; Sock.FreeOnMessage] ∧
  (length (messages (Sock.queue sock_demo)) <= Sock.maxUDPInFlight)%nat.
Proof.
  split; [vm_compute; reflexivity|]. split; [vm_compute; reflexivity|].
  apply (datagrams_in_order (Some 5) sock_demo).
  apply (sock_steps_reach _ [Sock.Read [1] false; Sock.Read [] false; Sock.Read [2; 3] false; Sock.RunPost true; Sock.Close; Sock.Read [] true]
           (Sock.open (Some 5))); [constructor|vm_compute; reflexivity].
Defined.

(** Only 10.0.0.2 may be dialed, under any name that may be looked up. *)
Definition udp_config : Config := MkConfig (Some (λ _, true)) (Some (λ _ _ ip _, bool_decide (ip = lit "10.0.0.2"))).
Definition udp_lookup (_ : bytes) : result bytes (list bytes) := Ok [lit "10.0.0.1"; lit "10.0.0.2"].

Abbreviation udp_run := (foldl (λ r o, r ≫= world_step (λ _, None) udp_lookup id udp_config o)).

Definition udp_ops : list op :=
  [OpBind true None true (Some 1); OpSend 1 (Some [7]) 53 (lit "a.test") (Some 2); OpSend 9 (Some [8]) 53 (lit "a.test") (Some 3);
   SendDone 1 None; SendDone 0 None; RunFired; OpClose 1; OpSend 1 (Some [9]) 53 (lit "b.test") (Some 4); OfSock 1 (Sock.Read [] true)].

Definition udp_world : world := default newNetState (udp_run (Some newNetState) udp_ops).

Lemma udp_reach os issued w w' :
  reachable (λ _, None) udp_lookup id udp_config issued w → NoDup (flat_map takes (reverse os) ++ issued) →
  udp_run (Some w) os = Some w' → reachable (λ _, None) udp_lookup id udp_config (flat_map takes (reverse os) ++ issued) w'.
Proof.
  revert issued w. induction os as [|o os IH]; intros issued w Hr Hn Hs; [by simplify_eq/=|]. simpl in Hs.
  assert (Heq : flat_map takes (reverse (o :: os)) ++ issued = flat_map takes (reverse os) ++ (takes o ++ issued)).
  { rewrite reverse_cons, flat_map_app. simpl. by rewrite app_nil_r, <-app_assoc. }
  rewrite Heq in *. destruct (world_step _ _ _ _ o w) as [w1|] eqn:E.
  - eapply IH; [|done|exact Hs]. eapply reachable_step; [done| |done].
    apply NoDup_app in Hn as (_ & _ & Hn). apply NoDup_app in Hn as (_ & Hn & _). done.
  - assert (udp_run None os = None) as Hnone by (clear; by induction os). congruence.
Qed.

Lemma udp_sends_settle_witness :
  wire udp_world = [([7], lit "10.0.0.2:53")] ∧ log udp_world = [(3, Some (lit "socket closed"))] ∧ pending udp_world = 1 ∧
  Forall (λ da, approved (λ _, None) udp_config da.2) (wire udp_world).
Proof.
  split; [vm_compute; reflexivity|]. split; [vm_compute; reflexivity|]. split; [vm_compute; reflexivity|].
  apply (udp_sends_settle (λ _, None) udp_lookup id udp_config (flat_map takes (reverse udp_ops) ++ []) udp_world).
  apply (udp_reach udp_ops [] newNetState); [constructor| |vm_compute; reflexivity].
  apply NoDup_ListNoDup. repeat constructor; simpl; intuition discriminate.
Defined.
