(* ===== verification/Fetch.v ===== *)
(** The asynchronous half of compat/web/fetch.go: asyncPromise and its calls,
    the response bodies with their two kinds of consumer, abort signals, and the
    hooks a pooled instance is reset with.

    A [world] is fetchAPI with the loop's pending count and posted functions,
    every call and every body that was ever begun, and a log of what the guest
    was given. A label is an operation of the guest or the embedder, a step of a
    call's goroutine up to its next locked section, or the loop running a posted
    function. The network decides how a body is cut into reads and when it
    fails. *)

From S2P Require Import Prelude Counting.

Module Fetch.

Inductive consumer := consumerNone | consumerStream | consumerBuffered.

#[export] Instance consumer_eq_dec : EqDecision consumer.
Proof. solve_decision. Defined.

(** type fetchStream. [rest] is what the network has yet to deliver and [breaks]
    whether an error comes after it; [finished] is st.done. The last five fields
    are not in the code: all the bytes of the body, the chunks enqueued on the
    guest's stream, whether a chunk that was read was not, the chunk that waits
    to be, and the call that reads the body or read it last. *)
Record fetchStream := MkStream {
  rest : bytes;
  breaks : bool;
  closed : bool;
  buf : bytes;
  finished : bool;
  claimed : consumer;
  reading : bool;
  whole : bytes;
  enqueued : list bytes;
  lost : bool;
  inhand : bytes;
  user : option Z
}.

(** The body is closed, for good when [f]. *)
Definition closing (f : bool) (s : fetchStream) : fetchStream :=
  MkStream (rest s) (breaks s) true (buf s) (f || finished s) (claimed s) (reading s)
    (whole s) (enqueued s) (lost s) (inhand s) (user s).

(** A read delivers [n] bytes, into [b]. *)
Definition reads_on (n : nat) (b h : bytes) (s : fetchStream) : fetchStream :=
  MkStream (drop n (rest s)) (breaks s) (closed s) b (finished s) (claimed s) (reading s)
    (whole s) (enqueued s) (lost s) h (user s).

Definition claim (x : consumer) (rd : bool) (u : Z) (s : fetchStream) : fetchStream :=
  MkStream (rest s) (breaks s) (closed s) (buf s) (finished s) x rd (whole s) (enqueued s) (lost s) (inhand s) (Some u).

(** The chunk of the last read is enqueued, or lost. *)
Definition delivers (n : nat) (ok : bool) (s : fetchStream) : fetchStream :=
  MkStream (rest s) (breaks s) (closed s) (buf s) (finished s) (claimed s) (reading s) (whole s)
    (if ok then enqueued s ++ [take n (buf s)] else enqueued s) (lost s || negb ok) [] (user s).

(** What a goroutine found: reqClient.Do's answer, st.body.Read's, readAll's. *)
Inductive result :=
| Response (body : bytes) (breaks : bool)
| DoFailed (refused : bool)
| Chunk (n : nat)
| AtEOF
| ReadFailed
| NoProgress
| Data (b : bytes)
| TooLarge
| Consumed.

(** The three users of asyncPromise. *)
Inductive work :=
| RoundTrip (abortID : bytes)
| Pull (st ctrl : Z)
| Buffered (st : Z).

Inductive phase := Working | Reading (acc : bytes) | Posted (r : result) | Settled.

(** type asyncCall, with what its goroutine does. *)
Record asyncCall := MkCall { kind : work; cancelled : bool; at_ : phase }.

Inductive post := Settle (c : Z) | FreePromise (c : Z).

(** What a promise is settled with. *)
Inductive value := VUndefined | VResponse (st : Z) | VBody (b : bytes) | VError.

Inductive event :=
| Settles (c : Z) (v : value)
| FreesFns (c : Z)
| FreesPromise (c : Z)
| Closes (ctrl : Z)
| FreesCtrl (ctrl : Z).

(** fetchAPI with the loop. A body has the id of the round trip it came with;
    [ctxs] are the calls whose context is cancelled; [skew] is not in the code:
    how far the loop's count is from the calls it waits for. *)
Record world := MkWorld {
  nextID : Z;
  calls : gmap Z asyncCall;
  inflight : gset Z;              (** a.calls *)
  streams : gmap Z fetchStream;
  open : gset Z;
  aborts : gmap bytes Z;
  ctxs : gset Z;
  pending : Z;
  posts : list post;
  log : list event;
  skew : Z
}.

Definition installFetch : world := MkWorld 0 ∅ ∅ ∅ ∅ ∅ ∅ 0 [] [] 0.

Definition with_calls (m : gmap Z asyncCall) (w : world) : world :=
  MkWorld (nextID w) m (inflight w) (streams w) (open w) (aborts w) (ctxs w) (pending w) (posts w) (log w) (skew w).
Definition with_inflight (x : gset Z) (w : world) : world :=
  MkWorld (nextID w) (calls w) x (streams w) (open w) (aborts w) (ctxs w) (pending w) (posts w) (log w) (skew w).
Definition with_streams (m : gmap Z fetchStream) (w : world) : world :=
  MkWorld (nextID w) (calls w) (inflight w) m (open w) (aborts w) (ctxs w) (pending w) (posts w) (log w) (skew w).
Definition with_open (x : gset Z) (w : world) : world :=
  MkWorld (nextID w) (calls w) (inflight w) (streams w) x (aborts w) (ctxs w) (pending w) (posts w) (log w) (skew w).
Definition with_aborts (m : gmap bytes Z) (w : world) : world :=
  MkWorld (nextID w) (calls w) (inflight w) (streams w) (open w) m (ctxs w) (pending w) (posts w) (log w) (skew w).
Definition cancel_ctx (cs : gset Z) (w : world) : world :=
  MkWorld (nextID w) (calls w) (inflight w) (streams w) (open w) (aborts w) (cs ∪ ctxs w) (pending w) (posts w) (log w) (skew w).
Definition add_pending (n : Z) (w : world) : world :=
  MkWorld (nextID w) (calls w) (inflight w) (streams w) (open w) (aborts w) (ctxs w) (pending w + n) (posts w) (log w) (skew w).
Definition with_posts (ps : list post) (w : world) : world :=
  MkWorld (nextID w) (calls w) (inflight w) (streams w) (open w) (aborts w) (ctxs w) (pending w) ps (log w) (skew w).
Definition emit (es : list event) (w : world) : world :=
  MkWorld (nextID w) (calls w) (inflight w) (streams w) (open w) (aborts w) (ctxs w) (pending w) (posts w) (log w ++ es) (skew w).
Definition fresh (w : world) : world :=
  MkWorld (nextID w + 1) (calls w) (inflight w) (streams w) (open w) (aborts w) (ctxs w) (pending w) (posts w) (log w) (skew w).

Definition Post (p : post) (w : world) : world := with_posts (posts w ++ [p]) w.
Definition set_call (c : Z) (a : asyncCall) (w : world) : world := with_calls (<[c := a]> (calls w)) w.
Definition set_stream (st : Z) (s : fetchStream) (w : world) : world := with_streams (<[st := s]> (streams w)) w.

(** *** Calls *)

(** asyncPromiseCtx: [deferred] says whether newDeferred succeeds. *)
Definition asyncPromise (k : work) (deferred : bool) (w : world) : world :=
  let c := nextID w + 1 in
  if deferred then
    add_pending 1 (with_inflight ({[c]} ∪ inflight w) (set_call c (MkCall k false Working) (fresh w)))
  else fresh w.

(** fetchFunc from the context on; the cancel function is registered first. *)
Definition fetch (abortID : bytes) (deferred : bool) (w : world) : world :=
  let c := nextID w + 1 in
  asyncPromise (RoundTrip abortID) deferred
    (if bool_decide (abortID ≠ []) then with_aborts (<[abortID := c]> (aborts w)) w else w).

Definition fetchAbort (id : bytes) (w : world) : world :=
  match aborts w !! id with
  | Some c => cancel_ctx {[c]} (with_aborts (delete id (aborts w)) w)
  | None => w
  end.

(** The goroutine posts what it found. *)
Definition finds (c : Z) (a : asyncCall) (r : result) (w : world) : world :=
  Post (Settle c) (set_call c (MkCall (kind a) (cancelled a) (Posted r)) w).

(** *** Bodies *)

(** finish *)
Definition finish (st : Z) (w : world) : world :=
  match streams w !! st with
  | None => w
  | Some s =>
      if finished s then w
      else
        with_open (open w ∖ {[st]})
          (cancel_ctx {[st]}
             (set_stream st (closing true s) w))
  end.

(** pull, called with a controller's handle. *)
Definition pull (st ctrl : Z) (deferred : bool) (w : world) : option world :=
  s ← streams w !! st;
  Some (if finished s || bool_decide (claimed s = consumerBuffered) || reading s
        then emit [Closes ctrl; FreesCtrl ctrl] w
        else asyncPromise (Pull st ctrl) deferred
               (set_stream st (claim consumerStream (reading s) (nextID w + 1) s) w)).

(** The goroutine of a pull: st.body.Read(st.buf) delivers [n] bytes. *)
Definition body_read (c : Z) (n : nat) (w : world) : option world :=
  a ← calls w !! c;
  match at_ a, kind a with
  | Working, Pull st _ =>
      s ← streams w !! st;
      if negb (closed s) && (0 <? n)%nat && (Z.of_nat n <=? 32768) && (n <=? length (rest s))%nat then
        Some (finds c a (Chunk n)
          (set_stream st (reads_on n (take n (rest s) ++ drop n (buf s)) (take n (rest s)) s) w))
      else None
  | _, _ => None
  end.

(** It delivers none. *)
Definition body_stops (c : Z) (r : result) (w : world) : option world :=
  a ← calls w !! c;
  match at_ a, kind a with
  | Working, Pull st _ =>
      s ← streams w !! st;
      match r with
      | AtEOF => if negb (closed s) && negb (breaks s) && bool_decide (rest s = []) then Some (finds c a r w) else None
      | ReadFailed | NoProgress => Some (finds c a r w)
      | _ => None
      end
  | _, _ => None
  end.

(** bytes, arrayBuffer, text and json start a buffered read. *)
Definition consume (st : Z) (deferred : bool) (w : world) : option world :=
  _ ← streams w !! st; Some (asyncPromise (Buffered st) deferred w).

Definition maxFetchBody : Z := Z.shiftl 100 20.

(** The goroutine of a buffered read: readAll's locked section. *)
Definition readAll_claims (c : Z) (w : world) : option world :=
  a ← calls w !! c;
  match at_ a, kind a with
  | Working, Buffered st =>
      s ← streams w !! st;
      Some (if finished s || reading s || bool_decide (claimed s = consumerStream)
            then finds c a Consumed (cancel_ctx {[c]} w)
            else set_call c (MkCall (kind a) (cancelled a) (Reading []))
                   (set_stream st (claim consumerBuffered true c s) w))
  | _, _ => None
  end.

(** io.ReadAll of the limited body reads on. *)
Definition readAll_reads (c : Z) (n : nat) (w : world) : option world :=
  a ← calls w !! c;
  match at_ a, kind a with
  | Reading acc, Buffered st =>
      s ← streams w !! st;
      if negb (closed s) && (0 <? n)%nat && (n <=? length (rest s))%nat && (Z.of_nat (length acc + n) <=? maxFetchBody + 1) then
        Some (set_call c (MkCall (kind a) (cancelled a) (Reading (acc ++ take n (rest s))))
          (set_stream st (reads_on n (buf s) (inhand s) s) w))
      else None
  | _, _ => None
  end.

(** It ends, at the end of the body, at the limit, or with an error; finish, and
    the answer. *)
Definition readAll_ends (c : Z) (failed : bool) (w : world) : option world :=
  a ← calls w !! c;
  match at_ a, kind a with
  | Reading acc, Buffered st =>
      s ← streams w !! st;
      if failed || (Z.of_nat (length acc) =? maxFetchBody + 1) || (negb (closed s) && negb (breaks s) && bool_decide (rest s = [])) then
        let w := cancel_ctx {[c]} (finish st w) in
        Some (finds c a (if failed then ReadFailed else if maxFetchBody <? Z.of_nat (length acc) then TooLarge else Data acc) w)
      else None
  | _, _ => None
  end.

(** *** The functions the goroutines post *)

(** How far the guest's part of a settlement gets. *)
Inductive guest := Fine | FailsEarly | FailsLate.

(** newResponse, for the body of round trip [c]; a failure after the stream is
    registered leaves it in [open]. *)
Definition newResponse (c : Z) (body : bytes) (brk : bool) (g : guest) (w : world) : option value * world :=
  let s := MkStream body brk false [] false consumerNone false body [] false [] None in
  match g with
  | FailsEarly => (None, w)
  | FailsLate => (None, with_open ({[c]} ∪ open w) (set_stream c s w))
  | Fine => (Some (VResponse c), with_open ({[c]} ∪ open w) (set_stream c s w))
  end.

(** resp.Body.Close() of a body the caller holds. *)
Definition close_body (st : Z) (w : world) : world :=
  match streams w !! st with
  | None => w
  | Some s => set_stream st (closing false s) w
  end.

(** The settle closure of fetchFunc: the value, or an error. *)
Definition settle_fetch (c : Z) (abortID : bytes) (r : result) (canc : bool) (g : guest) (w : world) : value * world :=
  let w := if bool_decide (abortID ≠ []) then with_aborts (delete abortID (aborts w)) w else w in
  match r with
  | Response body brk =>
      if canc then (VUndefined, cancel_ctx {[c]} w)
      else
        match newResponse c body brk g w with
        | (Some v, w) => (v, w)
        | (None, w) => (VError, close_body c (cancel_ctx {[c]} w))
        end
  | _ => (if canc then VUndefined else VError, cancel_ctx {[c]} w)
  end.

Definition deliver (st : Z) (n : nat) (ok : bool) (w : world) : world :=
  match streams w !! st with
  | None => w
  | Some s => set_stream st (delivers n ok s) w
  end.

(** The settle closure of pull. *)
Definition settle_pull (c st ctrl : Z) (r : result) (canc : bool) (g : guest) (w : world) : value * world :=
  let w := cancel_ctx {[c]} w in
  let '(v, w) :=
    match r with
    | Chunk n =>
        let ok := negb canc && match g with Fine => true | _ => false end in
        (if canc || ok then VUndefined else VError, deliver st n ok w)
    | AtEOF =>
        if canc then (VUndefined, w)
        else (match g with Fine => VUndefined | _ => VError end, emit [Closes ctrl] (finish st w))
    | ReadFailed => if canc then (VUndefined, w) else (VError, finish st w)
    | _ => (if canc then VUndefined else VError, w)
    end in
  (v, emit [FreesCtrl ctrl] w).

(** The settle closures of the buffered consumers. *)
Definition settle_buffered (r : result) (canc : bool) (g : guest) : value :=
  if canc then VUndefined
  else match r with Data b => match g with Fine => VBody b | _ => VError end | _ => VError end.

Definition settle (c : Z) (k : work) (r : result) (canc : bool) (g : guest) (w : world) : value * world :=
  match k with
  | RoundTrip abortID => settle_fetch c abortID r canc g w
  | Pull st ctrl => settle_pull c st ctrl r canc g w
  | Buffered _ => (settle_buffered r canc g, w)
  end.

(** The loop runs the oldest posted function. *)
Definition run_post (g : guest) (w : world) : option world :=
  match posts w with
  | [] => None
  | FreePromise c :: ps => Some (emit [FreesPromise c] (with_posts ps w))
  | Settle c :: ps =>
      a ← calls w !! c;
      match at_ a with
      | Posted r =>
          let w := with_posts ps w in
          let w := with_inflight (inflight w ∖ {[c]}) (set_call c (MkCall (kind a) (cancelled a) Settled) w) in
          let '(v, w) := settle c (kind a) r (cancelled a) g w in
          let w := if cancelled a then w else add_pending (-1) (emit [Settles c v] w) in
          Some (Post (FreePromise c) (emit [FreesFns c] w))
      | _ => None
      end
  end.

(** *** The boundary between the requests of a pooled instance *)

Definition uncancelled (a : asyncCall) : nat :=
  if cancelled a then 0 else match at_ a with Settled => 0 | _ => 1 end.

(** Calls that will count down. *)
Definition awaited (w : world) : nat := map_sum uncancelled (calls w).

Definition with_skew (n : Z) (w : world) : world :=
  MkWorld (nextID w) (calls w) (inflight w) (streams w) (open w) (aborts w) (ctxs w) (pending w) (posts w) (log w) n.

Definition cancelInflight (w : world) : world :=
  with_skew (skew w + Z.of_nat (awaited w))
    (cancel_ctx (inflight w)
       (with_calls (map_imap (λ c a, Some (if bool_decide (c ∈ inflight w) then MkCall (kind a) true (at_ a) else a)) (calls w)) w)).

Definition inflightCount (w : world) : nat := size (inflight w).

Definition closeOpenStreams (w : world) : world := foldr finish w (elements (open w)).

Definition openStreams (w : world) : nat := size (open w).

(** closeAll: of the cached engine handles those still there are released. *)
Definition closeAll (cached : list (option Z)) (w : world) : list Z * list (option Z) * world :=
  (omap id cached, map (λ _, None) cached, closeOpenStreams w).

(** Loop.Reset: the posts go and the count starts again. *)
Definition loop_reset (w : world) : world :=
  MkWorld (nextID w) (calls w) (inflight w) (streams w) (open w) (aborts w) (ctxs w) 0 [] (log w) (- Z.of_nat (awaited w)).

Inductive label :=
| Fetch (abortID : bytes) (deferred : bool)
| Abort (id : bytes)
| DoReturns (c : Z) (r : result)
| PullCall (st ctrl : Z) (deferred : bool)
| BodyRead (c : Z) (n : nat)
| BodyStops (c : Z) (r : result)
| Consume (st : Z) (deferred : bool)
| Claims (c : Z)
| Reads (c : Z) (n : nat)
| Ends (c : Z) (failed : bool)
| CancelStream (st : Z)
| RunPost (g : guest)
| CancelInflight
| CloseOpenStreams
| LoopReset.

(** The goroutine of a round trip has its answer. *)
Definition do_returns (c : Z) (r : result) (w : world) : option world :=
  a ← calls w !! c;
  match at_ a, kind a, r with
  | Working, RoundTrip _, (Response _ _ | DoFailed _) => Some (finds c a r w)
  | _, _, _ => None
  end.

Definition step (l : label) (w : world) : option world :=
  match l with
  | Fetch abortID deferred => Some (fetch abortID deferred w)
  | Abort id => Some (fetchAbort id w)
  | DoReturns c r => do_returns c r w
  | PullCall st ctrl deferred => pull st ctrl deferred w
  | BodyRead c n => body_read c n w
  | BodyStops c r => body_stops c r w
  | Consume st deferred => consume st deferred w
  | Claims c => readAll_claims c w
  | Reads c n => readAll_reads c n w
  | Ends c failed => readAll_ends c failed w
  | CancelStream st => Some (finish st w)
  | RunPost g => run_post g w
  | CancelInflight => Some (cancelInflight w)
  | CloseOpenStreams => Some (closeOpenStreams w)
  | LoopReset => Some (loop_reset w)
  end.

(** The guest's ReadableStream pulls again only when the promise of the pull
    before is settled. *)
Definition polite (l : label) (w : world) : Prop :=
  match l with
  | PullCall st _ _ => ∀ c a ctrl, calls w !! c = Some a → kind a = Pull st ctrl → at_ a = Settled
  | _ => True
  end.

Inductive reach : world → Prop :=
| reach_init : reach installFetch
| reach_step w l w' : reach w → polite l w → step l w = Some w' → reach w'.

(** A run on a concrete trace. *)
Fixpoint steps (ls : list label) (w : world) : option world :=
  match ls with [] => Some w | l :: ls' => w' ← step l w; steps ls' w' end.

End Fetch.

Import Fetch.

(** ** The accounts *)

Definition settles (es : list event) : list Z := omap (λ e, match e with Settles c _ => Some c | _ => None end) es.
Definition fns_freed (es : list event) : list Z := omap (λ e, match e with FreesFns c => Some c | _ => None end) es.
Definition promises_freed (es : list event) : list Z := omap (λ e, match e with FreesPromise c => Some c | _ => None end) es.
Definition queued (ps : list post) : list Z := omap (λ p, match p with Settle c => Some c | _ => None end) ps.
Definition freeing (ps : list post) : list Z := omap (λ p, match p with FreePromise c => Some c | _ => None end) ps.

Definition is_settled (a : option asyncCall) : bool :=
  match a with Some a => match at_ a with Settled => true | _ => false end | None => false end.
Definition is_posted (a : option asyncCall) : bool :=
  match a with Some a => match at_ a with Posted _ => true | _ => false end | None => false end.
Definition is_cancelled (a : option asyncCall) : bool := match a with Some a => cancelled a | None => false end.

(** What the parts of a world say about one call. *)
Record ledger (c : Z) (a : option asyncCall) (w : world) : Prop := {
  l_id : is_Some a → c <= nextID w;
  l_inflight : c ∈ inflight w ↔ is_Some a ∧ is_settled a = false;
  l_queued : (occ c (queued (posts w)) <= Nat.b2n (is_posted a))%nat;
  l_settles : occ c (settles (log w)) = Nat.b2n (is_settled a && negb (is_cancelled a));
  l_fns : occ c (fns_freed (log w)) = Nat.b2n (is_settled a);
  l_promise : (occ c (promises_freed (log w)) + occ c (freeing (posts w)) <= Nat.b2n (is_settled a))%nat
}.

Record accounted (w : world) : Prop := {
  acc_pending : pending w = Z.of_nat (awaited w) + skew w;
  acc_ledger : ∀ c, ledger c (calls w !! c) w
}.

(** Two worlds that differ in nothing the accounts are about. *)
Record same_accounts (w w' : world) : Prop := {
  sa_calls : calls w' = calls w;
  sa_inflight : inflight w' = inflight w;
  sa_pending : pending w' = pending w;
  sa_posts : posts w' = posts w;
  sa_id : nextID w' = nextID w;
  sa_skew : skew w' = skew w;
  sa_settles : settles (log w') = settles (log w);
  sa_fns : fns_freed (log w') = fns_freed (log w);
  sa_promises : promises_freed (log w') = promises_freed (log w)
}.

#[export] Instance same_accounts_refl : Reflexive same_accounts.
Proof. by constructor. Qed.

#[export] Instance same_accounts_trans : Transitive same_accounts.
Proof. intros x y z [] []. constructor; etrans; eassumption. Qed.

Lemma accounted_same w w' : same_accounts w w' → accounted w → accounted w'.
Proof.
  intros [Hc Hi Hp Hps Hid Hd Hs Hf Hpr] [Hpend Hled]. split.
  - unfold awaited. by rewrite Hp, Hc, Hd.
  - intros c. destruct (Hled c). rewrite Hc. split; by rewrite ?Hi, ?Hps, ?Hid, ?Hs, ?Hf, ?Hpr.
Qed.

Create HintDb accounts.

Lemma sa_ctx cs w : same_accounts w (cancel_ctx cs w). Proof. by constructor. Qed.
Lemma sa_stream st s w : same_accounts w (set_stream st s w). Proof. by constructor. Qed.
Lemma sa_open x w : same_accounts w (with_open x w). Proof. by constructor. Qed.
Lemma sa_aborts m w : same_accounts w (with_aborts m w). Proof. by constructor. Qed.

Lemma sa_noise es w : settles es = [] → fns_freed es = [] → promises_freed es = [] → same_accounts w (emit es w).
Proof. intros H1 H2 H3. constructor; try done; simpl; unfold settles, fns_freed, promises_freed in *;
  by rewrite omap_app, ?H1, ?H2, ?H3, app_nil_r. Qed.

Lemma sa_finish st w : same_accounts w (finish st w).
Proof.
  unfold finish. destruct (streams w !! st) as [s|]; [|done]. destruct (finished s); [done|].
  etrans; [apply sa_stream|]. etrans; [apply sa_ctx|]. apply sa_open.
Qed.

Lemma sa_close_body st w : same_accounts w (close_body st w).
Proof. unfold close_body. destruct (streams w !! st); [apply sa_stream|done]. Qed.

Lemma sa_deliver st n ok w : same_accounts w (deliver st n ok w).
Proof. unfold deliver. destruct (streams w !! st); [apply sa_stream|done]. Qed.

#[export] Hint Resolve sa_ctx sa_stream sa_open sa_aborts sa_finish sa_close_body sa_deliver same_accounts_refl : accounts.

Lemma sa_closeOpenStreams w : same_accounts w (closeOpenStreams w).
Proof. unfold closeOpenStreams. induction (elements (open w)) as [|st l IH]; [done|]. simpl. etrans; [exact IH|apply sa_finish]. Qed.

Lemma sa_settle c k r canc g w : same_accounts w (settle c k r canc g w).2.
Proof.
  destruct k as [abortID|st ctrl|st]; simpl; [| |done].
  - unfold settle_fetch.
    assert (same_accounts w (if bool_decide (abortID ≠ []) then with_aborts (delete abortID (aborts w)) w else w)) as Ha
      by (case_bool_decide; auto with accounts).
    etrans; [exact Ha|]. generalize (if bool_decide (abortID ≠ []) then with_aborts (delete abortID (aborts w)) w else w).
    intros w1. destruct r; simpl; auto with accounts. destruct canc; simpl; auto with accounts.
    destruct g; simpl; repeat (etrans; [|apply sa_close_body || apply sa_ctx || apply sa_open]); auto with accounts.
  - unfold settle_pull. etrans; [apply (sa_ctx {[c]})|].
    assert (∀ w, same_accounts w (emit [FreesCtrl ctrl] w)) as Hn by (intros; by apply sa_noise).
    assert (∀ w, same_accounts w (emit [Closes ctrl] w)) as Hn' by (intros; by apply sa_noise).
    destruct r, canc; simpl; (etrans; [|apply Hn]); auto with accounts.
    etrans; [|apply Hn']. apply sa_finish.
Qed.

(** *** Calls come and go *)

Lemma occ_snoc_none {A} (f : A → option Z) c l x : f x = None → occ c (omap f (l ++ [x])) = occ c (omap f l).
Proof. intros Hx. rewrite omap_app. simpl. by rewrite Hx, app_nil_r. Qed.

Lemma occ_snoc_some {A} (f : A → option Z) c l x d :
  f x = Some d → occ c (omap f (l ++ [x])) = (occ c (omap f l) + if decide (d = c) then 1 else 0)%nat.
Proof. intros Hx. rewrite omap_app. simpl. rewrite Hx, occ_app, occ_cons. simpl. lia. Qed.

Lemma accounted_new k w :
  accounted w → accounted (asyncPromise k true w).
Proof.
  intros [Hp Hl].
  assert (Hnone : calls w !! (nextID w + 1) = None).
  { destruct (calls w !! (nextID w + 1)) eqn:Hc; [|done]. destruct (Hl (nextID w + 1)) as [Hid _ _ _ _ _].
    rewrite Hc in Hid. specialize (Hid ltac:(done)). lia. }
  split; simpl.
  - unfold awaited in *. simpl. rewrite map_sum_new by done. simpl. change (uncancelled (MkCall k false Working)) with 1%nat. lia.
  - intros c. destruct (decide (c = nextID w + 1)) as [->|Hne].
    + rewrite lookup_insert_eq. destruct (Hl (nextID w + 1)) as [_ H2 H3 H4 H5 H6]. rewrite Hnone in *.
      split; simpl in *; try done; try lia. set_solver.
    + rewrite lookup_insert_ne by done. destruct (Hl c) as [H1 H2 H3 H4 H5 H6].
      split; simpl; try done; [intros; specialize (H1 ltac:(done)); lia|]. set_solver.
Qed.

Lemma accounted_asyncPromise k d w : accounted w → accounted (asyncPromise k d w).
Proof.
  destruct d; [apply accounted_new|]. intros [Hp Hl]. split; [done|]. intros c. destruct (Hl c) as [H1 ? ? ? ? ?].
  split; try done. simpl. intros Hs. specialize (H1 Hs). lia.
Qed.

(** A call of the table is changed but not settled. *)
Lemma accounted_call c a a' w :
  calls w !! c = Some a → is_settled (Some a) = false → is_settled (Some a') = false → is_posted (Some a) = false →
  cancelled a' = cancelled a → accounted w → accounted (set_call c a' w).
Proof.
  intros Hc Hs Hs' Hpost Hcanc [Hp Hl]. split; simpl.
  - unfold awaited in *. simpl. pose proof (map_sum_insert uncancelled _ c a a' Hc) as Hm.
    unfold uncancelled in Hm at 2 4. rewrite Hcanc in Hm. simpl in Hs, Hs'. destruct (cancelled a), (at_ a), (at_ a'); try done; lia.
  - intros d. destruct (decide (d = c)) as [->|Hne].
    + rewrite lookup_insert_eq. destruct (Hl c) as [H1 H2 H3 H4 H5 H6]. rewrite Hc in *.
      rewrite Hs in H2, H4, H5, H6. rewrite Hpost in H3. simpl in H3.
      split; rewrite ?Hs'; [intros _; by apply H1|naive_solver|simpl; lia|done..].
    + rewrite lookup_insert_ne by done. by destruct (Hl d).
Qed.

Lemma accounted_finds c a r w :
  calls w !! c = Some a → is_settled (Some a) = false → is_posted (Some a) = false →
  accounted w → accounted (finds c a r w).
Proof.
  intros Hc Hs Hpost Hw. pose proof (acc_ledger _ Hw c) as [_ _ Hq _ _ _].
  apply (accounted_call c a (MkCall (kind a) (cancelled a) (Posted r))) in Hw as [Hp Hl]; [|done..].
  split; [done|]. intros d. destruct (Hl d) as [H1 H2 H3 H4 H5 H6]. split; try done; simpl in *.
  - unfold queued in *. rewrite (occ_snoc_some _ _ _ _ c) by done.
    destruct (decide (c = d)) as [->|Hne]; [|lia]. rewrite lookup_insert_eq. simpl.
    rewrite Hc in Hq. simpl in Hq. rewrite Hpost in Hq. simpl in Hq. lia.
  - unfold freeing. rewrite occ_snoc_none by done. exact H6.
Qed.

(** The post of a call runs: what it does to the accounts, around [w'], which is
    [w] without the post and after the settlement. *)
Definition settled (c : Z) (a : asyncCall) (ps : list post) (w : world) : world :=
  let w := with_posts ps w in
  with_inflight (inflight w ∖ {[c]}) (set_call c (MkCall (kind a) (cancelled a) Settled) w).

Definition reported (c : Z) (canc : bool) (v : value) (w : world) : world :=
  let w := if canc then w else add_pending (-1) (emit [Settles c v] w) in
  Post (FreePromise c) (emit [FreesFns c] w).

Lemma run_post_settle c a r ps g w :
  posts w = Settle c :: ps → calls w !! c = Some a → at_ a = Posted r →
  run_post g w = Some (let '(v, w') := settle c (kind a) r (cancelled a) g (settled c a ps w) in
                       reported c (cancelled a) v w').
Proof. intros Hp Hc Ha. unfold run_post. rewrite Hp. simpl. rewrite Hc. simpl. rewrite Ha. unfold settled. by destruct (settle _ _ _ _ _ _). Qed.

Lemma fetch_run_post_inv g w w' :
  run_post g w = Some w' →
  (∃ c ps, posts w = FreePromise c :: ps ∧ w' = emit [FreesPromise c] (with_posts ps w)) ∨
  (∃ c ps a r, posts w = Settle c :: ps ∧ calls w !! c = Some a ∧ at_ a = Posted r ∧
     w' = reported c (cancelled a) (settle c (kind a) r (cancelled a) g (settled c a ps w)).1
            (settle c (kind a) r (cancelled a) g (settled c a ps w)).2).
Proof.
  intros Hstep. destruct (posts w) as [|[c|c] ps] eqn:Hps; [by unfold run_post in Hstep; rewrite Hps in Hstep| |].
  - right. destruct (calls w !! c) as [a|] eqn:Hc.
    2: { unfold run_post in Hstep. rewrite Hps in Hstep. simpl in Hstep. by rewrite Hc in Hstep. }
    destruct (at_ a) as [| |r|] eqn:Ha.
    1, 2, 4: unfold run_post in Hstep; rewrite Hps in Hstep; simpl in Hstep; rewrite Hc in Hstep; simpl in Hstep; by rewrite Ha in Hstep.
    rewrite (run_post_settle c a r ps) in Hstep by done. exists c, ps, a, r. split_and!; try done.
    destruct (settle _ _ _ _ _ _) as [v w1]. by simplify_eq.
  - left. unfold run_post in Hstep. rewrite Hps in Hstep. simplify_eq. eauto.
Qed.

Lemma accounted_post c a r ps w v w' :
  posts w = Settle c :: ps → calls w !! c = Some a → at_ a = Posted r → accounted w →
  same_accounts (settled c a ps w) w' → accounted (reported c (cancelled a) v w').
Proof.
  intros Hps Hc Ha [Hp Hl] [Ec Ei Ep Eps Eid Ed Es Ef Epr]. simpl in *.
  assert (Hled : ∀ d, ledger d (<[c:=MkCall (kind a) (cancelled a) Settled]> (calls w) !! d)
                        (reported c (cancelled a) v w')).
  { intros d. destruct (Hl d) as [H1 H2 H3 H4 H5 H6]. rewrite Hps in H3, H6.
    change (queued (Settle c :: ps)) with (c :: queued ps) in H3. change (freeing (Settle c :: ps)) with (freeing ps) in H6.
    rewrite occ_cons in H3.
    assert (Hlog : occ d (settles (log (reported c (cancelled a) v w'))) =
                   (occ d (settles (log w)) + if decide (c = d) then Nat.b2n (negb (cancelled a)) else 0)%nat).
    { unfold reported. destruct (cancelled a); simpl; unfold settles in *.
      - rewrite occ_snoc_none by done. rewrite Es. by destruct (decide (c = d)); lia.
      - rewrite occ_snoc_none by done. rewrite (occ_snoc_some _ _ _ _ c) by done. rewrite Es. done. }
    assert (Hfns : occ d (fns_freed (log (reported c (cancelled a) v w'))) =
                   (occ d (fns_freed (log w)) + if decide (c = d) then 1 else 0)%nat).
    { unfold reported. destruct (cancelled a); simpl; unfold fns_freed in *;
        rewrite (occ_snoc_some _ _ _ _ c) by done; rewrite ?occ_snoc_none by done; by rewrite Ef. }
    assert (Hprom : occ d (promises_freed (log (reported c (cancelled a) v w'))) = occ d (promises_freed (log w))).
    { unfold reported. destruct (cancelled a); simpl; unfold promises_freed in *;
        rewrite !occ_snoc_none by done; by rewrite Epr. }
    assert (Hfree : occ d (freeing (posts (reported c (cancelled a) v w'))) =
                    (occ d (freeing ps) + if decide (c = d) then 1 else 0)%nat).
    { unfold reported. destruct (cancelled a); simpl; rewrite Eps; unfold freeing;
        by rewrite (occ_snoc_some _ _ _ _ c). }
    assert (Hqueue : queued (posts (reported c (cancelled a) v w')) = queued ps).
    { unfold reported. destruct (cancelled a); simpl; rewrite Eps; unfold queued; rewrite omap_app; simpl; apply app_nil_r. }
    assert (inflight (reported c (cancelled a) v w') = inflight w ∖ {[c]} ∧
                  nextID (reported c (cancelled a) v w') = nextID w) as [Hin Hid].
    { unfold reported. destruct (cancelled a); simpl; by rewrite Ei, Eid. }
    split; rewrite ?Hin, ?Hid, ?Hqueue, ?Hlog, ?Hfns, ?Hprom, ?Hfree;
      (destruct (decide (c = d)) as [<-|Hne]; [rewrite lookup_insert_eq|rewrite lookup_insert_ne by done]); simpl;
      rewrite ?Hc in *; simpl in *; rewrite ?Ha in *; simpl in *; try lia; try done; try set_solver. }
  assert (Hcalls : calls (reported c (cancelled a) v w') = <[c:=MkCall (kind a) (cancelled a) Settled]> (calls w)).
  { unfold reported. destruct (cancelled a); simpl; by rewrite Ec. }
  split; [|by intros d; rewrite Hcalls].
  assert (awaited (reported c (cancelled a) v w') = map_sum uncancelled (<[c:=MkCall (kind a) (cancelled a) Settled]> (calls w))) as ->
    by (unfold awaited; by rewrite Hcalls).
  pose proof (map_sum_insert uncancelled _ c a (MkCall (kind a) (cancelled a) Settled) Hc) as Hm.
  unfold uncancelled in Hm at 2 4. rewrite Ha in Hm. simpl in Hm. unfold awaited in Hp.
  unfold reported. destruct (cancelled a); simpl; rewrite Ep, Ed, Hp; lia.
Qed.

Lemma accounted_free c ps w :
  posts w = FreePromise c :: ps → accounted w → accounted (emit [FreesPromise c] (with_posts ps w)).
Proof.
  intros Hps [Hp Hl]. split; [done|]. intros d. destruct (Hl d) as [H1 H2 H3 H4 H5 H6]. rewrite Hps in *.
  change (queued (FreePromise c :: ps)) with (queued ps) in *. change (freeing (FreePromise c :: ps)) with (c :: freeing ps) in *.
  split; try done; simpl; unfold settles, fns_freed, promises_freed in *; rewrite ?occ_snoc_none by done; [done..|].
  rewrite (occ_snoc_some _ _ _ _ c) by done. rewrite occ_cons in H6. lia.
Qed.

(** *** The boundary *)

Definition cancelling (w : world) (c : Z) (a : asyncCall) : asyncCall :=
  if bool_decide (c ∈ inflight w) then MkCall (kind a) true (at_ a) else a.

Lemma cancelInflight_lookup w c : calls (cancelInflight w) !! c = cancelling w c <$> calls w !! c.
Proof. unfold cancelInflight. simpl. rewrite map_lookup_imap. by destruct (calls w !! c). Qed.

Lemma awaited_zero w : awaited w = 0%nat ↔ ∀ c a, calls w !! c = Some a → cancelled a = true ∨ at_ a = Settled.
Proof.
  unfold awaited, map_sum. rewrite sum_zero. split.
  - intros Hz c a Hc. specialize (Hz (c, a) ltac:(by apply elem_of_map_to_list)). unfold uncancelled in Hz.
    destruct a as [k [] []]; simpl in *; auto; lia.
  - intros Hz [c a] Hc%elem_of_map_to_list. simpl. unfold uncancelled. destruct (Hz _ _ Hc) as [-> | ->]; [done|]. by destruct (cancelled a).
Qed.

Lemma cancel_awaited w : accounted w → awaited (cancelInflight w) = 0%nat.
Proof.
  intros [_ Hl]. apply awaited_zero. intros c a. rewrite cancelInflight_lookup.
  destruct (calls w !! c) as [a0|] eqn:Hc; [|done]. simpl. intros [= <-]. unfold cancelling.
  case_bool_decide as Hin; [by left|]. destruct (Hl c) as [_ H2 _ _ _ _]. rewrite Hc in H2. simpl in H2.
  right. destruct (at_ a0); naive_solver.
Qed.

Lemma ledger_cancel w c : ledger c (calls w !! c) w → ledger c (calls (cancelInflight w) !! c) (cancelInflight w).
Proof.
  rewrite cancelInflight_lookup. intros [H1 H2 H3 H4 H5 H6].
  assert (is_settled (cancelling w c <$> calls w !! c) = is_settled (calls w !! c) ∧
          is_posted (cancelling w c <$> calls w !! c) = is_posted (calls w !! c)) as [Es Ep].
  { destruct (calls w !! c); [|done]. simpl. unfold cancelling. by case_bool_decide. }
  split; rewrite ?Es, ?Ep; simpl; try done.
  - by rewrite fmap_is_Some.
  - by rewrite fmap_is_Some.
  - rewrite H4. destruct (calls w !! c) as [a|]; [|done]. simpl in *. unfold cancelling. case_bool_decide as Hin; [|done].
    apply H2 in Hin as [_ Hs]. by rewrite Hs.
Qed.

Lemma accounted_cancel w : accounted w → accounted (cancelInflight w).
Proof.
  intros Hw. split; [|intros c; apply ledger_cancel, (acc_ledger _ Hw)].
  rewrite cancel_awaited by done. simpl. rewrite (acc_pending _ Hw). lia.
Qed.

Lemma accounted_reset w : (∀ c, ledger c (calls w !! c) w) → accounted (loop_reset w).
Proof.
  intros Hl. split; [simpl; unfold awaited; simpl; lia|]. intros c. destruct (Hl c) as [H1 H2 H3 H4 H5 H6].
  split; simpl; try done; lia.
Qed.

(** *** Every step keeps the accounts *)

Lemma accounted_start : accounted installFetch.
Proof.
  split; [by vm_compute|]. intros c. change (calls installFetch !! c) with ((∅ : gmap Z asyncCall) !! c).
  rewrite lookup_empty. split; simpl; try done; try lia; try by intros [? ?]. split; [set_solver|by intros [[? ?] _]].
Qed.

(** Unfolds a step of a goroutine down to the call it moves. *)
Ltac inv_step H :=
  repeat match type of H with
         | context [?x ≫= _] => destruct x eqn:?; simpl in H; try discriminate H
         | context [match ?x with _ => _ end] => destruct x eqn:?; try discriminate H
         end; simplify_eq/=.

Lemma step_accounted l w w' : step l w = Some w' → accounted w → accounted w'.
Proof.
  intros Hstep Hw. destruct l; simpl in Hstep.
  - simplify_eq. apply accounted_asyncPromise. eapply accounted_same; [|done]. case_bool_decide; auto with accounts.
  - simplify_eq. eapply accounted_same; [|done]. unfold fetchAbort. destruct (aborts w !! id); [|done].
    etrans; [apply sa_aborts|apply sa_ctx].
  - unfold do_returns in Hstep. inv_step Hstep; eapply accounted_finds; eauto; simpl; by case_match.
  - unfold pull in Hstep. destruct (streams w !! st) as [s|]; simplify_eq/=. case_match; simplify_eq/=.
    + eapply accounted_same; [|done]. by apply sa_noise.
    + apply accounted_asyncPromise. by eapply accounted_same; [apply sa_stream|].
  - unfold body_read in Hstep. inv_step Hstep. eapply accounted_finds; simpl; eauto; try by case_match.
    by eapply accounted_same; [apply sa_stream|].
  - unfold body_stops in Hstep. inv_step Hstep; eapply accounted_finds; simpl; eauto; by case_match.
  - unfold consume in Hstep. inv_step Hstep. by apply accounted_asyncPromise.
  - unfold readAll_claims in Hstep. inv_step Hstep.
    + eapply accounted_finds; simpl; eauto; try by case_match. by eapply accounted_same; [apply sa_ctx|].
    + eapply accounted_call; simpl; eauto; try by case_match. by eapply accounted_same; [apply sa_stream|].
  - unfold readAll_reads in Hstep. inv_step Hstep.
    eapply accounted_call; simpl; eauto; try by case_match. by eapply accounted_same; [apply sa_stream|].
  - unfold readAll_ends in Hstep. inv_step Hstep.
    all: eapply accounted_finds; simpl; rewrite ?(sa_calls _ _ (sa_finish _ _)); eauto; try by case_match.
    all: eapply accounted_same; [|done]; etrans; [apply sa_finish|apply sa_ctx].
  - simplify_eq. eapply accounted_same; [apply sa_finish|done].
  - apply fetch_run_post_inv in Hstep as [(c & ps & Hps & ->)|(c & ps & a & r & Hps & Hc & Ha & ->)]; [by apply accounted_free|].
    eapply accounted_post; try done. apply sa_settle.
  - simplify_eq. by apply accounted_cancel.
  - simplify_eq. eapply accounted_same; [apply sa_closeOpenStreams|done].
  - simplify_eq. apply accounted_reset, Hw.
Qed.

Lemma fetch_reach_accounted w : reach w → accounted w.
Proof. induction 1 as [|w l w' _ IH _ Hs]; [apply accounted_start|by eapply step_accounted]. Qed.

(** ** The bodies *)

(** The body a call reads. *)
Definition uses (k : work) : option Z := match k with Pull st _ | Buffered st => Some st | RoundTrip _ => None end.

(** Where a call stands with the body it reads. *)
Definition local (s : fetchStream) (c : Z) (a : asyncCall) : Prop :=
  match kind a with
  | RoundTrip _ => True
  | Pull _ _ =>
      claimed s = consumerStream ∧
      match at_ a with
      | Working => user s = Some c ∧ inhand s = []
      | Reading _ => False
      | Posted (Chunk n) => user s = Some c ∧ inhand s = take n (buf s)
      | Posted AtEOF => user s = Some c ∧ inhand s = [] ∧ rest s = []
      | Posted _ => user s = Some c ∧ inhand s = []
      | Settled => user s = Some c → inhand s = []
      end
  | Buffered _ =>
      match at_ a with
      | Reading acc => user s = Some c ∧ claimed s = consumerBuffered ∧ whole s = acc ++ rest s
      | Posted (Data b) =>
          user s = Some c ∧ claimed s = consumerBuffered ∧ whole s = b ∧ Z.of_nat (length b) <= maxFetchBody
      | _ => True
      end
  end.

Definition call_ok (w : world) (c : Z) (a : asyncCall) : Prop :=
  match uses (kind a) with
  | Some st => ∃ s, streams w !! st = Some s ∧ local s c a
  | None => at_ a ≠ Settled → streams w !! c = None
  end.

(** What a body's own fields say. *)
Definition stream_ok (s : fetchStream) : Prop :=
  match claimed s with
  | consumerNone =>
      rest s = whole s ∧ enqueued s = [] ∧ lost s = false ∧ inhand s = [] ∧ reading s = false ∧ user s = None
  | consumerStream =>
      reading s = false ∧ ∃ gone, whole s = gone ++ inhand s ++ rest s ∧ (lost s = false → gone = concat (enqueued s))
  | consumerBuffered => reading s = true ∧ enqueued s = [] ∧ inhand s = []
  end.

(** The call that holds a chunk is still there to deliver it. *)
Definition held (w : world) (st : Z) (s : fetchStream) : Prop :=
  inhand s ≠ [] → ∃ c a ctrl, user s = Some c ∧ calls w !! c = Some a ∧ kind a = Pull st ctrl.

(** A body that was given to the guest as a whole. *)
Definition given (w : world) (c : Z) (b : bytes) : Prop :=
  ∃ a st s, calls w !! c = Some a ∧ kind a = Buffered st ∧ at_ a = Settled ∧ streams w !! st = Some s ∧
    claimed s = consumerBuffered ∧ user s = Some c ∧ whole s = b ∧ Z.of_nat (length b) <= maxFetchBody.

(** The invariant, but for the call [x]. *)
Record bodies (x : option Z) (w : world) : Prop := {
  b_calls : ∀ c a, calls w !! c = Some a → x ≠ Some c → call_ok w c a;
  b_streams : ∀ st s, streams w !! st = Some s → stream_ok s ∧ held w st s;
  b_open : ∀ st, st ∈ open w → ∃ s, streams w !! st = Some s ∧ finished s = false;
  b_log : ∀ c b, Settles c (VBody b) ∈ log w → given w c b;
  b_ids : ∀ st, is_Some (streams w !! st) → is_Some (calls w !! st)
}.

(** Worlds with the same calls, bodies, open set and answers. *)
Record same_bodies (w w' : world) : Prop := {
  sb_calls : calls w' = calls w;
  sb_streams : streams w' = streams w;
  sb_open : open w' = open w;
  sb_log : ∀ c b, Settles c (VBody b) ∈ log w' → Settles c (VBody b) ∈ log w
}.

Lemma bodies_same x w w' : same_bodies w w' → bodies x w → bodies x w'.
Proof.
  intros [Hc Hs Ho Hl] [B1 B2 B3 B4 B5]. split.
  - intros c a. rewrite Hc. intros Ha Hx. specialize (B1 c a Ha Hx). unfold call_ok in *. by rewrite Hs.
  - intros st s. rewrite Hs. intros H. destruct (B2 st s H) as [? Hh]. split; [done|]. unfold held. by rewrite Hc.
  - intros st. rewrite Ho, Hs. apply B3.
  - intros c b H. specialize (B4 c b (Hl c b H)). unfold given. by rewrite Hc, Hs.
  - intros st. rewrite Hs, Hc. apply B5.
Qed.

(** Changing a body. *)
Lemma bodies_stream x st s s' w :
  streams w !! st = Some s → stream_ok s' → held w st s' →
  (∀ c a, calls w !! c = Some a → x ≠ Some c → uses (kind a) = Some st → local s c a → local s' c a) →
  whole s' = whole s → (claimed s = consumerBuffered → claimed s' = consumerBuffered ∧ user s' = user s) →
  (st ∈ open w → finished s' = false) →
  bodies x w → bodies x (set_stream st s' w).
Proof.
  intros Hs Hok Hh Hloc Hwhole Hbuf Hfin [B1 B2 B3 B4 B5]. split; simpl.
  - intros c a Ha Hx. specialize (B1 c a Ha Hx). unfold call_ok in *. simpl. destruct (uses (kind a)) as [st'|] eqn:Hu.
    + destruct B1 as (s0 & Hs0 & Hl). destruct (decide (st' = st)) as [->|Hne].
      * rewrite lookup_insert_eq. exists s'. split; [done|]. simplify_eq. by apply Hloc.
      * rewrite lookup_insert_ne by done. eauto.
    + intros Hns. specialize (B1 Hns). rewrite lookup_insert_ne; [done|]. intros ->. congruence.
  - intros st' s0. destruct (decide (st' = st)) as [->|Hne].
    + rewrite lookup_insert_eq. intros [= <-]. done.
    + rewrite lookup_insert_ne by done. apply B2.
  - intros st' Ho. destruct (decide (st' = st)) as [->|Hne].
    + rewrite lookup_insert_eq. eauto.
    + rewrite lookup_insert_ne by done. by apply B3.
  - intros c b Hl. destruct (B4 c b Hl) as (a & st' & s0 & H1 & H2 & H3 & H4 & H5 & H6 & H7 & H8).
    destruct (decide (st' = st)) as [->|Hne].
    + simplify_eq. destruct (Hbuf H5) as [Hb Hu]. exists a, st, s'. simpl. rewrite lookup_insert_eq. split_and!; congruence.
    + exists a, st', s0. simpl. rewrite lookup_insert_ne by done. done.
  - intros st' H. destruct (decide (st' = st)) as [->|Hne]; [by apply B5; eexists|].
    rewrite lookup_insert_ne in H by done. by apply B5.
Qed.

(** Changing a call: settled ones stay as they are. *)
Lemma bodies_call x y c a a' w :
  calls w !! c = Some a → kind a' = kind a → (at_ a = Settled → at_ a' = Settled) →
  (y ≠ Some c → call_ok w c a') → (∀ d, d ≠ c → y ≠ Some d → x ≠ Some d) →
  bodies x w → bodies y (set_call c a' w).
Proof.
  intros Hc Hk Hset Hok Hxy [B1 B2 B3 B4 B5]. split; simpl.
  - intros d b Hd Hy. destruct (decide (d = c)) as [->|Hne].
    + rewrite lookup_insert_eq in Hd. simplify_eq. by apply Hok.
    + rewrite lookup_insert_ne in Hd by done. apply B1; [done|]. by apply Hxy.
  - intros st s Hs. destruct (B2 st s Hs) as [? Hh]. split; [done|]. intros Hi.
    destruct (Hh Hi) as (d & b & ctrl & H1 & H2 & H3). destruct (decide (d = c)) as [->|Hne].
    + simplify_eq. exists c, a', ctrl. simpl. rewrite lookup_insert_eq. split_and!; congruence.
    + exists d, b, ctrl. simpl. by rewrite lookup_insert_ne.
  - done.
  - intros d b Hl. destruct (B4 d b Hl) as (e & st & s & H1 & H2 & H3 & H4).
    destruct (decide (d = c)) as [->|Hne].
    + simplify_eq. destruct H4 as (? & ? & ? & ? & ?). exists a', st, s. simpl. rewrite lookup_insert_eq. split_and!; auto; congruence.
    + exists e, st, s. simpl. by rewrite lookup_insert_ne.
  - intros st Hs. destruct (decide (st = c)) as [->|Hne]; [by rewrite lookup_insert_eq|].
    rewrite lookup_insert_ne by done. by apply B5.
Qed.

Lemma call_ok_same w w' c a : streams w' = streams w → call_ok w c a → call_ok w' c a.
Proof. intros Hs. unfold call_ok. by rewrite Hs. Qed.

(** A new call. *)
Lemma bodies_new k w :
  calls w !! (nextID w + 1) = None → call_ok w (nextID w + 1) (MkCall k false Working) →
  bodies None w → bodies None (asyncPromise k true w).
Proof.
  intros Hn Hok [B1 B2 B3 B4 B5]. split; simpl.
  - intros c a Hc _. destruct (decide (c = nextID w + 1)) as [->|Hne].
    + rewrite lookup_insert_eq in Hc. simplify_eq. done.
    + rewrite lookup_insert_ne in Hc by done. by apply B1.
  - intros st s Hs. destruct (B2 st s Hs) as [? Hh]. split; [done|]. intros Hi.
    destruct (Hh Hi) as (d & b & ctrl & H1 & H2 & H3). exists d, b, ctrl. simpl. rewrite lookup_insert_ne by congruence. done.
  - done.
  - intros c b Hl. destruct (B4 c b Hl) as (a & st & s & H1 & H2).
    exists a, st, s. simpl. rewrite lookup_insert_ne by congruence. done.
  - intros st Hs. destruct (B5 st Hs) as [a Ha]. destruct (decide (st = nextID w + 1)) as [->|Hne]; [by rewrite lookup_insert_eq|].
    by rewrite lookup_insert_ne.
Qed.

Lemma bodies_asyncPromise k d w :
  calls w !! (nextID w + 1) = None → call_ok w (nextID w + 1) (MkCall k false Working) →
  bodies None w → bodies None (asyncPromise k d w).
Proof. destruct d; [apply bodies_new|]. intros _ _. by apply bodies_same. Qed.

(** *** Closing *)

Lemma stream_ok_closing f s : stream_ok s → stream_ok (closing f s).
Proof. done. Qed.

Lemma bodies_closing x st s f w :
  streams w !! st = Some s → (st ∈ open w → f = false) → bodies x w → bodies x (set_stream st (closing f s) w).
Proof.
  intros Hs Hf Hb. destruct (b_streams _ _ Hb st s Hs) as [Hok Hh].
  apply (bodies_stream x st s); try done.
  intros Ho. destruct (b_open _ _ Hb st Ho) as (s0 & Hs0 & Hfin). simplify_eq. simpl. by rewrite Hf, Hfin.
Qed.

Lemma bodies_finish x st w : bodies x w → bodies x (finish st w).
Proof.
  intros Hb. unfold finish. destruct (streams w !! st) as [s|] eqn:Hs; [|done]. destruct (finished s); [done|].
  assert (bodies x (set_stream st (closing true s) (with_open (open w ∖ {[st]}) w))) as Hb'.
  { apply bodies_closing; [done|simpl; set_solver|]. destruct Hb as [B1 B2 B3 B4 B5]. split; try done.
    intros st' Ho. simpl in Ho. apply B3. set_solver. }
  by eapply bodies_same; [|exact Hb'].
Qed.

Lemma bodies_closeOpenStreams x w : bodies x w → bodies x (closeOpenStreams w).
Proof. intros Hb. unfold closeOpenStreams. induction (elements (open w)) as [|st l IH]; [done|]. simpl. by apply bodies_finish. Qed.

(** *** Steps of one call *)

Lemma bodies_weaken x w : bodies None w → bodies x w.
Proof. intros [B1 B2 B3 B4 B5]. split; try done. intros c a Hc _. by apply B1. Qed.

Lemma bodies_restore c w : (∀ a, calls w !! c = Some a → call_ok w c a) → bodies (Some c) w → bodies None w.
Proof.
  intros Hok [B1 B2 B3 B4 B5]. split; try done. intros d a Hd _.
  destruct (decide (d = c)) as [->|Hne]; [by apply Hok|]. apply B1; congruence.
Qed.

(** The call that does not read now has nothing to say of the reads. *)
Lemma local_other s s' c d a :
  user s = Some c → user s' = Some c → claimed s' = claimed s → d ≠ c → local s d a → local s' d a.
Proof.
  unfold local. intros Hu Hu' Hcl Hne Hl. rewrite Hu', Hcl. rewrite Hu in Hl.
  destruct (kind a), (at_ a) as [| |r|]; try done; try destruct r; naive_solver.
Qed.

Lemma bodies_finds x c a r w :
  calls w !! c = Some a → at_ a ≠ Settled → (∀ d, x = Some d → d = c) →
  call_ok w c (MkCall (kind a) (cancelled a) (Posted r)) → bodies x w → bodies None (finds c a r w).
Proof.
  intros Hc Hs Hx Hok Hb.
  assert (bodies None (set_call c (MkCall (kind a) (cancelled a) (Posted r)) w)) as Hb'.
  { eapply bodies_call; [exact Hc|done|done|done| |exact Hb]. intros d Hd _ He. by apply Hd, Hx. }
  by eapply bodies_same; [|exact Hb'].
Qed.

Lemma no_call_yet w : accounted w → calls w !! (nextID w + 1) = None.
Proof.
  intros Hw. destruct (calls w !! (nextID w + 1)) eqn:Hc; [|done].
  pose proof (l_id _ _ _ (acc_ledger _ Hw (nextID w + 1))) as Hid. rewrite Hc in Hid. specialize (Hid ltac:(done)). lia.
Qed.

Lemma fetch_bodies abortID d w : accounted w → bodies None w → bodies None (fetch abortID d w).
Proof.
  intros Hw Hb. pose proof (no_call_yet _ Hw) as Hn. unfold fetch.
  assert (streams w !! (nextID w + 1) = None) as Hs.
  { destruct (streams w !! (nextID w + 1)) as [s|] eqn:Hs; [|done].
    assert (is_Some (calls w !! (nextID w + 1))) as [a Ha] by (apply (b_ids _ _ Hb); rewrite Hs; by eexists). congruence. }
  case_bool_decide; apply bodies_asyncPromise; try done.
  all: first [by intros _|by eapply bodies_same; [|exact Hb]].
Qed.

Lemma pull_bodies st ctrl d w w' :
  accounted w → polite (PullCall st ctrl d) w → pull st ctrl d w = Some w' → bodies None w → bodies None w'.
Proof.
  intros Hw Hpol Hp Hb. pose proof (no_call_yet _ Hw) as Hn. unfold pull in Hp.
  destruct (streams w !! st) as [s|] eqn:Hs; [|done]. simpl in Hp. destruct (b_streams _ _ Hb st s Hs) as [Hok Hh].
  destruct (finished s || bool_decide (claimed s = consumerBuffered) || reading s) eqn:Hg; simplify_eq.
  { eapply bodies_same; [|exact Hb]. split; try done. intros c b. simpl. set_solver. }
  bool_to_prop.
  assert (inhand s = []) as Hin.
  { destruct (decide (inhand s = [])) as [|Hne]; [done|]. destruct (Hh Hne) as (c & a & ct & Hu & Hc & Hk).
    pose proof (b_calls _ _ Hb c a Hc ltac:(done)) as Hcok. unfold call_ok in Hcok. rewrite Hk in Hcok. simpl in Hcok.
    destruct Hcok as (s0 & Hs0 & Hl). simplify_eq. unfold local in Hl. rewrite Hk, (Hpol _ _ _ Hc Hk) in Hl. by apply Hl. }
  apply bodies_asyncPromise; [done| |].
  { unfold call_ok. simpl. rewrite lookup_insert_eq. eexists. split; [done|]. unfold local. simpl. done. }
  apply (bodies_stream None st s); try done.
  - unfold stream_ok in *. simpl. split; [done|]. destruct (claimed s).
    + destruct Hok as (Hr & He & Hl & _). exists []. rewrite Hin, He, Hr. done.
    + destruct Hok as (_ & gone & Hg1 & Hg2). by exists gone.
    + done.
  - intros Hne. by destruct Hne.
  - intros c a Hc _ Hu Hl. destruct (kind a) as [|st' ct|st'] eqn:Hk; simplify_eq/=.
    + pose proof (Hpol _ _ _ Hc Hk) as Hset. unfold local in *. rewrite Hk, Hset in *. done.
    + unfold local in *. rewrite Hk in *. destruct (at_ a) as [| |[]|]; try done; naive_solver.
Qed.

(** The call that reads [st], and its place. *)
Lemma call_body w c a st :
  bodies None w → calls w !! c = Some a → uses (kind a) = Some st → ∃ s, streams w !! st = Some s ∧ local s c a.
Proof. intros Hb Hc Hu. pose proof (b_calls _ _ Hb c a Hc ltac:(done)) as Hok. unfold call_ok in Hok. by rewrite Hu in Hok. Qed.

Lemma open_unfinished w st s : bodies None w → streams w !! st = Some s → st ∈ open w → finished s = false.
Proof. intros Hb Hs Ho. destruct (b_open _ _ Hb st Ho) as (s0 & Hs0 & Hf). by simplify_eq. Qed.

Lemma body_read_bodies c n w w' : body_read c n w = Some w' → bodies None w → bodies None w'.
Proof.
  unfold body_read. intros Hstep Hb. inv_step Hstep. rename Heqo into Hc, Heqp into Ha, Heqw0 into Hk, Heqo0 into Hs.
  destruct (call_body w c a st Hb Hc) as (s0 & Hs0 & Hl); [by rewrite Hk|]. rewrite Hs in Hs0. injection Hs0 as ->.
  destruct (b_streams _ _ Hb st s0 Hs) as [Hok Hh]. unfold local in Hl. rewrite Hk, Ha in Hl. destruct Hl as (Hcl & Hu & Hin).
  apply (bodies_finds (Some c)); simpl; [done|congruence|congruence| |].
  { unfold call_ok. simpl. rewrite Hk. simpl. rewrite lookup_insert_eq. eexists. split; [done|]. unfold local. simpl. bool_to_prop.
    match goal with H : (n <=? _)%nat = true |- _ => apply Nat.leb_le in H end.
    split_and!; try done. rewrite take_app_le by (rewrite length_take; lia). by rewrite take_take, Nat.min_id. }
  apply (bodies_stream (Some c) st s0); try done.
  - unfold stream_ok in *. simpl. rewrite Hcl in *. destruct Hok as (Hr & gone & Hw & Hg). split; [done|]. exists gone.
    rewrite take_drop. by rewrite Hin in Hw.
  - intros _. exists c, a, ctrl. done.
  - intros d b Hd Hne Hub Hld. eapply local_other; [exact Hu|..|exact Hld]; simpl; congruence.
  - intros Ho. exact (open_unfinished w st _ Hb Hs Ho).
  - by apply bodies_weaken.
Qed.

Lemma body_stops_bodies c r w w' : body_stops c r w = Some w' → bodies None w → bodies None w'.
Proof.
  unfold body_stops. intros Hstep Hb. inv_step Hstep; rename Heqo into Hc, Heqp into Ha, Heqw0 into Hk, Heqo0 into Hs.
  all: destruct (call_body w c a st Hb Hc) as (s0 & Hs0 & Hl); [by rewrite Hk|]; rewrite Hs in Hs0; injection Hs0 as ->.
  all: unfold local in Hl; rewrite Hk, Ha in Hl.
  all: apply (bodies_finds None); [done|congruence|done| |done].
  all: unfold call_ok; simpl; rewrite Hk; simpl; exists s0; split; [done|]; unfold local; simpl; bool_to_prop; naive_solver.
Qed.

Lemma claims_bodies c w w' : readAll_claims c w = Some w' → bodies None w → bodies None w'.
Proof.
  unfold readAll_claims. intros Hstep Hb.
  destruct (calls w !! c) as [a|] eqn:Hc; [|done]. simpl in Hstep. destruct (at_ a) eqn:Ha; try done.
  destruct (kind a) as [| |st] eqn:Hk; try done. destruct (streams w !! st) as [s|] eqn:Hs; [|done]. simpl in Hstep.
  destruct (finished s || reading s || bool_decide (claimed s = consumerStream)) eqn:Hg; simplify_eq/=.
  { apply (bodies_finds None); [done|congruence|done| |by eapply bodies_same; [|exact Hb]].
    unfold call_ok. rewrite Hk. simpl. exists s. done. }
  bool_to_prop. destruct (b_streams _ _ Hb st s Hs) as [Hok Hh].
  assert (claimed s = consumerNone) as Hcl.
  { unfold stream_ok in Hok. destruct (claimed s); [done|done|]. destruct Hok as [Hr _]. congruence. }
  unfold stream_ok in Hok. rewrite Hcl in Hok. destruct Hok as (Hr & He & Hlo & Hi & Hre & Hus).
  eapply (bodies_call (Some c) None c a); [done|by rewrite Hk|simpl; congruence| |naive_solver|].
  { intros _. unfold call_ok. simpl. rewrite lookup_insert_eq. eexists. split; [done|]. unfold local. simpl. by rewrite Hr. }
  apply (bodies_stream (Some c) st s); try done.
  - intros Hne. by destruct Hne.
  - intros d b Hd Hne Hub Hl. unfold local in *. destruct (kind b); try done; simpl in *.
    + destruct Hl. congruence.
    + rewrite Hcl, Hus in Hl. destruct (at_ b) as [| |[]|]; try done; naive_solver.
  - by rewrite Hcl.
  - by apply bodies_weaken.
Qed.

Lemma reads_bodies c n w w' : readAll_reads c n w = Some w' → bodies None w → bodies None w'.
Proof.
  unfold readAll_reads. intros Hstep Hb. inv_step Hstep. rename Heqo into Hc, Heqp into Ha, Heqw0 into Hk, Heqo0 into Hs.
  destruct (call_body w c a st Hb Hc) as (s0 & Hs0 & Hl); [by rewrite Hk|]. rewrite Hs in Hs0. injection Hs0 as ->.
  destruct (b_streams _ _ Hb st s0 Hs) as [Hok Hh]. unfold local in Hl. rewrite Hk, Ha in Hl. destruct Hl as (Hu & Hcl & Hw).
  unfold stream_ok in Hok. rewrite Hcl in Hok. destruct Hok as (Hr & He & Hi).
  eapply (bodies_call (Some c) None c a); [done|by rewrite Hk|simpl; congruence| |naive_solver|].
  { intros _. unfold call_ok. simpl. rewrite lookup_insert_eq. eexists. split; [done|]. unfold local. simpl.
    split_and!; try done. by rewrite Hw, <-app_assoc, take_drop. }
  apply (bodies_stream (Some c) st s0); try done.
  - unfold stream_ok. simpl. by rewrite Hcl.
  - intros d b Hd Hne Hub Hld. eapply local_other; [exact Hu|..|exact Hld]; simpl; congruence.
  - intros Ho. exact (open_unfinished w st _ Hb Hs Ho).
  - by apply bodies_weaken.
Qed.

(** finish keeps every call's place. *)
Lemma finish_streams st w st' :
  streams (finish st w) !! st' = streams w !! st' ∨
  ∃ s, streams w !! st' = Some s ∧ streams (finish st w) !! st' = Some (closing true s).
Proof.
  unfold finish. destruct (streams w !! st) as [s|] eqn:Hs; [|by left]. destruct (finished s); [by left|]. simpl.
  destruct (decide (st' = st)) as [->|Hne]; [right|left].
  - rewrite lookup_insert_eq. by exists s.
  - by rewrite lookup_insert_ne.
Qed.

Lemma call_ok_finish st w c a : call_ok w c a → call_ok (finish st w) c a.
Proof.
  unfold call_ok. destruct (uses (kind a)) as [st'|].
  - intros (s & Hs & Hl). destruct (finish_streams st w st') as [-> | (s0 & Hs0 & ->)]; [by exists s|].
    simplify_eq. by exists (closing true s).
  - intros Hn Hns. specialize (Hn Hns). destruct (finish_streams st w c) as [-> | (s0 & Hs0 & _)]; [done|congruence].
Qed.

Lemma ends_bodies c failed w w' : readAll_ends c failed w = Some w' → bodies None w → bodies None w'.
Proof.
  unfold readAll_ends. intros Hstep Hb.
  destruct (calls w !! c) as [a|] eqn:Hc; [|done]. simpl in Hstep. destruct (at_ a) as [|acc| |] eqn:Ha; try done.
  destruct (kind a) as [| |st] eqn:Hk; try done. destruct (streams w !! st) as [s|] eqn:Hs; [|done]. simpl in Hstep.
  destruct (call_body w c a st Hb Hc) as (s0 & Hs0 & Hl); [by rewrite Hk|]. rewrite Hs in Hs0. injection Hs0 as <-.
  unfold local in Hl. rewrite Hk, Ha in Hl. destruct Hl as (Hu & Hcl & Hw).
  destruct (failed || _ || _) eqn:Hg; [|done]. injection Hstep as <-.
  apply (bodies_finds None); [simpl; by rewrite (sa_calls _ _ (sa_finish st w))|congruence|done| |].
  - apply (call_ok_finish st w). unfold call_ok. simpl. rewrite Hk. simpl. exists s. split; [done|]. unfold local. simpl.
    destruct failed; [done|]. destruct (Z.ltb_spec maxFetchBody (Z.of_nat (length acc))); [done|]. simpl in Hg.
    destruct (Z.eqb_spec (Z.of_nat (length acc)) (maxFetchBody + 1)); [lia|]. simpl in Hg. bool_to_prop.
    split_and!; try done. rewrite Hw. by match goal with H : rest s = [] |- _ => rewrite H, app_nil_r end.
  - eapply bodies_same; [|by apply (bodies_finish None st)]. done.
Qed.

(** *** Settling *)

Lemma bodies_restore_settled c a w :
  calls w !! c = Some a → call_ok w c a → bodies (Some c) w → bodies None w.
Proof. intros Hc Hok. apply bodies_restore. intros b Hb. by simplify_eq. Qed.

(** A body arrives with its response. *)
Lemma bodies_arrive x c s w :
  streams w !! c = None → is_Some (calls w !! c) → stream_ok s → inhand s = [] → finished s = false →
  (∀ a, calls w !! c = Some a → x = Some c ∨ at_ a = Settled) →
  bodies x w → bodies x (with_open ({[c]} ∪ open w) (set_stream c s w)).
Proof.
  intros Hn Hc Hok Hi Hf Hset [B1 B2 B3 B4 B5]. split; simpl.
  - intros d a Hd Hx. specialize (B1 d a Hd Hx). unfold call_ok in *. simpl. destruct (uses (kind a)) as [st|].
    + destruct B1 as (s0 & Hs0 & Hl). exists s0. rewrite lookup_insert_ne by congruence. done.
    + intros Hns. rewrite lookup_insert_ne; [by apply B1|]. intros ->. destruct (Hset a Hd); done.
  - intros st s0. destruct (decide (st = c)) as [->|Hne].
    + rewrite lookup_insert_eq. intros [= <-]. split; [done|]. intros Hne. by destruct Hne.
    + rewrite lookup_insert_ne by done. apply B2.
  - intros st Ho. destruct (decide (st = c)) as [->|Hne]; [rewrite lookup_insert_eq; eauto|].
    rewrite lookup_insert_ne by done. apply B3. set_solver.
  - intros d b Hl. destruct (B4 d b Hl) as (a & st & s0 & H1 & H2 & H3 & H4 & H5).
    exists a, st, s0. simpl. rewrite lookup_insert_ne by congruence. done.
  - intros st. destruct (decide (st = c)) as [->|Hne]; [done|]. rewrite lookup_insert_ne by done. apply B5.
Qed.

Lemma settle_fetch_bodies c abortID r canc g w :
  streams w !! c = None → is_Some (calls w !! c) → bodies (Some c) w →
  bodies (Some c) (settle_fetch c abortID r canc g w).2 ∧ ∀ b, (settle_fetch c abortID r canc g w).1 ≠ VBody b.
Proof.
  intros Hn Hc Hb. unfold settle_fetch.
  set (w1 := if bool_decide (abortID ≠ []) then with_aborts (delete abortID (aborts w)) w else w).
  assert (same_bodies w w1) as Hsame by (unfold w1; by case_bool_decide).
  assert (bodies (Some c) w1) as Hb1 by (by eapply bodies_same).
  assert (streams w1 !! c = None ∧ is_Some (calls w1 !! c)) as [Hn1 Hc1] by (by rewrite (sb_streams _ _ Hsame), (sb_calls _ _ Hsame)).
  assert (∀ cs, bodies (Some c) (cancel_ctx cs w1)) as Hctx by (intros cs; by eapply bodies_same; [|exact Hb1]).
  destruct r as [body brk|ref|n| | | |b| |]; try (destruct canc; (split; [apply Hctx|done])).
  destruct canc; [split; [apply Hctx|done]|].
  assert (∀ s, s = MkStream body brk false [] false consumerNone false body [] false [] None →
    bodies (Some c) (with_open ({[c]} ∪ open w1) (set_stream c s w1))) as Harr.
  { intros s ->. apply bodies_arrive; try done. by left. }
  destruct g; simpl; (split; [|done]).
  - by apply Harr.
  - unfold close_body. simpl. rewrite Hn1. apply Hctx.
  - unfold close_body. simpl. rewrite lookup_insert_eq.
    eapply (bodies_closing (Some c) c _ false); [simpl; by rewrite lookup_insert_eq|done|].
    eapply bodies_same; [|by apply Harr]. done.
Qed.

Lemma settle_pull_bodies c st ctrl r canc g w s :
  streams w !! st = Some s → local s c (MkCall (Pull st ctrl) canc (Posted r)) →
  is_Some (calls w !! c) → bodies (Some c) w →
  let w' := (settle_pull c st ctrl r canc g w).2 in
  bodies (Some c) w' ∧ call_ok w' c (MkCall (Pull st ctrl) canc Settled) ∧
  ∀ b, (settle_pull c st ctrl r canc g w).1 ≠ VBody b.
Proof.
  intros Hs (Hcl & Hl) Hc Hb. simpl in Hl.
  assert (∀ es w, (∀ c b, Settles c (VBody b) ∉ es) → bodies (Some c) w → bodies (Some c) (emit es w)) as Hemit.
  { intros es w0 Hes. apply bodies_same. split; try done. intros d b. simpl. rewrite elem_of_app. intros [H|H]; [done|].
    by apply Hes in H. }
  assert (∀ ct d b, (Settles d (VBody b) ∉ [FreesCtrl ct]) ∧ (Settles d (VBody b) ∉ [Closes ct])) as Hquiet
    by (intros; rewrite !list_elem_of_singleton; done).
  assert (bodies (Some c) (cancel_ctx {[c]} w)) as Hb1 by (by eapply bodies_same; [|exact Hb]).
  assert (Hplain : (∀ n, r ≠ Chunk n) → call_ok (cancel_ctx {[c]} w) c (MkCall (Pull st ctrl) canc Settled)).
  { intros Hr. exists s. split; [done|]. split; [done|]. intros _. destruct r; naive_solver. }
  unfold settle_pull. destruct r as [body brk|ref|n| | | |b| |].
  1, 2, 6, 7, 8, 9: by destruct canc; simpl; (split_and!; [apply Hemit; [apply Hquiet|done]|by apply Hplain|done]).
  - destruct Hl as [Hu Hi]. simpl. destruct (b_streams _ _ Hb st s Hs) as [Hok Hh].
    split_and!.
    + apply Hemit; [apply Hquiet|]. unfold deliver. simpl. rewrite Hs. apply (bodies_stream (Some c) st s); try done.
      * unfold stream_ok in *. simpl. rewrite Hcl in *. destruct Hok as (Hr & gone & Hw & Hg). split; [done|].
        exists (gone ++ inhand s). split; [by rewrite <-app_assoc|]. intros [Hlo Hokk]%orb_false_iff.
        apply negb_false_iff in Hokk. rewrite Hokk, (Hg Hlo), Hi. rewrite concat_app. simpl. by rewrite app_nil_r.
      * intros Hne. by destruct Hne.
      * intros d a Hd Hne Hub Hld. eapply local_other; [exact Hu|..|exact Hld]; simpl; congruence.
      * intros Ho. destruct (b_open _ _ Hb st Ho) as (s0 & Hs0 & Hf). rewrite Hs in Hs0. injection Hs0 as <-. done.
    + unfold deliver. simpl. rewrite Hs. exists (delivers n (negb canc && match g with Fine => true | _ => false end) s).
      simpl. rewrite lookup_insert_eq. split; [done|]. by split.
    + by destruct canc, g.
  - destruct canc; simpl.
    + split_and!; [apply Hemit; [apply Hquiet|done]|by apply Hplain|done].
    + split_and!; [| |by destruct g].
      * apply Hemit; [apply Hquiet|]. apply Hemit; [apply Hquiet|]. by apply bodies_finish.
      * by apply (call_ok_finish st (cancel_ctx {[c]} w)), Hplain.
  - destruct canc; simpl.
    + split_and!; [apply Hemit; [apply Hquiet|done]|by apply Hplain|done].
    + split_and!; [|by apply (call_ok_finish st (cancel_ctx {[c]} w)), Hplain|done].
      apply Hemit; [apply Hquiet|]. by apply bodies_finish.
Qed.

Lemma bodies_reported c canc v w :
  (canc = false → ∀ b, v = VBody b → given w c b) → bodies None w → bodies None (reported c canc v w).
Proof.
  intros Hg Hb. unfold reported. destruct canc.
  - eapply bodies_same; [|exact Hb]. split; try done. intros d b. simpl. set_solver.
  - destruct Hb as [B1 B2 B3 B4 B5]. split; try done. intros d b. simpl. rewrite !elem_of_app, !list_elem_of_singleton.
    intros [[H|[= -> <-]]|[=]]; [by apply B4|]. by apply Hg.
Qed.

Lemma settled_bodies c a ps w :
  calls w !! c = Some a → at_ a ≠ Settled → bodies None w → bodies (Some c) (settled c a ps w).
Proof.
  intros Hc Ha Hb. assert (bodies (Some c) (set_call c (MkCall (kind a) (cancelled a) Settled) w)) as Hb1.
  { eapply (bodies_call None (Some c) c a); try done. }
  by eapply bodies_same; [|exact Hb1].
Qed.

Lemma run_post_bodies g w w' : run_post g w = Some w' → bodies None w → bodies None w'.
Proof.
  intros Hstep Hb. apply fetch_run_post_inv in Hstep as [(c & ps & Hps & ->)|(c & ps & a & r & Hps & Hc & Ha & ->)].
  { eapply bodies_same; [|exact Hb]. split; try done. intros d b. simpl. set_solver. }
  assert (bodies (Some c) (settled c a ps w)) as Hb1 by (apply settled_bodies; [done|congruence|done]).
  pose proof (b_calls _ _ Hb c a Hc ltac:(done)) as Hok.
  assert (calls (settled c a ps w) !! c = Some (MkCall (kind a) (cancelled a) Settled)) as Hc1
    by (simpl; by rewrite lookup_insert_eq).
  pose proof (sa_calls _ _ (sa_settle c (kind a) r (cancelled a) g (settled c a ps w))) as Hcalls.
  destruct (kind a) as [abortID|st ctrl|st] eqn:Hk.
  - unfold call_ok in Hok. rewrite Hk in Hok. simpl in Hok.
    destruct (settle_fetch_bodies c abortID r (cancelled a) g (settled c a ps w)) as [H1 H2];
      [apply Hok; congruence|by rewrite Hc1|done|].
    apply bodies_reported; [by intros _ b Hv; destruct (H2 b)|].
    eapply bodies_restore_settled; [by rewrite Hcalls| |exact H1]. unfold call_ok. simpl. rewrite ?Hk. simpl. by intros [].
  - unfold call_ok in Hok. rewrite Hk in Hok. simpl in Hok. destruct Hok as (s & Hs & Hl).
    destruct (settle_pull_bodies c st ctrl r (cancelled a) g (settled c a ps w) s) as (H1 & H2 & H3);
      [done|unfold local in *; by rewrite Hk, Ha in Hl|by rewrite Hc1|done|].
    apply bodies_reported; [by intros _ b Hv; destruct (H3 b)|].
    eapply bodies_restore_settled; [by rewrite Hcalls| |exact H1]. unfold call_ok in *. simpl in *. by rewrite ?Hk.
  - unfold call_ok in Hok. rewrite Hk in Hok. simpl in Hok. destruct Hok as (s & Hs & Hl).
    apply bodies_reported.
    + intros Hcanc b Hv. simpl in Hv. rewrite Hcanc in Hv. unfold settle_buffered in Hv. destruct r as [| | | | | |b'| |]; try done.
      destruct g; simplify_eq. unfold local in Hl. rewrite Hk, Ha in Hl. destruct Hl as (Hu & Hcl & Hw & Hlen).
      exists (MkCall (Buffered st) (cancelled a) Settled), st, s. simpl. by rewrite Hk, lookup_insert_eq.
    + eapply bodies_restore_settled; [exact Hc1| |exact Hb1]. by exists s.
Qed.

Lemma cancelInflight_bodies w : bodies None w → bodies None (cancelInflight w).
Proof.
  intros [B1 B2 B3 B4 B5].
  assert (∀ c a, kind (cancelling w c a) = kind a ∧ at_ (cancelling w c a) = at_ a) as Hsame
    by (intros c a; unfold cancelling; by case_bool_decide).
  split; try done.
  - intros c a. rewrite cancelInflight_lookup. destruct (calls w !! c) as [a0|] eqn:Hc; [|done]. simpl. intros [= <-] _.
    specialize (B1 c a0 Hc ltac:(done)). destruct (Hsame c a0) as [Hk Ha]. unfold call_ok, local in *. by rewrite Hk, Ha.
  - intros st s Hs. destruct (B2 st s Hs) as [? Hh]. split; [done|]. intros Hi. destruct (Hh Hi) as (c & a & ct & Hu & Hc & Hk).
    exists c, (cancelling w c a), ct. rewrite cancelInflight_lookup, Hc. split_and!; [done|done|]. by rewrite (proj1 (Hsame c a)).
  - intros c b Hl. destruct (B4 c b Hl) as (a & st & s & Hc & Hk & Ha & H). exists (cancelling w c a), st, s.
    rewrite cancelInflight_lookup, Hc. destruct (Hsame c a) as [Hk' Ha']. destruct H as (? & ? & ? & ? & ?). split_and!; try done; congruence.
  - intros st Hs. rewrite cancelInflight_lookup, fmap_is_Some. by apply B5.
Qed.

Lemma bodies_start : bodies None installFetch.
Proof.
  split; simpl.
  - intros c a Hc. by rewrite lookup_empty in Hc.
  - intros st s Hs. by rewrite lookup_empty in Hs.
  - intros st Ho. by apply elem_of_empty in Ho.
  - intros c b Hl. by apply not_elem_of_nil in Hl.
  - intros st [? Hs]. by rewrite lookup_empty in Hs.
Qed.

Lemma step_bodies l w w' : accounted w → polite l w → step l w = Some w' → bodies None w → bodies None w'.
Proof.
  intros Hw Hpol Hstep Hb. destruct l; simpl in Hstep.
  - simplify_eq. by apply fetch_bodies.
  - simplify_eq. eapply bodies_same; [|exact Hb]. unfold fetchAbort. by destruct (aborts w !! id).
  - unfold do_returns in Hstep. destruct (calls w !! c) as [a|] eqn:Hc; [|done]. simpl in Hstep.
    destruct (at_ a) eqn:Ha; try done. destruct (kind a) as [abortID| |] eqn:Hk; try done.
    assert (call_ok w c (MkCall (kind a) (cancelled a) (Posted r))) as Hok.
    { pose proof (b_calls _ _ Hb c a Hc ltac:(done)) as H. unfold call_ok in *. simpl. rewrite Hk in *. simpl in *.
      intros _. apply H. congruence. }
    assert (bodies None (finds c a r w)) by (apply (bodies_finds None); [done|congruence|done|done|done]).
    destruct r; by simplify_eq.
  - by eapply pull_bodies.
  - by eapply body_read_bodies.
  - by eapply body_stops_bodies.
  - unfold consume in Hstep. destruct (streams w !! st) as [s|] eqn:Hs; simplify_eq/=.
    apply bodies_asyncPromise; [by apply no_call_yet| |done]. by exists s.
  - by eapply claims_bodies.
  - by eapply reads_bodies.
  - by eapply ends_bodies.
  - simplify_eq. by apply bodies_finish.
  - by eapply run_post_bodies.
  - simplify_eq. by apply cancelInflight_bodies.
  - simplify_eq. by apply bodies_closeOpenStreams.
  - simplify_eq. by eapply bodies_same; [|exact Hb].
Qed.

Lemma reach_bodies w : reach w → bodies None w.
Proof.
  induction 1 as [|w l w' Hr IH Hp Hs]; [apply bodies_start|]. eapply step_bodies; try done. by apply fetch_reach_accounted.
Qed.

(** ** A body has one reader, and loses nothing *)

(** The call is inside a Read of the body. *)
Definition reads_now (st : Z) (a : asyncCall) : Prop :=
  match kind a, at_ a with
  | Pull st' _, Working => st' = st
  | Buffered st', Reading _ => st' = st
  | _, _ => False
  end.

Lemma reader_is_user w c a st s :
  bodies None w → calls w !! c = Some a → reads_now st a → streams w !! st = Some s → user s = Some c.
Proof.
  intros Hb Hc Hr Hs. unfold reads_now in Hr.
  destruct (call_body w c a st Hb Hc) as (s0 & Hs0 & Hl); [by destruct (kind a), (at_ a); simplify_eq/=|].
  rewrite Hs in Hs0. injection Hs0 as <-. unfold local in Hl.
  destruct (kind a), (at_ a); try done; by destruct Hl as [? []] || destruct Hl.
Qed.

(** C26: A response body has one consumer. While the guest's stream pulls one
    chunk at a time, no two goroutines are ever inside a Read of the same body,
    whatever bytes, text and json are called meanwhile. The chunks the stream was
    given are, in order, the beginning of the body, short of the one that waits to
    be enqueued, unless one could not be enqueued; when a pull meets the end they
    are all of it. What text, json and the others resolve with is the whole body,
    within the limit, of a body no chunk of which was streamed and that no second
    call resolves with. *)
Theorem fetch_body_exact (w : world) (Hr : reach w) (st : Z) (s : fetchStream) (Hs : streams w !! st = Some s) :
  (∀ c d a b, calls w !! c = Some a → calls w !! d = Some b → reads_now st a → reads_now st b → c = d) ∧
  (claimed s = consumerStream → lost s = false → whole s = concat (enqueued s) ++ inhand s ++ rest s) ∧
  (∀ c a ctrl, calls w !! c = Some a → kind a = Pull st ctrl → at_ a = Posted AtEOF → lost s = false →
     whole s = concat (enqueued s)) ∧
  (∀ c a b, Settles c (VBody b) ∈ log w → calls w !! c = Some a → kind a = Buffered st →
     b = whole s ∧ Z.of_nat (length b) <= maxFetchBody ∧ enqueued s = [] ∧
     ∀ d e b', Settles d (VBody b') ∈ log w → calls w !! d = Some e → kind e = Buffered st → d = c).
Proof.
  pose proof (reach_bodies w Hr) as Hb. destruct (b_streams _ _ Hb st s Hs) as [Hok _]. unfold stream_ok in Hok.
  assert (claimed s = consumerStream → lost s = false → whole s = concat (enqueued s) ++ inhand s ++ rest s) as Hex.
  { intros Hcl Hlo. rewrite Hcl in Hok. destruct Hok as (_ & gone & Hw & Hg). by rewrite Hw, (Hg Hlo). }
  split_and!; [|done| |].
  - intros c d a b Hc Hd Ha Hb'. pose proof (reader_is_user w c a st s Hb Hc Ha Hs).
    pose proof (reader_is_user w d b st s Hb Hd Hb' Hs). congruence.
  - intros c a ctrl Hc Hk Ha Hlo. destruct (call_body w c a st Hb Hc) as (s0 & Hs0 & Hl); [by rewrite Hk|].
    rewrite Hs in Hs0. injection Hs0 as <-. unfold local in Hl. rewrite Hk, Ha in Hl. destruct Hl as (Hcl & _ & Hi & Hre).
    rewrite (Hex Hcl Hlo), Hi, Hre. by rewrite !app_nil_r.
  - intros c a b Hl Hc Hk.
    assert (∀ d e b', Settles d (VBody b') ∈ log w → calls w !! d = Some e → kind e = Buffered st →
      claimed s = consumerBuffered ∧ user s = Some d ∧ whole s = b' ∧ Z.of_nat (length b') <= maxFetchBody) as Hgiven.
    { intros d e b' Hl' Hd Hke. destruct (b_log _ _ Hb d b' Hl') as (a0 & st0 & s0 & H1 & H2 & H3 & H4 & H5).
      rewrite Hd in H1. simplify_eq. rewrite Hke in H2. simplify_eq. done. }
    destruct (Hgiven c a b Hl Hc Hk) as (Hcl & Hu & Hw & Hlen). rewrite Hcl in Hok. split_and!; try done; [by apply Hok|].
    intros d e b' Hl' Hd Hke. destruct (Hgiven d e b' Hl' Hd Hke) as (_ & Hu' & _). congruence.
Qed.

(** ** Promises are settled once, and the boundary is clean *)

(** A call's next state: the same work, settled or cancelled for good. *)
Definition becomes (l : label) (a a' : asyncCall) : Prop :=
  kind a' = kind a ∧ (at_ a = Settled → a' = a) ∧ (cancelled a = true → cancelled a' = true) ∧
  (l ≠ CancelInflight → cancelled a' = cancelled a).

Lemma becomes_refl l a : becomes l a a.
Proof. by split_and!. Qed.

Definition keeps_calls (l : label) (w w' : world) : Prop :=
  ∀ c a, calls w !! c = Some a → ∃ a', calls w' !! c = Some a' ∧ becomes l a a'.

Lemma keeps_same l w w' : calls w' = calls w → keeps_calls l w w'.
Proof. intros He c a Hc. exists a. rewrite He. split; [done|apply becomes_refl]. Qed.

Lemma keeps_insert l w w' c a a' :
  calls w !! c = Some a → at_ a ≠ Settled → kind a' = kind a → cancelled a' = cancelled a →
  calls w' = <[c := a']> (calls w) → keeps_calls l w w'.
Proof.
  intros Hc Hs Hk Hcanc He d b Hd. rewrite He. destruct (decide (d = c)) as [->|Hne].
  - rewrite lookup_insert_eq. exists a'. simplify_eq. split; [done|]. split_and!; try done; congruence.
  - rewrite lookup_insert_ne by done. exists b. split; [done|apply becomes_refl].
Qed.

Lemma keeps_asyncPromise l k d w w0 :
  calls w0 = calls w → nextID w0 = nextID w → accounted w → keeps_calls l w (asyncPromise k d w0).
Proof.
  intros He Hid Hw c a Hc. exists a. split; [|apply becomes_refl]. pose proof (no_call_yet _ Hw) as Hn.
  destruct d; simpl; rewrite ?He; [|done]. rewrite Hid, lookup_insert_ne; congruence.
Qed.

Ltac moved := eapply keeps_insert; cycle 4; [reflexivity|eassumption|simpl; congruence..].

Lemma step_calls l w w' : accounted w → step l w = Some w' → keeps_calls l w w'.
Proof.
  intros Hw Hstep. destruct l; simpl in Hstep.
  - simplify_eq. unfold fetch. by apply keeps_asyncPromise; [case_bool_decide..|].
  - simplify_eq. apply keeps_same. unfold fetchAbort. by destruct (aborts w !! id).
  - unfold do_returns in Hstep. inv_step Hstep; moved.
  - unfold pull in Hstep. destruct (streams w !! st) as [s|]; simplify_eq/=. case_match; simplify_eq/=; [by apply keeps_same|].
    by apply keeps_asyncPromise.
  - unfold body_read in Hstep. inv_step Hstep. moved.
  - unfold body_stops in Hstep. inv_step Hstep; moved.
  - unfold consume in Hstep. inv_step Hstep. by apply keeps_asyncPromise.
  - unfold readAll_claims in Hstep. inv_step Hstep; moved.
  - unfold readAll_reads in Hstep. inv_step Hstep. moved.
  - unfold readAll_ends in Hstep. inv_step Hstep.
    all: eapply keeps_insert; cycle 4; [simpl; by rewrite (sa_calls _ _ (sa_finish _ _))|done|simpl; congruence..].
  - simplify_eq. apply keeps_same, (sa_finish st w).
  - apply fetch_run_post_inv in Hstep as [(c & ps & Hps & ->)|(c & ps & a & r & Hps & Hc & Ha & ->)]; [by apply keeps_same|].
    eapply (keeps_insert _ _ _ c a); [done|congruence| | |]; cycle 2.
    + transitivity (calls (settled c a ps w)); [|done].
      rewrite <-(sa_calls _ _ (sa_settle c (kind a) r (cancelled a) g (settled c a ps w))). unfold reported. by destruct (cancelled a).
    + done.
    + done.
  - simplify_eq. intros c a Hc. exists (cancelling w c a). rewrite cancelInflight_lookup, Hc. split; [done|].
    unfold cancelling. case_bool_decide as Hin; [|apply becomes_refl].
    apply (l_inflight _ _ _ (acc_ledger _ Hw c)) in Hin as [_ Hns]. rewrite Hc in Hns. simpl in Hns.
    split_and!; try done. intros Ha. by rewrite Ha in Hns.
  - simplify_eq. apply keeps_same, sa_closeOpenStreams.
  - simplify_eq. by apply keeps_same.
Qed.

Lemma step_skew l w w' : step l w = Some w' → l ≠ CancelInflight → l ≠ LoopReset → skew w' = skew w.
Proof.
  intros Hstep Hl1 Hl2. destruct l; simpl in Hstep; try done.
  - simplify_eq. unfold fetch, asyncPromise. destruct deferred; by case_bool_decide.
  - simplify_eq. unfold fetchAbort. by destruct (aborts w !! id).
  - unfold do_returns in Hstep. by inv_step Hstep.
  - unfold pull in Hstep. destruct (streams w !! st) as [s|]; simplify_eq/=. case_match; simplify_eq/=; [done|]. by destruct deferred.
  - unfold body_read in Hstep. by inv_step Hstep.
  - unfold body_stops in Hstep. by inv_step Hstep.
  - unfold consume in Hstep. inv_step Hstep. by destruct deferred.
  - unfold readAll_claims in Hstep. by inv_step Hstep.
  - unfold readAll_reads in Hstep. by inv_step Hstep.
  - unfold readAll_ends in Hstep. inv_step Hstep; apply (sa_skew _ _ (sa_finish _ _)).
  - simplify_eq. apply (sa_skew _ _ (sa_finish st w)).
  - apply fetch_run_post_inv in Hstep as [(c & ps & Hps & ->)|(c & ps & a & r & Hps & Hc & Ha & ->)]; [done|].
    transitivity (skew (settled c a ps w)); [|done].
    rewrite <-(sa_skew _ _ (sa_settle c (kind a) r (cancelled a) g (settled c a ps w))). unfold reported. by destruct (cancelled a).
  - simplify_eq. apply (sa_skew _ _ (sa_closeOpenStreams w)).
Qed.

(** No request of the guest, and no boundary. *)
Definition winds_down (l : label) : Prop :=
  match l with Fetch _ _ | PullCall _ _ _ | Consume _ _ | CancelInflight | LoopReset => False | _ => True end.

Definition within (l : label) : Prop := l ≠ CancelInflight ∧ l ≠ LoopReset.

(** Winding down begins no call. *)
Lemma winds_down_dom l w w' c : winds_down l → step l w = Some w' → is_Some (calls w' !! c) → is_Some (calls w !! c).
Proof.
  intros Hl Hstep. destruct l; simpl in Hstep; try done.
  - simplify_eq. unfold fetchAbort. by destruct (aborts w !! id).
  - unfold do_returns in Hstep. inv_step Hstep; rewrite lookup_insert_is_Some'; naive_solver eauto.
  - unfold body_read in Hstep. inv_step Hstep. rewrite lookup_insert_is_Some'; naive_solver eauto.
  - unfold body_stops in Hstep. inv_step Hstep; rewrite lookup_insert_is_Some'; naive_solver eauto.
  - unfold readAll_claims in Hstep. inv_step Hstep; rewrite lookup_insert_is_Some'; naive_solver eauto.
  - unfold readAll_reads in Hstep. inv_step Hstep. rewrite lookup_insert_is_Some'; naive_solver eauto.
  - unfold readAll_ends in Hstep. inv_step Hstep; rewrite (sa_calls _ _ (sa_finish _ _)), lookup_insert_is_Some'; naive_solver eauto.
  - simplify_eq. by rewrite (sa_calls _ _ (sa_finish st w)).
  - apply fetch_run_post_inv in Hstep as [(d & ps & Hps & ->)|(d & ps & a & r & Hps & Hc & Ha & ->)]; [done|].
    assert (calls (reported d (cancelled a) (settle d (kind a) r (cancelled a) g (settled d a ps w)).1
      (settle d (kind a) r (cancelled a) g (settled d a ps w)).2) = calls (settled d a ps w)) as ->.
    { rewrite <-(sa_calls _ _ (sa_settle d (kind a) r (cancelled a) g (settled d a ps w))). unfold reported. by destruct (cancelled a). }
    simpl. rewrite lookup_insert_is_Some'. naive_solver eauto.
  - simplify_eq. by rewrite (sa_calls _ _ (sa_closeOpenStreams w)).
Qed.

Lemma finish_open st w : open (finish st w) ⊆ open w.
Proof. unfold finish. destruct (streams w !! st) as [s|]; [|done]. destruct (finished s); [done|]. simpl. set_solver. Qed.

Lemma finish_closes st w : bodies None w → st ∉ open (finish st w).
Proof.
  intros Hb. unfold finish. destruct (streams w !! st) as [s|] eqn:Hs; [destruct (finished s) eqn:Hf|]; simpl; [|set_solver|];
    intros Ho; destruct (b_open _ _ Hb st Ho) as (s0 & Hs0 & Hf0); congruence.
Qed.

Lemma closeOpenStreams_open w : bodies None w → open (closeOpenStreams w) = ∅.
Proof.
  intros Hb. unfold closeOpenStreams.
  assert (∀ l w', bodies None w' → open (foldr finish w' l) ⊆ open w' ∖ list_to_set l) as Hfold.
  { intros l. induction l as [|st l IH]; intros w' Hb'; simpl; [set_solver|].
    assert (bodies None (foldr finish w' l)) as Hb1 by (clear IH; induction l; simpl; [done|by apply bodies_finish]).
    pose proof (finish_open st (foldr finish w' l)) as Hsub. specialize (IH w' Hb').
    pose proof (finish_closes st _ Hb1). set_solver. }
  specialize (Hfold (elements (open w)) w Hb). rewrite list_to_set_elements_L in Hfold. set_solver.
Qed.

(** Close can be called again: no handle is released twice, no body stays open. *)
Lemma closeAll_once cached w :
  reach w →
  let '(freed, cached', w') := closeAll cached w in
  let '(freed', _, w'') := closeAll cached' w' in
  freed = omap id cached ∧ freed' = [] ∧ openStreams w' = 0%nat ∧ openStreams w'' = 0%nat.
Proof.
  intros Hr%reach_bodies. simpl. unfold openStreams.
  rewrite (closeOpenStreams_open (closeOpenStreams w)) by (by apply bodies_closeOpenStreams).
  rewrite closeOpenStreams_open by done. split_and!; try done. by induction cached.
Qed.

Lemma settle_cancelled_open c k r g w : open (settle c k r true g w).2 ⊆ open w.
Proof.
  destruct k as [abortID|st ctrl|st]; simpl; [| |done].
  - unfold settle_fetch. destruct r; case_bool_decide; done.
  - unfold settle_pull. destruct r; simpl; try done. unfold deliver. simpl. by destruct (streams w !! st).
Qed.

(** The instance between two requests: every call is settled or cancelled and no
    body is open. *)
Record quiesced (w : world) : Prop := {
  q_accounts : accounted w;
  q_bodies : bodies None w;
  q_awaited : awaited w = 0%nat;
  q_open : open w = ∅
}.

Lemma quiesced_step l w w' : winds_down l → step l w = Some w' → quiesced w → quiesced w'.
Proof.
  intros Hl Hstep [Hw Hb Ha Ho].
  assert (polite l w) as Hpol by (by destruct l).
  split; [by eapply step_accounted|by eapply step_bodies| |].
  - apply awaited_zero. intros c a Hc.
    destruct (winds_down_dom l w w' c Hl Hstep ltac:(by eexists)) as [a0 Hc0].
    destruct (step_calls l w w' Hw Hstep c a0 Hc0) as (a1 & Hc1 & Hk & Hs & Hcanc & _). simplify_eq.
    destruct (proj1 (awaited_zero w) Ha c a0 Hc0) as [H|H]; [left; auto|right]. by rewrite Hs.
  - destruct l; simpl in Hl, Hstep; try done.
    + simplify_eq. unfold fetchAbort. by destruct (aborts w !! id).
    + unfold do_returns in Hstep. by inv_step Hstep.
    + unfold body_read in Hstep. by inv_step Hstep.
    + unfold body_stops in Hstep. by inv_step Hstep.
    + unfold readAll_claims in Hstep. by inv_step Hstep.
    + unfold readAll_reads in Hstep. by inv_step Hstep.
    + unfold readAll_ends in Hstep. inv_step Hstep.
      all: match goal with |- open (finish ?st ?x) = _ => pose proof (finish_open st x) end; set_solver.
    + simplify_eq. pose proof (finish_open st w). set_solver.
    + apply fetch_run_post_inv in Hstep as [(c & ps & Hps & ->)|(c & ps & a & r & Hps & Hc & Hat & ->)]; [done|].
      destruct (proj1 (awaited_zero w) Ha c a Hc) as [Hcanc|H]; [|congruence]. rewrite Hcanc.
      pose proof (settle_cancelled_open c (kind a) r g (settled c a ps w)) as Hsub. simpl in *. rewrite Ho in Hsub. set_solver.
    + simplify_eq. by apply closeOpenStreams_open.
Qed.

Lemma steps_invariant (P : world → Prop) (Q : label → Prop) ls w w' :
  (∀ l w w', Q l → step l w = Some w' → P w → P w') → Forall Q ls → steps ls w = Some w' → P w → P w'.
Proof.
  intros Hstep Hls. revert w. induction Hls as [|l ls Hl _ IH]; intros w Hs Hp; simpl in Hs; [by simplify_eq|].
  destruct (step l w) as [w1|] eqn:He; [|done]. simpl in Hs. eapply IH; [exact Hs|]. by eapply Hstep.
Qed.

(** A promise of fetch is settled at most once, and its functions are
    released exactly when it is; the promise's own handle is released after that,
    at most once. A call cancelled at the boundary between two requests never
    settles its promise. The loop's count of pending operations is that of the
    calls that are neither settled nor cancelled, up to the calls abandoned or
    cancelled at a boundary. *)
Theorem fetch_settles_once (w : world) (Hr : reach w) :
  pending w = Z.of_nat (awaited w) + skew w ∧
  ∀ c a, calls w !! c = Some a →
    occ c (settles (log w)) = (if is_settled (Some a) && negb (cancelled a) then 1 else 0)%nat ∧
    occ c (fns_freed (log w)) = (if is_settled (Some a) then 1 else 0)%nat ∧
    (occ c (promises_freed (log w)) + occ c (freeing (posts w)) <= if is_settled (Some a) then 1 else 0)%nat ∧
    (c ∈ inflight w ↔ is_settled (Some a) = false).
Proof.
  pose proof (fetch_reach_accounted w Hr) as Hw. split; [apply (acc_pending _ Hw)|]. intros c a Hc.
  destruct (acc_ledger _ Hw c) as [H1 H2 H3 H4 H5 H6]. rewrite Hc in *. split_and!.
  - rewrite H4. by destruct (is_settled (Some a) && negb _).
  - rewrite H5. by destruct (is_settled (Some a)).
  - by destruct (is_settled (Some a)).
  - naive_solver.
Qed.

(** The boundary of a pooled instance is clean. Once the calls in flight are
    cancelled and the open bodies closed, whatever the goroutines and posted
    functions do in the drain that follows, no body is open and the loop, reset,
    waits for nothing. During the next request its count is exactly that of the
    request's own calls, however late the goroutines of the one before post, and
    no call from before is settled or counted again. *)
Theorem fetch_boundary_clean (w : world) (Hr : reach w) (ls : list label) (w1 : world)
    (Hls : Forall winds_down ls) (Hrun : steps (CancelInflight :: CloseOpenStreams :: ls) w = Some w1) :
  let w2 := loop_reset w1 in
  open w2 = ∅ ∧ pending w2 = 0 ∧ awaited w2 = 0%nat ∧
  ∀ ls' w3, Forall within ls' → steps ls' w2 = Some w3 →
    pending w3 = Z.of_nat (awaited w3) ∧
    ∀ c, is_Some (calls w !! c) → occ c (settles (log w3)) = occ c (settles (log w2)).
Proof.
  intros w2. pose proof (fetch_reach_accounted w Hr) as Hw. pose proof (reach_bodies w Hr) as Hb.
  simpl in Hrun.
  assert (quiesced (closeOpenStreams (cancelInflight w))) as Hq0.
  { pose proof (sa_closeOpenStreams (cancelInflight w)) as Hsa. split.
    - by eapply accounted_same, accounted_cancel.
    - by apply bodies_closeOpenStreams, cancelInflight_bodies.
    - unfold awaited. rewrite (sa_calls _ _ Hsa). by apply cancel_awaited.
    - by apply closeOpenStreams_open, cancelInflight_bodies. }
  assert (quiesced w1) as [Hw1 Hb1 Ha1 Ho1].
  { eapply (steps_invariant quiesced winds_down ls); [|done|exact Hrun|done]. intros ? ? ?. apply quiesced_step. }
  assert (Hw2 : accounted w2) by apply accounted_reset, Hw1.
  assert (Hdom : ∀ c, is_Some (calls w !! c) → is_Some (calls w1 !! c)).
  { intros c Hc. eapply (steps_invariant (λ w, accounted w ∧ is_Some (calls w !! c)) (λ _, True) ls); [| |exact Hrun|].
    - intros l x y _ Hs [Hx [a Ha]]. split; [by eapply step_accounted|].
      destruct (step_calls l x y Hx Hs c a Ha) as (a' & -> & _). by eexists.
    - by apply Forall_true.
    - split; [apply Hq0|]. rewrite (sa_calls _ _ (sa_closeOpenStreams _)), cancelInflight_lookup. by apply fmap_is_Some. }
  split_and!; [done|done|done|]. intros ls' w3 Hin Hs3.
  assert (accounted w3 ∧ skew w3 = 0 ∧ ∀ c a, calls w1 !! c = Some a → ∃ a', calls w3 !! c = Some a' ∧
    (at_ a = Settled → a' = a) ∧ cancelled a' = cancelled a) as (Hw3 & Hk3 & Hc3).
  { eapply (steps_invariant (λ w, accounted w ∧ skew w = 0 ∧ ∀ c a, calls w1 !! c = Some a → ∃ a', calls w !! c = Some a' ∧
      (at_ a = Settled → a' = a) ∧ cancelled a' = cancelled a) within ls'); [|done|exact Hs3|].
    - intros l x y [Hl1 Hl2] Hs (Hx & Hk & Hc). split_and!; [by eapply step_accounted|by rewrite (step_skew l x y)|].
      intros c a Ha. destruct (Hc c a Ha) as (a1 & Ha1' & Hset & Hcanc).
      destruct (step_calls l x y Hx Hs c a1 Ha1') as (a2 & Ha2 & _ & Hset2 & _ & Hcanc2).
      exists a2. split_and!; [done| |by rewrite Hcanc2]. intros Hat. rewrite Hset2; [by apply Hset|]. by rewrite (Hset Hat).
    - split_and!; [done|simpl; unfold awaited in *; simpl; lia|]. intros c a Ha. by exists a. }
  split; [rewrite (acc_pending _ Hw3); lia|]. intros c Hc. destruct (Hdom c Hc) as [a Ha].
  destruct (Hc3 c a Ha) as (a' & Ha' & Hset & Hcanc).
  rewrite (l_settles _ _ _ (acc_ledger _ Hw3 c)), (l_settles _ _ _ (acc_ledger _ Hw2 c)). simpl. rewrite Ha, Ha'. simpl.
  destruct (proj1 (awaited_zero w1) Ha1 c a Ha) as [Hx|Hx].
  - rewrite Hcanc, Hx. by rewrite !andb_false_r.
  - by rewrite (Hset Hx).
Qed.

(** ** A run *)

(** A response of five bytes is streamed in two chunks up to its end; text() is
    called on it in between, and refused. A second response is read whole, and a
    third call is cancelled at the boundary. *)
Definition demo : list label :=
  [Fetch [] true; DoReturns 1 (Response [1; 2; 3; 4; 5] false); RunPost Fine; RunPost Fine;
   PullCall 1 70 true; BodyRead 2 3; RunPost Fine; RunPost Fine;
   Consume 1 true; Claims 3; RunPost Fine; RunPost Fine;
   PullCall 1 71 true; BodyRead 4 2; RunPost Fine; RunPost Fine;
   Fetch (lit "f1") true; DoReturns 5 (Response [6; 7] false); RunPost Fine; RunPost Fine;
   Consume 5 true; Claims 6; Reads 6 2; Ends 6 false; RunPost Fine; RunPost Fine;
   PullCall 1 72 true; BodyStops 7 AtEOF].

Definition demo_drain : list label := [DoReturns 8 (DoFailed false); RunPost Fine; RunPost Fine; RunPost Fine; RunPost Fine].

Definition demo_world : world := default installFetch (steps demo installFetch).

(** Whether no pull of the stream is unsettled. *)
Definition pulled (st : Z) (w : world) : bool :=
  forallb (λ e, match kind e.2 with
                | Pull st' _ => negb (st' =? st) || is_settled (Some e.2)
                | _ => true end) (map_to_list (calls w)).

Lemma pulled_polite st ctrl d w : pulled st w = true → polite (PullCall st ctrl d) w.
Proof.
  unfold pulled. rewrite forallb_forall. intros Hall c a ct Hc Hk.
  specialize (Hall (c, a)). rewrite <-list_elem_of_In, elem_of_map_to_list in Hall. specialize (Hall Hc). simpl in Hall.
  rewrite Hk, Z.eqb_refl in Hall. simpl in Hall. by destruct (at_ a).
Qed.

(** A run whose pulls are checked. *)
Fixpoint checked (ls : list label) (w : world) : option world :=
  match ls with
  | [] => Some w
  | l :: ls' =>
      if match l with PullCall st _ _ => pulled st w | _ => true end
      then w' ← step l w; checked ls' w' else None
  end.

Lemma reach_checked ls w w' : checked ls w = Some w' → reach w → reach w'.
Proof.
  revert w. induction ls as [|l ls IH]; intros w Hs Hr; simpl in Hs; [by simplify_eq|].
  destruct (match l with PullCall _ _ _ => _ | _ => _ end) eqn:Hp; [|done].
  destruct (step l w) as [w1|] eqn:He; [|done]. simpl in Hs. eapply IH; [exact Hs|]. eapply reach_step; [done| |exact He].
  destruct l; try done. by apply pulled_polite.
Qed.

Lemma fetch_demo_reach : reach demo_world.
Proof. apply (reach_checked demo installFetch); [vm_compute; reflexivity|constructor]. Qed.

Lemma fetch_body_exact_witness :
  ∃ s, streams demo_world !! 1 = Some s ∧ whole s = concat (enqueued s) ∧ enqueued s = [[1; 2; 3]; [4; 5]].
Proof.
  eexists. split; [vm_compute; reflexivity|]. split; [|reflexivity].
  apply (fetch_body_exact demo_world fetch_demo_reach 1) with (c := 7) (a := MkCall (Pull 1 72) false (Posted AtEOF)) (ctrl := 72);
    vm_compute; reflexivity.
Defined.

Lemma fetch_settles_once_witness :
  reach demo_world ∧ occ 6 (settles (log demo_world)) = 1%nat ∧ pending demo_world = 1.
Proof.
  split; [exact fetch_demo_reach|]. destruct (fetch_settles_once demo_world fetch_demo_reach) as [Hp Hc].
  split; [|rewrite Hp; vm_compute; reflexivity].
  rewrite (proj1 (Hc 6 (MkCall (Buffered 5) false Settled) ltac:(vm_compute; reflexivity))). reflexivity.
Defined.

Definition demo_boundary : world :=
  default installFetch (steps (CancelInflight :: CloseOpenStreams :: demo_drain) (fetch [] true demo_world)).

Lemma demo_next_reach : reach (fetch [] true demo_world).
Proof. apply (reach_step demo_world (Fetch [] true)); [exact fetch_demo_reach|exact I|reflexivity]. Qed.

Lemma fetch_boundary_clean_witness : open (loop_reset demo_boundary) = ∅ ∧ pending (loop_reset demo_boundary) = 0.
Proof.
  destruct (fetch_boundary_clean (fetch [] true demo_world) demo_next_reach demo_drain demo_boundary) as (H1 & H2 & _).
  - repeat constructor.
  - vm_compute. reflexivity.
  - split; assumption.
Defined.
