(* ===== verification/Web.v ===== *)
(** compat/web/web.go: the operations behind the timer, console and random
    globals, the report of unhandled rejections, and what happens to an
    installation between two requests of a pooled instance. The event loop is
    that of EventLoop.v, fetch that of Fetch.v. *)

From S2P Require Import Prelude Counting EventLoop Fetch.

(** ** Unhandled rejections *)

(** A guest value: the handle of an object, or a primitive. *)
Abbreviation value := (option Z).

Record Rejection := MkRejection { Reason : value; Promise : value }.

(** js.Global().Get of the hook: an error, a value that is no object, an object
    that is no function, or a function. *)
Inductive hookVal := GetFails | NoObject | NoFunction (h : Z) | Function (h : Z).

Inductive event := Freed (h : Z) | Called (r : Rejection).

Definition freeValue (v : value) : list event := match v with Some h => [Freed h] | None => [] end.

Definition freeRejections (rs : list Rejection) : list event :=
  flat_map (λ r, freeValue (Reason r) ++ freeValue (Promise r)) rs.

(** The loop over the rejections; [throws] says whether the hook's call fails
    for the i-th, [err] is the first error so far. *)
Fixpoint report_loop (throws : nat → bool) (i : nat) (rs : list Rejection) (err : option nat) : list event * option nat :=
  match rs with
  | [] => ([], err)
  | r :: rs' =>
      let err' := match err with Some _ => err | None => if throws i then Some i else None end in
      let '(es, e) := report_loop throws (S i) rs' err' in
      (Called r :: freeValue (Reason r) ++ freeValue (Promise r) ++ es, e)
  end.

(** The second part says whether there were any; an error is the engine's
    ([inl]) or that of the i-th call. *)
Definition reportRejections (taken : option (list Rejection)) (hook : hookVal) (throws : nat → bool) :
    list event * bool * option (unit + nat) :=
  match taken with
  | None => ([], false, Some (inl tt))
  | Some [] => ([], false, None)
  | Some rs =>
      match hook with
      | GetFails => (freeRejections rs, false, Some (inl tt))
      | NoObject | NoFunction _ => (freeRejections rs, false, None)
      | Function h =>
          let '(es, e) := report_loop throws 0 rs None in (es ++ [Freed h], true, inr <$> e)
      end
  end.

Definition freed (es : list event) : list Z := omap (λ e, match e with Freed h => Some h | Called _ => None end) es.
Definition called (es : list event) : list Rejection := omap (λ e, match e with Called r => Some r | Freed _ => None end) es.

Lemma freed_value v : freed (freeValue v) = option_list v.
Proof. by destruct v. Qed.

Lemma called_value v : called (freeValue v) = [].
Proof. by destruct v. Qed.

Definition handles (rs : list Rejection) : list Z := flat_map (λ r, option_list (Reason r) ++ option_list (Promise r)) rs.

Lemma freeRejections_frees rs : freed (freeRejections rs) = handles rs.
Proof.
  induction rs as [|r rs IH]; [done|]. unfold freeRejections, handles, freed in *. simpl.
  rewrite !omap_app, IH. pose proof freed_value as Hf. unfold freed in Hf. by rewrite !Hf.
Qed.

Lemma report_loop_spec throws i rs err :
  let r := report_loop throws i rs err in
  freed r.1 = handles rs ∧ called r.1 = rs ∧
  (r.2 = None ↔ err = None ∧ ∀ k, (k < length rs)%nat → throws (i + k)%nat = false).
Proof.
  revert i err. induction rs as [|r rs IH]; intros i err; simpl.
  { split_and!; [done|done|]. split; [intros ->; split; [done|intros; lia]|by intros [-> _]]. }
  set (err' := match err with Some _ => err | None => if throws i then Some i else None end).
  destruct (IH (S i) err') as (H1 & H2 & H3). destruct (report_loop throws (S i) rs err') as [es e]. simpl in *.
  pose proof freed_value as Hf. pose proof called_value as Hc. unfold freed, called, handles in *.
  rewrite !omap_app, !Hf, !Hc, H1, H2. split_and!; [by rewrite <-app_assoc|done|]. rewrite H3. subst err'. split.
  - intros [He Hk]. destruct err as [n|]; [done|]. destruct (throws i) eqn:Ht; [done|]. split; [done|].
    intros [|k] Hlt; [by rewrite Nat.add_0_r|]. replace (i + S k)%nat with (S (i + k)) by lia. apply Hk. lia.
  - intros [-> Hk]. split.
    + specialize (Hk 0%nat ltac:(lia)). rewrite Nat.add_0_r in Hk. by rewrite Hk.
    + intros k Hlt. replace (S (i + k)) with (i + S k)%nat by lia. apply Hk. lia.
Qed.

(** Every handle that came with the rejections is released exactly once on every
    path; the hook, when there is one, is called for each of them in order even
    after a call failed, and released too. *)
Lemma rejections_released rs hook throws :
  let '(es, _, _) := reportRejections (Some rs) hook throws in
  freed es = handles rs ++ (match hook, rs with Function h, _ :: _ => [h] | _, _ => [] end) ∧
  called es = (match hook with Function _ => rs | _ => [] end).
Proof.
  assert (∀ rs, called (freeRejections rs) = []) as Hq.
  { intros l. induction l as [|r l IH]; [done|]. unfold freeRejections, called in *. simpl. rewrite !omap_app, IH.
    pose proof called_value as Hc. unfold called in Hc. by rewrite !Hc. }
  destruct rs as [|r rs]; [by destruct hook|]. unfold reportRejections.
  destruct hook as [| |h|h]; try (by rewrite freeRejections_frees, Hq, app_nil_r).
  destruct (report_loop_spec throws 0 (r :: rs) None) as (H1 & H2 & _). destruct (report_loop throws 0 (r :: rs) None) as [es e].
  simpl in H1, H2. unfold freed, called in *. rewrite !omap_app, H1, H2. simpl. by rewrite app_nil_r.
Qed.

(** ** Operations *)

(** opRandomBytes: [source] is crypto/rand. *)
Definition opRandomBytes (source : nat → option bytes) (arg : option Z) : option bytes :=
  match arg with
  | None => None
  | Some n => if (n <? 0) || (65536 <? n) then None else source (Z.to_nat n)
  end.

(** opTimerSet: the callback argument is a function, another object, or no
    object; [delay] is the converted duration. An object that is no function is
    released. *)
Inductive callbackArg := Callable (h : Z) | Plain (h : Z) | NotObject.

Definition opTimerSet (cb : callbackArg) (delay : Z) (repeat : bool) (now : Z) (l : EventLoop.Loop) :
    list Z * option Z * EventLoop.Loop :=
  match cb with
  | Callable h => let l := SetTimer h delay repeat now l in ([], Some (l_nextID l), l)
  | Plain h => ([h], None, l)
  | NotObject => ([], None, l)
  end.

Definition opTimerClear (id : option Z) (l : EventLoop.Loop) : EventLoop.Loop :=
  match id with Some id => ClearTimer id l | None => l end.

Definition opTimerRef (args : option (Z * bool)) (l : EventLoop.Loop) : EventLoop.Loop :=
  match args with Some (id, ref) => SetTimerRef id ref l | None => l end.

(** opConsoleWrite: the stream a line goes to, if it is there. *)
Definition opConsoleWrite {S} (stdout stderr : option S) (args : option (Z * bytes)) : option (S * bytes) :=
  match args with
  | None => None
  | Some (target, s) =>
      out ← (if negb (target =? 0) then stderr else stdout); Some (out, s ++ [ch_nl])
  end.

Lemma random_bytes_bounded source arg b :
  (∀ n b, source n = Some b → length b = n) → opRandomBytes source arg = Some b → zlen b <= 65536.
Proof.
  intros Hs. unfold opRandomBytes. destruct arg as [n|]; [|done].
  destruct (Z.ltb_spec n 0), (Z.ltb_spec 65536 n); simpl; try done. intros H1%Hs. unfold zlen. lia.
Qed.

(** ** The boundary between two requests *)

(** type Web. *)
Record Web := MkWeb { loop : EventLoop.Loop; fetch : Fetch.world }.

(** ResetPerRequest; [drain] is what the loop and the goroutines do while
    inflightCount is not zero, until the deadline. *)
Definition ResetPerRequest (drain : list Fetch.label) (s : Web) : option Web :=
  w ← Fetch.steps [Fetch.CancelInflight; Fetch.CloseOpenStreams] (fetch s);
  w ← (if (Fetch.inflightCount w =? 0)%nat then Some w else Fetch.steps drain w);
  Some (MkWeb (ClearTimers (loop s)) w).

(** The deferred function of a request: ResetPerRequest and Loop().Reset(). The
    reset first runs the jobs the engine has left, which make the loop calls
    [drained] and the fetches [jobs]. *)
Definition boundary (drain : list Fetch.label) (drained : list api) (jobs : list Fetch.label) (s : Web) : option Web :=
  s ← ResetPerRequest drain s;
  w ← Fetch.steps jobs (fetch s);
  Some (MkWeb (EventLoop.Reset drained (loop s)) (Fetch.loop_reset w)).

(** A job the engine has left over, run by the reset itself, calls fetch: the
    call is neither cancelled nor counted, and when its answer comes, during the
    next request, the loop's count goes below zero. *)
Example leftover_job_miscounts :
  (s ← boundary [] [] [Fetch.Fetch [] true] (MkWeb EventLoop.New Fetch.installFetch);
   w ← Fetch.steps [Fetch.DoReturns 1 (Fetch.DoFailed false); Fetch.RunPost Fetch.Fine] (fetch s);
   Some (Fetch.pending w, Fetch.log w)) =
  Some (-1, [Fetch.Settles 1 Fetch.VError; Fetch.FreesFns 1]).
Proof. vm_compute. reflexivity. Qed.
