(* ===== verification/Pool.v ===== *)
(** compat/cfworkers/cfworkers.go: a request on one pooled instance (Module
    Serve), and the pool that hands the instances out (Module Pool).

    Serving is a sequence of calls into the guest; what they answer, and which of
    the streaming callbacks the guest calls meanwhile, is the [script] of a
    request. The model is the state that sequence changes: the calls on the
    ResponseWriter, the sink and generation of the streaming callbacks, the
    handles taken and released, and the resets of the instance. *)

From S2P Require Import Prelude Counting FetchReq.

Module Serve.

(** A call into the guest: a value, a Go error, or a panic. *)
Inductive answer (A : Type) := Val (a : A) | Fails | Panics.
Arguments Val {A} a.
Arguments Fails {A}.
Arguments Panics {A}.

Inductive status := Pending | Ok_ | Error_.

Record responseMeta := MkMeta { m_status : Z; m_headers : list (bytes * bytes) }.

(** What is called on the http.ResponseWriter and its header. *)
Inductive act :=
| Add (k v : bytes)
| SetLength (n : Z)
| WriteHeader (status : Z)
| Write (b : bytes)
| Flush
| HttpError (status : Z).

(** type streamSink, without the writer. *)
Record streamSink := MkSink { pumpDone : bool; failed : bool }.

(** The part of type worker that requests change, with the request's effects. *)
Record world := MkWorld {
  sink : option streamSink;
  streamGen : Z;
  acts : list act;
  handles : list hevent;
  resets : nat
}.

Definition idle (gen : Z) : world := MkWorld None gen [] [] 0.

Definition emit (a : list act) (w : world) : world := MkWorld (sink w) (streamGen w) (acts w ++ a) (handles w) (resets w).
Definition note (es : list hevent) (w : world) : world := MkWorld (sink w) (streamGen w) (acts w) (handles w ++ es) (resets w).
Definition set_sink (s : option streamSink) (w : world) : world := MkWorld s (streamGen w) (acts w) (handles w) (resets w).
Definition next_gen (w : world) : world := MkWorld (sink w) (streamGen w + 1) (acts w) (handles w) (resets w).

(** ResetPerRequest and Loop().Reset() *)
Definition reset (w : world) : world := MkWorld (sink w) (streamGen w) (acts w) (handles w) (S (resets w)).

(** *** The streaming callbacks *)

(** The chunk argument of hostWrite: an object with its handle and Bytes(), or
    something else. [gone]: the writer's Write fails. *)
Inductive callback :=
| HostWrite (gen : Z) (chunk : option (Z * option bytes)) (gone : bool)
| HostDone (gen : Z)
| HostFail (gen : Z).

(** Whether a callback with generation [gen] is for the response under way. *)
Definition current (gen : Z) (w : world) : option streamSink :=
  match sink w with Some s => if gen =? streamGen w then Some s else None | None => None end.

(** *** Serving *)

(** How a stretch of the code ends: it goes on, returns, or panics; [true] is
    http.ErrAbortHandler. *)
Inductive flow (A : Type) := Next (a : A) | Return | Panic (abort : bool).
Arguments Next {A} a.
Arguments Return {A}.
Arguments Panic {A} abort.

Definition M (A : Type) : Type := world → flow A * world.

#[export] Instance M_ret : MRet M := fun A a w => (Next a, w).
#[export] Instance M_bind : MBind M := fun A B f m w =>
  let '(o, w') := m w in
  match o with Next a => f a w' | Return => (Return, w') | Panic b => (Panic b, w') end.

Definition does (f : world → world) : M unit := fun w => (Next tt, f w).

(** [fail(status, ...); return] *)
Definition fail {A} (status : Z) : M A := fun w => (Return, emit [HttpError status] w).

(** A call whose error fails the request. *)
Definition call {A} (a : answer A) : M A :=
  match a with Val v => mret v | Fails => fail 500 | Panics => fun w => (Panic false, w) end.

(** [x, _ := call]: no value on an error. *)
Definition call_or {A} (dflt : A) (a : answer A) : M A :=
  match a with Val v => mret v | Fails => mret dflt | Panics => fun w => (Panic false, w) end.

Definition defer {A} (d : world → world) (m : M A) : M A := fun w => let '(o, w') := m w in (o, d w').

Definition clamp (s : Z) : Z := if (s <? 100) || (999 <? s) then 500 else s.

Section Serve.
(** The writer is an http.Flusher. *)
Context (flusher : bool).

(** The result says whether the callback threw. *)
Definition host (c : callback) (w : world) : bool * world :=
  match c with
  | HostWrite gen chunk gone =>
      match chunk with
      | None => (true, w)
      | Some (h, b) =>
          let w := note [Got h; Freed h] w in
          match b, current gen w with
          | Some data, Some _ =>
              if gone then (true, emit [Write data] w)
              else (false, emit (Write data :: if flusher then [Flush] else []) w)
          | _, _ => (true, w)
          end
      end
  | HostDone gen =>
      (false, match current gen w with Some s => set_sink (Some (MkSink true (failed s))) w | None => w end)
  | HostFail gen =>
      (false, match current gen w with Some _ => set_sink (Some (MkSink true true)) w | None => w end)
  end.

Definition hosts (cs : list callback) (w : world) : world := foldl (λ w c, (host c w).2) w cs.

(** What the guest does during one request. *)
Record script := MkScript {
  s_body : option bytes;                     (** io.ReadAll of the limited body *)
  s_newBytes : answer Z;
  s_makeReq : answer (option Z);
  s_run : answer unit;
  s_settling : list callback;                (** while the handler settles *)
  s_settle : answer unit;                    (** RunUntil *)
  s_status : answer status;
  s_status' : answer status;
  s_errMsg : answer unit;
  s_meta : answer (option responseMeta);     (** with json.Unmarshal's result *)
  s_needsStream : answer bool;
  s_respBody : answer (option (Z * option bytes));
  s_waiting : answer Z;
  s_starting : list callback;                (** during streamBody.Call *)
  s_streamBody : answer unit;
  s_pumping : list callback;                 (** while the loop pumps *)
  s_pump : answer unit;
  s_draining : list callback;
  s_drain : answer unit
}.

(** The error of RunUntil is not looked at. *)
Definition drainWaitUntil (sc : script) : M unit :=
  does (hosts (s_draining sc)) ≫= λ _, call_or tt (s_drain sc).

Definition sink_is (f : streamSink → bool) (w : world) : bool := match sink w with Some s => f s | None => false end.

Definition add_headers (m : responseMeta) : world → world := emit (map (λ kv, Add kv.1 kv.2) (m_headers m)).

Definition mark_failed (w : world) : world :=
  set_sink (match sink w with Some s => Some (MkSink (pumpDone s) true) | None => None end) w.

(** streamBody.Call, and whether it failed. *)
Definition start_stream (sc : script) : M unit :=
  does (hosts (s_starting sc)) ≫= λ _,
  match s_streamBody sc with
  | Val _ => mret tt
  | Fails => does mark_failed
  | Panics => fun w => (Panic false, w)
  end.

(** The loop pumps until the sink is done. *)
Definition pump (sc : script) : M unit := fun w =>
  if sink_is (λ s, negb (failed s) && negb (pumpDone s)) w
  then (does (hosts (s_pumping sc)) ≫= λ _, call_or tt (s_pump sc)) w else (Next tt, w).

(** Aborting the connection is the only failure signal left. *)
Definition finish_stream (sc : script) : M unit := fun w =>
  if sink_is (λ s, negb (pumpDone s) || failed s) w then (Panic true, w) else drainWaitUntil sc w.

Definition serveStreamingBody (sc : script) (m : responseMeta) : M unit :=
  does (λ w, emit [WriteHeader (clamp (m_status m))] (add_headers m w)) ≫= λ _,
  does (λ w, set_sink (Some (MkSink false false)) (next_gen w)) ≫= λ _,
  defer (set_sink None)
    (start_stream sc ≫= λ _, pump sc ≫= λ _, finish_stream sc).

(** [h.Get(k) != ""], once the response's headers are added. *)
Definition has_header (k : bytes) (m : responseMeta) : bool :=
  match List.find (λ kv, bool_decide (CanonicalHeaderKey kv.1 = CanonicalHeaderKey k)) (m_headers m) with
  | Some (_, v) => bool_decide (v ≠ [])
  | None => false
  end.

(** The buffered response. *)
Definition serveBuffered (sc : script) (m : responseMeta) : M unit :=
  bodyV ← call (s_respBody sc);
  respBody ← match bodyV with
             | Some (h, b) =>
                 does (note [Got h; Freed h]) ≫= λ _,
                 match b with Some d => mret d | None => fail 500 end
             | None => mret []
             end;
  does (add_headers m) ≫= λ _,
  flushNow ← call_or false (match s_waiting sc with Val n => Val (0 <? n) | Fails => Fails | Panics => Panics end);
  does (emit (if flushNow && negb (has_header (lit "Content-Length") m) && negb (has_header (lit "Transfer-Encoding") m)
              then [SetLength (zlen respBody)] else [])) ≫= λ _,
  does (emit (WriteHeader (clamp (m_status m)) :: (if bool_decide (respBody ≠ []) then [Write respBody] else []) ++
              (if flushNow && flusher then [Flush] else []))) ≫= λ _,
  drainWaitUntil sc.

(** From the handler's start on. *)
Definition respond (sc : script) : M unit :=
  does (hosts (s_settling sc)) ≫= λ _,
  call (s_settle sc) ≫= λ _,
  st ← call_or Pending (s_status sc);
  match st with
  | Pending => fail 500
  | _ =>
      st ← call_or Ok_ (s_status' sc);
      match st with
      | Error_ =>
          (match s_errMsg sc with Val _ => fail 500 | Fails | Panics => fun w => (Panic false, w) end)
      | _ =>
          meta ← call (s_meta sc);
          match meta with
          | None => fail 500
          | Some m =>
              stream ← call_or false (s_needsStream sc);
              if (stream : bool) then serveStreamingBody sc m else serveBuffered sc m
          end
      end
  end.

(** The handler is called with the Request, which is then released. *)
Definition run_handler (sc : script) : M unit :=
  reqV ← call (s_makeReq sc);
  match reqV with
  | None => fail 500
  | Some h =>
      does (note [Got h]) ≫= λ _,
      match s_run sc with
      | Val _ => does (note [Freed h]) ≫= λ _, respond sc
      | Fails => does (note [Freed h]) ≫= λ _, fail 500
      | Panics => fun w => (Panic false, w)
      end
  end.

(** serve without its deferred function. *)
Definition serve_body (sc : script) : M unit :=
  match s_body sc with
  | None => fail 413
  | Some [] => run_handler sc
  | Some _ =>
      h ← call (s_newBytes sc);
      does (note [Got h]) ≫= λ _, defer (note [Freed h]) (run_handler sc)
  end.

(** serve: whether it ends in the abort panic, and the world after. *)
Definition serve (sc : script) (w : world) : bool * world :=
  let '(o, w') := serve_body sc w in
  match o with
  | Panic true => (true, reset w')
  | Panic false => (false, reset (emit [HttpError 500] w'))
  | _ => (false, reset w')
  end.

(** runNonFetch: whether an error comes back. [entry] is the call of the
    handler. *)
Definition runNonFetch (entry : answer unit) (sc : script) (w : world) : bool * world :=
  let body : M bool :=
    match entry with
    | Panics => fun w => (Panic false, w)
    | Fails => mret true
    | Val _ =>
        does (hosts (s_settling sc)) ≫= λ _,
        match s_settle sc with
        | Panics => fun w => (Panic false, w)
        | Fails => mret true
        | Val _ =>
            st ← call_or Pending (s_status sc);
            match st with
            | Pending => mret true
            | _ =>
                st ← call_or Ok_ (s_status' sc);
                match st with
                | Error_ => match s_errMsg sc with Val _ => mret true | Fails | Panics => fun w => (Panic false, w) end
                | _ => drainWaitUntil sc ≫= λ _, mret false
                end
            end
        end
    end in
  let '(o, w') := body w in
  (match o with Next b => b | Return => false | Panic _ => true end, reset w').

End Serve.

End Serve.

(** ** The pool *)

Module Pool.

(** A Close under way: the turns of its loop left, and the instances it took. *)
Record closer := MkCloser { left : nat; took : list Z }.

Inductive ending := Finished | TimedOut.

(** type Pool: the channel, the size, the instances serving a request, and the
    calls of Close. *)
Record world := MkWorld {
  workers : list Z;
  size_ : nat;
  busy : list Z;
  closers : gmap Z closer;
  ended : list (Z * ending * list Z)        (** how a Close ended, with what it took *)
}.

(** NewPool over the results of newWorker: the pool, or the instances closed
    again. *)
Fixpoint NewPool_loop (n : nat) (i : Z) (news : Z → bool) (created : list Z) : result (list Z) (list Z) :=
  match n with
  | O => Ok created
  | S n' => if news i then NewPool_loop n' (i + 1) news (created ++ [i]) else Err created
  end.

Definition NewPool (Size GOMAXPROCS : Z) (news : Z → bool) : result (list Z) world :=
  let size := Z.to_nat (if Size <=? 0 then GOMAXPROCS else Size) in
  match NewPool_loop size 0 news [] with
  | Err created => Err created
  | Ok created => Ok (MkWorld created size [] ∅ [])
  end.

Inductive label :=
| Take                          (** ServeHTTP, Scheduled or Queue receives an instance *)
| Give (i : nat)                (** its deferred send *)
| Close (id : Z)
| CloseTake (id : Z)            (** the loop of Close receives an instance and closes it *)
| CloseTimeout (id : Z)
| CloseReturn (id : Z).

Definition step (l : label) (w : world) : option world :=
  match l with
  | Take =>
      match workers w with
      | [] => None
      | i :: ws => Some (MkWorld ws (size_ w) (busy w ++ [i]) (closers w) (ended w))
      end
  | Give k =>
      i ← busy w !! k;
      Some (MkWorld (workers w ++ [i]) (size_ w) (delete k (busy w)) (closers w) (ended w))
  | Close id =>
      match closers w !! id with
      | Some _ => None
      | None =>
          if bool_decide (id ∈ (ended w).*1.*1) then None
          else Some (MkWorld (workers w) (size_ w) (busy w) (<[id := MkCloser (size_ w) []]> (closers w)) (ended w))
      end
  | CloseTake id =>
      c ← closers w !! id;
      match left c, workers w with
      | S n, i :: ws => Some (MkWorld ws (size_ w) (busy w) (<[id := MkCloser n (took c ++ [i])]> (closers w)) (ended w))
      | _, _ => None
      end
  | CloseTimeout id =>
      c ← closers w !! id;
      match left c with
      | O => None
      | S _ => Some (MkWorld (workers w) (size_ w) (busy w) (delete id (closers w)) (ended w ++ [(id, TimedOut, took c)]))
      end
  | CloseReturn id =>
      c ← closers w !! id;
      match left c with
      | O => Some (MkWorld (workers w) 0 (busy w) (delete id (closers w)) (ended w ++ [(id, Finished, took c)]))
      | S _ => None
      end
  end.

Fixpoint steps (ls : list label) (w : world) : option world :=
  match ls with [] => Some w | l :: ls' => w' ← step l w; steps ls' w' end.

End Pool.

Import Serve.

(** ** What a request leaves of the instance *)

Section ServeSpec.
Context (flusher : bool).

(** The bytes and flushes a callback causes in the response of generation
    [gen]. *)
Definition render (gen : Z) (c : callback) : list act :=
  match c with
  | HostWrite g (Some (_, Some d)) gone =>
      if g =? gen then Write d :: (if gone then [] else if flusher then [Flush] else []) else []
  | _ => []
  end.

Definition ends (gen : Z) (c : callback) : bool :=
  match c with HostDone g | HostFail g => g =? gen | HostWrite _ _ _ => false end.
Definition breaks (gen : Z) (c : callback) : bool := match c with HostFail g => g =? gen | _ => false end.

(** The handles a callback is given. *)
Definition given (c : callback) : list hevent :=
  match c with HostWrite _ (Some (h, _)) _ => [Got h; Freed h] | _ => [] end.

Lemma hosts_cons c cs w : hosts flusher (c :: cs) w = hosts flusher cs (host flusher c w).2.
Proof. done. Qed.

(** What callbacks do while a response is streamed. *)
Lemma hosts_streaming cs w s :
  sink w = Some s →
  hosts flusher cs w =
    MkWorld (Some (MkSink (pumpDone s || existsb (ends (streamGen w)) cs) (failed s || existsb (breaks (streamGen w)) cs)))
      (streamGen w) (acts w ++ flat_map (render (streamGen w)) cs) (handles w ++ flat_map given cs) (resets w).
Proof.
  revert w s. induction cs as [|c cs IH]; intros [sk gen as_ hs rs] s Hs; simpl in Hs; subst sk.
  { simpl. by rewrite !orb_false_r, !app_nil_r; destruct s. }
  rewrite hosts_cons. set (w1 := (host flusher c _).2).
  assert (∃ s1, w1 = MkWorld (Some s1) gen (as_ ++ render gen c) (hs ++ given c) rs ∧
            pumpDone s1 = pumpDone s || ends gen c ∧ failed s1 = failed s || breaks gen c) as (s1 & Hw1 & Hd & Hf).
  { subst w1. destruct c as [g [[h [d|]]|] [|]|g|g]; simpl; unfold current; simpl; try destruct (g =? gen); simpl;
      rewrite ?app_nil_r; (eexists; split; [reflexivity|]); simpl; by rewrite ?orb_true_r, ?orb_false_r. }
  rewrite Hw1, (IH _ s1) by done. simpl. rewrite Hd, Hf, !app_assoc, !orb_assoc. done.
Qed.

(** Without a sink they change nothing of the response. *)
Lemma hosts_idle cs w :
  sink w = None →
  hosts flusher cs w = MkWorld None (streamGen w) (acts w) (handles w ++ flat_map given cs) (resets w).
Proof.
  revert w. induction cs as [|c cs IH]; intros [sk gen as_ hs rs] Hs; simpl in Hs; subst sk; [simpl; by rewrite app_nil_r|].
  rewrite hosts_cons. set (w1 := (host flusher c _).2).
  assert (w1 = MkWorld None gen as_ (hs ++ given c) rs) as ->.
  { subst w1. by destruct c as [g [[h [d|]]|] gone|g|g]; simpl; rewrite ?app_nil_r. }
  rewrite IH by done. simpl. by rewrite app_assoc.
Qed.

(** ** Stale pumps *)

Definition gen_of (c : callback) : Z := match c with HostWrite g _ _ | HostDone g | HostFail g => g end.

(** A request without the callbacks of generations up to [g]. *)
Definition only_after (g : Z) (cs : list callback) : list callback := filter (λ c, g < gen_of c) cs.

Definition drop_stale (g : Z) (sc : script) : script :=
  MkScript (s_body sc) (s_newBytes sc) (s_makeReq sc) (s_run sc) (only_after g (s_settling sc)) (s_settle sc)
    (s_status sc) (s_status' sc) (s_errMsg sc) (s_meta sc) (s_needsStream sc) (s_respBody sc) (s_waiting sc)
    (only_after g (s_starting sc)) (s_streamBody sc) (only_after g (s_pumping sc)) (s_pump sc)
    (only_after g (s_draining sc)) (s_drain sc).

(** Worlds that differ at most in the handles passed through, at a time when
    every callback up to [g] is stale. *)
Record alike (g : Z) (w w' : world) : Prop := {
  al_sink : sink w' = sink w;
  al_gen : streamGen w' = streamGen w;
  al_acts : acts w' = acts w;
  al_resets : resets w' = resets w;
  al_stale : g <= streamGen w;
  al_live : is_Some (sink w) → g < streamGen w
}.

(** Two computations that keep worlds alike and end the same way. *)
Definition alike_m {A} (g : Z) (m m' : M A) : Prop :=
  ∀ w w', alike g w w' → (m w).1 = (m' w').1 ∧ alike g (m w).2 (m' w').2.

Lemma alike_ret {A} g (a : A) : alike_m g (mret a) (mret a).
Proof. intros w w' H. done. Qed.

Lemma alike_bind {A B} g (m m' : M A) (f f' : A → M B) :
  alike_m g m m' → (∀ a, alike_m g (f a) (f' a)) → alike_m g (m ≫= f) (m' ≫= f').
Proof.
  intros Hm Hf w w' H. destruct (Hm w w' H) as [Ho Hw]. unfold mbind, M_bind.
  destruct (m w) as [o x], (m' w') as [o' x']. simpl in *. subst o'. destruct o; [by apply Hf|done|done].
Qed.

Lemma alike_does g f f' : (∀ w w', alike g w w' → alike g (f w) (f' w')) → alike_m g (does f) (does f').
Proof. intros Hf w w' H. split; [done|]. by apply Hf. Qed.

Lemma alike_defer {A} g f (m m' : M A) :
  (∀ w w', alike g w w' → alike g (f w) (f w')) → alike_m g m m' → alike_m g (defer f m) (defer f m').
Proof.
  intros Hf Hm w w' H. destruct (Hm w w' H) as [Ho Hw]. unfold defer. destruct (m w), (m' w'). simpl in *. split; [done|]. by apply Hf.
Qed.

Lemma alike_emit g a w w' : alike g w w' → alike g (emit a w) (emit a w').
Proof. intros []. split; try done. simpl. by f_equal. Qed.

Lemma alike_note g a w w' : alike g w w' → alike g (note a w) (note a w').
Proof. by intros []. Qed.

Lemma alike_fail {A} g s : alike_m g (fail (A := A) s) (fail s).
Proof. intros w w' H. split; [done|]. by apply alike_emit. Qed.

Lemma alike_panic {A} g b : alike_m (A := A) g (λ w, (Panic b, w)) (λ w, (Panic b, w)).
Proof. by intros w w' H. Qed.

Lemma alike_call {A} g (a : answer A) : alike_m g (call a) (call a).
Proof. destruct a; [apply alike_ret|apply alike_fail|apply alike_panic]. Qed.

Lemma alike_call_or {A} g d (a : answer A) : alike_m g (call_or d a) (call_or d a).
Proof. destruct a; [apply alike_ret|apply alike_ret|apply alike_panic]. Qed.

Lemma only_after_cons g c cs :
  only_after g (c :: cs) = if decide (g < gen_of c) then c :: only_after g cs else only_after g cs.
Proof. done. Qed.

Lemma alike_hosts g cs : alike_m g (does (hosts flusher cs)) (does (hosts flusher (only_after g cs))).
Proof.
  apply alike_does. intros w w' [Hs Hg Ha Hr Hst Hl]. destruct (sink w) as [s|] eqn:Hsk.
  - specialize (Hl ltac:(by eexists)). rewrite (hosts_streaming cs w s), (hosts_streaming _ w' s) by done. rewrite Hg, Ha.
    assert (existsb (ends (streamGen w)) (only_after g cs) = existsb (ends (streamGen w)) cs ∧
            existsb (breaks (streamGen w)) (only_after g cs) = existsb (breaks (streamGen w)) cs ∧
            flat_map (render (streamGen w)) (only_after g cs) = flat_map (render (streamGen w)) cs) as (-> & -> & ->).
    { induction cs as [|c cs IH]; [done|]. rewrite only_after_cons. destruct IH as (IH1 & IH2 & IH3).
      case_decide as Hc; simpl; [by rewrite IH1, IH2, IH3|]. rewrite IH1, IH2, IH3.
      assert (ends (streamGen w) c = false ∧ breaks (streamGen w) c = false ∧ render (streamGen w) c = []) as (-> & -> & ->); [|done].
      destruct c as [gg [[h [d|]]|] gone|gg|gg]; simpl in *; try done; replace (gg =? streamGen w) with false by (symmetry; apply Z.eqb_neq; lia); done. }
    by split.
  - rewrite (hosts_idle cs w), (hosts_idle _ w') by done. by split; simpl; [..|intros [? ?]].
Qed.

Create HintDb serve.
#[local] Hint Resolve alike_ret alike_fail alike_panic alike_call alike_call_or alike_hosts alike_emit alike_note : serve.

Lemma alike_sink_test {A} g f (m1 m1' m2 m2' : M A) :
  alike_m g m1 m1' → alike_m g m2 m2' →
  alike_m g (λ w, if sink_is f w then m1 w else m2 w) (λ w, if sink_is f w then m1' w else m2' w).
Proof.
  intros H1 H2 w w' H. unfold sink_is. rewrite (al_sink _ _ _ H). destruct (sink w) as [s|]; [destruct (f s)|]; auto.
Qed.

Lemma alike_drain g sc : alike_m g (drainWaitUntil flusher sc) (drainWaitUntil flusher (drop_stale g sc)).
Proof. apply alike_bind; [apply alike_hosts|intros _]; apply alike_call_or. Qed.

Lemma alike_unit {A} g (m m' : M A) : alike_m g m m' → ∀ w w', alike g w w' → (m w).1 = (m' w').1 ∧ alike g (m w).2 (m' w').2.
Proof. done. Qed.

Lemma alike_stream g sc m : alike_m g (serveStreamingBody flusher sc m) (serveStreamingBody flusher (drop_stale g sc) m).
Proof.
  unfold serveStreamingBody. apply alike_bind; [|intros _].
  { apply alike_does. intros w w' H. unfold add_headers. auto with serve. }
  apply alike_bind; [|intros _].
  { apply alike_does. intros w w' [Hs Hg Ha Hr Hst Hl]. split; simpl; try done; lia. }
  apply alike_defer.
  { intros w w' [Hs Hg Ha Hr Hst Hl]. split; simpl; try done. }
  apply alike_bind; [|intros _; apply alike_bind; [|intros _]].
  - unfold start_stream. apply alike_bind; [apply alike_hosts|intros _]. simpl.
    destruct (s_streamBody sc); auto with serve. apply alike_does. intros w w' [Hs Hg Ha Hr Hst Hl].
    unfold mark_failed. rewrite Hs. split; simpl; try done. intros [? Hx]. apply Hl. destruct (sink w); [by eexists|done].
  - unfold pump. apply alike_sink_test; [|apply alike_ret]. apply alike_bind; [apply alike_hosts|intros _; apply alike_call_or].
  - unfold finish_stream. apply alike_sink_test; [apply alike_panic|apply alike_drain].
Qed.

Lemma alike_buffered g sc m : alike_m g (serveBuffered flusher sc m) (serveBuffered flusher (drop_stale g sc) m).
Proof.
  unfold serveBuffered. apply alike_bind; [apply alike_call|intros bodyV]. apply alike_bind; [|intros b].
  { destruct bodyV as [[h b]|]; [|apply alike_ret]. apply alike_bind; [apply alike_does; auto with serve|intros _].
    destruct b; auto with serve. }
  apply alike_bind; [apply alike_does; intros; by apply alike_emit|intros _].
  apply alike_bind; [apply alike_call_or|intros f].
  apply alike_bind; [apply alike_does; intros; by apply alike_emit|intros _].
  apply alike_bind; [apply alike_does; intros; by apply alike_emit|intros _]. apply alike_drain.
Qed.

Lemma alike_respond g sc : alike_m g (respond flusher sc) (respond flusher (drop_stale g sc)).
Proof.
  unfold respond. apply alike_bind; [apply alike_hosts|intros _]. apply alike_bind; [apply alike_call|intros _].
  apply alike_bind; [apply alike_call_or|intros st].
  assert (∀ st' : status, alike_m g
    match st' with
    | Error_ => match s_errMsg sc with Val _ => fail 500 | _ => λ w, (Panic false, w) end
    | _ => meta ← call (s_meta sc);
           match meta with
           | None => fail 500
           | Some m => stream ← call_or false (s_needsStream sc);
                       if (stream : bool) then serveStreamingBody flusher sc m else serveBuffered flusher sc m
           end
    end
    match st' with
    | Error_ => match s_errMsg sc with Val _ => fail 500 | _ => λ w, (Panic false, w) end
    | _ => meta ← call (s_meta sc);
           match meta with
           | None => fail 500
           | Some m => stream ← call_or false (s_needsStream sc);
                       if (stream : bool) then serveStreamingBody flusher (drop_stale g sc) m
                       else serveBuffered flusher (drop_stale g sc) m
           end
    end) as Hrest.
  { intros st'. destruct st'; [|  |destruct (s_errMsg sc); auto with serve].
    all: apply alike_bind; [apply alike_call|intros [m|]; [|apply alike_fail]].
    all: apply alike_bind; [apply alike_call_or|intros []; [apply alike_stream|apply alike_buffered]]. }
  destruct st; [apply alike_fail| |]; (apply alike_bind; [apply alike_call_or|intros st'; apply Hrest]).
Qed.

Lemma alike_serve g sc w w' :
  alike g w w' →
  (serve flusher sc w).1 = (serve flusher (drop_stale g sc) w').1 ∧
  alike g (serve flusher sc w).2 (serve flusher (drop_stale g sc) w').2.
Proof.
  assert (alike_m g (run_handler flusher sc) (run_handler flusher (drop_stale g sc))) as Hrun.
  { unfold run_handler. apply alike_bind; [apply alike_call|intros [h|]; [|apply alike_fail]].
    apply alike_bind; [apply alike_does; auto with serve|intros _].
    simpl. destruct (s_run sc); [| |apply alike_panic]; (apply alike_bind; [apply alike_does; auto with serve|intros _]);
      [apply alike_respond|apply alike_fail]. }
  assert (alike_m g (serve_body flusher sc) (serve_body flusher (drop_stale g sc))) as Hbody.
  { unfold serve_body. simpl. destruct (s_body sc) as [[|x b]|]; [done| |apply alike_fail].
    apply alike_bind; [apply alike_call|intros h]. apply alike_bind; [apply alike_does; auto with serve|intros _].
    apply alike_defer; [auto with serve|done]. }
  intros H. destruct (Hbody w w' H) as [Ho Hw]. unfold serve.
  destruct (serve_body flusher sc w) as [o x], (serve_body flusher (drop_stale g sc) w') as [o' x']. simpl in *. subst o'.
  assert (∀ x x', alike g x x' → alike g (reset x) (reset x')) as Hreset by (intros ? ? []; split; simpl; try done; by f_equal).
  destruct o as [| |[]]; simpl; (split; [done|]); apply Hreset; auto with serve.
Qed.

(** ** The shape of a response *)

Definition heads (as_ : list act) : list Z :=
  omap (λ a, match a with WriteHeader s | HttpError s => Some s | _ => None end) as_.

Definition gots (es : list hevent) : list Z := omap (λ e, match e with Got h => Some h | Freed _ => None end) es.
Definition frees (es : list hevent) : list Z := omap (λ e, match e with Freed h => Some h | Got _ => None end) es.

Definition balanced (es : list hevent) : Prop := gots es ≡ₚ frees es.

(** What a stretch of code adds: the statuses [hs] and [d] generations, handles
    in balance, and no sink where there was none. *)
Record shape (hs : list Z) (d : Z) (w w' : world) : Prop := {
  sh_heads : heads (acts w') = heads (acts w) ++ hs;
  sh_handles : ∃ es, handles w' = handles w ++ es ∧ balanced es;
  sh_resets : resets w' = resets w;
  sh_gen : streamGen w' = streamGen w + d;
  sh_sink : sink w = None → sink w' = None
}.

Lemma balanced_app es fs : balanced es → balanced fs → balanced (es ++ fs).
Proof. unfold balanced, gots, frees. rewrite !omap_app. intros -> ->. done. Qed.

Lemma render_heads gen cs : heads (flat_map (render gen) cs) = [].
Proof.
  induction cs as [|c cs IH]; [done|]. simpl. unfold heads in *. rewrite omap_app, IH, app_nil_r.
  destruct c as [g [[h [d|]]|] gone|g|g]; simpl; try done. destruct (g =? gen), gone, flusher; done.
Qed.

Lemma balanced_refl es : gots es = frees es → balanced es.
Proof. unfold balanced. by intros ->. Qed.

Lemma given_balanced cs : balanced (flat_map given cs).
Proof.
  induction cs as [|c cs IH]; [by apply balanced_refl|]. simpl. apply balanced_app; [|done].
  apply balanced_refl. by destruct c as [g [[h b]|] gone|g|g].
Qed.

Lemma shape_refl w : shape [] 0 w w.
Proof. split; try done; [by rewrite app_nil_r| |lia]. exists []. split; [by rewrite app_nil_r|by apply balanced_refl]. Qed.

Lemma shape_trans h1 h2 d1 d2 w1 w2 w3 :
  shape h1 d1 w1 w2 → shape h2 d2 w2 w3 → shape (h1 ++ h2) (d1 + d2) w1 w3.
Proof.
  intros [A1 (e1 & A2 & B1) A3 A4 A5] [C1 (e2 & C2 & B2) C3 C4 C5]. split.
  - by rewrite C1, A1, app_assoc.
  - exists (e1 ++ e2). split; [by rewrite C2, A2, app_assoc|by apply balanced_app].
  - congruence.
  - lia.
  - auto.
Qed.

Lemma shape_then h d w1 w2 w3 : shape [] 0 w1 w2 → shape h d w2 w3 → shape h d w1 w3.
Proof. intros H1 H2. pose proof (shape_trans _ _ _ _ _ _ _ H1 H2) as H. by rewrite Z.add_0_l in H. Qed.

Lemma shape_after h d w1 w2 w3 : shape h d w1 w2 → shape [] 0 w2 w3 → shape h d w1 w3.
Proof. intros H1 H2. pose proof (shape_trans _ _ _ _ _ _ _ H1 H2) as H. by rewrite Z.add_0_r, app_nil_r in H. Qed.

Lemma shape_emit as_ w : shape (heads as_) 0 w (emit as_ w).
Proof.
  split; simpl; try done; [unfold heads; by rewrite omap_app| |lia]. exists [].
  split; [by rewrite app_nil_r|by apply balanced_refl].
Qed.

Lemma shape_note es w : balanced es → shape [] 0 w (note es w).
Proof. intros Hb. split; simpl; try done; [by rewrite app_nil_r|by exists es|lia]. Qed.

Lemma shape_hosts cs w : shape [] 0 w (hosts flusher cs w).
Proof.
  destruct (sink w) as [s|] eqn:Hs.
  - rewrite (hosts_streaming cs w s) by done. split; simpl; try done; [| |lia|congruence].
    + unfold heads. rewrite omap_app. f_equal. apply render_heads.
    + eexists. split; [done|]. apply given_balanced.
  - rewrite hosts_idle by done. split; simpl; try done; [by rewrite app_nil_r| |lia].
    eexists. split; [done|]. apply given_balanced.
Qed.

Lemma shape_sink s w : sink w ≠ None → shape [] 0 w (set_sink s w).
Proof. intros Hs. split; simpl; try done; [by rewrite app_nil_r| |lia]. exists []. split; [by rewrite app_nil_r|by apply balanced_refl]. Qed.

(** Panics of the calls made once the response has begun. *)
Definition late (sc : script) : Prop := s_streamBody sc = Panics ∨ s_pump sc = Panics ∨ s_drain sc = Panics.

(** Nothing is sent, and only a late call panics. *)
Definition silent {A} (sc : script) (m : M A) : Prop := ∀ w, shape [] 0 w (m w).2 ∧
  match (m w).1 with Next _ | Panic true => True | Return => False | Panic false => late sc end.

Lemma silent_bind {A B} sc (m : M A) (f : A → M B) : silent sc m → (∀ a, silent sc (f a)) → silent sc (m ≫= f).
Proof.
  intros Hm Hf w. destruct (Hm w) as [Hs Ho]. unfold mbind, M_bind. destruct (m w) as [o w1]. simpl in *.
  destruct o as [a| |b]; [|done|by simpl; destruct b].
  destruct (Hf a w1) as [Hs' Ho']. split; [by eapply shape_then|done].
Qed.

Lemma silent_hosts sc cs : silent sc (does (hosts flusher cs)).
Proof. intros w. split; [apply shape_hosts|done]. Qed.

Lemma silent_call sc (a : answer unit) : (a = Panics → late sc) → silent sc (call_or tt a).
Proof. intros Ha w. destruct a; simpl; (split; [apply shape_refl|]); auto. Qed.

Lemma silent_drain sc : silent sc (drainWaitUntil flusher sc).
Proof. apply silent_bind; [apply silent_hosts|intros _]. apply silent_call. unfold late. auto. Qed.

Lemma silent_stream sc : silent sc (start_stream flusher sc ≫= λ _, pump flusher sc ≫= λ _, finish_stream flusher sc).
Proof.
  apply silent_bind; [|intros _; apply silent_bind; [|intros _]].
  - apply silent_bind; [apply silent_hosts|intros _]. destruct (s_streamBody sc) eqn:Hb; intros w; simpl.
    + split; [apply shape_refl|done].
    + split; [|done]. unfold mark_failed. destruct (sink w) as [s|] eqn:Hs; [apply shape_sink; by rewrite Hs|].
      replace (set_sink None w) with w by (unfold set_sink; destruct w; simpl in *; by subst). apply shape_refl.
    + split; [apply shape_refl|]. by left.
  - intros w. unfold pump. destruct (sink_is _ w); [|split; [apply shape_refl|done]].
    apply silent_bind; [apply silent_hosts|intros _]. apply silent_call. unfold late. auto.
  - intros w. unfold finish_stream. destruct (sink_is _ w); [split; [apply shape_refl|done]|]. apply silent_drain.
Qed.

(** How a request may have been answered: with one status, or, when it panicked
    before, with none. *)
Definition answered {A} (sc : script) (o : flow A) (hs : list Z) : Prop :=
  match o with
  | Next _ | Return | Panic true => ∃ s, hs = [s] ∧ 100 <= s <= 999
  | Panic false => hs = [] ∨ (late sc ∧ ∃ s, hs = [s] ∧ 100 <= s <= 999)
  end.

Definition answers {A} (sc : script) (m : M A) : Prop :=
  ∀ w, ∃ hs d, 0 <= d <= 1 ∧ shape hs d w (m w).2 ∧ answered sc (m w).1 hs.

Lemma clamp_range s : 100 <= clamp s <= 999.
Proof. unfold clamp. destruct (Z.ltb_spec s 100); simpl; [lia|]. destruct (Z.ltb_spec 999 s); lia. Qed.

(** Something silent first, that may also fail the request. *)
Lemma answers_bind {A B} sc (m : M A) (f : A → M B) :
  (∀ w, ∃ hs, shape hs 0 w (m w).2 ∧
     match (m w).1 with Next _ => hs = [] | Return => ∃ s, hs = [s] ∧ 100 <= s <= 999 | Panic b => b = false ∧ hs = [] end) →
  (∀ a, answers sc (f a)) → answers sc (m ≫= f).
Proof.
  intros Hm Hf w. destruct (Hm w) as (hs & Hs & Ho). unfold mbind, M_bind. destruct (m w) as [o w1]. simpl in *.
  destruct o as [a| |b].
  - subst hs. destruct (Hf a w1) as (hs & d & Hd & Hs' & Ho'). exists hs, d. split_and!; [lia..|by eapply shape_then|done].
  - exists hs, 0. split_and!; [lia..|done|done].
  - exists hs, 0. destruct Ho as [-> ->]. split_and!; [lia..|done|by left].
Qed.

Lemma answers_fail {A} sc s : 100 <= s <= 999 → answers sc (fail (A := A) s).
Proof. intros Hs w. exists [s], 0. split_and!; [lia..|apply (shape_emit [HttpError s])|by exists s]. Qed.

Lemma answers_panic {A} sc : answers sc (λ w, (Panic (A := A) false, w)).
Proof. intros w. exists [], 0. split_and!; [lia..|apply shape_refl|by left]. Qed.

Lemma first_does f w : shape [] 0 w (f w) →
  ∃ hs, shape hs 0 w (does f w).2 ∧
    match (does f w).1 with Next _ => hs = [] | Return => ∃ s, hs = [s] ∧ 100 <= s <= 999 | Panic b => b = false ∧ hs = [] end.
Proof. intros H. by exists []. Qed.

Lemma first_call {A} (a : answer A) w :
  ∃ hs, shape hs 0 w (call a w).2 ∧
    match (call a w).1 with Next _ => hs = [] | Return => ∃ s, hs = [s] ∧ 100 <= s <= 999 | Panic b => b = false ∧ hs = [] end.
Proof.
  destruct a; simpl; [exists []|exists [500]|exists []]; (split; [apply shape_refl || apply (shape_emit [HttpError 500])|]); try done.
  exists 500. split; [done|lia].
Qed.

Lemma first_call_or {A} d (a : answer A) w :
  ∃ hs, shape hs 0 w (call_or d a w).2 ∧
    match (call_or d a w).1 with Next _ => hs = [] | Return => ∃ s, hs = [s] ∧ 100 <= s <= 999 | Panic b => b = false ∧ hs = [] end.
Proof. exists []. by destruct a; simpl; (split; [apply shape_refl|]). Qed.

Lemma heads_added m : heads (map (λ kv : bytes * bytes, Add kv.1 kv.2) (m_headers m)) = [].
Proof. by induction (m_headers m). Qed.

Lemma shape_quiet as_ w : heads as_ = [] → shape [] 0 w (emit as_ w).
Proof. intros <-. apply shape_emit. Qed.

Lemma shape_headers m w : shape [] 0 w (add_headers m w).
Proof. rewrite <-(heads_added m). apply shape_emit. Qed.

Lemma answers_stream sc m : answers sc (serveStreamingBody flusher sc m).
Proof.
  intros w. unfold serveStreamingBody, does, mbind, M_bind, defer.
  set (w1 := set_sink (Some (MkSink false false)) (next_gen (emit [WriteHeader (clamp (m_status m))] (add_headers m w)))).
  destruct (silent_stream sc w1) as [Hs Ho]. unfold mbind, M_bind in Hs, Ho.
  destruct (let '(_, _) := start_stream flusher sc w1 in _) as [o w2]. simpl in Hs, Ho |- *.
  exists [clamp (m_status m)], 1. split_and!; [lia..| |].
  - pose proof (shape_then _ _ _ _ _ (shape_headers m w) (shape_emit [WriteHeader (clamp (m_status m))] _)) as H1.
    destruct H1 as [A1 (e1 & A2 & B1) A3 A4 A5], Hs as [C1 (e2 & C2 & B2) C3 C4 C5]. simpl in *. split; simpl; try done.
    + rewrite C1, A1. by rewrite <-app_assoc.
    + exists e2. split; [by rewrite C2|done].
    + rewrite C4. subst w1. simpl. lia.
  - destruct o as [a| |[]]; simpl in *; try done; [exists (clamp (m_status m)); split; [done|apply clamp_range]..|].
    right. split; [done|]. exists (clamp (m_status m)). split; [done|apply clamp_range].
Qed.

Lemma answers_buffered sc m : answers sc (serveBuffered flusher sc m).
Proof.
  unfold serveBuffered. apply answers_bind; [apply first_call|intros bodyV].
  apply answers_bind; [|intros b].
  { intros w. destruct bodyV as [[h b]|]; [|exists []; split; [apply shape_refl|done]].
    assert (shape [] 0 w (note [Got h; Freed h] w)) as Hn by (apply shape_note, balanced_refl; done).
    destruct b; simpl; [by exists []|]. exists [500]. split; [|by exists 500].
    eapply shape_then; [exact Hn|]. apply (shape_emit [HttpError 500]). }
  apply answers_bind; [intros w; apply first_does, shape_headers|intros _].
  apply answers_bind; [intros w; apply first_call_or|intros flush].
  apply answers_bind; [intros w; apply first_does|intros _].
  { apply shape_quiet. by destruct (flush && _ && _). }
  intros w. unfold does, mbind, M_bind.
  set (w1 := emit _ w). destruct (silent_drain sc w1) as [Hs Ho].
  exists [clamp (m_status m)], 0. split_and!; [lia..| |].
  - eapply shape_after; [|exact Hs]. subst w1.
    match goal with |- shape _ _ _ (emit ?l _) => assert (heads l = [clamp (m_status m)]) as <- end; [|apply shape_emit].
    unfold heads. simpl. by destruct (bool_decide (b ≠ [])), (flush && flusher).
  - pose proof (clamp_range (m_status m)).
    destruct ((drainWaitUntil flusher sc w1).1) as [a| |[]]; simpl in *; try done; eauto.
Qed.

Lemma answers_respond sc : answers sc (respond flusher sc).
Proof.
  unfold respond. apply answers_bind; [intros w; apply first_does, shape_hosts|intros _].
  apply answers_bind; [intros w; apply first_call|intros _].
  apply answers_bind; [intros w; apply first_call_or|intros st].
  assert (∀ st', answers sc match st' with
    | Error_ => match s_errMsg sc with Val _ => fail 500 | _ => λ w, (Panic (A := unit) false, w) end
    | _ => meta ← call (s_meta sc);
           match meta with
           | None => fail 500
           | Some m => stream ← call_or false (s_needsStream sc);
                       if (stream : bool) then serveStreamingBody flusher sc m else serveBuffered flusher sc m
           end
    end) as Hrest.
  { intros st'. destruct st'; [| |destruct (s_errMsg sc); [by apply answers_fail|apply answers_panic..]].
    all: apply answers_bind; [intros w; apply first_call|intros [m|]; [|by apply answers_fail]].
    all: apply answers_bind; [intros w; apply first_call_or|intros []; [apply answers_stream|apply answers_buffered]]. }
  destruct st; [by apply answers_fail| |]; (apply answers_bind; [intros w; apply first_call_or|intros st'; apply Hrest]).
Qed.

Lemma answers_run sc : s_run sc ≠ Panics → answers sc (run_handler flusher sc).
Proof.
  intros Hrun. unfold run_handler. apply answers_bind; [intros w; apply first_call|intros [h|]; [|by apply answers_fail]].
  intros w. unfold does, mbind, M_bind. destruct (s_run sc) as [u| |]; [| |done].
  - destruct (answers_respond sc (note [Freed h] (note [Got h] w))) as (hs & d & Hd & Hs & Ho).
    exists hs, d. split_and!; [lia..| |done]. eapply shape_then; [|exact Hs].
    assert (note [Freed h] (note [Got h] w) = note [Got h; Freed h] w) as -> by (unfold note; simpl; by rewrite <-app_assoc).
    apply shape_note. by apply balanced_refl.
  - destruct (answers_fail (A := unit) sc 500 ltac:(lia) (note [Freed h] (note [Got h] w))) as (hs & d & Hd & Hs & Ho).
    exists hs, d. split_and!; [lia..| |done]. eapply shape_then; [|exact Hs].
    assert (note [Freed h] (note [Got h] w) = note [Got h; Freed h] w) as -> by (unfold note; simpl; by rewrite <-app_assoc).
    apply shape_note. by apply balanced_refl.
Qed.

Lemma answers_body sc : s_run sc ≠ Panics → answers sc (serve_body flusher sc).
Proof.
  intros Hrun. unfold serve_body. destruct (s_body sc) as [[|x b]|]; [by apply answers_run| |by apply answers_fail].
  apply answers_bind; [intros w; apply first_call|intros h]. intros w. unfold does, defer, mbind, M_bind.
  destruct (answers_run sc Hrun (note [Got h] w)) as (hs & d & Hd & [A1 (es & A2 & B2) A3 A4 A5] & Ho).
  destruct (run_handler flusher sc (note [Got h] w)) as [o w1]. simpl in *.
  exists hs, d. split_and!; [lia..| |done]. split; simpl; try done.
  exists ([Got h] ++ es ++ [Freed h]). split; [by rewrite A2, <-!app_assoc|].
  unfold balanced, gots, frees in *. rewrite !omap_app. simpl. rewrite app_nil_r, B2. apply Permutation_cons_append.
Qed.

End ServeSpec.

(** A request on a pooled instance is answered with exactly one status, one
    that net/http accepts, whatever the guest's calls answer and whichever
    streaming callbacks it makes; only when a call panics after the response has
    begun does a second one follow, which net/http ignores. On every path the
    instance is reset exactly once, no sink is left behind, and every handle the
    request took is released, unless the call of the handler itself panics. *)
Theorem serve_one_response (flusher : bool) (sc : script) (gen : Z) (Hrun : s_run sc ≠ Panics) :
  let w' := (serve flusher sc (idle gen)).2 in
  (∃ s, 100 <= s <= 999 ∧
     (heads (acts w') = [s] ∨ (late sc ∧ heads (acts w') = [s; 500] ∧ (serve flusher sc (idle gen)).1 = false))) ∧
  resets w' = 1%nat ∧ sink w' = None ∧ balanced (handles w') ∧ gen <= streamGen w' <= gen + 1.
Proof.
  unfold serve. destruct (answers_body flusher sc Hrun (idle gen)) as (hs & d & Hd & [A1 (es & A2 & B2) A3 A4 A5] & Ho).
  destruct (serve_body flusher sc (idle gen)) as [o w1]. simpl in *.
  assert (balanced (handles w1)) as Hbal by (by rewrite A2).
  specialize (A5 eq_refl).
  destruct o as [a| |[]]; simpl in *.
  1, 2, 3: destruct Ho as (s & -> & Hs); (split_and!; [exists s; split; [done|by left]|by rewrite A3|done|done|lia..]).
  assert (heads (acts w1 ++ [HttpError 500]) = hs ++ [500]) as He by (unfold heads in *; by rewrite omap_app, A1).
  split_and!; [|by rewrite A3|done|done|lia..]. rewrite He. destruct Ho as [->|(Hl & s & -> & Hs)].
  - exists 500. split; [lia|by left].
  - exists s. split; [done|right]. done.
Qed.

(** A pump left over from an earlier request cannot reach a later response:
    the callbacks made with the generation of an earlier response change neither
    what is sent, nor whether the connection is aborted, nor the generation and
    sink of the instance. *)
Theorem stale_pump_ignored (flusher : bool) (sc : script) (gen : Z) :
  let with_ := serve flusher sc (idle gen) in
  let without := serve flusher (drop_stale gen sc) (idle gen) in
  with_.1 = without.1 ∧ acts with_.2 = acts without.2 ∧ sink with_.2 = sink without.2 ∧
  streamGen with_.2 = streamGen without.2.
Proof.
  intros with_ without.
  assert (alike gen (idle gen) (idle gen)) as H by (split; simpl; try done).
  destruct (alike_serve flusher gen sc _ _ H) as [H1 [H2 H3 H4 H5 H6 H7]]. split_and!; done.
Qed.

(** ** What a response delivers *)

(** The handler settled with a response of meta [m]. *)
Record replied (sc : script) (m : responseMeta) : Prop := {
  r_body : ∃ b, s_body sc = Some b ∧ (b = [] ∨ ∃ h, s_newBytes sc = Val h);
  r_req : ∃ h, s_makeReq sc = Val (Some h);
  r_run : ∃ u, s_run sc = Val u;
  r_settle : ∃ u, s_settle sc = Val u;
  r_status : s_status sc = Val Ok_ ∧ s_status' sc = Val Ok_;
  r_meta : s_meta sc = Val (Some m)
}.

Definition wants_stream (sc : script) : bool := match s_needsStream sc with Val b => b | _ => false end.
Definition refused_stream (sc : script) : bool := match s_streamBody sc with Fails => true | _ => false end.

(** The callbacks up to the end of the stream: the loop only pumps when the
    stream has neither ended nor failed at once. *)
Definition pumped (g : Z) (sc : script) : list callback :=
  s_starting sc ++ if refused_stream sc || existsb (ends g) (s_starting sc) then [] else s_pumping sc.

(** The stream came to its end. *)
Definition completed (g : Z) (sc : script) : bool :=
  negb (refused_stream sc) && existsb (ends g) (pumped g sc) && negb (existsb (breaks g) (pumped g sc)).

Lemma breaks_ends g cs : existsb (breaks g) cs = true → existsb (ends g) cs = true.
Proof.
  rewrite !existsb_exists. intros (c & Hc & Hb). exists c. split; [done|]. by destruct c.
Qed.

(** The calls on the writer before any body. *)
Definition headed (m : responseMeta) : list act :=
  map (λ kv : bytes * bytes, Add kv.1 kv.2) (m_headers m) ++ [WriteHeader (clamp (m_status m))].

(** waitUntil work is pending. *)
Definition pending_work (sc : script) : bool := match s_waiting sc with Val n => 0 <? n | _ => false end.

Section Delivers.
Context (flusher : bool) (sc : script) (m : responseMeta).
Context (Hrep : replied sc m) (Hlate : ¬ late sc).

Lemma not_late : (∃ u, s_pump sc = Val u) ∨ s_pump sc = Fails.
Proof. destruct (s_pump sc) eqn:H; eauto. destruct Hlate. right. by left. Qed.

Lemma drain_runs w :
  (drainWaitUntil flusher sc w).1 = Next tt ∧ (drainWaitUntil flusher sc w).2 = hosts flusher (s_draining sc) w.
Proof.
  unfold drainWaitUntil, does, mbind, M_bind. simpl.
  destruct (s_drain sc) as [[]| |] eqn:H; [done|done|]. destruct Hlate. right. by right.
Qed.

(** The way to the response. *)
Lemma run_replied w :
  sink w = None →
  ∃ w1, run_handler flusher sc w = (if wants_stream sc then serveStreamingBody flusher sc m w1 else
                                    match s_needsStream sc with Panics => (Panic false, w1) | _ => serveBuffered flusher sc m w1 end) ∧
    sink w1 = None ∧ streamGen w1 = streamGen w ∧ acts w1 = acts w.
Proof.
  intros Hs. destruct Hrep as [_ [h Hreq] [[] Hrun] [[] Hset] [Hst Hst'] Hm].
  set (w0 := note [Freed h] (note [Got h] w)).
  exists (hosts flusher (s_settling sc) w0). rewrite (hosts_idle flusher _ w0) by done. split; [|done].
  unfold run_handler, respond, does. rewrite Hreq, Hrun, Hset, Hst, Hst', Hm. unfold mbind, M_bind, call, call_or, mret, M_ret. simpl.
  fold w0. rewrite (hosts_idle flusher _ w0) by done. unfold wants_stream. by destruct (s_needsStream sc) as [[]| |].
Qed.

(** The stream before its end is looked at. *)
Lemma stream_pumps g as_ hs rs :
  ∃ hs', (start_stream flusher sc ≫= λ _, pump flusher sc) (MkWorld (Some (MkSink false false)) g as_ hs rs) =
    (Next tt, MkWorld (Some (MkSink (existsb (ends g) (pumped g sc)) (refused_stream sc || existsb (breaks g) (pumped g sc))))
       g (as_ ++ flat_map (render flusher g) (pumped g sc)) hs' rs).
Proof.
  unfold start_stream, pumped, refused_stream, does, mbind, M_bind. simpl.
  rewrite (hosts_streaming flusher _ _ (MkSink false false)) by done. simpl.
  assert (existsb (breaks g) (s_starting sc) = true → existsb (ends g) (s_starting sc) = true) as Hbe by apply breaks_ends.
  destruct (s_streamBody sc) as [u| |] eqn:Hb; [| |by destruct Hlate; left]; unfold pump, mark_failed, sink_is; simpl.
  - destruct (existsb (ends g) (s_starting sc)) eqn:He; simpl.
    + rewrite andb_false_r, app_nil_r, He. eexists. done.
    + destruct (existsb (breaks g) (s_starting sc)) eqn:Hf; [by specialize (Hbe eq_refl)|]. simpl.
      unfold does, mbind, M_bind. simpl. rewrite (hosts_streaming flusher _ _ (MkSink false false)) by done. simpl.
      rewrite !existsb_app, He, Hf, flat_map_app, app_assoc. simpl. eexists.
      by destruct not_late as [[[] ->] | ->].
  - rewrite app_nil_r. eexists. done.
Qed.

Lemma stream_delivers w :
  sink w = None → acts w = [] →
  let g := streamGen w + 1 in
  let r := serveStreamingBody flusher sc m w in
  let cs := pumped g sc ++ if completed g sc then s_draining sc else [] in
  r.1 = (if completed g sc then Next tt else Panic true) ∧
  acts r.2 = headed m ++ flat_map (render flusher g) cs.
Proof.
  intros Hs Ha g r cs.
  set (pre := headed m).
  destruct (stream_pumps g pre (handles w) (resets w)) as [hs' Hp].
  assert (r = defer (set_sink None) (finish_stream flusher sc)
    (MkWorld (Some (MkSink (existsb (ends g) (pumped g sc)) (refused_stream sc || existsb (breaks g) (pumped g sc))))
       g (pre ++ flat_map (render flusher g) (pumped g sc)) hs' (resets w))) as ->.
  { unfold r, serveStreamingBody, does, defer, mbind, M_bind in *. simpl in *.
    unfold set_sink, next_gen, emit, add_headers, emit. simpl. rewrite !Ha. simpl. fold g. fold (headed m). fold pre.
    clear r. destruct (start_stream flusher sc _) as [o x]. destruct o as [[]| |]; [|discriminate Hp..]. by rewrite Hp. }
  unfold defer, finish_stream, sink_is, cs, completed. simpl. rewrite flat_map_app.
  destruct (refused_stream sc), (existsb (ends g) (pumped g sc)) eqn:He, (existsb (breaks g) (pumped g sc)) eqn:Hbr; simpl;
    rewrite ?app_nil_r; try done.
  destruct (drain_runs (MkWorld (Some (MkSink true false)) g (pre ++ flat_map (render flusher g) (pumped g sc)) hs' (resets w))) as [D1 D2].
  destruct (drainWaitUntil flusher sc _) as [o x]. simpl in *. subst o x.
  rewrite (hosts_streaming flusher _ _ (MkSink true false)) by done. simpl. by rewrite <-app_assoc.
Qed.

(** The calls on the writer for a buffered body [b]. *)
Definition buffered_acts (b : bytes) : list act :=
  let p := pending_work sc in
  map (λ kv : bytes * bytes, Add kv.1 kv.2) (m_headers m) ++
  (if p && negb (has_header (lit "Content-Length") m) && negb (has_header (lit "Transfer-Encoding") m) then [SetLength (zlen b)] else []) ++
  WriteHeader (clamp (m_status m)) :: (if bool_decide (b ≠ []) then [Write b] else []) ++ (if p && flusher then [Flush] else []).

Lemma buffered_delivers w bv b :
  sink w = None → acts w = [] → s_respBody sc = Val bv → match bv with Some (_, d) => d = Some b | None => b = [] end →
  s_waiting sc ≠ Panics →
  let r := serveBuffered flusher sc m w in
  r.1 = Next tt ∧ acts r.2 = buffered_acts b.
Proof.
  intros Hs Ha Hbv Hb Hw r.
  assert (∃ w1, sink w1 = None ∧ acts w1 = buffered_acts b ∧ r = drainWaitUntil flusher sc w1) as (w1 & Hs1 & Ha1 & ->).
  { unfold r, serveBuffered, does, mbind, M_bind, call, call_or, mret, M_ret. rewrite Hbv. unfold buffered_acts, pending_work.
    destruct bv as [[h d]|]; simpl; subst; simpl; destruct (s_waiting sc) as [n| |]; try done;
      (eexists; split; [|split; [|reflexivity]]; [done|]); simpl; rewrite Ha; simpl; by rewrite <- ?app_assoc. }
  destruct (drain_runs w1) as [-> ->]. split; [done|]. by rewrite hosts_idle.
Qed.

End Delivers.

(** C27: What a pooled worker's request does to its ResponseWriter is what the
    worker responded. The worker's headers are added in order and one status is
    set, the worker's, clamped. A buffered body is then written whole in one
    Write, with its length declared and a flush when waitUntil work is pending.
    Of a stream, exactly the chunks that the pump of this very response hands
    over are written, in order, each flushed when its Write succeeds; and the
    request ends in net/http's abort exactly when the stream could not be
    started, or its pump has reported a failure, or never its end, so that such
    a body never looks complete. What net/http then lets through (a client that
    is gone, a length the worker declared itself) it tells by the errors of
    Write, which are inputs here. *)
Theorem serve_delivers (flusher : bool) (sc : script) (m : responseMeta) (gen : Z)
    (Hrep : replied sc m) (Hlate : ¬ late sc) :
  let r := serve flusher sc (idle gen) in
  (wants_stream sc = true →
     let g := gen + 1 in
     let cs := pumped g sc ++ if completed g sc then s_draining sc else [] in
     r.1 = negb (completed g sc) ∧ acts r.2 = headed m ++ flat_map (render flusher g) cs) ∧
  (∀ bv b, wants_stream sc = false → s_needsStream sc ≠ Panics → s_waiting sc ≠ Panics →
     s_respBody sc = Val bv → match bv with Some (_, d) => d = Some b | None => b = [] end →
     r.1 = false ∧ acts r.2 = buffered_acts flusher sc m b).
Proof.
  intros r.
  assert (∃ w0 w1 w2, sink w1 = None ∧ streamGen w1 = gen ∧ acts w1 = [] ∧ acts w0 = acts w2 ∧
    (∃ o, r = (match o with Panic true => true | _ => false end,
               reset match o with Panic false => emit [HttpError 500] w0 | _ => w0 end) ∧
    (o, w2) = (if wants_stream sc then serveStreamingBody flusher sc m w1 else
       match s_needsStream sc with Panics => (Panic false, w1) | _ => serveBuffered flusher sc m w1 end)))
    as (w0 & w1 & w2 & Hs1 & Hg1 & Ha1 & Ha0 & o & Hr & Ho).
  { destruct (r_body _ _ Hrep) as (b & Hb & Hn). unfold r, serve, serve_body. rewrite Hb.
    destruct b as [|c b].
    - destruct (run_replied flusher sc m Hrep (idle gen) eq_refl) as (w1 & -> & H1 & H2 & H3).
      destruct (if wants_stream sc then _ else _) as [o w2] eqn:He. exists w2, w1, w2. split_and!; try done.
      exists o. split; [by destruct o as [| |[]]|done].
    - destruct Hn as [|[h Hh]]; [done|]. rewrite Hh. unfold does, defer, mbind, M_bind, call, mret, M_ret.
      destruct (run_replied flusher sc m Hrep (note [Got h] (idle gen)) eq_refl) as (w1 & -> & H1 & H2 & H3).
      destruct (if wants_stream sc then _ else _) as [o w2] eqn:He. exists (note [Freed h] w2), w1, w2. split_and!; try done.
      exists o. split; [by destruct o as [| |[]]|done]. }
  split.
  - intros Hst g cs. rewrite Hst in Ho. destruct (stream_delivers flusher sc m Hlate w1 Hs1 Ha1) as [H1 H2].
    rewrite Hg1 in H1, H2. rewrite <-Ho in H1, H2. simpl in H1, H2. fold g in H1, H2. fold cs in H2.
    rewrite Hr. subst o. destruct (completed g sc); simpl; by rewrite Ha0.
  - intros bv b Hst Hns Hwa Hbv Hb. rewrite Hst in Ho.
    destruct (buffered_delivers flusher sc m Hlate w1 bv b Hs1 Ha1 Hbv Hb Hwa) as [H1 H2].
    assert ((o, w2) = serveBuffered flusher sc m w1) as Ho' by (by destruct (s_needsStream sc)).
    rewrite <-Ho' in H1, H2. simpl in H1, H2. subst o. rewrite Hr. simpl. by rewrite Ha0.
Qed.

(** ** The pool *)

Import Pool.

(** How often an instance is in the hands of a Close, under way or ended. *)
Definition held (h : Z) (w : Pool.world) : nat :=
  map_sum (λ c, occ h (took c)) (closers w) + sum_list_with (λ e : Z * ending * list Z, occ h e.2) (ended w).

Record pooled (all : list Z) (w : Pool.world) : Prop := {
  p_parts : ∀ h, (occ h (workers w) + occ h (busy w) + held h w = occ h all)%nat;
  p_size : (size_ w = length all ∨ size_ w = 0%nat);
  p_closers : ∀ id c, closers w !! id = Some c →
    (left c + length (took c) = length all)%nat ∨ (left c = 0%nat ∧ took c = [] ∧ size_ w = 0%nat);
  p_ended : ∀ id t, (id, Finished, t) ∈ ended w → size_ w = 0%nat ∧ (length t = length all ∨ t = []);
  p_finished : size_ w = 0%nat → all ≠ [] → ∃ id t, (id, Finished, t) ∈ ended w ∧ length t = length all
}.

Inductive reachable (all : list Z) : Pool.world → Prop :=
| reach_new : reachable all (Pool.MkWorld all (length all) [] ∅ [])
| reach_step w l w' : reachable all w → Pool.step l w = Some w' → reachable all w'.

Lemma pooled_new all : pooled all (Pool.MkWorld all (length all) [] ∅ []).
Proof.
  split; simpl; auto.
  - intros h. unfold held. simpl. rewrite map_sum_empty. simpl. lia.
  - intros id c Hc. by rewrite lookup_empty in Hc.
  - intros id t H. by apply not_elem_of_nil in H.
  - intros Hl Hn. by destruct all.
Qed.

Lemma occ_delete h k (l : list Z) i :
  l !! k = Some i → occ h l = (occ h (delete k l) + if decide (i = h) then 1 else 0)%nat.
Proof.
  revert k. induction l as [|x l IH]; intros [|k] Hk; simpl in Hk; simplify_eq.
  - change (delete 0%nat (i :: l)) with l. rewrite occ_cons. lia.
  - change (delete (S k) (x :: l)) with (x :: delete k l). rewrite !occ_cons, (IH k) by done. lia.
Qed.

Lemma pooled_step all l w w' : Pool.step l w = Some w' → pooled all w → pooled all w'.
Proof.
  intros Hstep [P1 P2 P3 P4 P5]. destruct l as [|k|id|id|id|id]; simpl in Hstep.
  - destruct (workers w) as [|i ws] eqn:Hw; [done|]. simplify_eq. split; simpl; try done.
    intros h. specialize (P1 h). rewrite occ_cons in P1. unfold held in *. simpl. rewrite occ_app, occ_cons. simpl. lia.
  - destruct (busy w !! k) as [i|] eqn:Hk; [|done]. simplify_eq/=. split; simpl; try done.
    intros h. specialize (P1 h). unfold held in *. simpl. rewrite occ_app, occ_cons. simpl.
    rewrite (occ_delete h k _ i Hk) in P1. lia.
  - destruct (closers w !! id) eqn:Hid; [done|]. case_bool_decide; [done|]. simplify_eq. split; simpl; try done.
    + intros h. specialize (P1 h). unfold held in *. simpl. rewrite map_sum_new by done. simpl. lia.
    + intros id' c Hc. destruct (decide (id' = id)) as [->|Hne].
      * rewrite lookup_insert_eq in Hc. simplify_eq/=. destruct P2 as [-> | ->]; [left; lia|by right].
      * rewrite lookup_insert_ne in Hc by done. by eapply P3.
  - destruct (closers w !! id) as [c|] eqn:Hid; [|done]. simpl in Hstep. destruct (left c) as [|n] eqn:Hn; [done|].
    destruct (workers w) as [|i ws] eqn:Hw; [done|]. simplify_eq. split; simpl; try done.
    + intros h. specialize (P1 h). rewrite occ_cons in P1. unfold held in *. simpl.
      pose proof (map_sum_insert (λ c, occ h (took c)) _ id c (MkCloser n (took c ++ [i])) Hid) as Hm. simpl in Hm.
      rewrite occ_app, occ_cons in Hm. simpl in Hm. lia.
    + intros id' c' Hc'. destruct (decide (id' = id)) as [->|Hne].
      * rewrite lookup_insert_eq in Hc'. simplify_eq/=. rewrite length_app. simpl.
        destruct (P3 id c Hid) as [H|(H & _)]; [left; lia|lia].
      * rewrite lookup_insert_ne in Hc' by done. by eapply P3.
  - destruct (closers w !! id) as [c|] eqn:Hid; [|done]. simpl in Hstep. destruct (left c) as [|n] eqn:Hn; [done|].
    simplify_eq. split; simpl; try done.
    + intros h. specialize (P1 h). unfold held in *. simpl. rewrite sum_list_with_app. simpl.
      pose proof (map_sum_lookup (λ c, occ h (took c)) _ id c Hid) as Hm. simpl in Hm. lia.
    + intros id' c' Hc'. apply lookup_delete_Some in Hc' as [_ Hc']. by eapply P3.
    + intros id' t. rewrite elem_of_app, list_elem_of_singleton. intros [H|H]; [by eapply P4|done].
    + intros Hs Hn0. destruct (P5 Hs Hn0) as (id' & t & H1 & H2). exists id', t. split; [|done]. apply elem_of_app. by left.
  - destruct (closers w !! id) as [c|] eqn:Hid; [|done]. simpl in Hstep. destruct (left c) as [|n] eqn:Hn; [|done].
    simplify_eq. split; simpl; auto.
    + intros h. specialize (P1 h). unfold held in *. simpl. rewrite sum_list_with_app. simpl.
      pose proof (map_sum_lookup (λ c, occ h (took c)) _ id c Hid) as Hm. simpl in Hm. lia.
    + intros id' c' Hc'. apply lookup_delete_Some in Hc' as [_ Hc']. destruct (P3 id' c' Hc') as [H|(H1 & H2 & H3)]; auto.
    + intros id' t. rewrite elem_of_app, list_elem_of_singleton. intros [H|[= -> ->]]; (split; [done|]); [by eapply P4|].
      destruct (P3 id c Hid) as [H|(_ & -> & _)]; [left; lia|by right].
    + intros _ Hn0. destruct (P3 id c Hid) as [H|(_ & H1 & H2)].
      * exists id, (took c). split; [apply elem_of_app; right; by left|lia].
      * destruct (P5 H2 Hn0) as (id' & t & H3 & H4). exists id', t. split; [|done]. apply elem_of_app. by left.
Qed.

Lemma reachable_pooled all w : reachable all w → pooled all w.
Proof. induction 1 as [|w l w' _ IH Hs]; [apply pooled_new|by eapply pooled_step]. Qed.

(** Of a list without repetitions, a part of full length is all of it. *)
Lemma occ_full all t :
  NoDup all → (∀ h, (occ h t <= occ h all)%nat) → length t = length all → t ≡ₚ all.
Proof.
  intros Hnd Hle Hlen. apply submseteq_length_Permutation; [|lia]. apply NoDup_submseteq.
  - apply occ_nodup. intros h. specialize (Hle h). pose proof (proj1 (occ_nodup all) Hnd h). lia.
  - intros x Hx%occ_elem. apply occ_elem. specialize (Hle x). lia.
Qed.

Lemma occ_self x l : occ x (x :: l) = S (occ x l).
Proof. rewrite occ_cons. by destruct (decide (x = x)). Qed.

Definition closed_by (h : Z) (es : list (Z * ending * list Z)) : nat := sum_list_with (λ e, occ h e.2) es.

Lemma closed_by_elem h e es : e ∈ es → (occ h e.2 <= closed_by h es)%nat.
Proof. intros [i Hi]%list_elem_of_lookup. by apply (sum_lookup (λ e : Z * ending * list Z, occ h e.2)) in Hi. Qed.

Lemma closed_by_two h e f es : e ∈ es → f ∈ es → e ≠ f → (occ h e.2 + occ h f.2 <= closed_by h es)%nat.
Proof.
  intros He Hf Hne. induction es as [|x es IH]; [by apply not_elem_of_nil in He|].
  apply elem_of_cons in He, Hf. unfold closed_by in *. simpl.
  destruct He as [->|He], Hf as [->|Hf]; [done| | |specialize (IH He Hf); lia].
  - pose proof (closed_by_elem h f es Hf). unfold closed_by in *. lia.
  - pose proof (closed_by_elem h e es He). unfold closed_by in *. lia.
Qed.

(** C28: Every instance of a pool is, at all times, in exactly one place: waiting
    in the channel, serving one request, or taken by a Close. When a Close has
    returned, every instance was closed, by it or by one that returned before.
    But once a Close has timed out with some instance closed, no Close ever
    returns: the loop of a later one waits for as many instances as the pool was
    made with. *)
Theorem pool_instances (all : list Z) (w : Pool.world) (Hall : all ≠ []) (Hnd : NoDup all) (Hr : reachable all w) :
  (∀ h, (occ h (workers w) + occ h (busy w) + held h w = occ h all)%nat) ∧
  (∀ id t, (id, Finished, t) ∈ ended w → workers w = [] ∧ busy w = [] ∧
     ∃ id' t', (id', Finished, t') ∈ ended w ∧ t' ≡ₚ all) ∧
  (∀ id t id' t', (id, TimedOut, t) ∈ ended w → t ≠ [] → (id', Finished, t') ∉ ended w).
Proof.
  destruct (reachable_pooled all w Hr) as [P1 P2 P3 P4 P5].
  assert (Hle : ∀ h, (occ h (workers w) + occ h (busy w) + closed_by h (ended w) <= occ h all)%nat)
    by (intros h; specialize (P1 h); unfold held, closed_by in *; lia).
  assert (Hwho : ∀ id t, (id, Finished, t) ∈ ended w → ∃ id' t', (id', Finished, t') ∈ ended w ∧ t' ≡ₚ all).
  { intros id t He. destruct (P4 id t He) as [Hs _]. destruct (P5 Hs Hall) as (id' & t' & H1 & H2).
    exists id', t'. split; [done|]. apply occ_full; [done| |done]. intros h. specialize (Hle h).
    pose proof (closed_by_elem h _ _ H1). simpl in *. lia. }
  assert (Hnone : ∀ l : list Z, (∀ h, occ h l = 0%nat) → l = []).
  { intros [|x l] Hz; [done|]. specialize (Hz x). rewrite occ_self in Hz. lia. }
  split_and!; [done| |].
  - intros id t He. destruct (Hwho id t He) as (id' & t' & He' & Hp).
    assert (∀ h, (occ h (workers w) + occ h (busy w) = 0)%nat) as Hz.
    { intros h. specialize (Hle h). pose proof (closed_by_elem h _ _ He') as Hh. simpl in Hh.
      rewrite (proj1 (occ_perm _ _) Hp h) in Hh. lia. }
    split_and!; [apply Hnone; intros h; specialize (Hz h); lia..|by eauto].
  - intros id t id' t' He Hne He'. destruct (Hwho id' t' He') as (id'' & t'' & He'' & Hp).
    destruct t as [|x t]; [done|]. specialize (Hle x).
    pose proof (closed_by_two x _ _ _ He He'' ltac:(done)) as Hsum. cbn [snd] in Hsum.
    rewrite (proj1 (occ_perm _ _) Hp x), occ_self in Hsum. lia.
Qed.

(** NewPool makes a pool of the instances 0, 1, ... when each of them warms up. *)
Lemma NewPool_spec Size GOMAXPROCS news w :
  NewPool Size GOMAXPROCS news = Ok w →
  w = Pool.MkWorld (workers w) (length (workers w)) [] ∅ [] ∧ NoDup (workers w) ∧
  Z.of_nat (length (workers w)) = Z.max 0 (if Size <=? 0 then GOMAXPROCS else Size).
Proof.
  unfold NewPool. set (size := if Size <=? 0 then GOMAXPROCS else Size).
  assert (∀ n i created all, NewPool_loop n i news created = Ok all → NoDup created → (∀ j, j ∈ created → j < i) →
    NoDup all ∧ length all = (length created + n)%nat) as Hloop.
  { induction n as [|n IH]; intros i created all He Hnd Hlt; simplify_eq/=; [split; [done|lia]|].
    destruct (news i); [|done]. destruct (IH _ _ _ He) as [H1 H2].
    - apply NoDup_app. split_and!; [done| |apply NoDup_singleton]. intros x Hx. rewrite list_elem_of_singleton. specialize (Hlt x Hx). lia.
    - intros j. rewrite elem_of_app, list_elem_of_singleton. intros [Hj| ->]; [specialize (Hlt j Hj)|]; lia.
    - split; [done|]. rewrite length_app in H2. simpl in H2. lia. }
  destruct (NewPool_loop _ _ _ _) as [all|] eqn:He; [|done]. intros [= <-]. simpl.
  destruct (Hloop _ _ _ _ He) as [H1 H2]; [apply NoDup_nil_2|by intros j ?%not_elem_of_nil|]. simpl in H2.
  split_and!; [by rewrite H2|done|rewrite H2; lia].
Qed.

(** A scheduled or queue handler writes no response, and the instance is reset. *)
Lemma nonfetch_resets flusher entry sc gen :
  let w' := (runNonFetch flusher entry sc (idle gen)).2 in
  acts w' = [] ∧ resets w' = 1%nat ∧ sink w' = None ∧ streamGen w' = gen.
Proof.
  unfold runNonFetch, drainWaitUntil, does, mbind, M_bind, call_or, mret, M_ret.
  destruct entry as [[]| |]; simpl; try done. rewrite hosts_idle by done.
  destruct (s_settle sc) as [[]| |]; simpl; try done.
  destruct (s_status sc) as [[]| |]; simpl; try done; destruct (s_status' sc) as [[]| |]; simpl; try done;
    try (destruct (s_errMsg sc); done); rewrite hosts_idle by done; by destruct (s_drain sc).
Qed.

(** ** Runs *)

(** A stream of two chunks, with a pump of an earlier request still calling. *)
Definition stream_script : script :=
  MkScript (Some [1]) (Val 50) (Val (Some 51)) (Val tt) [HostWrite 3 (Some (60, Some [9])) false] (Val tt) (Val Ok_) (Val Ok_)
    (Val tt) (Val (Some (MkMeta 200 [(lit "x", lit "y")]))) (Val true) Fails (Val 0)
    [HostWrite 4 (Some (61, Some [1; 2])) false] (Val tt)
    [HostWrite 3 (Some (62, Some [9])) false; HostWrite 4 (Some (63, Some [3])) false; HostDone 4] (Val tt) [] (Val tt).

Lemma stream_replied : replied stream_script (MkMeta 200 [(lit "x", lit "y")]).
Proof. split; simpl; eauto 6. Qed.

Lemma stream_not_late : ¬ late stream_script.
Proof. by intros [|[|]]. Qed.

Lemma serve_one_response_witness :
  s_run stream_script ≠ Panics ∧ resets (serve true stream_script (idle 3)).2 = 1%nat.
Proof.
  split; [discriminate|]. apply (serve_one_response true stream_script 3). discriminate.
Defined.

Lemma serve_delivers_witness :
  (serve true stream_script (idle 3)).1 = false ∧
  acts (serve true stream_script (idle 3)).2 =
    [Add (lit "x") (lit "y"); WriteHeader 200; Write [1; 2]; Flush; Write [3]; Flush].
Proof.
  destruct (serve_delivers true stream_script _ 3 stream_replied stream_not_late) as [H _].
  destruct (H eq_refl) as [H1 H2]. split; [rewrite H1; vm_compute; reflexivity|].
  rewrite H2. vm_compute. reflexivity.
Defined.

(** Two instances, one of them busy: a Close takes the other and gives up; the
    one that follows, with nothing busy any more, gives up too. *)
Definition pool_run : list Pool.label :=
  [Take; Close 1; CloseTake 1; CloseTimeout 1; Give 0; Close 2; CloseTake 2; CloseTimeout 2].

Definition pool_end : Pool.world :=
  default (Pool.MkWorld [] 0 [] ∅ []) (Pool.steps pool_run (Pool.MkWorld [0; 1] 2 [] ∅ [])).

Lemma reachable_steps all ls w w' : Pool.steps ls w = Some w' → reachable all w → reachable all w'.
Proof.
  revert w. induction ls as [|l ls IH]; intros w Hs Hr; simpl in Hs; [by simplify_eq|].
  destruct (Pool.step l w) as [w1|] eqn:He; [|done]. simpl in Hs. eapply IH; [exact Hs|]. by eapply reach_step.
Qed.

Lemma pool_end_reachable : reachable [0; 1] pool_end.
Proof. apply (reachable_steps _ pool_run (Pool.MkWorld [0; 1] 2 [] ∅ [])); [vm_compute; reflexivity|constructor]. Qed.

Lemma pool_instances_witness :
  ended pool_end = [(1, TimedOut, [1]); (2, TimedOut, [0])] ∧ workers pool_end = [] ∧ busy pool_end = [] ∧
  ∀ id t, (id, Finished, t) ∉ ended pool_end.
Proof.
  split; [vm_compute; reflexivity|]. split; [vm_compute; reflexivity|]. split; [vm_compute; reflexivity|]. intros id t.
  apply (pool_instances [0; 1] pool_end ltac:(discriminate) ltac:(apply (bool_decide_unpack _); vm_compute; exact I) pool_end_reachable)
    with (id := 1) (t := [1]).
  - assert (ended pool_end = [(1, TimedOut, [1]); (2, TimedOut, [0])]) as -> by (vm_compute; reflexivity). left.
  - discriminate.
Defined.
